(* ===== verification/_CoqProject ===== *)
-Q . S2P
Prelude.v
CMonad.v
Stream.v
ConstantPool.v
AttributeInfo.v
ClassFile.v
ClassFileSpec.v
ClassFileProps.v
Attributes.v
StackMapTable.v
Annotations.v
Bitset.v
SetInterface.v
Liveness.v
HashMap.v
RadixTree.v
Pqueue.v
Interval.v
Opcodes.v
Bytecode.v
JavaCode.v
Types.v
Utf8.v
Monitor.v
MonitorRules.v
MonitorInv.v
MonitorProps.v
MonitorWake.v
MonitorNotify.v
LiveRanges.v
Verifier.v
VerifyFunctions.v
VerifierPass.v
VerifyTyping.v
BasicBlock.v
ControlFlow.v
ControlFlowSpec.v
ControlFlowProps.v
LinearScan.v
LinearScanSpec.v
LinearScanStore.v
LinearScanSpill.v
LinearScanAlloc.v
LinearScanBlocked.v
LinearScanLoop.v
LinearScanProps.v
DominatorTree.v
Dominance.v
DominanceSpec.v
DominanceLoop.v
DominanceProps.v
Ssa.v
SsaSpec.v
SsaInit.v
SsaTree.v
SsaLoops.v
SsaPhi.v
SsaProps.v
Tree.v
ArgsMap.v
ArgsMapProps.v
Convert.v
JavaMachine.v
TreeSem.v
ConvertRun.v
ConvertSim.v
ConvertOps.v
ConvertStack.v
ConvertHeap.v
ConvertObjects.v
ConvertCalls.v
ToyMachine.v
ConvertTable.v
ConvertGrow.v
ConvertBlock.v
ConvertSwitch.v
ConvertBranch.v
ConvertUnit.v
ConvertSpill.v
ConvertProps.v
