(* ===== verification/Prelude.v ===== *)
(** * A verification library for the Jato virtual machine

    Jato is a Java virtual machine with a just-in-time compiler, written in C.  A
    class file goes through these parts, and this library models the ones marked
    with a file:

    - cafebabe (src/cafebabe) reads class files: a bounded byte stream
      ([Stream]), the constant pool ([ConstantPool]), fields, methods and raw
      attributes ([AttributeInfo]), the class with its constant pool, members and
      searches ([ClassFile]), and the contents of the attributes: code, constant
      values, line numbers and the like ([Attributes]), stack maps
      ([StackMapTable]), annotations ([Annotations]).
    - vm (src/vm) keeps classes and objects at run time.  Modelled: the
      instructions of the bytecode with their sizes and targets ([Opcodes],
      [Bytecode]: vm/bytecode.c and its tables), the types and descriptors
      ([Types]: vm/types.c), modified UTF-8 ([Utf8]: vm/utf8.c), the bytecode
      verifier ([Verifier], [VerifyFunctions]: vm/verifier.c,
      vm/verify-functions.c), the monitors of objects with the interrupts of threads
      ([Monitor]: vm/monitor.c and parts of vm/thread.c).
    - jit (src/jit) compiles methods: bytecode to basic blocks, blocks to trees, trees
      to low-level instructions with virtual registers, liveness, register allocation,
      code.  Modelled: basic blocks and the control flow graph ([BasicBlock],
      [ControlFlow]: jit/basic-block.c, jit/cfg-analyzer.c), dominators and the first
      half of SSA construction ([Dominance], [Ssa]: jit/dominance.c, jit/ssa.c), live
      variable analysis with the live ranges ([Liveness], [LiveRanges]: jit/liveness.c),
      live intervals ([Interval]: jit/interval.c) and the register allocator
      ([LinearScan]: jit/linear-scan.c).
    - lib (src/lib) holds the containers the rest uses.  Modelled: bit sets
      ([Bitset]: lib/bitset.c, with the interface [SetInterface] the liveness
      analysis is proved against), hash maps ([HashMap]: lib/hash-map.c), radix
      trees ([RadixTree]: lib/radix-tree.c), the priority queue of the register
      allocator ([Pqueue]: lib/pqueue.c).

    A class file read by [ClassFile] holds the methods whose code [Verifier] checks;
    the code that passes is cut into blocks by [ControlFlow], whose blocks are what
    [Liveness] works on; the ranges it finds are the intervals of [Interval], which
    [LinearScan] takes from the queue of [Pqueue] and gives registers.

    ** How C is modelled

    Integers are [Z] in the range of their type; an operation that can leave the
    range is written with the wrap of the type ([u8] to [u64], [s8] to [s64]), and
    signed overflow is undefined.  The target is x86-64: [long] and pointers take
    eight bytes, [char] is signed.  Undefined behaviour (an access outside an
    object, a read of memory never written, a null dereference, a failed
    assertion, a double free) is a result of its own: [Undef] in the monad of
    [CMonad], [None] in functions without a heap.  No theorem about a result
    passes over it: memory safety is that it does not occur.

    [CMonad] is a state and error monad with the heap: [Done] a normal return,
    [Fail] an error return, [Undef].  The heap ([mem]) is the set of allocated
    blocks; the class [Allocator] says which request succeeds, so the theorems hold
    for every pattern of allocation failures.  cafebabe, the priority queue and the
    descriptors keep track of each block, so their leaks and double frees are
    visible; the other components use the heap only to decide which allocations fail.

    Loops are structural where the C loop runs over a list and take fuel
    elsewhere; the fuel is a bound computed from the input, and the theorems say
    the result is reached: no theorem is about partial correctness alone.  The
    bounds: [Annotations] counts the bytes left, [live_fuel] the bits of the live
    sets, [bytecode_insn_count], the verifier's pass and [split_after_branches] the
    bytes of the code (an instruction has at least one), the loops over switches the
    length of the code, [parse_args] and the UTF-8 loops the length of the string, the
    heap loops the number of elements, [allocate_loop] the positions of all intervals
    (every round takes an interval off the queue, and only a cut puts one back), the
    loops over children the number of intervals.

    Threads are modelled by steps: [Monitor] gives every thread a program counter and
    its locals, a step is one access to shared memory or one call of the system, and
    the threads interleave in any order on sequentially consistent memory.

    ** The files

    - [Prelude]: machine integers, bit fields, big-endian fields; the hint database
      [cint] and the tactic [clia].
    - [CMonad]: the monad, its weakest preconditions and loop rules, the heap.
    - [Stream]: cafebabe/stream.c, and what it is to parse an encoding and to read
      it back ([parses], [reads_back]), with the rules for sequences, loops and
      error paths all the readers share.
    - [ConstantPool], [AttributeInfo], [ClassFile]: the definitions of
      cafebabe/constant_pool.c, attribute_info.c, field_info.c, method_info.c,
      class.c and attribute_array.c, with the lemmas of each reader.
      [cafebabe_class_init] is in phases that follow its error labels.
      [ClassFileSpec] has the encoding of a class and the phases' specifications,
      [ClassFileProps] the theorems: a successful read means the file is the
      encoding of the class returned, a failed one releases everything, every
      well-formed class reads back; what [cafebabe_class_deinit] releases and where
      it is undefined; the searches find the first match.
    - [Attributes], [StackMapTable], [Annotations]: the readers of attribute
      contents and their releases; exactness, round trips, termination, and the
      blocks their release leaves.
    - [Bitset], [SetInterface], [Liveness], [LiveRanges]: the bit set operations are the
      set operations; live-in and live-out are the registers with a path to a use
      before a definition, the iteration ends; the live ranges contain every position
      where a variable is live, defined or clobbered by a call.
    - [HashMap], [RadixTree], [Pqueue]: each against a map or a multiset: insertion,
      lookup, removal, and the invariant (chains, counts, heap order) they keep.
    - [Interval]: what adding a range, splitting and expiring do to the positions an
      interval covers, and the intersection of two intervals.
    - [Opcodes], [Bytecode]: the checked and the unchecked size of an instruction
      agree with its length; checked code can be walked; branch targets read back.
    - [JavaCode]: what the Java virtual machine specification says of an instruction,
      apart from the code under src/: where it goes on, jumps to, which variable and
      constant it names.  The specifications of the verifier and of the control flow
      graph are in its terms.
    - [Types], [Utf8]: every method descriptor of the specification is accepted, and beyond
      them only void arguments, arrays of void and class names of any text; the decoder
      agrees with a reference and inverts the encoding.
    - [Monitor], [MonitorRules], [MonitorInv], [MonitorProps], [MonitorWake],
      [MonitorNotify]: the steps of vm/monitor.c, the rules of an abstract lock per
      object, the invariant of the records, counts and semaphores; the refinement of
      the rules, mutual exclusion with the depth of the lock, no lost wakeups, the
      results of each call.  The number of threads is fixed, and no thread ends except
      in [monitor_use_after_free]; there are at most 2^31 - 1 threads.
    - [Verifier], [VerifyFunctions], [VerifierPass], [VerifyTyping]: all of
      vm/verifier.c and vm/verify-functions.c; the code a method is accepted with, which is
      valid code but for the gaps that [valid_code] names (targets after a leading ret, the
      last target of a tableswitch, the variables of iinc, ret and wide, the last of several
      handlers) and the ends it refuses, and the effect of instructions on the types of
      the stack, of variables and of what a block needs on entry ([jvm_exceptions] lists
      those the code types otherwise).
    - [BasicBlock], [ControlFlow], [ControlFlowSpec], [ControlFlowProps]: the blocks
      with their edges, the four passes of the analysis, the control flow graph of code
      as a specification; the analysis builds that graph, and does so for the methods
      the verifier accepts.  Where it departs from the virtual machine the specification
      says so by name: [extra_edge] for the edges behind goto_w, jsr, ret and the switches,
      [athrow_flag] for the flag a cut leaves behind, [handlers_lead] for the assertion.
    - [LinearScan], [LinearScanSpec], [LinearScanStore], [LinearScanSpill],
      [LinearScanAlloc], [LinearScanBlocked], [LinearScanLoop], [LinearScanProps]: all
      of jit/linear-scan.c over a store of intervals; the invariant of the scan (which
      intervals are in hand, listed and queued, and that those with one register do not
      meet), the chains of children, what a spill, a free and a blocked register do to
      them; the allocator ends, gives every use a register of its type, keeps intervals
      with one register apart but for ranges that start together, and partitions the
      intervals it splits.
    - [DominatorTree], [Dominance], [DominanceSpec], [DominanceLoop], [DominanceProps]:
      dominators, immediate dominators and dominance frontiers of a graph as paths
      define them; all of jit/dominance.c; the depth-first numbering, the passes over
      the blocks end with the immediate dominators, the frontiers are those of the
      definition but at the entry block, and the control flow graph [ControlFlow]
      builds meets what they ask for.  The search makes one call per block, a pass more
      than there are blocks changes nothing, and [intersect] climbs at most the sum of
      the two numbers.
    - [Ssa], [SsaSpec], [SsaInit], [SsaTree], [SsaLoops], [SsaPhi], [SsaProps]: the
      analyses of jit/ssa.c (basic block arrays, dominator tree, natural loops) and
      [insert_phi_insns] over the interface [SetInterface]; natural loops are the
      blocks that reach a back edge without the header (a block whose only back edge comes
      from itself gets none), and a block gets the phi of a
      variable exactly when it is in the iterated frontier of its definitions and the
      variable is live there, so that two definitions that meet have a phi.
    - [Tree], [ArgsMap], [Convert], [ConvertUnit]: expression and statement trees, the
      argument maps of arch/x86/args.c, every converter of jit/*-bc.c with the table of
      jit/bytecode-to-ir.c, and convert_to_ir with the spilling of stacks between blocks.
      The number of instructions of a block is at most the length of the code, which is
      the fuel of the loop.
    - [JavaMachine], [TreeSem]: what bytecode and what statements mean, over interfaces
      of floating-point numbers ([Floats]) and of the heap ([JavaHeap]).
    - [ConvertRun], [ConvertSim], [ConvertOps], [ConvertStack],
      [ConvertHeap], [ConvertObjects], [ConvertCalls], [ConvertTable], [ConvertGrow],
      [ConvertBlock], [ConvertBranch], [ConvertSpill], [ConvertProps]: the simulation of
      each instruction by what its converter appends, of blocks, and of the edges between
      blocks.  An expression on the mimic stack is evaluated later than the instruction,
      so the theorems are about the runs of the virtual machine ([jrun]) where that does
      not show ([in_order]): no division, array length or allocation throws, and the next
      instruction uses what an allocation gives.  [pop_drops_exception] is a run that is not
      in order and that the conversion does not keep.  The subroutine instructions are not converted by the code
      either.
    - [ConvertSwitch]: the two switches, which split off blocks of their own; the binary
      search agrees with a linear one.
    - [ArgsMapProps]: the argument maps follow the calling convention, given by its lists of
      registers; for instance methods the array has a spare entry.
    - [ToyMachine]: instances of the interfaces, for examples.

    ** What is not modelled

    Files, mmap and messages in cafebabe; the release of whole radix trees; the
    disassembler of vm/bytecode.c; the instruction lists of basic blocks and the blocks
    inserted for SSA.  Further out, and planned in this order: the spill slots and moves at block
    boundaries of jit/spill-reload.c, the renaming and the optimisations of jit/ssa.c, the
    x86 encoder, class loading and the small containers.  The LLVM back end, native threads and signals, the
    collector, JNI and the natives are about other systems' behaviour. *)

From stdpp Require Import base option list numbers sorting.
From stdpp Require Export prelude.
From Stdlib Require Import ZArith Lia.

#[global] Open Scope Z_scope.

(** ** Machine integers

    A w-bit C integer is a [Z] in its range; every arithmetic operation of the
    source that can leave the range is written with one of these wraps. *)

Definition u8 (z : Z) : Z := z mod 2 ^ 8.
Definition u16 (z : Z) : Z := z mod 2 ^ 16.
Definition u32 (z : Z) : Z := z mod 2 ^ 32.
Definition u64 (z : Z) : Z := z mod 2 ^ 64.

(** Conversion to a signed type: two's complement, as gcc defines it. *)
Definition signed (w z : Z) : Z :=
  let m := z mod 2 ^ w in if decide (m < 2 ^ (w - 1)) then m else m - 2 ^ w.
Definition s8 (z : Z) : Z := signed 8 z.
Definition s16 (z : Z) : Z := signed 16 z.
Definition s32 (z : Z) : Z := signed 32 z.
Definition s64 (z : Z) : Z := signed 64 z.

Definition is_u8 (z : Z) : Prop := 0 <= z < 2 ^ 8.
Definition is_u16 (z : Z) : Prop := 0 <= z < 2 ^ 16.
Definition is_u32 (z : Z) : Prop := 0 <= z < 2 ^ 32.
Definition is_u64 (z : Z) : Prop := 0 <= z < 2 ^ 64.

Create HintDb cint.
Create Rewrite HintDb cint_rw.

Ltac cint_unfold :=
  unfold is_u8, is_u16, is_u32, is_u64, u8, u16, u32, u64 in *.

(** [clia]: linear arithmetic after exposing the word bounds. *)
Ltac clia := cint_unfold; lia.

Lemma u8_id z : is_u8 z → u8 z = z.
Proof. apply Z.mod_small. Qed.
Lemma u16_id z : is_u16 z → u16 z = z.
Proof. apply Z.mod_small. Qed.
Lemma u32_id z : is_u32 z → u32 z = z.
Proof. apply Z.mod_small. Qed.
Lemma u64_id z : is_u64 z → u64 z = z.
Proof. apply Z.mod_small. Qed.
Lemma u8_range z : is_u8 (u8 z).
Proof. by apply Z.mod_pos_bound. Qed.
Lemma u16_range z : is_u16 (u16 z).
Proof. by apply Z.mod_pos_bound. Qed.
Lemma u32_range z : is_u32 (u32 z).
Proof. by apply Z.mod_pos_bound. Qed.
Lemma u64_range z : is_u64 (u64 z).
Proof. by apply Z.mod_pos_bound. Qed.

#[export] Hint Resolve u8_range u16_range u32_range u64_range : cint.
#[export] Hint Rewrite u8_id u16_id u32_id u64_id using clia : cint_rw.

Lemma signed_range w z : 1 <= w → - 2 ^ (w - 1) <= signed w z < 2 ^ (w - 1).
Proof.
  intros Hw. unfold signed. pose proof (Z.mod_pos_bound z (2 ^ w)) as Hm.
  assert (2 ^ w = 2 * 2 ^ (w - 1)) as E.
  { rewrite <- Z.pow_succ_r by lia. f_equal. lia. }
  assert (0 < 2 ^ (w - 1)) by (apply Z.pow_pos_nonneg; lia).
  case_decide; lia.
Qed.

Lemma signed_id w z : 1 <= w → - 2 ^ (w - 1) <= z < 2 ^ (w - 1) → signed w z = z.
Proof.
  intros Hw Hz. unfold signed.
  assert (2 ^ w = 2 * 2 ^ (w - 1)) as E.
  { rewrite <- Z.pow_succ_r by lia. f_equal. lia. }
  destruct (decide (0 <= z)) as [Hp|Hn].
  - rewrite Z.mod_small by lia. case_decide; lia.
  - rewrite <- (Z.mod_unique z (2 ^ w) (-1) (z + 2 ^ w)) by lia.
    case_decide; lia.
Qed.

(** Converting a signed value back to its unsigned type is the identity on bits. *)
Lemma signed_mod w z : 1 <= w → signed w z mod 2 ^ w = z mod 2 ^ w.
Proof.
  intros Hw. unfold signed. assert (0 < 2 ^ w) by (apply Z.pow_pos_nonneg; lia).
  case_decide.
  - by rewrite Z.mod_mod by lia.
  - rewrite <- (Z_mod_plus_full _ 1), Z.mul_1_l.
    replace (z mod 2 ^ w - 2 ^ w + 2 ^ w) with (z mod 2 ^ w) by lia.
    by rewrite Z.mod_mod by lia.
Qed.

(** ** Bit operations on disjoint bit fields *)

Lemma land_shiftl_small a b n : 0 <= n → 0 <= b < 2 ^ n → Z.land (Z.shiftl a n) b = 0.
Proof.
  intros Hn Hb. apply Z.bits_inj'. intros k Hk. rewrite Z.land_spec, Z.bits_0.
  destruct (decide (k < n)).
  - by rewrite Z.shiftl_spec_low by lia.
  - rewrite <- (Z.mod_small b (2 ^ n)), Z.mod_pow2_bits_high by lia.
    by rewrite andb_false_r.
Qed.

(** Or-ing a low field into a shifted high field adds the two. *)
Lemma lor_shiftl_add a b n : 0 <= n → 0 <= b < 2 ^ n → Z.lor (Z.shiftl a n) b = a * 2 ^ n + b.
Proof.
  intros Hn Hb. pose proof (Z.add_lor_land (Z.shiftl a n) b) as E.
  rewrite land_shiftl_small in E by done. rewrite Z.shiftl_mul_pow2 in * by lia. lia.
Qed.

(** ** Lists indexed by machine integers *)

(** The bytes of a big-endian 16- and 32-bit field. *)
Definition be16 (x : Z) : list Z := [x / 2 ^ 8; x mod 2 ^ 8].
Definition be32 (x : Z) : list Z :=
  [x / 2 ^ 24; (x / 2 ^ 16) mod 2 ^ 8; (x / 2 ^ 8) mod 2 ^ 8; x mod 2 ^ 8].

Arguments be16 : simpl never.
Arguments be32 : simpl never.

Lemma be16_inv b0 b1 : is_u8 b0 → is_u8 b1 → be16 (b0 * 2 ^ 8 + b1) = [b0; b1].
Proof.
  intros H0 H1. unfold be16. rewrite Z.div_add_l by lia.
  rewrite Z.div_small by done. rewrite Z.add_0_r.
  by rewrite Z.add_comm, Z_mod_plus_full, Z.mod_small by done.
Qed.

Lemma be32_inv b0 b1 b2 b3 :
  is_u8 b0 → is_u8 b1 → is_u8 b2 → is_u8 b3 →
  be32 (b0 * 2 ^ 24 + b1 * 2 ^ 16 + b2 * 2 ^ 8 + b3) = [b0; b1; b2; b3].
Proof.
  intros H0 H1 H2 H3. unfold be32, is_u8 in *. cbn in *.
  repeat f_equal; Z.to_euclidean_division_equations; lia.
Qed.

Lemma be16_bytes x : is_u16 x → Forall is_u8 (be16 x).
Proof.
  intros H. unfold be16, is_u16, is_u8 in *. cbn in *.
  repeat constructor; Z.to_euclidean_division_equations; lia.
Qed.

Lemma be32_bytes x : is_u32 x → Forall is_u8 (be32 x).
Proof.
  intros H. unfold be32, is_u32, is_u8 in *. cbn in *.
  repeat constructor; Z.to_euclidean_division_equations; lia.
Qed.

Lemma be16_value x : (x / 2 ^ 8) * 2 ^ 8 + x mod 2 ^ 8 = x.
Proof. cbn. Z.to_euclidean_division_equations; lia. Qed.

Lemma be32_value x :
  (x / 2 ^ 24) * 2 ^ 24 + ((x / 2 ^ 16) mod 2 ^ 8) * 2 ^ 16
  + ((x / 2 ^ 8) mod 2 ^ 8) * 2 ^ 8 + x mod 2 ^ 8 = x.
Proof. cbn. Z.to_euclidean_division_equations; lia. Qed.
