(* ===== verification/CMonad.v ===== *)
(** * C control flow and heap blocks

    The effects of the C sources as a small monad: a computation runs on a
    state and either returns a value, returns with an error (the [goto out] /
    non-zero return of the sources, carrying what the error path still needs),
    or has undefined behaviour.  [malloc] and [free] act on a record of the
    blocks that are allocated; whether a request succeeds is decided by an
    [Allocator], over which every theorem quantifies.  The weakest-precondition
    rules below are what the component proofs use. *)

From stdpp Require Export gmultiset.
From S2P Require Import Prelude.
#[local] Open Scope Z_scope.

#[global] Arguments gmultiset_disj_union : simpl never.
#[global] Arguments gmultiset_difference : simpl never.
#[global] Arguments gmultiset_empty : simpl never.
#[global] Arguments disj_union : simpl never.

(** ** Outcomes *)

Inductive outcome (S E A : Type) : Type :=
  | Done (a : A) (s : S)     (** normal return *)
  | Fail (e : E) (s : S)     (** error return; [e] is for the error path *)
  | Undef.                   (** undefined behaviour, or a loop left without fuel *)
Arguments Done {S E A} a s.
Arguments Fail {S E A} e s.
Arguments Undef {S E A}.

Definition M (S E A : Type) : Type := S → outcome S E A.

Section monad.
Context {S : Type}.

Definition ret {E A} (a : A) : M S E A := λ s, Done a s.
Definition fail {E A} (e : E) : M S E A := λ s, Fail e s.
Definition undef {E A} : M S E A := λ _, Undef.
Definition bind {E A B} (m : M S E A) (f : A → M S E B) : M S E B := λ s,
  match m s with
  | Done a s' => f a s'
  | Fail e s' => Fail e s'
  | Undef => Undef
  end.
(** [goto label]: run the error path on the payload, then return an error. *)
Definition on_error {E E' A} (m : M S E A) (h : E → M S E' unit) (e' : E') : M S E' A := λ s,
  match m s with
  | Done a s' => Done a s'
  | Fail e s' =>
    match h e s' with
    | Done _ s'' => Fail e' s''
    | Fail e'' s'' => Fail e'' s''
    | Undef => Undef
    end
  | Undef => Undef
  end.
Definition get {E A} (f : S → A) : M S E A := λ s, Done (f s) s.
Definition modify {E} (f : S → S) : M S E unit := λ s, Done tt (f s).

(** [for (i = 0; i < n; ++i) if (init(&array[i])) goto out;] with the elements
    initialised so far handed to the error path. *)
Fixpoint init_loop {A} (init : M S unit A) (n : nat) (acc : list A) : M S (list A) (list A) :=
  match n with
  | O => ret acc
  | Datatypes.S n' => λ s,
    match init s with
    | Done a s' => init_loop init n' (acc ++ [a]) s'
    | Fail _ s' => Fail acc s'
    | Undef => Undef
    end
  end.

(** [for (i = 0; i < n; ++i) deinit(&array[i]);] *)
Fixpoint for_each {E A} (f : A → M S E unit) (l : list A) : M S E unit :=
  match l with
  | [] => ret tt
  | a :: l' => bind (f a) (λ _, for_each f l')
  end.
End monad.

Declare Scope cmonad_scope.
Delimit Scope cmonad_scope with cm.
Notation "'let*' x := m 'in' k" := (bind m (λ x, k))
  (at level 10, x name, m at level 99, k at level 200) : cmonad_scope.
Notation "'do' m ';;' k" := (bind m (λ _, k))
  (at level 10, m at level 99, k at level 200) : cmonad_scope.
#[global] Open Scope cmonad_scope.

(** ** Weakest preconditions *)

Definition wp {S E A} (m : M S E A) (Q : A → S → Prop) (R : E → S → Prop) (s : S) : Prop :=
  match m s with
  | Done a s' => Q a s'
  | Fail e s' => R e s'
  | Undef => False
  end.

Section wp.
Context {S : Type}.

Lemma wp_mono {E A} (m : M S E A) (Q Q' : A → S → Prop) (R R' : E → S → Prop) s :
  wp m Q R s → (∀ a s', Q a s' → Q' a s') → (∀ e s', R e s' → R' e s') → wp m Q' R' s.
Proof. unfold wp. destruct (m s); auto. Qed.

Lemma wp_ret {E A} (a : A) Q (R : E → S → Prop) s : Q a s → wp (ret a) Q R s.
Proof. done. Qed.

Lemma wp_fail {E A} (e : E) (Q : A → S → Prop) R s : R e s → wp (fail e) Q R s.
Proof. done. Qed.

Lemma wp_bind {E A B} (m : M S E A) (f : A → M S E B) Q R s :
  wp m (λ a s', wp (f a) Q R s') R s → wp (bind m f) Q R s.
Proof. unfold wp, bind. by destruct (m s). Qed.

(** The form the parser proofs use: run [m] by its specification, then go on. *)
Lemma wp_seq {E A B} (m : M S E A) (f : A → M S E B) Q' R' Q R s :
  wp m Q' R' s →
  (∀ a s', Q' a s' → wp (f a) Q R s') →
  (∀ e s', R' e s' → R e s') →
  wp (bind m f) Q R s.
Proof. intros H1 H2 H3. apply wp_bind. eapply wp_mono; eauto. Qed.

Lemma wp_on_error {E E' A} (m : M S E A) (h : E → M S E' unit) e' Q R s :
  wp m Q (λ e s', wp (h e) (λ _ s'', R e' s'') R s') s → wp (on_error m h e') Q R s.
Proof.
  unfold wp, on_error. destruct (m s) as [a s'|e s'|]; try done.
  by destruct (h e s').
Qed.

Lemma wp_get {E A} (f : S → A) Q (R : E → S → Prop) s : Q (f s) s → wp (get f) Q R s.
Proof. done. Qed.

Lemma wp_modify {E} f Q (R : E → S → Prop) s : Q tt (f s) → wp (modify f) Q R s.
Proof. done. Qed.

(** Loop rule: [I l s] holds when the elements [l] have been initialised. *)
Lemma wp_init_loop {A} (init : M S unit A) (I : list A → S → Prop) (F : list A → S → Prop) n acc s :
  I acc s →
  (∀ l s', I l s' → wp init (λ a s'', I (l ++ [a]) s'') (λ _ s'', F l s'') s') →
  wp (init_loop init n acc)
     (λ l s', I l s' ∧ length l = (length acc + n)%nat) F s.
Proof.
  intros HI Hstep. revert acc s HI. induction n as [|n IH]; intros acc s HI.
  - cbn. split; [done|lia].
  - unfold wp. cbn. pose proof (Hstep acc s HI) as H. unfold wp in H.
    destruct (init s) as [a s'|e s'|]; try done.
    eapply wp_mono; [by apply IH|cbn|done].
    intros l s'' [? Hl]. split; [done|]. rewrite Hl, length_app. cbn. lia.
Qed.

Lemma wp_for_each {E A} (f : A → M S E unit) (I : list A → S → Prop) (R : E → S → Prop) l s :
  I l s →
  (∀ a l' s', I (a :: l') s' → wp (f a) (λ _ s'', I l' s'') R s') →
  wp (for_each f l) (λ _ s', I [] s') R s.
Proof.
  intros HI Hstep. revert s HI. induction l as [|a l IH]; intros s HI; [done|].
  cbn. eapply wp_seq; [by apply Hstep| |done]. cbn. auto.
Qed.
End wp.

(** ** Heap blocks *)

(** A block is named by the number of the request that allocated it; [None] is
    the null pointer. *)
Definition block : Type := nat.

(** Whether the n-th request, for this many bytes, succeeds. *)
Class Allocator := malloc_ok : nat → Z → bool.

Record mem := Mem { m_next : nat; m_live : gmultiset block }.

Definition mem_malloc `{Allocator} (size : Z) (m : mem) : option block * mem :=
  if malloc_ok (m_next m) size
  then (Some (m_next m), Mem (S (m_next m)) ({[+ m_next m +]} ⊎ m_live m))
  else (None, Mem (S (m_next m)) (m_live m)).

(** Freeing a block that is not allocated is undefined. *)
Definition mem_free (p : block) (m : mem) : option mem :=
  if decide (p ∈ m_live m) then Some (Mem (m_next m) (m_live m ∖ {[+ p +]})) else None.

Lemma mem_free_live p m l :
  m_live m = {[+ p +]} ⊎ l → mem_free p m = Some (Mem (m_next m) l).
Proof.
  intros H. unfold mem_free. rewrite decide_True by multiset_solver.
  do 2 f_equal. multiset_solver.
Qed.

(** The blocks a list of structures owns. *)
Definition owns_list {A} (owns : A → gmultiset block) (l : list A) : gmultiset block :=
  foldr (λ a acc, owns a ⊎ acc) ∅ l.

Lemma owns_list_nil {A} (owns : A → gmultiset block) : owns_list owns [] = ∅.
Proof. done. Qed.
Lemma owns_list_cons {A} (owns : A → gmultiset block) a l :
  owns_list owns (a :: l) = owns a ⊎ owns_list owns l.
Proof. done. Qed.
Lemma owns_list_app {A} (owns : A → gmultiset block) l1 l2 :
  owns_list owns (l1 ++ l2) = owns_list owns l1 ⊎ owns_list owns l2.
Proof.
  induction l1 as [|a l1 IH]; [by rewrite owns_list_nil, (left_id_L ∅ (⊎))|].
  cbn [app]. rewrite !owns_list_cons, IH. multiset_solver.
Qed.
Lemma owns_list_snoc {A} (owns : A → gmultiset block) l a :
  owns_list owns (l ++ [a]) = owns_list owns l ⊎ owns a.
Proof. by rewrite owns_list_app, owns_list_cons, owns_list_nil, (right_id_L ∅ (⊎)). Qed.

(** ** Inverting a normal return *)

Lemma bind_done {S E A B} (m : M S E A) (f : A → M S E B) s b s'' :
  bind m f s = Done b s'' → ∃ a s', m s = Done a s' ∧ f a s' = Done b s''.
Proof. unfold bind. destruct (m s); try done. eauto. Qed.

Lemma on_error_done {S E E' A} (m : M S E A) (h : E → M S E' unit) e' s a s' :
  on_error m h e' s = Done a s' → m s = Done a s'.
Proof.
  unfold on_error. destruct (m s) as [a0 s0|e0 s0|]; [by intros [= -> ->]| |done].
  by destruct (h e0 s0).
Qed.

(** Peel the binds and error scopes off a computation that returned. *)
Ltac inv_done :=
  repeat match goal with
  | H : bind _ _ _ = Done _ _ |- _ => apply bind_done in H as (? & ? & ? & H)
  | H : on_error _ _ _ _ = Done _ _ |- _ => apply on_error_done in H
  | H : ret _ _ = Done _ _ |- _ => injection H as ? ?; subst
  | H : get _ _ = Done _ _ |- _ => injection H as ? ?; subst
  | H : fail _ _ = Done _ _ |- _ => discriminate H
  | H : (if ?b then _ else _) _ = Done _ _ |- _ => destruct b eqn:?
  end.
