(* ===== verification/Stream.v ===== *)
(** * cafebabe/stream.c: bounded reads from a class file image

    State: the stream and the allocated blocks.  A read past the end sets the
    error code and returns an error; an index outside the buffer is undefined
    behaviour.  Positions and bounds are the source's 32-bit unsigned integers,
    wrap-around included.  Opening and closing files ([cafebabe_stream_open],
    [cafebabe_stream_close]) is system calls only and is not modelled. *)

From S2P Require Import Prelude CMonad.
#[local] Open Scope Z_scope.

(** include/cafebabe/error.h *)
Inductive cafebabe_errno : Type :=
  | CAFEBABE_ERROR_ERRNO
  | CAFEBABE_ERROR_EXPECTED_EOF
  | CAFEBABE_ERROR_UNEXPECTED_EOF
  | CAFEBABE_ERROR_BAD_MAGIC_NUMBER
  | CAFEBABE_ERROR_BAD_CONSTANT_TAG
  | CAFEBABE_ERROR_INVALID_STACK_FRAME_TAG.

#[export] Instance cafebabe_errno_eq_dec : EqDecision cafebabe_errno.
Proof. solve_decision. Defined.

Definition ENOMEM : Z := 12.

(** struct cafebabe_stream, less the fields only [open]/[close] use. *)
Record cafebabe_stream := CStream {
  virtual : list Z;
  virtual_i : Z;
  virtual_n : Z;
  cafebabe_errno_of : cafebabe_errno;
  syscall_errno : Z;
}.

Record cstate := CState { strm : cafebabe_stream; cmem : mem }.

Definition parser (A : Type) : Type := M cstate unit A.

Definition live (s : cstate) : gmultiset block := m_live (cmem s).

(** ** Operations *)

Definition set_errno {E} (e : cafebabe_errno) : M cstate E unit := modify (λ s,
  CState (CStream (virtual (strm s)) (virtual_i (strm s)) (virtual_n (strm s))
                  e (syscall_errno (strm s))) (cmem s)).

(** s->virtual_i += k, in unsigned int. *)
Definition advance {E} (k : Z) : M cstate E unit := modify (λ s,
  CState (CStream (virtual (strm s)) (u32 (virtual_i (strm s) + k)) (virtual_n (strm s))
                  (cafebabe_errno_of (strm s)) (syscall_errno (strm s))) (cmem s)).

(** v[i]: reading outside the buffer is undefined. *)
Definition virtual_byte {E} (i : Z) : M cstate E Z := λ s,
  match virtual (strm s) !! Z.to_nat i with
  | Some b => Done b s
  | None => Undef
  end.

Definition cafebabe_stream_open_buffer (buf : list Z) (size : Z) (st : cafebabe_stream)
  : cafebabe_stream :=
  CStream buf 0 size (cafebabe_errno_of st) (syscall_errno st).

Definition cafebabe_stream_eof {E} : M cstate E bool :=
  get (λ s, bool_decide (virtual_i (strm s) = virtual_n (strm s))).

Definition cafebabe_stream_read_uint8 : parser Z :=
  let* i := get (λ s, virtual_i (strm s)) in
  let* n := get (λ s, virtual_n (strm s)) in
  if decide (i >= n) then do set_errno CAFEBABE_ERROR_UNEXPECTED_EOF;; fail tt
  else
    let* b := virtual_byte i in
    do advance 1;; ret b.

Definition cafebabe_stream_read_uint16 : parser Z :=
  let* i := get (λ s, virtual_i (strm s)) in
  let* n := get (λ s, virtual_n (strm s)) in
  if decide (u32 (i + 1) >= n) then do set_errno CAFEBABE_ERROR_UNEXPECTED_EOF;; fail tt
  else
    let* b0 := virtual_byte i in
    let* b1 := virtual_byte (u32 (i + 1)) in
    do advance 2;;
    ret (u16 (Z.lor (Z.shiftl b0 8) b1)).

Definition cafebabe_stream_read_uint32 : parser Z :=
  let* i := get (λ s, virtual_i (strm s)) in
  let* n := get (λ s, virtual_n (strm s)) in
  if decide (u32 (i + 3) >= n) then do set_errno CAFEBABE_ERROR_UNEXPECTED_EOF;; fail tt
  else
    let* b0 := virtual_byte i in
    let* b1 := virtual_byte (u32 (i + 1)) in
    let* b2 := virtual_byte (u32 (i + 2)) in
    let* b3 := virtual_byte (u32 (i + 3)) in
    do advance 4;;
    ret (u32 (Z.lor (Z.lor (Z.lor (Z.shiftl b0 24) (Z.shiftl b1 16)) (Z.shiftl b2 8)) b3)).

(** The pointer [s->virtual + s->virtual_i], as an offset into the buffer. *)
Definition cafebabe_stream_pointer {E} : M cstate E Z := get (λ s, virtual_i (strm s)).

Definition cafebabe_stream_skip (n : Z) : parser unit :=
  let* i := get (λ s, virtual_i (strm s)) in
  let* vn := get (λ s, virtual_n (strm s)) in
  if decide (u32 (i + n) >= vn) then do set_errno CAFEBABE_ERROR_UNEXPECTED_EOF;; fail tt
  else do advance n;; ret tt.

Definition cafebabe_stream_malloc `{Allocator} (size : Z) : parser block := λ s,
  match mem_malloc size (cmem s) with
  | (Some p, m) => Done p (CState (strm s) m)
  | (None, m) =>
    Fail tt (CState (CStream (virtual (strm s)) (virtual_i (strm s)) (virtual_n (strm s))
                             CAFEBABE_ERROR_ERRNO ENOMEM) m)
  end.

(** free(3) on a block. *)
Definition free_block {E} (p : block) : M cstate E unit := λ s,
  match mem_free p (cmem s) with
  | Some m => Done tt (CState (strm s) m)
  | None => Undef
  end.

(** ** Invariant and specifications *)

(** The buffer has the announced length, holds bytes, and leaves room for the
    32-bit sums [i + 1] and [i + 3] of the reads. *)
Record stream_ok (s : cstate) : Prop := {
  ok_len : virtual_n (strm s) = Z.of_nat (length (virtual (strm s)));
  ok_max : virtual_n (strm s) <= 2 ^ 32 - 4;
  ok_pos : 0 <= virtual_i (strm s) <= virtual_n (strm s);
  ok_bytes : Forall is_u8 (virtual (strm s));
}.

(** The bytes not read yet. *)
Definition rest (s : cstate) : list Z := drop (Z.to_nat (virtual_i (strm s))) (virtual (strm s)).

(** [s'] is [s] after consuming the bytes [bs]. *)
Record adv (s s' : cstate) (bs : list Z) : Prop := {
  adv_ok : stream_ok s';
  adv_buf : virtual (strm s') = virtual (strm s);
  adv_rest : rest s = bs ++ rest s';
}.

(** What an error return keeps. *)
Record kept (s s' : cstate) : Prop := {
  kept_ok : stream_ok s';
  kept_buf : virtual (strm s') = virtual (strm s);
}.

(** A parser that consumes exactly the encoding of what it returns, owns the
    blocks of what it returns, and on an error owns nothing. *)
Definition parses {A} (m : parser A) (owns : A → gmultiset block) (enc : A → list Z)
    (ok : A → Prop) : Prop :=
  ∀ s, stream_ok s →
    wp m (λ a s', adv s s' (enc a) ∧ live s' = owns a ⊎ live s ∧ ok a)
         (λ _ s', kept s s' ∧ live s' = live s) s.

(** A parser that reads back every encoding when memory is available; [rel]
    relates what was encoded to what is read. *)
Definition reads_back {A} (m : parser A) (enc : A → list Z) (ok : A → Prop)
    (rel : A → A → Prop) : Prop :=
  ∀ s a r, stream_ok s → ok a → rest s = enc a ++ r →
    wp m (λ a' s', stream_ok s' ∧ rest s' = r ∧ rel a a') (λ _ _, False) s.

Definition owns_nothing {A} (_ : A) : gmultiset block := ∅.

Lemma adv_refl s : stream_ok s → adv s s [].
Proof. by constructor. Qed.

Lemma adv_trans s1 s2 s3 b1 b2 : adv s1 s2 b1 → adv s2 s3 b2 → adv s1 s3 (b1 ++ b2).
Proof.
  intros [? ? H1] [? ? H2]. constructor; [done|congruence|].
  by rewrite H1, H2, (assoc_L (++)).
Qed.

Lemma adv_kept s s' bs : adv s s' bs → kept s s'.
Proof. intros []. by constructor. Qed.

Lemma kept_trans s1 s2 s3 : kept s1 s2 → kept s2 s3 → kept s1 s3.
Proof. intros [] []. constructor; [done|congruence]. Qed.

Lemma adv_kept_trans s1 s2 s3 bs : adv s1 s2 bs → kept s2 s3 → kept s1 s3.
Proof. eauto using adv_kept, kept_trans. Qed.

Lemma rest_length s : stream_ok s →
  Z.of_nat (length (rest s)) = virtual_n (strm s) - virtual_i (strm s).
Proof. intros [Hl _ Hp _]. unfold rest. rewrite length_drop. lia. Qed.

Lemma adv_length s s' bs : adv s s' bs → length (rest s) = (length bs + length (rest s'))%nat.
Proof. intros [_ _ ->]. apply length_app. Qed.

Lemma rest_bytes s : stream_ok s → Forall is_u8 (rest s).
Proof. intros []. unfold rest. by apply Forall_drop. Qed.

Create HintDb cstream.
#[export] Hint Resolve adv_kept kept_trans adv_kept_trans adv_refl adv_ok kept_ok : cstream.

(** Bytes of the buffer at and after the position are the bytes of [rest]. *)
Lemma virtual_lookup s (k : nat) : stream_ok s →
  virtual (strm s) !! Z.to_nat (virtual_i (strm s) + Z.of_nat k) = rest s !! k.
Proof.
  intros [_ _ Hp _]. unfold rest. rewrite lookup_drop. f_equal. lia.
Qed.

Lemma advance_adv s (k : nat) bs :
  stream_ok s → take k (rest s) = bs → length bs = k →
  adv s (CState (CStream (virtual (strm s)) (u32 (virtual_i (strm s) + Z.of_nat k))
                 (virtual_n (strm s)) (cafebabe_errno_of (strm s)) (syscall_errno (strm s)))
                (cmem s)) bs.
Proof.
  intros Hok Hbs Hk. pose proof (rest_length s Hok) as Hl. destruct Hok as [? Hm Hp ?].
  assert (k <= length (rest s))%nat by (subst bs; rewrite length_take in Hk; lia).
  assert (u32 (virtual_i (strm s) + Z.of_nat k) = virtual_i (strm s) + Z.of_nat k) as E.
  { apply u32_id. unfold is_u32. lia. }
  constructor; [|done|].
  - constructor; cbn; rewrite ?E; try done. lia.
  - unfold rest at 2. cbn. rewrite E, Z2Nat.inj_add, Nat2Z.id, <- drop_drop by lia.
    fold (rest s). by rewrite <- Hbs, take_drop.
Qed.

Lemma set_errno_kept {E} e s : stream_ok s →
  wp (set_errno e : M cstate E unit) (λ _ s', kept s s' ∧ live s' = live s) (λ _ _, False) s.
Proof. intros []. split; [constructor; [by constructor|done]|done]. Qed.

Lemma lor_bytes16 b0 b1 : is_u8 b0 → is_u8 b1 →
  u16 (Z.lor (Z.shiftl b0 8) b1) = b0 * 2 ^ 8 + b1.
Proof.
  intros H0 H1. rewrite lor_shiftl_add by clia. apply u16_id. clia.
Qed.

Lemma lor_bytes32 b0 b1 b2 b3 : is_u8 b0 → is_u8 b1 → is_u8 b2 → is_u8 b3 →
  u32 (Z.lor (Z.lor (Z.lor (Z.shiftl b0 24) (Z.shiftl b1 16)) (Z.shiftl b2 8)) b3)
  = b0 * 2 ^ 24 + b1 * 2 ^ 16 + b2 * 2 ^ 8 + b3.
Proof.
  intros H0 H1 H2 H3.
  replace (Z.shiftl b0 24) with (Z.shiftl (Z.shiftl b0 8) 16) by (by rewrite Z.shiftl_shiftl).
  rewrite <- Z.shiftl_lor, (lor_shiftl_add b0 b1) by clia.
  replace (Z.shiftl (b0 * 2 ^ 8 + b1) 16) with (Z.shiftl (Z.shiftl (b0 * 2 ^ 8 + b1) 8) 8)
    by (by rewrite Z.shiftl_shiftl).
  rewrite <- Z.shiftl_lor, (lor_shiftl_add _ b2), lor_shiftl_add by clia.
  rewrite u32_id; clia.
Qed.

(** ** The reads, on every input *)

Definition advanced (s : cstate) (k : Z) : cstate :=
  CState (CStream (virtual (strm s)) (u32 (virtual_i (strm s) + k)) (virtual_n (strm s))
                  (cafebabe_errno_of (strm s)) (syscall_errno (strm s))) (cmem s).

Definition at_eof (s : cstate) : cstate :=
  CState (CStream (virtual (strm s)) (virtual_i (strm s)) (virtual_n (strm s))
                  CAFEBABE_ERROR_UNEXPECTED_EOF (syscall_errno (strm s))) (cmem s).

Lemma advanced_adv s bs r :
  stream_ok s → rest s = bs ++ r →
  adv s (advanced s (Z.of_nat (length bs))) bs ∧ rest (advanced s (Z.of_nat (length bs))) = r.
Proof.
  intros Hok Hr. assert (adv s (advanced s (Z.of_nat (length bs))) bs) as H.
  { apply advance_adv; [done| |done]. rewrite Hr. by rewrite take_app_length. }
  split; [done|]. apply adv_rest in H. rewrite Hr in H. by apply app_inv_head in H.
Qed.

Lemma at_eof_kept s : stream_ok s → kept s (at_eof s).
Proof. intros []. constructor; [by constructor|done]. Qed.

(** Every read decides on how many bytes are left. *)
Lemma read_uint8_eq s : stream_ok s →
  cafebabe_stream_read_uint8 s =
    match rest s with b :: _ => Done b (advanced s 1) | [] => Fail tt (at_eof s) end.
Proof.
  intros Hok. pose proof (rest_length s Hok) as Hl.
  pose proof (virtual_lookup s 0 Hok) as H0. rewrite Z.add_0_r in H0.
  unfold cafebabe_stream_read_uint8, bind, get, virtual_byte.
  destruct (rest s) as [|b r]; cbn in Hl.
  - rewrite decide_True by lia. done.
  - rewrite decide_False by lia. by rewrite H0.
Qed.

Lemma read_uint16_eq s : stream_ok s →
  cafebabe_stream_read_uint16 s =
    match rest s with
    | b0 :: b1 :: _ => Done (b0 * 2 ^ 8 + b1) (advanced s 2)
    | _ => Fail tt (at_eof s)
    end.
Proof.
  intros Hok. pose proof (rest_length s Hok) as Hl. pose proof (rest_bytes s Hok) as Hb.
  pose proof (virtual_lookup s 0 Hok) as H0. rewrite Z.add_0_r in H0.
  pose proof (virtual_lookup s 1 Hok) as H1. change (Z.of_nat 1) with 1 in H1.
  destruct (Hok) as [_ Hm Hp _].
  unfold cafebabe_stream_read_uint16, bind, get, virtual_byte.
  rewrite (u32_id (_ + 1)) by clia.
  destruct (rest s) as [|b0 [|b1 r]]; cbn in Hl.
  1,2: rewrite decide_True by lia; done.
  rewrite decide_False by lia. rewrite H0. cbn [lookup list_lookup]. rewrite H1. cbn [lookup list_lookup].
  decompose_Forall. by rewrite lor_bytes16.
Qed.

Lemma read_uint32_eq s : stream_ok s →
  cafebabe_stream_read_uint32 s =
    match rest s with
    | b0 :: b1 :: b2 :: b3 :: _ =>
      Done (b0 * 2 ^ 24 + b1 * 2 ^ 16 + b2 * 2 ^ 8 + b3) (advanced s 4)
    | _ => Fail tt (at_eof s)
    end.
Proof.
  intros Hok. pose proof (rest_length s Hok) as Hl. pose proof (rest_bytes s Hok) as Hb.
  pose proof (virtual_lookup s 0 Hok) as H0. rewrite Z.add_0_r in H0.
  pose proof (virtual_lookup s 1 Hok) as H1. pose proof (virtual_lookup s 2 Hok) as H2.
  pose proof (virtual_lookup s 3 Hok) as H3. 
  change (Z.of_nat 1) with 1 in H1. change (Z.of_nat 2) with 2 in H2.
  change (Z.of_nat 3) with 3 in H3.
  destruct (Hok) as [_ Hm Hp _].
  unfold cafebabe_stream_read_uint32, bind, get, virtual_byte.
  rewrite (u32_id (_ + 3)) by clia.
  destruct (rest s) as [|b0 [|b1 [|b2 [|b3 r]]]]; cbn in Hl.
  1-4: rewrite decide_True by lia; done.
  rewrite decide_False by lia. rewrite !u32_id by clia.
  rewrite H0. cbn [lookup list_lookup]. rewrite H1. cbn [lookup list_lookup].
  rewrite H2. cbn [lookup list_lookup]. rewrite H3. cbn [lookup list_lookup].
  decompose_Forall. by rewrite lor_bytes32.
Qed.

Lemma byte_read_parses {A} (m : parser A) (enc : A → list Z) (ok : A → Prop) (dec : list Z → option A) :
  (∀ s, stream_ok s → m s = match dec (rest s) with
                            | Some a => Done a (advanced s (Z.of_nat (length (enc a))))
                            | None => Fail tt (at_eof s)
                            end) →
  (∀ bs a, Forall is_u8 bs → dec bs = Some a → ok a ∧ ∃ r, bs = enc a ++ r) →
  (∀ a r, ok a → dec (enc a ++ r) = Some a) →
  parses m owns_nothing enc ok ∧ reads_back m enc ok (=).
Proof.
  intros Hm Hdec Henc. split.
  - intros s Hok. unfold wp. rewrite Hm by done.
    destruct (dec (rest s)) as [a|] eqn:E.
    + apply Hdec in E as [Ha [r Hr]]; [|by apply rest_bytes].
      destruct (advanced_adv s (enc a) r) as [H _]; [done..|].
      split; [done|]. split; [|done]. unfold owns_nothing. multiset_solver.
    + split; [by apply at_eof_kept|done].
  - intros s a r Hok Ha Hr. unfold wp. rewrite Hm by done. rewrite Hr, Henc by done.
    by destruct (advanced_adv s (enc a) r) as [[? _ _] ->].
Qed.

Definition dec8 (bs : list Z) : option Z := match bs with b :: _ => Some b | _ => None end.
Definition dec16 (bs : list Z) : option Z :=
  match bs with b0 :: b1 :: _ => Some (b0 * 2 ^ 8 + b1) | _ => None end.
Definition dec32 (bs : list Z) : option Z :=
  match bs with
  | b0 :: b1 :: b2 :: b3 :: _ => Some (b0 * 2 ^ 24 + b1 * 2 ^ 16 + b2 * 2 ^ 8 + b3)
  | _ => None
  end.

Lemma read_uint8_both :
  parses cafebabe_stream_read_uint8 owns_nothing (λ b, [b]) is_u8 ∧
  reads_back cafebabe_stream_read_uint8 (λ b, [b]) is_u8 (=).
Proof.
  apply (byte_read_parses _ _ _ dec8).
  - intros s Hok. rewrite read_uint8_eq by done. by destruct (rest s).
  - intros [|b bs] a Hb E; simplify_eq/=. decompose_Forall. eauto.
  - done.
Qed.

Lemma read_uint16_both :
  parses cafebabe_stream_read_uint16 owns_nothing be16 is_u16 ∧
  reads_back cafebabe_stream_read_uint16 be16 is_u16 (=).
Proof.
  apply (byte_read_parses _ be16 is_u16 dec16).
  - intros s Hok. rewrite read_uint16_eq by done. by destruct (rest s) as [|? [|? ?]].
  - intros [|b0 [|b1 bs]] a Hb E; try discriminate E.
    assert (a = b0 * 2 ^ 8 + b1) as -> by (injection E as <-; reflexivity). decompose_Forall. split; [clia|].
    exists bs. change ([b0; b1] ++ bs = be16 (b0 * 2 ^ 8 + b1) ++ bs). by rewrite be16_inv.
  - intros a r Ha. unfold be16; cbn [app dec16]. by rewrite be16_value.
Qed.

Lemma read_uint32_both :
  parses cafebabe_stream_read_uint32 owns_nothing be32 is_u32 ∧
  reads_back cafebabe_stream_read_uint32 be32 is_u32 (=).
Proof.
  apply (byte_read_parses _ be32 is_u32 dec32).
  - intros s Hok. rewrite read_uint32_eq by done. by destruct (rest s) as [|? [|? [|? [|? ?]]]].
  - intros [|b0 [|b1 [|b2 [|b3 bs]]]] a Hb E; try discriminate E.
    assert (a = b0 * 2 ^ 24 + b1 * 2 ^ 16 + b2 * 2 ^ 8 + b3) as ->
      by (injection E as <-; reflexivity). decompose_Forall. split; [clia|].
    exists bs. change ([b0; b1; b2; b3] ++ bs = be32 (b0 * 2 ^ 24 + b1 * 2 ^ 16 + b2 * 2 ^ 8 + b3) ++ bs).
    by rewrite be32_inv.
  - intros a r Ha. unfold be32; cbn [app dec32]. by rewrite be32_value.
Qed.

Lemma read_uint8_parses : parses cafebabe_stream_read_uint8 owns_nothing (λ b, [b]) is_u8.
Proof. apply read_uint8_both. Qed.
Lemma read_uint16_parses : parses cafebabe_stream_read_uint16 owns_nothing be16 is_u16.
Proof. apply read_uint16_both. Qed.
Lemma read_uint32_parses : parses cafebabe_stream_read_uint32 owns_nothing be32 is_u32.
Proof. apply read_uint32_both. Qed.
Lemma read_uint8_back : reads_back cafebabe_stream_read_uint8 (λ b, [b]) is_u8 (=).
Proof. apply read_uint8_both. Qed.
Lemma read_uint16_back : reads_back cafebabe_stream_read_uint16 be16 is_u16 (=).
Proof. apply read_uint16_both. Qed.
Lemma read_uint32_back : reads_back cafebabe_stream_read_uint32 be32 is_u32 (=).
Proof. apply read_uint32_both. Qed.

(** ** Composing parsers

    [run s0 s bs L]: since [s0], the bytes [bs] were consumed and the blocks [L]
    were allocated and are still held. *)

Definition run (s0 s : cstate) (bs : list Z) (L : gmultiset block) : Prop :=
  adv s0 s bs ∧ live s = L ⊎ live s0.

Lemma run_start s : stream_ok s → run s s [] ∅.
Proof. intros. split; [by apply adv_refl|]. by rewrite (left_id_L ∅ (⊎)). Qed.

Lemma run_ok s0 s bs L : run s0 s bs L → stream_ok s.
Proof. intros [[] _]. done. Qed.

Lemma run_parse {A B} (m : parser A) owns enc ok (f : A → parser B) s0 s bs L Q R :
  run s0 s bs L → parses m owns enc ok →
  (∀ a s', run s0 s' (bs ++ enc a) (owns a ⊎ L) → ok a → wp (f a) Q R s') →
  (∀ s', kept s0 s' → live s' = L ⊎ live s0 → R tt s') →
  wp (bind m f) Q R s.
Proof.
  intros [Ha Hl] Hm Hf HR. eapply wp_seq; [apply Hm; by destruct Ha|..]; cbn.
  - intros a s' (Ha' & Hl' & Hok). apply Hf; [|done]. split; [by eapply adv_trans|].
    rewrite Hl', Hl. by rewrite (assoc_L (⊎)).
  - intros [] s' [Hk Hl']. apply HR; [by eapply adv_kept_trans|congruence].
Qed.

Lemma run_read {A B} (m : parser A) enc ok (f : A → parser B) s0 s bs L Q R :
  run s0 s bs L → parses m owns_nothing enc ok →
  (∀ a s', run s0 s' (bs ++ enc a) L → ok a → wp (f a) Q R s') →
  (∀ s', kept s0 s' → live s' = L ⊎ live s0 → R tt s') →
  wp (bind m f) Q R s.
Proof.
  intros H Hm Hf HR. eapply run_parse; [done..| |done].
  intros a s' Hr. apply Hf. unfold owns_nothing in Hr. by rewrite (left_id_L ∅ (⊎)) in Hr.
Qed.

Section alloc.
Context `{Allocator}.

Lemma run_malloc {B} size (f : block → parser B) s0 s bs L Q R :
  run s0 s bs L →
  (∀ p s', run s0 s' bs ({[+ p +]} ⊎ L) → wp (f p) Q R s') →
  (∀ s', kept s0 s' → live s' = L ⊎ live s0 → R tt s') →
  wp (bind (cafebabe_stream_malloc size) f) Q R s.
Proof.
  intros [Ha Hl] Hf HR. unfold wp, bind, cafebabe_stream_malloc, mem_malloc.
  destruct Ha as [[] Hb Hr]. destruct (malloc_ok (m_next (cmem s)) size).
  - apply Hf. split; [by constructor; [constructor|..]|]. unfold live in *. cbn. rewrite Hl.
    by rewrite (assoc_L (⊎)).
  - apply HR; [|done]. constructor; [by constructor|done].
Qed.
End alloc.

(** Releasing what a structure owns. *)
Definition frees {A} (deinit : A → M cstate unit unit) (owns : A → gmultiset block) : Prop :=
  ∀ a s l, live s = owns a ⊎ l →
    wp (deinit a) (λ _ s', strm s' = strm s ∧ live s' = l) (λ _ _, False) s.

Lemma free_block_frees : frees free_block (λ p, {[+ p +]}).
Proof.
  intros p s l Hl. unfold wp, free_block. by rewrite (mem_free_live _ _ l).
Qed.

Lemma for_each_frees {A} (deinit : A → M cstate unit unit) owns :
  frees deinit owns → frees (for_each deinit) (owns_list owns).
Proof.
  intros Hd as_ s l Hl.
  eapply wp_mono;
    [apply (wp_for_each _ (λ l' s', strm s' = strm s ∧ live s' = owns_list owns l' ⊎ l)
             (λ _ _, False))|cbv beta|done].
  - done.
  - intros a l' s' [Hs Hl']. rewrite owns_list_cons in Hl'.
    eapply wp_mono; [apply (Hd a s' (owns_list owns l' ⊎ l))|cbv beta|done].
    + by rewrite (assoc_L (⊎)).
    + intros _ s'' [? ?]. split; congruence.
  - intros _ s' [? Hs]. rewrite owns_list_nil, (left_id_L ∅ (⊎)) in Hs. done.
Qed.

Lemma frees_seq {A} (d1 d2 : A → M cstate unit unit) o1 o2 :
  frees d1 o1 → frees d2 o2 → frees (λ a, do d1 a;; d2 a) (λ a, o1 a ⊎ o2 a).
Proof.
  intros H1 H2 a s l Hl. eapply wp_seq; [apply (H1 a s (o2 a ⊎ l))| |done].
  - by rewrite (assoc_L (⊎)).
  - intros _ s' [Hs Hl']. cbn in *. eapply wp_mono; [by apply H2|cbv beta|done].
    intros _ s'' [? ?]. split; congruence.
Qed.

Lemma kept_strm s0 s s' : kept s0 s → strm s' = strm s → kept s0 s'.
Proof. intros [[] ?] E. constructor; [constructor|]; rewrite ?E; done. Qed.

(** An error path that releases exactly what is held since [s0]. *)
Lemma release {A} (d : A → M cstate unit unit) owns a s0 s L :
  frees d owns → kept s0 s → live s = owns a ⊎ L ⊎ live s0 →
  wp (d a) (λ _ s', kept s0 s' ∧ live s' = L ⊎ live s0) (λ _ _, False) s.
Proof.
  intros Hd Hk Hl. eapply wp_mono; [apply (Hd a s (L ⊎ live s0))|cbv beta|done].
  - by rewrite (assoc_L (⊎)).
  - intros _ s' [? ?]. split; [by eapply kept_strm|done].
Qed.

(** ** Arrays *)

Lemma owns_list_nothing {A} (l : list A) : owns_list owns_nothing l = ∅.
Proof. induction l as [|a l IH]; [done|]. by rewrite owns_list_cons, IH. Qed.

Definition encs {A} (enc : A → list Z) (l : list A) : list Z := concat (enc <$> l).

Lemma encs_nil {A} (enc : A → list Z) : encs enc [] = [].
Proof. done. Qed.
Lemma encs_cons {A} (enc : A → list Z) a l : encs enc (a :: l) = enc a ++ encs enc l.
Proof. done. Qed.
Lemma encs_snoc {A} (enc : A → list Z) l a : encs enc (l ++ [a]) = encs enc l ++ enc a.
Proof.
  unfold encs. rewrite fmap_app, concat_app. cbn. by rewrite (right_id_L [] (++)).
Qed.
Lemma encs_bytes bs : encs (λ b : Z, [b]) bs = bs.
Proof. induction bs as [|b bs IH]; [done|]. by rewrite encs_cons, IH. Qed.

Lemma init_loop_parses {A} (init : parser A) owns enc ok n s0 s bs L :
  run s0 s bs L → parses init owns enc ok →
  wp (init_loop init n [])
     (λ l s', run s0 s' (bs ++ encs enc l) (owns_list owns l ⊎ L) ∧ Forall ok l ∧ length l = n)
     (λ l s', kept s0 s' ∧ live s' = owns_list owns l ⊎ L ⊎ live s0) s.
Proof.
  intros Hrun Hp. eapply wp_mono;
    [apply (wp_init_loop init
       (λ l s', run s0 s' (bs ++ encs enc l) (owns_list owns l ⊎ L) ∧ Forall ok l)
       (λ l s', kept s0 s' ∧ live s' = owns_list owns l ⊎ L ⊎ live s0))|cbv beta|done].
  - rewrite encs_nil, (right_id_L [] (++)), owns_list_nil, (left_id_L ∅ (⊎)).
    by split; [|constructor].
  - intros l s' [[Ha Hl] Hf]. eapply wp_mono; [apply Hp; by destruct Ha|cbv beta|cbv beta].
    + intros a s'' (Ha' & Hl' & Hok). split; [split|].
      * rewrite encs_snoc, (assoc_L (++)). by eapply adv_trans.
      * rewrite owns_list_snoc, Hl', Hl. multiset_solver.
      * apply Forall_app_2; [done|by constructor].
    + intros _ s'' [? ?]. split; [by eapply adv_kept_trans|congruence].
  - intros l s' [[? ?] ?]. done.
Qed.

Lemma init_loop_back {A} (init : parser A) enc ok rel (l : list A) s r :
  stream_ok s → Forall ok l → rest s = encs enc l ++ r → reads_back init enc ok rel →
  wp (init_loop init (length l) [])
     (λ l' s', stream_ok s' ∧ rest s' = r ∧ Forall2 rel l l') (λ _ _, False) s.
Proof.
  intros Hok Hl Hr Hb.
  cut (∀ acc0 acc, Forall2 rel acc0 acc →
    wp (init_loop init (length l) acc)
     (λ l' s', stream_ok s' ∧ rest s' = r ∧ Forall2 rel (acc0 ++ l) l') (λ _ _, False) s).
  { intros H. by apply (H [] []). }
  revert s Hok Hr. induction Hl as [|a l Ha Hl IH]; intros s Hok Hr acc0 acc Hacc.
  - cbn. by rewrite (right_id_L [] (++)).
  - rewrite encs_cons, <- (assoc_L (++)) in Hr. unfold wp. cbn.
    pose proof (Hb s a _ Hok Ha Hr) as H. unfold wp in H.
    destruct (init s) as [a' s'|e s'|]; [|done..]. destruct H as (Hok' & Hr' & Hrel).
    replace (acc0 ++ a :: l) with ((acc0 ++ [a]) ++ l) by by rewrite <- (assoc_L (++)).
    apply IH; [done..|]. apply Forall2_app; [done|by repeat constructor].
Qed.

(** A structure that is read back equal up to the blocks it was put in. *)
Lemma back_read {A B} (m : parser A) enc ok rel (f : A → parser B) a r s Q :
  stream_ok s → rest s = enc a ++ r → reads_back m enc ok rel → ok a →
  (∀ a' s', stream_ok s' → rest s' = r → rel a a' → wp (f a') Q (λ _ _, False) s') →
  wp (bind m f) Q (λ _ _, False) s.
Proof.
  intros Hok Hr Hb Ha Hf. eapply wp_seq; [by apply Hb|cbn|done]. intros a' s' (? & ? & ?). eauto.
Qed.

(** Memory is available. *)
Class AllocatorOk `{Allocator} : Prop := always_malloc : ∀ n size, malloc_ok n size = true.

Lemma back_malloc `{AllocatorOk} {B} size (f : block → parser B) s Q :
  stream_ok s →
  (∀ p s', stream_ok s' → rest s' = rest s → wp (f p) Q (λ _ _, False) s') →
  wp (bind (cafebabe_stream_malloc size) f) Q (λ _ _, False) s.
Proof.
  intros [] Hf. unfold wp, bind, cafebabe_stream_malloc, mem_malloc. rewrite always_malloc.
  apply Hf; [by constructor|done].
Qed.

Lemma eof_rest s : stream_ok s → (virtual_i (strm s) = virtual_n (strm s) ↔ rest s = []).
Proof.
  intros Hok. pose proof (rest_length s Hok). rewrite <- length_zero_iff_nil. lia.
Qed.

(** ** Automation for sequences of reads *)

Lemma run_done {P : Prop} s0 s bs L enc own :
  run s0 s bs L → bs = enc → L = own → P →
  adv s0 s enc ∧ live s = own ⊎ live s0 ∧ P.
Proof. intros [? ?] <- <-. done. Qed.

Create HintDb cparse.
#[export] Hint Resolve read_uint8_parses read_uint16_parses read_uint32_parses
  read_uint8_back read_uint16_back read_uint32_back : cparse.

(** The error branch of a step that holds nothing. *)
Ltac pfail :=
  let Hk := fresh in let Hl := fresh in
  intros ? Hk Hl; split; [exact Hk|rewrite Hl, ?(left_id_L ∅ (⊎)); reflexivity].

(** One read: run it by its specification and name the value. *)
Tactic Notation "pread" ident(x) :=
  let st := fresh "st" in let Hr := fresh "Hrun" in let Hx := fresh "H" x in
  eapply run_read; [eassumption|solve [eauto with cparse]|intros x st Hr Hx|try pfail].
Tactic Notation "pparse" ident(x) :=
  let st := fresh "st" in let Hr := fresh "Hrun" in let Hx := fresh "H" x in
  eapply run_parse; [eassumption|solve [eauto with cparse]|intros x st Hr Hx|try pfail].
Tactic Notation "pmalloc" ident(p) :=
  let st := fresh "st" in let Hr := fresh "Hrun" in
  eapply run_malloc; [eassumption|intros p st Hr|try pfail].

(** Encodings compared up to the bracketing of appends. *)
Ltac psolve_enc :=
  unfold owns_nothing in *;
  repeat rewrite <- (assoc_L (++)); cbn [app];
  rewrite ?encs_bytes, ?(right_id_L [] (++)); reflexivity.
Ltac psolve_own :=
  unfold owns_nothing in *;
  rewrite ?(left_id_L ∅ (⊎)), ?(right_id_L ∅ (⊎)); try reflexivity; multiset_solver.
Ltac pdone :=
  try apply wp_ret; eapply run_done; [eassumption|try psolve_enc|try psolve_own|].

(** One read of a stream whose next bytes are known. *)
Tactic Notation "pback" ident(x) :=
  let st := fresh "st" in let Hok := fresh "Hok" in let Hr := fresh "Hrest" in
  let Hx := fresh "Hrel" x in
  eapply back_read; [eassumption|eassumption|solve [eauto with cparse]|try done|
                     intros x st Hok Hr Hx; try subst x].

(** ** Scopes: what an error path releases *)

Lemma wp_cleanup {A B E} (m : M cstate E A) (d : B → M cstate unit unit) owns (b : B) s0 s L Q R :
  frees d owns →
  wp m Q (λ _ s', kept s0 s' ∧ live s' = owns b ⊎ L ⊎ live s0) s →
  (∀ s', kept s0 s' → live s' = L ⊎ live s0 → R tt s') →
  wp (on_error m (λ _, d b) tt) Q R s.
Proof.
  intros Hd Hm HR. apply wp_on_error. eapply wp_mono; [exact Hm|done|cbv beta].
  intros _ s' [Hk Hl]. eapply wp_mono; [by eapply release|cbv beta|done].
  intros _ s'' [? ?]. auto.
Qed.

(** An array of plain values: on an error only the array itself is released. *)
Lemma run_array {A B} (init : parser A) enc ok n p (f : list A → parser B) s0 s bs L Q R :
  run s0 s bs ({[+ p +]} ⊎ L) → parses init owns_nothing enc ok →
  (∀ l s', run s0 s' (bs ++ encs enc l) ({[+ p +]} ⊎ L) → Forall ok l → length l = n →
           wp (f l) Q R s') →
  (∀ s', kept s0 s' → live s' = L ⊎ live s0 → R tt s') →
  wp (let* l := on_error (init_loop init n []) (λ _, free_block p) tt in f l) Q R s.
Proof.
  intros Hrun Hp Hf HR. apply wp_bind. eapply wp_cleanup; [apply free_block_frees| |exact HR].
  eapply wp_mono; [by eapply init_loop_parses|..]; cbv beta.
  - intros l s' (Hr & ? & ?). rewrite owns_list_nothing, (left_id_L ∅ (⊎)) in Hr. by apply Hf.
  - intros l s' [? Hl]. rewrite owns_list_nothing, (left_id_L ∅ (⊎)) in Hl. done.
Qed.

(** An array of structures: the ones initialised so far are released too. *)
Lemma run_struct_array {A B} (init : parser A) (deinit : A → M cstate unit unit) owns enc ok n p
    (f : list A → parser B) s0 s bs L Q R :
  run s0 s bs ({[+ p +]} ⊎ L) → parses init owns enc ok → frees deinit owns →
  (∀ l s', run s0 s' (bs ++ encs enc l) (owns_list owns l ⊎ ({[+ p +]} ⊎ L)) → Forall ok l →
           length l = n → wp (f l) Q R s') →
  (∀ s', kept s0 s' → live s' = L ⊎ live s0 → R tt s') →
  wp (let* l := on_error (init_loop init n []) (λ l, do for_each deinit l;; free_block p) tt in f l)
     Q R s.
Proof.
  intros Hrun Hp Hd Hf HR. apply wp_bind, wp_on_error.
  eapply wp_mono; [by eapply init_loop_parses|..]; cbv beta.
  - intros l s' (? & ? & ?). by apply Hf.
  - intros l s' [Hk Hl]. eapply wp_seq; [eapply release; [by apply for_each_frees|exact Hk|exact Hl]| |done].
    cbv beta. intros _ s2 [Hk2 Hl2].
    eapply wp_mono; [eapply (release free_block _ p); [apply free_block_frees|exact Hk2|exact Hl2]| |done].
    cbv beta. intros _ s3 [? ?]. auto.
Qed.

Lemma back_array {A B} (init : parser A) enc ok rel (h : list A → M cstate unit unit) n (l : list A)
    (f : list A → parser B) s r Q :
  stream_ok s → rest s = encs enc l ++ r → reads_back init enc ok rel → Forall ok l → n = length l →
  (∀ l' s', stream_ok s' → rest s' = r → Forall2 rel l l' → wp (f l') Q (λ _ _, False) s') →
  wp (let* l' := on_error (init_loop init n []) h tt in f l') Q (λ _ _, False) s.
Proof.
  intros Hok Hr Hb Hl -> Hf. apply wp_bind, wp_on_error.
  eapply wp_mono; [by eapply init_loop_back| |done]. cbv beta. intros l' s' (? & ? & ?). auto.
Qed.

Lemma Forall2_eq_list {A} (l l' : list A) : Forall2 (=) l l' → l = l'.
Proof. by induction 1; subst. Qed.

(** The release of an array of structures and of the array itself. *)
Lemma struct_array_frees {A} (deinit : A → M cstate unit unit) owns :
  frees deinit owns →
  frees (λ x : list A * block, do for_each deinit x.1;; free_block x.2)
        (λ x, owns_list owns x.1 ⊎ {[+ x.2 +]}).
Proof.
  intros Hd. apply (frees_seq (λ x : list A * block, for_each deinit x.1)
    (λ x, free_block x.2) (λ x, owns_list owns x.1) (λ x, {[+ x.2 +]})).
  - intros x. by apply for_each_frees.
  - intros x. apply free_block_frees.
Qed.

(** [goto] an outer label: a parser that already cleaned up after itself runs in
    a scope that holds [owns b]. *)
Lemma run_scope {A B C} (m : parser A) owns enc ok (g : A → C)
    (d : B → M cstate unit unit) ownsb (b : B) s0 s bs L0 L Q R :
  run s0 s bs L → L = ownsb b ⊎ L0 → parses m owns enc ok → frees d ownsb →
  (∀ a s', run s0 s' (bs ++ enc a) (owns a ⊎ L) → ok a → Q (g a) s') →
  (∀ s', kept s0 s' → live s' = L0 ⊎ live s0 → R tt s') →
  wp (on_error (let* a := m in ret (g a)) (λ _, d b) tt) Q R s.
Proof.
  intros Hrun -> Hm Hd Hf HR. eapply wp_cleanup; [exact Hd| |exact HR].
  eapply run_parse; [exact Hrun|exact Hm| |].
  - intros a s' Hr Ha. apply wp_ret. by apply Hf.
  - intros s' Hk Hl. split; [done|]. by rewrite Hl.
Qed.
