(* ===== verification/ConstantPool.v ===== *)
(** * cafebabe/constant_pool.c: the entries of the constant pool

    An entry is the tagged union of the source.  [init] reads it from the
    stream, [deinit] releases what it owns, [encode] is the class file format
    the reader must agree with. *)

From S2P Require Import Prelude CMonad Stream.
#[local] Open Scope Z_scope.

(** A block with the bytes stored in it. *)
Record bytes := Bytes { bytes_ptr : block; bytes_data : list Z }.

Record cafebabe_constant_info_utf8 := Utf8 { utf8_length : Z; utf8_bytes : bytes }.

(** struct cafebabe_constant_pool: the tag and the member of the union it selects. *)
Inductive cafebabe_constant_pool : Type :=
  | CPUtf8 (u : cafebabe_constant_info_utf8)
  | CPInteger (bytes : Z)
  | CPFloat (bytes : Z)
  | CPLong (high_bytes low_bytes : Z)
  | CPDouble (high_bytes low_bytes : Z)
  | CPClass (name_index : Z)
  | CPString (string_index : Z)
  | CPFieldRef (class_index name_and_type_index : Z)
  | CPMethodRef (class_index name_and_type_index : Z)
  | CPInterfaceMethodRef (class_index name_and_type_index : Z)
  | CPNameAndType (name_index descriptor_index : Z).

#[export] Instance bytes_eq_dec : EqDecision bytes.
Proof. solve_decision. Defined.
#[export] Instance utf8_eq_dec : EqDecision cafebabe_constant_info_utf8.
Proof. solve_decision. Defined.
#[export] Instance constant_pool_eq_dec : EqDecision cafebabe_constant_pool.
Proof. solve_decision. Defined.

(** enum cafebabe_constant_tag *)
Definition CAFEBABE_CONSTANT_TAG_UTF8 : Z := 1.
Definition CAFEBABE_CONSTANT_TAG_INTEGER : Z := 3.
Definition CAFEBABE_CONSTANT_TAG_FLOAT : Z := 4.
Definition CAFEBABE_CONSTANT_TAG_LONG : Z := 5.
Definition CAFEBABE_CONSTANT_TAG_DOUBLE : Z := 6.
Definition CAFEBABE_CONSTANT_TAG_CLASS : Z := 7.
Definition CAFEBABE_CONSTANT_TAG_STRING : Z := 8.
Definition CAFEBABE_CONSTANT_TAG_FIELD_REF : Z := 9.
Definition CAFEBABE_CONSTANT_TAG_METHOD_REF : Z := 10.
Definition CAFEBABE_CONSTANT_TAG_INTERFACE_METHOD_REF : Z := 11.
Definition CAFEBABE_CONSTANT_TAG_NAME_AND_TYPE : Z := 12.

Definition cp_tag (cp : cafebabe_constant_pool) : Z :=
  match cp with
  | CPUtf8 _ => CAFEBABE_CONSTANT_TAG_UTF8
  | CPInteger _ => CAFEBABE_CONSTANT_TAG_INTEGER
  | CPFloat _ => CAFEBABE_CONSTANT_TAG_FLOAT
  | CPLong _ _ => CAFEBABE_CONSTANT_TAG_LONG
  | CPDouble _ _ => CAFEBABE_CONSTANT_TAG_DOUBLE
  | CPClass _ => CAFEBABE_CONSTANT_TAG_CLASS
  | CPString _ => CAFEBABE_CONSTANT_TAG_STRING
  | CPFieldRef _ _ => CAFEBABE_CONSTANT_TAG_FIELD_REF
  | CPMethodRef _ _ => CAFEBABE_CONSTANT_TAG_METHOD_REF
  | CPInterfaceMethodRef _ _ => CAFEBABE_CONSTANT_TAG_INTERFACE_METHOD_REF
  | CPNameAndType _ _ => CAFEBABE_CONSTANT_TAG_NAME_AND_TYPE
  end.

(** ** Operations *)

Section ops.
Context `{Allocator}.

Definition cafebabe_constant_info_utf8_init : parser cafebabe_constant_info_utf8 :=
  let* length := cafebabe_stream_read_uint16 in
  let* p := cafebabe_stream_malloc length in
  let* bs := on_error (init_loop cafebabe_stream_read_uint8 (Z.to_nat length) [])
                      (λ _, free_block p) tt in
  ret (Utf8 length (Bytes p bs)).

Definition cafebabe_constant_info_integer_init : parser Z := cafebabe_stream_read_uint32.
Definition cafebabe_constant_info_float_init : parser Z := cafebabe_stream_read_uint32.

Definition cafebabe_constant_info_long_init : parser (Z * Z) :=
  let* high_bytes := cafebabe_stream_read_uint32 in
  let* low_bytes := cafebabe_stream_read_uint32 in
  ret (high_bytes, low_bytes).

Definition cafebabe_constant_info_double_init : parser (Z * Z) :=
  let* high_bytes := cafebabe_stream_read_uint32 in
  let* low_bytes := cafebabe_stream_read_uint32 in
  ret (high_bytes, low_bytes).

Definition cafebabe_constant_info_class_init : parser Z := cafebabe_stream_read_uint16.
Definition cafebabe_constant_info_string_init : parser Z := cafebabe_stream_read_uint16.

Definition cafebabe_constant_info_field_ref_init : parser (Z * Z) :=
  let* class_index := cafebabe_stream_read_uint16 in
  let* name_and_type_index := cafebabe_stream_read_uint16 in
  ret (class_index, name_and_type_index).

Definition cafebabe_constant_info_method_ref_init : parser (Z * Z) :=
  let* class_index := cafebabe_stream_read_uint16 in
  let* name_and_type_index := cafebabe_stream_read_uint16 in
  ret (class_index, name_and_type_index).

Definition cafebabe_constant_info_interface_method_ref_init : parser (Z * Z) :=
  let* class_index := cafebabe_stream_read_uint16 in
  let* name_and_type_index := cafebabe_stream_read_uint16 in
  ret (class_index, name_and_type_index).

Definition cafebabe_constant_info_name_and_type_init : parser (Z * Z) :=
  let* name_index := cafebabe_stream_read_uint16 in
  let* descriptor_index := cafebabe_stream_read_uint16 in
  ret (name_index, descriptor_index).

Definition cafebabe_constant_pool_init : parser cafebabe_constant_pool :=
  let* tag := cafebabe_stream_read_uint8 in
  if decide (tag = CAFEBABE_CONSTANT_TAG_UTF8) then
    let* u := cafebabe_constant_info_utf8_init in ret (CPUtf8 u)
  else if decide (tag = CAFEBABE_CONSTANT_TAG_INTEGER) then
    let* i := cafebabe_constant_info_integer_init in ret (CPInteger i)
  else if decide (tag = CAFEBABE_CONSTANT_TAG_FLOAT) then
    let* f := cafebabe_constant_info_float_init in ret (CPFloat f)
  else if decide (tag = CAFEBABE_CONSTANT_TAG_LONG) then
    let* l := cafebabe_constant_info_long_init in ret (CPLong l.1 l.2)
  else if decide (tag = CAFEBABE_CONSTANT_TAG_DOUBLE) then
    let* d := cafebabe_constant_info_double_init in ret (CPDouble d.1 d.2)
  else if decide (tag = CAFEBABE_CONSTANT_TAG_CLASS) then
    let* c := cafebabe_constant_info_class_init in ret (CPClass c)
  else if decide (tag = CAFEBABE_CONSTANT_TAG_STRING) then
    let* str := cafebabe_constant_info_string_init in ret (CPString str)
  else if decide (tag = CAFEBABE_CONSTANT_TAG_FIELD_REF) then
    let* fr := cafebabe_constant_info_field_ref_init in ret (CPFieldRef fr.1 fr.2)
  else if decide (tag = CAFEBABE_CONSTANT_TAG_METHOD_REF) then
    let* mr := cafebabe_constant_info_method_ref_init in ret (CPMethodRef mr.1 mr.2)
  else if decide (tag = CAFEBABE_CONSTANT_TAG_INTERFACE_METHOD_REF) then
    let* r := cafebabe_constant_info_interface_method_ref_init in
    ret (CPInterfaceMethodRef r.1 r.2)
  else if decide (tag = CAFEBABE_CONSTANT_TAG_NAME_AND_TYPE) then
    let* nat := cafebabe_constant_info_name_and_type_init in ret (CPNameAndType nat.1 nat.2)
  else do set_errno CAFEBABE_ERROR_BAD_CONSTANT_TAG;; fail tt.
End ops.

Definition cafebabe_constant_info_utf8_deinit {E} (u : cafebabe_constant_info_utf8)
  : M cstate E unit := free_block (bytes_ptr (utf8_bytes u)).

Definition cafebabe_constant_pool_deinit {E} (cp : cafebabe_constant_pool) : M cstate E unit :=
  match cp with
  | CPUtf8 u => cafebabe_constant_info_utf8_deinit u
  | _ => ret tt
  end.

(** strncmp(3) on two buffers of unsigned chars; a C string ends at its list's end. *)
Fixpoint strncmp (a b : list Z) (n : nat) : Z :=
  match n with
  | O => 0
  | S n' =>
    let ca := default 0 (head a) in
    let cb := default 0 (head b) in
    if decide (ca = cb) then if decide (ca = 0) then 0 else strncmp (tail a) (tail b) n'
    else ca - cb
  end.

(** [s2] is a C string: its characters before the terminating zero. *)
Definition cafebabe_constant_info_utf8_compare (s1 : cafebabe_constant_info_utf8) (s2 : list Z) : Z :=
  let s2_length := u32 (Z.of_nat (length s2)) in
  if decide (utf8_length s1 ≠ s2_length) then
    if decide (utf8_length s1 < s2_length) then -1 else 1
  else strncmp (bytes_data (utf8_bytes s1)) s2 (Z.to_nat (utf8_length s1)).

(** include/cafebabe/constant_pool.h: the accessors the class functions use. *)
Definition cafebabe_constant_pool_get_integer (bytes : Z) : Z := s32 bytes.
Definition cafebabe_constant_pool_get_long (high_bytes low_bytes : Z) : Z :=
  s64 (u64 (u64 (Z.shiftl high_bytes 32) + low_bytes)).

(** ** The class file format of an entry (JVM specification 4.4) *)

Definition owns_bytes (b : bytes) : gmultiset block := {[+ bytes_ptr b +]}.
Definition owns_cp (cp : cafebabe_constant_pool) : gmultiset block :=
  match cp with CPUtf8 u => owns_bytes (utf8_bytes u) | _ => ∅ end.

Definition encode_utf8 (u : cafebabe_constant_info_utf8) : list Z :=
  be16 (utf8_length u) ++ bytes_data (utf8_bytes u).

Definition encode_cp_body (cp : cafebabe_constant_pool) : list Z :=
  match cp with
  | CPUtf8 u => encode_utf8 u
  | CPInteger x | CPFloat x => be32 x
  | CPLong h l | CPDouble h l => be32 h ++ be32 l
  | CPClass i | CPString i => be16 i
  | CPFieldRef i j | CPMethodRef i j | CPInterfaceMethodRef i j | CPNameAndType i j =>
    be16 i ++ be16 j
  end.

Definition encode_cp (cp : cafebabe_constant_pool) : list Z := cp_tag cp :: encode_cp_body cp.

Definition utf8_ok (u : cafebabe_constant_info_utf8) : Prop :=
  is_u16 (utf8_length u) ∧ utf8_length u = Z.of_nat (length (bytes_data (utf8_bytes u))) ∧
  Forall is_u8 (bytes_data (utf8_bytes u)).

Definition cp_ok (cp : cafebabe_constant_pool) : Prop :=
  match cp with
  | CPUtf8 u => utf8_ok u
  | CPInteger x | CPFloat x => is_u32 x
  | CPLong h l | CPDouble h l => is_u32 h ∧ is_u32 l
  | CPClass i | CPString i => is_u16 i
  | CPFieldRef i j | CPMethodRef i j | CPInterfaceMethodRef i j | CPNameAndType i j =>
    is_u16 i ∧ is_u16 j
  end.

(** Equal up to the blocks the bytes are stored in. *)
Definition utf8_eq (u v : cafebabe_constant_info_utf8) : Prop :=
  utf8_length u = utf8_length v ∧ bytes_data (utf8_bytes u) = bytes_data (utf8_bytes v).

Definition cp_eq (a b : cafebabe_constant_pool) : Prop :=
  match a, b with
  | CPUtf8 u, CPUtf8 v => utf8_eq u v
  | CPUtf8 _, _ | _, CPUtf8 _ => False
  | _, _ => a = b
  end.

#[export] Instance utf8_eq_equiv : Equivalence utf8_eq.
Proof. unfold utf8_eq. split; [done|firstorder|intros x y z [] []; split; congruence]. Qed.
#[export] Instance cp_eq_equiv : Equivalence cp_eq.
Proof.
  split.
  - intros []; cbn; done.
  - intros [] [] H; cbn in *; done.
  - intros [] [] [] H1 H2; cbn in *; try done; try congruence. by etrans.
Qed.

(** ** Correctness of the readers *)

Section spec.
Context `{Allocator}.

Lemma utf8_init_parses :
  parses cafebabe_constant_info_utf8_init (λ u, owns_bytes (utf8_bytes u)) encode_utf8 utf8_ok.
Proof.
  intros s0 Hok. pose proof (run_start _ Hok) as Hrun. unfold cafebabe_constant_info_utf8_init.
  pread len. pmalloc p. eapply run_array; [eassumption|apply read_uint8_parses| |pfail].
  intros l s' Hr Hf Hl. unfold encode_utf8. pdone. unfold utf8_ok. cbn. split_and!; [done|clia|done].
Qed.

Lemma pair16_parses :
  parses cafebabe_constant_info_field_ref_init owns_nothing (λ p, be16 p.1 ++ be16 p.2)
         (λ p, is_u16 p.1 ∧ is_u16 p.2).
Proof.
  intros s0 Hok. pose proof (run_start _ Hok). unfold cafebabe_constant_info_field_ref_init.
  pread i. pread j. by pdone.
Qed.

Lemma pair32_parses :
  parses cafebabe_constant_info_long_init owns_nothing (λ p, be32 p.1 ++ be32 p.2)
         (λ p, is_u32 p.1 ∧ is_u32 p.2).
Proof.
  intros s0 Hok. pose proof (run_start _ Hok). unfold cafebabe_constant_info_long_init.
  pread h. pread l. by pdone.
Qed.

Lemma constant_pool_init_parses :
  parses cafebabe_constant_pool_init owns_cp encode_cp cp_ok.
Proof.
  intros s0 Hok. pose proof (run_start _ Hok). unfold cafebabe_constant_pool_init.
  pread tag. repeat case_decide; try subst tag.
  1: { pose proof utf8_init_parses. pparse u. unfold encode_cp. pdone. done. }
  1,2,5,6: by (pread i; unfold encode_cp; pdone).
  1,2: pose proof pair32_parses; by (pread l; unfold encode_cp; pdone).
  1-4: pose proof pair16_parses; by (pread r; unfold encode_cp; pdone).
  eapply wp_seq; [apply set_errno_kept; by eapply run_ok| |done]. cbv beta.
  match goal with Hr : run _ _ _ _ |- _ => destruct Hr as [? Hl] end.
  intros _ s' [? Hl']. apply wp_fail. split; [by eapply adv_kept_trans|].
  by rewrite Hl', Hl, (left_id_L ∅ (⊎)).
Qed.

Context `{!AllocatorOk}.

Lemma utf8_init_back :
  reads_back cafebabe_constant_info_utf8_init encode_utf8 utf8_ok utf8_eq.
Proof.
  intros s [len [p bs]] r Hok (Hlen & Hl & Hb) Hr. cbn in *.
  unfold encode_utf8 in Hr. cbn in Hr. rewrite <- (assoc_L (++)) in Hr.
  unfold cafebabe_constant_info_utf8_init. pback l. eapply back_malloc; [done|].
  intros q s' Hok' Hr'. rewrite Hrest, <- (encs_bytes bs) in Hr'.
  eapply back_array; [done|exact Hr'|apply read_uint8_back|done|lia|].
  intros l s2 ? ? ->%Forall2_eq_list. done.
Qed.

Lemma pair16_back :
  reads_back cafebabe_constant_info_field_ref_init (λ p, be16 p.1 ++ be16 p.2)
         (λ p, is_u16 p.1 ∧ is_u16 p.2) (=).
Proof.
  intros s [i j] r Hok [Hi Hj] Hr. cbn in *. rewrite <- (assoc_L (++)) in Hr.
  unfold cafebabe_constant_info_field_ref_init. pback x. pback y. done.
Qed.

Lemma pair32_back :
  reads_back cafebabe_constant_info_long_init (λ p, be32 p.1 ++ be32 p.2)
         (λ p, is_u32 p.1 ∧ is_u32 p.2) (=).
Proof.
  intros s [i j] r Hok [Hi Hj] Hr. cbn in *. rewrite <- (assoc_L (++)) in Hr.
  unfold cafebabe_constant_info_long_init. pback x. pback y. done.
Qed.

(** Reading one value and wrapping it in a constructor. *)
Lemma back_ret {A B} (m : parser A) enc ok rel (g : A → B) a r s (Q : B → cstate → Prop) :
  reads_back m enc ok rel → stream_ok s → ok a → rest s = enc a ++ r →
  (∀ a' s', stream_ok s' → rest s' = r → rel a a' → Q (g a') s') →
  wp (let* x := m in ret (g x)) Q (λ _ _, False) s.
Proof. intros Hm ? ? ? HQ. eapply back_read; [done..|]. intros. apply wp_ret. eauto. Qed.

Lemma constant_pool_init_back :
  reads_back cafebabe_constant_pool_init encode_cp cp_ok cp_eq.
Proof.
  intros s cp r Hok Hcp Hr. unfold encode_cp in Hr.
  unfold cafebabe_constant_pool_init.
  eapply (back_read _ (λ b, [b]) is_u8 (=) _ (cp_tag cp) (encode_cp_body cp ++ r));
    [done|exact Hr|apply read_uint8_back|by destruct cp|].
  intros tag s' Hok' Hr' <-.
  destruct cp as [u|x|x|h l|h l|i|i|i j|i j|i j|i j]; cbn in Hcp, Hr' |- *.
  - eapply back_ret; [apply utf8_init_back|done..|]. intros ? ? ? ? ?. done.
  - eapply back_ret; [apply read_uint32_back|done..|]. intros ? ? ? ? <-. done.
  - eapply back_ret; [apply read_uint32_back|done..|]. intros ? ? ? ? <-. done.
  - eapply (back_ret _ _ _ _ _ (h, l)); [apply pair32_back|done..|]. intros ? ? ? ? <-. done.
  - eapply (back_ret _ _ _ _ _ (h, l)); [apply pair32_back|done..|]. intros ? ? ? ? <-. done.
  - eapply back_ret; [apply read_uint16_back|done..|]. intros ? ? ? ? <-. done.
  - eapply back_ret; [apply read_uint16_back|done..|]. intros ? ? ? ? <-. done.
  - eapply (back_ret _ _ _ _ _ (i, j)); [apply pair16_back|done..|]. intros ? ? ? ? <-. done.
  - eapply (back_ret _ _ _ _ _ (i, j)); [apply pair16_back|done..|]. intros ? ? ? ? <-. done.
  - eapply (back_ret _ _ _ _ _ (i, j)); [apply pair16_back|done..|]. intros ? ? ? ? <-. done.
  - eapply (back_ret _ _ _ _ _ (i, j)); [apply pair16_back|done..|]. intros ? ? ? ? <-. done.
Qed.
End spec.

Lemma constant_pool_deinit_frees : frees cafebabe_constant_pool_deinit owns_cp.
Proof.
  intros cp s l Hl. destruct cp; cbn [cafebabe_constant_pool_deinit owns_cp] in *.
  1: by apply free_block_frees.
  all: apply wp_ret; split; [done|]; by rewrite Hl, (left_id_L ∅ (⊎)).
Qed.

(** ** Comparing a constant with a C string *)

Definition c_string (s : list Z) : Prop := Forall (λ c, is_u8 c ∧ c ≠ 0) s ∧ Z.of_nat (length s) < 2 ^ 32.

Lemma strncmp_zero a b n :
  Forall (λ c, c ≠ 0) b → length a = n → length b = n → (strncmp a b n = 0 ↔ a = b).
Proof.
  intros Hb. revert a n. induction Hb as [|cb b Hcb Hb IH]; intros a n Ha Hn.
  - cbn in Hn. subst n. destruct a; [done|discriminate Hn || discriminate Ha || done].
  - destruct n as [|n]; [done|]. destruct a as [|ca a]; [done|].
    injection Ha as Ha. injection Hn as Hn. cbn. case_decide as E.
    + subst. rewrite decide_False by done. rewrite IH by done. split; congruence.
    + split; [lia|congruence].
Qed.

Lemma utf8_compare_zero u s :
  utf8_ok u → c_string s →
  (cafebabe_constant_info_utf8_compare u s = 0 ↔ bytes_data (utf8_bytes u) = s).
Proof.
  intros (Hu & Hlen & Hb) [Hs Hl]. unfold cafebabe_constant_info_utf8_compare.
  rewrite u32_id by clia. case_decide as E.
  - split; [case_decide; lia|]. intros <-. lia.
  - apply strncmp_zero; [|lia..].
    eapply Forall_impl; [|exact Hs]. by intros c [].
Qed.
