(* ===== verification/AttributeInfo.v ===== *)
(** * cafebabe/attribute_info.c, field_info.c, method_info.c

    Attributes, fields and methods of a class file: each is read with its array
    of attributes, and an error releases everything read so far. *)

From S2P Require Import Prelude CMonad Stream ConstantPool.
#[local] Open Scope Z_scope.

Record cafebabe_attribute_info := AttributeInfo {
  attribute_name_index : Z;
  attribute_length : Z;
  info : bytes;
}.

(** struct cafebabe_attribute_array *)
Record cafebabe_attribute_array := AttributeArray {
  attr_count : Z;
  attr_ptr : block;
  attr_array : list cafebabe_attribute_info;
}.

Record cafebabe_field_info := FieldInfo {
  field_access_flags : Z;
  field_name_index : Z;
  field_descriptor_index : Z;
  field_attributes : cafebabe_attribute_array;
}.

Record cafebabe_method_info := MethodInfo {
  method_access_flags : Z;
  method_name_index : Z;
  method_descriptor_index : Z;
  method_attributes : cafebabe_attribute_array;
}.

(** sizeof(struct cafebabe_attribute_info) and of the other elements, on x86-64;
    they only size the requests the allocator sees. *)
Definition sizeof_attribute_info : Z := 16.
Definition sizeof_field_info : Z := 24.
Definition sizeof_method_info : Z := 24.

(** ** Operations *)

Definition cafebabe_attribute_info_deinit {E} (a : cafebabe_attribute_info) : M cstate E unit :=
  free_block (bytes_ptr (info a)).

Section ops.
Context `{Allocator}.

Definition cafebabe_attribute_info_init : parser cafebabe_attribute_info :=
  let* name_index := cafebabe_stream_read_uint16 in
  let* length := cafebabe_stream_read_uint32 in
  let* p := cafebabe_stream_malloc length in
  let* bs := on_error (init_loop cafebabe_stream_read_uint8 (Z.to_nat length) [])
                      (λ _, free_block p) tt in
  ret (AttributeInfo name_index length (Bytes p bs)).

Definition cafebabe_field_info_init : parser cafebabe_field_info :=
  let* access_flags := cafebabe_stream_read_uint16 in
  let* name_index := cafebabe_stream_read_uint16 in
  let* descriptor_index := cafebabe_stream_read_uint16 in
  let* count := cafebabe_stream_read_uint16 in
  let* p := cafebabe_stream_malloc (sizeof_attribute_info * count) in
  let* array := on_error (init_loop cafebabe_attribute_info_init (Z.to_nat count) [])
    (λ attrs, do for_each cafebabe_attribute_info_deinit attrs;; free_block p) tt in
  ret (FieldInfo access_flags name_index descriptor_index (AttributeArray count p array)).

Definition cafebabe_method_info_init : parser cafebabe_method_info :=
  let* access_flags := cafebabe_stream_read_uint16 in
  let* name_index := cafebabe_stream_read_uint16 in
  let* descriptor_index := cafebabe_stream_read_uint16 in
  let* count := cafebabe_stream_read_uint16 in
  let* p := cafebabe_stream_malloc (sizeof_attribute_info * count) in
  let* array := on_error (init_loop cafebabe_attribute_info_init (Z.to_nat count) [])
    (λ attrs, do for_each cafebabe_attribute_info_deinit attrs;; free_block p) tt in
  ret (MethodInfo access_flags name_index descriptor_index (AttributeArray count p array)).
End ops.

(** The loop over an attribute array and the release of the array. *)
Definition attribute_array_deinit {E} (a : cafebabe_attribute_array) : M cstate E unit :=
  do for_each cafebabe_attribute_info_deinit (attr_array a);; free_block (attr_ptr a).

Definition cafebabe_field_info_deinit {E} (f : cafebabe_field_info) : M cstate E unit :=
  attribute_array_deinit (field_attributes f).

Definition cafebabe_method_info_deinit {E} (m : cafebabe_method_info) : M cstate E unit :=
  attribute_array_deinit (method_attributes m).

(** ** Format *)

Definition owns_attr (a : cafebabe_attribute_info) : gmultiset block := owns_bytes (info a).
Definition owns_attrs (a : cafebabe_attribute_array) : gmultiset block :=
  owns_list owns_attr (attr_array a) ⊎ {[+ attr_ptr a +]}.

Definition encode_attr (a : cafebabe_attribute_info) : list Z :=
  be16 (attribute_name_index a) ++ be32 (attribute_length a) ++ bytes_data (info a).
Definition encode_attrs (a : cafebabe_attribute_array) : list Z :=
  be16 (attr_count a) ++ encs encode_attr (attr_array a).
Definition encode_field (f : cafebabe_field_info) : list Z :=
  be16 (field_access_flags f) ++ be16 (field_name_index f) ++ be16 (field_descriptor_index f) ++
  encode_attrs (field_attributes f).
Definition encode_method (m : cafebabe_method_info) : list Z :=
  be16 (method_access_flags m) ++ be16 (method_name_index m) ++ be16 (method_descriptor_index m) ++
  encode_attrs (method_attributes m).

Definition attr_ok (a : cafebabe_attribute_info) : Prop :=
  is_u16 (attribute_name_index a) ∧ is_u32 (attribute_length a) ∧
  attribute_length a = Z.of_nat (length (bytes_data (info a))) ∧
  Forall is_u8 (bytes_data (info a)).
Definition attrs_ok (a : cafebabe_attribute_array) : Prop :=
  is_u16 (attr_count a) ∧ attr_count a = Z.of_nat (length (attr_array a)) ∧
  Forall attr_ok (attr_array a).
Definition field_ok (f : cafebabe_field_info) : Prop :=
  is_u16 (field_access_flags f) ∧ is_u16 (field_name_index f) ∧
  is_u16 (field_descriptor_index f) ∧ attrs_ok (field_attributes f).
Definition method_ok (m : cafebabe_method_info) : Prop :=
  is_u16 (method_access_flags m) ∧ is_u16 (method_name_index m) ∧
  is_u16 (method_descriptor_index m) ∧ attrs_ok (method_attributes m).

(** Equality up to the blocks. *)
Definition attr_eq (a b : cafebabe_attribute_info) : Prop :=
  attribute_name_index a = attribute_name_index b ∧ attribute_length a = attribute_length b ∧
  bytes_data (info a) = bytes_data (info b).
Definition attrs_eq (a b : cafebabe_attribute_array) : Prop :=
  attr_count a = attr_count b ∧ Forall2 attr_eq (attr_array a) (attr_array b).
Definition field_eq (f g : cafebabe_field_info) : Prop :=
  field_access_flags f = field_access_flags g ∧ field_name_index f = field_name_index g ∧
  field_descriptor_index f = field_descriptor_index g ∧
  attrs_eq (field_attributes f) (field_attributes g).
Definition method_eq (f g : cafebabe_method_info) : Prop :=
  method_access_flags f = method_access_flags g ∧ method_name_index f = method_name_index g ∧
  method_descriptor_index f = method_descriptor_index g ∧
  attrs_eq (method_attributes f) (method_attributes g).

(** ** Correctness *)

Lemma attribute_info_deinit_frees : frees cafebabe_attribute_info_deinit owns_attr.
Proof. intros a s l Hl. by apply free_block_frees. Qed.

Lemma attribute_array_deinit_frees : frees attribute_array_deinit owns_attrs.
Proof.
  intros a s l Hl.
  unfold attribute_array_deinit, owns_attrs in *.
  eapply wp_seq; [apply (for_each_frees _ _ attribute_info_deinit_frees _ _
                           ({[+ attr_ptr a +]} ⊎ l))| |done].
  - by rewrite (assoc_L (⊎)).
  - cbv beta. intros _ s' [Hs Hl']. eapply wp_mono; [by apply free_block_frees| |done].
    cbv beta. intros _ s'' [? ?]. split; congruence.
Qed.

Lemma field_info_deinit_frees :
  frees cafebabe_field_info_deinit (λ f, owns_attrs (field_attributes f)).
Proof. intros f. apply attribute_array_deinit_frees. Qed.

Lemma method_info_deinit_frees :
  frees cafebabe_method_info_deinit (λ m, owns_attrs (method_attributes m)).
Proof. intros f. apply attribute_array_deinit_frees. Qed.

Section spec.
Context `{Allocator}.

Lemma attribute_info_init_parses :
  parses cafebabe_attribute_info_init owns_attr encode_attr attr_ok.
Proof.
  intros s0 Hok. pose proof (run_start _ Hok). unfold cafebabe_attribute_info_init.
  pread ni. pread len. pmalloc p.
  eapply run_array; [eassumption|apply read_uint8_parses| |pfail].
  intros l s' Hr Hf Hl. unfold encode_attr. pdone.
  unfold attr_ok. cbn. split_and!; [done|done|clia|done].
Qed.

Lemma field_info_init_parses :
  parses cafebabe_field_info_init (λ f, owns_attrs (field_attributes f)) encode_field field_ok.
Proof.
  intros s0 Hok. pose proof (run_start _ Hok). unfold cafebabe_field_info_init.
  pread fl. pread ni. pread di. pread cnt. pmalloc p.
  eapply run_struct_array; [eassumption|apply attribute_info_init_parses|
                            apply attribute_info_deinit_frees| |pfail].
  intros l s' Hr Hf Hl. unfold encode_field, encode_attrs. pdone.
  unfold field_ok, attrs_ok. cbn. split_and!; try done. clia.
Qed.

Lemma method_info_init_parses :
  parses cafebabe_method_info_init (λ m, owns_attrs (method_attributes m)) encode_method method_ok.
Proof.
  intros s0 Hok. pose proof (run_start _ Hok). unfold cafebabe_method_info_init.
  pread fl. pread ni. pread di. pread cnt. pmalloc p.
  eapply run_struct_array; [eassumption|apply attribute_info_init_parses|
                            apply attribute_info_deinit_frees| |pfail].
  intros l s' Hr Hf Hl. unfold encode_method, encode_attrs. pdone.
  unfold method_ok, attrs_ok. cbn. split_and!; try done. clia.
Qed.

Context `{!AllocatorOk}.

Lemma attribute_info_init_back :
  reads_back cafebabe_attribute_info_init encode_attr attr_ok attr_eq.
Proof.
  intros s [ni len [p bs]] r Hok (Hn & Hl & Hlb & Hb) Hr. cbn in *.
  unfold encode_attr in Hr. cbn in Hr. rewrite <- !(assoc_L (++)) in Hr.
  unfold cafebabe_attribute_info_init. pback x. pback y.
  eapply back_malloc; [done|]. intros q s' Hok' Hr'. rewrite Hrest0, <- (encs_bytes bs) in Hr'.
  eapply back_array; [done|exact Hr'|apply read_uint8_back|done|lia|].
  intros l s2 ? ? ->%Forall2_eq_list. done.
Qed.

Lemma field_info_init_back :
  reads_back cafebabe_field_info_init encode_field field_ok field_eq.
Proof.
  intros s [fl ni di [cnt p attrs]] r Hok (Hf & Hn & Hd & Hc & Hl & Ha) Hr. cbn in *.
  unfold encode_field, encode_attrs in Hr. cbn in Hr. rewrite <- !(assoc_L (++)) in Hr.
  unfold cafebabe_field_info_init. pback x. pback y. pback z. pback w.
  eapply back_malloc; [done|]. intros q s' Hok' Hr'. rewrite Hrest2 in Hr'.
  eapply back_array; [done|exact Hr'|apply attribute_info_init_back|done|lia|].
  intros l s2 ? ? ?. done.
Qed.

Lemma method_info_init_back :
  reads_back cafebabe_method_info_init encode_method method_ok method_eq.
Proof.
  intros s [fl ni di [cnt p attrs]] r Hok (Hf & Hn & Hd & Hc & Hl & Ha) Hr. cbn in *.
  unfold encode_method, encode_attrs in Hr. cbn in Hr. rewrite <- !(assoc_L (++)) in Hr.
  unfold cafebabe_method_info_init. pback x. pback y. pback z. pback w.
  eapply back_malloc; [done|]. intros q s' Hok' Hr'. rewrite Hrest2 in Hr'.
  eapply back_array; [done|exact Hr'|apply attribute_info_init_back|done|lia|].
  intros l s2 ? ? ?. done.
Qed.
End spec.
