(* ===== verification/ClassFile.v ===== *)
(** * cafebabe/class.c: reading a class file

    [cafebabe_class_init] is the source's function, in phases that nest the way
    its error labels do: an error in a phase releases what that phase holds and
    then what the enclosing phases hold.  Loop counters are the source's 16-bit
    unsigned integers.  A slot of the constant pool that was never initialised
    is [None]; reading its tag is undefined behaviour. *)

From S2P Require Import Prelude CMonad Stream ConstantPool AttributeInfo.
#[local] Open Scope Z_scope.

Record cafebabe_class := Class_ {
  magic : Z;
  minor_version : Z;
  major_version : Z;
  constant_pool_count : Z;
  constant_pool_ptr : block;
  constant_pool : list (option cafebabe_constant_pool);
  access_flags : Z;
  this_class : Z;
  super_class : Z;
  interfaces_count : Z;
  interfaces_ptr : block;
  interfaces : list Z;
  fields_count : Z;
  fields_ptr : block;
  fields : list cafebabe_field_info;
  methods_count : Z;
  methods_ptr : block;
  methods : list cafebabe_method_info;
  attributes : cafebabe_attribute_array;
}.

Definition sizeof_constant_pool : Z := 24.

(** 8-byte constants take up two entries of the table. *)
Definition cp_wide (cp : cafebabe_constant_pool) : bool :=
  match cp with CPLong _ _ | CPDouble _ _ => true | _ => false end.

(** ** The constant pool loop and its undoing *)

(** [++i] in uint16_t, once more when the constant is wide. *)
Definition cp_next (i : Z) (cp : cafebabe_constant_pool) : Z :=
  u16 ((if cp_wide cp then u16 (i + 1) else i) + 1).

Section ops.
Context `{Allocator}.

(** The loop of lines 49-65.  Each iteration that goes on has consumed a byte,
    so one more than the bytes left is enough fuel.  On an error it hands over
    the index it stopped at and the table. *)
Fixpoint constant_pool_loop (fuel : nat) (count i : Z) (tbl : list (option cafebabe_constant_pool))
  : M cstate (Z * list (option cafebabe_constant_pool)) (list (option cafebabe_constant_pool)) :=
  match fuel with
  | O => undef
  | S fuel' => λ s,
    if decide (i < count) then
      match cafebabe_constant_pool_init s with
      | Done cp s' =>
        if decide (i < Z.of_nat (length tbl)) then
          constant_pool_loop fuel' count (cp_next i cp) (<[Z.to_nat i := Some cp]> tbl) s'
        else Undef
      | Fail _ s' => Fail (i, tbl) s'
      | Undef => Undef
      end
    else Done tbl s
  end.

(** The loop of lines 165-178: release the entries below [limit]. *)
Fixpoint constant_pool_undo (fuel : nat) (limit i : Z) (tbl : list (option cafebabe_constant_pool))
  : M cstate unit unit :=
  match fuel with
  | O => undef
  | S fuel' =>
    if decide (i < limit) then
      match tbl !! Z.to_nat i with
      | Some (Some cp) =>
        do cafebabe_constant_pool_deinit cp;;
        constant_pool_undo fuel' limit (cp_next i cp) tbl
      | _ => undef
      end
    else ret tt
  end.

Definition out_constant_pool_init (p : block) (limit : Z)
    (tbl : list (option cafebabe_constant_pool)) : M cstate unit unit :=
  do constant_pool_undo (S (Z.to_nat limit)) limit 1 tbl;; free_block p.

(** Lines 124-153: the class attributes and the end of the file. *)
Definition class_init_attributes : parser cafebabe_attribute_array :=
  let* count := cafebabe_stream_read_uint16 in
  let* p := cafebabe_stream_malloc (sizeof_attribute_info * count) in
  let* array := on_error (init_loop cafebabe_attribute_info_init (Z.to_nat count) [])
    (λ attrs, do for_each cafebabe_attribute_info_deinit attrs;; free_block p) tt in
  on_error
    (let* eof := cafebabe_stream_eof in
     if negb eof then do set_errno CAFEBABE_ERROR_EXPECTED_EOF;; fail tt
     else ret (AttributeArray count p array))
    (λ _, do for_each cafebabe_attribute_info_deinit array;; free_block p) tt.

(** Lines 107-157. *)
Definition class_init_methods
  : parser (Z * block * list cafebabe_method_info * cafebabe_attribute_array) :=
  let* count := cafebabe_stream_read_uint16 in
  let* p := cafebabe_stream_malloc (sizeof_method_info * count) in
  let* ms := on_error (init_loop cafebabe_method_info_init (Z.to_nat count) [])
    (λ ms, do for_each cafebabe_method_info_deinit ms;; free_block p) tt in
  on_error
    (let* attrs := class_init_attributes in ret (count, p, ms, attrs))
    (λ _, do for_each cafebabe_method_info_deinit ms;; free_block p) tt.

(** Lines 90-161. *)
Definition class_init_fields
  : parser (Z * block * list cafebabe_field_info *
            (Z * block * list cafebabe_method_info * cafebabe_attribute_array)) :=
  let* count := cafebabe_stream_read_uint16 in
  let* p := cafebabe_stream_malloc (sizeof_field_info * count) in
  let* fs := on_error (init_loop cafebabe_field_info_init (Z.to_nat count) [])
    (λ fs, do for_each cafebabe_field_info_deinit fs;; free_block p) tt in
  on_error
    (let* ms := class_init_methods in ret (count, p, fs, ms))
    (λ _, do for_each cafebabe_field_info_deinit fs;; free_block p) tt.

Definition cafebabe_class_init : parser cafebabe_class :=
  let* magic := cafebabe_stream_read_uint32 in
  if decide (magic ≠ 0xCAFEBABE) then do set_errno CAFEBABE_ERROR_BAD_MAGIC_NUMBER;; fail tt else
  let* minor_version := cafebabe_stream_read_uint16 in
  let* major_version := cafebabe_stream_read_uint16 in
  let* cp_count := cafebabe_stream_read_uint16 in
  let* cp_ptr := cafebabe_stream_malloc (sizeof_constant_pool * cp_count) in
  let* left := get (λ s, length (rest s)) in
  let* pool := on_error
    (constant_pool_loop (S left) cp_count 1 (replicate (Z.to_nat cp_count) None))
    (λ e, out_constant_pool_init cp_ptr e.1 e.2) tt in
  on_error
    (let* access_flags := cafebabe_stream_read_uint16 in
     let* this_class := cafebabe_stream_read_uint16 in
     let* super_class := cafebabe_stream_read_uint16 in
     let* if_count := cafebabe_stream_read_uint16 in
     let* if_ptr := cafebabe_stream_malloc (2 * if_count) in
     let* ifs := on_error (init_loop cafebabe_stream_read_uint16 (Z.to_nat if_count) [])
                          (λ _, free_block if_ptr) tt in
     on_error
       (let* fs := class_init_fields in
        ret (let '(f_count, f_ptr, f_array, (m_count, m_ptr, m_array, attrs)) := fs in
             Class_ magic minor_version major_version cp_count cp_ptr pool
                    access_flags this_class super_class if_count if_ptr ifs
                    f_count f_ptr f_array m_count m_ptr m_array attrs))
       (λ _, free_block if_ptr) tt)
    (λ _, out_constant_pool_init cp_ptr cp_count pool) tt.
End ops.

(** The loop of lines 187-188 visits every slot, the second halves of wide
    constants included. *)
Fixpoint constant_pool_deinit_loop (fuel : nat) (count i : Z)
    (tbl : list (option cafebabe_constant_pool)) : M cstate unit unit :=
  match fuel with
  | O => undef
  | S fuel' =>
    if decide (i < count) then
      match tbl !! Z.to_nat i with
      | Some (Some cp) =>
        do cafebabe_constant_pool_deinit cp;;
        constant_pool_deinit_loop fuel' count (u16 (i + 1)) tbl
      | _ => undef
      end
    else ret tt
  end.

Definition cafebabe_class_deinit (c : cafebabe_class) : M cstate unit unit :=
  do constant_pool_deinit_loop (S (Z.to_nat (constant_pool_count c))) (constant_pool_count c) 1
       (constant_pool c);;
  do free_block (constant_pool_ptr c);;
  do free_block (interfaces_ptr c);;
  do for_each cafebabe_field_info_deinit (fields c);;
  do free_block (fields_ptr c);;
  do for_each cafebabe_method_info_deinit (methods c);;
  do free_block (methods_ptr c);;
  do for_each cafebabe_attribute_info_deinit (attr_array (attributes c));;
  free_block (attr_ptr (attributes c)).

(** ** Looking up constants, fields and methods

    The accessors only read the class: computations without state that return a
    value, an error, or are undefined. *)

Definition reader (A : Type) : Type := M unit unit A.

Definition cafebabe_class_constant_index_invalid (c : cafebabe_class) (i : Z) : bool :=
  bool_decide (i < 1) || bool_decide (i >= constant_pool_count c).

(** [&c->constant_pool[i]] followed by a read of its tag. *)
Definition constant_pool_entry (c : cafebabe_class) (i : Z) : reader cafebabe_constant_pool :=
  match constant_pool c !! Z.to_nat i with
  | Some (Some cp) => ret cp
  | _ => undef
  end.

(** The common shape of the accessors: check the index, then the tag. *)
Definition class_constant_get {A} (sel : cafebabe_constant_pool → option A)
    (c : cafebabe_class) (i : Z) : reader A :=
  if cafebabe_class_constant_index_invalid c i then fail tt
  else
    let* pool := constant_pool_entry c i in
    match sel pool with Some a => ret a | None => fail tt end.

Definition cafebabe_class_constant_get_integer : cafebabe_class → Z → reader Z :=
  class_constant_get (λ cp, match cp with
    | CPInteger b => Some (cafebabe_constant_pool_get_integer b) | _ => None end).
Definition cafebabe_class_constant_get_long : cafebabe_class → Z → reader Z :=
  class_constant_get (λ cp, match cp with
    | CPLong h l => Some (cafebabe_constant_pool_get_long h l) | _ => None end).
(** A jfloat is its bit pattern. *)
Definition cafebabe_class_constant_get_float : cafebabe_class → Z → reader Z :=
  class_constant_get (λ cp, match cp with CPFloat b => Some b | _ => None end).
(** A jdouble is its two words, low word first as in uint64_to_double. *)
Definition cafebabe_class_constant_get_double : cafebabe_class → Z → reader (Z * Z) :=
  class_constant_get (λ cp, match cp with CPDouble h l => Some (l, h) | _ => None end).
Definition cafebabe_class_constant_get_utf8
  : cafebabe_class → Z → reader cafebabe_constant_info_utf8 :=
  class_constant_get (λ cp, match cp with CPUtf8 u => Some u | _ => None end).
Definition cafebabe_class_constant_get_class : cafebabe_class → Z → reader Z :=
  class_constant_get (λ cp, match cp with CPClass i => Some i | _ => None end).
Definition cafebabe_class_constant_get_field_ref : cafebabe_class → Z → reader (Z * Z) :=
  class_constant_get (λ cp, match cp with CPFieldRef i j => Some (i, j) | _ => None end).
Definition cafebabe_class_constant_get_method_ref : cafebabe_class → Z → reader (Z * Z) :=
  class_constant_get (λ cp, match cp with CPMethodRef i j => Some (i, j) | _ => None end).
Definition cafebabe_class_constant_get_interface_method_ref
  : cafebabe_class → Z → reader (Z * Z) :=
  class_constant_get (λ cp, match cp with CPInterfaceMethodRef i j => Some (i, j) | _ => None end).
Definition cafebabe_class_constant_get_name_and_type : cafebabe_class → Z → reader (Z * Z) :=
  class_constant_get (λ cp, match cp with CPNameAndType i j => Some (i, j) | _ => None end).

(** The search loop of [cafebabe_class_get_field] from index [i] on: a member
    whose name or descriptor is not a UTF-8 constant ends it with an error. *)
Fixpoint class_get_member (c : cafebabe_class) (name descriptor : list Z)
    (members : list (Z * Z)) (i : Z) : reader Z :=
  match members with
  | [] => fail tt
  | (name_index, descriptor_index) :: members' =>
    let* member_name := cafebabe_class_constant_get_utf8 c name_index in
    if decide (cafebabe_constant_info_utf8_compare member_name name ≠ 0) then
      class_get_member c name descriptor members' (i + 1)
    else
      let* member_descriptor := cafebabe_class_constant_get_utf8 c descriptor_index in
      if decide (cafebabe_constant_info_utf8_compare member_descriptor descriptor ≠ 0) then
        class_get_member c name descriptor members' (i + 1)
      else ret i
  end.

Definition cafebabe_class_get_field (c : cafebabe_class) (name descriptor : list Z) : reader Z :=
  class_get_member c name descriptor
    ((λ f, (field_name_index f, field_descriptor_index f)) <$> fields c) 0.

Definition cafebabe_class_get_method (c : cafebabe_class) (name descriptor : list Z) : reader Z :=
  class_get_member c name descriptor
    ((λ m, (method_name_index m, method_descriptor_index m)) <$> methods c) 0.

(** cafebabe/attribute_array.c: the first attribute called [name] from [r] on. *)
Fixpoint attribute_array_find (c : cafebabe_class) (name : list Z)
    (attrs : list cafebabe_attribute_info) (i : Z) : reader Z :=
  match attrs with
  | [] => fail tt
  | a :: attrs' =>
    let* attribute_name := cafebabe_class_constant_get_utf8 c (attribute_name_index a) in
    if decide (cafebabe_constant_info_utf8_compare attribute_name name ≠ 0) then
      attribute_array_find c name attrs' (i + 1)
    else ret i
  end.

Definition cafebabe_attribute_array_get (array : cafebabe_attribute_array) (name : list Z)
    (c : cafebabe_class) (r : Z) : reader Z :=
  attribute_array_find c name (drop (Z.to_nat (u16 r)) (attr_array array)) (u16 r).
