(* ===== verification/ClassFileSpec.v ===== *)
(** * Correctness of the class file reader

    The table of constants as a function of the constants in file order, the
    class file format, and the proofs that [cafebabe_class_init] consumes exactly
    the encoding of the class it returns, releases everything on an error, and
    reads back every encoding. *)

From S2P Require Import Prelude CMonad Stream ConstantPool AttributeInfo ClassFile.
#[local] Open Scope Z_scope.

(** ** The constant pool table *)

(** Slots the constants occupy, from slot 1 on. *)
Definition slots (es : list cafebabe_constant_pool) : list (option cafebabe_constant_pool) :=
  concat ((λ e, if cp_wide e then [Some e; None] else [Some e]) <$> es).

Definition table (count : Z) (es : list cafebabe_constant_pool)
  : list (option cafebabe_constant_pool) :=
  (λ k, mjoin ((None :: slots es) !! k)) <$> seq 0 (Z.to_nat count).

(** The slot after the constants [es]. *)
Definition next_slot (es : list cafebabe_constant_pool) : Z := 1 + Z.of_nat (length (slots es)).

Definition starts_below (limit : Z) (es : list cafebabe_constant_pool) : Prop :=
  ∀ es1 e es2, es = es1 ++ e :: es2 → next_slot es1 < limit.

(** The constants fill the slots below [limit]. *)
Definition fits (limit : Z) (es : list cafebabe_constant_pool) : Prop :=
  starts_below limit es ∧ limit <= next_slot es.

Lemma slots_app es1 es2 : slots (es1 ++ es2) = slots es1 ++ slots es2.
Proof. unfold slots. by rewrite fmap_app, concat_app. Qed.

Lemma slots_cons e es :
  slots (e :: es) = (if cp_wide e then [Some e; None] else [Some e]) ++ slots es.
Proof. done. Qed.

Lemma next_slot_snoc es e : next_slot (es ++ [e]) = next_slot es + (if cp_wide e then 2 else 1).
Proof.
  unfold next_slot. rewrite slots_app, slots_cons, !length_app. destruct (cp_wide e); cbn; lia.
Qed.

Lemma next_slot_ge es : 1 <= next_slot es.
Proof. unfold next_slot. lia. Qed.

Lemma length_table count es : length (table count es) = Z.to_nat count.
Proof. unfold table. by rewrite length_fmap, length_seq. Qed.

Lemma lookup_table count es (k : nat) : Z.of_nat k < count →
  table count es !! k = Some (mjoin ((None :: slots es) !! k)).
Proof.
  intros Hk. unfold table. rewrite list_lookup_fmap, lookup_seq_lt by lia. done.
Qed.

Lemma table_nil count : table count [] = replicate (Z.to_nat count) None.
Proof.
  apply list_eq. intros k. destruct (decide (Z.of_nat k < count)).
  - rewrite lookup_table, lookup_replicate_2 by lia. by destruct k as [|[]].
  - rewrite !lookup_ge_None_2; rewrite ?length_table, ?length_replicate; lia || done.
Qed.

Lemma lookup_cons_S {A} (x : A) l (k : nat) : (x :: l) !! S k = l !! k.
Proof. done. Qed.

Lemma lookup_table_entry count es1 e es2 : next_slot es1 < count →
  table count (es1 ++ e :: es2) !! Z.to_nat (next_slot es1) = Some (Some e).
Proof.
  intros Hk. rewrite lookup_table by (pose proof (next_slot_ge es1); lia). do 1 f_equal.
  replace (Z.to_nat (next_slot es1)) with (S (length (slots es1))) by (unfold next_slot; lia).
  rewrite lookup_cons_S, slots_app, lookup_app_r, Nat.sub_diag, slots_cons by lia. by destruct (cp_wide e).
Qed.

Lemma table_insert count es e : next_slot es < count →
  <[Z.to_nat (next_slot es) := Some e]> (table count es) = table count (es ++ [e]).
Proof.
  intros Hk. pose proof (next_slot_ge es). apply list_eq. intros k.
  destruct (decide (k = Z.to_nat (next_slot es))) as [->|Hne].
  { rewrite list_lookup_insert_eq by (rewrite length_table; lia).
    by rewrite lookup_table_entry. }
  rewrite list_lookup_insert_ne by done.
  destruct (decide (Z.of_nat k < count)).
  2:{ rewrite !lookup_ge_None_2; rewrite ?length_table; lia || done. }
  rewrite !lookup_table by done. f_equal. rewrite slots_app, app_comm_cons.
  destruct (decide (k < length (None :: slots es))%nat) as [Hlt|Hge].
  { by rewrite lookup_app_l. }
  rewrite lookup_app_r, (lookup_ge_None_2 (None :: slots es)) by lia.
  assert (k - length (None :: slots es) ≠ 0)%nat as Hj.
  { unfold next_slot in Hne. cbn [length] in *. lia. }
  destruct (k - length (None :: slots es))%nat as [|[|j]]; [done|..].
  all: unfold slots; cbn; destruct (cp_wide e); done.
Qed.

(** Two's-complement wrap-around plays no part below 65535 slots. *)
Lemma cp_next_small es e : next_slot es < 2 ^ 16 - 2 → cp_next (next_slot es) e = next_slot (es ++ [e]).
Proof.
  intros H. pose proof (next_slot_ge es). rewrite next_slot_snoc. unfold cp_next.
  destruct (cp_wide e); rewrite (u16_id (next_slot es + 1)) by clia; [|done].
  rewrite u16_id by clia. lia.
Qed.

Lemma starts_below_nil limit : starts_below limit [].
Proof. intros [] ? ? ?; discriminate. Qed.

Lemma starts_below_snoc limit es e :
  starts_below limit es → next_slot es < limit → starts_below limit (es ++ [e]).
Proof.
  intros H Hn es1 e' es2 E. destruct es2 as [|e2 es2 _] using rev_ind.
  - apply app_inj_tail in E as [<- _]. done.
  - rewrite app_comm_cons, (assoc_L (++)) in E. apply app_inj_tail in E as [-> _]. eauto.
Qed.

Lemma starts_below_next es : starts_below (next_slot es) es.
Proof.
  intros es1 e es2 ->. unfold next_slot. rewrite slots_app, slots_cons, !length_app.
  destruct (cp_wide e); cbn; lia.
Qed.

(** The constants can be recovered from the table they fill. *)
Definition entries (tbl : list (option cafebabe_constant_pool)) : list cafebabe_constant_pool :=
  omap id tbl.

Lemma omap_id_app (l k : list (option cafebabe_constant_pool)) : omap id (l ++ k) = omap id l ++ omap id k.
Proof. induction l as [|[] l IH]; cbn in *; [done|by rewrite IH|done]. Qed.

Lemma entries_slots es : omap id (slots es) = es.
Proof.
  induction es as [|e es IH]; [done|]. rewrite slots_cons, omap_id_app, IH.
  by destruct (cp_wide e).
Qed.

Lemma omap_id_none (l : list (option cafebabe_constant_pool)) :
  Forall (λ o, o = None) l → omap id l = [].
Proof. by induction 1; subst. Qed.

(** Dropping a prefix that ends in the second half of a wide constant loses nothing. *)
Lemma entries_table count es : 1 <= count → fits count es → entries (table count es) = es.
Proof.
  intros Hc [Hs Hn]. unfold entries.
  assert (table count es = take (Z.to_nat count) (None :: slots es)) as ->.
  { apply list_eq. intros k. destruct (decide (Z.of_nat k < count)).
    - rewrite lookup_table, lookup_take_lt by lia.
      destruct ((None :: slots es) !! k) eqn:E; [done|].
      apply lookup_ge_None_1 in E. unfold next_slot in Hn. cbn in E. lia.
    - rewrite !lookup_ge_None_2; rewrite ?length_table, ?length_take; lia || done. }
  assert (omap id (drop (Z.to_nat count) (None :: slots es)) = []) as Hd.
  { destruct es as [|e es _] using rev_ind.
    { unfold next_slot in Hn. cbn in Hn. replace count with 1 by lia. done. }
    pose proof (Hs es e [] eq_refl) as He. rewrite slots_app, app_comm_cons, drop_app_ge.
    2:{ unfold next_slot in He. cbn. lia. }
    destruct (Z.to_nat count - length (None :: slots es))%nat as [|j] eqn:E.
    { unfold next_slot in He. cbn in E. lia. }
    apply omap_id_none. unfold slots. cbn. destruct (cp_wide e); cbn; destruct j as [|[]]; cbn;
      by repeat constructor. }
  rewrite <- (entries_slots es) at 2.
  change (omap id (slots es)) with (omap id (None :: slots es)).
  rewrite <- (take_drop (Z.to_nat count) (None :: slots es)) at 2.
  by rewrite omap_id_app, Hd, (right_id_L [] (++)).
Qed.

(** ** The loops over the table *)

Section loops.
Context `{Allocator}.

Lemma constant_pool_loop_wp fuel count es s0 s bs L :
  0 <= count < 2 ^ 16 - 1 → (length (rest s) < fuel)%nat →
  run s0 s (bs ++ encs encode_cp es) (owns_list owns_cp es ⊎ L) →
  Forall cp_ok es → starts_below count es →
  wp (constant_pool_loop fuel count (next_slot es) (table count es))
     (λ tbl s', ∃ es', tbl = table count es' ∧
        run s0 s' (bs ++ encs encode_cp es') (owns_list owns_cp es' ⊎ L) ∧
        Forall cp_ok es' ∧ fits count es')
     (λ e s', ∃ es', e = (next_slot es', table count es') ∧ next_slot es' < count ∧
        kept s0 s' ∧ live s' = owns_list owns_cp es' ⊎ L ⊎ live s0) s.
Proof.
  intros Hc. revert es s. induction fuel as [|fuel IH]; intros es s Hf Hrun Hok Hst; [lia|].
  unfold wp. cbn [constant_pool_loop]. case_decide as Hi.
  2:{ exists es. split_and!; try done. split; [done|lia]. }
  pose proof (constant_pool_init_parses s (run_ok _ _ _ _ Hrun)) as Hp. unfold wp in Hp.
  destruct Hrun as [Ha Hl].
  destruct (cafebabe_constant_pool_init s) as [cp s'|e s'|]; [| |done].
  - destruct Hp as (Ha' & Hl' & Hcp).
    rewrite decide_True by (rewrite length_table; pose proof (next_slot_ge es); lia).
    rewrite table_insert, cp_next_small by (done || lia). apply IH.
    + apply adv_rest in Ha'. rewrite Ha', length_app in Hf. unfold encode_cp in Hf.
      cbn [length] in Hf. lia.
    + split.
      * rewrite encs_snoc, (assoc_L (++)). by eapply adv_trans.
      * rewrite owns_list_snoc, Hl', Hl. multiset_solver.
    + apply Forall_app_2; [done|by constructor].
    + by apply starts_below_snoc.
  - exists es. destruct Hp as [Hk Hl']. split_and!; [done|done|by eapply adv_kept_trans|congruence].
Qed.

Lemma constant_pool_undo_wp limit count es2 es1 s l fuel :
  limit <= count → limit < 2 ^ 16 - 1 → fits limit (es1 ++ es2) →
  (Z.to_nat (limit - next_slot es1) < fuel)%nat →
  live s = owns_list owns_cp es2 ⊎ l →
  wp (constant_pool_undo fuel limit (next_slot es1) (table count (es1 ++ es2)))
     (λ _ s', strm s' = strm s ∧ live s' = l) (λ _ _, False) s.
Proof.
  intros Hlc Hlim Hfit. revert es1 s fuel Hfit.
  induction es2 as [|e es2 IH]; intros es1 s fuel Hfit Hfuel Hl.
  - destruct fuel as [|fuel]; [lia|]. cbn [constant_pool_undo]. destruct Hfit as [_ Hn].
    rewrite (right_id_L [] (++)) in Hn. rewrite decide_False by lia.
    apply wp_ret. split; [done|]. by rewrite Hl, owns_list_nil, (left_id_L ∅ (⊎)).
  - pose proof (proj1 Hfit es1 e es2 eq_refl) as He.
    destruct fuel as [|fuel]; [lia|]. cbn [constant_pool_undo].
    rewrite decide_True, lookup_table_entry by lia.
    eapply wp_seq;
      [apply (constant_pool_deinit_frees e s (owns_list owns_cp es2 ⊎ l))| |done].
    + rewrite Hl, owns_list_cons. multiset_solver.
    + cbv beta. intros _ s' [Hs Hl']. pose proof (next_slot_snoc es1 e).
      rewrite cp_next_small by lia.
      replace (es1 ++ e :: es2) with ((es1 ++ [e]) ++ es2) in * by by rewrite <- (assoc_L (++)).
      eapply wp_mono; [apply IH; [done| |exact Hl']| |done].
      * destruct (cp_wide e); lia.
      * cbv beta. intros _ s'' [? ?]. split; congruence.
Qed.

(** The error path of the constant pool releases exactly its constants and the table. *)
Lemma out_constant_pool_init_frees p count limit es s l :
  limit <= count → limit < 2 ^ 16 - 1 → fits limit es →
  live s = owns_list owns_cp es ⊎ {[+ p +]} ⊎ l →
  wp (out_constant_pool_init p limit (table count es))
     (λ _ s', strm s' = strm s ∧ live s' = l) (λ _ _, False) s.
Proof.
  intros Hlc Hlim Hfit Hl. unfold out_constant_pool_init. change 1 with (next_slot []).
  eapply wp_seq; [apply (constant_pool_undo_wp limit count es [] s ({[+ p +]} ⊎ l)); try done| |done].
  - unfold next_slot. cbn. lia.
  - by rewrite (assoc_L (⊎)).
  - cbv beta. intros _ s' [Hs Hl'].
    eapply wp_mono; [by apply free_block_frees| |done].
    cbv beta. intros _ s'' [? ?]. split; congruence.
Qed.
End loops.

(** ** The class file format (JVM specification 4.1) *)

Definition owns_field (f : cafebabe_field_info) : gmultiset block := owns_attrs (field_attributes f).
Definition owns_method (m : cafebabe_method_info) : gmultiset block := owns_attrs (method_attributes m).

Definition methods_part : Type := Z * block * list cafebabe_method_info * cafebabe_attribute_array.
Definition fields_part : Type := Z * block * list cafebabe_field_info * methods_part.

Definition owns_methods_part (x : methods_part) : gmultiset block :=
  let '(_, p, ms, attrs) := x in owns_attrs attrs ⊎ (owns_list owns_method ms ⊎ {[+ p +]}).
Definition owns_fields_part (x : fields_part) : gmultiset block :=
  let '(_, p, fs, ms) := x in owns_methods_part ms ⊎ (owns_list owns_field fs ⊎ {[+ p +]}).

Definition encode_methods_part (x : methods_part) : list Z :=
  let '(n, _, ms, attrs) := x in be16 n ++ encs encode_method ms ++ encode_attrs attrs.
Definition encode_fields_part (x : fields_part) : list Z :=
  let '(n, _, fs, ms) := x in be16 n ++ encs encode_field fs ++ encode_methods_part ms.

Definition methods_part_ok (x : methods_part) : Prop :=
  let '(n, _, ms, attrs) := x in
  is_u16 n ∧ n = Z.of_nat (length ms) ∧ Forall method_ok ms ∧ attrs_ok attrs.
Definition fields_part_ok (x : fields_part) : Prop :=
  let '(n, _, fs, ms) := x in
  is_u16 n ∧ n = Z.of_nat (length fs) ∧ Forall field_ok fs ∧ methods_part_ok ms.

Definition class_fields_part (c : cafebabe_class) : fields_part :=
  (fields_count c, fields_ptr c, fields c,
   (methods_count c, methods_ptr c, methods c, attributes c)).

Definition owns_class (c : cafebabe_class) : gmultiset block :=
  owns_fields_part (class_fields_part c) ⊎ {[+ interfaces_ptr c +]} ⊎
  (owns_list owns_cp (entries (constant_pool c)) ⊎ {[+ constant_pool_ptr c +]}).

Definition encode_class (c : cafebabe_class) : list Z :=
  be32 (magic c) ++ be16 (minor_version c) ++ be16 (major_version c) ++
  be16 (constant_pool_count c) ++ encs encode_cp (entries (constant_pool c)) ++
  be16 (access_flags c) ++ be16 (this_class c) ++ be16 (super_class c) ++
  be16 (interfaces_count c) ++ encs be16 (interfaces c) ++
  encode_fields_part (class_fields_part c).

(** The table holds its constants at the slots the format gives them. *)
Definition pool_ok (count : Z) (tbl : list (option cafebabe_constant_pool)) : Prop :=
  ∃ es, tbl = table count es ∧ fits count es ∧ Forall cp_ok es.

Definition class_ok (c : cafebabe_class) : Prop :=
  magic c = 0xCAFEBABE ∧ is_u16 (minor_version c) ∧ is_u16 (major_version c) ∧
  is_u16 (constant_pool_count c) ∧ pool_ok (constant_pool_count c) (constant_pool c) ∧
  is_u16 (access_flags c) ∧ is_u16 (this_class c) ∧ is_u16 (super_class c) ∧
  is_u16 (interfaces_count c) ∧ interfaces_count c = Z.of_nat (length (interfaces c)) ∧
  Forall is_u16 (interfaces c) ∧ fields_part_ok (class_fields_part c).

Ltac class_cbn :=
  cbn [magic minor_version major_version constant_pool_count constant_pool_ptr constant_pool
       access_flags this_class super_class interfaces_count interfaces_ptr interfaces
       fields_count fields_ptr fields methods_count methods_ptr methods attributes
       class_fields_part] in *.

(** ** The phases *)

Section phases.
Context `{Allocator}.

Lemma class_init_attributes_parses :
  parses class_init_attributes owns_attrs encode_attrs attrs_ok.
Proof.
  intros s0 Hok. pose proof (run_start _ Hok). unfold class_init_attributes.
  pread cnt. pmalloc p.
  eapply run_struct_array; [eassumption|apply attribute_info_init_parses|
                            apply attribute_info_deinit_frees| |pfail].
  intros l s' Hr Hf Hl.
  eapply (wp_cleanup _ _ _ (l, p) s0 _ ∅ _ _ (struct_array_frees _ _ attribute_info_deinit_frees));
    [|pfail].
  apply wp_bind, wp_get. case_bool_decide; cbn [negb].
  - apply wp_ret. unfold encode_attrs. eapply run_done; [eassumption|psolve_enc|psolve_own|].
    unfold attrs_ok. cbn. split_and!; [done|clia|done].
  - eapply wp_seq; [apply set_errno_kept; by eapply run_ok| |done]. cbv beta.
    intros _ s2 [Hk Hl2]. apply wp_fail. destruct Hr as [Ha Hl3].
    split; [by eapply adv_kept_trans|]. rewrite Hl2, Hl3. psolve_own.
Qed.

Lemma class_init_methods_parses :
  parses class_init_methods owns_methods_part encode_methods_part methods_part_ok.
Proof.
  intros s0 Hok. pose proof (run_start _ Hok). unfold class_init_methods.
  pread cnt. pmalloc p.
  eapply run_struct_array; [eassumption|apply method_info_init_parses|
                            apply method_info_deinit_frees| |pfail].
  intros l s' Hr Hf Hl.
  eapply (run_scope _ _ _ _ _
            (λ x, do for_each cafebabe_method_info_deinit x.1;; free_block x.2) _ (l, p) s0 _ _ ∅);
    [exact Hr| |apply class_init_attributes_parses|
     apply (struct_array_frees _ _ method_info_deinit_frees)| |pfail]; [psolve_own|].
  intros attrs s2 Hr2 Ha. unfold encode_methods_part, owns_methods_part. pdone.
  unfold methods_part_ok. split_and!; try done. clia.
Qed.

Lemma class_init_fields_parses :
  parses class_init_fields owns_fields_part encode_fields_part fields_part_ok.
Proof.
  intros s0 Hok. pose proof (run_start _ Hok). unfold class_init_fields.
  pread cnt. pmalloc p.
  eapply run_struct_array; [eassumption|apply field_info_init_parses|
                            apply field_info_deinit_frees| |pfail].
  intros l s' Hr Hf Hl.
  eapply (run_scope _ _ _ _ _
            (λ x, do for_each cafebabe_field_info_deinit x.1;; free_block x.2) _ (l, p) s0 _ _ ∅);
    [exact Hr| |apply class_init_methods_parses|
     apply (struct_array_frees _ _ field_info_deinit_frees)| |pfail]; [psolve_own|].
  intros ms s2 Hr2 Ha. unfold encode_fields_part, owns_fields_part. pdone.
  unfold fields_part_ok. split_and!; try done. clia.
Qed.
End phases.

(** ** The reader *)

Lemma class_init_at_end `{Allocator} s c s' :
  cafebabe_class_init s = Done c s' → virtual_i (strm s') = virtual_n (strm s').
Proof.
  unfold cafebabe_class_init, class_init_fields, class_init_methods, class_init_attributes,
    cafebabe_stream_eof.
  intros E. inv_done.
  match goal with H : negb (bool_decide _) = false |- _ =>
    apply negb_false_iff, bool_decide_eq_true in H; exact H end.
Qed.

Lemma class_init_count s st magic minor major count :
  adv s st (((([] ++ be32 magic) ++ be16 minor) ++ be16 major) ++ be16 count) →
  is_u16 count → dec16 (drop 8 (rest s)) = Some count.
Proof.
  intros [_ _ ->] Hc. unfold be32, be16. cbn [app drop dec16]. by rewrite be16_value.
Qed.

Lemma fits_zero es : fits 0 es → es = [].
Proof. intros [H _]. destruct es as [|e es]; [done|]. specialize (H [] e es eq_refl). done. Qed.

Lemma entries_table_fits count es : 0 <= count → fits count es → entries (table count es) = es.
Proof.
  intros Hc Hf. destruct (decide (count = 0)) as [->|]; [|apply entries_table; [lia|done]].
  by rewrite (fits_zero es Hf).
Qed.

Section reader.
Context `{Allocator}.

Lemma class_init_wp s0 :
  stream_ok s0 → dec16 (drop 8 (rest s0)) ≠ Some (2 ^ 16 - 1) →
  wp cafebabe_class_init
     (λ c s', adv s0 s' (encode_class c) ∧ live s' = owns_class c ⊎ live s0 ∧ class_ok c)
     (λ _ s', kept s0 s' ∧ live s' = live s0) s0.
Proof.
  intros Hok Hcnt. pose proof (run_start _ Hok). unfold cafebabe_class_init.
  pread mag. case_decide as Hcafe.
  { destruct Hrun as [Ha Hl]. eapply wp_seq; [apply set_errno_kept; by eapply adv_ok| |done].
    cbv beta. intros _ s' [? Hl']. apply wp_fail.
    split; [by eapply adv_kept_trans|]. by rewrite Hl', Hl, (left_id_L ∅ (⊎)). }
  pread minor. pread major. pread count. pmalloc p.
  assert (0 <= count < 2 ^ 16 - 1) as Hc.
  { destruct Hrun2 as [Ha _]. apply class_init_count in Ha; [|done].
    rewrite Ha in Hcnt. assert (count ≠ 2 ^ 16 - 1) by congruence. clia. }
  apply wp_bind, wp_get. apply wp_bind, wp_on_error.
  rewrite <- table_nil. change 1 with (next_slot []).
  eapply wp_mono; [eapply (constant_pool_loop_wp _ count [] s0 st3); [done|lia| |done|]|..].
  { rewrite encs_nil, (right_id_L [] (++)), owns_list_nil, (left_id_L ∅ (⊎)). exact Hrun3. }
  { apply starts_below_nil. }
  2:{ cbv beta. intros ? s' (es & -> & Hn & Hk & Hl). cbn [fst snd].
      eapply wp_mono; [apply (out_constant_pool_init_frees p count (next_slot es) es s' (live s0))| |done].
      - lia.
      - lia.
      - split; [apply starts_below_next|lia].
      - rewrite Hl. psolve_own.
      - cbv beta. intros _ s'' [? ?]. split; [by eapply kept_strm|done]. }
  cbv beta. intros tbl s' (es & -> & Hr & Hes & Hfit).
  apply wp_on_error.
  eapply (wp_mono _ _ _ (λ _ s', kept s0 s' ∧ live s' = owns_list owns_cp es ⊎ ({[+ p +]} ⊎ ∅) ⊎ live s0));
    [|intros ? ? HQ; exact HQ|].
  2:{ cbv beta. intros _ s2 [Hk Hl].
      eapply wp_mono; [apply (out_constant_pool_init_frees p count count es s2 (live s0))| |done];
        [lia|lia|done| |].
      - rewrite Hl. psolve_own.
      - cbv beta. intros _ s'' [? ?]. split; [by eapply kept_strm|done]. }
  pread acc. pread this. pread super. pread icount.
  pmalloc ip. eapply run_array; [eassumption|apply read_uint16_parses| |done].
  intros ifs s2 Hr2 Hifs Hil.
  eapply (run_scope _ _ _ _ _ free_block _ ip s0);
    [exact Hr2|reflexivity|apply class_init_fields_parses|apply free_block_frees| |done].
  intros [[[fc fp] fs] [[[mc mp] ms] attrs]] s3 Hr3 Hfs.
  assert (entries (table count es) = es) as He by (apply entries_table_fits; [lia|done]).
  eapply run_done; [exact Hr3|..].
  - unfold encode_class, class_fields_part. class_cbn. rewrite He. psolve_enc.
  - unfold owns_class, class_fields_part. class_cbn. rewrite He. psolve_own.
  - unfold class_ok, class_fields_part. class_cbn. split_and!; try done; [by exists es|clia].
Qed.
End reader.

(** ** Reading back an encoding *)

Definition pool_eq : relation (list (option cafebabe_constant_pool)) :=
  Forall2 (option_Forall2 cp_eq).

Definition methods_part_eq (x y : methods_part) : Prop :=
  let '(n, _, ms, attrs) := x in let '(n', _, ms', attrs') := y in
  n = n' ∧ Forall2 method_eq ms ms' ∧ attrs_eq attrs attrs'.
Definition fields_part_eq (x y : fields_part) : Prop :=
  let '(n, _, fs, ms) := x in let '(n', _, fs', ms') := y in
  n = n' ∧ Forall2 field_eq fs fs' ∧ methods_part_eq ms ms'.

(** The same class file, stored in other blocks. *)
Definition class_eq (c d : cafebabe_class) : Prop :=
  magic c = magic d ∧ minor_version c = minor_version d ∧ major_version c = major_version d ∧
  constant_pool_count c = constant_pool_count d ∧ pool_eq (constant_pool c) (constant_pool d) ∧
  access_flags c = access_flags d ∧ this_class c = this_class d ∧ super_class c = super_class d ∧
  interfaces_count c = interfaces_count d ∧ interfaces c = interfaces d ∧
  fields_part_eq (class_fields_part c) (class_fields_part d).

Lemma cp_eq_wide a b : cp_eq a b → cp_wide a = cp_wide b.
Proof. by destruct a, b. Qed.

Lemma cp_eq_slots es es' : Forall2 cp_eq es es' → Forall2 (option_Forall2 cp_eq) (slots es) (slots es').
Proof.
  induction 1 as [|e e' es es' He Hes IH]; [constructor|]. rewrite !slots_cons.
  apply Forall2_app; [|done]. rewrite <- (cp_eq_wide e e') by done.
  destruct (cp_wide e); by repeat constructor.
Qed.

Lemma cp_eq_next_slot es es' : Forall2 cp_eq es es' → next_slot es = next_slot es'.
Proof. intros H%cp_eq_slots%Forall2_length. unfold next_slot. by rewrite H. Qed.

Lemma cp_eq_table count es es' : Forall2 cp_eq es es' → pool_eq (table count es) (table count es').
Proof.
  intros H%cp_eq_slots. apply Forall2_same_length_lookup_2; [by rewrite !length_table|].
  intros k x y Hx Hy. assert (Z.of_nat k < count) as Hk.
  { apply lookup_lt_Some in Hx. rewrite length_table in Hx. lia. }
  rewrite lookup_table in Hx, Hy by done. simplify_eq.
  assert (Forall2 (option_Forall2 cp_eq) (None :: slots es) (None :: slots es')) as H'
    by (constructor; [constructor|done]).
  destruct ((None :: slots es) !! k) as [x|] eqn:Ex.
  - destruct (Forall2_lookup_l _ _ _ _ _ H' Ex) as (y & Ey & Hxy). rewrite Ey. done.
  - apply lookup_ge_None in Ex. rewrite (lookup_ge_None_2 (None :: slots es')); [constructor|].
    apply Forall2_length in H'. by rewrite <- H'.
Qed.

(** [reads_back] for the phases that end with the end of the file. *)
Definition reads_to_end {A} (m : parser A) (enc : A → list Z) (ok : A → Prop)
    (rel : A → A → Prop) : Prop :=
  ∀ s a, stream_ok s → ok a → rest s = enc a →
    wp m (λ a' s', stream_ok s' ∧ rest s' = [] ∧ rel a a') (λ _ _, False) s.

Section back.
Context `{AllocatorOk}.

Lemma constant_pool_loop_back count es2 : ∀ es1 es1' fuel s r,
  0 <= count < 2 ^ 16 - 1 → (length (rest s) < fuel)%nat → stream_ok s →
  rest s = encs encode_cp es2 ++ r → Forall cp_ok es2 → fits count (es1 ++ es2) →
  Forall2 cp_eq es1 es1' →
  wp (constant_pool_loop fuel count (next_slot es1) (table count es1'))
     (λ tbl s', stream_ok s' ∧ rest s' = r ∧ pool_eq (table count (es1 ++ es2)) tbl)
     (λ _ _, False) s.
Proof.
  induction es2 as [|e es2 IH]; intros es1 es1' fuel s r Hc Hfuel Hok Hr Hes Hfit Heq.
  all: destruct fuel as [|fuel]; [lia|]; unfold wp; cbn [constant_pool_loop].
  - rewrite (right_id_L [] (++)) in *. destruct Hfit as [_ Hn].
    rewrite decide_False by lia. split_and!; [done|done|by apply cp_eq_table].
  - pose proof (proj1 Hfit es1 e es2 eq_refl) as Hlt. rewrite decide_True by done.
    rewrite encs_cons in Hr. rewrite <- (assoc_L (++)) in Hr.
    apply Forall_cons_1 in Hes as [He Hes].
    pose proof (constant_pool_init_back s e _ Hok He Hr) as Hb. unfold wp in Hb.
    destruct (cafebabe_constant_pool_init s) as [e' s'|x s'|]; [|done..].
    destruct Hb as (Hok' & Hr' & Hee).
    rewrite decide_True by (rewrite length_table; pose proof (next_slot_ge es1); lia).
    replace (cp_next (next_slot es1) e') with (next_slot (es1 ++ [e])).
    2:{ rewrite <- cp_next_small by lia. unfold cp_next. by rewrite (cp_eq_wide e e'). }
    rewrite (cp_eq_next_slot es1 es1'), table_insert
      by (done || by rewrite <- (cp_eq_next_slot es1 es1')).
    replace (es1 ++ e :: es2) with ((es1 ++ [e]) ++ es2) in * by by rewrite <- (assoc_L (++)).
    apply IH; try done.
    + rewrite Hr, length_app in Hfuel. rewrite Hr'. assert (1 <= length (encode_cp e))%nat by (unfold encode_cp; cbn; lia). lia.
    + apply Forall2_app; [done|by repeat constructor].
Qed.

Lemma class_init_attributes_back :
  reads_to_end class_init_attributes encode_attrs attrs_ok attrs_eq.
Proof.
  intros s [cnt p attrs] Hok (Hc & Hl & Ha) Hr. cbn in *. unfold encode_attrs in Hr. cbn in Hr.
  unfold class_init_attributes. pback x.
  eapply back_malloc; [done|]. intros q s' Hok' Hr'.
  assert (rest s' = encs encode_attr attrs ++ []) as Hr'' by by rewrite (right_id_L [] (++)), Hr'.
  eapply back_array; [done|exact Hr''|apply attribute_info_init_back|done|lia|].
  intros l s2 Hok2 Hr2 Heq. apply wp_on_error, wp_bind, wp_get.
  rewrite bool_decide_true by by apply eof_rest. done.
Qed.

Lemma class_init_methods_back :
  reads_to_end class_init_methods encode_methods_part methods_part_ok methods_part_eq.
Proof.
  intros s [[[cnt p] ms] attrs] Hok (Hc & Hl & Ha & Hat) Hr. cbn in Hr.
  unfold class_init_methods. pback x. eapply back_malloc; [done|]. intros q s' Hok' Hr'.
  rewrite Hrest in Hr'.
  eapply back_array; [done|exact Hr'|apply method_info_init_back|done|lia|].
  intros l s2 Hok2 Hr2 Heq. apply wp_on_error.
  eapply wp_seq; [by apply class_init_attributes_back| |done].
  cbv beta. intros at' s3 (? & ? & ?). apply wp_ret. done.
Qed.

Lemma class_init_fields_back :
  reads_to_end class_init_fields encode_fields_part fields_part_ok fields_part_eq.
Proof.
  intros s [[[cnt p] fs] ms] Hok (Hc & Hl & Ha & Hat) Hr. cbn -[encode_methods_part] in Hr.
  unfold class_init_fields. pback x. eapply back_malloc; [done|]. intros q s' Hok' Hr'.
  rewrite Hrest in Hr'.
  eapply back_array; [done|exact Hr'|apply field_info_init_back|done|lia|].
  intros l s2 Hok2 Hr2 Heq. apply wp_on_error.
  eapply wp_seq; [by apply class_init_methods_back| |done].
  cbv beta. intros ms' s3 (? & ? & ?). apply wp_ret. done.
Qed.

Lemma class_init_back s c :
  stream_ok s → class_ok c → constant_pool_count c < 2 ^ 16 - 1 → rest s = encode_class c →
  wp cafebabe_class_init (λ c' s', stream_ok s' ∧ rest s' = [] ∧ class_eq c c') (λ _ _, False) s.
Proof.
  intros Hok (Hmag & Hmin & Hmaj & Hcnt & (es & Hpool & Hfit & Hes) & Hacc & Hthis & Hsup & Hic &
    Hil & Hif & Hfs) Hc Hr.
  assert (entries (constant_pool c) = es) as He
    by (rewrite Hpool; apply entries_table_fits; [clia|done]).
  unfold encode_class in Hr. rewrite He in Hr. unfold cafebabe_class_init.
  eapply back_read; [done|exact Hr|apply read_uint32_back|rewrite Hmag; clia|].
  intros m s1 Hok1 Hr1 <-. rewrite decide_False by (intros Hn; by apply Hn).
  eapply back_read; [done|exact Hr1|apply read_uint16_back|done|]. intros ? s2 Hok2 Hr2 <-.
  eapply back_read; [done|exact Hr2|apply read_uint16_back|done|]. intros ? s3 Hok3 Hr3 <-.
  eapply back_read; [done|exact Hr3|apply read_uint16_back|done|]. intros ? s4 Hok4 Hr4 <-.
  eapply back_malloc; [done|]. intros p s5 Hok5 Hr5. rewrite Hr4 in Hr5.
  apply wp_bind, wp_get, wp_bind, wp_on_error. rewrite <- table_nil. change 1 with (next_slot []).
  eapply wp_mono; [apply (constant_pool_loop_back _ es [] [] _ s5); [clia|lia|done|exact Hr5|done..]| |done].
  cbv beta. intros tbl s6 (Hok6 & Hr6 & Htbl). cbn [app] in Htbl. rewrite <- Hpool in Htbl. apply wp_on_error.
  eapply (wp_mono _ _ _ (λ _ _, False)); [|intros ? ? HQ; exact HQ|done].
  eapply back_read; [done|exact Hr6|apply read_uint16_back|done|]. intros ? s7 Hok7 Hr7 <-.
  eapply back_read; [done|exact Hr7|apply read_uint16_back|done|]. intros ? s8 Hok8 Hr8 <-.
  eapply back_read; [done|exact Hr8|apply read_uint16_back|done|]. intros ? s9 Hok9 Hr9 <-.
  eapply back_read; [done|exact Hr9|apply read_uint16_back|done|]. intros ? s10 Hok10 Hr10 <-.
  eapply back_malloc; [done|]. intros ip s11 Hok11 Hr11. rewrite Hr10 in Hr11.
  eapply back_array; [done|exact Hr11|apply read_uint16_back|done|lia|].
  intros ifs s12 Hok12 Hr12 <-%Forall2_eq_list. apply wp_on_error.
  eapply wp_seq; [by apply class_init_fields_back| |done].
  cbv beta. intros [[[fc fp] fs] [[[mc mp] ms] attrs]] s13 (? & ? & Hfe). apply wp_ret.
  split_and!; [done|done|]. unfold class_eq, class_fields_part. class_cbn. by split_and!.
Qed.
End back.
