(* ===== verification/ClassFileProps.v ===== *)
(** * The class file reader: what clients rely on

    [cafebabe_class_init] against the class file format, [cafebabe_class_deinit]
    against ownership, and the lookups by name against the tables they search. *)

From S2P Require Import Prelude CMonad Stream ConstantPool AttributeInfo ClassFile ClassFileSpec.
#[local] Open Scope Z_scope.

(** ** Releasing a class *)

(** Every slot from 1 on holds a constant: there is no second half of a wide one. *)
Definition all_slots_used (c : cafebabe_class) : Prop :=
  ∀ k : nat, (1 <= k)%nat → constant_pool c !! k ≠ Some None.

Lemma entries_drop (tbl : list (option cafebabe_constant_pool)) (k : nat) cp :
  tbl !! k = Some (Some cp) → entries (drop k tbl) = cp :: entries (drop (S k) tbl).
Proof. intros H. by rewrite (drop_S _ _ _ H). Qed.

Lemma deinit_loop_step fuel count i tbl s :
  constant_pool_deinit_loop (S fuel) count i tbl s =
  if decide (i < count) then
    match tbl !! Z.to_nat i with
    | Some (Some cp) =>
      (do cafebabe_constant_pool_deinit cp;;
       constant_pool_deinit_loop fuel count (u16 (i + 1)) tbl) s
    | _ => Undef
    end
  else Done tt s.
Proof.
  cbn [constant_pool_deinit_loop]. case_decide; [|done].
  by destruct (tbl !! Z.to_nat i) as [[]|].
Qed.

Lemma deinit_loop_wp tbl : ∀ fuel i s l,
  Z.of_nat (length tbl) < 2 ^ 16 → 0 <= i → (Z.to_nat (Z.of_nat (length tbl) - i) < fuel)%nat →
  (∀ k : nat, i <= Z.of_nat k → tbl !! k ≠ Some None) →
  live s = owns_list owns_cp (entries (drop (Z.to_nat i) tbl)) ⊎ l →
  wp (constant_pool_deinit_loop fuel (Z.of_nat (length tbl)) i tbl)
     (λ _ s', strm s' = strm s ∧ live s' = l) (λ _ _, False) s.
Proof.
  induction fuel as [|fuel IH]; intros i s l Hlen Hi Hfuel Hused Hl; [lia|].
  unfold wp. rewrite deinit_loop_step. case_decide as Hlt.
  - destruct (lookup_lt_is_Some_2 tbl (Z.to_nat i)) as [[cp|] Hcp]; [lia| |by edestruct Hused; [|done]; lia].
    rewrite Hcp, u16_id by clia. rewrite (entries_drop _ _ _ Hcp) in Hl.
    rewrite owns_list_cons, <- (assoc_L (⊎)) in Hl.
    eapply wp_seq; [by apply constant_pool_deinit_frees| |done].
    cbv beta. intros _ s' [Hs Hl']. eapply wp_mono; [apply (IH (i + 1) s' l); try lia| |done].
    + intros k Hk. apply Hused. lia.
    + rewrite Hl'. by replace (Z.to_nat (i + 1)) with (S (Z.to_nat i)) by lia.
    + cbv beta. intros _ s'' [? ?]. split; congruence.
  - rewrite drop_ge in Hl by lia. cbn in Hl. by rewrite Hl, (left_id_L ∅ (⊎)).
Qed.

Lemma deinit_loop_undef tbl (k : nat) : ∀ fuel i s l,
  Z.of_nat (length tbl) < 2 ^ 16 → 0 <= i <= Z.of_nat k → tbl !! k = Some None →
  live s = owns_list owns_cp (entries (drop (Z.to_nat i) tbl)) ⊎ l →
  constant_pool_deinit_loop fuel (Z.of_nat (length tbl)) i tbl s = Undef.
Proof.
  induction fuel as [|fuel IH]; intros i s l Hlen Hi Hk Hl; [done|].
  pose proof (lookup_lt_Some _ _ _ Hk). rewrite deinit_loop_step, decide_True by lia.
  destruct (tbl !! Z.to_nat i) as [[cp|]|] eqn:Hcp; [|done..].
  assert (i ≠ Z.of_nat k) by (intros ->; rewrite Nat2Z.id in Hcp; congruence).
  rewrite (entries_drop _ _ _ Hcp) in Hl.
  rewrite owns_list_cons, <- (assoc_L (⊎)) in Hl.
  pose proof (constant_pool_deinit_frees _ _ _ Hl) as Hd. unfold wp in Hd. unfold bind.
  destruct (cafebabe_constant_pool_deinit cp s) as [[] s'| |]; [|done..]. destruct Hd as [_ Hl'].
  rewrite u16_id by clia. apply (IH _ _ l); try done; [lia|].
  rewrite Hl'. by replace (Z.to_nat (i + 1)) with (S (Z.to_nat i)) by lia.
Qed.

Lemma class_ok_pool c : class_ok c →
  is_u16 (constant_pool_count c) ∧
  Z.of_nat (length (constant_pool c)) = constant_pool_count c ∧
  entries (drop 1 (constant_pool c)) = entries (constant_pool c).
Proof.
  intros (_ & _ & _ & Hc & (es & -> & _) & _). split_and!; [done|rewrite length_table; clia|].
  destruct (Z.to_nat (constant_pool_count c)) as [|n] eqn:E.
  - unfold table. by rewrite E.
  - unfold table. rewrite E. done.
Qed.

(** One release, then the rest. *)
Lemma frees_then {A B} (d : A → M cstate unit unit) owns a (m : M cstate unit B) s l Q R :
  frees d owns → live s = owns a ⊎ l →
  (∀ s', strm s' = strm s → live s' = l → wp m Q R s') →
  wp (do d a;; m) Q R s.
Proof.
  intros Hd Hl Hm. eapply wp_seq; [by apply Hd| |done]. cbv beta. intros _ s' [? ?]. by apply Hm.
Qed.

Lemma class_ok_deinit c s l :
  class_ok c → live s = owns_class c ⊎ l →
  live s = owns_list owns_cp (entries (drop 1 (constant_pool c))) ⊎
    ({[+ constant_pool_ptr c +]} ⊎ ({[+ interfaces_ptr c +]} ⊎
    (owns_list owns_field (fields c) ⊎ ({[+ fields_ptr c +]} ⊎
    (owns_list owns_method (methods c) ⊎ ({[+ methods_ptr c +]} ⊎
    (owns_list owns_attr (attr_array (attributes c)) ⊎ ({[+ attr_ptr (attributes c) +]} ⊎ l)))))))).
Proof.
  intros (_ & _ & Hd)%class_ok_pool Hl. rewrite Hl, Hd.
  unfold owns_class, owns_fields_part, class_fields_part, owns_methods_part, owns_attrs.
  apply gmultiset_eq. intros x. rewrite !multiplicity_disj_union. lia.
Qed.

Lemma class_deinit_wp c s l :
  class_ok c → all_slots_used c → live s = owns_class c ⊎ l →
  wp (cafebabe_class_deinit c) (λ _ s', strm s' = strm s ∧ live s' = l) (λ _ _, False) s.
Proof.
  intros Hc Hu Hl%class_ok_deinit; [|done]. destruct (class_ok_pool c Hc) as (Hcnt & Hlen & _).
  unfold cafebabe_class_deinit. rewrite <- Hlen.
  eapply wp_seq; [eapply deinit_loop_wp; [clia|lia|lia| |exact Hl]| |done].
  { intros k Hk. apply Hu. lia. }
  cbv beta. intros _ s1 [Hs1 Hl1].
  eapply frees_then; [apply free_block_frees|exact Hl1|]. intros s2 Hs2 Hl2.
  eapply frees_then; [apply free_block_frees|exact Hl2|]. intros s3 Hs3 Hl3.
  eapply frees_then; [apply for_each_frees, field_info_deinit_frees|exact Hl3|]. intros s4 Hs4 Hl4.
  eapply frees_then; [apply free_block_frees|exact Hl4|]. intros s5 Hs5 Hl5.
  eapply frees_then; [apply for_each_frees, method_info_deinit_frees|exact Hl5|]. intros s6 Hs6 Hl6.
  eapply frees_then; [apply free_block_frees|exact Hl6|]. intros s7 Hs7 Hl7.
  eapply frees_then; [apply for_each_frees, attribute_info_deinit_frees|exact Hl7|].
  intros s8 Hs8 Hl8. eapply wp_mono; [apply (free_block_frees _ _ _ Hl8)| |done].
  cbv beta. intros _ s9 [Hs9 Hl9]. split; congruence.
Qed.

Lemma class_deinit_undef c s l :
  class_ok c → ¬ all_slots_used c → live s = owns_class c ⊎ l → cafebabe_class_deinit c s = Undef.
Proof.
  intros Hc Hu Hl%class_ok_deinit; [|done]. destruct (class_ok_pool c Hc) as (Hcnt & Hlen & _).
  assert (∃ k : nat, (1 <= k)%nat ∧ constant_pool c !! k = Some None) as (k & Hk & Hn).
  { destruct (decide (Exists (λ k, (1 <= k)%nat ∧ constant_pool c !! k = Some None)
                             (seq 0 (length (constant_pool c))))) as [He|He].
    - apply Exists_exists in He as (k & _ & ?). by exists k.
    - destruct Hu. intros k Hk Hn. apply He, Exists_exists. exists k. split; [|done].
      apply in_seq. apply lookup_lt_Some in Hn. lia. }
  unfold cafebabe_class_deinit, bind at 1. rewrite <- Hlen.
  erewrite (deinit_loop_undef _ k); [done|clia| |done|exact Hl]. lia.
Qed.

(** ** Lookups *)

(** Slot [i] holds the constant [cp]. *)
Definition slot (c : cafebabe_class) (i : Z) (cp : cafebabe_constant_pool) : Prop :=
  1 <= i < constant_pool_count c ∧ constant_pool c !! Z.to_nat i = Some (Some cp).

Definition utf8_at (c : cafebabe_class) (i : Z) : Prop := ∃ u, slot c i (CPUtf8 u).
Definition string_at (c : cafebabe_class) (i : Z) (s : list Z) : Prop :=
  ∃ u, slot c i (CPUtf8 u) ∧ bytes_data (utf8_bytes u) = s.

Lemma class_constant_get_slot {A} (sel : cafebabe_constant_pool → option A) c i cp :
  slot c i cp →
  class_constant_get sel c i tt = match sel cp with Some a => Done a tt | None => Fail tt tt end.
Proof.
  intros [Hi Hcp]. unfold class_constant_get, cafebabe_class_constant_index_invalid.
  rewrite !bool_decide_false by lia. cbn. unfold bind, constant_pool_entry. rewrite Hcp.
  cbn. by destruct (sel cp).
Qed.

Lemma slot_cp_ok c i cp : class_ok c → slot c i cp → cp_ok cp.
Proof.
  intros (_ & _ & _ & Hc & (es & Hp & Hf & Hes) & _) [Hi Hcp].
  rewrite Hp, lookup_table in Hcp by lia.
  destruct (Z.to_nat i) as [|k] eqn:E; [lia|]. rewrite lookup_cons_S in Hcp.
  destruct (slots es !! k) as [o|] eqn:Hs; cbn in Hcp; [|done]. injection Hcp as ->.
  assert (cp ∈ omap id (slots es)) as Hin.
  { apply list_elem_of_omap. exists (Some cp). split; [by eapply list_elem_of_lookup_2|done]. }
  rewrite entries_slots in Hin. apply list_elem_of_In in Hin. rewrite Forall_forall in Hes. by apply Hes.
Qed.

Lemma get_utf8_string c i :
  class_ok c → utf8_at c i →
  ∃ u, cafebabe_class_constant_get_utf8 c i tt = Done u tt ∧
    ∀ s, c_string s → (cafebabe_constant_info_utf8_compare u s = 0 ↔ string_at c i s).
Proof.
  intros Hc [u Hu]. exists u. split.
  { unfold cafebabe_class_constant_get_utf8. by rewrite (class_constant_get_slot _ _ _ _ Hu). }
  intros s Hs. rewrite utf8_compare_zero by (done || exact (slot_cp_ok _ _ _ Hc Hu)). split.
  - intros E. by exists u.
  - intros (u' & [_ Hu'] & <-). destruct Hu as [_ Hu]. by rewrite Hu in Hu'; injection Hu' as ->.
Qed.

(** The first member whose name and descriptor are the ones asked for. *)
Definition member_named (c : cafebabe_class) (name descriptor : list Z) (m : Z * Z) : Prop :=
  string_at c m.1 name ∧ string_at c m.2 descriptor.

Definition first_such {A} (P : A → Prop) (l : list A) (i : Z) : Prop :=
  0 <= i ∧ (∃ a, l !! Z.to_nat i = Some a ∧ P a) ∧
  ∀ (j : nat) a, Z.of_nat j < i → l !! j = Some a → ¬ P a.

(** What a linear search promises. *)
Definition finds_first {A} (P : A → Prop) (l : list A) (r : outcome unit unit Z) : Prop :=
  match r with
  | Done i _ => first_such P l i
  | Fail _ _ => Forall (λ a, ¬ P a) l
  | Undef => False
  end.

Lemma finds_first_here {A} (P : A → Prop) a l : P a → finds_first P (a :: l) (Done 0 tt).
Proof. intros Ha. split_and!; [done|by exists a|]. lia. Qed.

Lemma finds_first_skip {A} (P : A → Prop) a l (r : outcome unit unit Z) r' :
  ¬ P a → finds_first P l r →
  r' = match r with Done i s => Done (i + 1) s | r => r end → finds_first P (a :: l) r'.
Proof.
  intros Ha Hr ->. destruct r as [i s|e s|]; cbn in *; [|by constructor|done].
  destruct Hr as (Hi & Hx & Hj). split_and!; [lia| |].
  - by replace (Z.to_nat (i + 1)) with (S (Z.to_nat i)) by lia.
  - intros [|j] b Hlt Hb; cbn in Hb; [by injection Hb as <-|]. apply (Hj j); [lia|done].
Qed.

Definition shift_done (k : Z) (r : outcome unit unit Z) : outcome unit unit Z :=
  match r with Done i s => Done (i + k) s | r => r end.

Lemma bind_shift {A} (m : reader A) (f g : A → reader Z) k s :
  (∀ a s', f a s' = shift_done k (g a s')) → bind m f s = shift_done k (bind m g s).
Proof. intros H. unfold bind. by destruct (m s). Qed.

Lemma class_get_member_shift c name desc ms i k s :
  class_get_member c name desc ms (i + k) s = shift_done k (class_get_member c name desc ms i s).
Proof.
  revert i s. induction ms as [|[ni di] ms IH]; intros i s; [done|]. cbn [class_get_member].
  replace (i + k + 1) with (i + 1 + k) by lia.
  apply bind_shift. intros a s'. case_decide; [apply IH|].
  apply bind_shift. intros b s''. case_decide; [apply IH|done].
Qed.

Lemma attribute_array_find_shift c name attrs i k s :
  attribute_array_find c name attrs (i + k) s = shift_done k (attribute_array_find c name attrs i s).
Proof.
  revert i s. induction attrs as [|a attrs IH]; intros i s; [done|]. cbn [attribute_array_find].
  replace (i + k + 1) with (i + 1 + k) by lia.
  apply bind_shift. intros b s'. case_decide; [apply IH|done].
Qed.

Lemma class_get_member_finds c name desc ms :
  class_ok c → c_string name → c_string desc →
  Forall (λ m, utf8_at c m.1 ∧ utf8_at c m.2) ms →
  finds_first (member_named c name desc) ms (class_get_member c name desc ms 0 tt).
Proof.
  intros Hc Hn Hd Hms. induction Hms as [|[ni di] ms [Hni Hdi] Hms IH]; [constructor|].
  destruct (get_utf8_string c ni Hc Hni) as (un & En & Cn).
  destruct (get_utf8_string c di Hc Hdi) as (ud & Ed & Cd).
  cbn [class_get_member]. unfold bind at 1. rewrite En. case_decide as H1; rewrite Cn in H1 by done.
  { eapply finds_first_skip; [by intros [? _]|exact IH|apply (class_get_member_shift _ _ _ _ 0)]. }
  unfold bind. rewrite Ed. case_decide as H2; rewrite Cd in H2 by done.
  { eapply finds_first_skip; [by intros [_ ?]|exact IH|apply (class_get_member_shift _ _ _ _ 0)]. }
  by apply finds_first_here.
Qed.

Lemma attribute_array_find_finds c name attrs :
  class_ok c → c_string name → Forall (λ a, utf8_at c (attribute_name_index a)) attrs →
  finds_first (λ a, string_at c (attribute_name_index a) name) attrs
    (attribute_array_find c name attrs 0 tt).
Proof.
  intros Hc Hn Ha. induction Ha as [|a attrs Hai Ha IH]; [constructor|].
  destruct (get_utf8_string c _ Hc Hai) as (u & Eu & Cu).
  cbn [attribute_array_find]. unfold bind. rewrite Eu. case_decide as H1; rewrite Cu in H1 by done.
  { eapply finds_first_skip; [done|exact IH|apply (attribute_array_find_shift _ _ _ 0)]. }
  by apply finds_first_here.
Qed.

Lemma finds_first_fmap {A B} (g : A → B) (P : B → Prop) l r :
  finds_first P (g <$> l) r ↔ finds_first (λ a, P (g a)) l r.
Proof.
  destruct r as [i s|e s|]; cbn; [|by rewrite Forall_fmap|done].
  unfold first_such. split; intros (Hi & (a & Ha & Pa) & Hj); split_and!; try done.
  - rewrite list_lookup_fmap in Ha. destruct (l !! _) as [a'|]; [|done]. injection Ha as <-. by exists a'.
  - intros j b Hlt Hb. apply (Hj j); [done|]. by rewrite list_lookup_fmap, Hb.
  - exists (g a). by rewrite list_lookup_fmap, Ha.
  - intros j b Hlt Hb. rewrite list_lookup_fmap in Hb.
    destruct (l !! j) as [b'|] eqn:E; [|done]. injection Hb as <-. by apply (Hj j).
Qed.

(** The slot after a wide constant is the only kind that was never written. *)
Lemma slots_none es (k : nat) :
  slots es !! k = Some None →
  ∃ k' e, k = S k' ∧ slots es !! k' = Some (Some e) ∧ cp_wide e = true.
Proof.
  revert k. induction es as [|e es IH]; intros k; [done|]. rewrite slots_cons.
  destruct (cp_wide e) eqn:W; cbn [app].
  - destruct k as [|[|k]]; cbn; [done|by exists O, e|]. intros (k' & e' & -> & He & We)%IH.
    by exists (S (S k')), e'.
  - destruct k as [|k]; cbn; [done|]. intros (k' & e' & -> & He & We)%IH. by exists (S k'), e'.
Qed.

Lemma slots_wide es (k : nat) e :
  slots es !! k = Some (Some e) → cp_wide e = true → slots es !! S k = Some None.
Proof.
  intros H W. revert k H. induction es as [|e' es IH]; intros k; [done|]. rewrite slots_cons.
  destruct (cp_wide e') eqn:W'; cbn [app].
  - destruct k as [|[|k]]; cbn; [done|done|]. apply IH.
  - destruct k as [|k]; cbn; [intros [= ->]; congruence|]. apply IH.
Qed.

Lemma table_slot_none c i :
  class_ok c → 1 <= i < constant_pool_count c →
  constant_pool c !! Z.to_nat i = Some None ↔ ∃ e, slot c (i - 1) e ∧ cp_wide e = true.
Proof.
  intros (_ & _ & _ & Hc & (es & Hp & [Hb Hn] & Hes) & _) Hi. unfold slot. rewrite Hp.
  rewrite lookup_table by lia. destruct (Z.to_nat i) as [|k] eqn:Ek; [lia|].
  rewrite lookup_cons_S. replace (Z.to_nat (i - 1)) with k by lia.
  assert (k < length (slots es))%nat as Hk by (unfold next_slot in Hn; lia).
  destruct (lookup_lt_is_Some_2 _ _ Hk) as [o Ho]. split.
  - rewrite Ho. cbn. intros [= ->]. destruct (slots_none es k Ho) as (k' & e & -> & He & We).
    exists e. split_and!; [lia..| |done]. by rewrite lookup_table, lookup_cons_S, He by lia.
  - intros (e & [Hi' He] & We). destruct k as [|k']; [lia|].
    rewrite lookup_table, lookup_cons_S in He by lia.
    destruct (slots es !! k') as [o'|] eqn:Eo'; [|done]. cbn in He. injection He as ->.
    rewrite (slots_wide es k' e) by done. done.
Qed.

(** ** A concrete class file

    Slot 1 and 2 hold the strings f and I, slots 3 and 4 a long, slot 5 a class;
    there is one field f of type I. *)

Definition sample_bytes : list Z :=
  [0xCA; 0xFE; 0xBA; 0xBE; 0; 0; 0; 49; 0; 6;
   1; 0; 1; 102;  1; 0; 1; 73;  5; 0; 0; 0; 1; 0; 0; 0; 2;  7; 0; 1;
   0; 1; 0; 5; 0; 0; 0; 0;
   0; 1; 0; 0; 0; 1; 0; 2; 0; 0;
   0; 0; 0; 0].

(** The same without the long: slots 1 to 3. *)
Definition narrow_bytes : list Z :=
  [0xCA; 0xFE; 0xBA; 0xBE; 0; 0; 0; 49; 0; 4;
   1; 0; 1; 102;  1; 0; 1; 73;  7; 0; 1;
   0; 1; 0; 3; 0; 0; 0; 0;
   0; 1; 0; 0; 0; 1; 0; 2; 0; 0;
   0; 0; 0; 0].

Definition stream_of (bs : list Z) : cstate :=
  CState (CStream bs 0 (Z.of_nat (length bs)) CAFEBABE_ERROR_ERRNO 0) (Mem 0 ∅).

Definition always : Allocator := λ _ _, true.

(** The class read from [bs] and the state after it, or a default. *)
Definition class_of (bs : list Z) : option (cafebabe_class * cstate) :=
  match @cafebabe_class_init always (stream_of bs) with Done c s => Some (c, s) | _ => None end.

Definition empty_class : cafebabe_class :=
  Class_ 0 0 0 0 O [] 0 0 0 0 O [] 0 O [] 0 O [] (AttributeArray 0 O []).
Definition sample_class : cafebabe_class := default empty_class (fst <$> class_of sample_bytes).
Definition narrow_class : cafebabe_class := default empty_class (fst <$> class_of narrow_bytes).

Lemma stream_of_ok bs :
  Forall is_u8 bs → Z.of_nat (length bs) <= 2 ^ 32 - 4 → stream_ok (stream_of bs).
Proof. intros. constructor; cbn; lia || done. Qed.

Lemma sample_stream_ok : stream_ok (stream_of sample_bytes).
Proof. apply stream_of_ok; [repeat constructor; lia|done]. Qed.
Lemma narrow_stream_ok : stream_ok (stream_of narrow_bytes).
Proof. apply stream_of_ok; [repeat constructor; lia|done]. Qed.

Lemma class_of_ok bs c s :
  stream_ok (stream_of bs) → dec16 (drop 8 bs) ≠ Some (2 ^ 16 - 1) →
  class_of bs = Some (c, s) → class_ok c ∧ live s = owns_class c ⊎ ∅.
Proof.
  intros Hs Hn E. pose proof (@class_init_wp always (stream_of bs) Hs Hn) as H.
  unfold class_of in E. unfold wp in H. destruct (cafebabe_class_init _); [|done..].
  injection E as -> ->. by destruct H as (_ & ? & ?).
Qed.

Lemma sample_class_ok : class_ok sample_class.
Proof.
  destruct (class_of sample_bytes) as [[c s]|] eqn:E; [|by vm_compute in E].
  pose proof (class_of_ok _ _ _ sample_stream_ok ltac:(by vm_compute) E) as [? _].
  unfold sample_class. by rewrite E.
Qed.
Lemma narrow_class_ok : class_ok narrow_class.
Proof.
  destruct (class_of narrow_bytes) as [[c s]|] eqn:E; [|by vm_compute in E].
  pose proof (class_of_ok _ _ _ narrow_stream_ok ltac:(by vm_compute) E) as [? _].
  unfold narrow_class. by rewrite E.
Qed.

(** A state in which exactly the blocks [l] are allocated. *)
Definition holding (l : gmultiset block) : cstate := CState (strm (stream_of [])) (Mem 100 l).

(** ** Theorems *)

(** C21: for every allocator and every buffer of at most 2^32 - 4 bytes whose
    constant count is not 65535, [cafebabe_class_init] never has undefined
    behaviour.  When it succeeds, the buffer was exactly the encoding of the
    class it returns (all of it was read), the class is well formed, and the
    blocks allocated are exactly those the class owns; when it fails, every
    block it allocated has been released. *)
Theorem cafebabe_class_init_correct `{Allocator} s :
  stream_ok s → dec16 (drop 8 (rest s)) ≠ Some (2 ^ 16 - 1) →
  match cafebabe_class_init s with
  | Done c s' =>
    rest s = encode_class c ∧ rest s' = [] ∧ class_ok c ∧ live s' = owns_class c ⊎ live s
  | Fail _ s' => stream_ok s' ∧ live s' = live s
  | Undef => False
  end.
Proof.
  intros Hs Hn. pose proof (class_init_wp s Hs Hn) as H1.
  pose proof (class_init_at_end s) as H2. unfold wp in H1.
  destruct (cafebabe_class_init s) as [c s'|e s'|]; [|by destruct H1 as [[] ?]|done].
  destruct H1 as ([Hok _ Hr] & Hl & Hc). specialize (H2 c s' eq_refl).
  apply eof_rest in H2; [|done]. rewrite H2, (right_id_L [] (++)) in Hr. done.
Qed.
Lemma cafebabe_class_init_correct_witness :
  match @cafebabe_class_init always (stream_of sample_bytes) with
  | Done c s' => sample_bytes = encode_class c ∧ rest s' = []
  | _ => False
  end.
Proof.
  pose proof (@cafebabe_class_init_correct always (stream_of sample_bytes)
    sample_stream_ok ltac:(by vm_compute)) as H.
  assert (∃ c s, @cafebabe_class_init always (stream_of sample_bytes) = Done c s) as (c & s & E)
    by (eexists _, _; vm_compute; reflexivity).
  rewrite E in *. destruct H as (H1 & H2 & _). exact (conj H1 H2).
Defined.

(** C22: when memory is available, [cafebabe_class_init] reads back the encoding
    of every well formed class with fewer than 65535 constant slots: it succeeds,
    at the end of the file, with the same class up to the blocks it is stored in. *)
Theorem cafebabe_class_init_reads_back `{AllocatorOk} s c :
  stream_ok s → class_ok c → constant_pool_count c < 2 ^ 16 - 1 → rest s = encode_class c →
  ∃ c' s', cafebabe_class_init s = Done c' s' ∧ rest s' = [] ∧ class_eq c c'.
Proof.
  intros Hs Hc Hn Hr. pose proof (class_init_back s c Hs Hc Hn Hr) as Hb. unfold wp in Hb.
  destruct (cafebabe_class_init s) as [c' s'|e s'|]; [|done..].
  destruct Hb as (_ & ? & ?). by exists c', s'.
Qed.
Lemma cafebabe_class_init_reads_back_witness :
  ∃ c' s', @cafebabe_class_init always (stream_of sample_bytes) = Done c' s' ∧
    rest s' = [] ∧ class_eq sample_class c'.
Proof.
  apply (@cafebabe_class_init_reads_back always (λ _ _, eq_refl)).
  - apply sample_stream_ok.
  - apply sample_class_ok.
  - vm_compute. reflexivity.
  - vm_compute. reflexivity.
Defined.

(** [cafebabe_class_deinit] of a class whose constant pool has no second half
    of a wide constant releases exactly the blocks the class owns. *)
Theorem cafebabe_class_deinit_frees c s l :
  class_ok c → all_slots_used c → live s = owns_class c ⊎ l →
  ∃ s', cafebabe_class_deinit c s = Done tt s' ∧ strm s' = strm s ∧ live s' = l.
Proof.
  intros Hc Hu Hl. pose proof (class_deinit_wp c s l Hc Hu Hl) as H. unfold wp in H.
  destruct (cafebabe_class_deinit c s) as [[] s'| |]; [|done..]. by exists s'.
Qed.
Lemma cafebabe_class_deinit_frees_witness :
  ∃ s', cafebabe_class_deinit narrow_class (holding (owns_class narrow_class ⊎ ∅)) = Done tt s' ∧
    live s' = ∅.
Proof.
  destruct (cafebabe_class_deinit_frees narrow_class (holding (owns_class narrow_class ⊎ ∅)) ∅)
    as (s' & E & _ & Hl).
  - apply narrow_class_ok.
  - intros k Hk. do 4 (destruct k as [|k]; [vm_compute; lia || congruence|]). vm_compute. congruence.
  - reflexivity.
  - exists s'. exact (conj E Hl).
Defined.

(** [cafebabe_class_deinit] of any other well formed class, one with the
    second half of a long or double constant inside its table, reads the tag of a
    slot that was never initialised. *)
Theorem cafebabe_class_deinit_wide_undefined c s l :
  class_ok c → ¬ all_slots_used c → live s = owns_class c ⊎ l → cafebabe_class_deinit c s = Undef.
Proof. apply class_deinit_undef. Qed.
Lemma cafebabe_class_deinit_wide_undefined_witness :
  cafebabe_class_deinit sample_class (holding (owns_class sample_class ⊎ ∅)) = Undef.
Proof.
  apply (cafebabe_class_deinit_wide_undefined _ _ ∅).
  - apply sample_class_ok.
  - intros H. apply (H 4%nat); [lia|]. vm_compute. reflexivity.
  - reflexivity.
Defined.

(** [cafebabe_class_get_method] and [cafebabe_class_get_field] return the
    index of the first member with the given name and descriptor, and an error
    exactly when there is none, in a class whose members are named by strings. *)
Theorem cafebabe_class_get_member_first c name descriptor :
  class_ok c → c_string name → c_string descriptor →
  Forall (λ m, utf8_at c (method_name_index m) ∧ utf8_at c (method_descriptor_index m)) (methods c) →
  Forall (λ f, utf8_at c (field_name_index f) ∧ utf8_at c (field_descriptor_index f)) (fields c) →
  finds_first (λ m, string_at c (method_name_index m) name ∧
                    string_at c (method_descriptor_index m) descriptor) (methods c)
    (cafebabe_class_get_method c name descriptor tt) ∧
  finds_first (λ f, string_at c (field_name_index f) name ∧
                    string_at c (field_descriptor_index f) descriptor) (fields c)
    (cafebabe_class_get_field c name descriptor tt).
Proof.
  intros Hc Hn Hd Hm Hf. split.
  - apply (finds_first_fmap (λ m, (method_name_index m, method_descriptor_index m))
             (member_named c name descriptor)).
    apply class_get_member_finds; try done. by rewrite Forall_fmap.
  - apply (finds_first_fmap (λ f, (field_name_index f, field_descriptor_index f))
             (member_named c name descriptor)).
    apply class_get_member_finds; try done. by rewrite Forall_fmap.
Qed.
Lemma cafebabe_class_get_member_first_witness :
  cafebabe_class_get_field sample_class [102] [73] tt = Done 0 tt ∧
  string_at sample_class 1 [102].
Proof.
  destruct (cafebabe_class_get_member_first sample_class [102] [73]) as [_ Hf].
  - apply sample_class_ok.
  - split; [repeat constructor; lia|reflexivity].
  - split; [repeat constructor; lia|reflexivity].
  - vm_compute. constructor.
  - vm_compute. repeat constructor; eexists _; repeat constructor; done.
  - assert (cafebabe_class_get_field sample_class [102] [73] tt = Done 0 tt) as E
      by (vm_compute; reflexivity).
    split; [exact E|]. rewrite E in Hf. destruct Hf as (_ & (f & Hf & Hs & _) & _).
    vm_compute in Hf. injection Hf as <-. exact Hs.
Defined.

(** [cafebabe_attribute_array_get] returns the position of the first attribute
    with the given name at or after the position asked for, and an error exactly
    when there is none. *)
Theorem cafebabe_attribute_array_get_first c array name r :
  class_ok c → c_string name → is_u16 r →
  Forall (λ a, utf8_at c (attribute_name_index a)) (attr_array array) →
  match cafebabe_attribute_array_get array name c r tt with
  | Done i _ =>
    r <= i ∧
    (∃ a, attr_array array !! Z.to_nat i = Some a ∧ string_at c (attribute_name_index a) name) ∧
    ∀ (j : nat) a, r <= Z.of_nat j < i → attr_array array !! j = Some a →
      ¬ string_at c (attribute_name_index a) name
  | Fail _ _ =>
    ∀ (j : nat) a, r <= Z.of_nat j → attr_array array !! j = Some a →
      ¬ string_at c (attribute_name_index a) name
  | Undef => False
  end.
Proof.
  intros Hc Hn Hr Ha. unfold cafebabe_attribute_array_get. rewrite u16_id by clia.
  pose proof (attribute_array_find_finds c name (drop (Z.to_nat r) (attr_array array)) Hc Hn
    (Forall_drop _ _ _ Ha)) as Hf.
  pose proof (attribute_array_find_shift c name (drop (Z.to_nat r) (attr_array array)) 0 r tt) as E.
  rewrite Z.add_0_l in E. rewrite E.
  destruct (attribute_array_find _ _ _ 0 _) as [i s|e s|]; cbn in *; [|..|done].
  - destruct Hf as (Hi & (a & Hla & Hs) & Hj). rewrite lookup_drop in Hla. split_and!; [lia| |].
    + exists a. split; [|done]. by replace (Z.to_nat (i + r)) with (Z.to_nat r + Z.to_nat i)%nat by clia.
    + intros j b Hlt Hb. apply (Hj (j - Z.to_nat r)%nat); [clia|]. rewrite lookup_drop.
      by replace (Z.to_nat r + (j - Z.to_nat r))%nat with j by clia.
  - intros j b Hlt Hb. rewrite Forall_lookup in Hf. apply (Hf (j - Z.to_nat r)%nat).
    rewrite lookup_drop. by replace (Z.to_nat r + (j - Z.to_nat r))%nat with j by clia.
Qed.
Lemma cafebabe_attribute_array_get_first_witness :
  let array := AttributeArray 2 O [AttributeInfo 2 0 (Bytes O []); AttributeInfo 1 0 (Bytes O [])] in
  cafebabe_attribute_array_get array [102] sample_class 0 tt = Done 1 tt ∧
  ¬ string_at sample_class 2 [102].
Proof.
  intros array.
  pose proof (cafebabe_attribute_array_get_first sample_class array [102] 0) as H.
  assert (cafebabe_attribute_array_get array [102] sample_class 0 tt = Done 1 tt) as E
    by (vm_compute; reflexivity).
  rewrite E in H. split; [exact E|]. refine (proj2 (proj2 (H _ _ _ _)) O _ _ eq_refl).
  - apply sample_class_ok.
  - split; [repeat constructor; lia|reflexivity].
  - split; lia.
  - repeat constructor; vm_compute; eexists _; repeat constructor; done.
  - lia.
Defined.

(** what the accessors [cafebabe_class_constant_get_*] do with a 16-bit index
    into a well formed class: they return a value only from a slot that holds a
    constant of the asked kind, and an error only when the index is out of range
    or the slot holds a constant of another kind; the one undefined case is the
    slot after a long or double constant, whose tag was never written. *)
Theorem cafebabe_class_constant_get_cases {A} (sel : cafebabe_constant_pool → option A) c i :
  class_ok c →
  match class_constant_get sel c i tt with
  | Done a _ => ∃ cp, slot c i cp ∧ sel cp = Some a
  | Fail _ _ => i < 1 ∨ constant_pool_count c <= i ∨ ∃ cp, slot c i cp ∧ sel cp = None
  | Undef => ∃ cp, slot c (i - 1) cp ∧ cp_wide cp = true
  end.
Proof.
  intros Hc. destruct (class_ok_pool c Hc) as (_ & Hlen & _).
  destruct (decide (1 <= i < constant_pool_count c)) as [Hi|Hi].
  - destruct (lookup_lt_is_Some_2 (constant_pool c) (Z.to_nat i)) as [[cp|] Hcp]; [lia|..].
    + rewrite (class_constant_get_slot _ _ _ cp) by done.
      destruct (sel cp) as [a|] eqn:E; [by exists cp|]. right. right. by exists cp.
    + unfold class_constant_get, cafebabe_class_constant_index_invalid.
      rewrite !bool_decide_false by lia. unfold bind, constant_pool_entry. rewrite Hcp. cbn.
      by apply table_slot_none.
  - unfold class_constant_get, cafebabe_class_constant_index_invalid.
    destruct (decide (i < 1)); [rewrite bool_decide_true by done; cbn; lia|].
    rewrite bool_decide_false, bool_decide_true by lia. cbn. lia.
Qed.
Lemma cafebabe_class_constant_get_cases_witness :
  cafebabe_class_constant_get_utf8 sample_class 4 tt = Undef ∧
  ∃ cp, slot sample_class 3 cp ∧ cp_wide cp = true.
Proof.
  assert (cafebabe_class_constant_get_utf8 sample_class 4 tt = Undef) as E
    by (vm_compute; reflexivity).
  split; [exact E|].
  pose proof (cafebabe_class_constant_get_cases
    (λ cp, match cp with CPUtf8 u => Some u | _ => None end) sample_class 4 sample_class_ok) as H.
  unfold cafebabe_class_constant_get_utf8 in E. rewrite E in H. exact H.
Defined.

(** with a constant count of 65535, a wide constant in the last slot makes the
    16-bit loop counter of [cafebabe_class_init] wrap to 0: the loop goes on and
    the next constant of the file is stored in slot 0. *)
Theorem constant_pool_loop_wraps `{AllocatorOk} fuel tbl s h l r :
  stream_ok s → is_u32 h → is_u32 l → rest s = encode_cp (CPLong h l) ++ r →
  length tbl = Z.to_nat (2 ^ 16 - 1) →
  ∃ s', rest s' = r ∧
    constant_pool_loop (S fuel) (2 ^ 16 - 1) (2 ^ 16 - 2) tbl s =
    constant_pool_loop fuel (2 ^ 16 - 1) 0
      (<[Z.to_nat (2 ^ 16 - 2) := Some (CPLong h l)]> tbl) s'.
Proof.
  intros Hs Hh Hl Hr Ht.
  pose proof (constant_pool_init_back s (CPLong h l) r Hs (conj Hh Hl) Hr) as Hb.
  cbn [constant_pool_loop]. rewrite decide_True by lia. unfold wp in Hb.
  destruct (cafebabe_constant_pool_init s) as [cp s'|e s'|]; [|done..].
  destruct Hb as (_ & Hr' & Heq). exists s'. split; [done|]. rewrite decide_True by lia.
  by destruct cp; try done; injection Heq as <- <-.
Qed.
Lemma constant_pool_loop_wraps_witness :
  let s := stream_of [5; 0; 0; 0; 1; 0; 0; 0; 2; 7; 0; 1] in
  let tbl := replicate (Z.to_nat (2 ^ 16 - 1)) None in
  ∃ s', rest s' = [7; 0; 1] ∧
    @constant_pool_loop always 2 (2 ^ 16 - 1) (2 ^ 16 - 2) tbl s =
    @constant_pool_loop always 1 (2 ^ 16 - 1) 0
      (<[Z.to_nat (2 ^ 16 - 2) := Some (CPLong 1 2)]> tbl) s'.
Proof.
  apply (@constant_pool_loop_wraps always (λ _ _, eq_refl)).
  - apply stream_of_ok; [repeat constructor; lia|done].
  - clia.
  - clia.
  - reflexivity.
  - apply length_replicate.
Defined.
