(* ===== verification/Attributes.v ===== *)
(** * cafebabe/*_attribute.c: the contents of the attributes

    Each attribute is read from the bytes of an attribute_info through a stream
    of its own.  This file holds the Code, ConstantValue, EnclosingMethod,
    Exceptions, InnerClasses, LineNumberTable and SourceFile attributes; the
    recursive ones are in StackMapTable.v and Annotations.v. *)

From Stdlib Require Import String.
From S2P Require Import Prelude CMonad Stream ConstantPool AttributeInfo ClassFile ClassFileSpec ClassFileProps.
#[local] Open Scope Z_scope.

(** ** Data *)

Record cafebabe_code_attribute_exception := CodeException {
  start_pc : Z; end_pc : Z; handler_pc : Z; catch_type : Z;
}.

(** [code] is the offset of the code in the buffer of the attribute. *)
Record cafebabe_code_attribute := CodeAttribute {
  max_stack : Z;
  max_locals : Z;
  code_length : Z;
  code : Z;
  exception_table_length : Z;
  exception_table_ptr : block;
  exception_table : list cafebabe_code_attribute_exception;
  code_attributes : cafebabe_attribute_array;
}.

Record cafebabe_enclosing_method_attribute := EnclosingMethodAttribute {
  class_index : Z; method_index : Z;
}.

(** The pointer is null when the attribute is absent. *)
Record cafebabe_exceptions_attribute := ExceptionsAttribute {
  number_of_exceptions : Z; exceptions_ptr : option block; exceptions : list Z;
}.

Record cafebabe_inner_class := InnerClass {
  inner_class_info_index : Z; outer_class_info_index : Z;
  inner_name_index : Z; inner_class_access_flags : Z;
}.
Record cafebabe_inner_classes_attribute := InnerClassesAttribute {
  number_of_classes : Z; inner_classes_ptr : option block; inner_classes : list cafebabe_inner_class;
}.

Record cafebabe_line_number_table_entry := LineNumberEntry { ln_start_pc : Z; line_number : Z }.
Record cafebabe_line_number_table_attribute := LineNumberTableAttribute {
  line_number_table_length : Z; line_number_table_ptr : option block;
  line_number_table : list cafebabe_line_number_table_entry;
}.

(** free(3) accepts a null pointer. *)
Definition free_ptr {E} (p : option block) : M cstate E unit :=
  match p with Some b => free_block b | None => ret tt end.

(** ** Reading from the stream of an attribute *)

(** The end-of-file check the sources repeat. *)
Definition expect_eof : parser unit :=
  let* eof := cafebabe_stream_eof in
  if negb eof then do set_errno CAFEBABE_ERROR_EXPECTED_EOF;; fail tt else ret tt.

Definition code_exception_read : parser cafebabe_code_attribute_exception :=
  let* start_pc := cafebabe_stream_read_uint16 in
  let* end_pc := cafebabe_stream_read_uint16 in
  let* handler_pc := cafebabe_stream_read_uint16 in
  let* catch_type := cafebabe_stream_read_uint16 in
  ret (CodeException start_pc end_pc handler_pc catch_type).

Definition inner_class_read : parser cafebabe_inner_class :=
  let* inner := cafebabe_stream_read_uint16 in
  let* outer := cafebabe_stream_read_uint16 in
  let* name := cafebabe_stream_read_uint16 in
  let* flags := cafebabe_stream_read_uint16 in
  ret (InnerClass inner outer name flags).

Definition line_number_read : parser cafebabe_line_number_table_entry :=
  let* start_pc := cafebabe_stream_read_uint16 in
  let* line_number := cafebabe_stream_read_uint16 in
  ret (LineNumberEntry start_pc line_number).

Definition sizeof_code_exception : Z := 8.
Definition sizeof_inner_class : Z := 8.
Definition sizeof_line_number_entry : Z := 4.

Section ops.
Context `{Allocator}.

(** Lines 55-83 of code_attribute.c, from the attribute count to the end. *)
Definition code_attributes_init : parser cafebabe_attribute_array :=
  let* count := cafebabe_stream_read_uint16 in
  let* p := cafebabe_stream_malloc (sizeof_attribute_info * count) in
  let* array := on_error (init_loop cafebabe_attribute_info_init (Z.to_nat count) [])
    (λ attrs, do for_each cafebabe_attribute_info_deinit attrs;; free_block p) tt in
  on_error
    (let* eof := cafebabe_stream_eof in
     if negb eof then do set_errno CAFEBABE_ERROR_EXPECTED_EOF;; fail tt
     else ret (AttributeArray count p array))
    (λ _, do for_each cafebabe_attribute_info_deinit array;; free_block p) tt.

(** The exception table and the attributes: what follows the code. *)
Definition code_tables_init
  : parser (Z * block * list cafebabe_code_attribute_exception * cafebabe_attribute_array) :=
  let* n := cafebabe_stream_read_uint16 in
  let* p := cafebabe_stream_malloc (sizeof_code_exception * n) in
  let* table := on_error (init_loop code_exception_read (Z.to_nat n) []) (λ _, free_block p) tt in
  on_error
    (let* attrs := code_attributes_init in ret (n, p, table, attrs))
    (λ _, free_block p) tt.

Definition cafebabe_code_attribute_init : parser cafebabe_code_attribute :=
  let* max_stack := cafebabe_stream_read_uint16 in
  let* max_locals := cafebabe_stream_read_uint16 in
  let* code_length := cafebabe_stream_read_uint32 in
  let* code := cafebabe_stream_pointer in
  do cafebabe_stream_skip code_length;;
  let* tables := code_tables_init in
  ret (let '(n, p, table, attrs) := tables in
       CodeAttribute max_stack max_locals code_length code n p table attrs).

Definition cafebabe_constant_value_attribute_init : parser Z :=
  let* constant_value_index := cafebabe_stream_read_uint16 in
  do expect_eof;; ret constant_value_index.

Definition cafebabe_source_file_attribute_init : parser Z :=
  let* sourcefile_index := cafebabe_stream_read_uint16 in
  do expect_eof;; ret sourcefile_index.

Definition cafebabe_enclosing_method_attribute_init
  : parser cafebabe_enclosing_method_attribute :=
  let* class_index := cafebabe_stream_read_uint16 in
  let* method_index := cafebabe_stream_read_uint16 in
  ret (EnclosingMethodAttribute class_index method_index).

Definition cafebabe_exceptions_attribute_init : parser cafebabe_exceptions_attribute :=
  let* n := cafebabe_stream_read_uint16 in
  let* p := cafebabe_stream_malloc (2 * n) in
  let* l := on_error (init_loop cafebabe_stream_read_uint16 (Z.to_nat n) []) (λ _, free_block p) tt in
  ret (ExceptionsAttribute n (Some p) l).

Definition cafebabe_inner_classes_attribute_init : parser cafebabe_inner_classes_attribute :=
  let* n := cafebabe_stream_read_uint16 in
  let* p := cafebabe_stream_malloc (sizeof_inner_class * n) in
  let* l := on_error (init_loop inner_class_read (Z.to_nat n) []) (λ _, free_block p) tt in
  ret (InnerClassesAttribute n (Some p) l).

Definition cafebabe_line_number_table_attribute_init
  : parser cafebabe_line_number_table_attribute :=
  let* n := cafebabe_stream_read_uint16 in
  let* p := cafebabe_stream_malloc (sizeof_line_number_entry * n) in
  let* l := on_error (init_loop line_number_read (Z.to_nat n) []) (λ _, free_block p) tt in
  do on_error expect_eof (λ _, free_block p) tt;;
  ret (LineNumberTableAttribute n (Some p) l).
End ops.

Definition cafebabe_code_attribute_deinit (a : cafebabe_code_attribute) : M cstate unit unit :=
  do free_block (exception_table_ptr a);; attribute_array_deinit (code_attributes a).
Definition cafebabe_exceptions_attribute_deinit (a : cafebabe_exceptions_attribute)
  : M cstate unit unit := free_ptr (exceptions_ptr a).
Definition cafebabe_inner_classes_attribute_deinit (a : cafebabe_inner_classes_attribute)
  : M cstate unit unit := free_ptr (inner_classes_ptr a).
Definition cafebabe_line_number_table_attribute_deinit (a : cafebabe_line_number_table_attribute)
  : M cstate unit unit := free_ptr (line_number_table_ptr a).

(** ** Finding and reading an attribute of a class *)

(** A C string literal. *)
Definition c_str (s : string) : list Z :=
  (λ a, Z.of_N (Ascii.N_of_ascii a)) <$> list_ascii_of_string s.

(** A local stream opened on the bytes of an attribute; only the heap outlives it. *)
Definition in_attribute {A} (a : cafebabe_attribute_info) (m : parser A) : M mem unit A := λ h,
  let st := CStream [] 0 0 CAFEBABE_ERROR_ERRNO 0 in
  match m (CState (cafebabe_stream_open_buffer (bytes_data (info a)) (attribute_length a) st) h) with
  | Done x s => Done x (cmem s)
  | Fail _ s => Fail tt (cmem s)
  | Undef => Undef
  end.

(** [&array[i]] and a read of the element. *)
Definition at_index {S A} (l : list A) (i : Z) : M S unit A :=
  match l !! Z.to_nat i with Some a => ret a | None => undef end.

(** Look the attribute up by name from index 0, then go on. *)
Definition find_attribute {A} (attrs : cafebabe_attribute_array) (name : list Z)
    (c : cafebabe_class) (absent : M mem unit A) (present : Z → M mem unit A) : M mem unit A := λ h,
  match cafebabe_attribute_array_get attrs name c 0 tt with
  | Done i _ => present i h
  | Fail _ _ => absent h
  | Undef => Undef
  end.

Section readers.
Context `{Allocator}.

Definition cafebabe_read_exceptions_attribute (c : cafebabe_class)
    (attrs : cafebabe_attribute_array) : M mem unit cafebabe_exceptions_attribute :=
  find_attribute attrs (c_str "Exceptions") c (ret (ExceptionsAttribute 0 None [])) (λ i,
    let* a := at_index (attr_array attrs) i in
    in_attribute a cafebabe_exceptions_attribute_init).

Definition cafebabe_read_line_number_table_attribute (c : cafebabe_class)
    (attrs : cafebabe_attribute_array) : M mem unit cafebabe_line_number_table_attribute :=
  find_attribute attrs (c_str "LineNumberTable") c (ret (LineNumberTableAttribute 0 None [])) (λ i,
    let* a := at_index (attr_array attrs) i in
    in_attribute a cafebabe_line_number_table_attribute_init).

(** The index found in [attrs] is used in the array of the class. *)
Definition cafebabe_read_enclosing_method_attribute (c : cafebabe_class)
    (attrs : cafebabe_attribute_array) : M mem unit cafebabe_enclosing_method_attribute :=
  find_attribute attrs (c_str "EnclosingMethod") c (fail tt) (λ i,
    let* a := at_index (attr_array (attributes c)) i in
    in_attribute a cafebabe_enclosing_method_attribute_init).

(** When there is no such attribute, [*attrib] is left as it was. *)
Definition cafebabe_read_inner_classes_attribute (c : cafebabe_class)
    (attrs : cafebabe_attribute_array) (attrib : cafebabe_inner_classes_attribute)
  : M mem unit cafebabe_inner_classes_attribute :=
  find_attribute attrs (c_str "InnerClasses") c (ret attrib) (λ i,
    let* a := at_index (attr_array (attributes c)) i in
    in_attribute a cafebabe_inner_classes_attribute_init).

(** strndup(3): up to [n] bytes, or to the first NUL. *)
Fixpoint until_nul (bs : list Z) : list Z :=
  match bs with
  | [] => []
  | b :: bs' => if decide (b = 0) then [] else b :: until_nul bs'
  end.
Definition strndup (bs : list Z) (n : Z) : M mem unit bytes := λ h,
  let data := until_nul (take (Z.to_nat n) bs) in
  match mem_malloc (Z.of_nat (length data) + 1) h with
  | (Some p, h') => Done (Bytes p data) h'
  | (None, h') => Fail tt h'
  end.

Definition reader_in_mem {A} (m : reader A) : M mem unit A := λ h,
  match m tt with Done a _ => Done a h | Fail _ _ => Fail tt h | Undef => Undef end.

(** The error return is the null pointer. *)
Definition cafebabe_class_get_source_file_name (c : cafebabe_class) : M mem unit bytes :=
  find_attribute (attributes c) (c_str "SourceFile") c (fail tt) (λ i,
    let* a := at_index (attr_array (attributes c)) i in
    let* sourcefile_index := in_attribute a cafebabe_source_file_attribute_init in
    let* file_name := reader_in_mem (cafebabe_class_constant_get_utf8 c sourcefile_index) in
    strndup (bytes_data (utf8_bytes file_name)) (utf8_length file_name)).
End readers.

(** ** Format *)

Definition encode_code_exception (e : cafebabe_code_attribute_exception) : list Z :=
  be16 (start_pc e) ++ be16 (end_pc e) ++ be16 (handler_pc e) ++ be16 (catch_type e).
Definition code_exception_ok (e : cafebabe_code_attribute_exception) : Prop :=
  is_u16 (start_pc e) ∧ is_u16 (end_pc e) ∧ is_u16 (handler_pc e) ∧ is_u16 (catch_type e).

Definition encode_inner_class (e : cafebabe_inner_class) : list Z :=
  be16 (inner_class_info_index e) ++ be16 (outer_class_info_index e) ++
  be16 (inner_name_index e) ++ be16 (inner_class_access_flags e).
Definition inner_class_ok (e : cafebabe_inner_class) : Prop :=
  is_u16 (inner_class_info_index e) ∧ is_u16 (outer_class_info_index e) ∧
  is_u16 (inner_name_index e) ∧ is_u16 (inner_class_access_flags e).

Definition encode_line_number (e : cafebabe_line_number_table_entry) : list Z :=
  be16 (ln_start_pc e) ++ be16 (line_number e).
Definition line_number_ok (e : cafebabe_line_number_table_entry) : Prop :=
  is_u16 (ln_start_pc e) ∧ is_u16 (line_number e).

Definition owns_ptr (p : option block) : gmultiset block :=
  match p with Some b => {[+ b +]} | None => ∅ end.

Definition encode_exceptions (a : cafebabe_exceptions_attribute) : list Z :=
  be16 (number_of_exceptions a) ++ encs be16 (exceptions a).
Definition exceptions_ok (a : cafebabe_exceptions_attribute) : Prop :=
  is_u16 (number_of_exceptions a) ∧ number_of_exceptions a = Z.of_nat (length (exceptions a)) ∧
  Forall is_u16 (exceptions a).

Definition encode_inner_classes (a : cafebabe_inner_classes_attribute) : list Z :=
  be16 (number_of_classes a) ++ encs encode_inner_class (inner_classes a).
Definition inner_classes_ok (a : cafebabe_inner_classes_attribute) : Prop :=
  is_u16 (number_of_classes a) ∧ number_of_classes a = Z.of_nat (length (inner_classes a)) ∧
  Forall inner_class_ok (inner_classes a).

Definition encode_line_number_table (a : cafebabe_line_number_table_attribute) : list Z :=
  be16 (line_number_table_length a) ++ encs encode_line_number (line_number_table a).
Definition line_number_table_ok (a : cafebabe_line_number_table_attribute) : Prop :=
  is_u16 (line_number_table_length a) ∧
  line_number_table_length a = Z.of_nat (length (line_number_table a)) ∧
  Forall line_number_ok (line_number_table a).

Definition code_tables : Type :=
  Z * block * list cafebabe_code_attribute_exception * cafebabe_attribute_array.
Definition encode_code_tables (x : code_tables) : list Z :=
  let '(n, _, table, attrs) := x in be16 n ++ encs encode_code_exception table ++ encode_attrs attrs.
Definition owns_code_tables (x : code_tables) : gmultiset block :=
  let '(_, p, _, attrs) := x in owns_attrs attrs ⊎ {[+ p +]}.
Definition code_tables_ok (x : code_tables) : Prop :=
  let '(n, _, table, attrs) := x in
  is_u16 n ∧ n = Z.of_nat (length table) ∧ Forall code_exception_ok table ∧ attrs_ok attrs.

Definition tables_of_code (a : cafebabe_code_attribute) : code_tables :=
  (exception_table_length a, exception_table_ptr a, exception_table a, code_attributes a).
Definition owns_code (a : cafebabe_code_attribute) : gmultiset block :=
  owns_code_tables (tables_of_code a).
(** The format, given the bytes of the code. *)
Definition encode_code (bs : list Z) (a : cafebabe_code_attribute) : list Z :=
  be16 (max_stack a) ++ be16 (max_locals a) ++ be32 (code_length a) ++ bs ++
  encode_code_tables (tables_of_code a).

(** ** Correctness of the readers *)

Lemma code_exception_read_parses :
  parses code_exception_read owns_nothing encode_code_exception code_exception_ok.
Proof.
  intros s0 Hok. pose proof (run_start _ Hok). unfold code_exception_read.
  pread a. pread b. pread c. pread d. unfold encode_code_exception. pdone. done.
Qed.
Lemma inner_class_read_parses : parses inner_class_read owns_nothing encode_inner_class inner_class_ok.
Proof.
  intros s0 Hok. pose proof (run_start _ Hok). unfold inner_class_read.
  pread a. pread b. pread c. pread d. unfold encode_inner_class. pdone. done.
Qed.
Lemma line_number_read_parses : parses line_number_read owns_nothing encode_line_number line_number_ok.
Proof.
  intros s0 Hok. pose proof (run_start _ Hok). unfold line_number_read.
  pread a. pread b. unfold encode_line_number. pdone. done.
Qed.

Lemma inner_class_read_back : reads_back inner_class_read encode_inner_class inner_class_ok (=).
Proof.
  intros s [a b c d] r Hok (Ha & Hb & Hc & Hd) Hr. unfold encode_inner_class in Hr. cbn in *.
  rewrite <- !(assoc_L (++)) in Hr. unfold inner_class_read. pback x. pback y. pback z. pback w. done.
Qed.
Lemma line_number_read_back : reads_back line_number_read encode_line_number line_number_ok (=).
Proof.
  intros s [a b] r Hok (Ha & Hb) Hr. unfold encode_line_number in Hr. cbn in *.
  rewrite <- !(assoc_L (++)) in Hr. unfold line_number_read. pback x. pback y. done.
Qed.

(** The end-of-file check consumes nothing. *)
Lemma expect_eof_wp s Q (R : unit → cstate → Prop) :
  stream_ok s → (rest s = [] → Q tt s) →
  (∀ s', kept s s' → live s' = live s → R tt s') → wp expect_eof Q R s.
Proof.
  intros Hok HQ HR. unfold expect_eof. apply wp_bind, wp_get. cbv beta.
  case_bool_decide as E; cbn [negb].
  - apply wp_ret, HQ. by apply eof_rest.
  - eapply wp_seq; [by apply set_errno_kept| |done]. cbv beta. intros _ s' [Hk Hl].
    apply wp_fail. by apply HR.
Qed.

Lemma expect_eof_end s Q R : stream_ok s → rest s = [] → Q tt s → wp expect_eof Q R s.
Proof.
  intros Hok Hr HQ. unfold expect_eof. apply wp_bind, wp_get. cbv beta.
  by rewrite bool_decide_true by by apply eof_rest.
Qed.

Lemma run_kept s0 s bs L s' : run s0 s bs L → kept s s' → live s' = live s →
  kept s0 s' ∧ live s' = L ⊎ live s0.
Proof. intros [Ha Hl] Hk Hl'. split; [by eapply adv_kept_trans|congruence]. Qed.

Lemma read_to_eof_wp {A} (m : parser A) owns enc ok s0 :
  parses m owns enc ok → (∀ a, owns a = ∅) → stream_ok s0 →
  wp (let* a := m in do expect_eof;; ret a)
     (λ a s', rest s0 = enc a ∧ rest s' = [] ∧ live s' = live s0 ∧ ok a)
     (λ _ s', kept s0 s' ∧ live s' = live s0) s0.
Proof.
  intros Hp Ho Hok. eapply run_parse; [by apply run_start|exact Hp| |pfail].
  intros a s Hr Ha. rewrite Ho, (left_id_L ∅ (⊎)) in Hr. apply wp_bind.
  apply expect_eof_wp; [by eapply run_ok| |].
  - intros Hend. apply wp_ret. destruct Hr as [[_ _ Hrest] Hl].
    rewrite Hend, (right_id_L [] (++)) in Hrest. by rewrite Hl, (left_id_L ∅ (⊎)).
  - intros s' Hk Hl. destruct (run_kept _ _ _ _ _ Hr Hk Hl) as [? Hl2].
    by rewrite Hl2, (left_id_L ∅ (⊎)).
Qed.

Section spec.
Context `{Allocator}.

Lemma exceptions_attribute_init_parses :
  parses cafebabe_exceptions_attribute_init (λ a, owns_ptr (exceptions_ptr a))
    encode_exceptions exceptions_ok.
Proof.
  intros s0 Hok. pose proof (run_start _ Hok). unfold cafebabe_exceptions_attribute_init.
  pread n. pmalloc p. eapply run_array; [eassumption|apply read_uint16_parses| |pfail].
  intros l s' Hr Hf Hl. unfold encode_exceptions. pdone. unfold exceptions_ok. cbn.
  split_and!; [done|clia|done].
Qed.

Lemma inner_classes_attribute_init_parses :
  parses cafebabe_inner_classes_attribute_init (λ a, owns_ptr (inner_classes_ptr a))
    encode_inner_classes inner_classes_ok.
Proof.
  intros s0 Hok. pose proof (run_start _ Hok). unfold cafebabe_inner_classes_attribute_init.
  pread n. pmalloc p. eapply run_array; [eassumption|apply inner_class_read_parses| |pfail].
  intros l s' Hr Hf Hl. unfold encode_inner_classes. pdone. unfold inner_classes_ok. cbn.
  split_and!; [done|clia|done].
Qed.

Lemma line_number_table_attribute_init_parses :
  parses cafebabe_line_number_table_attribute_init (λ a, owns_ptr (line_number_table_ptr a))
    encode_line_number_table line_number_table_ok.
Proof.
  intros s0 Hok. pose proof (run_start _ Hok). unfold cafebabe_line_number_table_attribute_init.
  pread n. pmalloc p. eapply run_array; [eassumption|apply line_number_read_parses| |pfail].
  intros l s' Hr Hf Hl. apply wp_bind.
  eapply wp_cleanup; [apply free_block_frees| |pfail].
  apply expect_eof_wp; [by eapply run_ok| |].
  - intros _. unfold encode_line_number_table. pdone. unfold line_number_table_ok. cbn.
    split_and!; [done|clia|done].
  - intros s2 Hk Hl2. by eapply run_kept.
Qed.

Lemma code_tables_init_parses :
  parses code_tables_init owns_code_tables encode_code_tables code_tables_ok.
Proof.
  intros s0 Hok. pose proof (run_start _ Hok). unfold code_tables_init.
  pread n. pmalloc p. eapply run_array; [eassumption|apply code_exception_read_parses| |pfail].
  intros l s' Hr Hf Hl.
  eapply (run_scope _ _ _ _ _ free_block _ p s0 _ _ ∅);
    [exact Hr|done|apply class_init_attributes_parses|apply free_block_frees| |pfail].
  intros attrs s2 Hr2 Ha. unfold encode_code_tables, owns_code_tables. pdone.
  unfold code_tables_ok. split_and!; try done. clia.
Qed.
End spec.

Lemma stream_skip_wp n s : stream_ok s → 0 <= n →
  wp (cafebabe_stream_skip n)
     (λ _ s', kept s s' ∧ live s' = live s ∧
        (virtual_i (strm s) + n < 2 ^ 32 →
         (Z.to_nat n < length (rest s))%nat ∧ rest s' = drop (Z.to_nat n) (rest s)))
     (λ _ s', kept s s' ∧ live s' = live s ∧
        (virtual_i (strm s) + n < 2 ^ 32 → (length (rest s) <= Z.to_nat n)%nat)) s.
Proof.
  intros Hok Hn. pose proof (rest_length s Hok) as Hlen. unfold cafebabe_stream_skip.
  apply wp_bind, wp_get, wp_bind, wp_get. cbv beta. case_decide as E.
  - eapply wp_seq; [by apply set_errno_kept| |done]. cbv beta. intros _ s' [Hk Hl]. apply wp_fail.
    split_and!; try done. intros Hsum. rewrite u32_id in E by (destruct Hok; clia). lia.
  - destruct Hok. unfold wp, bind, advance, modify, ret, live. cbn. split_and!; [|done|].
    + constructor; [|done]. constructor; cbn; try done. pose proof (u32_range (virtual_i (strm s) + n)).
      clia.
    + intros Hsum. rewrite u32_id in E by clia. split; [lia|].
      unfold rest. cbn. rewrite u32_id by clia. rewrite drop_drop.
      by rewrite Z2Nat.inj_add by lia.
Qed.

Lemma code_tables_init_at_end `{Allocator} s x s' :
  code_tables_init s = Done x s' → virtual_i (strm s') = virtual_n (strm s').
Proof.
  unfold code_tables_init, code_attributes_init, cafebabe_stream_eof. intros E. inv_done.
  match goal with H : negb (bool_decide _) = false |- _ =>
    apply negb_false_iff, bool_decide_eq_true in H; exact H end.
Qed.

Lemma expect_eof_done s x s' :
  expect_eof s = Done x s' → s' = s ∧ virtual_i (strm s') = virtual_n (strm s').
Proof.
  unfold expect_eof, bind, cafebabe_stream_eof, get. case_bool_decide; cbn; [|done].
  intros [= <- <-]. done.
Qed.

Lemma line_number_table_at_end `{Allocator} s x s' :
  cafebabe_line_number_table_attribute_init s = Done x s' →
  virtual_i (strm s') = virtual_n (strm s').
Proof.
  unfold cafebabe_line_number_table_attribute_init. intros E. inv_done.
  match goal with H : expect_eof _ = Done _ _ |- _ => by apply expect_eof_done in H as [_ ?] end.
Qed.

Lemma wp_and {S E A} (m : M S E A) Q Q' R s :
  wp m Q R s → (∀ a s', m s = Done a s' → Q' a s') → wp m (λ a s', Q a s' ∧ Q' a s') R s.
Proof. unfold wp. destruct (m s); auto. Qed.

Section code.
Context `{Allocator}.

Lemma code_attribute_init_wp s0 : stream_ok s0 →
  wp cafebabe_code_attribute_init
     (λ a s', live s' = owns_code a ⊎ live s0 ∧ code_tables_ok (tables_of_code a) ∧
        code a = virtual_i (strm s0) + 8 ∧ is_u32 (code_length a) ∧
        (code a + code_length a < 2 ^ 32 →
         let bs := take (Z.to_nat (code_length a)) (drop 8 (rest s0)) in
         Z.of_nat (length bs) = code_length a ∧ rest s0 = encode_code bs a ∧ rest s' = []))
     (λ _ s', kept s0 s' ∧ live s' = live s0) s0.
Proof.
  intros Hok. pose proof (run_start _ Hok). unfold cafebabe_code_attribute_init.
  pread ms. pread ml. pread len. apply wp_bind, wp_get. cbv beta.
  destruct Hrun1 as [Ha Hl]. destruct Ha as [Hok1 Hb1 Hr1].
  rewrite (left_id_L ∅ (⊎)) in Hl.
  assert (kept s0 st1) as Hk1 by done.
  assert (virtual_i (strm st1) = virtual_i (strm s0) + 8) as Hi.
  { pose proof (rest_length s0 Hok) as L0. pose proof (rest_length st1 Hok1) as L1.
    rewrite Hr1, length_app in L0. unfold be16, be32 in L0. cbn in L0.
    destruct Hok as [E0 _ _ _], Hok1 as [E1 _ _ _]. rewrite Hb1 in E1. lia. }
  eapply wp_seq; [apply stream_skip_wp; [done|clia]|..]; cbv beta.
  2:{ intros _ s' (Hk & Hl' & _). split; [|congruence].
      destruct Hk. constructor; [done|congruence]. }
  intros _ s2 (Hk2 & Hl2 & Hskip).
  eapply wp_seq; [apply wp_and; [apply code_tables_init_parses; by destruct Hk2|
                   intros x s' E; exact (code_tables_init_at_end _ _ _ E)]|..]; cbv beta.
  2:{ intros _ s' (Hk & Hl'). split; [|congruence].
      destruct Hk, Hk2. constructor; [done|congruence]. }
  intros [[[n p] table] attrs] s3 ((Ha3 & Hl3 & Hok3) & Hend). apply wp_ret.
  destruct Ha3 as [Hoks3 _ Hr3]. apply eof_rest in Hend; [|done].
  rewrite Hend, (right_id_L [] (++)) in Hr3.
  split_and!; cbn [code code_length]; try done; [by rewrite Hl3, Hl2, Hl|].
  intros Hsum. destruct (Hskip Hsum) as [Hlt Hr2].
  assert (drop 8 (rest s0) = rest st1) as Hd by by rewrite Hr1.
  rewrite Hd. split_and!; [|..|done].
  - rewrite length_take. clia.
  - unfold encode_code. cbn [max_stack max_locals code_length]. rewrite Hr1 at 1.
    change (tables_of_code _) with (n, p, table, attrs). rewrite <- Hr3, Hr2, take_drop.
    cbn [app]. by rewrite <- !(assoc_L (++)).
Qed.
End code.

Lemma code_attribute_deinit_frees : frees cafebabe_code_attribute_deinit owns_code.
Proof.
  intros a s l Hl. unfold cafebabe_code_attribute_deinit.
  eapply (frees_then free_block _ _ _ _ (owns_attrs (code_attributes a) ⊎ l)); [apply free_block_frees| |].
  - rewrite Hl. unfold owns_code, tables_of_code, owns_code_tables. multiset_solver.
  - intros s' Hs Hl'. eapply wp_mono; [by apply attribute_array_deinit_frees| |done].
    cbv beta. intros _ s'' [? ?]. split; congruence.
Qed.

(** ** Reading an attribute by name *)

Definition attribute_is (c : cafebabe_class) (name : list Z) (a : cafebabe_attribute_info) : Prop :=
  string_at c (attribute_name_index a) name.

(** The first attribute with this name. *)
Definition first_attribute (c : cafebabe_class) (name : list Z) (attrs : cafebabe_attribute_array)
    (a : cafebabe_attribute_info) : Prop :=
  ∃ i : nat, attr_array attrs !! i = Some a ∧ attribute_is c name a ∧
    ∀ (j : nat) b, (j < i)%nat → attr_array attrs !! j = Some b → ¬ attribute_is c name b.

(** Attributes that a local stream can hold, with names that are strings. *)
Definition readable_attrs (c : cafebabe_class) (attrs : cafebabe_attribute_array) : Prop :=
  Forall (λ a, utf8_at c (attribute_name_index a) ∧ attr_ok a ∧ attribute_length a <= 2 ^ 32 - 4)
    (attr_array attrs).

Lemma find_attribute_wp {A} c name attrs (absent : M mem unit A) present Q R h :
  class_ok c → c_string name → readable_attrs c attrs →
  (Forall (λ a, ¬ attribute_is c name a) (attr_array attrs) → wp absent Q R h) →
  (∀ i a, attr_array attrs !! Z.to_nat i = Some a → attr_ok a → attribute_length a <= 2 ^ 32 - 4 →
     first_attribute c name attrs a → wp (present i) Q R h) →
  wp (find_attribute attrs name c absent present) Q R h.
Proof.
  intros Hc Hn Ha Habs Hpres.
  assert (Forall (λ a, utf8_at c (attribute_name_index a)) (attr_array attrs)) as Hu
    by (eapply Forall_impl; [|exact Ha]; by intros a []).
  pose proof (attribute_array_find_finds c name (attr_array attrs) Hc Hn Hu) as Hf.
  unfold wp, find_attribute, cafebabe_attribute_array_get. change (u16 0) with 0.
  change (drop (Z.to_nat 0) (attr_array attrs)) with (attr_array attrs).
  destruct (attribute_array_find c name (attr_array attrs) 0 tt) as [i s|e s|]; cbn in Hf;
    [|by apply Habs|done].
  destruct Hf as (Hi & (a & Hla & Hs) & Hj). unfold readable_attrs in Ha.
  rewrite Forall_lookup in Ha. destruct (Ha _ _ Hla) as (_ & Hok & Hmax).
  apply (Hpres i a Hla Hok Hmax). exists (Z.to_nat i). split_and!; [done..|].
  intros j b Hlt. apply Hj. lia.
Qed.

Lemma in_attribute_wp {A} (m : parser A) owns enc ok a h :
  parses m owns enc ok → attr_ok a → attribute_length a <= 2 ^ 32 - 4 →
  wp (in_attribute a m)
     (λ x h', (∃ s s', m s = Done x s' ∧ stream_ok s' ∧ bytes_data (info a) = enc x ++ rest s') ∧
              m_live h' = owns x ⊎ m_live h ∧ ok x)
     (λ _ h', m_live h' = m_live h) h.
Proof.
  intros Hp (Hn & Hl & Hlen & Hb) Hmax. unfold wp, in_attribute.
  set (s := CState _ h). assert (stream_ok s) as Hok by (constructor; cbn; clia || done).
  pose proof (Hp s Hok) as Hwp. unfold wp in Hwp.
  destruct (m s) as [x s'|e s'|] eqn:E; [|by destruct Hwp|done].
  destruct Hwp as ([Hok' _ Hr] & Hlive & Hx). split_and!; [|done|done]. by exists s, s'.
Qed.

Lemma at_index_bind {S A B} (l : list A) i a (f : A → M S unit B) Q R s :
  l !! Z.to_nat i = Some a → wp (f a) Q R s → wp (let* x := at_index l i in f x) Q R s.
Proof. intros Hl Hf. unfold at_index. rewrite Hl. by apply wp_bind. Qed.

Lemma c_str_c_string s :
  forallb (λ a, negb (Z.of_N (Ascii.N_of_ascii a) =? 0)) (list_ascii_of_string s) = true →
  Z.of_nat (length (list_ascii_of_string s)) < 2 ^ 32 → c_string (c_str s).
Proof.
  intros H Hl. split; [|unfold c_str; rewrite length_fmap; done].
  unfold c_str. apply Forall_fmap. rewrite forallb_forall in H. apply Forall_forall.
  intros a Ha. specialize (H a Ha). cbn. pose proof (Ascii.N_ascii_bounded a). split; [|lia]. clia.
Qed.

(** ** Theorems *)

(** A Code attribute of one instruction (return), and one whose code length makes
    the 32-bit sum of the skip wrap around to offset 0. *)
Definition code_bytes : list Z := [0; 0; 0; 1; 0; 0; 0; 1; 177; 0; 0; 0; 0].
Definition overrun_bytes : list Z := [0; 1; 0; 0; 255; 255; 255; 248; 7; 7; 0; 0].

(** C39: [cafebabe_code_attribute_init] never has undefined behaviour and releases
    everything on an error.  When it succeeds it owns exactly the blocks of the
    attribute, and unless the 32-bit sum of the code's offset and length
    overflowed, the code lies inside the buffer and the buffer is exactly the
    encoding of the attribute. *)
Theorem cafebabe_code_attribute_init_correct `{Allocator} s :
  stream_ok s →
  match cafebabe_code_attribute_init s with
  | Done a s' =>
    live s' = owns_code a ⊎ live s ∧
    (code a + code_length a < 2 ^ 32 →
     let bs := take (Z.to_nat (code_length a)) (drop (Z.to_nat (code a)) (virtual (strm s))) in
     Z.of_nat (length bs) = code_length a ∧ rest s = encode_code bs a ∧ rest s' = [])
  | Fail _ s' => live s' = live s
  | Undef => False
  end.
Proof.
  intros Hs. pose proof (code_attribute_init_wp s Hs) as H1. unfold wp in H1.
  destruct (cafebabe_code_attribute_init s) as [a s'|e s'|]; [|by destruct H1|done].
  destruct H1 as (Hl & _ & Hcode & _ & Henc). split; [done|]. rewrite Hcode in *.
  replace (drop (Z.to_nat (virtual_i (strm s) + 8)) (virtual (strm s))) with (drop 8 (rest s)).
  - exact Henc.
  - unfold rest. rewrite drop_drop. f_equal. destruct Hs. lia.
Qed.
Lemma cafebabe_code_attribute_init_correct_witness :
  match @cafebabe_code_attribute_init always (stream_of code_bytes) with
  | Done a s' => code_bytes = encode_code [177] a
  | _ => False
  end.
Proof.
  pose proof (@cafebabe_code_attribute_init_correct always (stream_of code_bytes)) as H.
  assert (∃ a s, @cafebabe_code_attribute_init always (stream_of code_bytes) = Done a s ∧
            code a = 8 ∧ code_length a = 1) as (a & s & E & E1 & E2)
    by (eexists _, _; split; [vm_compute; reflexivity|done]).
  rewrite E in *. destruct H as [_ H]; [apply stream_of_ok; [repeat constructor; lia|done]|].
  rewrite E1, E2 in H. destruct H as (_ & H & _); [lia|]. exact H.
Defined.

(** the hypothesis on the sum is needed: this 12-byte attribute is accepted
    with a code of 4294967288 bytes, because [cafebabe_stream_skip] compares the
    wrapped 32-bit sum with the size of the buffer. *)
Theorem cafebabe_code_attribute_overrun :
  ∃ a s', @cafebabe_code_attribute_init always (stream_of overrun_bytes) = Done a s' ∧
    code a = 8 ∧ code_length a = 2 ^ 32 - 8 ∧ length overrun_bytes = 12%nat.
Proof. eexists _, _. split; [vm_compute; reflexivity|done]. Qed.

(** [cafebabe_code_attribute_deinit] releases exactly the blocks that
    [cafebabe_code_attribute_init] allocated. *)
Theorem cafebabe_code_attribute_balanced `{Allocator} s a s' :
  stream_ok s → cafebabe_code_attribute_init s = Done a s' →
  ∃ s'', cafebabe_code_attribute_deinit a s' = Done tt s'' ∧ live s'' = live s.
Proof.
  intros Hs E. pose proof (code_attribute_init_wp s Hs) as H1. unfold wp in H1. rewrite E in H1.
  destruct H1 as (Hl & _). pose proof (code_attribute_deinit_frees a s' (live s) Hl) as H2.
  unfold wp in H2. destruct (cafebabe_code_attribute_deinit a s') as [[] s''| |]; [|done..].
  exists s''. by destruct H2.
Qed.
Lemma cafebabe_code_attribute_balanced_witness :
  ∃ a s' s'', @cafebabe_code_attribute_init always (stream_of code_bytes) = Done a s' ∧
    cafebabe_code_attribute_deinit a s' = Done tt s'' ∧ live s'' = ∅.
Proof.
  assert (∃ a s', @cafebabe_code_attribute_init always (stream_of code_bytes) = Done a s')
    as (a & s' & E) by (eexists _, _; vm_compute; reflexivity).
  destruct (@cafebabe_code_attribute_balanced always (stream_of code_bytes) a s') as (s'' & H1 & H2).
  - apply stream_of_ok; [repeat constructor; lia|done].
  - exact E.
  - exists a, s', s''. exact (conj E (conj H1 H2)).
Defined.

(** [cafebabe_read_line_number_table_attribute] returns the empty table when no
    attribute has that name; otherwise it reads the first one that has it, and
    either returns the table that the bytes of that attribute encode, owning the
    table's block, or fails with everything released.  It never has undefined
    behaviour on attributes whose names are strings. *)
Theorem cafebabe_read_line_number_table_correct `{Allocator} c attrs h :
  class_ok c → readable_attrs c attrs →
  match cafebabe_read_line_number_table_attribute c attrs h with
  | Done t h' =>
    (line_number_table_length t = 0 ∧ line_number_table t = [] ∧ h' = h ∧
     Forall (λ a, ¬ attribute_is c (c_str "LineNumberTable") a) (attr_array attrs)) ∨
    (∃ a, first_attribute c (c_str "LineNumberTable") attrs a ∧
       bytes_data (info a) = encode_line_number_table t ∧ line_number_table_ok t ∧
       m_live h' = owns_ptr (line_number_table_ptr t) ⊎ m_live h)
  | Fail _ h' =>
    (∃ a, first_attribute c (c_str "LineNumberTable") attrs a) ∧ m_live h' = m_live h
  | Undef => False
  end.
Proof.
  intros Hc Ha. apply (wp_mono _
    (λ t h', (line_number_table_length t = 0 ∧ line_number_table t = [] ∧ h' = h ∧
       Forall (λ a, ¬ attribute_is c (c_str "LineNumberTable") a) (attr_array attrs)) ∨
      (∃ a, first_attribute c (c_str "LineNumberTable") attrs a ∧
       bytes_data (info a) = encode_line_number_table t ∧ line_number_table_ok t ∧
       m_live h' = owns_ptr (line_number_table_ptr t) ⊎ m_live h)) _
    (λ _ h', (∃ a, first_attribute c (c_str "LineNumberTable") attrs a) ∧ m_live h' = m_live h) _ h);
    [|done..].
  apply find_attribute_wp; try done; [by apply c_str_c_string|by left|].
  intros i a Hl Hok Hmax Hfirst. eapply at_index_bind; [exact Hl|].
  eapply wp_mono; [by apply in_attribute_wp, Hmax; [apply line_number_table_attribute_init_parses|]|..];
    cbv beta.
  - intros t h' ((s & s' & E & Hs & Hr) & Hlive & Ht). right. exists a.
    apply line_number_table_at_end, eof_rest in E; [|done].
    by rewrite E, (right_id_L [] (++)) in Hr.
  - intros _ h' Hlive. split; [by exists a|done].
Qed.

(** A class whose slot 1 is the name of the attribute. *)
Definition named_bytes (name : list Z) : list Z :=
  [0xCA; 0xFE; 0xBA; 0xBE; 0; 0; 0; 49; 0; 2; 1; 0; Z.of_nat (length name)] ++ name ++
  [0; 1; 0; 0; 0; 0; 0; 0; 0; 0; 0; 0; 0; 0].
Definition named_class (name : list Z) : cafebabe_class :=
  default empty_class (fst <$> class_of (named_bytes name)).
Definition lines_attrs : cafebabe_attribute_array :=
  AttributeArray 1 O [AttributeInfo 1 6 (Bytes O [0; 1; 0; 0; 0; 7])].

Lemma named_class_ok name :
  is_Some (class_of (named_bytes name)) → stream_ok (stream_of (named_bytes name)) →
  class_ok (named_class name).
Proof.
  intros [[c s] E] Hs. unfold named_class. rewrite E.
  by apply (class_of_ok (named_bytes name) c s).
Qed.

Lemma cafebabe_read_line_number_table_correct_witness :
  match @cafebabe_read_line_number_table_attribute always
          (named_class (c_str "LineNumberTable")) lines_attrs (Mem 0 ∅) with
  | Done t h' => line_number_table t = [LineNumberEntry 0 7] ∧
                 m_live h' = owns_ptr (line_number_table_ptr t) ⊎ ∅
  | _ => False
  end.
Proof.
  pose proof (@cafebabe_read_line_number_table_correct always
    (named_class (c_str "LineNumberTable")) lines_attrs (Mem 0 ∅)) as H.
  assert (∃ t h', @cafebabe_read_line_number_table_attribute always
            (named_class (c_str "LineNumberTable")) lines_attrs (Mem 0 ∅) = Done t h' ∧
          line_number_table t = [LineNumberEntry 0 7]) as (t & h' & E & Et)
    by (eexists _, _; split; [vm_compute; reflexivity|reflexivity]).
  rewrite E in *. split; [exact Et|]. destruct H as [(_ & H & _)|(a & _ & _ & _ & H)].
  - apply named_class_ok; [eexists; vm_compute; reflexivity|].
    apply stream_of_ok; [vm_compute; repeat constructor; congruence|vm_compute; congruence].
  - repeat constructor; cbn; try (vm_compute; congruence).
    eexists _. split; [vm_compute; split; congruence|vm_compute; reflexivity].
  - rewrite Et in H. discriminate H.
  - exact H.
Defined.
