(* ===== verification/StackMapTable.v ===== *)
(** * cafebabe/stack_map_table_attribute.c

    The frames of a StackMapTable attribute.  The reader accepts the short and
    the extended form of a frame and stores the same structure for both; its
    error paths and the deinit function release the array of frames but not the
    arrays the frames point to, and the model keeps that. *)

From Stdlib Require Import String.
From S2P Require Import Prelude CMonad Stream ConstantPool AttributeInfo ClassFile ClassFileSpec ClassFileProps Attributes.
#[local] Open Scope Z_scope.

Definition CAFEBABE_VERIFICATION_TAG_OBJECT_VARIABLE_INFO : Z := 7.
Definition CAFEBABE_VERIFICATION_TAG_UNINITIALIZED_VARIABLE_INFO : Z := 8.

(** The tag, and the member of the union when the tag has one. *)
Record cafebabe_verification_type_info := VerificationType { vt_tag : Z; vt_index : option Z }.

(** The tag of the frame selects the member of the union. *)
Inductive cafebabe_stack_map_frame_entry : Type :=
  | SameFrame (offset_delta : Z)
  | SameLocals1StackItem (offset_delta : Z) (stack : cafebabe_verification_type_info)
  | ChopFrame (offset_delta chopped : Z)
  | AppendFrame (offset_delta nr_locals : Z) (p : block)
      (locals : list cafebabe_verification_type_info)
  | FullFrame (offset_delta nr_locals nr_stack_items : Z)
      (p : block) (locals : list cafebabe_verification_type_info)
      (q : block) (stack : list cafebabe_verification_type_info).

Record cafebabe_stack_map_table_attribute := StackMapTable {
  stack_map_frame_length : Z;
  stack_map_frame_ptr : option block;
  stack_map_frame : list cafebabe_stack_map_frame_entry;
}.

Definition sizeof_verification_type_info : Z := 8.
Definition sizeof_stack_map_frame_entry : Z := 32.

(** ** Operations *)

Definition cafebabe_stream_read_verification_type_info : parser cafebabe_verification_type_info :=
  let* raw_tag := cafebabe_stream_read_uint8 in
  if decide (raw_tag = CAFEBABE_VERIFICATION_TAG_OBJECT_VARIABLE_INFO) then
    let* cpool_index := cafebabe_stream_read_uint16 in
    ret (VerificationType raw_tag (Some cpool_index))
  else if decide (raw_tag = CAFEBABE_VERIFICATION_TAG_UNINITIALIZED_VARIABLE_INFO) then
    let* offset := cafebabe_stream_read_uint16 in
    ret (VerificationType raw_tag (Some offset))
  else ret (VerificationType raw_tag None).

Section ops.
Context `{Allocator}.

(** The body of the loop of lines 51-163: one frame. *)
Definition stack_map_frame_read : parser cafebabe_stack_map_frame_entry :=
  let* raw_tag := cafebabe_stream_read_uint8 in
  if decide (raw_tag < 64) then ret (SameFrame raw_tag)
  else if decide (raw_tag < 128) then
    let* v := cafebabe_stream_read_verification_type_info in
    ret (SameLocals1StackItem (raw_tag - 64) v)
  else if decide (raw_tag = 247) then
    let* offset_delta := cafebabe_stream_read_uint16 in
    let* v := cafebabe_stream_read_verification_type_info in
    ret (SameLocals1StackItem offset_delta v)
  else if decide (raw_tag >= 248 ∧ raw_tag < 251) then
    let* offset_delta := cafebabe_stream_read_uint16 in
    ret (ChopFrame offset_delta (251 - raw_tag))
  else if decide (raw_tag = 251) then
    let* offset_delta := cafebabe_stream_read_uint16 in
    ret (SameFrame offset_delta)
  else if decide (raw_tag >= 252 ∧ raw_tag < 255) then
    let* offset_delta := cafebabe_stream_read_uint16 in
    let* p := cafebabe_stream_malloc (sizeof_verification_type_info * (raw_tag - 251)) in
    let* locals := on_error
      (init_loop cafebabe_stream_read_verification_type_info (Z.to_nat (raw_tag - 251)) [])
      (λ _, free_block p) tt in
    ret (AppendFrame offset_delta (raw_tag - 251) p locals)
  else if decide (raw_tag = 255) then
    let* offset_delta := cafebabe_stream_read_uint16 in
    let* nr_locals := cafebabe_stream_read_uint16 in
    let* p := cafebabe_stream_malloc (sizeof_verification_type_info * nr_locals) in
    let* locals := on_error
      (init_loop cafebabe_stream_read_verification_type_info (Z.to_nat nr_locals) [])
      (λ _, free_block p) tt in
    let* nr_stack_items := cafebabe_stream_read_uint16 in
    let* q := cafebabe_stream_malloc (sizeof_verification_type_info * nr_stack_items) in
    let* stack := on_error
      (init_loop cafebabe_stream_read_verification_type_info (Z.to_nat nr_stack_items) [])
      (λ _, do free_block p;; free_block q) tt in
    ret (FullFrame offset_delta nr_locals nr_stack_items p locals q stack)
  else do set_errno CAFEBABE_ERROR_INVALID_STACK_FRAME_TAG;; fail tt.

Definition cafebabe_stack_map_table_attribute_init : parser cafebabe_stack_map_table_attribute :=
  let* n := cafebabe_stream_read_uint16 in
  let* p := cafebabe_stream_malloc (sizeof_stack_map_frame_entry * n) in
  let* frames := on_error (init_loop stack_map_frame_read (Z.to_nat n) []) (λ _, free_block p) tt in
  do on_error expect_eof (λ _, free_block p) tt;;
  ret (StackMapTable n (Some p) frames).

Definition cafebabe_read_stack_map_table_attribute (c : cafebabe_class)
    (attrs : cafebabe_attribute_array) : M mem unit cafebabe_stack_map_table_attribute :=
  find_attribute attrs (c_str "StackMapTable") c (ret (StackMapTable 0 None [])) (λ i,
    let* a := at_index (attr_array attrs) i in
    in_attribute a cafebabe_stack_map_table_attribute_init).
End ops.

Definition cafebabe_stack_map_table_attribute_deinit (a : cafebabe_stack_map_table_attribute)
  : M cstate unit unit := free_ptr (stack_map_frame_ptr a).

(** ** Format *)

Definition vt_has_index (tag : Z) : bool :=
  bool_decide (tag = CAFEBABE_VERIFICATION_TAG_OBJECT_VARIABLE_INFO ∨
               tag = CAFEBABE_VERIFICATION_TAG_UNINITIALIZED_VARIABLE_INFO).

Definition encode_vt (v : cafebabe_verification_type_info) : list Z :=
  vt_tag v :: match vt_index v with Some i => be16 i | None => [] end.
Definition vt_ok (v : cafebabe_verification_type_info) : Prop :=
  is_u8 (vt_tag v) ∧
  match vt_index v with
  | Some i => vt_has_index (vt_tag v) = true ∧ is_u16 i
  | None => vt_has_index (vt_tag v) = false
  end.

(** [ext] selects the form with a 16-bit offset for the frames that have both. *)
Definition encode_frame (ext : bool) (f : cafebabe_stack_map_frame_entry) : list Z :=
  match f with
  | SameFrame d => if ext then 251 :: be16 d else [d]
  | SameLocals1StackItem d v => if ext then 247 :: be16 d ++ encode_vt v else (64 + d) :: encode_vt v
  | ChopFrame d k => (251 - k) :: be16 d
  | AppendFrame d n _ ls => (251 + n) :: be16 d ++ encs encode_vt ls
  | FullFrame d nl ns _ ls _ st =>
    255 :: be16 d ++ be16 nl ++ encs encode_vt ls ++ be16 ns ++ encs encode_vt st
  end.

(** The short form holds offsets below 64 only. *)
Definition frame_form (ext : bool) (f : cafebabe_stack_map_frame_entry) : Prop :=
  match f with
  | SameFrame d | SameLocals1StackItem d _ => ext = false → d < 64
  | _ => True
  end.

Definition frame_ok (f : cafebabe_stack_map_frame_entry) : Prop :=
  match f with
  | SameFrame d => is_u16 d
  | SameLocals1StackItem d v => is_u16 d ∧ vt_ok v
  | ChopFrame d k => is_u16 d ∧ 1 <= k <= 3
  | AppendFrame d n _ ls => is_u16 d ∧ 1 <= n <= 3 ∧ n = Z.of_nat (length ls) ∧ Forall vt_ok ls
  | FullFrame d nl ns _ ls _ st =>
    is_u16 d ∧ is_u16 nl ∧ is_u16 ns ∧ nl = Z.of_nat (length ls) ∧ ns = Z.of_nat (length st) ∧
    Forall vt_ok ls ∧ Forall vt_ok st
  end.

Definition owns_frame (f : cafebabe_stack_map_frame_entry) : gmultiset block :=
  match f with
  | AppendFrame _ _ p _ => {[+ p +]}
  | FullFrame _ _ _ p _ q _ => {[+ p +]} ⊎ {[+ q +]}
  | _ => ∅
  end.

(** [bs] encodes the frames, each in one of its forms. *)
Inductive frames_encoded : list cafebabe_stack_map_frame_entry → list Z → Prop :=
  | frames_nil : frames_encoded [] []
  | frames_snoc fs bs f ext :
      frames_encoded fs bs → frame_form ext f → frames_encoded (fs ++ [f]) (bs ++ encode_frame ext f).

Definition table_encoded (a : cafebabe_stack_map_table_attribute) (bs : list Z) : Prop :=
  ∃ bs', frames_encoded (stack_map_frame a) bs' ∧ bs = be16 (stack_map_frame_length a) ++ bs'.
Definition table_ok (a : cafebabe_stack_map_table_attribute) : Prop :=
  is_u16 (stack_map_frame_length a) ∧
  stack_map_frame_length a = Z.of_nat (length (stack_map_frame a)) ∧
  Forall frame_ok (stack_map_frame a).

(** ** Correctness *)

Lemma read_verification_type_parses :
  parses cafebabe_stream_read_verification_type_info owns_nothing encode_vt vt_ok.
Proof.
  intros s0 Hok. pose proof (run_start _ Hok).
  unfold cafebabe_stream_read_verification_type_info. pread tag.
  destruct (decide (tag = _)) as [E1|E1]; [|destruct (decide (tag = _)) as [E2|E2]].
  - pread i. unfold encode_vt. pdone. split; [done|split; [|done]]. apply bool_decide_eq_true. by left.
  - pread i. unfold encode_vt. pdone. split; [done|split; [|done]]. apply bool_decide_eq_true. by right.
  - unfold encode_vt. pdone. split; [done|]. apply bool_decide_eq_false. by intros [?|?].
Qed.

Lemma read_verification_type_back :
  reads_back cafebabe_stream_read_verification_type_info encode_vt vt_ok (=).
Proof.
  intros s [tag o] r Hok [Ht Hi] Hr. unfold encode_vt in Hr. cbn in *.
  unfold cafebabe_stream_read_verification_type_info.
  eapply (back_read _ (λ b, [b]) is_u8 (=) _ tag (match o with Some i => be16 i | None => [] end ++ r));
    [done|by rewrite Hr|apply read_uint8_back|done|].
  intros tag' s' Hok' Hr' <-. destruct o as [i|].
  - destruct Hi as [Hh Hi]. apply bool_decide_eq_true in Hh.
    destruct (decide (tag = _)) as [E1|E1]; [|rewrite decide_True by tauto]; pback x; done.
  - apply bool_decide_eq_false in Hi.
    rewrite (decide_False (P := tag = CAFEBABE_VERIFICATION_TAG_OBJECT_VARIABLE_INFO)) by tauto.
    rewrite decide_False by tauto. done.
Qed.
#[export] Hint Resolve read_verification_type_parses read_verification_type_back : cparse.

(** What is left allocated after an error. *)
Definition leaves (s s' : cstate) : Prop := kept s s' ∧ ∃ L, live s' = L ⊎ live s.

Ltac pleak := let Hk := fresh in let Hl := fresh in
  intros ? Hk Hl; split; [exact Hk|eexists; exact Hl].

Lemma frame_done s0 s bs L f ext :
  run s0 s bs L → bs = encode_frame ext f → L = owns_frame f → frame_form ext f → frame_ok f →
  (∃ ext, frame_form ext f ∧ adv s0 s (encode_frame ext f)) ∧
  live s = owns_frame f ⊎ live s0 ∧ frame_ok f.
Proof. intros [Ha Hl] -> -> Hf Hok. split_and!; [by exists ext|done|done]. Qed.

Section spec.
Context `{Allocator}.

Lemma stack_map_frame_read_wp s0 : stream_ok s0 →
  wp stack_map_frame_read
     (λ f s, (∃ ext, frame_form ext f ∧ adv s0 s (encode_frame ext f)) ∧
             live s = owns_frame f ⊎ live s0 ∧ frame_ok f)
     (λ _ s, leaves s0 s) s0.
Proof.
  intros Hok. pose proof (run_start _ Hok). unfold stack_map_frame_read.
  eapply run_read; [eassumption|apply read_uint8_parses| |pleak]. intros tag s1 Hr Htag.
  case_decide as C1.
  { apply wp_ret. eapply (frame_done _ _ _ _ _ false); [exact Hr|psolve_enc|done|by intros _|cbn; clia]. }
  case_decide as C2.
  { eapply run_read; [eassumption|apply read_verification_type_parses| |pleak]. intros v s2 Hr2 Hv.
    apply wp_ret. eapply (frame_done _ _ _ _ _ false); [exact Hr2| |done|cbn; lia|split; [clia|done]].
    cbn. by replace (64 + (tag - 64)) with tag by lia. }
  case_decide as C3.
  { eapply run_read; [eassumption|apply read_uint16_parses| |pleak]. intros d s2 Hr2 Hd.
    eapply run_read; [eassumption|apply read_verification_type_parses| |pleak]. intros v s3 Hr3 Hv.
    apply wp_ret. subst tag.
    eapply (frame_done _ _ _ _ _ true); [exact Hr3|psolve_enc|done|done|done]. }
  case_decide as C4.
  { eapply run_read; [eassumption|apply read_uint16_parses| |pleak]. intros d s2 Hr2 Hd.
    apply wp_ret. eapply (frame_done _ _ _ _ _ true); [exact Hr2| |done|done|split; [done|lia]].
    cbn. by replace (251 - (251 - tag)) with tag by lia. }
  case_decide as C5.
  { eapply run_read; [eassumption|apply read_uint16_parses| |pleak]. intros d s2 Hr2 Hd.
    apply wp_ret. subst tag. eapply (frame_done _ _ _ _ _ true); [exact Hr2|psolve_enc|done|done|done]. }
  case_decide as C6.
  { eapply run_read; [eassumption|apply read_uint16_parses| |pleak]. intros d s2 Hr2 Hd.
    eapply run_malloc; [eassumption| |pleak]. intros p s3 Hr3.
    eapply run_array; [eassumption|apply read_verification_type_parses| |pleak].
    intros ls s4 Hr4 Hls Hlen. apply wp_ret.
    eapply (frame_done _ _ _ _ _ true); [exact Hr4| |psolve_own|done|].
    - cbn -[encs]. replace (251 + (tag - 251)) with tag by lia. psolve_enc.
    - split_and!; [done|lia|lia|lia|done]. }
  case_decide as C7; [|by eapply wp_seq; [apply set_errno_kept; by eapply run_ok| |done]; cbv beta;
    intros _ s' [Hk Hl]; apply wp_fail; destruct (run_kept _ _ _ _ _ Hr Hk Hl); split; [|eexists]].
  subst tag. eapply run_read; [eassumption|apply read_uint16_parses| |pleak]. intros d s2 Hr2 Hd.
  eapply run_read; [eassumption|apply read_uint16_parses| |pleak]. intros nl s3 Hr3 Hnl.
  eapply run_malloc; [eassumption| |pleak]. intros p s4 Hr4.
  eapply run_array; [eassumption|apply read_verification_type_parses| |pleak].
  intros ls s5 Hr5 Hls Hlen.
  eapply run_read; [eassumption|apply read_uint16_parses| |pleak]. intros ns s6 Hr6 Hns.
  eapply run_malloc; [eassumption| |pleak]. intros q s7 Hr7.
  apply wp_bind, wp_on_error. eapply wp_mono;
    [eapply init_loop_parses; [exact Hr7|apply read_verification_type_parses]|..]; cbv beta.
  - intros st s8 (Hr8 & Hst & Hslen). rewrite owns_list_nothing, (left_id_L ∅ (⊎)) in Hr8. apply wp_ret.
    eapply (frame_done _ _ _ _ _ true); [exact Hr8|psolve_enc|psolve_own|done|].
    split_and!; try done; clia.
  - intros st s8 [Hk Hl]. rewrite owns_list_nothing, (left_id_L ∅ (⊎)) in Hl.
    eapply (frees_then free_block _ p _ _ ({[+ q +]} ⊎ live s0)); [apply free_block_frees| |].
    + rewrite Hl. multiset_solver.
    + intros s9 Hs9 Hl9. eapply wp_mono; [by apply free_block_frees| |done]. cbv beta.
      intros _ s10 [Hs10 Hl10]. split; [eapply kept_strm; [exact Hk|congruence]|].
      exists ∅. by rewrite (left_id_L ∅ (⊎)).
Qed.
End spec.

Section table.
Context `{Allocator}.

Lemma stack_map_table_init_wp s0 : stream_ok s0 →
  wp cafebabe_stack_map_table_attribute_init
     (λ a s, table_encoded a (rest s0) ∧ rest s = [] ∧ table_ok a ∧
        live s = owns_ptr (stack_map_frame_ptr a) ⊎ owns_list owns_frame (stack_map_frame a) ⊎ live s0)
     (λ _ s, leaves s0 s) s0.
Proof.
  intros Hok. pose proof (run_start _ Hok). unfold cafebabe_stack_map_table_attribute_init.
  eapply run_read; [eassumption|apply read_uint16_parses| |pleak]. intros n s1 Hr1 Hn.
  eapply run_malloc; [eassumption| |pleak]. intros p s2 Hr2.
  set (I := λ fs s, (∃ bs, frames_encoded fs bs ∧
               run s0 s ((([] ++ be16 n) ++ bs)) (owns_list owns_frame fs ⊎ ({[+ p +]} ⊎ ∅))) ∧
             Forall frame_ok fs).
  apply wp_bind, wp_on_error. eapply wp_mono.
  { apply (wp_init_loop _ I (λ _ s, kept s0 s ∧ ∃ L, live s = {[+ p +]} ⊎ (L ⊎ live s0))).
    - split; [|constructor]. exists []. split; [constructor|].
      rewrite (right_id_L [] (++)), owns_list_nil, (left_id_L ∅ (⊎)). exact Hr2.
    - intros fs s [(bs & Hbs & [Ha Hl]) Hfs].
      eapply wp_mono; [apply stack_map_frame_read_wp; by destruct Ha|..]; cbv beta.
      + intros f s' ((ext & Hform & Ha') & Hl' & Hf). split; [|by apply Forall_app_2; [|constructor]].
        eexists. split; [by eapply frames_snoc|]. split.
        * rewrite (assoc_L (++)). by eapply adv_trans.
        * rewrite owns_list_snoc, Hl', Hl. multiset_solver.
      + intros _ s' [Hk [L Hl']]. split; [by eapply adv_kept_trans|].
        exists (L ⊎ owns_list owns_frame fs). rewrite Hl', Hl. multiset_solver. }
  - cbv beta. intros fs s [[(bs & Hbs & Hr) Hfs] Hlen]. apply wp_bind, wp_on_error.
    apply expect_eof_wp; [by eapply run_ok|..].
    + intros Hend. apply wp_ret. destruct Hr as [[_ _ Hrest] Hl].
      rewrite Hend, (right_id_L [] (++)) in Hrest. split_and!; try done.
      * by exists bs.
      * split_and!; [done|cbn in *; clia|done].
      * rewrite Hl. cbn [owns_ptr stack_map_frame_ptr stack_map_frame]. multiset_solver.
    + intros s' Hk Hl. destruct (run_kept _ _ _ _ _ Hr Hk Hl) as [Hk' Hl'].
      eapply wp_mono; [apply (free_block_frees p s' (owns_list owns_frame fs ⊎ live s0))| |done].
      * rewrite Hl'. multiset_solver.
      * cbv beta. intros _ s'' [Hs Hl'']. split; [by eapply kept_strm|by eexists].
  - cbv beta. intros fs s [Hk [L Hl]].
    eapply wp_mono; [by apply (free_block_frees p s (L ⊎ live s0))| |done].
    cbv beta. intros _ s'' [Hs Hl'']. split; [by eapply kept_strm|by eexists].
Qed.
End table.

(** ** Reading back an encoding *)

(** The same frame, with its arrays in other blocks. *)
Definition frame_eq (f g : cafebabe_stack_map_frame_entry) : Prop :=
  match f, g with
  | AppendFrame d n _ ls, AppendFrame d' n' _ ls' => d = d' ∧ n = n' ∧ ls = ls'
  | FullFrame d nl ns _ ls _ st, FullFrame d' nl' ns' _ ls' _ st' =>
    d = d' ∧ nl = nl' ∧ ns = ns' ∧ ls = ls' ∧ st = st'
  | _, _ => f = g
  end.

Section back.
Context `{AllocatorOk}.

(** The next frame has tag [tag] and the bytes [bs] after it. *)
Lemma back_tag {B} tag bs (f : Z → parser B) s Q :
  stream_ok s → is_u8 tag → rest s = tag :: bs →
  (∀ s', stream_ok s' → rest s' = bs → wp (f tag) Q (λ _ _, False) s') →
  wp (let* x := cafebabe_stream_read_uint8 in f x) Q (λ _ _, False) s.
Proof.
  intros Hok Ht Hr Hf.
  eapply (back_read _ (λ b, [b]) is_u8 (=) _ tag bs); [done|exact Hr|apply read_uint8_back|done|].
  intros tag' s' Hok' Hr' <-. auto.
Qed.

(** Any choice [e] of the form of each frame is read back. *)
Lemma stack_map_frame_read_back (e : cafebabe_stack_map_frame_entry → bool) :
  reads_back stack_map_frame_read (λ f, encode_frame (e f) f)
    (λ f, frame_ok f ∧ frame_form (e f) f) frame_eq.
Proof.
  intros s f r Hok [Hf Hform] Hr. unfold stack_map_frame_read.
  destruct f as [d|d v|d k|d n p ls|d nl ns p ls q st]; cbn -[encs be16] in Hf, Hform.
  - cbn in Hr. destruct (e _); cbn in Hr.
    + eapply back_tag; [done| |exact Hr|]; [clia|]. intros s1 Hok1 Hr1. cbn -[be16].
      pback x. done.
    + eapply back_tag; [done| |exact Hr|]; [specialize (Hform eq_refl); clia|]. intros s1 Hok1 Hr1.
      rewrite decide_True by auto. done.
  - destruct Hf as [Hd Hv]. cbn in Hr. destruct (e _); cbn -[be16 encode_vt] in Hr.
    + rewrite <- (assoc_L (++)) in Hr.
      eapply back_tag; [done| |exact Hr|]; [clia|]. intros s1 Hok1 Hr1. cbn -[be16 encode_vt].
      pback x. pback w. done.
    + specialize (Hform eq_refl). eapply back_tag; [done| |exact Hr|]; [clia|]. intros s1 Hok1 Hr1.
      rewrite decide_False, decide_True by clia. pback w. unfold wp, ret. split_and!; [done..|].
      unfold frame_eq. f_equal. lia.
  - destruct Hf as [Hd Hk]. cbn in Hr. eapply back_tag; [done| |exact Hr|]; [clia|].
    intros s1 Hok1 Hr1. rewrite 3!decide_False, decide_True by lia. pback x.
    unfold wp, ret. split_and!; [done..|]. unfold frame_eq. f_equal. lia.
  - destruct Hf as (Hd & Hn & Hlen & Hls). cbn -[be16 encs] in Hr. rewrite <- (assoc_L (++)) in Hr.
    eapply back_tag; [done| |exact Hr|]; [clia|]. intros s1 Hok1 Hr1.
    rewrite 5!decide_False, decide_True by lia. pback x. eapply back_malloc; [done|].
    intros p' s2 Hok2 Hr2. rewrite Hrest in Hr2.
    eapply back_array; [done|exact Hr2|apply read_verification_type_back|done|lia|].
    intros ls' s3 Hok3 Hr3 <-%Forall2_eq_list. apply wp_ret. cbn. split_and!; done || lia.
  - destruct Hf as (Hd & Hnl & Hns & Hll & Hlst & Hls & Hst). cbn -[be16 encs] in Hr.
    rewrite <- !(assoc_L (++)) in Hr. eapply back_tag; [done| |exact Hr|]; [clia|].
    intros s1 Hk1 Hr1. rewrite 6!decide_False, decide_True by lia. pback x. pback y.
    eapply back_malloc; [done|]. intros p' s2 Hk2 Hr2. rewrite Hrest0 in Hr2.
    eapply back_array; [done|exact Hr2|apply read_verification_type_back|done|lia|].
    intros ls' s3 Hk3 Hr3 <-%Forall2_eq_list. pback z.
    eapply back_malloc; [done|]. intros q' s4 Hk4 Hr4. rewrite Hrest1 in Hr4.
    eapply back_array; [done|exact Hr4|apply read_verification_type_back|done|lia|].
    intros st' s5 Hk5 Hr5 <-%Forall2_eq_list. by apply wp_ret.
Qed.

Lemma stack_map_table_init_back e s (n : Z) (fs : list cafebabe_stack_map_frame_entry) :
  stream_ok s → is_u16 n → n = Z.of_nat (length fs) →
  Forall (λ f, frame_ok f ∧ frame_form (e f) f) fs →
  rest s = be16 n ++ encs (λ f, encode_frame (e f) f) fs →
  wp cafebabe_stack_map_table_attribute_init
     (λ a s', rest s' = [] ∧ stack_map_frame_length a = n ∧ Forall2 frame_eq fs (stack_map_frame a))
     (λ _ _, False) s.
Proof.
  intros Hok Hn Hlen Hfs Hr. unfold cafebabe_stack_map_table_attribute_init. pback x.
  eapply back_malloc; [done|]. intros p s2 Hok2 Hr2.
  rewrite Hrest, <- (right_id_L [] (++) (encs _ fs)) in Hr2.
  eapply back_array; [done|exact Hr2|apply (stack_map_frame_read_back e)|done|lia|].
  intros fs' s3 Hok3 Hr3 Heq. apply wp_bind, wp_on_error.
  apply expect_eof_end; [done..|]. by apply wp_ret.
Qed.
End back.

(** ** Theorems *)

(** Two frames: same_locals_1_stack_item_frame_extended with an object, and an
    append frame with one local. *)
Definition frames_bytes : list Z := [0; 2; 247; 0; 5; 7; 0; 9; 252; 0; 1; 1].
(** The second frame cut off. *)
Definition cut_bytes : list Z := [0; 2; 252; 0; 1; 1; 252].

(** C30: [cafebabe_stack_map_table_attribute_init] never has undefined behaviour.
    When it succeeds, the buffer is exactly the encoding of the frames it returns,
    each in its short or its extended form, every frame is in range, and what is
    allocated is the array of frames and the arrays the frames point to. *)
Theorem cafebabe_stack_map_table_init_correct `{Allocator} s :
  stream_ok s →
  match cafebabe_stack_map_table_attribute_init s with
  | Done a s' =>
    table_encoded a (rest s) ∧ rest s' = [] ∧ table_ok a ∧
    live s' = owns_ptr (stack_map_frame_ptr a) ⊎ owns_list owns_frame (stack_map_frame a) ⊎ live s
  | Fail _ s' => ∃ L, live s' = L ⊎ live s
  | Undef => False
  end.
Proof.
  intros Hs. pose proof (stack_map_table_init_wp s Hs) as H1. unfold wp in H1.
  destruct (cafebabe_stack_map_table_attribute_init s) as [a s'|e s'|]; [done|by destruct H1|done].
Qed.
Lemma cafebabe_stack_map_table_init_correct_witness :
  match @cafebabe_stack_map_table_attribute_init always (stream_of frames_bytes) with
  | Done a s' => table_encoded a frames_bytes ∧ length (stack_map_frame a) = 2%nat
  | _ => False
  end.
Proof.
  pose proof (@cafebabe_stack_map_table_init_correct always (stream_of frames_bytes)) as H.
  assert (∃ a s', @cafebabe_stack_map_table_attribute_init always (stream_of frames_bytes) = Done a s' ∧
    length (stack_map_frame a) = 2%nat) as (a & s' & E & El)
    by (eexists _, _; split; [vm_compute; reflexivity|reflexivity]).
  rewrite E in *. split; [|exact El].
  apply H. apply stream_of_ok; [repeat constructor; lia|done].
Defined.

(** C31: when memory is available, [cafebabe_stack_map_table_attribute_init] reads
    back every table of at most 65535 well formed frames, whichever form each
    frame that has two is written in. *)
Theorem cafebabe_stack_map_table_init_reads_back `{AllocatorOk}
    (form : cafebabe_stack_map_frame_entry → bool) s fs :
  stream_ok s → Z.of_nat (length fs) < 2 ^ 16 →
  Forall (λ f, frame_ok f ∧ frame_form (form f) f) fs →
  rest s = be16 (Z.of_nat (length fs)) ++ encs (λ f, encode_frame (form f) f) fs →
  ∃ a s', cafebabe_stack_map_table_attribute_init s = Done a s' ∧ rest s' = [] ∧
    Forall2 frame_eq fs (stack_map_frame a).
Proof.
  intros Hs Hn Hf Hr.
  assert (is_u16 (Z.of_nat (length fs))) as Hn' by clia.
  pose proof (stack_map_table_init_back form s _ fs Hs Hn' eq_refl Hf Hr) as H1.
  unfold wp in H1. destruct (cafebabe_stack_map_table_attribute_init s) as [a s'|e s'|]; [|done..].
  exists a, s'. by destruct H1 as (? & _ & ?).
Qed.
Lemma cafebabe_stack_map_table_init_reads_back_witness :
  ∃ a s', @cafebabe_stack_map_table_attribute_init always (stream_of frames_bytes) = Done a s' ∧
    rest s' = [] ∧
    Forall2 frame_eq [SameLocals1StackItem 5 (VerificationType 7 (Some 9));
                      AppendFrame 1 1 O [VerificationType 1 None]] (stack_map_frame a).
Proof.
  apply (@cafebabe_stack_map_table_init_reads_back always (λ _ _, eq_refl) (λ _, true)).
  - apply stream_of_ok; [repeat constructor; lia|done].
  - reflexivity.
  - repeat constructor; done.
  - reflexivity.
Defined.

(** what [cafebabe_stack_map_table_attribute_deinit] leaves allocated after a
    successful init is exactly the arrays of locals and stack items the frames
    point to: they are never released. *)
Theorem cafebabe_stack_map_table_deinit_leaks `{Allocator} s a s' :
  stream_ok s → cafebabe_stack_map_table_attribute_init s = Done a s' →
  ∃ s'', cafebabe_stack_map_table_attribute_deinit a s' = Done tt s'' ∧
    live s'' = owns_list owns_frame (stack_map_frame a) ⊎ live s.
Proof.
  intros Hs E. pose proof (stack_map_table_init_wp s Hs) as H1. unfold wp in H1. rewrite E in H1.
  destruct H1 as (_ & _ & _ & Hl). unfold cafebabe_stack_map_table_attribute_deinit, free_ptr.
  destruct (stack_map_frame_ptr a) as [p|]; cbn [owns_ptr] in Hl.
  - rewrite <- (assoc_L (⊎)) in Hl. pose proof (free_block_frees p s' _ Hl) as H2. unfold wp in H2.
    destruct (free_block p s') as [[] s''| |]; [|done..]. exists s''. by destruct H2.
  - exists s'. split; [done|]. by rewrite Hl, (left_id_L ∅ (⊎)).
Qed.
Lemma cafebabe_stack_map_table_deinit_leaks_witness :
  ∃ a s' s'', @cafebabe_stack_map_table_attribute_init always (stream_of frames_bytes) = Done a s' ∧
    cafebabe_stack_map_table_attribute_deinit a s' = Done tt s'' ∧ live s'' ≠ ∅.
Proof.
  assert (∃ a s', @cafebabe_stack_map_table_attribute_init always (stream_of frames_bytes) = Done a s' ∧
    owns_list owns_frame (stack_map_frame a) ≠ ∅) as (a & s' & E & Ho).
  { eexists _, _. split; [vm_compute; reflexivity|]. cbn [owns_list stack_map_frame foldr owns_frame].
    multiset_solver. }
  destruct (@cafebabe_stack_map_table_deinit_leaks always (stream_of frames_bytes) a s')
    as (s'' & H1 & H2).
  - apply stream_of_ok; [repeat constructor; lia|done].
  - exact E.
  - exists a, s', s''. split; [exact E|]. split; [exact H1|]. rewrite H2. multiset_solver.
Defined.

(** the error path of [cafebabe_stack_map_table_attribute_init] leaks too: a
    table cut off after an append frame leaves that frame's locals allocated. *)
Theorem cafebabe_stack_map_table_error_leaks :
  ∃ s', @cafebabe_stack_map_table_attribute_init always (stream_of cut_bytes) = Fail tt s' ∧
    live s' ≠ live (stream_of cut_bytes).
Proof.
  eexists. split; [vm_compute; reflexivity|]. vm_compute. discriminate.
Qed.
