(* ===== verification/Annotations.v ===== *)
(** * cafebabe/annotations_attribute.c

    Annotations nest: an element value can be an annotation or an array of
    element values.  Every level of nesting has consumed the byte of its tag, so
    one more than the number of bytes left is enough depth for the recursion.
    The allocations here are malloc and calloc, not [cafebabe_stream_malloc]; the
    result of one of them is not checked, and no error path releases anything. *)

From Stdlib Require Import String.
From S2P Require Import Prelude CMonad Stream ConstantPool AttributeInfo ClassFile ClassFileSpec ClassFileProps Attributes StackMapTable.
#[local] Open Scope Z_scope.

(** ** Data *)

(** include/cafebabe/annotation.h: the tags are ASCII letters. *)
Definition ELEMENT_TYPE_BYTE : Z := 66.
Definition ELEMENT_TYPE_CHAR : Z := 67.
Definition ELEMENT_TYPE_DOUBLE : Z := 68.
Definition ELEMENT_TYPE_FLOAT : Z := 70.
Definition ELEMENT_TYPE_INTEGER : Z := 73.
Definition ELEMENT_TYPE_LONG : Z := 74.
Definition ELEMENT_TYPE_SHORT : Z := 83.
Definition ELEMENT_TYPE_BOOLEAN : Z := 90.
Definition ELEMENT_TYPE_STRING : Z := 115.
Definition ELEMENT_TYPE_ENUM_CONSTANT : Z := 101.
Definition ELEMENT_TYPE_CLASS : Z := 99.
Definition ELEMENT_TYPE_ANNOTATION_TYPE : Z := 64.
Definition ELEMENT_TYPE_ARRAY : Z := 91.

Definition const_tags : list Z :=
  [ELEMENT_TYPE_BYTE; ELEMENT_TYPE_CHAR; ELEMENT_TYPE_DOUBLE; ELEMENT_TYPE_FLOAT;
   ELEMENT_TYPE_INTEGER; ELEMENT_TYPE_LONG; ELEMENT_TYPE_SHORT; ELEMENT_TYPE_BOOLEAN;
   ELEMENT_TYPE_STRING].

(** struct cafebabe_element_value: the tag and the member it selects.  A nested
    annotation is stored through a pointer, which is null when malloc failed. *)
#[warnings="-register-all"]
Inductive cafebabe_element_value : Type :=
  | EVConst (tag const_value_index : Z)
  | EVEnum (type_name_index const_name_index : Z)
  | EVClass (class_info_index : Z)
  | EVAnnotation (annotation_value : block) (type_index num_element_value_pairs : Z)
      (p : option block) (element_value_pairs : list (Z * cafebabe_element_value))
  | EVAnnotationNull
  | EVArray (num_values : Z) (p : option block) (values : list cafebabe_element_value).

(** struct cafebabe_annotation *)
Record cafebabe_annotation := Annotation {
  type_index : Z;
  num_element_value_pairs : Z;
  pairs_ptr : option block;
  element_value_pairs : list (Z * cafebabe_element_value);
}.

Record cafebabe_annotations_attribute := AnnotationsAttribute {
  num_annotations : Z;
  annotations_ptr : option block;
  annotations : list cafebabe_annotation;
}.

Definition sizeof_element_value : Z := 24.
Definition sizeof_element_value_pair : Z := 32.
Definition sizeof_annotation : Z := 16.

(** ** Operations *)

Section ops.
Context `{Allocator}.

(** malloc and calloc: no error code is set. *)
Definition raw_malloc {E} (size : Z) : M cstate E (option block) := λ s,
  let '(p, m) := mem_malloc size (cmem s) in Done p (CState (strm s) m).

(** An error in an element ends the loop; nothing is released. *)
Definition parse_all {A} (m : parser A) (n : Z) : parser (list A) :=
  on_error (init_loop m (Z.to_nat n) []) (λ _, ret tt) tt.

Definition element_value_pair_parse (element_value_parse : parser cafebabe_element_value)
  : parser (Z * cafebabe_element_value) :=
  let* element_name_index := cafebabe_stream_read_uint16 in
  let* value := element_value_parse in
  ret (element_name_index, value).

Definition annotation_parse (element_value_parse : parser cafebabe_element_value)
  : parser cafebabe_annotation :=
  let* type_index := cafebabe_stream_read_uint16 in
  let* n := cafebabe_stream_read_uint16 in
  if decide (n = 0) then ret (Annotation type_index 0 None [])
  else
    let* p := raw_malloc (n * sizeof_element_value_pair) in
    match p with
    | None => fail tt
    | Some q =>
      let* pairs := parse_all (element_value_pair_parse element_value_parse) n in
      ret (Annotation type_index n (Some q) pairs)
    end.

Fixpoint cafebabe_element_value_parse (fuel : nat) : parser cafebabe_element_value :=
  match fuel with
  | O => undef
  | S fuel' =>
    let* tag := cafebabe_stream_read_uint8 in
    if decide (tag ∈ const_tags) then
      let* i := cafebabe_stream_read_uint16 in ret (EVConst tag i)
    else if decide (tag = ELEMENT_TYPE_ENUM_CONSTANT) then
      let* i := cafebabe_stream_read_uint16 in
      let* j := cafebabe_stream_read_uint16 in ret (EVEnum i j)
    else if decide (tag = ELEMENT_TYPE_CLASS) then
      let* i := cafebabe_stream_read_uint16 in ret (EVClass i)
    else if decide (tag = ELEMENT_TYPE_ANNOTATION_TYPE) then
      let* p := raw_malloc sizeof_annotation in
      match p with
      | None => ret EVAnnotationNull           (* goto out with err == 0 *)
      | Some q =>
        let* a := annotation_parse (cafebabe_element_value_parse fuel') in
        ret (EVAnnotation q (type_index a) (num_element_value_pairs a) (pairs_ptr a)
                          (element_value_pairs a))
      end
    else if decide (tag = ELEMENT_TYPE_ARRAY) then
      let* n := cafebabe_stream_read_uint16 in
      let* p := raw_malloc (n * sizeof_element_value) in
      match p with
      | None =>                                (* values is null and not checked *)
        if decide (n = 0) then ret (EVArray 0 None [])
        else do cafebabe_stream_read_uint8;; undef
      | Some q =>
        let* values := parse_all (cafebabe_element_value_parse fuel') n in
        ret (EVArray n (Some q) values)
      end
    else fail tt
  end.

Definition cafebabe_annotation_parse : parser cafebabe_annotation :=
  let* left := get (λ s, length (rest s)) in
  annotation_parse (cafebabe_element_value_parse (S left)).

Definition cafebabe_annotations_attribute_init : parser cafebabe_annotations_attribute :=
  let* n := cafebabe_stream_read_uint16 in
  if decide (n = 0) then ret (AnnotationsAttribute 0 None [])
  else
    let* p := raw_malloc (n * sizeof_annotation) in
    match p with
    | None => fail tt
    | Some q =>
      let* l := parse_all cafebabe_annotation_parse n in
      ret (AnnotationsAttribute n (Some q) l)
    end.

(** The structure is cleared first, so nothing is read when the attribute is absent. *)
Definition cafebabe_read_annotations_attribute (c : cafebabe_class)
    (attrs : cafebabe_attribute_array) : M mem unit cafebabe_annotations_attribute :=
  find_attribute attrs (c_str "RuntimeVisibleAnnotations") c (ret (AnnotationsAttribute 0 None [])) (λ i,
    let* a := at_index (attr_array attrs) i in
    in_attribute a cafebabe_annotations_attribute_init).
End ops.

(** Only a nested annotation's own block is released, not what it points to. *)
Definition element_value_pair_free (ev : Z * cafebabe_element_value) : M cstate unit unit :=
  match ev.2 with
  | EVAnnotation p _ _ _ _ => free_block p
  | _ => ret tt
  end.

Definition cafebabe_annotation_free (a : cafebabe_annotation) : M cstate unit unit :=
  do for_each element_value_pair_free (element_value_pairs a);;
  free_ptr (pairs_ptr a).

Definition cafebabe_annotations_attribute_deinit (a : cafebabe_annotations_attribute)
  : M cstate unit unit :=
  do for_each cafebabe_annotation_free (annotations a);;
  free_ptr (annotations_ptr a).

(** ** Format *)

Fixpoint encode_ev (v : cafebabe_element_value) : list Z :=
  match v with
  | EVConst tag i => tag :: be16 i
  | EVEnum i j => ELEMENT_TYPE_ENUM_CONSTANT :: be16 i ++ be16 j
  | EVClass i => ELEMENT_TYPE_CLASS :: be16 i
  | EVAnnotation _ t n _ pairs =>
    ELEMENT_TYPE_ANNOTATION_TYPE :: be16 t ++ be16 n ++
      encs (λ x : Z * cafebabe_element_value, be16 x.1 ++ encode_ev x.2) pairs
  | EVAnnotationNull => [ELEMENT_TYPE_ANNOTATION_TYPE]
  | EVArray n _ vs => ELEMENT_TYPE_ARRAY :: be16 n ++ encs encode_ev vs
  end.

Definition encode_pair (x : Z * cafebabe_element_value) : list Z := be16 x.1 ++ encode_ev x.2.
Definition encode_annotation (a : cafebabe_annotation) : list Z :=
  be16 (type_index a) ++ be16 (num_element_value_pairs a) ++ encs encode_pair (element_value_pairs a).
Definition encode_annotations (a : cafebabe_annotations_attribute) : list Z :=
  be16 (num_annotations a) ++ encs encode_annotation (annotations a).

#[warnings="-register-all"]
Inductive ev_ok : cafebabe_element_value → Prop :=
  | ev_ok_const tag i : tag ∈ const_tags → is_u16 i → ev_ok (EVConst tag i)
  | ev_ok_enum i j : is_u16 i → is_u16 j → ev_ok (EVEnum i j)
  | ev_ok_class i : is_u16 i → ev_ok (EVClass i)
  | ev_ok_annotation q t n p pairs :
      is_u16 t → is_u16 n → n = Z.of_nat (length pairs) →
      Forall (λ x, is_u16 x.1) pairs → Forall (λ x, ev_ok x.2) pairs →
      ev_ok (EVAnnotation q t n p pairs)
  | ev_ok_array n p vs :
      is_u16 n → n = Z.of_nat (length vs) → Forall ev_ok vs → ev_ok (EVArray n p vs).

Definition pair_ok (x : Z * cafebabe_element_value) : Prop := is_u16 x.1 ∧ ev_ok x.2.
Definition annotation_ok (a : cafebabe_annotation) : Prop :=
  is_u16 (type_index a) ∧ is_u16 (num_element_value_pairs a) ∧
  num_element_value_pairs a = Z.of_nat (length (element_value_pairs a)) ∧
  Forall pair_ok (element_value_pairs a).
Definition annotations_ok (a : cafebabe_annotations_attribute) : Prop :=
  is_u16 (num_annotations a) ∧ num_annotations a = Z.of_nat (length (annotations a)) ∧
  Forall annotation_ok (annotations a).

Fixpoint owns_ev (v : cafebabe_element_value) : gmultiset block :=
  match v with
  | EVAnnotation q _ _ p pairs =>
    {[+ q +]} ⊎ (owns_ptr p ⊎ owns_list (λ x : Z * cafebabe_element_value, owns_ev x.2) pairs)
  | EVArray _ p vs => owns_ptr p ⊎ owns_list owns_ev vs
  | _ => ∅
  end.
Definition owns_annotation (a : cafebabe_annotation) : gmultiset block :=
  owns_ptr (pairs_ptr a) ⊎ owns_list (λ x, owns_ev x.2) (element_value_pairs a).
Definition owns_annotations (a : cafebabe_annotations_attribute) : gmultiset block :=
  owns_ptr (annotations_ptr a) ⊎ owns_list owns_annotation (annotations a).

(** ** Soundness *)

(** A parser that, with fewer than [k] bytes left, consumes exactly the encoding
    of what it returns; on an error it may leave blocks allocated. *)
Definition leaky {A} (k : nat) (m : parser A) (owns : A → gmultiset block) (enc : A → list Z)
    (ok : A → Prop) : Prop :=
  ∀ s, stream_ok s → (length (rest s) < k)%nat →
    wp m (λ a s', adv s s' (enc a) ∧ live s' = owns a ⊎ live s ∧ ok a) (λ _ s', leaves s s') s.

Lemma adv_leaves s0 s s' bs L : adv s0 s bs → live s = L ⊎ live s0 → leaves s s' → leaves s0 s'.
Proof.
  intros Ha Hl [Hk [L' Hl']]. split; [by eapply adv_kept_trans|].
  exists (L' ⊎ L). by rewrite Hl', Hl, (assoc_L (⊎)).
Qed.

Lemma parses_leaky {A} (m : parser A) owns enc ok k : parses m owns enc ok → leaky k m owns enc ok.
Proof.
  intros Hp s Hok _. eapply wp_mono; [by apply Hp|done|]. cbv beta. intros _ s' [Hk Hl].
  split; [done|]. exists ∅. by rewrite (left_id_L ∅ (⊎)).
Qed.

Lemma run_leaky {A B} k (m : parser A) owns enc ok (f : A → parser B) s0 s bs L Q :
  run s0 s bs L → leaky k m owns enc ok → (length (rest s0) < k + length bs)%nat →
  (∀ a s', run s0 s' (bs ++ enc a) (owns a ⊎ L) → ok a → wp (f a) Q (λ _ s', leaves s0 s') s') →
  wp (bind m f) Q (λ _ s', leaves s0 s') s.
Proof.
  intros [Ha Hl] Hm Hlen Hf. pose proof (adv_length _ _ _ Ha) as Hn.
  eapply wp_seq; [apply Hm; [by destruct Ha|lia]|..]; cbv beta.
  - intros a s' (Ha' & Hl' & Hok). apply Hf; [|done]. split; [by eapply adv_trans|].
    by rewrite Hl', Hl, (assoc_L (⊎)).
  - intros _ s' Hlv. by eapply adv_leaves.
Qed.

Lemma parse_all_leaky {A} k (m : parser A) owns enc ok n :
  leaky k m owns enc ok →
  leaky k (parse_all m n) (owns_list owns) (encs enc) (λ l, Forall ok l ∧ length l = Z.to_nat n).
Proof.
  intros Hm s0 Hok Hlen. unfold parse_all. apply wp_on_error.
  set (I := λ l s, run s0 s (encs enc l) (owns_list owns l) ∧ Forall ok l).
  eapply wp_mono; [apply (wp_init_loop m I (λ _ s, leaves s0 s))|..].
  - split; [|constructor]. by apply run_start.
  - intros l s [[Ha Hl] Hl2]. pose proof (adv_length _ _ _ Ha).
    eapply wp_mono; [apply Hm; [by destruct Ha|lia]|..]; cbv beta.
    + intros a s' (Ha' & Hl' & Hoka). split; [|by apply Forall_app_2; [|constructor]].
      split; [rewrite encs_snoc; by eapply adv_trans|].
      rewrite owns_list_snoc, Hl', Hl. multiset_solver.
    + intros _ s' Hlv. by eapply adv_leaves.
  - cbv beta. intros l s [[[Ha Hl] Hl2] Hn]. split_and!; [done|done|done|by rewrite Hn].
  - cbv beta. intros l s Hlv. by apply wp_ret.
Qed.

Section sound.
Context `{AllocatorOk}.

Lemma run_raw_malloc {B} size (f : option block → parser B) s0 s bs L Q R :
  run s0 s bs L →
  (∀ p s', run s0 s' bs ({[+ p +]} ⊎ L) → wp (f (Some p)) Q R s') →
  wp (let* p := raw_malloc size in f p) Q R s.
Proof.
  intros [Ha Hl] Hf. unfold wp, bind, raw_malloc, mem_malloc. rewrite always_malloc.
  apply Hf. destruct Ha as [[] Hb Hr]. split; [by constructor; [constructor|..]|].
  unfold live in *. cbn. by rewrite Hl, (assoc_L (⊎)).
Qed.

Lemma element_value_pair_leaky k m :
  leaky k m owns_ev encode_ev ev_ok →
  leaky k (element_value_pair_parse m) (λ x, owns_ev x.2) encode_pair pair_ok.
Proof.
  intros Hm s0 Hok Hlen. pose proof (run_start _ Hok) as Hr. unfold element_value_pair_parse.
  eapply run_read; [eassumption|apply read_uint16_parses| |pleak]. intros i s1 Hr1 Hi.
  eapply run_leaky; [eassumption|exact Hm|cbn; lia|]. intros v s2 Hr2 Hv.
  unfold encode_pair. pdone. done.
Qed.

Lemma annotation_parse_leaky k m :
  leaky k m owns_ev encode_ev ev_ok →
  leaky k (annotation_parse m) owns_annotation encode_annotation annotation_ok.
Proof.
  intros Hm s0 Hok Hlen. pose proof (run_start _ Hok) as Hr. unfold annotation_parse.
  eapply run_read; [eassumption|apply read_uint16_parses| |pleak]. intros t s1 Hr1 Ht.
  eapply run_read; [eassumption|apply read_uint16_parses| |pleak]. intros n s2 Hr2 Hn.
  case_decide as E.
  - subst n. unfold encode_annotation, owns_annotation. pdone. unfold annotation_ok. cbn. by split_and!.
  - eapply run_raw_malloc; [eassumption|]. intros p s3 Hr3.
    eapply run_leaky; [eassumption|by apply parse_all_leaky, element_value_pair_leaky|lia|].
    intros l s4 Hr4 [Hl Hll]. unfold encode_annotation, owns_annotation.
    apply wp_ret. eapply run_done; [eassumption|psolve_enc|cbn [owns_ptr pairs_ptr element_value_pairs]; psolve_own|].
    unfold annotation_ok. cbn. split_and!; [done|done|clia|done].
Qed.

Lemma element_value_parse_leaky k :
  leaky k (cafebabe_element_value_parse k) owns_ev encode_ev ev_ok.
Proof.
  induction k as [|k IH]; [intros s _ ?; lia|].
  intros s0 Hok Hlen. pose proof (run_start _ Hok) as Hr. cbn [cafebabe_element_value_parse].
  eapply run_read; [eassumption|apply read_uint8_parses| |pleak]. intros tag s1 Hr1 Htag.
  case_decide as C1.
  { eapply run_read; [eassumption|apply read_uint16_parses| |pleak]. intros i s2 Hr2 Hi.
    apply wp_ret. eapply run_done; [eassumption|by cbn|done|by constructor]. }
  case_decide as C2.
  { eapply run_read; [eassumption|apply read_uint16_parses| |pleak]. intros i s2 Hr2 Hi.
    eapply run_read; [eassumption|apply read_uint16_parses| |pleak]. intros j s3 Hr3 Hj.
    subst tag. apply wp_ret. eapply run_done; [eassumption|cbn; psolve_enc|done|by constructor]. }
  case_decide as C3.
  { eapply run_read; [eassumption|apply read_uint16_parses| |pleak]. intros i s2 Hr2 Hi.
    subst tag. apply wp_ret. eapply run_done; [eassumption|by cbn|done|by constructor]. }
  case_decide as C4.
  { subst tag. eapply run_raw_malloc; [eassumption|]. intros q s2 Hr2.
    eapply run_leaky; [eassumption|by apply annotation_parse_leaky|cbn in *; lia|].
    intros [t n p pairs] s3 Hr3 (Ht & Hn & Hlen3 & Hp). apply wp_ret.
    eapply run_done; [eassumption| | |].
    - unfold encode_annotation. cbn -[encs be16]. reflexivity.
    - unfold owns_annotation. cbn [owns_ev type_index pairs_ptr element_value_pairs]. multiset_solver.
    - constructor; try done; (eapply Forall_impl; [|exact Hp]); by intros x []. }
  case_decide as C5.
  { subst tag. eapply run_read; [eassumption|apply read_uint16_parses| |pleak]. intros n s2 Hr2 Hn.
    eapply run_raw_malloc; [eassumption|]. intros q s3 Hr3.
    eapply run_leaky; [eassumption|by apply parse_all_leaky|cbn in *; lia|].
    intros l s4 Hr4 [Hl Hll]. apply wp_ret. eapply run_done; [eassumption| | |].
    - reflexivity.
    - cbn [owns_ev owns_ptr]. multiset_solver.
    - constructor; [done|clia|done]. }
  apply wp_fail. destruct Hr1 as [Ha Hl]. split; [|by exists ∅]. destruct Ha. done.
Qed.
End sound.

(** ** Reading back an encoding *)

(** An element value with its block names erased. *)
Fixpoint strip_ev (v : cafebabe_element_value) : cafebabe_element_value :=
  match v with
  | EVAnnotation _ t n _ pairs =>
    EVAnnotation O t n None ((λ x : Z * cafebabe_element_value, (x.1, strip_ev x.2)) <$> pairs)
  | EVArray n _ vs => EVArray n None (strip_ev <$> vs)
  | v => v
  end.
Definition strip_pair (x : Z * cafebabe_element_value) : Z * cafebabe_element_value :=
  (x.1, strip_ev x.2).
Definition strip_annotation (a : cafebabe_annotation) : cafebabe_annotation :=
  Annotation (type_index a) (num_element_value_pairs a) None (strip_pair <$> element_value_pairs a).

(** The same value in other blocks. *)
Definition ev_eq (v w : cafebabe_element_value) : Prop := strip_ev v = strip_ev w.
Definition pair_eq (x y : Z * cafebabe_element_value) : Prop := strip_pair x = strip_pair y.
Definition annotation_eq (a b : cafebabe_annotation) : Prop := strip_annotation a = strip_annotation b.

Lemma strip_fmap {A} (f : A → A) (l l' : list A) :
  Forall2 (λ x y, f x = f y) l l' → f <$> l = f <$> l'.
Proof. induction 1 as [|x y l l' E _ IH]; cbn; [done|]. by rewrite E, IH. Qed.

Lemma encs_length_le {A} (enc : A → list Z) (l : list A) :
  Forall (λ x, length (enc x) <= length (encs enc l))%nat l.
Proof.
  induction l as [|a l IH]; constructor; rewrite encs_cons, length_app; [lia|].
  eapply Forall_impl; [|exact IH]. cbv beta. lia.
Qed.

(** What is read back with at most [k] bytes of encoding. *)
Definition backs {A} (k : nat) (m : parser A) (enc : A → list Z) (ok : A → Prop)
    (rel : A → A → Prop) : Prop :=
  reads_back m enc (λ a, ok a ∧ (length (enc a) <= k)%nat) rel.

Lemma Forall_bounded {A} (enc : A → list Z) (ok : A → Prop) (l : list A) k :
  Forall ok l → (length (encs enc l) <= k)%nat → Forall (λ a, ok a ∧ (length (enc a) <= k)%nat) l.
Proof.
  intros Hok Hk. pose proof (encs_length_le enc l) as Hb.
  rewrite Forall_forall in *. intros a Ha. split; [auto|]. specialize (Hb a Ha). cbv beta in Hb. lia.
Qed.

Section back.
Context `{AllocatorOk}.

Lemma back_raw_malloc {B} size (f : option block → parser B) s Q :
  stream_ok s →
  (∀ p s', stream_ok s' → rest s' = rest s → wp (f (Some p)) Q (λ _ _, False) s') →
  wp (let* p := raw_malloc size in f p) Q (λ _ _, False) s.
Proof.
  intros [] Hf. unfold wp, bind, raw_malloc, mem_malloc. rewrite always_malloc.
  apply Hf; [by constructor|done].
Qed.

Lemma element_value_pair_back k m :
  backs k m encode_ev ev_ok ev_eq →
  backs k (element_value_pair_parse m) encode_pair pair_ok pair_eq.
Proof.
  intros Hm s [i v] r Hok [[Hi Hv] Hlen] Hr. cbn in *. unfold encode_pair in *. cbn in *.
  rewrite length_app in Hlen. rewrite <- (assoc_L (++)) in Hr.
  unfold element_value_pair_parse. pback x.
  eapply back_read; [done|eassumption|exact Hm|split; [done|lia]|].
  intros w s2 Hok2 Hr2 Hw. apply wp_ret. split_and!; [done..|].
  unfold pair_eq, strip_pair. cbn. by rewrite Hw.
Qed.

Lemma annotation_parse_back k m :
  backs k m encode_ev ev_ok ev_eq →
  backs k (annotation_parse m) encode_annotation annotation_ok annotation_eq.
Proof.
  intros Hm s [t n p pairs] r Hok [(Ht & Hn & Hlen & Hp) Hk] Hr. cbn in Ht, Hn, Hlen, Hp.
  unfold encode_annotation in *. cbn -[encs be16] in Hr, Hk. rewrite !length_app in Hk.
  rewrite <- !(assoc_L (++)) in Hr. unfold annotation_parse. pback x. pback y. case_decide as E.
  - subst n. destruct pairs; [|done]. apply wp_ret. done.
  - eapply back_raw_malloc; [done|]. intros q s2 Hok2 Hr2. rewrite Hrest0 in Hr2.
    eapply back_array; [done|exact Hr2|by apply element_value_pair_back, Hm|
                        apply Forall_bounded; [done|lia]|lia|].
    intros l s3 Hok3 Hr3 Heq. apply wp_ret. split_and!; [done..|].
    unfold annotation_eq, strip_annotation. cbn. f_equal. by apply strip_fmap.
Qed.

Lemma element_value_parse_back k :
  backs k (cafebabe_element_value_parse k) encode_ev ev_ok ev_eq.
Proof.
  induction k as [|k IH]; intros s v r Hok [Hv Hk] Hr; [by destruct v; cbn in Hk; lia|].
  cbn [cafebabe_element_value_parse].
  inversion Hv as [tag i Htag Hi|i j Hi Hj|i Hi|q t n p pairs Ht Hn Hlen Hp1 Hp2|n p vs Hn Hlen Hvs];
    subst v; cbn -[encs be16] in Hr, Hk.
  - eapply back_tag; [done| |exact Hr|].
    { unfold const_tags in Htag. by repeat (apply elem_of_cons in Htag as [->|Htag]; [done|]);
        apply elem_of_nil in Htag. }
    intros s1 Hok1 Hr1. rewrite decide_True by done. pback x. done.
  - rewrite <- (assoc_L (++)) in Hr. eapply back_tag; [done| |exact Hr|]; [done|]. intros s1 Hok1 Hr1.
    cbn -[be16]. pback x. pback y. done.
  - eapply back_tag; [done| |exact Hr|]; [done|]. intros s1 Hok1 Hr1. cbn -[be16]. pback x. done.
  - eapply back_tag; [done| |exact Hr|]; [done|]. intros s1 Hok1 Hr1. cbn -[be16 annotation_parse].
    eapply back_raw_malloc; [done|]. intros q' s2 Hok2 Hr2. rewrite Hr1 in Hr2.
    eapply (back_read _ encode_annotation _ _ _ (Annotation t n p pairs)); [done|exact Hr2|by apply annotation_parse_back, IH| |].
    + split; [|exact (le_S_n _ _ Hk)]. split_and!; try done.
      eapply Forall_and; done.
    + intros [t' n' p' pairs'] s3 Hok3 Hr3 [= -> -> E]. apply wp_ret. split_and!; [done..|].
      unfold ev_eq. cbn. f_equal. exact E.
  - eapply back_tag; [done| |exact Hr|]; [done|]. intros s1 Hok1 Hr1. cbn -[be16 parse_all].
    rewrite <- (assoc_L (++)) in Hr1. pback x.
    eapply back_raw_malloc; [done|]. intros q' s2 Hok2 Hr2. rewrite Hrest in Hr2.
    rewrite length_app in Hk.
    eapply back_array; [done|exact Hr2|exact IH|apply Forall_bounded; [done|lia]|lia|].
    intros l s3 Hok3 Hr3 Heq. apply wp_ret. split_and!; [done..|].
    unfold ev_eq. cbn. f_equal. by apply strip_fmap.
Qed.
End back.

(** ** The attribute *)

Section attribute.
Context `{AllocatorOk}.

Lemma cafebabe_annotation_parse_leaky k :
  leaky k cafebabe_annotation_parse owns_annotation encode_annotation annotation_ok.
Proof.
  intros s Hok _. unfold cafebabe_annotation_parse. apply wp_bind, wp_get.
  apply (annotation_parse_leaky (S (length (rest s)))); [apply element_value_parse_leaky|done|lia].
Qed.

Lemma annotations_attribute_init_wp s0 : stream_ok s0 →
  wp cafebabe_annotations_attribute_init
     (λ a s, adv s0 s (encode_annotations a) ∧ live s = owns_annotations a ⊎ live s0 ∧ annotations_ok a)
     (λ _ s, leaves s0 s) s0.
Proof.
  intros Hok. pose proof (run_start _ Hok) as Hr. unfold cafebabe_annotations_attribute_init.
  eapply run_read; [eassumption|apply read_uint16_parses| |pleak]. intros n s1 Hr1 Hn. case_decide as E.
  - subst n. unfold encode_annotations, owns_annotations. pdone. by split_and!.
  - eapply run_raw_malloc; [eassumption|]. intros q s2 Hr2.
    eapply (run_leaky (S (length (rest s0)))); [eassumption| |lia|].
    { apply parse_all_leaky, cafebabe_annotation_parse_leaky. }
    intros l s3 Hr3 [Hl Hll]. apply wp_ret. unfold encode_annotations, owns_annotations.
    eapply run_done; [eassumption|psolve_enc|cbn [owns_ptr annotations_ptr annotations]; psolve_own|].
    split_and!; cbn; [done|clia|done].
Qed.

Lemma cafebabe_annotation_parse_back :
  reads_back cafebabe_annotation_parse encode_annotation annotation_ok annotation_eq.
Proof.
  intros s a r Hok Ha Hr. unfold cafebabe_annotation_parse. apply wp_bind, wp_get.
  apply (annotation_parse_back (S (length (rest s))) _ (element_value_parse_back _)); [done| |done].
  split; [done|]. rewrite Hr, length_app. lia.
Qed.

Lemma annotations_attribute_init_back s a r :
  stream_ok s → annotations_ok a → rest s = encode_annotations a ++ r →
  wp cafebabe_annotations_attribute_init
     (λ a' s', rest s' = r ∧ num_annotations a' = num_annotations a ∧
               Forall2 annotation_eq (annotations a) (annotations a'))
     (λ _ _, False) s.
Proof.
  destruct a as [n p l]. intros Hok (Hn & Hlen & Hl) Hr. cbn in Hn, Hlen, Hl.
  unfold encode_annotations in Hr. cbn -[encs be16] in Hr. rewrite <- (assoc_L (++)) in Hr.
  unfold cafebabe_annotations_attribute_init. pback x. case_decide as E.
  - subst n. destruct l; [|done]. by apply wp_ret.
  - eapply back_raw_malloc; [done|]. intros q s2 Hok2 Hr2. rewrite Hrest in Hr2.
    eapply back_array; [done|exact Hr2|apply cafebabe_annotation_parse_back|done|lia|].
    intros l' s3 Hok3 Hr3 Heq. by apply wp_ret.
Qed.
End attribute.

(** What deinit releases of an annotation, and what it leaves. *)
Definition freed_pair (x : Z * cafebabe_element_value) : gmultiset block :=
  match x.2 with EVAnnotation p _ _ _ _ => {[+ p +]} | _ => ∅ end.
Definition left_pair (x : Z * cafebabe_element_value) : gmultiset block :=
  match x.2 with
  | EVAnnotation _ _ _ p pairs => owns_ptr p ⊎ owns_list (λ y, owns_ev y.2) pairs
  | EVArray _ p vs => owns_ptr p ⊎ owns_list owns_ev vs
  | _ => ∅
  end.
Definition left_annotation (a : cafebabe_annotation) : gmultiset block :=
  owns_list left_pair (element_value_pairs a).

Lemma owns_list_split {A} (f g h : A → gmultiset block) l :
  (∀ a, f a = g a ⊎ h a) → owns_list f l = owns_list g l ⊎ owns_list h l.
Proof.
  intros Hf. induction l as [|a l IH]; [by rewrite !owns_list_nil, (left_id_L ∅ (⊎))|].
  rewrite !owns_list_cons, IH, Hf. multiset_solver.
Qed.

Lemma owns_ev_split x : owns_ev x.2 = freed_pair x ⊎ left_pair x.
Proof.
  destruct x as [i []]; unfold freed_pair, left_pair; cbn [snd owns_ev];
    by rewrite ?(left_id_L ∅ (⊎)).
Qed.

Lemma free_ptr_frees : frees free_ptr owns_ptr.
Proof.
  intros [p|] s l Hl; [by apply free_block_frees|]. cbn in Hl.
  by rewrite (left_id_L ∅ (⊎)) in Hl.
Qed.

Lemma element_value_pair_free_frees : frees element_value_pair_free freed_pair.
Proof.
  intros [i v] s l Hl. unfold element_value_pair_free, freed_pair in *. cbn in *.
  destruct v; try (rewrite (left_id_L ∅ (⊎)) in Hl; done). by apply free_block_frees.
Qed.

Lemma annotation_free_frees :
  frees cafebabe_annotation_free (λ a, owns_list freed_pair (element_value_pairs a) ⊎ owns_ptr (pairs_ptr a)).
Proof.
  apply (frees_seq (λ a, for_each element_value_pair_free (element_value_pairs a))
    (λ a, free_ptr (pairs_ptr a)) (λ a, owns_list freed_pair (element_value_pairs a))
    (λ a, owns_ptr (pairs_ptr a))).
  - intros a. apply for_each_frees, element_value_pair_free_frees.
  - intros a. apply free_ptr_frees.
Qed.

Lemma annotations_attribute_deinit_wp a s l :
  live s = owns_annotations a ⊎ l →
  wp (cafebabe_annotations_attribute_deinit a)
     (λ _ s', live s' = owns_list left_annotation (annotations a) ⊎ l) (λ _ _, False) s.
Proof.
  intros Hl. unfold cafebabe_annotations_attribute_deinit, owns_annotations in *.
  rewrite (owns_list_split owns_annotation (λ a, owns_list freed_pair (element_value_pairs a) ⊎
    owns_ptr (pairs_ptr a)) left_annotation) in Hl.
  2:{ intros b. unfold owns_annotation, left_annotation.
      rewrite (owns_list_split _ _ _ _ owns_ev_split). multiset_solver. }
  eapply (frees_then _ _ _ _ _ (owns_ptr (annotations_ptr a) ⊎
    (owns_list left_annotation (annotations a) ⊎ l)));
    [apply for_each_frees, annotation_free_frees|rewrite Hl; multiset_solver|].
  intros s2 _ Hl2. eapply wp_mono; [by apply free_ptr_frees| |done]. by intros _ s3 [_ ?].
Qed.

(** ** Theorems *)

(** One annotation of type 1 with one pair: name 2, an array of one string. *)
Definition annotation_bytes : list Z := [0; 1; 0; 1; 0; 1; 0; 2; 91; 0; 1; 115; 0; 3].

(** C32: when memory is available, [cafebabe_annotations_attribute_init] returns,
    however deeply the annotations nest, and never has undefined behaviour.  When
    it succeeds it has consumed exactly the encoding of the annotations it
    returns, and what is allocated is what they own. *)
Theorem cafebabe_annotations_init_correct `{AllocatorOk} s :
  stream_ok s →
  match cafebabe_annotations_attribute_init s with
  | Done a s' =>
    rest s = encode_annotations a ++ rest s' ∧ annotations_ok a ∧
    live s' = owns_annotations a ⊎ live s
  | Fail _ s' => ∃ L, live s' = L ⊎ live s
  | Undef => False
  end.
Proof.
  intros Hs. pose proof (annotations_attribute_init_wp s Hs) as H1. unfold wp in H1.
  destruct (cafebabe_annotations_attribute_init s) as [a s'|e s'|]; [|by destruct H1|done].
  by destruct H1 as ([_ _ ?] & ? & ?).
Qed.
Lemma cafebabe_annotations_init_correct_witness :
  match @cafebabe_annotations_attribute_init always (stream_of annotation_bytes) with
  | Done a s' => annotation_bytes = encode_annotations a ++ rest s' ∧ annotations_ok a
  | _ => False
  end.
Proof.
  pose proof (@cafebabe_annotations_init_correct always (λ _ _, eq_refl) (stream_of annotation_bytes)) as H.
  assert (∃ a s', @cafebabe_annotations_attribute_init always (stream_of annotation_bytes) = Done a s')
    as (a & s' & E) by (eexists _, _; vm_compute; reflexivity).
  rewrite E in *. destruct H as (H1 & H2 & _).
  - apply stream_of_ok; [repeat constructor; lia|done].
  - exact (conj H1 H2).
Defined.

(** C33: when memory is available, [cafebabe_annotations_attribute_init] reads back
    the encoding of every well formed list of annotations, up to the blocks they
    are stored in. *)
Theorem cafebabe_annotations_init_reads_back `{AllocatorOk} s a r :
  stream_ok s → annotations_ok a → rest s = encode_annotations a ++ r →
  ∃ a' s', cafebabe_annotations_attribute_init s = Done a' s' ∧ rest s' = r ∧
    Forall2 annotation_eq (annotations a) (annotations a').
Proof.
  intros Hs Ha Hr. pose proof (annotations_attribute_init_back s a r Hs Ha Hr) as H1. unfold wp in H1.
  destruct (cafebabe_annotations_attribute_init s) as [a' s'|e s'|]; [|done..].
  exists a', s'. by destruct H1 as (? & _ & ?).
Qed.
Lemma cafebabe_annotations_init_reads_back_witness :
  ∃ a' s', @cafebabe_annotations_attribute_init always (stream_of annotation_bytes) = Done a' s' ∧
    rest s' = [] ∧
    Forall2 annotation_eq [Annotation 1 1 None [(2, EVArray 1 None [EVConst 115 3])]] (annotations a').
Proof.
  apply (@cafebabe_annotations_init_reads_back always (λ _ _, eq_refl) (stream_of annotation_bytes)
    (AnnotationsAttribute 1 None [Annotation 1 1 None [(2, EVArray 1 None [EVConst 115 3])]]) []).
  - apply stream_of_ok; [repeat constructor; lia|done].
  - split_and!; [cbn; clia|reflexivity|]. constructor; [|constructor].
    split_and!; [cbn; clia|cbn; clia|reflexivity|]. constructor; [|constructor].
    split; [cbn; clia|]. constructor; [clia|reflexivity|]. constructor; [|constructor].
    constructor; [set_solver|clia].
  - reflexivity.
Defined.

(** [cafebabe_annotations_attribute_deinit] of what init returned releases
    every block at most once, and leaves allocated exactly what array values and
    nested annotations point to. *)
Theorem cafebabe_annotations_deinit_leaves `{AllocatorOk} s a s' :
  stream_ok s → cafebabe_annotations_attribute_init s = Done a s' →
  ∃ s'', cafebabe_annotations_attribute_deinit a s' = Done tt s'' ∧
    live s'' = owns_list left_annotation (annotations a) ⊎ live s.
Proof.
  intros Hs E. pose proof (annotations_attribute_init_wp s Hs) as H1. unfold wp in H1. rewrite E in H1.
  destruct H1 as (_ & Hl & _). pose proof (annotations_attribute_deinit_wp a s' (live s) Hl) as H2.
  unfold wp in H2. destruct (cafebabe_annotations_attribute_deinit a s') as [[] s''| |]; [|done..].
  by exists s''.
Qed.
Lemma cafebabe_annotations_deinit_leaves_witness :
  ∃ a s' s'', @cafebabe_annotations_attribute_init always (stream_of annotation_bytes) = Done a s' ∧
    cafebabe_annotations_attribute_deinit a s' = Done tt s'' ∧ live s'' ≠ ∅.
Proof.
  assert (∃ a s', @cafebabe_annotations_attribute_init always (stream_of annotation_bytes) = Done a s' ∧
    owns_list left_annotation (annotations a) ≠ ∅) as (a & s' & E & Ho).
  { eexists _, _. split; [vm_compute; reflexivity|].
    cbn [owns_list annotations foldr left_annotation element_value_pairs left_pair snd owns_ptr].
    multiset_solver. }
  destruct (@cafebabe_annotations_deinit_leaves always (λ _ _, eq_refl) (stream_of annotation_bytes) a s')
    as (s'' & H1 & H2).
  - apply stream_of_ok; [repeat constructor; lia|done].
  - exact E.
  - exists a, s', s''. split; [exact E|]. split; [exact H1|]. rewrite H2. multiset_solver.
Defined.

(** Every request but the first two fails. *)
Definition two_blocks : Allocator := λ n _, Nat.ltb n 2.

(** the result of the calloc for an array value is not checked: when it
    fails, [cafebabe_annotations_attribute_init] writes through a null pointer. *)
Theorem cafebabe_annotations_array_out_of_memory :
  @cafebabe_annotations_attribute_init two_blocks (stream_of annotation_bytes) = Undef.
Proof. vm_compute. reflexivity. Qed.
