(* ===== verification/Bitset.v ===== *)
(** * lib/bitset.c: arrays of bits

    A bitset is the source's array of 64-bit words.  An access outside the array
    is undefined behaviour and gives [None].  The specification is the function
    from bit numbers to booleans that [bit_at] reads off the words. *)

From S2P Require Import Prelude CMonad.
#[local] Open Scope Z_scope.

Definition BITS_PER_LONG : Z := 64.
Definition BYTES_PER_LONG : Z := 8.
Definition BITS_PER_BYTE : Z := 8.

Record bitset := Bitset { nr_bits : Z; size : Z; bits : list Z }.

(** ** Operations *)

(** ALIGN(x, a) in unsigned long. *)
Definition align (x a : Z) : Z := Z.land (u64 (x + a - 1)) (u64 (Z.lnot (a - 1))).

(** A null result is the error return. *)
Definition alloc_bitset `{Allocator} (nr : Z) : M mem unit bitset := λ h,
  let sz := align nr BITS_PER_LONG / BITS_PER_BYTE in
  match mem_malloc (16 + sz) h with
  | (Some _, h') => Done (Bitset nr sz (replicate (Z.to_nat (sz / BYTES_PER_LONG)) 0)) h'
  | (None, h') => Fail tt h'
  end.

Definition bit_mask (bit : Z) : Z := u64 (Z.shiftl 1 (Z.land bit (BITS_PER_LONG - 1))).
Definition word_index (bit : Z) : nat := Z.to_nat (bit / BITS_PER_LONG).

Definition set_bit (bs : list Z) (bit : Z) : option (list Z) :=
  w ← bs !! word_index bit; Some (<[word_index bit := Z.lor w (bit_mask bit)]> bs).
Definition clear_bit (bs : list Z) (bit : Z) : option (list Z) :=
  w ← bs !! word_index bit;
  Some (<[word_index bit := Z.land w (u64 (Z.lnot (bit_mask bit)))]> bs).
Definition test_bit (bs : list Z) (bit : Z) : option bool :=
  w ← bs !! word_index bit; Some (negb (Z.land w (bit_mask bit) =? 0)).

(** [for (i = 0; i < n; i++) dest[i] = f(dest[i], src[i]);] with [n] iterations left. *)
Fixpoint words_loop (f : Z → Z → Z) (n i : nat) (src dest : list Z) : option (list Z) :=
  match n with
  | O => Some dest
  | S n' =>
    d ← dest !! i; s ← src !! i;
    words_loop f n' (S i) src (<[i := f d s]> dest)
  end.

(** The number of iterations of the loops over two bitsets. *)
Definition words_of (from to : bitset) : nat := Z.to_nat (Z.max (size from) (size to) / BYTES_PER_LONG).

Definition with_bits (b : bitset) (bs : list Z) : bitset := Bitset (nr_bits b) (size b) bs.

Definition bitset_union_to (from to : bitset) : option bitset :=
  with_bits to <$> words_loop (λ d s, Z.lor d s) (words_of from to) 0 (bits from) (bits to).
Definition bitset_sub (from to : bitset) : option bitset :=
  with_bits to <$> words_loop (λ d s, Z.land d (u64 (Z.lnot s))) (words_of from to) 0 (bits from) (bits to).

Fixpoint equal_loop (n i : nat) (src dest : list Z) : option bool :=
  match n with
  | O => Some true
  | S n' =>
    d ← dest !! i; s ← src !! i;
    if decide (d ≠ s) then Some false else equal_loop n' (S i) src dest
  end.
Definition bitset_equal (from to : bitset) : option bool :=
  equal_loop (words_of from to) 0 (bits from) (bits to).

(** memset and memcpy of whole words. *)
Definition bitset_clear_all (b : bitset) : bitset :=
  with_bits b (replicate (Z.to_nat (size b / BYTES_PER_LONG)) 0).
Definition bitset_set_all (b : bitset) : bitset :=
  with_bits b (replicate (Z.to_nat (size b / BYTES_PER_LONG)) (2 ^ 64 - 1)).
Definition bitset_copy_to (from to : bitset) : bitset :=
  let n := Z.to_nat (Z.min (size from) (size to) / BYTES_PER_LONG) in
  with_bits to (take n (bits from) ++ drop n (bits to)).

(** ffsl(3): one more than the number of the lowest set bit, 0 if there is none. *)
Fixpoint ffsl_from (fuel : nat) (k w : Z) : Z :=
  match fuel with
  | O => 0
  | S fuel' => if Z.testbit w k then k + 1 else ffsl_from fuel' (k + 1) w
  end.
Definition ffsl (w : Z) : Z := ffsl_from 64 0 w.

(** The label [found]: the result is converted to int. *)
Definition ffs_found (b : bitset) (tmp start : Z) : Z :=
  let ret := u64 (ffsl tmp + u64 (start - 1)) in
  if decide (ret < nr_bits b) then s32 ret else -1.

Fixpoint ffs_loop (fuel : nat) (b : bitset) (start : Z) (i : nat) : option Z :=
  match fuel with
  | O => None
  | S fuel' =>
    if decide (start < nr_bits b) then
      tmp ← bits b !! i;
      if decide (tmp ≠ 0) then Some (ffs_found b tmp start)
      else ffs_loop fuel' b (u64 (start + BITS_PER_LONG)) (S i)
    else Some (-1)
  end.

(** One more iteration than there are words is enough. *)
Definition bitset_ffs_from (b : bitset) (ndx : Z) : option Z :=
  let unaligned := u64 ndx mod BITS_PER_LONG in
  let start := Z.land (u64 ndx) (u64 (Z.lnot (BITS_PER_LONG - 1))) in
  let i := Z.to_nat (start / BITS_PER_LONG) in
  let mask := u64 (u64 (Z.shiftl 1 unaligned) - 1) in
  w ← bits b !! i;
  let tmp := Z.land w (u64 (Z.lnot mask)) in
  if decide (tmp ≠ 0) then Some (ffs_found b tmp start)
  else ffs_loop (S (length (bits b))) b (u64 (start + BITS_PER_LONG)) (S i).

Definition bitset_ffs (b : bitset) : option Z := bitset_ffs_from b 0.

(** ** Specification *)

Definition bit_at (bs : list Z) (k : Z) : bool :=
  Z.testbit (default 0 (bs !! word_index k)) (k mod BITS_PER_LONG).

(** Bits that exist in the array. *)
Definition in_words (bs : list Z) (k : Z) : Prop := 0 <= k < 64 * Z.of_nat (length bs).

Record bitset_ok (b : bitset) : Prop := {
  ok_words : Forall is_u64 (bits b);
  ok_size : size b = 8 * Z.of_nat (length (bits b));
  ok_nr : 0 <= nr_bits b <= 64 * Z.of_nat (length (bits b));
  ok_tight : 64 * Z.of_nat (length (bits b)) < nr_bits b + 64;
  ok_small : nr_bits b < 2 ^ 31;
}.

Lemma testbit_u64_lnot w k : 0 <= k < 64 → Z.testbit (u64 (Z.lnot w)) k = negb (Z.testbit w k).
Proof. intros Hk. unfold u64. rewrite Z.mod_pow2_bits_low by lia. apply Z.lnot_spec. lia. Qed.

Lemma land_63 k : Z.land k (BITS_PER_LONG - 1) = k mod 64.
Proof. change (BITS_PER_LONG - 1) with (Z.ones 6). by rewrite Z.land_ones by lia. Qed.

Lemma bit_mask_spec k j : 0 <= k → 0 <= j → Z.testbit (bit_mask k) j = bool_decide (j = k mod 64).
Proof.
  intros Hk Hj. unfold bit_mask. rewrite land_63. pose proof (Z.mod_pos_bound k 64 eq_refl).
  unfold u64. destruct (decide (j < 64)).
  - rewrite Z.mod_pow2_bits_low by lia. rewrite Z.shiftl_spec by lia.
    case_bool_decide as E.
    + by rewrite E, Z.sub_diag.
    + destruct (decide (j < k mod 64)); [by rewrite Z.testbit_neg_r by lia|].
      change 1 with (2 ^ 0). rewrite Z.pow2_bits_false by lia. done.
  - rewrite Z.mod_pow2_bits_high by lia. symmetry. apply bool_decide_eq_false. lia.
Qed.

Lemma land_mask_zero w k : 0 <= k →
  Z.land w (bit_mask k) = 0 ↔ Z.testbit w (k mod 64) = false.
Proof.
  intros Hk. pose proof (Z.mod_pos_bound k 64 eq_refl). split.
  - intros E. assert (Z.testbit (Z.land w (bit_mask k)) (k mod 64) = false) as T by (rewrite E; apply Z.bits_0).
    rewrite Z.land_spec, bit_mask_spec, bool_decide_true in T by lia. by rewrite andb_true_r in T.
  - intros E. apply Z.bits_inj'. intros j Hj. rewrite Z.bits_0, Z.land_spec, bit_mask_spec by lia.
    case_bool_decide as Ej; [|by rewrite andb_false_r]. by rewrite Ej, E.
Qed.

(** ** Single bits *)

Lemma word_index_lt bs k : in_words bs k → (word_index k < length bs)%nat.
Proof.
  intros [H0 H1]. unfold word_index, BITS_PER_LONG.
  assert (k / 64 < Z.of_nat (length bs)) by (apply Z.div_lt_upper_bound; lia).
  assert (0 <= k / 64) by (apply Z.div_pos; lia). lia.
Qed.

Lemma in_words_lookup bs k : in_words bs k → ∃ w, bs !! word_index k = Some w.
Proof. intros H%word_index_lt. by apply lookup_lt_is_Some_2. Qed.

Lemma bit_eq j k : 0 <= j → 0 <= k → j = k ↔ word_index j = word_index k ∧ j mod 64 = k mod 64.
Proof.
  intros Hj Hk. split; [by intros ->|]. unfold word_index, BITS_PER_LONG. intros [E1 E2].
  assert (0 <= j / 64) by (apply Z.div_pos; lia). assert (0 <= k / 64) by (apply Z.div_pos; lia).
  rewrite (Z.div_mod j 64), (Z.div_mod k 64), E2 by lia. lia.
Qed.

Lemma bit_at_insert bs k j w : (word_index k < length bs)%nat →
  bit_at (<[word_index k := w]> bs) j =
  if decide (word_index j = word_index k) then Z.testbit w (j mod 64) else bit_at bs j.
Proof.
  intros Hk. unfold bit_at, BITS_PER_LONG. case_decide as E.
  - by rewrite E, list_lookup_insert_eq.
  - by rewrite list_lookup_insert_ne.
Qed.

Lemma set_bit_spec bs k : in_words bs k →
  ∃ bs', set_bit bs k = Some bs' ∧ length bs' = length bs ∧
    ∀ j, 0 <= j → bit_at bs' j = bool_decide (j = k) || bit_at bs j.
Proof.
  intros Hk. pose proof (word_index_lt _ _ Hk) as Hlt. destruct (in_words_lookup _ _ Hk) as [w Hw].
  unfold set_bit. rewrite Hw. eexists. split; [done|]. split; [by rewrite length_insert|].
  intros j Hj. rewrite bit_at_insert by done. destruct Hk as [Hk _]. case_decide as E.
  - rewrite Z.lor_spec, bit_mask_spec by (try apply Z.mod_pos_bound; lia).
    unfold bit_at, BITS_PER_LONG. rewrite E, Hw. cbn. rewrite orb_comm. f_equal.
    apply bool_decide_ext. rewrite (bit_eq j k) by lia. tauto.
  - rewrite bool_decide_false; [done|]. intros ->. done.
Qed.

Lemma clear_bit_spec bs k : in_words bs k →
  ∃ bs', clear_bit bs k = Some bs' ∧ length bs' = length bs ∧
    ∀ j, 0 <= j → bit_at bs' j = negb (bool_decide (j = k)) && bit_at bs j.
Proof.
  intros Hk. pose proof (word_index_lt _ _ Hk) as Hlt. destruct (in_words_lookup _ _ Hk) as [w Hw].
  unfold clear_bit. rewrite Hw. eexists. split; [done|]. split; [by rewrite length_insert|].
  intros j Hj. rewrite bit_at_insert by done. destruct Hk as [Hk _].
  pose proof (Z.mod_pos_bound j 64 eq_refl). case_decide as E.
  - rewrite Z.land_spec, testbit_u64_lnot, bit_mask_spec by lia.
    unfold bit_at, BITS_PER_LONG. rewrite E, Hw. cbn. rewrite andb_comm. do 2 f_equal.
    apply bool_decide_ext. rewrite (bit_eq j k) by lia. tauto.
  - rewrite bool_decide_false; [done|]. intros ->. done.
Qed.

Lemma test_bit_spec bs k : in_words bs k → test_bit bs k = Some (bit_at bs k).
Proof.
  intros Hk. destruct (in_words_lookup _ _ Hk) as [w Hw]. unfold test_bit, bit_at, BITS_PER_LONG.
  rewrite Hw. cbn. f_equal. destruct Hk as [Hk _].
  pose proof (land_mask_zero w k Hk) as Hz. destruct (Z.land w (bit_mask k) =? 0) eqn:E.
  - apply Z.eqb_eq in E. by rewrite (proj1 Hz E).
  - apply Z.eqb_neq in E. symmetry. cbn. destruct (Z.testbit w (k mod 64)) eqn:T; [done|].
    by rewrite (proj2 Hz eq_refl) in E.
Qed.

(** ** Whole bitsets *)

Lemma words_loop_spec f src : ∀ n i dest, (i + n <= length src)%nat → (i + n <= length dest)%nat →
  ∃ r, words_loop f n i src dest = Some r ∧ length r = length dest ∧
    ∀ k, r !! k = if decide (i <= k < i + n)%nat
                  then d ← dest !! k; s ← src !! k; Some (f d s) else dest !! k.
Proof.
  induction n as [|n IH]; intros i dest Hs Hd.
  - exists dest. split_and!; [done..|]. intros k. by rewrite decide_False by lia.
  - destruct (lookup_lt_is_Some_2 dest i) as [d Ed]; [lia|].
    destruct (lookup_lt_is_Some_2 src i) as [s Es]; [lia|].
    cbn. rewrite Ed, Es. cbn. destruct (IH (S i) (<[i := f d s]> dest)) as (r & -> & Hl & Hr).
    + lia.
    + rewrite length_insert. lia.
    + exists r. split_and!; [done|by rewrite Hl, length_insert|]. intros k. rewrite Hr.
      destruct (decide (k = i)) as [->|Hne].
      * rewrite decide_False by lia. rewrite decide_True by lia.
        rewrite list_lookup_insert_eq by lia. by rewrite Ed, Es.
      * rewrite list_lookup_insert_ne by done. repeat case_decide; lia || done.
Qed.

(** The loops read past the end of the shorter array. *)
Lemma words_loop_overrun f src : ∀ n i dest,
  (length src < i + n ∨ length dest < i + n)%nat → words_loop f n i src dest = None ∨ n = O.
Proof.
  induction n as [|n IH]; intros i dest H; [by right|]. left. cbn.
  destruct (dest !! i) as [d|] eqn:Ed; [|done]. destruct (src !! i) as [s|] eqn:Es; [|done]. cbn.
  apply lookup_lt_Some in Ed, Es.
  destruct (IH (S i) (<[i := f d s]> dest)) as [->| ->]; [rewrite length_insert; lia|done|]. lia.
Qed.

Lemma bit_at_words f g bs src r :
  length src = length bs → length r = length bs →
  (∀ k, r !! k = d ← bs !! k; s ← src !! k; Some (f d s)) →
  (∀ d s j, 0 <= j < 64 → Z.testbit (f d s) j = g (Z.testbit d j) (Z.testbit s j)) →
  ∀ k, in_words bs k → bit_at r k = g (bit_at bs k) (bit_at src k).
Proof.
  intros Hs Hr Hl Hf k Hk. unfold bit_at, BITS_PER_LONG. rewrite Hl.
  destruct (in_words_lookup bs k Hk) as [d ->].
  assert (in_words src k) as Hk' by (unfold in_words in *; lia).
  destruct (in_words_lookup src k Hk') as [s ->]. cbn. apply Hf. by apply Z.mod_pos_bound.
Qed.

(** Two bitsets of the same number of bits. *)
Record same_shape (a b : bitset) : Prop := {
  shape_nr : nr_bits a = nr_bits b;
  shape_size : size a = size b;
  shape_len : length (bits a) = length (bits b);
}.

Lemma ok_same_nr a b : bitset_ok a → bitset_ok b → nr_bits a = nr_bits b → same_shape a b.
Proof. intros [] [] E. constructor; lia. Qed.

Lemma words_of_ok from to : bitset_ok from → same_shape from to →
  words_of from to = length (bits from).
Proof.
  intros [_ Hs _ _ _] [_ E _]. unfold words_of, BYTES_PER_LONG. rewrite <- E, Z.max_id, Hs.
  rewrite Z.mul_comm, Z.div_mul by lia. lia.
Qed.

Lemma bit_at_outside bs k : 64 * Z.of_nat (length bs) <= k → bit_at bs k = false.
Proof.
  intros Hk. unfold bit_at. rewrite lookup_ge_None_2; [apply Z.bits_0|].
  unfold word_index, BITS_PER_LONG.
  assert (Z.of_nat (length bs) <= k / 64) by (apply Z.div_le_lower_bound; lia). lia.
Qed.

Lemma u64_lor a b : is_u64 a → is_u64 b → is_u64 (Z.lor a b).
Proof.
  intros Ha Hb. split; [apply Z.lor_nonneg; clia|].
  destruct (decide (Z.lor a b = 0)) as [->|Hn]; [lia|].
  apply Z.log2_lt_pow2; [pose proof (proj2 (Z.lor_nonneg a b)); clia|].
  rewrite Z.log2_lor by clia. apply Z.max_lub_lt.
  - destruct (decide (a = 0)) as [->|]; [done|]. apply Z.log2_lt_pow2; clia.
  - destruct (decide (b = 0)) as [->|]; [done|]. apply Z.log2_lt_pow2; clia.
Qed.

Lemma u64_land a b : is_u64 a → 0 <= b → is_u64 (Z.land a b).
Proof.
  intros Ha Hb. split; [apply Z.land_nonneg; clia|].
  destruct (decide (Z.land a b = 0)) as [->|Hn]; [lia|].
  apply Z.log2_lt_pow2; [pose proof (proj2 (Z.land_nonneg a b)); clia|].
  eapply Z.le_lt_trans; [apply Z.log2_land; clia|]. destruct (decide (a = 0)) as [->|]; [done|].
  eapply Z.le_lt_trans; [apply Z.le_min_l|]. apply Z.log2_lt_pow2; clia.
Qed.

Lemma words_loop_ok f g from to :
  bitset_ok from → bitset_ok to → nr_bits from = nr_bits to →
  (∀ d s, is_u64 d → is_u64 s → is_u64 (f d s)) →
  (∀ d s j, 0 <= j < 64 → Z.testbit (f d s) j = g (Z.testbit d j) (Z.testbit s j)) →
  g false false = false →
  ∃ r, with_bits to <$> words_loop f (words_of from to) 0 (bits from) (bits to) = Some r ∧
    bitset_ok r ∧ nr_bits r = nr_bits to ∧
    ∀ k, 0 <= k → bit_at (bits r) k = g (bit_at (bits to) k) (bit_at (bits from) k).
Proof.
  intros Hf Ht Hn Hu Hg Hff. pose proof (ok_same_nr _ _ Hf Ht Hn) as Hsh.
  rewrite (words_of_ok _ _ Hf Hsh). destruct Hsh as [_ _ Hlen].
  destruct (words_loop_spec f (bits from) (length (bits from)) 0 (bits to)) as (r & -> & Hl & Hr); [lia..|].
  assert (∀ k, r !! k = d ← bits to !! k; s ← bits from !! k; Some (f d s)) as Hr'.
  { intros k. rewrite Hr. case_decide; [done|]. rewrite (lookup_ge_None_2 (bits to)) by lia. done. }
  exists (with_bits to r). split; [done|]. destruct Hf as [Wf _ _ _ _], Ht as [Wt ? ? ? ?].
  split_and!; [constructor; cbn; rewrite ?Hl; try done|done|].
  - apply Forall_lookup. intros k w. rewrite Hr'. rewrite Forall_lookup in Wf, Wt.
    destruct (bits to !! k) as [d|] eqn:Ed; cbn; [|done].
    destruct (bits from !! k) as [s|] eqn:Es; cbn; [|done]. intros [= <-]. eauto.
  - cbn. intros k Hk. destruct (decide (in_words (bits to) k)) as [Hin|Hout].
    + by apply (bit_at_words f g).
    + unfold in_words in Hout. rewrite !bit_at_outside by lia. done.
Qed.

Lemma bitset_union_to_ok from to :
  bitset_ok from → bitset_ok to → nr_bits from = nr_bits to →
  ∃ r, bitset_union_to from to = Some r ∧ bitset_ok r ∧ nr_bits r = nr_bits to ∧
    ∀ k, 0 <= k → bit_at (bits r) k = bit_at (bits to) k || bit_at (bits from) k.
Proof.
  intros. apply (words_loop_ok _ orb); try done.
  - apply u64_lor.
  - intros d s j Hj. apply Z.lor_spec.
Qed.

Lemma bitset_sub_ok from to :
  bitset_ok from → bitset_ok to → nr_bits from = nr_bits to →
  ∃ r, bitset_sub from to = Some r ∧ bitset_ok r ∧ nr_bits r = nr_bits to ∧
    ∀ k, 0 <= k → bit_at (bits r) k = bit_at (bits to) k && negb (bit_at (bits from) k).
Proof.
  intros. apply (words_loop_ok _ (λ d s, d && negb s)); try done.
  - intros d s Hd _. apply u64_land; [done|]. apply u64_range.
  - intros d s j Hj. by rewrite Z.land_spec, testbit_u64_lnot.
Qed.

Lemma words_ext bs bs' : Forall is_u64 bs → Forall is_u64 bs' → length bs = length bs' →
  (∀ k, 0 <= k → bit_at bs k = bit_at bs' k) → bs = bs'.
Proof.
  intros H1 H2 Hl Hb. apply list_eq_same_length with (length bs); [done..|].
  intros i x y Hi Hx Hy. rewrite Forall_lookup in H1, H2.
  pose proof (H1 _ _ Hx) as Rx. pose proof (H2 _ _ Hy) as Ry.
  apply Z.bits_inj'. intros j Hj. destruct (decide (j < 64)).
  - specialize (Hb (64 * Z.of_nat i + j) ltac:(lia)). unfold bit_at, word_index, BITS_PER_LONG in Hb.
    rewrite (Z.mul_comm 64), Z.div_add_l, (Z.div_small j), Z.add_0_r, Nat2Z.id in Hb by lia.
    rewrite (Z.add_comm (_ * 64)), Z_mod_plus_full, (Z.mod_small j) in Hb by lia.
    by rewrite Hx, Hy in Hb.
  - rewrite <- (Z.mod_small x (2 ^ 64)), <- (Z.mod_small y (2 ^ 64)) by done.
    by rewrite !Z.mod_pow2_bits_high by lia.
Qed.

Lemma equal_loop_spec src dest : ∀ n i, (i + n = length src)%nat → length src = length dest →
  equal_loop n i src dest = Some (bool_decide (drop i dest = drop i src)).
Proof.
  induction n as [|n IH]; intros i Hs Hl.
  - cbn. rewrite !drop_ge by lia. by rewrite bool_decide_true.
  - destruct (lookup_lt_is_Some_2 dest i) as [d Ed]; [lia|].
    destruct (lookup_lt_is_Some_2 src i) as [s Es]; [lia|].
    cbn. rewrite Ed, Es. cbn. rewrite (drop_S _ _ _ Ed), (drop_S _ _ _ Es). case_decide as E.
    + by rewrite bool_decide_false by congruence.
    + subst. rewrite IH by lia. f_equal. apply bool_decide_ext. split; congruence.
Qed.

Lemma bitset_equal_ok from to :
  bitset_ok from → bitset_ok to → nr_bits from = nr_bits to →
  ∃ r, bitset_equal from to = Some r ∧
    (r = true ↔ ∀ k, 0 <= k → bit_at (bits from) k = bit_at (bits to) k).
Proof.
  intros Hf Ht Hn. pose proof (ok_same_nr _ _ Hf Ht Hn) as Hsh. unfold bitset_equal.
  rewrite (words_of_ok _ _ Hf Hsh). destruct Hsh as [_ _ Hlen].
  rewrite equal_loop_spec by (done || lia). eexists. split; [done|].
  rewrite bool_decide_eq_true, !drop_0. split; [by intros ->|].
  intros H. symmetry. apply words_ext; [apply Hf|apply Ht|done|done].
Qed.

Lemma bitset_copy_to_ok from to :
  bitset_ok from → bitset_ok to → nr_bits from = nr_bits to →
  bitset_ok (bitset_copy_to from to) ∧ nr_bits (bitset_copy_to from to) = nr_bits to ∧
  ∀ k, 0 <= k → bit_at (bits (bitset_copy_to from to)) k = bit_at (bits from) k.
Proof.
  intros Hf Ht Hn. pose proof (ok_same_nr _ _ Hf Ht Hn) as [_ Hs Hl].
  assert (bits (bitset_copy_to from to) = bits from) as E.
  { unfold bitset_copy_to, BYTES_PER_LONG. cbn. rewrite <- Hs, Z.min_id. destruct Hf as [_ -> _ _ _].
    rewrite Z.mul_comm, Z.div_mul, Nat2Z.id by lia.
    rewrite take_ge, drop_ge by lia. apply (right_id_L [] (++)). }
  rewrite E. split_and!; [|done|done]. destruct Hf, Ht.
  constructor; rewrite ?E; unfold bitset_copy_to, with_bits; cbn; try done; lia.
Qed.

Lemma bit_at_replicate_0 n k : bit_at (replicate n 0) k = false.
Proof.
  unfold bit_at. destruct (replicate n 0 !! word_index k) eqn:E; cbn; [|apply Z.bits_0].
  apply lookup_replicate in E as [-> _]. apply Z.bits_0.
Qed.

Lemma bitset_clear_all_ok b : bitset_ok b →
  bitset_ok (bitset_clear_all b) ∧ nr_bits (bitset_clear_all b) = nr_bits b ∧
  ∀ k, 0 <= k → bit_at (bits (bitset_clear_all b)) k = false.
Proof.
  intros [? Hs ? ? ?]. unfold bitset_clear_all, BYTES_PER_LONG. cbn.
  rewrite Hs, Z.mul_comm, Z.div_mul, Nat2Z.id by lia. split_and!; [|done|].
  - constructor; cbn; rewrite ?length_replicate; try (done || lia).
    apply Forall_replicate. clia.
  - intros k _. apply bit_at_replicate_0.
Qed.

(** Clearing the low six bits. *)
Lemma land_align x : 0 <= x < 2 ^ 63 → Z.land x (u64 (Z.lnot (BITS_PER_LONG - 1))) = 64 * (x / 64).
Proof.
  intros Hx. change (u64 (Z.lnot (BITS_PER_LONG - 1))) with (Z.shiftl (Z.ones 58) 6).
  apply Z.bits_inj'. intros j Hj.
  rewrite Z.land_spec, Z.shiftl_spec by lia. replace 64 with (2 ^ 6) at 1 by done.
  rewrite (Z.mul_comm (2 ^ 6)), Z.mul_pow2_bits by lia.
  destruct (decide (j < 6)); [rewrite !(Z.testbit_neg_r _ (j - 6)) by lia; by rewrite andb_false_r|].
  change 64 with (2 ^ 6). rewrite Z.div_pow2_bits by lia. replace (j - 6 + 6) with j by lia.
  destruct (decide (j - 6 < 58)).
  - rewrite Z.ones_spec_low by lia. apply andb_true_r.
  - rewrite Z.ones_spec_high by lia. rewrite andb_false_r. symmetry.
    apply Z.bits_above_log2; [lia|]. eapply Z.le_lt_trans; [apply (Z.log2_le_mono _ (2 ^ 63)); lia|].
    rewrite Z.log2_pow2; lia.
Qed.

Lemma align_64 x : 0 <= x < 2 ^ 32 → align x 64 = 64 * ((x + 63) / 64).
Proof.
  intros Hx. unfold align. rewrite (u64_id (x + 64 - 1)) by clia.
  replace (x + 64 - 1) with (x + 63) by lia. apply land_align. lia.
Qed.

Lemma alloc_bitset_ok `{Allocator} nr h : 0 <= nr < 2 ^ 31 →
  wp (alloc_bitset nr) (λ b _, bitset_ok b ∧ nr_bits b = nr ∧ ∀ k, bit_at (bits b) k = false)
     (λ _ _, ¬ ∀ k size, malloc_ok k size = true) h.
Proof.
  intros Hnr. unfold wp, alloc_bitset, BITS_PER_LONG, BITS_PER_BYTE, BYTES_PER_LONG.
  unfold mem_malloc. destruct (malloc_ok _ _) eqn:Em; [|by intros Hall; rewrite Hall in Em].
  assert (align nr 64 / 8 = 8 * ((nr + 63) / 64)) as ->.
  { rewrite align_64 by lia. replace (64 * ((nr + 63) / 64)) with (8 * ((nr + 63) / 64) * 8) by lia.
    by rewrite Z.div_mul. }
  replace (8 * ((nr + 63) / 64) / 8) with ((nr + 63) / 64) by (rewrite Z.mul_comm, Z.div_mul; lia).
  assert (0 <= (nr + 63) / 64) by (apply Z.div_pos; lia).
  split_and!; [|done|intros k; apply bit_at_replicate_0].
  constructor; cbn; rewrite ?length_replicate; [apply Forall_replicate; clia|lia|..|lia].
  all: pose proof (Z.div_mod (nr + 63) 64); pose proof (Z.mod_pos_bound (nr + 63) 64); lia.
Qed.

(** ** Searching *)

(** [r] is the first set bit from [lo] on, or -1 if there is none below [nr_bits]. *)
Definition first_bit (b : bitset) (lo r : Z) : Prop :=
  (r = -1 ∧ ∀ k, lo <= k < nr_bits b → bit_at (bits b) k = false) ∨
  (lo <= r < nr_bits b ∧ bit_at (bits b) r = true ∧ ∀ k, lo <= k < r → bit_at (bits b) k = false).

Lemma ffsl_from_spec w : ∀ fuel k, 0 <= k →
  (∀ j, 0 <= j < k → Z.testbit w j = false) →
  (ffsl_from fuel k w = 0 ∧ ∀ j, 0 <= j < k + Z.of_nat fuel → Z.testbit w j = false) ∨
  (k < ffsl_from fuel k w <= k + Z.of_nat fuel ∧ Z.testbit w (ffsl_from fuel k w - 1) = true ∧
   ∀ j, 0 <= j < ffsl_from fuel k w - 1 → Z.testbit w j = false).
Proof.
  induction fuel as [|fuel IH]; intros k Hk Hlow.
  - left. split; [done|]. intros j Hj. apply Hlow. lia.
  - cbn [ffsl_from]. destruct (Z.testbit w k) eqn:T.
    + right. split_and!; [lia..|by replace (k + 1 - 1) with k by lia|]. intros j Hj. apply Hlow. lia.
    + destruct (IH (k + 1)) as [(E & Hj)|(Hr & HT & Hj)]; [lia| |..].
      * intros j Hj. destruct (decide (j = k)) as [->|]; [done|]. apply Hlow. lia.
      * left. split; [done|]. intros j Hj'. apply Hj. lia.
      * right. split_and!; [lia|lia|done|done].
Qed.

Lemma ffsl_spec w : is_u64 w → w ≠ 0 →
  1 <= ffsl w <= 64 ∧ Z.testbit w (ffsl w - 1) = true ∧
  ∀ j, 0 <= j < ffsl w - 1 → Z.testbit w j = false.
Proof.
  intros Hw Hn. destruct (ffsl_from_spec w 64 0) as [(E & Hz)|(H1 & H2 & H3)]; [lia|lia| |].
  - destruct Hn. apply Z.bits_inj'. intros j Hj. rewrite Z.bits_0.
    destruct (decide (j < 64)); [apply Hz; lia|].
    rewrite <- (Z.mod_small w (2 ^ 64)) by done. by rewrite Z.mod_pow2_bits_high by lia.
  - split_and!; [unfold ffsl; lia..|done|done].
Qed.

Lemma bit_at_word bs (i : nat) w j : bs !! i = Some w → 0 <= j < 64 →
  bit_at bs (64 * Z.of_nat i + j) = Z.testbit w j.
Proof.
  intros Hw Hj. unfold bit_at, word_index, BITS_PER_LONG.
  rewrite (Z.mul_comm 64), Z.div_add_l, (Z.div_small j), Z.add_0_r, Nat2Z.id by lia.
  by rewrite (Z.add_comm (_ * 64)), Z_mod_plus_full, (Z.mod_small j), Hw by lia.
Qed.

Lemma ffs_found_spec b (i : nat) w tmp lo :
  bitset_ok b → bits b !! i = Some w → is_u64 tmp → tmp ≠ 0 → 0 <= lo →
  (∀ j, 0 <= j < 64 → Z.testbit tmp j = Z.testbit w j && bool_decide (lo <= 64 * Z.of_nat i + j)) →
  (∀ k, lo <= k < 64 * Z.of_nat i → bit_at (bits b) k = false) →
  first_bit b lo (ffs_found b tmp (64 * Z.of_nat i)).
Proof.
  intros Hok Hw Htmp Hn Hlo Hbits Hbelow. pose proof (lookup_lt_Some _ _ _ Hw) as Hi.
  destruct (ffsl_spec tmp Htmp Hn) as (Hr & HT & Hlow). destruct Hok as [_ _ Hnr Ht Hs].
  set (f := ffsl tmp) in *. unfold ffs_found. fold f.
  assert (u64 (f + u64 (64 * Z.of_nat i - 1)) = 64 * Z.of_nat i + (f - 1)) as ->.
  { unfold u64. rewrite Zplus_mod_idemp_r. rewrite Z.mod_small; [lia|]. lia. }
  rewrite Hbits in HT by lia. apply andb_true_iff in HT as [HT Hge%bool_decide_eq_true].
  assert (∀ k, lo <= k < 64 * Z.of_nat i + (f - 1) → bit_at (bits b) k = false) as Hbl.
  { intros k Hk. destruct (decide (k < 64 * Z.of_nat i)); [apply Hbelow; lia|].
    replace k with (64 * Z.of_nat i + (k - 64 * Z.of_nat i)) by lia.
    rewrite (bit_at_word _ _ _ _ Hw) by lia.
    pose proof (Hlow (k - 64 * Z.of_nat i) ltac:(lia)) as HF. rewrite Hbits in HF by lia.
    rewrite bool_decide_true, andb_true_r in HF by lia. done. }
  case_decide as E.
  - right. unfold s32. rewrite signed_id by lia. split_and!; [lia|lia| |done].
    by rewrite (bit_at_word _ _ _ _ Hw) by lia.
  - left. split; [done|]. intros k Hk. apply Hbl. lia.
Qed.

Lemma ffs_loop_spec b lo : bitset_ok b → 0 <= lo → ∀ fuel (i : nat),
  (S (length (bits b)) < i + fuel)%nat → (i <= S (length (bits b)))%nat → lo <= 64 * Z.of_nat i →
  (∀ k, lo <= k < 64 * Z.of_nat i → bit_at (bits b) k = false) →
  ∃ r, ffs_loop fuel b (64 * Z.of_nat i) i = Some r ∧ first_bit b lo r.
Proof.
  intros Hok Hlo. induction fuel as [|fuel IH]; intros i Hf Hi Hge Hbelow;
    pose proof Hok as [Hw Hsz Hnr Ht Hs].
  - lia.
  - cbn [ffs_loop]. case_decide as E.
    + destruct (lookup_lt_is_Some_2 (bits b) i) as [w Ew]; [lia|]. rewrite Ew. cbn.
      rewrite Forall_lookup in Hw. pose proof (Hw _ _ Ew) as Rw. case_decide as En.
      * eexists. split; [done|]. eapply ffs_found_spec; try done.
        intros j Hj. by rewrite bool_decide_true, andb_true_r by lia.
      * rewrite (u64_id (64 * Z.of_nat i + BITS_PER_LONG)) by (unfold BITS_PER_LONG; clia).
        replace (64 * Z.of_nat i + BITS_PER_LONG) with (64 * Z.of_nat (S i)) by (unfold BITS_PER_LONG; lia).
        apply IH; [lia..|]. intros k Hk.
        destruct (decide (k < 64 * Z.of_nat i)); [apply Hbelow; lia|].
        replace k with (64 * Z.of_nat i + (k - 64 * Z.of_nat i)) by lia.
        rewrite (bit_at_word _ _ _ _ Ew) by lia. subst w. apply Z.bits_0.
    + eexists. split; [done|]. left. split; [done|]. intros k Hk. apply Hbelow. lia.
Qed.

(** ~((1UL << unaligned) - 1): the bits from [ndx mod 64] on. *)
Definition ffs_mask (ndx : Z) : Z :=
  u64 (Z.lnot (u64 (u64 (Z.shiftl 1 (ndx mod BITS_PER_LONG)) - 1))).

Lemma ffs_mask_spec ndx j : 0 <= j < 64 → Z.testbit (ffs_mask ndx) j = bool_decide (ndx mod 64 <= j).
Proof.
  intros Hj. unfold ffs_mask, BITS_PER_LONG. pose proof (Z.mod_pos_bound ndx 64 eq_refl).
  rewrite testbit_u64_lnot by done. rewrite Z.shiftl_1_l.
  assert (0 < 2 ^ (ndx mod 64)) by (apply Z.pow_pos_nonneg; lia).
  assert (2 ^ (ndx mod 64) < 2 ^ 64) by (apply Z.pow_lt_mono_r; lia).
  rewrite (u64_id (2 ^ (ndx mod 64))) by clia. rewrite u64_id by clia. rewrite Z.sub_1_r, <- Z.ones_equiv.
  case_bool_decide.
  - by rewrite Z.ones_spec_high by lia.
  - by rewrite Z.ones_spec_low by lia.
Qed.

Lemma bitset_ffs_from_ok b ndx : bitset_ok b → in_words (bits b) ndx →
  ∃ r, bitset_ffs_from b ndx = Some r ∧ first_bit b ndx r.
Proof.
  intros Hok Hin. pose proof (word_index_lt _ _ Hin) as Hlt. destruct Hin as [H0 H1].
  pose proof Hok as [Hw Hsz Hnr Ht Hs]. unfold bitset_ffs_from.
  rewrite (u64_id ndx), land_align by clia. set (i := word_index ndx) in *.
  replace (ndx / 64) with (Z.of_nat i).
  2:{ unfold i, word_index, BITS_PER_LONG. rewrite Z2Nat.id; [done|]. apply Z.div_pos; lia. }
  replace (Z.to_nat (64 * Z.of_nat i / BITS_PER_LONG)) with i.
  2:{ unfold BITS_PER_LONG. rewrite Z.mul_comm, Z.div_mul by lia. lia. }
  assert (64 * Z.of_nat i + ndx mod 64 = ndx) as Endx.
  { unfold i, word_index, BITS_PER_LONG. rewrite Z2Nat.id by (apply Z.div_pos; lia).
    symmetry. apply Z.div_mod. lia. }
  pose proof (Z.mod_pos_bound ndx 64 eq_refl) as Hmod.
  destruct (lookup_lt_is_Some_2 (bits b) i) as [w Ew]; [done|]. rewrite Ew. cbn -[Z.mul Z.of_nat ffs_loop].
  rewrite Forall_lookup in Hw. pose proof (Hw _ _ Ew) as Rw.
  assert (∀ j, 0 <= j < 64 → Z.testbit (Z.land w (ffs_mask ndx)) j =
            Z.testbit w j && bool_decide (ndx <= 64 * Z.of_nat i + j)) as Hbits.
  { intros j Hj. rewrite Z.land_spec, ffs_mask_spec by done. do 2 f_equal.
    apply bool_decide_ext. lia. }
  change (Z.land w (u64 (Z.lnot (u64 (u64 (Z.shiftl 1 (ndx mod BITS_PER_LONG)) - 1)))))
    with (Z.land w (ffs_mask ndx)).
  case_decide as En.
  - eexists. split; [done|]. eapply ffs_found_spec; try done; [|lia].
    apply u64_land; [done|apply u64_range].
  - rewrite (u64_id (64 * Z.of_nat i + BITS_PER_LONG)) by (unfold BITS_PER_LONG; clia).
    replace (64 * Z.of_nat i + BITS_PER_LONG) with (64 * Z.of_nat (S i)) by (unfold BITS_PER_LONG; lia).
    apply ffs_loop_spec; [done|lia..|]. intros k Hk.
    replace k with (64 * Z.of_nat i + (k - 64 * Z.of_nat i)) by lia.
    rewrite (bit_at_word _ _ _ _ Ew) by lia.
    pose proof (Hbits (k - 64 * Z.of_nat i) ltac:(lia)) as HF. rewrite En, Z.bits_0 in HF.
    rewrite bool_decide_true, andb_true_r in HF by lia. done.
Qed.

(** ** Theorems *)

Definition sample_bitset : bitset := Bitset 70 16 [5; 1].
Lemma sample_bitset_ok : bitset_ok sample_bitset.
Proof. constructor; cbn; [repeat constructor; clia|lia..]. Qed.

(** [set_bit], [clear_bit] and [test_bit] write and read exactly the bit
    asked for, in every word of the array. *)
Theorem bitset_single_bits b k :
  bitset_ok b → 0 <= k < nr_bits b →
  (∃ bs, set_bit (bits b) k = Some bs ∧ length bs = length (bits b) ∧
     ∀ j, 0 <= j → bit_at bs j = bool_decide (j = k) || bit_at (bits b) j) ∧
  (∃ bs, clear_bit (bits b) k = Some bs ∧ length bs = length (bits b) ∧
     ∀ j, 0 <= j → bit_at bs j = negb (bool_decide (j = k)) && bit_at (bits b) j) ∧
  test_bit (bits b) k = Some (bit_at (bits b) k).
Proof.
  intros Hok Hk. assert (in_words (bits b) k) as Hin by (destruct Hok; unfold in_words; lia).
  split_and!; [by apply set_bit_spec|by apply clear_bit_spec|by apply test_bit_spec].
Qed.
Lemma bitset_single_bits_witness : test_bit (bits sample_bitset) 64 = Some (bit_at (bits sample_bitset) 64).
Proof. apply (bitset_single_bits sample_bitset 64); [exact sample_bitset_ok|cbn; lia]. Defined.

(** between bitsets of the same number of bits, [bitset_union_to] computes the
    union, [bitset_sub] the difference, and [bitset_equal] decides equality. *)
Theorem bitset_set_operations from to :
  bitset_ok from → bitset_ok to → nr_bits from = nr_bits to →
  (∃ r, bitset_union_to from to = Some r ∧ bitset_ok r ∧ nr_bits r = nr_bits to ∧
     ∀ k, 0 <= k → bit_at (bits r) k = bit_at (bits to) k || bit_at (bits from) k) ∧
  (∃ r, bitset_sub from to = Some r ∧ bitset_ok r ∧ nr_bits r = nr_bits to ∧
     ∀ k, 0 <= k → bit_at (bits r) k = bit_at (bits to) k && negb (bit_at (bits from) k)) ∧
  (∃ r, bitset_equal from to = Some r ∧
     (r = true ↔ ∀ k, 0 <= k → bit_at (bits from) k = bit_at (bits to) k)).
Proof.
  intros. split_and!; [by apply bitset_union_to_ok|by apply bitset_sub_ok|by apply bitset_equal_ok].
Qed.
Lemma bitset_set_operations_witness :
  ∃ r, bitset_sub sample_bitset (Bitset 70 16 [6; 3]) = Some r ∧ bits r = [2; 2] ∧
    ∀ k, 0 <= k → bit_at (bits r) k = bit_at [6; 3] k && negb (bit_at [5; 1] k).
Proof.
  destruct (bitset_set_operations sample_bitset (Bitset 70 16 [6; 3])) as (_ & (r & E & _ & _ & Hb) & _).
  - exact sample_bitset_ok.
  - constructor; cbn; [repeat constructor; clia|lia..].
  - reflexivity.
  - exists r. split; [exact E|]. split; [|exact Hb]. vm_compute in E. injection E as <-. reflexivity.
Defined.

(** between bitsets of different sizes, [bitset_union_to] and [bitset_sub] run
    past the end of the shorter array, because the loop bound is the larger size. *)
Theorem bitset_size_mismatch from to :
  bitset_ok from → bitset_ok to → length (bits from) ≠ length (bits to) →
  bitset_union_to from to = None ∧ bitset_sub from to = None.
Proof.
  intros [_ Sf _ _ _] [_ St _ _ _] Hne.
  assert (words_of from to = Nat.max (length (bits from)) (length (bits to))) as E.
  { unfold words_of, BYTES_PER_LONG. rewrite Sf, St.
    replace (Z.max (8 * Z.of_nat (length (bits from))) (8 * Z.of_nat (length (bits to))))
      with (Z.of_nat (Nat.max (length (bits from)) (length (bits to))) * 8) by lia.
    rewrite Z.div_mul by lia. lia. }
  unfold bitset_union_to, bitset_sub. rewrite E. split.
  - destruct (words_loop_overrun (λ d s, Z.lor d s) (bits from)
      (Nat.max (length (bits from)) (length (bits to))) 0 (bits to)) as [->|]; [lia|done|lia].
  - destruct (words_loop_overrun (λ d s, Z.land d (u64 (Z.lnot s))) (bits from)
      (Nat.max (length (bits from)) (length (bits to))) 0 (bits to)) as [->|]; [lia|done|lia].
Qed.
Lemma bitset_size_mismatch_witness :
  bitset_union_to (Bitset 3 8 [5]) sample_bitset = None.
Proof.
  apply (bitset_size_mismatch (Bitset 3 8 [5]) sample_bitset).
  - constructor; cbn; [repeat constructor; clia|lia..].
  - exact sample_bitset_ok.
  - discriminate.
Defined.

(** from any bit inside the array, [bitset_ffs_from] terminates and returns the
    first set bit at or after it, or -1 when no bit below [nr_bits] is set there. *)
Theorem bitset_ffs_from_first b ndx :
  bitset_ok b → 0 <= ndx < 64 * Z.of_nat (length (bits b)) →
  ∃ r, bitset_ffs_from b ndx = Some r ∧ first_bit b ndx r.
Proof. apply bitset_ffs_from_ok. Qed.
Lemma bitset_ffs_from_first_witness :
  bitset_ffs_from sample_bitset 3 = Some 64 ∧ first_bit sample_bitset 3 64.
Proof.
  destruct (bitset_ffs_from_first sample_bitset 3) as (r & E & H).
  - exact sample_bitset_ok.
  - cbn. lia.
  - vm_compute in E. injection E as <-. split; [reflexivity|exact H].
Defined.
