(* ===== verification/SetInterface.v ===== *)
(** * The interface between lib/bitset.c and its clients

    The analyses of jit/ use bitsets through these operations only.  [SetOps] is
    the operations, [SetLaws] what they promise: a set of the numbers below a
    bound fixed by its size, with [None] for undefined behaviour.  Bitset.v's
    lemmas discharge the laws; the clients' theorems are proved from them. *)

From S2P Require Import Prelude CMonad Bitset.
#[local] Open Scope Z_scope.

Class SetOps (B : Type) := {
  bs_wf : Z → B → Prop;                 (** a set for this many elements *)
  bs_mem : B → Z → bool;
  bs_width : Z → nat;                   (** no element is this large *)
  bs_alloc : ∀ `{Allocator}, Z → M mem unit B;
  bs_set : B → Z → option B;
  bs_test : B → Z → option bool;
  bs_union_to : B → B → option B;       (** from, to *)
  bs_sub : B → B → option B;            (** from, to *)
  bs_equal : B → B → option bool;
  bs_copy_to : B → B → B;               (** from, to *)
  bs_clear_all : B → B;
}.

Class SetLaws (B : Type) `{SetOps B} : Prop := {
  bs_alloc_law `{Allocator} n h : 0 <= n < 2 ^ 31 →
    wp (bs_alloc n) (λ b _, bs_wf n b ∧ ∀ k, bs_mem b k = false)
       (λ _ _, ¬ ∀ k size, malloc_ok k size = true) h;
  bs_width_law n b k : bs_wf n b → Z.of_nat (bs_width n) <= k → bs_mem b k = false;
  bs_set_law n b k : bs_wf n b → 0 <= k < n →
    ∃ b', bs_set b k = Some b' ∧ bs_wf n b' ∧
      ∀ j, 0 <= j → bs_mem b' j = bool_decide (j = k) || bs_mem b j;
  bs_test_law n b k : bs_wf n b → 0 <= k < n → bs_test b k = Some (bs_mem b k);
  bs_union_law n from to : bs_wf n from → bs_wf n to →
    ∃ b', bs_union_to from to = Some b' ∧ bs_wf n b' ∧
      ∀ j, 0 <= j → bs_mem b' j = bs_mem to j || bs_mem from j;
  bs_sub_law n from to : bs_wf n from → bs_wf n to →
    ∃ b', bs_sub from to = Some b' ∧ bs_wf n b' ∧
      ∀ j, 0 <= j → bs_mem b' j = bs_mem to j && negb (bs_mem from j);
  bs_equal_law n from to : bs_wf n from → bs_wf n to →
    ∃ r, bs_equal from to = Some r ∧ (r = true ↔ ∀ j, 0 <= j → bs_mem from j = bs_mem to j);
  bs_copy_law n from to : bs_wf n from → bs_wf n to →
    bs_wf n (bs_copy_to from to) ∧ ∀ j, 0 <= j → bs_mem (bs_copy_to from to) j = bs_mem from j;
  bs_clear_law n b : bs_wf n b →
    bs_wf n (bs_clear_all b) ∧ ∀ j, 0 <= j → bs_mem (bs_clear_all b) j = false;
}.

(** Taking the elements out one by one, in ascending order. *)
Class SetScan (B : Type) `{SetOps B} := {
  bs_clear : B → Z → option B;
  bs_next : B → Z → option Z;           (** the first element from here on, or -1 *)
}.

Class SetScanLaws (B : Type) `{SetScan B} : Prop := {
  bs_clear_bit_law n b k : bs_wf n b → 0 <= k < n →
    ∃ b', bs_clear b k = Some b' ∧ bs_wf n b' ∧
      ∀ j, 0 <= j → bs_mem b' j = negb (bool_decide (j = k)) && bs_mem b j;
  bs_next_law n b k : bs_wf n b → 0 <= k < n →
    ∃ r, bs_next b k = Some r ∧
      (r = -1 ∧ (∀ j, k <= j < n → bs_mem b j = false) ∨
       k <= r < n ∧ bs_mem b r = true ∧ (∀ j, k <= j < r → bs_mem b j = false));
}.

(** ** Bitsets implement the interface *)

#[export] Instance bitset_ops : SetOps bitset := {|
  bs_wf n b := bitset_ok b ∧ nr_bits b = n;
  bs_mem b k := bit_at (bits b) k;
  bs_width n := Z.to_nat (n + 64);
  bs_alloc _ := alloc_bitset;
  bs_set b k := with_bits b <$> set_bit (bits b) k;
  bs_test b k := test_bit (bits b) k;
  bs_union_to := bitset_union_to;
  bs_sub := bitset_sub;
  bs_equal := bitset_equal;
  bs_copy_to := bitset_copy_to;
  bs_clear_all := bitset_clear_all;
|}.

Lemma set_bit_ok b k : bitset_ok b → 0 <= k < nr_bits b →
  ∃ bs', set_bit (bits b) k = Some bs' ∧ bitset_ok (with_bits b bs') ∧
    ∀ j, 0 <= j → bit_at bs' j = bool_decide (j = k) || bit_at (bits b) j.
Proof.
  intros Hok Hk. assert (in_words (bits b) k) as Hin by (destruct Hok; unfold in_words; lia).
  destruct (set_bit_spec _ _ Hin) as (bs' & E & Hl & Hb). exists bs'. split_and!; [done| |done].
  destruct Hok as [Hw Hs Hn Ht Hm]. constructor; cbn; rewrite ?Hl; try done.
  unfold set_bit in E. destruct (in_words_lookup _ _ Hin) as [w Ew]. rewrite Ew in E. injection E as <-.
  apply Forall_insert; [done|]. rewrite Forall_lookup in Hw. apply u64_lor; [by eapply Hw|apply u64_range].
Qed.

#[export] Instance bitset_laws : SetLaws bitset.
Proof.
  split; cbn.
  - intros A n h Hn. eapply wp_mono; [by apply alloc_bitset_ok| |done]. by intros b h' (? & ? & ?).
  - intros n b k [[] <-] Hk. apply bit_at_outside. lia.
  - intros n b k [Hok <-] Hk. destruct (set_bit_ok b k Hok Hk) as (bs' & -> & Hok' & Hb).
    by exists (with_bits b bs').
  - intros n b k [Hok <-] Hk. apply test_bit_spec. destruct Hok. unfold in_words. lia.
  - intros n from to [Hf <-] [Ht Hn]. rewrite <- Hn.
    destruct (bitset_union_to_ok from to Hf Ht (eq_sym Hn)) as (r & ? & ? & ? & ?). by exists r.
  - intros n from to [Hf <-] [Ht Hn]. rewrite <- Hn.
    destruct (bitset_sub_ok from to Hf Ht (eq_sym Hn)) as (r & ? & ? & ? & ?). by exists r.
  - intros n from to [Hf <-] [Ht Hn]. by apply bitset_equal_ok.
  - intros n from to [Hf <-] [Ht Hn].
    destruct (bitset_copy_to_ok from to Hf Ht (eq_sym Hn)) as (? & E & ?). done.
  - intros n b [Hok <-]. destruct (bitset_clear_all_ok b Hok) as (? & ? & ?). done.
Qed.

Lemma clear_bit_ok b k : bitset_ok b → 0 <= k < nr_bits b →
  ∃ bs', clear_bit (bits b) k = Some bs' ∧ bitset_ok (with_bits b bs') ∧
    ∀ j, 0 <= j → bit_at bs' j = negb (bool_decide (j = k)) && bit_at (bits b) j.
Proof.
  intros Hok Hk. assert (in_words (bits b) k) as Hin by (destruct Hok; unfold in_words; lia).
  destruct (clear_bit_spec _ _ Hin) as (bs' & E & Hl & Hb). exists bs'. split_and!; [done| |done].
  destruct Hok as [Hw Hs Hn Ht Hm]. constructor; cbn; rewrite ?Hl; try done.
  unfold clear_bit in E. destruct (in_words_lookup _ _ Hin) as [w Ew]. rewrite Ew in E. injection E as <-.
  apply Forall_insert; [done|]. rewrite Forall_lookup in Hw. apply u64_land; [by eapply Hw|apply u64_range].
Qed.

#[export] Instance bitset_scan : SetScan bitset := {|
  bs_clear b k := with_bits b <$> clear_bit (bits b) k;
  bs_next := bitset_ffs_from;
|}.

#[export] Instance bitset_scan_laws : SetScanLaws bitset.
Proof.
  split; cbn.
  - intros n b k [Hok <-] Hk. destruct (clear_bit_ok b k Hok Hk) as (bs' & -> & Hok' & Hb). by exists (with_bits b bs').
  - intros n b k [Hok <-] Hk. destruct (bitset_ffs_from_ok b k Hok) as (r & -> & Hf); [destruct Hok; unfold in_words; lia|].
    exists r. split; [done|]. exact Hf.
Qed.
