(* ===== verification/Liveness.v ===== *)
(** * jit/liveness.c: live variable analysis

    Basic blocks are numbered by their place in the compilation unit's list;
    successors are block numbers.  The results of [insn_uses], [insn_defs] and
    [insn_is_call] are data of the instruction.  The sets are used through [SetOps] only; a variable
    is its virtual register number.  The live ranges built from the sets
    ([update_live_ranges]) are in the file LiveRanges.  The
    heap only decides which sets can be allocated; the release of the two scratch sets
    leaves it as it is. *)

From S2P Require Import Prelude CMonad Bitset SetInterface.
#[local] Open Scope Z_scope.

Record insn := Insn { insn_uses : list Z; insn_defs : list Z; insn_is_call : bool }.

(** A block before its sets are allocated. *)
Record bb_code := BBCode { insn_list : list insn; successors : list nat }.

Record basic_block (B : Type) := BB {
  bb_code_of : bb_code;
  use_set : B;
  def_set : B;
  live_in_set : B;
  live_out_set : B;
}.
Arguments BB {B}.
Arguments bb_code_of {B}.
Arguments use_set {B}.
Arguments def_set {B}.
Arguments live_in_set {B}.
Arguments live_out_set {B}.

Section ops.
Context {B : Type} `{SetOps B}.

(** Undefined behaviour of a set operation. *)
Definition lift {A} (o : option A) : M mem unit A :=
  match o with Some a => ret a | None => undef end.

Definition init_sets_of `{Allocator} (nr_vregs : Z) (c : bb_code) : M mem unit (basic_block B) :=
  let* use := bs_alloc nr_vregs in
  let* def := bs_alloc nr_vregs in
  let* live_in := bs_alloc nr_vregs in
  let* live_out := bs_alloc nr_vregs in
  ret (BB c use def live_in live_out).

(** An error ends the loop. *)
Fixpoint init_sets `{Allocator} (nr_vregs : Z) (cs : list bb_code) : M mem unit (list (basic_block B)) :=
  match cs with
  | [] => ret []
  | c :: cs' =>
    let* b := init_sets_of nr_vregs c in
    let* bs := init_sets nr_vregs cs' in
    ret (b :: bs)
  end.

(** The two loops of [__analyze_use_def]. *)
Fixpoint analyze_uses (uses : list Z) (def use : B) : option B :=
  match uses with
  | [] => Some use
  | v :: uses' =>
    t ← bs_test def v;
    use' ← (if (t : bool) then Some use else bs_set use v);
    analyze_uses uses' def use'
  end.
Fixpoint analyze_defs (defs : list Z) (def : B) : option B :=
  match defs with
  | [] => Some def
  | v :: defs' => def' ← bs_set def v; analyze_defs defs' def'
  end.

Fixpoint analyze_insns (insns : list insn) (use def : B) : option (B * B) :=
  match insns with
  | [] => Some (use, def)
  | x :: insns' =>
    use' ← analyze_uses (insn_uses x) def use;
    def' ← analyze_defs (insn_defs x) def;
    analyze_insns insns' use' def'
  end.

Definition analyze_use_def_of (b : basic_block B) : option (basic_block B) :=
  '(use, def) ← analyze_insns (insn_list (bb_code_of b)) (use_set b) (def_set b);
  Some (BB (bb_code_of b) use def (live_in_set b) (live_out_set b)).

Definition analyze_use_def (bbs : list (basic_block B)) : option (list (basic_block B)) :=
  mapM analyze_use_def_of bbs.

(** The state of the iteration. *)
Record live_state := LiveState {
  bbs : list (basic_block B);
  old_live_in_set : B;
  old_live_out_set : B;
  changed : bool;
}.

Fixpoint union_successors (bs : list (basic_block B)) (succs : list nat) (out : B) : option B :=
  match succs with
  | [] => Some out
  | i :: succs' =>
    succ ← bs !! i;
    out' ← bs_union_to (live_in_set succ) out;
    union_successors bs succs' out'
  end.

(** The body of the loop over the blocks. *)
Definition live_step (i : nat) (st : live_state) : option live_state :=
  this ← bbs st !! i;
  let old_in := bs_copy_to (live_in_set this) (old_live_in_set st) in
  let old_out := bs_copy_to (live_out_set this) (old_live_out_set st) in
  let in0 := bs_copy_to (live_out_set this) (live_in_set this) in
  in1 ← bs_sub (def_set this) in0;
  in2 ← bs_union_to (use_set this) in1;
  let bs1 := <[i := BB (bb_code_of this) (use_set this) (def_set this) in2 (live_out_set this)]> (bbs st) in
  out ← union_successors bs1 (successors (bb_code_of this)) (bs_clear_all (live_out_set this));
  let bs2 := <[i := BB (bb_code_of this) (use_set this) (def_set this) in2 out]> (bbs st) in
  same_in ← bs_equal in2 old_in;
  ch ← (if (same_in : bool) then same_out ← bs_equal out old_out; Some (negb same_out) else Some true);
  Some (LiveState bs2 old_in old_out (changed st || ch)).

Fixpoint live_steps (order : list nat) (st : live_state) : option live_state :=
  match order with
  | [] => Some st
  | i :: order' => st' ← live_step i st; live_steps order' st'
  end.

(** One iteration of the do-while loop, over the blocks in reverse. *)
Definition live_pass (st : live_state) : option live_state :=
  live_steps (rev (seq 0 (length (bbs st))))
    (LiveState (bbs st) (old_live_in_set st) (old_live_out_set st) false).

Fixpoint live_loop (fuel : nat) (st : live_state) : option live_state :=
  match fuel with
  | O => None
  | S fuel' => st' ← live_pass st; if changed st' then live_loop fuel' st' else Some st'
  end.

(** Every iteration that is not the last sets a new bit in one of the two sets of
    a block, so this many iterations are enough. *)
Definition live_fuel (nr_vregs : Z) (bs : list (basic_block B)) : nat :=
  S (2 * (length bs * bs_width (B := B) nr_vregs)).

Definition analyze_live_sets `{Allocator} (nr_vregs : Z) (bs : list (basic_block B))
  : M mem unit (list (basic_block B)) :=
  let* old_in := bs_alloc nr_vregs in
  let* old_out := bs_alloc nr_vregs in
  let* st := lift (live_loop (live_fuel nr_vregs bs) (LiveState bs old_in old_out false)) in
  ret (bbs st).

(** [analyze_liveness] up to the live ranges. *)
Definition analyze_liveness `{Allocator} (nr_vregs : Z) (cs : list bb_code)
  : M mem unit (list (basic_block B)) :=
  let* bs := init_sets nr_vregs cs in
  let* bs' := lift (analyze_use_def bs) in
  analyze_live_sets nr_vregs bs'.
End ops.
Arguments live_state : clear implicits.
Arguments LiveState {B}.

(** ** Specification *)

(** A variable is live at the start of the instructions [xs] of block [i] when
    some execution path reaches a use of it before a definition. *)
Inductive live_at (cs : list bb_code) (v : Z) : nat → list insn → Prop :=
  | live_use i x xs : v ∈ insn_uses x → live_at cs v i (x :: xs)
  | live_skip i x xs : v ∉ insn_defs x → live_at cs v i xs → live_at cs v i (x :: xs)
  | live_next i c j d :
      cs !! i = Some c → j ∈ successors c → cs !! j = Some d →
      live_at cs v j (insn_list d) → live_at cs v i [].

Definition live_in (cs : list bb_code) (v : Z) (i : nat) : Prop :=
  ∃ c, cs !! i = Some c ∧ live_at cs v i (insn_list c).
Definition live_out (cs : list bb_code) (v : Z) (i : nat) : Prop :=
  ∃ c j, cs !! i = Some c ∧ j ∈ successors c ∧ live_in cs v j.

(** Registers are in range and successors are blocks. *)
Definition code_ok (nr_vregs : Z) (cs : list bb_code) : Prop :=
  Forall (λ c, Forall (λ x, Forall (λ v, 0 <= v < nr_vregs) (insn_uses x) ∧
                           Forall (λ v, 0 <= v < nr_vregs) (insn_defs x)) (insn_list c) ∧
               Forall (λ j, (j < length cs)%nat) (successors c)) cs.

(** ** Use and def sets *)

(** Used before any definition. *)
Fixpoint exposed (xs : list insn) (v : Z) : Prop :=
  match xs with
  | [] => False
  | x :: xs' => v ∈ insn_uses x ∨ ((v ∉ insn_defs x) ∧ exposed xs' v)
  end.
Definition defined (xs : list insn) (v : Z) : Prop := ∃ x, x ∈ xs ∧ v ∈ insn_defs x.

Section usedef.
Context {B : Type} `{SetLaws B} (n : Z).

Lemma analyze_uses_spec def : bs_wf n def → ∀ uses use, bs_wf n use → Forall (λ v, 0 <= v < n) uses →
  ∃ use', analyze_uses uses def use = Some use' ∧ bs_wf n use' ∧
    ∀ v, 0 <= v → (bs_mem use' v = true ↔ bs_mem use v = true ∨ (v ∈ uses ∧ bs_mem def v = false)).
Proof.
  intros Hd. induction uses as [|u uses IH]; intros use Hu Hr.
  - exists use. split_and!; [done..|]. intros v _. rewrite elem_of_nil. tauto.
  - apply Forall_cons_1 in Hr as [Hru Hr]. cbn. rewrite (bs_test_law n) by done. cbn.
    destruct (bs_mem def u) eqn:Ed; cbn.
    + destruct (IH use Hu Hr) as (use' & -> & Hw & Hm). exists use'. split_and!; [done..|].
      intros v Hv. rewrite Hm, elem_of_cons by done.
      destruct (decide (v = u)) as [->|]; [rewrite Ed; intuition congruence|tauto].
    + destruct (bs_set_law n use u Hu Hru) as (use1 & -> & Hw1 & Hm1). cbn.
      destruct (IH use1 Hw1 Hr) as (use' & -> & Hw & Hm). exists use'. split_and!; [done..|].
      intros v Hv. rewrite Hm, Hm1, orb_true_iff, bool_decide_eq_true, elem_of_cons by done.
      destruct (decide (v = u)) as [->|]; tauto.
Qed.

Lemma analyze_defs_spec : ∀ defs def, bs_wf n def → Forall (λ v, 0 <= v < n) defs →
  ∃ def', analyze_defs defs def = Some def' ∧ bs_wf n def' ∧
    ∀ v, 0 <= v → (bs_mem def' v = true ↔ bs_mem def v = true ∨ v ∈ defs).
Proof.
  induction defs as [|u defs IH]; intros def Hd Hr.
  - exists def. split_and!; [done..|]. intros v _. rewrite elem_of_nil. tauto.
  - apply Forall_cons_1 in Hr as [Hru Hr]. cbn.
    destruct (bs_set_law n def u Hd Hru) as (def1 & -> & Hw1 & Hm1). cbn.
    destruct (IH def1 Hw1 Hr) as (def' & -> & Hw & Hm). exists def'. split_and!; [done..|].
    intros v Hv. rewrite Hm, Hm1, orb_true_iff, bool_decide_eq_true, elem_of_cons by done. tauto.
Qed.

Lemma defined_cons x xs v : defined (x :: xs) v ↔ v ∈ insn_defs x ∨ defined xs v.
Proof.
  unfold defined. split.
  - intros (y & [->|Hy]%elem_of_cons & Hv); [by left|right; by exists y].
  - intros [Hv|(y & Hy & Hv)]; [exists x|exists y]; split; try done; apply elem_of_cons; auto.
Qed.

Lemma analyze_insns_spec : ∀ xs use def, bs_wf n use → bs_wf n def →
  Forall (λ x, Forall (λ v, 0 <= v < n) (insn_uses x) ∧ Forall (λ v, 0 <= v < n) (insn_defs x)) xs →
  ∃ use' def', analyze_insns xs use def = Some (use', def') ∧ bs_wf n use' ∧ bs_wf n def' ∧
    ∀ v, 0 <= v →
      (bs_mem use' v = true ↔ bs_mem use v = true ∨ (bs_mem def v = false ∧ exposed xs v)) ∧
      (bs_mem def' v = true ↔ bs_mem def v = true ∨ defined xs v).
Proof.
  induction xs as [|x xs IH]; intros use def Hu Hd Hr.
  - exists use, def. split_and!; [done..|]. intros v _. cbn. unfold defined. split; [tauto|].
    split; [tauto|]. intros [?|(y & Hy & _)]; [done|]. by apply elem_of_nil in Hy.
  - apply Forall_cons_1 in Hr as [[Hru Hrd] Hr]. cbn.
    destruct (analyze_uses_spec def Hd _ use Hu Hru) as (use1 & -> & Hw1 & Hm1). cbn.
    destruct (analyze_defs_spec _ def Hd Hrd) as (def1 & -> & Hw2 & Hm2). cbn.
    destruct (IH use1 def1 Hw1 Hw2 Hr) as (use' & def' & -> & Hw3 & Hw4 & Hm).
    exists use', def'. split_and!; [done..|]. intros v Hv. destruct (Hm v Hv) as [Hmu Hmd].
    specialize (Hm1 v Hv). specialize (Hm2 v Hv).
    rewrite Hmu, Hmd, Hm1, Hm2, defined_cons. cbn.
    split; [|tauto]. rewrite <- (not_true_iff_false (bs_mem def1 v)), Hm2.
    destruct (bs_mem def v); intuition congruence.
Qed.

(** What the sets of a block are after [analyze_use_def]. *)
Record usedef_ok (b : basic_block B) : Prop := {
  ud_use_wf : bs_wf n (use_set b);
  ud_def_wf : bs_wf n (def_set b);
  ud_in_wf : bs_wf n (live_in_set b);
  ud_out_wf : bs_wf n (live_out_set b);
  ud_use v : 0 <= v → (bs_mem (use_set b) v = true ↔ exposed (insn_list (bb_code_of b)) v);
  ud_def v : 0 <= v → (bs_mem (def_set b) v = true ↔ defined (insn_list (bb_code_of b)) v);
  ud_in v : 0 <= v → bs_mem (live_in_set b) v = false;
  ud_out v : 0 <= v → bs_mem (live_out_set b) v = false;
}.

(** All sets allocated and empty. *)
Record empty_sets (b : basic_block B) : Prop := {
  es_use : bs_wf n (use_set b) ∧ ∀ v, bs_mem (use_set b) v = false;
  es_def : bs_wf n (def_set b) ∧ ∀ v, bs_mem (def_set b) v = false;
  es_in : bs_wf n (live_in_set b) ∧ ∀ v, bs_mem (live_in_set b) v = false;
  es_out : bs_wf n (live_out_set b) ∧ ∀ v, bs_mem (live_out_set b) v = false;
}.

Lemma init_sets_spec `{Allocator} cs h : 0 <= n < 2 ^ 31 →
  wp (init_sets n cs) (λ bs _, Forall empty_sets bs ∧ bb_code_of <$> bs = cs)
     (λ _ _, ¬ ∀ k size, malloc_ok k size = true) h.
Proof.
  intros Hn. revert h. induction cs as [|c cs IH]; intros h; [done|]. cbn [init_sets].
  eapply (wp_seq _ _ (λ b _, empty_sets b ∧ bb_code_of b = c)
            (λ _ _, ¬ ∀ k size, malloc_ok k size = true)); [|cbv beta|done].
  - unfold init_sets_of. eapply wp_seq; [by apply bs_alloc_law|cbv beta|done]. intros u h1 Hu.
    eapply wp_seq; [by apply bs_alloc_law|cbv beta|done]. intros d h2 Hd.
    eapply wp_seq; [by apply bs_alloc_law|cbv beta|done]. intros li h3 Hi.
    eapply wp_seq; [by apply bs_alloc_law|cbv beta|done]. intros lo h4 Ho.
    apply wp_ret. done.
  - intros b h1 [Hb Hc]. eapply wp_seq; [apply IH|cbv beta|done]. intros bs h2 [Hbs Hcs].
    apply wp_ret. split; [by constructor|]. cbn. congruence.
Qed.

Lemma analyze_use_def_of_spec b : empty_sets b →
  Forall (λ x, Forall (λ v, 0 <= v < n) (insn_uses x) ∧ Forall (λ v, 0 <= v < n) (insn_defs x))
    (insn_list (bb_code_of b)) →
  ∃ b', analyze_use_def_of b = Some b' ∧ usedef_ok b' ∧ bb_code_of b' = bb_code_of b.
Proof.
  intros [[Hu1 Hu2] [Hd1 Hd2] [Hi1 Hi2] [Ho1 Ho2]] Hr. unfold analyze_use_def_of.
  destruct (analyze_insns_spec _ _ _ Hu1 Hd1 Hr) as (use' & def' & -> & Hw1 & Hw2 & Hm).
  eexists. split; [done|]. split; [|done]. constructor; cbn; try done.
  - intros v Hv. destruct (Hm v Hv) as [-> _]. rewrite Hu2, Hd2. intuition congruence.
  - intros v Hv. destruct (Hm v Hv) as [_ ->]. rewrite Hd2. intuition congruence.
Qed.

Lemma analyze_use_def_spec bs : Forall empty_sets bs →
  Forall (λ c, Forall (λ x, Forall (λ v, 0 <= v < n) (insn_uses x) ∧
                            Forall (λ v, 0 <= v < n) (insn_defs x)) (insn_list c)) (bb_code_of <$> bs) →
  ∃ bs', analyze_use_def bs = Some bs' ∧ Forall usedef_ok bs' ∧ bb_code_of <$> bs' = bb_code_of <$> bs.
Proof.
  induction 1 as [|b bs Hb Hbs IH]; intros Hr; [by exists []|].
  apply Forall_cons_1 in Hr as [Hr1 Hr]. destruct (IH Hr) as (bs' & E & Hok & Hc).
  destruct (analyze_use_def_of_spec b Hb Hr1) as (b' & Eb & Hb' & Hcb).
  exists (b' :: bs'). split_and!; [|by constructor|cbn; congruence].
  unfold analyze_use_def in *. cbn. by rewrite Eb, E.
Qed.
End usedef.

(** ** The iteration *)

(** Counting how often a boolean function holds on a list of keys. *)
Definition count {A} (f : A → bool) (l : list A) : nat := length (filter (λ x, f x = true) l).

Lemma count_bound {A} (f : A → bool) l : (count f l <= length l)%nat.
Proof. apply length_filter. Qed.

Lemma count_cons {A} (f : A → bool) a l : count f (a :: l) = ((if f a then 1 else 0) + count f l)%nat.
Proof. unfold count. rewrite filter_cons. destruct (f a); case_decide; done. Qed.

Lemma count_mono {A} (f g : A → bool) l :
  (∀ x, x ∈ l → f x = true → g x = true) → (count f l <= count g l)%nat.
Proof.
  induction l as [|a l IH]; intros Hfg; [done|]. rewrite !count_cons.
  assert (count f l <= count g l)%nat by (apply IH; intros; apply Hfg; [by right|done]).
  specialize (Hfg a (list_elem_of_here _ _)). destruct (f a), (g a); try lia; by specialize (Hfg eq_refl).
Qed.

Lemma count_lt {A} (f g : A → bool) l a :
  (∀ x, x ∈ l → f x = true → g x = true) → a ∈ l → f a = false → g a = true →
  (count f l < count g l)%nat.
Proof.
  intros Hfg Ha Hf Hg. induction l as [|b l IH]; [by apply elem_of_nil in Ha|]. rewrite !count_cons.
  assert (∀ x, x ∈ l → f x = true → g x = true) as Hfg' by (intros; apply Hfg; [by right|done]).
  apply elem_of_cons in Ha as [<-|Ha].
  - rewrite Hf, Hg. pose proof (count_mono f g l Hfg'). lia.
  - specialize (IH Hfg' Ha). specialize (Hfg b (list_elem_of_here _ _)).
    destruct (f b), (g b); try lia; by specialize (Hfg eq_refl).
Qed.

Section iterate.
Context {B : Type} `{SetLaws B} (n : Z).

(** The blocks as they were before the iteration: their code, use and def sets. *)
Context (base : list (basic_block B)).
Context (Hbase : Forall (usedef_ok n) base).
Context (Hsucc : Forall (λ b, Forall (λ j, (j < length base)%nat) (successors (bb_code_of b))) base).

Definition view (sel : basic_block B → B) (bs : list (basic_block B)) (i : nat) (v : Z) : bool :=
  match bs !! i with Some b => bs_mem (sel b) v | None => false end.
Abbreviation In bs := (view live_in_set bs).
Abbreviation Out bs := (view live_out_set bs).
Abbreviation Use := (view use_set base).
Abbreviation Def := (view def_set base).
Definition succs (i : nat) : list nat :=
  match base !! i with Some b => successors (bb_code_of b) | None => [] end.

(** The sets may grow, nothing else changes. *)
Record frame (b0 b : basic_block B) : Prop := {
  fr_code : bb_code_of b = bb_code_of b0;
  fr_use : use_set b = use_set b0;
  fr_def : def_set b = def_set b0;
  fr_in : bs_wf n (live_in_set b);
  fr_out : bs_wf n (live_out_set b);
}.

(** Live on the level of blocks. *)
Inductive block_live (v : Z) : nat → Prop :=
  | bl_use i : Use i v = true → block_live v i
  | bl_flow i j : Def i v = false → j ∈ succs i → block_live v j → block_live v i.

Record inv (bs : list (basic_block B)) : Prop := {
  inv_frame : Forall2 frame base bs;
  inv_in i v : 0 <= v → In bs i v = true → Use i v = true ∨ (Out bs i v = true ∧ Def i v = false);
  inv_out i v : 0 <= v → Out bs i v = true → ∃ j, j ∈ succs i ∧ In bs j v = true;
  inv_live i v : 0 <= v → In bs i v = true → block_live v i;
}.

Lemma frame_lookup bs i b : Forall2 frame base bs → bs !! i = Some b →
  ∃ b0, base !! i = Some b0 ∧ frame b0 b ∧ usedef_ok n b0.
Proof.
  intros HF Hb. destruct (Forall2_lookup_r _ _ _ _ _ HF Hb) as (b0 & Hb0 & Hf).
  exists b0. split_and!; [done..|]. rewrite Forall_lookup in Hbase. eauto.
Qed.

Lemma frame_insert bs i b0 b : Forall2 frame base bs → base !! i = Some b0 → frame b0 b →
  Forall2 frame base (<[i := b]> bs).
Proof.
  intros HF E Hb. rewrite <- (list_insert_id base i b0) by done. by apply Forall2_insert.
Qed.

Lemma view_insert sel bs i b j v : (i < length bs)%nat →
  view sel (<[i := b]> bs) j v = if decide (j = i) then bs_mem (sel b) v else view sel bs j v.
Proof.
  intros Hi. unfold view. case_decide as E.
  - subst. by rewrite list_lookup_insert_eq.
  - by rewrite list_lookup_insert_ne.
Qed.

Lemma union_successors_spec bs : Forall2 frame base bs → ∀ ss out, bs_wf n out →
  Forall (λ j, (j < length bs)%nat) ss →
  ∃ out', union_successors bs ss out = Some out' ∧ bs_wf n out' ∧
    ∀ v, 0 <= v → (bs_mem out' v = true ↔ bs_mem out v = true ∨ ∃ j, j ∈ ss ∧ In bs j v = true).
Proof.
  intros HF. induction ss as [|j ss IH]; intros out Ho Hj.
  - exists out. split_and!; [done..|]. intros v _. split; [auto|]. intros [?|(j & Hj' & _)]; [done|].
    by apply elem_of_nil in Hj'.
  - apply Forall_cons_1 in Hj as [Hj Hjs]. destruct (lookup_lt_is_Some_2 bs j Hj) as [b Eb].
    destruct (frame_lookup _ _ _ HF Eb) as (b0 & _ & [_ _ _ Fi _] & _).
    cbn. rewrite Eb. cbn. destruct (bs_union_law n _ _ Fi Ho) as (o1 & -> & Hw1 & Hm1). cbn.
    destruct (IH o1 Hw1 Hjs) as (o2 & -> & Hw2 & Hm2). exists o2. split_and!; [done..|].
    intros v Hv. rewrite Hm2, Hm1, orb_true_iff by done.
    assert (In bs j v = bs_mem (live_in_set b) v) as Ein by (unfold view; by rewrite Eb). split.
    + intros [[?|?]|(k & Hk & Hin)]; [by left|right; exists j|right; exists k].
      * rewrite Ein. split; [apply list_elem_of_here|done].
      * split; [by apply list_elem_of_further|done].
    + intros [?|(k & [->|Hk]%elem_of_cons & Hin)]; [by left; left|left; right; by rewrite <- Ein|].
      right. by exists k.
Qed.

(** What one step does to the two sets of block [i]. *)
Record step_view (i : nat) (bs bs' : list (basic_block B)) : Prop := {
  sv_frame : Forall2 frame base bs';
  sv_other sel j v : j ≠ i → view sel bs' j v = view sel bs j v;
  sv_in v : 0 <= v → (In bs' i v = true ↔ Use i v = true ∨ (Out bs i v = true ∧ Def i v = false));
  sv_out v : 0 <= v → (Out bs' i v = true ↔ ∃ j, j ∈ succs i ∧ In bs' j v = true);
}.

(** The sets of block [i] are the same in both lists. *)
Definition same_sets (i : nat) (bs bs' : list (basic_block B)) : Prop :=
  ∀ v, 0 <= v → In bs' i v = In bs i v ∧ Out bs' i v = Out bs i v.

Definition state_ok (st : live_state B) : Prop :=
  inv (bbs st) ∧ bs_wf n (old_live_in_set st) ∧ bs_wf n (old_live_out_set st).

Lemma length_inv bs : Forall2 frame base bs → length bs = length base.
Proof. intros HF%Forall2_length. done. Qed.

Lemma base_use i b0 : base !! i = Some b0 → ∀ v, Use i v = bs_mem (use_set b0) v.
Proof. intros E v. unfold view. by rewrite E. Qed.
Lemma base_def i b0 : base !! i = Some b0 → ∀ v, Def i v = bs_mem (def_set b0) v.
Proof. intros E v. unfold view. by rewrite E. Qed.

Lemma eq_true_ext (a b : bool) : (a = true ↔ b = true) → a = b.
Proof. destruct a, b; intros E; try done; [symmetry|]; by apply E. Qed.

Lemma live_step_spec i st : state_ok st → (i < length base)%nat →
  ∃ st', live_step i st = Some st' ∧
    step_view i (bbs st) (bbs st') ∧
    bs_wf n (old_live_in_set st') ∧ bs_wf n (old_live_out_set st') ∧
    ∃ ch, changed st' = changed st || ch ∧ (ch = false ↔ same_sets i (bbs st) (bbs st')).
Proof.
  intros (Hinv & Hoi & Hoo) Hi. destruct Hinv as [HF _ _ _].
  pose proof (length_inv _ HF) as Hlen.
  destruct (lookup_lt_is_Some_2 (bbs st) i) as [b Eb]; [lia|].
  destruct (frame_lookup _ _ _ HF Eb) as (b0 & E0 & Hfr & Hud).
  pose proof Hfr as [Fc Fu Fd Fi Fo]. destruct Hud as [Wu Wd _ _ _ _ _ _].
  unfold live_step. rewrite Eb. cbn.
  destruct (bs_copy_law n _ _ Fi Hoi) as [Wci Mci]. destruct (bs_copy_law n _ _ Fo Hoo) as [Wco Mco].
  destruct (bs_copy_law n _ _ Fo Fi) as [W0 M0]. rewrite Fd.
  destruct (bs_sub_law n _ _ Wd W0) as (in1 & -> & W1 & M1). cbn. rewrite Fu.
  destruct (bs_union_law n _ _ Wu W1) as (in2 & -> & W2 & M2). cbn.
  set (bs1 := <[i := BB (bb_code_of b) (use_set b0) (def_set b0) in2 (live_out_set b)]> (bbs st)).
  assert (Forall2 frame base bs1) as HF1.
  { by eapply frame_insert. }
  destruct (bs_clear_law n _ Fo) as [Wc Mc].
  destruct (union_successors_spec bs1 HF1 (successors (bb_code_of b)) _ Wc) as (out & -> & Wout & Mout).
  { rewrite (length_inv _ HF1), Fc. rewrite Forall_lookup in Hsucc. by apply (Hsucc i). }
  cbn. set (bs2 := <[i := BB (bb_code_of b) (use_set b0) (def_set b0) in2 out]> (bbs st)).
  destruct (bs_equal_law n _ _ W2 Wci) as (ri & -> & Mri). cbn.
  assert (∀ v, In bs2 i v = bs_mem in2 v) as Vin
    by (intros v; unfold bs2; rewrite view_insert, decide_True by (done || lia); done).
  assert (∀ v, Out bs2 i v = bs_mem out v) as Vout
    by (intros v; unfold bs2; rewrite view_insert, decide_True by (done || lia); done).
  assert (∀ v, In (bbs st) i v = bs_mem (live_in_set b) v) as Oin by (intros v; unfold view; by rewrite Eb).
  assert (∀ v, Out (bbs st) i v = bs_mem (live_out_set b) v) as Oout by (intros v; unfold view; by rewrite Eb).
  assert (step_view i (bbs st) bs2) as Hsv.
  { constructor.
    - by eapply frame_insert.
    - intros sel j v Hne. unfold bs2. by rewrite view_insert, decide_False by (done || lia).
    - intros v Hv. rewrite Vin, M2, M1, M0, Oout, (base_use _ _ E0), (base_def _ _ E0) by done.
      destruct (bs_mem (use_set b0) v), (bs_mem (live_out_set b) v), (bs_mem (def_set b0) v); cbn; intuition congruence.
    - intros v Hv. rewrite Vout, Mout by done. rewrite (Mc v Hv).
      assert (∀ j, In bs2 j v = In bs1 j v) as E12.
      { intros j. unfold bs1, bs2. rewrite !view_insert by lia. by case_decide. }
      assert (succs i = successors (bb_code_of b)) as -> by (unfold succs; by rewrite E0, Fc).
      setoid_rewrite E12. intuition congruence. }
  assert ((∀ j, 0 <= j → bs_mem in2 j = bs_mem (bs_copy_to (live_in_set b) (old_live_in_set st)) j) ↔
          ∀ v, 0 <= v → In bs2 i v = In (bbs st) i v) as Ein.
  { split; intros E v Hv.
    - rewrite Vin, Oin, E, Mci by done. done.
    - specialize (E v Hv). rewrite Vin, Oin in E. by rewrite Mci. }
  rewrite Ein in Mri.
  destruct ri.
  - destruct (bs_equal_law n _ _ Wout Wco) as (ro & -> & Mro). cbn. eexists. split; [done|].
    split_and!; [done..|]. exists (negb ro). split; [done|].
    assert (ro = true ↔ ∀ v, 0 <= v → Out bs2 i v = Out (bbs st) i v) as Mro'.
    { rewrite Mro. split; intros E v Hv.
      - rewrite Vout, Oout, E, Mco by done. done.
      - specialize (E v Hv). rewrite Vout, Oout in E. by rewrite Mco. }
    rewrite negb_false_iff, Mro'. unfold same_sets. cbn [bbs]. split.
    + intros E v Hv. split; [by apply Mri|by apply E].
    + intros E v Hv. by apply E.
  - cbn. eexists. split; [done|]. split_and!; [done..|]. exists true. split; [done|].
    split; [done|]. intros E. symmetry. apply Mri. intros v Hv. by apply E.
Qed.

(** The sets only grow. *)
Definition grows (bs bs' : list (basic_block B)) : Prop :=
  ∀ i v, 0 <= v → (In bs i v = true → In bs' i v = true) ∧ (Out bs i v = true → Out bs' i v = true).

Lemma step_grows i bs bs' : inv bs → step_view i bs bs' → grows bs bs'.
Proof.
  intros [_ Hin Hout _] [_ Hother Vin Vout] j v Hv.
  assert (∀ k, In bs k v = true → In bs' k v = true) as Hi.
  { intros k Hk. destruct (decide (k = i)) as [->|Hne]; [|by rewrite Hother].
    apply Vin; [done|]. by apply Hin. }
  split; [apply Hi|]. intros Ho. destruct (decide (j = i)) as [->|Hne]; [|by rewrite Hother].
  apply Vout; [done|]. destruct (Hout _ _ Hv Ho) as (k & Hk & Hik). exists k. auto.
Qed.

Lemma step_inv i bs bs' : inv bs → step_view i bs bs' → inv bs'.
Proof.
  intros Hinv Hsv. pose proof (step_grows _ _ _ Hinv Hsv) as Hgr.
  destruct Hinv as [_ Hin Hout Hlive]. destruct Hsv as [HF Hother Vin Vout]. constructor.
  - done.
  - intros j v Hv Hj. destruct (decide (j = i)) as [->|Hne].
    + apply Vin in Hj as [?|[Ho ?]]; [by left| |done]. right. split; [by apply Hgr|done].
    + rewrite Hother in Hj by done. destruct (Hin _ _ Hv Hj) as [?|[Ho ?]]; [by left|].
      right. split; [by rewrite Hother|done].
  - intros j v Hv Hj. destruct (decide (j = i)) as [->|Hne]; [by apply Vout|].
    rewrite Hother in Hj by done. destruct (Hout _ _ Hv Hj) as (k & Hk & Hik).
    exists k. split; [done|by apply Hgr].
  - intros j v Hv Hj. destruct (decide (j = i)) as [->|Hne].
    + apply Vin in Hj as [?|[Ho Hd]]; [by constructor| |done].
      destruct (Hout _ _ Hv Ho) as (k & Hk & Hik). eapply bl_flow; [done..|]. by apply Hlive.
    + rewrite Hother in Hj by done. by apply Hlive.
Qed.

(** Block [i] satisfies the data flow equations. *)
Definition solved (bs : list (basic_block B)) (i : nat) : Prop :=
  ∀ v, 0 <= v →
    (In bs i v = true ↔ Use i v = true ∨ (Out bs i v = true ∧ Def i v = false)) ∧
    (Out bs i v = true ↔ ∃ j, j ∈ succs i ∧ In bs j v = true).

Definition same_views (bs bs' : list (basic_block B)) : Prop :=
  ∀ i v, 0 <= v → In bs' i v = In bs i v ∧ Out bs' i v = Out bs i v.

Lemma same_views_trans bs1 bs2 bs3 : same_views bs1 bs2 → same_views bs2 bs3 → same_views bs1 bs3.
Proof. intros E1 E2 i v Hv. destruct (E1 i v Hv) as [<- <-]. by apply E2. Qed.

Lemma solved_same bs bs' i : same_views bs bs' → solved bs i → solved bs' i.
Proof.
  intros E Hs v Hv. destruct (Hs v Hv) as [H1 H2]. destruct (E i v Hv) as [-> ->]. split; [done|].
  rewrite H2. split; intros (j & Hj & Hin); exists j; split; try done; by destruct (E j v Hv) as [Ei _];
    rewrite Ei in *.
Qed.

Lemma step_unchanged i bs bs' : step_view i bs bs' → same_sets i bs bs' → same_views bs bs' ∧ solved bs' i.
Proof.
  intros [_ Hother Vin Vout] E.
  assert (same_views bs bs') as Hsame.
  { intros j v Hv. destruct (decide (j = i)) as [->|]; [by apply E|]. by rewrite !Hother. }
  split; [done|]. intros v Hv. split; [|by apply Vout].
  rewrite (Vin v Hv). destruct (E v Hv) as [_ ->]. done.
Qed.

Lemma live_steps_spec order : ∀ st, state_ok st → Forall (λ i, (i < length base)%nat) order →
  ∃ st', live_steps order st = Some st' ∧ state_ok st' ∧ grows (bbs st) (bbs st') ∧
    (changed st' = false → changed st = false ∧ same_views (bbs st) (bbs st') ∧
                           Forall (solved (bbs st')) order) ∧
    (changed st' = true → changed st = true ∨ ¬ same_views (bbs st) (bbs st')).
Proof.
  induction order as [|i order IH]; intros st Hst Hord.
  - exists st. split_and!; [done|done|by intros i v _| |by left]. intros ->. split_and!; [done| |constructor].
    by intros i v _.
  - apply Forall_cons_1 in Hord as [Hi Hord].
    destruct (live_step_spec i st Hst Hi) as (st1 & E1 & Hsv & Wi & Wo & ch & Hch & Hsame).
    assert (state_ok st1) as Hst1 by (split_and!; [eapply step_inv; [apply Hst|done]|done|done]).
    pose proof (step_grows _ _ _ (proj1 Hst) Hsv) as Hgr1.
    destruct (IH st1 Hst1 Hord) as (st2 & E2 & Hst2 & Hgr2 & Hf & Ht).
    exists st2. cbn. rewrite E1. cbn. split_and!; [done|done| | |].
    + intros j v Hv. destruct (Hgr1 j v Hv), (Hgr2 j v Hv). auto.
    + intros Ef. destruct (Hf Ef) as (E & Hs & Hsol). rewrite Hch in E. apply orb_false_iff in E as [-> ->].
      destruct (step_unchanged _ _ _ Hsv (proj1 Hsame eq_refl)) as [Hs1 Hsol1].
      split_and!; [done|by eapply same_views_trans|]. constructor; [by eapply solved_same|done].
    + intros Et. destruct (Ht Et) as [E|Hn].
      * rewrite Hch in E. apply orb_true_iff in E as [->| ->]; [by left|]. right. intros Hs.
        assert (true = false) as Habs; [|done]. apply Hsame. intros v Hv.
        destruct (Hs i v Hv) as [Ei Eo]. destruct (Hgr1 i v Hv) as [G1 G2], (Hgr2 i v Hv) as [G3 G4].
        rewrite Ei in G3. rewrite Eo in G4. split; apply eq_true_ext; split; auto.
      * destruct (decide (changed st = true)) as [->|]; [by left|]. right. intros Hs. apply Hn.
        intros j v Hv. destruct (Hs j v Hv) as [Ei Eo].
        destruct (Hgr1 j v Hv) as [G1 G2], (Hgr2 j v Hv) as [G3 G4].
        rewrite Ei in *. rewrite Eo in *. split; apply eq_true_ext; split; auto.
Qed.

(** Every bit of the in and out sets of every block. *)
Definition keys : list (nat * nat * bool) :=
  list_prod (list_prod (seq 0 (length base)) (seq 0 (bs_width (B := B) n))) [true; false].
Definition bit_of (bs : list (basic_block B)) (k : nat * nat * bool) : bool :=
  let '(i, v, b) := k in if b then In bs i (Z.of_nat v) else Out bs i (Z.of_nat v).

Lemma length_keys : length keys = (2 * (length base * bs_width (B := B) n))%nat.
Proof. unfold keys. rewrite !length_prod, !length_seq. cbn. lia. Qed.

Lemma elem_keys i v b :
  (i, v, b) ∈ keys ↔ (i < length base)%nat ∧ (v < bs_width (B := B) n)%nat.
Proof.
  unfold keys. rewrite list_elem_of_In, !in_prod_iff, !in_seq. cbn.
  destruct b; split; intros; split_and!; lia || tauto.
Qed.

Lemma view_outside sel bs i v : Forall2 frame base bs → (sel = live_in_set ∨ sel = live_out_set) →
  0 <= v → ¬ ((i < length base)%nat ∧ (Z.to_nat v < bs_width (B := B) n)%nat) → view sel bs i v = false.
Proof.
  intros HF Hsel Hv Hout. unfold view. destruct (bs !! i) as [b|] eqn:E; [|done].
  pose proof (lookup_lt_Some _ _ _ E) as Hi. rewrite (length_inv _ HF) in Hi.
  destruct (frame_lookup _ _ _ HF E) as (b0 & _ & [_ _ _ Fi Fo] & _).
  apply (bs_width_law n); [by destruct Hsel; subst|lia].
Qed.

Lemma grows_count bs bs' : inv bs → inv bs' → grows bs bs' → ¬ same_views bs bs' →
  (count (bit_of bs) keys < count (bit_of bs') keys)%nat.
Proof.
  intros [HF _ _ _] [HF' _ _ _] Hgr Hne.
  assert (∀ k, k ∈ keys → bit_of bs k = true → bit_of bs' k = true) as Hmono.
  { intros [[i v] b] _. destruct (Hgr i (Z.of_nat v)) as [G1 G2]; [lia|]. by destruct b. }
  destruct (decide (Exists (λ k, bit_of bs k = false ∧ bit_of bs' k = true) keys)) as [He|Hn].
  - apply Exists_exists in He as (k & Hk%list_elem_of_In & Hf & Ht). by eapply count_lt.
  - destruct Hne. intros i v Hv.
    destruct (decide ((i < length base)%nat ∧ (Z.to_nat v < bs_width (B := B) n)%nat)) as [Hin|Hout].
    + assert (∀ b, bit_of bs' (i, Z.to_nat v, b) = bit_of bs (i, Z.to_nat v, b)) as Heq.
      { intros b. apply eq_true_ext. split; [|by apply Hmono, elem_keys].
        intros Ht. destruct (bit_of bs (i, Z.to_nat v, b)) eqn:Ef; [done|]. destruct Hn.
        apply Exists_exists. exists (i, Z.to_nat v, b). split; [|done].
        by apply list_elem_of_In, elem_keys. }
      split; [specialize (Heq true)|specialize (Heq false)]; cbn in Heq;
        by rewrite Z2Nat.id in Heq.
    + by rewrite !view_outside by auto.
Qed.

(** The order visits every block. *)
Lemma solved_all bs : Forall (solved bs) (rev (seq 0 (length base))) →
  ∀ i, (i < length base)%nat → solved bs i.
Proof.
  intros Hs i Hi. rewrite Forall_forall in Hs. apply Hs. rewrite <- in_rev. apply in_seq. lia.
Qed.

Lemma live_loop_spec : ∀ fuel st, state_ok st →
  (length keys < count (bit_of (bbs st)) keys + fuel)%nat →
  ∃ st', live_loop fuel st = Some st' ∧ inv (bbs st') ∧ ∀ i, (i < length base)%nat → solved (bbs st') i.
Proof.
  induction fuel as [|fuel IH]; intros st Hst Hf.
  - pose proof (count_bound (bit_of (bbs st)) keys). lia.
  - cbn. unfold live_pass. pose proof (length_inv _ (inv_frame _ (proj1 Hst))) as Hlen. rewrite Hlen.
    set (st0 := LiveState _ _ _ _). assert (state_ok st0) as Hst0 by exact Hst.
    destruct (live_steps_spec (rev (seq 0 (length base))) st0 Hst0) as (st1 & -> & Hst1 & Hgr & Hfalse & Htrue).
    { apply Forall_forall. intros i Hi%in_rev%in_seq. lia. }
    cbn. destruct (changed st1) eqn:Ech.
    + destruct (Htrue eq_refl) as [?|Hne]; [done|].
      pose proof (grows_count _ _ (proj1 Hst) (proj1 Hst1) Hgr Hne). apply IH; [done|]. lia.
    + exists st1. split_and!; [done|by apply Hst1|]. apply solved_all. by apply Hfalse.
Qed.

(** A solution that only holds live variables holds exactly the live variables. *)
Lemma solved_live bs : inv bs → (∀ i, (i < length base)%nat → solved bs i) →
  ∀ i v, 0 <= v → (In bs i v = true ↔ block_live v i).
Proof.
  intros [_ _ _ Hlive] Hs i v Hv. split; [by apply Hlive|].
  assert (∀ k, Use k v = true ∨ succs k ≠ [] → (k < length base)%nat) as Hlt.
  { intros k Hk. destruct (decide (k < length base)%nat) as [|Hge]; [done|].
    unfold view, succs in Hk. rewrite (lookup_ge_None_2 base k) in Hk by lia. by destruct Hk. }
  induction 1 as [i Hu|i j Hd Hj _ IH].
  - apply (Hs i); [by apply Hlt; left|done|by left].
  - assert (i < length base)%nat as Hi by (apply Hlt; right; destruct (succs i); [by apply elem_of_nil in Hj|done]).
    apply (Hs i Hi v Hv). right. split; [|done]. apply (Hs i Hi v Hv). by exists j.
Qed.

Lemma inv_base : inv base.
Proof.
  assert (∀ i v, 0 <= v → In base i v = false ∧ Out base i v = false) as Hz.
  { intros i v Hv. unfold view. destruct (base !! i) as [b|] eqn:E; [|done].
    rewrite Forall_lookup in Hbase. destruct (Hbase _ _ E). auto. }
  constructor.
  - apply Forall_Forall2_diag, Forall_forall. intros b Hb.
    rewrite Forall_forall in Hbase. destruct (Hbase b Hb). by constructor.
  - intros i v Hv. destruct (Hz i v Hv) as [-> _]. done.
  - intros i v Hv. destruct (Hz i v Hv) as [_ ->]. done.
  - intros i v Hv. destruct (Hz i v Hv) as [-> _]. done.
Qed.
End iterate.

(** ** From blocks to instructions *)

Section paths.
Context {B : Type} `{SetLaws B} (n : Z) (base : list (basic_block B)).
Context (Hbase : Forall (usedef_ok n) base).
Abbreviation cs := (bb_code_of <$> base).

Lemma exposed_live_at v i xs : exposed xs v → live_at cs v i xs.
Proof.
  induction xs as [|x xs IH]; [done|]. intros [Hu|[Hd He]]; [by constructor|].
  apply live_skip; [done|auto].
Qed.

Lemma skip_all v i xs : ¬ defined xs v → live_at cs v i [] → live_at cs v i xs.
Proof.
  intros Hd Hl. induction xs as [|x xs IH]; [done|]. rewrite defined_cons in Hd.
  apply live_skip; tauto.
Qed.

Lemma lookup_code i b : base !! i = Some b → cs !! i = Some (bb_code_of b).
Proof. intros E. by rewrite list_lookup_fmap, E. Qed.

Lemma block_live_in v i : 0 <= v → block_live base v i → live_in cs v i.
Proof.
  intros Hv. induction 1 as [i Hu|i j Hd Hj _ (d & Hcd & Hld)].
  - unfold view in Hu. destruct (base !! i) as [b|] eqn:E; [|done].
    exists (bb_code_of b). split; [by apply lookup_code|]. apply exposed_live_at.
    rewrite Forall_lookup in Hbase. by apply (ud_use n b (Hbase _ _ E)).
  - unfold view, succs in *. destruct (base !! i) as [b|] eqn:E; [|by apply elem_of_nil in Hj].
    exists (bb_code_of b). split; [by apply lookup_code|]. apply skip_all.
    + rewrite Forall_lookup in Hbase. rewrite <- (ud_def n b (Hbase _ _ E)) by done. congruence.
    + eapply live_next; [by apply lookup_code|done..].
Qed.

Lemma live_at_block v i xs : 0 <= v → live_at cs v i xs →
  exposed xs v ∨ (¬ defined xs v ∧ ∃ j, j ∈ succs base i ∧ block_live base v j).
Proof.
  intros Hv. induction 1 as [i x xs Hu|i x xs Hd _ IH|i c j d Hc Hj Hdj _ IH].
  - left. by left.
  - destruct IH as [He|[Hn Hs]]; [left; by right|]. right. split; [|done]. rewrite defined_cons. tauto.
  - right. split; [intros (x & Hx & _); by apply elem_of_nil in Hx|].
    rewrite list_lookup_fmap in Hc, Hdj. unfold succs.
    destruct (base !! i) as [b|] eqn:Eb; [|done]. injection Hc as <-.
    destruct (base !! j) as [b'|] eqn:Eb'; [|done]. injection Hdj as <-.
    exists j. split; [done|]. rewrite Forall_lookup in Hbase. pose proof (Hbase _ _ Eb') as Hud.
    destruct IH as [He|[Hn (k & Hk & Hbl)]].
    + apply bl_use. unfold view. rewrite Eb'. by apply (ud_use n b' Hud).
    + eapply bl_flow; [|done..]. unfold view. rewrite Eb'. apply not_true_is_false.
      rewrite (ud_def n b' Hud) by done. done.
Qed.

Lemma live_in_block v i : 0 <= v → live_in cs v i → block_live base v i.
Proof.
  intros Hv (c & Hc & Hl). rewrite list_lookup_fmap in Hc.
  destruct (base !! i) as [b|] eqn:Eb; [|done]. injection Hc as <-.
  pose proof Hbase as Hb. rewrite Forall_lookup in Hb. pose proof (Hb _ _ Eb) as Hud.
  destruct (live_at_block v i _ Hv Hl) as [He|[Hn (k & Hk & Hbl)]].
  - apply bl_use. unfold view. rewrite Eb. by apply (ud_use n b Hud).
  - eapply bl_flow; [|done..]. unfold view. rewrite Eb. apply not_true_is_false.
    rewrite (ud_def n b Hud) by done. done.
Qed.
End paths.

(** ** The analysis *)

Section analysis.
Context {B : Type} `{SetLaws B} `{Allocator}.

(** The result of the analysis of the code [cs]. *)
Definition liveness_of (cs : list bb_code) (bs : list (basic_block B)) : Prop :=
  bb_code_of <$> bs = cs ∧
  ∀ i b, bs !! i = Some b → ∀ v, 0 <= v →
    (bs_mem (live_in_set b) v = true ↔ live_in cs v i) ∧
    (bs_mem (live_out_set b) v = true ↔ live_out cs v i).

Lemma frame_codes n base bs : Forall2 (frame n) base bs → bb_code_of <$> bs = bb_code_of <$> base.
Proof. induction 1 as [|b0 b base bs [Hc _ _ _ _] _ IH]; cbn; [done|]. by rewrite Hc, IH. Qed.

Lemma solution_liveness n base bs :
  Forall (usedef_ok n) base → inv n base bs → (∀ i, (i < length base)%nat → solved base bs i) →
  liveness_of (bb_code_of <$> base) bs.
Proof.
  intros Hb Hinv Hs. pose proof (inv_frame _ _ _ Hinv) as HF.
  split; [by eapply frame_codes|]. intros i b E v Hv.
  assert (∀ k, view live_in_set bs k v = true ↔ live_in (bb_code_of <$> base) v k) as Hin.
  { intros k. rewrite (solved_live n base bs Hinv Hs) by done.
    split; [by apply (block_live_in n)|by apply (live_in_block n)]. }
  split.
  - rewrite <- Hin. unfold view. by rewrite E.
  - assert (i < length base)%nat as Hi
      by (rewrite <- (length_inv _ _ _ HF); by eapply lookup_lt_Some).
    assert (bs_mem (live_out_set b) v = view live_out_set bs i v) as -> by (unfold view; by rewrite E).
    rewrite (proj2 (Hs i Hi v Hv)). destruct (lookup_lt_is_Some_2 base i Hi) as [b0 E0].
    unfold live_out, succs. rewrite list_lookup_fmap, E0. cbn. split.
    + intros (j & Hj & Hl). exists (bb_code_of b0), j. rewrite <- Hin. done.
    + intros (c & j & [= <-] & Hj & Hl). exists j. by rewrite Hin.
Qed.

Lemma analyze_liveness_wf_wp n cs h : 0 <= n < 2 ^ 31 → code_ok n cs →
  wp (analyze_liveness n cs) (λ bs _, liveness_of cs bs ∧ Forall (λ b, bs_wf n (live_out_set b)) bs)
     (λ _ _, ¬ ∀ k size, malloc_ok k size = true) h.
Proof.
  intros Hn Hok. unfold analyze_liveness.
  eapply wp_seq; [by apply init_sets_spec|cbv beta|done]. intros bs h1 [Hes Hcs].
  assert (Forall (λ c, Forall (λ x, Forall (λ v, 0 <= v < n) (insn_uses x) ∧
            Forall (λ v, 0 <= v < n) (insn_defs x)) (insn_list c)) (bb_code_of <$> bs)) as Hr.
  { rewrite Hcs. eapply Forall_impl; [|exact Hok]. by intros c []. }
  destruct (analyze_use_def_spec n bs Hes Hr) as (base & -> & Hud & Hc). rewrite Hcs in Hc.
  apply wp_bind, wp_ret. unfold analyze_live_sets.
  eapply wp_seq; [by apply bs_alloc_law|cbv beta|done]. intros oi h2 [Woi _].
  eapply wp_seq; [by apply bs_alloc_law|cbv beta|done]. intros oo h3 [Woo _].
  assert (Forall (λ b, Forall (λ j, (j < length base)%nat) (successors (bb_code_of b))) base) as Hsucc.
  { assert (length base = length cs) as -> by (rewrite <- Hc; by rewrite length_fmap).
    assert (Forall (λ c, Forall (λ j, (j < length cs)%nat) (successors c)) (bb_code_of <$> base)) as Hf
      by (rewrite Hc; eapply Forall_impl; [|exact Hok]; by intros c []).
    by rewrite Forall_fmap in Hf. }
  destruct (live_loop_spec n base Hud Hsucc (live_fuel n base) (LiveState base oi oo false))
    as (st' & -> & Hinv & Hs).
  - split_and!; [by apply inv_base|done|done].
  - unfold live_fuel. rewrite length_keys. lia.
  - apply wp_bind, wp_ret, wp_ret. rewrite <- Hc. split; [by eapply solution_liveness|].
    pose proof (inv_frame _ _ _ Hinv) as HF. clear -HF. induction HF as [|b0 b ? ? []]; by constructor.
Qed.

Lemma analyze_liveness_wp n cs h : 0 <= n < 2 ^ 31 → code_ok n cs →
  wp (analyze_liveness n cs) (λ bs _, liveness_of cs bs)
     (λ _ _, ¬ ∀ k size, malloc_ok k size = true) h.
Proof.
  intros Hn Hok. eapply wp_mono; [by apply analyze_liveness_wf_wp| |done]. by intros bs h' [].
Qed.
End analysis.

(** ** Theorems *)

(** Block 0 defines 0 and 1; block 1 is a loop that uses 0 and redefines it, and
    goes on to block 2, which uses 1. *)
Definition loop_code : list bb_code :=
  [BBCode [Insn [] [0] false; Insn [] [1] false] [1%nat];
   BBCode [Insn [0] [0] false] [1%nat; 2%nat];
   BBCode [Insn [1] [] false] []].

(** C23: on every control flow graph whose registers and successors are in range,
    [analyze_liveness] terminates without undefined behaviour and computes, for
    every block, exactly the variables that some execution path from the start
    (end) of the block uses before defining them; it fails only when memory runs
    out. *)
Theorem analyze_liveness_correct `{Allocator} nr_vregs cs h :
  0 <= nr_vregs < 2 ^ 31 → code_ok nr_vregs cs →
  match analyze_liveness (B := bitset) nr_vregs cs h with
  | Done bs _ =>
    bb_code_of <$> bs = cs ∧
    ∀ i b, bs !! i = Some b → ∀ v, 0 <= v →
      (bit_at (bits (live_in_set b)) v = true ↔ live_in cs v i) ∧
      (bit_at (bits (live_out_set b)) v = true ↔ live_out cs v i)
  | Fail _ _ => ¬ ∀ k size, malloc_ok k size = true
  | Undef => False
  end.
Proof.
  intros Hn Hok. exact (analyze_liveness_wp (B := bitset) nr_vregs cs h Hn Hok).
Qed.
Lemma analyze_liveness_correct_witness :
  live_in loop_code 1 1 ∧ ¬ live_in loop_code 0 2.
Proof.
  pose proof (@analyze_liveness_correct (λ _ _, true) 2 loop_code (Mem 0 ∅)) as Hl.
  assert (∃ bs h, @analyze_liveness bitset _ (λ _ _, true) 2 loop_code (Mem 0 ∅) = Done bs h ∧
    (∃ b, bs !! 1%nat = Some b ∧ bit_at (bits (live_in_set b)) 1 = true) ∧
    (∃ b, bs !! 2%nat = Some b ∧ bit_at (bits (live_in_set b)) 0 = false))
    as (bs & h & E & (b1 & E1 & V1) & (b2 & E2 & V2)).
  { eexists _, _. split; [vm_compute; reflexivity|]. split; eexists; split; reflexivity. }
  rewrite E in Hl. destruct Hl as [_ Hl].
  - lia.
  - repeat constructor; cbn; lia.
  - split.
    + apply (Hl 1%nat b1 E1 1); [lia|exact V1].
    + intros Hlive. apply (Hl 2%nat b2 E2 0) in Hlive; [|lia]. rewrite V2 in Hlive. discriminate Hlive.
Defined.
