(* ===== verification/HashMap.v ===== *)
(** * lib/hash-map.c: chained hash tables

    The table is the source's array of buckets; a bucket is the list of its
    entries in list order ([list_add] puts an entry first).  The key operations
    are the source's [struct key_operations], a class whose instances are
    [pointer_key] and [string_key]; the client relies on [KeyLaws].  The result of
    an operation is the map afterwards, also when it returns an error.  The heap only
    decides which allocations fail: blocks are not tracked and releasing one leaves
    it as it is. *)

From S2P Require Import Prelude CMonad.
#[local] Open Scope Z_scope.

(** struct key_operations *)
Class KeyOps (K : Type) := {
  key_hash : K → Z;
  key_equals : K → K → bool;
}.

(** What the table relies on: [equals] is an equivalence that [hash] respects, and
    [hash] is an unsigned long. *)
Class KeyLaws (K : Type) `{KeyOps K} : Prop := {
  key_refl k : key_equals k k = true;
  key_sym k1 k2 : key_equals k1 k2 = true → key_equals k2 k1 = true;
  key_trans k1 k2 k3 : key_equals k1 k2 = true → key_equals k2 k3 = true → key_equals k1 k3 = true;
  key_hash_equals k1 k2 : key_equals k1 k2 = true → key_hash k1 = key_hash k2;
  key_hash_range k : is_u64 (key_hash k);
}.

Record hash_map_entry (K V : Type) := Entry { hash : Z; key : K; value : V }.
Arguments Entry {K V}.
Arguments hash {K V}.
Arguments key {K V}.
Arguments value {K V}.

Record hash_map (K V : Type) := HashMap {
  size : Z;
  resize_at : Z;
  table : list (list (hash_map_entry K V));
  table_size : Z;
}.
Arguments HashMap {K V}.
Arguments size {K V}.
Arguments resize_at {K V}.
Arguments table {K V}.
Arguments table_size {K V}.

Definition DEFAULT_CAPACITY : Z := 16.
Definition sizeof_list_head : Z := 16.
Definition sizeof_hash_map : Z := 72.
Definition sizeof_hash_map_entry : Z := 40.
Definition ENOMEM : Z := 12.

Section ops.
Context {K V : Type} `{KeyOps K}.
#[local] Abbreviation entry := (hash_map_entry K V).
#[local] Abbreviation map := (hash_map K V).

(** malloc: whether it succeeds. *)
Definition allocated `{Allocator} (sz : Z) : M mem unit bool := λ h,
  let '(p, h') := mem_malloc sz h in Done (match p with Some _ => true | None => false end) h'.

(** The product with the fill factor 0.75, converted to unsigned long; exact for
    sizes below 2^51. *)
Definition resize_threshold (n : Z) : Z := 3 * n / 4.

(** A null result is the error return. *)
Definition alloc_hash_map_with_size `{Allocator} (initial_size : Z) : M mem unit map :=
  let* ok := allocated sizeof_hash_map in
  if negb ok then fail tt else
  let* ok := allocated (sizeof_list_head * initial_size) in
  if negb ok then fail tt else
  ret (HashMap 0 (resize_threshold initial_size) (replicate (Z.to_nat initial_size) []) initial_size).

Definition alloc_hash_map `{Allocator} : M mem unit map := alloc_hash_map_with_size DEFAULT_CAPACITY.

(** Division by zero is undefined. *)
Definition get_index (m : map) (h : Z) : option nat :=
  if decide (table_size m = 0) then None else Some (Z.to_nat (h mod table_size m)).

Definition matches (h : Z) (k : K) (e : entry) : bool := bool_decide (h = hash e) && key_equals (key e) k.

(** The entry the loop over the bucket stops at. *)
Fixpoint find_entry (h : Z) (k : K) (b : list entry) : option entry :=
  match b with
  | [] => None
  | e :: b' => if matches h k e then Some e else find_entry h k b'
  end.

(** [ent->value = value] through the pointer to that entry. *)
Fixpoint set_value (h : Z) (k : K) (v : V) (b : list entry) : list entry :=
  match b with
  | [] => []
  | e :: b' => if matches h k e then Entry (hash e) (key e) v :: b' else e :: set_value h k v b'
  end.

(** [list_del] of that entry. *)
Fixpoint del_entry (h : Z) (k : K) (b : list entry) : list entry :=
  match b with
  | [] => []
  | e :: b' => if matches h k e then b' else e :: del_entry h k b'
  end.

Definition hash_map_lookup_entry (m : map) (k : K) : option (option entry) :=
  i ← get_index m (key_hash k);
  b ← table m !! i;
  Some (find_entry (key_hash k) k b).

Definition update_bucket (m : map) (i : nat) (f : list entry → list entry) : option map :=
  b ← table m !! i;
  Some (HashMap (size m) (resize_at m) (<[i := f b]> (table m)) (table_size m)).

(** [list_add] at the head of the bucket of its hash. *)
Definition add_entry (m : map) (e : entry) : option map :=
  i ← get_index m (hash e); update_bucket m i (λ b, e :: b).

(** The loop that moves the entries of the old table, in order. *)
Fixpoint rehash (es : list entry) (m : map) : option map :=
  match es with
  | [] => Some m
  | e :: es' =>
    m' ← add_entry m (Entry (key_hash (key e)) (key e) (value e));
    rehash es' m'
  end.

Definition lift {A} (o : option A) : M mem unit A :=
  match o with Some a => ret a | None => undef end.

(** The sizes are unsigned int here. *)
Definition try_to_expand `{Allocator} (m : map) : M mem unit map :=
  let new_table_size := u32 (u32 (table_size m) * 2 + 1) in
  let* ok := allocated (sizeof_list_head * new_table_size) in
  if negb ok then ret m
  else lift (rehash (concat (take (Z.to_nat (u32 (table_size m))) (table m)))
               (HashMap (size m) (resize_threshold new_table_size)
                        (replicate (Z.to_nat new_table_size) []) new_table_size)).

Definition hash_map_put `{Allocator} (m : map) (k : K) (v : V) : M mem unit (Z * map) :=
  let* ent := lift (hash_map_lookup_entry m k) in
  match ent with
  | Some _ =>
    let* m' := lift (i ← get_index m (key_hash k); update_bucket m i (set_value (key_hash k) k v)) in
    ret (0, m')
  | None =>
    let* m := (if decide (u64 (size m + 1) >= resize_at m) then try_to_expand m else ret m) in
    let* ok := allocated sizeof_hash_map_entry in
    if negb ok then ret (- ENOMEM, m)
    else
      let* m' := lift (add_entry m (Entry (key_hash k) k v)) in
      ret (0, HashMap (u64 (size m' + 1)) (resize_at m') (table m') (table_size m'))
  end.

(** [None]: the error return, with [*value_p] unchanged. *)
Definition hash_map_get (m : map) (k : K) : option (option V) :=
  ent ← hash_map_lookup_entry m k;
  Some (match ent with Some e => Some (value e) | None => None end).

(** The value is what the optional [final_process] is called with. *)
Definition hash_map_remove (m : map) (k : K) : option (Z * option V * map) :=
  ent ← hash_map_lookup_entry m k;
  match ent with
  | None => Some (-1, None, m)
  | Some e =>
    m' ← (i ← get_index m (key_hash k); update_bucket m i (del_entry (key_hash k) k));
    Some (0, Some (value e), HashMap (u64 (size m' - 1)) (resize_at m') (table m') (table_size m'))
  end.

Definition hash_map_contains (m : map) (k : K) : option bool :=
  ent ← hash_map_lookup_entry m k; 
  Some (match ent with Some _ => true | None => false end).
(** The values [final_process] is called with while the map is released. *)
Definition free_hash_map (m : map) : list V := (λ e, value e) <$> concat (table m).
Definition hash_map_size (m : map) : Z := s32 (size m).
Definition hash_map_is_empty (m : map) : bool := bool_decide (size m = 0).
End ops.

(** ** The two kinds of keys *)

(** Addresses. *)
Definition ptr_hash (p : Z) : Z := u64 p.
Definition ptr_equals (p1 p2 : Z) : bool := bool_decide (p1 = p2).
Definition pointer_key : KeyOps Z := {| key_hash := ptr_hash; key_equals := ptr_equals |}.

(** NUL-terminated strings, less the terminator; char is signed. *)
Definition string_hash (s : list Z) : Z := foldl (λ h c, u64 (31 * h + s8 c)) 0 s.
Definition string_equals (s1 s2 : list Z) : bool := bool_decide (s1 = s2).
Definition string_key : KeyOps (list Z) := {| key_hash := string_hash; key_equals := string_equals |}.

#[export] Instance pointer_key_laws : @KeyLaws Z pointer_key.
Proof.
  split; cbn; unfold ptr_equals, ptr_hash; intros *; rewrite ?bool_decide_eq_true; try congruence.
  apply u64_range.
Qed.
#[export] Instance string_key_laws : @KeyLaws (list Z) string_key.
Proof.
  split; cbn; unfold string_equals; intros *; rewrite ?bool_decide_eq_true; try congruence.
  unfold string_hash. destruct k as [|c k _] using rev_ind; [cbn; clia|].
  rewrite foldl_snoc. apply u64_range.
Qed.

(** ** Invariant *)

Section spec.
Context {K V : Type} `{KeyLaws K}.
#[local] Abbreviation entry := (hash_map_entry K V).
#[local] Abbreviation map := (hash_map K V).

Definition entries (m : map) : list entry := concat (table m).

(** No two entries have equal keys. *)
Fixpoint uniq (l : list entry) : Prop :=
  match l with
  | [] => True
  | e :: l' => Forall (λ e', key_equals (key e) (key e') = false) l' ∧ uniq l'
  end.

(** Every entry is in the bucket of its hash. *)
Record table_ok (m : map) : Prop := {
  tok_pos : 0 < table_size m < 2 ^ 32;
  tok_len : Z.of_nat (length (table m)) = table_size m;
  tok_hash i b e : table m !! i = Some b → e ∈ b →
    hash e = key_hash (key e) ∧ Z.of_nat i = hash e mod table_size m;
  tok_uniq : uniq (entries m);
}.

Record map_ok (m : map) : Prop := {
  mok_table : table_ok m;
  mok_size : size m = Z.of_nat (length (entries m));
}.

(** What the map says about a key. *)
Definition maps_to (m : map) (k : K) (v : V) : Prop :=
  ∃ e, e ∈ entries m ∧ key_equals (key e) k = true ∧ value e = v.

Lemma key_equals_comm k1 k2 : key_equals k1 k2 = key_equals k2 k1.
Proof.
  destruct (key_equals k1 k2) eqn:E1, (key_equals k2 k1) eqn:E2; try done.
  - apply key_sym in E1. congruence.
  - apply key_sym in E2. congruence.
Qed.

Lemma uniq_perm l l' : l ≡ₚ l' → uniq l → uniq l'.
Proof.
  induction 1 as [|e l l' HP IH|e1 e2 l|]; cbn; [done| | |auto].
  - intros [Hf Hu]. split; [by rewrite <- HP|auto].
  - intros [Hf1 [Hf2 Hu]]. inversion_clear Hf1. split_and!; [|done|done].
    constructor; [by rewrite key_equals_comm|done].
Qed.

Lemma uniq_app l1 l2 : uniq (l1 ++ l2) → uniq l1 ∧ uniq l2.
Proof.
  induction l1 as [|e l1 IH]; cbn; [done|]. rewrite Forall_app. intros [[? ?] ?]. tauto.
Qed.

Lemma uniq_concat (t : list (list entry)) i b : uniq (concat t) → t !! i = Some b → uniq b.
Proof.
  revert i. induction t as [|b' t IH]; intros [|i]; cbn; try done.
  - intros [? _]%uniq_app [= <-]. done.
  - intros [_ ?]%uniq_app. by apply IH.
Qed.

Lemma uniq_eq l e1 e2 : uniq l → e1 ∈ l → e2 ∈ l → key_equals (key e1) (key e2) = true → e1 = e2.
Proof.
  induction l as [|e l IH]; cbn; [by intros _ ?%elem_of_nil|]. rewrite Forall_forall.
  intros [Hf Hu] [->|H1]%elem_of_cons [->|H2]%elem_of_cons E; [done| | |auto].
  - apply list_elem_of_In, Hf in H2. congruence.
  - apply list_elem_of_In, Hf in H1. rewrite key_equals_comm in E. congruence.
Qed.

Lemma elem_concat {A} (t : list (list A)) x : x ∈ concat t ↔ ∃ i b, t !! i = Some b ∧ x ∈ b.
Proof.
  induction t as [|b t IH]; cbn.
  - split; [by intros ?%elem_of_nil|by intros (i & b & ? & ?)].
  - rewrite elem_of_app, IH. split.
    + intros [Hx|(i & b' & Hb & Hx)]; [by exists O, b|by exists (S i), b'].
    + intros ([|i] & b' & Hb & Hx); cbn in Hb; [injection Hb as <-; by left|right; by exists i, b'].
Qed.

(** The bucket of a key. *)
Lemma get_index_ok m k : table_ok m →
  ∃ i b, get_index m (key_hash k) = Some i ∧ table m !! i = Some b ∧
    Z.of_nat i = key_hash k mod table_size m.
Proof.
  intros [Hp Hl _ _]. unfold get_index. rewrite decide_False by lia.
  pose proof (Z.mod_pos_bound (key_hash k) (table_size m)) as Hm.
  destruct (lookup_lt_is_Some_2 (table m) (Z.to_nat (key_hash k mod table_size m))) as [b Eb]; [lia|].
  eexists _, b. split_and!; [done|done|lia].
Qed.

(** An entry whose key equals [k] is in the bucket of [k] and matches there. *)
Lemma same_key_bucket m k i b j b' e : table_ok m →
  Z.of_nat i = key_hash k mod table_size m → table m !! i = Some b →
  table m !! j = Some b' → e ∈ b' → key_equals (key e) k = true → j = i ∧ b' = b.
Proof.
  intros Hok Hi Hb Hj He Ek. destruct (tok_hash m Hok _ _ _ Hj He) as [Hh Hm].
  rewrite Hh, (key_hash_equals _ _ Ek) in Hm. assert (j = i) as -> by lia. split; congruence.
Qed.

Lemma matches_key m k i b e : table_ok m → table m !! i = Some b → e ∈ b →
  matches (key_hash k) k e = key_equals (key e) k.
Proof.
  intros Hok Hb He. unfold matches. destruct (tok_hash m Hok _ _ _ Hb He) as [-> _].
  destruct (key_equals (key e) k) eqn:E; [|apply andb_false_r].
  rewrite (key_hash_equals _ _ E), bool_decide_true by done. done.
Qed.

Lemma find_entry_spec h k (b : list entry) :
  match find_entry h k b with
  | Some e => e ∈ b ∧ matches h k e = true
  | None => ∀ e, e ∈ b → matches h k e = false
  end.
Proof.
  induction b as [|e b IH]; cbn; [by intros e ?%elem_of_nil|].
  destruct (matches h k e) eqn:E; [split; [apply list_elem_of_here|done]|].
  destruct (find_entry h k b) as [e'|].
  - destruct IH. split; [by apply list_elem_of_further|done].
  - intros e' [->|He]%elem_of_cons; [done|auto].
Qed.

(** Looking a key up finds the entry with that key, if there is one. *)
Lemma lookup_entry_ok m k : table_ok m →
  ∃ r, hash_map_lookup_entry m k = Some r ∧
    match r with
    | Some e => e ∈ entries m ∧ key_equals (key e) k = true
    | None => ∀ e, e ∈ entries m → key_equals (key e) k = false
    end.
Proof.
  intros Hok. destruct (get_index_ok m k Hok) as (i & b & Ei & Eb & Hi).
  unfold hash_map_lookup_entry. rewrite Ei. cbn. rewrite Eb. cbn.
  pose proof (find_entry_spec (key_hash k) k b) as Hf. eexists. split; [done|].
  destruct (find_entry (key_hash k) k b) as [e|].
  - destruct Hf as [He Hm]. rewrite (matches_key m k i b) in Hm by done.
    split; [|done]. apply elem_concat. by exists i, b.
  - intros e (j & b' & Hj & He)%elem_concat. apply not_true_is_false. intros Ek.
    destruct (same_key_bucket m k i b j b' e Hok Hi Eb Hj He Ek) as [-> ->].
    specialize (Hf e He). rewrite (matches_key m k i b) in Hf by done. congruence.
Qed.

Lemma maps_to_entry m k e : table_ok m → e ∈ entries m → key_equals (key e) k = true →
  ∀ v, maps_to m k v ↔ v = value e.
Proof.
  intros Hok He Ek v. split.
  - intros (e' & He' & Ek' & <-). f_equal. eapply uniq_eq; [apply Hok|done..|].
    eapply key_trans; [done|]. by apply key_sym.
  - intros ->. by exists e.
Qed.

(** ** Updating one bucket *)

Definition update_entry (k : K) (v : V) (e : entry) : entry :=
  if key_equals (key e) k then Entry (hash e) (key e) v else e.
Definition other_key (k : K) (e : entry) : bool := negb (key_equals (key e) k).

Lemma no_match_update k v (l : list entry) :
  (∀ e, e ∈ l → key_equals (key e) k = false) → update_entry k v <$> l = l.
Proof.
  induction l as [|e l IH]; intros Hl; [done|]. cbn. unfold update_entry at 1.
  rewrite (Hl e (list_elem_of_here _ _)). f_equal. apply IH. intros e' He'. apply Hl. by right.
Qed.

Lemma no_match_filter k (l : list entry) :
  (∀ e, e ∈ l → key_equals (key e) k = false) → List.filter (other_key k) l = l.
Proof.
  induction l as [|e l IH]; intros Hl; [done|]. cbn. unfold other_key at 1.
  rewrite (Hl e (list_elem_of_here _ _)). cbn. f_equal. apply IH. intros e' He'. apply Hl. by right.
Qed.

(** The entries after a matching one do not match. *)
Lemma uniq_rest k e (l : list entry) : uniq (e :: l) → key_equals (key e) k = true →
  ∀ e', e' ∈ l → key_equals (key e') k = false.
Proof.
  cbn. rewrite Forall_forall. intros [Hf _] Ek e' He'. apply not_true_is_false. intros Ek'.
  apply list_elem_of_In, Hf in He'. rewrite (key_trans _ _ _ Ek (key_sym _ _ Ek')) in He'. done.
Qed.

Lemma set_value_map h k v (b : list entry) : uniq b →
  (∀ e, e ∈ b → matches h k e = key_equals (key e) k) → set_value h k v b = update_entry k v <$> b.
Proof.
  induction b as [|e b IH]; intros Hu Hm; [done|]. cbn. unfold update_entry at 1.
  rewrite (Hm e (list_elem_of_here _ _)). destruct (key_equals (key e) k) eqn:E.
  - f_equal. symmetry. apply no_match_update. by eapply uniq_rest.
  - f_equal. apply IH; [apply Hu|]. intros e' He'. apply Hm. by right.
Qed.

Lemma del_entry_filter h k (b : list entry) : uniq b →
  (∀ e, e ∈ b → matches h k e = key_equals (key e) k) → del_entry h k b = List.filter (other_key k) b.
Proof.
  induction b as [|e b IH]; intros Hu Hm; [done|]. cbn. unfold other_key at 1.
  rewrite (Hm e (list_elem_of_here _ _)). destruct (key_equals (key e) k) eqn:E; cbn.
  - symmetry. apply no_match_filter. by eapply uniq_rest.
  - f_equal. apply IH; [apply Hu|]. intros e' He'. apply Hm. by right.
Qed.

(** A function that distributes over the buckets and changes only one of them. *)
Lemma concat_insert (g : list entry → list entry) (t : list (list entry)) i b :
  g [] = [] → (∀ l l', g (l ++ l') = g l ++ g l') →
  t !! i = Some b → (∀ j b', t !! j = Some b' → j ≠ i → g b' = b') →
  concat (<[i := g b]> t) = g (concat t).
Proof.
  intros Hnil Happ. revert i. induction t as [|b0 t IH]; intros i Hb Ho; [done|].
  destruct i as [|i]; cbn in Hb |- *.
  - injection Hb as ->. rewrite Happ. f_equal.
    assert (∀ t', (∀ j b', t' !! j = Some b' → g b' = b') → g (concat t') = concat t') as Hall.
    { induction t' as [|b' t' IH']; intros Ht; cbn; [done|]. rewrite Happ. f_equal; [by apply (Ht O)|].
      apply IH'. intros j. apply (Ht (S j)). }
    symmetry. apply Hall. intros j b' Hj. by apply (Ho (S j)).
  - rewrite Happ, (Ho O b0) by done. f_equal. apply IH; [done|]. intros j b' Hj Hne.
    apply (Ho (S j)); [done|]. congruence.
Qed.

(** Everything the lookups see of a map whose entries are those of [m] under [g]. *)
Lemma update_bucket_ok m k (f : list entry → list entry) (g : list entry → list entry) :
  table_ok m → g [] = [] → (∀ l l', g (l ++ l') = g l ++ g l') →
  (∀ l, (∀ e, e ∈ l → key_equals (key e) k = false) → g l = l) →
  (∀ b, uniq b → (∀ e, e ∈ b → matches (key_hash k) k e = key_equals (key e) k) → f b = g b) →
  (∀ l e, e ∈ g l → ∃ e0, e0 ∈ l ∧ hash e = hash e0 ∧ key e = key e0) →
  uniq (g (entries m)) →
  ∃ m', (i ← get_index m (key_hash k); update_bucket m i f) = Some m' ∧
    table_ok m' ∧ entries m' = g (entries m) ∧ size m' = size m ∧ resize_at m' = resize_at m.
Proof.
  intros Hok Hnil Happ Hno Hfg Hkeys Hu.
  destruct (get_index_ok m k Hok) as (i & b & -> & Eb & Hi). cbn. unfold update_bucket. rewrite Eb. cbn.
  assert (f b = g b) as Ef.
  { apply Hfg; [eapply uniq_concat; [apply Hok|done]|]. intros e He. by eapply matches_key. }
  rewrite Ef. assert (concat (<[i := g b]> (table m)) = g (entries m)) as Ec.
  { apply concat_insert; try done. intros j b' Hj Hne. apply Hno. intros e He.
    apply not_true_is_false. intros Ek. by destruct (same_key_bucket m k i b j b' e Hok Hi Eb Hj He Ek). }
  eexists. split; [done|]. split_and!; [|done|done|done]. destruct Hok as [Hp Hl Hh _].
  constructor; cbn; [done|by rewrite length_insert| |unfold entries in *; cbn; by rewrite Ec].
  intros j b' e Hj He. destruct (decide (j = i)) as [->|Hne].
  - rewrite list_lookup_insert_eq in Hj by (by eapply lookup_lt_Some). injection Hj as <-.
    destruct (Hkeys _ _ He) as (e0 & He0 & -> & ->). by apply (Hh i b).
  - rewrite list_lookup_insert_ne in Hj by done. by eapply Hh.
Qed.

Lemma update_entry_same k v (e : entry) :
  hash (update_entry k v e) = hash e ∧ key (update_entry k v e) = key e.
Proof. unfold update_entry. by destruct (key_equals (key e) k). Qed.

Lemma uniq_update k v (l : list entry) : uniq l → uniq (update_entry k v <$> l).
Proof.
  induction l as [|e l IH]; cbn; [done|]. intros [Hf Hu]. split; [|auto].
  apply Forall_fmap. eapply Forall_impl; [|exact Hf]. intros e' He'. cbn.
  by rewrite !(proj2 (update_entry_same _ _ _)).
Qed.

Lemma uniq_filter k (l : list entry) : uniq l → uniq (List.filter (other_key k) l).
Proof.
  induction l as [|e l IH]; cbn; [done|]. intros [Hf Hu]. destruct (other_key k e); [|auto].
  split; [|auto]. rewrite Forall_forall in *. intros e' He'. apply filter_In in He' as [He' _]. auto.
Qed.

(** Exactly one entry has a key that is there. *)
Lemma filter_one k (l : list entry) e : uniq l → e ∈ l → key_equals (key e) k = true →
  Z.of_nat (length (List.filter (other_key k) l)) = Z.of_nat (length l) - 1.
Proof.
  induction l as [|e0 l IH]; intros Hu He Ek; [by apply elem_of_nil in He|]. cbn.
  unfold other_key at 1. destruct (key_equals (key e0) k) eqn:E0; cbn [negb].
  - rewrite no_match_filter by (by eapply uniq_rest). lia.
  - apply elem_of_cons in He as [->|He]; [congruence|]. destruct Hu as [_ Hu].
    specialize (IH Hu He Ek). cbn [length]. lia.
Qed.

(** ** Adding entries *)

Lemma concat_insert_head (t : list (list entry)) i b e :
  t !! i = Some b → concat (<[i := e :: b]> t) ≡ₚ e :: concat t.
Proof.
  revert i. induction t as [|b0 t IH]; intros [|i] Hb; cbn in *; try done.
  - by injection Hb as ->.
  - rewrite IH by done. by rewrite Permutation_middle.
Qed.

Lemma add_entry_ok m k v : table_ok m → (∀ e, e ∈ entries m → key_equals (key e) k = false) →
  ∃ m', add_entry m (Entry (key_hash k) k v) = Some m' ∧ table_ok m' ∧
    entries m' ≡ₚ Entry (key_hash k) k v :: entries m ∧ size m' = size m ∧
    resize_at m' = resize_at m ∧ table_size m' = table_size m.
Proof.
  intros Hok Hnew. destruct (get_index_ok m k Hok) as (i & b & Ei & Eb & Hi).
  unfold add_entry. cbn [hash]. rewrite Ei. cbn. unfold update_bucket. rewrite Eb. cbn.
  pose proof (concat_insert_head (table m) i b (Entry (key_hash k) k v) Eb) as HP.
  eexists. split; [done|]. split_and!; [|done..]. destruct Hok as [Hp Hl Hh Hu].
  constructor; cbn; [done|by rewrite length_insert| |].
  - intros j b' e Hj He. destruct (decide (j = i)) as [->|Hne].
    + rewrite list_lookup_insert_eq in Hj by (by eapply lookup_lt_Some). injection Hj as <-.
      apply elem_of_cons in He as [->|He]; [done|]. by eapply Hh.
    + rewrite list_lookup_insert_ne in Hj by done. by eapply Hh.
  - eapply uniq_perm; [symmetry; exact HP|]. split; [|done]. apply Forall_forall.
    intros e He%list_elem_of_In. rewrite key_equals_comm. by apply Hnew.
Qed.

Lemma rehash_ok es : ∀ m, table_ok m → uniq (es ++ entries m) →
  (∀ e, e ∈ es → hash e = key_hash (key e)) →
  ∃ m', rehash es m = Some m' ∧ table_ok m' ∧ entries m' ≡ₚ es ++ entries m ∧ size m' = size m ∧
    resize_at m' = resize_at m ∧ table_size m' = table_size m.
Proof.
  induction es as [|e es IH]; intros m Hok Hu Hh; [by exists m|]. cbn. cbn in Hu.
  destruct Hu as [Hf Hu]. rewrite Forall_forall in Hf.
  destruct (add_entry_ok m (key e) (value e) Hok) as (m1 & -> & Hok1 & HP1 & Hs1 & Hr1 & Ht1).
  { intros e' He'. rewrite key_equals_comm. apply Hf, in_app_iff. right. by apply list_elem_of_In. }
  assert (Entry (key_hash (key e)) (key e) (value e) = e) as Ee.
  { rewrite <- (Hh e (list_elem_of_here _ _)). by destruct e. }
  rewrite Ee in HP1. cbn. destruct (IH m1 Hok1) as (m2 & -> & Hok2 & HP2 & Hs2 & Hr2 & Ht2).
  - apply (uniq_perm (e :: es ++ entries m)); [|split; [apply Forall_forall; exact Hf|exact Hu]].
    rewrite HP1. apply Permutation_middle.
  - intros e' He'. apply Hh. by right.
  - exists m2. split_and!; [done|done| |congruence..]. rewrite HP2, HP1. symmetry. apply Permutation_middle.
Qed.

(** ** The operations *)

Lemma maps_to_perm m m' k v : entries m' ≡ₚ entries m → maps_to m' k v ↔ maps_to m k v.
Proof. intros HP. unfold maps_to. by setoid_rewrite HP. Qed.

Lemma table_ok_empty n rs sz : 0 < n < 2 ^ 32 →
  table_ok (HashMap (V := V) sz rs (replicate (Z.to_nat n) []) n) ∧
  entries (HashMap (V := V) sz rs (replicate (Z.to_nat n) []) n) = [].
Proof.
  intros Hn. assert (∀ j, concat (replicate j (@nil entry)) = []) as Hc by (by induction j).
  unfold entries. cbn. rewrite Hc. split; [|done]. constructor; cbn; [done| |..].
  - rewrite length_replicate. lia.
  - intros i b e Hb He. apply lookup_replicate in Hb as [-> _]. by apply elem_of_nil in He.
  - unfold entries. cbn. by rewrite Hc.
Qed.

Lemma try_to_expand_ok `{Allocator} m h : table_ok m →
  wp (try_to_expand m)
     (λ m' _, table_ok m' ∧ entries m' ≡ₚ entries m ∧ size m' = size m) (λ _ _, False) h.
Proof.
  intros Hok. unfold try_to_expand. set (nts := u32 (u32 (table_size m) * 2 + 1)).
  assert (0 < nts < 2 ^ 32) as Hnts.
  { pose proof (u32_range (u32 (table_size m) * 2 + 1)) as Hr. fold nts in Hr. split; [|clia].
    assert (nts ≠ 0); [|clia]. intros E. unfold nts, u32 in E.
    apply Z.mod_divide in E as [q Hq]; lia. }
  unfold wp, bind, allocated. destruct (mem_malloc _ h) as [[p|] h']; cbn; [|done].
  assert (take (Z.to_nat (u32 (table_size m))) (table m) = table m) as ->.
  { destruct Hok as [Hp Hl _ _]. rewrite u32_id by clia. apply take_ge. lia. }
  destruct (table_ok_empty nts (resize_threshold nts) (size m) Hnts) as [Hok0 He0].
  destruct (rehash_ok (concat (table m)) _ Hok0) as (m' & E & Hok' & HP & Hs & _).
  - rewrite He0, (right_id_L [] (++)). apply Hok.
  - intros e (i & b & Hb & He)%elem_concat. by apply (tok_hash m Hok i b e).
  - rewrite E. cbn. rewrite He0, (right_id_L [] (++)) in HP. done.
Qed.

(** Whether the map has the key. *)
Definition has_key (m : map) (k : K) : Prop := ∃ v, maps_to m k v.

Lemma put_present `{Allocator} m k v e h : map_ok m → e ∈ entries m → key_equals (key e) k = true →
  wp (let* m' := lift (i ← get_index m (key_hash k); update_bucket m i (set_value (key_hash k) k v)) in
      ret (0, m'))
     (λ r _, r.1 = 0 ∧ map_ok r.2 ∧ size r.2 = size m ∧
        ∀ k' v', maps_to r.2 k' v' ↔ if key_equals k k' then v' = v else maps_to m k' v')
     (λ _ _, False) h.
Proof.
  intros [Hok Hs] He Ek.
  destruct (update_bucket_ok m k (set_value (key_hash k) k v) (λ l, update_entry k v <$> l))
    as (m' & -> & Hok' & Hen & Hs' & _); try done.
  - intros l l'. apply fmap_app.
  - apply no_match_update.
  - intros b Hu Hm. by apply set_value_map.
  - intros l e' (e0 & -> & He0)%list_elem_of_fmap. exists e0. split; [done|]. apply update_entry_same.
  - apply uniq_update, Hok.
  - apply wp_bind, wp_ret, wp_ret. cbn [fst snd]. split_and!; [done| |done|].
    + constructor; [done|]. by rewrite Hen, length_fmap, Hs'.
    + intros k' v'. unfold maps_to. rewrite Hen. setoid_rewrite list_elem_of_fmap.
      destruct (key_equals k k') eqn:E.
      * split.
        -- intros (e' & (e0 & -> & He0) & Ek' & <-). unfold update_entry.
           rewrite (proj2 (update_entry_same _ _ _)) in Ek'.
           by rewrite (key_trans _ _ _ Ek' (key_sym _ _ E)).
        -- intros ->. exists (update_entry k v e). split; [by exists e|].
           rewrite (proj2 (update_entry_same _ _ _)). split; [by eapply key_trans|].
           unfold update_entry. by rewrite Ek.
      * assert (∀ e0 : entry, key_equals (key e0) k' = true → update_entry k v e0 = e0) as Hid.
        { intros e0 E0. unfold update_entry. destruct (key_equals (key e0) k) eqn:E1; [|done].
          rewrite (key_trans _ _ _ (key_sym _ _ E1) E0) in E. done. }
        split.
        -- intros (e' & (e0 & -> & He0) & Ek' & <-). rewrite (proj2 (update_entry_same _ _ _)) in Ek'.
           rewrite (Hid _ Ek'). by exists e0.
        -- intros (e0 & He0 & Ek0 & <-). exists e0. split; [|done]. exists e0. by rewrite Hid.
Qed.

Lemma hash_map_put_ok `{Allocator} m k v h : map_ok m → size m + 1 < 2 ^ 64 →
  wp (hash_map_put m k v)
     (λ r _, map_ok r.2 ∧
        ((r.1 = 0 ∧ ∀ k' v', maps_to r.2 k' v' ↔ if key_equals k k' then v' = v else maps_to m k' v') ∨
         (r.1 = - ENOMEM ∧ ¬ (∀ n sz, malloc_ok n sz = true) ∧ ∀ k' v', maps_to r.2 k' v' ↔ maps_to m k' v')))
     (λ _ _, False) h.
Proof.
  intros [Hok Hs] Hsz. unfold hash_map_put.
  destruct (lookup_entry_ok m k Hok) as (r & -> & Hr). apply wp_bind, wp_ret.
  destruct r as [e|].
  { destruct Hr as [He Ek]. eapply wp_mono; [by apply (put_present m k v e)| |done].
    intros [err m'] h' (Herr & Hok' & _ & Hm). split; [done|]. by left. }
  apply (wp_seq _ _ (λ m1 _, table_ok m1 ∧ entries m1 ≡ₚ entries m ∧ size m1 = size m) (λ _ _, False));
    [|cbv beta|done].
  { case_decide; [by apply try_to_expand_ok|by apply wp_ret]. }
  intros m1 h1 (Hok1 & HP1 & Hs1). unfold wp, bind at 1, allocated, mem_malloc.
  destruct (malloc_ok _ _) eqn:Em; cbn.
  - destruct (add_entry_ok m1 k v Hok1) as (m2 & E2 & Hok2 & HP2 & Hs2 & _).
    { intros e. rewrite HP1. apply Hr. }
    unfold bind. rewrite E2. cbn. split.
    + constructor; [by destruct Hok2; constructor|]. cbn. rewrite Hs2, Hs1, u64_id by clia.
      change (entries (HashMap _ _ _ _)) with (entries m2). rewrite HP2. cbn. rewrite HP1. lia.
    + left. split; [done|]. intros k' v'.
      assert (maps_to (HashMap (u64 (size m2 + 1)) (resize_at m2) (table m2) (table_size m2)) k' v' ↔
              maps_to m2 k' v') as -> by done.
      unfold maps_to at 1. setoid_rewrite HP2. setoid_rewrite elem_of_cons. destruct (key_equals k k') eqn:E.
      * split; [|intros ->; eexists; split; [by left|done]].
        intros (e & [->|He] & Ek & <-); [done|]. rewrite HP1 in He. specialize (Hr e He).
        rewrite (key_trans _ _ _ Ek (key_sym _ _ E)) in Hr. done.
      * split.
        -- intros (e & [->|He] & Ek & <-); [cbn in Ek; congruence|]. rewrite HP1 in He. by exists e.
        -- intros (e & He & Ek & <-). exists e. rewrite HP1. auto.
  - split; [constructor; [done|]; by rewrite Hs1, HP1|]. right. split_and!; [done|by intros Ha; rewrite Ha in Em|].
    intros k' v'. by apply maps_to_perm.
Qed.

Lemma hash_map_get_ok m k : map_ok m →
  ∃ r, hash_map_get m k = Some r ∧ ∀ v, r = Some v ↔ maps_to m k v.
Proof.
  intros [Hok _]. destruct (lookup_entry_ok m k Hok) as (r & E & Hr). unfold hash_map_get. rewrite E. cbn.
  eexists. split; [done|]. intros v. destruct r as [e|].
  - destruct Hr as [He Ek]. rewrite (maps_to_entry m k e) by done. split; congruence.
  - split; [done|]. intros (e & He & Ek & _). rewrite Hr in Ek; done.
Qed.

Lemma hash_map_remove_ok m k : map_ok m → size m < 2 ^ 64 →
  ∃ err fin m', hash_map_remove m k = Some (err, fin, m') ∧ map_ok m' ∧
    (err = 0 ∨ err = -1) ∧ (err = 0 ↔ has_key m k) ∧
    (∀ v, fin = Some v ↔ maps_to m k v) ∧
    ∀ k' v', maps_to m' k' v' ↔ key_equals k k' = false ∧ maps_to m k' v'.
Proof.
  intros [Hok Hs] Hsz. destruct (lookup_entry_ok m k Hok) as (r & E & Hr).
  unfold hash_map_remove. rewrite E. cbn. destruct r as [e|].
  - destruct Hr as [He Ek].
    destruct (update_bucket_ok m k (del_entry (key_hash k) k) (List.filter (other_key k)))
      as (m' & -> & Hok' & Hen & Hs' & _); try done.
    { intros l l'. apply List.filter_app. }
    { apply no_match_filter. }
    { intros b Hu Hm. by apply del_entry_filter. }
    { intros l e' He'. exists e'. split; [|done]. apply list_elem_of_In, filter_In in He' as [? _].
      by apply list_elem_of_In. }
    { apply uniq_filter, Hok. }
    cbn. eexists _, _, _. split; [done|].
    assert (∀ e', e' ∈ entries m' ↔ e' ∈ entries m ∧ key_equals (key e') k = false) as Hmem.
    { intros e'. rewrite Hen, !list_elem_of_In, filter_In. unfold other_key. by rewrite negb_true_iff. }
    split_and!.
    + constructor; [by destruct Hok'; constructor|]. cbn [size]. rewrite Hs', Hs.
      change (Z.of_nat (length (entries (HashMap _ _ _ _)))) with (Z.of_nat (length (entries m'))).
      rewrite Hen.
      rewrite (filter_one k (entries m) e (tok_uniq m Hok) He Ek).
      assert (0 < length (entries m))%nat by (destruct (entries m); [by apply elem_of_nil in He|cbn; lia]).
      rewrite u64_id; clia.
    + by left.
    + split; [|done]. intros _. exists (value e). by exists e.
    + intros v. rewrite (maps_to_entry m k e) by done. split; congruence.
    + intros k' v'. unfold maps_to at 1. setoid_rewrite Hmem. split.
      * intros (e' & [He' Ef] & Ek' & <-). split; [|by exists e']. apply not_true_is_false. intros Et.
        rewrite (key_trans _ _ _ Ek' (key_sym _ _ Et)) in Ef. done.
      * intros (Ef & e' & He' & Ek' & <-). exists e'. split_and!; [done| |done|done].
        apply not_true_is_false. intros Et. rewrite (key_trans _ _ _ (key_sym _ _ Et) Ek') in Ef. done.
  - eexists _, _, _. split; [done|]. split_and!; [by constructor|by right| |..].
    + split; [done|]. intros (v & e & He & Ek & _). rewrite Hr in Ek; done.
    + intros v. split; [done|]. intros (e & He & Ek & _). rewrite Hr in Ek; done.
    + intros k' v'. split; [|tauto]. intros (e & He & Ek & <-). split; [|by exists e].
      apply not_true_is_false. intros Et. specialize (Hr e He).
      rewrite (key_trans _ _ _ Ek (key_sym _ _ Et)) in Hr. done.
Qed.
End spec.

(** ** Theorems *)

(** A small table of pointers: two entries in one bucket. *)
Definition sample_map : hash_map Z Z :=
  HashMap 2 3 [[Entry 8 8 80; Entry 4 4 40]; []; []; []] 4.
Lemma sample_map_ok : @map_ok Z Z pointer_key sample_map.
Proof.
  constructor; [|reflexivity]. constructor; [cbn; lia|reflexivity| |].
  - intros i b e Hb He. destruct i as [|[|[|[|i]]]]; cbn in Hb; try done; injection Hb as <-;
      try by apply elem_of_nil in He.
    apply elem_of_cons in He as [->|He]; [done|]. apply elem_of_cons in He as [->|He]; [done|].
    by apply elem_of_nil in He.
  - cbn. split_and!; [by repeat constructor|constructor|done].
Qed.

(** C25: [hash_map_put] keeps the table well formed, through expansions too.  When it
    returns 0 the key maps to the new value and every other key to what it mapped
    to before; when memory runs out it returns -ENOMEM and no key is affected. *)
Theorem hash_map_put_correct {K V} `{KeyLaws K} `{Allocator} (m : hash_map K V) k v h :
  map_ok m → size m + 1 < 2 ^ 64 →
  match hash_map_put m k v h with
  | Done (err, m') _ =>
    map_ok m' ∧
    ((err = 0 ∧ ∀ k' v', maps_to m' k' v' ↔ if key_equals k k' then v' = v else maps_to m k' v') ∨
     (err = - ENOMEM ∧ ¬ (∀ n sz, malloc_ok n sz = true) ∧ ∀ k' v', maps_to m' k' v' ↔ maps_to m k' v'))
  | _ => False
  end.
Proof.
  intros Hm Hs. pose proof (hash_map_put_ok m k v h Hm Hs) as Hp. unfold wp in Hp.
  by destruct (hash_map_put m k v h) as [[err m'] h'| |].
Qed.
Lemma hash_map_put_correct_witness :
  ∃ m' h', @hash_map_put Z Z pointer_key (λ _ _, true) sample_map 12 120 (Mem 0 ∅) = Done (0, m') h' ∧
    table_size m' = 9 ∧ @maps_to Z Z pointer_key m' 12 120 ∧ @maps_to Z Z pointer_key m' 4 40.
Proof.
  pose proof (@hash_map_put_correct Z Z pointer_key _ (λ _ _, true) sample_map 12 120 (Mem 0 ∅)) as Hp.
  assert (∃ m' h', @hash_map_put Z Z pointer_key (λ _ _, true) sample_map 12 120 (Mem 0 ∅) = Done (0, m') h' ∧
    table_size m' = 9) as (m' & h' & E & Et).
  { eexists _, _. split; [vm_compute; reflexivity|reflexivity]. }
  rewrite E in Hp. destruct Hp as [_ [[_ Hm]|[Herr _]]].
  - exact sample_map_ok.
  - cbn. lia.
  - exists m', h'. split; [exact E|]. split; [exact Et|]. split.
    + apply Hm. reflexivity.
    + apply Hm. exists (Entry 4 4 40). split; [right; left|]. split; reflexivity.
  - discriminate Herr.
Defined.

(** [hash_map_get] returns the value the key maps to, and an error exactly when
    there is none. *)
Theorem hash_map_get_correct {K V} `{KeyLaws K} (m : hash_map K V) k :
  map_ok m → ∃ r, hash_map_get m k = Some r ∧ ∀ v, r = Some v ↔ maps_to m k v.
Proof. apply hash_map_get_ok. Qed.
Lemma hash_map_get_correct_witness : @maps_to Z Z pointer_key sample_map 4 40.
Proof.
  destruct (@hash_map_get_correct Z Z pointer_key _ sample_map 4 sample_map_ok) as (r & E & Hr).
  apply Hr. vm_compute in E. injection E as <-. reflexivity.
Defined.

(** [hash_map_remove] returns 0 exactly when the key was there, hands its value
    to [final_process], and leaves every other key as it was. *)
Theorem hash_map_remove_correct {K V} `{KeyLaws K} (m : hash_map K V) k :
  map_ok m → size m < 2 ^ 64 →
  ∃ err fin m', hash_map_remove m k = Some (err, fin, m') ∧ map_ok m' ∧
    (err = 0 ∨ err = -1) ∧ (err = 0 ↔ ∃ v, maps_to m k v) ∧
    (∀ v, fin = Some v ↔ maps_to m k v) ∧
    ∀ k' v', maps_to m' k' v' ↔ key_equals k k' = false ∧ maps_to m k' v'.
Proof. apply hash_map_remove_ok. Qed.
Lemma hash_map_remove_correct_witness :
  ∃ m', @hash_map_remove Z Z pointer_key sample_map 8 = Some (0, Some 80, m') ∧
    @maps_to Z Z pointer_key m' 4 40.
Proof.
  destruct (@hash_map_remove_correct Z Z pointer_key _ sample_map 8 sample_map_ok)
    as (err & fin & m' & E & _ & _ & _ & _ & Hm); [cbn; lia|].
  assert (err = 0 ∧ fin = Some 80) as [-> ->] by (vm_compute in E; injection E as <- <- <-; done).
  exists m'. split; [exact E|]. apply Hm. split; [reflexivity|].
  exists (Entry 4 4 40). split; [right; left|]. split; reflexivity.
Defined.
