(* ===== verification/RadixTree.v ===== *)
(** * lib/radix-tree.c: radix trees

    A node is its count and its array of slots; a slot is empty, or points to a
    node, or on the last level to a value (never null, which is asserted).  Parent pointers are the path from the
    root, which the searches carry along.  [None] is undefined behaviour.  The heap only
    decides which nodes can be allocated: their blocks are not tracked, and releasing
    a node is dropping it from its parent.

    The count of a node is the number of its nonempty slots only as long as no
    key is inserted twice and no absent key is removed: the theorems say what
    holds then, and what goes wrong otherwise. *)

From S2P Require Import Prelude CMonad.
#[local] Open Scope Z_scope.

(** [count] is an int in the source, and not wrapped here: an insertion adds at most one to
    the count of a node, so that it is in range for fewer than 2^31 insertions. *)
#[warnings="-register-all"]
Inductive radix_tree_node (V : Type) : Type :=
  | Node (count : Z) (slots : list (option (radix_tree_node V)))
  | Value (v : V).
Arguments Node {V}.
Arguments Value {V}.

Record radix_tree (V : Type) := RadixTree {
  root : radix_tree_node V;
  bits_per_level : Z;
  level_count : Z;
}.
Arguments RadixTree {V}.
Arguments root {V}.
Arguments bits_per_level {V}.
Arguments level_count {V}.

Definition ENOMEM : Z := 12.

(** ** Operations *)

Section ops.
Context {V : Type}.
#[local] Abbreviation node := (radix_tree_node V).
#[local] Abbreviation tree := (radix_tree V).

Definition level_mask (t : tree) : Z := u64 (u64 (Z.shiftl 1 (bits_per_level t)) - 1).
Definition slot_count (t : tree) : Z := Z.shiftl 1 (bits_per_level t).

Definition get_index (t : tree) (key level : Z) : Z :=
  let shift := (level_count t - level - 1) * bits_per_level t in
  Z.land (Z.shiftr key shift) (level_mask t).
Definition index (t : tree) (key level : Z) : nat := Z.to_nat (get_index t key level).

Definition empty_node (t : tree) : node := Node 0 (replicate (Z.to_nat (slot_count t)) None).

(** malloc and zalloc, and free. *)
Definition alloc_block `{Allocator} (sz : Z) : M mem unit (option block) := λ h,
  let '(p, h') := mem_malloc sz h in Done p h'.
Definition free_block (p : block) : M mem unit unit := λ h,
  match mem_free p h with Some h' => Done tt h' | None => Undef end.
Definition alloc_radix_tree_node `{Allocator} (t : tree) : M mem unit (option node) :=
  let* p := alloc_block (16 + 8 * slot_count t) in
  ret (match p with Some _ => Some (empty_node t) | None => None end).

(** The asserted conditions on the arguments are undefined when they fail, and so is
    the division by zero bits. *)
Definition alloc_radix_tree `{Allocator} (bpl key_bits : Z) : M mem unit tree :=
  if decide (0 < bpl < key_bits ∧ key_bits <= 64) then
    let* p := alloc_block 16 in
    match p with
    | None => fail tt
    | Some p =>
      let t := RadixTree (Node 0 []) bpl ((key_bits + bpl - 1) / bpl) in
      let* n := alloc_radix_tree_node t in
      match n with
      | None => do free_block p;; fail tt
      | Some r => ret (RadixTree r bpl ((key_bits + bpl - 1) / bpl))
      end
    end
  else undef.

(** The loop of [radix_tree_insert] with [levels] inner levels to go.  The error
    return keeps the nodes inserted so far. *)
Fixpoint insert_from `{Allocator} (levels : nat) (t : tree) (key : Z) (value : V) (level : Z) (n : node)
  : M mem unit (Z * node) :=
  match n with
  | Value _ => undef
  | Node count slots =>
    let i := index t key level in
    match levels with
    | O =>
      if decide (i < length slots)%nat then ret (0, Node (count + 1) (<[i := Some (Value value)]> slots))
      else undef
    | S levels' =>
      match slots !! i with
      | None => undef
      | Some (Some child) =>
        let* r := insert_from levels' t key value (level + 1) child in
        ret (r.1, Node count (<[i := Some r.2]> slots))
      | Some None =>
        let* c := alloc_radix_tree_node t in
        match c with
        | None => ret (- ENOMEM, Node count slots)
        | Some child =>
          let* r := insert_from levels' t key value (level + 1) child in
          ret (r.1, Node (count + 1) (<[i := Some r.2]> slots))
        end
      end
    end
  end.

Definition with_root (t : tree) (n : node) : tree := RadixTree n (bits_per_level t) (level_count t).
Definition radix_tree_insert `{Allocator} (t : tree) (key : Z) (value : V) : M mem unit (Z * tree) :=
  let* r := insert_from (Z.to_nat (level_count t - 1)) t key value 0 (root t) in
  ret (r.1, with_root t r.2).

(** What [free_slot] did to a node: nothing, its new contents, or its new
    contents with the count at 0, for the parent to release it. *)
Inductive removal : Type :=
  | Unchanged
  | Changed (n : node)
  | Emptied (n : node).

Definition freed_slot (count : Z) (slots : list (option node)) (i : nat) : removal :=
  let n := Node (count - 1) (<[i := None]> slots) in
  if decide (count - 1 = 0) then Emptied n else Changed n.

Fixpoint remove_from (levels : nat) (t : tree) (key level : Z) (n : node) : option removal :=
  match n with
  | Value _ => None
  | Node count slots =>
    let i := index t key level in
    match levels with
    | O => if decide (i < length slots)%nat then Some (freed_slot count slots i) else None
    | S levels' =>
      s ← slots !! i;
      match s with
      | None => Some Unchanged
      | Some child =>
        r ← remove_from levels' t key (level + 1) child;
        Some (match r with
              | Unchanged => Unchanged
              | Changed c => Changed (Node count (<[i := Some c]> slots))
              | Emptied _ => freed_slot count slots i
              end)
      end
    end
  end.

(** The root has no parent and stays. *)
Definition radix_tree_remove (t : tree) (key : Z) : option tree :=
  r ← remove_from (Z.to_nat (level_count t - 1)) t key 0 (root t);
  Some (match r with Unchanged => t | Changed n | Emptied n => with_root t n end).

(** The last nonempty slot below [i]. *)
Fixpoint last_slot (i : nat) (slots : list (option node)) : option node :=
  match i with
  | O => None
  | S i' => match slots !! i' with Some (Some c) => Some c | _ => last_slot i' slots end
  end.

(** [radix_tree_last]; the inner option is the null pointer. *)
Fixpoint radix_tree_last (levels : nat) (n : node) : option (option V) :=
  match levels, n with
  | O, Value v => Some (Some v)
  | S levels', Node _ slots =>
    match last_slot (length slots) slots with
    | None => Some None
    | Some c => radix_tree_last levels' c
    end
  | _, _ => None
  end.

(** [radix_tree_previous]: [chain] is the node to look at and its parents.  On the
    way up, a node with one slot filled is skipped. *)
Fixpoint radix_tree_previous (t : tree) (key : Z) (chain : list (Z * list (option node)))
    (level : Z) (first : bool) : option (option V) :=
  match chain with
  | [] => Some None
  | (count, slots) :: parents =>
    if negb first && bool_decide (count = 1) then radix_tree_previous t key parents (level - 1) false
    else
      match last_slot (index t key level) slots with
      | Some c => radix_tree_last (Z.to_nat (level_count t - (level + 1))) c
      | None => radix_tree_previous t key parents (level - 1) false
      end
  end.

(** [__radix_tree_lookup] with [levels] levels to go. *)
Fixpoint lookup_from (levels : nat) (t : tree) (key : Z) (try_previous : bool) (level : Z)
    (parents : list (Z * list (option node))) (n : node) : option (option V) :=
  match levels, n with
  | O, Value v => Some (Some v)
  | S levels', Node count slots =>
    s ← slots !! index t key level;
    match s with
    | None =>
      if try_previous then radix_tree_previous t key ((count, slots) :: parents) level true
      else Some None
    | Some c => lookup_from levels' t key try_previous (level + 1) ((count, slots) :: parents) c
    end
  | _, _ => None
  end.

Definition radix_tree_lookup (t : tree) (key : Z) : option (option V) :=
  lookup_from (Z.to_nat (level_count t)) t key false 0 [] (root t).
Definition radix_tree_lookup_prev (t : tree) (key : Z) : option (option V) :=
  lookup_from (Z.to_nat (level_count t)) t key true 0 [] (root t).
End ops.

(** ** Specification *)

Section spec.
Context {V : Type}.
#[local] Abbreviation node := (radix_tree_node V).
#[local] Abbreviation tree := (radix_tree V).

(** Keys below [width ^ level_count] are told apart. *)
Context (t : tree).
Definition width : Z := 2 ^ bits_per_level t.
Record shape_ok : Prop := {
  sh_bits : 0 < bits_per_level t < 31;
  sh_levels : 1 <= level_count t;
}.
Context (Hshape : shape_ok).

(** The value the subtree [n] with [d] levels below it has for the low digits [k]. *)
Fixpoint get (d : nat) (n : node) (k : Z) : option V :=
  match n with
  | Value _ => None
  | Node _ slots =>
    match slots !! Z.to_nat (k / width ^ Z.of_nat d), d with
    | Some (Some (Value v)), O => Some v
    | Some (Some c), S d' => get d' c (k mod width ^ Z.of_nat d)
    | _, _ => None
    end
  end.

Definition filled (s : option node) : nat := match s with Some _ => 1%nat | None => 0%nat end.
Fixpoint used (slots : list (option node)) : nat :=
  match slots with
  | [] => O
  | s :: slots' => (filled s + used slots')%nat
  end.
Definition node_count (n : node) : Z := match n with Node c _ => c | Value _ => 0 end.

(** Counts are right and no node below the root is empty. *)
Fixpoint node_ok (d : nat) (n : node) : Prop :=
  match n with
  | Value _ => False
  | Node count slots =>
    length slots = Z.to_nat width ∧ count = Z.of_nat (used slots) ∧
    Forall (λ s, match s with
                 | None => True
                 | Some c => match d with
                             | O => ∃ v, c = Value v
                             | S d' => node_ok d' c ∧ 1 <= node_count c
                             end
                 end) slots
  end.

(** The children only have the right structure. *)
Fixpoint node_shape (d : nat) (n : node) : Prop :=
  match n with
  | Value _ => False
  | Node _ slots =>
    length slots = Z.to_nat width ∧
    Forall (λ s, match s with
                 | None => True
                 | Some c => match d with O => ∃ v, c = Value v | S d' => node_shape d' c end
                 end) slots
  end.

Lemma node_ok_shape d n : node_ok d n → node_shape d n.
Proof.
  revert n. induction d as [|d IH]; intros [c slots|v]; cbn; try done.
  - intros (? & _ & ?). done.
  - intros (Hl & _ & Hs). split; [done|]. eapply Forall_impl; [|exact Hs].
    intros [c'|]; [|done]. intros [? _]. auto.
Qed.

Lemma width_pos : 0 < width.
Proof. apply Z.pow_pos_nonneg; [lia|]. destruct Hshape. lia. Qed.
Lemma width_pow_pos d : 0 < width ^ Z.of_nat d.
Proof. apply Z.pow_pos_nonneg; [apply width_pos|lia]. Qed.

Lemma width_S d : width ^ Z.of_nat (S d) = width ^ Z.of_nat d * width.
Proof. rewrite Nat2Z.inj_succ, Z.pow_succ_r by lia. lia. Qed.

Lemma get_index_digit key level d : 0 <= key → level_count t - level - 1 = Z.of_nat d →
  get_index t key level = (key / width ^ Z.of_nat d) mod width.
Proof.
  intros Hk Hd. unfold get_index, level_mask. rewrite Hd. destruct Hshape as [Hb Hl].
  rewrite Z.shiftl_1_l.
  assert (2 ^ bits_per_level t < 2 ^ 31) by (apply Z.pow_lt_mono_r; lia).
  assert (0 < 2 ^ bits_per_level t) by (apply Z.pow_pos_nonneg; lia).
  rewrite (u64_id (2 ^ bits_per_level t)) by clia. rewrite u64_id by clia.
  rewrite Z.sub_1_r, <- Z.ones_equiv, Z.land_ones by lia.
  rewrite Z.shiftr_div_pow2 by nia. unfold width. rewrite <- Z.pow_mul_r by lia.
  do 3 f_equal. lia.
Qed.

(** The digit of the low part of the key, and what is left of it. *)
Definition low (d : nat) (key : Z) : Z := key mod width ^ Z.of_nat (S d).

Lemma low_range d key : 0 <= low d key < width ^ Z.of_nat (S d).
Proof. apply Z.mod_pos_bound, width_pow_pos. Qed.

Lemma low_digit d key : 0 <= key → low d key / width ^ Z.of_nat d = (key / width ^ Z.of_nat d) mod width.
Proof.
  intros Hk. unfold low. rewrite width_S. pose proof (width_pow_pos d). pose proof width_pos.
  rewrite Z.rem_mul_r by lia. rewrite (Z.mul_comm (width ^ Z.of_nat d)), Z.div_add by lia.
  rewrite Z.div_small by (by apply Z.mod_pos_bound). lia.
Qed.

Lemma low_rest d key : low (S d) key mod width ^ Z.of_nat (S d) = low d key.
Proof.
  unfold low. rewrite (width_S (S d)). pose proof (width_pow_pos (S d)). pose proof width_pos.
  rewrite Z.rem_mul_r by lia. rewrite Z.mul_comm, Z_mod_plus_full. by rewrite Z.mod_mod by lia.
Qed.

Lemma index_low key level d : 0 <= key → level_count t - level - 1 = Z.of_nat d →
  index t key level = Z.to_nat (low d key / width ^ Z.of_nat d).
Proof. intros Hk Hd. unfold index. by rewrite (get_index_digit _ _ d), low_digit. Qed.

Lemma digit_lt d k : 0 <= k < width ^ Z.of_nat (S d) → 0 <= k / width ^ Z.of_nat d < width.
Proof.
  intros Hk. pose proof (width_pow_pos d). rewrite width_S in Hk. split; [apply Z.div_pos; lia|].
  apply Z.div_lt_upper_bound; lia.
Qed.

Lemma low_digit_lt d key : (Z.to_nat (low d key / width ^ Z.of_nat d) < Z.to_nat width)%nat.
Proof. pose proof (digit_lt d _ (low_range d key)). lia. Qed.

(** A slot of a node, by structure. *)
Lemma shape_slot d c slots i s : node_shape d (Node c slots) → slots !! i = Some (Some s) →
  match d with O => ∃ v, s = Value v | S d' => node_shape d' s end.
Proof.
  destruct d; cbn; intros [_ Hf] Hs; rewrite Forall_lookup in Hf; exact (Hf _ _ Hs).
Qed.
Lemma ok_slot d c slots i s : node_ok d (Node c slots) → slots !! i = Some (Some s) →
  match d with O => ∃ v, s = Value v | S d' => node_ok d' s ∧ 1 <= node_count s end.
Proof.
  destruct d; cbn; intros (_ & _ & Hf) Hs; rewrite Forall_lookup in Hf; exact (Hf _ _ Hs).
Qed.

(** ** Lookup *)

Lemma lookup_from_S levels key tp level parents c slots :
  lookup_from (S levels) t key tp level parents (Node c slots) =
  (s ← slots !! index t key level;
   match s with
   | None => if tp then radix_tree_previous t key ((c, slots) :: parents) level true else Some None
   | Some n => lookup_from levels t key tp (level + 1) ((c, slots) :: parents) n
   end).
Proof. done. Qed.

(** The child a key belongs to. *)
Definition child (d : nat) (slots : list (option node)) (k : Z) : option node :=
  mjoin (slots !! Z.to_nat (k / width ^ Z.of_nat d)).

Lemma get_0 c slots k : get 0 (Node c slots) k = match child 0 slots k with Some (Value v) => Some v | _ => None end.
Proof. unfold child. cbn [get]. by destruct (slots !! _) as [[[]|]|]. Qed.
Lemma get_S d c slots k :
  get (S d) (Node c slots) k =
  match child (S d) slots k with Some n => get d n (k mod width ^ Z.of_nat (S d)) | None => None end.
Proof.
  unfold child. cbn [get]. destruct (slots !! _) as [[[c' s'|v]|]|]; try done; by destruct d.
Qed.

Lemma node_shape_slots d c slots : node_shape d (Node c slots) → length slots = Z.to_nat width.
Proof. destruct d; cbn; tauto. Qed.

(** The slot of a key exists, and holds its child. *)
Lemma slot_child d c slots key level : 0 <= key → node_shape d (Node c slots) →
  level_count t - level - 1 = Z.of_nat d →
  slots !! index t key level = Some (child d slots (low d key)).
Proof.
  intros Hk Hn Hd. rewrite (index_low _ _ _ Hk Hd). unfold child.
  destruct (lookup_lt_is_Some_2 slots (Z.to_nat (low d key / width ^ Z.of_nat d))) as [s Es].
  { rewrite (node_shape_slots _ _ _ Hn). apply low_digit_lt. }
  by rewrite Es.
Qed.

Lemma child_lookup d slots k n : child d slots k = Some n →
  slots !! Z.to_nat (k / width ^ Z.of_nat d) = Some (Some n).
Proof. unfold child. destruct (slots !! _) as [[]|]; cbn; congruence. Qed.

Lemma lookup_from_get key : 0 <= key → ∀ d level parents n,
  node_shape d n → level_count t - level - 1 = Z.of_nat d →
  lookup_from (S d) t key false level parents n = Some (get d n (low d key)).
Proof.
  intros Hk. induction d as [|d IH]; intros level parents [c slots|v] Hn Hd; try done;
    rewrite lookup_from_S, (slot_child _ _ _ _ _ Hk Hn Hd); cbn [mbind option_bind].
  - rewrite get_0. destruct (child 0 slots (low 0 key)) as [n|] eqn:Ec; [|done].
    apply child_lookup in Ec. destruct (shape_slot _ _ _ _ _ Hn Ec) as [v ->]. done.
  - rewrite get_S, low_rest. destruct (child (S d) slots (low (S d) key)) as [n|] eqn:Ec; [|done].
    apply child_lookup in Ec. apply IH; [|lia]. exact (shape_slot _ _ _ _ _ Hn Ec).
Qed.

(** ** Slots *)

Lemma used_insert (slots : list (option node)) i s s' : slots !! i = Some s →
  (used (<[i := s']> slots) + filled s = used slots + filled s')%nat.
Proof.
  revert i. induction slots as [|s0 slots IH]; intros [|i] Hs; try done.
  - injection Hs as ->. change (<[0%nat := s']> (s :: slots)) with (s' :: slots). cbn [used]. lia.
  - specialize (IH i Hs). change (<[S i := s']> (s0 :: slots)) with (s0 :: <[i := s']> slots). cbn [used]. lia.
Qed.

Lemma child_insert d slots i s k : (i < length slots)%nat →
  child d (<[i := s]> slots) k =
  if decide (Z.to_nat (k / width ^ Z.of_nat d) = i) then s else child d slots k.
Proof.
  intros Hi. unfold child. case_decide as E.
  - by rewrite E, list_lookup_insert_eq.
  - by rewrite list_lookup_insert_ne.
Qed.

(** ** Insertion *)

Lemma get_empty d k : get d (empty_node t) k = None.
Proof.
  assert (∀ d', child d' (replicate (Z.to_nat (slot_count t)) None) k = None) as Hc.
  { intros d'. unfold child. destruct (_ !! _) as [s|] eqn:E; [|done].
    by apply lookup_replicate in E as [-> _]. }
  unfold empty_node. destruct d; [rewrite get_0|rewrite get_S]; by rewrite Hc.
Qed.

Lemma width_slots : Z.to_nat (slot_count t) = Z.to_nat width.
Proof. unfold slot_count, width. by rewrite Z.shiftl_1_l. Qed.

Lemma empty_ok d : node_ok d (empty_node t).
Proof.
  assert (∀ n, used (replicate n None) = O) as Hu by (by induction n).
  assert (length (replicate (Z.to_nat (slot_count t)) (@None node)) = Z.to_nat width) as Hl
    by (rewrite length_replicate; apply width_slots).
  unfold empty_node. destruct d; cbn [node_ok]; rewrite Hu; split_and!; try done;
    apply Forall_replicate; done.
Qed.

(** Two keys with the same digit here differ in the rest. *)
Lemma low_eq d k k' : 0 <= k < width ^ Z.of_nat (S d) → 0 <= k' < width ^ Z.of_nat (S d) →
  k = k' ↔ Z.to_nat (k / width ^ Z.of_nat d) = Z.to_nat (k' / width ^ Z.of_nat d) ∧
           k mod width ^ Z.of_nat d = k' mod width ^ Z.of_nat d.
Proof.
  intros Hk Hk'. split; [by intros ->|]. intros [E1 E2]. pose proof (width_pow_pos d).
  pose proof (digit_lt d k Hk). pose proof (digit_lt d k' Hk').
  rewrite (Z.div_mod k (width ^ Z.of_nat d)), (Z.div_mod k' (width ^ Z.of_nat d)) by lia. nia.
Qed.

Lemma rest_range d k : 0 <= k mod width ^ Z.of_nat d < width ^ Z.of_nat d.
Proof. apply Z.mod_pos_bound, width_pow_pos. Qed.

(** Replacing the child of [key]. *)
Lemma get_insert d c c' slots key n' k : 0 <= key → node_shape (S d) (Node c slots) →
  0 <= k < width ^ Z.of_nat (S (S d)) →
  get (S d) (Node c' (<[Z.to_nat (low (S d) key / width ^ Z.of_nat (S d)) := Some n']> slots)) k =
  if decide (Z.to_nat (k / width ^ Z.of_nat (S d)) = Z.to_nat (low (S d) key / width ^ Z.of_nat (S d)))
  then get d n' (k mod width ^ Z.of_nat (S d)) else get (S d) (Node c slots) k.
Proof.
  intros Hk Hn Hr. rewrite get_S, child_insert.
  - case_decide; [done|]. by rewrite get_S.
  - rewrite (node_shape_slots _ _ _ Hn). apply low_digit_lt.
Qed.

(** What insertion promises for the subtree [n] at depth [d]. *)
Definition insert_post `{Allocator} (d : nat) (n : node) (key : Z) (value : V) (r : Z * node) : Prop :=
  node_shape d r.2 ∧
  ((r.1 = 0 ∧ ∀ k, 0 <= k < width ^ Z.of_nat (S d) →
      get d r.2 k = if decide (k = low d key) then Some value else get d n k) ∨
   (r.1 = - ENOMEM ∧ ¬ (∀ i sz, malloc_ok i sz = true) ∧
    ∀ k, 0 <= k < width ^ Z.of_nat (S d) → get d r.2 k = get d n k)).

Lemma node_shape_insert d c c' slots i n' : node_shape (S d) (Node c slots) → node_shape d n' →
  node_shape (S d) (Node c' (<[i := Some n']> slots)).
Proof. cbn. intros [Hl Hf] Hn. split; [by rewrite length_insert|]. by apply Forall_insert. Qed.

(** Going into the child [n0] (possibly just allocated) and storing it back. *)
Lemma insert_child `{Allocator} d c c' slots key value n0 r :
  0 <= key → node_shape (S d) (Node c slots) →
  (∀ k, 0 <= k < width ^ Z.of_nat (S d) →
     get d n0 k = match child (S d) slots (low (S d) key) with Some n => get d n k | None => None end) →
  insert_post d n0 key value r →
  insert_post (S d) (Node c slots) key value
    (r.1, Node c' (<[Z.to_nat (low (S d) key / width ^ Z.of_nat (S d)) := Some r.2]> slots)).
Proof.
  intros Hk Hn Hget [Hsh Hr]. split; [by eapply node_shape_insert|]. cbn [fst snd].
  assert (∀ k, 0 <= k < width ^ Z.of_nat (S (S d)) →
    Z.to_nat (k / width ^ Z.of_nat (S d)) = Z.to_nat (low (S d) key / width ^ Z.of_nat (S d)) →
    get (S d) (Node c slots) k = get d n0 (k mod width ^ Z.of_nat (S d))) as Hsame.
  { intros k Hkr E. rewrite get_S, Hget by apply rest_range. unfold child. by rewrite E. }
  destruct Hr as [[-> Hr]|(-> & Hm & Hr)]; [left|right]; split_and!; try done.
  - intros k Hkr. rewrite (get_insert d c) by done. case_decide as E.
    + rewrite Hr by apply rest_range. rewrite <- (low_rest d key).
      destruct (decide (k = low (S d) key)) as [->|Hne]; [by rewrite decide_True|].
      rewrite decide_False; [by rewrite Hsame|]. intros E2. apply Hne.
      apply (low_eq (S d)); [done|apply low_range|done].
    + rewrite decide_False; [done|]. intros ->. done.
  - intros k Hkr. rewrite (get_insert d c) by done. case_decide as E; [|done].
    rewrite Hr by apply rest_range. by rewrite Hsame.
Qed.

Lemma insert_from_ok `{Allocator} key value : 0 <= key → ∀ d level n h,
  node_shape d n → level_count t - level - 1 = Z.of_nat d →
  wp (insert_from d t key value level n) (λ r _, insert_post d n key value r) (λ _ _, False) h.
Proof.
  intros Hk. induction d as [|d IH]; intros level [c slots|v] h Hn Hd; try done; cbn [insert_from];
    rewrite (index_low _ _ _ Hk Hd).
  - rewrite decide_True by (rewrite (node_shape_slots _ _ _ Hn); apply low_digit_lt). apply wp_ret.
    assert (Z.to_nat (low 0 key / width ^ Z.of_nat 0) < length slots)%nat as Hlt
      by (rewrite (node_shape_slots _ _ _ Hn); apply low_digit_lt).
    split.
    + cbn. destruct Hn as [Hl Hf]. split; [by rewrite length_insert|]. apply Forall_insert; [done|]. eauto.
    + left. split; [done|]. intros k Hkr. cbn [snd]. rewrite !get_0, child_insert by done.
      destruct (decide (k = low 0 key)) as [->|Hne]; [by rewrite decide_True|].
      rewrite decide_False; [done|]. intros E. apply Hne. apply (low_eq 0); [done|apply low_range|].
      split; [done|]. by rewrite !Z.mod_1_r.
  - assert (slots !! Z.to_nat (low (S d) key / width ^ Z.of_nat (S d)) =
            Some (child (S d) slots (low (S d) key))) as ->
      by (rewrite <- (slot_child _ _ _ _ _ Hk Hn Hd); by rewrite (index_low _ _ _ Hk Hd)).
    destruct (child (S d) slots (low (S d) key)) as [n0|] eqn:Ec.
    + eapply wp_seq; [apply (IH (level + 1) n0)|cbv beta|done].
      * apply child_lookup in Ec. exact (shape_slot _ _ _ _ _ Hn Ec).
      * lia.
      * intros r h' Hr. apply wp_ret. eapply insert_child; try done. intros k _. by rewrite Ec.
    + unfold alloc_radix_tree_node, alloc_block, mem_malloc, wp, bind at 1 2.
      destruct (malloc_ok _ _) eqn:Em; cbn.
      * eapply wp_seq; [apply (IH (level + 1) (empty_node t))|cbv beta|done].
        -- apply node_ok_shape, empty_ok.
        -- lia.
        -- intros r h' Hr. apply wp_ret. eapply insert_child; try done. intros k _.
           by rewrite Ec, get_empty.
      * split; [exact Hn|]. right. split_and!; [done|by intros Ha; rewrite Ha in Em|done].
Qed.

(** Whether a subtree may hang below a node. *)
Definition child_ok (d : nat) (n : node) : Prop :=
  match d with O => ∃ v, n = Value v | S d' => node_ok d' n ∧ 1 <= node_count n end.

Lemma node_ok_eq d c slots : node_ok d (Node c slots) ↔
  length slots = Z.to_nat width ∧ c = Z.of_nat (used slots) ∧
  ∀ i n, slots !! i = Some (Some n) → child_ok d n.
Proof.
  destruct d; cbn; (split; intros (Hl & Hc & Hf); split_and!; try done;
    [intros i n Hi; by rewrite Forall_lookup in Hf; apply (Hf _ _ Hi)
    |apply Forall_lookup; intros i [n|] Hi; [by apply (Hf i)|done]]).
Qed.

(** Storing a subtree in a slot keeps the counts right. *)
Lemma node_ok_store d c c' slots i s s' : node_ok d (Node c slots) → slots !! i = Some s →
  c' + Z.of_nat (filled s) = c + Z.of_nat (filled s') →
  match s' with Some n' => child_ok d n' | None => True end →
  node_ok d (Node c' (<[i := s']> slots)).
Proof.
  rewrite !node_ok_eq. intros (Hl & Hc & Hf) Hs Hcc Hn. split_and!.
  - by rewrite length_insert.
  - pose proof (used_insert slots i s s' Hs). lia.
  - intros j n Hj. destruct (decide (i = j)) as [->|Hne].
    + rewrite list_lookup_insert_eq in Hj by (by eapply lookup_lt_Some). injection Hj as ->. exact Hn.
    + rewrite list_lookup_insert_ne in Hj by done. eauto.
Qed.

Lemma used_slot (slots : list (option node)) i n : slots !! i = Some (Some n) → (1 <= used slots)%nat.
Proof. intros Hs. pose proof (used_insert slots i _ None Hs) as H. cbn [filled] in H. lia. Qed.

Lemma insert_from_node_ok `{Allocator} key value : 0 <= key → ∀ d level n h,
  node_ok d n → level_count t - level - 1 = Z.of_nat d → get d n (low d key) = None →
  wp (insert_from d t key value level n)
     (λ r _, r.1 = 0 → node_ok d r.2 ∧ 1 <= node_count r.2) (λ _ _, False) h.
Proof.
  intros Hk. induction d as [|d IH]; intros level [c slots|v] h Hn Hd Hg; try done; cbn [insert_from];
    pose proof (slot_child _ _ _ _ _ Hk (node_ok_shape _ _ Hn) Hd) as Hs;
    pose proof Hn as (_ & Hc & _)%node_ok_eq.
  - rewrite decide_True by (by eapply lookup_lt_Some). apply wp_ret. intros _. cbn [fst snd node_count].
    assert (child 0 slots (low 0 key) = None) as Ec.
    { destruct (child 0 slots (low 0 key)) as [n|] eqn:Ec; [|done]. rewrite get_0, Ec in Hg.
      destruct (ok_slot _ _ _ _ _ Hn Hs) as [v ->]. done. }
    rewrite Ec in Hs. split; [|lia]. eapply node_ok_store; [done..|cbn; lia|by eexists].
  - rewrite Hs. rewrite get_S, low_rest in Hg.
    destruct (child (S d) slots (low (S d) key)) as [n0|] eqn:Ec.
    + destruct (ok_slot _ _ _ _ _ Hn Hs) as [Hn0 Hc0].
      eapply wp_seq; [apply (IH (level + 1) n0); [done|lia|done]|cbv beta|done].
      intros r h' Hr. apply wp_ret. cbn [fst snd node_count]. intros E. split.
      * eapply node_ok_store; [done..|cbn [filled]; lia|by apply Hr].
      * pose proof (used_slot _ _ _ Hs). lia.
    + unfold alloc_radix_tree_node, alloc_block, mem_malloc, wp, bind at 1 2.
      destruct (malloc_ok _ _) eqn:Em; cbn; [|done].
      eapply wp_seq; [apply (IH (level + 1) (empty_node t)); [apply empty_ok|lia|apply get_empty]|cbv beta|done].
      intros r h' Hr. apply wp_ret. cbn [fst snd node_count]. intros E. split; [|lia].
      apply (node_ok_store (S d) c _ _ _ None (Some r.2)); [done..|cbn [filled]; lia|by apply Hr].
Qed.

(** ** Removal *)

(** What removing a present key does to a subtree. *)
Definition remove_post (d : nat) (n : node) (key : Z) (r : removal) : Prop :=
  ∃ n', (r = Changed n' ∧ 1 <= node_count n' ∨ r = Emptied n' ∧ node_count n' = 0) ∧ node_ok d n' ∧
    ∀ k, 0 <= k < width ^ Z.of_nat (S d) → get d n' k = if decide (k = low d key) then None else get d n k.

Lemma get_no_slots d c slots k : used slots = O → get d (Node c slots) k = None.
Proof.
  intros Hu. assert (∀ d', child d' slots k = None) as Hc.
  { intros d'. unfold child. destruct (slots !! _) as [[n|]|] eqn:E; try done.
    apply used_slot in E. lia. }
  destruct d; [rewrite get_0|rewrite get_S]; by rewrite Hc.
Qed.

(** Clearing the slot of a key when nothing else is stored under it. *)
Lemma freed_slot_post d c slots key n : 0 <= key → node_ok d (Node c slots) →
  slots !! Z.to_nat (low d key / width ^ Z.of_nat d) = Some (Some n) →
  (∀ k, 0 <= k < width ^ Z.of_nat (S d) → k ≠ low d key →
     Z.to_nat (k / width ^ Z.of_nat d) = Z.to_nat (low d key / width ^ Z.of_nat d) →
     get d (Node c slots) k = None) →
  remove_post d (Node c slots) key (freed_slot c slots (Z.to_nat (low d key / width ^ Z.of_nat d))).
Proof.
  intros Hk Hn Hs Halone. set (i := Z.to_nat (low d key / width ^ Z.of_nat d)) in *.
  pose proof Hn as (Hl & Hc & _)%node_ok_eq. pose proof (used_slot _ _ _ Hs) as Hu.
  exists (Node (c - 1) (<[i := None]> slots)). split_and!.
  - unfold freed_slot. cbn [node_count]. case_decide; [right|left]; (split; [done|]); lia.
  - eapply node_ok_store; [done..|cbn [filled]; lia|done].
  - intros k Hkr.
    assert (child d (<[i := None]> slots) k = if decide (Z.to_nat (k / width ^ Z.of_nat d) = i) then None else child d slots k) as Hch.
    { rewrite child_insert by (by eapply lookup_lt_Some). done. }
    assert (get d (Node (c - 1) (<[i := None]> slots)) k =
            if decide (Z.to_nat (k / width ^ Z.of_nat d) = i) then None else get d (Node c slots) k) as ->.
    { destruct d; [rewrite !get_0|rewrite !get_S]; rewrite Hch; by case_decide. }
    case_decide as E1; case_decide as E2; try done.
    + symmetry. by apply Halone.
    + by subst k.
Qed.

Lemma remove_from_ok key v : 0 <= key → ∀ d level n,
  node_ok d n → level_count t - level - 1 = Z.of_nat d → get d n (low d key) = Some v →
  ∃ r, remove_from d t key level n = Some r ∧ remove_post d n key r.
Proof.
  intros Hk. induction d as [|d IH]; intros level [c slots|v'] Hn Hd Hg; try done; cbn [remove_from];
    pose proof (slot_child _ _ _ _ _ Hk (node_ok_shape _ _ Hn) Hd) as Hs.
  - rewrite get_0 in Hg. destruct (child 0 slots (low 0 key)) as [[]|] eqn:Ec; try done.
    rewrite decide_True by (by eapply lookup_lt_Some). eexists; split; [done|].
    rewrite (index_low _ _ _ Hk Hd) in *. eapply freed_slot_post; [done..|].
    intros k Hkr Hne E. exfalso. apply Hne, (low_eq 0); [done|apply low_range|].
    split; [done|]. by rewrite !Z.mod_1_r.
  - rewrite get_S, low_rest in Hg. destruct (child (S d) slots (low (S d) key)) as [n0|] eqn:Ec; [|done].
    rewrite Hs. cbn [mbind option_bind]. destruct (ok_slot _ _ _ _ _ Hn Hs) as [Hn0 Hc0].
    destruct (IH (level + 1) n0 Hn0 ltac:(lia) Hg) as (r & -> & n' & Hr & Hn' & Hg').
    cbn [mbind option_bind]. eexists; split; [done|]. rewrite (index_low _ _ _ Hk Hd) in *.
    assert (∀ k, 0 <= k < width ^ Z.of_nat (S (S d)) →
      Z.to_nat (k / width ^ Z.of_nat (S d)) = Z.to_nat (low (S d) key / width ^ Z.of_nat (S d)) →
      (k = low (S d) key ↔ k mod width ^ Z.of_nat (S d) = low d key) ∧
      get (S d) (Node c slots) k = get d n0 (k mod width ^ Z.of_nat (S d))) as Hsame.
    { intros k Hkr E. split.
      - rewrite <- (low_rest d key). rewrite (low_eq (S d) k) by (try done; apply low_range). tauto.
      - rewrite get_S. unfold child. rewrite E, Hs. done. }
    destruct Hr as [[-> Hc']|[-> Hc']].
    + eexists. split; [left; split; [done|]|split].
      * pose proof Hn as (_ & -> & _)%node_ok_eq. pose proof (used_slot _ _ _ Hs). cbn [node_count]. lia.
      * eapply node_ok_store; [done..|cbn [filled]; lia|done].
      * intros k Hkr. rewrite (get_insert d c) by (try done; by apply node_ok_shape). case_decide as E.
        -- destruct (Hsame k Hkr E) as [He ->]. rewrite Hg' by apply rest_range. by rewrite (decide_ext _ _ _ _ He).
        -- rewrite decide_False; [done|]. by intros ->.
    + eapply freed_slot_post; [done..|]. intros k Hkr Hne E. destruct (Hsame k Hkr E) as [He ->].
      destruct n' as [c' slots'|]; [|by destruct d]. cbn [node_count] in Hc'.
      pose proof Hn' as (_ & Hu & _)%node_ok_eq.
      pose proof (Hg' _ (rest_range (S d) k)) as Hz. rewrite get_no_slots in Hz by lia.
      rewrite decide_False in Hz by tauto. done.
Qed.

(** ** The preceding key *)

(** [r] is the value of the greatest key of [f] up to [k]. *)
Definition prev_spec (f : Z → option V) (k : Z) (r : option V) : Prop :=
  match r with
  | Some v => ∃ j, 0 <= j <= k ∧ f j = Some v ∧ ∀ j', j < j' <= k → f j' = None
  | None => ∀ j, 0 <= j <= k → f j = None
  end.

Lemma prev_extend f k k' r : prev_spec f k r → k <= k' → (∀ j, 0 <= j → k < j <= k' → f j = None) →
  prev_spec f k' r.
Proof.
  intros Hp Hk Hf. destruct r as [v|].
  - destruct Hp as (j & Hj & Hv & Hn). exists j. split_and!; [lia..|done|]. intros j' Hj'.
    destruct (decide (j' <= k)); [apply Hn|apply Hf]; lia.
  - intros j Hj. destruct (decide (j <= k)); [apply Hp|apply Hf]; lia.
Qed.

(** What a slot holds for the rest of the key. *)
Definition sub (d : nat) (n : node) (k : Z) : option V :=
  match d, n with
  | O, Value v => Some v
  | S d', _ => get d' n k
  | _, _ => None
  end.

Lemma get_sub d c slots i k : 0 <= i → 0 <= k < width ^ Z.of_nat d →
  get d (Node c slots) (i * width ^ Z.of_nat d + k) =
  match mjoin (slots !! Z.to_nat i) with Some n => sub d n k | None => None end.
Proof.
  intros Hi Hk. pose proof (width_pow_pos d).
  assert ((i * width ^ Z.of_nat d + k) / width ^ Z.of_nat d = i) as Hq
    by (rewrite Z.div_add_l, Z.div_small by lia; lia).
  assert ((i * width ^ Z.of_nat d + k) mod width ^ Z.of_nat d = k) as Hm
    by (rewrite Z.add_comm, Z_mod_plus_full; by apply Z.mod_small).
  destruct d as [|d]; [rewrite get_0|rewrite get_S, Hm]; unfold child; rewrite Hq; [|done].
  by destruct (mjoin _) as [[]|].
Qed.

Lemma split_key d k : 0 <= k → ∃ i r, 0 <= i ∧ 0 <= r < width ^ Z.of_nat d ∧ k = i * width ^ Z.of_nat d + r.
Proof.
  intros Hk. pose proof (width_pow_pos d). exists (k / width ^ Z.of_nat d), (k mod width ^ Z.of_nat d).
  split_and!; [by apply Z.div_pos; lia|apply rest_range..|]. rewrite Z.mul_comm. by apply Z.div_mod; lia.
Qed.

(** Empty slots from [a] to [b] hold no keys. *)
Lemma get_gap d c slots a b k : (∀ j, (a <= j < b)%nat → mjoin (slots !! j) = None) →
  Z.of_nat a * width ^ Z.of_nat d <= k < Z.of_nat b * width ^ Z.of_nat d → get d (Node c slots) k = None.
Proof.
  intros Hj Hk. pose proof (width_pow_pos d). destruct (split_key d k) as (i & r & Hi & Hr & ->); [nia|].
  rewrite get_sub by done. assert (Z.of_nat a <= i < Z.of_nat b) by nia. rewrite Hj; [done|lia].
Qed.

Lemma prev_in d c slots i n k v : slots !! i = Some (Some n) → k < width ^ Z.of_nat d →
  prev_spec (sub d n) k (Some v) → prev_spec (get d (Node c slots)) (Z.of_nat i * width ^ Z.of_nat d + k) (Some v).
Proof.
  intros Hs Hk (j & Hj & Hv & Hn). pose proof (width_pow_pos d).
  assert (∀ r, 0 <= r <= k → get d (Node c slots) (Z.of_nat i * width ^ Z.of_nat d + r) = sub d n r) as Hg.
  { intros r Hr. rewrite get_sub by lia. by rewrite Nat2Z.id, Hs. }
  exists (Z.of_nat i * width ^ Z.of_nat d + j). split_and!; [nia|lia|by rewrite Hg by lia|].
  intros j' Hj'. replace j' with (Z.of_nat i * width ^ Z.of_nat d + (j' - Z.of_nat i * width ^ Z.of_nat d)) by lia.
  rewrite Hg by nia. apply Hn. nia.
Qed.

Lemma last_slot_spec (slots : list (option node)) i :
  match last_slot i slots with
  | Some n => ∃ j, (j < i)%nat ∧ slots !! j = Some (Some n) ∧ ∀ j', (S j <= j' < i)%nat → mjoin (slots !! j') = None
  | None => ∀ j', (0 <= j' < i)%nat → mjoin (slots !! j') = None
  end.
Proof.
  induction i as [|i IH]; [cbn; lia|]. cbn [last_slot].
  assert (mjoin (slots !! i) = None → ∀ j j', (j <= j' < S i)%nat →
    (∀ j', (j <= j' < i)%nat → mjoin (slots !! j') = None) → mjoin (slots !! j') = None) as Hstep.
  { intros E j j' Hj' Hn. destruct (decide (j' = i)) as [->|]; [done|apply Hn; lia]. }
  destruct (slots !! i) as [[n|]|] eqn:E; [exists i; split_and!; [lia|done|lia]|..];
    (destruct (last_slot i slots) as [n|];
      [destruct IH as (j & Hj & Hs & Hn); exists j; split_and!; [lia|done|]; intros j' Hj';
        by apply (Hstep eq_refl (S j))
      |intros j' Hj'; by apply (Hstep eq_refl O)]).
Qed.

Lemma used_0 (slots : list (option node)) : (∀ j, (0 <= j < length slots)%nat → mjoin (slots !! j) = None) → used slots = O.
Proof.
  induction slots as [|s slots IH]; intros Hj; [done|]. cbn [used]. rewrite IH.
  - pose proof (Hj O ltac:(cbn; lia)) as H0. cbn in H0. by subst s.
  - intros j Hlt. apply (Hj (S j)). cbn. lia.
Qed.

(** The nodes below slot [i] of a node, searched by [radix_tree_last]. *)
Definition last_found (d : nat) : Prop :=
  ∀ n, child_ok d n → ∃ v, radix_tree_last d n = Some (Some v) ∧ prev_spec (sub d n) (width ^ Z.of_nat d - 1) (Some v).

Lemma prev_below d c slots i : last_found d → node_ok d (Node c slots) →
  match last_slot i slots with
  | Some n => ∃ v, radix_tree_last d n = Some (Some v) ∧
                prev_spec (get d (Node c slots)) (Z.of_nat i * width ^ Z.of_nat d - 1) (Some v)
  | None => prev_spec (get d (Node c slots)) (Z.of_nat i * width ^ Z.of_nat d - 1) None
  end.
Proof.
  intros Hlast (_ & _ & Hf)%node_ok_eq. pose proof (last_slot_spec slots i) as Hls.
  pose proof (width_pow_pos d). destruct (last_slot i slots) as [n|].
  - destruct Hls as (j & Hj & Hs & Hn). destruct (Hlast n (Hf _ _ Hs)) as (v & Hv & Hp).
    exists v. split; [done|]. eapply prev_extend; [eapply prev_in; [exact Hs| |exact Hp]; lia|nia|].
    intros k Hk0 Hk. eapply get_gap; [exact Hn|]. nia.
  - intros k Hk. eapply (get_gap d c slots 0 i); [exact Hls|]. lia.
Qed.

Lemma last_all d : last_found d.
Proof.
  induction d as [|d IH]; intros n Hn.
  - destruct Hn as [v ->]. exists v. split; [done|]. exists 0. split_and!; [done..|]. cbn. lia.
  - destruct n as [c slots|]; [|by destruct d, Hn]. destruct Hn as [Hn Hc].
    pose proof (prev_below d c slots (length slots) IH Hn) as Hp.
    pose proof Hn as (Hl & Hu & _)%node_ok_eq. cbn [radix_tree_last].
    replace (Z.of_nat (length slots) * width ^ Z.of_nat d) with (width ^ Z.of_nat (S d)) in Hp
      by (rewrite width_S, Hl, Z2Nat.id by (pose proof width_pos; lia); lia).
    pose proof (last_slot_spec slots (length slots)) as Hls.
    destruct (last_slot (length slots) slots); [exact Hp|].
    apply used_0 in Hls. cbn [node_count] in Hc. lia.
Qed.

(** A node with one slot filled has nothing else to find. *)
Lemma only_slot (slots : list (option node)) i n : used slots = 1%nat → slots !! i = Some (Some n) →
  last_slot i slots = None.
Proof.
  intros Hu Hs. pose proof (last_slot_spec slots i) as Hls.
  destruct (last_slot i slots) as [m|]; [|done]. destruct Hls as (j & Hj & Hm & _).
  pose proof (used_insert slots i _ None Hs) as H1. cbn [filled] in H1.
  assert (<[i := None]> slots !! j = Some (Some m)) as H2 by (rewrite list_lookup_insert_ne by lia; done).
  apply used_slot in H2. lia.
Qed.

Lemma previous_up key c slots level parents first d : 0 <= key →
  node_ok d (Node c slots) → level_count t - level - 1 = Z.of_nat d →
  (first = false → ∃ n, slots !! index t key level = Some (Some n)) →
  (∃ v, radix_tree_previous t key ((c, slots) :: parents) level first = Some (Some v) ∧
        prev_spec (get d (Node c slots)) (Z.of_nat (index t key level) * width ^ Z.of_nat d - 1) (Some v)) ∨
  (radix_tree_previous t key ((c, slots) :: parents) level first = radix_tree_previous t key parents (level - 1) false ∧
   prev_spec (get d (Node c slots)) (Z.of_nat (index t key level) * width ^ Z.of_nat d - 1) None).
Proof.
  intros Hk Hn Hd Hfirst. cbn [radix_tree_previous].
  pose proof (prev_below d c slots (index t key level) (last_all d) Hn) as Hp.
  replace (Z.to_nat (level_count t - (level + 1))) with d by lia.
  destruct (negb first && bool_decide (c = 1)) eqn:E.
  - apply andb_true_iff in E as [E1 E2%bool_decide_eq_true_1]. destruct first; [done|].
    destruct (Hfirst eq_refl) as [n Hs]. pose proof Hn as (_ & Hu & _)%node_ok_eq.
    rewrite (only_slot slots _ n) in Hp by (done || lia). by right.
  - destruct (last_slot (index t key level) slots); [left|right]; done.
Qed.

Lemma low_split d key : 0 <= key →
  low (S d) key = low (S d) key / width ^ Z.of_nat (S d) * width ^ Z.of_nat (S d) + low d key.
Proof.
  intros Hk. pose proof (width_pow_pos (S d)). rewrite <- (low_rest d key), Z.mul_comm.
  apply Z.div_mod. lia.
Qed.

(** The rest of the key below level [d]. *)
Definition rest (d : nat) (key : Z) : Z := key mod width ^ Z.of_nat d.

Lemma low_index d key level : 0 <= key → level_count t - level - 1 = Z.of_nat d →
  low d key = Z.of_nat (index t key level) * width ^ Z.of_nat d + rest d key.
Proof.
  intros Hk Hd. rewrite (index_low _ _ _ Hk Hd). pose proof (digit_lt d _ (low_range d key)).
  rewrite Z2Nat.id by lia. destruct d as [|d].
  - unfold rest. cbn. rewrite Z.mod_1_r, Z.div_1_r. lia.
  - exact (low_split d key Hk).
Qed.

(** How a search below a slot goes on. *)
Definition searched (f : Z → option V) (k : Z) (found up : option (option V)) : Prop :=
  (∃ v, found = Some (Some v) ∧ prev_spec f k (Some v)) ∨ (found = up ∧ prev_spec f k None).

(** From the slot of a key to its node. *)
Lemma searched_slot key d c slots level parents n : 0 <= key →
  node_ok d (Node c slots) → level_count t - level - 1 = Z.of_nat d →
  slots !! index t key level = Some (Some n) →
  searched (sub d n) (rest d key) (lookup_from d t key true (level + 1) ((c, slots) :: parents) n)
    (radix_tree_previous t key ((c, slots) :: parents) level false) →
  searched (get d (Node c slots)) (low d key)
    (lookup_from (S d) t key true level parents (Node c slots)) (radix_tree_previous t key parents (level - 1) false).
Proof.
  intros Hk Hn Hd Hs Hsub. rewrite lookup_from_S, Hs. cbn [mbind option_bind].
  rewrite (low_index _ _ level Hk Hd). pose proof (rest_range d key) as Hr. fold (rest d key) in Hr.
  destruct Hsub as [(v & -> & Hp)|[-> Hp]]; [left; exists v; split; [done|]; eapply prev_in; [done|lia|done]|].
  assert (∀ k, 0 <= k → Z.of_nat (index t key level) * width ^ Z.of_nat d - 1 < k <= Z.of_nat (index t key level) * width ^ Z.of_nat d + rest d key →
    get d (Node c slots) k = None) as Hgap.
  { intros k Hk0 Hkr. replace k with (Z.of_nat (index t key level) * width ^ Z.of_nat d + (k - Z.of_nat (index t key level) * width ^ Z.of_nat d)) by lia.
    rewrite get_sub by lia. rewrite Nat2Z.id, Hs. cbn. apply Hp. lia. }
  destruct (previous_up key c slots level parents false d Hk Hn Hd) as [(v & -> & Hv)|[-> Hv]]; [by eauto| |].
  - left. exists v. split; [done|]. eapply prev_extend; [exact Hv|lia|exact Hgap].
  - right. split; [done|]. eapply prev_extend; [exact Hv|lia|exact Hgap].
Qed.

Lemma searched_empty key d c slots level parents : 0 <= key →
  node_ok d (Node c slots) → level_count t - level - 1 = Z.of_nat d →
  slots !! index t key level = Some None →
  searched (get d (Node c slots)) (low d key)
    (lookup_from (S d) t key true level parents (Node c slots)) (radix_tree_previous t key parents (level - 1) false).
Proof.
  intros Hk Hn Hd Hs. rewrite lookup_from_S, Hs. cbn [mbind option_bind].
  rewrite (low_index _ _ level Hk Hd). pose proof (rest_range d key) as Hr. fold (rest d key) in Hr.
  assert (∀ k, 0 <= k → Z.of_nat (index t key level) * width ^ Z.of_nat d - 1 < k <= Z.of_nat (index t key level) * width ^ Z.of_nat d + rest d key →
    get d (Node c slots) k = None) as Hgap.
  { intros k Hk0 Hkr. eapply (get_gap d c slots (index t key level) (S (index t key level))); [|lia].
    intros j Hj. replace j with (index t key level) by lia. by rewrite Hs. }
  destruct (previous_up key c slots level parents true d Hk Hn Hd) as [(v & -> & Hv)|[-> Hv]]; [done| |].
  - left. exists v. split; [done|]. eapply prev_extend; [exact Hv|lia|exact Hgap].
  - right. split; [done|]. eapply prev_extend; [exact Hv|lia|exact Hgap].
Qed.

Lemma lookup_prev_from key : 0 <= key → ∀ d level parents n,
  node_ok d n → level_count t - level - 1 = Z.of_nat d →
  searched (get d n) (low d key) (lookup_from (S d) t key true level parents n)
    (radix_tree_previous t key parents (level - 1) false).
Proof.
  intros Hk. induction d as [|d IH]; intros level parents [c slots|v'] Hn Hd; try done;
    pose proof (slot_child _ _ _ _ _ Hk (node_ok_shape _ _ Hn) Hd) as Hs.
  - destruct (child 0 slots (low 0 key)) as [n|]; [|by apply searched_empty].
    eapply searched_slot; [done..|]. destruct (ok_slot _ _ _ _ _ Hn Hs) as [v ->]. left. exists v.
    split; [done|]. exists 0. unfold rest. cbn. rewrite Z.mod_1_r. split_and!; [done..|lia].
  - destruct (child (S d) slots (low (S d) key)) as [n|]; [|by apply searched_empty].
    eapply searched_slot; [done..|]. destruct (ok_slot _ _ _ _ _ Hn Hs) as [Hn0 _].
    specialize (IH (level + 1) ((c, slots) :: parents) n Hn0 ltac:(lia)). by rewrite Z.add_simpl_r in IH.
Qed.
End spec.

(** ** Properties *)

Section props.
Context {V : Type}.

(** A tree as allocated and built from there: its levels exist, with room for keys
    below [key_limit]. *)
Definition depth (t : radix_tree V) : nat := Z.to_nat (level_count t - 1).
Definition key_limit (t : radix_tree V) : Z := width t ^ level_count t.
Definition tree_shape (t : radix_tree V) : Prop := shape_ok t ∧ node_shape t (depth t) (root t).
Definition tree_ok (t : radix_tree V) : Prop := shape_ok t ∧ node_ok t (depth t) (root t).

Lemma tree_ok_shape t : tree_ok t → tree_shape t.
Proof. intros [Hs Hn]. split; [done|]. by apply node_ok_shape. Qed.

Lemma depth_levels t : shape_ok t → level_count t - 0 - 1 = Z.of_nat (depth t).
Proof. intros [_ Hl]. unfold depth. lia. Qed.
Lemma key_limit_depth t : shape_ok t → key_limit t = width t ^ Z.of_nat (S (depth t)).
Proof. intros [_ Hl]. unfold key_limit, depth. f_equal. lia. Qed.

Lemma low_mod t key : shape_ok t → low t (depth t) key = key mod key_limit t.
Proof. intros Hs. unfold low. by rewrite <- key_limit_depth. Qed.

Lemma radix_tree_lookup_get t key : 0 <= key → tree_shape t →
  radix_tree_lookup t key = Some (get t (depth t) (root t) (key mod key_limit t)).
Proof.
  intros Hk [Hs Hn]. unfold radix_tree_lookup. rewrite <- low_mod by done.
  replace (Z.to_nat (level_count t)) with (S (depth t)) by (destruct Hs; unfold depth; lia).
  apply lookup_from_get; [done..|by apply depth_levels].
Qed.

(** C34: Inserting into a radix tree: unless memory runs out, the call returns 0 and
    afterwards a lookup gives the new value for every key with the same low bits,
    and what it gave before for every other key.  When memory runs out the call
    returns -ENOMEM and no lookup changes.  Counts stay right when the key was not
    in the tree. *)
Theorem radix_tree_insert_correct `{Allocator} (t : radix_tree V) (key : Z) (value : V) (h : mem) :
  tree_shape t → 0 <= key →
  match radix_tree_insert t key value h with
  | Done (err, t') _ =>
    tree_shape t' ∧
    ((err = 0 ∧
      (∀ k, 0 <= k → radix_tree_lookup t' k =
         if decide (k mod key_limit t = key mod key_limit t) then Some (Some value) else radix_tree_lookup t k) ∧
      (tree_ok t → radix_tree_lookup t key = Some None → tree_ok t')) ∨
     (err = - ENOMEM ∧ ¬ (∀ i sz, malloc_ok i sz = true) ∧
      ∀ k, 0 <= k → radix_tree_lookup t' k = radix_tree_lookup t k))
  | _ => False
  end.
Proof.
  intros Ht Hk. pose proof Ht as [Hs Hn]. pose proof (depth_levels t Hs) as Hd.
  pose proof (insert_from_ok t Hs key value Hk (depth t) 0 (root t) h Hn Hd) as Hw.
  pose proof (λ Hok, insert_from_node_ok t Hs key value Hk (depth t) 0 (root t) h Hok Hd) as Hw2.
  unfold radix_tree_insert, bind. fold (depth t). unfold wp in Hw, Hw2.
  destruct (insert_from _ _ _ _ _ _ h) as [[err n'] h'|e h'|]; [|done..]. cbn [ret fst snd].
  destruct Hw as [Hsh Hr]. cbn [fst snd] in *.
  assert (tree_shape (with_root t n')) as Ht' by (by split; [destruct Hs|]). split; [exact Ht'|].
  assert (∀ k, 0 <= k mod key_limit t < width t ^ Z.of_nat (S (depth t))) as Hrange.
  { intros k. rewrite key_limit_depth by done. by apply rest_range. }
  destruct Hr as [[-> Hr]|(-> & Hm & Hr)]; [left|right]; split_and!; try done.
  - intros k Hk'. rewrite (radix_tree_lookup_get (with_root t n')), radix_tree_lookup_get by done.
    rewrite low_mod in Hr by done.
    change (get (with_root t n')) with (get t). change (key_limit (with_root t n')) with (key_limit t).
    change (depth (with_root t n')) with (depth t). cbn [root with_root].
    rewrite Hr by apply Hrange. by case_decide.
  - intros [_ Hok] Hnone. rewrite radix_tree_lookup_get in Hnone by done. injection Hnone as Hnone.
    rewrite <- low_mod in Hnone by done. split; [by destruct Hs|]. by apply Hw2.
  - intros k Hk'. rewrite (radix_tree_lookup_get (with_root t n')), radix_tree_lookup_get by done.
    f_equal. apply Hr, Hrange.
Qed.

(** Removing a key that is in a tree with right counts: the key is gone, every
    other key keeps its value, and the counts are right afterwards, the emptied
    nodes being released on the way up. *)
Theorem radix_tree_remove_correct (t : radix_tree V) (key : Z) (v : V) :
  tree_ok t → 0 <= key → radix_tree_lookup t key = Some (Some v) →
  ∃ t', radix_tree_remove t key = Some t' ∧ tree_ok t' ∧
    ∀ k, 0 <= k → radix_tree_lookup t' k =
      if decide (k mod key_limit t = key mod key_limit t) then Some None else radix_tree_lookup t k.
Proof.
  intros Ht Hk Hv. pose proof Ht as [Hs Hn]. pose proof (tree_ok_shape t Ht) as Hsh.
  rewrite radix_tree_lookup_get in Hv by done. injection Hv as Hv. rewrite <- low_mod in Hv by done.
  destruct (remove_from_ok t Hs key v Hk (depth t) 0 (root t) Hn (depth_levels t Hs) Hv) as (r & Er & n' & Hr & Hn' & Hg).
  exists (with_root t n'). unfold radix_tree_remove. fold (depth t). rewrite Er. cbn [mbind option_bind].
  assert (tree_ok (with_root t n')) as Ht' by (by split; [destruct Hs|]).
  split_and!; [by destruct Hr as [[-> _]|[-> _]]|exact Ht'|].
  intros k Hk'. rewrite (radix_tree_lookup_get (with_root t n')), radix_tree_lookup_get by (done || by apply tree_ok_shape).
  rewrite low_mod in Hg by done.
  change (get (with_root t n')) with (get t). change (key_limit (with_root t n')) with (key_limit t).
  change (depth (with_root t n')) with (depth t). cbn [root with_root].
  rewrite Hg; [by case_decide|]. rewrite key_limit_depth by done. by apply rest_range.
Qed.

(** C26: In a tree with right counts, the lookup of the preceding key gives the value
    of the greatest key that is at most the one asked for, and the null pointer
    only when there is no such key. *)
Theorem radix_tree_lookup_prev_correct (t : radix_tree V) (key : Z) :
  tree_ok t → 0 <= key < key_limit t →
  ∃ r, radix_tree_lookup_prev t key = Some r ∧
    match r with
    | Some v => ∃ k, 0 <= k <= key ∧ radix_tree_lookup t k = Some (Some v) ∧
                  ∀ k', k < k' <= key → radix_tree_lookup t k' = Some None
    | None => ∀ k, 0 <= k <= key → radix_tree_lookup t k = Some None
    end.
Proof.
  intros Ht Hk. pose proof Ht as [Hs Hn]. pose proof (tree_ok_shape t Ht) as Hsh.
  pose proof (lookup_prev_from t Hs key (proj1 Hk) (depth t) 0 [] (root t) Hn (depth_levels t Hs)) as Hp.
  rewrite low_mod, Z.mod_small in Hp by done. unfold radix_tree_lookup_prev.
  replace (Z.to_nat (level_count t)) with (S (depth t)) by (destruct Hs; unfold depth; lia).
  assert (∀ k, 0 <= k <= key → radix_tree_lookup t k = Some (get t (depth t) (root t) k)) as Hget.
  { intros k Hkr. rewrite radix_tree_lookup_get by (done || lia). by rewrite Z.mod_small by lia. }
  destruct Hp as [(v & -> & k & Hkr & Hv & Hgap)|[-> Hnone]].
  - exists (Some v). split; [done|]. exists k. rewrite Hget, Hv by lia. split_and!; [lia..|done|].
    intros k' Hk'. rewrite Hget by lia. by rewrite Hgap by lia.
  - exists None. split; [done|]. intros k Hkr. rewrite Hget by done. by rewrite Hnone.
Qed.
End props.

(** ** Examples *)

Definition always : Allocator := λ _ _, true.
Definition h0 : mem := Mem 0 ∅.
(** Two bits a level, six-bit keys. *)
Definition t0 : radix_tree nat :=
  match @alloc_radix_tree nat always 2 6 h0 with Done t _ => t | _ => RadixTree (Value 0%nat) 0 0 end.
Definition put (t : radix_tree nat) (key : Z) (v : nat) : radix_tree nat :=
  match @radix_tree_insert nat always t key v h0 with Done r _ => r.2 | _ => t end.
Definition t2 : radix_tree nat := put (put t0 9 1%nat) 42 2%nat.

Lemma alloc_radix_tree_ok `{Allocator} {V} bpl key_bits h t h' :
  @alloc_radix_tree V _ bpl key_bits h = Done t h' → bpl < 31 → tree_ok t.
Proof.
  unfold alloc_radix_tree. case_decide as Hc; [|done]. intros E Hb.
  apply bind_done in E as ([p|] & h1 & _ & E); [|done].
  apply bind_done in E as (n & h2 & En & E). apply bind_done in En as ([q|] & h3 & _ & En);
    injection En as <- <-; [|by apply bind_done in E as (? & ? & _ & E)]. injection E as <- _.
  assert (1 <= (key_bits + bpl - 1) / bpl) by (apply Z.div_le_lower_bound; lia).
  split; [by split; cbn; lia|]. set (t := RadixTree (Node 0 []) bpl _). cbn [root].
  change (node_ok (RadixTree (empty_node t) bpl ((key_bits + bpl - 1) / bpl))) with (node_ok t).
  apply empty_ok.
Qed.

Lemma t2_ok : tree_ok t2.
Proof.
  split; [by split; vm_compute|]. change (node_ok t2 2 (root t2)).
  assert (root t2 = Node 2 [Some (Node 1 [None; None; Some (Node 1 [None; Some (Value 1%nat); None; None]); None]); None;
    Some (Node 1 [None; None; Some (Node 1 [None; None; Some (Value 2%nat); None]); None]); None]) as -> by reflexivity.
  cbn [node_ok]. repeat (split_and!; [reflexivity|reflexivity|]); repeat constructor; eauto; vm_compute; congruence.
Qed.

Lemma radix_tree_insert_correct_witness : tree_shape t2 ∧
  match @radix_tree_insert nat always t2 10 7%nat h0 with
  | Done (err, t') _ => err = 0 ∧ radix_tree_lookup t' 10 = Some (Some 7%nat) ∧ radix_tree_lookup t' 42 = Some (Some 2%nat)
  | _ => False
  end.
Proof.
  split; [apply tree_ok_shape, t2_ok|].
  pose proof (@radix_tree_insert_correct nat always t2 10 7%nat h0 (tree_ok_shape _ t2_ok) ltac:(lia)) as Hp.
  revert Hp. destruct (radix_tree_insert t2 10 7%nat h0) as [[err t'] h'|e h'|]; [|done..].
  intros [_ [(-> & Hl & _)|(_ & Hn & _)]]; [|exfalso; by apply Hn].
  split_and!; [done|by rewrite Hl by lia|by rewrite Hl by lia].
Defined.

Lemma radix_tree_remove_correct_witness :
  ∃ t', radix_tree_remove t2 9 = Some t' ∧ radix_tree_lookup t' 9 = Some None ∧
        radix_tree_lookup t' 42 = Some (Some 2%nat).
Proof.
  destruct (radix_tree_remove_correct t2 9 1%nat t2_ok ltac:(lia) ltac:(reflexivity)) as (t' & E & _ & Hl).
  exists t'. split_and!; [done|by rewrite Hl by lia|by rewrite Hl by lia].
Defined.

Lemma radix_tree_lookup_prev_correct_witness : ∃ r, radix_tree_lookup_prev t2 41 = Some r ∧ r ≠ None.
Proof.
  destruct (radix_tree_lookup_prev_correct t2 41 t2_ok ltac:(by vm_compute)) as (r & E & Hr).
  exists r. split; [done|]. intros ->. specialize (Hr 9 ltac:(lia)). done.
Defined.

(** Removing an absent key whose leaf exists lowers the leaf's count: with one other
    key there, that key is lost with the leaf. *)
Lemma radix_tree_remove_absent_loses :
  radix_tree_lookup t2 8 = Some None ∧ radix_tree_lookup t2 9 = Some (Some 1%nat) ∧
  ∃ t', radix_tree_remove t2 8 = Some t' ∧ radix_tree_lookup t' 9 = Some None.
Proof. split_and!; [reflexivity..|]. eexists. split; reflexivity. Qed.

(** Inserting a key again raises the leaf's count: removing the key then leaves the
    empty leaf behind, and the lookup of the preceding key of 20 stops there,
    although 1 is in the tree. *)
Lemma radix_tree_insert_again_breaks_prev :
  let t := put (put (put t0 1 3%nat) 9 1%nat) 9 2%nat in
  ∃ t', radix_tree_remove t 9 = Some t' ∧ radix_tree_lookup t' 1 = Some (Some 3%nat) ∧
        radix_tree_lookup_prev t' 20 = Some None.
Proof. cbv zeta. eexists. split_and!; reflexivity. Qed.
