(* ===== verification/Pqueue.v ===== *)
(** * lib/pqueue.c: the priority queue of the register allocator

    The array is a list of cells, a cell that was never written being [None]; the
    elements are the cells from 1 to [size - 1], a heap with the least key on top.
    Reading or writing outside the array and reading an unwritten cell are
    undefined.  Keys are compared by the sign of a 32-bit difference: the theorems
    are about keys below 2^31, which the positions of a method are. *)

From Stdlib Require Import ZifyNat.
From S2P Require Import Prelude CMonad.
#[local] Open Scope Z_scope.

(** ** Operations *)

Record pqueue_node (V : Type) := PqueueNode { key : Z; value : V }.
Arguments PqueueNode {V}.
Arguments key {V}.
Arguments value {V}.

(** [data] is the block of the array, [cells] what it holds. *)
Record pqueue (V : Type) := Pqueue {
  pq_block : block;
  size : Z;
  data : option block;
  cells : list (option (pqueue_node V));
}.
Arguments Pqueue {V}.
Arguments pq_block {V}.
Arguments size {V}.
Arguments data {V}.
Arguments cells {V}.

Definition ENOMEM : Z := 12.

Definition mem_realloc `{Allocator} (p : option block) (sz : Z) : M mem unit (option block) := λ m,
  match mem_malloc sz m with
  | (None, m') => Done None m'
  | (Some q, m') =>
    match p with
    | None => Done (Some q) m'
    | Some b => match mem_free b m' with Some m'' => Done (Some q) m'' | None => Undef end
    end
  end.
Definition free_ptr (p : option block) : M mem unit unit := λ m,
  match p with
  | None => Done tt m
  | Some b => match mem_free b m with Some m' => Done tt m' | None => Undef end
  end.

Section ops.
Context {V : Type}.
#[local] Abbreviation node := (pqueue_node V).
#[local] Abbreviation queue := (pqueue V).

(** Lifting the accesses to the array. *)
Definition lift {A} (o : option A) : M mem unit A := λ h, match o with Some a => Done a h | None => Undef end.

Definition pqueue_alloc `{Allocator} : M mem unit queue := λ h,
  match mem_malloc 16 h with
  | (Some b, h') => Done (Pqueue b 1 None []) h'
  | (None, h') => Fail tt h'
  end.
Definition pqueue_free (pq : queue) : M mem unit unit :=
  do free_ptr (data pq);; free_ptr (Some (pq_block pq)).
Definition pqueue_is_empty (pq : queue) : bool := bool_decide (size pq = 1).

Definition pqueue_compare (a b : Z) : Z := s32 (u64 (b - a)).

Definition cell (d : list (option node)) (i : Z) : option node := mjoin (d !! Z.to_nat i).
Definition set_cell (d : list (option node)) (i : Z) (n : node) : option (list (option node)) :=
  if decide (Z.to_nat i < length d)%nat then Some (<[Z.to_nat i := Some n]> d) else None.

(** The loop of [pqueue_insert]: the array and the place for the key. *)
Fixpoint sift_up (fuel : nat) (d : list (option node)) (i k : Z) : option (list (option node) * Z) :=
  match fuel with
  | O => None
  | S fuel' =>
    if decide (1 < i) then
      p ← cell d (i / 2);
      if decide (pqueue_compare (key p) k < 0) then
        d ← set_cell d i p;
        sift_up fuel' d (i / 2) k
      else Some (d, i)
    else Some (d, i)
  end.

(** The value returned and the queue. *)
Definition pqueue_insert `{Allocator} (pq : queue) (k : Z) (v : V) : M mem unit (Z * queue) :=
  let m := u64 (size pq + 1) in
  let* p := mem_realloc (data pq) (u64 (m * 16)) in
  match p with
  | None => ret (- ENOMEM, pq)
  | Some p =>
    let d := resize (Z.to_nat m) None (cells pq) in
    let i := u32 (size pq) in
    let* r := lift (sift_up (S (Z.to_nat i)) d i k) in
    let* d := lift (set_cell r.1 r.2 (PqueueNode k v)) in
    ret (0, Pqueue (pq_block pq) m (Some p) d)
  end.

(** The loop of [pqueue_remove_top]: [tmp] is the last element, [n] the new size. *)
Fixpoint sift_down (fuel : nat) (d : list (option node)) (n i : Z) (tmp : node) : option (list (option node) * Z) :=
  match fuel with
  | O => None
  | S fuel' =>
    if decide (i <= n / 2) then
      let j := u32 (2 * i) in
      a ← cell d j;
      j ← (if decide (j < n) then
             b ← cell d (u32 (j + 1));
             Some (if decide (pqueue_compare (key a) (key b) < 0) then u32 (j + 1) else j)
           else Some j);
      c ← cell d j;
      if decide (pqueue_compare (key c) (key tmp) < 0) then Some (d, i)
      else
        d ← set_cell d i c;
        sift_down fuel' d n j tmp
    else Some (d, i)
  end.

(** The value of the top, or null for an empty queue. *)
Definition pqueue_remove_top (pq : queue) : option (option V * queue) :=
  if pqueue_is_empty pq then Some (None, pq) else
  top ← cell (cells pq) 1;
  let n := u64 (size pq - 1) in
  tmp ← cell (cells pq) n;
  '(d, i) ← sift_down (S (Z.to_nat n)) (cells pq) n 1 tmp;
  d ← set_cell d i tmp;
  Some (Some (value top), Pqueue (pq_block pq) n (data pq) d).
End ops.

(** ** Specification *)

(** Linear arithmetic with the halves of indices. *)
#[local] Ltac Zify.zify_post_hook ::= Z.to_euclidean_division_equations.

Section spec.
Context {V : Type}.
#[local] Abbreviation node := (pqueue_node V).
#[local] Abbreviation queue := (pqueue V).
#[local] Abbreviation array := (list (option node)).

Definition key_ok (k : Z) : Prop := 0 <= k < 2 ^ 31.

Lemma compare_lt a b : key_ok a → key_ok b → pqueue_compare a b < 0 ↔ b < a.
Proof.
  unfold key_ok, pqueue_compare. intros Ha Hb.
  assert (s32 (u64 (b - a)) = b - a) as ->; [|lia].
  unfold s32, u64. rewrite <- (signed_id 32 (b - a)) at 2 by (cbn; lia). unfold signed.
  by rewrite Z.mod_mod_divide by (exists (2 ^ 32); reflexivity).
Qed.

(** The key in a cell. *)
Definition kd (d : array) (k : nat) : Z := match mjoin (d !! k) with Some n => key n | None => 0 end.

(** The cells 1 to [N] hold nodes with keys in range. *)
Record good (N : nat) (d : array) : Prop := {
  good_length : (N < length d)%nat;
  good_filled : ∀ k, (1 <= k <= N)%nat → ∃ n, d !! k = Some (Some n);
  good_keys : ∀ k, (1 <= k <= N)%nat → key_ok (kd d k);
}.
Definition heap (N : nat) (d : array) : Prop := ∀ c, (2 <= c <= N)%nat → kd d (c / 2) <= kd d c.

Lemma kd_insert d i x k : (i < length d)%nat → kd (<[i := Some x]> d) k = if decide (k = i) then key x else kd d k.
Proof.
  intros Hi. unfold kd. case_decide as E; [subst k; by rewrite list_lookup_insert_eq|].
  by rewrite list_lookup_insert_ne.
Qed.

Lemma good_insert N d i x : good N d → (i < length d)%nat → key_ok (key x) → good N (<[i := Some x]> d).
Proof.
  intros [Hl Hf Hk] Hi Hx. split; [by rewrite length_insert| |].
  - intros k Hr. destruct (decide (k = i)) as [->|]; [rewrite list_lookup_insert_eq by done; eauto|].
    rewrite list_lookup_insert_ne by done. auto.
  - intros k Hr. rewrite kd_insert by done. case_decide; auto.
Qed.

(** Rearranging the elements. *)
Record rearranged (N : nat) (d d' : array) : Prop := {
  re_perm : d ≡ₚ d';
  re_outside : ∀ k, (k = 0 ∨ N < k)%nat → d' !! k = d !! k;
}.
Lemma rearranged_refl N d : rearranged N d d.
Proof. by split. Qed.
Lemma rearranged_trans N d1 d2 d3 : rearranged N d1 d2 → rearranged N d2 d3 → rearranged N d1 d3.
Proof. intros [P1 O1] [P2 O2]. split; [by transitivity d2|]. intros k Hk. by rewrite O2, O1. Qed.

Lemma insert_perm {A} (l : list A) i x y : l !! i = Some x → y :: l ≡ₚ x :: <[i := y]> l.
Proof.
  revert i. induction l as [|a l IH]; intros [|i] E; try done.
  - injection E as ->. by constructor.
  - change (<[S i := y]> (a :: l)) with (a :: <[i := y]> l). rewrite (Permutation_swap a y), (Permutation_swap a x).
    constructor. by apply IH.
Qed.

(** Exchanging the node at [i] with the one at [j]: what the loops do to the array with
    the moving node put in its place. *)
Lemma exchange N d i j x p : (1 <= i <= N)%nat → (1 <= j <= N)%nat → i ≠ j → (i < length d)%nat →
  d !! j = Some (Some p) →
  let full := <[i := Some x]> d in
  let full' := <[j := Some x]> (<[i := Some p]> d) in
  rearranged N full full' ∧
  ∀ k, kd full' k = if decide (k = j) then key x else if decide (k = i) then key p else kd full k.
Proof.
  intros Hi Hj Hij Hl Ep full full'. pose proof (lookup_lt_Some _ _ _ Ep) as Hlj.
  assert (full' = <[j := Some x]> (<[i := Some p]> full)) as Ef by (subst full full'; by rewrite list_insert_insert_eq).
  assert (full !! i = Some (Some x)) as Ei by (by apply list_lookup_insert_eq).
  assert (full !! j = Some (Some p)) as Ej by (subst full; by rewrite list_lookup_insert_ne).
  split; [split|].
  - apply (Permutation_cons_inv (a := Some p)). rewrite (insert_perm full i _ (Some p) Ei), Ef.
    apply insert_perm. by rewrite list_lookup_insert_ne.
  - intros k Hk. rewrite Ef, !list_lookup_insert_ne by lia. done.
  - intros k. subst full full'. rewrite !kd_insert by (rewrite ?length_insert; done).
    case_decide; [done|]. by case_decide.
Qed.

(** ** Moving a node up *)

(** Only the place of the moving node may break the order. *)
Definition up_inv (N i : nat) (d : array) : Prop :=
  (∀ c, (2 <= c <= N)%nat → c ≠ i → kd d (c / 2) <= kd d c) ∧
  (∀ c, (2 <= i)%nat → (2 <= c <= N)%nat → (c / 2 = i)%nat → kd d (i / 2) <= kd d c).

Lemma up_step N d i p x : (2 <= i <= N)%nat → (N < length d)%nat → d !! (i / 2)%nat = Some (Some p) →
  key x < key p → up_inv N i (<[i := Some x]> d) →
  up_inv N (i / 2) (<[(i / 2)%nat := Some x]> (<[i := Some p]> d)).
Proof.
  intros Hi Hl Ep Hlt [H1 H2].
  destruct (exchange N d i (i / 2) x p ltac:(lia) ltac:(lia) ltac:(lia) ltac:(lia) Ep) as [_ Hk].
  assert (kd (<[i := Some x]> d) (i / 2) = key p) as Hkp.
  { rewrite kd_insert by lia. rewrite decide_False by lia. unfold kd. by rewrite Ep. }
  split.
  - intros c Hc Hne. rewrite !Hk. rewrite (decide_False (P := c = i / 2)%nat) by done.
    destruct (decide (c / 2 = i / 2)%nat) as [E|E].
    + destruct (decide (c = i)) as [->|Hci]; [lia|]. specialize (H1 c Hc Hci). rewrite E, Hkp in H1. lia.
    + destruct (decide (c / 2 = i)%nat) as [E2|E2].
      * rewrite decide_False by lia. specialize (H2 c ltac:(lia) Hc E2). rewrite Hkp in H2. done.
      * rewrite decide_False; [apply H1; [lia|]|]; intros ->; lia.
  - intros c Hi2 Hc E. rewrite !Hk. rewrite (decide_False (P := i / 2 / 2 = i / 2)%nat) by lia.
    rewrite (decide_False (P := i / 2 / 2 = i)%nat), (decide_False (P := c = i / 2)%nat) by lia.
    pose proof (H1 (i / 2)%nat ltac:(lia) ltac:(lia)) as Hg. rewrite Hkp in Hg.
    case_decide as Eci; [done|]. specialize (H1 c Hc Eci). rewrite E, Hkp in H1. lia.
Qed.

Lemma sift_up_ok N x : key_ok (key x) → ∀ fuel i d, (i < fuel)%nat → (1 <= i <= N)%nat →
  good N (<[i := Some x]> d) → up_inv N i (<[i := Some x]> d) →
  ∃ d' i', sift_up fuel d (Z.of_nat i) (key x) = Some (d', Z.of_nat i') ∧ (1 <= i' <= N)%nat ∧
    length d' = length d ∧ good N (<[i' := Some x]> d') ∧ heap N (<[i' := Some x]> d') ∧
    rearranged N (<[i := Some x]> d) (<[i' := Some x]> d').
Proof.
  intros Hx. induction fuel as [|fuel IH]; intros i d Hf Hi Hg Hu; [lia|]. cbn [sift_up].
  pose proof (good_length _ _ Hg) as Hl. rewrite length_insert in Hl.
  case_decide as H1.
  - replace (Z.of_nat i / 2) with (Z.of_nat (i / 2)) by lia. unfold cell. rewrite Nat2Z.id.
    destruct (good_filled _ _ Hg (i / 2)%nat) as [p Ep]; [lia|].
    assert (d !! (i / 2)%nat = Some (Some p)) as Ed by (rewrite list_lookup_insert_ne in Ep by lia; done).
    assert (kd (<[i := Some x]> d) (i / 2) = key p) as Hkp by (unfold kd; by rewrite Ep).
    pose proof (good_keys _ _ Hg (i / 2)%nat ltac:(lia)) as Hpk. rewrite Hkp in Hpk.
    rewrite Ed. cbn [mjoin option_join mbind option_bind]. case_decide as Hc.
    + apply (compare_lt _ _ Hpk Hx) in Hc. unfold set_cell. rewrite Nat2Z.id, decide_True by lia.
      cbn [mbind option_bind].
      destruct (exchange N d i (i / 2) x p ltac:(lia) ltac:(lia) ltac:(lia) ltac:(lia) Ed) as [Hre _].
      assert (good N (<[(i / 2)%nat := Some x]> (<[i := Some p]> d))) as Hg'.
      { rewrite <- (list_insert_insert_eq d i (Some p) (Some x)).
        apply good_insert; [|rewrite !length_insert; lia|done]. apply good_insert; [done|rewrite length_insert; lia|done]. }
      destruct (IH (i / 2)%nat (<[i := Some p]> d)) as (d' & i' & -> & Hi' & Hl' & Hgd & Hh & Hr);
        [lia|lia|done|by apply up_step; [lia..|done|done|done]|].
      exists d', i'. rewrite length_insert in Hl'. split_and!; (done || lia || by eapply rearranged_trans).
    + rewrite (compare_lt _ _ Hpk Hx) in Hc. exists d, i. split_and!; try (done || lia || apply rearranged_refl).
      destruct Hu as [Hu _]. intros c Hcr. destruct (decide (c = i)) as [->|]; [|by apply Hu].
      rewrite Hkp, kd_insert, decide_True by (done || lia). lia.
  - exists d, i. split_and!; try (done || lia || apply rearranged_refl).
    destruct Hu as [Hu _]. intros c Hcr. apply Hu; lia.
Qed.

(** ** Moving a node down *)

Definition down_inv (N i : nat) (d : array) : Prop :=
  (∀ c, (2 <= c <= N)%nat → (c / 2 ≠ i)%nat → kd d (c / 2) <= kd d c) ∧
  (∀ c, (2 <= i)%nat → (2 <= c <= N)%nat → (c / 2 = i)%nat → kd d (i / 2) <= kd d c).

Lemma down_step N d i j c x : (1 <= i <= N)%nat → (2 <= j <= N)%nat → (j / 2 = i)%nat → (N < length d)%nat →
  d !! j = Some (Some c) → key c <= key x →
  (∀ k, (2 <= k <= N)%nat → (k / 2 = i)%nat → key c <= kd d k) →
  down_inv N i (<[i := Some x]> d) → down_inv N j (<[j := Some x]> (<[i := Some c]> d)).
Proof.
  intros Hi Hj Hji Hl Ec Hle Hmin [H1 H2].
  destruct (exchange N d i j x c ltac:(lia) ltac:(lia) ltac:(lia) ltac:(lia) Ec) as [_ Hk].
  assert (∀ k, k ≠ i → kd (<[i := Some x]> d) k = kd d k) as Hd
    by (intros k Hki; rewrite kd_insert by lia; by rewrite decide_False).
  assert (kd d j = key c) as Hkj by (unfold kd; by rewrite Ec).
  split.
  - intros k Hkr Hne. rewrite !Hk. rewrite (decide_False (P := (k / 2 = j)%nat)) by done.
    destruct (decide (k / 2 = i)%nat) as [E|E].
    + case_decide; [done|]. rewrite decide_False, Hd by lia. by apply Hmin.
    + rewrite (decide_False (P := k = j)) by lia. case_decide as Eki; [|by apply H1].
      subst k. specialize (H2 j ltac:(lia) Hj Hji). by rewrite (Hd j), Hkj in H2 by lia.
  - intros k Hj2 Hkr E. rewrite !Hk. rewrite (decide_False (P := (j / 2 = j)%nat)) by lia.
    rewrite decide_True by done. rewrite 2!decide_False by lia.
    specialize (H1 k Hkr ltac:(lia)). by rewrite E, (Hd j), Hkj in H1 by lia.
Qed.

(** The cells below [n] are elements, except [i]; the cell [n] still holds the moving
    node. *)
Record down_state (n i : nat) (x : node) (d : array) : Prop := {
  ds_range : (1 <= i < n)%nat;
  ds_good : good (n - 1) (<[i := Some x]> d);
  ds_last : d !! n = Some (Some x);
  ds_inv : down_inv (n - 1) i (<[i := Some x]> d);
  ds_key : key_ok (key x);
}.

Lemma down_cell n i x d k : down_state n i x d → (1 <= k <= n)%nat → k ≠ i →
  ∃ b, d !! k = Some (Some b) ∧ kd d k = key b ∧ key_ok (key b).
Proof.
  intros [Hr Hg Hx _ Hxk] Hk Hki. destruct (decide (k = n)) as [->|Hne].
  - exists x. unfold kd. by rewrite Hx.
  - destruct (good_filled _ _ Hg k) as [b Eb]; [lia|]. pose proof (good_keys _ _ Hg k ltac:(lia)) as Hkk.
    unfold kd in *. rewrite list_lookup_insert_ne in Eb, Hkk by done. rewrite Eb in *. eauto.
Qed.

(** The child the loop compares with is the least one. *)
Lemma pick_child n i x d : down_state n i x d → (2 * i <= n)%nat → Z.of_nat n < 2 ^ 31 →
  ∃ j, (a ← cell d (u32 (2 * Z.of_nat i));
        (if decide (u32 (2 * Z.of_nat i) < Z.of_nat n) then
           b ← cell d (u32 (u32 (2 * Z.of_nat i) + 1));
           Some (if decide (pqueue_compare (key a) (key b) < 0) then u32 (u32 (2 * Z.of_nat i) + 1)
                 else u32 (2 * Z.of_nat i))
         else Some (u32 (2 * Z.of_nat i)))) = Some (Z.of_nat j) ∧
    (2 <= j <= n)%nat ∧ (j / 2 = i)%nat ∧ ∀ k, (2 <= k <= n)%nat → (k / 2 = i)%nat → kd d j <= kd d k.
Proof.
  intros Hs Hi Hn. pose proof (ds_range _ _ _ _ Hs) as Hr. rewrite (u32_id (2 * Z.of_nat i)) by clia.
  unfold cell. replace (Z.to_nat (2 * Z.of_nat i)) with (2 * i)%nat by lia.
  destruct (down_cell n i x d (2 * i) Hs) as (a & Ea & Ka & Oa); [lia..|]. rewrite Ea. cbn [mjoin option_join mbind option_bind].
  case_decide as Hlt.
  - rewrite (u32_id (2 * Z.of_nat i + 1)) by clia. replace (Z.to_nat (2 * Z.of_nat i + 1)) with (2 * i + 1)%nat by lia.
    destruct (down_cell n i x d (2 * i + 1) Hs) as (b & Eb & Kb & Ob); [lia..|]. rewrite Eb.
    cbn [mjoin option_join mbind option_bind].
    exists (if decide (pqueue_compare (key a) (key b) < 0) then (2 * i + 1)%nat else (2 * i)%nat).
    case_decide as Hc; rewrite (compare_lt _ _ Oa Ob) in Hc; (split_and!; [f_equal; lia|lia|lia|lia|]);
      intros k Hk Hki; (assert (k = 2 * i ∨ k = 2 * i + 1)%nat as [-> | ->] by lia); lia.
  - exists (2 * i)%nat. split_and!; [f_equal; lia|lia|lia|lia|]. intros k Hk Hki.
    assert (k = 2 * i)%nat as -> by lia. lia.
Qed.

Lemma sift_down_unfold fuel (d : array) n i tmp :
  sift_down (S fuel) d n i tmp =
  if decide (i <= n / 2) then
    j ← (a ← cell d (u32 (2 * i));
         (if decide (u32 (2 * i) < n) then
            b ← cell d (u32 (u32 (2 * i) + 1));
            Some (if decide (pqueue_compare (key a) (key b) < 0) then u32 (u32 (2 * i) + 1) else u32 (2 * i))
          else Some (u32 (2 * i))));
    c ← cell d j;
    if decide (pqueue_compare (key c) (key tmp) < 0) then Some (d, i)
    else d ← set_cell d i c; sift_down fuel d n j tmp
  else Some (d, i).
Proof. cbn [sift_down]. case_decide; [|done]. by destruct (cell d (u32 (2 * i))). Qed.

Lemma sift_down_ok n x : Z.of_nat n < 2 ^ 31 → ∀ fuel i d, (n < i + fuel)%nat → down_state n i x d →
  ∃ d' i', sift_down fuel d (Z.of_nat n) (Z.of_nat i) x = Some (d', Z.of_nat i') ∧
    length d' = length d ∧ (i' < length d')%nat ∧ good (n - 1) (<[i' := Some x]> d') ∧
    heap (n - 1) (<[i' := Some x]> d') ∧ rearranged (n - 1) (<[i := Some x]> d) (<[i' := Some x]> d').
Proof.
  intros Hn. induction fuel as [|fuel IH]; intros i d Hf Hs; [destruct (ds_range _ _ _ _ Hs); lia|].
  pose proof Hs as [Hr Hg Hx Hinv Hxk]. pose proof (good_length _ _ Hg) as Hl. rewrite length_insert in Hl.
  pose proof (lookup_lt_Some _ _ _ Hx) as Hln. rewrite sift_down_unfold.
  assert (∀ k, k ≠ i → kd (<[i := Some x]> d) k = kd d k) as Hd
    by (intros k Hki; rewrite kd_insert by lia; by rewrite decide_False).
  assert (kd (<[i := Some x]> d) i = key x) as Hdi by (rewrite kd_insert by lia; by rewrite decide_True).
  assert ((∀ c, (2 <= c <= n - 1)%nat → (c / 2 = i)%nat → key x <= kd d c) → heap (n - 1) (<[i := Some x]> d)) as Hheap.
  { intros Hc c Hcr. destruct (decide (c / 2 = i)%nat) as [E|E]; [|by apply Hinv].
    rewrite E, Hdi, Hd by lia. by apply Hc. }
  case_decide as Hloop.
  2: { exists d, i. split_and!; try first [done|lia|apply rearranged_refl]. apply Hheap. lia. }
  destruct (pick_child n i x d Hs ltac:(lia) Hn) as (j & -> & Hj & Hji & Hmin). cbn [mbind option_bind].
  destruct (down_cell n i x d j Hs) as (c & Ec & Kc & Oc); [lia..|].
  unfold cell. rewrite Nat2Z.id, Ec. cbn [mjoin option_join mbind option_bind].
  rewrite Kc in Hmin. case_decide as Hcmp; rewrite (compare_lt _ _ Oc Hxk) in Hcmp.
  { exists d, i. split_and!; try first [done|lia|apply rearranged_refl]. apply Hheap.
    intros k Hk Hki. specialize (Hmin k ltac:(lia) Hki). lia. }
  unfold set_cell. rewrite Nat2Z.id, decide_True by lia. cbn [mbind option_bind].
  destruct (decide (j = n)) as [->|Hjn].
  - destruct fuel as [|fuel]; [lia|]. rewrite sift_down_unfold, decide_False by lia.
    rewrite Hx in Ec. injection Ec as <-. exists (<[i := Some x]> d), n. rewrite length_insert.
    rewrite (list_insert_id _ n) by (rewrite list_lookup_insert_ne by lia; done).
    split_and!; try first [done|lia|apply rearranged_refl]. apply Hheap. intros k Hk. apply Hmin. lia.
  - destruct (exchange (n - 1) d i j x c ltac:(lia) ltac:(lia) ltac:(lia) ltac:(lia) Ec) as [Hre _].
    destruct (IH j (<[i := Some c]> d)) as (d' & i' & -> & Hl' & Hi' & Hg' & Hh & Hre'); [lia| |].
    + split; [lia| |by rewrite list_lookup_insert_ne by lia| |done].
      * rewrite <- (list_insert_insert_eq d i (Some c) (Some x)).
        apply good_insert; [|rewrite !length_insert; lia|done]. apply good_insert; [done|rewrite length_insert; lia|done].
      * apply down_step; (done || lia || (intros k Hk; apply Hmin; lia)).
    + rewrite length_insert in Hl'. exists d', i'. split_and!; try done. by eapply rearranged_trans.
Qed.

(** ** The elements of a queue *)

Definition elems (N : nat) (d : array) : array := take N (drop 1 d).

Lemma elems_lookup N d k : (k < N)%nat → elems N d !! k = d !! S k.
Proof. intros Hk. unfold elems. by rewrite lookup_take_lt, lookup_drop. Qed.
Lemma elems_eq N d d' : (∀ k, (1 <= k <= N)%nat → d !! k = d' !! k) → elems N d = elems N d'.
Proof.
  intros He. apply list_eq. intros k. destruct (decide (k < N)%nat) as [Hk|Hk].
  - rewrite !elems_lookup by done. apply He. lia.
  - unfold elems. by rewrite !lookup_take_ge by lia.
Qed.
Lemma elems_S N d n : d !! S N = Some n → elems (S N) d = elems N d ++ [n].
Proof. intros E. unfold elems. apply take_S_r. by rewrite lookup_drop. Qed.

Lemma array_split N (d : array) : take 1 d ++ elems N d ++ drop (S N) d = d.
Proof.
  unfold elems. rewrite <- (take_drop 1 d) at 4. f_equal. rewrite <- (take_drop N (drop 1 d)) at 2. by rewrite drop_drop.
Qed.

Lemma rearranged_elems N d d' : rearranged N d d' → elems N d ≡ₚ elems N d'.
Proof.
  intros [Hp Ho]. assert (take 1 d = take 1 d') as H1.
  { apply list_eq. intros k. destruct (decide (k < 1)%nat); [|by rewrite !lookup_take_ge by lia].
    rewrite !lookup_take_lt by done. rewrite Ho by lia. done. }
  assert (drop (S N) d = drop (S N) d') as H2.
  { apply list_eq. intros k. rewrite !lookup_drop, Ho by lia. done. }
  rewrite <- (array_split N d), <- (array_split N d'), H1, H2 in Hp.
  apply Permutation_app_inv_l in Hp. by apply Permutation_app_inv_r in Hp.
Qed.

Definition count (pq : queue) : nat := Z.to_nat (size pq - 1).
Definition contents (pq : queue) : list node := omap id (elems (count pq) (cells pq)).
Record pq_ok (pq : queue) : Prop := {
  ok_size : 1 <= size pq < 2 ^ 31;
  ok_good : size pq = 1 ∨ good (count pq) (cells pq);
  ok_heap : heap (count pq) (cells pq);
}.
Definition pq_owns (pq : queue) : gmultiset block :=
  {[+ pq_block pq +]} ⊎ match data pq with Some b => {[+ b +]} | None => ∅ end.

(** The top has the least key. *)
Lemma heap_top N d : heap N d → ∀ k, (1 <= k <= N)%nat → kd d 1 <= kd d k.
Proof.
  intros Hh k. induction k as [k IH] using lt_wf_ind. intros Hk.
  destruct (decide (k = 1%nat)) as [->|]; [lia|]. specialize (Hh k ltac:(lia)).
  specialize (IH (k / 2)%nat ltac:(lia) ltac:(lia)). lia.
Qed.

Lemma elem_of_contents pq e : good (count pq) (cells pq) → e ∈ contents pq →
  ∃ k, (1 <= k <= count pq)%nat ∧ kd (cells pq) k = key e.
Proof.
  intros Hg He. unfold contents in He. apply list_elem_of_omap in He as (o & Ho & Eo). cbn in Eo. subst o.
  apply list_elem_of_lookup in Ho as [k Ek].
  assert (k < count pq)%nat as Hk.
  { apply lookup_lt_Some in Ek. unfold elems in Ek. rewrite length_take in Ek. lia. }
  rewrite elems_lookup in Ek by done. exists (S k). split; [lia|]. unfold kd. by rewrite Ek.
Qed.

Lemma insert_start pq x : pq_ok pq → size pq + 1 < 2 ^ 31 → key_ok (key x) →
  let d := resize (S (S (count pq))) None (cells pq) in
  let full := <[S (count pq) := Some x]> d in
  good (S (count pq)) full ∧ up_inv (S (count pq)) (S (count pq)) full ∧
  elems (S (count pq)) full = elems (count pq) (cells pq) ++ [Some x].
Proof.
  intros [Hs Hg Hh] Hs1 Hx d full. set (N := count pq) in *.
  assert (length d = S (S N)) as Hl by apply length_resize.
  assert (∀ k, (1 <= k <= N)%nat → full !! k = cells pq !! k) as Hsame.
  { intros k Hk. subst full d. rewrite list_lookup_insert_ne by lia. apply lookup_resize; [lia|].
    destruct Hg as [E|Hg]; [unfold count in N; lia|]. pose proof (good_length _ _ Hg). lia. }
  assert (full !! S N = Some (Some x)) as Hlast by (apply list_lookup_insert_eq; lia).
  assert (∀ k, (1 <= k <= N)%nat → kd full k = kd (cells pq) k) as Hkd by (intros k Hk; unfold kd; by rewrite Hsame).
  split_and!.
  - split; [unfold full; rewrite length_insert; lia| |].
    + intros k Hk. destruct (decide (k = S N)) as [->|]; [eauto|]. rewrite Hsame by lia.
      destruct Hg as [E|Hg]; [unfold count in N; lia|]. apply (good_filled _ _ Hg). lia.
    + intros k Hk. destruct (decide (k = S N)) as [->|]; [unfold kd; by rewrite Hlast|]. rewrite Hkd by lia.
      destruct Hg as [E|Hg]; [unfold count in N; lia|]. apply (good_keys _ _ Hg). lia.
  - split; [|intros; lia]. intros c Hc Hne. rewrite !Hkd by lia. apply Hh. lia.
  - rewrite (elems_S _ _ _ Hlast). f_equal. by apply elems_eq.
Qed.

Lemma remove_start pq x : pq_ok pq → size pq ≠ 1 → cells pq !! count pq = Some (Some x) → (2 <= count pq)%nat →
  down_state (count pq) 1 x (cells pq).
Proof.
  intros [Hs Hg Hh] Hne Ex Hn. destruct Hg as [E|Hg]; [done|].
  assert (kd (cells pq) (count pq) = key x) as Hkx by (unfold kd; by rewrite Ex).
  pose proof (good_keys _ _ Hg (count pq) ltac:(lia)) as Hxk. rewrite Hkx in Hxk.
  pose proof (good_length _ _ Hg) as Hl.
  split; [lia| |done| |done].
  - apply good_insert; [|lia|done]. destruct Hg as [? Hf Hk]. split; [lia|intros; apply Hf; lia|intros; apply Hk; lia].
  - split; [|intros; lia]. intros c Hc Hc1. rewrite !kd_insert by lia. rewrite 2!decide_False by lia. apply Hh. lia.
Qed.
End spec.

Lemma pq_ok_empty {V} b : pq_ok (Pqueue b 1 None [] : pqueue V).
Proof. split; [cbn; lia|by left|change (@heap V 0 []); intros c Hc; lia]. Qed.

(** Equalities of multisets, by multiplicities. *)
Ltac ms_eq := apply gmultiset_eq; intros ?z; rewrite ?multiplicity_disj_union; lia.

Lemma mem_realloc_ok `{Allocator} p sz h L :
  m_live h = match p with Some b => {[+ b +]} | None => ∅ end ⊎ L →
  match mem_realloc p sz h with
  | Done (Some q) h' => m_live h' = {[+ q +]} ⊎ L
  | Done None h' => ¬ (∀ n sz, malloc_ok n sz = true) ∧ m_live h' = m_live h
  | _ => False
  end.
Proof.
  intros HL. unfold mem_realloc, mem_malloc. destruct (malloc_ok _ _) eqn:Em.
  2: { split; [intros Ha; by rewrite Ha in Em|done]. }
  destruct p as [b|].
  - rewrite (mem_free_live b _ ({[+ m_next h +]} ⊎ L)) by (cbn; rewrite HL; ms_eq). done.
  - cbn. by rewrite HL, (left_id_L ∅ (⊎)).
Qed.

(** ** Properties *)

(** Inserting into a priority queue: the call returns 0 and the queue holds the new
    element beside the old ones, again a heap; or memory ran out, the call returns
    -ENOMEM and the queue is as it was.  The queue owns its two blocks throughout. *)
Theorem pqueue_insert_correct {V} `{Allocator} (pq : pqueue V) (k : Z) (v : V) (h : mem) (L : gmultiset block) :
  pq_ok pq → key_ok k → size pq + 1 < 2 ^ 31 → m_live h = pq_owns pq ⊎ L →
  match pqueue_insert pq k v h with
  | Done (err, pq') h' =>
    (err = 0 ∧ pq_ok pq' ∧ contents pq' ≡ₚ PqueueNode k v :: contents pq ∧ m_live h' = pq_owns pq' ⊎ L) ∨
    (err = - ENOMEM ∧ pq' = pq ∧ ¬ (∀ n sz, malloc_ok n sz = true) ∧ m_live h' = m_live h)
  | _ => False
  end.
Proof.
  intros Hok Hk Hs HL. pose proof (ok_size _ Hok) as Hsz. unfold pqueue_insert, bind at 1.
  pose proof (mem_realloc_ok (data pq) (u64 (u64 (size pq + 1) * 16)) h ({[+ pq_block pq +]} ⊎ L)) as Hm.
  unfold pq_owns in HL. rewrite HL in Hm. specialize (Hm ltac:(ms_eq)).
  destruct (mem_realloc _ _ h) as [[p|] h1|? ?|]; [|right; rewrite HL; tauto|done..].
  rewrite (u64_id (size pq + 1)), (u32_id (size pq)) by clia.
  assert (size pq = Z.of_nat (S (count pq))) as Es by (unfold count; lia).
  replace (Z.to_nat (size pq + 1)) with (S (S (count pq))) by lia.
  set (x := PqueueNode k v). destruct (insert_start pq x Hok Hs Hk) as (Hg & Hu & He).
  set (d := resize _ None (cells pq)) in *. pose proof (good_length _ _ Hg) as Hl. rewrite length_insert in Hl.
  destruct (sift_up_ok (S (count pq)) x Hk (S (Z.to_nat (size pq))) (S (count pq)) d ltac:(lia) ltac:(lia) Hg Hu)
    as (d' & i' & Hsift & Hi' & Hl' & Hg' & Hh' & Hre).
  cbn [key x] in Hsift. rewrite <- Es in Hsift. unfold bind, lift. rewrite Hsift. cbn [fst snd].
  unfold set_cell. rewrite Nat2Z.id, decide_True by lia. cbn [ret]. left.
  assert (∀ q : pqueue V, size q = size pq + 1 → count q = S (count pq)) as Hcount by (intros q Hq; unfold count; rewrite Hq; lia).
  split_and!; [done| | |unfold pq_owns; cbn; rewrite Hm; ms_eq].
  - split; cbn [size cells]; [lia|right|]; by rewrite Hcount.
  - unfold contents. rewrite Hcount by done. cbn [cells].
    rewrite <- (omap_Permutation _ _ _ (rearranged_elems _ _ _ Hre)), He, omap_app. by rewrite Permutation_app_comm.
Qed.

(** Taking the top of a priority queue: an empty queue gives null and stays; another
    gives the value of an element with the least key, and the rest of the elements
    stay, again a heap. *)
Theorem pqueue_remove_top_correct {V} (pq : pqueue V) :
  pq_ok pq →
  (contents pq = [] ∧ pqueue_remove_top pq = Some (None, pq)) ∨
  ∃ top pq', pqueue_remove_top pq = Some (Some (value top), pq') ∧ pq_ok pq' ∧
    contents pq ≡ₚ top :: contents pq' ∧ ∀ e, e ∈ contents pq → key top <= key e.
Proof.
  intros Hok. pose proof Hok as [Hsz Hg Hh]. unfold pqueue_remove_top, pqueue_is_empty. case_bool_decide as Hemp.
  { left. split; [|done]. unfold contents, count. by rewrite Hemp. }
  right. destruct Hg as [?|Hg]; [done|]. set (n := count pq) in *.
  assert (size pq = Z.of_nat (S n)) as Es by (unfold n, count; lia).
  destruct (good_filled _ _ Hg 1%nat) as [top Etop]; [lia|]. destruct (good_filled _ _ Hg n) as [tmp Etmp]; [lia|].
  rewrite (u64_id (size pq - 1)) by clia. replace (size pq - 1) with (Z.of_nat n) by lia. rewrite Nat2Z.id.
  assert (cell (cells pq) 1 = Some top) as -> by (unfold cell; change (Z.to_nat 1) with 1%nat; by rewrite Etop).
  assert (cell (cells pq) (Z.of_nat n) = Some tmp) as -> by (unfold cell; by rewrite Nat2Z.id, Etmp).
  cbn [mbind option_bind].
  assert (∀ e, e ∈ contents pq → key top <= key e) as Hmin.
  { intros e He. destruct (elem_of_contents pq e Hg He) as (k & Hk & <-).
    pose proof (heap_top _ _ Hh k Hk) as Ht. unfold kd in Ht at 1. by rewrite Etop in Ht. }
  assert (∃ d i, sift_down (S n) (cells pq) (Z.of_nat n) 1 tmp = Some (d, Z.of_nat i) ∧ (i < length d)%nat ∧
    (n = 1%nat ∨ good (n - 1) (<[i := Some tmp]> d)) ∧ heap (n - 1) (<[i := Some tmp]> d) ∧
    elems n (cells pq) ≡ₚ Some top :: elems (n - 1) (<[i := Some tmp]> d)) as (d & i & -> & Hi & Hgd & Hhd & Hperm).
  { pose proof (good_length _ _ Hg) as Hl. destruct (decide (n = 1%nat)) as [E1|Hn1].
    - exists (cells pq), 1%nat. rewrite E1 in *. rewrite sift_down_unfold, decide_False by (cbn; lia).
      split_and!; [done|lia|by left|intros c Hc; lia|]. change 1%nat with (S 0) at 1.
      by rewrite (elems_S 0 _ (Some top)).
    - destruct (sift_down_ok n tmp ltac:(lia) (S n) 1 (cells pq) ltac:(lia)) as (d & i & E & _ & Hi & Hgd & Hhd & Hre).
      { apply remove_start; (done || lia). }
      exists d, i. split_and!; [exact E|done|by right|done|]. rewrite <- (rearranged_elems _ _ _ Hre).
      destruct n as [|[|m]] eqn:En; [lia..|]. replace (S (S m) - 1)%nat with (S m) by lia.
      rewrite (elems_S (S m) _ _ Etmp), Permutation_app_comm. cbn [app].
      assert (elems (S m) (<[1%nat := Some tmp]> (cells pq)) = <[0%nat := Some tmp]> (elems (S m) (cells pq))) as ->.
      { apply list_eq. intros k. destruct (decide (k < S m)%nat) as [Hk|Hk].
        - rewrite elems_lookup by done. destruct (decide (k = 0%nat)) as [->|].
          + rewrite !list_lookup_insert_eq; [done| |lia]. unfold elems. rewrite length_take, length_drop. lia.
          + rewrite !list_lookup_insert_ne by lia. by rewrite elems_lookup.
        - rewrite list_lookup_insert_ne by lia. unfold elems. by rewrite !lookup_take_ge by lia. }
      apply insert_perm. by rewrite elems_lookup by lia. }
  cbn [mbind option_bind]. unfold set_cell. rewrite Nat2Z.id, decide_True by done. cbn [mbind option_bind].
  assert (∀ q : pqueue V, size q = Z.of_nat n → count q = (n - 1)%nat) as Hcount by (intros q Hq; unfold count; lia).
  set (pq' := Pqueue (pq_block pq) (Z.of_nat n) (data pq) (<[i := Some tmp]> d)).
  pose proof (Hcount pq' eq_refl) as Hc'. exists top, pq'. split; [done|]. split; [|split; [|exact Hmin]].
  - split; [cbn; lia|rewrite Hc'; destruct Hgd; [left; cbn; lia|by right]|by rewrite Hc'].
  - unfold contents. rewrite Hc'. fold n. by rewrite (omap_Permutation _ _ _ Hperm).
Qed.

(** ** Examples *)

Definition always : Allocator := λ _ _, true.
Definition pq0 : pqueue nat := Pqueue 0%nat 1 None [].
Definition h0 : mem := Mem 1 {[+ 0%nat +]}.
Definition pq3 : pqueue nat :=
  Pqueue 0%nat 4 (Some 1%nat) [None; Some (PqueueNode 2 20%nat); Some (PqueueNode 5 50%nat); Some (PqueueNode 3 30%nat)].

Lemma pq0_ok : pq_ok pq0.
Proof. apply pq_ok_empty. Qed.
Lemma pq3_ok : pq_ok pq3.
Proof.
  split; [cbn; lia|right|].
  - change (count pq3) with 3%nat. split; [cbn [length cells pq3]; lia| |]; intros k Hk;
      (assert (k = 1 ∨ k = 2 ∨ k = 3)%nat as [->|[->| ->]] by lia); cbn; (by eauto) || (unfold key_ok; lia).
  - change (count pq3) with 3%nat. intros c Hc. assert (c = 2 ∨ c = 3)%nat as [->| ->] by lia; cbn; lia.
Qed.

Lemma pqueue_insert_correct_witness :
  match @pqueue_insert nat always pq0 7 70%nat h0 with
  | Done (err, pq') _ => err = 0 ∧ contents pq' ≡ₚ [PqueueNode 7 70%nat]
  | _ => False
  end.
Proof.
  pose proof (@pqueue_insert_correct nat always pq0 7 70%nat h0 ∅ pq0_ok ltac:(unfold key_ok; lia) ltac:(cbn; lia)
    ltac:(cbn; multiset_solver)) as H.
  revert H. destruct (pqueue_insert pq0 7 70%nat h0) as [[err pq'] h'|? ?|]; [|done..].
  intros [(-> & _ & Hc & _)|(_ & _ & Hn & _)]; [|by destruct Hn]. split; [done|exact Hc].
Defined.

Lemma pqueue_remove_top_correct_witness :
  ∃ pq', pqueue_remove_top pq3 = Some (Some 20%nat, pq') ∧ length (contents pq') = 2%nat.
Proof.
  destruct (pqueue_remove_top_correct pq3 pq3_ok) as [[H _]|(top & pq' & E & _ & Hp & _)]; [discriminate H|].
  exists pq'. assert (Some (value top) = Some 20%nat) as <-.
  { assert (pqueue_remove_top pq3 = Some (Some 20%nat, snd (default (None, pq3) (pqueue_remove_top pq3)))) as E2 by reflexivity.
    rewrite E in E2. congruence. }
  split; [exact E|]. apply Permutation_length in Hp. change (length (contents pq3)) with 3%nat in Hp. cbn [length] in Hp. lia.
Defined.
