(* ===== verification/Interval.v ===== *)
(** * jit/interval.c: live intervals

    An interval is the list of its ranges in list order, the ranges set aside while
    the linear scan passes them, its use positions and its register; the links
    between the children of a split interval are the list they form.  Looking at
    the first or last range of an empty list, which reads the list head as a range,
    is undefined ([None]).  The arena only decides which allocations fail. *)

From S2P Require Import Prelude CMonad.
#[local] Open Scope Z_scope.

(** ** Data *)

Record live_range := LiveRange { start : Z; end_ : Z }.
#[export] Instance live_range_eq_dec : EqDecision live_range.
Proof. solve_decision. Defined.

Definition USE_KIND_INPUT : Z := 1.
Definition USE_KIND_OUTPUT : Z := 2.
(** The position of its instruction and its kind. *)
Record use_position := UsePosition { lir_pos : Z; kind : Z }.

Definition INTERVAL_FLAG_NEED_SPILL : Z := 1.
Definition INTERVAL_FLAG_NEED_RELOAD : Z := 2.
Definition INTERVAL_FLAG_FIXED_REG : Z := 4.
Definition MACH_REG_UNASSIGNED : Z := 127.

Record live_interval := LiveInterval {
  var_info : Z;
  range_list : list live_range;
  expired_range_list : list live_range;
  use_positions : list use_position;
  flags : Z;
  reg : Z;
}.
Definition with_ranges (it : live_interval) (rs expired : list live_range) : live_interval :=
  LiveInterval (var_info it) rs expired (use_positions it) (flags it) (reg it).

Definition ENOMEM : Z := 12.

(** ** Ranges *)

Definition in_range (range : live_range) (offset : Z) : bool :=
  bool_decide (start range <= offset) && bool_decide (offset < end_ range).
Definition ranges_intersect (range1 range2 : live_range) : bool :=
  bool_decide (start range2 < end_ range1) && bool_decide (start range1 < end_ range2).
(** The assertion must hold. *)
Definition range_intersection_start (range1 range2 : live_range) : option Z :=
  if ranges_intersect range1 range2
  then Some (if decide (start range2 < start range1) then start range1 else start range2) else None.
Definition range_len (range : live_range) : Z := u32 (end_ range - start range).
Definition range_is_empty (range : live_range) : bool :=
  (bool_decide (start range = 2 ^ 32 - 1) && bool_decide (end_ range = 0)) || bool_decide (range_len range = 0).

Definition interval_first_range (it : live_interval) : option live_range := head (range_list it).
Definition interval_start (it : live_interval) : option Z := start <$> head (range_list it).
(** [range_list.prev] *)
Fixpoint last_range (rs : list live_range) : option live_range :=
  match rs with
  | [] => None
  | r :: rs' => match rs' with [] => Some r | _ => last_range rs' end
  end.
Definition interval_end (it : live_interval) : option Z := end_ <$> last_range (range_list it).
Definition interval_is_empty (it : live_interval) : bool :=
  match range_list it with [] => true | _ => false end.
Definition interval_has_fixed_reg (it : live_interval) : bool :=
  bool_decide (Z.land (flags it) INTERVAL_FLAG_FIXED_REG ≠ 0).

(** ** Operations *)

(** The range that contains [pos], walking while ranges start at or before it. *)
Fixpoint range_at (rs : list live_range) (pos : Z) : option live_range :=
  match rs with
  | [] => None
  | r :: rs' =>
    if decide (start r <= pos) then if in_range r pos then Some r else range_at rs' pos else None
  end.
Definition interval_range_at (it : live_interval) (pos : Z) : option (option live_range) :=
  first ← interval_first_range it;
  e ← interval_end it;
  if decide (pos < start first ∨ e <= pos) then Some None else Some (range_at (range_list it) pos).
Definition interval_covers (it : live_interval) (pos : Z) : option bool :=
  r ← interval_range_at it pos; Some (match r with Some _ => true | None => false end).

(** The children of an interval are the list they form. *)
Fixpoint interval_child_at (children : list live_interval) (pos : Z) : option (option live_interval) :=
  match children with
  | [] => Some None
  | it :: rest =>
    r ← interval_range_at it pos;
    match r with Some _ => Some (Some it) | None => interval_child_at rest pos end
  end.

(** [while (r && r->end <= bound) r = next_range(r)] *)
Fixpoint skip_ranges (rs : list live_range) (bound : Z) : list live_range :=
  match rs with
  | [] => []
  | r :: rs' => if decide (end_ r <= bound) then skip_ranges rs' bound else rs
  end.

(** The last loop of the two functions: the two ranges that intersect. *)
Fixpoint find_intersection (fuel : nat) (rs1 rs2 : list live_range) : option (option (live_range * live_range)) :=
  match fuel with
  | O => None
  | S fuel' =>
    match rs1, rs2 with
    | r1 :: rs1', r2 :: rs2' =>
      if ranges_intersect r1 r2 then Some (Some (r1, r2))
      else if decide (start r1 < start r2) then find_intersection fuel' rs1' rs2
      else find_intersection fuel' rs1 rs2'
    | _, _ => Some None
    end
  end.

(** The three loops from the first ranges on.  The second one reads the range the
    first one stopped at. *)
Definition walk_intersection (rs1 rs2 : list live_range) : option (option (live_range * live_range)) :=
  r2 ← head rs2;
  let rs1 := skip_ranges rs1 (start r2) in
  r1 ← head rs1;
  let rs2 := skip_ranges rs2 (start r1) in
  find_intersection (S (length rs1 + length rs2)) rs1 rs2.

Definition intervals_intersect (it1 it2 : live_interval) : option bool :=
  s1 ← interval_start it1;
  e2 ← interval_end it2;
  if decide (e2 <= s1) then Some false else
  s2 ← interval_start it2;
  e1 ← interval_end it1;
  if decide (e1 <= s2) then Some false else
  if interval_is_empty it1 || interval_is_empty it2 then Some false else
  r ← walk_intersection (range_list it1) (range_list it2);
  Some (match r with Some _ => true | None => false end).

(** The program may end with a message. *)
Inductive outcome (A : Type) : Type :=
  | Returns (a : A)
  | Exits.
Arguments Returns {A}.
Arguments Exits {A}.

Definition interval_intersection_start (it1 it2 : live_interval) : option (outcome Z) :=
  if interval_is_empty it1 || interval_is_empty it2 then None else
  r ← walk_intersection (range_list it1) (range_list it2);
  match r with
  | Some (r1, r2) => p ← range_intersection_start r1 r2; Some (Returns p)
  | None => Some Exits
  end.

(** The first loop of [interval_add_range]: the first range that touches the new one
    is made to take it in. *)
Fixpoint merge_range (rs : list live_range) (s e : Z) : option (list live_range) :=
  match rs with
  | [] => None
  | r :: rs' =>
    if decide (e < start r) then None
    else if decide (start r <= e ∧ s <= end_ r)
    then Some (LiveRange (Z.min (u32 s) (start r)) (Z.max (u32 e) (end_ r)) :: rs')
    else rs'' ← merge_range rs' s e; Some (r :: rs'')
  end.
(** The second loop: before the first range that does not start earlier. *)
Fixpoint insert_range (rs : list live_range) (new : live_range) : list live_range :=
  match rs with
  | [] => [new]
  | r :: rs' => if decide (start r < start new) then r :: insert_range rs' new else new :: rs
  end.

Definition arena_alloc `{Allocator} (sz : Z) : M mem unit bool := λ h,
  let '(p, h') := mem_malloc sz h in Done (match p with Some _ => true | None => false end) h'.
Definition alloc_live_range `{Allocator} (s e : Z) : M mem unit (option live_range) :=
  let* ok := arena_alloc 24 in ret (if (ok : bool) then Some (LiveRange (u32 s) (u32 e)) else None).

Definition interval_add_range `{Allocator} (it : live_interval) (s e : Z) : M mem unit (Z * live_interval) :=
  match merge_range (range_list it) s e with
  | Some rs => ret (0, with_ranges it rs (expired_range_list it))
  | None =>
    let* new := alloc_live_range s e in
    match new with
    | None => ret (- ENOMEM, it)
    | Some new => ret (0, with_ranges it (insert_range (range_list it) new) (expired_range_list it))
    end
  end.

(** The ranges passed are put in front of the expired ones, one by one. *)
Fixpoint expire_loop (rs expired : list live_range) (pos : Z) : option (list live_range * list live_range) :=
  match rs with
  | [] => None
  | r :: rs' =>
    if in_range r pos then Some (rs, expired)
    else
      next ← head rs';
      if decide (pos < start next) then Some (rs, expired) else expire_loop rs' (r :: expired) pos
  end.
Definition interval_expire_ranges_before (it : live_interval) (pos : Z) : option live_interval :=
  range ← interval_first_range it;
  e ← interval_end it;
  if decide (pos < start range ∨ e <= pos) then Some it
  else
    '(rs, expired) ← expire_loop (range_list it) (expired_range_list it) pos;
    Some (with_ranges it rs expired).
(** Each expired range in turn goes to the front of the list. *)
Definition interval_restore_expired_ranges (it : live_interval) : live_interval :=
  with_ranges it (foldl (λ rs r, r :: rs) (range_list it) (expired_range_list it)) [].

Definition get_lir_positions (u : use_position) : option (list Z) :=
  if decide (kind u = 0) then None else
  Some ((if decide (Z.land (kind u) USE_KIND_INPUT ≠ 0) then [lir_pos u] else []) ++
        (if decide (Z.land (kind u) USE_KIND_OUTPUT ≠ 0) then [lir_pos u + 1] else [])).

Definition LONG_MAX : Z := 2 ^ 63 - 1.
Fixpoint next_use_loop (us : list use_position) (pos m : Z) : option Z :=
  match us with
  | [] => Some m
  | u :: us' =>
    ps ← get_lir_positions u;
    next_use_loop us' pos (foldl (λ m p, if decide (p < pos) then m else if decide (p < m) then p else m) m ps)
  end.
Definition next_use_pos (it : live_interval) (pos : Z) : option Z := next_use_loop (use_positions it) pos LONG_MAX.

Definition alloc_interval `{Allocator} (var : Z) : M mem unit (option live_interval) :=
  let* ok := arena_alloc 136 in
  ret (if (ok : bool) then Some (LiveInterval var [] [] [] 0 MACH_REG_UNASSIGNED) else None).

(** The ranges kept and the ranges of the new interval; the error return, or the end
    of the program when [pos] is in no range. *)
Fixpoint split_ranges `{Allocator} (rs : list live_range) (pos : Z)
  : M mem unit (outcome (list live_range * list live_range)) :=
  match rs with
  | [] => ret Exits
  | this :: rest =>
    if negb (in_range this pos) then
      let* r := split_ranges rest pos in
      ret (match r with Returns (old, new) => Returns (this :: old, new) | Exits => Exits end)
    else if decide (start this = pos) then ret (Returns ([], this :: rest))
    else
      let* range := alloc_live_range pos (end_ this) in
      match range with
      | None => fail tt
      | Some range => ret (Returns ([LiveRange (start this) (u32 pos)], range :: rest))
      end
  end.

(** The use positions from [pos] on move to the front of the new list one by one; an
    unknown kind fails the assertion. *)
Fixpoint split_uses (us : list use_position) (pos : Z) (new : list use_position)
  : option (list use_position * list use_position) :=
  match us with
  | [] => Some ([], new)
  | u :: us' =>
    ps ← get_lir_positions u;
    p ← head ps;
    if decide (p < pos) then '(old, new') ← split_uses us' pos new; Some (u :: old, new')
    else split_uses us' pos (u :: new)
  end.

(** The error return as a value. *)
Definition catch {A} (m : M mem unit A) : M mem unit (option A) := λ h,
  match m h with Done a h' => Done (Some a) h' | Fail _ h' => Done None h' | Undef => Undef end.
Definition lift {A} (o : option A) : M mem unit A := λ h, match o with Some a => Done a h | None => Undef end.

(** A failed allocation of the new interval is the error return; a failed allocation of
    a range hands the new interval, which is in the arena, to [free], and that is
    undefined.  The result is the interval cut short and the new one, its next
    child. *)
Definition split_interval_at `{Allocator} (it : live_interval) (pos : Z)
  : M mem unit (outcome (live_interval * live_interval)) :=
  let* s := lift (interval_start it) in
  let* e := lift (interval_end it) in
  if decide (s < pos < e) then
    let* new := alloc_interval (var_info it) in
    match new with
    | None => fail tt
    | Some new =>
      let* r := catch (split_ranges (range_list it) pos) in
      match r with
      | None => undef
      | Some Exits => ret Exits
      | Some (Returns (old_ranges, new_ranges)) =>
        let new := if interval_has_fixed_reg it
                   then LiveInterval (var_info new) new_ranges [] [] (Z.lor (flags new) INTERVAL_FLAG_FIXED_REG) (reg it)
                   else LiveInterval (var_info new) new_ranges [] [] (flags new) MACH_REG_UNASSIGNED in
        let* us := lift (split_uses (use_positions it) pos []) in
        ret (Returns (LiveInterval (var_info it) old_ranges (expired_range_list it) us.1 (flags it) (reg it),
                      LiveInterval (var_info new) (range_list new) [] us.2 (flags new) (reg new)))
      end
    end
  else undef.

(** ** Specification *)

(** The positions of a list of ranges. *)
Definition covers (rs : list live_range) (p : Z) : Prop := ∃ r, r ∈ rs ∧ start r <= p < end_ r.

(** In ascending order by start. *)
Fixpoint sorted_from (lo : Z) (rs : list live_range) : Prop :=
  match rs with
  | [] => True
  | r :: rs' => lo <= start r ∧ start r <= end_ r ∧ end_ r < 2 ^ 32 ∧ sorted_from (start r) rs'
  end.
(** Not overlapping, not adjacent, in ascending order, as the header has it. *)
Fixpoint separated_from (lo : Z) (rs : list live_range) : Prop :=
  match rs with
  | [] => True
  | r :: rs' => lo < start r ∧ start r < end_ r ∧ end_ r < 2 ^ 32 ∧ separated_from (end_ r) rs'
  end.
(** Not overlapping, in ascending order, possibly adjacent. *)
Fixpoint ordered_from (lo : Z) (rs : list live_range) : Prop :=
  match rs with
  | [] => True
  | r :: rs' => lo <= start r ∧ start r < end_ r ∧ end_ r < 2 ^ 32 ∧ ordered_from (end_ r) rs'
  end.
Definition sorted (rs : list live_range) : Prop := sorted_from 0 rs.
Definition separated (rs : list live_range) : Prop := separated_from (-1) rs.
Definition ordered (rs : list live_range) : Prop := ordered_from 0 rs.

Lemma covers_nil p : ¬ covers [] p.
Proof. intros (r & Hr & _). by apply elem_of_nil in Hr. Qed.
Lemma covers_cons r rs p : covers (r :: rs) p ↔ start r <= p < end_ r ∨ covers rs p.
Proof.
  unfold covers. split.
  - intros (r' & [->|Hr]%elem_of_cons & Hp); eauto.
  - intros [Hp|(r' & Hr & Hp)]; [exists r; split; [left|done]|exists r'; split; [by right|done]].
Qed.

Lemma sorted_weaken lo lo' rs : lo' <= lo → sorted_from lo rs → sorted_from lo' rs.
Proof. destruct rs; [done|]. cbn. intros ? (? & ?). split; [lia|done]. Qed.
Lemma separated_raise lo lo' rs : separated_from lo rs → (∀ r, r ∈ rs → lo' < start r) → separated_from lo' rs.
Proof. destruct rs as [|r rs]; [done|]. cbn. intros (_ & H) Hr. split; [|done]. apply Hr. left. Qed.
Lemma separated_start lo rs r : separated_from lo rs → r ∈ rs → lo < start r ∧ start r < end_ r < 2 ^ 32.
Proof.
  revert lo. induction rs as [|r0 rs IH]; intros lo; [intros _ H; by apply elem_of_nil in H|].
  cbn. intros (H1 & H2 & H3 & H4) [->|Hr]%elem_of_cons; [lia|]. specialize (IH _ H4 Hr). lia.
Qed.
Lemma separated_covers lo rs p : separated_from lo rs → covers rs p → lo < p.
Proof. intros Hs (r & Hr & Hp). pose proof (separated_start _ _ _ Hs Hr). lia. Qed.
Lemma separated_sorted lo rs : 0 <= lo → separated_from (lo - 1) rs → sorted_from lo rs.
Proof.
  revert lo. induction rs as [|r rs IH]; intros lo H0; [done|]. cbn. intros (H1 & H2 & H3 & H4).
  split_and!; [lia..|]. apply (sorted_weaken (end_ r + 1)); [lia|]. apply IH; [lia|].
  by replace (end_ r + 1 - 1) with (end_ r) by lia.
Qed.

Lemma ordered_weaken lo lo' rs : lo' <= lo → ordered_from lo rs → ordered_from lo' rs.
Proof. destruct rs; [done|]. cbn. intros ? (? & ?). split; [lia|done]. Qed.
Lemma ordered_raise lo lo' rs : ordered_from lo rs → (∀ r, r ∈ rs → lo' <= start r) → ordered_from lo' rs.
Proof. destruct rs as [|r rs]; [done|]. cbn. intros (_ & H) Hr. split; [|done]. apply Hr. left. Qed.
Lemma ordered_start lo rs r : ordered_from lo rs → r ∈ rs → lo <= start r ∧ start r < end_ r < 2 ^ 32.
Proof.
  revert lo. induction rs as [|r0 rs IH]; intros lo; [intros _ H; by apply elem_of_nil in H|].
  cbn. intros (H1 & H2 & H3 & H4) [->|Hr]%elem_of_cons; [lia|]. specialize (IH _ H4 Hr). lia.
Qed.
Lemma ordered_covers lo rs p : ordered_from lo rs → covers rs p → lo <= p.
Proof. intros Hs (r & Hr & Hp). pose proof (ordered_start _ _ _ Hs Hr). lia. Qed.
Lemma separated_ordered lo rs : separated_from (lo - 1) rs → ordered_from lo rs.
Proof.
  revert lo. induction rs as [|r rs IH]; intros lo; [done|]. cbn. intros (H1 & H2 & H3 & H4).
  split_and!; [lia..|]. apply (ordered_weaken (end_ r + 1)); [lia|]. apply IH.
  by replace (end_ r + 1 - 1) with (end_ r) by lia.
Qed.

(** ** Adding a range *)

(** Two ranges that overlap or are adjacent. *)
Definition touches (s e : Z) (r : live_range) : Prop := start r <= e ∧ s <= end_ r.

Lemma insert_covers rs new p : covers (insert_range rs new) p ↔ covers rs p ∨ start new <= p < end_ new.
Proof.
  induction rs as [|r rs IH]; cbn [insert_range]; [rewrite covers_cons; tauto|].
  case_decide; rewrite !covers_cons; [rewrite IH|]; tauto.
Qed.

Section add.
Context (s e : Z).
Context (Hse : 0 <= s <= e ∧ e < 2 ^ 32).

Lemma merge_covers lo rs rs' : sorted_from lo rs → merge_range rs s e = Some rs' →
  ∀ p, covers rs' p ↔ covers rs p ∨ s <= p < e.
Proof.
  revert lo rs'. induction rs as [|r rs IH]; intros lo rs' Hs E p; [done|]. cbn in Hs, E.
  destruct Hs as (H1 & H2 & H3 & H4). case_decide; [done|]. case_decide as Ht.
  - injection E as <-. rewrite !covers_cons. cbn [start end_]. rewrite !u32_id by clia.
    assert (Z.min s (start r) <= p < Z.max e (end_ r) ↔ start r <= p < end_ r ∨ s <= p < e) by lia. tauto.
  - destruct (merge_range rs s e) as [rs''|] eqn:Em; [|done]. injection E as <-.
    rewrite !covers_cons, (IH _ _ H4 eq_refl). tauto.
Qed.

Lemma merge_sorted lo rs rs' : lo <= s → sorted_from lo rs → merge_range rs s e = Some rs' → sorted_from lo rs'.
Proof.
  revert lo rs'. induction rs as [|r rs IH]; intros lo rs' Hlo Hs E; [done|]. cbn in Hs, E.
  destruct Hs as (H1 & H2 & H3 & H4). case_decide; [done|]. case_decide as Ht.
  - injection E as <-. cbn. rewrite !u32_id by clia. split_and!; [lia..|]. eapply sorted_weaken; [|done]. lia.
  - destruct (merge_range rs s e) as [rs''|] eqn:Em; [|done]. injection E as <-. cbn.
    split_and!; [done..|]. apply IH; [lia|done..].
Qed.

Lemma merge_none lo rs : sorted_from lo rs → merge_range rs s e = None → ∀ r, r ∈ rs → ¬ touches s e r.
Proof.
  unfold touches. revert lo. induction rs as [|r rs IH]; intros lo Hs E r' Hr; [by apply elem_of_nil in Hr|].
  cbn in Hs, E. destruct Hs as (H1 & H2 & H3 & H4). case_decide as He.
  - intros Ht. assert (start r <= start r') as Hle.
    { apply elem_of_cons in Hr as [->|Hr]; [lia|]. clear - H4 Hr. revert H4. generalize (start r) as z.
      induction rs as [|a rs IH]; intros z H4; [by apply elem_of_nil in Hr|]. destruct H4 as (? & ? & ? & H4).
      apply elem_of_cons in Hr as [->|Hr]; [lia|]. specialize (IH Hr _ H4). lia. }
    lia.
  - case_decide as Ht; [done|]. destruct (merge_range rs s e) eqn:Em; [done|].
    apply elem_of_cons in Hr as [->|Hr]; [done|]. by eapply IH.
Qed.

Lemma insert_sorted lo rs : lo <= s → sorted_from lo rs → sorted_from lo (insert_range rs (LiveRange s e)).
Proof.
  revert lo. induction rs as [|r rs IH]; intros lo Hlo Hs; [cbn; lia|]. cbn in Hs |- *.
  destruct Hs as (H1 & H2 & H3 & H4). case_decide as Hc; cbn [start] in Hc.
  - cbn. split_and!; [done..|]. apply IH; [lia|done].
  - cbn. split_and!; (lia || done).
Qed.

(** When it touches at most one range, the ranges stay apart. *)
Context (Hne : s < e).

Lemma merge_separated lo rs rs' : lo < s → separated_from lo rs → merge_range rs s e = Some rs' →
  (∀ r r', r ∈ rs → r' ∈ rs → touches s e r → touches s e r' → r = r') → separated_from lo rs'.
Proof.
  revert lo rs'. induction rs as [|r rs IH]; intros lo rs' Hlo Hs E Hu; [done|]. cbn in Hs, E.
  destruct Hs as (H1 & H2 & H3 & H4). case_decide; [done|]. case_decide as Ht.
  - injection E as <-. cbn. rewrite !u32_id by clia. split_and!; [lia..|].
    eapply separated_raise; [exact H4|]. intros r' Hr'. pose proof (separated_start _ _ _ H4 Hr') as Hst.
    destruct (decide (touches s e r')) as [Ht'|Hn]; [|unfold touches in Hn; lia].
    assert (r = r') as <- by (apply Hu; [left|right|..]; done). lia.
  - destruct (merge_range rs s e) as [rs''|] eqn:Em; [|done]. injection E as <-. cbn.
    split_and!; [done..|]. apply IH; [lia|done|done|]. intros; apply Hu; (done || by right).
Qed.

Lemma insert_separated lo rs : lo < s → separated_from lo rs → (∀ r, r ∈ rs → ¬ touches s e r) →
  separated_from lo (insert_range rs (LiveRange s e)).
Proof.
  unfold touches. revert lo. induction rs as [|r rs IH]; intros lo Hlo Hs Hn; [cbn; lia|]. cbn in Hs |- *.
  destruct Hs as (H1 & H2 & H3 & H4). pose proof (Hn r ltac:(left)) as Hr. case_decide as Hc; cbn [start] in Hc.
  - cbn. split_and!; [done..|]. apply IH; [lia|done|]. intros; apply Hn; by right.
  - cbn. split_and!; (lia || done).
Qed.
End add.

(** ** Looking a position up *)

Lemma last_range_end lo r rs : ordered_from lo (r :: rs) →
  ∃ l, last_range (r :: rs) = Some l ∧ l ∈ r :: rs ∧ ∀ r', r' ∈ r :: rs → end_ r' <= end_ l.
Proof.
  revert lo r. induction rs as [|r1 rs IH]; intros lo r Hs.
  - exists r. split_and!; [done|left|]. intros r' [->|H]%elem_of_cons; [lia|by apply elem_of_nil in H].
  - destruct Hs as (H1 & H2 & H3 & H4). destruct (IH (end_ r) r1 H4) as (l & El & Hl & Hmax).
    exists l. split_and!; [exact El|by right|]. intros r' [->|Hr]%elem_of_cons; [|by apply Hmax].
    pose proof (ordered_start (end_ r) (r1 :: rs) l H4 Hl). lia.
Qed.

Lemma range_at_spec lo rs p : ordered_from lo rs →
  match range_at rs p with Some r => r ∈ rs ∧ start r <= p < end_ r | None => ¬ covers rs p end.
Proof.
  revert lo. induction rs as [|r rs IH]; intros lo Hs; [apply covers_nil|]. cbn in Hs |- *.
  destruct Hs as (H1 & H2 & H3 & H4). case_decide as Hc.
  - unfold in_range. rewrite bool_decide_eq_true_2 by done. cbn [andb]. case_bool_decide as Hlt.
    + split; [left|lia].
    + specialize (IH _ H4). destruct (range_at rs p) as [r'|]; [destruct IH; split; [by right|done]|].
      rewrite covers_cons. intros [?|?]; [lia|done].
  - rewrite covers_cons. intros [?|Hc']; [lia|]. pose proof (ordered_covers _ _ _ H4 Hc'). lia.
Qed.

Lemma interval_range_at_spec it p : ordered (range_list it) → range_list it ≠ [] →
  ∃ r, interval_range_at it p = Some r ∧
    match r with Some r => r ∈ range_list it ∧ start r <= p < end_ r | None => ¬ covers (range_list it) p end.
Proof.
  intros Hs Hne. unfold interval_range_at, interval_first_range, interval_end.
  destruct (range_list it) as [|r rs] eqn:E; [done|]. destruct (last_range_end _ _ _ Hs) as (l & -> & _ & Hmax).
  cbn [head mbind option_bind fmap option_fmap option_map]. case_decide as Hc.
  - exists None. split; [done|]. intros (r' & Hr' & Hp). pose proof (Hmax _ Hr').
    assert (start r <= start r'); [|lia]. apply elem_of_cons in Hr' as [->|Hr']; [lia|].
    destruct Hs as (_ & ? & _ & Hs). pose proof (ordered_start _ _ _ Hs Hr'). lia.
  - eexists. split; [done|]. exact (range_at_spec _ _ p Hs).
Qed.

(** ** Intersection *)

(** [p] is the least position of both. *)
Definition common (rs1 rs2 : list live_range) (p : Z) : Prop := covers rs1 p ∧ covers rs2 p.
Definition least_common (rs1 rs2 : list live_range) (p : Z) : Prop :=
  common rs1 rs2 p ∧ ∀ q, common rs1 rs2 q → p <= q.

Lemma covers_first lo r rs p : ordered_from lo (r :: rs) → covers (r :: rs) p → start r <= p.
Proof.
  intros (H1 & H2 & H3 & H4) [Hp|Hp]%covers_cons; [lia|]. pose proof (ordered_covers _ _ _ H4 Hp). lia.
Qed.

Lemma ranges_intersect_spec r1 r2 : ranges_intersect r1 r2 = true ↔ start r2 < end_ r1 ∧ start r1 < end_ r2.
Proof. unfold ranges_intersect. by rewrite andb_true_iff, !bool_decide_eq_true. Qed.

Lemma find_intersection_spec fuel : ∀ lo1 lo2 rs1 rs2, (length rs1 + length rs2 < fuel)%nat →
  ordered_from lo1 rs1 → ordered_from lo2 rs2 →
  ∃ res, find_intersection fuel rs1 rs2 = Some res ∧
    match res with
    | Some (r1, r2) => ∃ p, range_intersection_start r1 r2 = Some p ∧ least_common rs1 rs2 p
    | None => ∀ p, ¬ common rs1 rs2 p
    end.
Proof.
  induction fuel as [|fuel IH]; intros lo1 lo2 rs1 rs2 Hf Hs1 Hs2; [lia|]. cbn [find_intersection].
  destruct rs1 as [|r1 rs1]; [exists None; split; [done|]; intros p [H _]; by apply covers_nil in H|].
  destruct rs2 as [|r2 rs2]; [exists None; split; [done|]; intros p [_ H]; by apply covers_nil in H|].
  pose proof (λ p, covers_first _ _ _ p Hs1) as Hf1. pose proof (λ p, covers_first _ _ _ p Hs2) as Hf2.
  pose proof Hs1 as (_ & Hr1 & _ & Ht1). pose proof Hs2 as (_ & Hr2 & _ & Ht2). cbn [length] in Hf.
  destruct (ranges_intersect r1 r2) eqn:E.
  - eexists. split; [done|]. cbn. unfold range_intersection_start. rewrite E.
    apply ranges_intersect_spec in E as [E1 E2]. eexists. split; [done|]. split.
    + split; apply covers_cons; left; case_decide; lia.
    + intros q [Hq1 Hq2]. specialize (Hf1 _ Hq1). specialize (Hf2 _ Hq2). case_decide; lia.
  - assert (¬ (start r2 < end_ r1 ∧ start r1 < end_ r2)) as En by (rewrite <- ranges_intersect_spec, E; done).
    case_decide as Hc.
    + destruct (IH (end_ r1) lo2 rs1 (r2 :: rs2) ltac:(cbn; lia) Ht1 Hs2) as (res & -> & Hres).
      assert (∀ p, common (r1 :: rs1) (r2 :: rs2) p ↔ common rs1 (r2 :: rs2) p) as Hco.
      { intros p. unfold common. rewrite (covers_cons r1). split; [|tauto].
        intros [[Hp|Hp] Hp2]; [specialize (Hf2 _ Hp2); lia|done]. }
      exists res. split; [done|]. unfold least_common in *. destruct res as [[a b]|].
      * destruct Hres as (p & Ep & Hp & Hl). exists p. rewrite Hco. split_and!; [done..|]. intros q Hq%Hco. auto.
      * intros p Hp%Hco. by apply (Hres p).
    + destruct (IH lo1 (end_ r2) (r1 :: rs1) rs2 ltac:(cbn; lia) Hs1 Ht2) as (res & -> & Hres).
      assert (∀ p, common (r1 :: rs1) (r2 :: rs2) p ↔ common (r1 :: rs1) rs2 p) as Hco.
      { intros p. unfold common. rewrite (covers_cons r2). split; [|tauto].
        intros [Hp1 [Hp|Hp]]; [specialize (Hf1 _ Hp1); lia|done]. }
      exists res. split; [done|]. unfold least_common in *. destruct res as [[a b]|].
      * destruct Hres as (p & Ep & Hp & Hl). exists p. rewrite Hco. split_and!; [done..|]. intros q Hq%Hco. auto.
      * intros p Hp%Hco. by apply (Hres p).
Qed.

Lemma skip_spec lo rs b : ordered_from lo rs →
  (∃ lo', ordered_from lo' (skip_ranges rs b)) ∧ ∀ p, b <= p → covers (skip_ranges rs b) p ↔ covers rs p.
Proof.
  revert lo. induction rs as [|r rs IH]; intros lo Hs; [split; [by exists lo|done]|]. cbn [skip_ranges].
  case_decide as Hc; [|split; [by exists lo|done]]. destruct Hs as (_ & _ & _ & Hs).
  destruct (IH _ Hs) as [H1 H2]. split; [done|]. intros p Hp. rewrite H2 by done. rewrite covers_cons. split; [tauto|].
  intros [?|?]; [lia|done].
Qed.
Lemma skip_covers rs b p : covers (skip_ranges rs b) p → covers rs p.
Proof.
  induction rs as [|r rs IH]; [done|]. cbn [skip_ranges]. case_decide; [|done]. rewrite covers_cons. auto.
Qed.
Lemma skip_nonempty rs b r : r ∈ rs → b < end_ r → skip_ranges rs b ≠ [].
Proof.
  induction rs as [|r0 rs IH]; [intros H; by apply elem_of_nil in H|]. cbn [skip_ranges].
  intros [->|Hr]%elem_of_cons Hb; [by rewrite decide_False by lia|]. case_decide; [by apply IH|done].
Qed.

Lemma walk_spec rs1 rs2 r1 r2 : ordered rs1 → ordered rs2 → head rs2 = Some r2 →
  r1 ∈ rs1 → start r2 < end_ r1 →
  ∃ res, walk_intersection rs1 rs2 = Some res ∧
    match res with
    | Some (a, b) => ∃ p, range_intersection_start a b = Some p ∧ least_common rs1 rs2 p
    | None => ∀ p, ¬ common rs1 rs2 p
    end.
Proof.
  intros Hs1 Hs2 Hh Hr1 Hlt. unfold walk_intersection. rewrite Hh. cbn [mbind option_bind].
  destruct rs2 as [|r2' rs2]; [done|]. injection Hh as ->.
  pose proof (λ p, covers_first _ _ _ p Hs2) as Hf2.
  destruct (skip_spec _ rs1 (start r2) Hs1) as [[lo1 Hk1] Hc1].
  pose proof (skip_nonempty _ _ _ Hr1 Hlt) as Hne. pose proof (skip_covers rs1 (start r2)) as Hsub1.
  destruct (skip_ranges rs1 (start r2)) as [|a rs1'] eqn:E1; [done|]. cbn [head mbind option_bind].
  pose proof (λ p, covers_first _ _ _ p Hk1) as Hf1.
  destruct (skip_spec _ (r2 :: rs2) (start a) Hs2) as [[lo2 Hk2] Hc2].
  pose proof (skip_covers (r2 :: rs2) (start a)) as Hsub2.
  set (rs2' := skip_ranges (r2 :: rs2) (start a)) in *.
  assert (∀ p, common rs1 (r2 :: rs2) p ↔ common (a :: rs1') rs2' p) as Hco.
  { intros p. unfold common. split.
    - intros [Hp1 Hp2]. specialize (Hf2 _ Hp2). rewrite <- Hc1 in Hp1 by done. split; [done|].
      rewrite Hc2; [done|]. by apply Hf1.
    - intros [Hp1 Hp2]. split; [by apply Hsub1|by apply Hsub2]. }
  destruct (find_intersection_spec (S (length (a :: rs1') + length rs2')) lo1 lo2 (a :: rs1') rs2' ltac:(lia) Hk1 Hk2) as (res & -> & Hres).
  exists res. split; [done|]. unfold least_common in *. destruct res as [[x y]|].
  - destruct Hres as (p & Ep & Hp & Hl). exists p. rewrite Hco. split_and!; [done..|]. intros q Hq%Hco. auto.
  - intros p Hp%Hco. by apply (Hres p).
Qed.

(** ** Splitting *)

Lemma covers_app rs1 rs2 p : covers (rs1 ++ rs2) p ↔ covers rs1 p ∨ covers rs2 p.
Proof. induction rs1 as [|r rs1 IH]; cbn [app]; [|rewrite !covers_cons, IH; tauto]. split; [tauto|]. intros [H|H]; [by apply covers_nil in H|done]. Qed.
Lemma ordered_app lo rs1 r rs2 : ordered_from lo (rs1 ++ r :: rs2) ↔
  ordered_from lo (rs1 ++ [r]) ∧ ordered_from (end_ r) rs2.
Proof. revert lo. induction rs1 as [|r1 rs1 IH]; intros lo; cbn; [tauto|]. rewrite IH. tauto. Qed.
Lemma ordered_app_before lo rs1 r p : ordered_from lo (rs1 ++ [r]) → covers rs1 p → p < start r.
Proof.
  revert lo. induction rs1 as [|r1 rs1 IH]; intros lo; [intros _ H; by apply covers_nil in H|]. cbn.
  intros (H1 & H2 & H3 & H4) [Hp|Hp]%covers_cons; [|by eapply IH].
  assert (end_ r1 <= start r); [|lia]. apply (ordered_start (end_ r1) (rs1 ++ [r])); [done|].
  apply elem_of_app. right. left.
Qed.
Lemma ordered_app_left lo rs1 rs2 : ordered_from lo (rs1 ++ rs2) → ordered_from lo rs1.
Proof. revert lo. induction rs1 as [|r1 rs1 IH]; intros lo; [done|]. cbn. intros (? & ? & ? & ?). eauto. Qed.
Lemma ordered_snoc lo rs1 r r' : ordered_from lo (rs1 ++ [r]) → start r <= start r' < end_ r' → end_ r' < 2 ^ 32 →
  ordered_from lo (rs1 ++ [r']).
Proof. revert lo. induction rs1 as [|r1 rs1 IH]; intros lo; cbn; [lia|]. intros (? & ? & ? & ?) ? ?. eauto. Qed.

(** The ranges [rs] cut at [pos]. *)
Definition cut_ranges (pos : Z) (rs old new : list live_range) : Prop :=
  ∃ a r b, rs = a ++ r :: b ∧ start r <= pos < end_ r ∧
    ((start r = pos ∧ old = a ∧ new = r :: b) ∨
     (start r < pos ∧ old = a ++ [LiveRange (start r) pos] ∧ new = LiveRange pos (end_ r) :: b)).

Lemma cut_ranges_spec lo pos rs old new : ordered_from lo rs → cut_ranges pos rs old new →
  covers rs pos ∧ ordered_from lo old ∧ ordered_from pos new ∧
  (∀ p, covers old p ↔ covers rs p ∧ p < pos) ∧ (∀ p, covers new p ↔ covers rs p ∧ pos <= p).
Proof.
  intros Hs (a & r & b & -> & Hr & Hc). apply ordered_app in Hs as [Ha Hb].
  pose proof (λ p, ordered_app_before _ _ _ p Ha) as Hbef. pose proof (λ p, ordered_covers _ _ p Hb) as Haft.
  assert (end_ r < 2 ^ 32) as Hb32 by (apply (ordered_start lo _ r Ha); apply elem_of_app; right; left).
  destruct Hc as [(<- & -> & ->)|(Hlt & -> & ->)].
  - split_and!; [apply covers_app; right; apply covers_cons; left; lia|by eapply ordered_app_left|cbn; split_and!; (lia || done)| |];
      intros p; rewrite covers_app, covers_cons; specialize (Hbef p); specialize (Haft p);
      (split; [intros H|intros [[H|[H|H]] H']]); try (specialize (Hbef H)); try (specialize (Haft H)); try (lia || tauto).
    destruct H as [H|H]; [split; [tauto|lia]|]. specialize (Haft H). split; [tauto|lia].
  - split_and!; [apply covers_app; right; apply covers_cons; left; lia| |cbn; split_and!; (lia || done)| |].
    + apply (ordered_snoc _ _ r); cbn; (done || lia).
    + intros p. rewrite !covers_app, !covers_cons. cbn [start end_]. specialize (Hbef p). specialize (Haft p).
      split; [intros [H|[H|H]]|intros [[H|[H|H]] H']].
      * specialize (Hbef H). split; [tauto|lia].
      * split; [right; left|]; lia.
      * by apply covers_nil in H.
      * tauto.
      * right. left. lia.
      * specialize (Haft H). lia.
    + intros p. rewrite covers_app, !covers_cons. cbn [start end_]. specialize (Hbef p). specialize (Haft p).
      split; [intros [H|H]|intros [[H|[H|H]] H']].
      * split; [right; left|]; lia.
      * specialize (Haft H). split; [tauto|lia].
      * specialize (Hbef H). lia.
      * left. lia.
      * tauto.
Qed.

Lemma split_ranges_spec `{Allocator} lo rs pos h : ordered_from lo rs → 0 <= lo →
  match split_ranges rs pos h with
  | Done (Returns (old, new)) h' => cut_ranges pos rs old new ∧ ∃ B, m_live h' = B ⊎ m_live h
  | Done Exits _ => ¬ covers rs pos
  | Fail _ _ => ¬ (∀ n sz, malloc_ok n sz = true)
  | Undef => False
  end.
Proof.
  revert lo. induction rs as [|r rs IH]; intros lo Hs Hlo; [apply covers_nil|].
  pose proof Hs as (H1 & H2 & H3 & H4). cbn [split_ranges]. destruct (in_range r pos) eqn:E; cbn [negb].
  - unfold in_range in E. rewrite andb_true_iff, !bool_decide_eq_true in E. case_decide as Hp.
    + cbn. split; [|exists ∅; by rewrite (left_id_L ∅ (⊎))]. exists [], r, rs. split_and!; [done|lia|lia|left; done].
    + unfold alloc_live_range, arena_alloc, bind, mem_malloc.
      destruct (malloc_ok _ _) eqn:Em; cbn; [|intros Ha; by rewrite Ha in Em].
      rewrite !u32_id by clia. split; [|eauto]. exists [], r, rs. split_and!; [done|lia|lia|right; split_and!; [lia|done..]].
  - assert (¬ (start r <= pos < end_ r)) as Hn.
    { unfold in_range in E. intros Hc. rewrite !bool_decide_eq_true_2 in E by lia. done. }
    specialize (IH _ H4 ltac:(lia)). unfold bind. destruct (split_ranges rs pos h) as [[[old new]|] h'|? ?|]; [| |done..].
    + cbn [ret]. destruct IH as [(a & r' & b & -> & Hr & Hc) HB]. split; [|done]. exists (r :: a), r', b.
      split_and!; [done|lia|lia|]. destruct Hc as [(? & -> & ->)|(? & -> & ->)]; [left|right]; done.
    + cbn [ret]. rewrite covers_cons. tauto.
Qed.

(** Uses stay or go by their first position. *)
Definition use_ok (u : use_position) : Prop := kind u = 1 ∨ kind u = 2 ∨ kind u = 3.
Definition first_pos (u : use_position) : Z := if decide (kind u = 2) then lir_pos u + 1 else lir_pos u.

Lemma use_positions_of u : use_ok u → ∃ ps, get_lir_positions u = Some (first_pos u :: ps).
Proof.
  unfold use_ok, get_lir_positions, first_pos. intros Hu.
  destruct Hu as [E|[E|E]]; rewrite E; cbn; eexists; reflexivity.
Qed.

Lemma split_uses_spec us pos new : Forall use_ok us →
  ∃ old new', split_uses us pos new = Some (old, new') ∧ old ++ new' ≡ₚ us ++ new ∧
    Forall (λ u, first_pos u < pos) old ∧ (Forall (λ u, pos <= first_pos u) new → Forall (λ u, pos <= first_pos u) new').
Proof.
  revert new. induction us as [|u us IH]; intros new Hu; [exists [], new; split_and!; [done..|constructor|done]|].
  apply Forall_cons_1 in Hu as [Hu Hus]. destruct (use_positions_of u Hu) as [ps Ep]. cbn [split_uses]. rewrite Ep.
  cbn [mbind option_bind head]. case_decide as Hc.
  - destruct (IH new Hus) as (old & new' & -> & Hp & Ho & Hn). exists (u :: old), new'. split_and!; [done| |by constructor|done].
    cbn. by rewrite Hp.
  - destruct (IH (u :: new) Hus) as (old & new' & -> & Hp & Ho & Hn). exists old, new'. split_and!; [done| |done|].
    + rewrite Hp. by rewrite <- Permutation_middle.
    + intros Hnew. apply Hn. constructor; [lia|done].
Qed.

(** An interval cut at [pos] and its new child. *)
Definition split_pair (pos : Z) (it old new : live_interval) : Prop :=
  ∃ rs1 rs2 us1 us2, cut_ranges pos (range_list it) rs1 rs2 ∧
    split_uses (use_positions it) pos [] = Some (us1, us2) ∧
    old = LiveInterval (var_info it) rs1 (expired_range_list it) us1 (flags it) (reg it) ∧
    new = LiveInterval (var_info it) rs2 [] us2 (if interval_has_fixed_reg it then INTERVAL_FLAG_FIXED_REG else 0)
                       (if interval_has_fixed_reg it then reg it else MACH_REG_UNASSIGNED).

Lemma split_interval_at_spec `{Allocator} it s e pos h :
  ordered (range_list it) → interval_start it = Some s → interval_end it = Some e → s < pos < e →
  Forall use_ok (use_positions it) →
  match split_interval_at it pos h with
  | Done (Returns (old, new)) h' => split_pair pos it old new ∧ ∃ B, m_live h' = B ⊎ m_live h
  | Done Exits _ => ¬ covers (range_list it) pos
  | Fail _ _ | Undef => ¬ (∀ n sz, malloc_ok n sz = true)
  end.
Proof.
  intros Hs Hst He Hpos Hu. unfold split_interval_at, bind, lift. rewrite Hst, He. rewrite decide_True by done.
  unfold alloc_interval, arena_alloc, bind, mem_malloc. destruct (malloc_ok _ _) eqn:Em; cbn [ret].
  2: { intros Ha. by rewrite Ha in Em. }
  unfold catch. set (h1 := Mem _ _). pose proof (split_ranges_spec 0 (range_list it) pos h1 Hs ltac:(lia)) as Hsp.
  destruct (split_ranges (range_list it) pos h1) as [[[old new]|] h2|? ?|]; [|done|done|done].
  destruct (split_uses_spec (use_positions it) pos [] Hu) as (uold & unew & Eu & _). rewrite Eu.
  destruct Hsp as [Hc (B & HB)]. assert (∃ B, m_live h2 = B ⊎ m_live h) as HB'.
  { exists (B ⊎ {[+ m_next h +]}). rewrite HB. cbn [m_live h1]. by rewrite (assoc_L (⊎)). }
  destruct (interval_has_fixed_reg it) eqn:Ef; cbn; (split; [|done]); exists old, new, uold, unew; rewrite Ef; done.
Qed.

(** ** Expiring *)

Lemma expire_loop_spec lo r rs expired pos l : ordered_from lo (r :: rs) → start r <= pos →
  last_range (r :: rs) = Some l → pos < end_ l →
  ∃ rs' expired', expire_loop (r :: rs) expired pos = Some (rs', expired') ∧
    foldl (λ rs r, r :: rs) rs' expired' = foldl (λ rs r, r :: rs) (r :: rs) expired ∧
    (∃ lo', lo <= lo' ∧ ordered_from lo' rs') ∧ rs' ≠ [] ∧ (∀ p, pos <= p → covers rs' p ↔ covers (r :: rs) p).
Proof.
  revert lo r expired. induction rs as [|r1 rs IH]; intros lo r expired Hs Hst Hl Hpos.
  - injection Hl as <-. cbn. unfold in_range. rewrite !bool_decide_eq_true_2 by lia.
    eexists _, _. split_and!; [done..|exists lo; done|done|done].
  - cbn [expire_loop]. destruct (in_range r pos) eqn:E; [eexists _, _; split_and!; [done..|exists lo; done|done|done]|].
    cbn [head mbind option_bind]. case_decide as Hc; [eexists _, _; split_and!; [done..|exists lo; done|done|done]|].
    destruct Hs as (H1 & H2 & H3 & H4).
    destruct (IH (end_ r) r1 (r :: expired) H4 ltac:(lia) Hl Hpos) as (rs' & ex' & Ee & Hf & (lo' & Hlo' & Hse) & Hne & Hcv).
    exists rs', ex'. split_and!; [exact Ee|exact Hf|exists lo'; split; [lia|done]|done|]. intros p Hp. rewrite Hcv by done. rewrite (covers_cons r).
    split; [tauto|]. intros [?|?]; [|done]. exfalso. pose proof H4 as (? & _). lia.
Qed.

(** ** Properties *)

(** Adding a range to an interval: unless memory runs out, which changes nothing, the
    interval covers exactly what it covered and the new positions, with its ranges in
    ascending order; ranges that did not overlap and were not adjacent stay so as long
    as the new range touches at most one of them. *)
Theorem interval_add_range_correct `{Allocator} (it : live_interval) (s e : Z) (h : mem) :
  sorted (range_list it) → 0 <= s < e → e < 2 ^ 32 →
  match interval_add_range it s e h with
  | Done (err, it') _ =>
    (err = 0 ∧ sorted (range_list it') ∧
     (∀ p, covers (range_list it') p ↔ covers (range_list it) p ∨ s <= p < e) ∧
     (separated (range_list it) →
      (∀ r r', r ∈ range_list it → r' ∈ range_list it → touches s e r → touches s e r' → r = r') →
      separated (range_list it'))) ∨
    (err = - ENOMEM ∧ it' = it ∧ ¬ (∀ n sz, malloc_ok n sz = true))
  | _ => False
  end.
Proof.
  intros Hs Hse He. unfold interval_add_range. destruct (merge_range (range_list it) s e) as [rs|] eqn:E.
  - left. cbn. split_and!; [done| | |].
    + apply (merge_sorted s e ltac:(lia) 0 (range_list it)); (done || lia).
    + apply (merge_covers s e ltac:(lia) 0 (range_list it)); done.
    + intros Hsep Hu. apply (merge_separated s e ltac:(lia) ltac:(lia) (-1) (range_list it)); (done || lia).
  - unfold alloc_live_range, arena_alloc, bind, mem_malloc. destruct (malloc_ok _ _) eqn:Em; cbn.
    2: { right. split_and!; [done..|]. intros Ha. by rewrite Ha in Em. }
    left. rewrite !u32_id by clia. split_and!; [done| | |].
    + apply (insert_sorted s e); (done || lia).
    + intros p. apply insert_covers.
    + intros Hsep _. apply (insert_separated s e); try (done || lia). apply (merge_none s e 0); done.
Qed.

(** For intervals whose ranges are apart, the intersection test is whether some
    position is in both, and the start of the intersection is the least such
    position; neither follows a null pointer. *)
Theorem intervals_intersect_correct (it1 it2 : live_interval) :
  ordered (range_list it1) → ordered (range_list it2) → range_list it1 ≠ [] → range_list it2 ≠ [] →
  (∃ b, intervals_intersect it1 it2 = Some b ∧ (b = true ↔ ∃ p, common (range_list it1) (range_list it2) p)) ∧
  ((∃ p, common (range_list it1) (range_list it2) p) →
   ∃ p, interval_intersection_start it1 it2 = Some (Returns p) ∧
        least_common (range_list it1) (range_list it2) p).
Proof.
  intros Hs1 Hs2 Hn1 Hn2. unfold intervals_intersect, interval_intersection_start, interval_start, interval_end, interval_is_empty.
  destruct (range_list it1) as [|r1 rs1] eqn:E1; [done|]. destruct (range_list it2) as [|r2 rs2] eqn:E2; [done|].
  destruct (last_range_end _ _ _ Hs1) as (l1 & -> & Hl1 & Hm1). destruct (last_range_end _ _ _ Hs2) as (l2 & -> & Hl2 & Hm2).
  cbn [head fmap option_fmap option_map mbind option_bind orb].
  pose proof (λ p, covers_first _ _ _ p Hs1) as Hf1. pose proof (λ p, covers_first _ _ _ p Hs2) as Hf2.
  assert (∀ p, covers (r1 :: rs1) p → p < end_ l1) as Hb1 by (intros p (r & Hr & Hp); specialize (Hm1 _ Hr); lia).
  assert (∀ p, covers (r2 :: rs2) p → p < end_ l2) as Hb2 by (intros p (r & Hr & Hp); specialize (Hm2 _ Hr); lia).
  split.
  - case_decide as Ha; [|case_decide as Hb].
    + exists false. split; [done|]. split; [done|]. intros (p & Hp1 & Hp2). specialize (Hf1 _ Hp1). specialize (Hb2 _ Hp2). lia.
    + exists false. split; [done|]. split; [done|]. intros (p & Hp1 & Hp2). specialize (Hf2 _ Hp2). specialize (Hb1 _ Hp1). lia.
    + destruct (walk_spec (r1 :: rs1) (r2 :: rs2) l1 r2 Hs1 Hs2 eq_refl Hl1 ltac:(lia)) as (res & -> & Hres).
      cbn [mbind option_bind]. destruct res as [[a b]|].
      * exists true. split; [done|]. split; [|done]. intros _. destruct Hres as (p & _ & Hp & _). eauto.
      * exists false. split; [done|]. split; [done|]. intros (p & Hp). by destruct (Hres p).
  - intros (p & Hp1 & Hp2). pose proof (Hf2 _ Hp2). pose proof (Hb1 _ Hp1).
    destruct (walk_spec (r1 :: rs1) (r2 :: rs2) l1 r2 Hs1 Hs2 eq_refl Hl1 ltac:(lia)) as (res & -> & Hres).
    cbn [mbind option_bind]. destruct res as [[a b]|]; [|by destruct (Hres p)].
    destruct Hres as (q & -> & Hq). exists q. split; [done|exact Hq].
Qed.

(** C29: Splitting an interval at a position of one of its ranges: the interval keeps
    exactly its positions before it and the new interval, its next child, has exactly
    the others; the use positions are divided the same way and none is lost.  At a
    position in a gap the program ends; an allocation that fails ends in the error
    return or, for a range, in undefined behaviour. *)
Theorem split_interval_at_correct `{Allocator} (it : live_interval) (s e pos : Z) (h : mem) :
  ordered (range_list it) → interval_start it = Some s → interval_end it = Some e → s < pos < e →
  Forall use_ok (use_positions it) →
  match split_interval_at it pos h with
  | Done (Returns (old, new)) _ =>
    covers (range_list it) pos ∧ ordered (range_list old) ∧ ordered (range_list new) ∧
    (∀ p, covers (range_list old) p ↔ covers (range_list it) p ∧ p < pos) ∧
    (∀ p, covers (range_list new) p ↔ covers (range_list it) p ∧ pos <= p) ∧
    use_positions old ++ use_positions new ≡ₚ use_positions it ∧
    Forall (λ u, first_pos u < pos) (use_positions old) ∧ Forall (λ u, pos <= first_pos u) (use_positions new) ∧
    var_info new = var_info it
  | Done Exits _ => ¬ covers (range_list it) pos
  | Fail _ _ | Undef => ¬ (∀ n sz, malloc_ok n sz = true)
  end.
Proof.
  intros Hs Hst He Hpos Hu. pose proof (split_interval_at_spec it s e pos h Hs Hst He Hpos Hu) as Hsp.
  destruct (split_interval_at it pos h) as [[[old new]|] h'|? ?|]; [|done..].
  destruct Hsp as [(rs1 & rs2 & us1 & us2 & Hc & Eu & -> & ->) _].
  destruct (cut_ranges_spec 0 _ _ _ _ Hs Hc) as (Hcov & Ho & Hn & Hco & Hcn). pose proof (ordered_covers _ _ _ Hs Hcov).
  destruct (split_uses_spec (use_positions it) pos [] Hu) as (uold & unew & Eu' & Hp & Huo & Hun).
  rewrite Eu in Eu'. injection Eu' as <- <-. rewrite app_nil_r in Hp. specialize (Hun ltac:(constructor)).
  split_and!; try done. by apply (ordered_weaken pos).
Qed.

(** Expiring the ranges before a position keeps every position from there on and the
    answer of the coverage test for it; restoring gives the interval's ranges back in
    order. *)
Theorem interval_expire_restore (it : live_interval) (pos : Z) :
  ordered (range_list it) → range_list it ≠ [] → expired_range_list it = [] →
  ∃ it', interval_expire_ranges_before it pos = Some it' ∧ ordered (range_list it') ∧
    (∀ p, pos <= p → (covers (range_list it') p ↔ covers (range_list it) p) ∧
       ∃ b, interval_covers it' p = Some b ∧ interval_covers it p = Some b ∧ (b = true ↔ covers (range_list it) p)) ∧
    interval_restore_expired_ranges it' = it.
Proof.
  intros Hs Hne Hex. unfold interval_expire_ranges_before, interval_first_range, interval_end.
  assert (∀ it, ordered (range_list it) → range_list it ≠ [] → ∀ p,
    ∃ b, interval_covers it p = Some b ∧ (b = true ↔ covers (range_list it) p)) as Hcov.
  { intros i Hi Hin p. destruct (interval_range_at_spec i p Hi Hin) as (r & Er & Hr). unfold interval_covers. rewrite Er.
    cbn [mbind option_bind]. destruct r as [r|]; [exists true|exists false]; (split; [done|]); split; try done.
    intros _. destruct Hr as [Hr Hp]. by exists r. }
  assert (interval_restore_expired_ranges it = it) as Hid.
  { unfold interval_restore_expired_ranges. rewrite Hex. destruct it. cbn in *. by subst. }
  destruct (range_list it) as [|r rs] eqn:E; [done|]. destruct (last_range_end _ _ _ Hs) as (l & El & _ & _).
  rewrite El. cbn [head fmap option_fmap option_map mbind option_bind]. case_decide as Hc.
  - exists it. rewrite E. split_and!; [done..| |done]. intros p Hp. split; [done|].
    destruct (Hcov it) with p as (b & Hb & Hiff); [by rewrite E..|]. rewrite E in Hiff. eauto.
  - destruct (expire_loop_spec 0 r rs (expired_range_list it) pos l Hs ltac:(lia) El ltac:(lia))
      as (rs' & ex' & -> & Hf & (lo' & Hlo' & Hse) & Hne' & Hcv).
    cbn [mbind option_bind]. eexists. split; [done|].
    assert (ordered rs') as Hsep'.
    { eapply ordered_raise; [exact Hse|]. intros x Hx. pose proof (ordered_start _ _ _ Hse Hx). lia. }
    split_and!; [exact Hsep'| |].
    + intros p Hp. split; [by apply Hcv|].
      destruct (Hcov (with_ranges it rs' ex') Hsep' Hne' p) as (b & Hb & Hiff).
      destruct (Hcov it) with p as (b' & Hb' & Hiff'); [by rewrite E..|]. cbn in Hiff. rewrite E in Hiff'.
      rewrite Hcv in Hiff by done. exists b. assert (b' = b) as <-; [|done].
      destruct b, b'; try done; exfalso; [assert (false = true) by tauto|assert (false = true) by tauto]; done.
    + unfold interval_restore_expired_ranges. cbn. rewrite Hf, Hex. cbn. destruct it. cbn in *. by subst.
Qed.

(** ** Examples *)

Definition always : Allocator := λ _ _, true.
Definition h0 : mem := Mem 0 ∅.
Definition it0 : live_interval :=
  LiveInterval 0 [LiveRange 2 4; LiveRange 8 12] [] [UsePosition 2 1; UsePosition 10 2] 0 MACH_REG_UNASSIGNED.
Definition it1 : live_interval := LiveInterval 1 [LiveRange 5 9] [] [] 0 MACH_REG_UNASSIGNED.

Lemma it0_ordered : ordered (range_list it0).
Proof. cbn. lia. Qed.
Lemma it0_use_ok : Forall use_ok (use_positions it0).
Proof. repeat constructor; unfold use_ok; cbn; lia. Qed.

Lemma interval_add_range_correct_witness :
  match @interval_add_range always it0 4 6 h0 with
  | Done (err, it') _ => err = 0 ∧ covers (range_list it') 5 ∧ covers (range_list it') 9
  | _ => False
  end.
Proof.
  pose proof (@interval_add_range_correct always it0 4 6 h0 ltac:(cbn; lia) ltac:(lia) ltac:(lia)) as H.
  revert H. destruct (interval_add_range it0 4 6 h0) as [[err it'] h'|? ?|]; [|done..].
  intros [(-> & _ & Hc & _)|(_ & _ & Hn)]; [|by destruct Hn]. split; [done|]. rewrite !Hc. split; [right; lia|left].
  exists (LiveRange 8 12). split; [right; left|cbn; lia].
Defined.

Lemma intervals_intersect_correct_witness : ∃ p, interval_intersection_start it0 it1 = Some (Returns p) ∧ p <= 8.
Proof.
  destruct (intervals_intersect_correct it0 it1 it0_ordered ltac:(cbn; lia) ltac:(done) ltac:(done)) as [_ H].
  assert (common (range_list it0) (range_list it1) 8) as H8.
  { split; [exists (LiveRange 8 12)|exists (LiveRange 5 9)]; (split; [|cbn; lia]); [right; left|left]. }
  destruct (H (ex_intro _ 8 H8)) as (p & E & _ & Hl). exists p. split; [exact E|]. by apply Hl.
Defined.

Lemma split_interval_at_correct_witness :
  match @split_interval_at always it0 10 h0 with
  | Done (Returns (old, new)) _ => ¬ covers (range_list old) 11 ∧ covers (range_list new) 11
  | _ => False
  end.
Proof.
  pose proof (@split_interval_at_correct always it0 2 12 10 h0 it0_ordered eq_refl eq_refl ltac:(lia) it0_use_ok) as H.
  revert H. destruct (split_interval_at it0 10 h0) as [[[old new]|] h'|? ?|];
    [|intros H; apply H; exists (LiveRange 8 12); split; [right; left|cbn; lia]|intros H; by apply H..].
  intros (_ & _ & _ & Ho & Hn & _). rewrite Ho, Hn. split; [lia|]. split; [|lia].
  exists (LiveRange 8 12). split; [right; left|cbn; lia].
Defined.

Lemma interval_expire_restore_witness :
  ∃ it', interval_expire_ranges_before it0 9 = Some it' ∧ interval_restore_expired_ranges it' = it0.
Proof.
  destruct (interval_expire_restore it0 9 it0_ordered ltac:(done) eq_refl) as (it' & E & _ & _ & Hr).
  exists it'. split; [exact E|exact Hr].
Defined.

(** Adding a range that touches two ranges leaves them overlapping, and the coverage
    test then misses a position. *)
Lemma interval_add_range_overlaps :
  match @interval_add_range always it0 3 20 h0 with
  | Done (err, it') _ => err = 0 ∧ range_list it' = [LiveRange 2 20; LiveRange 8 12] ∧
                         covers (range_list it') 15 ∧ interval_covers it' 15 = Some false
  | _ => False
  end.
Proof. cbn. split_and!; [done..| |done]. exists (LiveRange 2 20). split; [left|cbn; lia]. Qed.
