(* ===== verification/Opcodes.v ===== *)
(** * include/vm/opcodes.h and include/vm/bytecode-def.h: the opcodes and their table

    The opcode numbers, and the table [bytecode_infos] that vm/bytecode.c builds from
    the list of instructions, in the order of that list. *)

From S2P Require Import Prelude.
From stdpp Require Import strings.
#[local] Open Scope Z_scope.

Definition OPC_NOP : Z := 0x00.
Definition OPC_ACONST_NULL : Z := 0x01.
Definition OPC_ICONST_M1 : Z := 0x02.
Definition OPC_ICONST_0 : Z := 0x03.
Definition OPC_ICONST_1 : Z := 0x04.
Definition OPC_ICONST_2 : Z := 0x05.
Definition OPC_ICONST_3 : Z := 0x06.
Definition OPC_ICONST_4 : Z := 0x07.
Definition OPC_ICONST_5 : Z := 0x08.
Definition OPC_LCONST_0 : Z := 0x09.
Definition OPC_LCONST_1 : Z := 0x0a.
Definition OPC_FCONST_0 : Z := 0x0b.
Definition OPC_FCONST_1 : Z := 0x0c.
Definition OPC_FCONST_2 : Z := 0x0d.
Definition OPC_DCONST_0 : Z := 0x0e.
Definition OPC_DCONST_1 : Z := 0x0f.
Definition OPC_BIPUSH : Z := 0x10.
Definition OPC_SIPUSH : Z := 0x11.
Definition OPC_LDC : Z := 0x12.
Definition OPC_LDC_W : Z := 0x13.
Definition OPC_LDC2_W : Z := 0x14.
Definition OPC_ILOAD : Z := 0x15.
Definition OPC_LLOAD : Z := 0x16.
Definition OPC_FLOAD : Z := 0x17.
Definition OPC_DLOAD : Z := 0x18.
Definition OPC_ALOAD : Z := 0x19.
Definition OPC_ILOAD_0 : Z := 0x1a.
Definition OPC_ILOAD_1 : Z := 0x1b.
Definition OPC_ILOAD_2 : Z := 0x1c.
Definition OPC_ILOAD_3 : Z := 0x1d.
Definition OPC_LLOAD_0 : Z := 0x1e.
Definition OPC_LLOAD_1 : Z := 0x1f.
Definition OPC_LLOAD_2 : Z := 0x20.
Definition OPC_LLOAD_3 : Z := 0x21.
Definition OPC_FLOAD_0 : Z := 0x22.
Definition OPC_FLOAD_1 : Z := 0x23.
Definition OPC_FLOAD_2 : Z := 0x24.
Definition OPC_FLOAD_3 : Z := 0x25.
Definition OPC_DLOAD_0 : Z := 0x26.
Definition OPC_DLOAD_1 : Z := 0x27.
Definition OPC_DLOAD_2 : Z := 0x28.
Definition OPC_DLOAD_3 : Z := 0x29.
Definition OPC_ALOAD_0 : Z := 0x2a.
Definition OPC_ALOAD_1 : Z := 0x2b.
Definition OPC_ALOAD_2 : Z := 0x2c.
Definition OPC_ALOAD_3 : Z := 0x2d.
Definition OPC_IALOAD : Z := 0x2e.
Definition OPC_LALOAD : Z := 0x2f.
Definition OPC_FALOAD : Z := 0x30.
Definition OPC_DALOAD : Z := 0x31.
Definition OPC_AALOAD : Z := 0x32.
Definition OPC_BALOAD : Z := 0x33.
Definition OPC_CALOAD : Z := 0x34.
Definition OPC_SALOAD : Z := 0x35.
Definition OPC_ISTORE : Z := 0x36.
Definition OPC_LSTORE : Z := 0x37.
Definition OPC_FSTORE : Z := 0x38.
Definition OPC_DSTORE : Z := 0x39.
Definition OPC_ASTORE : Z := 0x3a.
Definition OPC_ISTORE_0 : Z := 0x3b.
Definition OPC_ISTORE_1 : Z := 0x3c.
Definition OPC_ISTORE_2 : Z := 0x3d.
Definition OPC_ISTORE_3 : Z := 0x3e.
Definition OPC_LSTORE_0 : Z := 0x3f.
Definition OPC_LSTORE_1 : Z := 0x40.
Definition OPC_LSTORE_2 : Z := 0x41.
Definition OPC_LSTORE_3 : Z := 0x42.
Definition OPC_FSTORE_0 : Z := 0x43.
Definition OPC_FSTORE_1 : Z := 0x44.
Definition OPC_FSTORE_2 : Z := 0x45.
Definition OPC_FSTORE_3 : Z := 0x46.
Definition OPC_DSTORE_0 : Z := 0x47.
Definition OPC_DSTORE_1 : Z := 0x48.
Definition OPC_DSTORE_2 : Z := 0x49.
Definition OPC_DSTORE_3 : Z := 0x4a.
Definition OPC_ASTORE_0 : Z := 0x4b.
Definition OPC_ASTORE_1 : Z := 0x4c.
Definition OPC_ASTORE_2 : Z := 0x4d.
Definition OPC_ASTORE_3 : Z := 0x4e.
Definition OPC_IASTORE : Z := 0x4f.
Definition OPC_LASTORE : Z := 0x50.
Definition OPC_FASTORE : Z := 0x51.
Definition OPC_DASTORE : Z := 0x52.
Definition OPC_AASTORE : Z := 0x53.
Definition OPC_BASTORE : Z := 0x54.
Definition OPC_CASTORE : Z := 0x55.
Definition OPC_SASTORE : Z := 0x56.
Definition OPC_POP : Z := 0x57.
Definition OPC_POP2 : Z := 0x58.
Definition OPC_DUP : Z := 0x59.
Definition OPC_DUP_X1 : Z := 0x5a.
Definition OPC_DUP_X2 : Z := 0x5b.
Definition OPC_DUP2 : Z := 0x5c.
Definition OPC_DUP2_X1 : Z := 0x5d.
Definition OPC_DUP2_X2 : Z := 0x5e.
Definition OPC_SWAP : Z := 0x5f.
Definition OPC_IADD : Z := 0x60.
Definition OPC_LADD : Z := 0x61.
Definition OPC_FADD : Z := 0x62.
Definition OPC_DADD : Z := 0x63.
Definition OPC_ISUB : Z := 0x64.
Definition OPC_LSUB : Z := 0x65.
Definition OPC_FSUB : Z := 0x66.
Definition OPC_DSUB : Z := 0x67.
Definition OPC_IMUL : Z := 0x68.
Definition OPC_LMUL : Z := 0x69.
Definition OPC_FMUL : Z := 0x6a.
Definition OPC_DMUL : Z := 0x6b.
Definition OPC_IDIV : Z := 0x6c.
Definition OPC_LDIV : Z := 0x6d.
Definition OPC_FDIV : Z := 0x6e.
Definition OPC_DDIV : Z := 0x6f.
Definition OPC_IREM : Z := 0x70.
Definition OPC_LREM : Z := 0x71.
Definition OPC_FREM : Z := 0x72.
Definition OPC_DREM : Z := 0x73.
Definition OPC_INEG : Z := 0x74.
Definition OPC_LNEG : Z := 0x75.
Definition OPC_FNEG : Z := 0x76.
Definition OPC_DNEG : Z := 0x77.
Definition OPC_ISHL : Z := 0x78.
Definition OPC_LSHL : Z := 0x79.
Definition OPC_ISHR : Z := 0x7a.
Definition OPC_LSHR : Z := 0x7b.
Definition OPC_IUSHR : Z := 0x7c.
Definition OPC_LUSHR : Z := 0x7d.
Definition OPC_IAND : Z := 0x7e.
Definition OPC_LAND : Z := 0x7f.
Definition OPC_IOR : Z := 0x80.
Definition OPC_LOR : Z := 0x81.
Definition OPC_IXOR : Z := 0x82.
Definition OPC_LXOR : Z := 0x83.
Definition OPC_IINC : Z := 0x84.
Definition OPC_I2L : Z := 0x85.
Definition OPC_I2F : Z := 0x86.
Definition OPC_I2D : Z := 0x87.
Definition OPC_L2I : Z := 0x88.
Definition OPC_L2F : Z := 0x89.
Definition OPC_L2D : Z := 0x8a.
Definition OPC_F2I : Z := 0x8b.
Definition OPC_F2L : Z := 0x8c.
Definition OPC_F2D : Z := 0x8d.
Definition OPC_D2I : Z := 0x8e.
Definition OPC_D2L : Z := 0x8f.
Definition OPC_D2F : Z := 0x90.
Definition OPC_I2B : Z := 0x91.
Definition OPC_I2C : Z := 0x92.
Definition OPC_I2S : Z := 0x93.
Definition OPC_LCMP : Z := 0x94.
Definition OPC_FCMPL : Z := 0x95.
Definition OPC_FCMPG : Z := 0x96.
Definition OPC_DCMPL : Z := 0x97.
Definition OPC_DCMPG : Z := 0x98.
Definition OPC_IFEQ : Z := 0x99.
Definition OPC_IFNE : Z := 0x9a.
Definition OPC_IFLT : Z := 0x9b.
Definition OPC_IFGE : Z := 0x9c.
Definition OPC_IFGT : Z := 0x9d.
Definition OPC_IFLE : Z := 0x9e.
Definition OPC_IF_ICMPEQ : Z := 0x9f.
Definition OPC_IF_ICMPNE : Z := 0xa0.
Definition OPC_IF_ICMPLT : Z := 0xa1.
Definition OPC_IF_ICMPGE : Z := 0xa2.
Definition OPC_IF_ICMPGT : Z := 0xa3.
Definition OPC_IF_ICMPLE : Z := 0xa4.
Definition OPC_IF_ACMPEQ : Z := 0xa5.
Definition OPC_IF_ACMPNE : Z := 0xa6.
Definition OPC_GOTO : Z := 0xa7.
Definition OPC_JSR : Z := 0xa8.
Definition OPC_RET : Z := 0xa9.
Definition OPC_TABLESWITCH : Z := 0xaa.
Definition OPC_LOOKUPSWITCH : Z := 0xab.
Definition OPC_IRETURN : Z := 0xac.
Definition OPC_LRETURN : Z := 0xad.
Definition OPC_FRETURN : Z := 0xae.
Definition OPC_DRETURN : Z := 0xaf.
Definition OPC_ARETURN : Z := 0xb0.
Definition OPC_RETURN : Z := 0xb1.
Definition OPC_GETSTATIC : Z := 0xb2.
Definition OPC_PUTSTATIC : Z := 0xb3.
Definition OPC_GETFIELD : Z := 0xb4.
Definition OPC_PUTFIELD : Z := 0xb5.
Definition OPC_INVOKEVIRTUAL : Z := 0xb6.
Definition OPC_INVOKESPECIAL : Z := 0xb7.
Definition OPC_INVOKESTATIC : Z := 0xb8.
Definition OPC_INVOKEINTERFACE : Z := 0xb9.
Definition OPC_XXXUNUSEDXXX : Z := 0xba.
Definition OPC_XXXUNUSEDXXX_ : Z := 0xba.
Definition OPC_NEW : Z := 0xbb.
Definition OPC_NEWARRAY : Z := 0xbc.
Definition OPC_ANEWARRAY : Z := 0xbd.
Definition OPC_ARRAYLENGTH : Z := 0xbe.
Definition OPC_ATHROW : Z := 0xbf.
Definition OPC_CHECKCAST : Z := 0xc0.
Definition OPC_INSTANCEOF : Z := 0xc1.
Definition OPC_MONITORENTER : Z := 0xc2.
Definition OPC_MONITOREXIT : Z := 0xc3.
Definition OPC_WIDE : Z := 0xc4.
Definition OPC_MULTIANEWARRAY : Z := 0xc5.
Definition OPC_IFNULL : Z := 0xc6.
Definition OPC_IFNONNULL : Z := 0xc7.
Definition OPC_GOTO_W : Z := 0xc8.
Definition OPC_JSR_W : Z := 0xc9.
Definition OPC_BREAKPOINT : Z := 0xca.
Definition OPC_IMPDEP1 : Z := 0xfe.
Definition OPC_IMPDEP2 : Z := 0xff.

(** [enum bytecode_type] *)
Definition BYTECODE_NORMAL : Z := 0x01.
Definition BYTECODE_BRANCH : Z := 0x02.
Definition BYTECODE_WIDE : Z := 0x04.
Definition BYTECODE_RETURN : Z := 0x08.
Definition BYTECODE_VARIABLE_LEN : Z := 0x10.
Definition BYTECODE_USES_LOCAL_VAR : Z := 0x20.

Record bytecode_info := BytecodeInfo {
  bi_size : Z;
  bi_type : Z;
  bi_name : string;
}.

#[local] Infix "|||" := Z.lor (at level 50, left associativity).

(** The macro BYTECODE: an entry of the table with its index. *)
Definition BYTECODE (opc : Z) (name : string) (size type : Z) : Z * bytecode_info :=
  (opc, BytecodeInfo size type name).

Definition bytecode_def : list (Z * bytecode_info) := [
  BYTECODE OPC_AALOAD "OPC_AALOAD" 1 (BYTECODE_NORMAL);
  BYTECODE OPC_AASTORE "OPC_AASTORE" 1 (BYTECODE_NORMAL);
  BYTECODE OPC_ACONST_NULL "OPC_ACONST_NULL" 1 (BYTECODE_NORMAL);
  BYTECODE OPC_ALOAD "OPC_ALOAD" 2 (BYTECODE_NORMAL ||| BYTECODE_USES_LOCAL_VAR);
  BYTECODE OPC_ALOAD_0 "OPC_ALOAD_0" 1 (BYTECODE_NORMAL ||| BYTECODE_USES_LOCAL_VAR);
  BYTECODE OPC_ALOAD_1 "OPC_ALOAD_1" 1 (BYTECODE_NORMAL ||| BYTECODE_USES_LOCAL_VAR);
  BYTECODE OPC_ALOAD_2 "OPC_ALOAD_2" 1 (BYTECODE_NORMAL ||| BYTECODE_USES_LOCAL_VAR);
  BYTECODE OPC_ALOAD_3 "OPC_ALOAD_3" 1 (BYTECODE_NORMAL ||| BYTECODE_USES_LOCAL_VAR);
  BYTECODE OPC_ANEWARRAY "OPC_ANEWARRAY" 3 (BYTECODE_NORMAL);
  BYTECODE OPC_ARETURN "OPC_ARETURN" 1 (BYTECODE_RETURN);
  BYTECODE OPC_ARRAYLENGTH "OPC_ARRAYLENGTH" 1 (BYTECODE_NORMAL);
  BYTECODE OPC_ASTORE "OPC_ASTORE" 2 (BYTECODE_NORMAL ||| BYTECODE_USES_LOCAL_VAR);
  BYTECODE OPC_ASTORE_0 "OPC_ASTORE_0" 1 (BYTECODE_NORMAL ||| BYTECODE_USES_LOCAL_VAR);
  BYTECODE OPC_ASTORE_1 "OPC_ASTORE_1" 1 (BYTECODE_NORMAL ||| BYTECODE_USES_LOCAL_VAR);
  BYTECODE OPC_ASTORE_2 "OPC_ASTORE_2" 1 (BYTECODE_NORMAL ||| BYTECODE_USES_LOCAL_VAR);
  BYTECODE OPC_ASTORE_3 "OPC_ASTORE_3" 1 (BYTECODE_NORMAL ||| BYTECODE_USES_LOCAL_VAR);
  BYTECODE OPC_ATHROW "OPC_ATHROW" 1 (BYTECODE_NORMAL);
  BYTECODE OPC_BALOAD "OPC_BALOAD" 1 (BYTECODE_NORMAL);
  BYTECODE OPC_BASTORE "OPC_BASTORE" 1 (BYTECODE_NORMAL);
  BYTECODE OPC_BIPUSH "OPC_BIPUSH" 2 (BYTECODE_NORMAL);
  BYTECODE OPC_CALOAD "OPC_CALOAD" 1 (BYTECODE_NORMAL);
  BYTECODE OPC_CASTORE "OPC_CASTORE" 1 (BYTECODE_NORMAL);
  BYTECODE OPC_CHECKCAST "OPC_CHECKCAST" 3 (BYTECODE_NORMAL);
  BYTECODE OPC_D2F "OPC_D2F" 1 (BYTECODE_NORMAL);
  BYTECODE OPC_D2I "OPC_D2I" 1 (BYTECODE_NORMAL);
  BYTECODE OPC_D2L "OPC_D2L" 1 (BYTECODE_NORMAL);
  BYTECODE OPC_DADD "OPC_DADD" 1 (BYTECODE_NORMAL);
  BYTECODE OPC_DALOAD "OPC_DALOAD" 1 (BYTECODE_NORMAL);
  BYTECODE OPC_DASTORE "OPC_DASTORE" 1 (BYTECODE_NORMAL);
  BYTECODE OPC_DCMPG "OPC_DCMPG" 1 (BYTECODE_NORMAL);
  BYTECODE OPC_DCMPL "OPC_DCMPL" 1 (BYTECODE_NORMAL);
  BYTECODE OPC_DCONST_0 "OPC_DCONST_0" 1 (BYTECODE_NORMAL);
  BYTECODE OPC_DCONST_1 "OPC_DCONST_1" 1 (BYTECODE_NORMAL);
  BYTECODE OPC_DDIV "OPC_DDIV" 1 (BYTECODE_NORMAL);
  BYTECODE OPC_DLOAD "OPC_DLOAD" 2 (BYTECODE_NORMAL ||| BYTECODE_USES_LOCAL_VAR);
  BYTECODE OPC_DLOAD_0 "OPC_DLOAD_0" 1 (BYTECODE_NORMAL ||| BYTECODE_USES_LOCAL_VAR);
  BYTECODE OPC_DLOAD_1 "OPC_DLOAD_1" 1 (BYTECODE_NORMAL ||| BYTECODE_USES_LOCAL_VAR);
  BYTECODE OPC_DLOAD_2 "OPC_DLOAD_2" 1 (BYTECODE_NORMAL ||| BYTECODE_USES_LOCAL_VAR);
  BYTECODE OPC_DLOAD_3 "OPC_DLOAD_3" 1 (BYTECODE_NORMAL ||| BYTECODE_USES_LOCAL_VAR);
  BYTECODE OPC_DMUL "OPC_DMUL" 1 (BYTECODE_NORMAL);
  BYTECODE OPC_DNEG "OPC_DNEG" 1 (BYTECODE_NORMAL);
  BYTECODE OPC_DREM "OPC_DREM" 1 (BYTECODE_NORMAL);
  BYTECODE OPC_DRETURN "OPC_DRETURN" 1 (BYTECODE_RETURN);
  BYTECODE OPC_DSTORE "OPC_DSTORE" 2 (BYTECODE_NORMAL ||| BYTECODE_USES_LOCAL_VAR);
  BYTECODE OPC_DSTORE_0 "OPC_DSTORE_0" 1 (BYTECODE_NORMAL ||| BYTECODE_USES_LOCAL_VAR);
  BYTECODE OPC_DSTORE_1 "OPC_DSTORE_1" 1 (BYTECODE_NORMAL ||| BYTECODE_USES_LOCAL_VAR);
  BYTECODE OPC_DSTORE_2 "OPC_DSTORE_2" 1 (BYTECODE_NORMAL ||| BYTECODE_USES_LOCAL_VAR);
  BYTECODE OPC_DSTORE_3 "OPC_DSTORE_3" 1 (BYTECODE_NORMAL ||| BYTECODE_USES_LOCAL_VAR);
  BYTECODE OPC_DSUB "OPC_DSUB" 1 (BYTECODE_NORMAL);
  BYTECODE OPC_DUP "OPC_DUP" 1 (BYTECODE_NORMAL);
  BYTECODE OPC_DUP2 "OPC_DUP2" 1 (BYTECODE_NORMAL);
  BYTECODE OPC_DUP2_X1 "OPC_DUP2_X1" 1 (BYTECODE_NORMAL);
  BYTECODE OPC_DUP2_X2 "OPC_DUP2_X2" 1 (BYTECODE_NORMAL);
  BYTECODE OPC_DUP_X1 "OPC_DUP_X1" 1 (BYTECODE_NORMAL);
  BYTECODE OPC_DUP_X2 "OPC_DUP_X2" 1 (BYTECODE_NORMAL);
  BYTECODE OPC_F2D "OPC_F2D" 1 (BYTECODE_NORMAL);
  BYTECODE OPC_F2I "OPC_F2I" 1 (BYTECODE_NORMAL);
  BYTECODE OPC_F2L "OPC_F2L" 1 (BYTECODE_NORMAL);
  BYTECODE OPC_FADD "OPC_FADD" 1 (BYTECODE_NORMAL);
  BYTECODE OPC_FALOAD "OPC_FALOAD" 1 (BYTECODE_NORMAL);
  BYTECODE OPC_FASTORE "OPC_FASTORE" 1 (BYTECODE_NORMAL);
  BYTECODE OPC_FCMPG "OPC_FCMPG" 1 (BYTECODE_NORMAL);
  BYTECODE OPC_FCMPL "OPC_FCMPL" 1 (BYTECODE_NORMAL);
  BYTECODE OPC_FCONST_0 "OPC_FCONST_0" 1 (BYTECODE_NORMAL);
  BYTECODE OPC_FCONST_1 "OPC_FCONST_1" 1 (BYTECODE_NORMAL);
  BYTECODE OPC_FCONST_2 "OPC_FCONST_2" 1 (BYTECODE_NORMAL);
  BYTECODE OPC_FDIV "OPC_FDIV" 1 (BYTECODE_NORMAL);
  BYTECODE OPC_FLOAD "OPC_FLOAD" 2 (BYTECODE_NORMAL ||| BYTECODE_USES_LOCAL_VAR);
  BYTECODE OPC_FLOAD_0 "OPC_FLOAD_0" 1 (BYTECODE_NORMAL ||| BYTECODE_USES_LOCAL_VAR);
  BYTECODE OPC_FLOAD_1 "OPC_FLOAD_1" 1 (BYTECODE_NORMAL ||| BYTECODE_USES_LOCAL_VAR);
  BYTECODE OPC_FLOAD_2 "OPC_FLOAD_2" 1 (BYTECODE_NORMAL ||| BYTECODE_USES_LOCAL_VAR);
  BYTECODE OPC_FLOAD_3 "OPC_FLOAD_3" 1 (BYTECODE_NORMAL ||| BYTECODE_USES_LOCAL_VAR);
  BYTECODE OPC_FMUL "OPC_FMUL" 1 (BYTECODE_NORMAL);
  BYTECODE OPC_FNEG "OPC_FNEG" 1 (BYTECODE_NORMAL);
  BYTECODE OPC_FREM "OPC_FREM" 1 (BYTECODE_NORMAL);
  BYTECODE OPC_FRETURN "OPC_FRETURN" 1 (BYTECODE_RETURN);
  BYTECODE OPC_FSTORE "OPC_FSTORE" 2 (BYTECODE_NORMAL ||| BYTECODE_USES_LOCAL_VAR);
  BYTECODE OPC_FSTORE_0 "OPC_FSTORE_0" 1 (BYTECODE_NORMAL ||| BYTECODE_USES_LOCAL_VAR);
  BYTECODE OPC_FSTORE_1 "OPC_FSTORE_1" 1 (BYTECODE_NORMAL ||| BYTECODE_USES_LOCAL_VAR);
  BYTECODE OPC_FSTORE_2 "OPC_FSTORE_2" 1 (BYTECODE_NORMAL ||| BYTECODE_USES_LOCAL_VAR);
  BYTECODE OPC_FSTORE_3 "OPC_FSTORE_3" 1 (BYTECODE_NORMAL ||| BYTECODE_USES_LOCAL_VAR);
  BYTECODE OPC_FSUB "OPC_FSUB" 1 (BYTECODE_NORMAL);
  BYTECODE OPC_GETFIELD "OPC_GETFIELD" 3 (BYTECODE_NORMAL);
  BYTECODE OPC_GETSTATIC "OPC_GETSTATIC" 3 (BYTECODE_NORMAL);
  BYTECODE OPC_GOTO "OPC_GOTO" 3 (BYTECODE_BRANCH);
  BYTECODE OPC_GOTO_W "OPC_GOTO_W" 5 (BYTECODE_BRANCH ||| BYTECODE_WIDE);
  BYTECODE OPC_I2B "OPC_I2B" 1 (BYTECODE_NORMAL);
  BYTECODE OPC_I2C "OPC_I2C" 1 (BYTECODE_NORMAL);
  BYTECODE OPC_I2D "OPC_I2D" 1 (BYTECODE_NORMAL);
  BYTECODE OPC_I2F "OPC_I2F" 1 (BYTECODE_NORMAL);
  BYTECODE OPC_I2L "OPC_I2L" 1 (BYTECODE_NORMAL);
  BYTECODE OPC_I2S "OPC_I2S" 1 (BYTECODE_NORMAL);
  BYTECODE OPC_IADD "OPC_IADD" 1 (BYTECODE_NORMAL);
  BYTECODE OPC_IALOAD "OPC_IALOAD" 1 (BYTECODE_NORMAL);
  BYTECODE OPC_IAND "OPC_IAND" 1 (BYTECODE_NORMAL);
  BYTECODE OPC_IASTORE "OPC_IASTORE" 1 (BYTECODE_NORMAL);
  BYTECODE OPC_ICONST_0 "OPC_ICONST_0" 1 (BYTECODE_NORMAL);
  BYTECODE OPC_ICONST_1 "OPC_ICONST_1" 1 (BYTECODE_NORMAL);
  BYTECODE OPC_ICONST_2 "OPC_ICONST_2" 1 (BYTECODE_NORMAL);
  BYTECODE OPC_ICONST_3 "OPC_ICONST_3" 1 (BYTECODE_NORMAL);
  BYTECODE OPC_ICONST_4 "OPC_ICONST_4" 1 (BYTECODE_NORMAL);
  BYTECODE OPC_ICONST_5 "OPC_ICONST_5" 1 (BYTECODE_NORMAL);
  BYTECODE OPC_ICONST_M1 "OPC_ICONST_M1" 1 (BYTECODE_NORMAL);
  BYTECODE OPC_IDIV "OPC_IDIV" 1 (BYTECODE_NORMAL);
  BYTECODE OPC_IFEQ "OPC_IFEQ" 3 (BYTECODE_BRANCH);
  BYTECODE OPC_IFGE "OPC_IFGE" 3 (BYTECODE_BRANCH);
  BYTECODE OPC_IFGT "OPC_IFGT" 3 (BYTECODE_BRANCH);
  BYTECODE OPC_IFLE "OPC_IFLE" 3 (BYTECODE_BRANCH);
  BYTECODE OPC_IFLT "OPC_IFLT" 3 (BYTECODE_BRANCH);
  BYTECODE OPC_IFNE "OPC_IFNE" 3 (BYTECODE_BRANCH);
  BYTECODE OPC_IFNONNULL "OPC_IFNONNULL" 3 (BYTECODE_BRANCH);
  BYTECODE OPC_IFNULL "OPC_IFNULL" 3 (BYTECODE_BRANCH);
  BYTECODE OPC_IF_ACMPEQ "OPC_IF_ACMPEQ" 3 (BYTECODE_BRANCH);
  BYTECODE OPC_IF_ACMPNE "OPC_IF_ACMPNE" 3 (BYTECODE_BRANCH);
  BYTECODE OPC_IF_ICMPEQ "OPC_IF_ICMPEQ" 3 (BYTECODE_BRANCH);
  BYTECODE OPC_IF_ICMPGE "OPC_IF_ICMPGE" 3 (BYTECODE_BRANCH);
  BYTECODE OPC_IF_ICMPGT "OPC_IF_ICMPGT" 3 (BYTECODE_BRANCH);
  BYTECODE OPC_IF_ICMPLE "OPC_IF_ICMPLE" 3 (BYTECODE_BRANCH);
  BYTECODE OPC_IF_ICMPLT "OPC_IF_ICMPLT" 3 (BYTECODE_BRANCH);
  BYTECODE OPC_IF_ICMPNE "OPC_IF_ICMPNE" 3 (BYTECODE_BRANCH);
  BYTECODE OPC_IINC "OPC_IINC" 3 (BYTECODE_NORMAL);
  BYTECODE OPC_ILOAD "OPC_ILOAD" 2 (BYTECODE_NORMAL ||| BYTECODE_USES_LOCAL_VAR);
  BYTECODE OPC_ILOAD_0 "OPC_ILOAD_0" 1 (BYTECODE_NORMAL ||| BYTECODE_USES_LOCAL_VAR);
  BYTECODE OPC_ILOAD_1 "OPC_ILOAD_1" 1 (BYTECODE_NORMAL ||| BYTECODE_USES_LOCAL_VAR);
  BYTECODE OPC_ILOAD_2 "OPC_ILOAD_2" 1 (BYTECODE_NORMAL ||| BYTECODE_USES_LOCAL_VAR);
  BYTECODE OPC_ILOAD_3 "OPC_ILOAD_3" 1 (BYTECODE_NORMAL ||| BYTECODE_USES_LOCAL_VAR);
  BYTECODE OPC_IMUL "OPC_IMUL" 1 (BYTECODE_NORMAL);
  BYTECODE OPC_INEG "OPC_INEG" 1 (BYTECODE_NORMAL);
  BYTECODE OPC_INSTANCEOF "OPC_INSTANCEOF" 3 (BYTECODE_NORMAL);
  BYTECODE OPC_INVOKEINTERFACE "OPC_INVOKEINTERFACE" 5 (BYTECODE_NORMAL);
  BYTECODE OPC_INVOKESPECIAL "OPC_INVOKESPECIAL" 3 (BYTECODE_NORMAL);
  BYTECODE OPC_INVOKESTATIC "OPC_INVOKESTATIC" 3 (BYTECODE_NORMAL);
  BYTECODE OPC_INVOKEVIRTUAL "OPC_INVOKEVIRTUAL" 3 (BYTECODE_NORMAL);
  BYTECODE OPC_IOR "OPC_IOR" 1 (BYTECODE_NORMAL);
  BYTECODE OPC_IREM "OPC_IREM" 1 (BYTECODE_NORMAL);
  BYTECODE OPC_IRETURN "OPC_IRETURN" 1 (BYTECODE_RETURN);
  BYTECODE OPC_ISHL "OPC_ISHL" 1 (BYTECODE_NORMAL);
  BYTECODE OPC_ISHR "OPC_ISHR" 1 (BYTECODE_NORMAL);
  BYTECODE OPC_ISTORE "OPC_ISTORE" 2 (BYTECODE_NORMAL ||| BYTECODE_USES_LOCAL_VAR);
  BYTECODE OPC_ISTORE_0 "OPC_ISTORE_0" 1 (BYTECODE_NORMAL ||| BYTECODE_USES_LOCAL_VAR);
  BYTECODE OPC_ISTORE_1 "OPC_ISTORE_1" 1 (BYTECODE_NORMAL ||| BYTECODE_USES_LOCAL_VAR);
  BYTECODE OPC_ISTORE_2 "OPC_ISTORE_2" 1 (BYTECODE_NORMAL ||| BYTECODE_USES_LOCAL_VAR);
  BYTECODE OPC_ISTORE_3 "OPC_ISTORE_3" 1 (BYTECODE_NORMAL ||| BYTECODE_USES_LOCAL_VAR);
  BYTECODE OPC_ISUB "OPC_ISUB" 1 (BYTECODE_NORMAL);
  BYTECODE OPC_IUSHR "OPC_IUSHR" 1 (BYTECODE_NORMAL);
  BYTECODE OPC_IXOR "OPC_IXOR" 1 (BYTECODE_NORMAL);
  BYTECODE OPC_JSR "OPC_JSR" 3 (BYTECODE_BRANCH);
  BYTECODE OPC_JSR_W "OPC_JSR_W" 5 (BYTECODE_BRANCH ||| BYTECODE_WIDE);
  BYTECODE OPC_L2D "OPC_L2D" 1 (BYTECODE_NORMAL);
  BYTECODE OPC_L2F "OPC_L2F" 1 (BYTECODE_NORMAL);
  BYTECODE OPC_L2I "OPC_L2I" 1 (BYTECODE_NORMAL);
  BYTECODE OPC_LADD "OPC_LADD" 1 (BYTECODE_NORMAL);
  BYTECODE OPC_LALOAD "OPC_LALOAD" 1 (BYTECODE_NORMAL);
  BYTECODE OPC_LAND "OPC_LAND" 1 (BYTECODE_NORMAL);
  BYTECODE OPC_LASTORE "OPC_LASTORE" 1 (BYTECODE_NORMAL);
  BYTECODE OPC_LCMP "OPC_LCMP" 1 (BYTECODE_NORMAL);
  BYTECODE OPC_LCONST_0 "OPC_LCONST_0" 1 (BYTECODE_NORMAL);
  BYTECODE OPC_LCONST_1 "OPC_LCONST_1" 1 (BYTECODE_NORMAL);
  BYTECODE OPC_LDC "OPC_LDC" 2 (BYTECODE_NORMAL);
  BYTECODE OPC_LDC2_W "OPC_LDC2_W" 3 (BYTECODE_NORMAL ||| BYTECODE_WIDE);
  BYTECODE OPC_LDC_W "OPC_LDC_W" 3 (BYTECODE_NORMAL ||| BYTECODE_WIDE);
  BYTECODE OPC_LDIV "OPC_LDIV" 1 (BYTECODE_NORMAL);
  BYTECODE OPC_LLOAD "OPC_LLOAD" 2 (BYTECODE_NORMAL ||| BYTECODE_USES_LOCAL_VAR);
  BYTECODE OPC_LLOAD_0 "OPC_LLOAD_0" 1 (BYTECODE_NORMAL ||| BYTECODE_USES_LOCAL_VAR);
  BYTECODE OPC_LLOAD_1 "OPC_LLOAD_1" 1 (BYTECODE_NORMAL ||| BYTECODE_USES_LOCAL_VAR);
  BYTECODE OPC_LLOAD_2 "OPC_LLOAD_2" 1 (BYTECODE_NORMAL ||| BYTECODE_USES_LOCAL_VAR);
  BYTECODE OPC_LLOAD_3 "OPC_LLOAD_3" 1 (BYTECODE_NORMAL ||| BYTECODE_USES_LOCAL_VAR);
  BYTECODE OPC_LMUL "OPC_LMUL" 1 (BYTECODE_NORMAL);
  BYTECODE OPC_LNEG "OPC_LNEG" 1 (BYTECODE_NORMAL);
  BYTECODE OPC_LOOKUPSWITCH "OPC_LOOKUPSWITCH" 0 (BYTECODE_BRANCH ||| BYTECODE_VARIABLE_LEN);
  BYTECODE OPC_LOR "OPC_LOR" 1 (BYTECODE_NORMAL);
  BYTECODE OPC_LREM "OPC_LREM" 1 (BYTECODE_NORMAL);
  BYTECODE OPC_LRETURN "OPC_LRETURN" 1 (BYTECODE_RETURN);
  BYTECODE OPC_LSHL "OPC_LSHL" 1 (BYTECODE_NORMAL);
  BYTECODE OPC_LSHR "OPC_LSHR" 1 (BYTECODE_NORMAL);
  BYTECODE OPC_LSTORE "OPC_LSTORE" 2 (BYTECODE_NORMAL ||| BYTECODE_USES_LOCAL_VAR);
  BYTECODE OPC_LSTORE_0 "OPC_LSTORE_0" 1 (BYTECODE_NORMAL ||| BYTECODE_USES_LOCAL_VAR);
  BYTECODE OPC_LSTORE_1 "OPC_LSTORE_1" 1 (BYTECODE_NORMAL ||| BYTECODE_USES_LOCAL_VAR);
  BYTECODE OPC_LSTORE_2 "OPC_LSTORE_2" 1 (BYTECODE_NORMAL ||| BYTECODE_USES_LOCAL_VAR);
  BYTECODE OPC_LSTORE_3 "OPC_LSTORE_3" 1 (BYTECODE_NORMAL ||| BYTECODE_USES_LOCAL_VAR);
  BYTECODE OPC_LSUB "OPC_LSUB" 1 (BYTECODE_NORMAL);
  BYTECODE OPC_LUSHR "OPC_LUSHR" 1 (BYTECODE_NORMAL);
  BYTECODE OPC_LXOR "OPC_LXOR" 1 (BYTECODE_NORMAL);
  BYTECODE OPC_MONITORENTER "OPC_MONITORENTER" 1 (BYTECODE_NORMAL);
  BYTECODE OPC_MONITOREXIT "OPC_MONITOREXIT" 1 (BYTECODE_NORMAL);
  BYTECODE OPC_MULTIANEWARRAY "OPC_MULTIANEWARRAY" 4 (BYTECODE_NORMAL);
  BYTECODE OPC_NEW "OPC_NEW" 3 (BYTECODE_NORMAL);
  BYTECODE OPC_NEWARRAY "OPC_NEWARRAY" 2 (BYTECODE_NORMAL);
  BYTECODE OPC_NOP "OPC_NOP" 1 (BYTECODE_NORMAL);
  BYTECODE OPC_POP "OPC_POP" 1 (BYTECODE_NORMAL);
  BYTECODE OPC_POP2 "OPC_POP2" 1 (BYTECODE_NORMAL);
  BYTECODE OPC_PUTFIELD "OPC_PUTFIELD" 3 (BYTECODE_NORMAL);
  BYTECODE OPC_PUTSTATIC "OPC_PUTSTATIC" 3 (BYTECODE_NORMAL);
  BYTECODE OPC_RET "OPC_RET" 2 (BYTECODE_NORMAL);
  BYTECODE OPC_RETURN "OPC_RETURN" 1 (BYTECODE_RETURN);
  BYTECODE OPC_SALOAD "OPC_SALOAD" 1 (BYTECODE_NORMAL);
  BYTECODE OPC_SASTORE "OPC_SASTORE" 1 (BYTECODE_NORMAL);
  BYTECODE OPC_SIPUSH "OPC_SIPUSH" 3 (BYTECODE_NORMAL);
  BYTECODE OPC_SWAP "OPC_SWAP" 1 (BYTECODE_NORMAL);
  BYTECODE OPC_TABLESWITCH "OPC_TABLESWITCH" 0 (BYTECODE_BRANCH ||| BYTECODE_VARIABLE_LEN);
  BYTECODE OPC_WIDE "OPC_WIDE" 0 (BYTECODE_NORMAL ||| BYTECODE_VARIABLE_LEN)
].

(** The array the initialiser makes: as long as its greatest index needs, with
    zeroes where no entry is given. *)
Definition bytecode_infos : list bytecode_info :=
  Eval vm_compute in
  foldl (λ arr e, <[Z.to_nat e.1 := e.2]> arr)
    (replicate (S (foldr (λ e n, Nat.max (Z.to_nat e.1) n) 0%nat bytecode_def)) (BytecodeInfo 0 0 EmptyString))
    bytecode_def.

(** Reading the table past its end is undefined. *)
Definition bytecode_info_of (opc : Z) : option bytecode_info := bytecode_infos !! Z.to_nat opc.

Lemma bytecode_infos_length : length bytecode_infos = 202%nat.
Proof. reflexivity. Qed.

(** Every entry of the list is in the table. *)
Lemma bytecode_infos_def : Forall (λ e, bytecode_info_of e.1 = Some e.2) bytecode_def.
Proof. repeat constructor. Qed.
