(* ===== verification/Bytecode.v ===== *)
(** * vm/bytecode.c: reading, writing and measuring JVM instructions

    Code is the list of its bytes and a pointer into it is an offset; reading or
    writing outside the code is undefined, which is [None].  [bc_insn_size] may
    also end the program. *)

From S2P Require Import Prelude Opcodes.
#[local] Open Scope Z_scope.

Definition rd (code : list Z) (p : Z) : option Z :=
  if decide (0 <= p) then code !! Z.to_nat p else None.

(** ** Fields *)

Definition read_u8 (code : list Z) (p : Z) : option Z := rd code p.
Definition read_u16 (code : list Z) (p : Z) : option Z :=
  b0 ← read_u8 code (p + 0);
  b1 ← read_u8 code (p + 1);
  Some (Z.lor (u16 (Z.shiftl b0 8)) b1).
Definition read_u32 (code : list Z) (p : Z) : option Z :=
  b0 ← read_u8 code (p + 0);
  b1 ← read_u8 code (p + 1);
  b2 ← read_u8 code (p + 2);
  b3 ← read_u8 code (p + 3);
  Some (Z.lor (Z.lor (Z.lor (u32 (Z.shiftl b0 24)) (u32 (Z.shiftl b1 16))) (u32 (Z.shiftl b2 8))) b3).
Definition read_s16 (code : list Z) (p : Z) : option Z := s16 <$> read_u16 code p.
Definition read_s32 (code : list Z) (p : Z) : option Z := s32 <$> read_u32 code p.

Definition write_u8 (code : list Z) (p value : Z) : option (list Z) :=
  if decide (0 <= p < Z.of_nat (length code)) then Some (<[Z.to_nat p := value]> code) else None.
Definition write_u16 (code : list Z) (p value : Z) : option (list Z) :=
  code ← write_u8 code (p + 0) (Z.land (Z.shiftr value 8) 0xff);
  write_u8 code (p + 1) (Z.land value 0xff).
Definition write_u32 (code : list Z) (p value : Z) : option (list Z) :=
  code ← write_u8 code (p + 0) (Z.land (Z.shiftr value 24) 0xff);
  code ← write_u8 code (p + 1) (Z.land (Z.shiftr value 16) 0xff);
  code ← write_u8 code (p + 2) (Z.land (Z.shiftr value 8) 0xff);
  write_u8 code (p + 3) (Z.land value 0xff).
Definition write_s16 (code : list Z) (p value : Z) : option (list Z) := write_u16 code p (u16 value).
Definition write_s32 (code : list Z) (p value : Z) : option (list Z) := write_u32 code p (u32 value).

(** ** The buffer the bytecode converter reads from *)

Record bytecode_buffer := BytecodeBuffer { buffer : list Z; pos : Z }.

Definition bytecode_read_u8 (b : bytecode_buffer) : option (Z * bytecode_buffer) :=
  x ← rd (buffer b) (pos b);
  Some (x, BytecodeBuffer (buffer b) (u64 (pos b + 1))).
Definition bytecode_read_u16 (b : bytecode_buffer) : option (Z * bytecode_buffer) :=
  '(b0, b) ← bytecode_read_u8 b;
  '(b1, b) ← bytecode_read_u8 b;
  Some (Z.lor (u16 (Z.shiftl b0 8)) b1, b).
Definition bytecode_read_u32 (b : bytecode_buffer) : option (Z * bytecode_buffer) :=
  '(b0, b) ← bytecode_read_u8 b;
  '(b1, b) ← bytecode_read_u8 b;
  '(b2, b) ← bytecode_read_u8 b;
  '(b3, b) ← bytecode_read_u8 b;
  Some (Z.lor (Z.lor (Z.lor (u32 (Z.shiftl b0 24)) (u32 (Z.shiftl b1 16))) (u32 (Z.shiftl b2 8))) b3, b).
Definition bytecode_read_s8 (b : bytecode_buffer) : option (Z * bytecode_buffer) :=
  '(x, b) ← bytecode_read_u8 b; Some (s8 x, b).
Definition bytecode_read_s16 (b : bytecode_buffer) : option (Z * bytecode_buffer) :=
  '(x, b) ← bytecode_read_u16 b; Some (s16 x, b).
Definition bytecode_read_s32 (b : bytecode_buffer) : option (Z * bytecode_buffer) :=
  '(x, b) ← bytecode_read_u32 b; Some (s32 x, b).

(** ** Kinds of instructions *)

Definition has_type (flag opc : Z) : option bool :=
  i ← bytecode_info_of opc; Some (bool_decide (Z.land (bi_type i) flag ≠ 0)).
Definition bc_is_branch (opc : Z) : option bool := has_type BYTECODE_BRANCH opc.
Definition bc_is_wide (opc : Z) : option bool := has_type BYTECODE_WIDE opc.
Definition bc_uses_local_var (opc : Z) : option bool := has_type BYTECODE_USES_LOCAL_VAR opc.
Definition bc_is_return (opc : Z) : option bool := has_type BYTECODE_RETURN opc.

Definition bc_is_invalid (opc : Z) : bool :=
  bool_decide (OPC_BREAKPOINT <= opc) || bool_decide (opc = OPC_XXXUNUSEDXXX)
  || bool_decide (opc = OPC_XXXUNUSEDXXX_).
Definition bc_is_ldc (opc : Z) : bool :=
  bool_decide (opc = OPC_LDC) || bool_decide (opc = OPC_LDC_W) || bool_decide (opc = OPC_LDC2_W).
Definition bc_is_goto (opc : Z) : bool := bool_decide (opc = OPC_GOTO).
Definition bc_is_athrow (opc : Z) : bool := bool_decide (opc = OPC_ATHROW).
Definition bc_is_jsr (opc : Z) : bool := bool_decide (opc = OPC_JSR) || bool_decide (opc = OPC_JSR_W).

(** [||]: the right operand is evaluated only when the left one is false. *)
Definition orelse (a : option bool) (b : option bool) : option bool :=
  x ← a; if (x : bool) then Some true else b.
Definition bc_ends_basic_block (code : Z) : option bool :=
  orelse (orelse (bc_is_branch code) (Some (bc_is_athrow code))) (bc_is_return code).
Definition bc_branches_to_follower (code : Z) : option bool :=
  b ← bc_is_branch code; Some (b && negb (bc_is_goto code)).

Definition bc_is_ret (code : list Z) (p : Z) : option bool :=
  opc ← rd code p;
  opc' ← (if decide (opc = OPC_WIDE) then rd code (p + 1) else Some opc);
  Some (bool_decide (opc' = OPC_RET)).
Definition bc_is_unconditionnal_branch (code : list Z) (p : Z) : option bool :=
  opc ← rd code p;
  orelse (orelse (orelse (orelse (bc_is_return opc) (Some (bc_is_goto opc))) (Some (bc_is_jsr opc)))
    (bc_is_ret code p)) (Some (bc_is_athrow opc)).

Definition bc_is_astore (code : list Z) (p : Z) : option bool :=
  opc ← rd code p;
  opc' ← (if decide (opc = OPC_WIDE) then rd code (p + 1) else Some opc);
  Some (bool_decide (opc' = OPC_ASTORE) || bool_decide (opc' = OPC_ASTORE_0)
        || bool_decide (opc' = OPC_ASTORE_1) || bool_decide (opc' = OPC_ASTORE_2)
        || bool_decide (opc' = OPC_ASTORE_3)).
(** The assertion of the last branch fails. *)
Definition bc_get_astore_index (code : list Z) (p : Z) : option Z :=
  opc ← rd code p;
  if decide (opc = OPC_WIDE) then read_u16 code (p + 2)
  else if decide (opc = OPC_ASTORE) then read_u8 code (p + 1)
  else if decide (opc = OPC_ASTORE_0) then Some 0
  else if decide (opc = OPC_ASTORE_1) then Some 1
  else if decide (opc = OPC_ASTORE_2) then Some 2
  else if decide (opc = OPC_ASTORE_3) then Some 3
  else None.
Definition bc_get_ret_index (code : list Z) (p : Z) : option Z :=
  opc ← rd code p;
  if decide (opc = OPC_WIDE) then read_u16 code (p + 2) else read_u8 code (p + 1).

Definition get_local_var_index (code : list Z) (pc : Z) : option Z :=
  opc ← rd code pc;
  if decide (OPC_ILOAD_0 <= opc < OPC_LLOAD_0) then Some (opc - OPC_ILOAD_0)
  else if decide (OPC_LLOAD_0 <= opc < OPC_FLOAD_0) then Some (opc - OPC_LLOAD_0)
  else if decide (OPC_FLOAD_0 <= opc < OPC_DLOAD_0) then Some (opc - OPC_FLOAD_0)
  else if decide (OPC_DLOAD_0 <= opc < OPC_ALOAD_0) then Some (opc - OPC_DLOAD_0)
  else if decide (OPC_ALOAD_0 <= opc < OPC_IALOAD) then Some (opc - OPC_ALOAD_0)
  else if decide (OPC_ISTORE_0 <= opc < OPC_LSTORE_0) then Some (opc - OPC_ISTORE_0)
  else if decide (OPC_LSTORE_0 <= opc < OPC_FSTORE_0) then Some (opc - OPC_LSTORE_0)
  else if decide (OPC_FSTORE_0 <= opc < OPC_DSTORE_0) then Some (opc - OPC_FSTORE_0)
  else if decide (OPC_DSTORE_0 <= opc < OPC_ASTORE_0) then Some (opc - OPC_DSTORE_0)
  else if decide (OPC_ASTORE_0 <= opc < OPC_IASTORE) then Some (opc - OPC_ASTORE_0)
  else read_u8 code (pc + 1).

(** ** Branch targets *)

Definition bytecode_read_branch_target (opc : Z) (b : bytecode_buffer) : option (Z * bytecode_buffer) :=
  w ← bc_is_wide opc;
  if (w : bool) then bytecode_read_s32 b else bytecode_read_s16 b.

Definition bc_target_off (code : list Z) (p : Z) : option Z :=
  opc ← rd code p;
  w ← bc_is_wide opc;
  if (w : bool) then read_s32 code (p + 1) else read_s16 code (p + 1).

(** The failed assertions are [None]. *)
Definition bc_set_target_off (code : list Z) (p off : Z) : option (list Z) :=
  opc ← rd code p;
  w ← bc_is_wide opc;
  if (w : bool) then
    if decide (off <= 0x7ffffffe ∧ - 0x7fffffff <= off) then write_s32 code (p + 1) (s32 off) else None
  else
    if decide (off <= 0x7ffe ∧ - 0x7fff <= off) then write_s16 code (p + 1) (s16 off) else None.

(** ** Sizes of instructions *)

Definition get_tableswitch_padding (pc : Z) : Z := 3 - pc mod 4.

Record tableswitch_info := TableswitchInfo {
  ts_low : Z;
  ts_high : Z;
  ts_default_target : Z;
  ts_targets : Z;
  ts_count : Z;
  ts_insn_size : Z;
}.

Definition get_tableswitch_info (code : list Z) (pc : Z) : option tableswitch_info :=
  opc ← rd code pc;
  if decide (opc = OPC_TABLESWITCH) then
    let pad := get_tableswitch_padding pc in
    let pc := u64 (pc + pad + 1) in
    default_target ← read_u32 code pc;
    low ← read_u32 code (pc + 4);
    high ← read_u32 code (pc + 8);
    let count := u32 (high - low + 1) in
    Some (TableswitchInfo low high (s32 default_target) (pc + 12) count (u64 (1 + pad + u32 ((3 + count) * 4))))
  else None.

Record lookupswitch_info := LookupswitchInfo {
  ls_default_target : Z;
  ls_pairs : Z;
  ls_count : Z;
  ls_insn_size : Z;
}.

Definition get_lookupswitch_info (code : list Z) (pc : Z) : option lookupswitch_info :=
  opc ← rd code pc;
  if decide (opc = OPC_LOOKUPSWITCH) then
    let pad := get_tableswitch_padding pc in
    let pc := u64 (pc + pad + 1) in
    default_target ← read_u32 code pc;
    count ← read_u32 code (pc + 4);
    Some (LookupswitchInfo (s32 default_target) (pc + 8) count (u64 (1 + pad + 2 * 4 + u32 (count * 8))))
  else None.

Definition read_lookupswitch_target (code : list Z) (info : lookupswitch_info) (idx : Z) : option Z :=
  read_s32 code (ls_pairs info + u32 (idx * 8) + 4).
Definition read_lookupswitch_match (code : list Z) (info : lookupswitch_info) (idx : Z) : option Z :=
  read_s32 code (ls_pairs info + u32 (idx * 8)).

(** The program may end with a message. *)
Inductive outcome : Type :=
  | Returns (n : Z)
  | Exits.

Definition bc_insn_size (code : list Z) (pc : Z) : option outcome :=
  opc ← rd code pc;
  if decide (opc = OPC_WIDE) then
    opc1 ← rd code (pc + 1);
    Some (Returns (if decide (opc1 = OPC_IINC) then 6 else 4))
  else if decide (opc = OPC_TABLESWITCH) then
    info ← get_tableswitch_info code pc;
    Some (Returns (ts_insn_size info))
  else if decide (opc = OPC_LOOKUPSWITCH) then
    info ← get_lookupswitch_info code pc;
    Some (Returns (ls_insn_size info))
  else
    i ← bytecode_info_of opc;
    Some (if decide (bi_size i = 0) then Exits else Returns (bi_size i)).

Definition E_MALFORMED_BC : Z := -2.

(** Signed [int] arithmetic, undefined when it overflows. *)
Definition int (z : Z) : option Z := if decide (- 2 ^ 31 <= z < 2 ^ 31) then Some z else None.

(** The checks from the label [out] on. *)
Definition insn_size_out (pc code_size size : Z) : Z :=
  if decide (size < 0) then E_MALFORMED_BC
  else if decide (code_size < u64 (pc + size)) then E_MALFORMED_BC
  else size.

(** The branch for a tableswitch: [buf] is past the opcode. *)
Definition safe_tableswitch (buf : bytecode_buffer) (pc code_size : Z) : option Z :=
  let padding := get_tableswitch_padding pc in
  if decide (code_size <= u64 (pos buf + padding + 12)) then Some E_MALFORMED_BC else
  let buf := BytecodeBuffer (buffer buf) (u64 (pos buf + (padding + 4))) in
  '(low, buf) ← bytecode_read_s32 buf;
  '(high, buf) ← bytecode_read_s32 buf;
  if decide (high < low) then Some E_MALFORMED_BC else
  d ← int (high - low);
  n ← int (d + 1);
  m ← int (n * 4);
  size ← int (1 + padding + 12 + m);
  Some (insn_size_out pc code_size size).

Definition safe_lookupswitch (buf : bytecode_buffer) (pc code_size : Z) : option Z :=
  let padding := get_tableswitch_padding pc in
  if decide (code_size <= u64 (pos buf + padding + 8)) then Some E_MALFORMED_BC else
  let buf := BytecodeBuffer (buffer buf) (u64 (pos buf + (padding + 4))) in
  '(npairs, buf) ← bytecode_read_s32 buf;
  if decide (npairs < 0) then Some E_MALFORMED_BC else
  n ← int (npairs * 2);
  m ← int (n * 4);
  size ← int (1 + padding + 8 + m);
  Some (insn_size_out pc code_size size).

Definition bc_insn_size_safe (code : list Z) (pc code_size : Z) : option Z :=
  let buf := BytecodeBuffer code pc in
  if decide (code_size <= pc) then Some E_MALFORMED_BC else
  '(opc, buf) ← bytecode_read_u8 buf;
  if bc_is_invalid opc then Some E_MALFORMED_BC else
  i ← bytecode_info_of opc;
  if decide (bi_size i ≠ 0) then Some (insn_size_out pc code_size (bi_size i))
  else if decide (opc = OPC_TABLESWITCH) then safe_tableswitch buf pc code_size
  else if decide (opc = OPC_LOOKUPSWITCH) then safe_lookupswitch buf pc code_size
  else if decide (opc = OPC_WIDE) then
    if decide (code_size <= u64 (pos buf + 1)) then Some E_MALFORMED_BC else
    '(opc, buf) ← bytecode_read_u8 buf;
    Some (insn_size_out pc code_size (if decide (opc = OPC_IINC) then 6 else 4))
  else Some E_MALFORMED_BC.

(** [bytecode_for_each_insn] with the body of [bytecode_insn_count]. *)
Fixpoint count_from (fuel : nat) (code : list Z) (code_length pc count : Z) : option outcome :=
  match fuel with
  | O => None
  | S fuel' =>
    if decide (pc < code_length) then
      s ← bc_insn_size code pc;
      match s with
      | Returns n => count_from fuel' code code_length (u64 (pc + n)) (u64 (count + 1))
      | Exits => Some Exits
      end
    else Some (Returns count)
  end.
Definition bytecode_insn_count (code : list Z) (code_length : Z) : option outcome :=
  count_from (S (Z.to_nat code_length)) code code_length 0 0.

(** ** Fields *)

Lemma u16_shift b : is_u8 b → u16 (Z.shiftl b 8) = Z.shiftl b 8.
Proof. intros H. rewrite Z.shiftl_mul_pow2 by lia. apply u16_id. clia. Qed.
Lemma u32_shift b k : is_u8 b → 0 <= k <= 24 → u32 (Z.shiftl b k) = Z.shiftl b k.
Proof.
  intros H Hk. rewrite Z.shiftl_mul_pow2 by lia. apply u32_id. unfold is_u8, is_u32 in *.
  assert (2 ^ k <= 2 ^ 24) by (apply Z.pow_le_mono_r; lia). assert (0 < 2 ^ k) by (apply Z.pow_pos_nonneg; lia). nia.
Qed.

Lemma field16 b0 b1 : is_u8 b0 → is_u8 b1 → Z.lor (u16 (Z.shiftl b0 8)) b1 = b0 * 2 ^ 8 + b1.
Proof. intros H0 H1. rewrite u16_shift by done. apply lor_shiftl_add; [lia|done]. Qed.

Lemma field32 b0 b1 b2 b3 : is_u8 b0 → is_u8 b1 → is_u8 b2 → is_u8 b3 →
  Z.lor (Z.lor (Z.lor (u32 (Z.shiftl b0 24)) (u32 (Z.shiftl b1 16))) (u32 (Z.shiftl b2 8))) b3 =
  b0 * 2 ^ 24 + b1 * 2 ^ 16 + b2 * 2 ^ 8 + b3.
Proof.
  intros H0 H1 H2 H3. rewrite !u32_shift by (done || lia). unfold is_u8 in *.
  rewrite !(Z.shiftl_mul_pow2 b1), !(Z.shiftl_mul_pow2 b2) by lia.
  rewrite lor_shiftl_add by lia.
  replace (b0 * 2 ^ 24 + b1 * 2 ^ 16) with (Z.shiftl (b0 * 2 ^ 8 + b1) 16) by (rewrite Z.shiftl_mul_pow2; lia).
  rewrite lor_shiftl_add by lia.
  replace ((b0 * 2 ^ 8 + b1) * 2 ^ 16 + b2 * 2 ^ 8) with (Z.shiftl (b0 * 2 ^ 16 + b1 * 2 ^ 8 + b2) 8)
    by (rewrite Z.shiftl_mul_pow2; lia).
  rewrite lor_shiftl_add by lia. rewrite ?Z.shiftl_mul_pow2 by lia. lia.
Qed.

Lemma byte_land x : Z.land x 0xff = x mod 2 ^ 8.
Proof. change 0xff with (Z.ones 8). by apply Z.land_ones. Qed.

Section code.
Context (code : list Z).
Context (Hcode : Forall is_u8 code).

Lemma rd_byte p b : rd code p = Some b → is_u8 b ∧ 0 <= p < Z.of_nat (length code).
Proof.
  unfold rd. case_decide; [|done]. intros E. split.
  - by eapply Forall_lookup_1 in E.
  - apply lookup_lt_Some in E. lia.
Qed.
Lemma rd_in p : 0 <= p < Z.of_nat (length code) → ∃ b, rd code p = Some b ∧ is_u8 b.
Proof.
  intros Hp. unfold rd. rewrite decide_True by lia.
  destruct (lookup_lt_is_Some_2 code (Z.to_nat p)) as [b E]; [lia|]. exists b. split; [done|].
  by eapply Forall_lookup_1 in E.
Qed.

Lemma read_u32_in p : 0 <= p → p + 4 <= Z.of_nat (length code) → ∃ x, read_u32 code p = Some x ∧ is_u32 x.
Proof.
  intros H0 Hp. unfold read_u32, read_u8.
  destruct (rd_in (p + 0)) as (b0 & -> & ?); [lia|]. destruct (rd_in (p + 1)) as (b1 & -> & ?); [lia|].
  destruct (rd_in (p + 2)) as (b2 & -> & ?); [lia|]. destruct (rd_in (p + 3)) as (b3 & -> & ?); [lia|].
  cbn [mbind option_bind]. eexists. split; [done|]. rewrite field32 by done. clia.
Qed.

(** Reading through the buffer. *)
Lemma bytecode_read_u8_eq p b : rd code p = Some b → Z.of_nat (length code) < 2 ^ 63 →
  bytecode_read_u8 (BytecodeBuffer code p) = Some (b, BytecodeBuffer code (p + 1)).
Proof.
  intros E Hl. pose proof (rd_byte _ _ E). unfold bytecode_read_u8. cbn [buffer pos]. rewrite E.
  cbn [mbind option_bind]. by rewrite u64_id by clia.
Qed.

Lemma bytecode_read_u32_eq p : 0 <= p → p + 4 <= Z.of_nat (length code) → Z.of_nat (length code) < 2 ^ 63 →
  bytecode_read_u32 (BytecodeBuffer code p) =
  (x ← read_u32 code p; Some (x, BytecodeBuffer code (p + 4))).
Proof.
  intros H0 Hp Hl. unfold bytecode_read_u32, read_u32, read_u8.
  destruct (rd_in p) as (b0 & E0 & _); [lia|]. destruct (rd_in (p + 1)) as (b1 & E1 & _); [lia|].
  destruct (rd_in (p + 2)) as (b2 & E2 & _); [lia|]. destruct (rd_in (p + 3)) as (b3 & E3 & _); [lia|].
  rewrite Z.add_0_r, E0, E1, E2, E3. cbn [mbind option_bind].
  replace (p + 2) with (p + 1 + 1) in * by lia. replace (p + 3) with (p + 1 + 1 + 1) in * by lia.
  rewrite (bytecode_read_u8_eq _ _ E0 Hl). cbn [mbind option_bind].
  rewrite (bytecode_read_u8_eq _ _ E1 Hl). cbn [mbind option_bind].
  rewrite (bytecode_read_u8_eq _ _ E2 Hl). cbn [mbind option_bind].
  rewrite (bytecode_read_u8_eq _ _ E3 Hl). cbn [mbind option_bind].
  do 3 f_equal. lia.
Qed.

Lemma bytecode_read_s32_in p : 0 <= p → p + 4 <= Z.of_nat (length code) → Z.of_nat (length code) < 2 ^ 63 →
  ∃ x, read_u32 code p = Some x ∧ is_u32 x ∧
    bytecode_read_s32 (BytecodeBuffer code p) = Some (s32 x, BytecodeBuffer code (p + 4)).
Proof.
  intros H0 Hp Hl. destruct (read_u32_in p H0 Hp) as (x & E & Hx). exists x. split_and!; [done..|].
  unfold bytecode_read_s32. by rewrite bytecode_read_u32_eq, E by done.
Qed.

(** ** The length of an instruction *)

(** From the operands, with unbounded integers; [None] when there is no opcode, an
    operand is missing or it is not a legal one. *)
Definition insn_length (pc : Z) : option Z :=
  let pad := get_tableswitch_padding pc in
  opc ← rd code pc;
  if decide (opc = OPC_TABLESWITCH) then
    low ← read_s32 code (pc + 1 + pad + 4);
    high ← read_s32 code (pc + 1 + pad + 8);
    if decide (low <= high) then Some (1 + pad + 12 + 4 * (high - low + 1)) else None
  else if decide (opc = OPC_LOOKUPSWITCH) then
    npairs ← read_s32 code (pc + 1 + pad + 4);
    if decide (0 <= npairs) then Some (1 + pad + 8 + 8 * npairs) else None
  else if decide (opc = OPC_WIDE) then
    opc1 ← rd code (pc + 1);
    Some (if decide (opc1 = OPC_IINC) then 6 else 4)
  else
    i ← bytecode_info_of opc;
    if decide (bi_size i = 0) then None else Some (bi_size i).

(** The sizes of the table, and the opcodes without one. *)
Definition size_ok (n : nat) : bool :=
  let o := Z.of_nat n in
  match bytecode_info_of o with
  | Some i => bool_decide (0 <= bi_size i <= 5) &&
      eqb (bool_decide (bi_size i = 0))
        (bool_decide (o = OPC_TABLESWITCH ∨ o = OPC_LOOKUPSWITCH ∨ o = OPC_WIDE ∨ o = OPC_XXXUNUSEDXXX))
  | None => true
  end.
Lemma table_sizes opc i : bytecode_info_of opc = Some i → 0 <= opc →
  0 <= bi_size i <= 5 ∧
  (bi_size i = 0 ↔ opc = OPC_TABLESWITCH ∨ opc = OPC_LOOKUPSWITCH ∨ opc = OPC_WIDE ∨ opc = OPC_XXXUNUSEDXXX).
Proof.
  intros E H0. assert (forallb size_ok (seq 0 202) = true) as Hall by (by vm_compute).
  rewrite forallb_forall in Hall. specialize (Hall (Z.to_nat opc)).
  assert (size_ok (Z.to_nat opc) = true) as Hs.
  { apply Hall, in_seq. apply lookup_lt_Some in E. rewrite bytecode_infos_length in E. lia. }
  unfold size_ok in Hs. rewrite Z2Nat.id, E in Hs by done.
  apply andb_true_iff in Hs as [H1%bool_decide_eq_true_1 H2]. split; [done|].
  apply eqb_prop in H2. by rewrite <- (bool_decide_eq_true (bi_size i = 0)), H2, bool_decide_eq_true.
Qed.

Context (Hlen : Z.of_nat (length code) < 2 ^ 31).
#[local] Abbreviation code_size := (Z.of_nat (length code)).

(** What the checked size must be. *)
Definition safe_post (pc : Z) (res : option Z) : Prop :=
  match res with
  | Some r =>
    (r = E_MALFORMED_BC ∧
     ∀ k, insn_length pc = Some k → pc + k <= code_size →
       rd code pc = Some OPC_LOOKUPSWITCH ∧ k = 1 + get_tableswitch_padding pc + 8 ∧ pc + k = code_size) ∨
    (1 <= r ∧ insn_length pc = Some r ∧ pc + r <= code_size ∧ bc_insn_size code pc = Some (Returns r))
  | None => ∃ k, insn_length pc = Some k ∧ 2 ^ 31 <= k
  end.

(** An instruction whose size is known leaves the check of the end. *)
Lemma safe_post_out pc size : 0 <= pc < code_size → 1 <= size < 2 ^ 31 →
  insn_length pc = Some size → bc_insn_size code pc = Some (Returns size) →
  safe_post pc (Some (insn_size_out pc code_size size)).
Proof.
  intros Hpc Hs Hi Hb. unfold insn_size_out. rewrite decide_False by lia. rewrite u64_id by clia.
  case_decide; [left|right]; [|split_and!; (done || lia)]. split; [done|]. intros k Hk Hle.
  rewrite Hi in Hk. injection Hk as <-. lia.
Qed.

Lemma safe_post_no_insn pc : insn_length pc = None → safe_post pc (Some E_MALFORMED_BC).
Proof. intros E. left. split; [done|]. intros k. by rewrite E. Qed.

Lemma padding_range pc : 0 <= get_tableswitch_padding pc <= 3.
Proof. unfold get_tableswitch_padding. pose proof (Z.mod_pos_bound pc 4). lia. Qed.

Lemma int_id z : - 2 ^ 31 <= z < 2 ^ 31 → int z = Some z.
Proof. intros H. unfold int. by rewrite decide_True. Qed.
Lemma int_cases z : int z = Some z ∨ int z = None.
Proof. unfold int. case_decide; auto. Qed.
Lemma int_over z : 2 ^ 31 <= z → int z = None.
Proof. intros H. unfold int. by rewrite decide_False by lia. Qed.

Lemma s32_cases x : is_u32 x → (s32 x = x ∨ s32 x = x - 2 ^ 32) ∧ - 2 ^ 31 <= s32 x < 2 ^ 31.
Proof.
  intros H. split; [|apply (signed_range 32); lia]. unfold s32, signed. rewrite Z.mod_small by done. case_decide; auto.
Qed.

Lemma u32_diff xl xh D : is_u32 xl → is_u32 xh → s32 xh - s32 xl + 1 = D → 0 <= D < 2 ^ 32 →
  u32 (xh - xl + 1) = D.
Proof.
  intros Hl Hh HD Hr. destruct (s32_cases xl Hl) as [Cl _], (s32_cases xh Hh) as [Ch _]. unfold u32.
  symmetry. destruct Cl as [El|El], Ch as [Eh|Eh]; rewrite El, Eh in HD;
    [apply (Z.mod_unique _ _ 0)|apply (Z.mod_unique _ _ 1)|apply (Z.mod_unique _ _ (-1))|apply (Z.mod_unique _ _ 0)]; lia.
Qed.

Lemma s32_nonneg x : is_u32 x → 0 <= s32 x → s32 x = x.
Proof. intros Hx H. destruct (s32_cases x Hx) as [[?| ?] ?]; clia. Qed.

Lemma tableswitch_safe pc : 0 <= pc < code_size → rd code pc = Some OPC_TABLESWITCH →
  safe_post pc (safe_tableswitch (BytecodeBuffer code (pc + 1)) pc code_size).
Proof.
  intros Hpc E. unfold safe_tableswitch. cbn [pos buffer]. pose proof (padding_range pc) as Hpad.
  set (pad := get_tableswitch_padding pc) in *. rewrite !u64_id by clia.
  assert (insn_length pc = (low ← read_s32 code (pc + 1 + pad + 4); high ← read_s32 code (pc + 1 + pad + 8);
    if decide (low <= high) then Some (1 + pad + 12 + 4 * (high - low + 1)) else None)) as Hi
    by (unfold insn_length; by rewrite E).
  case_decide.
  { left. split; [done|]. intros k Hk Hle. rewrite Hi in Hk.
    destruct (read_s32 code (pc + 1 + pad + 4)) as [low|]; [|done]. cbn [mbind option_bind] in Hk.
    destruct (read_s32 code (pc + 1 + pad + 8)) as [high|]; [|done].
    cbn [mbind option_bind] in Hk. case_decide; [|done]. injection Hk as <-. lia. }
  replace (pc + 1 + (pad + 4)) with (pc + 1 + pad + 4) by lia.
  destruct (bytecode_read_s32_in (pc + 1 + pad + 4)) as (xl & El & Hl & ->); [lia..|].
  cbn [mbind option_bind]. replace (pc + 1 + pad + 4 + 4) with (pc + 1 + pad + 8) by lia.
  destruct (bytecode_read_s32_in (pc + 1 + pad + 8)) as (xh & Eh & Hh & ->); [lia..|].
  cbn [mbind option_bind]. unfold read_s32 in Hi. rewrite El, Eh in Hi. cbn [fmap option_fmap option_map mbind option_bind] in Hi.
  destruct (s32_cases xl Hl) as [_ Rl], (s32_cases xh Hh) as [_ Rh].
  destruct (decide (s32 xh < s32 xl)); [apply safe_post_no_insn; rewrite Hi; by rewrite decide_False by lia|].
  rewrite decide_True in Hi by lia. remember (s32 xh - s32 xl + 1) as D eqn:HD.
  destruct (decide (1 + pad + 12 + 4 * D < 2 ^ 31)) as [Hfit|Hover].
  - rewrite int_id by lia. cbn [mbind option_bind]. rewrite int_id by lia. cbn [mbind option_bind].
    rewrite int_id by lia. cbn [mbind option_bind]. rewrite int_id by lia. cbn [mbind option_bind].
    replace (1 + pad + 12 + (s32 xh - s32 xl + 1) * 4) with (1 + pad + 12 + 4 * D) by lia.
    apply safe_post_out; [done|lia|done|].
    unfold bc_insn_size. rewrite E. cbn [mbind option_bind]. rewrite decide_False, decide_True by done.
    unfold get_tableswitch_info. rewrite E. cbn [mbind option_bind]. rewrite decide_True by done.
    fold pad. rewrite (u64_id (pc + pad + 1)) by clia.
    destruct (read_u32_in (pc + pad + 1)) as (xd & -> & _); [lia..|]. cbn [mbind option_bind].
    replace (pc + pad + 1 + 4) with (pc + 1 + pad + 4) by lia. rewrite El. cbn [mbind option_bind].
    replace (pc + pad + 1 + 8) with (pc + 1 + pad + 8) by lia. rewrite Eh. cbn [mbind option_bind ts_insn_size].
    rewrite (u32_diff xl xh D) by (done || lia). rewrite u32_id by clia. rewrite u64_id by clia. do 2 f_equal. lia.
  - assert ((d ← int (s32 xh - s32 xl); n ← int (d + 1); m ← int (n * 4); size ← int (1 + pad + 12 + m);
      Some (insn_size_out pc code_size size)) = None) as ->; [|exists (1 + pad + 12 + 4 * D); split; [done|lia]].
    destruct (int_cases (s32 xh - s32 xl)) as [-> | ->]; [cbn [mbind option_bind]|done].
    rewrite <- HD. destruct (int_cases D) as [-> | ->]; [cbn [mbind option_bind]|done].
    destruct (int_cases (D * 4)) as [-> | ->]; [cbn [mbind option_bind]|done].
    rewrite int_over by lia. done.
Qed.

Lemma lookupswitch_safe pc : 0 <= pc < code_size → rd code pc = Some OPC_LOOKUPSWITCH →
  safe_post pc (safe_lookupswitch (BytecodeBuffer code (pc + 1)) pc code_size).
Proof.
  intros Hpc E. unfold safe_lookupswitch. cbn [pos buffer]. pose proof (padding_range pc) as Hpad.
  set (pad := get_tableswitch_padding pc) in *. rewrite !u64_id by clia.
  assert (insn_length pc = (npairs ← read_s32 code (pc + 1 + pad + 4);
    if decide (0 <= npairs) then Some (1 + pad + 8 + 8 * npairs) else None)) as Hi
    by (unfold insn_length; by rewrite E).
  case_decide.
  { left. split; [done|]. intros k Hk Hle. rewrite Hi in Hk. split; [done|]. fold pad.
    destruct (read_s32 code _) as [npairs|]; [|done].
    cbn [mbind option_bind] in Hk. case_decide; [|done]. injection Hk as <-. lia. }
  replace (pc + 1 + (pad + 4)) with (pc + 1 + pad + 4) by lia.
  destruct (bytecode_read_s32_in (pc + 1 + pad + 4)) as (x & Ex & Hx & ->); [lia..|].
  cbn [mbind option_bind]. unfold read_s32 in Hi. rewrite Ex in Hi.
  cbn [fmap option_fmap option_map mbind option_bind] in Hi. destruct (s32_cases x Hx) as [_ Rx].
  destruct (decide (s32 x < 0)); [apply safe_post_no_insn; rewrite Hi; by rewrite decide_False by lia|].
  rewrite decide_True in Hi by lia. assert (s32 x = x) as Es by (apply s32_nonneg; [done|lia]). rewrite Es in *.
  destruct (decide (1 + pad + 8 + 8 * x < 2 ^ 31)) as [Hfit|Hover].
  - rewrite int_id by lia. cbn [mbind option_bind]. rewrite int_id by lia. cbn [mbind option_bind].
    rewrite int_id by lia. cbn [mbind option_bind].
    replace (1 + pad + 8 + x * 2 * 4) with (1 + pad + 8 + 8 * x) by lia.
    apply safe_post_out; [done|lia|done|].
    unfold bc_insn_size. rewrite E. cbn [mbind option_bind]. rewrite 2!decide_False, decide_True by done.
    unfold get_lookupswitch_info. rewrite E. cbn [mbind option_bind]. rewrite decide_True by done.
    fold pad. rewrite (u64_id (pc + pad + 1)) by clia.
    destruct (read_u32_in (pc + pad + 1)) as (xd & -> & _); [lia..|]. cbn [mbind option_bind].
    replace (pc + pad + 1 + 4) with (pc + 1 + pad + 4) by lia. rewrite Ex. cbn [mbind option_bind ls_insn_size].
    rewrite u32_id by clia. rewrite u64_id by clia. do 2 f_equal. lia.
  - assert ((n ← int (x * 2); m ← int (n * 4); size ← int (1 + pad + 8 + m);
      Some (insn_size_out pc code_size size)) = None) as ->; [|exists (1 + pad + 8 + 8 * x); split; [done|lia]].
    destruct (int_cases (x * 2)) as [-> | ->]; [cbn [mbind option_bind]|done].
    destruct (int_cases (x * 2 * 4)) as [-> | ->]; [cbn [mbind option_bind]|done].
    rewrite int_over by lia. done.
Qed.

Lemma safe_size pc : 0 <= pc → safe_post pc (bc_insn_size_safe code pc code_size).
Proof.
  intros Hpc. unfold bc_insn_size_safe. case_decide as Hend.
  { apply safe_post_no_insn. unfold insn_length. destruct (rd code pc) eqn:E; [|done].
    apply rd_byte in E; lia. }
  destruct (rd_in pc) as (opc & E & Ho); [lia|].
  rewrite (bytecode_read_u8_eq _ _ E) by lia. cbn [mbind option_bind].
  destruct (bc_is_invalid opc) eqn:Einv.
  { apply safe_post_no_insn. unfold insn_length. rewrite E. cbn [mbind option_bind].
    unfold bc_is_invalid in Einv. rewrite !orb_true_iff, !bool_decide_eq_true in Einv.
    assert (OPC_BREAKPOINT <= opc ∨ opc = OPC_XXXUNUSEDXXX) as Ho' by (destruct Einv as [[?|?]|?]; auto).
    unfold OPC_BREAKPOINT, OPC_XXXUNUSEDXXX, OPC_TABLESWITCH, OPC_LOOKUPSWITCH, OPC_WIDE in *.
    rewrite !decide_False by lia. destruct Ho' as [Ho'| ->]; [|done].
    unfold bytecode_info_of. by rewrite lookup_ge_None_2 by (rewrite bytecode_infos_length; lia). }
  unfold bc_is_invalid in Einv. rewrite !orb_false_iff, !bool_decide_eq_false in Einv.
  destruct Einv as [[Hb Hu] _].
  destruct (bytecode_info_of opc) as [i|] eqn:Ei; cbn [mbind option_bind].
  2: { apply lookup_ge_None in Ei. rewrite bytecode_infos_length in Ei. unfold OPC_BREAKPOINT in Hb. clia. }
  destruct (table_sizes opc i Ei ltac:(clia)) as [Hs0 Hs]. case_decide as Hsz.
  - assert (opc ≠ OPC_TABLESWITCH ∧ opc ≠ OPC_LOOKUPSWITCH ∧ opc ≠ OPC_WIDE) as (H1 & H2 & H3) by tauto.
    apply safe_post_out; [lia|lia|..].
    + unfold insn_length. rewrite E. cbn [mbind option_bind]. rewrite !decide_False by done. by rewrite Ei; cbn; rewrite decide_False.
    + unfold bc_insn_size. rewrite E. cbn [mbind option_bind]. rewrite !decide_False by done. by rewrite Ei; cbn; rewrite decide_False.
  - case_decide; [subst opc; by apply tableswitch_safe; [lia|]|].
    case_decide; [subst opc; by apply lookupswitch_safe; [lia|]|].
    case_decide as Hw; [|exfalso; destruct Hs as [Hs _]; destruct Hs as [?|[?|[?|?]]]; [lia|done..]].
    subst opc. cbn [pos]. rewrite u64_id by clia.
    assert (insn_length pc = (opc1 ← rd code (pc + 1); Some (if decide (opc1 = OPC_IINC) then 6 else 4))) as Hi
      by (unfold insn_length; by rewrite E).
    case_decide.
    + left. split; [done|]. intros k Hk Hle. rewrite Hi in Hk. destruct (rd code (pc + 1)); [|done].
      cbn in Hk. injection Hk as <-. case_decide; lia.
    + destruct (rd_in (pc + 1)) as (o1 & E1 & _); [lia|].
      rewrite (bytecode_read_u8_eq _ _ E1) by lia. cbn [mbind option_bind].
      apply safe_post_out; [lia|case_decide; lia|by rewrite Hi, E1|].
      unfold bc_insn_size. rewrite E. cbn [mbind option_bind]. rewrite decide_True by done. by rewrite E1.
Qed.
End code.

(** ** Walking over code *)

(** The code from [pc] on is the instructions of these sizes, each accepted by the
    checked size. *)
Inductive insns (code : list Z) : Z → list Z → Prop :=
  | insns_end : insns code (Z.of_nat (length code)) []
  | insns_step pc n ns : bc_insn_size_safe code pc (Z.of_nat (length code)) = Some n → 0 <= n →
      insns code (pc + n) ns → insns code pc (n :: ns).

Lemma insns_within code pc ns : Forall is_u8 code → Z.of_nat (length code) < 2 ^ 31 →
  0 <= pc → insns code pc ns →
  pc + Z.of_nat (length ns) <= Z.of_nat (length code) ∧
  ∀ fuel count, (length ns < fuel)%nat → 0 <= count → count + Z.of_nat (length ns) < 2 ^ 64 →
    count_from fuel code (Z.of_nat (length code)) pc count = Some (Returns (count + Z.of_nat (length ns))).
Proof.
  intros Hc Hl Hpc Hi. induction Hi as [|pc n ns Hn Hn0 Hi IH].
  - split; [cbn; lia|]. intros [|fuel] count Hf Hc0 Hcn; [cbn in Hf; lia|]. cbn [count_from length].
    rewrite decide_False by lia. do 2 f_equal. lia.
  - pose proof (safe_size code Hc Hl pc Hpc) as Hp. rewrite Hn in Hp. cbn in Hp.
    destruct Hp as [[-> _]|(Hn1 & _ & Hle & Hsz)]; [by destruct (Hn0 eq_refl)|].
    destruct IH as [IHl IHc]; [lia|]. cbn [length]. split; [lia|].
    intros [|fuel] count Hf Hc0 Hcn; [lia|]. cbn [count_from]. rewrite decide_True by lia.
    rewrite Hsz. cbn [mbind option_bind]. rewrite !u64_id by clia. rewrite IHc by lia. do 2 f_equal. lia.
Qed.

(** ** Writing fields *)

Lemma write_u8_in code p v : 0 <= p < Z.of_nat (length code) → write_u8 code p v = Some (<[Z.to_nat p := v]> code).
Proof. intros H. unfold write_u8. by rewrite decide_True. Qed.

Lemma rd_insert code p q v : 0 <= p < Z.of_nat (length code) →
  rd (<[Z.to_nat p := v]> code) q = if decide (q = p) then Some v else rd code q.
Proof.
  intros Hp. unfold rd. destruct (decide (0 <= q)) as [Hq|Hq].
  - case_decide as E; [subst q; by rewrite list_lookup_insert_eq by lia|].
    by rewrite list_lookup_insert_ne by lia.
  - by rewrite decide_False by lia.
Qed.

(** A field written at [p] and what it leaves. *)
Definition wrote (code code' : list Z) (p : Z) (bytes : list Z) : Prop :=
  length code' = length code ∧
  ∀ q, rd code' q = if decide (p <= q < p + Z.of_nat (length bytes)) then rd bytes (q - p) else rd code q.

Lemma write_u16_wrote code p v : is_u16 v → 0 <= p → p + 2 <= Z.of_nat (length code) →
  ∃ code', write_u16 code p v = Some code' ∧ wrote code code' p (be16 v).
Proof.
  intros Hv H0 Hp. unfold write_u16. rewrite write_u8_in by lia. cbn [mbind option_bind].
  rewrite write_u8_in by (rewrite length_insert; lia). eexists. split; [done|].
  split; [by rewrite !length_insert|]. intros q. rewrite !byte_land, !Z.shiftr_div_pow2 by lia.
  change (length (be16 v)) with 2%nat. rewrite !rd_insert by (rewrite ?length_insert; lia).
  destruct (decide (q = p + 1)) as [->|]; [|destruct (decide (q = p + 0)) as [->|]].
  - rewrite decide_True by lia. by replace (p + 1 - p) with 1 by lia.
  - rewrite decide_True by lia. replace (p + 0 - p) with 0 by lia. change (rd (be16 v) 0) with (Some (v / 2 ^ 8)).
    f_equal. apply Z.mod_small. unfold is_u16 in Hv. split; [apply Z.div_pos; lia|apply Z.div_lt_upper_bound; lia].
  - by rewrite decide_False by lia.
Qed.

Lemma write_u32_wrote code p v : is_u32 v → 0 <= p → p + 4 <= Z.of_nat (length code) →
  ∃ code', write_u32 code p v = Some code' ∧ wrote code code' p (be32 v).
Proof.
  intros Hv H0 Hp. unfold write_u32. rewrite write_u8_in by lia. cbn [mbind option_bind].
  rewrite write_u8_in by (rewrite length_insert; lia). cbn [mbind option_bind].
  rewrite write_u8_in by (rewrite !length_insert; lia). cbn [mbind option_bind].
  rewrite write_u8_in by (rewrite !length_insert; lia). eexists. split; [done|].
  split; [by rewrite !length_insert|]. intros q. rewrite !byte_land, !Z.shiftr_div_pow2 by lia.
  change (length (be32 v)) with 4%nat. rewrite !rd_insert by (rewrite ?length_insert; lia).
  destruct (decide (q = p + 3)) as [->|]; [|destruct (decide (q = p + 2)) as [->|];
    [|destruct (decide (q = p + 1)) as [->|]; [|destruct (decide (q = p + 0)) as [->|]]]].
  - rewrite decide_True by lia. by replace (p + 3 - p) with 3 by lia.
  - rewrite decide_True by lia. by replace (p + 2 - p) with 2 by lia.
  - rewrite decide_True by lia. by replace (p + 1 - p) with 1 by lia.
  - rewrite decide_True by lia. replace (p + 0 - p) with 0 by lia. change (rd (be32 v) 0) with (Some (v / 2 ^ 24)).
    f_equal. apply Z.mod_small. unfold is_u32 in Hv. split; [apply Z.div_pos; lia|apply Z.div_lt_upper_bound; lia].
  - by rewrite decide_False by lia.
Qed.

Lemma read_u16_wrote code code' p v : is_u16 v → wrote code code' p (be16 v) → read_u16 code' p = Some v.
Proof.
  intros Hv [_ Hw]. unfold read_u16, read_u8. rewrite !Hw. change (length (be16 v)) with 2%nat.
  rewrite 2!decide_True by lia. replace (p + 0 - p) with 0 by lia. replace (p + 1 - p) with 1 by lia.
  change (rd (be16 v) 0) with (Some (v / 2 ^ 8)). change (rd (be16 v) 1) with (Some (v mod 2 ^ 8)).
  cbn [mbind option_bind]. pose proof (be16_bytes v Hv) as Hb. unfold be16 in Hb. decompose_Forall.
  rewrite field16 by done. by rewrite be16_value.
Qed.

Lemma read_u32_wrote code code' p v : is_u32 v → wrote code code' p (be32 v) → read_u32 code' p = Some v.
Proof.
  intros Hv [_ Hw]. unfold read_u32, read_u8. rewrite !Hw. change (length (be32 v)) with 4%nat.
  rewrite 4!decide_True by lia. replace (p + 0 - p) with 0 by lia. replace (p + 1 - p) with 1 by lia.
  replace (p + 2 - p) with 2 by lia. replace (p + 3 - p) with 3 by lia.
  change (rd (be32 v) 0) with (Some (v / 2 ^ 24)). change (rd (be32 v) 1) with (Some ((v / 2 ^ 16) mod 2 ^ 8)).
  change (rd (be32 v) 2) with (Some ((v / 2 ^ 8) mod 2 ^ 8)). change (rd (be32 v) 3) with (Some (v mod 2 ^ 8)).
  cbn [mbind option_bind]. pose proof (be32_bytes v Hv) as Hb. unfold be32 in Hb. decompose_Forall.
  rewrite field32 by done. by rewrite be32_value.
Qed.

(** The operand of a branch. *)
Definition target_width (w : bool) : Z := if w then 4 else 2.
Definition target_range (w : bool) (off : Z) : Prop :=
  if w then - 0x7fffffff <= off <= 0x7ffffffe else - 0x7fff <= off <= 0x7ffe.

(** ** Properties *)

(** C27: The checked size of an instruction.  It is the length of the instruction, at
    least one byte and within the code, and then the unchecked size is the same and
    reads only code; or it is the error, and then there is no complete instruction
    there, except that a lookupswitch without pairs that ends the code is refused.
    The computation overflows only on a switch of 2^31 bytes or more. *)
Theorem bc_insn_size_safe_correct (code : list Z) (pc : Z) :
  Forall is_u8 code → Z.of_nat (length code) < 2 ^ 31 → 0 <= pc →
  match bc_insn_size_safe code pc (Z.of_nat (length code)) with
  | Some r =>
    (r = E_MALFORMED_BC ∧
     ∀ k, insn_length code pc = Some k → pc + k <= Z.of_nat (length code) →
       rd code pc = Some OPC_LOOKUPSWITCH ∧ k = 1 + get_tableswitch_padding pc + 8 ∧
       pc + k = Z.of_nat (length code)) ∨
    (1 <= r ∧ insn_length code pc = Some r ∧ pc + r <= Z.of_nat (length code) ∧
     bc_insn_size code pc = Some (Returns r))
  | None => ∃ k, insn_length code pc = Some k ∧ 2 ^ 31 <= k
  end.
Proof. intros Hc Hl Hpc. exact (safe_size code Hc Hl pc Hpc). Qed.

(** Code that the checked size walks through to its end is walked through by the
    unchecked loop over its instructions: the loop ends, reads only code, never
    meets an unknown opcode and counts the same instructions. *)
Theorem bytecode_insn_count_correct (code : list Z) (ns : list Z) :
  Forall is_u8 code → Z.of_nat (length code) < 2 ^ 31 → insns code 0 ns →
  bytecode_insn_count code (Z.of_nat (length code)) = Some (Returns (Z.of_nat (length ns))).
Proof.
  intros Hc Hl Hi. destruct (insns_within code 0 ns Hc Hl ltac:(lia) Hi) as [Hle Hcount].
  unfold bytecode_insn_count. rewrite Hcount by lia. done.
Qed.

(** Setting the target offset of a branch and reading it back gives the offset; the
    opcode and every byte outside the operand stay. *)
Theorem bc_target_off_roundtrip (code : list Z) (p off opc : Z) (w : bool) :
  rd code p = Some opc → bc_is_wide opc = Some w → target_range w off →
  p + 1 + target_width w <= Z.of_nat (length code) →
  ∃ code', bc_set_target_off code p off = Some code' ∧ bc_target_off code' p = Some off ∧
    length code' = length code ∧
    ∀ q, ¬ (p + 1 <= q < p + 1 + target_width w) → rd code' q = rd code q.
Proof.
  intros Ho Hw Hoff Hlen. unfold bc_set_target_off, bc_target_off. rewrite Ho. cbn [mbind option_bind].
  rewrite Hw. cbn [mbind option_bind].
  assert (0 <= p) by (revert Ho; unfold rd; by case_decide).
  destruct w; cbn in Hoff, Hlen |- *.
  - rewrite decide_True by lia. unfold write_s32, s32. rewrite signed_id by (cbn; lia).
    destruct (write_u32_wrote code (p + 1) (u32 off)) as (code' & -> & Hwr); [apply u32_range|lia|lia|].
    exists code'. split; [done|]. pose proof Hwr as [Hl Hq]. split_and!; [|done|].
    + rewrite Hq, decide_False, Ho by lia. cbn [mbind option_bind]. rewrite Hw. cbn [mbind option_bind].
      unfold read_s32. rewrite (read_u32_wrote code code' (p + 1) (u32 off)) by (done || apply u32_range).
      cbn. f_equal. unfold s32, u32. rewrite <- (signed_id 32 off) at 2 by (cbn; lia).
      unfold signed. by rewrite Z.mod_mod by lia.
    + intros q Hout. rewrite Hq. change (length (be32 (u32 off))) with 4%nat. by rewrite decide_False by lia.
  - rewrite decide_True by lia. unfold write_s16, s16. rewrite signed_id by (cbn; lia).
    destruct (write_u16_wrote code (p + 1) (u16 off)) as (code' & -> & Hwr); [apply u16_range|lia|lia|].
    exists code'. split; [done|]. pose proof Hwr as [Hl Hq]. split_and!; [|done|].
    + rewrite Hq, decide_False, Ho by lia. cbn [mbind option_bind]. rewrite Hw. cbn [mbind option_bind].
      unfold read_s16. rewrite (read_u16_wrote code code' (p + 1) (u16 off)) by (done || apply u16_range).
      cbn. f_equal. unfold s16, u16. rewrite <- (signed_id 16 off) at 2 by (cbn; lia).
      unfold signed. by rewrite Z.mod_mod by lia.
    + intros q Hout. rewrite Hq. change (length (be16 (u16 off))) with 2%nat. by rewrite decide_False by lia.
Qed.

(** ** Examples *)

(** iconst_0; ifeq +3; wide iinc 1 2; return *)
Definition code0 : list Z := [0x03; 0x99; 0; 3; 0xc4; 0x84; 0; 1; 0; 2; 0xb1].

Lemma bc_insn_size_safe_correct_witness : bc_insn_size code0 4 = Some (Returns 6).
Proof.
  pose proof (bc_insn_size_safe_correct code0 4 ltac:(by repeat constructor) ltac:(by vm_compute) ltac:(lia)) as H.
  change (bc_insn_size_safe code0 4 (Z.of_nat (length code0))) with (Some 6) in H. cbv beta iota in H.
  destruct H as [[H _]|(_ & _ & _ & H)]; [discriminate H|exact H].
Defined.

Lemma bytecode_insn_count_correct_witness :
  insns code0 0 [1; 3; 6; 1] ∧ bytecode_insn_count code0 (Z.of_nat (length code0)) = Some (Returns 4).
Proof.
  assert (insns code0 0 [1; 3; 6; 1]) as Hi.
  { do 4 (eapply insns_step; [reflexivity|lia|]). exact (insns_end code0). }
  split; [exact Hi|].
  exact (bytecode_insn_count_correct code0 _ ltac:(by repeat constructor) ltac:(by vm_compute) Hi).
Defined.

Lemma bc_target_off_roundtrip_witness :
  ∃ code', bc_set_target_off code0 1 (-1) = Some code' ∧ bc_target_off code' 1 = Some (-1).
Proof.
  destruct (bc_target_off_roundtrip code0 1 (-1) 0x99 false ltac:(reflexivity) ltac:(reflexivity)
    ltac:(cbn; lia) ltac:(cbn; lia)) as (code' & H1 & H2 & _).
  exists code'. split; [exact H1|exact H2].
Defined.

(** A tableswitch from 0 to 2^30 - 1: the size of the instruction overflows. *)
Lemma tableswitch_size_overflows :
  let code := [0xaa; 0; 0; 0; 0; 0; 0; 0; 0; 0; 0; 0; 0x3f; 0xff; 0xff; 0xff; 0; 0; 0; 0] in
  bc_insn_size_safe code 0 (Z.of_nat (length code)) = None.
Proof. reflexivity. Qed.

(** A lookupswitch without pairs at the end of the code is complete and refused. *)
Lemma lookupswitch_end_refused :
  let code := [0xab; 0; 0; 0; 0; 0; 0; 0; 0; 0; 0; 0] in
  insn_length code 0 = Some (Z.of_nat (length code)) ∧
  bc_insn_size_safe code 0 (Z.of_nat (length code)) = Some E_MALFORMED_BC.
Proof. split; reflexivity. Qed.

(** goto_w never goes to the next instruction, and is said to. *)
Lemma goto_w_branches_to_follower :
  bc_branches_to_follower OPC_GOTO = Some false ∧ bc_branches_to_follower OPC_GOTO_W = Some true ∧
  bc_is_unconditionnal_branch [OPC_GOTO; 0; 0] 0 = Some true ∧
  bc_is_unconditionnal_branch [OPC_GOTO_W; 0; 0; 0; 0] 0 = Some false.
Proof. split_and!; reflexivity. Qed.
