(* ===== verification/JavaCode.v ===== *)
(** * Instructions of the Java virtual machine

    What the specification of the Java virtual machine (chapter 6, and 4.9 for valid
    code) says of single instructions, from the numbers of the opcodes and the bytes of
    the operands: where control goes ([kind_at], [nth_target]), which variable
    ([local_var]) and which constant ([constant_at]) is used.  Nothing here is a
    definition of vm/bytecode.c; the lemmas at the end compare the two. *)

From S2P Require Import Prelude Opcodes Bytecode.
#[local] Open Scope Z_scope.

(** ** Operands *)

(** Big-endian numbers; the first byte carries the sign. *)
Definition signed_byte (b : Z) : Z := if decide (b < 128) then b else b - 256.

Section code.
Context (code : list Z).

Definition u16_at (p : Z) : option Z :=
  a ← rd code p; b ← rd code (p + 1); Some (a * 256 + b).
Definition s16_at (p : Z) : option Z :=
  a ← rd code p; b ← rd code (p + 1); Some (signed_byte a * 256 + b).
Definition s32_at (p : Z) : option Z :=
  a ← rd code p; b ← rd code (p + 1); c ← rd code (p + 2); d ← rd code (p + 3);
  Some (signed_byte a * 2 ^ 24 + b * 2 ^ 16 + c * 2 ^ 8 + d).

(** The operands of a switch begin at the next multiple of four. *)
Definition aligned (pc : Z) : Z := 4 * (pc / 4 + 1).

(** ** Control *)

Inductive flow_kind : Type :=
  | Plain           (* goes on to the next instruction *)
  | Conditional     (* to the target or to the next instruction *)
  | Goto            (* to the target *)
  | Jsr             (* to the target, a subroutine *)
  | Ret             (* to a return address in a variable *)
  | Tableswitch
  | Lookupswitch
  | Return
  | Throw.
#[export] Instance flow_kind_eq_dec : EqDecision flow_kind.
Proof. solve_decision. Defined.

Definition kind_of (opc : Z) : flow_kind :=
  if decide (0x99 <= opc <= 0xa6 ∨ 0xc6 <= opc <= 0xc7) then Conditional
  else if decide (opc = 0xa7 ∨ opc = 0xc8) then Goto
  else if decide (opc = 0xa8 ∨ opc = 0xc9) then Jsr
  else if decide (opc = 0xa9) then Ret
  else if decide (opc = 0xaa) then Tableswitch
  else if decide (opc = 0xab) then Lookupswitch
  else if decide (0xac <= opc <= 0xb1) then Return
  else if decide (opc = 0xbf) then Throw
  else Plain.
(** With the prefix [wide], 0xc4, [ret] is still [ret]. *)
Definition kind_at (pc : Z) : option flow_kind :=
  opc ← rd code pc;
  Some (if decide (opc = 0xc4 ∧ rd code (pc + 1) = Some 0xa9) then Ret else kind_of opc).

(** The instructions after which control can be at the next one. *)
Definition goes_on (k : flow_kind) : bool :=
  match k with Plain | Conditional => true | _ => false end.

(** The offset of a branch that is not a switch; [goto_w] and [jsr_w] have four bytes. *)
Definition branch_offset (pc opc : Z) : option Z :=
  if decide (opc = 0xc8 ∨ opc = 0xc9) then s32_at (pc + 1) else s16_at (pc + 1).
Definition branch_target (pc : Z) : option Z :=
  opc ← rd code pc;
  match kind_of opc with
  | Conditional | Goto | Jsr => off ← branch_offset pc opc; Some (pc + off)
  | _ => None
  end.

(** The bounds of a tableswitch. *)
Definition table_bounds (pc : Z) : option (Z * Z) :=
  low ← s32_at (aligned pc + 4); high ← s32_at (aligned pc + 8); Some (low, high).

(** The targets of an instruction by number: of a switch 0 is the default, then come the
    entries of the table from 1 on. *)
Definition nth_target (pc k : Z) : option Z :=
  opc ← rd code pc;
  match kind_of opc with
  | Conditional | Goto | Jsr => if decide (k = 0) then branch_target pc else None
  | Tableswitch =>
    '(low, high) ← table_bounds pc;
    off ← (if decide (k = 0) then s32_at (aligned pc)
           else if decide (1 <= k <= high - low + 1) then s32_at (aligned pc + 12 + 4 * (k - 1)) else None);
    Some (pc + off)
  | Lookupswitch =>
    npairs ← s32_at (aligned pc + 4);
    off ← (if decide (k = 0) then s32_at (aligned pc)
           else if decide (1 <= k <= npairs) then s32_at (aligned pc + 8 + 8 * (k - 1) + 4) else None);
    Some (pc + off)
  | _ => None
  end.
Definition jumps_to (pc t : Z) : Prop := ∃ k, nth_target pc k = Some t.

(** ** Variables and constants *)

(** The index of the local variable: a byte, two with [wide], or in the opcode. *)
Definition local_var (pc : Z) : option Z :=
  opc ← rd code pc;
  if decide (0x15 <= opc <= 0x19 ∨ 0x36 <= opc <= 0x3a ∨ opc = 0x84 ∨ opc = 0xa9) then rd code (pc + 1)
  else if decide (0x1a <= opc <= 0x2d) then Some ((opc - 0x1a) mod 4)
  else if decide (0x3b <= opc <= 0x4e) then Some ((opc - 0x3b) mod 4)
  else if decide (opc = 0xc4) then u16_at (pc + 2)
  else None.

(** The index of the constant and the tags it may have: an integer 3, a float 4, a
    string 8 or a class 7, and for [ldc2_w] a long 5 or a double 6. *)
Definition constant_at (pc : Z) : option (Z * list Z) :=
  opc ← rd code pc;
  if decide (opc = 0x12) then i ← rd code (pc + 1); Some (i, [3; 4; 8; 7])
  else if decide (opc = 0x13) then i ← u16_at (pc + 1); Some (i, [3; 4; 8; 7])
  else if decide (opc = 0x14) then i ← u16_at (pc + 1); Some (i, [5; 6])
  else None.

(** ** The definitions of vm/bytecode.c *)

Context (Hcode : Forall is_u8 code).

Lemma read_u16_at p : read_u16 code p = u16_at p.
Proof using Hcode.
  unfold read_u16, u16_at, read_u8. rewrite Z.add_0_r. destruct (rd code p) as [a|] eqn:Ea; [|done].
  destruct (rd code (p + 1)) as [b|] eqn:Eb; [|done]. cbn. f_equal.
  apply field16; by eapply (rd_byte code Hcode).
Qed.
Lemma read_s16_at p : read_s16 code p = s16_at p.
Proof using Hcode.
  unfold read_s16, read_u16, s16_at, read_u8. rewrite Z.add_0_r. destruct (rd code p) as [a|] eqn:Ea; [|done].
  destruct (rd code (p + 1)) as [b|] eqn:Eb; [|done]. cbn [mbind option_bind fmap option_fmap option_map]. f_equal.
  destruct (rd_byte code Hcode _ _ Ea) as [Ha _], (rd_byte code Hcode _ _ Eb) as [Hb _]. rewrite field16 by done.
  unfold s16, signed. rewrite Z.mod_small by clia. unfold signed_byte. repeat case_decide; clia.
Qed.
Lemma read_s32_at p : read_s32 code p = s32_at p.
Proof using Hcode.
  unfold read_s32, read_u32, s32_at, read_u8. rewrite Z.add_0_r. destruct (rd code p) as [a|] eqn:Ea; [|done].
  destruct (rd code (p + 1)) as [b|] eqn:Eb; [|done]. destruct (rd code (p + 2)) as [c|] eqn:Ec; [|done].
  destruct (rd code (p + 3)) as [d|] eqn:Ed; [|done]. cbn [mbind option_bind fmap option_fmap option_map]. f_equal.
  destruct (rd_byte code Hcode _ _ Ea) as [Ha _], (rd_byte code Hcode _ _ Eb) as [Hb _].
  destruct (rd_byte code Hcode _ _ Ec) as [Hc _], (rd_byte code Hcode _ _ Ed) as [Hd _]. rewrite field32 by done.
  unfold s32, signed. rewrite Z.mod_small by clia. unfold signed_byte. repeat case_decide; clia.
Qed.

Lemma aligned_padding pc : aligned pc = pc + 1 + get_tableswitch_padding pc.
Proof using. unfold aligned, get_tableswitch_padding. pose proof (Z.div_mod pc 4). lia. Qed.
End code.

(** The flags of the table against the numbers. *)
Definition is_branch (k : flow_kind) : bool :=
  match k with Conditional | Goto | Jsr | Tableswitch | Lookupswitch => true | _ => false end.
Definition kind_facts (n : nat) : bool :=
  let o := Z.of_nat n in
  match bytecode_info_of o with
  | None => true
  | Some _ =>
    bool_decide (bc_is_branch o = Some (is_branch (kind_of o))) &&
    bool_decide (bc_is_return o = Some (bool_decide (kind_of o = Return))) &&
    bool_decide (bc_is_athrow o = bool_decide (kind_of o = Throw)) &&
    implb (is_branch (kind_of o)) (bool_decide (bc_is_wide o = Some (bool_decide (o = 0xc8 ∨ o = 0xc9)))) &&
    bool_decide (bc_uses_local_var o = Some (bool_decide (0x15 <= o <= 0x2d ∨ 0x36 <= o <= 0x4e)))
  end.
Lemma opcode_flags opc i : 0 <= opc → bytecode_info_of opc = Some i →
  bc_is_branch opc = Some (is_branch (kind_of opc)) ∧
  bc_is_return opc = Some (bool_decide (kind_of opc = Return)) ∧
  bc_is_athrow opc = bool_decide (kind_of opc = Throw) ∧
  (is_branch (kind_of opc) = true → bc_is_wide opc = Some (bool_decide (opc = 0xc8 ∨ opc = 0xc9))) ∧
  bc_uses_local_var opc = Some (bool_decide (0x15 <= opc <= 0x2d ∨ 0x36 <= opc <= 0x4e)).
Proof.
  intros H0 E. assert (forallb kind_facts (seq 0 202) = true) as Hall by (by vm_compute).
  rewrite forallb_forall in Hall. specialize (Hall (Z.to_nat opc)). rewrite in_seq in Hall.
  pose proof (lookup_lt_Some _ _ _ E) as Hl. rewrite bytecode_infos_length in Hl. specialize (Hall ltac:(lia)).
  unfold kind_facts in Hall. rewrite Z2Nat.id, E, !andb_true_iff, !bool_decide_eq_true, implb_true_iff in Hall by done.
  destruct Hall as [[[[? ?] ?] Hw] ?]. split_and!; try done. intros Hb. exact (bool_decide_eq_true_1 _ (Hw Hb)).
Qed.

Lemma kind_table opc : kind_of opc = Tableswitch ↔ opc = OPC_TABLESWITCH.
Proof. unfold kind_of, OPC_TABLESWITCH. repeat case_decide; split; intros; try done; lia. Qed.
Lemma kind_lookup opc : kind_of opc = Lookupswitch ↔ opc = OPC_LOOKUPSWITCH.
Proof. unfold kind_of, OPC_LOOKUPSWITCH. repeat case_decide; split; intros; try done; lia. Qed.

(** A complete instruction has its operands. *)
Section complete.
Context (code : list Z) (Hcode : Forall is_u8 code).
#[local] Abbreviation len := (Z.of_nat (length code)).

Lemma s32_at_in p : 0 <= p → p + 4 <= len → ∃ x, s32_at code p = Some x.
Proof using Hcode.
  intros H0 Hp. destruct (read_u32_in code Hcode p H0 Hp) as (x & E & _). exists (s32 x).
  rewrite <- read_s32_at by done. unfold read_s32. by rewrite E.
Qed.
Lemma u16_at_in p : 0 <= p → p + 2 <= len → ∃ x, u16_at code p = Some x.
Proof using Hcode.
  intros H0 Hp. unfold u16_at. destruct (rd_in code Hcode p) as (a & -> & _); [lia|].
  destruct (rd_in code Hcode (p + 1)) as (b & -> & _); [lia|]. cbn. eauto.
Qed.
Lemma s16_at_in p : 0 <= p → p + 2 <= len → ∃ x, s16_at code p = Some x.
Proof using Hcode.
  intros H0 Hp. unfold s16_at. destruct (rd_in code Hcode p) as (a & -> & _); [lia|].
  destruct (rd_in code Hcode (p + 1)) as (b & -> & _); [lia|]. cbn. eauto.
Qed.
End complete.

(** ** The targets as a list *)

(** [n] targets that are [step] bytes apart, relative to [base]. *)
Fixpoint targets_at (code : list Z) (base pc step : Z) (n : nat) : option (list Z) :=
  match n with
  | O => Some []
  | S n' =>
    off ← read_s32 code pc;
    ts ← targets_at code base (pc + step) step n';
    Some (base + off :: ts)
  end.

(** The targets of a branch without the last [d] of a tableswitch. *)
Definition targets_without (d : Z) (code : list Z) (pc : Z) : option (list Z) :=
  opc ← rd code pc;
  branch ← bc_is_branch opc;
  if (branch : bool) then
    let p := pc + 1 + get_tableswitch_padding pc in
    if decide (opc = OPC_TABLESWITCH) then
      def ← read_s32 code p;
      low ← read_s32 code (p + 4);
      high ← read_s32 code (p + 8);
      ts ← targets_at code pc (p + 12) 4 (Z.to_nat (high - low + 1 - d));
      Some (pc + def :: ts)
    else if decide (opc = OPC_LOOKUPSWITCH) then
      def ← read_s32 code p;
      npairs ← read_s32 code (p + 4);
      ts ← targets_at code pc (p + 8 + 4) 8 (Z.to_nat npairs);
      Some (pc + def :: ts)
    else off ← bc_target_off code pc; Some [pc + off]
  else Some [].

(** The last entry of the table of a tableswitch. *)
Definition last_entry (code : list Z) (pc k : Z) : Prop :=
  rd code pc = Some 0xaa ∧ ∃ low high, table_bounds code pc = Some (low, high) ∧ k = high - low + 1.

Section targets.
Context (code : list Z) (Hcode : Forall is_u8 code).
#[local] Abbreviation len := (Z.of_nat (length code)).

Lemma targets_at_spec base step : 4 <= step → ∀ n p, 0 <= p → (n ≠ 0%nat → p + step * (Z.of_nat n - 1) + 4 <= len) →
  ∃ ts, targets_at code base p step n = Some ts ∧
    ∀ t, t ∈ ts ↔ ∃ i off, 0 <= i < Z.of_nat n ∧ s32_at code (p + step * i) = Some off ∧ t = base + off.
Proof using Hcode.
  intros Hs. induction n as [|n IH]; intros p Hp Hin; cbn [targets_at].
  { exists []. split; [done|]. intros t. rewrite elem_of_nil. split; [done|]. intros (i & ? & ? & _). lia. }
  destruct (s32_at_in code Hcode p) as [x Ex]; [done|nia|]. rewrite read_s32_at, Ex by done.
  destruct (IH (p + step)) as (ts & -> & Hts); [lia|intros; nia|]. cbn [mbind option_bind]. eexists. split; [done|].
  intros t. rewrite elem_of_cons, Hts. split.
  - intros [->|(i & off & Hi & E & ->)].
    + exists 0, x. split_and!; [lia..| |done]. by rewrite Z.mul_0_r, Z.add_0_r.
    + exists (i + 1), off. split_and!; [lia..| |done]. by replace (p + step * (i + 1)) with (p + step + step * i) by lia.
  - intros (i & off & Hi & E & ->). destruct (decide (i = 0)) as [->|].
    + left. rewrite Z.mul_0_r, Z.add_0_r in E. congruence.
    + right. exists (i - 1), off. split_and!; [lia..| |done]. by replace (p + step + step * (i - 1)) with (p + step * i) by lia.
Qed.

Context (pc : Z) (Hpc : 0 <= pc) (n : Z) (Hn : insn_length code pc = Some n) (Hend : pc + n <= len).

Lemma table_targets d : rd code pc = Some OPC_TABLESWITCH → 0 <= d <= 1 →
  ∃ ts, targets_without d code pc = Some ts ∧
    ∀ t, t ∈ ts ↔ ∃ k, nth_target code pc k = Some t ∧ ¬ (d = 1 ∧ last_entry code pc k).
Proof using Hcode Hpc Hn Hend.
  intros Eo Hd. pose proof (padding_range code pc) as Hpad. unfold insn_length in Hn. rewrite Eo in Hn. cbn [mbind option_bind] in Hn.
  rewrite decide_True in Hn by done. rewrite <- !aligned_padding, !read_s32_at in Hn by done.
  pose proof (aligned_padding pc) as Ha. unfold targets_without, nth_target, last_entry. rewrite Eo. cbn [mbind option_bind].
  change (bc_is_branch OPC_TABLESWITCH) with (Some true). change (kind_of OPC_TABLESWITCH) with Tableswitch. cbn [mbind option_bind].
  rewrite decide_True by done. rewrite <- !aligned_padding, !read_s32_at by done. unfold table_bounds.
  destruct (s32_at code (aligned pc + 4)) as [low|]; [|done]. cbn [mbind option_bind] in Hn |- *.
  destruct (s32_at code (aligned pc + 8)) as [high|]; [|done]. cbn [mbind option_bind] in Hn |- *.
  case_decide as Hlh; [|done]. injection Hn as Hn'.
  destruct (s32_at_in code Hcode (aligned pc)) as [def Ed]; [lia..|]. rewrite Ed. cbn [mbind option_bind].
  destruct (targets_at_spec pc 4 ltac:(lia) (Z.to_nat (high - low + 1 - d)) (aligned pc + 12)) as (ts & -> & Hts); [lia|lia|].
  cbn [mbind option_bind]. eexists. split; [done|]. intros t. rewrite elem_of_cons, Hts. split.
  - intros [->|(i & off & Hi & E & ->)].
    + exists 0. rewrite decide_True by done. split; [done|]. intros [_ (_ & l & h & [= <- <-] & ?)]. lia.
    + exists (i + 1). rewrite decide_False, decide_True by lia. rewrite Z.add_simpl_r, E. split; [done|].
      intros [Hd1 (_ & l & h & [= <- <-] & ?)]. lia.
  - intros (k & E & Hk). case_decide as H0; [by injection E as <-; left|]. case_decide as H1; [|done].
    destruct (s32_at code (aligned pc + 12 + 4 * (k - 1))) as [off|] eqn:Eoff; [|done]. injection E as <-. right.
    exists (k - 1), off. split_and!; [lia| |done|done]. destruct (decide (d = 1 ∧ k = high - low + 1)) as [[-> ->]|]; [|lia].
    exfalso. apply Hk. split; [done|]. split; [done|]. eauto.
Qed.

Lemma lookup_targets d : rd code pc = Some OPC_LOOKUPSWITCH →
  ∃ ts, targets_without d code pc = Some ts ∧
    ∀ t, t ∈ ts ↔ ∃ k, nth_target code pc k = Some t ∧ ¬ (d = 1 ∧ last_entry code pc k).
Proof using Hcode Hpc Hn Hend.
  intros Eo. pose proof (padding_range code pc) as Hpad. unfold insn_length in Hn. rewrite Eo in Hn. cbn [mbind option_bind] in Hn.
  rewrite decide_False, decide_True in Hn by done. rewrite <- !aligned_padding, !read_s32_at in Hn by done.
  pose proof (aligned_padding pc) as Ha. unfold targets_without, nth_target, last_entry. rewrite Eo. cbn [mbind option_bind].
  change (bc_is_branch OPC_LOOKUPSWITCH) with (Some true). change (kind_of OPC_LOOKUPSWITCH) with Lookupswitch. cbn [mbind option_bind].
  rewrite decide_False, decide_True by done. rewrite <- !aligned_padding, !read_s32_at by done.
  destruct (s32_at code (aligned pc + 4)) as [np|]; [|done]. cbn [mbind option_bind] in Hn |- *.
  case_decide as Hlh; [|done]. injection Hn as Hn'.
  destruct (s32_at_in code Hcode (aligned pc)) as [def Ed]; [lia..|]. rewrite Ed. cbn [mbind option_bind].
  destruct (targets_at_spec pc 8 ltac:(lia) (Z.to_nat np) (aligned pc + 8 + 4)) as (ts & -> & Hts); [lia|lia|].
  cbn [mbind option_bind]. eexists. split; [done|]. intros t. rewrite elem_of_cons, Hts. split.
  - intros [->|(i & off & Hi & E & ->)].
    + exists 0. rewrite decide_True by done. split; [done|]. by intros [_ [? _]].
    + exists (i + 1). rewrite decide_False, decide_True by lia. rewrite Z.add_simpl_r.
      replace (aligned pc + 8 + 8 * i + 4) with (aligned pc + 8 + 4 + 8 * i) by lia. rewrite E. split; [done|]. by intros [_ [? _]].
  - intros (k & E & Hk). case_decide as H0; [by injection E as <-; left|]. case_decide as H1; [|done].
    replace (aligned pc + 8 + 8 * (k - 1) + 4) with (aligned pc + 8 + 4 + 8 * (k - 1)) in E by lia.
    destruct (s32_at code (aligned pc + 8 + 4 + 8 * (k - 1))) as [off|] eqn:Eoff; [|done]. injection E as <-. right.
    exists (k - 1), off. split_and!; [lia|lia|done|done].
Qed.

(** A branch that is not a switch has one target. *)
Lemma simple_targets opc i : rd code pc = Some opc → bytecode_info_of opc = Some i → n = bi_size i →
  (is_branch (kind_of opc) = true → bi_size i = if decide (opc = 0xc8 ∨ opc = 0xc9) then 5 else 3) →
  opc ≠ OPC_TABLESWITCH → opc ≠ OPC_LOOKUPSWITCH → is_branch (kind_of opc) = true →
  ∃ off, bc_target_off code pc = Some off ∧ branch_target code pc = Some (pc + off) ∧
    ∀ k, nth_target code pc k = if decide (k = 0) then Some (pc + off) else None.
Proof using Hcode Hpc Hend.
  intros Eo Ei Hni Hsz Ht Hl Hb. destruct (rd_byte code Hcode _ _ Eo) as [Hu _].
  destruct (opcode_flags opc i ltac:(clia) Ei) as (_ & _ & _ & Hw & _). rewrite (Hsz Hb) in Hni.
  assert (∃ off, branch_offset code pc opc = Some off) as [off Eoff].
  { unfold branch_offset. destruct (decide (opc = 0xc8 ∨ opc = 0xc9)); [apply s32_at_in|apply s16_at_in]; (done || lia). }
  assert (bc_target_off code pc = branch_offset code pc opc) as E.
  { unfold bc_target_off, branch_offset. rewrite Eo. cbn [mbind option_bind]. rewrite (Hw Hb). cbn [mbind option_bind].
    rewrite read_s32_at, read_s16_at by done. by case_bool_decide; [rewrite decide_True|rewrite decide_False]. }
  exists off. rewrite E, Eoff. split; [done|].
  assert (kind_of opc = Conditional ∨ kind_of opc = Goto ∨ kind_of opc = Jsr) as Hk.
  { rewrite <- kind_table in Ht. rewrite <- kind_lookup in Hl. destruct (kind_of opc); (done || tauto). }
  assert (branch_target code pc = Some (pc + off)) as Eb.
  { unfold branch_target. rewrite Eo. cbn [mbind option_bind]. by destruct Hk as [->|[->| ->]]; rewrite Eoff. }
  split; [done|]. intros k. unfold nth_target. rewrite Eo. cbn [mbind option_bind].
  by destruct Hk as [->|[->| ->]]; rewrite Eb.
Qed.

(** Every target of a complete instruction, but the ones left out. *)
Lemma targets_without_spec d opc i : 0 <= d <= 1 → rd code pc = Some opc → bytecode_info_of opc = Some i →
  (opc ≠ OPC_TABLESWITCH → opc ≠ OPC_LOOKUPSWITCH → opc ≠ OPC_WIDE → n = bi_size i) →
  (is_branch (kind_of opc) = true → opc ≠ OPC_TABLESWITCH → opc ≠ OPC_LOOKUPSWITCH →
     bi_size i = if decide (opc = 0xc8 ∨ opc = 0xc9) then 5 else 3) →
  ∃ ts, targets_without d code pc = Some ts ∧
    ∀ t, t ∈ ts ↔ ∃ k, nth_target code pc k = Some t ∧ ¬ (d = 1 ∧ last_entry code pc k).
Proof using Hcode Hpc Hn Hend.
  intros Hd Eo Ei Hni Hsz. destruct (decide (opc = OPC_TABLESWITCH)) as [->|Ht]; [by apply table_targets|].
  destruct (decide (opc = OPC_LOOKUPSWITCH)) as [->|Hl]; [by apply lookup_targets|].
  destruct (rd_byte code Hcode _ _ Eo) as [Hu _]. destruct (opcode_flags opc i ltac:(clia) Ei) as (Eb & _).
  unfold targets_without. rewrite Eo. cbn [mbind option_bind]. rewrite Eb. cbn [mbind option_bind].
  destruct (is_branch (kind_of opc)) eqn:Hb.
  - assert (opc ≠ OPC_WIDE) as Hw by (intros ->; by vm_compute in Hb).
    destruct (simple_targets opc i Eo Ei (Hni Ht Hl Hw) (λ _, Hsz eq_refl Ht Hl) Ht Hl Hb) as (off & Eoff & _ & Hk). rewrite !decide_False, Eoff by done.
    cbn [mbind option_bind]. eexists. split; [done|]. intros t. rewrite list_elem_of_singleton. setoid_rewrite Hk. split.
    + intros ->. exists 0. split; [done|]. intros [_ [E _]]. rewrite Eo in E. injection E as ->. done.
    + intros (k & E & _). case_decide; [by injection E as <-|done].
  - exists []. split; [done|]. intros t. rewrite elem_of_nil. split; [done|]. intros (k & E & _). unfold nth_target in E.
    rewrite Eo in E. cbn [mbind option_bind] in E. by destruct (kind_of opc).
Qed.
End targets.
