(* ===== verification/Types.v ===== *)
(** * vm/types.c: Java types and descriptors

    A C string is the list of its bytes, without the terminating zero; a pointer into
    it is what is left of it, and reading at its end gives the zero.  Going past the
    end is undefined.  [strndup] and [malloc] take blocks of the heap and may fail. *)

From Stdlib Require Import Ascii String.
From stdpp Require Import strings.
From S2P Require Import Prelude CMonad.
#[local] Open Scope Z_scope.

(** ** Types *)

Inductive vm_type : Type :=
  | J_VOID | J_REFERENCE | J_BYTE | J_SHORT | J_INT | J_LONG | J_CHAR | J_FLOAT | J_DOUBLE
  | J_BOOLEAN | J_RETURN_ADDRESS.
#[export] Instance vm_type_eq_dec : EqDecision vm_type.
Proof. solve_decision. Defined.

(** The values of the constants. *)
Definition vm_type_number (t : vm_type) : nat :=
  match t with
  | J_VOID => 0 | J_REFERENCE => 1 | J_BYTE => 2 | J_SHORT => 3 | J_INT => 4 | J_LONG => 5 | J_CHAR => 6
  | J_FLOAT => 7 | J_DOUBLE => 8 | J_BOOLEAN => 9 | J_RETURN_ADDRESS => 10
  end%nat.

(** Characters. *)
Definition ch (a : ascii) : Z := Z.of_N (N_of_ascii a).
Arguments ch a%_char_scope.
Definition chars (s : string) : list Z := ch <$> String.list_ascii_of_string s.
Definition deref (p : list Z) : Z := match p with [] => 0 | c :: _ => c end.

Definition str_to_type (type : list Z) : vm_type :=
  let c := deref type in
  if decide (c = ch "V") then J_VOID
  else if decide (c = ch "B") then J_BYTE
  else if decide (c = ch "C") then J_CHAR
  else if decide (c = ch "D") then J_DOUBLE
  else if decide (c = ch "F") then J_FLOAT
  else if decide (c = ch "I") then J_INT
  else if decide (c = ch "J") then J_LONG
  else if decide (c = ch "S") then J_SHORT
  else if decide (c = ch "Z") then J_BOOLEAN
  else J_REFERENCE.

(** The loop runs past the end when there is no parenthesis. *)
Fixpoint get_method_return_type (type : list Z) : option vm_type :=
  match type with
  | [] => None
  | c :: rest => if decide (c ≠ ch ")") then get_method_return_type rest else Some (str_to_type rest)
  end.

Definition vm_type_size (type : vm_type) : Z :=
  match type with
  | J_VOID => 0 | J_REFERENCE => 8 | J_BYTE => 1 | J_SHORT => 2 | J_INT => 4 | J_LONG => 8 | J_CHAR => 2
  | J_FLOAT => 4 | J_DOUBLE => 8 | J_BOOLEAN => 1 | J_RETURN_ADDRESS => 8
  end.

Definition vm_type_is_pair (type : vm_type) : bool := bool_decide (type = J_LONG) || bool_decide (type = J_DOUBLE).
Definition vm_type_is_float (type : vm_type) : bool := bool_decide (type = J_FLOAT) || bool_decide (type = J_DOUBLE).
(** On 64 bits. *)
Definition vm_type_is_int64 (type : vm_type) : bool := bool_decide (type = J_LONG) || bool_decide (type = J_REFERENCE).
Definition vm_type_slot_size (type : vm_type) : Z :=
  if decide (type = J_DOUBLE ∨ type = J_LONG) then 2 else 1.
Definition vmtype_get_size (type : vm_type) : Z :=
  if decide (type = J_DOUBLE ∨ type = J_LONG) then 8 else 8.
Definition get_arg_size (type : vm_type) : Z := vmtype_get_size type / 8.
Definition mimic_stack_type (type : vm_type) : vm_type :=
  match type with J_BOOLEAN | J_BYTE | J_CHAR | J_SHORT => J_INT | _ => type end.

Fixpoint skip_brackets (name : list Z) : list Z :=
  match name with
  | c :: rest => if decide (c = ch "[") then skip_brackets rest else name
  | [] => []
  end.
Definition is_array (name : list Z) : bool := bool_decide (deref name = ch "[").
Definition is_primitive_array (name : list Z) : bool :=
  if decide (deref name ≠ ch "[") then false else bool_decide (deref (skip_brackets name) ≠ ch "L").

(** The element types of the newarray instruction. *)
Definition T_BOOLEAN : nat := 4.
Definition T_CHAR : nat := 5.
Definition T_FLOAT : nat := 6.
Definition T_DOUBLE : nat := 7.
Definition T_BYTE : nat := 8.
Definition T_SHORT : nat := 9.
Definition T_INT : nat := 10.
Definition T_LONG : nat := 11.

(** The places the initialisers leave out hold zero, which is J_VOID. *)
Definition bytecode_type_to_vmtype_map : list vm_type :=
  <[T_BOOLEAN := J_BOOLEAN]> $ <[T_CHAR := J_CHAR]> $ <[T_FLOAT := J_FLOAT]> $ <[T_DOUBLE := J_DOUBLE]> $
  <[T_BYTE := J_BYTE]> $ <[T_SHORT := J_SHORT]> $ <[T_INT := J_INT]> $ <[T_LONG := J_LONG]> $
  replicate (S T_LONG) J_VOID.
Definition bytecode_type_to_vmtype (type : Z) : option vm_type :=
  if decide (0 <= type) then bytecode_type_to_vmtype_map !! Z.to_nat type else None.

Definition vmtype_to_bytecode_type_map : list nat :=
  <[vm_type_number J_BOOLEAN := T_BOOLEAN]> $ <[vm_type_number J_CHAR := T_CHAR]> $
  <[vm_type_number J_FLOAT := T_FLOAT]> $ <[vm_type_number J_DOUBLE := T_DOUBLE]> $
  <[vm_type_number J_BYTE := T_BYTE]> $ <[vm_type_number J_SHORT := T_SHORT]> $
  <[vm_type_number J_INT := T_INT]> $ <[vm_type_number J_LONG := T_LONG]> $
  replicate (S (vm_type_number J_BOOLEAN)) 0%nat.
Definition vmtype_to_bytecode_type (type : vm_type) : option Z :=
  Z.of_nat <$> vmtype_to_bytecode_type_map !! vm_type_number type.

Definition vm_type_names : list string :=
  ["J_VOID"; "J_REFERENCE"; "J_BYTE"; "J_SHORT"; "J_INT"; "J_LONG"; "J_CHAR"; "J_FLOAT"; "J_DOUBLE";
   "J_BOOLEAN"; "J_RETURN_ADDRESS"]%string.
(** The null pointer for a number past the names. *)
Definition get_vm_type_name (type : nat) : option string := vm_type_names !! type.

(** ** Descriptors *)

Record vm_type_info := VmTypeInfo {
  ti_vm_type : vm_type;
  ti_class_name : option (block * list Z);
}.
Record vm_method_arg := VmMethodArg {
  arg_block : block;
  type_info : vm_type_info;
}.

(** [do ... while] until the semicolon, which is skipped. *)
Fixpoint parse_class_name (type_str : list Z) : option (list Z) :=
  match type_str with
  | [] => None
  | _ :: rest => match rest with
                 | c :: rest' => if decide (c = ch ";") then Some rest' else parse_class_name rest
                 | [] => None
                 end
  end.

Definition base_chars : list Z := chars "VBCDFIJSZ".

Fixpoint parse_array_element_type (type_str : list Z) : option (list Z) :=
  match type_str with
  | [] => None
  | c :: rest =>
    if decide (c = ch "[") then parse_array_element_type rest
    else if decide (c = ch "L") then parse_class_name rest
    else if decide (c ∈ base_chars) then Some rest
    else None
  end.

Section parse.
Context `{Allocator}.

Definition strndup (s : list Z) (n : nat) : M mem unit (option (block * list Z)) := λ h,
  let str := take n s in
  let '(p, h') := mem_malloc (Z.of_nat (length str) + 1) h in
  Done ((λ b, (b, str)) <$> p) h'.

(** Failing is returning -1. *)
Definition parse_type (type_str : list Z) : M mem unit (vm_type_info * list Z) :=
  match type_str with
  | [] => fail tt
  | c :: rest =>
    if decide (c = ch "[") then
      match parse_array_element_type rest with
      | None => fail tt
      | Some rest' =>
        let* name := strndup type_str (length type_str - length rest') in
        ret (VmTypeInfo J_REFERENCE name, rest')
      end
    else if decide (c = ch "L") then
      match parse_class_name rest with
      | None => fail tt
      | Some rest' =>
        let* name := strndup rest (length rest - length rest' - 1) in
        ret (VmTypeInfo J_REFERENCE name, rest')
      end
    else if decide (c ∈ base_chars) then
      let* name := strndup type_str 1 in
      match name with
      | None => undef
      | Some (b, str) => ret (VmTypeInfo (str_to_type str) name, rest)
      end
    else fail tt
  end.

Definition ENOMEM : Z := 12.

Definition alloc_method_arg : M mem unit (option block) := λ h,
  let '(p, h') := mem_malloc 32 h in Done p h'.

(** What the method has when the call returns: its result, the arguments found so
    far and the return type. *)
Definition method_types : Type := Z * list vm_method_arg * option vm_type_info.

(** The loop over the arguments; it stops at the parenthesis, with what follows it. *)
Fixpoint parse_args (fuel : nat) (type_str : list Z) (args : list vm_method_arg)
  : M mem (Z * list vm_method_arg) (list vm_method_arg * list Z) :=
  match fuel with
  | O => undef
  | S fuel' =>
    if decide (deref type_str = ch ")") then ret (args, tail type_str)
    else λ h,
      match alloc_method_arg h with
      | Done (Some b) h1 =>
        match parse_type type_str h1 with
        | Done (ti, rest) h2 => parse_args fuel' rest (args ++ [VmMethodArg b ti]) h2
        | Fail _ h2 => Fail (-1, args) h2
        | Undef => Undef
        end
      | Done None h1 => Fail (- ENOMEM, args) h1
      | Fail _ _ | Undef => Undef
      end
  end.

Definition parse_method_type (type : list Z) : M mem unit method_types := λ h,
  if decide (deref type ≠ ch "(") then Done (-1, [], None) h
  else
    match parse_args (S (length type)) (tail type) [] h with
    | Fail (err, args) h1 => Done (err, args, None) h1
    | Undef => Undef
    | Done (args, type_str) h1 =>
      match parse_type type_str h1 with
      | Fail _ h2 => Done (-1, args, None) h2
      | Undef => Undef
      | Done (ti, rest) h2 =>
        Done (if decide (deref rest ≠ 0) then -1 else 0, args, Some ti) h2
      end
    end.

Definition parse_field_type (type : list Z) : M mem unit (Z * option vm_type_info) := λ h,
  match parse_type type h with
  | Done (ti, _) h' => Done (0, Some ti) h'
  | Fail _ h' => Done (-1, None) h'
  | Undef => Undef
  end.
End parse.

(** ** Counting arguments *)

Definition count_arguments (args : list vm_method_arg) : Z :=
  foldl (λ count arg, if decide (ti_vm_type (type_info arg) = J_LONG ∨ ti_vm_type (type_info arg) = J_DOUBLE)
                      then count + 2 else count + 1) 0 args.
Definition vm_method_arg_slots (args : list vm_method_arg) : Z :=
  foldl (λ count arg, let count := u32 (count + 1) in
                      if vm_type_is_pair (ti_vm_type (type_info arg)) then u32 (count + 1) else count) 0 args.
Definition count_java_arguments (args : list vm_method_arg) : Z :=
  foldl (λ count _, u32 (count + 1)) 0 args.

(** ** Specification *)

(** The descriptors of the JVM specification (4.3.2, 4.3.3): the base types with their
    letters, void, the classes and the arrays. *)
Inductive base_type : Type := BByte | BChar | BDouble | BFloat | BInt | BLong | BShort | BBoolean.
Inductive desc : Type :=
  | DVoid
  | DBase (b : base_type)
  | DClass (name : list Z)
  | DArray (d : desc).

Definition letter (b : base_type) : Z :=
  match b with
  | BByte => ch "B" | BChar => ch "C" | BDouble => ch "D" | BFloat => ch "F"
  | BInt => ch "I" | BLong => ch "J" | BShort => ch "S" | BBoolean => ch "Z"
  end.

Fixpoint print (d : desc) : list Z :=
  match d with
  | DVoid => [ch "V"]
  | DBase b => [letter b]
  | DClass name => ch "L" :: name ++ [ch ";"]
  | DArray d => ch "[" :: print d
  end.

(** The name of a class: parts separated by slashes, none of them empty, without
    dots, semicolons and opening brackets. *)
Definition name_char (c : Z) : Prop := c ≠ ch "." ∧ c ≠ ch ";" ∧ c ≠ ch "[" ∧ c ≠ ch "/".
Inductive class_name : list Z → Prop :=
  | class_name_part part : part ≠ [] → Forall name_char part → class_name part
  | class_name_slash part rest : part ≠ [] → Forall name_char part → class_name rest →
                                 class_name (part ++ ch "/" :: rest).

(** The type of a field or of an argument: void is none. *)
Fixpoint field_desc (d : desc) : Prop :=
  match d with
  | DVoid => False
  | DBase _ => True
  | DClass name => class_name name
  | DArray d => field_desc d
  end.

(** What the parser takes for a descriptor: void is a base type like the others, and
    the name of a class is anything not empty up to the first semicolon, the first
    character not looked at. *)
Definition lax_name (name : list Z) : Prop := name ≠ [] ∧ ch ";" ∉ tail name.
Fixpoint lax_desc (d : desc) : Prop :=
  match d with
  | DVoid | DBase _ => True
  | DClass name => lax_name name
  | DArray d => lax_desc d
  end.

(** What [struct vm_type_info] says of a descriptor. *)
Definition desc_type (d : desc) : vm_type :=
  match d with
  | DVoid => J_VOID
  | DBase b => match b with
               | BByte => J_BYTE | BChar => J_CHAR | BDouble => J_DOUBLE | BFloat => J_FLOAT
               | BInt => J_INT | BLong => J_LONG | BShort => J_SHORT | BBoolean => J_BOOLEAN
               end
  | DClass _ | DArray _ => J_REFERENCE
  end.
Definition desc_class_name (d : desc) : list Z :=
  match d with DClass name => name | _ => print d end.

Definition always_ok `{Allocator} : Prop := ∀ n sz, malloc_ok n sz = true.
Definition describes `{Allocator} (d : desc) (ti : vm_type_info) : Prop :=
  ti_vm_type ti = desc_type d ∧
  match ti_class_name ti with Some (_, name) => name = desc_class_name d | None => ¬ always_ok end.

Lemma parse_class_name_spec s rest :
  parse_class_name s = Some rest ↔ ∃ name, lax_name name ∧ s = name ++ ch ";" :: rest.
Proof.
  split.
  - revert rest. induction s as [|a s IH]; intros rest E; [done|]. cbn in E.
    destruct s as [|c s]; [done|]. case_decide as Hc.
    + injection E as <-. subst c. exists [a]. split; [|done]. split; [done|]. cbn. apply not_elem_of_nil.
    + destruct (IH _ E) as (name & [Hn Ht] & Es). exists (a :: name). split; [|by rewrite Es].
      split; [done|]. cbn. destruct name as [|b name]; [done|]. injection Es as <- _.
      apply not_elem_of_cons. done.
  - intros ([|a name] & [Hn Ht] & ->); [done|]. clear Hn. cbn in Ht. revert a Ht.
    induction name as [|b name IH]; intros a Ht.
    + cbn. by rewrite decide_True.
    + apply not_elem_of_cons in Ht as [Hb Ht]. cbn. rewrite decide_False by congruence. by apply (IH b).
Qed.

(** The letters the parser knows are void and the base types. *)
Lemma base_chars_spec c : c ∈ base_chars →
  ∃ d, print d = [c] ∧ lax_desc d ∧ desc_type d = str_to_type [c] ∧ desc_class_name d = [c].
Proof.
  unfold base_chars, chars. cbn [String.list_ascii_of_string fmap list_fmap]. intros Hc.
  rewrite !elem_of_cons, elem_of_nil in Hc.
  destruct Hc as [->|[->|[->|[->|[->|[->|[->|[->|[->|[]]]]]]]]]].
  - by exists DVoid.
  - by exists (DBase BByte).
  - by exists (DBase BChar).
  - by exists (DBase BDouble).
  - by exists (DBase BFloat).
  - by exists (DBase BInt).
  - by exists (DBase BLong).
  - by exists (DBase BShort).
  - by exists (DBase BBoolean).
Qed.
Lemma letter_base b : letter b ∈ base_chars ∧ letter b ≠ ch "[" ∧ letter b ≠ ch "L" ∧ letter b ≠ ch ")".
Proof. destruct b; (split; [by apply (bool_decide_unpack _)|done]). Qed.

(** A descriptor of the specification is one the parser takes. *)
Lemma class_name_lax name : class_name name → lax_name name.
Proof.
  intros Hn. assert (ch ";" ∉ name) as Hs.
  { induction Hn as [part _ Hp|part rest _ Hp _ IH].
    - intros Hin. by destruct (proj1 (list.Forall_forall name_char part) Hp _ Hin) as (_ & ? & _).
    - intros [Hin|[E|Hin]%elem_of_cons]%elem_of_app; [|done..].
      by destruct (proj1 (list.Forall_forall name_char part) Hp _ Hin) as (_ & ? & _). }
  split.
  - destruct Hn; [done|]. by destruct part.
  - destruct name; [apply not_elem_of_nil|]. cbn. by apply not_elem_of_cons in Hs as [_ ?].
Qed.
Lemma field_desc_lax d : field_desc d → lax_desc d.
Proof. induction d; [done..|apply class_name_lax|done]. Qed.

Lemma parse_element_spec s rest :
  parse_array_element_type s = Some rest ↔ ∃ d, lax_desc d ∧ s = print d ++ rest.
Proof.
  split.
  - revert rest. induction s as [|c s IH]; intros rest E; [done|]. cbn [parse_array_element_type] in E.
    case_decide as H1; [|case_decide as H2; [|case_decide as H3; [|done]]].
    + destruct (IH _ E) as (d & Hd & ->). exists (DArray d). by subst c.
    + apply parse_class_name_spec in E as (name & Hn & ->). exists (DClass name). subst c.
      split; [done|]. cbn. by rewrite <- app_assoc.
    + injection E as <-. destruct (base_chars_spec c H3) as (d & Hp & Hd & _). exists d. by rewrite Hp.
  - intros (d & Hd & ->). induction d as [|b|name|d IH]; cbn [print app parse_array_element_type].
    + done.
    + destruct (letter_base b) as (? & ? & ? & _). by rewrite 2!decide_False, decide_True.
    + rewrite decide_False, decide_True by done. rewrite <- app_assoc. apply parse_class_name_spec. by exists name.
    + rewrite decide_True by done. by apply IH.
Qed.

(** A descriptor ends in one place. *)
Lemma print_unique d d' r r' : lax_desc d → lax_desc d' → print d ++ r = print d' ++ r' → r = r'.
Proof.
  intros Hd Hd' E. assert (parse_array_element_type (print d ++ r) = Some r) as H1 by (apply parse_element_spec; eauto).
  assert (parse_array_element_type (print d' ++ r') = Some r') as H2 by (apply parse_element_spec; eauto). congruence.
Qed.

(** A string has one descriptor at its beginning. *)
Lemma print_inj d d' r r' : lax_desc d → lax_desc d' → print d ++ r = print d' ++ r' → d = d'.
Proof.
  revert d'. induction d as [|b|name|d IH]; intros d' Hd Hd' E; pose proof (print_unique _ _ _ _ Hd Hd' E) as <-;
    apply (inj (.++ r)) in E; destruct d' as [|b'|name'|d']; cbn in E; try done.
  - by destruct b'.
  - by destruct b.
  - by destruct b, b'.
  - by destruct b.
  - by destruct b.
  - by destruct b'.
  - injection E as E. by apply (inj (.++ [ch ";"])) in E as ->.
  - by destruct b'.
  - injection E as E. f_equal. apply IH; [done..|]. by rewrite E.
Qed.

Section spec.
Context `{Allocator}.

Lemma strndup_spec s n h :
  ∃ r h', strndup s n h = Done r h' ∧
    match r with Some (_, name) => name = take n s | None => ¬ always_ok end.
Proof.
  unfold strndup, mem_malloc. destruct (malloc_ok _ _) eqn:E; eexists _, _; (split; [done|]); [done|].
  cbn. intros Ha. by rewrite Ha in E.
Qed.

(** The element parser finds the descriptors the top-level one finds. *)
Lemma parse_type_fails s h : parse_array_element_type s = None → parse_type s h = Fail tt h.
Proof.
  destruct s as [|c s]; [done|]. cbn [parse_array_element_type parse_type].
  do 3 (case_decide; [intros E; (done || (by rewrite E))|]). done.
Qed.

Lemma parse_type_spec s rest h : parse_array_element_type s = Some rest →
  match parse_type s h with
  | Done (ti, rest') _ => rest' = rest ∧ ∃ d, lax_desc d ∧ s = print d ++ rest ∧ describes d ti
  | Fail _ _ => False
  | Undef => ¬ always_ok
  end.
Proof.
  destruct s as [|c s]; [done|]. cbn [parse_array_element_type parse_type].
  case_decide as H1; [|case_decide as H2; [|case_decide as H3; [|done]]]; intros E.
  - rewrite E. unfold bind. destruct (strndup_spec (c :: s) (length (c :: s) - length rest) h) as (r & h' & -> & Hr).
    cbn [ret]. split; [done|]. apply parse_element_spec in E as (d & Hd & ->). exists (DArray d).
    split_and!; [done|by subst c|]. split; [done|]. destruct r as [[b name]|]; [|done].
    change (name = ch "[" :: print d). rewrite Hr. cbn [ti_class_name length]. rewrite length_app.
    replace (S (length (print d) + length rest) - length rest)%nat with (S (length (print d))) by lia.
    cbn [take]. by rewrite take_app_length, H1.
  - rewrite E. unfold bind. destruct (strndup_spec s (length s - length rest - 1) h) as (r & h' & -> & Hr).
    cbn [ret]. split; [done|]. apply parse_class_name_spec in E as (name & Hn & ->). exists (DClass name).
    split_and!; [done|subst c; cbn; by rewrite <- app_assoc|]. split; [done|]. destruct r as [[b name']|]; [|done].
    cbn. rewrite Hr, length_app. cbn [length].
    replace (length name + S (length rest) - length rest - 1)%nat with (length name) by lia.
    by rewrite take_app_length.
  - unfold bind. destruct (strndup_spec (c :: s) 1 h) as ([[b name]|] & h' & -> & Hr); [|done].
    cbn [ret]. injection E as ->. split; [done|]. cbn in Hr. subst name.
    destruct (base_chars_spec c H3) as (d & Hp & Hd & Ht & Hn). exists d. by rewrite Hp.
Qed.

(** The list of arguments up to the parenthesis. *)
Definition args_of (s : list Z) (ds : list desc) (rest : list Z) : Prop :=
  Forall lax_desc ds ∧ s = concat (print <$> ds) ++ ch ")" :: rest.

Lemma args_of_nil s ds rest : args_of s ds rest → deref s = ch ")" → ds = [] ∧ rest = tail s.
Proof.
  intros [Hd ->] E. destruct ds as [|d ds]; [done|]. exfalso. apply Forall_cons_1 in Hd as [Hd _].
  destruct d as [|b|name|d]; cbn in E; [done| |done..]. by destruct (letter_base b) as (_ & _ & _ & ?).
Qed.

Lemma args_of_cons s ds rest : args_of s ds rest → deref s ≠ ch ")" →
  ∃ d ds' s', ds = d :: ds' ∧ s = print d ++ s' ∧ lax_desc d ∧ args_of s' ds' rest.
Proof.
  intros [Hd ->] E. destruct ds as [|d ds]; [done|]. apply Forall_cons_1 in Hd as [Hd Hds].
  exists d, ds, (concat (print <$> ds) ++ ch ")" :: rest). split_and!; [done| |done|done].
  cbn [fmap list_fmap concat]. by rewrite <- app_assoc.
Qed.

Lemma print_length d : (1 <= length (print d))%nat.
Proof. destruct d; cbn; lia. Qed.

Lemma parse_args_spec fuel : ∀ s args h, (length s < fuel)%nat →
  match parse_args fuel s args h with
  | Done (args', rest) _ => ∃ ds new, args' = args ++ new ∧ args_of s ds rest ∧
                              Forall2 (λ d a, describes d (type_info a)) ds new
  | Fail (err, _) _ => (err = -1 ∧ ¬ ∃ ds rest, args_of s ds rest) ∨ (err = - ENOMEM ∧ ¬ always_ok)
  | Undef => ¬ always_ok
  end.
Proof.
  induction fuel as [|fuel IH]; intros s args h Hf; [lia|]. cbn [parse_args].
  case_decide as Hc.
  - destruct s as [|c s]; [done|]. cbn in Hc. subst c. exists [], []. split_and!; [by rewrite app_nil_r|done|constructor].
  - unfold alloc_method_arg, mem_malloc. destruct (malloc_ok _ _) eqn:Em.
    2: { right. split; [done|]. intros Ha. by rewrite Ha in Em. }
    destruct (parse_array_element_type s) as [rest|] eqn:Ep.
    + pose proof (parse_type_spec s rest) as Hp. specialize (Hp (Mem (S (m_next h)) ({[+ m_next h +]} ⊎ m_live h)) Ep).
      destruct (parse_type s _) as [[ti rest'] h2|? ?|]; [|done..].
      destruct Hp as (-> & d & Hd & -> & Hti). rewrite length_app in Hf. pose proof (print_length d).
      specialize (IH rest (args ++ [VmMethodArg (m_next h) ti]) h2 ltac:(lia)).
      destruct (parse_args fuel rest _ h2) as [[args' rest'] h3|[err args'] h3|]; [| |done].
      * destruct IH as (ds & new & -> & [Hds ->] & Hn). exists (d :: ds), (VmMethodArg (m_next h) ti :: new).
        split_and!; [by rewrite <- app_assoc| |by constructor]. split; [by constructor|].
        cbn [fmap list_fmap concat]. by rewrite <- app_assoc.
      * destruct IH as [[-> Hno]|?]; [left|by right]. split; [done|]. intros (ds & r & Ha).
        destruct (args_of_cons _ _ _ Ha Hc) as (d' & ds' & s' & -> & E & Hd' & Ha').
        apply print_unique in E; [|done..]. subst s'. apply Hno. eauto.
    + rewrite parse_type_fails by done. left. split; [done|]. intros (ds & r & Ha).
      destruct (args_of_cons _ _ _ Ha Hc) as (d' & ds' & s' & -> & E & Hd' & Ha').
      assert (parse_array_element_type s = Some s') by (apply parse_element_spec; eauto). congruence.
Qed.
End spec.

(** ** Properties *)

Section props.
Context `{Allocator}.

(** Parsing a type: it returns normally exactly when the string begins with a
    descriptor, stops right after it, and stores its type and its class name (the
    whole descriptor of an array, the name of a class, the letter of a base type);
    the name is missing, or the behaviour undefined, only when memory runs out. *)
Theorem parse_type_correct (s : list Z) (h : mem) :
  match parse_type s h with
  | Done (ti, rest) _ => ∃ d, lax_desc d ∧ s = print d ++ rest ∧ describes d ti
  | Fail _ h' => h' = h ∧ ¬ ∃ d rest, lax_desc d ∧ s = print d ++ rest
  | Undef => ¬ always_ok
  end.
Proof.
  destruct (parse_array_element_type s) as [rest|] eqn:E.
  - pose proof (parse_type_spec s rest h E) as Hp.
    destruct (parse_type s h) as [[ti rest'] h'|? ?|]; [|done..]. destruct Hp as [-> Hp]. exact Hp.
  - rewrite parse_type_fails by done. split; [done|]. intros (d & rest & Hd & ->).
    assert (parse_array_element_type (print d ++ rest) = Some rest) by (apply parse_element_spec; eauto). congruence.
Qed.

(** The descriptor of a method: the arguments are types of fields, the result one or
    void. The parser takes any of its descriptors in each place. *)
Definition printed (type : list Z) (ds : list desc) (d : desc) : Prop :=
  type = ch "(" :: concat (print <$> ds) ++ ch ")" :: print d.
Definition method_desc (type : list Z) (ds : list desc) (d : desc) : Prop :=
  Forall field_desc ds ∧ (d = DVoid ∨ field_desc d) ∧ printed type ds d.
Definition lax_method_desc (type : list Z) (ds : list desc) (d : desc) : Prop :=
  Forall lax_desc ds ∧ lax_desc d ∧ printed type ds d.

Lemma method_desc_lax type ds d : method_desc type ds d → lax_method_desc type ds d.
Proof.
  intros (Hds & Hd & Hp). split; [|split; [by destruct Hd as [->|Hd]; [|apply field_desc_lax]|done]].
  by apply (Forall_impl _ field_desc_lax).
Qed.

(** The arguments and what follows them are determined by the string. *)
Lemma args_of_unique s ds rest ds' rest' : args_of s ds rest → args_of s ds' rest' → ds' = ds ∧ rest' = rest.
Proof.
  revert s ds'. induction ds as [|d ds IH]; intros s ds' Ha Ha'.
  - destruct Ha as [_ ->]. by destruct (args_of_nil _ _ _ Ha' eq_refl) as [-> ->].
  - destruct (decide (deref s = ch ")")) as [E|E]; [by destruct (args_of_nil _ _ _ Ha E)|].
    destruct (args_of_cons _ _ _ Ha E) as (? & ? & s' & [= <- <-] & -> & Hd & Hs).
    destruct (args_of_cons _ _ _ Ha' E) as (? & ? & s'' & -> & E2 & Hd' & Hs').
    pose proof (print_inj _ _ _ _ Hd Hd' E2) as <-. apply print_unique in E2; [|done..]. subst s''.
    by destruct (IH _ _ Hs Hs') as [-> ->].
Qed.

(** C28: Parsing the descriptor of a method always returns, and 0 for every method
    descriptor of the JVM specification (4.3.3), with one argument of the right type
    and class name per descriptor, in order, and the type of the result; -1 means the
    string is no method descriptor. What is accepted beyond them is exactly what
    [lax_method_desc] adds: [V] as an argument or as the element of an array, and
    class names that are any text up to a semicolon. -ENOMEM is returned only when
    memory runs out. *)
Theorem parse_method_type_correct (type : list Z) (h : mem) : 0 ∉ type →
  match parse_method_type type h with
  | Done (err, args, r) _ =>
    (err = 0 ∧ ∃ ds d ti, lax_method_desc type ds d ∧
                 (∀ ds' d', method_desc type ds' d' → ds' = ds ∧ d' = d) ∧
                 Forall2 (λ d a, describes d (type_info a)) ds args ∧ r = Some ti ∧ describes d ti) ∨
    (err = -1 ∧ (¬ ∃ ds d, lax_method_desc type ds d) ∧ ¬ ∃ ds d, method_desc type ds d) ∨
    (err = - ENOMEM ∧ ¬ always_ok)
  | Fail _ _ => False
  | Undef => ¬ always_ok
  end.
Proof.
  intros Hz.
  assert ((¬ ∃ ds d, lax_method_desc type ds d) → ¬ ∃ ds d, method_desc type ds d) as Hs.
  { intros Hn (ds & d & Hm). apply Hn. exists ds, d. by apply method_desc_lax. }
  unfold parse_method_type. case_decide as Hp.
  { right; left. split; [done|]. assert (¬ ∃ ds d, lax_method_desc type ds d) as Hn; [|eauto].
    intros (ds & d & _ & _ & E). by rewrite E in Hp. }
  destruct type as [|c s]; [done|]. cbn in Hp. subst c. cbn [tail length].
  assert (∀ ds d, lax_method_desc (ch "(" :: s) ds d ↔ lax_desc d ∧ args_of s ds (print d)) as Hm.
  { intros ds d. unfold lax_method_desc, args_of, printed.
    split; [intros (? & ? & [= ->])|intros (? & ? & ->)]; done. }
  assert (∀ ds rest, args_of s ds rest → 0 ∉ rest) as Hzr.
  { intros ds rest [_ ->] Hin. apply Hz. right. apply elem_of_app. right. by right. }
  pose proof (parse_args_spec (S (S (length s))) s [] h ltac:(lia)) as Ha.
  destruct (parse_args _ s [] h) as [[args rest] h1|[err args] h1|]; [| |done].
  2: { destruct Ha as [[-> Hno]|?]; [right; left|by right; right]. split; [done|].
       assert (¬ ∃ ds d, lax_method_desc (ch "(" :: s) ds d) as Hn; [|eauto].
       intros (ds & d & [_ Ha]%Hm). eauto. }
  destruct Ha as (ds & new & -> & Ha & Hf). cbn [app].
  pose proof (parse_type_correct rest h1) as Ht.
  destruct (parse_type rest h1) as [[ti rest'] h2|? h2|]; [| |done].
  - destruct Ht as (d & Hd & -> & Hti). case_decide as Hr.
    + right; left. split; [done|]. assert (¬ ∃ ds d, lax_method_desc (ch "(" :: s) ds d) as Hn; [|eauto].
      intros (ds' & d' & [Hd' Ha']%Hm). destruct (args_of_unique _ _ _ _ _ Ha Ha') as [-> E].
      rewrite <- (app_nil_r (print d')) in E. apply print_unique in E; [|done..]. by subst rest'.
    + left. split; [done|]. destruct rest' as [|c rest'].
      * exists ds, d, ti. split_and!; [|clear Hs|done..]; [apply Hm; by rewrite app_nil_r in Ha|].
        intros ds' d' [Hd' Ha']%method_desc_lax%Hm. destruct (args_of_unique _ _ _ _ _ Ha Ha') as [-> E].
        split; [done|]. rewrite <- (app_nil_r (print d')) in E. by apply print_inj in E.
      * exfalso. cbn in Hr. subst c. apply (Hzr _ _ Ha). apply elem_of_app. right. by left.
  - right; left. split; [done|]. assert (¬ ∃ ds d, lax_method_desc (ch "(" :: s) ds d) as Hn; [|eauto].
    intros (ds' & d' & [Hd' Ha']%Hm). destruct (args_of_unique _ _ _ _ _ Ha Ha') as [-> E]. subst rest.
    destruct Ht as [_ Ht]. apply Ht. exists d', []. by rewrite app_nil_r.
Qed.
End props.

(** The slots of the arguments. *)
Lemma pair_slots t :
  ((t = J_LONG ∨ t = J_DOUBLE) ∧ vm_type_is_pair t = true ∧ vm_type_slot_size t = 2) ∨
  (¬ (t = J_LONG ∨ t = J_DOUBLE) ∧ vm_type_is_pair t = false ∧ vm_type_slot_size t = 1).
Proof. destruct t; (by left; vm_compute; auto) || (right; split_and!; [intros [?| ?]; done|done|done]). Qed.
Lemma count_arguments_slots args : 2 * Z.of_nat (length args) < 2 ^ 32 →
  vm_method_arg_slots args = count_arguments args ∧
  count_arguments args = foldr (λ a n, vm_type_slot_size (ti_vm_type (type_info a)) + n) 0 args.
Proof.
  intros Hl. unfold vm_method_arg_slots, count_arguments.
  assert (∀ n, 0 <= n → n + 2 * Z.of_nat (length args) < 2 ^ 32 →
    foldl (λ count arg, let count := u32 (count + 1) in
             if vm_type_is_pair (ti_vm_type (type_info arg)) then u32 (count + 1) else count) n args =
    n + foldr (λ a n, vm_type_slot_size (ti_vm_type (type_info a)) + n) 0 args ∧
    foldl (λ count arg, if decide (ti_vm_type (type_info arg) = J_LONG ∨ ti_vm_type (type_info arg) = J_DOUBLE)
                        then count + 2 else count + 1) n args =
    n + foldr (λ a n, vm_type_slot_size (ti_vm_type (type_info a)) + n) 0 args) as Hg.
  { clear Hl. induction args as [|a args IH]; intros n Hn Hl; [cbn; lia|]. cbn [foldl foldr length] in *.
    rewrite (u32_id (n + 1)) by clia. cbv zeta. destruct (pair_slots (ti_vm_type (type_info a))) as [E|E].
    - destruct E as (Ht & -> & ->). rewrite decide_True, u32_id by (done || clia).
      replace (n + 1 + 1) with (n + 2) by lia. destruct (IH (n + 2) ltac:(lia) ltac:(lia)) as [-> ->]. lia.
    - destruct E as (Ht & -> & ->). rewrite decide_False by done.
      destruct (IH (n + 1) ltac:(lia) ltac:(lia)) as [-> ->]. lia. }
  destruct (Hg 0 ltac:(lia) ltac:(lia)) as [H1 H2]. split; [etransitivity; [exact H1|symmetry; exact H2]|exact H2].
Qed.

(** The numbers of the newarray types and back. *)
Lemma vmtype_roundtrip n : 4 <= n <= 11 →
  ∃ t, bytecode_type_to_vmtype n = Some t ∧ vmtype_to_bytecode_type t = Some n.
Proof.
  intros Hn. assert (n = 4 ∨ n = 5 ∨ n = 6 ∨ n = 7 ∨ n = 8 ∨ n = 9 ∨ n = 10 ∨ n = 11) as Hc by lia.
  destruct Hc as [->|[->|[->|[->|[->|[->|[->| ->]]]]]]]; eexists; (split; [reflexivity|reflexivity]).
Qed.

(** ** Examples *)

Definition always : Allocator := λ _ _, true.

Lemma parse_method_type_correct_witness :
  ∃ args r h', @parse_method_type always (chars "(I[JLjava/lang/String;)V") (Mem 0 ∅) = Done (0, args, r) h' ∧
    ∃ ds d, lax_method_desc (chars "(I[JLjava/lang/String;)V") ds d ∧ length ds = 3%nat ∧
      method_desc (chars "(I[JLjava/lang/String;)V")
        [DBase BInt; DArray (DBase BLong); DClass (chars "java/lang/String")] DVoid ∧ d = DVoid.
Proof.
  pose proof (@parse_method_type_correct always (chars "(I[JLjava/lang/String;)V") (Mem 0 ∅)
    ltac:(by apply (bool_decide_unpack _))) as H.
  destruct (parse_method_type (chars "(I[JLjava/lang/String;)V") (Mem 0 ∅)) as [[[err args] r] h'|? ?|] eqn:E;
    [|done|exfalso; by apply H].
  assert (err = 0 ∧ length args = 3%nat) as [-> Hl] by (vm_compute in E; injection E as <- <- _ _; done).
  exists args, r, h'. split; [done|].
  destruct H as [(_ & ds & d & ti & Hm & Hu & Hf & _)|[[? _]|[? _]]]; [|done..].
  assert (method_desc (chars "(I[JLjava/lang/String;)V")
    [DBase BInt; DArray (DBase BLong); DClass (chars "java/lang/String")] DVoid) as Hd.
  { split; [|split; [by left|reflexivity]]. do 2 (constructor; [done|]). constructor; [|constructor].
    change (class_name (chars "java" ++ ch "/" :: (chars "lang" ++ ch "/" :: chars "String"))).
    apply class_name_slash; [done|by repeat constructor|].
    apply class_name_slash; [done|by repeat constructor|]. apply class_name_part; [done|by repeat constructor]. }
  exists ds, d. split_and!; [done|by rewrite (Forall2_length Hf)|done|by destruct (Hu _ _ Hd)].
Defined.

(** When a type is not a descriptor, the argument allocated for it is in no list. *)
Lemma parse_method_type_leaks :
  ∃ h', @parse_method_type always (chars "(X)V") (Mem 0 ∅) = Done (-1, [], None) h' ∧ m_live h' ≠ ∅.
Proof. eexists. split; [vm_compute; reflexivity|]. intros E. apply (f_equal (multiplicity 0%nat)) in E. done. Qed.

(** A void argument and an array of void are accepted; the JVM specification has
    neither. *)
Lemma parse_method_type_void :
  (∃ args r h', @parse_method_type always (chars "(V[V)V") (Mem 0 ∅) = Done (0, args, r) h') ∧
  ¬ ∃ ds d, method_desc (chars "(V[V)V") ds d.
Proof.
  split; [eexists _, _, _; vm_compute; reflexivity|]. intros (ds & d & Hds & _ & Hp).
  destruct ds as [|d1 ds]; [done|]. apply Forall_cons_1 in Hds as [H1 _]. injection Hp as E.
  destruct d1 as [|b|name|d1]; [done|by destruct b|done..].
Qed.

(** A field type with text after it is accepted. *)
Lemma parse_field_type_junk :
  match @parse_field_type always (chars "I(junk") (Mem 0 ∅) with Done (err, _) _ => err = 0 | _ => False end.
Proof. reflexivity. Qed.
