(* ===== verification/Utf8.v ===== *)
(** * vm/utf8.c: modified UTF-8

    Bytes are a list; [None] is undefined behaviour (a read or a write outside an
    array).  The Java array is allocated by vm/object.c: whether that succeeds is an
    argument.  [decode] is the reference definition the two loops are compared
    with. *)

From S2P Require Import Prelude CMonad.
#[local] Open Scope Z_scope.

(** ** Operations *)

Definition byte_at (bytes : list Z) (i : Z) : option Z :=
  if decide (0 <= i) then bytes !! Z.to_nat i else None.

(** How a byte begins a character. *)
Definition one_byte (b : Z) : bool := bool_decide (Z.land b 0x80 = 0).
Definition two_bytes (b : Z) : bool := bool_decide (Z.land b 0xe0 = 0xc0).
Definition three_bytes (b : Z) : bool := bool_decide (Z.land b 0xf0 = 0xe0).
Definition continues (b : Z) : bool := bool_decide (Z.land b 0xc0 = 0x80).

(** The loop; the result is the count, or [None] for the return of 1. *)
Fixpoint count_loop (fuel : nat) (bytes : list Z) (n i result : Z) : option (option Z) :=
  match fuel with
  | O => None
  | S fuel' =>
    if decide (i < n) then
      let result := u32 (result + 1) in
      b ← byte_at bytes i;
      if one_byte b then count_loop fuel' bytes n (u32 (i + 1)) result
      else if two_bytes b then
        if decide (n <= u32 (i + 1)) then Some None else
        b1 ← byte_at bytes (u32 (i + 1));
        if negb (continues b1) then Some None
        else count_loop fuel' bytes n (u32 (u32 (i + 1) + 1)) result
      else if three_bytes b then
        if decide (n <= u32 (i + 2)) then Some None else
        b1 ← byte_at bytes (u32 (i + 1));
        if negb (continues b1) then Some None else
        b2 ← byte_at bytes (u32 (u32 (i + 1) + 1));
        if negb (continues b2) then Some None
        else count_loop fuel' bytes n (u32 (u32 (u32 (i + 1) + 1) + 1)) result
      else Some None
    else Some (Some result)
  end.
Definition utf8_char_count (bytes : list Z) (n : Z) : option (option Z) :=
  count_loop (S (Z.to_nat n)) bytes n 0 0.

(** A cell takes eight bytes and its offset is an [int]. *)
Definition array_set_field_char (array : list Z) (index ch : Z) : option (list Z) :=
  if decide (0 <= index * 8 < 2 ^ 31 ∧ index < Z.of_nat (length array))
  then Some (<[Z.to_nat index := ch]> array) else None.

Fixpoint store_loop (fuel : nat) (bytes : list Z) (n i j : Z) (array : list Z) : option (list Z) :=
  match fuel with
  | O => None
  | S fuel' =>
    if decide (i < n) then
      b ← byte_at bytes i;
      if one_byte b then
        array ← array_set_field_char array (s32 j) b;
        store_loop fuel' bytes n (u32 (i + 1)) (u32 (j + 1)) array
      else if two_bytes b then
        let ch := u16 (Z.shiftl (Z.land b 0x1f) 6) in
        b1 ← byte_at bytes (u32 (i + 1));
        let ch := u16 (ch + Z.land b1 0x3f) in
        array ← array_set_field_char array (s32 j) ch;
        store_loop fuel' bytes n (u32 (u32 (i + 1) + 1)) (u32 (j + 1)) array
      else if three_bytes b then
        let ch := u16 (Z.shiftl (Z.land b 0xf) 12) in
        b1 ← byte_at bytes (u32 (i + 1));
        let ch := u16 (ch + Z.shiftl (Z.land b1 0x3f) 6) in
        b2 ← byte_at bytes (u32 (u32 (i + 1) + 1));
        let ch := u16 (ch + Z.land b2 0x3f) in
        array ← array_set_field_char array (s32 j) ch;
        store_loop fuel' bytes n (u32 (u32 (u32 (i + 1) + 1) + 1)) (u32 (j + 1)) array
      else store_loop fuel' bytes n (u32 (i + 1)) j array
    else Some array
  end.

(** The inner option is the null pointer. *)
Definition utf8_to_char_array (alloc_ok : bool) (bytes : list Z) (n : Z) : option (option (list Z)) :=
  c ← utf8_char_count bytes n;
  match c with
  | None => Some None
  | Some utf16_count =>
    if alloc_ok then
      array ← store_loop (S (Z.to_nat n)) bytes n 0 0 (replicate (Z.to_nat utf16_count) 0);
      Some (Some array)
    else Some None
  end.

(** The copy [strdup] makes, or the null pointer, which is written through unless the
    string is empty. *)
Definition replace_chars `{Allocator} (from to : Z) (utf : list Z) : M mem unit (option (list Z)) := λ h,
  let '(p, h') := mem_malloc (Z.of_nat (length utf) + 1) h in
  match p with
  | Some _ => Done (Some ((λ c, if decide (c = from) then to else c) <$> utf)) h'
  | None => match utf with [] => Done None h' | _ => Undef end
  end.
Definition dots_to_slash `{Allocator} (utf : list Z) : M mem unit (option (list Z)) := replace_chars 46 47 utf.
Definition slash_to_dots `{Allocator} (utf : list Z) : M mem unit (option (list Z)) := replace_chars 47 46 utf.

(** ** Reference definitions *)

Fixpoint decode (bytes : list Z) : option (list Z) :=
  match bytes with
  | [] => Some []
  | b :: rest =>
    if one_byte b then (cons b) <$> decode rest
    else if two_bytes b then
      match rest with
      | b1 :: rest' =>
        if continues b1 then (cons (b mod 2 ^ 5 * 2 ^ 6 + b1 mod 2 ^ 6)) <$> decode rest' else None
      | _ => None
      end
    else if three_bytes b then
      match rest with
      | b1 :: b2 :: rest' =>
        if continues b1 && continues b2
        then (cons (b mod 2 ^ 4 * 2 ^ 12 + b1 mod 2 ^ 6 * 2 ^ 6 + b2 mod 2 ^ 6)) <$> decode rest'
        else None
      | _ => None
      end
    else None
  end.

(** The class file encoding of a character: zero takes two bytes. *)
Definition encode_char (c : Z) : list Z :=
  if decide (0 < c < 0x80) then [c]
  else if decide (c < 0x800) then [0xc0 + c / 2 ^ 6; 0x80 + c mod 2 ^ 6]
  else [0xe0 + c / 2 ^ 12; 0x80 + (c / 2 ^ 6) mod 2 ^ 6; 0x80 + c mod 2 ^ 6].
Definition encode (cs : list Z) : list Z := concat (encode_char <$> cs).

(** ** The loops against the reference *)

Lemma land_low b k : 0 <= k → Z.land b (2 ^ k - 1) = b mod 2 ^ k.
Proof. intros Hk. rewrite <- Z.land_ones by done. by rewrite Z.ones_equiv, Z.sub_1_r. Qed.

Lemma byte_at_drop bytes i k : 0 <= i → byte_at bytes (i + Z.of_nat k) = drop (Z.to_nat i) bytes !! k.
Proof.
  intros Hi. unfold byte_at. rewrite decide_True by lia. rewrite lookup_drop. f_equal. lia.
Qed.

Section loops.
Context (bytes : list Z).
Context (Hn : Z.of_nat (length bytes) < 2 ^ 28).
#[local] Abbreviation n := (Z.of_nat (length bytes)).

(** The bytes from position [i] on, and reading them. *)
Definition at_pos (i : Z) (suf : list Z) : Prop := 0 <= i ∧ drop (Z.to_nat i) bytes = suf ∧ i + Z.of_nat (length suf) = n.

Lemma at_pos_cons i b suf : at_pos i (b :: suf) → at_pos (i + 1) suf ∧ byte_at bytes i = Some b ∧ i < n ∧ u32 (i + 1) = i + 1.
Proof.
  intros (Hi & Hd & Hl). cbn [length] in Hl. split_and!.
  - split_and!; [lia| |lia]. replace (Z.to_nat (i + 1)) with (S (Z.to_nat i)) by lia.
    change suf with (drop 1 (b :: suf)). rewrite <- Hd, drop_drop. f_equal. lia.
  - replace i with (i + Z.of_nat 0) by lia. rewrite byte_at_drop by done. by rewrite Hd.
  - lia.
  - apply u32_id. clia.
Qed.

Lemma at_pos_end i suf : at_pos i suf → n <= i ↔ suf = [].
Proof. intros (_ & _ & Hl). destruct suf; cbn in Hl; split; (done || lia). Qed.

Lemma count_loop_decode fuel : ∀ i suf r, at_pos i suf → (length suf < fuel)%nat → 0 <= r <= i →
  count_loop fuel bytes n i r = Some ((λ cs, r + Z.of_nat (length cs)) <$> decode suf).
Proof.
  induction fuel as [|fuel IH]; intros i suf r Hp Hf Hr; [lia|]. cbn [count_loop].
  destruct suf as [|b suf]; [rewrite decide_False by (pose proof (proj2 (at_pos_end i [] Hp) eq_refl); lia); cbn; do 2 f_equal; lia|].
  destruct (at_pos_cons _ _ _ Hp) as (Hp1 & -> & Hlt & Hu). rewrite decide_True by done. rewrite Hu.
  rewrite (u32_id (r + 1)) by (destruct Hp; clia). cbn [mbind option_bind decode length] in Hf |- *.
  destruct (one_byte b).
  { rewrite (IH _ suf) by (done || lia). destruct (decode suf); [|done]. cbn. do 2 f_equal. lia. }
  destruct (two_bytes b).
  { destruct suf as [|b1 suf]; [rewrite decide_True by (by apply (at_pos_end (i + 1) [] Hp1)); done|].
    destruct (at_pos_cons _ _ _ Hp1) as (Hp2 & -> & Hlt1 & Hu1). rewrite decide_False by lia. rewrite Hu1.
    cbn [mbind option_bind length] in Hf |- *. destruct (continues b1); [|done].
    cbn [negb]. rewrite (IH _ suf) by (done || lia). destruct (decode suf); [|done]. cbn. do 2 f_equal. lia. }
  destruct (three_bytes b); [|done].
  destruct suf as [|b1 suf].
  { pose proof (proj2 (at_pos_end (i + 1) [] Hp1) eq_refl). destruct Hp. rewrite decide_True; [done|]. rewrite u32_id; [lia|clia]. }
  destruct (at_pos_cons _ _ _ Hp1) as (Hp2 & Eb1 & Hlt1 & Hu1).
  rewrite (u32_id (i + 2)) by (destruct Hp; clia). replace (i + 1 + 1) with (i + 2) in * by lia.
  destruct suf as [|b2 suf]; [rewrite decide_True by (by apply (at_pos_end (i + 2) [] Hp2)); done|].
  destruct (at_pos_cons _ _ _ Hp2) as (Hp3 & Eb2 & Hlt2 & Hu2). rewrite decide_False by lia.
  rewrite Eb1. cbn [mbind option_bind length] in Hf |- *. destruct (continues b1); [|done]. cbn [negb andb].
  rewrite Hu1, Eb2. cbn [mbind option_bind]. destruct (continues b2); [|done]. cbn [negb].
  rewrite Hu2, (IH _ suf) by (done || lia). destruct (decode suf); [|done]. cbn. do 2 f_equal. lia.
Qed.

Lemma array_set_next done zeros c z : Z.of_nat (length done) < n →
  array_set_field_char (done ++ z :: zeros) (s32 (Z.of_nat (length done))) c = Some ((done ++ [c]) ++ zeros) ∧
  u32 (Z.of_nat (length done) + 1) = Z.of_nat (length (done ++ [c])).
Proof.
  intros Hl. unfold array_set_field_char, s32. rewrite signed_id by (cbn; lia). rewrite length_app. cbn [length].
  rewrite decide_True by lia. rewrite Nat2Z.id. split.
  - f_equal. rewrite insert_app_r_alt by lia. rewrite Nat.sub_diag. cbn. by rewrite <- app_assoc.
  - rewrite u32_id by clia. rewrite length_app. cbn. lia.
Qed.

Lemma char2 b b1 : u16 (u16 (Z.shiftl (Z.land b 0x1f) 6) + Z.land b1 0x3f) = b mod 2 ^ 5 * 2 ^ 6 + b1 mod 2 ^ 6.
Proof.
  change 0x1f with (2 ^ 5 - 1). change 0x3f with (2 ^ 6 - 1). rewrite !land_low, Z.shiftl_mul_pow2 by lia.
  pose proof (Z.mod_pos_bound b (2 ^ 5) eq_refl). pose proof (Z.mod_pos_bound b1 (2 ^ 6) eq_refl).
  rewrite (u16_id (b mod 2 ^ 5 * 2 ^ 6)) by clia. rewrite u16_id; clia.
Qed.
Lemma char3 b b1 b2 :
  u16 (u16 (u16 (Z.shiftl (Z.land b 0xf) 12) + Z.shiftl (Z.land b1 0x3f) 6) + Z.land b2 0x3f) =
  b mod 2 ^ 4 * 2 ^ 12 + b1 mod 2 ^ 6 * 2 ^ 6 + b2 mod 2 ^ 6.
Proof.
  change 0xf with (2 ^ 4 - 1). change 0x3f with (2 ^ 6 - 1). rewrite !land_low, !Z.shiftl_mul_pow2 by lia.
  pose proof (Z.mod_pos_bound b (2 ^ 4) eq_refl). pose proof (Z.mod_pos_bound b1 (2 ^ 6) eq_refl).
  pose proof (Z.mod_pos_bound b2 (2 ^ 6) eq_refl). rewrite (u16_id (b mod 2 ^ 4 * 2 ^ 12)) by clia.
  rewrite (u16_id (b mod 2 ^ 4 * 2 ^ 12 + b1 mod 2 ^ 6 * 2 ^ 6)) by clia. rewrite u16_id; clia.
Qed.

Lemma fmap_cons_Some (c : Z) (o : option (list Z)) cs : cons c <$> o = Some cs → ∃ cs', o = Some cs' ∧ cs = c :: cs'.
Proof. destruct o; [|done]. intros [= <-]. eauto. Qed.

Lemma store_loop_decode fuel : ∀ i suf done cs, at_pos i suf → (length suf < fuel)%nat →
  Z.of_nat (length done) <= i → decode suf = Some cs →
  store_loop fuel bytes n i (Z.of_nat (length done)) (done ++ replicate (length cs) 0) = Some (done ++ cs).
Proof.
  induction fuel as [|fuel IH]; intros i suf acc cs Hp Hf Hr E; [lia|]. cbn [store_loop].
  destruct suf as [|b suf].
  { rewrite decide_False by (pose proof (proj2 (at_pos_end i [] Hp) eq_refl); lia). by injection E as <-. }
  destruct (at_pos_cons _ _ _ Hp) as (Hp1 & -> & Hlt & Hu). rewrite decide_True by done. rewrite Hu.
  cbn [mbind option_bind decode length] in Hf, E |- *.
  assert (∀ c, Z.of_nat (length (acc ++ [c])) <= i + 1) as Hacc by (intros; rewrite length_app; cbn; lia).
  destruct (one_byte b).
  { apply fmap_cons_Some in E as (cs' & E & ->). cbn [length replicate].
    destruct (array_set_next acc (replicate (length cs') 0) b 0) as [-> ->]; [lia|]. cbn [mbind option_bind].
    rewrite (IH _ suf) by (done || lia || apply Hacc). by rewrite <- app_assoc. }
  destruct (two_bytes b).
  { destruct suf as [|b1 suf]; [done|]. destruct (continues b1); [|done].
    apply fmap_cons_Some in E as (cs' & E & ->).
    destruct (at_pos_cons _ _ _ Hp1) as (Hp2 & -> & Hlt1 & Hu1). rewrite Hu1.
    cbn [mbind option_bind length replicate] in Hf |- *. rewrite char2.
    destruct (array_set_next acc (replicate (length cs') 0) (b mod 2 ^ 5 * 2 ^ 6 + b1 mod 2 ^ 6) 0) as [-> ->]; [lia|]. cbn [mbind option_bind].
    rewrite (IH _ suf); [by rewrite <- app_assoc|done|lia|rewrite length_app; cbn; lia|done]. }
  destruct (three_bytes b); [|done]. destruct suf as [|b1 [|b2 suf]]; [done..|].
  destruct (continues b1 && continues b2); [|done]. apply fmap_cons_Some in E as (cs' & E & ->).
  destruct (at_pos_cons _ _ _ Hp1) as (Hp2 & -> & Hlt1 & Hu1). rewrite Hu1. cbn [mbind option_bind].
  destruct (at_pos_cons _ _ _ Hp2) as (Hp3 & -> & Hlt2 & Hu2). rewrite Hu2.
  cbn [mbind option_bind length replicate] in Hf |- *. rewrite char3.
  destruct (array_set_next acc (replicate (length cs') 0)
    (b mod 2 ^ 4 * 2 ^ 12 + b1 mod 2 ^ 6 * 2 ^ 6 + b2 mod 2 ^ 6) 0) as [-> ->]; [lia|]. cbn [mbind option_bind].
  rewrite (IH _ suf); [by rewrite <- app_assoc|done|lia|rewrite length_app; cbn; lia|done].
Qed.

Lemma at_pos_0 : at_pos 0 bytes.
Proof. split_and!; [lia|done|lia]. Qed.
End loops.

(** ** Decoding what was encoded *)

(** Checked on every byte: the classes of bytes as ranges. *)
Definition class_ok (m : nat) : bool :=
  let b := Z.of_nat m in
  eqb (one_byte b) (bool_decide (b < 0x80)) && eqb (two_bytes b) (bool_decide (0xc0 <= b < 0xe0)) &&
  eqb (three_bytes b) (bool_decide (0xe0 <= b < 0xf0)) && eqb (continues b) (bool_decide (0x80 <= b < 0xc0)).
Lemma byte_classes b : is_u8 b →
  one_byte b = bool_decide (b < 0x80) ∧ two_bytes b = bool_decide (0xc0 <= b < 0xe0) ∧
  three_bytes b = bool_decide (0xe0 <= b < 0xf0) ∧ continues b = bool_decide (0x80 <= b < 0xc0).
Proof.
  intros Hb. assert (forallb class_ok (seq 0 256) = true) as H by (by vm_compute).
  rewrite forallb_forall in H. specialize (H (Z.to_nat b)).
  assert (class_ok (Z.to_nat b) = true) as Hc by (apply H, in_seq; clia). unfold class_ok in Hc.
  rewrite Z2Nat.id in Hc by clia. rewrite !andb_true_iff, !eqb_true_iff in Hc. tauto.
Qed.

Lemma mul_add_mod k q m : 0 <= q < m → (k * m + q) mod m = q.
Proof. intros Hq. rewrite Z.add_comm, Z_mod_plus_full. by apply Z.mod_small. Qed.

Lemma decode_char c rest : is_u16 c → decode (encode_char c ++ rest) = cons c <$> decode rest.
Proof.
  intros Hc. unfold is_u16 in Hc. unfold encode_char.
  assert (∀ b, 0 <= b < 0x40 → is_u8 (0x80 + b) ∧ continues (0x80 + b) = true ∧ (0x80 + b) mod 2 ^ 6 = b) as Hcont.
  { intros b Hb. assert (is_u8 (0x80 + b)) as Hu by clia. destruct (byte_classes _ Hu) as (_ & _ & _ & ->).
    split_and!; [done|by apply bool_decide_eq_true_2; lia|]. exact (mul_add_mod 2 b (2 ^ 6) Hb). }
  pose proof (Z.mod_pos_bound c (2 ^ 6) eq_refl) as H6.
  destruct (Hcont (c mod 2 ^ 6) H6) as (_ & Hk & Hm).
  case_decide as H1; [|case_decide as H2].
  - cbn [app decode]. destruct (byte_classes c ltac:(clia)) as (-> & _). by rewrite bool_decide_eq_true_2 by lia.
  - assert (0 <= c / 2 ^ 6 < 0x20) as Hq by (split; [apply Z.div_pos; lia|apply Z.div_lt_upper_bound; lia]).
    cbn [app decode]. destruct (byte_classes (0xc0 + c / 2 ^ 6) ltac:(clia)) as (-> & -> & _).
    rewrite bool_decide_eq_false_2, bool_decide_eq_true_2, Hk, Hm by lia. do 2 f_equal.
    rewrite (mul_add_mod 6 (c / 2 ^ 6) (2 ^ 5) Hq : (0xc0 + c / 2 ^ 6) mod 2 ^ 5 = _).
    pose proof (Z.div_mod c (2 ^ 6) ltac:(lia)). lia.
  - assert (0 <= c / 2 ^ 12 < 0x10) as Hq by (split; [apply Z.div_pos; lia|apply Z.div_lt_upper_bound; lia]).
    pose proof (Z.mod_pos_bound (c / 2 ^ 6) (2 ^ 6) eq_refl) as H6'.
    destruct (Hcont _ H6') as (_ & Hk' & Hm').
    cbn [app decode]. destruct (byte_classes (0xe0 + c / 2 ^ 12) ltac:(clia)) as (-> & -> & -> & _).
    rewrite 2!bool_decide_eq_false_2, bool_decide_eq_true_2, Hk, Hk', Hm, Hm' by lia. cbn [andb]. do 2 f_equal.
    rewrite (mul_add_mod 14 (c / 2 ^ 12) (2 ^ 4) Hq : (0xe0 + c / 2 ^ 12) mod 2 ^ 4 = _).
    pose proof (Z.div_mod c (2 ^ 6) ltac:(lia)). pose proof (Z.div_mod (c / 2 ^ 6) (2 ^ 6) ltac:(lia)).
    rewrite Z.div_div in * by lia. change (2 ^ 6 * 2 ^ 6) with (2 ^ 12) in *. lia.
Qed.

Lemma decode_encode cs : Forall is_u16 cs → decode (encode cs) = Some cs.
Proof.
  induction cs as [|c cs IH]; intros Hc; [done|]. apply Forall_cons_1 in Hc as [Hc Hcs].
  change (encode (c :: cs)) with (encode_char c ++ encode cs). by rewrite decode_char, IH by done.
Qed.

(** ** Properties *)

(** C35: Converting bytes to a character array: no byte is read past the end and no
    cell written past the array.  The result is null exactly when the bytes are not
    well-formed or the array cannot be allocated, and otherwise the array of the
    characters the bytes encode, as many as were counted. *)
Theorem utf8_to_char_array_correct (alloc_ok : bool) (bytes : list Z) :
  Z.of_nat (length bytes) < 2 ^ 28 →
  utf8_char_count bytes (Z.of_nat (length bytes)) = Some ((λ cs, Z.of_nat (length cs)) <$> decode bytes) ∧
  utf8_to_char_array alloc_ok bytes (Z.of_nat (length bytes)) = Some (if alloc_ok then decode bytes else None).
Proof.
  intros Hn. assert (utf8_char_count bytes (Z.of_nat (length bytes)) = Some ((λ cs, Z.of_nat (length cs)) <$> decode bytes)) as Hc.
  { unfold utf8_char_count. by rewrite (count_loop_decode bytes Hn _ 0 bytes 0) by (apply at_pos_0 || lia). }
  split; [exact Hc|]. unfold utf8_to_char_array. rewrite Hc. cbn [mbind option_bind].
  destruct (decode bytes) as [cs|] eqn:E; cbn [fmap option_fmap option_map]; [|by destruct alloc_ok].
  destruct alloc_ok; [|done]. rewrite (Nat2Z.id (length cs)).
  pose proof (store_loop_decode bytes Hn (S (Z.to_nat (Z.of_nat (length bytes)))) 0 bytes [] cs
    ltac:(apply at_pos_0) ltac:(lia) ltac:(cbn; lia) E) as Hs.
  cbn [length app] in Hs. change (Z.of_nat 0) with 0 in Hs. by rewrite Hs.
Qed.

(** A character array written in the encoding of class files reads back as itself. *)
Theorem utf8_roundtrip (cs : list Z) :
  Forall is_u16 cs → Z.of_nat (length (encode cs)) < 2 ^ 28 →
  utf8_to_char_array true (encode cs) (Z.of_nat (length (encode cs))) = Some (Some cs).
Proof.
  intros Hc Hn. unfold utf8_to_char_array, utf8_char_count.
  rewrite (count_loop_decode _ Hn _ 0 (encode cs) 0) by (apply at_pos_0 || lia).
  rewrite decode_encode by done. cbn [fmap option_fmap option_map mbind option_bind].
  rewrite Z.add_0_l, (Nat2Z.id (length cs)).
  pose proof (store_loop_decode _ Hn (S (Z.to_nat (Z.of_nat (length (encode cs))))) 0 (encode cs) [] cs
    ltac:(apply at_pos_0) ltac:(lia) ltac:(cbn; lia) (decode_encode cs Hc)) as Hs.
  cbn [length app] in Hs. change (Z.of_nat 0) with 0 in Hs. by rewrite Hs.
Qed.

(** ** Examples *)

Lemma utf8_to_char_array_correct_witness :
  utf8_to_char_array true [0x41; 0xc3; 0xa9; 0xe2; 0x82; 0xac] 6 = Some (Some [0x41; 0xe9; 0x20ac]).
Proof. exact (proj2 (utf8_to_char_array_correct true [0x41; 0xc3; 0xa9; 0xe2; 0x82; 0xac] ltac:(by vm_compute))). Defined.

Lemma utf8_roundtrip_witness :
  utf8_to_char_array true (encode [0; 0x7f; 0x80; 0xffff]) (Z.of_nat (length (encode [0; 0x7f; 0x80; 0xffff]))) =
  Some (Some [0; 0x7f; 0x80; 0xffff]).
Proof. exact (utf8_roundtrip [0; 0x7f; 0x80; 0xffff] ltac:(by repeat constructor) ltac:(by vm_compute)). Defined.
