(* ===== verification/Monitor.v ===== *)
(** * vm/monitor.c: object monitors with relaxed locks

    Threads run the entry points of vm/monitor.c, and [vm_thread_interrupt] and
    [vm_thread_interrupted] of vm/thread.c, on shared objects and monitor records.
    A thread's program counter names the next access to shared memory; [exec] takes
    one thread one access further, so a run is any interleaving of single accesses
    (the memory is sequentially consistent: the barriers of the source are where x86
    would need them).  Fields only the owner of a monitor reads or writes
    ([lock_count]) and the state of a thread, which nobody else reads here, go
    with the access next to them; the critical sections of a thread's own mutex are
    one access.

    A use of a released record, the overflow of [lock_count] and a failed assertion
    stop the thread in a counter of their own. *)

From stdpp Require Import gmap.
From S2P Require Import Prelude.
#[local] Open Scope Z_scope.

(** ** Data *)

Abbreviation oid := nat.
Abbreviation rid := nat.
Abbreviation tid := nat.

Definition INT_MAX : Z := 2147483647.
Definition SEM_VALUE_MAX : Z := 2147483647.

(** [sem] and [notify_mutex] are the values of the POSIX objects; [notify_cond] is
    the set of threads blocked on the condition variable. *)
Record vm_monitor_record := MonitorRecord {
  owner : option tid;
  nr_blocked : Z;
  nr_waiting : Z;
  candidate : Z;
  lock_count : Z;
  sem : Z;
  notify_mutex : option tid;
  notify_cond : gset tid;
}.

Definition set_owner (x : option tid) (r : vm_monitor_record) : vm_monitor_record :=
  MonitorRecord x (nr_blocked r) (nr_waiting r) (candidate r) (lock_count r) (sem r) (notify_mutex r) (notify_cond r).
Definition set_nr_blocked (x : Z) (r : vm_monitor_record) : vm_monitor_record :=
  MonitorRecord (owner r) x (nr_waiting r) (candidate r) (lock_count r) (sem r) (notify_mutex r) (notify_cond r).
Definition set_nr_waiting (x : Z) (r : vm_monitor_record) : vm_monitor_record :=
  MonitorRecord (owner r) (nr_blocked r) x (candidate r) (lock_count r) (sem r) (notify_mutex r) (notify_cond r).
Definition set_candidate (x : Z) (r : vm_monitor_record) : vm_monitor_record :=
  MonitorRecord (owner r) (nr_blocked r) (nr_waiting r) x (lock_count r) (sem r) (notify_mutex r) (notify_cond r).
Definition set_lock_count (x : Z) (r : vm_monitor_record) : vm_monitor_record :=
  MonitorRecord (owner r) (nr_blocked r) (nr_waiting r) (candidate r) x (sem r) (notify_mutex r) (notify_cond r).
Definition set_sem (x : Z) (r : vm_monitor_record) : vm_monitor_record :=
  MonitorRecord (owner r) (nr_blocked r) (nr_waiting r) (candidate r) (lock_count r) x (notify_mutex r) (notify_cond r).
Definition set_notify_mutex (x : option tid) (r : vm_monitor_record) : vm_monitor_record :=
  MonitorRecord (owner r) (nr_blocked r) (nr_waiting r) (candidate r) (lock_count r) (sem r) x (notify_cond r).
Definition set_notify_cond (x : gset tid) (r : vm_monitor_record) : vm_monitor_record :=
  MonitorRecord (owner r) (nr_blocked r) (nr_waiting r) (candidate r) (lock_count r) (sem r) (notify_mutex r) x.

(** arch/atomic.h: the counters are 32-bit and wrap. *)
Definition atomic_inc (z : Z) : Z := s32 (z + 1).
Definition atomic_dec (z : Z) : Z := s32 (z - 1).

(** [sem_post] fails, and leaves the value, at its maximum; nobody looks at its result. *)
Definition sem_post (r : vm_monitor_record) : vm_monitor_record :=
  if decide (sem r < SEM_VALUE_MAX) then set_sem (sem r + 1) r else r.

Record timespec := Timespec { tv_sec : Z; tv_nsec : Z }.

(** POSIX: [pthread_cond_timedwait] refuses nanoseconds outside a second. *)
Definition valid_timespec (ts : timespec) : bool :=
  bool_decide (0 <= tv_nsec ts) && bool_decide (tv_nsec ts < 1000000000).
Definition EINVAL : Z := 22.

Inductive vm_thread_state :=
| VM_THREAD_STATE_BLOCKED | VM_THREAD_STATE_NEW | VM_THREAD_STATE_RUNNABLE | VM_THREAD_STATE_TERMINATED
| VM_THREAD_STATE_TIMED_WAITING | VM_THREAD_STATE_WAITING
| VM_THREAD_STATE_CONSISTENT | VM_THREAD_STATE_INCONSISTENT.

Inductive exn := IllegalMonitorStateException | InterruptedException | OutOfMemoryError.

(** *** Program counters

    Who called [vm_object_lock], [vm_object_unlock] and the notifications, with the
    caller's locals: the record, the saved lock count and the error of the wait. *)

Inductive lock_kont :=
| LkClient
| LkWait (record : rid) (old_lock_count err : Z)
| LkInterrupt.
Inductive unlock_kont :=
| UkClient
| UkWait (record : rid) (interrupted : bool) (old_lock_count : Z) (ts : option timespec)
| UkInterrupt.
Inductive notify_kont := NkClient | NkInterrupt.

(** Who called [owner_check]. *)
Inductive check_kont :=
| CkUnlock (k : unlock_kont)
| CkWait (ts : option timespec)
| CkNotify (all : bool) (k : notify_kont).

Inductive check_pc := ORead | OOwner (record : rid).

Inductive lock_pc :=
| LRead                       (* old_record = self->monitor_record *)
| LGet                        (* get_monitor_record() *)
| LCas (record : rid)         (* cmpxchg_ptr(&self->monitor_record, NULL, record) *)
| LOwner (record : rid)       (* old_record->owner == ee *)
| LRecurse (record : rid)     (* old_record->lock_count++ *)
| LIncBlocked (record : rid)  (* atomic_inc(&old_record->nr_blocked) *)
| LCheck (record : rid)       (* self->monitor_record == old_record *)
| LCand (record : rid)        (* atomic_set(&old_record->candidate, 1) *)
| LTry (record : rid)         (* cmpxchg_ptr(&old_record->owner, NULL, ee) *)
| LWait (record : rid)        (* sem_wait(&record->sem) *)
| LWonDec (record : rid)      (* atomic_dec(&old_record->nr_blocked), lock taken *)
| LWonCount (record : rid)    (* old_record->lock_count = 1 *)
| LDec (record : rid).        (* atomic_dec(&old_record->nr_blocked), deflated *)

Inductive unlock_pc :=
| UCount (record : rid)       (* record->lock_count > 1 *)
| UBlocked (record : rid)     (* atomic_read(&record->nr_blocked) > 0 *)
| UWaiting (record : rid)     (* atomic_read(&record->nr_waiting) > 0 *)
| URelease (record : rid)     (* record->owner = NULL *)
| UWake (record : rid)        (* atomic_cmpxchg(&record->candidate, 1, 0) *)
| UPost (record : rid)        (* sem_post(&record->sem) *)
| UDeflate (record : rid)     (* self->monitor_record = NULL *)
| UReread (record : rid)      (* nr_blocked = atomic_read(&record->nr_blocked) *)
| UFlush (record : rid) (left : nat)  (* the loop of sem_post *)
| USpin (record : rid)        (* while (atomic_read(&record->nr_blocked) > 0) *)
| UReset (record : rid)       (* atomic_set(&record->candidate, 0) *)
| UPut (record : rid).        (* put_monitor_record(record) *)

Inductive wait_pc :=
| WMutex (record : rid)
| WIntr (record : rid)
| WSave (record : rid) (interrupted : bool)
| WIncWaiting (record : rid) (interrupted : bool) (old_lock_count : Z)
| WCond (record : rid) (interrupted : bool) (old_lock_count : Z)
| WBlocked (record : rid) (old_lock_count : Z)
| WReacquire (record : rid) (old_lock_count : Z)
| WUnlock (record : rid) (old_lock_count err : Z)
| WClear (record : rid) (old_lock_count err : Z)
| WDec (record : rid) (old_lock_count err : Z)
| WAssert (record : rid) (old_lock_count err : Z)
| WRestore (record : rid) (old_lock_count err : Z)
| WTest (err : Z).

Inductive notify_pc := NMutex (record : rid) | NSignal (record : rid) | NUnlock (record : rid).

Inductive pc :=
| PIdle
| PCheck (self : oid) (k : check_kont) (p : check_pc)
| PLock (self : oid) (k : lock_kont) (p : lock_pc)
| PUnlock (self : oid) (k : unlock_kont) (p : unlock_pc)
| PWait (self : oid) (ts : option timespec) (p : wait_pc)
| PNotify (self : oid) (all : bool) (k : notify_kont) (p : notify_pc)
| PInterrupt (target : tid)
| PUndef
| POverflow
| PAssertFailed
| PExited.

(** A thread with its execution environment: its counter, the pool
    [free_monitor_recs] (first entry first), the exception signalled, and the fields
    of [struct vm_thread] used here. *)
Record vm_thread := Thread {
  at_ : pc;
  free_monitor_recs : list rid;
  exception : option exn;
  interrupted : bool;
  waiting_mon : option oid;
  thread_state : vm_thread_state;
}.

Definition set_at (p : pc) (th : vm_thread) : vm_thread :=
  Thread p (free_monitor_recs th) (exception th) (interrupted th) (waiting_mon th) (thread_state th).
Definition set_pool (l : list rid) (th : vm_thread) : vm_thread :=
  Thread (at_ th) l (exception th) (interrupted th) (waiting_mon th) (thread_state th).
Definition signal_new_exception (e : exn) (th : vm_thread) : vm_thread :=
  Thread (at_ th) (free_monitor_recs th) (Some e) (interrupted th) (waiting_mon th) (thread_state th).
Definition set_interrupted (b : bool) (th : vm_thread) : vm_thread :=
  Thread (at_ th) (free_monitor_recs th) (exception th) b (waiting_mon th) (thread_state th).
Definition set_waiting_mon (o : option oid) (th : vm_thread) : vm_thread :=
  Thread (at_ th) (free_monitor_recs th) (exception th) (interrupted th) o (thread_state th).
Definition vm_thread_set_state (st : vm_thread_state) (th : vm_thread) : vm_thread :=
  Thread (at_ th) (free_monitor_recs th) (exception th) (interrupted th) (waiting_mon th) st.

(** [objs] maps an object to its [monitor_record], and has no entry where that is
    null; [recs] are the records allocated. *)
Record state := State {
  objs : gmap oid rid;
  recs : gmap rid vm_monitor_record;
  threads : list vm_thread;
}.

(** What a client sees of a call: its result, [-1] with an exception signalled. *)
Inductive event :=
| ELock (t : tid) (o : oid) (v : Z)
| EUnlock (t : tid) (o : oid) (v : Z)
| EWait (t : tid) (o : oid) (v : Z)
| ENotify (t : tid) (o : oid) (all : bool) (v : Z)
| EInterrupt (t : tid).

Inductive call :=
| CLock (o : oid)
| CUnlock (o : oid)
| CWait (o : oid)
| CTimedWait (o : oid) (now : timespec) (ms ns : Z)
| CNotify (o : oid)
| CNotifyAll (o : oid)
| CInterrupt (target : tid)
| CInterrupted.

(** What the environment decides: the next call of an idle thread, what [malloc]
    returns, which waiter [pthread_cond_signal] picks, wake-ups nobody asked for,
    the end of a timed wait, and when a thread ends. *)
Inductive action :=
| ACall (c : call)
| AStep
| AMalloc (r : rid)
| ANoMemory
| APick (t : tid)
| ASpurious
| ATimeout
| AExit.

Record outcome := Outcome {
  o_objs : gmap oid rid;
  o_recs : gmap rid vm_monitor_record;
  o_thread : vm_thread;
  o_event : option event;
}.

(** ** Operations *)

(** [malloc] and the initialisation in [get_monitor_record]. *)
Definition new_monitor_record (ee : tid) : vm_monitor_record := MonitorRecord (Some ee) 0 0 0 1 0 None ∅.

(** The deadline of [vm_object_timed_wait]; [ms] is a [uint64_t], the rest [long]. *)
Definition timed_wait_deadline (now : timespec) (ms ns : Z) : timespec :=
  let sec := s64 (tv_sec now + ms / 1000) in
  let nsec := s64 (tv_nsec now + (ns + (ms mod 1000) * 1000000)) in
  if decide (1000000000 <= nsec) then Timespec (s64 (sec + 1)) (s64 (nsec - 1000000000)) else Timespec sec nsec.

Section step.
Context (t : tid) (a : action) (o : gmap oid rid) (m : gmap rid vm_monitor_record) (th : vm_thread).

Definition done (th' : vm_thread) : option outcome := Some (Outcome o m th' None).
Definition goto (p : pc) : option outcome := done (set_at p th).
(** The call returns to the client. *)
Definition ret (th' : vm_thread) (e : event) : outcome := Outcome o m (set_at PIdle th') (Some e).

(** An access to the record [r], and one that writes it. *)
Definition with_rec (r : rid) (f : vm_monitor_record → option outcome) : option outcome :=
  match m !! r with Some x => f x | None => goto PUndef end.
Definition store (r : rid) (x : vm_monitor_record) (out : option outcome) : option outcome :=
  match out with Some (Outcome o' m' th' e) => Some (Outcome o' (<[r := x]> m') th' e) | None => None end.

(** [vm_object_lock], [vm_object_unlock] and the notifications return to their callers. *)
Definition return_lock (self : oid) (k : lock_kont) (v : Z) (th' : vm_thread) : option outcome :=
  match k with
  | LkClient => Some (ret th' (ELock t self v))
  | LkWait r c err => done (set_at (PWait self None (WDec r c err)) th')
  | LkInterrupt =>
    if decide (v = 0) then done (set_at (PCheck self (CkNotify true NkInterrupt) ORead) th')
    else Some (ret th' (EInterrupt t))
  end.
Definition return_unlock (self : oid) (k : unlock_kont) (v : Z) (th' : vm_thread) : option outcome :=
  match k with
  | UkClient => Some (ret th' (EUnlock t self v))
  | UkWait r intr c ts => done (set_at (PWait self ts (WCond r intr c)) th')
  | UkInterrupt => Some (ret th' (EInterrupt t))
  end.
Definition return_notify (self : oid) (all : bool) (k : notify_kont) (v : Z) (th' : vm_thread) : option outcome :=
  match k with
  | NkClient => Some (ret th' (ENotify t self all v))
  | NkInterrupt => done (set_at (PCheck self (CkUnlock UkInterrupt) ORead) th')
  end.

(** [owner_check] succeeds with [r], or signals and makes its caller return -1. *)
Definition owner_check_ok (self : oid) (k : check_kont) (r : rid) : option outcome :=
  match k with
  | CkUnlock k => goto (PUnlock self k (UCount r))
  | CkWait ts => goto (PWait self ts (WMutex r))
  | CkNotify all k => goto (PNotify self all k (NMutex r))
  end.
Definition owner_check_fail (self : oid) (k : check_kont) : option outcome :=
  let th' := signal_new_exception IllegalMonitorStateException th in
  match k with
  | CkUnlock k => return_unlock self k (-1) th'
  | CkWait _ => Some (ret th' (EWait t self (-1)))
  | CkNotify all k => return_notify self all k (-1) th'
  end.
Definition owner_check (self : oid) (k : check_kont) (p : check_pc) : option outcome :=
  match p with
  | ORead =>
    match o !! self with
    | None => owner_check_fail self k
    | Some r => goto (PCheck self k (OOwner r))
    end
  | OOwner r =>
    with_rec r (λ x, if decide (owner x = Some t) then owner_check_ok self k r else owner_check_fail self k)
  end.

Definition get_monitor_record (self : oid) (k : lock_kont) : option outcome :=
  match free_monitor_recs th, a with
  | r :: rs, AStep => done (set_at (PLock self k (LCas r)) (set_pool rs th))
  | [], AMalloc r =>
    match m !! r with
    | Some _ => None
    | None => store r (new_monitor_record t) (goto (PLock self k (LCas r)))
    end
  | [], ANoMemory => return_lock self k (-1) (signal_new_exception OutOfMemoryError th)
  | _, _ => None
  end.

Definition put_monitor_record (r : rid) : vm_thread := set_pool (r :: free_monitor_recs th) th.

(** [wait]: blocked on the semaphore; the thread's state was set on the way in. *)
Definition wait (self : oid) (k : lock_kont) (r : rid) : option outcome :=
  with_rec r (λ x,
    if decide (0 < sem x)
    then store r (set_sem (sem x - 1) x)
           (done (set_at (PLock self k (LCheck r)) (vm_thread_set_state VM_THREAD_STATE_RUNNABLE th)))
    else None).

Definition vm_object_lock (self : oid) (k : lock_kont) (p : lock_pc) : option outcome :=
  match p with
  | LRead =>
    match o !! self with
    | None => goto (PLock self k LGet)
    | Some r => goto (PLock self k (LOwner r))
    end
  | LGet => get_monitor_record self k
  | LCas r =>
    match o !! self with
    | None =>
      match return_lock self k 0 th with
      | Some (Outcome o' m' th' e) => Some (Outcome (<[self := r]> o') m' th' e)
      | None => None
      end
    | Some _ => done (set_at (PLock self k LRead) (put_monitor_record r))
    end
  | LOwner r =>
    with_rec r (λ x, goto (PLock self k (if decide (owner x = Some t) then LRecurse r else LIncBlocked r)))
  | LRecurse r =>
    with_rec r (λ x, if decide (lock_count x < INT_MAX)
                     then store r (set_lock_count (lock_count x + 1) x) (return_lock self k 0 th)
                     else goto POverflow)
  | LIncBlocked r =>
    with_rec r (λ x, store r (set_nr_blocked (atomic_inc (nr_blocked x)) x) (goto (PLock self k (LCheck r))))
  | LCheck r => goto (PLock self k (if decide (o !! self = Some r) then LCand r else LDec r))
  | LCand r => with_rec r (λ x, store r (set_candidate 1 x) (goto (PLock self k (LTry r))))
  | LTry r =>
    with_rec r (λ x,
      match owner x with
      | None => store r (set_owner (Some t) x) (goto (PLock self k (LWonDec r)))
      | Some _ => done (set_at (PLock self k (LWait r)) (vm_thread_set_state VM_THREAD_STATE_BLOCKED th))
      end)
  | LWait r => wait self k r
  | LWonDec r =>
    with_rec r (λ x, store r (set_nr_blocked (atomic_dec (nr_blocked x)) x) (goto (PLock self k (LWonCount r))))
  | LWonCount r => with_rec r (λ x, store r (set_lock_count 1 x) (return_lock self k 0 th))
  | LDec r =>
    with_rec r (λ x, store r (set_nr_blocked (atomic_dec (nr_blocked x)) x) (goto (PLock self k LRead)))
  end.

Definition wake_one (self : oid) (k : unlock_kont) (r : rid) : option outcome :=
  with_rec r (λ x,
    if decide (candidate x = 1)
    then store r (set_candidate 0 x) (goto (PUnlock self k (UPost r)))
    else return_unlock self k 0 th).

Definition vm_object_unlock (self : oid) (k : unlock_kont) (p : unlock_pc) : option outcome :=
  match p with
  | UCount r =>
    with_rec r (λ x, if decide (1 < lock_count x)
                     then store r (set_lock_count (lock_count x - 1) x) (return_unlock self k 0 th)
                     else goto (PUnlock self k (UBlocked r)))
  | UBlocked r => with_rec r (λ x, goto (PUnlock self k (if decide (0 < nr_blocked x) then URelease r else UWaiting r)))
  | UWaiting r => with_rec r (λ x, goto (PUnlock self k (if decide (0 < nr_waiting x) then URelease r else UDeflate r)))
  | URelease r => with_rec r (λ x, store r (set_owner None x) (goto (PUnlock self k (UWake r))))
  | UWake r => wake_one self k r
  | UPost r => with_rec r (λ x, store r (sem_post x) (return_unlock self k 0 th))
  | UDeflate r => Some (Outcome (delete self o) m (set_at (PUnlock self k (UReread r)) th) None)
  | UReread r =>
    with_rec r (λ x, goto (PUnlock self k (if decide (0 < nr_blocked x) then UFlush r (Z.to_nat (nr_blocked x)) else UPut r)))
  | UFlush r 0 => goto (PUnlock self k (USpin r))
  | UFlush r (S n) => with_rec r (λ x, store r (sem_post x) (goto (PUnlock self k (UFlush r n))))
  | USpin r => with_rec r (λ x, goto (PUnlock self k (if decide (0 < nr_blocked x) then USpin r else UReset r)))
  | UReset r => with_rec r (λ x, store r (set_candidate 0 x) (goto (PUnlock self k (UPut r))))
  | UPut r => return_unlock self k 0 (put_monitor_record r)
  end.

(** The return of the condition wait: the thread goes for the mutex again.  A timeout
    counts as a normal return. *)
Definition vm_object_do_wait (self : oid) (ts : option timespec) (p : wait_pc) : option outcome :=
  match p with
  | WMutex r =>
    with_rec r (λ x, match notify_mutex x with
                     | None => store r (set_notify_mutex (Some t) x) (goto (PWait self ts (WIntr r)))
                     | Some _ => None
                     end)
  | WIntr r =>
    let st := match ts with Some _ => VM_THREAD_STATE_TIMED_WAITING | None => VM_THREAD_STATE_WAITING end in
    done (set_at (PWait self ts (WSave r (interrupted th))) (vm_thread_set_state st (set_waiting_mon (Some self) th)))
  | WSave r intr =>
    with_rec r (λ x, store r (set_lock_count 1 x) (goto (PWait self ts (WIncWaiting r intr (lock_count x)))))
  | WIncWaiting r intr c =>
    with_rec r (λ x, store r (set_nr_waiting (atomic_inc (nr_waiting x)) x)
                       (goto (PCheck self (CkUnlock (UkWait r intr c ts)) ORead)))
  | WCond r true c => goto (PWait self ts (WUnlock r c 0))
  | WCond r false c =>
    if match ts with Some d => valid_timespec d | None => true end
    then with_rec r (λ x, store r (set_notify_mutex None (set_notify_cond ({[t]} ∪ notify_cond x) x))
                            (goto (PWait self ts (WBlocked r c))))
    else goto (PWait self ts (WUnlock r c EINVAL))
  | WBlocked r c =>
    with_rec r (λ x,
      match a, ts with
      | ASpurious, _ | ATimeout, Some _ =>
        store r (set_notify_cond (notify_cond x ∖ {[t]}) x) (goto (PWait self ts (WReacquire r c)))
      | AStep, _ => if decide (t ∈ notify_cond x) then None else goto (PWait self ts (WReacquire r c))
      | _, _ => None
      end)
  | WReacquire r c =>
    with_rec r (λ x, match notify_mutex x with
                     | None => store r (set_notify_mutex (Some t) x) (goto (PWait self ts (WUnlock r c 0)))
                     | Some _ => None
                     end)
  | WUnlock r c err => with_rec r (λ x, store r (set_notify_mutex None x) (goto (PWait self ts (WClear r c err))))
  | WClear r c err =>
    done (set_at (PLock self (LkWait r c err) LRead) (vm_thread_set_state VM_THREAD_STATE_RUNNABLE (set_waiting_mon None th)))
  | WDec r c err =>
    with_rec r (λ x, store r (set_nr_waiting (atomic_dec (nr_waiting x)) x) (goto (PWait self ts (WAssert r c err))))
  | WAssert r c err => goto (if decide (o !! self = Some r) then PWait self ts (WRestore r c err) else PAssertFailed)
  | WRestore r c err => with_rec r (λ x, store r (set_lock_count c x) (goto (PWait self ts (WTest err))))
  | WTest err =>
    if interrupted th
    then Some (ret (signal_new_exception InterruptedException (set_interrupted false th)) (EWait t self (-1)))
    else Some (ret th (EWait t self err))
  end.

(** [vm_object_notify] and [vm_object_notify_all]. *)
Definition vm_object_notify (self : oid) (all : bool) (k : notify_kont) (p : notify_pc) : option outcome :=
  match p with
  | NMutex r =>
    with_rec r (λ x, match notify_mutex x with
                     | None => store r (set_notify_mutex (Some t) x) (goto (PNotify self all k (NSignal r)))
                     | Some _ => None
                     end)
  | NSignal r =>
    with_rec r (λ x,
      let next := PNotify self all k (NUnlock r) in
      if all then store r (set_notify_cond ∅ x) (goto next) else
      match a with
      | APick t' => if decide (t' ∈ notify_cond x) then store r (set_notify_cond (notify_cond x ∖ {[t']}) x) (goto next) else None
      | _ => if decide (notify_cond x = ∅) then goto next else None
      end)
  | NUnlock r => with_rec r (λ x, store r (set_notify_mutex None x) (return_notify self all k 0 th))
  end.
End step.

(** An idle thread enters a function. *)
Definition enter (c : call) : pc :=
  match c with
  | CLock self => PLock self LkClient LRead
  | CUnlock self => PCheck self (CkUnlock UkClient) ORead
  | CWait self => PCheck self (CkWait None) ORead
  | CTimedWait self now ms ns => PCheck self (CkWait (Some (timed_wait_deadline now ms ns))) ORead
  | CNotify self => PCheck self (CkNotify false NkClient) ORead
  | CNotifyAll self => PCheck self (CkNotify true NkClient) ORead
  | CInterrupt target => PInterrupt target
  | CInterrupted => PIdle
  end.
Definition vm_thread_interrupted (c : call) (th : vm_thread) : vm_thread :=
  match c with CInterrupted => set_interrupted false th | _ => th end.

(** [free_exec_env] at the end of a thread releases the records of its pool. *)
Definition free_exec_env (th : vm_thread) (m : gmap rid vm_monitor_record) : gmap rid vm_monitor_record :=
  foldr (λ r m, delete r m) m (free_monitor_recs th).

(** [vm_thread_interrupt], its critical section: the flag is set in the target. *)
Definition vm_thread_interrupt (t target : tid) (th : vm_thread) (s : state) : option (state * option event) :=
  match threads s !! target with
  | None => None
  | Some tg =>
    let ths := <[target := set_interrupted true tg]> (threads s) in
    match ths !! t with
    | None => None
    | Some th' =>
      match waiting_mon tg with
      | None => Some (State (objs s) (recs s) (<[t := set_at PIdle th']> ths), Some (EInterrupt t))
      | Some self => Some (State (objs s) (recs s) (<[t := set_at (PLock self LkInterrupt LRead) th']> ths), None)
      end
    end
  end.

Definition local_step (t : tid) (a : action) (s : state) (th : vm_thread) : option outcome :=
  let o := objs s in
  let m := recs s in
  match at_ th with
  | PIdle =>
    match a with
    | ACall c => Some (Outcome o m (set_at (enter c) (vm_thread_interrupted c th)) None)
    | AExit => Some (Outcome o (free_exec_env th m) (set_at PExited (set_pool [] th)) None)
    | _ => None
    end
  | PCheck self k p => owner_check t o m th self k p
  | PLock self k p => vm_object_lock t a o m th self k p
  | PUnlock self k p => vm_object_unlock t o m th self k p
  | PWait self ts p => vm_object_do_wait t a o m th self ts p
  | PNotify self all k p => vm_object_notify t a o m th self all k p
  | PInterrupt _ | PUndef | POverflow | PAssertFailed | PExited => None
  end.

(** One access by thread [t]; [None] when it cannot take one now. *)
Definition exec (t : tid) (a : action) (s : state) : option (state * option event) :=
  match threads s !! t with
  | None => None
  | Some th =>
    match at_ th with
    | PInterrupt target => vm_thread_interrupt t target th s
    | _ =>
      match local_step t a s th with
      | Some (Outcome o m th' e) => Some (State o m (<[t := th']> (threads s)), e)
      | None => None
      end
    end
  end.

Definition init_thread : vm_thread := Thread PIdle [] None false None VM_THREAD_STATE_RUNNABLE.
Definition init (n : nat) : state := State ∅ ∅ (replicate n init_thread).

Definition option_snoc {A} (l : list A) (x : option A) : list A := match x with Some y => l ++ [y] | None => l end.

(** The states [n] threads can reach, with the results their calls returned so far. *)
Inductive run (exits : bool) (n : nat) : state → list event → Prop :=
| run_init : run exits n (init n) []
| run_step s h t a s' e :
    run exits n s h → (a = AExit → exits = true) → exec t a s = Some (s', e) → run exits n s' (option_snoc h e).
