(* ===== verification/MonitorRules.v ===== *)
(** * The steps of the monitors as rules

    [mstep] is the step relation of one thread, a rule for each branch of each
    access, on what the protocol depends on: the objects' records, the records, and
    the counter and the pool of the thread.  The flags a thread is interrupted by are
    left open here.  Every step of [exec] is an instance of a rule. *)

From stdpp Require Import gmap.
From S2P Require Import Prelude Monitor.
#[local] Open Scope Z_scope.

(** ** What a counter says *)

Definition check_rec (p : check_pc) : list rid := match p with ORead => [] | OOwner r => [r] end.
Definition lock_rec (p : lock_pc) : list rid :=
  match p with
  | LRead | LGet => []
  | LCas r | LOwner r | LRecurse r | LIncBlocked r | LCheck r | LCand r | LTry r | LWait r
  | LWonDec r | LWonCount r | LDec r => [r]
  end.
Definition unlock_rec (p : unlock_pc) : rid :=
  match p with
  | UCount r | UBlocked r | UWaiting r | URelease r | UWake r | UPost r | UDeflate r | UReread r
  | UFlush r _ | USpin r | UReset r | UPut r => r
  end.
Definition wait_rec (p : wait_pc) : list rid :=
  match p with
  | WMutex r | WIntr r | WSave r _ | WIncWaiting r _ _ | WCond r _ _ | WBlocked r _ | WReacquire r _
  | WUnlock r _ _ | WClear r _ _ | WDec r _ _ | WAssert r _ _ | WRestore r _ _ => [r]
  | WTest _ => []
  end.
Definition notify_rec (p : notify_pc) : rid := match p with NMutex r | NSignal r | NUnlock r => r end.
Definition lk_rec (k : lock_kont) : list rid := match k with LkWait r _ _ => [r] | _ => [] end.
Definition uk_rec (k : unlock_kont) : list rid := match k with UkWait r _ _ _ => [r] | _ => [] end.
Definition ck_rec (k : check_kont) : list rid := match k with CkUnlock k => uk_rec k | _ => [] end.

(** The records the thread refers to, in its locals and those of its callers. *)
Definition recs_of (p : pc) : list rid :=
  match p with
  | PCheck _ k p => ck_rec k ++ check_rec p
  | PLock _ k p => lk_rec k ++ lock_rec p
  | PUnlock _ k p => uk_rec k ++ [unlock_rec p]
  | PWait _ _ p => wait_rec p
  | PNotify _ _ _ p => [notify_rec p]
  | _ => []
  end.

(** ** Returns *)

Definition lock_ret (self : oid) (k : lock_kont) (v : Z) : pc :=
  match k with
  | LkClient => PIdle
  | LkWait r c err => PWait self None (WDec r c err)
  | LkInterrupt => match v with 0 => PCheck self (CkNotify true NkInterrupt) ORead | _ => PIdle end
  end.
Definition lock_ev (t : tid) (self : oid) (k : lock_kont) (v : Z) : option event :=
  match k with
  | LkClient => Some (ELock t self v)
  | LkWait _ _ _ => None
  | LkInterrupt => match v with 0 => None | _ => Some (EInterrupt t) end
  end.
Definition unlock_ret (self : oid) (k : unlock_kont) : pc :=
  match k with UkWait r intr c ts => PWait self ts (WCond r intr c) | _ => PIdle end.
Definition unlock_ev (t : tid) (self : oid) (k : unlock_kont) (v : Z) : option event :=
  match k with
  | UkClient => Some (EUnlock t self v)
  | UkWait _ _ _ _ => None
  | UkInterrupt => Some (EInterrupt t)
  end.
Definition notify_ret (self : oid) (k : notify_kont) : pc :=
  match k with NkClient => PIdle | NkInterrupt => PCheck self (CkUnlock UkInterrupt) ORead end.
Definition notify_ev (t : tid) (self : oid) (all : bool) (k : notify_kont) (v : Z) : option event :=
  match k with NkClient => Some (ENotify t self all v) | NkInterrupt => None end.
Definition check_ok (self : oid) (k : check_kont) (r : rid) : pc :=
  match k with
  | CkUnlock k => PUnlock self k (UCount r)
  | CkWait ts => PWait self ts (WMutex r)
  | CkNotify all k => PNotify self all k (NMutex r)
  end.
Definition check_fail (self : oid) (k : check_kont) : pc :=
  match k with
  | CkUnlock k => unlock_ret self k
  | CkWait _ => PIdle
  | CkNotify _ k => notify_ret self k
  end.
Definition check_fail_ev (t : tid) (self : oid) (k : check_kont) : option event :=
  match k with
  | CkUnlock k => unlock_ev t self k (-1)
  | CkWait _ => Some (EWait t self (-1))
  | CkNotify all k => notify_ev t self all k (-1)
  end.

(** ** The rules *)

Section rules.
Context (t : tid) (o : gmap oid rid) (m : gmap rid vm_monitor_record).
Implicit Types (self : oid) (r : rid) (x : vm_monitor_record) (pl : list rid).

(** [mstep t o m p pl o' m' p' pl' e] *)
Inductive mstep : pc → list rid → gmap oid rid → gmap rid vm_monitor_record → pc → list rid → option event → Prop :=
| ms_enter c pl : mstep PIdle pl o m (enter c) pl None
| ms_undef p pl r : r ∈ recs_of p → m !! r = None → mstep p pl o m PUndef pl None
| ms_check_null self k pl :
    o !! self = None → mstep (PCheck self k ORead) pl o m (check_fail self k) pl (check_fail_ev t self k)
| ms_check_read self k pl r :
    o !! self = Some r → mstep (PCheck self k ORead) pl o m (PCheck self k (OOwner r)) pl None
| ms_check_fail self k pl r x :
    m !! r = Some x → owner x ≠ Some t →
    mstep (PCheck self k (OOwner r)) pl o m (check_fail self k) pl (check_fail_ev t self k)
| ms_check_ok self k pl r x :
    m !! r = Some x → owner x = Some t → mstep (PCheck self k (OOwner r)) pl o m (check_ok self k r) pl None
(* vm_object_lock *)
| ms_lock_null self k pl : o !! self = None → mstep (PLock self k LRead) pl o m (PLock self k LGet) pl None
| ms_lock_read self k pl r :
    o !! self = Some r → mstep (PLock self k LRead) pl o m (PLock self k (LOwner r)) pl None
| ms_lock_pool self k pl r : mstep (PLock self k LGet) (r :: pl) o m (PLock self k (LCas r)) pl None
| ms_lock_malloc self k r :
    m !! r = None → mstep (PLock self k LGet) [] o (<[r := new_monitor_record t]> m) (PLock self k (LCas r)) [] None
| ms_lock_oom self k : mstep (PLock self k LGet) [] o m (lock_ret self k (-1)) [] (lock_ev t self k (-1))
| ms_lock_inflate self k pl r :
    o !! self = None → mstep (PLock self k (LCas r)) pl (<[self := r]> o) m (lock_ret self k 0) pl (lock_ev t self k 0)
| ms_lock_lost self k pl r r' :
    o !! self = Some r' → mstep (PLock self k (LCas r)) pl o m (PLock self k LRead) (r :: pl) None
| ms_lock_mine self k pl r x :
    m !! r = Some x → owner x = Some t → mstep (PLock self k (LOwner r)) pl o m (PLock self k (LRecurse r)) pl None
| ms_lock_other self k pl r x :
    m !! r = Some x → owner x ≠ Some t → mstep (PLock self k (LOwner r)) pl o m (PLock self k (LIncBlocked r)) pl None
| ms_lock_recurse self k pl r x :
    m !! r = Some x → lock_count x < INT_MAX →
    mstep (PLock self k (LRecurse r)) pl o (<[r := set_lock_count (lock_count x + 1) x]> m)
          (lock_ret self k 0) pl (lock_ev t self k 0)
| ms_lock_overflow self k pl r x :
    m !! r = Some x → ¬ lock_count x < INT_MAX → mstep (PLock self k (LRecurse r)) pl o m POverflow pl None
| ms_lock_inc self k pl r x :
    m !! r = Some x →
    mstep (PLock self k (LIncBlocked r)) pl o (<[r := set_nr_blocked (atomic_inc (nr_blocked x)) x]> m)
          (PLock self k (LCheck r)) pl None
| ms_lock_attached self k pl r :
    o !! self = Some r → mstep (PLock self k (LCheck r)) pl o m (PLock self k (LCand r)) pl None
| ms_lock_deflated self k pl r :
    o !! self ≠ Some r → mstep (PLock self k (LCheck r)) pl o m (PLock self k (LDec r)) pl None
| ms_lock_cand self k pl r x :
    m !! r = Some x →
    mstep (PLock self k (LCand r)) pl o (<[r := set_candidate 1 x]> m) (PLock self k (LTry r)) pl None
| ms_lock_won self k pl r x :
    m !! r = Some x → owner x = None →
    mstep (PLock self k (LTry r)) pl o (<[r := set_owner (Some t) x]> m) (PLock self k (LWonDec r)) pl None
| ms_lock_blocked self k pl r x t' :
    m !! r = Some x → owner x = Some t' → mstep (PLock self k (LTry r)) pl o m (PLock self k (LWait r)) pl None
| ms_lock_woken self k pl r x :
    m !! r = Some x → 0 < sem x →
    mstep (PLock self k (LWait r)) pl o (<[r := set_sem (sem x - 1) x]> m) (PLock self k (LCheck r)) pl None
| ms_lock_won_dec self k pl r x :
    m !! r = Some x →
    mstep (PLock self k (LWonDec r)) pl o (<[r := set_nr_blocked (atomic_dec (nr_blocked x)) x]> m)
          (PLock self k (LWonCount r)) pl None
| ms_lock_won_count self k pl r x :
    m !! r = Some x →
    mstep (PLock self k (LWonCount r)) pl o (<[r := set_lock_count 1 x]> m) (lock_ret self k 0) pl (lock_ev t self k 0)
| ms_lock_dec self k pl r x :
    m !! r = Some x →
    mstep (PLock self k (LDec r)) pl o (<[r := set_nr_blocked (atomic_dec (nr_blocked x)) x]> m)
          (PLock self k LRead) pl None
(* vm_object_unlock *)
| ms_unlock_inner self k pl r x :
    m !! r = Some x → 1 < lock_count x →
    mstep (PUnlock self k (UCount r)) pl o (<[r := set_lock_count (lock_count x - 1) x]> m)
          (unlock_ret self k) pl (unlock_ev t self k 0)
| ms_unlock_outer self k pl r x :
    m !! r = Some x → ¬ 1 < lock_count x → mstep (PUnlock self k (UCount r)) pl o m (PUnlock self k (UBlocked r)) pl None
| ms_unlock_blocked self k pl r x :
    m !! r = Some x → 0 < nr_blocked x → mstep (PUnlock self k (UBlocked r)) pl o m (PUnlock self k (URelease r)) pl None
| ms_unlock_not_blocked self k pl r x :
    m !! r = Some x → ¬ 0 < nr_blocked x → mstep (PUnlock self k (UBlocked r)) pl o m (PUnlock self k (UWaiting r)) pl None
| ms_unlock_waiting self k pl r x :
    m !! r = Some x → 0 < nr_waiting x → mstep (PUnlock self k (UWaiting r)) pl o m (PUnlock self k (URelease r)) pl None
| ms_unlock_not_waiting self k pl r x :
    m !! r = Some x → ¬ 0 < nr_waiting x → mstep (PUnlock self k (UWaiting r)) pl o m (PUnlock self k (UDeflate r)) pl None
| ms_unlock_release self k pl r x :
    m !! r = Some x →
    mstep (PUnlock self k (URelease r)) pl o (<[r := set_owner None x]> m) (PUnlock self k (UWake r)) pl None
| ms_unlock_wake self k pl r x :
    m !! r = Some x → candidate x = 1 →
    mstep (PUnlock self k (UWake r)) pl o (<[r := set_candidate 0 x]> m) (PUnlock self k (UPost r)) pl None
| ms_unlock_no_wake self k pl r x :
    m !! r = Some x → candidate x ≠ 1 →
    mstep (PUnlock self k (UWake r)) pl o m (unlock_ret self k) pl (unlock_ev t self k 0)
| ms_unlock_post self k pl r x :
    m !! r = Some x →
    mstep (PUnlock self k (UPost r)) pl o (<[r := sem_post x]> m) (unlock_ret self k) pl (unlock_ev t self k 0)
| ms_unlock_deflate self k pl r :
    mstep (PUnlock self k (UDeflate r)) pl (delete self o) m (PUnlock self k (UReread r)) pl None
| ms_unlock_misspeculated self k pl r x :
    m !! r = Some x → 0 < nr_blocked x →
    mstep (PUnlock self k (UReread r)) pl o m (PUnlock self k (UFlush r (Z.to_nat (nr_blocked x)))) pl None
| ms_unlock_clean self k pl r x :
    m !! r = Some x → ¬ 0 < nr_blocked x → mstep (PUnlock self k (UReread r)) pl o m (PUnlock self k (UPut r)) pl None
| ms_unlock_flush self k pl r x n :
    m !! r = Some x →
    mstep (PUnlock self k (UFlush r (S n))) pl o (<[r := sem_post x]> m) (PUnlock self k (UFlush r n)) pl None
| ms_unlock_flushed self k pl r : mstep (PUnlock self k (UFlush r 0)) pl o m (PUnlock self k (USpin r)) pl None
| ms_unlock_spin self k pl r x :
    m !! r = Some x → 0 < nr_blocked x → mstep (PUnlock self k (USpin r)) pl o m (PUnlock self k (USpin r)) pl None
| ms_unlock_acked self k pl r x :
    m !! r = Some x → ¬ 0 < nr_blocked x → mstep (PUnlock self k (USpin r)) pl o m (PUnlock self k (UReset r)) pl None
| ms_unlock_reset self k pl r x :
    m !! r = Some x →
    mstep (PUnlock self k (UReset r)) pl o (<[r := set_candidate 0 x]> m) (PUnlock self k (UPut r)) pl None
| ms_unlock_put self k pl r :
    mstep (PUnlock self k (UPut r)) pl o m (unlock_ret self k) (r :: pl) (unlock_ev t self k 0)
(* vm_object_do_wait *)
| ms_wait_mutex self ts pl r x :
    m !! r = Some x → notify_mutex x = None →
    mstep (PWait self ts (WMutex r)) pl o (<[r := set_notify_mutex (Some t) x]> m) (PWait self ts (WIntr r)) pl None
| ms_wait_intr self ts pl r b : mstep (PWait self ts (WIntr r)) pl o m (PWait self ts (WSave r b)) pl None
| ms_wait_save self ts pl r b x :
    m !! r = Some x →
    mstep (PWait self ts (WSave r b)) pl o (<[r := set_lock_count 1 x]> m) (PWait self ts (WIncWaiting r b (lock_count x))) pl None
| ms_wait_inc self ts pl r b c x :
    m !! r = Some x →
    mstep (PWait self ts (WIncWaiting r b c)) pl o (<[r := set_nr_waiting (atomic_inc (nr_waiting x)) x]> m)
          (PCheck self (CkUnlock (UkWait r b c ts)) ORead) pl None
| ms_wait_skip self ts pl r b c err : mstep (PWait self ts (WCond r b c)) pl o m (PWait self ts (WUnlock r c err)) pl None
| ms_wait_cond self ts pl r c x :
    m !! r = Some x →
    mstep (PWait self ts (WCond r false c)) pl o (<[r := set_notify_mutex None (set_notify_cond ({[t]} ∪ notify_cond x) x)]> m)
          (PWait self ts (WBlocked r c)) pl None
| ms_wait_wakeup self ts pl r c x :
    m !! r = Some x →
    mstep (PWait self ts (WBlocked r c)) pl o (<[r := set_notify_cond (notify_cond x ∖ {[t]}) x]> m)
          (PWait self ts (WReacquire r c)) pl None
| ms_wait_notified self ts pl r c x :
    m !! r = Some x → t ∉ notify_cond x →
    mstep (PWait self ts (WBlocked r c)) pl o m (PWait self ts (WReacquire r c)) pl None
| ms_wait_reacquire self ts pl r c x :
    m !! r = Some x → notify_mutex x = None →
    mstep (PWait self ts (WReacquire r c)) pl o (<[r := set_notify_mutex (Some t) x]> m) (PWait self ts (WUnlock r c 0)) pl None
| ms_wait_unlock self ts pl r c err x :
    m !! r = Some x →
    mstep (PWait self ts (WUnlock r c err)) pl o (<[r := set_notify_mutex None x]> m) (PWait self ts (WClear r c err)) pl None
| ms_wait_clear self ts pl r c err : mstep (PWait self ts (WClear r c err)) pl o m (PLock self (LkWait r c err) LRead) pl None
| ms_wait_dec self ts pl r c err x :
    m !! r = Some x →
    mstep (PWait self ts (WDec r c err)) pl o (<[r := set_nr_waiting (atomic_dec (nr_waiting x)) x]> m)
          (PWait self ts (WAssert r c err)) pl None
| ms_wait_assert self ts pl r c err :
    o !! self = Some r → mstep (PWait self ts (WAssert r c err)) pl o m (PWait self ts (WRestore r c err)) pl None
| ms_wait_assert_failed self ts pl r c err :
    o !! self ≠ Some r → mstep (PWait self ts (WAssert r c err)) pl o m PAssertFailed pl None
| ms_wait_restore self ts pl r c err x :
    m !! r = Some x →
    mstep (PWait self ts (WRestore r c err)) pl o (<[r := set_lock_count c x]> m) (PWait self ts (WTest err)) pl None
| ms_wait_return self ts pl err v : mstep (PWait self ts (WTest err)) pl o m PIdle pl (Some (EWait t self v))
(* vm_object_notify, vm_object_notify_all *)
| ms_notify_mutex self all k pl r x :
    m !! r = Some x → notify_mutex x = None →
    mstep (PNotify self all k (NMutex r)) pl o (<[r := set_notify_mutex (Some t) x]> m) (PNotify self all k (NSignal r)) pl None
| ms_notify_signal self all k pl r x ts' :
    m !! r = Some x → ts' ⊆ notify_cond x →
    mstep (PNotify self all k (NSignal r)) pl o (<[r := set_notify_cond ts' x]> m) (PNotify self all k (NUnlock r)) pl None
| ms_notify_unlock self all k pl r x :
    m !! r = Some x →
    mstep (PNotify self all k (NUnlock r)) pl o (<[r := set_notify_mutex None x]> m) (notify_ret self k) pl (notify_ev t self all k 0)
(* vm_thread_interrupt *)
| ms_interrupt tg pl : mstep (PInterrupt tg) pl o m PIdle pl (Some (EInterrupt t))
| ms_interrupt_waiting tg pl self : mstep (PInterrupt tg) pl o m (PLock self LkInterrupt LRead) pl None.
End rules.

(** ** The steps of [exec] are instances of the rules *)

Definition view (th : vm_thread) : pc * list rid := (at_ th, free_monitor_recs th).
Definition cfg (s : state) : list (pc * list rid) := view <$> threads s.

Definition mexec (t : tid) (o : gmap oid rid) (m : gmap rid vm_monitor_record) (th : vm_thread) (out : outcome) : Prop :=
  mstep t o m (at_ th) (free_monitor_recs th) (o_objs out) (o_recs out) (at_ (o_thread out))
    (free_monitor_recs (o_thread out)) (o_event out).

Lemma with_rec_mexec t o m th r f out :
  r ∈ recs_of (at_ th) → with_rec o m th r f = Some out →
  (∀ x, m !! r = Some x → f x = Some out → mexec t o m th out) → mexec t o m th out.
Proof.
  intros Hr E H. unfold with_rec in E. destruct (m !! r) as [x|] eqn:Em; [by eapply H|].
  injection E as <-. by eapply ms_undef.
Qed.

Ltac mexec_solve :=
  unfold owner_check_ok, owner_check_fail, get_monitor_record, put_monitor_record, return_lock, return_unlock,
    return_notify, store, ret, goto, done in *;
  repeat (case_decide || case_match || simplify_eq/=); try discriminate;
  unfold mexec; cbn [at_ free_monitor_recs o_objs o_recs o_thread o_event set_at signal_new_exception
    vm_thread_set_state set_waiting_mon set_interrupted set_pool];
  match goal with H : at_ _ = _ |- _ => rewrite H end;
  try match goal with H : free_monitor_recs _ = _ |- _ => rewrite ?H end;
  solve [econstructor; eauto | eapply ms_undef; [|eassumption]; cbn; set_solver].

Lemma owner_check_mexec t o m th self k p out :
  at_ th = PCheck self k p → owner_check t o m th self k p = Some out → mexec t o m th out.
Proof.
  intros Ht E. destruct p as [|r]; cbn [owner_check] in E.
  - destruct (o !! self) eqn:Eo.
    + mexec_solve.
    + destruct k as [[]| |? []]; mexec_solve.
  - apply (with_rec_mexec t) in E; [done| |].
    { rewrite Ht. cbn. set_solver. }
    intros x Hx.
    destruct k as [[]| |? []]; intros; mexec_solve.
Qed.

Lemma vm_object_lock_mexec t a o m th self k p out :
  at_ th = PLock self k p → vm_object_lock t a o m th self k p = Some out → mexec t o m th out.
Proof.
  intros Ht E. destruct p; cbn [vm_object_lock] in E; unfold wait in E;
    try (apply (with_rec_mexec t) in E; [done|rewrite Ht; cbn; set_solver|]; intros x Hx Ef; revert Ef; clear E; intros E);
    destruct k; mexec_solve.
Qed.

Lemma vm_object_unlock_mexec t o m th self k p out :
  at_ th = PUnlock self k p → vm_object_unlock t o m th self k p = Some out → mexec t o m th out.
Proof.
  intros Ht E. destruct p as [| | | | | | | |r [|n]| | |]; cbn [vm_object_unlock] in E; unfold wake_one in E;
    try (apply (with_rec_mexec t) in E; [done|rewrite Ht; cbn; set_solver|]; intros x Hx Ef; revert Ef; clear E; intros E);
    destruct k; mexec_solve.
Qed.

Lemma set_notify_cond_id x : set_notify_cond (notify_cond x) x = x.
Proof. by destruct x. Qed.

Lemma vm_object_do_wait_mexec t a o m th self ts p out :
  at_ th = PWait self ts p → vm_object_do_wait t a o m th self ts p = Some out → mexec t o m th out.
Proof.
  intros Ht E. destruct p as [| | | |? [] ?| | | | | | | |]; cbn [vm_object_do_wait] in E;
    try (apply (with_rec_mexec t) in E; [done|rewrite Ht; cbn; set_solver|]; intros x Hx Ef; revert Ef; clear E; intros E);
    unfold with_rec in E;
    mexec_solve.
Qed.

Lemma vm_object_notify_mexec t a o m th self all k p out :
  at_ th = PNotify self all k p → vm_object_notify t a o m th self all k p = Some out → mexec t o m th out.
Proof.
  intros Ht E. destruct p; cbn [vm_object_notify] in E;
    (apply (with_rec_mexec t) in E; [done|rewrite Ht; cbn; set_solver|]; intros x Hx Ef; revert Ef; clear E; intros E).
  - mexec_solve.
  - assert (∃ c, c ⊆ notify_cond x ∧ out = Outcome o (<[record := set_notify_cond c x]> m) (set_at (PNotify self all k (NUnlock record)) th) None)
      as (c & Hc & ->).
    { assert (<[record := set_notify_cond (notify_cond x) x]> m = m) as Hid by (by rewrite set_notify_cond_id, insert_id).
      unfold store, goto, done in E;
      repeat (case_decide || case_match || simplify_eq/=); try discriminate;
      solve [eexists; split; [|reflexivity]; set_solver | exists (notify_cond x); rewrite ?Hid; eauto]. }
    unfold mexec. cbn. rewrite Ht. by econstructor.
  - destruct k; mexec_solve.
Qed.

Lemma local_step_mexec t a s th out :
  a ≠ AExit → local_step t a s th = Some out → mexec t (objs s) (recs s) th out.
Proof.
  unfold local_step. intros Ha E. destruct (at_ th) eqn:Ht; try discriminate.
  - destruct a; try done. injection E as <-. unfold mexec. cbn. rewrite Ht.
    replace (free_monitor_recs (vm_thread_interrupted c th)) with (free_monitor_recs th) by (by destruct c).
    constructor.
  - by eapply owner_check_mexec.
  - by eapply vm_object_lock_mexec.
  - by eapply vm_object_unlock_mexec.
  - by eapply vm_object_do_wait_mexec.
  - by eapply vm_object_notify_mexec.
Qed.

Theorem exec_mstep t a s s' e :
  exec t a s = Some (s', e) → a ≠ AExit →
  ∃ p pl p' pl', cfg s !! t = Some (p, pl) ∧ cfg s' = <[t := (p', pl')]> (cfg s) ∧
    mstep t (objs s) (recs s) p pl (objs s') (recs s') p' pl' e.
Proof.
  unfold exec. intros E Ha. destruct (threads s !! t) as [th|] eqn:Et; [|done].
  assert (cfg s !! t = Some (view th)) as Hc by (unfold cfg; by rewrite list_lookup_fmap, Et).
  exists (at_ th), (free_monitor_recs th).
  assert ((∃ tg, at_ th = PInterrupt tg ∧ vm_thread_interrupt t tg th s = Some (s', e)) ∨
          ∃ out, local_step t a s th = Some out ∧ s' = State (o_objs out) (o_recs out) (<[t := o_thread out]> (threads s)) ∧ e = o_event out)
    as [(tg & Hp & Hi)|(out & Hl & -> & ->)].
  { destruct (at_ th) eqn:Hp; eauto; right; destruct (local_step t a s th) as [[]|] eqn:Hl; simplify_eq; eauto. }
  - unfold vm_thread_interrupt in Hi. destruct (threads s !! tg) as [tth|] eqn:Eg; [|done].
    set (ths := <[tg := _]> (threads s)) in *.
    assert (view <$> ths = cfg s) as Hths.
    { unfold ths. rewrite list_fmap_insert. apply list_insert_id. unfold cfg. by rewrite list_lookup_fmap, Eg. }
    destruct (ths !! t) as [th'|] eqn:E'; [|done].
    assert (view th' = view th) as Hv.
    { assert (cfg s !! t = Some (view th')) as Hc' by (by rewrite <- Hths, list_lookup_fmap, E'). congruence. }
    injection Hv as Hv1 Hv2.
    destruct (waiting_mon tth); simplify_eq; eexists _, _; (split; [done|]); cbn [threads objs recs];
      unfold cfg at 1; cbn [threads]; rewrite list_fmap_insert; rewrite Hths; unfold view at 1; cbn;
      (split; [reflexivity|]); rewrite Hp, Hv2; constructor.
  - exists (at_ (o_thread out)), (free_monitor_recs (o_thread out)). split; [done|]. split.
    + unfold cfg at 1. cbn [threads]. by rewrite list_fmap_insert.
    + by eapply local_step_mexec.
Qed.
