(* ===== verification/MonitorInv.v ===== *)
(** * The invariant of the monitors

    Who owns a record, where it is, what a counter implies about shared memory, and
    what the two counts of a record count.  A step of one thread keeps what another
    thread's counter implies because it respects a guarantee ([guar]): it changes
    the lock of a monitor only if it owns it or nobody does, and never takes a
    record off an object somebody waits on. *)

From stdpp Require Import gmap.
From S2P Require Import Prelude Monitor MonitorRules.
#[local] Open Scope Z_scope.

(** ** What a counter implies *)

(** The thread owns the monitor of the object, through the record. *)
Definition holding (p : pc) : option (oid * rid) :=
  match p with
  | PLock self _ (LRecurse r | LWonDec r | LWonCount r) => Some (self, r)
  | PUnlock self _ (UCount r | UBlocked r | UWaiting r | URelease r | UDeflate r) => Some (self, r)
  | PWait self _ (WMutex r | WIntr r | WSave r _ | WIncWaiting r _ _ | WDec r _ _ | WAssert r _ _ | WRestore r _ _) => Some (self, r)
  | PNotify self _ _ p => Some (self, notify_rec p)
  | PCheck self (CkUnlock (UkWait r _ _ _)) _ => Some (self, r)
  | PCheck self (CkUnlock UkInterrupt | CkNotify _ NkInterrupt) (OOwner r) => Some (self, r)
  | _ => None
  end.

(** It owns the monitor, and has no record at hand. *)
Definition holds_obj (p : pc) : option oid :=
  match p with
  | PCheck self (CkUnlock UkInterrupt | CkNotify _ NkInterrupt) ORead => Some self
  | PWait self _ (WTest _) => Some self
  | _ => None
  end.

(** It owns the record, with a lock count of one. *)
Definition one (p : pc) : option rid :=
  match p with
  | PLock _ _ (LWonDec r | LWonCount r) => Some r
  | PUnlock _ _ (UBlocked r | UWaiting r | URelease r | UDeflate r) => Some r
  | PUnlock _ (UkWait _ _ _ _) (UCount r) => Some r
  | PWait _ _ (WIncWaiting r _ _ | WDec r _ _ | WAssert r _ _ | WRestore r _ _) => Some r
  | PCheck _ (CkUnlock (UkWait r _ _ _)) _ => Some r
  | _ => None
  end.

(** It is counted in [nr_waiting]. *)
Definition waiting_on (p : pc) : option (oid * rid) :=
  match p with
  | PCheck self (CkUnlock (UkWait r _ _ _)) _ => Some (self, r)
  | PUnlock self (UkWait r _ _ _) _ => Some (self, r)
  | PLock self (LkWait r _ _) _ => Some (self, r)
  | PWait self _ (WCond r _ _ | WBlocked r _ | WReacquire r _ | WUnlock r _ _ | WClear r _ _ | WDec r _ _) => Some (self, r)
  | _ => None
  end.

(** It is counted in [nr_blocked]. *)
Definition blocked_on (p : pc) : option rid :=
  match p with
  | PLock _ _ (LCheck r | LCand r | LTry r | LWait r | LWonDec r | LDec r) => Some r
  | _ => None
  end.

(** It read the record from the object and compares its owner. *)
Definition checking (p : pc) : option (oid * rid) :=
  match p with
  | PLock self _ (LOwner r) | PCheck self _ (OOwner r) => Some (self, r)
  | _ => None
  end.

Definition deflating (p : pc) : option rid := match p with PUnlock _ _ (UDeflate r) => Some r | _ => None end.

(** It saw the record attached and tries to take it. *)
Definition contending (p : pc) : option (oid * rid) :=
  match p with PLock self _ (LCand r | LTry r | LWait r) => Some (self, r) | _ => None end.

(** It detached the record and has not seen [nr_blocked] at zero since. *)
Definition flushing (p : pc) : option rid :=
  match p with PUnlock _ _ (UReread r | UFlush r _ | USpin r) => Some r | _ => None end.

(** It gave up the monitor in order to wait, and has not got it back. *)
Definition released (p : pc) : option rid :=
  match p with
  | PUnlock _ (UkWait r _ _ _) (UWake _ | UPost _) => Some r
  | PWait _ _ (WCond r _ _ | WBlocked r _ | WReacquire r _ | WUnlock r _ _ | WClear r _ _) => Some r
  | PLock _ (LkWait r _ _) (LRead | LOwner _ | LIncBlocked _ | LCheck _ | LCand _ | LTry _ | LWait _ | LDec _) => Some r
  | _ => None
  end.

(** The lock count put aside by a wait. *)
Definition saved (p : pc) : option Z :=
  match p with
  | PCheck _ (CkUnlock (UkWait _ _ c _)) _ | PUnlock _ (UkWait _ _ c _) _ | PLock _ (LkWait _ c _) _ => Some c
  | PWait _ _ (WIncWaiting _ _ c | WCond _ _ c | WBlocked _ c | WReacquire _ c | WUnlock _ c _ | WClear _ c _
               | WDec _ c _ | WAssert _ c _ | WRestore _ c _) => Some c
  | _ => None
  end.

(** Records the thread has taken out of its pool or off an object. *)
Definition private (p : pc) : list rid :=
  match p with
  | PLock _ _ (LCas r) => [r]
  | PUnlock _ _ (UReread r | UFlush r _ | USpin r | UReset r | UPut r) => [r]
  | _ => []
  end.

(** No use after release, no failed assertion; a waiter finds its record when it
    comes back. *)
Definition ok_pc (p : pc) : Prop :=
  match p with
  | PUndef | PAssertFailed => False
  | PLock _ (LkWait _ _ _) (LGet | LCas _ | LRecurse _) => False
  | PCheck _ (CkUnlock (UkWait r _ _ _)) (OOwner r') => r' = r
  | PUnlock _ (UkWait _ _ _ _) (UDeflate _ | UReread _ | UFlush _ _ | USpin _ | UReset _ | UPut _) => False
  | _ => True
  end.

(** ** The invariant *)

Section inv.
Context (o : gmap oid rid) (m : gmap rid vm_monitor_record).

Definition owned (t : tid) (self : oid) (r : rid) : Prop :=
  o !! self = Some r ∧ ∃ x, m !! r = Some x ∧ owner x = Some t.

Record tinv (t : tid) (p : pc) : Prop := {
  ti_ok : ok_pc p;
  ti_recs r : r ∈ recs_of p → is_Some (m !! r);
  ti_hold self r : holding p = Some (self, r) → owned t self r;
  ti_hold_obj self : holds_obj p = Some self → ∃ r, owned t self r;
  ti_one r x : one p = Some r → m !! r = Some x → lock_count x = 1;
  ti_wait self r : waiting_on p = Some (self, r) → o !! self = Some r;
  ti_check self r x : checking p = Some (self, r) → m !! r = Some x → owner x = Some t → o !! self = Some r;
  ti_deflate r x : deflating p = Some r → m !! r = Some x → nr_waiting x = 0;
  ti_saved c : saved p = Some c → 1 <= c <= INT_MAX;
  ti_read self r r' : checking p = Some (self, r) → owned t self r' → r' = r;
  ti_released r x : released p = Some r → m !! r = Some x → owner x ≠ Some t;
}.

(** A record in a pool is ready for its next inflation. *)
Definition fresh_for (t : tid) (r : rid) : Prop :=
  (∃ x, m !! r = Some x ∧ owner x = Some t ∧ lock_count x = 1 ∧ nr_waiting x = 0) ∧ ∀ self, o !! self ≠ Some r.
Definition pinv (t : tid) (l : list rid) : Prop := NoDup l ∧ ∀ r, r ∈ l → fresh_for t r.

Record rinv (x : vm_monitor_record) : Prop := {
  ri_count : 1 <= lock_count x <= INT_MAX;
  ri_free : owner x = None → lock_count x = 1;
  ri_sem : 0 <= sem x <= SEM_VALUE_MAX;
  ri_cand : candidate x = 0 ∨ candidate x = 1;
}.
End inv.

Definition is_blocked_on (r : rid) (p : pc) : bool := bool_decide (blocked_on p = Some r).
Definition is_waiting_on (r : rid) (p : pc) : bool := bool_decide (snd <$> waiting_on p = Some r).

(** The number of threads whose counter satisfies [f]. *)
Fixpoint cnt (f : pc → bool) (c : list (pc * list rid)) : Z :=
  match c with [] => 0 | (p, _) :: c => Z.b2z (f p) + cnt f c end.

Record Inv (n : nat) (o : gmap oid rid) (m : gmap rid vm_monitor_record) (c : list (pc * list rid)) : Prop := {
  inv_length : length c = n;
  inv_tinv t p pl : c !! t = Some (p, pl) → tinv o m t p;
  inv_pinv t p pl : c !! t = Some (p, pl) → pinv o m t (private p ++ pl);
  inv_rinv r x : m !! r = Some x → rinv x;
  inv_blocked r x : m !! r = Some x → nr_blocked x = cnt (is_blocked_on r) c;
  inv_waiting r x : m !! r = Some x → nr_waiting x = cnt (is_waiting_on r) c;
  inv_contend t p pl self r :
    c !! t = Some (p, pl) → contending p = Some (self, r) →
    o !! self = Some r ∨ ∃ t' p' pl', c !! t' = Some (p', pl') ∧ flushing p' = Some r;
  inv_attached self r : o !! self = Some r → is_Some (m !! r);
  inv_inj self self' r : o !! self = Some r → o !! self' = Some r → self = self';
  inv_place r x : m !! r = Some x →
    (∃ self, o !! self = Some r) ∨ ∃ t p pl, c !! t = Some (p, pl) ∧ r ∈ private p ++ pl;
}.

(** ** Counting *)

Lemma cnt_insert f c t p pl p' pl' :
  c !! t = Some (p, pl) → cnt f (<[t := (p', pl')]> c) = cnt f c - Z.b2z (f p) + Z.b2z (f p').
Proof.
  revert t. induction c as [|[q ql] c IH]; intros [|t] H; cbn in H; simplify_eq; [cbn; lia|].
  change (Z.b2z (f q) + cnt f (<[t := (p', pl')]> c) = Z.b2z (f q) + cnt f c - Z.b2z (f p) + Z.b2z (f p')).
  rewrite (IH t H). lia.
Qed.

Lemma cnt_bounds f c : 0 <= cnt f c <= Z.of_nat (length c).
Proof. induction c as [|[p pl] c IH]; cbn; [lia|]. destruct (f p); cbn; lia. Qed.

Lemma cnt_pos f c t p pl : c !! t = Some (p, pl) → f p = true → 0 < cnt f c.
Proof.
  revert t. induction c as [|[q ql] c IH]; intros [|t] H Hf; cbn in *; simplify_eq.
  - rewrite Hf. pose proof (cnt_bounds f c). cbn. lia.
  - specialize (IH t H Hf). destruct (f q); cbn; lia.
Qed.

Lemma cnt_zero f c : (∀ t p pl, c !! t = Some (p, pl) → f p = false) → cnt f c = 0.
Proof.
  induction c as [|[q ql] c IH]; intros H; cbn; [done|].
  rewrite (H 0%nat q ql eq_refl), IH; [done|]. intros t p pl Ht. by apply (H (S t) p pl).
Qed.

Lemma cnt_ext f g c : (∀ t p pl, c !! t = Some (p, pl) → f p = g p) → cnt f c = cnt g c.
Proof.
  induction c as [|[q ql] c IH]; intros H; cbn; [done|].
  rewrite (H 0%nat q ql eq_refl), IH; [done|]. intros t p pl Ht. by apply (H (S t) p pl).
Qed.

Lemma cnt_exists f c : 0 < cnt f c → ∃ t p pl, c !! t = Some (p, pl) ∧ f p = true.
Proof.
  induction c as [|[q ql] c IH]; cbn; [lia|]. intros H. destruct (f q) eqn:Ef.
  - by exists 0%nat, q, ql.
  - destruct IH as (t & p & pl & Ht & Hp); [by cbn in H; lia|]. by exists (S t), p, pl.
Qed.

(** ** The guarantee of a step *)

Definition rec_guar (t : tid) (x x' : vm_monitor_record) : Prop :=
  ∀ t', t' ≠ t → (owner x = Some t' ↔ owner x' = Some t') ∧
    (owner x = Some t' → lock_count x' = lock_count x ∧ nr_waiting x' = nr_waiting x).

Record guar (t : tid) (l : list rid) (o : gmap oid rid) (m : gmap rid vm_monitor_record)
    (o' : gmap oid rid) (m' : gmap rid vm_monitor_record) : Prop := {
  gu_rec r x : m !! r = Some x → ∃ x', m' !! r = Some x' ∧ rec_guar t x x';
  gu_keep self r x : o !! self = Some r → m !! r = Some x → owner x ≠ Some t ∨ 0 < nr_waiting x → o' !! self = Some r;
  gu_attach self r : o' !! self = Some r → o !! self = Some r ∨ r ∈ l;
}.

Lemma one_holding p r : one p = Some r → ∃ self, holding p = Some (self, r).
Proof.
  destruct p as [|? [[]| |? []] []|? [] []|? [] []|? ? []|? ? ? []| | | | |];
    cbn; intros ?; simplify_eq; eauto.
Qed.

Lemma deflating_holding p r : deflating p = Some r → ∃ self, holding p = Some (self, r).
Proof.
  destruct p as [| | |? ? []| | | | | | |]; cbn; intros ?; simplify_eq; eauto.
Qed.

Lemma waiting_recs p self r : waiting_on p = Some (self, r) → r ∈ recs_of p.
Proof.
  destruct p as [|? [[]| |? []] []|? [] []|? [] []|? ? []|? ? ? []| | | | |];
    cbn; intros ?; simplify_eq; set_solver.
Qed.
Lemma checking_recs p self r : checking p = Some (self, r) → r ∈ recs_of p.
Proof. destruct p as [|? ? []|? ? []| | | | | | | |]; cbn; intros ?; simplify_eq; set_solver. Qed.
Lemma released_waiting p r : released p = Some r → ∃ self, waiting_on p = Some (self, r).
Proof. destruct p as [| |? [] []|? [] []|? ? []| | | | | | ]; cbn; intros ?; simplify_eq; eauto. Qed.
Lemma released_recs p r : released p = Some r → r ∈ recs_of p.
Proof. intros H. destruct (released_waiting p r H) as [self Hw]. by eapply waiting_recs. Qed.
Lemma blocked_recs p r : blocked_on p = Some r → r ∈ recs_of p.
Proof. destruct p as [| |? [] []| | | | | | | |]; cbn; intros ?; simplify_eq; set_solver. Qed.

(** ** A thread's view is stable under the steps of the others *)

Section stable.
Context (t t' : tid) (l : list rid) (o o' : gmap oid rid) (m m' : gmap rid vm_monitor_record).
Context (Hne : t' ≠ t) (Hg : guar t l o m o' m').

Lemma owned_stable self r : owned o m t' self r → owned o' m' t' self r.
Proof.
  intros (Ho & x & Hx & Hw). destruct (gu_rec _ _ _ _ _ _ Hg _ _ Hx) as (x' & Hx' & Hr).
  split.
  - eapply gu_keep; eauto. left. congruence.
  - exists x'. split; [done|]. by apply (Hr t' Hne).
Qed.

Lemma owned_fields self r x' :
  owned o m t' self r → m' !! r = Some x' →
  ∃ x, m !! r = Some x ∧ lock_count x' = lock_count x ∧ nr_waiting x' = nr_waiting x.
Proof.
  intros (Ho & x & Hx & Hw) Hx'. destruct (gu_rec _ _ _ _ _ _ Hg _ _ Hx) as (x'' & Hx'' & Hr).
  simplify_eq. exists x. split; [done|]. by apply (Hr t' Hne).
Qed.

Lemma owned_stable_back self r :
  (∀ r, r ∈ l → fresh_for o m t r) → is_Some (m !! r) → owned o' m' t' self r → owned o m t' self r.
Proof.
  intros Hl [x Hx] (Ho & x' & Hx' & Hw). destruct (gu_rec _ _ _ _ _ _ Hg _ _ Hx) as (x'' & Hx'' & Hr).
  simplify_eq. apply (Hr t' Hne) in Hw. split; [|by eauto].
  destruct (gu_attach _ _ _ _ _ _ Hg _ _ Ho) as [?|Hin]; [done|].
  destruct (Hl r Hin) as [(y & Hy & Hyo & _) _]. by simplify_eq.
Qed.

Lemma tinv_stable p :
  (∀ r, r ∈ l → fresh_for o m t r) → (∀ self r, o' !! self = Some r → is_Some (m !! r)) →
  (∀ self r x, waiting_on p = Some (self, r) → m !! r = Some x → 0 < nr_waiting x) →
  tinv o m t' p → tinv o' m' t' p.
Proof.
  intros Hl Ha Hw [Hok Hrecs Hhold Hobj Hone Hwait Hcheck Hdefl Hsaved Hread Hrel]. split; try done.
  - intros r Hr. destruct (Hrecs r Hr) as [x Hx]. destruct (gu_rec _ _ _ _ _ _ Hg _ _ Hx) as (x' & Hx' & _). eauto.
  - intros self r H. by apply owned_stable, Hhold.
  - intros self H. destruct (Hobj self H) as [r Hr]. exists r. by apply owned_stable.
  - intros r x' H Hx'. destruct (one_holding _ _ H) as [self Hs].
    destruct (owned_fields self r x' (Hhold _ _ Hs) Hx') as (x & Hx & -> & _). by eapply Hone.
  - intros self r H. destruct (Hrecs r) as [x Hx]; [by eapply waiting_recs|].
    eapply gu_keep; eauto.
  - intros self r x' H Hx' Hown. destruct (Hrecs r) as [x Hx].
    { by eapply checking_recs. }
    destruct (gu_rec _ _ _ _ _ _ Hg _ _ Hx) as (x'' & Hx'' & Hr). simplify_eq.
    assert (owner x = Some t') as Hox by (by apply (Hr t' Hne)).
    eapply gu_keep; eauto. left. congruence.
  - intros r x' H Hx'. destruct (deflating_holding _ _ H) as [self Hs].
    destruct (owned_fields self r x' (Hhold _ _ Hs) Hx') as (x & Hx & _ & ->). by eapply Hdefl.
  - intros self r r' H Ho. eapply Hread; [done|]. pose proof Ho as [Hs _]. by apply owned_stable_back; eauto.
  - intros r x' H Hx' Ho. destruct (Hrecs r) as [x Hx]; [by eapply released_recs|].
    destruct (gu_rec _ _ _ _ _ _ Hg _ _ Hx) as (x'' & Hx'' & Hr). simplify_eq.
    apply (Hrel r x); [done..|]. by apply (Hr t' Hne).
Qed.

Lemma pinv_stable l' :
  (∀ r, r ∈ l → fresh_for o m t r) → pinv o m t' l' → pinv o' m' t' l'.
Proof.
  intros Hl [Hnd Hf]. split; [done|]. intros r Hr. destruct (Hf r Hr) as [(x & Hx & Hw & Hc & Hn) Hu].
  destruct (gu_rec _ _ _ _ _ _ Hg _ _ Hx) as (x' & Hx' & Hrg). destruct (Hrg t' Hne) as [[Ho _] Hk].
  destruct (Hk Hw) as [H1 H2]. split.
  - exists x'. rewrite H1, H2. eauto.
  - intros self Hs. destruct (gu_attach _ _ _ _ _ _ Hg _ _ Hs) as [H|H]; [by eapply Hu|].
    destruct (Hl r H) as [(y & Hy & Hyo & _) _]. by simplify_eq.
Qed.
End stable.

(** ** Every step respects the guarantee *)

Lemma guar_refl t l o m : guar t l o m o m.
Proof. split; try done; [|by left]. intros r x Hx. exists x. by split. Qed.

Lemma guar_store t l o m r x x' :
  m !! r = Some x → rec_guar t x x' → guar t l o m o (<[r := x']> m).
Proof.
  intros Hx Hr. split; try done; [|by left]. intros r0 x0 H0. destruct (decide (r0 = r)) as [->|Hne].
  - simplify_eq. exists x'. by rewrite lookup_insert_eq.
  - exists x0. rewrite lookup_insert_ne by done. by split.
Qed.

Lemma guar_malloc t l o m r x' : m !! r = None → guar t l o m o (<[r := x']> m).
Proof.
  intros Hx. split; try done; [|by left]. intros r0 x0 H0. exists x0.
  rewrite lookup_insert_ne by congruence. by split.
Qed.

(** A change of fields other than the owner, the lock count and [nr_waiting]. *)
Lemma rec_guar_fields t x x' :
  owner x' = owner x → lock_count x' = lock_count x → nr_waiting x' = nr_waiting x → rec_guar t x x'.
Proof. intros H1 H2 H3 t' _. by rewrite H1. Qed.

(** A change by the owner, or of a record nobody owns. *)
Lemma rec_guar_mine t x x' :
  owner x = Some t ∨ owner x = None → owner x' = Some t ∨ owner x' = None → rec_guar t x x'.
Proof. intros [H|H] [H'|H'] t' Hne; rewrite H, H'; naive_solver. Qed.

Lemma sem_post_set x :
  sem_post x = set_sem (if decide (sem x < SEM_VALUE_MAX) then sem x + 1 else sem x) x.
Proof. unfold sem_post. case_decide; [done|]. by destruct x. Qed.

Ltac guar_mine Ht :=
  destruct (ti_hold _ _ _ _ Ht _ _ eq_refl) as (? & ? & ? & ?); simplify_eq; cbn; auto.

Lemma mstep_guar n o m c t p pl o' m' p' pl' e :
  Inv n o m c → c !! t = Some (p, pl) → mstep t o m p pl o' m' p' pl' e →
  guar t (private p ++ pl) o m o' m'.
Proof.
  intros HI Hc Hs. pose proof (inv_tinv _ _ _ _ HI _ _ _ Hc) as Ht.
  destruct Hs; try apply guar_refl; try (by apply guar_malloc);
    try (rewrite ?sem_post_set; eapply guar_store; [done|by apply rec_guar_fields]);
    try (eapply guar_store; [done|]; apply rec_guar_mine; cbn; by auto);
    try (eapply guar_store; [done|]; apply rec_guar_mine; guar_mine Ht; fail).
  - (* inflation *)
    split; [intros r0 x0 Hx0; exists x0; by split| |].
    + intros self0 r0 x0 Hs0 _ _. by rewrite lookup_insert_ne by congruence.
    + intros self0 r0 Hs0. apply lookup_insert_Some in Hs0. cbn. set_solver.
  - (* deflation *)
    split; [intros r0 x0 Hx0; exists x0; by split| |].
    + intros self0 r0 x0 Hs0 Hx Hor. destruct (ti_hold _ _ _ _ Ht _ _ eq_refl) as (Hr & y & Hy & Hyo).
      destruct (decide (self0 = self)) as [->|]; [|by rewrite lookup_delete_ne].
      simplify_eq. pose proof (ti_deflate _ _ _ _ Ht _ _ eq_refl Hx). destruct Hor; [done|lia].
    + intros self0 r0 Hs0. apply lookup_delete_Some in Hs0. naive_solver.
Qed.

Ltac split_konts :=
  repeat match goal with
         | k : lock_kont |- _ => destruct k
         | k : unlock_kont |- _ => destruct k
         | k : check_kont |- _ => destruct k
         | k : notify_kont |- _ => destruct k
         | k : call |- _ => destruct k
         end.

Lemma owned_store o m t self r r' x x' :
  owned o m t self r → m !! r' = Some x → (owner x = Some t → owner x' = Some t) → owned o (<[r' := x']> m) t self r.
Proof.
  intros (Ho & y & Hy & Hw) Hx H. split; [done|]. destruct (decide (r = r')) as [->|].
  - rewrite lookup_insert_eq. simplify_eq. eauto.
  - rewrite lookup_insert_ne by done. eauto.
Qed.

Lemma owned_malloc o m t self r r' x' : m !! r' = None → owned o m t self r → owned o (<[r' := x']> m) t self r.
Proof. intros Hx (Ho & y & Hy & Hw). split; [done|]. rewrite lookup_insert_ne by congruence. eauto. Qed.

(** ** A step keeps what the thread's own counter implies *)

Section self.
Context (n : nat) (o o' : gmap oid rid) (m m' : gmap rid vm_monitor_record) (c : list (pc * list rid)).
Context (t : tid) (p p' : pc) (pl pl' : list rid) (e : option event).
Context (HI : Inv n o m c) (Hc : c !! t = Some (p, pl)) (Hs : mstep t o m p pl o' m' p' pl' e).

Let Ht : tinv o m t p := inv_tinv _ _ _ _ HI _ _ _ Hc.
Let Hp : pinv o m t (private p ++ pl) := inv_pinv _ _ _ _ HI _ _ _ Hc.

Lemma waiting_pos t0 p0 pl0 self r x :
  c !! t0 = Some (p0, pl0) → waiting_on p0 = Some (self, r) → m !! r = Some x → 0 < nr_waiting x.
Proof using HI.
  intros H0 Hw Hx. rewrite (inv_waiting _ _ _ _ HI _ _ Hx). eapply cnt_pos; [done|].
  unfold is_waiting_on. rewrite Hw. by apply bool_decide_eq_true.
Qed.

Lemma blocked_pos t0 p0 pl0 r x :
  c !! t0 = Some (p0, pl0) → blocked_on p0 = Some r → m !! r = Some x → 0 < nr_blocked x.
Proof using HI.
  intros H0 Hw Hx. rewrite (inv_blocked _ _ _ _ HI _ _ Hx). eapply cnt_pos; [done|].
  unfold is_blocked_on. rewrite Hw. by apply bool_decide_eq_true.
Qed.

Lemma mstep_mem r : is_Some (m !! r) → is_Some (m' !! r).
Proof using HI Hc Hs.
  intros [x Hx]. destruct (gu_rec _ _ _ _ _ _ (mstep_guar _ _ _ _ _ _ _ _ _ _ _ _ HI Hc Hs) _ _ Hx) as (x' & ? & _). eauto.
Qed.

Lemma mstep_recs r : r ∈ recs_of p' → is_Some (m' !! r).
Proof using HI Hc Hs.
  assert (r ∈ recs_of p → is_Some (m' !! r)) as H1 by (intros; apply mstep_mem; by eapply ti_recs).
  assert (∀ self, o !! self = Some r → is_Some (m' !! r)) as H2
    by (intros; apply mstep_mem; by eapply inv_attached).
  assert (r ∈ private p ++ pl → is_Some (m' !! r)) as H3.
  { intros Hr. apply mstep_mem. destruct Hp as [_ Hf]. destruct (Hf r Hr) as [(x & Hx & _) _]. eauto. }
  intros Hin. clear Ht Hp. 
  destruct Hs; split_konts; cbn in Hin, H1, H3; try (by apply H1).
  all: rewrite ?elem_of_cons, ?elem_of_nil in *; destruct_or?; try done; subst;
    solve [apply H1; auto | by eapply H2 | apply H3; auto | rewrite lookup_insert_eq; eauto].
Qed.

(** Ownership is only given up by a release or a deflation. *)
Lemma mstep_owned self r :
  owned o m t self r → (∀ self' k r', p ≠ PUnlock self' k (URelease r') ∧ p ≠ PUnlock self' k (UDeflate r')) →
  owned o' m' t self r.
Proof using HI Hc Hs.
  intros Hw Hne. clear Ht Hp. destruct Hs; try done;
    try (rewrite ?sem_post_set; eapply owned_store; [done..|]; eauto; fail).
  - by apply owned_malloc.
  - destruct Hw as (Ho & Hx). split; [|done]. by rewrite lookup_insert_ne by congruence.
  - by destruct (Hne self0 k r0).
  - by destruct (Hne self0 k r0).
Qed.

Lemma mstep_check self r x : checking p' = Some (self, r) → m' !! r = Some x → owner x = Some t → o' !! self = Some r.
Proof using HI Hc Hs.
  clear Ht Hp. intros Hk Hx Ho. destruct Hs; split_konts; cbn in Hk; by simplify_eq.
Qed.

Lemma mstep_read self r r' : checking p' = Some (self, r) → owned o' m' t self r' → r' = r.
Proof using HI Hc Hs.
  clear Ht Hp. intros Hk [Ho _]. destruct Hs; split_konts; cbn in Hk; simplify_eq; done.
Qed.

Lemma mstep_deflate r x : deflating p' = Some r → m' !! r = Some x → nr_waiting x = 0.
Proof using HI Hc Hs.
  clear Ht Hp. intros Hk Hx. destruct Hs; split_konts; cbn in Hk; simplify_eq;
    rewrite (inv_waiting _ _ _ _ HI _ _ Hx) in *; pose proof (cnt_bounds (is_waiting_on r) c); lia.
Qed.

Lemma mstep_saved z : saved p' = Some z → 1 <= z <= INT_MAX.
Proof using HI Hc Hs.
  pose proof (ti_saved _ _ _ _ Ht) as Hz. clear Ht Hp.
  intros Hk. destruct Hs; split_konts; cbn in Hk, Hz; simplify_eq; eauto.
  exact (ri_count _ (inv_rinv _ _ _ _ HI _ _ H)).
Qed.

Lemma mstep_wait self r : waiting_on p' = Some (self, r) → o' !! self = Some r.
Proof using HI Hc Hs.
  pose proof (ti_wait _ _ _ _ Ht) as Hw. pose proof (ti_ok _ _ _ _ Ht) as Hok.
  pose proof (ti_hold _ _ _ _ Ht) as Hh. clear Ht Hp.
  intros Hk. destruct Hs; split_konts; cbn in Hk, Hw, Hok, Hh; simplify_eq; eauto.
  all: try done. by apply (Hh _ _ eq_refl).
Qed.

(** The record of a waiter is the one it holds the monitor with. *)
Lemma waiting_holding self r self' r' :
  waiting_on p = Some (self, r) → holding p = Some (self', r') → self = self' ∧ r = r'.
Proof using HI Hc.
  intros Hw Hh. pose proof (ti_wait _ _ _ _ Ht _ _ Hw) as H1. destruct (ti_hold _ _ _ _ Ht _ _ Hh) as [H2 _].
  assert (self = self') as ->; [|split; [done|congruence]]. clear -Hw Hh.
  destruct p as [|? [[]| |? []] []|? [] []|? [] []|? ? []|? ? ? []| | | | |]; cbn in *; by simplify_eq.
Qed.

(** A waiter that gave up the monitor does not find itself its owner. *)
Lemma released_checking r self r' x :
  released p = Some r → checking p = Some (self, r') → m !! r' = Some x → owner x ≠ Some t.
Proof using HI Hc.
  intros Hr Hk Hx Ho. pose proof (ti_check _ _ _ _ Ht _ _ _ Hk Hx Ho) as H1.
  destruct (released_waiting _ _ Hr) as [self' Hw]. pose proof (ti_wait _ _ _ _ Ht _ _ Hw) as H2.
  assert (self = self') as ->.
  { clear -Hw Hk. destruct p as [|? [[]| |? []] []|? [] []| | | | | | | |]; cbn in *; by simplify_eq. }
  assert (r = r') as -> by congruence. by apply (ti_released _ _ _ _ Ht r' x).
Qed.

Lemma mstep_released r x : released p' = Some r → m' !! r = Some x → owner x ≠ Some t.
Proof using HI Hc Hs.
  pose proof (ti_released _ _ _ _ Ht) as Hr. pose proof waiting_holding as Hwh. pose proof (ti_ok _ _ _ _ Ht) as Hok.
  pose proof (ti_hold _ _ _ _ Ht) as Hh. pose proof (ti_one _ _ _ _ Ht) as H1. pose proof (ti_check _ _ _ _ Ht) as Hck.
  clear Ht Hp.
  intros Hk Hx. destruct Hs; split_konts; cbn in Hk, Hr, Hwh, Hok, Hh, H1, Hck; simplify_eq; eauto; try done;
    rewrite ?sem_post_set in Hx; try (apply lookup_insert_Some in Hx as [[<- <-]|[_ Hx]]; cbn; by eapply Hr);
    try (rewrite lookup_insert_eq in Hx; simplify_eq/=; by eapply Hr).
  - destruct (Hh _ _ eq_refl). congruence.
  - specialize (H1 _ _ eq_refl H). lia.
  - destruct (Hwh _ _ _ _ eq_refl eq_refl) as [_ ->]. rewrite lookup_insert_eq in Hx. by simplify_eq/=.
Qed.

Lemma mstep_ok : ok_pc p'.
Proof using HI Hc Hs.
  pose proof (ti_wait _ _ _ _ Ht) as Hw. pose proof (ti_ok _ _ _ _ Ht) as Hok.
  pose proof (ti_hold _ _ _ _ Ht) as Hh. pose proof (ti_recs _ _ _ _ Ht) as Hr.
  pose proof waiting_holding as Hwh. pose proof (waiting_pos t p pl) as Hpos.
  pose proof released_checking as Hrc. clear Ht Hp.
  destruct Hs; split_konts; cbn in Hw, Hok, Hh, Hwh |- *; try done.
  - destruct (Hr _ H). congruence.
  - specialize (Hw _ _ eq_refl). congruence.
  - specialize (Hw _ _ eq_refl). congruence.
  - by eapply Hrc.
  - destruct (Hwh _ _ _ _ eq_refl eq_refl) as [_ ->]. specialize (Hpos _ _ _ Hc eq_refl H). lia.
  - destruct (Hh _ _ eq_refl) as [? _]. congruence.
Qed.

Lemma mstep_one r x : one p' = Some r → m' !! r = Some x → lock_count x = 1.
Proof using HI Hc Hs.
  pose proof (ti_one _ _ _ _ Ht) as H1. pose proof (ti_hold _ _ _ _ Ht) as Hh. 
  pose proof (ti_check _ _ _ _ Ht) as Hk. pose proof (ti_ok _ _ _ _ Ht) as Hok. pose proof waiting_holding as Hwh. clear Ht Hp.
  intros Ho Hx. destruct Hs; split_konts; cbn in Ho, H1, Hk, Hh, Hok, Hwh; simplify_eq; try done;
    try (destruct (Hwh _ _ _ _ eq_refl eq_refl) as [_ <-]); rewrite ?lookup_insert_eq in Hx; simplify_eq/=; eauto.
  all: try (match goal with H0 : owner _ = None |- _ => exact (ri_free _ (inv_rinv _ _ _ _ HI _ _ H) H0) end).
  all: pose proof (ri_count _ (inv_rinv _ _ _ _ HI _ _ Hx)); lia.
Qed.

(** A record being flushed has its owner. *)
Lemma flushing_owner t0 p0 pl0 r x :
  c !! t0 = Some (p0, pl0) → flushing p0 = Some r → m !! r = Some x → owner x = Some t0.
Proof using HI.
  intros H0 Hf Hx. clear -HI H0 Hf Hx. destruct (inv_pinv _ _ _ _ HI _ _ _ H0) as [_ Hpv].
  destruct (Hpv r) as [(y & Hy & Ho & _) _]; [|congruence].
  destruct p0 as [| | |? ? []| | | | | | |]; cbn in *; simplify_eq; set_solver.
Qed.

Lemma contending_attached self r x :
  contending p = Some (self, r) → m !! r = Some x → owner x = None → o !! self = Some r.
Proof using HI Hc.
  intros Hk Hx Ho. destruct (inv_contend _ _ _ _ HI _ _ _ _ _ Hc Hk) as [?|(t0 & p0 & pl0 & H0 & Hf)]; [done|].
  pose proof (flushing_owner _ _ _ _ _ H0 Hf Hx). congruence.
Qed.

Lemma mstep_hold self r : holding p' = Some (self, r) → owned o' m' t self r.
Proof using HI Hc Hs.
  pose proof (ti_hold _ _ _ _ Ht) as Hh. pose proof (ti_hold_obj _ _ _ _ Ht) as Hobj.
  pose proof (ti_check _ _ _ _ Ht) as Hk. pose proof mstep_owned as Ho.
  pose proof (ti_ok _ _ _ _ Ht) as Hok. pose proof contending_attached as Hca.
  pose proof waiting_holding as Hwh. clear Ht Hp.
  intros Hn. destruct Hs; split_konts; cbn in Hn, Hk, Hh, Hobj, Hok, Hwh, Hca; simplify_eq; try done;
    try (apply Ho; [by apply Hh|done]).
  all: try (destruct (Hobj _ eq_refl) as [r' Hr']; pose proof Hr' as [Hr'' _]; by simplify_eq).
  all: try (match goal with Hx : m !! _ = Some _, Hw : owner _ = Some t |- _ =>
              split; [exact (Hk _ _ _ eq_refl Hx Hw)|by eauto] end).
  all: try (apply Ho; [destruct (Hwh _ _ _ _ eq_refl eq_refl) as [_ ->]; by apply Hh|done]).
  all: split; [by eapply Hca|rewrite lookup_insert_eq; by eauto].
Qed.

Lemma mstep_hold_obj self : holds_obj p' = Some self → ∃ r, owned o' m' t self r.
Proof using HI Hc Hs.
  pose proof (ti_hold _ _ _ _ Ht) as Hh. pose proof (ti_hold_obj _ _ _ _ Ht) as Hobj.
  pose proof mstep_owned as Ho. pose proof (ti_ok _ _ _ _ Ht) as Hok.
  destruct Hp as [_ Hf]. clear Ht Hp.
  intros Hn. destruct Hs; split_konts; cbn in Hn, Hh, Hobj, Hok, Hf; simplify_eq; try done;
    try (eexists; apply Ho; [by apply Hh|done]).
  - by apply Hobj.
  - exists r. split; [by rewrite lookup_insert_eq|].
    destruct (Hf r) as [(x & Hx & Hw & _) _]; [by left|]. by exists x.
Qed.

Lemma mstep_tinv : tinv o' m' t p'.
Proof using HI Hc Hs.
  split; [apply mstep_ok|apply mstep_recs|apply mstep_hold|apply mstep_hold_obj|apply mstep_one|apply mstep_wait
         |apply mstep_check|apply mstep_deflate|apply mstep_saved|apply mstep_read|apply mstep_released].
Qed.

(** The records the thread has for itself stay ready. *)
Lemma fresh_owned r self r' : fresh_for o m t r → owned o m t self r' → r' ≠ r.
Proof using. intros [_ Hu] [Ho _] ->. by eapply Hu. Qed.

Lemma fresh_store r r' x x' :
  fresh_for o m t r → m !! r' = Some x →
  r' ≠ r ∨ (owner x = Some t → owner x' = Some t) ∧ lock_count x' = lock_count x ∧ nr_waiting x' = nr_waiting x →
  fresh_for o (<[r' := x']> m) t r.
Proof using.
  intros [(y & Hy & Hw & Hl & Hn) Hu] Hx Hor. split; [|done]. destruct (decide (r' = r)) as [->|Hne].
  - rewrite lookup_insert_eq. simplify_eq. destruct Hor as [?|(E1 & E2 & E3)]; [done|].
    exists x'. rewrite E2, E3. auto.
  - rewrite lookup_insert_ne by done. eauto.
Qed.

Lemma mstep_fresh r : r ∈ private p ++ pl → (∀ self k r', p = PLock self k (LCas r') → o !! self ≠ None) → fresh_for o' m' t r.
Proof using HI Hc Hs.
  pose proof (ti_hold _ _ _ _ Ht) as Hh. destruct Hp as [_ Hf]. clear Ht Hp.
  intros Hr Hne. apply Hf in Hr as Hfr. clear Hf. destruct Hs; try done; cbn in Hh;
    try (rewrite ?sem_post_set; eapply fresh_store; [done..|]; right; by repeat split);
    try (eapply fresh_store; [done..|]; left; eapply fresh_owned; [done|by apply Hh]).
  - by apply elem_of_nil in Hr.
  - by destruct (Hne _ _ _ eq_refl).
  - destruct Hfr as [Hx Hu]. split; [done|]. intros self' Hs'. apply lookup_delete_Some in Hs' as [_ Hs']. by eapply Hu.
Qed.

Lemma pinv_malloc r : m !! r = None → pinv o (<[r := new_monitor_record t]> m) t [r].
Proof using HI.
  intros Hr. split; [apply NoDup_singleton|]. intros r' ->%list_elem_of_singleton. split.
  - exists (new_monitor_record t). by rewrite lookup_insert_eq.
  - intros self Ho. destruct (inv_attached _ _ _ _ HI _ _ Ho). congruence.
Qed.

Lemma pinv_inflate self r l : pinv o m t (r :: l) → pinv (<[self := r]> o) m t l.
Proof using.
  intros [[Hnin Hnd]%NoDup_cons Hf]. split; [done|]. intros r' Hr'.
  destruct (Hf r') as [Hx Hu]; [by right|]. split; [done|].
  intros self' [[_ ->]|[_ Hs']]%lookup_insert_Some; [done|by eapply Hu].
Qed.

Lemma pinv_deflate self r x l :
  pinv o m t l → owned o m t self r → m !! r = Some x → lock_count x = 1 → nr_waiting x = 0 →
  pinv (delete self o) m t (r :: l).
Proof using HI.
  intros [Hnd Hf] Hw Hx H1 H2. split.
  - apply NoDup_cons. split; [|done]. intros Hr. by apply (fresh_owned r self r (Hf _ Hr) Hw).
  - intros r' Hr'. assert (∀ self', delete self o !! self' ≠ Some r') as Hu.
    { intros self' [Hne Hs']%lookup_delete_Some. destruct Hw as [Ho _].
      apply elem_of_cons in Hr' as [->|Hr']; [by apply Hne; eapply inv_inj|]. destruct (Hf _ Hr') as [_ Hu]. by eapply Hu. }
    apply elem_of_cons in Hr' as [->|Hr']; [|by destruct (Hf _ Hr')].
    destruct Hw as (_ & y & Hy & Hyo). simplify_eq. split; [by eauto|done].
Qed.

Lemma mstep_pinv : pinv o' m' t (private p' ++ pl').
Proof using HI Hc Hs.
  pose proof Hp as [Hnd Hf]. pose proof mstep_fresh as Hm. pose proof (ti_recs _ _ _ _ Ht) as Hr.
  pose proof (ti_hold _ _ _ _ Ht) as Hh. pose proof (ti_one _ _ _ _ Ht) as H1. pose proof (ti_deflate _ _ _ _ Ht) as Hd. clear Ht Hp.
  destruct Hs; split_konts; cbn in Hnd, Hf, Hm, Hh, H1, Hd |- *; try (by apply pinv_malloc);
    try (split; [done|]; intros r0 Hr0; apply Hm; [done|intros; simplify_eq; congruence]);
    try (by apply pinv_inflate; split).
  1: by destruct (Hr _ H); congruence.
  all: destruct (Hh _ _ eq_refl) as (_ & x & Hx & _); eapply pinv_deflate; eauto; by split.
Qed.
End self.

(** ** A step keeps the invariant *)

Lemma s32_small z : 0 <= z <= INT_MAX → s32 z = z.
Proof. unfold INT_MAX, s32. intros H. apply signed_id; lia. Qed.

(** Closes a goal about a count, from what it was before the step. *)
Ltac by_count E :=
  rewrite ?sem_post_set; cbn [nr_blocked nr_waiting set_owner set_nr_blocked set_nr_waiting set_candidate set_lock_count set_sem
    set_notify_mutex set_notify_cond]; unfold atomic_inc, atomic_dec; rewrite ?E;
  rewrite ?bool_decide_eq_true_2 in * by done; rewrite ?bool_decide_eq_false_2 in * by congruence; cbn [Z.b2z] in *;
  rewrite ?s32_small; lia.

Section preserve.
Context (n : nat) (o o' : gmap oid rid) (m m' : gmap rid vm_monitor_record) (c : list (pc * list rid)).
Context (t : tid) (p p' : pc) (pl pl' : list rid) (e : option event).
Context (Hn : Z.of_nat n <= INT_MAX).
Context (HI : Inv n o m c) (Hc : c !! t = Some (p, pl)) (Hs : mstep t o m p pl o' m' p' pl' e).

Let c' := <[t := (p', pl')]> c.

Lemma c'_lookup t0 p0 pl0 :
  c' !! t0 = Some (p0, pl0) → t0 = t ∧ p0 = p' ∧ pl0 = pl' ∨ t0 ≠ t ∧ c !! t0 = Some (p0, pl0).
Proof using.
  unfold c'. intros H. destruct (decide (t0 = t)) as [->|Hne].
  - left. apply list_lookup_insert_Some in H as [(_ & E & _)|[? _]]; [|done]. injection E as E1 E2. by repeat split.
  - right. rewrite list_lookup_insert_ne in H by done. done.
Qed.

Lemma c'_t : c' !! t = Some (p', pl').
Proof using Hc. unfold c'. apply list_lookup_insert_eq. by eapply lookup_lt_Some. Qed.

Lemma c'_ne t0 : t0 ≠ t → c' !! t0 = c !! t0.
Proof using. intros H. unfold c'. by rewrite list_lookup_insert_ne. Qed.

Lemma c'_count f : cnt f c' = cnt f c - Z.b2z (f p) + Z.b2z (f p').
Proof using Hc. by apply (cnt_insert f c t p pl). Qed.

Lemma c'_length : length c' = n.
Proof using HI. unfold c'. rewrite length_insert. apply (inv_length _ _ _ _ HI). Qed.

(** A record after the step is a record before it, possibly changed, or a new one. *)
Lemma mstep_rinv r x : m' !! r = Some x → rinv x.
Proof using HI Hc Hs.
  pose proof (inv_rinv _ _ _ _ HI) as Hr. pose proof (inv_tinv _ _ _ _ HI _ _ _ Hc) as Ht.
  pose proof (ti_one _ _ _ _ Ht) as H1. pose proof (ti_saved _ _ _ _ Ht) as Hz. pose proof (ti_hold _ _ _ _ Ht) as Hh. clear Ht.
  intros Hx. destruct Hs; try (by eapply Hr);
    (apply lookup_insert_Some in Hx as [[_ <-]|[_ Hx]]; [|by eapply Hr]); cbn in H1, Hz, Hh;
    try (match goal with H : m !! _ = Some _ |- _ => specialize (H1 _ _ eq_refl H) end);
    try (destruct (Hh _ _ eq_refl) as (_ & y & Hy & Hw));
    try (match goal with H : m !! _ = Some _ |- _ => destruct (Hr _ _ H) end);
    rewrite ?sem_post_set; split; cbn; simplify_eq; auto; try lia; try (case_decide; lia); try congruence; try (specialize (Hz _ eq_refl)); try lia.
  1-2: by unfold INT_MAX, SEM_VALUE_MAX; lia.
  intros _. by eapply H1; [destruct k|].
Qed.

Lemma recs_defined r : r ∈ recs_of p → m !! r ≠ None.
Proof using HI Hc.
  intros Hr E. destruct (ti_recs _ _ _ _ (inv_tinv _ _ _ _ HI _ _ _ Hc) _ Hr). congruence.
Qed.

(** Nobody counts on a record that is not allocated. *)
Lemma cnt_fresh r : m !! r = None → cnt (is_blocked_on r) c = 0 ∧ cnt (is_waiting_on r) c = 0.
Proof using HI.
  clear -HI. intros Hr. assert (∀ t p pl, c !! t = Some (p, pl) → r ∈ recs_of p → False) as Hno.
  { intros t p pl Hc Hin. destruct (ti_recs _ _ _ _ (inv_tinv _ _ _ _ HI _ _ _ Hc) _ Hin). congruence. }
  split; apply cnt_zero; intros t p pl Hc; apply bool_decide_eq_false; intros E.
  - eapply Hno; [done|]. by apply blocked_recs.
  - destruct (waiting_on p) as [[self r']|] eqn:Ew; cbn in E; simplify_eq.
    eapply Hno; [done|]. by eapply waiting_recs.
Qed.

Lemma mstep_blocked r x : m' !! r = Some x → nr_blocked x = cnt (is_blocked_on r) c'.
Proof using HI Hc Hs Hn.
  pose proof (inv_blocked _ _ _ _ HI) as Hb. pose proof (c'_count (is_blocked_on r)) as E.
  pose proof (cnt_bounds (is_blocked_on r) c') as Hl. rewrite c'_length in Hl.
  pose proof (cnt_bounds (is_blocked_on r) c) as Hl0. rewrite (inv_length _ _ _ _ HI) in Hl0.
  pose proof recs_defined as Hdef. pose proof (cnt_fresh r) as Hfr. 
  intros Hx. rewrite E. rewrite E in Hl. clear E c'. unfold is_blocked_on in *.
  destruct Hs; split_konts; cbn [blocked_on enter lock_ret unlock_ret notify_ret check_ok check_fail] in *;
    rewrite ?(bool_decide_eq_false_2 (None = Some r)) in * by done; cbn [Z.b2z] in *;
    try (rewrite (Hb _ _ Hx); lia);
    try (by destruct (Hdef r0));
    (apply lookup_insert_Some in Hx as [[<- <-]|[? Hx]]; [|by_count (Hb _ _ Hx)]);
    try (by_count (Hb _ _ H)).
  all: by destruct (Hfr H) as [-> _].
Qed.

Lemma mstep_waiting r x : m' !! r = Some x → nr_waiting x = cnt (is_waiting_on r) c'.
Proof using HI Hc Hs Hn.
  pose proof (inv_waiting _ _ _ _ HI) as Hb. pose proof (c'_count (is_waiting_on r)) as E.
  pose proof (cnt_bounds (is_waiting_on r) c') as Hl. rewrite c'_length in Hl.
  pose proof (cnt_bounds (is_waiting_on r) c) as Hl0. rewrite (inv_length _ _ _ _ HI) in Hl0.
  pose proof recs_defined as Hdef. pose proof (cnt_fresh r) as Hfr.
  pose proof (ti_ok _ _ _ _ (inv_tinv _ _ _ _ HI _ _ _ Hc)) as Hok.
  intros Hx. rewrite E. rewrite E in Hl. clear E c'. unfold is_waiting_on in *.
  destruct Hs; split_konts; cbn [ok_pc waiting_on enter lock_ret unlock_ret notify_ret check_ok check_fail fmap option_fmap option_map snd] in *; try done;
    rewrite ?(bool_decide_eq_false_2 (None = Some r)) in * by done; cbn [Z.b2z] in *;
    try (rewrite (Hb _ _ Hx); lia);
    try (by destruct (Hdef r0));
    (apply lookup_insert_Some in Hx as [[<- <-]|[? Hx]]; [|by_count (Hb _ _ Hx)]);
    try (by_count (Hb _ _ H)).
  all: by destruct (Hfr H) as [_ ->].
Qed.

(** A record leaves its object only into the flush of its owner, which ends when
    nobody is counted as blocked on it. *)
Lemma mstep_keep self r : o !! self = Some r → o' !! self = Some r ∨ flushing p' = Some r.
Proof using HI Hc Hs.
  pose proof (ti_hold _ _ _ _ (inv_tinv _ _ _ _ HI _ _ _ Hc)) as Hh.
  intros Ho. destruct Hs; try (by left); cbn in Hh |- *.
  - left. by rewrite lookup_insert_ne by congruence.
  - destruct (Hh _ _ eq_refl) as [Hr _]. destruct (decide (self0 = self)) as [->|].
    + right. congruence.
    + left. by rewrite lookup_delete_ne.
Qed.

Lemma mstep_flushing r x : flushing p = Some r → m !! r = Some x → 0 < nr_blocked x → flushing p' = Some r.
Proof using HI Hc Hs.
  pose proof recs_defined as Hdef.
  intros Hf Hx Hb. destruct Hs; cbn in Hf |- *; simplify_eq; try done. by destruct (Hdef r0).
Qed.

Lemma contending_blocked q self r : contending q = Some (self, r) → blocked_on q = Some r.
Proof using. clear. destruct q as [| |? ? []| | | | | | | |]; cbn; intros ?; by simplify_eq. Qed.

Lemma mstep_contend_self self r : contending p' = Some (self, r) → o' !! self = Some r ∨ contending p = Some (self, r).
Proof using Hs.
  clear -Hs. intros Hk. destruct Hs; split_konts; cbn in Hk |- *; simplify_eq; auto.
Qed.

Lemma mstep_contend t0 p0 pl0 self r :
  c' !! t0 = Some (p0, pl0) → contending p0 = Some (self, r) →
  o' !! self = Some r ∨ ∃ t1 p1 pl1, c' !! t1 = Some (p1, pl1) ∧ flushing p1 = Some r.
Proof using HI Hc Hs.
  intros H0 Hk. assert (o' !! self = Some r ∨ ∃ q ql, c !! t0 = Some (q, ql) ∧ contending q = Some (self, r))
    as [?|(q & ql & Hq & Hk')]; [|by left|].
  { apply c'_lookup in H0 as [(-> & -> & ->)|[Hne H0]]; [|by eauto].
    destruct (mstep_contend_self _ _ Hk); eauto. }
  destruct (inv_contend _ _ _ _ HI _ _ _ _ _ Hq Hk') as [Ho|(t1 & p1 & pl1 & H1 & Hf)].
  - destruct (mstep_keep _ _ Ho) as [?|Hf]; [by left|]. right. exists t, p', pl'. by rewrite c'_t.
  - right. destruct (decide (t1 = t)) as [->|Hne]; [|exists t1, p1, pl1; by rewrite c'_ne].
    simplify_eq. exists t, p', pl'. rewrite c'_t. split; [done|].
    pose proof (contending_blocked _ _ _ Hk') as Hb.
    destruct (ti_recs _ _ _ _ (inv_tinv _ _ _ _ HI _ _ _ Hq) r) as [x Hx]; [by apply blocked_recs|].
    eapply mstep_flushing; [done..|]. by eapply blocked_pos.
Qed.

Lemma mstep_attached self r : o' !! self = Some r → is_Some (m' !! r).
Proof using HI Hc Hs.
  intros Ho. eapply mstep_mem; [done..|].
  destruct (gu_attach _ _ _ _ _ _ (mstep_guar _ _ _ _ _ _ _ _ _ _ _ _ HI Hc Hs) _ _ Ho) as [H|H].
  - by eapply inv_attached.
  - destruct (inv_pinv _ _ _ _ HI _ _ _ Hc) as [_ Hf]. destruct (Hf _ H) as [(x & Hx & _) _]. eauto.
Qed.

Lemma mstep_inj self self' r : o' !! self = Some r → o' !! self' = Some r → self = self'.
Proof using HI Hc Hs.
  pose proof (inv_inj _ _ _ _ HI) as Hi. destruct (inv_pinv _ _ _ _ HI _ _ _ Hc) as [_ Hf].
  destruct Hs; try apply Hi; cbn in Hf.
  - destruct (Hf r0) as [_ Hu]; [by left|].
    intros [[<- <-]|[_ H1]]%lookup_insert_Some [[<- E]|[_ H2]]%lookup_insert_Some; simplify_eq; try done.
    + by destruct (Hu self').
    + by destruct (Hu self).
    + by eapply Hi.
  - intros [_ H1]%lookup_delete_Some [_ H2]%lookup_delete_Some. by eapply Hi.
Qed.

Lemma flushing_private q r : flushing q = Some r → r ∈ private q.
Proof using. clear. destruct q as [| | |? ? []| | | | | | |]; cbn; intros ?; simplify_eq; set_solver. Qed.

Lemma mstep_private r : r ∈ private p ++ pl → (∃ self, o' !! self = Some r) ∨ r ∈ private p' ++ pl'.
Proof using HI Hc Hs.
  pose proof recs_defined as Hdef.
  intros Hr. destruct Hs; split_konts; cbn in Hr |- *; auto; try (right; by right); try (by destruct (Hdef r0)).
  all: apply elem_of_cons in Hr as [->|Hr]; [|by right]. all: left; exists self; by rewrite lookup_insert_eq.
Qed.

Lemma mstep_new r x : m' !! r = Some x → m !! r = None → r ∈ private p'.
Proof using HI Hc Hs.
  intros Hx Hm. destruct Hs; try congruence; try (rewrite lookup_insert_ne in Hx; congruence).
  destruct (decide (r0 = r)) as [->|]; [by left|]. rewrite lookup_insert_ne in Hx by done. congruence.
Qed.

Lemma mstep_place r x : m' !! r = Some x →
  (∃ self, o' !! self = Some r) ∨ ∃ t0 p0 pl0, c' !! t0 = Some (p0, pl0) ∧ r ∈ private p0 ++ pl0.
Proof using HI Hc Hs.
  intros Hx. assert (r ∈ private p' ++ pl' → ∃ t0 p0 pl0, c' !! t0 = Some (p0, pl0) ∧ r ∈ private p0 ++ pl0) as Hme.
  { intros Hr. exists t, p', pl'. by rewrite c'_t. }
  destruct (m !! r) as [x0|] eqn:Hm; [|right; apply Hme, elem_of_app; left; by eapply mstep_new].
  destruct (inv_place _ _ _ _ HI _ _ Hm) as [[self Ho]|(t0 & p0 & pl0 & H0 & Hr)].
  - destruct (mstep_keep _ _ Ho) as [?|Hf]; [by eauto|]. right. apply Hme, elem_of_app. left. by apply flushing_private.
  - destruct (decide (t0 = t)) as [->|Hne].
    + simplify_eq. destruct (mstep_private _ Hr); [by left|right; by apply Hme].
    + right. exists t0, p0, pl0. by rewrite c'_ne.
Qed.

Lemma mstep_inv : Inv n o' m' c'.
Proof using HI Hc Hs Hn.
  pose proof (mstep_guar _ _ _ _ _ _ _ _ _ _ _ _ HI Hc Hs) as Hg. split.
  - apply c'_length.
  - intros t0 p0 pl0 [(-> & -> & ->)|[Hne H0]]%c'_lookup; [by eapply mstep_tinv|].
    eapply tinv_stable; [done|done| | | |by eapply inv_tinv].
    + by apply (inv_pinv _ _ _ _ HI _ _ _ Hc).
    + intros self r Ho. destruct (gu_attach _ _ _ _ _ _ Hg _ _ Ho) as [?|Hin]; [by eapply inv_attached|].
      destruct (inv_pinv _ _ _ _ HI _ _ _ Hc) as [_ Hf]. destruct (Hf _ Hin) as [(x & Hx & _) _]. eauto.
    + intros; by eapply waiting_pos.
  - intros t0 p0 pl0 [(-> & -> & ->)|[Hne H0]]%c'_lookup; [by eapply mstep_pinv|].
    eapply pinv_stable; [done..| |by eapply inv_pinv]. by apply (inv_pinv _ _ _ _ HI _ _ _ Hc).
  - apply mstep_rinv.
  - apply mstep_blocked.
  - apply mstep_waiting.
  - apply mstep_contend.
  - apply mstep_attached.
  - apply mstep_inj.
  - apply mstep_place.
Qed.
End preserve.
