(* ===== verification/MonitorProps.v ===== *)
(** * What the monitors promise

    Mutual exclusion and nesting, as a refinement of a lock with a count and as an
    account of the results clients have seen; safety of the memory; no lost
    wake-ups and no missed notifications; what goes wrong when a thread ends. *)

From stdpp Require Import gmap.
From S2P Require Import Prelude Monitor MonitorRules MonitorInv.
#[local] Open Scope Z_scope.

(** ** The invariant holds in every run *)

Lemma init_inv n : Inv n (objs (init n)) (recs (init n)) (cfg (init n)).
Proof.
  assert (∀ t p pl, cfg (init n) !! t = Some (p, pl) → p = PIdle ∧ pl = []) as Hc.
  { intros t p pl H. unfold cfg, init in H. cbn in H. rewrite fmap_replicate in H.
    apply lookup_replicate_1 in H as [H _]. by injection H. }
  split; try done.
  - unfold cfg, init. cbn. by rewrite length_fmap, length_replicate.
  - intros t p pl [-> ->]%Hc. split; cbn; try done. intros r Hr. by apply elem_of_nil in Hr.
  - intros t p pl [-> ->]%Hc. split; cbn; [constructor|]. intros r Hr. by apply elem_of_nil in Hr.
  - by intros t p pl self r [-> ->]%Hc.
Qed.

Lemma run_mstep exits n s h : run exits n s h → exits = false → Z.of_nat n <= INT_MAX →
  Inv n (objs s) (recs s) (cfg s).
Proof.
  intros Hr He Hn. induction Hr as [|s h t a s' e Hr IH Ha Hx]; [apply init_inv|].
  assert (a ≠ AExit) as Hne by (intros ->; subst; by specialize (Ha eq_refl)).
  destruct (exec_mstep _ _ _ _ _ Hx Hne) as (p & pl & p' & pl' & Hc & -> & Hs). by eapply mstep_inv.
Qed.

(** ** The abstract monitor *)

(** The monitor of an object: free, or held by a thread so many times over. *)
Definition monitor : Type := option (tid * Z).

(** What a thread may do to a monitor. *)
Inductive monitor_step (t : tid) : monitor → monitor → Prop :=
| mon_acquire : monitor_step t None (Some (t, 1))
| mon_enter z : monitor_step t (Some (t, z)) (Some (t, z + 1))
| mon_exit z : 1 < z → monitor_step t (Some (t, z)) (Some (t, z - 1))
| mon_release : monitor_step t (Some (t, 1)) None
| mon_save z : monitor_step t (Some (t, z)) (Some (t, 1))
| mon_restore z : monitor_step t (Some (t, 1)) (Some (t, z)).

Definition lock_of (x : vm_monitor_record) : monitor := owner x ≫= λ t, Some (t, lock_count x).
Definition abs (o : gmap oid rid) (m : gmap rid vm_monitor_record) (self : oid) : monitor :=
  o !! self ≫= λ r, m !! r ≫= lock_of.

Lemma abs_same o m r x x' self :
  m !! r = Some x → lock_of x' = lock_of x → abs o (<[r := x']> m) self = abs o m self.
Proof.
  intros Hx E. unfold abs. destruct (o !! self) as [r'|]; [|done]. cbn.
  destruct (decide (r' = r)) as [->|Hne]; [|by rewrite lookup_insert_ne].
  by rewrite lookup_insert_eq, Hx.
Qed.

Lemma abs_upd n o m c self r x' self' :
  Inv n o m c → o !! self = Some r →
  abs o (<[r := x']> m) self' = if decide (self' = self) then lock_of x' else abs o m self'.
Proof.
  intros HI Ho. unfold abs. case_decide as Hd; [subst; rewrite Ho; cbn; by rewrite lookup_insert_eq|].
  destruct (o !! self') as [r'|] eqn:E; [|done]. cbn.
  rewrite lookup_insert_ne; [done|]. intros <-. apply Hd. by eapply inv_inj.
Qed.

Lemma abs_inflate o m self r self' :
  abs (<[self := r]> o) m self' = if decide (self' = self) then m !! r ≫= lock_of else abs o m self'.
Proof.
  unfold abs. case_decide as Hd; [subst; by rewrite lookup_insert_eq|]. by rewrite lookup_insert_ne.
Qed.

Lemma abs_deflate o m self self' :
  abs (delete self o) m self' = if decide (self' = self) then None else abs o m self'.
Proof.
  unfold abs. case_decide as Hd; [subst; by rewrite lookup_delete_eq|]. by rewrite lookup_delete_ne.
Qed.

Lemma abs_malloc n o m c r x' self : Inv n o m c → m !! r = None → abs o (<[r := x']> m) self = abs o m self.
Proof.
  intros HI Hr. unfold abs. destruct (o !! self) as [r'|] eqn:E; [|done]. cbn.
  destruct (inv_attached _ _ _ _ HI _ _ E). rewrite lookup_insert_ne by congruence. done.
Qed.

(** The steps that change the lock of a monitor. *)
Inductive effect (t : tid) : pc → pc → oid → monitor → monitor → Prop :=
| ef_inflate self k r : effect t (PLock self k (LCas r)) (lock_ret self k 0) self None (Some (t, 1))
| ef_recurse self k r z :
    effect t (PLock self k (LRecurse r)) (lock_ret self k 0) self (Some (t, z)) (Some (t, z + 1))
| ef_won self k r : effect t (PLock self k (LTry r)) (PLock self k (LWonDec r)) self None (Some (t, 1))
| ef_inner self k r z : 1 < z →
    effect t (PUnlock self k (UCount r)) (unlock_ret self k) self (Some (t, z)) (Some (t, z - 1))
| ef_release self k r : effect t (PUnlock self k (URelease r)) (PUnlock self k (UWake r)) self (Some (t, 1)) None
| ef_deflate self k r : effect t (PUnlock self k (UDeflate r)) (PUnlock self k (UReread r)) self (Some (t, 1)) None
| ef_save self ts r b z :
    effect t (PWait self ts (WSave r b)) (PWait self ts (WIncWaiting r b z)) self (Some (t, z)) (Some (t, 1))
| ef_restore self ts r z err :
    effect t (PWait self ts (WRestore r z err)) (PWait self ts (WTest err)) self (Some (t, 1)) (Some (t, z)).

Definition visible (p p' : pc) : bool :=
  match p, p' with
  | PLock _ _ (LCas _), PLock _ _ LRead | PLock _ _ (LRecurse _), POverflow
  | PUnlock _ _ (UCount _), PUnlock _ _ (UBlocked _) => false
  | PLock _ _ (LCas _ | LRecurse _), _ | PLock _ _ (LTry _), PLock _ _ (LWonDec _)
  | PUnlock _ _ (UCount _ | URelease _ | UDeflate _), _ | PWait _ _ (WSave _ _ | WRestore _ _ _), _ => true
  | _, _ => false
  end.

Lemma owned_abs o m t self r x : owned o m t self r → m !! r = Some x → abs o m self = Some (t, lock_count x).
Proof.
  intros (Ho & y & Hy & Hw) Hx. assert (y = x) as -> by congruence. unfold abs. rewrite Ho. cbn. rewrite Hx. cbn.
  unfold lock_of. by rewrite Hw.
Qed.

(** A write to the record of a monitor the thread owns. *)
Lemma visible_upd n o m c t p p' self r x x' v :
  Inv n o m c →  owned o m t self r → m !! r = Some x →
  (owner x = Some t → effect t p p' self (Some (t, lock_count x)) v) →
  (owner x = Some t → lock_of x' = v) →
  ∃ self v, effect t p p' self (abs o m self) v ∧
    ∀ self', abs o (<[r := x']> m) self' = if decide (self' = self) then v else abs o m self'.
Proof.
  intros HI Ho Hx He Hl. exists self, v. rewrite (owned_abs o m t self r x) by done. destruct Ho as (Ho & y & Hy & Hw).
  assert (y = x) as -> by congruence. split; [by apply He|]. intros self'.
  rewrite (abs_upd n o m c self) by done. by rewrite (Hl Hw).
Qed.

Section abs.
Context (n : nat) (o o' : gmap oid rid) (m m' : gmap rid vm_monitor_record) (c : list (pc * list rid)).
Context (t : tid) (p p' : pc) (pl pl' : list rid) (e : option event).
Context (HI : Inv n o m c) (Hc : c !! t = Some (p, pl)) (Hs : mstep t o m p pl o' m' p' pl' e).

Let Ht : tinv o m t p := inv_tinv _ _ _ _ HI _ _ _ Hc.

Lemma mstep_abs :
  if visible p p'
  then ∃ self v, effect t p p' self (abs o m self) v ∧
         ∀ self', abs o' m' self' = if decide (self' = self) then v else abs o m self'
  else ∀ self', abs o' m' self' = abs o m self'.
Proof using HI Hc Hs.
  pose proof (ti_hold _ _ _ _ Ht) as Hh. pose proof (ti_one _ _ _ _ Ht) as H1. pose proof (ti_ok _ _ _ _ Ht) as Hok.
  pose proof (ti_recs _ _ _ _ Ht) as Hr.
  pose proof (contending_attached _ _ _ _ _ _ _ HI Hc) as Hca. destruct (inv_pinv _ _ _ _ HI _ _ _ Hc) as [_ Hf]. clear Ht.
  destruct Hs; cbn in Hh, H1, Hok, Hca, Hf; try (cbn; done);
    try (cbn; intros self'; rewrite ?sem_post_set; by eapply abs_same);
    try (cbn; intros self'; by eapply abs_malloc).
  - by destruct (Hr _ H); congruence.
  - assert (visible (PLock self k (LCas r)) (lock_ret self k 0) = true) as -> by (by destruct k).
    destruct (Hf r) as [(x & Hx & Hw & Hl & _) _]; [by left|]. exists self, (Some (t, 1)). split.
    + unfold abs. rewrite H. constructor.
    + intros self'. rewrite abs_inflate, Hx. unfold lock_of. cbn. by rewrite Hw, Hl.
  - assert (visible (PLock self k (LRecurse r)) (lock_ret self k 0) = true) as -> by (by destruct k).
    eapply (visible_upd _ _ _ _ t _ _ self r x); [done|by apply Hh|done|intros _; constructor|]. unfold lock_of. cbn. by intros ->.
  - specialize (Hca _ _ _ eq_refl H H0). exists self, (Some (t, 1)). split.
    + unfold abs. rewrite Hca. cbn. rewrite H. unfold lock_of. cbn. rewrite H0. constructor.
    + intros self'. rewrite (abs_upd n o m c self) by done. unfold lock_of. cbn.
      by rewrite (ri_free _ (inv_rinv _ _ _ _ HI _ _ H) H0).
  - assert (visible (PLock self k (LWonCount r)) (lock_ret self k 0) = false) as -> by (by destruct k).
    intros self'. eapply abs_same; [done|]. unfold lock_of. cbn. by rewrite (H1 _ _ eq_refl H).
  - assert (visible (PUnlock self k (UCount r)) (unlock_ret self k) = true) as -> by (by destruct k).
    eapply (visible_upd _ _ _ _ t _ _ self r x); [done|by apply Hh|done|intros _; by constructor|]. unfold lock_of. cbn. by intros ->.
  - assert (lock_count x = 1) as Hl by (eapply H1; [by destruct k|done]).
    eapply (visible_upd _ _ _ _ t _ _ self r x); [done|by apply Hh|done|intros _; rewrite Hl; constructor|done].
  - destruct (Hh _ _ eq_refl) as (Ho & x & Hx & Hw). exists self, None. split.
    + rewrite (owned_abs o m t self r x) by (done || by apply Hh). rewrite (H1 r x) by (done || by destruct k). constructor.
    + intros self'. apply abs_deflate.
  - eapply (visible_upd _ _ _ _ t _ _ self r x); [done|by apply Hh|done|intros _; by constructor|]. unfold lock_of. cbn. by intros ->.
  - eapply (visible_upd _ _ _ _ t _ _ self r x); [done|by apply Hh|done| |].
    + intros _. rewrite (H1 _ _ eq_refl H). constructor.
    + unfold lock_of. cbn. by intros ->.
Qed.
End abs.

Lemma effect_step t p p' self v v' : effect t p p' self v v' → monitor_step t v v'.
Proof. destruct 1; by constructor. Qed.

Definition monitor_of (s : state) (self : oid) : monitor := abs (objs s) (recs s) self.

(** C5: The records, counts and semaphores of vm/monitor.c implement a lock with a
    count for each object: whatever the threads do, a step of a thread leaves all
    monitors as they are, or changes one of them the way that thread may: take it if
    it is free, enter it again or leave it once if it owns it, give it up, or put the
    count aside for a wait and back. *)
Theorem monitor_refinement n s h t a s' e :
  Z.of_nat n <= INT_MAX → run false n s h → a ≠ AExit → exec t a s = Some (s', e) →
  ∃ self, (∀ self', self' ≠ self → monitor_of s' self' = monitor_of s self') ∧
    (monitor_of s' self = monitor_of s self ∨ monitor_step t (monitor_of s self) (monitor_of s' self)).
Proof.
  intros Hn Hr Ha Hx. pose proof (run_mstep _ _ _ _ Hr eq_refl Hn) as HI.
  destruct (exec_mstep _ _ _ _ _ Hx Ha) as (p & pl & p' & pl' & Hc & _ & Hs).
  pose proof (mstep_abs _ _ _ _ _ _ _ _ _ _ _ _ HI Hc Hs) as Habs. destruct (visible p p').
  - destruct Habs as (self & v & He & Hv). exists self. unfold monitor_of. split.
    + intros self' Hne. by rewrite Hv, decide_False.
    + right. rewrite Hv, decide_True by done. by eapply effect_step.
  - exists 0%nat. unfold monitor_of. split; [by intros|]. by left.
Qed.

(** ** The results clients have seen *)

(** How much an event adds to the times [t] has locked [self]. *)
Definition delta (t : tid) (self : oid) (e : option event) : Z :=
  match e with
  | Some (ELock t' self' 0) => if Nat.eqb t' t && Nat.eqb self' self then 1 else 0
  | Some (EUnlock t' self' 0) => if Nat.eqb t' t && Nat.eqb self' self then -1 else 0
  | _ => 0
  end.
(** The locks of [self] that returned 0 to [t], less its unlocks that did. *)
Fixpoint depth (h : list event) (t : tid) (self : oid) : Z :=
  match h with [] => 0 | e :: h => delta t self (Some e) + depth h t self end.

Definition held (v : monitor) (t : tid) : Z :=
  match v with Some (t', z) => if decide (t' = t) then z else 0 | None => 0 end.

(** The count the counter stands for, when the client has locked the object of the
    counter [d] times over. *)
Definition expect_self (p : pc) (d : Z) : Z :=
  match p with
  | PLock _ (LkWait _ _ _) (LWonDec _ | LWonCount _) => 1
  | PLock _ (LkWait _ _ _) _ => 0
  | PLock _ _ (LWonDec _ | LWonCount _) => d + 1
  | PCheck _ (CkNotify _ NkInterrupt | CkUnlock UkInterrupt) _ | PNotify _ _ NkInterrupt _ => d + 1
  | PCheck _ (CkUnlock (UkWait _ _ _ _)) _ => 1
  | PUnlock _ k (UCount _ | UBlocked _ | UWaiting _ | URelease _ | UDeflate _) =>
    match k with UkClient => d | UkWait _ _ _ _ => 1 | UkInterrupt => d + 1 end
  | PUnlock _ k _ => match k with UkClient => d - 1 | UkWait _ _ _ _ => 0 | UkInterrupt => d end
  | PWait _ _ (WIncWaiting _ _ _ | WDec _ _ _ | WAssert _ _ _ | WRestore _ _ _) => 1
  | PWait _ _ (WCond _ _ _ | WBlocked _ _ | WReacquire _ _ | WUnlock _ _ _ | WClear _ _ _) => 0
  | _ => d
  end.
Definition object_of (p : pc) : option oid :=
  match p with
  | PCheck self _ _ | PLock self _ _ | PUnlock self _ _ | PWait self _ _ | PNotify self _ _ _ => Some self
  | _ => None
  end.
Definition expect (p : pc) (self : oid) (d : Z) : Z :=
  match object_of p with
  | Some self' => if Nat.eqb self' self then expect_self p d else d
  | None => d
  end.

Record hinv (o : gmap oid rid) (m : gmap rid vm_monitor_record) (c : list (pc * list rid)) (h : list event) : Prop := {
  hi_held t p pl self : c !! t = Some (p, pl) → held (abs o m self) t = expect p self (depth h t self);
  hi_saved t p pl self z : c !! t = Some (p, pl) → object_of p = Some self → saved p = Some z → z = depth h t self;
}.

Lemma depth_snoc h e t self : depth (option_snoc h e) t self = depth h t self + delta t self e.
Proof.
  destruct e as [e|]; cbn [option_snoc]; [|cbn; lia].
  induction h as [|e' h IH]; cbn [app depth]; [cbn; lia|]. rewrite IH. lia.
Qed.

(** The thread that takes the step is the one whose call returns. *)
Lemma mstep_delta t o m p pl o' m' p' pl' e t' self :
  mstep t o m p pl o' m' p' pl' e → t' ≠ t → delta t' self e = 0.
Proof.
  intros Hs Hne. destruct Hs; split_konts; cbn; try done; apply not_eq_sym, Nat.eqb_neq in Hne; by rewrite Hne.
Qed.

(** Other threads hold what they held. *)
Lemma mstep_held_other n o m c t p pl o' m' p' pl' e t' self :
  Inv n o m c → c !! t = Some (p, pl) → mstep t o m p pl o' m' p' pl' e → t' ≠ t →
  held (abs o' m' self) t' = held (abs o m self) t'.
Proof.
  intros HI Hc Hs Hne. pose proof (mstep_abs _ _ _ _ _ _ _ _ _ _ _ _ HI Hc Hs) as Habs. destruct (visible p p'); [|by rewrite Habs].
  destruct Habs as (self' & v & He & Hv). rewrite Hv. case_decide as Hd; [|done]. subst.
  apply effect_step in He. destruct He; cbn; rewrite ?decide_False by congruence; done.
Qed.

Section hist.
Context (n : nat) (o o' : gmap oid rid) (m m' : gmap rid vm_monitor_record) (c : list (pc * list rid)).
Context (t : tid) (p p' : pc) (pl pl' : list rid) (e : option event) (h : list event).
Context (HI : Inv n o m c) (HH : hinv o m c h) (Hc : c !! t = Some (p, pl)) (Hs : mstep t o m p pl o' m' p' pl' e).

Let Ht : tinv o m t p := inv_tinv _ _ _ _ HI _ _ _ Hc.

(** Steps that leave the lock alone. *)
Lemma mstep_expect self d :
  visible p p' = false → (∀ z, object_of p = Some self → saved p = Some z → z = d) →
  expect p' self (d + delta t self e) = expect p self d.
Proof using HI Hc Hs.
  pose proof (ti_hold _ _ _ _ Ht) as Hh. pose proof (ti_ok _ _ _ _ Ht) as Hok. pose proof (ti_hold_obj _ _ _ _ Ht) as Hobj.
  pose proof (ti_recs _ _ _ _ Ht) as Hr. pose proof (ti_check _ _ _ _ Ht) as Hck. clear Ht.
  intros Hv Hz. destruct Hs; split_konts; cbn in Hv, Hh, Hok, Hobj, Hck; try done;
    unfold expect; cbn; rewrite ?Nat.eqb_refl, ?Z.add_0_r; try done; cbn;
    repeat match goal with |- context [Nat.eqb ?a ?b] => destruct (Nat.eqb_spec a b); subst end; rewrite ?Z.add_0_r;
    try done; try lia.
  1: by destruct (Hr _ H); congruence.
  all: try (destruct (Hh _ _ eq_refl) as (E1 & y & Ey & Ew); simplify_eq; congruence).
  by destruct (Hobj _ eq_refl) as (r & E1 & _); congruence.
Qed.

(** Steps that change it. *)
Lemma mstep_expect_visible self v v' d :
  visible p p' = true → effect t p p' self v v' → (∀ z, saved p = Some z → z = d) →
  held v t = expect p self d →
  held v' t = expect p' self (d + delta t self e) ∧ (∀ z, saved p' = Some z → z = d + delta t self e) ∧
  object_of p = Some self ∧ (object_of p' = Some self ∨ object_of p' = None) ∧
  ∀ self', self' ≠ self → delta t self' e = 0.
Proof using HI Hc Hs.
  clear HH. pose proof (ti_ok _ _ _ _ Ht) as Hok. clear Ht.
  intros Hv He Hz Hd. unfold expect in *. 
  destruct He; inversion Hs; subst; split_konts; cbn in *; try done; rewrite ?Nat.eqb_refl, ?decide_True in * by done; cbn in *.
  all: split_and!; auto; try lia; try (intros z0 E0; simplify_eq; try specialize (Hz _ eq_refl); lia).
  all: try (specialize (Hz _ eq_refl); lia).
  all: intros self' Hne; apply not_eq_sym, Nat.eqb_neq in Hne; by rewrite Hne.
Qed.

(** A wait keeps the count it put aside. *)
Lemma mstep_saved_silent self z :
  visible p p' = false → object_of p' = Some self → saved p' = Some z → object_of p = Some self ∧ saved p = Some z ∧ delta t self e = 0.
Proof using Hs.
  clear -Hs. intros Hv Ho Hz. destruct Hs; split_konts; cbn in *; by simplify_eq.
Qed.

Lemma mstep_hinv : hinv o' m' (<[t := (p', pl')]> c) (option_snoc h e).
Proof using HI HH Hc Hs.
  pose proof (mstep_abs _ _ _ _ _ _ _ _ _ _ _ _ HI Hc Hs) as Habs.
  pose proof (hi_held _ _ _ _ HH t p pl) as Hh. pose proof (hi_saved _ _ _ _ HH t p pl) as Hz.
  split.
  - intros t0 p0 pl0 self H0. rewrite depth_snoc.
    apply (c'_lookup c t p' pl') in H0 as [(-> & -> & ->)|[Hne H0]].
    + destruct (visible p p') eqn:Hv.
      * destruct Habs as (self' & v & He & Ha). rewrite Ha.
        pose proof He as Ho. destruct (mstep_expect_visible self' _ _ (depth h t self') Hv He) as (H1 & _ & H3 & H4 & H5).
        { intros z Ez. eapply Hz; [done| |done]. clear -He. by destruct He. }
        { by apply Hh. }
        case_decide as Hd; [by subst|]. rewrite (Hh self Hc). unfold expect. rewrite H3, (H5 self Hd), Z.add_0_r.
        apply not_eq_sym, Nat.eqb_neq in Hd. destruct H4 as [->| ->]; by rewrite Hd.
      * rewrite Habs, (Hh self Hc). symmetry. apply mstep_expect; [done|]. intros z. by apply Hz.
    + rewrite (mstep_delta _ _ _ _ _ _ _ _ _ _ _ self Hs Hne), Z.add_0_r.
      rewrite (mstep_held_other _ _ _ _ _ _ _ _ _ _ _ _ _ self HI Hc Hs Hne). by eapply hi_held.
  - intros t0 p0 pl0 self z H0 Ho Ez. rewrite depth_snoc.
    apply (c'_lookup c t p' pl') in H0 as [(-> & -> & ->)|[Hne H0]].
    + destruct (visible p p') eqn:Hv.
      * destruct Habs as (self' & v & He & Ha).
        destruct (mstep_expect_visible self' _ _ (depth h t self') Hv He) as (_ & H2 & _ & H4 & _).
        { intros z' Ez'. eapply Hz; [done| |done]. clear -He. by destruct He. }
        { by apply Hh. }
        assert (self' = self) as -> by (destruct H4; congruence). by apply H2.
      * destruct (mstep_saved_silent self z Hv Ho Ez) as (H1 & H2 & ->). rewrite Z.add_0_r. by apply (Hz _ _ Hc).
    + rewrite (mstep_delta _ _ _ _ _ _ _ _ _ _ _ self Hs Hne), Z.add_0_r. by eapply hi_saved.
Qed.
End hist.

Lemma run_hinv n s h : run false n s h → Z.of_nat n <= INT_MAX → hinv (objs s) (recs s) (cfg s) h.
Proof.
  intros Hr Hn. remember false as exits eqn:He. induction Hr as [|s h t a s' e Hr IH Ha Hx].
  - assert (∀ t p pl, cfg (init n) !! t = Some (p, pl) → p = PIdle) as Hc.
    { intros t p pl H. unfold cfg, init in H. cbn in H. rewrite fmap_replicate in H.
      apply lookup_replicate_1 in H as [H _]. by injection H. }
    split; [by intros t p pl self ->%Hc|by intros t p pl self z ->%Hc].
  - assert (a ≠ AExit) as Hne by (intros ->; subst; by specialize (Ha eq_refl)).
    pose proof (run_mstep _ _ _ _ Hr He Hn) as HI.
    destruct (exec_mstep _ _ _ _ _ Hx Hne) as (p & pl & p' & pl' & Hc & -> & Hs). eapply mstep_hinv; eauto.
Qed.

Lemma cfg_lookup s t th : threads s !! t = Some th → cfg s !! t = Some (at_ th, free_monitor_recs th).
Proof. intros H. unfold cfg. by rewrite list_lookup_fmap, H. Qed.

(** C6: A thread between calls holds the monitor of an object exactly as many times as
    its calls of [vm_object_lock] on it returned 0, less its calls of
    [vm_object_unlock] that did, whatever waits, notifications, interrupts and other
    threads did in between; so no two threads between calls both are ahead. *)
Theorem monitor_depth n s h t th self :
  Z.of_nat n <= INT_MAX → run false n s h → threads s !! t = Some th → at_ th = PIdle →
  held (monitor_of s self) t = depth h t self ∧
  ∀ t' th', threads s !! t' = Some th' → at_ th' = PIdle → 0 < depth h t self → 0 < depth h t' self → t' = t.
Proof.
  intros Hn Hr Ht Hp. pose proof (run_hinv _ _ _ Hr Hn) as HH.
  assert (∀ t th, threads s !! t = Some th → at_ th = PIdle → held (monitor_of s self) t = depth h t self) as Hd.
  { intros t0 th0 H0 Hp0. unfold monitor_of. rewrite (hi_held _ _ _ _ HH _ _ _ self (cfg_lookup _ _ _ H0)). by rewrite Hp0. }
  split; [by apply (Hd t th)|]. intros t' th' Ht' Hp' H1 H2.
  rewrite <- (Hd t th Ht Hp) in H1. rewrite <- (Hd t' th' Ht' Hp') in H2. clear -H1 H2.
  destruct (monitor_of s self) as [[t0 z]|]; cbn in *; [|lia]. repeat case_decide; lia || congruence.
Qed.

(** ** Safety *)

(** C36: No thread uses a monitor record after its release or fails the assertion of
    [vm_object_do_wait] that the record is still on the object, as long as no thread
    ends: a record waited on is not deflated, and every record allocated is on an
    object or with one thread.  The two counts of a record count the threads blocked
    and waiting, so they never overflow. *)
Theorem monitor_safe n s h :
  Z.of_nat n <= INT_MAX → run false n s h →
  (∀ t th, threads s !! t = Some th → at_ th ≠ PUndef ∧ at_ th ≠ PAssertFailed) ∧
  ∀ r x, recs s !! r = Some x →
    nr_blocked x = cnt (is_blocked_on r) (cfg s) ∧ nr_waiting x = cnt (is_waiting_on r) (cfg s) ∧
    0 <= nr_blocked x <= Z.of_nat n ∧ 0 <= nr_waiting x <= Z.of_nat n ∧ 1 <= lock_count x <= INT_MAX ∧
    ((∃ self, objs s !! self = Some r) ∨
     ∃ t th, threads s !! t = Some th ∧ r ∈ private (at_ th) ++ free_monitor_recs th ∧ owner x = Some t).
Proof.
  intros Hn Hr. pose proof (run_mstep _ _ _ _ Hr eq_refl Hn) as HI. split.
  - intros t th Ht. pose proof (ti_ok _ _ _ _ (inv_tinv _ _ _ _ HI _ _ _ (cfg_lookup _ _ _ Ht))) as Hok.
    split; intros E; by rewrite E in Hok.
  - intros r x Hx. rewrite (inv_blocked _ _ _ _ HI _ _ Hx), (inv_waiting _ _ _ _ HI _ _ Hx).
    pose proof (cnt_bounds (is_blocked_on r) (cfg s)) as H1. pose proof (cnt_bounds (is_waiting_on r) (cfg s)) as H2.
    rewrite (inv_length _ _ _ _ HI) in H1, H2. pose proof (ri_count _ (inv_rinv _ _ _ _ HI _ _ Hx)).
    split_and!; try done; try lia. destruct (inv_place _ _ _ _ HI _ _ Hx) as [?|(t & p & pl & Hc & Hin)]; [by left|right].
    unfold cfg in Hc. rewrite list_lookup_fmap in Hc. apply fmap_Some in Hc as (th & Hth & E).
    injection E as -> ->. exists t, th. split_and!; [done..|].
    destruct (inv_pinv _ _ _ _ HI _ _ _ (cfg_lookup _ _ _ Hth)) as [_ Hf]. destruct (Hf _ Hin) as [(y & Hy & Hw & _) _]. congruence.
Qed.

(** ** Results *)

Lemma held_nonneg n o m c self t : Inv n o m c → 0 <= held (abs o m self) t.
Proof.
  intros HI. unfold abs. destruct (o !! self) as [r|]; [|done]. cbn. destruct (m !! r) as [x|] eqn:Hx; [|done]. cbn.
  unfold lock_of. destruct (owner x) as [t'|]; [|done]. cbn.
  pose proof (ri_count _ (inv_rinv _ _ _ _ HI _ _ Hx)). case_decide; lia.
Qed.

Lemma held_owned n o m c self t : Inv n o m c → (0 < held (abs o m self) t ↔ ∃ r, owned o m t self r).
Proof.
  intros HI. split.
  - unfold abs. intros H. destruct (o !! self) as [r|] eqn:Ho; [|done]. cbn in H.
    destruct (m !! r) as [x|] eqn:Hx; [|done]. cbn in H. unfold lock_of in H. destruct (owner x) as [t'|] eqn:Hw; [|done].
    cbn in H. case_decide; [|done]. subst. exists r. split; [done|]. by exists x.
  - intros (r & Ho & x & Hx & Hw). rewrite (owned_abs o m t self r x); [|by split; [|exists x]|done]. cbn.
    rewrite decide_True by done. pose proof (ri_count _ (inv_rinv _ _ _ _ HI _ _ Hx)). lia.
Qed.

(** An owner check that fails is right. *)
Lemma check_null_held n o m c h t p pl self :
  Inv n o m c → hinv o m c h → c !! t = Some (p, pl) → expect p self (depth h t self) = depth h t self →
  o !! self = None → depth h t self = 0.
Proof.
  intros HI HH Hc He Ho. rewrite <- He, <- (hi_held _ _ _ _ HH _ _ _ self Hc). unfold abs. by rewrite Ho.
Qed.

Lemma check_fail_held n o m c h t p pl self r x :
  Inv n o m c → hinv o m c h → c !! t = Some (p, pl) → expect p self (depth h t self) = depth h t self →
  checking p = Some (self, r) → m !! r = Some x → owner x ≠ Some t → depth h t self = 0.
Proof.
  intros HI HH Hc He Hk Hx Hw. rewrite <- He, <- (hi_held _ _ _ _ HH _ _ _ self Hc).
  pose proof (held_nonneg _ _ _ _ self t HI). pose proof (held_owned _ _ _ _ self t HI) as Ho.
  destruct (decide (0 < held (abs o m self) t)) as [Hp|]; [|lia]. apply Ho in Hp as [r' Hr'].
  pose proof (ti_read _ _ _ _ (inv_tinv _ _ _ _ HI _ _ _ Hc) _ _ _ Hk Hr') as ->.
  destruct Hr' as (_ & y & Hy & ?). congruence.
Qed.

Definition result_ok (h : list event) (t : tid) (e : event) : Prop :=
  match e with
  | ELock t' self v => t' = t ∧ (v = 0 ∨ v = -1)
  | EUnlock t' self v | ENotify t' self _ v =>
    t' = t ∧ (v = 0 ∧ 0 < depth h t self ∨ v = -1 ∧ depth h t self = 0)
  | EWait t' self v => t' = t ∧ (depth h t self = 0 → v = -1)
  | EInterrupt t' => t' = t
  end.

Lemma mstep_result n o m c h t p pl o' m' p' pl' e :
  Inv n o m c → hinv o m c h → c !! t = Some (p, pl) → mstep t o m p pl o' m' p' pl' (Some e) → result_ok h t e.
Proof.
  intros HI HH Hc Hs. pose proof (ti_hold _ _ _ _ (inv_tinv _ _ _ _ HI _ _ _ Hc)) as Hh.
  pose proof (ti_hold_obj _ _ _ _ (inv_tinv _ _ _ _ HI _ _ _ Hc)) as Hobj.
  pose proof (λ self, hi_held _ _ _ _ HH _ _ _ self Hc) as Hd.
  inversion Hs; subst; split_konts; cbn in *; simplify_eq; cbn; try done; try (by split; auto); split; try done.
  all: try (right; split; [done|]).
  all: try (eapply check_null_held; try done; unfold expect; cbn; by rewrite Nat.eqb_refl).
  all: try (eapply check_fail_held; try done; unfold expect; cbn; by rewrite Nat.eqb_refl).
  all: specialize (Hd self); unfold expect in Hd; cbn in Hd; rewrite ?Nat.eqb_refl in Hd;
    pose proof (held_nonneg _ _ _ _ self t HI); pose proof (held_owned _ _ _ _ self t HI) as [_ Ho].
  all: try (left; split; [done|]; lia).
  all: try (left; split; [done|]; specialize (Ho (ex_intro _ _ (Hh _ _ eq_refl))); lia).
  intros E. specialize (Ho (Hobj _ eq_refl)). lia.
Qed.

(** C38: The result of a call tells whether the caller held the monitor:
    [vm_object_unlock], [vm_object_notify] and [vm_object_notify_all] return 0 when
    it does and -1 when it does not, [vm_object_wait] returns -1 when it does not,
    and [vm_object_lock] returns 0 or -1. *)
Theorem monitor_results n s h t a s' e :
  Z.of_nat n <= INT_MAX → run false n s h → a ≠ AExit → exec t a s = Some (s', Some e) → result_ok h t e.
Proof.
  intros Hn Hr Ha Hx. pose proof (run_mstep _ _ _ _ Hr eq_refl Hn) as HI. pose proof (run_hinv _ _ _ Hr Hn) as HH.
  destruct (exec_mstep _ _ _ _ _ Hx Ha) as (p & pl & p' & pl' & Hc & _ & Hs). by eapply mstep_result.
Qed.
