(* ===== verification/MonitorWake.v ===== *)
(** * No lost wake-ups

    A thread asleep in [wait] on the semaphore of a record relies on others: on the
    owner, who will release the monitor and call [wake_one]; on whoever cleared
    [candidate] to post the semaphore; on a thread that is awake in the loop to set
    [candidate] again; and, when the record was taken off its object, on the flush to
    post often enough.  These are invariants of the runs, and they give progress: if
    nobody holds the monitor, some thread gets there by its own next steps. *)

From stdpp Require Import gmap.
From S2P Require Import Prelude Monitor MonitorRules MonitorInv MonitorProps.
#[local] Open Scope Z_scope.

(** ** Where a thread is *)

Definition posting (p : pc) : option rid := match p with PUnlock _ _ (UPost r) => Some r | _ => None end.
Definition waking (p : pc) : option rid := match p with PUnlock _ _ (UWake r) => Some r | _ => None end.
Definition trying (p : pc) : option rid := match p with PLock _ _ (LTry r) => Some r | _ => None end.
Definition sleeping (p : pc) : option rid := match p with PLock _ _ (LWait r) => Some r | _ => None end.
(** Awake in the loop, before it sets [candidate]. *)
Definition awake (p : pc) : option (oid * rid) :=
  match p with PLock self _ (LCheck r | LCand r) => Some (self, r) | _ => None end.
(** The posts left to a flush, when it has counted them. *)
Definition posts_left (p : pc) : option (rid * Z) :=
  match p with
  | PUnlock _ _ (UFlush r k) => Some (r, Z.of_nat k)
  | PUnlock _ _ (USpin r) => Some (r, 0)
  | _ => None
  end.

(** Some thread's counter satisfies [f]. *)
Definition some_at (c : list (pc * list rid)) {A} (f : pc → option A) (a : A) : Prop :=
  ∃ t p pl, c !! t = Some (p, pl) ∧ f p = Some a.

Definition is_contending (r : rid) (p : pc) : bool := bool_decide (snd <$> contending p = Some r).

Record Wake (o : gmap oid rid) (m : gmap rid vm_monitor_record) (c : list (pc * list rid)) : Prop := {
  wk_token self r x :
    o !! self = Some r → m !! r = Some x → some_at c trying r ∨ some_at c sleeping r →
    0 < sem x ∨ candidate x = 1 ∨ some_at c posting r ∨ some_at c awake (self, r);
  wk_free self r x :
    o !! self = Some r → m !! r = Some x → owner x = None → some_at c sleeping r →
    0 < sem x ∨ some_at c posting r ∨ some_at c awake (self, r) ∨ some_at c trying r ∨
    candidate x = 1 ∧ some_at c waking r;
  wk_flush r x z :
    m !! r = Some x → some_at c posts_left (r, z) → cnt (is_contending r) c <= sem x + z;
}.

(** ** Preservation *)

Section wake.
Context (n : nat) (o o' : gmap oid rid) (m m' : gmap rid vm_monitor_record) (c : list (pc * list rid)).
Context (t : tid) (p p' : pc) (pl pl' : list rid) (e : option event).
Context (Hn : Z.of_nat n <= SEM_VALUE_MAX).
Context (HI : Inv n o m c) (HW : Wake o m c) (Hc : c !! t = Some (p, pl)) (Hs : mstep t o m p pl o' m' p' pl' e).

Let c' := <[t := (p', pl')]> c.

Lemma some_at_here {A} (f : pc → option A) a : f p' = Some a → some_at c' f a.
Proof using Hc. intros H. exists t, p', pl'. split; [by eapply (c'_t c t p)|done]. Qed.

Lemma some_at_step {A} (f : pc → option A) a : some_at c f a → some_at c' f a ∨ f p = Some a.
Proof using Hc.
  intros (t0 & p0 & pl0 & H0 & Hf). destruct (decide (t0 = t)) as [->|Hne].
  - right. congruence.
  - left. exists t0, p0, pl0. split; [|done]. unfold c'. by rewrite c'_ne.
Qed.

Lemma some_at_back {A} (f : pc → option A) a : some_at c' f a → some_at c f a ∨ f p' = Some a.
Proof using Hc.
  intros (t0 & p0 & pl0 & H0 & Hf). apply (c'_lookup c t p' pl') in H0 as [(-> & -> & ->)|[Hne H0]].
  - by right.
  - left. by exists t0, p0, pl0.
Qed.

(** *** What a step does to the semaphore, [candidate] and the owner of a record *)

Section fields.
Context (r : rid) (x x' : vm_monitor_record) (Hx : m !! r = Some x) (Hx' : m' !! r = Some x').

Ltac fields :=
  repeat match goal with
         | H : <[?a := _]> m !! ?a = Some _ |- _ => rewrite lookup_insert_eq in H
         | H : <[?a := _]> m !! _ = Some _ |- _ =>
           destruct (decide (a = r)) as [->|]; [rewrite lookup_insert_eq in H|rewrite lookup_insert_ne in H by done] end;
  simplify_eq/=; auto.

Lemma step_sem : 0 < sem x → 0 < sem x' ∨ ∃ self, contending p = Some (self, r) ∧ awake p' = Some (self, r).
Proof using Hs Hx Hx'.
  clear -Hs Hx Hx'. intros H. destruct Hs; fields; rewrite ?sem_post_set; cbn; eauto; left; case_decide; lia.
Qed.

Lemma step_cand : candidate x = 1 → candidate x' = 1 ∨ posting p' = Some r ∨ r ∈ private p.
Proof using Hs Hx Hx'.
  clear -Hs Hx Hx'. intros H. destruct Hs; fields; rewrite ?sem_post_set; cbn; auto. right. right. by left.
Qed.

Lemma step_posting : 0 <= sem x → posting p = Some r → 0 < sem x'.
Proof using HI Hc Hs Hx Hx'.
  pose proof (recs_defined _ _ _ _ _ _ _ HI Hc) as Hd. clear -Hs Hx Hx' Hd. intros H0 H.
  destruct Hs; cbn in H; simplify_eq; try (by destruct (Hd r0)); fields.
  rewrite sem_post_set. cbn. unfold SEM_VALUE_MAX. case_decide; lia.
Qed.

Lemma step_awake self :
  awake p = Some (self, r) → o !! self = Some r →
  awake p' = Some (self, r) ∨ trying p' = Some r ∧ candidate x' = 1.
Proof using HI Hc Hs Hx Hx'.
  pose proof (recs_defined _ _ _ _ _ _ _ HI Hc) as Hd. clear -Hs Hx Hx' Hd. intros H Ho.
  destruct Hs; cbn in H; simplify_eq; try (by destruct (Hd r0)); fields.
Qed.

Lemma step_trying : trying p' = Some r → candidate x' = 1.
Proof using Hs Hx Hx'.
  clear -Hs Hx Hx'. intros H. destruct Hs; split_konts; cbn in H; simplify_eq; fields.
Qed.

Lemma step_sleeping : sleeping p' = Some r → trying p = Some r ∧ owner x ≠ None ∧ m' = m.
Proof using Hs Hx Hx'.
  clear -Hs Hx Hx'. intros H. destruct Hs; split_konts; cbn in H; simplify_eq; fields; split_and!; congruence.
Qed.

Lemma step_owner : owner x' = None → owner x = None ∨ waking p' = Some r.
Proof using Hs Hx Hx'.
  clear -Hs Hx Hx'. intros H. destruct Hs; fields; rewrite ?sem_post_set in *; cbn in *; auto; congruence.
Qed.

Lemma step_won : trying p = Some r → owner x = None → owner x' ≠ None.
Proof using HI Hc Hs Hx Hx'.
  pose proof (recs_defined _ _ _ _ _ _ _ HI Hc) as Hd. clear -Hs Hx Hx' Hd. intros H Ho.
  destruct Hs; cbn in H; simplify_eq; try (by destruct (Hd r0)); fields; congruence.
Qed.

Lemma step_waking : waking p = Some r → candidate x = 1 → posting p' = Some r.
Proof using HI Hc Hs Hx.
  pose proof (recs_defined _ _ _ _ _ _ _ HI Hc) as Hd. clear -Hs Hx Hd. intros H Ho.
  destruct Hs; cbn in H; simplify_eq; try (by destruct (Hd r0)); fields.
Qed.

Lemma step_flush z :
  posts_left p' = Some (r, z) → 0 <= sem x <= SEM_VALUE_MAX →
  (flushing p = Some r ∧ z = nr_blocked x ∧ 0 < z ∧ m' = m) ∨
  ∃ z0, posts_left p = Some (r, z0) ∧ (sem x' + z = sem x + z0 ∨ sem x' = SEM_VALUE_MAX ∧ 0 <= z).
Proof using Hs Hx Hx'.
  clear -Hs Hx Hx'. intros H Hsem. destruct Hs; split_konts; cbn in H; simplify_eq; fields.
  all: try (left; split_and!; auto; lia).
  all: right; eexists; (split; [done|]); rewrite ?sem_post_set; cbn; try case_decide; lia.
Qed.

(** Once a flush has started nobody joins. *)
Lemma step_contending :
  (∀ self, o !! self ≠ Some r) →
  is_contending r p' = true → is_contending r p = true ∧ sem x' = sem x.
Proof using HI Hc Hs Hx Hx'.
  unfold is_contending. intros Hu H. apply bool_decide_eq_true in H. clear -Hs Hx Hx' H Hu.
  destruct Hs; split_konts; cbn in H; simplify_eq; try (by destruct (Hu self)); fields;
    split; auto; by apply bool_decide_eq_true.
Qed.

Lemma step_sem_ge : sem x <= SEM_VALUE_MAX → sem x <= sem x' + Z.b2z (is_contending r p).
Proof using Hs Hx Hx'.
  clear -Hs Hx Hx'. intros H. destruct Hs; fields; rewrite ?sem_post_set; try (destruct (is_contending _ _); cbn; lia);
    unfold is_contending; cbn; try case_decide; try lia.
  all: rewrite bool_decide_eq_true_2 by done; cbn; lia.
Qed.
End fields.

(** A record that is new is known to the thread that allocated it alone. *)
Lemma step_new r x' t0 p0 pl0 :
  m !! r = None → m' !! r = Some x' → c' !! t0 = Some (p0, pl0) → r ∈ recs_of p0 → ∃ self k, p0 = PLock self k (LCas r).
Proof using HI Hc Hs.
  intros Hm Hx' H0 Hr. apply (c'_lookup c t p' pl') in H0 as [(-> & -> & ->)|[Hne H0]].
  - clear -Hs Hm Hx'. destruct Hs; try congruence; try (rewrite lookup_insert_ne in Hx'; congruence).
    destruct (decide (r0 = r)) as [->|]; [by eauto|]. rewrite lookup_insert_ne in Hx' by done. congruence.
  - destruct (ti_recs _ _ _ _ (inv_tinv _ _ _ _ HI _ _ _ H0) _ Hr). congruence.
Qed.

Lemma some_at_old {A} (f : pc → option A) a r x' :
  (∀ q, f q = Some a → r ∈ recs_of q) → (∀ self k, f (PLock self k (LCas r)) ≠ Some a) →
  m' !! r = Some x' → some_at c' f a → ∃ x, m !! r = Some x.
Proof using HI Hc Hs.
  intros Hf Hl Hx' (t0 & p0 & pl0 & H0 & Ha). destruct (m !! r) as [x|] eqn:Hm; [by eauto|].
  destruct (step_new r x' t0 p0 pl0 Hm Hx' H0 (Hf _ Ha)) as (self & k & ->). by destruct (Hl self k).
Qed.

(** Threads that try or sleep on a record keep it where it is. *)
Lemma contending_not_private t0 p0 pl0 self r t1 p1 pl1 :
  c !! t0 = Some (p0, pl0) → contending p0 = Some (self, r) →
  c !! t1 = Some (p1, pl1) → r ∈ private p1 ++ pl1 → flushing p1 = Some r.
Proof using HI.
  clear -HI. intros H0 Hk H1 Hr. destruct (inv_pinv _ _ _ _ HI _ _ _ H1) as [_ Hf].
  destruct (Hf r Hr) as [(y & Hy & Hw & _) Hu].
  destruct (inv_contend _ _ _ _ HI _ _ _ _ _ H0 Hk) as [Ho|(t2 & p2 & pl2 & H2 & Hf2)]; [by destruct (Hu self)|].
  pose proof (flushing_owner _ _ _ _ HI _ _ _ _ _ H2 Hf2 Hy). assert (t2 = t1) as -> by congruence. congruence.
Qed.

Lemma attached_not_private self r t1 p1 pl1 :
  o !! self = Some r → c !! t1 = Some (p1, pl1) → r ∉ private p1 ++ pl1.
Proof using HI.
  clear -HI. intros Ho H1 Hr. destruct (inv_pinv _ _ _ _ HI _ _ _ H1) as [_ Hf]. destruct (Hf r Hr) as [_ Hu]. by destruct (Hu self).
Qed.

Lemma trying_contending q r : trying q = Some r ∨ sleeping q = Some r → ∃ self, contending q = Some (self, r).
Proof using. clear. destruct q as [| |? ? []| | | | | | | |]; cbn; intros [?|?]; simplify_eq; eauto. Qed.

(** Somebody tries or sleeps on an attached record only for its object, and did so
    before the step or has just begun. *)
Lemma step_attached self r :
  o' !! self = Some r → some_at c trying r ∨ some_at c sleeping r → o !! self = Some r.
Proof using HI Hc Hs.
  intros Ho Hb. assert (∃ t0 p0 pl0 self0, c !! t0 = Some (p0, pl0) ∧ contending p0 = Some (self0, r)) as (t0 & p0 & pl0 & self0 & H0 & Hk).
  { destruct Hb as [(t0 & p0 & pl0 & H0 & Hf)|(t0 & p0 & pl0 & H0 & Hf)];
      (destruct (trying_contending p0 r) as [self0 ?]; [by auto|]); by exists t0, p0, pl0, self0. }
  destruct (gu_attach _ _ _ _ _ _ (mstep_guar _ _ _ _ _ _ _ _ _ _ _ _ HI Hc Hs) _ _ Ho) as [?|Hin]; [done|].
  pose proof (contending_not_private _ _ _ _ _ _ _ _ H0 Hk Hc Hin) as Hf.
  destruct (inv_pinv _ _ _ _ HI _ _ _ Hc) as [_ Hpv]. destruct (Hpv r Hin) as [_ Hu]. clear -Hs Hf Ho Hu.
  destruct Hs; cbn in Hf; simplify_eq; by destruct (Hu self).
Qed.

Lemma trying_recs q r : trying q = Some r → r ∈ recs_of q.
Proof using. clear. destruct q as [| |? ? []| | | | | | | |]; cbn; intros ?; simplify_eq; set_solver. Qed.
Lemma sleeping_recs q r : sleeping q = Some r → r ∈ recs_of q.
Proof using. clear. destruct q as [| |? ? []| | | | | | | |]; cbn; intros ?; simplify_eq; set_solver. Qed.
Lemma posts_left_flushing q r z : posts_left q = Some (r, z) → flushing q = Some r ∧ 0 <= z.
Proof using. clear. destruct q as [| | |? ? []| | | | | | |]; cbn; intros ?; simplify_eq; split; auto; lia. Qed.
Lemma posts_left_recs q r z : posts_left q = Some (r, z) → r ∈ recs_of q.
Proof using. clear. destruct q as [| | |? ? []| | | | | | |]; cbn; intros ?; simplify_eq; set_solver. Qed.

Lemma step_token self r x' :
  o' !! self = Some r → m' !! r = Some x' → some_at c' trying r ∨ some_at c' sleeping r →
  0 < sem x' ∨ candidate x' = 1 ∨ some_at c' posting r ∨ some_at c' awake (self, r).
Proof using HI HW Hc Hs.
  intros Ho' Hx' Hb.
  assert (∃ x, m !! r = Some x) as [x Hx].
  { destruct Hb as [Hb|Hb]; (eapply some_at_old; [| |done|exact Hb]; [|done]); intros q; [apply trying_recs|apply sleeping_recs]. }
  pose proof (inv_rinv _ _ _ _ HI _ _ Hx) as [_ _ Hsem _].
  assert (trying p' = Some r ∨ (some_at c trying r ∨ some_at c sleeping r)) as [Ht|Hb0].
  { destruct Hb as [[?|?]%some_at_back|[?|Hp]%some_at_back]; auto.
    destruct (step_sleeping r x x' Hx Hx' Hp) as [? _]. right. left. by exists t, p, pl. }
  { right. left. by eapply step_trying. }
  pose proof (step_attached _ _ Ho' Hb0) as Ho.
  destruct (wk_token _ _ _ HW _ _ _ Ho Hx Hb0) as [Ht|[Ht|[Ht|Ht]]].
  - destruct (step_sem r x x' Hx Hx' Ht) as [?|(self0 & Hk & Ha)]; [by left|]. right. right. right.
    destruct (inv_contend _ _ _ _ HI _ _ _ _ _ Hc Hk) as [Ho0|(t2 & p2 & pl2 & H2 & Hf2)].
    + assert (self0 = self) as -> by (by eapply inv_inj). by apply some_at_here.
    + destruct (attached_not_private self r t2 p2 pl2 Ho H2). apply elem_of_app. left. by apply flushing_private.
  - destruct (step_cand r x x' Hx Hx' Ht) as [?|[?|Hp]]; [by auto|right; right; left; by apply some_at_here|].
    destruct (attached_not_private self r t p pl Ho Hc). apply elem_of_app. by left.
  - destruct (some_at_step _ _ Ht) as [?|Hp]; [by auto|]. left. eapply step_posting; [done..| |done]. lia.
  - destruct (some_at_step _ _ Ht) as [?|Hp]; [by auto|].
    destruct (step_awake r x x' Hx Hx' self Hp Ho) as [Ha|[_ ?]]; [|by auto]. right. right. right. by apply some_at_here.
Qed.

Lemma step_free self r x' :
  o' !! self = Some r → m' !! r = Some x' → owner x' = None → some_at c' sleeping r →
  0 < sem x' ∨ some_at c' posting r ∨ some_at c' awake (self, r) ∨ some_at c' trying r ∨
  candidate x' = 1 ∧ some_at c' waking r.
Proof using HI HW Hc Hs.
  intros Ho' Hx' Hw' Hb.
  destruct (step_token self r x' Ho' Hx' (or_intror Hb)) as [?|[Hcand|[?|?]]]; [by auto..| |by auto|by auto].
  assert (∃ x, m !! r = Some x) as [x Hx].
  { eapply some_at_old; [| |done|exact Hb]; [|done]. intros q. apply sleeping_recs. }
  pose proof (inv_rinv _ _ _ _ HI _ _ Hx) as [_ _ Hsem _].
  destruct (step_owner r x x' Hx Hx' Hw') as [Hw|Hwk]; [|do 4 right; split; [done|by apply some_at_here]].
  assert (some_at c sleeping r) as Hb0.
  { destruct (some_at_back _ _ Hb) as [?|Hp]; [done|]. by destruct (step_sleeping r x x' Hx Hx' Hp) as (_ & ? & _). }
  pose proof (step_attached _ _ Ho' (or_intror Hb0)) as Ho.
  destruct (wk_free _ _ _ HW _ _ _ Ho Hx Hw Hb0) as [Ht|[Ht|[Ht|[Ht|[Hk Ht]]]]].
  - destruct (step_sem r x x' Hx Hx' Ht) as [?|(self0 & Hk & Ha)]; [by left|]. right. right. left.
    pose proof (contending_attached _ _ _ _ _ _ _ HI Hc _ _ _ Hk Hx Hw) as Ho0.
    assert (self0 = self) as -> by (by eapply inv_inj). by apply some_at_here.
  - destruct (some_at_step _ _ Ht) as [?|Hp]; [by auto|]. left. eapply step_posting; [done..| |done]. lia.
  - destruct (some_at_step _ _ Ht) as [?|Hp]; [by auto|].
    destruct (step_awake r x x' Hx Hx' self Hp Ho) as [Ha|[Ha _]]; right; right;
      [left|right; left]; by apply some_at_here.
  - destruct (some_at_step _ _ Ht) as [?|Hp]; [by auto 6|]. by destruct (step_won r x x' Hx Hx' Hp Hw).
  - destruct (some_at_step _ _ Ht) as [?|Hp]; [by auto 8|].
    pose proof (step_waking r x Hx Hp Hk). right. left. by apply some_at_here.
Qed.

Lemma cnt_mono f g : (∀ t p pl, c !! t = Some (p, pl) → f p = true → g p = true) → cnt f c <= cnt g c.
Proof using.
  clear. intros H. induction c as [|[q ql] c0 IH]; cbn; [done|].
  assert (cnt f c0 <= cnt g c0) by (apply IH; intros t p pl Hc; by apply (H (S t) p pl)).
  specialize (H 0%nat q ql eq_refl). destruct (f q), (g q); cbn; try lia.
Qed.

Lemma step_flush_ok r x' z :
  m' !! r = Some x' → some_at c' posts_left (r, z) → cnt (is_contending r) c' <= sem x' + z.
Proof using HI HW Hc Hs Hn.
  intros Hx' Hb. assert (∃ x, m !! r = Some x) as [x Hx].
  { eapply some_at_old; [| |done|exact Hb]; [|done]. intros q. apply posts_left_recs. }
  pose proof (inv_rinv _ _ _ _ HI _ _ Hx) as [_ _ Hsem _].
  pose proof (c'_count c t p p' pl pl' Hc (is_contending r)) as E. fold c' in E.
  destruct (some_at_back _ _ Hb) as [(t0 & p0 & pl0 & H0 & Hf)|Hp].
  - pose proof (wk_flush _ _ _ HW r x z Hx (ex_intro _ t0 (ex_intro _ p0 (ex_intro _ pl0 (conj H0 Hf))))) as Hold.
    pose proof (step_sem_ge r x x' Hx Hx' ltac:(lia)) as Hge.
    assert (∀ self, o !! self ≠ Some r) as Hu.
    { intros self Ho. apply posts_left_flushing in Hf as [Hf _].
      destruct (attached_not_private self r t0 p0 pl0 Ho H0). apply elem_of_app. left. by apply flushing_private. }
    pose proof (step_contending r x x' Hx Hx' Hu) as Hk.
    destruct (is_contending r p'); [destruct (Hk eq_refl) as [H1 H2]; rewrite H1 in *; cbn in *; lia|].
    destruct (is_contending r p); cbn in *; lia.
  - assert (is_contending r p' = false) as Hp'.
    { clear -Hp. apply bool_decide_eq_false. destruct p' as [| | |? ? []| | | | | | |]; by cbn in *. }
    rewrite Hp' in E.
    destruct (step_flush r x x' Hx Hx' z Hp Hsem) as [(Hf & -> & Hz & Em)|(z0 & Hp0 & Hor)].
    + assert (cnt (is_contending r) c <= nr_blocked x).
      { rewrite (inv_blocked _ _ _ _ HI _ _ Hx). apply cnt_mono. intros t1 p1 pl1 _ Hk.
        apply bool_decide_eq_true in Hk. apply bool_decide_eq_true.
        destruct (contending p1) as [[self1 r1]|] eqn:Ek; cbn in Hk; [|done]. injection Hk as ->. by eapply contending_blocked. }
      assert (x' = x) as -> by congruence. destruct (is_contending r p); cbn in *; lia.
    + pose proof (wk_flush _ _ _ HW r x z0 Hx (ex_intro _ t (ex_intro _ p (ex_intro _ pl (conj Hc Hp0))))) as Hold.
      pose proof (cnt_bounds (is_contending r) c). rewrite (inv_length _ _ _ _ HI) in *.
      destruct (is_contending r p); cbn in *; lia.
Qed.

Lemma mstep_wake : Wake o' m' c'.
Proof using HI HW Hc Hs Hn. split; [apply step_token|apply step_free|apply step_flush_ok]. Qed.
End wake.

Lemma run_wake n s h : run false n s h → Z.of_nat n <= INT_MAX → Wake (objs s) (recs s) (cfg s).
Proof.
  intros Hr Hn. remember false as exits eqn:He. induction Hr as [|s h t a s' e Hr IH Ha Hx].
  - by split.
  - assert (a ≠ AExit) as Hne by (intros ->; subst; by specialize (Ha eq_refl)).
    pose proof (run_mstep _ _ _ _ Hr He Hn) as HI.
    destruct (exec_mstep _ _ _ _ _ Hx Hne) as (p & pl & p' & pl' & Hc & -> & Hs). eapply mstep_wake; eauto.
Qed.

(** ** Progress *)

(** The thread [t] takes [k] steps on its own. *)
Fixpoint solo (t : tid) (k : nat) (s : state) : option state :=
  match k with
  | O => Some s
  | S k => match exec t AStep s with Some (s', _) => solo t k s' | None => None end
  end.

Lemma solo_step t k s th o' m' th' e s' :
  threads s !! t = Some th → (∀ tg, at_ th ≠ PInterrupt tg) →
  local_step t AStep s th = Some (Outcome o' m' th' e) →
  solo t k (State o' m' (<[t := th']> (threads s))) = Some s' → solo t (S k) s = Some s'.
Proof.
  intros Ht Hni Hl Hk. cbn. unfold exec. rewrite Ht. destruct (at_ th) eqn:Hp; rewrite ?Hl; try done. by destruct (Hni target).
Qed.

Lemma insert_here (l : list vm_thread) t th th' : l !! t = Some th → <[t := th']> l !! t = Some th'.
Proof. intros H. apply list_lookup_insert_eq. by eapply lookup_lt_Some. Qed.

(** After [k] steps of its own, [t] has posted the semaphore of [r] or owns it. *)
Definition woken_in (k : nat) (t : tid) (r : rid) (s : state) : Prop :=
  ∃ s' x', solo t k s = Some s' ∧ recs s' !! r = Some x' ∧ (0 < sem x' ∨ owner x' = Some t).

Lemma woken_step k t r s th o' m' th' e :
  threads s !! t = Some th → (∀ tg, at_ th ≠ PInterrupt tg) →
  local_step t AStep s th = Some (Outcome o' m' th' e) →
  woken_in k t r (State o' m' (<[t := th']> (threads s))) → woken_in (S k) t r s.
Proof. intros Ht Hp Hl (s' & x' & Hs & Hx & Ho). exists s', x'. split; [by eapply solo_step|done]. Qed.

Lemma sem_post_pos x : 0 <= sem x → 0 < sem (sem_post x).
Proof. intros H. rewrite sem_post_set. cbn. unfold SEM_VALUE_MAX. case_decide; lia. Qed.

Ltac local_step_at Hp Hx := unfold local_step; rewrite Hp; cbn; unfold wake_one, with_rec; rewrite ?Hx; cbn.

Section progress.
Context (t : tid) (r : rid).
Implicit Types (s : state) (th : vm_thread) (x : vm_monitor_record).

Lemma progress_post s th x self k :
  threads s !! t = Some th → recs s !! r = Some x → 0 <= sem x →
  at_ th = PUnlock self k (UPost r) → woken_in 1 t r s.
Proof.
  intros Ht Hx Hsem Hp. destruct (return_unlock t (objs s) (recs s) self k 0 th) as [[o' m' th' e]|] eqn:E; [|by destruct k].
  assert (o' = objs s ∧ m' = recs s) as [-> ->] by (destruct k; injection E as <- <- <- <-; auto).
  eapply (woken_step 0); [done|by rewrite Hp|local_step_at Hp Hx; by rewrite E|].
  eexists _, (sem_post x). split; [done|]. cbn. split; [by rewrite lookup_insert_eq|]. left. by apply sem_post_pos.
Qed.

Lemma progress_wake s th x self k :
  threads s !! t = Some th → recs s !! r = Some x → 0 <= sem x →
  at_ th = PUnlock self k (UWake r) → candidate x = 1 → woken_in 2 t r s.
Proof.
  intros Ht Hx Hsem Hp Hc. eapply woken_step; [done|by rewrite Hp|local_step_at Hp Hx; by rewrite decide_True|].
  eapply (progress_post _ _ (set_candidate 0 x)); [by eapply insert_here|cbn; by rewrite lookup_insert_eq|done|done].
Qed.

Lemma progress_try s th x self k :
  threads s !! t = Some th → recs s !! r = Some x → owner x = None →
  at_ th = PLock self k (LTry r) → woken_in 1 t r s.
Proof.
  intros Ht Hx Ho Hp. eapply (woken_step 0); [done|by rewrite Hp|local_step_at Hp Hx; by rewrite Ho|].
  eexists _, (set_owner (Some t) x). split; [done|]. cbn. split; [by rewrite lookup_insert_eq|by right].
Qed.

Lemma progress_cand s th x self k :
  threads s !! t = Some th → recs s !! r = Some x → owner x = None →
  at_ th = PLock self k (LCand r) → woken_in 2 t r s.
Proof.
  intros Ht Hx Ho Hp. eapply woken_step; [done|by rewrite Hp|local_step_at Hp Hx; done|].
  eapply (progress_try _ _ (set_candidate 1 x)); [by eapply insert_here|cbn; by rewrite lookup_insert_eq|done|done].
Qed.

Lemma progress_check s th x self k :
  threads s !! t = Some th → recs s !! r = Some x → owner x = None → objs s !! self = Some r →
  at_ th = PLock self k (LCheck r) → woken_in 3 t r s.
Proof.
  intros Ht Hx Ho Hs Hp. eapply woken_step; [done|by rewrite Hp|local_step_at Hp Hx; by rewrite decide_True|].
  eapply (progress_cand _ _ x); [by eapply insert_here|done..].
Qed.

Lemma progress_flush s th x self k j :
  threads s !! t = Some th → recs s !! r = Some x → 0 <= sem x →
  at_ th = PUnlock self k (UFlush r (S j)) → woken_in 1 t r s.
Proof.
  intros Ht Hx Hsem Hp. eapply (woken_step 0); [done|by rewrite Hp|local_step_at Hp Hx; done|].
  eexists _, (sem_post x). split; [done|]. cbn. split; [by rewrite lookup_insert_eq|]. left. by apply sem_post_pos.
Qed.

Lemma progress_reread s th x self k :
  threads s !! t = Some th → recs s !! r = Some x → 0 <= sem x → 0 < nr_blocked x →
  at_ th = PUnlock self k (UReread r) → woken_in 2 t r s.
Proof.
  intros Ht Hx Hsem Hb Hp. eapply woken_step; [done|by rewrite Hp|local_step_at Hp Hx; by rewrite decide_True|].
  destruct (Z.to_nat (nr_blocked x)) as [|j] eqn:Ej; [lia|].
  eapply (progress_flush _ _ x); [by eapply insert_here|done..].
Qed.
End progress.

Lemma some_at_thread s {A} (f : pc → option A) a :
  some_at (cfg s) f a → ∃ t th, threads s !! t = Some th ∧ f (at_ th) = Some a.
Proof.
  intros (t & p & pl & Hc & Hf). unfold cfg in Hc. rewrite list_lookup_fmap in Hc.
  apply fmap_Some in Hc as (th & Ht & E). injection E as -> ->. eauto.
Qed.

(** C7: No wake-up is lost: if a thread is asleep on the semaphore of a record and
    nobody holds the monitor, or the record was taken off its object, then either the
    semaphore has been posted, or another thread will, by at most three steps of its
    own, post it or take the lock (and then will wake it when it releases). *)
Theorem no_lost_wakeup n s h t th self k r x :
  Z.of_nat n <= INT_MAX → run false n s h →
  threads s !! t = Some th → at_ th = PLock self k (LWait r) → recs s !! r = Some x →
  monitor_of s self = None ∨ objs s !! self ≠ Some r →
  0 < sem x ∨ ∃ t' j, t' ≠ t ∧ (j <= 3)%nat ∧ woken_in j t' r s.
Proof.
  intros Hn Hr Ht Hp Hx Hfree. pose proof (run_mstep _ _ _ _ Hr eq_refl Hn) as HI. pose proof (run_wake _ _ _ Hr Hn) as HW.
  pose proof (cfg_lookup _ _ _ Ht) as Hc. rewrite Hp in Hc.
  pose proof (inv_rinv _ _ _ _ HI _ _ Hx) as [_ _ [Hsem _] _].
  assert (some_at (cfg s) sleeping r) as Hsl by (by exists t, (PLock self k (LWait r)), (free_monitor_recs th)).
  destruct (inv_contend _ _ _ _ HI _ _ _ self r Hc eq_refl) as [Ho|Hf].
  - assert (owner x = None) as Hw.
    { destruct Hfree as [Hm|?]; [|done]. unfold monitor_of, abs in Hm. rewrite Ho in Hm. cbn in Hm. rewrite Hx in Hm. cbn in Hm.
      unfold lock_of in Hm. by destruct (owner x). }
    destruct (wk_free _ _ _ HW _ _ _ Ho Hx Hw Hsl) as [?|[Ha|[Ha|[Ha|[Hk Ha]]]]]; [by left|right..].
    + apply some_at_thread in Ha as (t' & th' & Ht' & Hp'). exists t', 1%nat.
      destruct (at_ th') as [| | |? ? []| | | | | | |] eqn:Ep; cbn in Hp'; simplify_eq.
      split_and!; [by intros ->; simplify_eq; congruence|lia|by eapply progress_post].
    + apply some_at_thread in Ha as (t' & th' & Ht' & Hp').
      destruct (at_ th') as [| |? ? []| | | | | | | |] eqn:Ep; cbn in Hp'; simplify_eq.
      * exists t', 3%nat. split_and!; [by intros ->; simplify_eq; congruence|lia|by eapply progress_check].
      * exists t', 2%nat. split_and!; [by intros ->; simplify_eq; congruence|lia|by eapply progress_cand].
    + apply some_at_thread in Ha as (t' & th' & Ht' & Hp'). exists t', 1%nat.
      destruct (at_ th') as [| |? ? []| | | | | | | |] eqn:Ep; cbn in Hp'; simplify_eq.
      split_and!; [by intros ->; simplify_eq; congruence|lia|by eapply progress_try].
    + apply some_at_thread in Ha as (t' & th' & Ht' & Hp'). exists t', 2%nat.
      destruct (at_ th') as [| | |? ? []| | | | | | |] eqn:Ep; cbn in Hp'; simplify_eq.
      split_and!; [by intros ->; simplify_eq; congruence|lia|by eapply progress_wake].
  - assert (0 < cnt (is_contending r) (cfg s)) as Hcnt.
    { eapply cnt_pos; [done|]. by apply bool_decide_eq_true. }
    destruct (some_at_thread s flushing r Hf) as (t' & th' & Ht' & Hp').
    pose proof (λ z Hz, wk_flush _ _ _ HW r x z Hx (ex_intro _ t' (ex_intro _ (at_ th') (ex_intro _ _ (conj (cfg_lookup _ _ _ Ht') Hz))))) as Hfl.
    destruct (at_ th') as [| | |? ? []| | | | | | |] eqn:Ep; cbn in Hp'; simplify_eq.
    + right. exists t', 2%nat. split_and!; [by intros ->; simplify_eq; congruence|lia|].
      eapply progress_reread; [done..| |done]. by eapply blocked_pos.
    + destruct left as [|j]; [left; specialize (Hfl _ eq_refl); lia|].
      right. exists t', 1%nat. split_and!; [by intros ->; simplify_eq; congruence|lia|by eapply progress_flush].
    + left. specialize (Hfl _ eq_refl). lia.
Qed.
