(* ===== verification/MonitorNotify.v ===== *)
(** * Waits and notifications; the end of a thread

    The notify mutex of a record has one holder, so a notification comes when every
    waiter that gave up the monitor is blocked on the condition variable or on its
    way back: none is missed.  The deadline of a timed wait is what it should be.
    What the end of a thread can do to the others.  Runs that reach the states the
    theorems are about. *)

From stdpp Require Import gmap.
From S2P Require Import Prelude Monitor MonitorRules MonitorInv MonitorProps MonitorWake.
#[local] Open Scope Z_scope.

(** ** The notify mutex *)

(** The record whose [notify_mutex] the thread holds. *)
Definition mutex_of (p : pc) : option rid :=
  match p with
  | PWait _ _ (WIntr r | WSave r _ | WIncWaiting r _ _ | WCond r _ _ | WUnlock r _ _) => Some r
  | PCheck _ (CkUnlock (UkWait r _ _ _)) _ | PUnlock _ (UkWait r _ _ _) _ => Some r
  | PNotify _ _ _ (NSignal r | NUnlock r) => Some r
  | _ => None
  end.

Definition Mutex (m : gmap rid vm_monitor_record) (c : list (pc * list rid)) : Prop :=
  ∀ t p pl r x, c !! t = Some (p, pl) → mutex_of p = Some r → m !! r = Some x → notify_mutex x = Some t.

Section mutex.
Context (n : nat) (o o' : gmap oid rid) (m m' : gmap rid vm_monitor_record) (c : list (pc * list rid)).
Context (t : tid) (p p' : pc) (pl pl' : list rid) (e : option event).
Context (HI : Inv n o m c) (HM : Mutex m c) (Hc : c !! t = Some (p, pl)) (Hs : mstep t o m p pl o' m' p' pl' e).

Lemma mutex_recs q r : mutex_of q = Some r → r ∈ recs_of q.
Proof using.
  clear. destruct q as [|? [[]| |? []] []| |? [] []|? ? []|? ? ? []| | | | |]; cbn; intros ?; simplify_eq; set_solver.
Qed.

(** A mutex somebody else holds is left alone. *)
Lemma mstep_mutex_other r x x' t' :
  m !! r = Some x → m' !! r = Some x' → notify_mutex x = Some t' → t' ≠ t → notify_mutex x' = Some t'.
Proof using HM Hc Hs.
  pose proof (λ r x, HM t p pl r x Hc) as Hm. clear -Hs Hm. intros Hx Hx' Ho Hne.
  destruct Hs; cbn in Hm; try congruence; apply lookup_insert_Some in Hx' as [[-> <-]|[_ Hx']]; try congruence;
    simplify_eq; rewrite ?sem_post_set; cbn; try done; try congruence.
  all: rewrite (Hm _ _ eq_refl Hx) in Ho; congruence.
Qed.

Lemma mstep_mutex_self r x : mutex_of p' = Some r → m' !! r = Some x → notify_mutex x = Some t.
Proof using HI HM Hc Hs.
  pose proof (λ r x, HM t p pl r x Hc) as Hm. pose proof (ti_ok _ _ _ _ (inv_tinv _ _ _ _ HI _ _ _ Hc)) as Hok.
  clear -Hs Hm Hok. intros Hk Hx.
  destruct Hs; split_konts; cbn in Hk, Hm, Hok; simplify_eq; try (by eapply Hm); rewrite ?sem_post_set in Hx;
    try (rewrite lookup_insert_eq in Hx; by simplify_eq/=);
    try (rewrite lookup_insert_eq in Hx; simplify_eq/=; by eapply Hm);
    apply lookup_insert_Some in Hx as [[<- <-]|[_ Hx]]; cbn; by eapply Hm.
Qed.

Lemma mstep_mutex : Mutex m' (<[t := (p', pl')]> c).
Proof using HI HM Hc Hs.
  intros t0 p0 pl0 r x' H0 Hk Hx'. apply (c'_lookup c t p' pl') in H0 as [(-> & -> & ->)|[Hne H0]].
  - by eapply mstep_mutex_self.
  - destruct (ti_recs _ _ _ _ (inv_tinv _ _ _ _ HI _ _ _ H0) r) as [x Hx]; [by apply mutex_recs|].
    eapply mstep_mutex_other; [done..| |done]. by eapply HM.
Qed.
End mutex.

Lemma run_mutex n s h : run false n s h → Z.of_nat n <= INT_MAX → Mutex (recs s) (cfg s).
Proof.
  intros Hr Hn. remember false as exits eqn:He. induction Hr as [|s h t a s' e Hr IH Ha Hx]; [done|].
  assert (a ≠ AExit) as Hne by (intros ->; subst; by specialize (Ha eq_refl)).
  pose proof (run_mstep _ _ _ _ Hr He Hn) as HI.
  destruct (exec_mstep _ _ _ _ _ Hx Hne) as (p & pl & p' & pl' & Hc & -> & Hs). eapply mstep_mutex; eauto.
Qed.

(** Where a waiter can be while a notification is under way. *)
Definition notified (r : rid) (t : tid) (x : vm_monitor_record) (p : pc) : Prop :=
  match p with
  | PWait _ _ (WBlocked r' _) => r' = r → t ∉ notify_cond x
  | PWait _ _ (WCond r' _ _ | WUnlock r' _ _) | PCheck _ (CkUnlock (UkWait r' _ _ _)) _
  | PUnlock _ (UkWait r' _ _ _) _ => r' ≠ r
  | _ => True
  end.

(** C37: No notification is missed: when [vm_object_notify_all] has signalled, no
    thread is still blocked on the condition variable of the record, and none that
    counts as waiting is between giving up the monitor and blocking; so every waiter
    that released the monitor before the notifier got it goes on. *)
Theorem no_missed_notify n s h t th self k r s' e a :
  Z.of_nat n <= INT_MAX → run false n s h →
  threads s !! t = Some th → at_ th = PNotify self true k (NSignal r) → exec t a s = Some (s', e) → a ≠ AExit →
  ∃ x', recs s' !! r = Some x' ∧ owner x' = Some t ∧
    ∀ t' th', threads s' !! t' = Some th' → notified r t' x' (at_ th').
Proof.
  intros Hn Hr Ht Hp Hx Ha. pose proof (run_mstep _ _ _ _ Hr eq_refl Hn) as HI. pose proof (run_mutex _ _ _ Hr Hn) as HM.
  pose proof (cfg_lookup _ _ _ Ht) as Hc. rewrite Hp in Hc.
  destruct (ti_hold _ _ _ _ (inv_tinv _ _ _ _ HI _ _ _ Hc) _ _ eq_refl) as (_ & x & Hrx & Hw). cbn in Hrx.
  unfold exec in Hx. rewrite Ht, Hp in Hx. unfold local_step in Hx. rewrite Hp in Hx. cbn in Hx. unfold with_rec in Hx.
  rewrite Hrx in Hx. cbn in Hx. injection Hx as <- <-. exists (set_notify_cond ∅ x). cbn.
  rewrite lookup_insert_eq. split_and!; [done..|]. intros t' th' Ht'. destruct (decide (t' = t)) as [->|Hne].
  - rewrite (insert_here _ _ _ _ Ht) in Ht'. by injection Ht' as <-.
  - rewrite list_lookup_insert_ne in Ht' by done.
    assert (mutex_of (at_ th') ≠ Some r) as Hm.
    { intros Hm. pose proof (HM _ _ _ _ _ (cfg_lookup _ _ _ Ht') Hm Hrx). pose proof (HM _ _ _ _ _ Hc eq_refl Hrx). congruence. }
    destruct (at_ th') as [|? [[]| |? []] []| |? [] []|? ? []|? ? ? []| | | | |]; cbn in *; try done; try congruence; set_solver.
Qed.

(** ** Timed waits *)

Definition nanoseconds (ts : timespec) : Z := tv_sec ts * 1000000000 + tv_nsec ts.

(** C40: The deadline of [vm_object_timed_wait] is [ms] milliseconds and [ns]
    nanoseconds from now and one [pthread_cond_timedwait] accepts, for every
    unsigned 64-bit [ms] and every [ns] below a millisecond: one carry is enough and
    nothing overflows while the clock is below 2^62 seconds. *)
Theorem timed_wait_deadline_correct now ms ns :
  0 <= tv_sec now < 2 ^ 62 → 0 <= tv_nsec now < 1000000000 → 0 <= ms < 2 ^ 64 → 0 <= ns <= 999999 →
  valid_timespec (timed_wait_deadline now ms ns) = true ∧
  nanoseconds (timed_wait_deadline now ms ns) = nanoseconds now + ms * 1000000 + ns.
Proof.
  intros Hs Hns Hms Hn. unfold timed_wait_deadline, nanoseconds, valid_timespec.
  pose proof (Z.div_mod ms 1000 ltac:(lia)) as Ed. pose proof (Z.mod_pos_bound ms 1000 ltac:(lia)) as Hm.
  assert (0 <= ms / 1000 < 2 ^ 61) as Hq by (split; [apply Z.div_pos; lia|apply Z.div_lt_upper_bound; lia]).
  unfold s64. rewrite (signed_id 64 (tv_sec now + ms / 1000)), (signed_id 64 (tv_nsec now + _)) by lia.
  case_decide; cbn [tv_sec tv_nsec]; rewrite ?signed_id by lia;
    (split; [apply andb_true_iff; split; apply bool_decide_eq_true; lia|lia]).
Qed.

(** ** Runs *)

(** The run a schedule gives. *)
Fixpoint play (l : list (tid * action)) (s : state) (h : list event) : option (state * list event) :=
  match l with
  | [] => Some (s, h)
  | (t, a) :: l => match exec t a s with Some (s', e) => play l s' (option_snoc h e) | None => None end
  end.

Definition no_exit (ta : tid * action) : bool := match ta.2 with AExit => false | _ => true end.

Lemma play_run exits n l s h s' h' :
  run exits n s h → exits = true ∨ forallb no_exit l = true → play l s h = Some (s', h') → run exits n s' h'.
Proof.
  revert s h. induction l as [|[t a] l IH]; intros s h Hr Hex Hp; cbn in Hp; [by simplify_eq|].
  destruct (exec t a s) as [[s1 e]|] eqn:E; [|done]. eapply IH; [|by destruct Hex as [?|[_ ?]%andb_true_iff]; auto|done].
  eapply run_step; [done| |done]. intros ->. by destruct Hex.
Qed.

Definition steps (t : tid) (k : nat) : list (tid * action) := replicate k (t, AStep).

(** Thread 0 locks object 0 and allocates record 0. *)
Definition lock_first : list (tid * action) := [(0, ACall (CLock 0)); (0, AStep); (0, AMalloc 0); (0, AStep)]%nat.

Definition reached (n : nat) (l : list (tid * action)) : state * list event := default (init n, []) (play l (init n) []).

Lemma reached_run exits n l :
  exits = true ∨ forallb no_exit l = true → is_Some (play l (init n) []) → run exits n (reached n l).1 (reached n l).2.
Proof.
  intros He [[s h] E]. unfold reached. rewrite E. by eapply play_run; [constructor|..].
Qed.

(** *** A thread ends

    Thread 1 has read the record of object 0 and is about to look at its owner;
    thread 0 unlocks, deflates, and ends. *)
Definition exit_race : list (tid * action) :=
  (lock_first ++ [(1, ACall (CLock 0)); (1, AStep); (0, ACall (CUnlock 0))] ++ steps 0 8 ++ [(0, AExit); (1, AStep)])%nat.

(** When threads end, [monitor_safe] fails: [free_exec_env] releases the records in
    the pool of a thread while another thread can still hold a pointer to one of
    them, read from an object it was attached to; [vm_object_lock] then reads the
    owner of a record that was freed. *)
Theorem monitor_use_after_free :
  ∃ s h th, run true 2 s h ∧ threads s !! 1%nat = Some th ∧ at_ th = PUndef.
Proof.
  exists (reached 2 exit_race).1, (reached 2 exit_race).2, (set_at PUndef init_thread). split_and!.
  - apply reached_run; [by left|]. vm_compute. eauto.
  - vm_compute. reflexivity.
  - reflexivity.
Qed.

(** *** Witnesses *)

(** Thread 1 asleep on record 0, thread 0 before its [wake_one]. *)
Definition asleep : list (tid * action) :=
  (lock_first ++ [(1, ACall (CLock 0))] ++ steps 1 6 ++ [(0, ACall (CUnlock 0))] ++ steps 0 5)%nat.

Lemma no_lost_wakeup_witness :
  let s := (reached 2 asleep).1 in
  ∃ t' j, t' ≠ 1%nat ∧ (j <= 3)%nat ∧ woken_in j t' 0 s.
Proof.
  destruct (no_lost_wakeup 2 (reached 2 asleep).1 (reached 2 asleep).2 1
    (Thread (PLock 0 LkClient (LWait 0)) [] None false None VM_THREAD_STATE_BLOCKED) 0 LkClient 0
    (MonitorRecord None 1 0 1 1 0 None ∅)) as [H|H]; [..|exact H].
  - vm_compute. discriminate.
  - apply reached_run; [by right|]. vm_compute. eauto.
  - vm_compute. reflexivity.
  - reflexivity.
  - vm_compute. reflexivity.
  - left. vm_compute. reflexivity.
  - exfalso. clear -H. vm_compute in H. discriminate.
Defined.

(** Thread 0 waits on object 0; thread 1 holds it and is about to notify. *)
Definition notifying : list (tid * action) :=
  (lock_first ++ [(0, ACall (CWait 0))] ++ steps 0 14 ++ [(1, ACall (CLock 0))] ++ steps 1 8 ++
   [(1, ACall (CNotifyAll 0))] ++ steps 1 3)%nat.

Definition after (t : tid) (a : action) (s : state) : state := match exec t a s with Some (s', _) => s' | None => s end.

Lemma no_missed_notify_witness :
  let s' := after 1 AStep (reached 2 notifying).1 in
  ∃ x', recs s' !! 0%nat = Some x' ∧ owner x' = Some 1%nat ∧
    ∀ t' th', threads s' !! t' = Some th' → notified 0 t' x' (at_ th').
Proof.
  apply (no_missed_notify 2 (reached 2 notifying).1 (reached 2 notifying).2 1
    (Thread (PNotify 0 true NkClient (NSignal 0)) [] None false None VM_THREAD_STATE_RUNNABLE) 0 NkClient 0
    (after 1 AStep (reached 2 notifying).1) None AStep).
  - vm_compute. discriminate.
  - apply reached_run; [by right|]. vm_compute. eauto.
  - vm_compute. reflexivity.
  - reflexivity.
  - vm_compute. reflexivity.
  - discriminate.
Defined.

(** Thread 0 has locked object 0 twice, waited, been notified, and is back. *)
Definition back : list (tid * action) :=
  (lock_first ++ [(0, ACall (CLock 0))] ++ steps 0 3 ++ [(0, ACall (CWait 0))] ++ steps 0 14 ++
   [(1, ACall (CLock 0))] ++ steps 1 8 ++ [(1, ACall (CNotifyAll 0))] ++ steps 1 5 ++
   [(1, ACall (CUnlock 0))] ++ steps 1 7 ++ steps 0 16)%nat.

Lemma monitor_depth_witness :
  let sh := reached 2 back in
  held (monitor_of sh.1 0) 0 = 2 ∧
  ∀ t' th', threads sh.1 !! t' = Some th' → at_ th' = PIdle → 0 < depth sh.2 0 0 → 0 < depth sh.2 t' 0 → t' = 0%nat.
Proof.
  apply (monitor_depth 2 (reached 2 back).1 (reached 2 back).2 0 init_thread 0).
  - vm_compute. discriminate.
  - apply reached_run; [by right|]. vm_compute. eauto.
  - vm_compute. reflexivity.
  - reflexivity.
Defined.

Lemma monitor_safe_witness :
  let s := (reached 2 notifying).1 in
  (∀ t th, threads s !! t = Some th → at_ th ≠ PUndef ∧ at_ th ≠ PAssertFailed) ∧
  ∀ r x, recs s !! r = Some x →
    nr_blocked x = cnt (is_blocked_on r) (cfg s) ∧ nr_waiting x = cnt (is_waiting_on r) (cfg s) ∧
    0 <= nr_blocked x <= 2 ∧ 0 <= nr_waiting x <= 2 ∧ 1 <= lock_count x <= INT_MAX ∧
    ((∃ self, objs s !! self = Some r) ∨
     ∃ t th, threads s !! t = Some th ∧ r ∈ private (at_ th) ++ free_monitor_recs th ∧ owner x = Some t).
Proof.
  apply (monitor_safe 2 (reached 2 notifying).1 (reached 2 notifying).2).
  - vm_compute. discriminate.
  - apply reached_run; [by right|]. vm_compute. eauto.
Defined.

Lemma monitor_refinement_witness :
  let s := (reached 2 asleep).1 in
  ∃ self, (∀ self', self' ≠ self → monitor_of (after 0 AStep s) self' = monitor_of s self') ∧
    (monitor_of (after 0 AStep s) self = monitor_of s self ∨ monitor_step 0 (monitor_of s self) (monitor_of (after 0 AStep s) self)).
Proof.
  apply (monitor_refinement 2 (reached 2 asleep).1 (reached 2 asleep).2 0 AStep (after 0 AStep (reached 2 asleep).1) None).
  - vm_compute. discriminate.
  - apply reached_run; [by right|]. vm_compute. eauto.
  - discriminate.
  - vm_compute. reflexivity.
Defined.

(** Thread 1 unlocks what thread 0 holds. *)
Definition not_owner : list (tid * action) := (lock_first ++ [(1, ACall (CUnlock 0)); (1, AStep)])%nat.

Lemma monitor_results_witness : result_ok (reached 2 not_owner).2 1 (EUnlock 1 0 (-1)).
Proof.
  apply (monitor_results 2 (reached 2 not_owner).1 (reached 2 not_owner).2 1 AStep
    (after 1 AStep (reached 2 not_owner).1) (EUnlock 1 0 (-1))).
  - vm_compute. discriminate.
  - apply reached_run; [by right|]. vm_compute. eauto.
  - discriminate.
  - vm_compute. reflexivity.
Defined.

Lemma timed_wait_deadline_correct_witness :
  valid_timespec (timed_wait_deadline (Timespec 1000 999999999) 1999 999999) = true ∧
  nanoseconds (timed_wait_deadline (Timespec 1000 999999999) 1999 999999) = 1000999999999 + 1999 * 1000000 + 999999.
Proof. apply (timed_wait_deadline_correct (Timespec 1000 999999999) 1999 999999); cbn; lia. Defined.
