(* ===== verification/LiveRanges.v ===== *)
(** * jit/liveness.c: live ranges from the live sets

    The positions of instructions ([compute_insn_positions] in
    jit/compilation-unit.c) and [update_live_ranges], which fills the intervals of
    jit/interval.c from the live-out sets.  The interval of a variable is at the
    place of its virtual register in a list.  The variable of a fixed register has the
    number of the register; one that [get_fixed_var] would make, with an empty
    interval, is taken to be there from the start.  The results of
    [interval_add_range] are not looked at, as in the source. *)

From S2P Require Import Prelude CMonad Bitset SetInterface Liveness Interval.
#[local] Open Scope Z_scope.

(** ** Operations *)

(** arch/x86/registers_64.c, as the numbers of the registers in their enumeration. *)
Definition MACH_REG_XMM0 : Z := 14.
Definition NR_FIXED_REGISTERS : Z := 32.
Definition caller_save_regs : list Z :=
  [0; 5; 4; 2; 1; 6; 7; 8; 9] ++ (Z.add MACH_REG_XMM0 ∘ Z.of_nat <$> seq 0 16).

(** The first position of each block and the one after its last. *)
Fixpoint compute_insn_positions (pos : Z) (cs : list bb_code) : list (Z * Z) :=
  match cs with
  | [] => []
  | c :: cs' =>
    let e := u64 (pos + 2 * Z.of_nat (length (insn_list c))) in
    (pos, e) :: compute_insn_positions e cs'
  end.
(** The instructions of a block with their positions, [lir_pos] being 32 bits wide. *)
Fixpoint place_insns (pos : Z) (xs : list insn) : list (insn * Z) :=
  match xs with [] => [] | x :: xs' => (x, u32 pos) :: place_insns (pos + 2) xs' end.

Fixpoint iterM {A T} (f : A → T → M mem unit T) (l : list A) (s : T) : M mem unit T :=
  match l with
  | [] => ret s
  | a :: l' => let* s' := f a s in iterM f l' s'
  end.

Section ops.
Context `{Allocator}.
Abbreviation intervals := (list live_interval).

(** [interval_add_range(cu, var->interval, s, e)] *)
Definition add_range (v s e : Z) (its : intervals) : M mem unit intervals :=
  match its !! Z.to_nat v with
  | Some it => let* r := interval_add_range it s e in ret (<[Z.to_nat v := r.2]> its)
  | None => undef
  end.

(** The body of the loop over the definitions. *)
Definition define_range (pos end_insn v : Z) (its : intervals) : M mem unit intervals :=
  match its !! Z.to_nat v with
  | Some it =>
    match range_list it with
    | [] => add_range v (u32 (pos + 1)) end_insn its
    | r :: rs =>
      ret (<[Z.to_nat v := with_ranges it (LiveRange (u32 (pos + 1)) (end_ r) :: rs) (expired_range_list it)]> its)
    end
  | None => undef
  end.

Definition update_insn (start_insn end_insn : Z) (xp : insn * Z) (its : intervals) : M mem unit intervals :=
  let '(x, pos) := xp in
  let* its := iterM (define_range pos end_insn) (insn_defs x) its in
  let* its := iterM (λ v, add_range v start_insn (u32 (pos + 1))) (insn_uses x) its in
  if insn_is_call x
  then iterM (λ v, add_range v (u32 (pos + 1)) (u32 (pos + 2))) caller_save_regs its
  else ret its.

(** [__update_live_ranges] *)
Definition update_live_ranges_of (start_insn end_insn : Z) (xs : list insn) : intervals → M mem unit intervals :=
  iterM (update_insn start_insn end_insn) (rev (place_insns start_insn xs)).

Context {B : Type} `{SetOps B}.

(** One block: its live-out variables, in the order of [var_infos], then its
    instructions. *)
Definition update_block (vars : list Z) (bp : basic_block B * (Z * Z)) (its : intervals) : M mem unit intervals :=
  let '(b, (start_insn, end_insn)) := bp in
  let* its := iterM (λ v its,
    let* live := Liveness.lift (bs_test (live_out_set b) v) in
    if (live : bool) then add_range v start_insn end_insn its else ret its) vars its in
  update_live_ranges_of start_insn end_insn (insn_list (bb_code_of b)) its.

Definition update_live_ranges (vars : list Z) (bs : list (basic_block B)) : intervals → M mem unit intervals :=
  iterM (update_block vars) (rev (zip bs (compute_insn_positions 0 (bb_code_of <$> bs)))).

(** The whole of [analyze_liveness]. *)
Definition analyze_liveness_ranges (nr_vregs : Z) (vars : list Z) (cs : list bb_code) (its : intervals)
  : M mem unit intervals :=
  let* bs := analyze_liveness (B := B) nr_vregs cs in
  update_live_ranges vars bs its.
End ops.

(** ** Ranges in order *)

(** In ascending order from [lo] on, not overlapping; empty and adjacent ranges are
    possible. *)
Fixpoint apart_from (lo : Z) (rs : list live_range) : Prop :=
  match rs with
  | [] => True
  | r :: rs' => lo <= start r <= end_ r ∧ end_ r < 2 ^ 32 ∧ apart_from (end_ r) rs'
  end.

Lemma apart_weaken lo lo' rs : lo' <= lo → apart_from lo rs → apart_from lo' rs.
Proof. destruct rs; [done|]. cbn. intros ? (? & ?). split; [lia|done]. Qed.

(** What [interval_add_range] does when memory suffices. *)
Definition add_ranges (rs : list live_range) (s e : Z) : list live_range :=
  match merge_range rs s e with Some rs' => rs' | None => insert_range rs (LiveRange (u32 s) (u32 e)) end.

(** A range before all others is put in front, or taken in by the first. *)
Lemma add_ranges_before rs s e :
  apart_from e rs → 0 <= s → s <= e < 2 ^ 32 →
  add_ranges rs s e =
    match rs with
    | r :: rs' => if decide (start r = e) then LiveRange s (end_ r) :: rs' else LiveRange s e :: rs
    | [] => [LiveRange s e]
    end.
Proof.
  intros Ha Hs Hse. unfold add_ranges. destruct rs as [|r rs]; cbn; [by rewrite !u32_id by clia|].
  destruct Ha as (H1 & H2 & H3). rewrite !u32_id by clia. destruct (decide (start r = e)) as [<-|Hne].
  - rewrite decide_False, decide_True by lia. by rewrite Z.min_l, Z.max_r by lia.
  - rewrite decide_True by lia. cbn. by rewrite decide_False by lia.
Qed.

(** A range that begins within the first one extends it. *)
Lemma add_ranges_into r rs s e :
  0 <= start r <= s → s <= end_ r → s <= e < 2 ^ 32 → end_ r < 2 ^ 32 →
  add_ranges (r :: rs) s e = LiveRange (start r) (Z.max e (end_ r)) :: rs.
Proof.
  intros H1 H2 H3 H4. unfold add_ranges. cbn. rewrite decide_False, decide_True by lia. rewrite !u32_id by clia.
  by rewrite Z.min_r by lia.
Qed.

(** Ranges in order from [bs] on, the first of which ends at [e] or later and starts
    at [bs], or at [a] or later. *)
Definition shape (bs a e : Z) (rs : list live_range) : Prop :=
  apart_from bs rs ∧ match rs with [] => True | r :: _ => e <= end_ r ∧ (start r = bs ∨ a <= start r) end.
(** The second range starts at [t] or later. *)
Definition second_from (t : Z) (rs : list live_range) : Prop :=
  match rs with _ :: r :: _ => t <= start r | _ => True end.

Lemma apart_shape lo bs rs : bs <= lo → apart_from lo rs → shape bs lo lo rs.
Proof. intros Hb Ha. split; [by eapply apart_weaken|]. destruct rs as [|r rs]; [done|]. cbn in Ha. lia. Qed.
Lemma shape_weaken bs a e a' e' rs : a' <= a → e' <= e → shape bs a e rs → shape bs a' e' rs.
Proof. intros ?? [Ha Hr]. split; [done|]. destruct rs; [done|]. lia. Qed.
Lemma shape_second bs a e rs : shape bs a e rs → second_from e rs.
Proof. intros [Ha Hr]. destruct rs as [|r [|r' rs]]; [done..|]. cbn in *. lia. Qed.

(** Adding what comes from the start of the block. *)
Lemma shape_add_start bs m rs : 0 <= bs <= m → m < 2 ^ 32 → shape bs m m rs →
  shape bs m m (add_ranges rs bs m) ∧ (∀ t, m < t → second_from t rs → (∀ r, head rs = Some r → start r <= m ∨ t <= start r) → second_from t (add_ranges rs bs m)) ∧
  ∀ p, covers rs p ∨ bs <= p < m → covers (add_ranges rs bs m) p.
Proof.
  intros Hb Hm [Ha Hr]. destruct rs as [|r rs].
  { rewrite add_ranges_before by (done || lia). unfold shape. cbn. split_and!; [lia..|done|lia|lia|done|].
    intros p [[? [Hx _]]|?]; [by apply elem_of_nil in Hx|]. rewrite covers_cons. cbn. lia. }
  destruct Ha as (H1 & H2 & H3). destruct (decide (start r = bs)) as [Hs|Hs].
  - rewrite add_ranges_into by lia. rewrite Z.max_r by lia. rewrite Hs. unfold shape. cbn. split_and!; [lia..|done|lia|lia| |].
    + intros t _ Ht _. exact Ht.
    + intros p. rewrite !covers_cons. cbn. intros [[?|?]|?]; [lia|auto|lia].
  - destruct Hr as [Hr1 [?|Hr2]]; [done|]. rewrite add_ranges_before by (cbn; repeat split; done || lia). unfold shape. case_decide as Hd; cbn.
    + split_and!; [lia..|done|lia|lia| |].
      * intros t _ Ht _. exact Ht.
      * intros p. rewrite !covers_cons. cbn. intros [[?|?]|?]; [lia|auto|lia].
    + split_and!; [lia..|done|lia|lia| |].
      * intros t _ _ Ht. destruct (Ht r eq_refl); lia.
      * intros p. rewrite (covers_cons (LiveRange bs m)). cbn. intros [?|?]; [auto|lia].
Qed.

(** Moving the start of the first range, or a new one. *)
Lemma shape_define bs pos be rs rs' : 0 <= bs <= pos → pos + 2 <= be < 2 ^ 32 → shape bs (pos + 1) (pos + 2) rs →
  rs' = match rs with [] => add_ranges [] (pos + 1) be | r :: rs0 => LiveRange (pos + 1) (end_ r) :: rs0 end →
  shape bs (pos + 1) (pos + 2) rs' ∧ (∀ p, pos + 1 <= p → covers rs p ∨ p = pos + 1 → covers rs' p).
Proof.
  intros Hb Hp [Ha Hr] ->. destruct rs as [|r rs].
  - rewrite add_ranges_before by (done || lia). unfold shape. cbn. split_and!; [lia..|done|lia|lia|].
    intros p Hp1 [[? [Hx _]]|?]; [by apply elem_of_nil in Hx|]. rewrite covers_cons. cbn. lia.
  - destruct Ha as (H1 & H2 & H3). unfold shape. cbn. split_and!; [lia..|done|lia|lia|].
    intros p Hp1. rewrite !covers_cons. cbn. intros [[?|?]|?]; [lia|auto|lia].
Qed.

(** The range of a clobbered register. *)
Lemma shape_clobber bs pos rs : 0 <= bs <= pos → pos + 2 < 2 ^ 32 → shape bs (pos + 1) (pos + 1) rs → second_from (pos + 2) rs →
  shape bs (pos + 1) (pos + 1) (add_ranges rs (pos + 1) (pos + 2)) ∧ second_from (pos + 2) (add_ranges rs (pos + 1) (pos + 2)) ∧
  ∀ p, covers rs p ∨ p = pos + 1 → covers (add_ranges rs (pos + 1) (pos + 2)) p.
Proof.
  intros Hb Hp [Ha Hr] Hs. destruct rs as [|r rs].
  { rewrite add_ranges_before by (done || lia). unfold shape. cbn. split_and!; [lia..|done|lia|lia|done|].
    intros p [[? [Hx _]]|?]; [by apply elem_of_nil in Hx|]. rewrite covers_cons. cbn. lia. }
  destruct Ha as (H1 & H2 & H3). destruct Hr as [Hr1 Hr2]. destruct (decide (start r <= pos + 1)) as [Hd|Hd].
  - rewrite add_ranges_into by lia. unfold shape. cbn. split_and!; [lia..| |lia|lia|done|].
    + destruct rs as [|r2 rs]; [done|]. cbn in *. split_and!; [lia..|]. apply H3.
    + intros p. rewrite !covers_cons. cbn. intros [[?|?]|?]; [lia|auto|lia].
  - rewrite add_ranges_before by (cbn; repeat split; done || lia). unfold shape. case_decide as Hd'; cbn.
    + split_and!; [lia..|done|lia|lia| |].
      * destruct rs; [done|]. cbn in *. lia.
      * intros p. rewrite !covers_cons. cbn. intros [[?|?]|?]; [lia|auto|lia].
    + split_and!; [lia..|done|lia|lia|lia|].
      intros p. rewrite (covers_cons (LiveRange _ _)). cbn. intros [?|?]; [auto|lia].
Qed.

(** ** The ranges of the variables *)

Definition ranges (its : list live_interval) (v : Z) : option (list live_range) := range_list <$> its !! Z.to_nat v.

(** Only [v] has changed. *)
Definition upd (its its' : list live_interval) (v : Z) (rs : list live_range) : Prop :=
  ranges its' v = Some rs ∧ ∀ w, 0 <= w → w ≠ v → ranges its' w = ranges its w.

Lemma ranges_insert its v it : 0 <= v → is_Some (its !! Z.to_nat v) → upd its (<[Z.to_nat v := it]> its) v (range_list it).
Proof.
  intros Hv Hs. unfold upd, ranges. split.
  - rewrite list_lookup_insert_eq; [done|]. by apply lookup_lt_is_Some.
  - intros w Hw Hne. rewrite list_lookup_insert_ne; [done|lia].
Qed.

Section wp.
Context `{Allocator} (Hall : ∀ k sz, malloc_ok k sz = true).
Abbreviation never := (λ (_ : unit) (_ : mem), False).

Lemma interval_add_range_ok it s e h :
  wp (interval_add_range it s e) (λ r _, r = (0, with_ranges it (add_ranges (range_list it) s e) (expired_range_list it))) never h.
Proof using Hall.
  unfold interval_add_range, add_ranges. destruct (merge_range (range_list it) s e); [by apply wp_ret|].
  unfold alloc_live_range, arena_alloc, bind, mem_malloc, wp. rewrite Hall. done.
Qed.

Lemma add_range_ok v s e its rs h : 0 <= v → ranges its v = Some rs →
  wp (add_range v s e its) (λ its' _, upd its its' v (add_ranges rs s e)) never h.
Proof using Hall.
  intros Hv Hr. unfold add_range. unfold ranges in Hr. destruct (its !! Z.to_nat v) as [it|] eqn:E; [|done].
  injection Hr as <-. eapply wp_seq; [apply interval_add_range_ok| |done]. cbv beta. intros r h' ->. apply wp_ret.
  by apply ranges_insert.
Qed.

Lemma define_range_ok pos e v its rs h : 0 <= v → ranges its v = Some rs →
  wp (define_range pos e v its)
     (λ its' _, upd its its' v (match rs with [] => add_ranges [] (u32 (pos + 1)) e | r :: rs' => LiveRange (u32 (pos + 1)) (end_ r) :: rs' end))
     never h.
Proof using Hall.
  intros Hv Hr. unfold define_range. pose proof Hr as Hr'. unfold ranges in Hr. destruct (its !! Z.to_nat v) as [it|] eqn:E; [|done].
  injection Hr as <-. destruct (range_list it) as [|r rs] eqn:El; [by apply add_range_ok|].
  apply wp_ret. by apply ranges_insert.
Qed.

(** A loop over variables: each step takes the ranges of its variable from [P] to [Q]. *)
Lemma iter_vars_wp f (P Q : Z → list live_range → Prop) vs its h :
  (∀ v rs, Q v rs → P v rs) →
  (∀ v its rs h, v ∈ vs → ranges its v = Some rs → P v rs →
    wp (f v its) (λ its' _, ∃ rs', upd its its' v rs' ∧ Q v rs') never h) →
  (∀ v, v ∈ vs → 0 <= v ∧ ∃ rs, ranges its v = Some rs ∧ P v rs) →
  wp (iterM f vs its)
     (λ its' _, (∀ v, v ∈ vs → ∃ rs, ranges its' v = Some rs ∧ Q v rs) ∧
                ∀ v, 0 <= v → v ∉ vs → ranges its' v = ranges its v) never h.
Proof using.
  intros HQP. revert its h. induction vs as [|v vs IH]; intros its h Hf Hpre; cbn [iterM].
  - apply wp_ret. split; [|done]. intros v Hv. by apply elem_of_nil in Hv.
  - destruct (Hpre v (list_elem_of_here _ _)) as (Hv & rs & Hr & HP).
    eapply wp_seq; [by apply (Hf v its rs); [left|..]| |done]. cbv beta. intros its1 h1 (rs' & [Hu1 Hu2] & HQ).
    eapply wp_mono; [apply IH| |done].
    + intros w its' rs0 h' Hw. apply Hf. by right.
    + intros w Hw. destruct (Hpre w ltac:(by right)) as (Hw0 & rs0 & Hr0 & HP0). split; [done|].
      destruct (decide (w = v)) as [->|Hne]; [eauto|]. exists rs0. rewrite Hu2 by done. done.
    + cbv beta. intros its2 h2 [Hin Hout]. split.
      * intros w [->|Hw]%elem_of_cons; [|by apply Hin].
        destruct (decide (v ∈ vs)) as [Hvs|Hvs]; [by apply Hin|]. rewrite Hout by done. eauto.
      * intros w Hw Hnin. apply not_elem_of_cons in Hnin as [Hne Hnin]. by rewrite Hout, Hu2.
Qed.

(** [v] is live at [p]; every variable's ranges satisfy [G]. *)
Definition cov (its : list live_interval) (v p : Z) : Prop := ∃ rs, ranges its v = Some rs ∧ covers rs p.
Definition all_ranges (n : Z) (G : list live_range → Prop) (its : list live_interval) : Prop :=
  ∀ v, 0 <= v < n → ∃ rs, ranges its v = Some rs ∧ G rs.

Lemma all_ranges_impl n (G G' : list live_range → Prop) its : (∀ rs, G rs → G' rs) → all_ranges n G its → all_ranges n G' its.
Proof using. intros Himp Hall' v Hv. destruct (Hall' v Hv) as (rs & ? & ?). eauto. Qed.

(** A loop over variables that keeps [G], keeps the positions in [keep] and adds those
    in [new]. *)
Lemma stage_wp f n (G : list live_range → Prop) (keep : Z → Prop) (new : Z → Z → Prop) vs its h :
  (∀ v its rs h, v ∈ vs → ranges its v = Some rs → G rs →
    wp (f v its) (λ its' _, ∃ rs', upd its its' v rs' ∧ G rs' ∧
      ∀ p, (keep p ∧ covers rs p) ∨ new v p → covers rs' p) never h) →
  Forall (λ v, 0 <= v < n) vs → all_ranges n G its →
  wp (iterM f vs its)
     (λ its' _, all_ranges n G its' ∧
        (∀ v p, 0 <= v → v ∉ vs ∨ keep p → cov its v p → cov its' v p) ∧
        (∀ v p, v ∈ vs → new v p → cov its' v p)) never h.
Proof using.
  intros Hf Hvs HG. rewrite list.Forall_forall in Hvs.
  set (P v rs := G rs ∧ ∀ p, keep p → cov its v p → covers rs p).
  eapply wp_mono; [apply (iter_vars_wp f P (λ v rs, P v rs ∧ ∀ p, new v p → covers rs p))| |done].
  - by intros v rs [].
  - intros v its1 rs h1 Hv Hr [HG1 Hk]. eapply wp_mono; [by apply (Hf v its1 rs)| |done].
    cbv beta. intros its2 _ (rs' & Hu & HG2 & Hc). exists rs'. split; [done|]. split; [split; [done|]|]; eauto.
  - intros v Hv. pose proof (Hvs v Hv). split; [lia|]. destruct (HG v (Hvs v Hv)) as (rs & Hr & HGr).
    exists rs. split; [done|]. split; [done|]. intros p _ (rs0 & Hr0 & Hc). congruence.
  - cbv beta. intros its' _ [Hin Hout]. split_and!.
    + intros v Hv. destruct (decide (v ∈ vs)) as [Hi|Hi].
      * destruct (Hin v Hi) as (rs & ? & [[? _] _]). eauto.
      * rewrite Hout by (done || lia). by apply HG.
    + intros v p Hv Hor Hc. destruct (decide (v ∈ vs)) as [Hi|Hi].
      * destruct (Hin v Hi) as (rs & ? & [[_ Hk] _]). exists rs. split; [done|]. apply Hk; [by destruct Hor|done].
      * unfold cov. by rewrite Hout by done.
    + intros v p Hi Hn. destruct (Hin v Hi) as (rs & ? & [_ Hk]). exists rs. eauto.
Qed.

Lemma caller_save_range n : NR_FIXED_REGISTERS <= n → Forall (λ v, 0 <= v < n) caller_save_regs.
Proof using.
  intros Hn.
  assert (Forall (λ v, 0 <= v < NR_FIXED_REGISTERS) caller_save_regs) as HF
    by (vm_compute; repeat constructor; discriminate).
  eapply Forall_impl; [|exact HF]. cbv beta. lia.
Qed.

(** What one instruction does to the ranges. *)
Record insn_post (n bs pos : Z) (x : insn) (its its' : list live_interval) : Prop := {
  ip_shape : all_ranges n (shape bs pos pos) its';
  ip_keep v p : 0 <= v → v ∉ insn_defs x ∨ pos + 1 <= p → cov its v p → cov its' v p;
  ip_def v : v ∈ insn_defs x → cov its' v (pos + 1);
  ip_use v p : v ∈ insn_uses x → bs <= p < pos + 1 → cov its' v p;
  ip_call v : insn_is_call x = true → v ∈ caller_save_regs → cov its' v (pos + 1);
}.

Lemma update_insn_wp n bs be x pos its h :
  NR_FIXED_REGISTERS <= n → 0 <= bs <= pos → pos + 2 <= be < 2 ^ 32 →
  Forall (λ v, 0 <= v < n) (insn_uses x) → Forall (λ v, 0 <= v < n) (insn_defs x) →
  all_ranges n (shape bs (pos + 2) (pos + 2)) its →
  wp (update_insn bs be (x, pos) its) (λ its' _, insn_post n bs pos x its its') never h.
Proof using Hall.
  intros Hn Hbs Hbe Hus Hds Hsh. unfold update_insn. rewrite !(u32_id (pos + 1)), (u32_id (pos + 2)) by clia.
  eapply wp_seq; [apply (stage_wp _ n (shape bs (pos + 1) (pos + 2)) (λ p, pos + 1 <= p) (λ _ p, p = pos + 1))| |done]; [|done|..|cbv beta].
  { intros v its1 rs h1 Hv Hr HG. rewrite list.Forall_forall in Hds. eapply wp_mono; [apply define_range_ok; [|done]|cbv beta|done].
    { destruct (Hds v Hv). lia. }
    rewrite u32_id by clia. intros its2 _ Hu. eexists. split; [exact Hu|].
    destruct (shape_define bs pos be rs _ Hbs Hbe HG eq_refl) as [Hs Hc]. split; [done|].
    intros p [[??]| ->]; apply Hc; auto; lia. }
  { eapply all_ranges_impl; [|done]. intros rs. apply shape_weaken; lia. }
  intros its1 h1 (HG1 & Hk1 & Hn1).
  set (G2 rs := shape bs (pos + 1) (pos + 1) rs ∧ second_from (pos + 2) rs).
  eapply wp_seq; [apply (stage_wp _ n G2 (λ _, True) (λ _ p, bs <= p < pos + 1))| |done]; [|done|..|cbv beta].
  { intros v its2 rs h2 Hv Hr [HG HG']. rewrite list.Forall_forall in Hus. eapply wp_mono; [apply add_range_ok; [|done]|cbv beta|done].
    { destruct (Hus v Hv). lia. }
    intros its3 _ Hu. eexists. split; [exact Hu|].
    destruct (shape_add_start bs (pos + 1) rs) as (Hs & Ht & Hc); [lia..|done|]. split; [split; [done|]|].
    - apply Ht; [lia|done|]. intros r _. lia.
    - intros p [[_ ?]|?]; apply Hc; auto. }
  { eapply all_ranges_impl; [|done]. intros rs Hs. split; [|by eapply shape_second]. revert Hs. apply shape_weaken; lia. }
  intros its2 h2 (HG2 & Hk2 & Hn2).
  assert (∀ rs, G2 rs → shape bs pos pos rs) as HG2' by (intros rs [Hs _]; revert Hs; apply shape_weaken; lia).
  assert (∀ v, v ∈ insn_defs x → 0 <= v) as Hd0 by (rewrite list.Forall_forall in Hds; intros v Hv; destruct (Hds v Hv); lia).
  assert (∀ v, v ∈ insn_uses x → 0 <= v) as Hu0 by (rewrite list.Forall_forall in Hus; intros v Hv; destruct (Hus v Hv); lia).
  destruct (insn_is_call x) eqn:Ecall.
  - eapply wp_mono; [apply (stage_wp _ n G2 (λ _, True) (λ _ p, p = pos + 1))| |done]; [|by apply caller_save_range|done|cbv beta].
    { intros v its3 rs h3 Hv Hr [HG HG']. eapply wp_mono; [apply add_range_ok; [|done]|cbv beta|done].
      { pose proof (caller_save_range n Hn) as HF. rewrite list.Forall_forall in HF. destruct (HF v Hv). lia. }
      intros its4 _ Hu. eexists. split; [exact Hu|].
      destruct (shape_clobber bs pos rs) as (Hs & Ht & Hc); [lia..|done|done|]. split; [by split|].
      intros p [[_ ?]|?]; apply Hc; auto. }
    intros its3 _ (HG3 & Hk3 & Hn3). constructor.
    + by eapply all_ranges_impl.
    + eauto 8.
    + eauto 8.
    + eauto 8.
    + eauto.
  - apply wp_ret. constructor; [by eapply all_ranges_impl|eauto 8..|congruence].
Qed.

Lemma iterM_app {A T} (f : A → T → M mem unit T) l1 l2 s Q R h :
  wp (iterM f l1 s) (λ s' h', wp (iterM f l2 s') Q R h') R h → wp (iterM f (l1 ++ l2) s) Q R h.
Proof using.
  revert s h. induction l1 as [|a l1 IH]; intros s h; cbn; [done|]. unfold wp, bind.
  destruct (f a s h) as [s1 h1| |]; [|done..]. apply IH.
Qed.

(** Where a variable has to be live: at an instruction it is live before, and after
    one it is live after, that defines it or that clobbers its register. *)
Fixpoint needed (cs : list bb_code) (i : nat) (v q : Z) (xs : list insn) (p : Z) : Prop :=
  match xs with
  | [] => False
  | x :: xs' =>
    (p = q ∧ live_at cs v i (x :: xs')) ∨
    (p = q + 1 ∧ (live_at cs v i xs' ∨ v ∈ insn_defs x ∨ (insn_is_call x = true ∧ v ∈ caller_save_regs))) ∨
    needed cs i v (q + 2) xs' p
  end.
Lemma needed_ge cs i v q xs p : needed cs i v q xs p → q <= p.
Proof using. revert q. induction xs as [|x xs IH]; cbn; [done|]. intros q [?|[?|Hn]]; [lia..|]. apply IH in Hn. lia. Qed.

Definition insns_ok (n : Z) (xs : list insn) : Prop :=
  Forall (λ x, Forall (λ v, 0 <= v < n) (insn_uses x) ∧ Forall (λ v, 0 <= v < n) (insn_defs x)) xs.

(** The instructions of a block from [q] on. *)
Lemma insns_wp n cs i bs be xs q its h :
  NR_FIXED_REGISTERS <= n → 0 <= bs <= q → be = q + 2 * Z.of_nat (length xs) → be < 2 ^ 32 → insns_ok n xs →
  all_ranges n (shape bs be be) its →
  (∀ v p, 0 <= v < n → live_at cs v i [] → bs <= p < be → cov its v p) →
  wp (iterM (update_insn bs be) (rev (place_insns q xs)) its)
     (λ its' _, all_ranges n (shape bs q q) its' ∧ ∀ v, 0 <= v < n →
        (∀ p, be <= p → cov its v p → cov its' v p) ∧
        (∀ p, live_at cs v i xs → bs <= p < q → cov its' v p) ∧
        (∀ p, needed cs i v q xs p → cov its' v p)) never h.
Proof using Hall.
  intros Hn. revert q h. induction xs as [|x xs IH]; intros q h Hq Hbe Hlt Hok Hsh Hlo.
  { cbn [length] in Hbe. cbn [place_insns rev iterM]. apply wp_ret. replace q with be by lia. split; [done|]. intros v Hv. split_and!; [auto..|done]. }
  apply Forall_cons_1 in Hok as [[Hus Hds] Hok]. cbn [length] in Hbe. cbn [place_insns rev]. apply iterM_app.
  eapply wp_mono; [apply (IH (q + 2)); [lia..|done|done|done]|cbv beta|done].
  intros its1 h1 [Hsh1 H1]. cbn [iterM]. rewrite u32_id by clia.
  eapply wp_seq; [apply (update_insn_wp n); [done|lia|lia|done..]|cbv beta|done].
  intros its2 h2 [Hs Hk Hd Hu Hc]. apply wp_ret. split; [done|]. intros v Hv. destruct (H1 v Hv) as (Hk1 & Hl1 & Hn1).
  assert (∀ p, live_at cs v i (x :: xs) → bs <= p < q + 1 → cov its2 v p) as Hlive.
  { intros p Hl Hp. inversion Hl; subst; [by apply Hu|]. apply Hk; [lia|by left|]. apply Hl1; [done|lia]. }
  split_and!.
  - intros p Hp Hcov. apply Hk; [lia|right; lia|auto].
  - intros p Hl Hp. apply Hlive; [done|lia].
  - intros p [[-> Hl]|[[-> Hp]|Hp]].
    + apply Hlive; [done|lia].
    + destruct Hp as [Hl|[Hdef|[Hcall Hreg]]]; [|by apply Hd|by apply Hc]. apply Hk; [lia|right; lia|]. apply Hl1; [done|lia].
    + pose proof (needed_ge _ _ _ _ _ _ Hp). apply Hk; [lia|right; lia|auto].
Qed.

Section blocks.
Context {B : Type} `{SetLaws B} (n : Z) (Hn : NR_FIXED_REGISTERS <= n).
Context (vars : list Z) (Hvars : Forall (λ v, 0 <= v < n) vars) (Hallvars : ∀ v, 0 <= v < n → v ∈ vars).
Context (cs : list bb_code).

Definition block_ok (i : nat) (b : basic_block B) : Prop :=
  bs_wf n (live_out_set b) ∧ insns_ok n (insn_list (bb_code_of b)) ∧
  ∀ v, 0 <= v → live_at cs v i [] → bs_mem (live_out_set b) v = true.

Lemma update_block_wp i b bs be its h :
  block_ok i b → 0 <= bs → be = bs + 2 * Z.of_nat (length (insn_list (bb_code_of b))) → be < 2 ^ 32 →
  all_ranges n (apart_from be) its →
  wp (update_block vars (b, (bs, be)) its)
     (λ its' _, all_ranges n (apart_from bs) its' ∧ ∀ v, 0 <= v < n →
        (∀ p, be <= p → cov its v p → cov its' v p) ∧
        (∀ p, needed cs i v bs (insn_list (bb_code_of b)) p → cov its' v p)) never h.
Proof using All.
  intros (Hwf & Hok & Hlo) Hbs Hbe Hlt Hap. unfold update_block.
  eapply wp_seq; [apply (stage_wp _ n (shape bs be be) (λ _, True) (λ v p, bs_mem (live_out_set b) v = true ∧ bs <= p < be))| |done];
    [|done|..|cbv beta].
  { intros v its1 rs h1 Hv Hr HG. rewrite list.Forall_forall in Hvars. pose proof (Hvars v Hv) as Hvr.
    rewrite (bs_test_law n) by done. apply wp_bind, wp_ret. destruct (bs_mem (live_out_set b) v) eqn:E.
    - eapply wp_mono; [apply add_range_ok; [lia|done]|cbv beta|done]. intros its2 _ Hu. eexists. split; [exact Hu|].
      destruct (shape_add_start bs be rs) as (Hs & _ & Hc); [lia..|done|]. split; [done|]. intros p [[_ ?]|[_ ?]]; apply Hc; auto.
    - apply wp_ret. exists rs. split; [by split|]. split; [done|]. intros p [[_ ?]|[? _]]; done. }
  { eapply all_ranges_impl; [|done]. intros rs. apply apart_shape. lia. }
  intros its1 h1 (HG1 & Hk1 & Hn1). unfold update_live_ranges_of.
  eapply wp_mono; [apply (insns_wp n cs i); [done|lia|done..|]|cbv beta|done].
  { intros v p Hv Hl Hp. apply Hn1; [auto|]. split; [apply Hlo; [lia|done]|done]. }
  intros its2 _ [Hs Hp]. split; [eapply all_ranges_impl; [|done]; by intros rs []|].
  intros v Hv. destruct (Hp v Hv) as (Hk & _ & Hnd). split; [|done]. intros p Hbp Hcov. apply Hk; [done|].
  apply Hk1; [lia|by right|done].
Qed.

(** Blocks from the [i]th on, the first at [pos]. *)
Lemma update_blocks_wp i pos bs its h :
  (∀ k b, bs !! k = Some b → block_ok (i + k) b) → 0 <= pos →
  pos + 2 * Z.of_nat (length (bs ≫= (insn_list ∘ bb_code_of))) < 2 ^ 32 →
  all_ranges n (λ rs, rs = []) its →
  wp (iterM (update_block vars) (rev (zip bs (compute_insn_positions pos (bb_code_of <$> bs)))) its)
     (λ its' _, all_ranges n (apart_from pos) its' ∧ ∀ v k b s e p, 0 <= v < n → bs !! k = Some b →
        compute_insn_positions pos (bb_code_of <$> bs) !! k = Some (s, e) →
        needed cs (i + k) v s (insn_list (bb_code_of b)) p → cov its' v p ∧ pos <= p) never h.
Proof using All.
  revert i pos h. induction bs as [|b bs IH]; intros i pos h Hbs Hpos Hlt Hemp.
  { cbn [rev zip zip_with iterM]. apply wp_ret. split; [|done]. eapply all_ranges_impl; [|done]. by intros rs ->. }
  cbn [fmap list_fmap compute_insn_positions zip zip_with rev].
  cbn [mbind list_bind] in Hlt. rewrite length_app in Hlt. cbn [compose] in Hlt.
  set (e0 := u64 _). assert (e0 = pos + 2 * Z.of_nat (length (insn_list (bb_code_of b)))) as He
    by (unfold e0; apply u64_id; clia).
  apply iterM_app. eapply wp_mono; [apply (IH (S i) e0)|cbv beta|done].
  - intros k b' E. replace (S i + k)%nat with (i + S k)%nat by lia. by apply Hbs.
  - lia.
  - unfold compose in *. lia.
  - done.
  - intros its1 h1 [Hap1 Hrest]. cbn [iterM].
    eapply wp_seq; [apply (update_block_wp i); [|lia|done|lia|done]|cbv beta|done].
    { replace i with (i + 0)%nat by lia. by apply Hbs. }
    intros its2 h2 [Hap2 Hblk]. apply wp_ret. split; [done|]. intros v k b' s e p Hv Eb Ep Hnd. destruct k as [|k].
    + cbn in Eb, Ep. simplify_eq. rewrite Nat.add_0_r in Hnd. split; [by apply Hblk|by eapply needed_ge].
    + cbn in Eb, Ep. destruct (Hrest v k b' s e p Hv Eb Ep) as [Hc Hge].
      { by replace (S i + k)%nat with (i + S k)%nat by lia. }
      split; [|lia]. destruct (Hblk v Hv) as [Hk _]. by apply Hk.
Qed.
End blocks.
End wp.

(** ** Theorem *)

Lemma needed_app cs i v q xs1 x xs2 p :
  needed cs i v (q + 2 * Z.of_nat (length xs1)) (x :: xs2) p → needed cs i v q (xs1 ++ x :: xs2) p.
Proof.
  revert q. induction xs1 as [|y xs1 IH]; intros q; cbn [length app]; [by rewrite Z.add_0_r|].
  intros Hx. right. right. apply IH. by replace (q + 2 + _) with (q + 2 * Z.of_nat (S (length xs1))) by lia.
Qed.

(** A call in a block of its own between the definition and the use of 40. *)
Definition call_code : list bb_code :=
  [BBCode [Insn [] [40] false] [1%nat]; BBCode [Insn [] [] true] [2%nat]; BBCode [Insn [40] [41] false] []].
Definition no_ranges (v : nat) : live_interval := LiveInterval (Z.of_nat v) [] [] [] 0 MACH_REG_UNASSIGNED.

(** C24: when memory suffices, [analyze_liveness] leaves every variable with live
    ranges that contain each position where the variable is needed, the ranges being
    computed from the live sets and the positions of the instructions: the position of
    every instruction before which some execution path may still use the variable, the
    position after every instruction after which that is so or that defines it, and,
    for a register a call may change, the position after every call.  The program has
    fewer than 2^31 instructions.  The ranges of a variable are in order and do not
    overlap. *)
Theorem live_ranges_correct `{Allocator} nr_vregs vars cs its h :
  (∀ k size, malloc_ok k size = true) →
  NR_FIXED_REGISTERS <= nr_vregs < 2 ^ 31 → code_ok nr_vregs cs → 2 * Z.of_nat (length (cs ≫= insn_list)) < 2 ^ 32 →
  (∀ v, v ∈ vars ↔ 0 <= v < nr_vregs) →
  Z.of_nat (length its) = nr_vregs → Forall (λ it, range_list it = []) its →
  ∃ its' h', analyze_liveness_ranges (B := bitset) nr_vregs vars cs its h = Done its' h' ∧
    (∀ v, 0 <= v < nr_vregs → ∃ rs, ranges its' v = Some rs ∧ apart_from 0 rs) ∧
    ∀ i c s e xs1 x xs2 v, cs !! i = Some c → compute_insn_positions 0 cs !! i = Some (s, e) →
      insn_list c = xs1 ++ x :: xs2 → 0 <= v < nr_vregs →
      let pos := s + 2 * Z.of_nat (length xs1) in
      (live_at cs v i (x :: xs2) → cov its' v pos) ∧
      (live_at cs v i xs2 ∨ v ∈ insn_defs x ∨ (insn_is_call x = true ∧ v ∈ caller_save_regs) →
        cov its' v (pos + 1)).
Proof.
  intros Hall Hn Hok Hlen Hvars Hits Hemp.
  assert (wp (analyze_liveness_ranges (B := bitset) nr_vregs vars cs its)
    (λ its' _, all_ranges nr_vregs (apart_from 0) its' ∧ ∀ v i c s e p, 0 <= v < nr_vregs → cs !! i = Some c → compute_insn_positions 0 cs !! i = Some (s, e) →
       needed cs i v s (insn_list c) p → cov its' v p) (λ _ _, False) h) as Hwp.
  { unfold analyze_liveness_ranges. eapply wp_seq; [apply analyze_liveness_wf_wp; [lia|done]|cbv beta|done].
    intros bs h1 [[Hcode Hlive] Hwf]. unfold update_live_ranges.
    eapply wp_mono; [apply (update_blocks_wp Hall nr_vregs) with (cs := cs) (i := 0%nat)|cbv beta|done].
    - lia.
    - rewrite list.Forall_forall. intros v. by rewrite Hvars.
    - intros v. by rewrite Hvars.
    - intros k b Eb. rewrite Nat.add_0_l. split_and!.
      + by eapply Forall_lookup_1 in Hwf.
      + assert (cs !! k = Some (bb_code_of b)) as Ec by (by rewrite <- Hcode, list_lookup_fmap, Eb).
        by destruct (Forall_lookup_1 _ _ _ _ Hok Ec).
      + intros v Hv Hl. apply (Hlive k b Eb v Hv). inversion Hl; subst. unfold live_out, live_in. eauto 10.
    - lia.
    - rewrite <- Hcode in Hlen. clear -Hlen. assert (length (bs ≫= insn_list ∘ bb_code_of) = length ((bb_code_of <$> bs) ≫= insn_list)) as ->; [|lia].
      clear. induction bs as [|b bs IH]; [done|]. cbn. rewrite !length_app. cbn in IH. by rewrite IH.
    - intros v Hv. unfold ranges. destruct (lookup_lt_is_Some_2 its (Z.to_nat v)) as [it E]; [lia|]. rewrite E.
      exists (range_list it). split; [done|]. by eapply Forall_lookup_1 in Hemp.
    - intros its' h2 [Hap Hc]. split; [done|]. intros v i c s e p Hv Ec Ep Hnd. rewrite <- Hcode in Ec. rewrite list_lookup_fmap in Ec.
      destruct (bs !! i) as [b|] eqn:Eb; [|done]. injection Ec as <-. rewrite <- Hcode in Ep. by eapply (Hc v i b s e p). }
  unfold wp in Hwp. destruct (analyze_liveness_ranges _ _ _ _ _) as [its' h'| |] eqn:E; [|done..].
  destruct Hwp as [Hap Hwp]. exists its', h'. split; [done|]. split; [done|]. intros i c s e xs1 x xs2 v Ec Ep Exs Hv pos.
  assert (∀ p, needed cs i v pos (x :: xs2) p → cov its' v p) as Hnd.
  { intros p Hp. apply (Hwp v i c s e p Hv Ec Ep). rewrite Exs. by apply needed_app. }
  split; intros Hx; apply Hnd; cbn; auto.
Qed.
Lemma live_ranges_correct_witness :
  ∃ its' h', @analyze_liveness_ranges (λ _ _, true) bitset _ 42 (Z.of_nat <$> seq 0 42) call_code (no_ranges <$> seq 0 42) (Mem 0 ∅) = Done its' h' ∧
    cov its' 40 1 ∧ cov its' 40 2 ∧ cov its' 40 3 ∧ cov its' 40 4 ∧ cov its' 41 5 ∧ cov its' 0 3.
Proof.
  pose proof (@live_ranges_correct (λ _ _, true) 42 (Z.of_nat <$> seq 0 42) call_code (no_ranges <$> seq 0 42) (Mem 0 ∅)) as Hl.
  assert (live_at call_code 40 2 [Insn [40] [41] false]) as L2 by (apply live_use; by left).
  assert (live_at call_code 40 1 []) as L1 by (eapply (live_next _ _ 1 _ 2); [reflexivity|by left|reflexivity|exact L2]).
  assert (live_at call_code 40 1 [Insn [] [] true]) as L1' by (apply live_skip; [by apply not_elem_of_nil|exact L1]).
  assert (live_at call_code 40 0 []) as L0 by (eapply (live_next _ _ 0 _ 1); [reflexivity|by left|reflexivity|exact L1']).
  destruct Hl as (its' & h' & E & _ & Hc).
  - reflexivity.
  - unfold NR_FIXED_REGISTERS. lia.
  - repeat constructor; cbn; lia.
  - cbn. lia.
  - intros v. rewrite list_elem_of_fmap. split.
    + intros (k & -> & Hk%elem_of_seq). lia.
    + intros Hv. exists (Z.to_nat v). split; [lia|]. apply elem_of_seq. lia.
  - reflexivity.
  - repeat constructor.
  - exists its', h'. split; [exact E|].
    destruct (Hc 0%nat _ 0 2 [] (Insn [] [40] false) [] 40 eq_refl eq_refl eq_refl) as [_ H0]; [lia|].
    destruct (Hc 1%nat _ 2 4 [] (Insn [] [] true) [] 40 eq_refl eq_refl eq_refl) as [H1 H2]; [lia|].
    destruct (Hc 2%nat _ 4 6 [] (Insn [40] [41] false) [] 40 eq_refl eq_refl eq_refl) as [H3 _]; [lia|].
    destruct (Hc 2%nat _ 4 6 [] (Insn [40] [41] false) [] 41 eq_refl eq_refl eq_refl) as [_ H4]; [lia|].
    destruct (Hc 1%nat _ 2 4 [] (Insn [] [] true) [] 0 eq_refl eq_refl eq_refl) as [_ H5]; [lia|].
    split_and!; [apply H0|apply H1|apply H2|apply H3|apply H4|apply H5].
    + by left.
    + exact L1'.
    + by left.
    + exact L2.
    + right. left. by left.
    + right. right. split; [reflexivity|by left].
Defined.
