(* ===== verification/Verifier.v ===== *)
(** * vm/verifier.c: the bytecode verifier

    The state of a block, the jump destinations and the pass over the code of a method.
    A list of the source without its head is the list of its entries; the head of a
    stack, which [VM_TYPE_MAX] marks, is what an empty one shows.  A null array of
    variables and the type of a variable never set are [None], and reading them is
    undefined.  Memory only decides which allocations fail, and releasing it leaves it
    as it is; messages are left out. *)

From Stdlib Require Import String.
From S2P Require Import Prelude Opcodes Bytecode CMonad Bitset ConstantPool AttributeInfo ClassFile Attributes Types.
#[local] Open Scope Z_scope.

(** ** Data *)

Definition ENOMEM : Z := 12.
Definition E_NOT_IMPLEMENTED : Z := -38.
Definition E_TYPE_CHECKING : Z := -1.
Definition E_WRONG_LOCAL_INDEX : Z := -3.
Definition E_WRONG_CONSTANT_POOL_INDEX : Z := -4.
Definition E_INVALID_BRANCH : Z := -5.
Definition E_FALLING_OFF : Z := -6.
Definition E_INVALID_EXCEPTION_HANDLER : Z := -7.
Definition E_OVERRIDES_FINAL : Z := -8.
Definition INITIAL_FOLLOWERS_SIZE : Z := 8.

Record verifier_operand := Operand { op_vm_type : option vm_type; is_fragment : bool }.
#[export] Instance operand_eq_dec : EqDecision verifier_operand.
Proof. solve_decision. Defined.

Inductive verifier_local_var_state := DEFINED | UNDEFINED | UNKNOWN.
#[export] Instance lvar_state_eq_dec : EqDecision verifier_local_var_state.
Proof. solve_decision. Defined.

Record verifier_local_var := LocalVar { lv_state : verifier_local_var_state; lv_op : verifier_operand }.

(** [stack] is the slots from the top. *)
Record verifier_state := VState {
  vars : option (list verifier_local_var);
  nb_vars : Z;
  stack : list verifier_operand;
}.

(** [bcode] is the code of the method; the block starts at [begin_offset]. *)
Record verifier_block := VBlock {
  begin_offset : Z;
  initial_state : verifier_state;
  final_state : verifier_state;
  bcode : list Z;
  bpc : Z;
  opc : Z;
  is_wide : bool;
}.
Definition set_initial (s : verifier_state) (b : verifier_block) : verifier_block :=
  VBlock (begin_offset b) s (final_state b) (bcode b) (bpc b) (opc b) (is_wide b).
Definition set_final (s : verifier_state) (b : verifier_block) : verifier_block :=
  VBlock (begin_offset b) (initial_state b) s (bcode b) (bpc b) (opc b) (is_wide b).
Definition set_stack (st : list verifier_operand) (s : verifier_state) : verifier_state := VState (vars s) (nb_vars s) st.

(** Of a method and its class, what the verifier looks at. *)
Record method_id := MethodId { mi_name : list Z; mi_type : list Z; mi_access_flags : Z }.
Record vm_class := VmClass {
  vmc_name : list Z;
  vmc_super : option (list method_id);   (** the methods of the superclass *)
  vmc_class : cafebabe_class;
}.
Record vm_method := VmMethod {
  vmm_id : method_id;
  vmm_class : vm_class;
  code_attribute : cafebabe_code_attribute;
  vmm_code : list Z;                      (** [code_attribute.code] *)
}.

Record verifier_context := VContext {
  vrf_method : vm_method;
  vrf_code : list Z;
  vrf_code_size : Z;
  vrf_max_stack : Z;
  vrf_max_locals : Z;
  jmp_dests : list Z;
}.

(** ** Allocation *)

Section ops.
Context `{Allocator}.

Definition lift {A} (o : option A) : M mem unit A :=
  match o with Some a => ret a | None => undef end.

Definition malloc (sz : Z) : M mem unit bool := λ h,
  let '(p, h') := mem_malloc sz h in Done (bool_decide (is_Some p)) h'.

Definition alloc_verifier_local_var (nb_vars : Z) : M mem unit (option (list verifier_local_var)) :=
  let* ok := malloc (nb_vars * 12) in
  ret (if (ok : bool) then Some (replicate (Z.to_nat nb_vars) (LocalVar UNKNOWN (Operand None false))) else None).

Definition alloc_verifier_stack (t : vm_type) : M mem unit (option verifier_operand) :=
  let* ok := malloc 24 in ret (if (ok : bool) then Some (Operand (Some t) false) else None).

(** The result for the variables is not looked at. *)
Definition alloc_verifier_state (nb_vars : Z) : M mem unit (option verifier_state) :=
  let* ok := malloc 24 in
  if negb ok then ret None else
  let* head := malloc 24 in
  if negb head then ret None else
  let* vars := alloc_verifier_local_var nb_vars in
  ret (Some (VState vars nb_vars [])).

Definition alloc_verifier_block (code : list Z) (max_locals begin_offset : Z) : M mem unit (option verifier_block) :=
  let* ok := malloc 88 in
  if negb ok then ret None else
  let* initial := alloc_verifier_state max_locals in
  match initial with
  | None => ret None
  | Some initial =>
    let* final := alloc_verifier_state max_locals in
    match final with
    | None => ret None
    | Some final =>
      do malloc (4 * INITIAL_FOLLOWERS_SIZE) ;;
      ret (Some (VBlock begin_offset initial final code 0 0 false))
    end
  end.

(** The destination of the head of the list is never read. *)
Definition alloc_verifier_jump_destinations (dest : Z) : M mem unit (option Z) :=
  let* ok := malloc 24 in ret (if (ok : bool) then Some dest else None).

(** The first block is allocated, and not used. *)
Definition alloc_verifier_context (vmm : vm_method) : M mem unit (option verifier_context) :=
  let* ok := malloc 56 in
  if negb ok then ret None else
  let* jd := alloc_verifier_jump_destinations 0 in
  match jd with
  | None => ret None
  | Some _ =>
    let* b := alloc_verifier_block (vmm_code vmm) (max_locals (code_attribute vmm)) 0 in
    match b with
    | None => ret None
    | Some _ =>
      ret (Some (VContext vmm (vmm_code vmm) (code_length (code_attribute vmm))
                   (max_stack (code_attribute vmm)) (max_locals (code_attribute vmm)) []))
    end
  end.

(** ** Variables *)

Definition lvar (s : verifier_state) (idx : Z) : option verifier_local_var :=
  vs ← vars s; if decide (0 <= idx) then vs !! Z.to_nat idx else None.
Definition set_lvar (s : verifier_state) (idx : Z) (v : verifier_local_var) : option verifier_state :=
  vs ← vars s;
  if decide (0 <= idx < Z.of_nat (length vs)) then Some (VState (Some (<[Z.to_nat idx := v]> vs)) (nb_vars s) (stack s)) else None.

Definition undef_vrf_lvar (s : verifier_state) (idx : Z) : option verifier_state :=
  v ← lvar s idx; set_lvar s idx (LocalVar UNDEFINED (lv_op v)).

(** The mark of a fragment stays unless the type is one of a pair. *)
Definition def_vrf_lvar (s : verifier_state) (t : vm_type) (idx : Z) : option verifier_state :=
  v ← lvar s idx;
  s ← set_lvar s idx (LocalVar DEFINED (Operand (Some t) (is_fragment (lv_op v))));
  if negb (vm_type_is_pair t) then Some s else
  s ← set_lvar s idx (LocalVar DEFINED (Operand (Some t) false));
  set_lvar s (u32 (idx + 1)) (LocalVar DEFINED (Operand (Some t) true)).

Definition store_vrf_lvar (t : vm_type) (idx : Z) (b : verifier_block) : M mem unit (Z * verifier_block) :=
  let* s := lift (def_vrf_lvar (final_state b) t idx) in ret (0, set_final s b).

Definition peek_vrf_lvar (t : vm_type) (idx : Z) (b : verifier_block) : M mem unit (Z * verifier_block) :=
  let final := final_state b in
  let* v := lift (lvar final idx) in
  if decide (lv_state v = UNKNOWN) then
    let* other := (if vm_type_is_pair t
                   then let* v1 := lift (lvar final (u32 (idx + 1))) in ret (bool_decide (lv_state v1 ≠ UNKNOWN))
                   else ret false) in
    if (other : bool) then ret (E_TYPE_CHECKING, b) else
    let* init := lift (def_vrf_lvar (initial_state b) t idx) in
    store_vrf_lvar t idx (set_initial init b)
  else
  let* vt := lift (op_vm_type (lv_op v)) in
  if decide (vt ≠ t) then ret (E_TYPE_CHECKING, b) else
  if vm_type_is_pair t then
    let* v1 := lift (lvar final (u32 (idx + 1))) in
    if decide (lv_state v1 ≠ DEFINED) then ret (E_TYPE_CHECKING, b) else
    let* vt1 := lift (op_vm_type (lv_op v1)) in
    if is_fragment (lv_op v) || bool_decide (vt1 ≠ t) || negb (is_fragment (lv_op v1))
    then ret (E_TYPE_CHECKING, b) else ret (0, b)
  else ret (0, b).

(** ** The stack *)

(** Below the last slot. *)
Definition tail_def_vrf_op (s : verifier_state) (t : vm_type) : M mem unit (Z * verifier_state) :=
  let* new := alloc_verifier_stack t in
  match new with
  | None => ret (ENOMEM, s)
  | Some new =>
    if vm_type_is_pair t then
      let s := set_stack (stack s ++ [Operand (op_vm_type new) true]) s in
      let* new := alloc_verifier_stack t in
      match new with
      | None => ret (ENOMEM, s)
      | Some new => ret (0, set_stack (stack s ++ [new]) s)
      end
    else ret (0, set_stack (stack s ++ [new]) s)
  end.

Definition vrf_stack_size (st : list verifier_operand) : Z := Z.of_nat (length st).

Definition push_vrf_op (t : vm_type) (b : verifier_block) : M mem unit (Z * verifier_block) :=
  let push op b := set_final (set_stack (op :: stack (final_state b)) (final_state b)) b in
  let* new := alloc_verifier_stack t in
  match new with
  | None => ret (ENOMEM, b)
  | Some new =>
    if vm_type_is_pair t then
      let b := push new b in
      let* new := alloc_verifier_stack t in
      match new with
      | None => ret (ENOMEM, b)
      | Some new => ret (0, push (Operand (op_vm_type new) true) b)
      end
    else ret (0, push new b)
  end.

(** Whether the first slot has this type and mark; the head of the list has none. *)
Definition slot_is (st : list verifier_operand) (t : vm_type) (fragment : bool) : bool :=
  match st with
  | [] => false
  | el :: _ => bool_decide (op_vm_type el = Some t) && eqb (is_fragment el) fragment
  end.

Definition tail_def_initial (t : vm_type) (b : verifier_block) : M mem unit (Z * verifier_block) :=
  let* r := tail_def_vrf_op (initial_state b) t in ret (r.1, set_initial r.2 b).

Definition pop_vrf_op (t : vm_type) (b : verifier_block) : M mem unit (Z * verifier_block) :=
  let del b := set_final (set_stack (tail (stack (final_state b))) (final_state b)) b in
  match stack (final_state b) with
  | [] => tail_def_initial t b
  | _ :: _ =>
    if vm_type_is_pair t && negb (slot_is (stack (final_state b)) t true) then ret (E_TYPE_CHECKING, b) else
    let b := if vm_type_is_pair t then del b else b in
    if negb (slot_is (stack (final_state b)) t false) then ret (E_TYPE_CHECKING, b) else ret (0, del b)
  end.

Definition peek_vrf_op (t : vm_type) (b : verifier_block) : M mem unit (Z * verifier_block) :=
  match stack (final_state b) with
  | [] => tail_def_initial t b
  | st =>
    if vm_type_is_pair t && negb (slot_is st t true) then ret (E_TYPE_CHECKING, b) else
    let st := if vm_type_is_pair t then tail st else st in
    if negb (slot_is st t false) then ret (E_TYPE_CHECKING, b) else ret (0, b)
  end.

(** ** From one block to the next *)

Definition cmp_verifier_op (op1 op2 : verifier_operand) : option Z :=
  t1 ← op_vm_type op1;
  t2 ← op_vm_type op2;
  Some (if decide (t1 ≠ t2) then E_TYPE_CHECKING
        else if decide (is_fragment op1 ≠ is_fragment op2) then E_TYPE_CHECKING else 0).

Fixpoint transition_slots (stc stn : list verifier_operand) : option Z :=
  match stc, stn with
  | cp :: stc', np :: stn' =>
    err ← cmp_verifier_op cp np;
    if decide (err ≠ 0) then Some err else transition_slots stc' stn'
  | _, _ => Some 0
  end.
Definition transition_verifier_stack (stc stn : list verifier_operand) : option Z :=
  if decide (vrf_stack_size stc < vrf_stack_size stn) then Some E_TYPE_CHECKING else transition_slots stc stn.

(** [n] variables from [i] on. *)
Fixpoint transition_vars (sc sn : verifier_state) (n : nat) (i : Z) : option Z :=
  match n with
  | O => Some 0
  | S n' =>
    vn ← lvar sn i;
    if decide (lv_state vn = UNKNOWN) then transition_vars sc sn n' (i + 1) else
    vc ← lvar sc i;
    if decide (lv_state vn = DEFINED ∧ lv_state vc = UNDEFINED) then Some E_TYPE_CHECKING else
    err ← cmp_verifier_op (lv_op vc) (lv_op vn);
    if decide (err ≠ 0) then Some err else transition_vars sc sn n' (i + 1)
  end.
Definition transition_verifier_local_var (sc sn : verifier_state) (nb_vars : Z) : option Z :=
  transition_vars sc sn (Z.to_nat nb_vars) 0.

Definition transition_verifier_state (sc sn : verifier_state) : option Z :=
  err ← transition_verifier_stack (stack sc) (stack sn);
  if decide (err ≠ 0) then Some err else transition_verifier_local_var sc sn (nb_vars sc).

(** ** Jump destinations *)

Definition valid_dest (offset pc code_size : Z) : Z :=
  if decide (pc + offset < 0) then E_INVALID_BRANCH
  else if decide (code_size <= u64 (pc + offset)) then E_INVALID_BRANCH else 0.

(** In ascending order, each once. *)
Fixpoint add_jump_destination (jd : list Z) (dest : Z) : M mem unit (Z * list Z) :=
  match jd with
  | [] =>
    let* new := alloc_verifier_jump_destinations dest in
    match new with None => ret (ENOMEM, []) | Some new => ret (0, [new]) end
  | cur :: jd' =>
    if decide (cur < dest) then let* r := add_jump_destination jd' dest in ret (r.1, cur :: r.2)
    else if decide (dest = cur) then ret (0, jd)
    else
      let* new := alloc_verifier_jump_destinations dest in
      match new with None => ret (ENOMEM, jd) | Some new => ret (0, new :: jd) end
  end.

(** [valid_dest], then [add_jump_destination]. *)
Definition add_dest (jd : list Z) (base_pc offset code_size : Z) : M mem unit (Z * list Z) :=
  let err := valid_dest offset base_pc code_size in
  if decide (err ≠ 0) then ret (err, jd) else add_jump_destination jd (u64 (base_pc + offset)).

(** The loops over the targets of a switch, [step] bytes apart.  An iteration reads
    four bytes of the code, so there are no more than it has. *)
Fixpoint switch_loop (fuel : nat) (code : list Z) (base_pc code_size step pc end_pc : Z) (jd : list Z)
  : M mem unit (Z * list Z) :=
  match fuel with
  | O => undef
  | S fuel' =>
    if decide (pc < end_pc) then
      let* offset := lift (read_s32 code pc) in
      let* r := add_dest jd base_pc offset code_size in
      if decide (r.1 ≠ 0) then ret r
      else switch_loop fuel' code base_pc code_size step (u64 (pc + step)) end_pc r.2
    else ret (0, jd)
  end.

Definition add_tableswitch_destinations (jd : list Z) (code : list Z) (pc code_size : Z) : M mem unit (Z * list Z) :=
  let base_pc := pc in
  let pc := u64 (pc + (1 + get_tableswitch_padding pc)) in
  let* def := lift (read_s32 code pc) in
  let* low := lift (read_s32 code (pc + 4)) in
  let* high := lift (read_s32 code (pc + 8)) in
  let pc := u64 (pc + 12) in
  let* r := add_dest jd base_pc def code_size in
  if decide (r.1 ≠ 0) then ret r else
  let* d := lift (int (high - low)) in
  let* bytes := lift (int (d * 4)) in
  switch_loop (S (length code)) code base_pc code_size 4 pc (u64 (bytes + pc)) r.2.

Definition add_lookupswitch_destinations (jd : list Z) (code : list Z) (pc code_size : Z) : M mem unit (Z * list Z) :=
  let base_pc := pc in
  let pc := u64 (pc + (1 + get_tableswitch_padding pc)) in
  let* def := lift (read_s32 code pc) in
  let* npairs := lift (read_s32 code (pc + 4)) in
  let pc := u64 (pc + 8) in
  let* r := add_dest jd base_pc def code_size in
  if decide (r.1 ≠ 0) then ret r else
  let* n := lift (int (npairs * 4)) in
  let* bytes := lift (int (n * 2)) in
  switch_loop (S (length code)) code base_pc code_size 8 (u64 (pc + 4)) (u64 (bytes + pc)) r.2.

(** [i] starts at 1. *)
Fixpoint exception_loop (ca : cafebabe_code_attribute) (exs : list cafebabe_code_attribute_exception) (i : Z)
    (jd : list Z) : M mem unit (Z * list Z) :=
  match exs with
  | [] => undef
  | ex :: exs' =>
    if decide (end_pc ex < start_pc ex) then ret (E_INVALID_EXCEPTION_HANDLER, jd) else
    if decide (code_length ca < end_pc ex) then ret (E_INVALID_EXCEPTION_HANDLER, jd) else
    let* r := add_jump_destination jd (handler_pc ex) in
    if decide (r.1 ≠ 0) then ret r else
    if decide (i + 1 < exception_table_length ca) then exception_loop ca exs' (i + 1) r.2 else ret (0, r.2)
  end.
Definition verify_exception_table (ca : cafebabe_code_attribute) (jd : list Z) : M mem unit (Z * list Z) :=
  if decide (exception_table_length ca = 0) then ret (0, jd) else exception_loop ca (exception_table ca) 1 jd.

(** ** The pass over the code *)

Definition verify_constant_tag (vrf : verifier_context) (tag index : Z) : option Z :=
  let class := vmc_class (vmm_class (vrf_method vrf)) in
  if decide (constant_pool_count class <= index) then Some E_WRONG_CONSTANT_POOL_INDEX else
  cp ← mjoin (constant_pool class !! Z.to_nat index);
  Some (if decide (cp_tag cp ≠ tag) then E_TYPE_CHECKING else 0).

(** The first tag that fits, or the error of the last. *)
Fixpoint verify_constant_tags (vrf : verifier_context) (tags : list Z) (index : Z) : option Z :=
  match tags with
  | [] => Some 0
  | tag :: tags' =>
    err ← verify_constant_tag vrf tag index;
    match tags' with
    | [] => Some err
    | _ => if decide (err = 0) then Some 0 else verify_constant_tags vrf tags' index
    end
  end.
Definition ldc_tags (opc : Z) : list Z :=
  if decide (opc = OPC_LDC2_W) then [CAFEBABE_CONSTANT_TAG_DOUBLE; CAFEBABE_CONSTANT_TAG_LONG]
  else [CAFEBABE_CONSTANT_TAG_INTEGER; CAFEBABE_CONSTANT_TAG_FLOAT; CAFEBABE_CONSTANT_TAG_STRING;
        CAFEBABE_CONSTANT_TAG_CLASS].

(** What the loop checks of one instruction.  [bc_is_ret] looks at the start of the
    code. *)
Definition check_insn (vrf : verifier_context) (jd : list Z) (pc : Z) : M mem unit (Z * list Z) :=
  let code := vrf_code vrf in
  let* opc := lift (rd code pc) in
  let* branch := lift (bc_is_branch opc) in
  if (branch : bool) then
    let* is_ret := lift (bc_is_ret code 0) in
    if (is_ret : bool) then ret (0, jd)
    else if decide (opc = OPC_TABLESWITCH) then add_tableswitch_destinations jd code pc (vrf_code_size vrf)
    else if decide (opc = OPC_LOOKUPSWITCH) then add_lookupswitch_destinations jd code pc (vrf_code_size vrf)
    else
      let* offset := lift (bc_target_off code pc) in
      add_dest jd pc offset (vrf_code_size vrf)
  else
  let* local := lift (bc_uses_local_var opc) in
  if (local : bool) then
    let* index := lift (get_local_var_index code pc) in
    ret (if decide (index < vrf_max_locals vrf) then 0 else E_WRONG_LOCAL_INDEX, jd)
  else if bc_is_ldc opc then
    let* index := lift (if decide (opc = OPC_LDC) then read_u8 code (pc + 1) else read_u16 code (pc + 1)) in
    let* err := lift (verify_constant_tags vrf (ldc_tags opc) index) in
    ret (err, jd)
  else ret (0, jd).

(** The variables of the loop: the map, the destinations, [pc] and [last_insn_ptr]. *)
Record pass_state := PassState { insn_map : option bitset; dests : list Z; pass_pc : Z; last_insn : Z }.

(** An instruction has at least one byte. *)
Fixpoint pass_loop (fuel : nat) (vrf : verifier_context) (st : pass_state) : M mem unit (Z * pass_state) :=
  match fuel with
  | O => undef
  | S fuel' =>
    if decide (pass_pc st < vrf_code_size vrf) then
      let* size := lift (bc_insn_size_safe (vrf_code vrf) (pass_pc st) (vrf_code_size vrf)) in
      if decide (size < 0) then ret (size, st) else
      let* map := lift (insn_map st) in
      let* bits' := lift (set_bit (bits map) (pass_pc st)) in
      let* r := check_insn vrf (dests st) (pass_pc st) in
      let map' := Some (with_bits map bits') in
      if decide (r.1 ≠ 0) then ret (r.1, PassState map' r.2 (pass_pc st) (last_insn st))
      else pass_loop fuel' vrf (PassState map' r.2 (u64 (pass_pc st + size)) (pass_pc st))
    else ret (0, st)
  end.

(** The search for a branch to a bad destination: its place, or the end. *)
Fixpoint find_branch (fuel : nat) (vrf : verifier_context) (dest pc : Z) : option (bool * Z) :=
  match fuel with
  | O => None
  | S fuel' =>
    if decide (pc < vrf_code_size vrf) then
      size ← bc_insn_size_safe (vrf_code vrf) pc (vrf_code_size vrf);
      opc ← rd (vrf_code vrf) pc;
      branch ← bc_is_branch opc;
      found ← (if (branch : bool) then
                 is_ret ← bc_is_ret (vrf_code vrf) 0;
                 if (is_ret : bool) then Some false
                 else offset ← bc_target_off (vrf_code vrf) pc; Some (bool_decide (u64 (pc + offset) = dest))
               else Some false);
      if (found : bool) then Some (true, pc) else find_branch fuel' vrf dest (u64 (pc + size))
    else Some (false, pc)
  end.

(** [err], [pc] and whether to go to [out]. *)
Fixpoint check_dests (vrf : verifier_context) (map : option bitset) (jds : list Z) (err pc : Z) : option (Z * Z * bool) :=
  match jds with
  | [] => Some (err, pc, false)
  | dest :: jds' =>
    m ← map;
    ok ← test_bit (bits m) dest;
    if (ok : bool) then check_dests vrf map jds' err pc else
    '(found, pc) ← find_branch (S (Z.to_nat (vrf_code_size vrf))) vrf dest 0;
    if (found : bool) then Some (E_INVALID_BRANCH, pc, true) else check_dests vrf map jds' E_INVALID_BRANCH pc
  end.

Definition verifier_first_pass (vrf : verifier_context) : M mem unit Z :=
  let* map := (λ h, match alloc_bitset (vrf_code_size vrf) h with
                    | Done b h' => Done (Some b) h' | Fail _ h' => Done None h' | Undef => Undef end) in
  let* r := pass_loop (S (Z.to_nat (vrf_code_size vrf))) vrf (PassState map (jmp_dests vrf) 0 0) in
  if decide (r.1 ≠ 0) then ret r.1 else
  let* e := verify_exception_table (code_attribute (vrf_method vrf)) (dests r.2) in
  if decide (e.1 ≠ 0) then ret e.1 else
  let* c := lift (check_dests vrf (insn_map r.2) e.2 0 (pass_pc r.2)) in
  let '(err, pc, out) := c in
  if (out : bool) then ret err else
  let err := if decide (pc ≠ vrf_code_size vrf) then E_MALFORMED_BC else err in
  let* ends := lift (bc_is_unconditionnal_branch (vrf_code vrf) (last_insn r.2)) in
  ret (if negb ends then E_FALLING_OFF else err).

(** ** Methods *)

Definition CAFEBABE_METHOD_ACC_FINAL : Z := 0x0010.
Definition CAFEBABE_METHOD_ACC_NATIVE : Z := 0x0100.
Definition CAFEBABE_METHOD_ACC_ABSTRACT : Z := 0x0400.
Definition method_is (flag : Z) (m : method_id) : bool := bool_decide (Z.land (mi_access_flags m) flag ≠ 0).

Definition vm_method_get_overridden (vmm : vm_method) : option method_id :=
  super ← vmc_super (vmm_class vmm);
  List.find (λ m, bool_decide (mi_name m = mi_name (vmm_id vmm)) && bool_decide (mi_type m = mi_type (vmm_id vmm))) super.

Definition vm_method_overrides_final (vmm : vm_method) : Z :=
  if decide (take 5 (vmc_name (vmm_class vmm)) = chars "java/") then 0 else
  match vm_method_get_overridden vmm with
  | None => 0
  | Some m => if method_is CAFEBABE_METHOD_ACC_FINAL m then E_OVERRIDES_FINAL else 0
  end.

Definition vm_method_verify (vmm : vm_method) : M mem unit Z :=
  if method_is CAFEBABE_METHOD_ACC_ABSTRACT (vmm_id vmm) || method_is CAFEBABE_METHOD_ACC_NATIVE (vmm_id vmm)
     || bool_decide (code_length (code_attribute vmm) = 0) then ret 0 else
  let* vrf := alloc_verifier_context vmm in
  match vrf with
  | None => ret ENOMEM
  | Some vrf =>
    let err := vm_method_overrides_final vmm in
    let* err := (if decide (err ≠ 0) then ret err else verifier_first_pass vrf) in
    ret (if decide (err = E_NOT_IMPLEMENTED) then 0 else err)
  end.
End ops.
