(* ===== verification/VerifyFunctions.v ===== *)
(** * vm/verify-functions.c: the typing of instructions

    One function for each instruction, and [verify_instruction], which finds it by the
    opcode.  Each runs on a block and gives an error and the block. *)

From S2P Require Import Prelude Opcodes Bytecode CMonad Types Verifier.
#[local] Open Scope Z_scope.

Section ops.
Context `{Allocator}.

Definition verify_fn : Type := verifier_block → M mem unit (Z * verifier_block).

(** [err = f(bb); if (err) return err;] and [return 0;] *)
Definition then_ (f k : verify_fn) : verify_fn := λ b,
  let* r := f b in if decide (r.1 ≠ 0) then ret r else k r.2.
Definition done_ : verify_fn := λ b, ret (0, b).
Infix ";;;" := then_ (at level 60, right associativity).
Definition not_implemented : verify_fn := λ b, ret (E_NOT_IMPLEMENTED, b).

(** [bb->code[bb->pc + i]] *)
Definition block_pos (b : verifier_block) (i : Z) : Z := begin_offset b + bpc b + i.

Definition read_index (b : verifier_block) : option Z :=
  if is_wide b then read_u16 (bcode b) (block_pos b 1) else read_u8 (bcode b) (block_pos b 1).

(** A type or an error. *)
Definition read_vm_type (b : verifier_block) : option (Z + vm_type) :=
  t ← read_u8 (bcode b) (block_pos b 1);
  Some (if decide (t = 4) then inr J_BOOLEAN
        else if decide (t = 5) then inr J_CHAR
        else if decide (t = 6) then inr J_FLOAT
        else if decide (t = 7) then inr J_DOUBLE
        else if decide (t = 8) then inr J_BYTE
        else if decide (t = 9) then inr J_SHORT
        else if decide (t = 10) then inr J_INT
        else if decide (t = 11) then inr J_LONG
        else inl E_MALFORMED_BC).

Definition __verify_binop (t : vm_type) : verify_fn := pop_vrf_op t ;;; peek_vrf_op t ;;; done_.
Definition verify_iadd : verify_fn := __verify_binop J_INT.
Definition verify_ladd : verify_fn := __verify_binop J_LONG.
Definition verify_fadd : verify_fn := __verify_binop J_FLOAT.
Definition verify_dadd : verify_fn := __verify_binop J_DOUBLE.
Definition verify_isub : verify_fn := __verify_binop J_INT.
Definition verify_lsub : verify_fn := __verify_binop J_LONG.
Definition verify_fsub : verify_fn := __verify_binop J_FLOAT.
Definition verify_dsub : verify_fn := __verify_binop J_DOUBLE.
Definition verify_imul : verify_fn := __verify_binop J_INT.
Definition verify_lmul : verify_fn := __verify_binop J_LONG.
Definition verify_fmul : verify_fn := __verify_binop J_FLOAT.
Definition verify_dmul : verify_fn := __verify_binop J_DOUBLE.
Definition verify_idiv : verify_fn := __verify_binop J_INT.
Definition verify_ldiv : verify_fn := __verify_binop J_LONG.
Definition verify_fdiv : verify_fn := __verify_binop J_FLOAT.
Definition verify_ddiv : verify_fn := __verify_binop J_DOUBLE.
Definition verify_irem : verify_fn := __verify_binop J_INT.
Definition verify_lrem : verify_fn := __verify_binop J_LONG.
Definition verify_frem : verify_fn := __verify_binop J_FLOAT.
Definition verify_drem : verify_fn := __verify_binop J_DOUBLE.

Definition __verify_unary_op (t : vm_type) : verify_fn := peek_vrf_op t ;;; done_.
Definition verify_ineg : verify_fn := __verify_unary_op J_INT.
Definition verify_lneg : verify_fn := __verify_unary_op J_LONG.
Definition verify_fneg : verify_fn := __verify_unary_op J_FLOAT.
Definition verify_dneg : verify_fn := __verify_unary_op J_DOUBLE.

Definition __verify_xshx (t : vm_type) : verify_fn := pop_vrf_op t ;;; pop_vrf_op J_INT ;;; push_vrf_op t ;;; done_.
Definition verify_ishl : verify_fn := __verify_xshx J_INT.
Definition verify_lshl : verify_fn := __verify_xshx J_LONG.
Definition verify_ishr : verify_fn := __verify_xshx J_INT.
Definition verify_lshr : verify_fn := __verify_xshx J_LONG.
Definition verify_iushr : verify_fn := __verify_xshx J_INT.
Definition verify_lushr : verify_fn := __verify_xshx J_LONG.
Definition verify_iand : verify_fn := __verify_binop J_INT.
Definition verify_land : verify_fn := __verify_binop J_LONG.
Definition verify_ior : verify_fn := __verify_binop J_INT.
Definition verify_lor : verify_fn := __verify_binop J_LONG.
Definition verify_ixor : verify_fn := __verify_binop J_INT.
Definition verify_lxor : verify_fn := __verify_binop J_LONG.
Definition verify_iinc : verify_fn := λ b, let* idx := lift (read_index b) in (peek_vrf_lvar J_INT idx ;;; done_) b.

Definition __verify_xcmpx (t : vm_type) : verify_fn := pop_vrf_op t ;;; pop_vrf_op t ;;; push_vrf_op J_INT ;;; done_.
Definition verify_lcmp : verify_fn := __verify_xcmpx J_LONG.
Definition verify_dcmpl : verify_fn := __verify_xcmpx J_DOUBLE.
Definition verify_fcmpl : verify_fn := __verify_xcmpx J_FLOAT.
Definition verify_dcmpg : verify_fn := __verify_xcmpx J_DOUBLE.
Definition verify_fcmpg : verify_fn := __verify_xcmpx J_FLOAT.

Definition __verify_if_binary : verify_fn := pop_vrf_op J_INT ;;; done_.
Definition verify_ifeq : verify_fn := __verify_if_binary.
Definition verify_ifne : verify_fn := __verify_if_binary.
Definition verify_iflt : verify_fn := __verify_if_binary.
Definition verify_ifge : verify_fn := __verify_if_binary.
Definition verify_ifgt : verify_fn := __verify_if_binary.
Definition verify_ifle : verify_fn := __verify_if_binary.

Definition __verify_if_cmp (t : vm_type) : verify_fn := pop_vrf_op t ;;; pop_vrf_op t ;;; done_.
Definition verify_if_icmpeq : verify_fn := __verify_if_cmp J_INT.
Definition verify_if_icmpne : verify_fn := __verify_if_cmp J_INT.
Definition verify_if_icmplt : verify_fn := __verify_if_cmp J_INT.
Definition verify_if_icmpge : verify_fn := __verify_if_cmp J_INT.
Definition verify_if_icmpgt : verify_fn := __verify_if_cmp J_INT.
Definition verify_if_icmple : verify_fn := __verify_if_cmp J_INT.
Definition verify_if_acmpeq : verify_fn := __verify_if_cmp J_REFERENCE.
Definition verify_if_acmpne : verify_fn := __verify_if_cmp J_REFERENCE.
Definition verify_goto : verify_fn := done_.
Definition verify_jsr : verify_fn := push_vrf_op J_RETURN_ADDRESS ;;; done_.
Definition verify_ret : verify_fn := λ b, let* idx := lift (read_index b) in peek_vrf_lvar J_RETURN_ADDRESS idx b.

Definition __verify_ifnull : verify_fn := pop_vrf_op J_REFERENCE ;;; done_.
Definition verify_ifnull : verify_fn := __verify_ifnull.
Definition verify_ifnonnull : verify_fn := __verify_ifnull.
Definition verify_athrow : verify_fn := pop_vrf_op J_REFERENCE ;;; done_.

Definition __verify_xreturn (t : vm_type) : verify_fn := peek_vrf_op t ;;; done_.
Definition verify_areturn : verify_fn := __verify_xreturn J_REFERENCE.
Definition verify_dreturn : verify_fn := __verify_xreturn J_DOUBLE.
Definition verify_freturn : verify_fn := __verify_xreturn J_FLOAT.
Definition verify_ireturn : verify_fn := __verify_xreturn J_INT.
Definition verify_lreturn : verify_fn := __verify_xreturn J_LONG.
Definition verify_return : verify_fn := done_.
Definition verify_invokeinterface : verify_fn := not_implemented.
Definition verify_invokevirtual : verify_fn := not_implemented.
Definition verify_invokespecial : verify_fn := not_implemented.
Definition verify_invokestatic : verify_fn := not_implemented.

Definition __verify_const (t : vm_type) : verify_fn := push_vrf_op t ;;; done_.
Definition verify_aconst_null : verify_fn := __verify_const J_REFERENCE.
Definition verify_iconst_n : verify_fn := __verify_const J_INT.
Definition verify_lconst_n : verify_fn := __verify_const J_LONG.
Definition verify_fconst_n : verify_fn := __verify_const J_FLOAT.
Definition verify_dconst_n : verify_fn := __verify_const J_DOUBLE.

Definition __verify_ipush : verify_fn := push_vrf_op J_INT ;;; done_.
Definition verify_bipush : verify_fn := __verify_ipush.
Definition verify_sipush : verify_fn := __verify_ipush.
Definition verify_ldc : verify_fn := not_implemented.
Definition verify_ldc_w : verify_fn := not_implemented.
Definition verify_ldc2_w : verify_fn := not_implemented.

Definition __verify_load (t : vm_type) (idx : Z) : verify_fn := peek_vrf_lvar t idx ;;; push_vrf_op t ;;; done_.
Definition __verify_load_read_index (t : vm_type) : verify_fn := λ b,
  let* idx := lift (read_index b) in __verify_load t idx b.
Definition verify_iload : verify_fn := __verify_load_read_index J_INT.
Definition verify_lload : verify_fn := __verify_load_read_index J_LONG.
Definition verify_fload : verify_fn := __verify_load_read_index J_FLOAT.
Definition verify_dload : verify_fn := __verify_load_read_index J_DOUBLE.
Definition verify_aload : verify_fn := __verify_load_read_index J_REFERENCE.
Definition verify_iload_n : verify_fn := λ b, __verify_load J_INT (opc b - OPC_ILOAD_0) b.
Definition verify_lload_n : verify_fn := λ b, __verify_load J_LONG (opc b - OPC_LLOAD_0) b.
Definition verify_fload_n : verify_fn := λ b, __verify_load J_FLOAT (opc b - OPC_FLOAD_0) b.
Definition verify_dload_n : verify_fn := λ b, __verify_load J_DOUBLE (opc b - OPC_DLOAD_0) b.
Definition verify_aload_n : verify_fn := λ b, __verify_load J_REFERENCE (opc b - OPC_ALOAD_0) b.

Definition __verify_store (t : vm_type) (idx : Z) : verify_fn := pop_vrf_op t ;;; store_vrf_lvar t idx ;;; done_.
Definition __verify_store_read_index (t : vm_type) : verify_fn := λ b,
  let* idx := lift (read_index b) in __verify_store t idx b.
Definition verify_istore : verify_fn := __verify_store_read_index J_INT.
Definition verify_lstore : verify_fn := __verify_store_read_index J_LONG.
Definition verify_fstore : verify_fn := __verify_store_read_index J_FLOAT.
Definition verify_dstore : verify_fn := __verify_store_read_index J_DOUBLE.
Definition verify_astore : verify_fn := __verify_store_read_index J_REFERENCE.
Definition verify_istore_n : verify_fn := λ b, __verify_store J_INT (opc b - OPC_ISTORE_0) b.
Definition verify_lstore_n : verify_fn := λ b, __verify_store J_LONG (opc b - OPC_LSTORE_0) b.
Definition verify_fstore_n : verify_fn := λ b, __verify_store J_FLOAT (opc b - OPC_FSTORE_0) b.
Definition verify_dstore_n : verify_fn := λ b, __verify_store J_DOUBLE (opc b - OPC_DSTORE_0) b.
Definition verify_astore_n : verify_fn := λ b, __verify_store J_REFERENCE (opc b - OPC_ASTORE_0) b.
Definition verify_nop : verify_fn := done_.
Definition verify_getstatic : verify_fn := not_implemented.
Definition verify_putstatic : verify_fn := not_implemented.
Definition verify_getfield : verify_fn := not_implemented.
Definition verify_putfield : verify_fn := not_implemented.

Definition __verify_xaload (t : vm_type) : verify_fn := pop_vrf_op J_INT ;;; pop_vrf_op J_REFERENCE ;;; push_vrf_op t ;;; done_.
Definition verify_iaload : verify_fn := __verify_xaload J_INT.
Definition verify_laload : verify_fn := __verify_xaload J_LONG.
Definition verify_faload : verify_fn := __verify_xaload J_FLOAT.
Definition verify_daload : verify_fn := __verify_xaload J_DOUBLE.
Definition verify_aaload : verify_fn := __verify_xaload J_REFERENCE.
Definition verify_baload : verify_fn := __verify_xaload J_BYTE.
Definition verify_caload : verify_fn := __verify_xaload J_CHAR.
Definition verify_saload : verify_fn := __verify_xaload J_SHORT.

Definition __verify_xastore (t : vm_type) : verify_fn := pop_vrf_op t ;;; pop_vrf_op J_INT ;;; pop_vrf_op J_REFERENCE ;;; done_.
Definition verify_iastore : verify_fn := __verify_xastore J_INT.
Definition verify_lastore : verify_fn := __verify_xastore J_LONG.
Definition verify_fastore : verify_fn := __verify_xastore J_FLOAT.
Definition verify_dastore : verify_fn := __verify_xastore J_DOUBLE.
Definition verify_aastore : verify_fn := __verify_xastore J_REFERENCE.
Definition verify_bastore : verify_fn := __verify_xastore J_BYTE.
Definition verify_castore : verify_fn := __verify_xastore J_CHAR.
Definition verify_sastore : verify_fn := __verify_xastore J_SHORT.
Definition verify_new : verify_fn := push_vrf_op J_REFERENCE.
Definition verify_newarray : verify_fn := pop_vrf_op J_INT ;;; λ b,
  let* t := lift (read_vm_type b) in
  match t with
  | inl e => ret (e, b)
  | inr t => (push_vrf_op t ;;; done_) b
  end.
Definition verify_anewarray : verify_fn := not_implemented.
Definition verify_multianewarray : verify_fn := not_implemented.
Definition verify_arraylength : verify_fn := pop_vrf_op J_REFERENCE ;;; push_vrf_op J_INT ;;; done_.
Definition verify_instanceof : verify_fn := not_implemented.
Definition verify_checkcast : verify_fn := not_implemented.
Definition verify_monitorenter : verify_fn := pop_vrf_op J_REFERENCE.
Definition verify_monitorexit : verify_fn := pop_vrf_op J_REFERENCE.
Definition verify_pop : verify_fn := not_implemented.
Definition verify_pop2 : verify_fn := not_implemented.
Definition verify_dup : verify_fn := not_implemented.
Definition verify_dup_x1 : verify_fn := not_implemented.
Definition verify_dup_x2 : verify_fn := not_implemented.
Definition verify_dup2 : verify_fn := not_implemented.
Definition verify_dup2_x1 : verify_fn := not_implemented.
Definition verify_dup2_x2 : verify_fn := not_implemented.
Definition verify_swap : verify_fn := not_implemented.
Definition verify_tableswitch : verify_fn := not_implemented.
Definition verify_lookupswitch : verify_fn := not_implemented.

Definition __verify_x2x (from to : vm_type) : verify_fn := pop_vrf_op from ;;; push_vrf_op to ;;; done_.
Definition verify_i2l : verify_fn := __verify_x2x J_INT J_LONG.
Definition verify_i2f : verify_fn := __verify_x2x J_INT J_FLOAT.
Definition verify_i2d : verify_fn := __verify_x2x J_INT J_DOUBLE.
Definition verify_l2i : verify_fn := __verify_x2x J_LONG J_INT.
Definition verify_l2f : verify_fn := __verify_x2x J_LONG J_FLOAT.
Definition verify_l2d : verify_fn := __verify_x2x J_LONG J_DOUBLE.
Definition verify_f2i : verify_fn := __verify_x2x J_FLOAT J_INT.
Definition verify_f2l : verify_fn := __verify_x2x J_FLOAT J_LONG.
Definition verify_f2d : verify_fn := __verify_x2x J_FLOAT J_DOUBLE.
Definition verify_d2i : verify_fn := __verify_x2x J_DOUBLE J_INT.
Definition verify_d2l : verify_fn := __verify_x2x J_DOUBLE J_LONG.
Definition verify_d2f : verify_fn := __verify_x2x J_DOUBLE J_FLOAT.
Definition verify_i2b : verify_fn := __verify_x2x J_INT J_BYTE.
Definition verify_i2c : verify_fn := __verify_x2x J_INT J_CHAR.
Definition verify_i2s : verify_fn := __verify_x2x J_INT J_SHORT.
Definition verify_wide : verify_fn := λ b, ret (E_TYPE_CHECKING, b).

(** The table of vm/verifier.c, from vm/bytecode-def.h. *)
Definition verifiers : list (option verify_fn) :=
  [Some verify_nop; Some verify_aconst_null; Some verify_iconst_n; Some verify_iconst_n;
   Some verify_iconst_n; Some verify_iconst_n; Some verify_iconst_n; Some verify_iconst_n;
   Some verify_iconst_n; Some verify_lconst_n; Some verify_lconst_n; Some verify_fconst_n;
   Some verify_fconst_n; Some verify_fconst_n; Some verify_dconst_n; Some verify_dconst_n;
   Some verify_bipush; Some verify_sipush; Some verify_ldc; Some verify_ldc_w;
   Some verify_ldc2_w; Some verify_iload; Some verify_lload; Some verify_fload;
   Some verify_dload; Some verify_aload; Some verify_iload_n; Some verify_iload_n;
   Some verify_iload_n; Some verify_iload_n; Some verify_lload_n; Some verify_lload_n;
   Some verify_lload_n; Some verify_lload_n; Some verify_fload_n; Some verify_fload_n;
   Some verify_fload_n; Some verify_fload_n; Some verify_dload_n; Some verify_dload_n;
   Some verify_dload_n; Some verify_dload_n; Some verify_aload_n; Some verify_aload_n;
   Some verify_aload_n; Some verify_aload_n; Some verify_iaload; Some verify_laload;
   Some verify_faload; Some verify_daload; Some verify_aaload; Some verify_baload;
   Some verify_caload; Some verify_saload; Some verify_istore; Some verify_lstore;
   Some verify_fstore; Some verify_dstore; Some verify_astore; Some verify_istore_n;
   Some verify_istore_n; Some verify_istore_n; Some verify_istore_n; Some verify_lstore_n;
   Some verify_lstore_n; Some verify_lstore_n; Some verify_lstore_n; Some verify_fstore_n;
   Some verify_fstore_n; Some verify_fstore_n; Some verify_fstore_n; Some verify_dstore_n;
   Some verify_dstore_n; Some verify_dstore_n; Some verify_dstore_n; Some verify_astore_n;
   Some verify_astore_n; Some verify_astore_n; Some verify_astore_n; Some verify_iastore;
   Some verify_lastore; Some verify_fastore; Some verify_dastore; Some verify_aastore;
   Some verify_bastore; Some verify_castore; Some verify_sastore; Some verify_pop;
   Some verify_pop2; Some verify_dup; Some verify_dup_x1; Some verify_dup_x2;
   Some verify_dup2; Some verify_dup2_x1; Some verify_dup2_x2; Some verify_swap;
   Some verify_iadd; Some verify_ladd; Some verify_fadd; Some verify_dadd;
   Some verify_isub; Some verify_lsub; Some verify_fsub; Some verify_dsub;
   Some verify_imul; Some verify_lmul; Some verify_fmul; Some verify_dmul;
   Some verify_idiv; Some verify_ldiv; Some verify_fdiv; Some verify_ddiv;
   Some verify_irem; Some verify_lrem; Some verify_frem; Some verify_drem;
   Some verify_ineg; Some verify_lneg; Some verify_fneg; Some verify_dneg;
   Some verify_ishl; Some verify_lshl; Some verify_ishr; Some verify_lshr;
   Some verify_iushr; Some verify_lushr; Some verify_iand; Some verify_land;
   Some verify_ior; Some verify_lor; Some verify_ixor; Some verify_lxor;
   Some verify_iinc; Some verify_i2l; Some verify_i2f; Some verify_i2d;
   Some verify_l2i; Some verify_l2f; Some verify_l2d; Some verify_f2i;
   Some verify_f2l; Some verify_f2d; Some verify_d2i; Some verify_d2l;
   Some verify_d2f; Some verify_i2b; Some verify_i2c; Some verify_i2s;
   Some verify_lcmp; Some verify_fcmpl; Some verify_fcmpg; Some verify_dcmpl;
   Some verify_dcmpg; Some verify_ifeq; Some verify_ifne; Some verify_iflt;
   Some verify_ifge; Some verify_ifgt; Some verify_ifle; Some verify_if_icmpeq;
   Some verify_if_icmpne; Some verify_if_icmplt; Some verify_if_icmpge; Some verify_if_icmpgt;
   Some verify_if_icmple; Some verify_if_acmpeq; Some verify_if_acmpne; Some verify_goto;
   Some verify_jsr; Some verify_ret; Some verify_tableswitch; Some verify_lookupswitch;
   Some verify_ireturn; Some verify_lreturn; Some verify_freturn; Some verify_dreturn;
   Some verify_areturn; Some verify_return; Some verify_getstatic; Some verify_putstatic;
   Some verify_getfield; Some verify_putfield; Some verify_invokevirtual; Some verify_invokespecial;
   Some verify_invokestatic; Some verify_invokeinterface; None; Some verify_new;
   Some verify_newarray; Some verify_anewarray; Some verify_arraylength; Some verify_athrow;
   Some verify_checkcast; Some verify_instanceof; Some verify_monitorenter; Some verify_monitorexit;
   Some verify_wide; Some verify_multianewarray; Some verify_ifnull; Some verify_ifnonnull;
   Some verify_goto; Some verify_jsr].

Definition EINVAL : Z := 22.

Definition verify_instruction : verify_fn := λ b,
  let set_opc b opc wide pc := VBlock (begin_offset b) (initial_state b) (final_state b) (bcode b) pc opc wide in
  let* o := lift (read_u8 (bcode b) (block_pos b 0)) in
  let* b := (if decide (o = OPC_WIDE)
             then let* o1 := lift (read_u8 (bcode b) (block_pos b 1)) in ret (set_opc b o1 true (bpc b + 1))
             else ret (set_opc b o false (bpc b))) in
  match verifiers !! Z.to_nat (opc b) with
  | Some (Some verify) => verify b
  | _ => ret (- EINVAL, b)
  end.
End ops.
#[global] Infix ";;;" := then_ (at level 60, right associativity).
