(* ===== verification/VerifierPass.v ===== *)
(** * vm/verifier.c: what the pass over the code accepts

    The code of a method is accepted exactly when it is a sequence of complete
    instructions whose branch targets and exception handlers are the starts of
    instructions, whose variables and constants are in range and of the right kind,
    and that does not run off its end ([code_valid], in terms of JavaCode), apart from
    what the pass does not look at ([target_unchecked], [local_unchecked],
    [handler_unchecked]) and the ends it refuses ([end_refused]).  [accepts] says the
    same in terms of the functions of the code and carries the proofs. *)

From Stdlib Require Import String.
From S2P Require Import Prelude Opcodes Bytecode JavaCode CMonad Bitset SetInterface ConstantPool AttributeInfo ClassFile Attributes Types Verifier.
#[local] Open Scope Z_scope.

(** ** Computations that may be undefined *)

(** Like [wp]; [U] says what undefined behaviour implies. *)
Definition wpu {A} (m : M mem unit A) (Q : A → Prop) (U : Prop) (h : mem) : Prop :=
  match m h with Done a _ => Q a | Fail _ _ => False | Undef => U end.

Lemma wpu_seq {A B} (m : M mem unit A) (f : A → M mem unit B) Q' U' Q U h :
  wpu m Q' U' h → (∀ a h', Q' a → wpu (f a) Q U h') → (U' → U) → wpu (bind m f) Q U h.
Proof. unfold wpu, bind. destruct (m h) as [a h1|e h1|]; [intros Hq Hf _; by apply Hf|done|auto]. Qed.
Lemma wpu_mono {A} (m : M mem unit A) (Q Q' : A → Prop) (U U' : Prop) h :
  wpu m Q U h → (∀ a, Q a → Q' a) → (U → U') → wpu m Q' U' h.
Proof. unfold wpu. destruct (m h); auto. Qed.
Lemma wpu_ret {A} (a : A) (Q : A → Prop) U h : Q a → wpu (ret a) Q U h.
Proof. done. Qed.
Lemma wpu_lift {A} (o : option A) (Q : A → Prop) (U : Prop) h :
  (∀ a, o = Some a → Q a) → (o = None → U) → wpu (lift o) Q U h.
Proof. destruct o; cbn; auto. Qed.
Lemma wpu_lift_bind {A B} (o : option A) (f : A → M mem unit B) Q U h :
  (∀ a, o = Some a → wpu (f a) Q U h) → (o = None → U) → wpu (bind (lift o) f) Q U h.
Proof. intros H1 H2. destruct o; [exact (H1 _ eq_refl)|exact (H2 eq_refl)]. Qed.

(** ** What the pass looks at *)

(** The places of the instructions of these sizes from [pc] on. *)
Fixpoint starts (pc : Z) (ns : list Z) : list Z :=
  match ns with [] => [] | n :: ns' => pc :: starts (pc + n) ns' end.

Section spec.
Context (vrf : verifier_context).
#[local] Abbreviation code := (vrf_code vrf).
#[local] Abbreviation code_size := (vrf_code_size vrf).

(** The targets of a branch that are checked: of a tableswitch all but the last, and none
    when the code starts with a return from a subroutine. *)
Definition checked_targets (pc : Z) : option (list Z) :=
  opc ← rd code pc;
  branch ← bc_is_branch opc;
  if (branch : bool) then
    is_ret ← bc_is_ret code 0;
    if (is_ret : bool) then Some [] else
    let p := pc + 1 + get_tableswitch_padding pc in
    if decide (opc = OPC_TABLESWITCH) then
      def ← read_s32 code p;
      low ← read_s32 code (p + 4);
      high ← read_s32 code (p + 8);
      ts ← targets_at code pc (p + 12) 4 (Z.to_nat (high - low));
      Some (pc + def :: ts)
    else if decide (opc = OPC_LOOKUPSWITCH) then
      def ← read_s32 code p;
      npairs ← read_s32 code (p + 4);
      ts ← targets_at code pc (p + 8 + 4) 8 (Z.to_nat npairs);
      Some (pc + def :: ts)
    else off ← bc_target_off code pc; Some [pc + off]
  else Some [].

Definition ldc_index (opc pc : Z) : option Z :=
  if decide (opc = OPC_LDC) then read_u8 code (pc + 1) else read_u16 code (pc + 1).
Definition pool : list (option cafebabe_constant_pool) := constant_pool (vmc_class (vmm_class (vrf_method vrf))).
Definition pool_count : Z := constant_pool_count (vmc_class (vmm_class (vrf_method vrf))).

Record insn_ok (pc : Z) : Prop := {
  io_targets : ∃ ts, checked_targets pc = Some ts ∧ Forall (λ t, 0 <= t < code_size) ts;
  io_local opc : rd code pc = Some opc → bc_uses_local_var opc = Some true →
    ∃ index, get_local_var_index code pc = Some index ∧ index < vrf_max_locals vrf;
  io_ldc opc : rd code pc = Some opc → bc_is_ldc opc = true →
    ∃ index cp, ldc_index opc pc = Some index ∧ index < pool_count ∧
      pool !! Z.to_nat index = Some (Some cp) ∧ cp_tag cp ∈ ldc_tags opc;
}.

(** The entries of the exception table that are checked: all but the last, or the only
    one. *)
Definition checked_exceptions (ca : cafebabe_code_attribute) : list cafebabe_code_attribute_exception :=
  take (Z.to_nat (Z.max 1 (exception_table_length ca - 1))) (exception_table ca).

Record accepts_as (ns : list Z) : Prop := {
  ac_insns : insns code 0 ns;
  ac_ok : Forall insn_ok (starts 0 ns);
  ac_targets pc ts t : pc ∈ starts 0 ns → checked_targets pc = Some ts → t ∈ ts → t ∈ starts 0 ns;
  ac_exceptions : exception_table_length (code_attribute (vrf_method vrf)) ≠ 0 →
    ∀ ex, ex ∈ checked_exceptions (code_attribute (vrf_method vrf)) →
      start_pc ex <= end_pc ex <= code_length (code_attribute (vrf_method vrf)) ∧ handler_pc ex ∈ starts 0 ns;
  ac_end : ∃ ss pc, starts 0 ns = ss ++ [pc] ∧ bc_is_unconditionnal_branch code pc = Some true;
}.
Definition accepts : Prop := ∃ ns, accepts_as ns.
End spec.

(** ** Jump destinations *)

(** An error, and not the one that is taken for success. *)
Definition is_err (e : Z) : Prop := e ≠ 0 ∧ e ≠ E_NOT_IMPLEMENTED.

Section dests.
Context `{Allocator}.
#[local] Abbreviation memory_suffices := (∀ k size, malloc_ok k size = true).

Lemma alloc_dest_wpu d (f : option Z → M mem unit (Z * list Z)) Q U h :
  (∀ h', wpu (f (Some d)) Q U h') → (∀ h', ¬ memory_suffices → wpu (f None) Q U h') →
  wpu (bind (alloc_verifier_jump_destinations d) f) Q U h.
Proof.
  intros Hs Hn. unfold alloc_verifier_jump_destinations, malloc, wpu, bind, mem_malloc, ret.
  destruct (malloc_ok (m_next h) 24) eqn:E; cbn; [apply Hs|apply Hn]. intros Hm. by rewrite Hm in E.
Qed.

Lemma add_jump_destination_wpu jd d h :
  wpu (add_jump_destination jd d)
    (λ r, (r.1 = 0 ∧ ∀ x, x ∈ r.2 ↔ x ∈ jd ∨ x = d) ∨ (is_err r.1 ∧ ¬ memory_suffices)) False h.
Proof.
  revert h. induction jd as [|c jd IH]; intros h; cbn [add_jump_destination].
  - apply alloc_dest_wpu; intros h'; [|intros Hm; right; by split].
    apply wpu_ret. left. split; [done|]. intros x. cbn. rewrite list_elem_of_singleton, elem_of_nil. tauto.
  - case_decide as Hlt; [|case_decide as He].
    + eapply wpu_seq; [apply IH| |done]. cbv beta. intros r h' [[E Hr]|[E Hm]]; apply wpu_ret; [left|by right].
      split; [done|]. intros x. cbn. rewrite !elem_of_cons, Hr. tauto.
    + apply wpu_ret. left. split; [done|]. subst d. intros x. cbn. rewrite elem_of_cons. naive_solver.
    + apply alloc_dest_wpu; intros h'; [|intros Hm; right; by split].
      apply wpu_ret. left. split; [done|]. intros x. cbn. rewrite !elem_of_cons. tauto.
Qed.

Context (code_size : Z).
Context (Hsize : 0 < code_size < 2 ^ 31).
#[local] Abbreviation valid := (Forall (λ t, 0 <= t < code_size)).

(** Either all of the targets [ts] are in the code and recorded, or there is an error. *)
Definition dest_post (jd ts : list Z) (r : Z * list Z) : Prop :=
  (r.1 = 0 ∧ valid ts ∧ ∀ x, x ∈ r.2 ↔ x ∈ jd ∨ x ∈ ts) ∨ (is_err r.1 ∧ (memory_suffices → ¬ valid ts)).

Lemma add_dest_wpu jd base off h : 0 <= base < code_size → - 2 ^ 31 <= off < 2 ^ 31 →
  wpu (add_dest jd base off code_size) (dest_post jd [base + off]) False h.
Proof.
  intros Hb Ho. unfold add_dest, valid_dest.
  destruct (decide (base + off < 0)) as [Hneg|Hneg].
  { apply wpu_ret. right. split; [done|]. intros _ Hv%Forall_cons_1. lia. }
  rewrite u64_id by clia. destruct (decide (code_size <= base + off)) as [Hbig|Hbig].
  { apply wpu_ret. right. split; [done|]. intros _ Hv%Forall_cons_1. lia. }
  cbn. eapply wpu_mono; [apply add_jump_destination_wpu| |done]. intros r [[E Hr]|[E Hm]].
  - left. split; [done|]. split; [by repeat constructor; lia|]. intros x. by rewrite Hr, list_elem_of_singleton.
  - right. split; [done|]. intros Hm'. by destruct Hm.
Qed.

Lemma dest_post_app jd ts1 ts2 r1 r2 :
  dest_post jd ts1 r1 → r1.1 = 0 → dest_post r1.2 ts2 r2 → dest_post jd (ts1 ++ ts2) r2.
Proof.
  intros [(_ & V1 & D1)|[[? _] _]] E1; [|done]. intros [(E2 & V2 & D2)|[E2 N2]]; [left|right].
  - split_and!; [done|by apply Forall_app|]. intros x. rewrite D2, D1, elem_of_app. tauto.
  - split; [done|]. intros Hm [_ Hv]%Forall_app. by apply N2.
Qed.
Lemma dest_post_error jd ts1 ts2 r : dest_post jd ts1 r → r.1 ≠ 0 → dest_post jd (ts1 ++ ts2) r.
Proof. intros [[? _]|[He N]] E; [done|]. right. split; [done|]. intros Hm [Hv _]%Forall_app. by apply N. Qed.
End dests.

(** ** One instruction *)

(** What the table says of the opcodes. *)
Definition opcode_facts (n : nat) : bool :=
  let o := Z.of_nat n in
  match bytecode_info_of o, bc_is_branch o, bc_is_wide o, bc_uses_local_var o with
  | Some i, Some branch, Some wide, Some local =>
    let switch := bool_decide (o = OPC_TABLESWITCH ∨ o = OPC_LOOKUPSWITCH) in
    implb switch branch &&
    implb (branch && negb switch) (bool_decide (o ≠ OPC_WIDE ∧ bi_size i = if wide then 5 else 3)) &&
    implb branch (negb local && negb (bc_is_ldc o)) &&
    implb local (negb (bc_is_ldc o) &&
      bool_decide (o ≠ OPC_WIDE ∧ (OPC_ILOAD_0 <= o < OPC_IALOAD ∨ OPC_ISTORE_0 <= o < OPC_IASTORE ∨ bi_size i = 2))) &&
    implb (bc_is_ldc o) (bool_decide (o ≠ OPC_WIDE ∧ bi_size i = if decide (o = OPC_LDC) then 2 else 3))
  | None, None, None, None => true
  | _, _, _, _ => false
  end.
Lemma opcodes_facts opc i : 0 <= opc → bytecode_info_of opc = Some i → opcode_facts (Z.to_nat opc) = true.
Proof.
  intros H0 E. assert (forallb opcode_facts (seq 0 202) = true) as Hall by (by vm_compute).
  rewrite forallb_forall in Hall. apply Hall, in_seq. apply lookup_lt_Some in E. rewrite bytecode_infos_length in E. lia.
Qed.

Lemma opcode_kinds opc i : 0 <= opc → bytecode_info_of opc = Some i →
  ∃ branch wide local, bc_is_branch opc = Some branch ∧ bc_is_wide opc = Some wide ∧ bc_uses_local_var opc = Some local ∧
    (opc = OPC_TABLESWITCH ∨ opc = OPC_LOOKUPSWITCH → branch = true) ∧
    (branch = true → opc ≠ OPC_TABLESWITCH → opc ≠ OPC_LOOKUPSWITCH → opc ≠ OPC_WIDE ∧ bi_size i = if wide then 5 else 3) ∧
    (branch = true → local = false ∧ bc_is_ldc opc = false) ∧
    (local = true → bc_is_ldc opc = false ∧ opc ≠ OPC_WIDE ∧
      (OPC_ILOAD_0 <= opc < OPC_IALOAD ∨ OPC_ISTORE_0 <= opc < OPC_IASTORE ∨ bi_size i = 2)) ∧
    (bc_is_ldc opc = true → opc ≠ OPC_WIDE ∧ bi_size i = if decide (opc = OPC_LDC) then 2 else 3).
Proof.
  intros H0 E. pose proof (opcodes_facts opc i H0 E) as Hf. unfold opcode_facts in Hf. rewrite Z2Nat.id, E in Hf by done.
  destruct (bc_is_branch opc) as [branch|]; [|done]. destruct (bc_is_wide opc) as [wide|]; [|done].
  destruct (bc_uses_local_var opc) as [local|]; [|done]. exists branch, wide, local.
  rewrite !andb_true_iff, !implb_true_iff in Hf. destruct Hf as [[[[F1 F2] F3] F4] F5].
  split_and!; [done..| | | | |].
  - intros Hs. apply F1, bool_decide_eq_true. done.
  - intros -> Ht Hl. rewrite bool_decide_eq_false_2 in F2 by tauto. by specialize (F2 eq_refl) as ?%bool_decide_eq_true_1.
  - intros ->. specialize (F3 eq_refl). apply andb_true_iff in F3 as [?%negb_true_iff ?%negb_true_iff]. done.
  - intros ->. specialize (F4 eq_refl). by apply andb_true_iff in F4 as [?%negb_true_iff ?%bool_decide_eq_true_1].
  - intros Hl. by specialize (F5 Hl) as ?%bool_decide_eq_true_1.
Qed.

Section pass.
Context `{Allocator} (vrf : verifier_context).
#[local] Abbreviation memory_suffices := (∀ k size, malloc_ok k size = true).
#[local] Abbreviation code := (vrf_code vrf).
#[local] Abbreviation code_size := (vrf_code_size vrf).
Context (Hcode : Forall is_u8 code) (Hlen : code_size = Z.of_nat (length code)) (Hsize : 0 < code_size < 2 ^ 31).

Lemma read_s32_in p : 0 <= p → p + 4 <= code_size → ∃ x, read_s32 code p = Some x ∧ - 2 ^ 31 <= x < 2 ^ 31.
Proof using Hcode Hlen.
  intros H0 Hp. destruct (read_u32_in code Hcode p) as (x & E & Hx); [lia..|]. unfold read_s32. rewrite E.
  exists (s32 x). split; [done|]. apply (s32_cases code x Hx).
Qed.
Lemma read_u16_in p : 0 <= p → p + 2 <= code_size → ∃ x, read_u16 code p = Some x.
Proof using Hcode Hlen.
  intros H0 Hp. unfold read_u16, read_u8.
  destruct (rd_in code Hcode (p + 0)) as (b0 & -> & _); [lia|]. destruct (rd_in code Hcode (p + 1)) as (b1 & -> & _); [lia|].
  cbn. eauto.
Qed.

Lemma switch_loop_wpu n : ∀ fuel base step r pc jd h,
  0 <= base < code_size → 4 <= step <= 8 → 0 <= r < step → 0 <= pc →
  (n ≠ 0%nat → pc + step * (Z.of_nat n - 1) + 4 <= code_size) → (n < fuel)%nat →
  ∃ ts, targets_at code base pc step n = Some ts ∧
    wpu (switch_loop fuel code base code_size step pc (pc + step * Z.of_nat n - r) jd)
        (dest_post code_size jd ts) False h.
Proof using Hcode Hlen Hsize.
  induction n as [|n IH]; intros [|fuel] base step r pc jd h Hb Hs Hr Hpc Hin Hf; [lia| |lia|]; cbn [targets_at switch_loop].
  - exists []. split; [done|]. rewrite decide_False by lia. apply wpu_ret. left. split_and!; [done|constructor|].
    intros x. rewrite elem_of_nil. tauto.
  - destruct (read_s32_in pc) as (off & Eo & Ho); [lia|nia|]. rewrite Eo. cbn [mbind option_bind].
    destruct (IH fuel base step r (pc + step) jd h) as (ts & Et & _); [lia..|intros; nia|lia|]. rewrite Et. cbn [mbind option_bind].
    eexists. split; [done|]. rewrite decide_True by nia.
    apply wpu_lift_bind; [|done]. intros ? [= <-].
    eapply wpu_seq; [by apply add_dest_wpu| |done]. cbv beta. intros r1 h1 Hp1.
    change (base + off :: ts) with ([base + off] ++ ts). case_decide as E1.
    + apply wpu_ret. by apply dest_post_error.
    + rewrite u64_id by clia. destruct (IH fuel base step r (pc + step) r1.2 h1) as (ts' & Et' & Hw); [lia..|intros; nia|lia|].
      rewrite Et in Et'. injection Et' as <-.
      replace (pc + step * Z.of_nat (S n) - r) with (pc + step + step * Z.of_nat n - r) by lia.
      eapply wpu_mono; [exact Hw| |done]. intros r2 Hp2. exact (dest_post_app code_size Hsize jd [base + off] ts r1 r2 Hp1 E1 Hp2).
Qed.

Lemma tableswitch_wpu pc n jd h : 0 <= pc < code_size → rd code pc = Some OPC_TABLESWITCH →
  insn_length code pc = Some n → pc + n <= code_size →
  let p := pc + 1 + get_tableswitch_padding pc in
  ∃ ts, (def ← read_s32 code p; low ← read_s32 code (p + 4); high ← read_s32 code (p + 8);
         ts ← targets_at code pc (p + 12) 4 (Z.to_nat (high - low)); Some (pc + def :: ts)) = Some ts ∧
    wpu (add_tableswitch_destinations jd code pc code_size) (dest_post code_size jd ts) False h.
Proof using Hcode Hlen Hsize.
  intros Hpc Eo Hi Hn p. pose proof (padding_range code pc) as Hpad. unfold insn_length in Hi. rewrite Eo in Hi.
  cbn [mbind option_bind] in Hi. rewrite decide_True in Hi by done. fold p in Hi.
  destruct (read_s32 code (p + 4)) as [low|] eqn:El; [|done]. cbn [mbind option_bind] in Hi.
  destruct (read_s32 code (p + 8)) as [high|] eqn:Eh; [|done]. cbn [mbind option_bind] in Hi.
  case_decide as Hlh; [|done]. injection Hi as <-.
  destruct (read_s32_in p) as (def & Ed & Hd); [lia..|]. rewrite Ed. cbn [mbind option_bind].
  destruct (switch_loop_wpu (Z.to_nat (high - low)) (S (length code)) pc 4 0 (p + 12) jd h) as (ts & Et & _); [lia..|].
  rewrite Et. cbn [mbind option_bind]. eexists. split; [done|].
  unfold add_tableswitch_destinations. rewrite (u64_id (pc + _)) by clia.
  replace (pc + (1 + get_tableswitch_padding pc)) with p by lia. rewrite Ed, El, Eh. rewrite (u64_id (p + 12)) by clia.
  do 3 (apply wpu_lift_bind; [intros ? [= <-]|done]).
  eapply wpu_seq; [by apply add_dest_wpu| |done]. cbv beta. intros r1 h1 Hp1.
  change (pc + def :: ts) with ([pc + def] ++ ts). case_decide as E1; [apply wpu_ret; by apply dest_post_error|].
  rewrite int_id by lia. apply wpu_lift_bind; [intros ? [= <-]|done]. rewrite int_id by lia.
  apply wpu_lift_bind; [intros ? [= <-]|done].
  rewrite u64_id by clia. destruct (switch_loop_wpu (Z.to_nat (high - low)) (S (length code)) pc 4 0 (p + 12) r1.2 h1) as (ts' & Et' & Hw); [lia..|].
  rewrite Et in Et'. injection Et' as <-.
  replace ((high - low) * 4 + (p + 12)) with (p + 12 + 4 * Z.of_nat (Z.to_nat (high - low)) - 0) by lia.
  eapply wpu_mono; [exact Hw| |done]. intros r2 Hp2. exact (dest_post_app code_size Hsize jd [pc + def] ts r1 r2 Hp1 E1 Hp2).
Qed.

Lemma lookupswitch_wpu pc n jd h : 0 <= pc < code_size → rd code pc = Some OPC_LOOKUPSWITCH →
  insn_length code pc = Some n → pc + n <= code_size →
  let p := pc + 1 + get_tableswitch_padding pc in
  ∃ ts, (def ← read_s32 code p; npairs ← read_s32 code (p + 4);
         ts ← targets_at code pc (p + 8 + 4) 8 (Z.to_nat npairs); Some (pc + def :: ts)) = Some ts ∧
    wpu (add_lookupswitch_destinations jd code pc code_size) (dest_post code_size jd ts) False h.
Proof using Hcode Hlen Hsize.
  intros Hpc Eo Hi Hn p. pose proof (padding_range code pc) as Hpad. unfold insn_length in Hi. rewrite Eo in Hi.
  cbn [mbind option_bind] in Hi. rewrite decide_False, decide_True in Hi by done. fold p in Hi.
  destruct (read_s32 code (p + 4)) as [np|] eqn:En; [|done]. cbn [mbind option_bind] in Hi.
  case_decide as Hnp; [|done]. injection Hi as <-.
  destruct (read_s32_in p) as (def & Ed & Hd); [lia..|]. rewrite Ed. cbn [mbind option_bind].
  destruct (switch_loop_wpu (Z.to_nat np) (S (length code)) pc 8 4 (p + 8 + 4) jd h) as (ts & Et & _); [lia..|].
  rewrite Et. cbn [mbind option_bind]. eexists. split; [done|].
  unfold add_lookupswitch_destinations. rewrite (u64_id (pc + _)) by clia.
  replace (pc + (1 + get_tableswitch_padding pc)) with p by lia. rewrite Ed, En. rewrite (u64_id (p + 8)) by clia.
  do 2 (apply wpu_lift_bind; [intros ? [= <-]|done]).
  eapply wpu_seq; [by apply add_dest_wpu| |done]. cbv beta. intros r1 h1 Hp1.
  change (pc + def :: ts) with ([pc + def] ++ ts). case_decide as E1; [apply wpu_ret; by apply dest_post_error|].
  rewrite int_id by lia. apply wpu_lift_bind; [intros ? [= <-]|done]. rewrite int_id by lia.
  apply wpu_lift_bind; [intros ? [= <-]|done].
  rewrite !u64_id by clia. destruct (switch_loop_wpu (Z.to_nat np) (S (length code)) pc 8 4 (p + 8 + 4) r1.2 h1) as (ts' & Et' & Hw); [lia..|].
  rewrite Et in Et'. injection Et' as <-.
  replace (np * 4 * 2 + (p + 8)) with (p + 8 + 4 + 8 * Z.of_nat (Z.to_nat np) - 4) by lia.
  eapply wpu_mono; [exact Hw| |done]. intros r2 Hp2. exact (dest_post_app code_size Hsize jd [pc + def] ts r1 r2 Hp1 E1 Hp2).
Qed.

(** The tags of a constant. *)
Lemma verify_constant_tags_spec tags index : tags ≠ [] →
  match verify_constant_tags vrf tags index with
  | Some err => err = 0 ↔ ∃ cp, index < pool_count vrf ∧ pool vrf !! Z.to_nat index = Some (Some cp) ∧ cp_tag cp ∈ tags
  | None => index < pool_count vrf ∧ mjoin (pool vrf !! Z.to_nat index) = None
  end.
Proof using.
  intros Hne. unfold pool_count, pool. induction tags as [|tag tags IH]; [done|]. cbn [verify_constant_tags]. unfold verify_constant_tag at 1.
  case_decide as Hc; cbn [mbind option_bind].
  { destruct tags as [|tag' tags]; [|rewrite decide_False by done].
    - split; [done|]. intros (cp & ? & _). lia.
    - specialize (IH ltac:(done)). destruct (verify_constant_tags _ _ _); [|lia]. rewrite IH. split; intros (cp & ? & _); lia. }
  destruct (mjoin (constant_pool _ !! _)) as [cp|] eqn:Ej; cbn [mbind option_bind]; [|split; [lia|done]].
  destruct (constant_pool _ !! _) as [[cp'|]|] eqn:Ep; cbn in Ej; [|done..]. injection Ej as ->.
  destruct tags as [|tag' tags].
  - case_decide as Ht; [split; [done|]|split; [|done]]; rewrite ?Ep.
    + intros (cp' & _ & [= <-] & Hin%list_elem_of_singleton). done.
    + intros _. exists cp. split_and!; [lia|done|]. by apply list_elem_of_singleton.
  - destruct (decide (cp_tag cp ≠ tag)) as [Ht|Ht%dec_stable]; [rewrite decide_False by done|rewrite decide_True by done].
    + specialize (IH ltac:(done)). destruct (verify_constant_tags _ _ _); [|by destruct IH].
      rewrite IH. split; intros (cp' & ? & [= <-] & Hin); exists cp; split_and!; try done; [by right|].
      apply elem_of_cons in Hin as [?|?]; [by destruct Ht|done].
    + split; [|done]. intros _. exists cp. split_and!; [lia|done|]. apply elem_of_cons. by left.
Qed.

Lemma verify_constant_tags_err tags index err : verify_constant_tags vrf tags index = Some err → err = 0 ∨ is_err err.
Proof using.
  induction tags as [|tag tags IH]; cbn; [intros [= <-]; by left|].
  destruct (verify_constant_tag vrf tag index) as [e|] eqn:E; cbn; [|done].
  assert (e = 0 ∨ is_err e) as He.
  { unfold verify_constant_tag in E. case_decide; [injection E as <-; by right|]. destruct (mjoin _); [|done]. cbn in E. injection E as <-.
    case_decide; [by right|by left]. }
  destruct tags; [by intros [= <-]|]. case_decide; [intros [= <-]; by left|done].
Qed.

Lemma insn_info pc n : insn_length code pc = Some n →
  ∃ opc i, rd code pc = Some opc ∧ 0 <= opc ∧ bytecode_info_of opc = Some i ∧
    (opc ≠ OPC_TABLESWITCH → opc ≠ OPC_LOOKUPSWITCH → opc ≠ OPC_WIDE → n = bi_size i).
Proof using Hcode.
  unfold insn_length. destruct (rd code pc) as [opc|] eqn:Eo; [|done]. cbn [mbind option_bind].
  destruct (rd_byte code Hcode _ _ Eo) as [Hu _]. intros Hi. exists opc.
  repeat (case_decide; [subst opc; eexists; split_and!; [done|clia|reflexivity|done]|]).
  destruct (bytecode_info_of opc) as [i|]; [|done]. exists i. split_and!; [done|clia|done|]. cbn in Hi. intros _ _ _.
  case_decide; congruence.
Qed.

Lemma wide_next pc n : insn_length code pc = Some n → rd code pc = Some OPC_WIDE → ∃ o, rd code (pc + 1) = Some o.
Proof using.
  unfold insn_length. intros Hi E. rewrite E in Hi. cbn [mbind option_bind] in Hi. rewrite 2!decide_False, decide_True in Hi by done.
  destruct (rd code (pc + 1)); [eauto|done].
Qed.

Lemma switch_length pc n : insn_length code pc = Some n →
  rd code pc = Some OPC_TABLESWITCH ∨ rd code pc = Some OPC_LOOKUPSWITCH → 9 <= n.
Proof using.
  unfold insn_length. pose proof (padding_range code pc) as Hpad. intros Hi [E|E]; rewrite E in Hi; cbn [mbind option_bind] in Hi.
  - rewrite decide_True in Hi by done.
    destruct (read_s32 code (pc + 1 + get_tableswitch_padding pc + 4)) as [low|]; cbn [mbind option_bind] in Hi; [|done].
    destruct (read_s32 code (pc + 1 + get_tableswitch_padding pc + 8)) as [high|]; cbn [mbind option_bind] in Hi; [|done].
    case_decide; [|done]. injection Hi as <-. lia.
  - rewrite decide_False, decide_True in Hi by done.
    destruct (read_s32 code (pc + 1 + get_tableswitch_padding pc + 4)) as [np|]; cbn [mbind option_bind] in Hi; [|done].
    case_decide; [|done]. injection Hi as <-. lia.
Qed.

(** A constant whose entry of the pool is not set. *)
Definition const_gap (pc : Z) : Prop :=
  ∃ opc index, rd code pc = Some opc ∧ bc_is_ldc opc = true ∧ ldc_index vrf opc pc = Some index ∧
    index < pool_count vrf ∧ mjoin (pool vrf !! Z.to_nat index) = None.

Definition check_post (jd : list Z) (pc : Z) (r : Z * list Z) : Prop :=
  (r.1 = 0 ∧ insn_ok vrf pc ∧ ∃ ts, checked_targets vrf pc = Some ts ∧ ∀ x, x ∈ r.2 ↔ x ∈ jd ∨ x ∈ ts) ∨
  (is_err r.1 ∧ (memory_suffices → ¬ insn_ok vrf pc)).

(** The instruction is a branch. *)
Lemma branch_post jd pc opc ts r : rd code pc = Some opc → bc_uses_local_var opc = Some false → bc_is_ldc opc = false →
  checked_targets vrf pc = Some ts → dest_post code_size jd ts r → check_post jd pc r.
Proof using.
  intros Eo El Ec Et [(E & Hv & Hd)|[E Hv]]; [left|right].
  - split; [done|]. split; [|eauto]. constructor; [eauto|..]; intros o Eo'; rewrite Eo in Eo'; injection Eo' as <-; congruence.
  - split; [done|]. intros Hm [(ts' & Et' & Hv') _ _]. rewrite Et in Et'. injection Et' as <-. by apply Hv.
Qed.

(** It is not: no destinations are added. *)
Lemma other_post jd pc opc err : rd code pc = Some opc → bc_is_branch opc = Some false → err = 0 ∨ is_err err →
  (err = 0 ↔ (∀ o, rd code pc = Some o → bc_uses_local_var o = Some true →
                ∃ index, get_local_var_index code pc = Some index ∧ index < vrf_max_locals vrf) ∧
             (∀ o, rd code pc = Some o → bc_is_ldc o = true →
                ∃ index cp, ldc_index vrf o pc = Some index ∧ index < pool_count vrf ∧
                  pool vrf !! Z.to_nat index = Some (Some cp) ∧ cp_tag cp ∈ ldc_tags o)) →
  check_post jd pc (err, jd).
Proof using Hcode Hlen Hsize.
  intros Eo Eb Hor Herr. assert (checked_targets vrf pc = Some []) as Et
    by (unfold checked_targets; rewrite Eo; cbn; by rewrite Eb).
  destruct Hor as [E|E]; [left|right].
  - split; [done|]. apply Herr in E as [Hl Hc]. split; [constructor; eauto|]. exists []. split; [done|]. intros x. cbn. rewrite elem_of_nil. tauto.
  - split; [done|]. intros _ [_ Hl Hc]. destruct E as [E _]. by apply E, Herr.
Qed.

Lemma get_local_var_index_in pc opc i : rd code pc = Some opc → pc + bi_size i <= code_size →
  OPC_ILOAD_0 <= opc < OPC_IALOAD ∨ OPC_ISTORE_0 <= opc < OPC_IASTORE ∨ bi_size i = 2 →
  ∃ index, get_local_var_index code pc = Some index.
Proof using Hcode Hlen.
  intros Eo Hn Hor. unfold get_local_var_index. rewrite Eo. cbn [mbind option_bind].
  unfold OPC_ILOAD_0, OPC_LLOAD_0, OPC_FLOAD_0, OPC_DLOAD_0, OPC_ALOAD_0, OPC_IALOAD, OPC_ISTORE_0, OPC_LSTORE_0, OPC_FSTORE_0,
    OPC_DSTORE_0, OPC_ASTORE_0, OPC_IASTORE in *.
  repeat (case_decide; [by eauto|]). destruct (rd_byte code Hcode _ _ Eo) as [_ Hr].
  destruct (rd_in code Hcode (pc + 1)) as (b & E & _); [lia|]. unfold read_u8. eauto.
Qed.

Lemma ldc_tags_some opc : ldc_tags opc ≠ [].
Proof using. unfold ldc_tags. by case_decide. Qed.

Lemma check_branch_wpu pc n opc jd h : 0 <= pc < code_size → insn_length code pc = Some n → pc + n <= code_size →
  rd code pc = Some opc → bc_is_branch opc = Some true →
  wpu (check_insn vrf jd pc) (check_post jd pc) (¬ insn_ok vrf pc ∧ const_gap pc) h.
Proof using Hcode Hlen Hsize.
  intros Hpc Hi Hn Eo Eb. destruct (insn_info pc n Hi) as (opc' & i & Eo' & H0 & Ei & Hni). rewrite Eo in Eo'. injection Eo' as <-.
  destruct (opcode_kinds opc i H0 Ei) as (branch & wide & local & Eb' & Ew & El & Fs & Fb & Fx & Fl & Fc).
  rewrite Eb in Eb'. injection Eb' as <-.
  unfold check_insn. rewrite Eo. apply wpu_lift_bind; [intros ? [= <-]|done].
  rewrite Eb. apply wpu_lift_bind; [intros ? [= <-]|done].
  assert (checked_targets vrf pc = _) as Et by (unfold checked_targets; rewrite Eo; cbn; by rewrite Eb). cbn [mbind option_bind] in Et.
  destruct (Fx eq_refl) as [-> Ec].
  assert (∃ b, bc_is_ret code 0 = Some b) as [is_ret Er].
  { unfold bc_is_ret. destruct (rd_in code Hcode 0) as (o0 & E0 & _); [lia|]. rewrite E0. cbn [mbind option_bind].
    destruct (decide (o0 = OPC_WIDE)) as [Hw|Hw]; [|cbn; eauto]. destruct (decide (pc = 0)) as [->|Hne].
    { rewrite E0 in Eo. injection Eo as ->. subst opc. by vm_compute in Eb. }
    destruct (rd_in code Hcode (0 + 1)) as (o1 & E1 & _); [lia|]. rewrite E1. cbn. eauto. }
  rewrite Er. apply wpu_lift_bind; [intros ? [= <-]|done]. rewrite Er in Et. cbn [mbind option_bind] in Et.
  destruct is_ret.
  { apply wpu_ret. apply (branch_post jd pc opc []); [done..|]. left. split; [done|]. split; [constructor|]. intros x. rewrite elem_of_nil. cbn. tauto. }
  case_decide as Ht; [|case_decide as Hl].
  + subst opc. destruct (tableswitch_wpu pc n jd h Hpc Eo Hi Hn) as (ts & Ets & Hw). cbv zeta in Ets. rewrite Ets in Et.
    eapply wpu_mono; [exact Hw| |done]. intros r. by apply (branch_post jd pc OPC_TABLESWITCH).
  + subst opc. destruct (lookupswitch_wpu pc n jd h Hpc Eo Hi Hn) as (ts & Ets & Hw). cbv zeta in Ets. rewrite Ets in Et.
    eapply wpu_mono; [exact Hw| |done]. intros r. by apply (branch_post jd pc OPC_LOOKUPSWITCH).
  + destruct (Fb eq_refl Ht Hl) as [Hw Hsz]. rewrite (Hni Ht Hl Hw), Hsz in Hn.
    assert (∃ off, bc_target_off code pc = Some off ∧ - 2 ^ 31 <= off < 2 ^ 31) as (off & Eoff & Hoff).
    { unfold bc_target_off. rewrite Eo. cbn [mbind option_bind]. rewrite Ew. cbn [mbind option_bind]. destruct wide.
      - apply read_s32_in; lia.
      - destruct (read_u16_in (pc + 1)) as (x & E); [lia..|]. unfold read_s16. rewrite E. eexists. split; [done|].
        pose proof (signed_range 16 x). unfold s16. lia. }
    rewrite Eoff. apply wpu_lift_bind; [intros ? [= <-]|done]. rewrite Eoff in Et.
    eapply wpu_mono; [by apply add_dest_wpu| |done]. intros r. by apply (branch_post jd pc opc).
Qed.

Lemma check_other_wpu pc n opc jd h : 0 <= pc < code_size → insn_length code pc = Some n → pc + n <= code_size →
  rd code pc = Some opc → bc_is_branch opc = Some false →
  wpu (check_insn vrf jd pc) (check_post jd pc) (¬ insn_ok vrf pc ∧ const_gap pc) h.
Proof using Hcode Hlen Hsize.
  intros Hpc Hi Hn Eo Eb. destruct (insn_info pc n Hi) as (opc' & i & Eo' & H0 & Ei & Hni). rewrite Eo in Eo'. injection Eo' as <-.
  destruct (opcode_kinds opc i H0 Ei) as (branch & wide & local & Eb' & Ew & El & Fs & Fb & Fx & Fl & Fc).
  rewrite Eb in Eb'. injection Eb' as <-.
  unfold check_insn. rewrite Eo. apply wpu_lift_bind; [intros ? [= <-]|done].
  rewrite Eb. apply wpu_lift_bind; [intros ? [= <-]|done].
  rewrite El. apply wpu_lift_bind; [intros ? [= <-]|done]. destruct local.
  + destruct (Fl eq_refl) as (Ec & Hw & Hsz).
    assert (opc ≠ OPC_TABLESWITCH ∧ opc ≠ OPC_LOOKUPSWITCH) as [Ht Hl].
    { split; intros E; specialize (Fs ltac:(tauto)); done. }
    rewrite (Hni Ht Hl Hw) in Hn. destruct (get_local_var_index_in pc opc i Eo Hn Hsz) as (index & Ex). rewrite Ex.
    apply wpu_lift_bind; [intros ? [= <-]|done]. apply wpu_ret. apply (other_post jd pc opc); [done..|destruct (decide (index < vrf_max_locals vrf)); [by left|by right]|]. rewrite Ex.
    clear Fc. destruct (decide (index < vrf_max_locals vrf)) as [Hm|Hm]; split; try done.
    * intros _. split; [eauto|]. intros o Eo'. rewrite Eo in Eo'. injection Eo' as <-. intros Hc. by rewrite Ec in Hc.
    * intros [Hloc _]. destruct (Hloc opc Eo El) as (ix & [= <-] & ?). lia.
  + destruct (bc_is_ldc opc) eqn:Ec.
    * destruct (Fc eq_refl) as [Hw Hsz].
      assert (opc ≠ OPC_TABLESWITCH ∧ opc ≠ OPC_LOOKUPSWITCH) as [Ht Hl].
      { split; intros E; specialize (Fs ltac:(tauto)); done. }
      rewrite (Hni Ht Hl Hw), Hsz in Hn.
      assert (∃ index, ldc_index vrf opc pc = Some index) as (index & Ex).
      { unfold ldc_index. case_decide; [|by apply read_u16_in; lia]. unfold read_u8.
        destruct (rd_in code Hcode (pc + 1)) as (b & E & _); [lia|]. eauto. }
      change (if decide (opc = OPC_LDC) then _ else _) with (ldc_index vrf opc pc). rewrite Ex.
      apply wpu_lift_bind; [intros ? [= <-]|done].
      pose proof (verify_constant_tags_spec (ldc_tags opc) index) as Hspec. apply wpu_lift_bind.
      -- intros err E. rewrite E in Hspec. specialize (Hspec (ldc_tags_some opc)).
         apply wpu_ret. apply (other_post jd pc opc); [done..|by eapply verify_constant_tags_err|]. rewrite Hspec. split.
         ++ intros (cp & ?). split; intros o Eo'; rewrite Eo in Eo'; injection Eo' as <-; [congruence|]. intros _. exists index, cp. tauto.
         ++ intros [_ Hc]. destruct (Hc opc Eo Ec) as (ix & cp & Eix & ?). rewrite Ex in Eix. injection Eix as <-. eauto.
      -- intros E. rewrite E in Hspec. specialize (Hspec (ldc_tags_some opc)) as [Hcnt Hj]. split.
         ++ intros [_ _ Hc]. destruct (Hc opc Eo Ec) as (ix & cp & Eix & _ & Ep & _). rewrite Ex in Eix. injection Eix as <-.
            by rewrite Ep in Hj.
         ++ exists opc, index. done.
    * apply wpu_ret. apply (other_post jd pc opc); [done..|by left|]. split; [|done]. intros _.
      split; intros o Eo'; rewrite Eo in Eo'; injection Eo' as <-; congruence.
Qed.

Lemma check_insn_wpu pc n jd h : 0 <= pc < code_size → insn_length code pc = Some n → pc + n <= code_size →
  wpu (check_insn vrf jd pc) (check_post jd pc) (¬ insn_ok vrf pc ∧ const_gap pc) h.
Proof using Hcode Hlen Hsize.
  intros Hpc Hi Hn. destruct (insn_info pc n Hi) as (opc & i & Eo & H0 & Ei & _).
  destruct (opcode_kinds opc i H0 Ei) as ([] & _ & _ & Eb & _); [by eapply check_branch_wpu|by eapply check_other_wpu].
Qed.

(** ** The loop over the instructions *)

Lemma insn_size_in pc n : 0 <= pc → bc_insn_size_safe code pc code_size = Some n → 0 <= n →
  1 <= n ∧ insn_length code pc = Some n ∧ pc + n <= code_size.
Proof using Hcode Hlen Hsize.
  intros Hpc E Hn. pose proof (safe_size code Hcode ltac:(lia) pc Hpc) as Hs. rewrite <- Hlen, E in Hs. cbn in Hs.
  destruct Hs as [[-> _]|(? & ? & ? & _)]; [unfold E_MALFORMED_BC in Hn; lia|]. split_and!; [done..|lia].
Qed.

Lemma insn_size_err pc n : 0 <= pc → bc_insn_size_safe code pc code_size = Some n → n < 0 → is_err n.
Proof using Hcode Hlen Hsize.
  intros Hpc E Hn. pose proof (safe_size code Hcode ltac:(lia) pc Hpc) as Hs. rewrite <- Hlen, E in Hs. cbn in Hs.
  destruct Hs as [[-> _]|(? & _)]; [done|lia].
Qed.

Lemma insns_inv pc ns : pc < code_size → insns code pc ns →
  ∃ n ns', ns = n :: ns' ∧ bc_insn_size_safe code pc code_size = Some n ∧ 0 <= n ∧ insns code (pc + n) ns'.
Proof using Hlen. intros Hpc Hi. inversion Hi; subst; [lia|]. eexists _, _. split_and!; [done| |done..]. by rewrite Hlen. Qed.

Lemma insns_deterministic pc ns ns' : 0 <= pc → insns code pc ns → insns code pc ns' → ns = ns'.
Proof using Hcode Hlen Hsize.
  intros H0 Hi. revert ns'. induction Hi as [|pc n ns E Hn Hi IH]; intros ns' Hi'.
  - inversion Hi' as [|pc' n' ns'' E' Hn']; subst; [done|]. rewrite <- Hlen in H0, E'. destruct (insn_size_in _ _ H0 E' Hn'). lia.
  - rewrite <- Hlen in E. destruct (insn_size_in _ _ H0 E Hn) as (? & ? & ?).
    destruct (insns_inv pc ns') as (n' & ns1 & -> & E' & _ & Hi1); [lia|done|]. rewrite E in E'. injection E' as <-. f_equal. apply IH; [lia|done].
Qed.

Definition suffix_ok (pc : Z) : Prop := ∃ ns, insns code pc ns ∧ Forall (insn_ok vrf) (starts pc ns).
(** Undefined behaviour has a reason in the code. *)
Definition bad_code : Prop := (∃ q k, insn_length code q = Some k ∧ 2 ^ 31 <= k) ∨ ∃ q, const_gap q.

Lemma suffix_ok_next pc n : pc < code_size → bc_insn_size_safe code pc code_size = Some n → suffix_ok pc →
  insn_ok vrf pc ∧ suffix_ok (pc + n).
Proof using Hlen.
  intros Hpc E (ns & Hi & Hok). destruct (insns_inv pc ns Hpc Hi) as (n' & ns' & -> & E' & _ & Hi').
  rewrite E in E'. injection E' as <-. apply Forall_cons_1 in Hok as [? ?]. split; [done|]. by exists ns'.
Qed.

Lemma last_cons_default {A} (x d : A) l : List.last (x :: l) d = List.last l x.
Proof using. revert x d. induction l as [|y l IH]; intros x d; [done|]. change (List.last (y :: l) d = List.last (y :: l) x). by rewrite !IH. Qed.

Definition targets_of (ss : list Z) (x : Z) : Prop := ∃ q ts, q ∈ ss ∧ checked_targets vrf q = Some ts ∧ x ∈ ts.

(** What the loop leaves behind for the instructions [ns]. *)
Record passed (st st' : pass_state) (map : bitset) (ns : list Z) : Prop := {
  pd_insns : insns code (pass_pc st) ns;
  pd_ok : Forall (insn_ok vrf) (starts (pass_pc st) ns);
  pd_map : ∃ map', insn_map st' = Some map' ∧ bitset_ok map' ∧ nr_bits map' = code_size ∧
    ∀ k, 0 <= k → bit_at (bits map') k = true ↔ bit_at (bits map) k = true ∨ k ∈ starts (pass_pc st) ns;
  pd_dests x : x ∈ dests st' ↔ x ∈ dests st ∨ targets_of (starts (pass_pc st) ns) x;
  pd_pc : pass_pc st' = code_size;
  pd_last : last_insn st' = List.last (starts (pass_pc st) ns) (last_insn st);
}.
Definition pass_post (st : pass_state) (map : bitset) (r : Z * pass_state) : Prop :=
  (r.1 = 0 ∧ ∃ ns, passed st r.2 map ns) ∨ (is_err r.1 ∧ (memory_suffices → ¬ suffix_ok (pass_pc st))).

Lemma passed_cons st st' map bits' n ns jd pc ts :
  pc = pass_pc st → bc_insn_size_safe code pc code_size = Some n → 0 <= n → insn_ok vrf pc →
  (∀ j, 0 <= j → bit_at bits' j = bool_decide (j = pc) || bit_at (bits map) j) →
  checked_targets vrf pc = Some ts → (∀ x, x ∈ jd ↔ x ∈ dests st ∨ x ∈ ts) →
  passed (PassState (Some (with_bits map bits')) jd (pc + n) pc) st' (with_bits map bits') ns → passed st st' map (n :: ns).
Proof using Hcode Hlen Hsize.
  intros -> E Hn Hok Hb Et Hjd [Hi Hoks (map' & Em & Hm1 & Hm2 & Hm) Hd Hpc Hl]. cbn in *. constructor; cbn [starts].
  - apply insns_step; [by rewrite <- Hlen|done..].
  - by constructor.
  - exists map'. split_and!; [done..|]. intros k Hk. rewrite Hm, Hb, orb_true_iff, bool_decide_eq_true, elem_of_cons by done. tauto.
  - intros x. rewrite Hd, Hjd. unfold targets_of. split.
    + intros [[?|?]|(q & ts' & Hq & ?)]; [by left|right; exists (pass_pc st), ts; split_and!; [by left|done..]|].
      right. exists q, ts'. split; [by right|done].
    + intros [?|(q & ts' & [->|Hq]%elem_of_cons & Ec & Hx)]; [by left; left|left; right; congruence|right; eauto].
  - done.
  - by rewrite last_cons_default.
Qed.

Lemma pass_loop_wpu fuel st map h :
  insn_map st = Some map → bitset_ok map → nr_bits map = code_size → 0 <= pass_pc st <= code_size →
  code_size - pass_pc st < Z.of_nat fuel →
  wpu (pass_loop fuel vrf st) (pass_post st map) ((memory_suffices → ¬ suffix_ok (pass_pc st)) ∧ bad_code) h.
Proof using Hcode Hlen Hsize.
  revert st map h. induction fuel as [|fuel IH]; intros st map h Em Hok Hnr Hpc Hf; [lia|]. cbn [pass_loop].
  case_decide as Hlt.
  2: { apply wpu_ret. left. split; [done|]. exists []. assert (pass_pc st = code_size) as Epc by lia. constructor; cbn; try done.
    - rewrite Epc, Hlen. apply insns_end.
    - exists map. split_and!; [done..|]. intros k _. rewrite elem_of_nil. tauto.
    - intros x. unfold targets_of. split; [by left|]. intros [?|(q & ts & Hq & _)]; [done|]. by apply elem_of_nil in Hq. }
  apply wpu_lift_bind.
  2: { intros E. split.
    - intros _ (ns & Hi & _). destruct (insns_inv _ _ Hlt Hi) as (n & ? & _ & E' & _). congruence.
    - left. pose proof (safe_size code Hcode ltac:(lia) (pass_pc st) ltac:(lia)) as Hs. rewrite <- Hlen, E in Hs. cbn in Hs. eauto. }
  intros n E. case_decide as Hneg.
  { apply wpu_ret. right. split; [by apply (insn_size_err (pass_pc st)); [lia|..]|]. intros _ (ns & Hi & _).
    destruct (insns_inv _ _ Hlt Hi) as (n' & ? & _ & E' & ? & _). rewrite E in E'. injection E' as <-. lia. }
  destruct (insn_size_in (pass_pc st) n) as (Hn1 & Hi & Hn); [lia|done|lia|].
  rewrite Em. apply wpu_lift_bind; [intros ? [= <-]|done].
  destruct (set_bit_ok map (pass_pc st) Hok ltac:(lia)) as (bits' & -> & Hok' & Hb). apply wpu_lift_bind; [intros ? [= <-]|done].
  eapply wpu_seq; [apply (check_insn_wpu (pass_pc st) n); [lia|done..]|cbv beta|].
  2: { intros [Hbad Hgap]. split; [|right; eauto]. intros _ Hs. by apply (suffix_ok_next _ n) in Hs as [? _]. }
  intros r h1 [(E0 & Hio & ts & Et & Hd)|[E0 Hbad]]; [rewrite decide_False by tauto|rewrite decide_True by apply E0].
  2: { apply wpu_ret. right. split; [done|]. intros Hm Hs. apply (suffix_ok_next _ n) in Hs as [? _]; [by apply Hbad|done..]. }
  rewrite u64_id by clia.
  eapply wpu_mono; [apply (IH _ (with_bits map bits')); [done|done|done|cbn; lia|cbn; lia]|cbv beta|]; cbn [pass_pc].
  - intros r' [[E0' (ns & Hp)]|[E0' Hbad]]; [left|right]; split; [done| |done|].
    + exists (n :: ns). exact (passed_cons st r'.2 map bits' n ns r.2 (pass_pc st) ts eq_refl E ltac:(lia) Hio Hb Et Hd Hp).
    + intros Hm Hs. apply (suffix_ok_next _ n) in Hs as [_ ?]; [by apply Hbad|done..].
  - intros [Hbad Hgap]. split; [|done]. intros Hm Hs. apply (suffix_ok_next _ n) in Hs as [_ ?]; [by apply Hbad|done..].
Qed.

(** ** The exception table *)

Section exceptions.
Context (ca : cafebabe_code_attribute) (Hex : Z.of_nat (length (exception_table ca)) = exception_table_length ca).

Definition exception_ok (ex : cafebabe_code_attribute_exception) : Prop := start_pc ex <= end_pc ex <= code_length ca.
Definition exception_post (jd : list Z) (exs : list cafebabe_code_attribute_exception) (r : Z * list Z) : Prop :=
  (r.1 = 0 ∧ Forall exception_ok exs ∧ ∀ x, x ∈ r.2 ↔ x ∈ jd ∨ ∃ ex, ex ∈ exs ∧ x = handler_pc ex) ∨
  (is_err r.1 ∧ (memory_suffices → ¬ Forall exception_ok exs)).

(** [exs] are the entries left, of which [n] are looked at. *)
Lemma exception_loop_wpu exs n i jd h :
  (0 < n <= length exs)%nat → n = Z.to_nat (Z.max 1 (exception_table_length ca - i)) →
  wpu (exception_loop ca exs i jd) (exception_post jd (take n exs)) False h.
Proof using Hcode Hlen Hsize.
  revert n i jd h. induction exs as [|ex exs IH]; intros n i jd h Hn Hni; [cbn in Hn; lia|]. cbn [exception_loop].
  destruct n as [|n]; [lia|]. cbn [take].
  case_decide as H1. { apply wpu_ret. right. split; [done|]. intros _ Hf%Forall_cons_1. unfold exception_ok in Hf. lia. }
  case_decide as H2. { apply wpu_ret. right. split; [done|]. intros _ Hf%Forall_cons_1. unfold exception_ok in Hf. lia. }
  assert (exception_ok ex) as Hok by (unfold exception_ok; lia).
  eapply wpu_seq; [apply add_jump_destination_wpu|cbv beta|done]. intros r h1 [[E Hr]|[E Hm]].
  2: { rewrite decide_True by apply E. apply wpu_ret. right. split; [done|]. intros Hm'. by destruct Hm. }
  rewrite decide_False by tauto. case_decide as Hi.
  - eapply wpu_mono; [apply (IH n); cbn in Hn; lia| |done]. intros r' [(E' & Hf & Hx)|[E' Hbad]]; [left|right].
    + split_and!; [done|by constructor|]. intros x. rewrite Hx, Hr. split.
      * intros [[?| ->]|(ex' & ? & ->)]; [by left|right; exists ex; split; [by left|done]|right; exists ex'; split; [by right|done]].
      * intros [?|(ex' & [->|?]%elem_of_cons & ->)]; [by left; left|by left; right|right; eauto].
    + split; [done|]. intros Hm [_ Hf]%Forall_cons_1. by apply Hbad.
  - assert (n = 0%nat) as -> by lia. change (take 0 exs) with (@nil cafebabe_code_attribute_exception). apply wpu_ret. left. split_and!; [done|by constructor|]. intros x. cbn. rewrite Hr. split.
    + intros [?| ->]; [by left|]. right. exists ex. split; [by left|done].
    + intros [?|(ex' & ->%list_elem_of_singleton & ->)]; auto.
Qed.

Definition exceptions_looked_at : list cafebabe_code_attribute_exception :=
  if decide (exception_table_length ca = 0) then [] else checked_exceptions ca.

Lemma verify_exception_table_wpu jd h :
  wpu (verify_exception_table ca jd) (exception_post jd exceptions_looked_at) False h.
Proof using Hcode Hex Hlen Hsize.
  unfold verify_exception_table, exceptions_looked_at, checked_exceptions. case_decide as E0.
  - apply wpu_ret. left. split_and!; [done|constructor|]. intros x. cbn. split; [by left|]. intros [?|(ex & Hx & _)]; [done|]. by apply elem_of_nil in Hx.
  - apply exception_loop_wpu; lia.
Qed.
End exceptions.

(** ** The destinations *)

Section destinations.
Context (ns : list Z) (Hns : insns code 0 ns).

(** An instruction in the middle. *)
Lemma starts_insn pc ms q : 0 <= pc → insns code pc ms → q ∈ starts pc ms →
  pc <= q < code_size ∧ ∃ n, insn_length code q = Some n ∧ q + n <= code_size.
Proof using Hcode Hlen Hsize.
  intros H0 Hi. induction Hi as [|pc n ms E Hn Hi IH]; cbn [starts]; [by intros ?%elem_of_nil|].
  rewrite <- Hlen in E. destruct (insn_size_in _ _ H0 E Hn) as (? & ? & ?).
  intros [->|Hq]%elem_of_cons; [split; [lia|eauto]|]. destruct IH as [? ?]; [lia|done|]. split; [lia|done].
Qed.

Lemma is_ret_start : bc_is_ret code 0 ≠ None.
Proof using Hcode Hlen Hsize Hns.
  unfold bc_is_ret. destruct (rd_in code Hcode 0) as (o & E & _); [lia|]. rewrite E. cbn [mbind option_bind].
  destruct (decide (o = OPC_WIDE)) as [->|]; [|done].
  destruct (insns_inv 0 ns) as (n & ns' & -> & En & Hn & _); [lia|done|].
  destruct (insn_size_in 0 n) as (_ & Hi & Hle); [lia|done|done|]. by destruct (wide_next 0 n Hi E) as [o ->].
Qed.

Lemma find_branch_total dest fuel pc ms : 0 <= pc → insns code pc ms → code_size - pc < Z.of_nat fuel →
  find_branch fuel vrf dest pc ≠ None.
Proof using Hcode Hlen Hsize Hns.
  revert pc ms. induction fuel as [|fuel IH]; intros pc ms H0 Hi Hf.
  { destruct (decide (pc < code_size)) as [?|?]; [lia|]. inversion Hi as [|pc0 k0 ms0 E Hn]; subst; [lia|]. rewrite <- Hlen in E.
    destruct (insn_size_in _ _ H0 E Hn). lia. }
  cbn [find_branch]. case_decide as Hlt; [|done]. destruct (insns_inv pc ms Hlt Hi) as (n & ms' & -> & E & Hn & Hi').
  rewrite E. cbn [mbind option_bind]. destruct (insn_size_in _ _ H0 E Hn) as (Hn1 & Hl & Hle).
  destruct (insn_info pc n Hl) as (opc & i & Eo & Ho & Ei & Hni). rewrite Eo. cbn [mbind option_bind].
  destruct (opcode_kinds opc i Ho Ei) as (branch & wide & local & Eb & Ew & _ & _ & Fb & _). rewrite Eb. cbn [mbind option_bind].
  assert (find_branch fuel vrf dest (u64 (pc + n)) ≠ None) as Hnext by (rewrite u64_id by clia; eapply IH; [|done|]; lia).
  destruct branch; [|done]. destruct (bc_is_ret code 0) as [[]|] eqn:Er; [done| |by apply is_ret_start in Er]. cbn [mbind option_bind].
  assert (bc_target_off code pc ≠ None) as Hoff; [|by destruct (bc_target_off code pc); [cbn; case_bool_decide|]].
  assert (pc + (if wide then 5 else 3) <= code_size) as Hin.
  { destruct (decide (opc = OPC_TABLESWITCH)) as [->|Ht]; [|destruct (decide (opc = OPC_LOOKUPSWITCH)) as [->|Hk]].
    3: { destruct (Fb eq_refl Ht Hk) as [Hw Hs]. rewrite <- Hs, <- (Hni Ht Hk Hw). done. }
    all: assert (9 <= n) by (apply (switch_length pc n Hl); rewrite Eo; auto); destruct wide; lia. }
  unfold bc_target_off. rewrite Eo. cbn [mbind option_bind]. rewrite Ew. cbn [mbind option_bind]. destruct wide.
  - destruct (read_s32_in (pc + 1)) as (x & -> & _); [lia..|done].
  - unfold read_s16. destruct (read_u16_in (pc + 1)) as (x & ->); [lia..|done].
Qed.

Context (map : bitset) (Hmap : bitset_ok map) (Hnr : nr_bits map = code_size).
Context (Hbits : ∀ k, 0 <= k → bit_at (bits map) k = true ↔ k ∈ starts 0 ns).

Lemma check_dests_spec jds err pc : Forall (λ d, 0 <= d) jds →
  match check_dests vrf (Some map) jds err pc with
  | Some (e, pc', out) =>
    (Forall (λ d, d ∈ starts 0 ns) jds ∧ e = err ∧ pc' = pc ∧ out = false) ∨
    (¬ Forall (λ d, d ∈ starts 0 ns) jds ∧ e = E_INVALID_BRANCH)
  | None => ∃ d, d ∈ jds ∧ code_size <= d
  end.
Proof using Hcode Hlen Hsize Hns Hmap Hnr Hbits.
  revert err pc. induction jds as [|d jds IH]; intros err pc Hpos; cbn [check_dests]; [left; by split_and!|].
  apply Forall_cons_1 in Hpos as [Hd Hpos]. cbn [mbind option_bind].
  destruct (decide (in_words (bits map) d)) as [Hin|Hout].
  2: { destruct (test_bit (bits map) d) as [b|] eqn:E; cbn [mbind option_bind].
    - exfalso. unfold test_bit in E. destruct (bits map !! word_index d) eqn:El; [|done]. apply lookup_lt_Some in El.
      apply Hout. unfold in_words. unfold word_index, BITS_PER_LONG in El. pose proof (Z.mod_pos_bound d 64 ltac:(lia)).
      pose proof (Z.div_mod d 64 ltac:(lia)). pose proof (Z.div_pos d 64). lia.
    - exists d. split; [by left|]. unfold in_words in Hout. destruct Hmap. lia. }
  rewrite test_bit_spec by done. cbn [mbind option_bind]. destruct (bit_at (bits map) d) eqn:Eb.
  - apply Hbits in Eb; [|done]. specialize (IH err pc Hpos). destruct (check_dests vrf (Some map) jds err pc) as [[[e pc'] out]|].
    + destruct IH as [(? & ? & ? & ?)|[Hbad ?]]; [left; split_and!; [by constructor|done..]|right; split; [|done]]. by intros [_ ?]%Forall_cons_1.
    + destruct IH as (x & ? & ?). exists x. split; [by right|done].
  - assert (¬ Forall (λ d, d ∈ starts 0 ns) (d :: jds)) as Hbad.
    { intros [Hst _]%Forall_cons_1. apply Hbits in Hst; [|done]. congruence. }
    destruct (find_branch _ vrf d 0) as [[found pc']|] eqn:Ef.
    2: { exfalso. revert Ef. apply (find_branch_total d _ 0 ns); [lia|done|lia]. }
    cbn [mbind option_bind]. destruct found; [right; by split|].
    specialize (IH E_INVALID_BRANCH pc' Hpos). destruct (check_dests vrf (Some map) jds E_INVALID_BRANCH pc') as [[[e pc''] out]|].
    + destruct IH as [(? & ? & ? & ?)|[? ?]]; right; by split.
    + destruct IH as (x & ? & ?). exists x. split; [by right|done].
Qed.
End destinations.
End pass.

(** ** The whole pass *)

(** The context of a method: its code is bytes and its exception table has its
    length. *)
Record vrf_wf (vrf : verifier_context) : Prop := {
  wf_code : Forall is_u8 (vrf_code vrf);
  wf_len : vrf_code_size vrf = Z.of_nat (length (vrf_code vrf));
  wf_size : 0 < vrf_code_size vrf < 2 ^ 31;
  wf_dests : jmp_dests vrf = [];
  wf_table : Z.of_nat (length (exception_table (code_attribute (vrf_method vrf)))) =
    exception_table_length (code_attribute (vrf_method vrf));
  wf_handlers : Forall (λ ex, is_u16 (handler_pc ex)) (exception_table (code_attribute (vrf_method vrf)));
}.

Section whole.
Context `{Allocator} (vrf : verifier_context) (Hwf : vrf_wf vrf).
#[local] Abbreviation memory_suffices := (∀ k size, malloc_ok k size = true).
#[local] Abbreviation code := (vrf_code vrf).
#[local] Abbreviation code_size := (vrf_code_size vrf).
#[local] Abbreviation ca := (code_attribute (vrf_method vrf)).

(** Without a map the first instruction is an error or undefined. *)
Lemma pass_loop_no_map h fuel jd : wpu (pass_loop (S fuel) vrf (PassState None jd 0 0)) (λ r, is_err r.1) True h.
Proof using Hwf.
  destruct Hwf as [Hc Hl Hs _ _ _]. cbn [pass_loop pass_pc insn_map]. rewrite decide_True by lia. apply wpu_lift_bind; [|done].
  intros n E. case_decide; [apply wpu_ret; by apply (insn_size_err vrf Hc Hl Hs 0)|]. by apply wpu_lift_bind.
Qed.

Lemma unconditional_total q n : insn_length code q = Some n → ∃ b, bc_is_unconditionnal_branch code q = Some b.
Proof using Hwf.
  destruct Hwf as [Hc Hl Hs _ _ _]. intros Hi. destruct (insn_info vrf Hc q n Hi) as (opc & i & Eo & _ & Ei & _).
  unfold bc_is_unconditionnal_branch. rewrite Eo. cbn [mbind option_bind]. unfold orelse, bc_is_return, has_type. rewrite Ei. cbn [mbind option_bind].
  case_bool_decide; [by eexists|]. cbn. destruct (bc_is_goto opc); [by eexists|]. destruct (bc_is_jsr opc); [by eexists|].
  unfold bc_is_ret. rewrite Eo. cbn [mbind option_bind].
  destruct (decide (opc = OPC_WIDE)) as [->|]; [|cbn; case_bool_decide; by eexists].
  destruct (wide_next vrf q n Hi Eo) as [o ->]. cbn. case_bool_decide; by eexists.
Qed.

(** What the instructions, the exception table and the destinations give. *)
Definition all_dests (ns : list Z) (x : Z) : Prop :=
  targets_of vrf (starts 0 ns) x ∨ ∃ ex, ex ∈ exceptions_looked_at ca ∧ x = handler_pc ex.

Lemma accepts_iff ns pc : insns code 0 ns → Forall (insn_ok vrf) (starts 0 ns) → pc = List.last (starts 0 ns) 0 →
  accepts vrf ↔ Forall (exception_ok ca) (exceptions_looked_at ca) ∧ (∀ x, all_dests ns x → x ∈ starts 0 ns) ∧
    bc_is_unconditionnal_branch code pc = Some true.
Proof using Hwf.
  destruct Hwf as [Hc Hl Hs _ _ _]. intros Hi Hok ->. unfold all_dests, exceptions_looked_at.
  assert (∃ ss q, starts 0 ns = ss ++ [q]) as (ss & q & Eq).
  { destruct (insns_inv vrf Hl 0 ns) as (n & ns' & -> & _); [lia|done|]. destruct (exists_last (l := starts 0 (n :: ns'))) as (ss & q & ?); [done|].
    by exists ss, q. }
  assert (List.last (starts 0 ns) 0 = q) as Eql by (rewrite Eq; apply last_last). rewrite Eql. split.
  - intros (ns' & [Hi' _ Ht Hex Hend]). rewrite <- (insns_deterministic vrf Hc Hl Hs 0 ns ns') in * by (done || lia). split_and!.
    + destruct (decide (exception_table_length ca = 0)) as [|E0]; [constructor|]. apply list.Forall_forall. intros ex Hx. by destruct (Hex E0 ex Hx).
    + intros x [(p & ts & Hp & Ep & Hx)|(ex & Hx & ->)]; [by eapply Ht|]. destruct (decide (exception_table_length ca = 0)) as [|E0]; [by apply elem_of_nil in Hx|]. by apply Hex.
    + destruct Hend as (ss' & q' & Eq' & ?). rewrite Eq in Eq'. by apply app_inj_tail in Eq' as [_ ->].
  - intros (Hex & Hd & Hend). exists ns. constructor; [done..| | |eauto].
    + intros p ts t Hp Ep Hx. apply Hd. left. by exists p, ts.
    + intros E0 ex Hx. rewrite decide_False in Hex, Hd by done. rewrite list.Forall_forall in Hex. split; [by apply Hex|]. apply Hd. right. eauto.
Qed.

(** Undefined behaviour has one of these reasons, and such code is never accepted. *)
Definition undefined_reason : Prop :=
  (memory_suffices → ¬ accepts vrf) ∧
  (¬ memory_suffices ∨ bad_code vrf ∨ ∃ ex, ex ∈ exceptions_looked_at ca ∧ code_size <= handler_pc ex).
Definition first_pass_post (r : Z) : Prop :=
  r ≠ E_NOT_IMPLEMENTED ∧ (r = 0 → accepts vrf) ∧ (memory_suffices → accepts vrf → r = 0).

Lemma rejected r : is_err r → (memory_suffices → ¬ accepts vrf) → first_pass_post r.
Proof using. intros [Hr Hr'] Hn. split_and!; [done..|]. intros Hm Ha. by destruct (Hn Hm). Qed.

Lemma accepts_suffix : accepts vrf → suffix_ok vrf 0.
Proof using. intros (ns & [Hi Hok _ _ _]). by exists ns. Qed.

Lemma check_dests_wpu st map ns jd h : passed vrf (PassState (Some map) [] 0 0) st map ns → bitset_ok map →
  (∀ k, bit_at (bits map) k = false) → Forall (exception_ok ca) (exceptions_looked_at ca) →
  (∀ x, x ∈ jd ↔ all_dests ns x) →
  wpu (let* c := lift (check_dests vrf (insn_map st) jd 0 (pass_pc st)) in
       let '(err, pc, out) := c in
       if (out : bool) then ret err else
       let err := if decide (pc ≠ code_size) then E_MALFORMED_BC else err in
       let* ends := lift (bc_is_unconditionnal_branch code (last_insn st)) in
       ret (if negb ends then E_FALLING_OFF else err)) first_pass_post undefined_reason h.
Proof using Hwf.
  intros [Hi Hok (map' & Em & Hm & Hnr & Hbits) _ Hpc Hlast] Hmap Hzero Hex Hjd. cbn [pass_pc last_insn] in *.
  pose proof Hwf as [Hc Hl Hs _ _ Hh]. pose proof (accepts_iff ns _ Hi Hok Hlast) as Hacc. rewrite Em, Hpc.
  assert (∀ k, 0 <= k → bit_at (bits map') k = true ↔ k ∈ starts 0 ns) as Hb.
  { intros k Hk. rewrite Hbits, Hzero by done. intuition congruence. }
  assert (∀ x, targets_of vrf (starts 0 ns) x → 0 <= x < code_size) as Htv.
  { intros x (q & ts & Hq & Et & Hx). rewrite list.Forall_forall in Hok. destruct (Hok q Hq) as [(ts' & Et' & Hv) _ _].
    rewrite Et in Et'. injection Et' as <-. rewrite list.Forall_forall in Hv. by apply Hv. }
  assert (Forall (λ d, 0 <= d) jd) as Hpos.
  { apply list.Forall_forall. intros x [Hx|(ex & Hx & ->)]%Hjd; [by apply Htv|]. unfold exceptions_looked_at, checked_exceptions in Hx.
    destruct (decide (exception_table_length ca = 0)); [by apply elem_of_nil in Hx|]. apply elem_of_take in Hx as (k & Ek & _).
    eapply Forall_lookup_1 in Hh; [|exact Ek]. cbv beta in Hh. clia. }
  pose proof (check_dests_spec vrf Hc Hl Hs ns Hi map' Hm Hnr Hb jd 0 code_size Hpos) as Hcd.
  assert (Forall (λ d, d ∈ starts 0 ns) jd ↔ ∀ x, all_dests ns x → x ∈ starts 0 ns) as Hall.
  { rewrite list.Forall_forall. split; intros Hx x Hd; apply Hx, Hjd, Hd. }
  destruct (check_dests vrf (Some map') jd 0 code_size) as [[[e pc'] out]|].
  2: { apply wpu_lift_bind; [done|]. intros _. destruct Hcd as (d & Hd & Hge). apply Hjd in Hd as [Hd|(ex & Hx & ->)]; [apply Htv in Hd; lia|].
    split; [|right; right; eauto]. intros _ Ha. apply Hacc in Ha as (_ & Hd & _). specialize (Hd (handler_pc ex) ltac:(right; eauto)).
    apply (starts_insn vrf Hc Hl Hs 0 ns) in Hd as [? _]; [lia..|done]. }
  apply wpu_lift_bind; [|done]. intros ? [= <-].
  assert (∃ n, insn_length code (last_insn st) = Some n) as [n Hn].
  { destruct (insns_inv vrf Hl 0 ns) as (n & ns' & -> & _); [lia|done|]. destruct (exists_last (l := starts 0 (n :: ns'))) as (ss & q & Eq); [done|].
    rewrite Hlast, Eq, last_last. destruct (starts_insn vrf Hc Hl Hs 0 (n :: ns') q) as (_ & k & ? & _); [lia|done|rewrite Eq; apply elem_of_app; right; by left|]. eauto. }
  destruct (unconditional_total _ _ Hn) as [b Hub].
  destruct Hcd as [(Hst & -> & -> & ->)|[Hst ->]].
  - rewrite decide_False by tauto. cbv zeta. rewrite Hub. apply wpu_lift_bind; [intros ? [= <-]|done]. apply wpu_ret. destruct b; cbn.
    + split_and!; [done| |done]. intros _. apply Hacc. split_and!; [done|by apply Hall|done].
    + apply rejected; [done|]. intros _ Ha. apply Hacc in Ha as (_ & _ & ?). congruence.
  - assert (¬ accepts vrf) as Hna by (intros Ha; apply Hacc in Ha as (_ & Hd & _); by apply Hst, Hall).
    destruct out; [apply wpu_ret; by apply rejected|]. cbv zeta. rewrite Hub. apply wpu_lift_bind; [intros ? [= <-]|done]. apply wpu_ret.
    apply rejected; [|done]. destruct b; cbn; [|done]. by case_decide.
Qed.

Lemma verifier_first_pass_wpu h : wpu (verifier_first_pass vrf) first_pass_post undefined_reason h.
Proof using Hwf.
  pose proof Hwf as [Hc Hl Hs Hj Ht _]. unfold verifier_first_pass.
  eapply (wpu_seq _ _ (λ o, match o with Some b => bitset_ok b ∧ nr_bits b = code_size ∧ (∀ k, bit_at (bits b) k = false)
                               | None => ¬ memory_suffices end) False); [|cbv beta|done].
  { pose proof (alloc_bitset_ok code_size h ltac:(lia)) as Ha. unfold wp in Ha. unfold wpu. destruct (alloc_bitset code_size h); done. }
  intros [map|] h1; [intros (Hok & Hnr & Hzero)|intros Hm].
  2: { eapply wpu_seq; [apply pass_loop_no_map|cbv beta|intros _; split; [done|by left]]. intros r h2 Hr. rewrite decide_True by apply Hr.
    apply wpu_ret. by apply rejected. }
  rewrite Hj. eapply wpu_seq; [apply (pass_loop_wpu vrf Hc Hl Hs _ _ map); cbn; [done..|lia|lia]|cbv beta|].
  2: { intros [Hbad Hcode]. split; [|by right; left]. intros Hm Ha. by apply Hbad, accepts_suffix. }
  intros r h2 [[E0 (ns & Hp)]|[E0 Hbad]].
  2: { rewrite decide_True by apply E0. apply wpu_ret. apply rejected; [done|]. intros Hm Ha. by apply Hbad, accepts_suffix. }
  rewrite decide_False by tauto.
  eapply wpu_seq; [by apply (verify_exception_table_wpu vrf Hc Hl Hs ca)|cbv beta|done].
  pose proof Hp as [Hi Hoks _ Hd _ Hlast]. pose proof (accepts_iff ns _ Hi Hoks Hlast) as Hacc.
  intros e h3 [(E1 & Hex & He)|[E1 Hbad]].
  2: { rewrite decide_True by apply E1. apply wpu_ret. apply rejected; [done|]. intros Hm Ha. by apply Hbad, Hacc. }
  rewrite decide_False by tauto. eapply check_dests_wpu; [done..|]. intros x. rewrite He, Hd. cbn [dests]. rewrite elem_of_nil.
  unfold all_dests. tauto.
Qed.
End whole.

(** ** Methods *)

Record method_wf (vmm : vm_method) : Prop := {
  mw_code : Forall is_u8 (vmm_code vmm);
  mw_len : code_length (code_attribute vmm) = Z.of_nat (length (vmm_code vmm));
  mw_size : code_length (code_attribute vmm) < 2 ^ 31;
  mw_table : Z.of_nat (length (exception_table (code_attribute vmm))) = exception_table_length (code_attribute vmm);
  mw_handlers : Forall (λ ex, is_u16 (handler_pc ex)) (exception_table (code_attribute vmm));
}.

Definition context_of (vmm : vm_method) : verifier_context :=
  VContext vmm (vmm_code vmm) (code_length (code_attribute vmm)) (max_stack (code_attribute vmm))
    (max_locals (code_attribute vmm)) [].
Definition has_no_code (vmm : vm_method) : Prop :=
  method_is CAFEBABE_METHOD_ACC_ABSTRACT (vmm_id vmm) = true ∨ method_is CAFEBABE_METHOD_ACC_NATIVE (vmm_id vmm) = true ∨
  code_length (code_attribute vmm) = 0.
(** The first method of the superclass with its name and type is final. *)
Definition overrides_final (vmm : vm_method) : Prop :=
  take 5 (vmc_name (vmm_class vmm)) ≠ chars "java/" ∧
  ∃ m, vm_method_get_overridden vmm = Some m ∧ method_is CAFEBABE_METHOD_ACC_FINAL m = true.
Definition verified (vmm : vm_method) : Prop :=
  has_no_code vmm ∨ (¬ overrides_final vmm ∧ accepts (context_of vmm)).

Lemma context_wf vmm : method_wf vmm → code_length (code_attribute vmm) ≠ 0 → vrf_wf (context_of vmm).
Proof. intros [Hc Hl Hs Ht Hh] Hne. constructor; cbn; try done. lia. Qed.

Lemma overrides_final_spec vmm :
  (vm_method_overrides_final vmm = 0 ∧ ¬ overrides_final vmm) ∨
  (vm_method_overrides_final vmm = E_OVERRIDES_FINAL ∧ overrides_final vmm).
Proof.
  unfold vm_method_overrides_final, overrides_final. case_decide as Hj; [left; split; [done|tauto]|].
  destruct (vm_method_get_overridden vmm) as [m|]; [|left; split; [done|]; by intros (_ & m & ? & _)].
  destruct (method_is _ m) eqn:E; [right; eauto|left]. split; [done|]. intros (_ & m' & [= <-] & ?). congruence.
Qed.

Lemma alloc_verifier_context_wpu `{Allocator} vmm h :
  wpu (alloc_verifier_context vmm)
    (λ o, match o with Some vrf => vrf = context_of vmm | None => ¬ ∀ k size, malloc_ok k size = true end) False h.
Proof.
  assert (∀ sz h, wpu (malloc sz) (λ b, b = false → ¬ ∀ k size, malloc_ok k size = true) False h) as Hma.
  { intros sz h0. unfold malloc, wpu, mem_malloc. destruct (malloc_ok (m_next h0) sz) eqn:E; [done|]. intros _ Hm. by rewrite Hm in E. }
  assert (∀ n h, wpu (alloc_verifier_state n) (λ o, o = None → ¬ ∀ k size, malloc_ok k size = true) False h) as Hst.
  { intros n h0. unfold alloc_verifier_state. eapply wpu_seq; [apply Hma|cbv beta|done]. intros [] h1 H1; [|apply wpu_ret; auto]. cbn [negb].
    eapply wpu_seq; [apply Hma|cbv beta|done]. intros [] h2 H2; [|apply wpu_ret; auto]. cbn [negb].
    eapply (wpu_seq _ _ (λ _, True)); [|by intros vs h3 _; apply wpu_ret|exact (λ F, F)].
    unfold alloc_verifier_local_var. eapply wpu_seq; [apply Hma|cbv beta|done]. intros b h3 _. by apply wpu_ret. }
  unfold alloc_verifier_context, alloc_verifier_jump_destinations, alloc_verifier_block.
  eapply wpu_seq; [apply Hma|cbv beta|done]. intros [] h1 H1; [|apply wpu_ret; auto]. cbn [negb].
  eapply (wpu_seq _ _ (λ o, o = None → ¬ ∀ k size, malloc_ok k size = true)); [|cbv beta|exact (λ F, F)].
  { eapply wpu_seq; [apply Hma|cbv beta|done]. intros [] h2 H2; apply wpu_ret; auto. done. }
  intros [d|] h2 H2; [|apply wpu_ret; auto].
  eapply (wpu_seq _ _ (λ o, o = None → ¬ ∀ k size, malloc_ok k size = true)); [|cbv beta|exact (λ F, F)].
  { eapply wpu_seq; [apply Hma|cbv beta|done]. intros [] h3 H3; [|apply wpu_ret; auto]. cbn [negb].
    eapply wpu_seq; [apply Hst|cbv beta|done]. intros [s1|] h4 H4; [|apply wpu_ret; auto].
    eapply wpu_seq; [apply Hst|cbv beta|done]. intros [s2|] h5 H5; [|apply wpu_ret; auto].
    eapply wpu_seq; [apply Hma|cbv beta|done]. intros b h6 _. by apply wpu_ret. }
  intros [b|] h3 H3; [by apply wpu_ret|apply wpu_ret; auto].
Qed.

(** The whole of [vm_method_verify]. *)
Lemma vm_method_verify_spec `{Allocator} vmm h : method_wf vmm →
  match vm_method_verify vmm h with
  | Done r _ => (r = 0 → verified vmm) ∧ ((∀ k size, malloc_ok k size = true) → verified vmm → r = 0)
  | Fail _ _ => False
  | Undef => undefined_reason (context_of vmm)
  end.
Proof.
  intros Hwf. change (wpu (vm_method_verify vmm) (λ r, (r = 0 → verified vmm) ∧
    ((∀ k size, malloc_ok k size = true) → verified vmm → r = 0)) (undefined_reason (context_of vmm)) h).
  unfold vm_method_verify. destruct (_ || _ || _) eqn:En.
  { apply wpu_ret. split; [|done]. intros _. left. unfold has_no_code.
    rewrite !orb_true_iff, bool_decide_eq_true in En. tauto. }
  rewrite !orb_false_iff, bool_decide_eq_false in En. destruct En as [[En1 En2] En3].
  assert (¬ has_no_code vmm) as Hcode by (unfold has_no_code; rewrite En1, En2; intuition congruence).
  eapply wpu_seq; [apply alloc_verifier_context_wpu|cbv beta|done]. intros [vrf|] h1.
  2: { intros Hm. apply wpu_ret. split; [done|]. intros Hm'. by destruct Hm. }
  intros ->. unfold verified. destruct (overrides_final_spec vmm) as [[-> Hov]|[-> Hov]].
  - rewrite (decide_False (P := 0 ≠ 0)) by tauto.
    eapply wpu_seq; [apply verifier_first_pass_wpu, context_wf; done|cbv beta|done]. intros r h2 (Hr1 & Hr2 & Hr3). apply wpu_ret.
    rewrite decide_False by done. split; [auto|]. intros Hm [?|[_ ?]]; [done|auto].
  - rewrite decide_True by done. apply wpu_ret. cbn. split; [done|]. intros _ [?|[? _]]; done.
Qed.

Lemma vm_method_verify_accepts `{Allocator} vmm h h' : method_wf vmm → vm_method_verify vmm h = Done 0 h' → verified vmm.
Proof. intros Hwf E. pose proof (vm_method_verify_spec vmm h Hwf) as Hs. rewrite E in Hs. by apply Hs. Qed.

(** ** Valid code *)

Section valid.
Context (vmm : vm_method).
#[local] Abbreviation code := (vmm_code vmm).
#[local] Abbreviation ca := (code_attribute vmm).
#[local] Abbreviation constants := (constant_pool (vmc_class (vmm_class vmm))).

(** The code is the instructions of the sizes [ns]; targets and handlers are instructions,
    apart from those that [tg] and [hg] name; variables and constants are in range, apart
    from the variables of [lg]; the last instruction does not go on, and is none of [eg]. *)
Record code_valid (tg : Z → Z → Prop) (lg : Z → Prop) (hg : nat → Prop) (eg : Z → Prop) (ns : list Z) : Prop := {
  cv_insns : insns code 0 ns;
  cv_targets pc k t : pc ∈ starts 0 ns → nth_target code pc k = Some t → ¬ tg pc k → t ∈ starts 0 ns;
  cv_locals pc i : pc ∈ starts 0 ns → local_var code pc = Some i → ¬ lg pc → i < max_locals ca;
  cv_constants pc i tags : pc ∈ starts 0 ns → constant_at code pc = Some (i, tags) →
    i < constant_pool_count (vmc_class (vmm_class vmm)) ∧
    ∃ c, constants !! Z.to_nat i = Some (Some c) ∧ cp_tag c ∈ tags;
  cv_handlers i ex : exception_table ca !! i = Some ex → ¬ hg i →
    start_pc ex <= end_pc ex <= code_length ca ∧ handler_pc ex ∈ starts 0 ns;
  cv_end : ∃ ss pc k, starts 0 ns = ss ++ [pc] ∧ kind_at code pc = Some k ∧ goes_on k = false ∧ ¬ eg pc;
}.

(** What is not looked at: when the code begins with [ret] or [wide ret], no target at
    all; the last entry of the table of every tableswitch; the variables of [iinc] (0x84),
    [ret] (0xa9) and of everything with [wide] (0xc4); and of several entries of the
    exception table the last. *)
Definition target_unchecked (pc k : Z) : Prop := kind_at code 0 = Some Ret ∨ last_entry code pc k.
Definition local_unchecked (pc : Z) : Prop :=
  rd code pc = Some 0x84 ∨ rd code pc = Some 0xa9 ∨ rd code pc = Some 0xc4.
Definition handler_unchecked (i : nat) : Prop := (1 <= i)%nat ∧ S i = length (exception_table ca).
(** Code that ends in [goto_w] (0xc8) or a switch is refused. *)
Definition end_refused (pc : Z) : Prop :=
  rd code pc = Some 0xc8 ∨ rd code pc = Some 0xaa ∨ rd code pc = Some 0xab.

Definition valid_code : list Z → Prop := code_valid target_unchecked local_unchecked handler_unchecked end_refused.

(** ** Comparing the two *)

Context (Hwf : method_wf vmm).

(** A complete instruction. *)
Record insn_here (pc : Z) : Prop := {
  ih_start : 0 <= pc;
  ih_size : ∃ n, insn_length code pc = Some n ∧ pc + n <= Z.of_nat (length code) ∧ 1 <= n;
}.

Lemma insns_here pc ns : 0 <= pc → insns code pc ns → ∀ q, q ∈ starts pc ns → insn_here q.
Proof using Hwf.
  intros H0 Hi. induction Hi as [|pc n ns E Hn Hi IH]; cbn [starts]; [by intros q ?%elem_of_nil|].
  pose proof (mw_len _ Hwf) as Hl. pose proof (mw_size _ Hwf) as Hs.
  pose proof (safe_size code (mw_code _ Hwf) ltac:(lia) pc H0) as Hsz. rewrite E in Hsz. cbn in Hsz.
  destruct Hsz as [[-> _]|(H1 & Hlen & Hle & _)]; [unfold E_MALFORMED_BC in Hn; lia|].
  intros q [->|Hq]%elem_of_cons; [split; [done|]; eauto|]. apply IH; [lia|done].
Qed.

Lemma insn_here_info pc : insn_here pc →
  ∃ opc i n, rd code pc = Some opc ∧ 0 <= opc ∧ bytecode_info_of opc = Some i ∧ insn_length code pc = Some n ∧ pc + n <= Z.of_nat (length code) ∧
    (opc ≠ OPC_TABLESWITCH → opc ≠ OPC_LOOKUPSWITCH → opc ≠ OPC_WIDE → n = bi_size i) ∧
    (is_branch (kind_of opc) = true → opc ≠ OPC_TABLESWITCH → opc ≠ OPC_LOOKUPSWITCH →
      bi_size i = if decide (opc = 0xc8 ∨ opc = 0xc9) then 5 else 3).
Proof using Hwf.
  intros [H0 (n & Hn & Hle & _)]. destruct (insn_info (context_of vmm) (mw_code _ Hwf) pc n Hn) as (opc & i & Eo & Hp & Ei & Hni).
  exists opc, i, n. split_and!; [done..|]. intros Hb Ht Hl.
  destruct (opcode_kinds opc i Hp Ei) as (br & w & l & Eb & Ew & _ & _ & Hs & _).
  destruct (opcode_flags opc i Hp Ei) as (Eb' & _ & _ & Ew' & _). rewrite Eb' in Eb. injection Eb as <-.
  rewrite (Ew' Hb) in Ew. injection Ew as <-. destruct (Hs Hb Ht Hl) as [_ ->].
  by case_bool_decide; [rewrite decide_True|rewrite decide_False].
Qed.

Lemma bc_is_ret_kind pc : insn_here pc → bc_is_ret code pc = Some (bool_decide (kind_at code pc = Some Ret)).
Proof using Hwf.
  intros Hq. destruct (insn_here_info pc Hq) as (opc & i & n & Eo & _ & _ & Hn & _). unfold bc_is_ret, kind_at. rewrite Eo. cbn [mbind option_bind].
  destruct (decide (opc = OPC_WIDE)) as [->|Hw].
  - destruct (wide_next (context_of vmm) pc n Hn Eo) as [o Ho]. cbn in Ho. rewrite Ho. cbn. f_equal.
    unfold OPC_WIDE, OPC_RET. destruct (decide (0xc4 = 0xc4 ∧ Some o = Some 0xa9)) as [[_ [= ->]]|Hd].
    + by rewrite !bool_decide_eq_true_2.
    + rewrite bool_decide_eq_false_2 by (intros ->; apply Hd; done). symmetry. apply bool_decide_eq_false_2. by vm_compute.
  - cbn. f_equal. rewrite (decide_False (P := opc = 196 ∧ _)) by (intros [? _]; done). apply bool_decide_ext. unfold kind_of, OPC_RET.
    split; [by intros ->|]. intros [= E]. revert E. repeat case_decide; done.
Qed.

Lemma checked_targets_valid pc : insn_here pc → insn_here 0 →
  ∃ ts, checked_targets (context_of vmm) pc = Some ts ∧
    ∀ t, t ∈ ts ↔ ∃ k, nth_target code pc k = Some t ∧ ¬ target_unchecked pc k.
Proof using Hwf.
  intros Hq Hz. pose proof (bc_is_ret_kind 0 Hz) as Er. destruct (insn_here_info pc Hq) as (opc & i & n & Eo & Hp & Ei & Hn & Hle & Hni & Hsz).
  destruct (targets_without_spec code (mw_code _ Hwf) pc (ih_start _ Hq) n Hn Hle 1 opc i ltac:(lia) Eo Ei Hni Hsz) as (ts & Ets & Hts).
  unfold checked_targets, target_unchecked. cbn [vrf_code context_of]. destruct (opcode_flags opc i Hp Ei) as (Eb & _).
  unfold targets_without in Ets. rewrite Eo in Ets |- *. cbn [mbind option_bind] in Ets |- *. rewrite Eb in Ets |- *. cbn [mbind option_bind] in Ets |- *.
  destruct (is_branch (kind_of opc)) eqn:Hb.
  2: { exists ts. split; [done|]. intros t. injection Ets as <-. rewrite elem_of_nil. split; [done|]. intros (k & E & _). unfold nth_target in E.
       rewrite Eo in E. cbn [mbind option_bind] in E. by destruct (kind_of opc). }
  rewrite Er. cbn [mbind option_bind]. case_bool_decide as Hr.
  { exists []. split; [done|]. intros t. rewrite elem_of_nil. split; [done|]. intros (k & _ & Hk). tauto. }
  exists ts. split; [|intros t; rewrite Hts; naive_solver]. rewrite <- Ets. destruct (decide (opc = OPC_TABLESWITCH)); [|done].
  do 3 (destruct (read_s32 code _) as [?|]; [cbn [mbind option_bind]|done]). by rewrite Z.add_simpl_r.
Qed.

Lemma local_valid pc opc : insn_here pc → rd code pc = Some opc →
  (bc_uses_local_var opc = Some true → ∃ i, get_local_var_index code pc = Some i ∧ i < max_locals ca) ↔
  (∀ i, local_var code pc = Some i → ¬ local_unchecked pc → i < max_locals ca).
Proof using Hwf.
  intros Hq Eo. destruct (insn_here_info pc Hq) as (opc' & i & n & Eo' & Hp & Ei & Hn & Hle & Hni & _). rewrite Eo in Eo'. injection Eo' as <-.
  destruct (opcode_flags opc i Hp Ei) as (_ & _ & _ & _ & El). rewrite El.
  unfold local_unchecked, local_var, get_local_var_index, read_u8. rewrite Eo. cbn [mbind option_bind].
  unfold OPC_ILOAD_0, OPC_LLOAD_0, OPC_FLOAD_0, OPC_DLOAD_0, OPC_ALOAD_0, OPC_IALOAD, OPC_ISTORE_0, OPC_LSTORE_0, OPC_FSTORE_0,
    OPC_DSTORE_0, OPC_ASTORE_0, OPC_IASTORE in *.
  destruct (decide (0x15 <= opc <= 0x2d ∨ 0x36 <= opc <= 0x4e)) as [Hl|Hl].
  2: { rewrite bool_decide_eq_false_2 by done. split; [|done]. intros _ j Hj Hno. exfalso.
       repeat case_decide; try lia; try done; apply Hno; naive_solver lia. }
  rewrite bool_decide_eq_true_2 by done. assert (¬ (Some opc = Some 0x84 ∨ Some opc = Some 0xa9 ∨ Some opc = Some 0xc4)) as Hg
    by (intros [[=]|[[=]|[=]]]; lia).
  destruct (decide (0x15 <= opc <= 0x19 ∨ 0x36 <= opc <= 0x3a)) as [Hb|Hb].
  - rewrite (decide_True (P := 21 <= opc <= 25 ∨ _)) by tauto. repeat rewrite (decide_False (P := _ <= opc < _)) by lia.
    destruct (opcode_kinds opc i Hp Ei) as (_ & _ & l & _ & _ & El' & _ & _ & _ & Hsz & _). rewrite El in El'. injection El' as <-.
    rewrite bool_decide_eq_true_2 in Hsz by done. destruct (Hsz eq_refl) as (_ & Hw & Hsz').
    unfold OPC_ILOAD_0, OPC_IALOAD, OPC_ISTORE_0, OPC_IASTORE in Hsz'. rewrite Hni in Hle by (unfold OPC_TABLESWITCH, OPC_LOOKUPSWITCH; lia || done).
    destruct (rd_in code (mw_code _ Hwf) (pc + 1)) as (b & -> & _); [pose proof (ih_start _ Hq); lia|].
    split; [intros H j [= <-] _; by destruct (H eq_refl) as (? & [= <-] & ?)|]. intros H _. exists b. auto.
  - rewrite (decide_False (P := 21 <= opc <= 25 ∨ _)) by lia.
    assert ((if decide (26 ≤ opc ≤ 45) then Some ((opc - 26) mod 4) else
             if decide (59 ≤ opc ≤ 78) then Some ((opc - 59) mod 4) else if decide (opc = 196) then u16_at code (pc + 2) else None) =
            Some ((if decide (opc <= 45) then opc - 26 else opc - 59) mod 4)) as ->.
    { destruct (decide (opc <= 45)); [by rewrite decide_True by lia|]. by rewrite decide_False, decide_True by lia. }
    match goal with |- (_ → ∃ j, ?g = Some j ∧ _) ↔ _ => assert (g = Some ((if decide (opc <= 45) then opc - 26 else opc - 59) mod 4)) as -> end.
    { repeat case_decide; try lia; f_equal; Z.div_mod_to_equations; lia. }
    split; [intros H j [= <-] _; by destruct (H eq_refl) as (? & [= <-] & ?)|]. intros H _. eauto.
Qed.

Lemma constant_valid pc opc : insn_here pc → rd code pc = Some opc →
  (bc_is_ldc opc = true → ∃ index cp, ldc_index (context_of vmm) opc pc = Some index ∧ index < pool_count (context_of vmm) ∧
     pool (context_of vmm) !! Z.to_nat index = Some (Some cp) ∧ cp_tag cp ∈ ldc_tags opc) ↔
  (∀ i tags, constant_at code pc = Some (i, tags) → i < constant_pool_count (vmc_class (vmm_class vmm)) ∧
     ∃ c, constants !! Z.to_nat i = Some (Some c) ∧ cp_tag c ∈ tags).
Proof using Hwf.
  intros Hq Eo. destruct (insn_here_info pc Hq) as (opc' & i & n & Eo' & Hp & Ei & Hn & Hle & Hni & _). rewrite Eo in Eo'. injection Eo' as <-.
  destruct (opcode_kinds opc i Hp Ei) as (_ & _ & _ & _ & _ & _ & _ & _ & _ & _ & Hsz).
  unfold constant_at, ldc_index, pool, pool_count, ldc_tags, bc_is_ldc in *. cbn [vrf_code vrf_method context_of].
  rewrite Eo, read_u16_at by apply Hwf. unfold OPC_LDC, OPC_LDC_W, OPC_LDC2_W in *. cbn [mbind option_bind].
  pose proof (ih_start _ Hq) as H0.
  destruct (decide (opc = 18)) as [->|N1]; [|destruct (decide (opc = 19)) as [->|N2]; [|destruct (decide (opc = 20)) as [->|N3]]].
  - destruct (Hsz eq_refl) as [_ Hs]. rewrite Hni in Hle by done.
    destruct (rd_in code (mw_code _ Hwf) (pc + 1)) as (x & Ex & _); [lia|]. unfold read_u8. rewrite Ex. cbn.
    split; [intros H j tags [= <- <-]; destruct (H eq_refl) as (? & c & [= <-] & ? & ? & ?); eauto|].
    intros H _. destruct (H _ _ eq_refl) as (? & c & ? & ?). exists x, c. done.
  - destruct (Hsz eq_refl) as [_ Hs]. rewrite Hni in Hle by done.
    destruct (u16_at_in code (mw_code _ Hwf) (pc + 1)) as (x & Ex); [lia..|]. rewrite Ex. cbn.
    split; [intros H j tags [= <- <-]; destruct (H eq_refl) as (? & c & [= <-] & ? & ? & ?); eauto|].
    intros H _. destruct (H _ _ eq_refl) as (? & c & ? & ?). exists x, c. done.
  - destruct (Hsz eq_refl) as [_ Hs]. rewrite Hni in Hle by done.
    destruct (u16_at_in code (mw_code _ Hwf) (pc + 1)) as (x & Ex); [lia..|]. rewrite Ex. cbn.
    assert (∀ c, c ∈ [CAFEBABE_CONSTANT_TAG_DOUBLE; CAFEBABE_CONSTANT_TAG_LONG] ↔ c ∈ [5; 6]) as Ht
      by (intros c; change CAFEBABE_CONSTANT_TAG_DOUBLE with 6; change CAFEBABE_CONSTANT_TAG_LONG with 5; set_solver).
    split; [intros H j tags [= <- <-]; destruct (H eq_refl) as (? & c & [= <-] & ? & ? & ?%Ht); eauto|].
    intros H _. destruct (H _ _ eq_refl) as (? & c & ? & ?%Ht). exists x, c. done.
  - split; [done|]. intros _ H. rewrite !bool_decide_eq_false_2 in H by done. done.
Qed.

Lemma end_valid pc : insn_here pc →
  bc_is_unconditionnal_branch code pc = Some true ↔ ∃ k, kind_at code pc = Some k ∧ goes_on k = false ∧ ¬ end_refused pc.
Proof using Hwf.
  intros Hq. pose proof (bc_is_ret_kind pc Hq) as Er. destruct (insn_here_info pc Hq) as (opc & i & n & Eo & Hp & Ei & _).
  destruct (opcode_flags opc i Hp Ei) as (_ & Et & Ea & _). unfold bc_is_unconditionnal_branch, end_refused. rewrite Eo. cbn [mbind option_bind].
  rewrite Et, Er, Ea. unfold orelse, kind_at, bc_is_goto, bc_is_jsr, OPC_GOTO, OPC_JSR, OPC_JSR_W. rewrite Eo. cbn [mbind option_bind].
  destruct (decide (opc = 0xc4 ∧ rd code (pc + 1) = Some 0xa9)) as [[-> _]|Hw].
  { cbn. split; [|done]. intros _. exists Ret. split_and!; [done..|]. by intros [[=]|[[=]|[=]]]. }
  assert (∀ P : Prop, (∃ k, Some (kind_of opc) = Some k ∧ goes_on k = false ∧ P) ↔ goes_on (kind_of opc) = false ∧ P) as Hex
    by (intros P; naive_solver).
  rewrite Hex. clear Hex Er Et Ea Ei. unfold kind_of.
  assert (∀ x : Z, Some opc = Some x ↔ opc = x) as Hs by (intros x; naive_solver). rewrite !Hs. clear Hs.
  repeat case_decide; cbn; repeat (case_bool_decide; cbn); try (split; intros; (done || lia)).
Qed.

Context (Hne : code_length ca ≠ 0).

Lemma accepts_valid ns : accepts_as (context_of vmm) ns ↔ valid_code ns.
Proof using Hwf Hne.
  pose proof (mw_len _ Hwf) as Hl.
  assert (insns code 0 ns → ∀ q, q ∈ starts 0 ns → insn_here q) as Hh by (intros Hi; by apply insns_here).
  assert (insns code 0 ns → insn_here 0) as Hz.
  { intros Hi. apply Hh; [done|]. destruct Hi; [lia|by left]. }
  assert (∀ q, insn_here q → ∃ opc, rd code q = Some opc) as Hop.
  { intros q Hq. destruct (insn_here_info q Hq) as (opc & _ & _ & ? & _). eauto. }
  assert (∀ ex, (exception_table_length ca ≠ 0 ∧ ex ∈ checked_exceptions ca) ↔
    ∃ i, exception_table ca !! i = Some ex ∧ ¬ handler_unchecked i) as Hex.
  { intros ex. unfold checked_exceptions, handler_unchecked. rewrite <- (mw_table _ Hwf). split.
    - intros [_ (k & Ek & Hk)%elem_of_take]. exists k. split; [done|]. lia.
    - intros (k & Ek & Hk). pose proof (lookup_lt_Some _ _ _ Ek). split; [lia|]. apply elem_of_take. exists k. split; [done|]. lia. }
  split.
  - intros [Hi Hok Ht He Hend]. specialize (Hh Hi). specialize (Hz Hi). cbn in Hi, He. rewrite list.Forall_forall in Hok. constructor.
    + done.
    + intros pc k t Hpc Ek Hg. destruct (checked_targets_valid pc (Hh pc Hpc) Hz) as (ts & Ets & Hts). apply (Ht pc ts t Hpc Ets), Hts. eauto.
    + intros pc j Hpc Hj Hg. destruct (Hop pc (Hh pc Hpc)) as [opc Eo]. destruct (Hok pc Hpc) as [_ Hloc _].
      by apply (proj1 (local_valid pc opc (Hh pc Hpc) Eo) (Hloc opc Eo)).
    + intros pc j tags Hpc Hj. destruct (Hop pc (Hh pc Hpc)) as [opc Eo]. destruct (Hok pc Hpc) as [_ _ Hc].
      by apply (proj1 (constant_valid pc opc (Hh pc Hpc) Eo) (Hc opc Eo)).
    + intros j ex Ej Hg. destruct (proj2 (Hex ex)) as [H1 H2]; [eauto|]. by apply He.
    + destruct Hend as (ss & pc & Es & Eu). apply end_valid in Eu as (k & ? & ? & ?); [by eauto 10|]. apply Hh. rewrite Es. set_solver.
  - intros [Hi Ht Hloc Hc He Hend]. specialize (Hh Hi). specialize (Hz Hi).
    assert (∀ pc ts t, pc ∈ starts 0 ns → checked_targets (context_of vmm) pc = Some ts → t ∈ ts → t ∈ starts 0 ns) as Htg.
    { intros pc ts t Hpc Ets Hin. destruct (checked_targets_valid pc (Hh pc Hpc) Hz) as (ts' & Ets' & Hts). rewrite Ets in Ets'. injection Ets' as <-.
      apply Hts in Hin as (k & Ek & Hk). by eapply Ht. }
    constructor.
    + done.
    + apply list.Forall_forall. intros pc Hpc. destruct (checked_targets_valid pc (Hh pc Hpc) Hz) as (ts & Ets & _). constructor.
      * exists ts. split; [done|]. apply list.Forall_forall. intros t Hin. destruct (Hh t (Htg pc ts t Hpc Ets Hin)) as [? (n & _ & ? & ?)]. cbn. lia.
      * intros opc Eo. apply (local_valid pc opc (Hh pc Hpc) Eo). intros j Hj. by apply Hloc.
      * intros opc Eo. apply (constant_valid pc opc (Hh pc Hpc) Eo). intros j tags. by apply Hc.
    + done.
    + intros H1 ex H2. destruct (proj1 (Hex ex) (conj H1 H2)) as (j & Ej & Hg). by apply He in Ej.
    + destruct Hend as (ss & pc & k & Es & Hk). exists ss, pc. split; [done|]. apply end_valid; [apply Hh; rewrite Es; set_solver|eauto].
Qed.

(** Why behaviour may be undefined; such code is not accepted when memory suffices. *)
Definition undefined_cause `{Allocator} : Prop :=
  (¬ ∀ k size, malloc_ok k size = true) ∨
  (∃ q n, insn_length code q = Some n ∧ 2 ^ 31 <= n) ∨
  (∃ q i tags, constant_at code q = Some (i, tags) ∧ i < constant_pool_count (vmc_class (vmm_class vmm)) ∧
     mjoin (constants !! Z.to_nat i) = None) ∨
  ∃ ex, ex ∈ exception_table ca ∧ code_length ca <= handler_pc ex.

Lemma undefined_reason_cause `{Allocator} : undefined_reason (context_of vmm) →
  ((∀ k size, malloc_ok k size = true) → ¬ ∃ ns, valid_code ns) ∧ undefined_cause.
Proof using Hwf Hne.
  intros [Hn Hr]. split.
  - intros Hm (ns & Hns). apply (Hn Hm). exists ns. by apply accepts_valid.
  - destruct Hr as [?|[[(q & k & ? & ?)|(q & opc & index & Eo & El & Ex & ? & ?)]|(ex & Hin & ?)]];
      [by left|right; left; eauto|right; right; left|right; right; right].
    + exists q, index, (if decide (opc = 0x14) then [5; 6] else [3; 4; 8; 7]). split; [|done].
      unfold constant_at, ldc_index, bc_is_ldc in *. cbn [vrf_code context_of] in *. rewrite Eo. cbn [mbind option_bind].
      rewrite read_u16_at in Ex by apply Hwf. rewrite !orb_true_iff, !bool_decide_eq_true in El.
      unfold OPC_LDC, OPC_LDC_W, OPC_LDC2_W, read_u8 in *.
      destruct El as [[->| ->]| ->]; [rewrite decide_True in Ex by done|rewrite decide_False in Ex by done..]; cbn; by rewrite Ex.
    + exists ex. split; [|done]. unfold exceptions_looked_at, checked_exceptions in Hin. cbn [vrf_method context_of] in Hin.
      case_decide; [by apply elem_of_nil in Hin|]. apply elem_of_take in Hin as (k & Ek & _). by eapply list_elem_of_lookup_2.
Qed.
End valid.

(** A method that may pass: it has no code, or overrides no final method and its code is
    valid. *)
Definition method_valid (vmm : vm_method) : Prop :=
  has_no_code vmm ∨ (¬ overrides_final vmm ∧ ∃ ns, valid_code vmm ns).

Lemma verified_valid vmm : method_wf vmm → verified vmm ↔ method_valid vmm.
Proof.
  intros Hwf. unfold verified, method_valid, accepts.
  destruct (decide (code_length (code_attribute vmm) = 0)) as [E|Hne].
  { assert (has_no_code vmm) by (unfold has_no_code; tauto). tauto. }
  setoid_rewrite (accepts_valid vmm Hwf Hne). done.
Qed.

Lemma no_code_done `{Allocator} vmm h : has_no_code vmm → vm_method_verify vmm h = Done 0 h.
Proof.
  intros Hn. unfold vm_method_verify. destruct (_ || _ || _) eqn:En; [done|].
  rewrite !orb_false_iff, bool_decide_eq_false in En. destruct En as [[En1 En2] En3]. unfold has_no_code in Hn.
  rewrite En1, En2 in Hn. intuition congruence.
Qed.


(** ** Examples *)

Definition class0 : cafebabe_class :=
  Class_ 0xcafebabe 0 50 2 0%nat [None; Some (CPInteger 7)] 0 0 0 0 0%nat [] 0 0%nat [] 0 0%nat [] (AttributeArray 0 0%nat []).
Definition method0 (code : list Z) (exs : list cafebabe_code_attribute_exception) : vm_method :=
  VmMethod (MethodId (chars "m") (chars "()V") 0) (VmClass (chars "A") None class0)
    (CodeAttribute 2 1 (Z.of_nat (length code)) 0 (Z.of_nat (length exs)) 0%nat exs (AttributeArray 0 0%nat [])) code.

(** aload_0; ifnull +5; ldc 1; return, with a handler at the ldc *)
Definition good_method : vm_method := method0 [0x2a; 0xc6; 0; 5; 0x12; 1; 0xb1] [CodeException 0 4 4 0].


(** ret 0; goto +4096; return *)
Definition ret_method : vm_method := method0 [0xa9; 0; 0xa7; 0x10; 0; 0xb1] [].
(** tableswitch with one target, at 2^31 - 1; return *)
Definition switch_method : vm_method :=
  method0 [0xaa; 0; 0; 0; 0; 0; 0; 20; 0; 0; 0; 0; 0; 0; 0; 0; 0x7f; 0xff; 0xff; 0xff; 0xb1] [].
(** return, with two handlers, the second for the code from 7 to 3 at 65535 *)
Definition handler_method : vm_method := method0 [0xb1] [CodeException 0 1 0 0; CodeException 7 3 65535 0].

(** three kinds of invalid code that [vm_method_verify] lets through: branches of any
    kind when the code begins with a ret, the last target of a tableswitch, and the last
    of several entries of the exception table. *)
Theorem vm_method_verify_lets_through :
  (∃ h, vm_method_verify (H := λ _ _, true) ret_method (Mem 0 ∅) = Done 0 h) ∧
  bc_target_off (vmm_code ret_method) 2 = Some 4096 ∧
  (∃ h, vm_method_verify (H := λ _ _, true) switch_method (Mem 0 ∅) = Done 0 h) ∧
  read_s32 (vmm_code switch_method) 16 = Some (2 ^ 31 - 1) ∧
  (∃ h, vm_method_verify (H := λ _ _, true) handler_method (Mem 0 ∅) = Done 0 h).
Proof. split_and!; first [eexists; vm_compute; reflexivity | vm_compute; reflexivity]. Qed.

(** iinc 9 1; wide iload 300; return, with one variable *)
Definition variable_method : vm_method := method0 [0x84; 9; 1; 0xc4; 0x15; 1; 0x2c; 0xb1] [].
(** nop; goto_w -1 *)
Definition loop_method : vm_method := method0 [0; 0xc8; 0xff; 0xff; 0xff; 0xff] [].

(** the variables of iinc and of wide instructions are not checked, and a loop that ends in
    goto_w is refused as falling off the code. *)
Theorem vm_method_verify_variables :
  max_locals (code_attribute variable_method) = 1 ∧ local_var (vmm_code variable_method) 0 = Some 9 ∧
  local_var (vmm_code variable_method) 3 = Some 300 ∧
  (∃ h, vm_method_verify (H := λ _ _, true) variable_method (Mem 0 ∅) = Done 0 h) ∧
  (∃ h, vm_method_verify (H := λ _ _, true) loop_method (Mem 0 ∅) = Done E_FALLING_OFF h).
Proof. split_and!; first [eexists; vm_compute; reflexivity | vm_compute; reflexivity]. Qed.
