(* ===== verification/VerifyTyping.v ===== *)
(** * vm/verify-functions.c: what the typing of instructions computes

    A block stands for a change of the operand stack: what it takes off, which is the
    stack of its initial state, and what it leaves instead, the stack of its final one.
    Instructions are refined to steps on lists of types, and those compared with the
    types of the Java virtual machine specification. *)

From S2P Require Import Prelude Opcodes Bytecode CMonad Types Verifier VerifyFunctions.
#[local] Open Scope Z_scope.

(** ** Steps on types *)

Inductive step := Pop (t : vm_type) | Peek (t : vm_type) | Push (t : vm_type).

(** The types taken from below the block and those on its stack, from the top. *)
Definition tstate : Type := list vm_type * list vm_type.

Definition run_step (s : step) (st : tstate) : option tstate :=
  let '(i, f) := st in
  match s, f with
  | Push t, _ => Some (i, t :: f)
  | Pop t, [] => Some (i ++ [t], [])
  | Pop t, t' :: f' => if decide (t' = t) then Some (i, f') else None
  | Peek t, [] => Some (i ++ [t], [])
  | Peek t, t' :: _ => if decide (t' = t) then Some (i, f) else None
  end.
Fixpoint run_steps (sc : list step) (st : tstate) : option tstate :=
  match sc with [] => Some st | s :: sc' => st' ← run_step s st; run_steps sc' st' end.

(** ** Blocks represent types *)

Definition slots (t : vm_type) : list verifier_operand :=
  if vm_type_is_pair t then [Operand (Some t) true; Operand (Some t) false] else [Operand (Some t) false].

Definition represents (b : verifier_block) (st : tstate) : Prop :=
  stack (initial_state b) = st.1 ≫= slots ∧ stack (final_state b) = st.2 ≫= slots.

(** All but the stacks is the same. *)
Definition same_rest (b b' : verifier_block) : Prop :=
  begin_offset b' = begin_offset b ∧ bcode b' = bcode b ∧ bpc b' = bpc b ∧ opc b' = opc b ∧ is_wide b' = is_wide b ∧
  vars (initial_state b') = vars (initial_state b) ∧ vars (final_state b') = vars (final_state b).

Section implements.
Context `{Allocator} (Hall : ∀ k size, malloc_ok k size = true).

(** A function on blocks does these steps. *)
Definition implements (f : verify_fn) (sc : list step) : Prop :=
  ∀ b st h, represents b st →
    match run_steps sc st, f b h with
    | Some st', Done (err, b') _ => err = 0 ∧ represents b' st' ∧ same_rest b b'
    | None, Done (err, b') _ => err = E_TYPE_CHECKING
    | _, _ => False
    end.

Lemma implements_done : implements done_ [].
Proof. by intros b st h Hr. Qed.

Lemma implements_then f k s sc : implements f [s] → implements k sc → implements (f ;;; k) (s :: sc).
Proof.
  intros Hf Hk b st h Hr. specialize (Hf b st h Hr). cbn in Hf |- *. unfold then_, bind.
  destruct (run_step s st) as [st1|]; cbn in Hf |- *; destruct (f b h) as [[err b1] h1| |]; try done.
  - destruct Hf as (-> & Hr1 & Hs1). rewrite decide_False by (cbn; tauto). cbn [snd]. specialize (Hk b1 st1 h1 Hr1). destruct (run_steps sc st1), (k b1 h1) as [[e b2] h2| |]; try done.
    destruct Hk as (-> & Hr2 & Hs2). split; [done|]. split; [done|]. unfold same_rest in *. intuition congruence.
  - by subst err.
Qed.

Lemma alloc_stack_eq t h : ∃ h', alloc_verifier_stack t h = Done (Some (Operand (Some t) false)) h'.
Proof using Hall. unfold alloc_verifier_stack, malloc, bind, mem_malloc. rewrite Hall. by eexists. Qed.

Lemma tail_def_eq s t h : ∃ h', tail_def_vrf_op s t h = Done (0, set_stack (stack s ++ slots t) s) h'.
Proof using Hall.
  unfold tail_def_vrf_op, slots. unfold bind at 1. destruct (alloc_stack_eq t h) as [h1 ->].
  destruct (vm_type_is_pair t); [|by eexists]. unfold bind. destruct (alloc_stack_eq t h1) as [h2 ->]. eexists. cbn.
  by rewrite <- app_assoc.
Qed.

Lemma push_eq t b h :
  ∃ h', push_vrf_op t b h = Done (0, set_final (set_stack (slots t ++ stack (final_state b)) (final_state b)) b) h'.
Proof using Hall.
  unfold push_vrf_op, slots. unfold bind at 1. destruct (alloc_stack_eq t h) as [h1 ->].
  destruct (vm_type_is_pair t); [|by eexists]. unfold bind. destruct (alloc_stack_eq t h1) as [h2 ->]. by eexists.
Qed.

Lemma implements_push t : implements (push_vrf_op t) [Push t].
Proof using Hall.
  intros b [i f] h [Hi Hf]. cbn in *. destruct (push_eq t b h) as [h' ->]. split; [done|]. split; [|by destruct b as [? [] [] ? ? ? ?]].
  split; cbn; [done|]. by rewrite Hf.
Qed.

(** Nothing on the stack: the type is one of the stack below. *)
Lemma tail_def_initial_eq t b i f h : represents b (i, f) →
  ∃ b' h', tail_def_initial t b h = Done (0, b') h' ∧ represents b' (i ++ [t], f) ∧ same_rest b b'.
Proof using Hall.
  intros [Hi Hf]. unfold tail_def_initial, bind. destruct (tail_def_eq (initial_state b) t h) as [h1 ->]. cbn.
  eexists _, _. split; [done|]. split; [|by destruct b as [? [] [] ? ? ? ?]]. split; cbn in *; [|done]. rewrite Hi, bind_app. cbn. by rewrite app_nil_r.
Qed.

(** The slots of the first type are found. *)
Lemma slots_head t t' f : slot_is ((t' :: f) ≫= slots) t (vm_type_is_pair t) = bool_decide (t' = t).
Proof using.
  cbn. unfold slots. destruct (decide (t' = t)) as [->|Hne].
  - rewrite bool_decide_eq_true_2 by done. destruct (vm_type_is_pair t); cbn; by rewrite bool_decide_eq_true_2.
  - rewrite bool_decide_eq_false_2 by done. destruct (vm_type_is_pair t'); cbn; by rewrite bool_decide_eq_false_2 by congruence.
Qed.

Lemma implements_pop t : implements (pop_vrf_op t) [Pop t].
Proof using Hall.
  intros b [i f] h Hr. pose proof Hr as [Hi Hf]. cbn in Hi, Hf |- *. unfold pop_vrf_op. destruct f as [|t' f].
  - cbn in Hf. rewrite Hf. destruct (tail_def_initial_eq t b i [] h Hr) as (b' & h' & -> & ?). done.
  - pose proof (slots_head t t' f) as Hh. rewrite <- Hf in Hh.
    destruct (stack (final_state b)) as [|x st] eqn:Es. { cbn in Hf. unfold slots in Hf. by destruct (vm_type_is_pair t'). }
    rewrite <- Es in Hh, Hf |- *. destruct (vm_type_is_pair t) eqn:Ep; cbn [andb].
    + rewrite Hh. case_bool_decide as Ht; cbn [negb]; [|by rewrite decide_False]. subst t'. rewrite decide_True by done.
      cbn in Hf. unfold slots in Hf at 1. rewrite Ep in Hf. cbn. rewrite Hf. cbn. rewrite bool_decide_eq_true_2 by done. cbn.
      split; [done|]. split; [|by destruct b as [? [] [] ? ? ? ?]]. by split.
    + rewrite Hh. case_bool_decide as Ht; cbn [negb]; [|by rewrite decide_False]. subst t'. rewrite decide_True by done.
      cbn in Hf. unfold slots in Hf at 1. rewrite Ep in Hf. cbn. rewrite Hf. cbn.
      split; [done|]. split; [|by destruct b as [? [] [] ? ? ? ?]]. by split.
Qed.

Lemma implements_peek t : implements (peek_vrf_op t) [Peek t].
Proof using Hall.
  intros b [i f] h Hr. pose proof Hr as [Hi Hf]. cbn in Hi, Hf |- *. unfold peek_vrf_op. destruct f as [|t' f].
  - cbn in Hf. rewrite Hf. destruct (tail_def_initial_eq t b i [] h Hr) as (b' & h' & -> & ?). done.
  - pose proof (slots_head t t' f) as Hh. rewrite <- Hf in Hh.
    destruct (stack (final_state b)) as [|x st] eqn:Es. { cbn in Hf. unfold slots in Hf. by destruct (vm_type_is_pair t'). }
    destruct (vm_type_is_pair t) eqn:Ep; cbn [andb].
    + rewrite Hh. case_bool_decide as Ht; cbn [negb]; [|by rewrite decide_False]. subst t'. rewrite decide_True by done.
      cbn in Hf. unfold slots in Hf at 1. rewrite Ep in Hf. injection Hf as -> ->. cbn. by rewrite bool_decide_eq_true_2.
    + rewrite Hh. case_bool_decide as Ht; cbn [negb]; [|by rewrite decide_False]. subst t'. by rewrite decide_True.
Qed.
End implements.

(** ** The table *)

(** The steps of the instructions that use only the stack, by opcode. *)
Definition steps_of : list (option (list step)) :=
  [Some []; Some [Push J_REFERENCE]; Some [Push J_INT]; Some [Push J_INT];
   Some [Push J_INT]; Some [Push J_INT]; Some [Push J_INT]; Some [Push J_INT];
   Some [Push J_INT]; Some [Push J_LONG]; Some [Push J_LONG]; Some [Push J_FLOAT];
   Some [Push J_FLOAT]; Some [Push J_FLOAT]; Some [Push J_DOUBLE]; Some [Push J_DOUBLE];
   Some [Push J_INT]; Some [Push J_INT]; None; None;
   None; None; None; None;
   None; None; None; None;
   None; None; None; None;
   None; None; None; None;
   None; None; None; None;
   None; None; None; None;
   None; None; Some [Pop J_INT; Pop J_REFERENCE; Push J_INT]; Some [Pop J_INT; Pop J_REFERENCE; Push J_LONG];
   Some [Pop J_INT; Pop J_REFERENCE; Push J_FLOAT]; Some [Pop J_INT; Pop J_REFERENCE; Push J_DOUBLE]; Some [Pop J_INT; Pop J_REFERENCE; Push J_REFERENCE]; Some [Pop J_INT; Pop J_REFERENCE; Push J_BYTE];
   Some [Pop J_INT; Pop J_REFERENCE; Push J_CHAR]; Some [Pop J_INT; Pop J_REFERENCE; Push J_SHORT]; None; None;
   None; None; None; None;
   None; None; None; None;
   None; None; None; None;
   None; None; None; None;
   None; None; None; None;
   None; None; None; Some [Pop J_INT; Pop J_INT; Pop J_REFERENCE];
   Some [Pop J_LONG; Pop J_INT; Pop J_REFERENCE]; Some [Pop J_FLOAT; Pop J_INT; Pop J_REFERENCE]; Some [Pop J_DOUBLE; Pop J_INT; Pop J_REFERENCE]; Some [Pop J_REFERENCE; Pop J_INT; Pop J_REFERENCE];
   Some [Pop J_BYTE; Pop J_INT; Pop J_REFERENCE]; Some [Pop J_CHAR; Pop J_INT; Pop J_REFERENCE]; Some [Pop J_SHORT; Pop J_INT; Pop J_REFERENCE]; None;
   None; None; None; None;
   None; None; None; None;
   Some [Pop J_INT; Peek J_INT]; Some [Pop J_LONG; Peek J_LONG]; Some [Pop J_FLOAT; Peek J_FLOAT]; Some [Pop J_DOUBLE; Peek J_DOUBLE];
   Some [Pop J_INT; Peek J_INT]; Some [Pop J_LONG; Peek J_LONG]; Some [Pop J_FLOAT; Peek J_FLOAT]; Some [Pop J_DOUBLE; Peek J_DOUBLE];
   Some [Pop J_INT; Peek J_INT]; Some [Pop J_LONG; Peek J_LONG]; Some [Pop J_FLOAT; Peek J_FLOAT]; Some [Pop J_DOUBLE; Peek J_DOUBLE];
   Some [Pop J_INT; Peek J_INT]; Some [Pop J_LONG; Peek J_LONG]; Some [Pop J_FLOAT; Peek J_FLOAT]; Some [Pop J_DOUBLE; Peek J_DOUBLE];
   Some [Pop J_INT; Peek J_INT]; Some [Pop J_LONG; Peek J_LONG]; Some [Pop J_FLOAT; Peek J_FLOAT]; Some [Pop J_DOUBLE; Peek J_DOUBLE];
   Some [Peek J_INT]; Some [Peek J_LONG]; Some [Peek J_FLOAT]; Some [Peek J_DOUBLE];
   Some [Pop J_INT; Pop J_INT; Push J_INT]; Some [Pop J_LONG; Pop J_INT; Push J_LONG]; Some [Pop J_INT; Pop J_INT; Push J_INT]; Some [Pop J_LONG; Pop J_INT; Push J_LONG];
   Some [Pop J_INT; Pop J_INT; Push J_INT]; Some [Pop J_LONG; Pop J_INT; Push J_LONG]; Some [Pop J_INT; Peek J_INT]; Some [Pop J_LONG; Peek J_LONG];
   Some [Pop J_INT; Peek J_INT]; Some [Pop J_LONG; Peek J_LONG]; Some [Pop J_INT; Peek J_INT]; Some [Pop J_LONG; Peek J_LONG];
   None; Some [Pop J_INT; Push J_LONG]; Some [Pop J_INT; Push J_FLOAT]; Some [Pop J_INT; Push J_DOUBLE];
   Some [Pop J_LONG; Push J_INT]; Some [Pop J_LONG; Push J_FLOAT]; Some [Pop J_LONG; Push J_DOUBLE]; Some [Pop J_FLOAT; Push J_INT];
   Some [Pop J_FLOAT; Push J_LONG]; Some [Pop J_FLOAT; Push J_DOUBLE]; Some [Pop J_DOUBLE; Push J_INT]; Some [Pop J_DOUBLE; Push J_LONG];
   Some [Pop J_DOUBLE; Push J_FLOAT]; Some [Pop J_INT; Push J_BYTE]; Some [Pop J_INT; Push J_CHAR]; Some [Pop J_INT; Push J_SHORT];
   Some [Pop J_LONG; Pop J_LONG; Push J_INT]; Some [Pop J_FLOAT; Pop J_FLOAT; Push J_INT]; Some [Pop J_FLOAT; Pop J_FLOAT; Push J_INT]; Some [Pop J_DOUBLE; Pop J_DOUBLE; Push J_INT];
   Some [Pop J_DOUBLE; Pop J_DOUBLE; Push J_INT]; Some [Pop J_INT]; Some [Pop J_INT]; Some [Pop J_INT];
   Some [Pop J_INT]; Some [Pop J_INT]; Some [Pop J_INT]; Some [Pop J_INT; Pop J_INT];
   Some [Pop J_INT; Pop J_INT]; Some [Pop J_INT; Pop J_INT]; Some [Pop J_INT; Pop J_INT]; Some [Pop J_INT; Pop J_INT];
   Some [Pop J_INT; Pop J_INT]; Some [Pop J_REFERENCE; Pop J_REFERENCE]; Some [Pop J_REFERENCE; Pop J_REFERENCE]; Some [];
   Some [Push J_RETURN_ADDRESS]; None; None; None;
   Some [Peek J_INT]; Some [Peek J_LONG]; Some [Peek J_FLOAT]; Some [Peek J_DOUBLE];
   Some [Peek J_REFERENCE]; Some []; None; None;
   None; None; None; None;
   None; None; None; Some [Push J_REFERENCE];
   None; None; Some [Pop J_REFERENCE; Push J_INT]; Some [Pop J_REFERENCE];
   None; None; Some [Pop J_REFERENCE]; Some [Pop J_REFERENCE];
   None; None; Some [Pop J_REFERENCE]; Some [Pop J_REFERENCE];
   Some []; Some [Push J_RETURN_ADDRESS]].

Section table.
Context `{Allocator} (Hall : ∀ k size, malloc_ok k size = true).

Ltac implement :=
  repeat first [apply implements_done|apply implements_then; [first [apply implements_push|apply implements_pop|apply implements_peek]; assumption|]];
  try (first [apply implements_push|apply implements_pop|apply implements_peek]; assumption).

Lemma verifiers_implement :
  Forall2 (λ f sc, ∀ s, sc = Some s → ∃ g, f = Some g ∧ implements g s) verifiers steps_of.
Proof using Hall.
  unfold verifiers, steps_of.
  repeat (constructor; [intros s Hs; first [discriminate Hs|injection Hs as <-; eexists; split; [reflexivity|]; solve [implement]]|]).
  constructor.
Qed.
End table.

(** ** What steps take and leave *)

(** The types taken from the stack and those left on it, after [pushed] was left. *)
Fixpoint effect (sc : list step) (pushed : list vm_type) : option (list vm_type * list vm_type) :=
  match sc with
  | [] => Some ([], pushed)
  | Push t :: sc' => effect sc' (t :: pushed)
  | Pop t :: sc' =>
    match pushed with
    | [] => '(p, q) ← effect sc' []; Some (t :: p, q)
    | t' :: pushed' => if decide (t' = t) then effect sc' pushed' else None
    end
  | Peek t :: sc' =>
    match pushed with
    | [] => '(p, q) ← effect sc' [t]; Some (t :: p, q)
    | t' :: _ => if decide (t' = t) then effect sc' pushed else None
    end
  end.

(** A stack that is deep enough. *)
Lemma effect_run sc pushed p q i f : effect sc pushed = Some (p, q) → (length p <= length f)%nat →
  run_steps sc (i, pushed ++ f) = if decide (take (length p) f = p) then Some (i, q ++ drop (length p) f) else None.
Proof.
  revert pushed p q f. induction sc as [|[t|t|t] sc IH]; intros pushed p q f E Hl; cbn in E.
  - injection E as <- <-. cbn. by rewrite decide_True.
  - destruct pushed as [|t' pushed]; [|case_decide; [subst t'; cbn; rewrite decide_True by done; by apply IH|done]].
    destruct (effect sc []) as [[p' q']|] eqn:E'; [|done]. injection E as <- <-. cbn in Hl. destruct f as [|t' f]; [cbn in Hl; lia|].
    cbn in Hl |- *. destruct (decide (t' = t)) as [->|Hne]; cbn.
    + pose proof (IH [] p' q' f E' ltac:(lia)) as Hi. cbn [app] in Hi. rewrite Hi. destruct (decide (take (length p') f = p')) as [Ht|Ht].
      * by rewrite decide_True by (f_equal; done).
      * rewrite decide_False; [done|]. intros [= ?]. done.
    + rewrite decide_False; [done|]. congruence.
  - destruct pushed as [|t' pushed]; [|case_decide; [subst t'; cbn; rewrite decide_True by done; by apply (IH (t :: pushed))|done]].
    destruct (effect sc [t]) as [[p' q']|] eqn:E'; [|done]. injection E as <- <-. cbn in Hl. destruct f as [|t' f]; [cbn in Hl; lia|].
    cbn in Hl |- *. destruct (decide (t' = t)) as [->|Hne]; cbn.
    + pose proof (IH [t] p' q' f E' ltac:(lia)) as Hi. cbn [app] in Hi. rewrite Hi. destruct (decide (take (length p') f = p')) as [Ht|Ht].
      * by rewrite decide_True by (f_equal; done).
      * rewrite decide_False; [done|]. intros [= ?]. done.
    + rewrite decide_False; [done|]. congruence.
  - cbn. by apply (IH (t :: pushed)).
Qed.

Definition no_peek (sc : list step) : bool := forallb (λ s, match s with Peek _ => false | _ => true end) sc.

(** A stack that ends first: the rest is taken from below. *)
Lemma effect_infers sc pushed p q i f : effect sc pushed = Some (p, q) → no_peek sc = true → (length f <= length p)%nat →
  run_steps sc (i, pushed ++ f) = if decide (take (length f) p = f) then Some (i ++ drop (length f) p, q) else None.
Proof.
  revert pushed p q f i. induction sc as [|[t|t|t] sc IH]; intros pushed p q f i E Hp Hl; cbn in E, Hp; [| |done|].
  - injection E as <- <-. destruct f; [|cbn in Hl; lia]. cbn. by rewrite !app_nil_r.
  - destruct pushed as [|t' pushed]; [|case_decide; [subst t'; cbn; rewrite decide_True by done; by apply IH|done]].
    destruct (effect sc []) as [[p' q']|] eqn:E'; [|done]. injection E as <- <-. destruct f as [|t' f]; cbn in Hl |- *.
    + pose proof (IH [] p' q' [] (i ++ [t]) E' Hp ltac:(cbn; lia)) as Hi. cbn in Hi. rewrite Hi. by rewrite <- app_assoc.
    + destruct (decide (t' = t)) as [->|Hne]; cbn.
      * pose proof (IH [] p' q' f i E' Hp ltac:(lia)) as Hi. cbn [app] in Hi. rewrite Hi. destruct (decide (take (length f) p' = f)) as [Ht|Ht].
        -- by rewrite decide_True by (f_equal; done).
        -- rewrite decide_False; [done|]. intros [= ?]. done.
      * rewrite decide_False; [done|]. congruence.
  - cbn. by apply (IH (t :: pushed)).
Qed.

(** ** The types of the Java virtual machine *)

(** The instructions whose operands have fixed types and are all on the stack, in groups
    with the types they take, from the top, and leave.  Not among them are the
    instructions with local variables, the constants of ldc, pop, dup and swap, and those
    whose types are in the constant pool: fields, invocations and multianewarray. *)
Definition jvm_groups : list (list Z * list vm_type * list vm_type) :=
  let I := J_INT in let L := J_LONG in let F := J_FLOAT in let D := J_DOUBLE in let A := J_REFERENCE in
  [([OPC_NOP; OPC_GOTO; OPC_GOTO_W; OPC_RETURN], [], []);
   ([OPC_ACONST_NULL; OPC_NEW], [], [A]);
   ([OPC_ICONST_M1; OPC_ICONST_0; OPC_ICONST_1; OPC_ICONST_2; OPC_ICONST_3; OPC_ICONST_4; OPC_ICONST_5; OPC_BIPUSH; OPC_SIPUSH], [], [I]);
   ([OPC_LCONST_0; OPC_LCONST_1], [], [L]);
   ([OPC_FCONST_0; OPC_FCONST_1; OPC_FCONST_2], [], [F]);
   ([OPC_DCONST_0; OPC_DCONST_1], [], [D]);
   ([OPC_JSR; OPC_JSR_W], [], [J_RETURN_ADDRESS]);
   ([OPC_IALOAD; OPC_BALOAD; OPC_CALOAD; OPC_SALOAD], [I; A], [I]);
   ([OPC_LALOAD], [I; A], [L]); ([OPC_FALOAD], [I; A], [F]); ([OPC_DALOAD], [I; A], [D]); ([OPC_AALOAD], [I; A], [A]);
   ([OPC_IASTORE; OPC_BASTORE; OPC_CASTORE; OPC_SASTORE], [I; I; A], []);
   ([OPC_LASTORE], [L; I; A], []); ([OPC_FASTORE], [F; I; A], []); ([OPC_DASTORE], [D; I; A], []); ([OPC_AASTORE], [A; I; A], []);
   ([OPC_IADD; OPC_ISUB; OPC_IMUL; OPC_IDIV; OPC_IREM; OPC_IAND; OPC_IOR; OPC_IXOR; OPC_ISHL; OPC_ISHR; OPC_IUSHR], [I; I], [I]);
   ([OPC_LADD; OPC_LSUB; OPC_LMUL; OPC_LDIV; OPC_LREM; OPC_LAND; OPC_LOR; OPC_LXOR], [L; L], [L]);
   ([OPC_LSHL; OPC_LSHR; OPC_LUSHR], [I; L], [L]);
   ([OPC_FADD; OPC_FSUB; OPC_FMUL; OPC_FDIV; OPC_FREM], [F; F], [F]);
   ([OPC_DADD; OPC_DSUB; OPC_DMUL; OPC_DDIV; OPC_DREM], [D; D], [D]);
   ([OPC_INEG; OPC_I2B; OPC_I2C; OPC_I2S], [I], [I]); ([OPC_LNEG], [L], [L]); ([OPC_FNEG], [F], [F]); ([OPC_DNEG], [D], [D]);
   ([OPC_I2L], [I], [L]); ([OPC_I2F], [I], [F]); ([OPC_I2D], [I], [D]);
   ([OPC_L2I], [L], [I]); ([OPC_L2F], [L], [F]); ([OPC_L2D], [L], [D]);
   ([OPC_F2I], [F], [I]); ([OPC_F2L], [F], [L]); ([OPC_F2D], [F], [D]);
   ([OPC_D2I], [D], [I]); ([OPC_D2L], [D], [L]); ([OPC_D2F], [D], [F]);
   ([OPC_LCMP], [L; L], [I]); ([OPC_FCMPL; OPC_FCMPG], [F; F], [I]); ([OPC_DCMPL; OPC_DCMPG], [D; D], [I]);
   ([OPC_IFEQ; OPC_IFNE; OPC_IFLT; OPC_IFGE; OPC_IFGT; OPC_IFLE], [I], []);
   ([OPC_IF_ICMPEQ; OPC_IF_ICMPNE; OPC_IF_ICMPLT; OPC_IF_ICMPGE; OPC_IF_ICMPGT; OPC_IF_ICMPLE], [I; I], []);
   ([OPC_IF_ACMPEQ; OPC_IF_ACMPNE], [A; A], []);
   ([OPC_IFNULL; OPC_IFNONNULL; OPC_ATHROW; OPC_MONITORENTER; OPC_MONITOREXIT], [A], []);
   ([OPC_ARRAYLENGTH; OPC_INSTANCEOF], [A], [I]); ([OPC_CHECKCAST], [A], [A]); ([OPC_NEWARRAY; OPC_ANEWARRAY], [I], [A]);
   ([OPC_TABLESWITCH; OPC_LOOKUPSWITCH; OPC_IRETURN], [I], []); ([OPC_LRETURN], [L], []); ([OPC_FRETURN], [F], []);
   ([OPC_DRETURN], [D], []); ([OPC_ARETURN], [A], [])].

(** The instructions whose function in the source says otherwise: shifts of a long, values
    narrower than an int, newarray, the returns with a value, which leave it on the
    stack, and those that are not implemented. *)
Definition jvm_exceptions : list Z :=
  [OPC_LSHL; OPC_LSHR; OPC_LUSHR; OPC_BALOAD; OPC_CALOAD; OPC_SALOAD; OPC_BASTORE; OPC_CASTORE; OPC_SASTORE; OPC_I2B; OPC_I2C; OPC_I2S;
   OPC_NEWARRAY; OPC_IRETURN; OPC_LRETURN; OPC_FRETURN; OPC_DRETURN; OPC_ARETURN;
   OPC_ANEWARRAY; OPC_INSTANCEOF; OPC_CHECKCAST; OPC_TABLESWITCH; OPC_LOOKUPSWITCH].

Definition jvm_type (o : Z) (p q : list vm_type) : Prop := ∃ os, (os, p, q) ∈ jvm_groups ∧ o ∈ os.

Definition type_check (g : list Z * list vm_type * list vm_type) : bool :=
  let '(os, p, q) := g in
  forallb (λ o, bool_decide (0 <= o ∧ o ≠ OPC_WIDE) &&
    (bool_decide (o ∈ jvm_exceptions) ||
     match steps_of !! Z.to_nat o with Some (Some sc) => bool_decide (effect sc [] = Some (p, q)) | _ => false end)) os.

Lemma jvm_type_steps o p q : jvm_type o p q → o ∉ jvm_exceptions →
  0 <= o ∧ o ≠ OPC_WIDE ∧ ∃ sc, steps_of !! Z.to_nat o = Some (Some sc) ∧ effect sc [] = Some (p, q).
Proof.
  intros (os & Hg & Ho) Hx. assert (forallb type_check jvm_groups = true) as Hall by (vm_compute; reflexivity).
  rewrite forallb_forall in Hall. specialize (Hall _ (proj1 (list_elem_of_In _ _) Hg)). cbn in Hall.
  rewrite forallb_forall in Hall. specialize (Hall o (proj1 (list_elem_of_In _ _) Ho)).
  apply andb_true_iff in Hall as [H1%bool_decide_eq_true_1 H2]. apply orb_true_iff in H2 as [H2%bool_decide_eq_true_1|H2]; [done|].
  destruct (steps_of !! Z.to_nat o) as [[sc|]|]; [|done..]. apply bool_decide_eq_true_1 in H2. destruct H1. eauto.
Qed.

Lemma verify_instruction_steps `{Allocator} b o sc st h :
  (∀ k size, malloc_ok k size = true) → read_u8 (bcode b) (block_pos b 0) = Some o → o ≠ OPC_WIDE →
  steps_of !! Z.to_nat o = Some (Some sc) → represents b st →
  ∃ err b' h', verify_instruction b h = Done (err, b') h' ∧
    match run_steps sc st with Some st' => err = 0 ∧ represents b' st' | None => err = E_TYPE_CHECKING end.
Proof.
  intros Hall Eo Hw Es Hr. unfold verify_instruction. rewrite Eo. unfold bind, lift, ret. rewrite decide_False by done. cbn [opc].
  destruct (Forall2_lookup_r _ _ _ _ _ (verifiers_implement Hall) Es) as (f & Ef & Hf).
  destruct (Hf sc eq_refl) as (g & -> & Hg). unfold verify_fn in *. rewrite Ef.
  set (b1 := VBlock _ _ _ _ _ _ _). specialize (Hg b1 st h Hr).
  destruct (run_steps sc st) as [st'|], (g b1 h) as [[err b'] h'| |]; try done; eexists _, _, _; (split; [reflexivity|]); tauto.
Qed.

(** ** Local variables *)

Lemma lvar_set s idx v s' j : set_lvar s idx v = Some s' → 0 <= j →
  lvar s' j = if decide (j = idx) then Some v else lvar s j.
Proof.
  unfold set_lvar, lvar. destruct (vars s) as [vs|]; [|done]. cbn. intros E Hj. destruct (decide (0 <= idx < _)) as [Hr|]; [|done].
  injection E as <-. cbn. rewrite !(decide_True (P := 0 <= j)) by done. destruct (decide (j = idx)) as [Ej|Ej].
  - subst j. by rewrite list_lookup_insert_eq by lia.
  - by rewrite list_lookup_insert_ne by lia.
Qed.
Lemma set_lvar_some s idx v w : lvar s idx = Some w → ∃ s', set_lvar s idx v = Some s'.
Proof.
  unfold set_lvar, lvar. destruct (vars s) as [vs|]; [|done]. cbn. case_decide; [|done]. intros E%lookup_lt_Some.
  rewrite decide_True by lia. eauto.
Qed.

Definition var_width (t : vm_type) : Z := if vm_type_is_pair t then 2 else 1.

Lemma def_vrf_lvar_spec s t idx : 0 <= idx < 2 ^ 32 - 1 → (∀ j, idx <= j < idx + var_width t → is_Some (lvar s j)) →
  ∃ s' frag, def_vrf_lvar s t idx = Some s' ∧
    lvar s' idx = Some (LocalVar DEFINED (Operand (Some t) frag)) ∧
    (vm_type_is_pair t = true → frag = false ∧ lvar s' (idx + 1) = Some (LocalVar DEFINED (Operand (Some t) true))) ∧
    ∀ j, 0 <= j → ¬ (idx <= j < idx + var_width t) → lvar s' j = lvar s j.
Proof.
  intros Hi Hin. unfold def_vrf_lvar, var_width in *.
  destruct (Hin idx) as [v0 E0]; [destruct (vm_type_is_pair t); lia|]. rewrite E0. cbn [mbind option_bind].
  destruct (set_lvar_some s idx (LocalVar DEFINED (Operand (Some t) (is_fragment (lv_op v0)))) _ E0) as [s1 E1]. rewrite E1. cbn [mbind option_bind].
  pose proof (λ j, lvar_set _ _ _ _ j E1) as L1. destruct (vm_type_is_pair t) eqn:Ep; cbn [negb].
  - destruct (set_lvar_some s1 idx (LocalVar DEFINED (Operand (Some t) false)) (LocalVar DEFINED (Operand (Some t) (is_fragment (lv_op v0))))) as [s2 E2].
    { rewrite L1 by lia. by rewrite decide_True. }
    rewrite E2. cbn [mbind option_bind]. pose proof (λ j, lvar_set _ _ _ _ j E2) as L2. rewrite u32_id by clia.
    destruct (Hin (idx + 1)) as [v1 Ev1]; [lia|].
    destruct (set_lvar_some s2 (idx + 1) (LocalVar DEFINED (Operand (Some t) true)) v1) as [s3 E3].
    { rewrite L2, decide_False, L1, decide_False by lia. done. }
    pose proof (λ j, lvar_set _ _ _ _ j E3) as L3. exists s3, false. rewrite E3. split_and!; [done| |intros _; split; [done|]|].
    + rewrite L3, decide_False, L2, decide_True by lia. done.
    + rewrite L3, decide_True by lia. done.
    + intros j Hj Hout. rewrite L3, decide_False, L2, decide_False, L1, decide_False by lia. done.
  - eexists s1, _. split_and!; [done| |done|].
    + rewrite L1 by lia. by rewrite decide_True.
    + intros j Hj Hout. rewrite L1, decide_False by lia. done.
Qed.

(** ** From one block to the next *)

Definition typed (op : verifier_operand) : Prop := is_Some (op_vm_type op).

Lemma cmp_verifier_op_spec op1 op2 : typed op1 → typed op2 →
  cmp_verifier_op op1 op2 = Some (if decide (op1 = op2) then 0 else E_TYPE_CHECKING).
Proof.
  destruct op1 as [o1 f1], op2 as [o2 f2]. intros [t1 E1] [t2 E2]. cbn in E1, E2. subst o1 o2. unfold cmp_verifier_op. cbn. f_equal.
  destruct (decide (t1 = t2)) as [->|Ht].
  - rewrite decide_False by tauto. destruct (decide (f1 = f2)) as [->|Hf].
    + by rewrite decide_False, decide_True by tauto.
    + by rewrite decide_True, decide_False by congruence.
  - by rewrite decide_True, decide_False by congruence.
Qed.

Lemma transition_slots_spec stc stn : Forall typed stc → Forall typed stn → (length stn <= length stc)%nat →
  ∃ e, transition_slots stc stn = Some e ∧ (e = 0 ↔ ∃ rest, stc = stn ++ rest).
Proof.
  revert stn. induction stc as [|c stc IH]; intros [|n stn] Hc Hn Hl; cbn in Hl |- *.
  1,3: exists 0; split; [done|]; split; [eexists; done|done].
  - lia.
  - apply Forall_cons_1 in Hc as [Hc0 Hc], Hn as [Hn0 Hn]. rewrite cmp_verifier_op_spec by done. cbn.
    destruct (decide (c = n)) as [->|Hne].
    + rewrite decide_False by tauto. destruct (IH stn Hc Hn ltac:(lia)) as (e & -> & He). exists e. split; [done|]. rewrite He.
      split; intros [rest Hr]; exists rest; congruence.
    + rewrite decide_True by done. eexists. split; [done|]. split; [done|]. intros [rest [= ? ?]]. done.
Qed.

(** What a variable must be in the state before for the state after. *)
Definition var_compatible (vc vn : verifier_local_var) : Prop :=
  lv_state vn = UNKNOWN ∨ (¬ (lv_state vn = DEFINED ∧ lv_state vc = UNDEFINED) ∧ lv_op vc = lv_op vn).

Lemma transition_vars_spec sc sn n i : 0 <= i → (∀ j, i <= j < i + Z.of_nat n → is_Some (lvar sc j) ∧ is_Some (lvar sn j)) →
  match transition_vars sc sn n i with
  | Some e => e = 0 ↔ ∀ j vc vn, i <= j < i + Z.of_nat n → lvar sc j = Some vc → lvar sn j = Some vn → var_compatible vc vn
  | None => ∃ j vc vn, lvar sc j = Some vc ∧ lvar sn j = Some vn ∧ lv_state vn ≠ UNKNOWN ∧ (¬ typed (lv_op vc) ∨ ¬ typed (lv_op vn))
  end.
Proof.
  revert i. induction n as [|n IH]; intros i Hi Hv; cbn [transition_vars]; [split; [lia|done]|].
  destruct (Hv i ltac:(lia)) as [[vc Ec] [vn En]]. rewrite En. cbn [mbind option_bind].
  specialize (IH (i + 1) ltac:(lia) ltac:(intros j Hj; apply Hv; lia)).
  assert (var_compatible vc vn → (∀ j vc vn, i + 1 <= j < i + 1 + Z.of_nat n → lvar sc j = Some vc → lvar sn j = Some vn → var_compatible vc vn) ↔
    (∀ j vc vn, i <= j < i + Z.of_nat (S n) → lvar sc j = Some vc → lvar sn j = Some vn → var_compatible vc vn)) as Hstep.
  { intros Hok. split.
    - intros Hr j vc' vn' Hj Ec' En'. destruct (decide (j = i)) as [->|Hne]; [congruence|]. by apply (Hr j); [lia|..].
    - intros Hr j vc' vn' Hj. apply Hr. lia. }
  destruct (decide (lv_state vn = UNKNOWN)) as [Hu|Hu].
  { destruct (transition_vars sc sn n (i + 1)); [|done]. rewrite <- Hstep by (by left). done. }
  rewrite Ec. cbn [mbind option_bind]. destruct (decide (lv_state vn = DEFINED ∧ lv_state vc = UNDEFINED)) as [Hd|Hd].
  { split; [done|]. intros Hr. destruct (Hr i vc vn ltac:(lia) Ec En) as [?|[? _]]; done. }
  destruct (cmp_verifier_op (lv_op vc) (lv_op vn)) as [e|] eqn:Ee; cbn [mbind option_bind].
  2: { exists i, vc, vn. split_and!; [done..|]. unfold cmp_verifier_op in Ee. unfold typed.
    destruct (op_vm_type (lv_op vc)); [|left; by intros []]. destruct (op_vm_type (lv_op vn)); [done|right; by intros []]. }
  assert (e = 0 ↔ lv_op vc = lv_op vn) as He.
  { assert (typed (lv_op vc) ∧ typed (lv_op vn)) as [T1 T2].
    { unfold cmp_verifier_op in Ee. unfold typed. destruct (op_vm_type (lv_op vc)); [|done]. destruct (op_vm_type (lv_op vn)); [|done]. eauto. }
    rewrite cmp_verifier_op_spec in Ee by done. injection Ee as <-. by case_decide. }
  destruct (decide (e ≠ 0)) as [Hne|Hz%dec_stable].
  - split; [done|]. intros Hr. destruct (Hr i vc vn ltac:(lia) Ec En) as [?|[_ ?]]; [done|]. by apply He.
  - destruct (transition_vars sc sn n (i + 1)); [|done]. rewrite <- Hstep by (right; split; [done|by apply He]). done.
Qed.

(** ** Theorems *)

(** C13: For the instructions of [jvm_groups], whose operands have fixed types and are all
    on the stack, apart from the 23 of [jvm_exceptions] (shifts of a long, values narrower
    than an int, newarray, returns with a value, and anewarray, instanceof, checkcast and
    the switches), and on a block whose own stack has at least as many values as the
    instruction takes: [verify_instruction] succeeds exactly when those values have the
    types that the Java virtual machine specification gives, and then leaves those it
    produces, the rest of the stack and what the block takes from below unchanged;
    otherwise it returns a type error. *)
Theorem verify_instruction_typed `{Allocator} b o p q i f h :
  (∀ k size, malloc_ok k size = true) → read_u8 (bcode b) (block_pos b 0) = Some o →
  jvm_type o p q → o ∉ jvm_exceptions → represents b (i, f) → (length p <= length f)%nat →
  ∃ err b' h', verify_instruction b h = Done (err, b') h' ∧
    if decide (take (length p) f = p) then err = 0 ∧ represents b' (i, q ++ drop (length p) f) else err = E_TYPE_CHECKING.
Proof.
  intros Hall Eo Ht Hx Hr Hl. destruct (jvm_type_steps o p q Ht Hx) as (_ & Hw & sc & Es & Ee).
  destruct (verify_instruction_steps b o sc (i, f) h Hall Eo Hw Es Hr) as (err & b' & h' & E & Hres).
  exists err, b', h'. split; [done|]. pose proof (effect_run sc [] p q i f Ee Hl) as Hrun. cbn [app] in Hrun. rewrite Hrun in Hres.
  by case_decide.
Qed.

(** when the block's stack ends before the values an instruction takes, the missing
    ones are taken from below: they are added, in order, to what the block needs on
    entry, and the instruction leaves what it produces.  This holds for the instructions
    that only take and leave values. *)
Theorem verify_instruction_infers `{Allocator} b o p q sc i f h :
  (∀ k size, malloc_ok k size = true) → read_u8 (bcode b) (block_pos b 0) = Some o →
  jvm_type o p q → o ∉ jvm_exceptions → steps_of !! Z.to_nat o = Some (Some sc) → no_peek sc = true →
  represents b (i, f) → (length f <= length p)%nat →
  ∃ err b' h', verify_instruction b h = Done (err, b') h' ∧
    if decide (take (length f) p = f) then err = 0 ∧ represents b' (i ++ drop (length f) p, q) else err = E_TYPE_CHECKING.
Proof.
  intros Hall Eo Ht Hx Es Hp Hr Hl. destruct (jvm_type_steps o p q Ht Hx) as (_ & Hw & sc' & Es' & Ee).
  rewrite Es in Es'. injection Es' as <-.
  destruct (verify_instruction_steps b o sc (i, f) h Hall Eo Hw Es Hr) as (err & b' & h' & E & Hres).
  exists err, b', h'. split; [done|]. pose proof (effect_infers sc [] p q i f Ee Hp Hl) as Hrun. cbn [app] in Hrun. rewrite Hrun in Hres.
  by case_decide.
Qed.

(** a variable that was stored is read back: with its type the read succeeds and
    leaves the block as it is, with any other it is a type error; the variables beside
    the one or two stored are left alone. *)
Theorem lvar_store_peek t idx b h :
  0 <= idx < 2 ^ 32 - 1 → (∀ j, idx <= j < idx + var_width t → is_Some (lvar (final_state b) j)) →
  ∃ b', store_vrf_lvar t idx b h = Done (0, b') h ∧
    (∀ t' h', peek_vrf_lvar t' idx b' h' = Done (if decide (t' = t) then 0 else E_TYPE_CHECKING, b') h') ∧
    ∀ j, 0 <= j → ¬ (idx <= j < idx + var_width t) → lvar (final_state b') j = lvar (final_state b) j.
Proof.
  intros Hi Hin. destruct (def_vrf_lvar_spec (final_state b) t idx Hi Hin) as (s' & frag & E & E0 & E1 & Hrest).
  unfold store_vrf_lvar. rewrite E. exists (set_final s' b). split; [done|]. split; [|done].
  intros t' h'. unfold peek_vrf_lvar. cbn [final_state set_final]. rewrite E0. unfold bind at 1. cbn.
  rewrite (decide_False (P := DEFINED = UNKNOWN)) by done. unfold bind at 1, ret at 1.
  destruct (decide (t' = t)) as [->|Hne]; [|by rewrite decide_True by congruence].
  rewrite decide_False by tauto. destruct (vm_type_is_pair t); [|done]. destruct (E1 eq_refl) as [-> E1'].
  rewrite u32_id by clia. rewrite E1'. unfold bind, lift, ret. cbn. rewrite decide_False by tauto. by rewrite bool_decide_eq_false_2 by tauto.
Qed.

(** A block may follow another when the stack it needs is the top of the one the
    other leaves and every variable it uses is there with the same type:
    [transition_verifier_state] returns 0 exactly then.  It is undefined only when a
    variable is compared that one of the blocks never set. *)
Theorem transition_verifier_state_correct sc sn :
  Forall typed (stack sc) → Forall typed (stack sn) →
  (∀ j, 0 <= j < nb_vars sc → is_Some (lvar sc j) ∧ is_Some (lvar sn j)) →
  match transition_verifier_state sc sn with
  | Some e =>
    e = 0 ↔ (∃ rest, stack sc = stack sn ++ rest) ∧
      ∀ j vc vn, 0 <= j < nb_vars sc → lvar sc j = Some vc → lvar sn j = Some vn → var_compatible vc vn
  | None => ∃ j vc vn, lvar sc j = Some vc ∧ lvar sn j = Some vn ∧ lv_state vn ≠ UNKNOWN ∧
      (¬ typed (lv_op vc) ∨ ¬ typed (lv_op vn))
  end.
Proof.
  intros Hc Hn Hv. unfold transition_verifier_state, transition_verifier_stack, vrf_stack_size, transition_verifier_local_var.
  case_decide as Hlen; cbn [mbind option_bind].
  { rewrite decide_True by done. split; [done|]. intros [[rest Hr] _]. rewrite Hr, length_app in Hlen. lia. }
  destruct (transition_slots_spec _ _ Hc Hn ltac:(lia)) as (e & -> & He). cbn [mbind option_bind]. case_decide as Hne.
  { split; [done|]. intros [Hr _]. by apply He. }
  pose proof (transition_vars_spec sc sn (Z.to_nat (nb_vars sc)) 0 ltac:(lia) ltac:(intros j Hj; apply Hv; lia)) as Hs.
  destruct (transition_vars _ _ _ _) as [e'|]; [|done]. rewrite Hs.
  assert (∃ rest, stack sc = stack sn ++ rest) by (by apply He).
  split; [intros Hr; split; [done|]|intros [_ Hr]]; intros j vc vn Hj; apply Hr; lia.
Qed.

(** ** Examples *)

Definition unset_vars (n : nat) : option (list verifier_local_var) := Some (replicate n (LocalVar UNKNOWN (Operand None false))).
(** A block that needs [i] and has [f] on its stack, before the instruction [code]. *)
Definition block0 (code : list Z) (i f : list vm_type) : verifier_block :=
  VBlock 0 (VState (unset_vars 3) 3 (i ≫= slots)) (VState (unset_vars 3) 3 (f ≫= slots)) code 0 0 false.

(** i2d on an int above a long *)
Lemma verify_instruction_typed_witness :
  jvm_type OPC_I2D [J_INT] [J_DOUBLE] ∧
  ∃ b' h', verify_instruction (H := λ _ _, true) (block0 [OPC_I2D] [] [J_INT; J_LONG]) (Mem 0 ∅) = Done (0, b') h' ∧
    represents b' ([], [J_DOUBLE; J_LONG]).
Proof.
  assert (jvm_type OPC_I2D [J_INT] [J_DOUBLE]) as Ht.
  { exists [OPC_I2D]. split; [|by left]. apply list_elem_of_In. vm_compute. tauto. }
  split; [exact Ht|].
  destruct (verify_instruction_typed (H := λ _ _, true) (block0 [OPC_I2D] [] [J_INT; J_LONG]) OPC_I2D [J_INT] [J_DOUBLE] [] [J_INT; J_LONG] (Mem 0 ∅))
    as (err & b' & h' & E & Hres); [reflexivity|reflexivity|exact Ht| |by split|cbn; lia|].
  - intros Hin. apply list_elem_of_In in Hin. vm_compute in Hin. intuition discriminate.
  - rewrite decide_True in Hres by reflexivity. destruct Hres as [-> Hr]. exists b', h'. split; [exact E|exact Hr].
Defined.

(** dcmpl on a stack with one double *)
Lemma verify_instruction_infers_witness :
  ∃ b' h', verify_instruction (H := λ _ _, true) (block0 [OPC_DCMPL] [J_INT] [J_DOUBLE]) (Mem 0 ∅) = Done (0, b') h' ∧
    represents b' ([J_INT; J_DOUBLE], [J_INT]).
Proof.
  destruct (verify_instruction_infers (H := λ _ _, true) (block0 [OPC_DCMPL] [J_INT] [J_DOUBLE]) OPC_DCMPL [J_DOUBLE; J_DOUBLE] [J_INT]
    [Pop J_DOUBLE; Pop J_DOUBLE; Push J_INT] [J_INT] [J_DOUBLE] (Mem 0 ∅))
    as (err & b' & h' & E & Hres); [reflexivity|reflexivity| | |reflexivity|reflexivity|by split|cbn; lia|].
  - exists [OPC_DCMPL; OPC_DCMPG]. split; [|by left]. apply list_elem_of_In. vm_compute. tauto.
  - intros Hin. apply list_elem_of_In in Hin. vm_compute in Hin. intuition discriminate.
  - rewrite decide_True in Hres by reflexivity. destruct Hres as [-> Hr]. exists b', h'. split; [exact E|exact Hr].
Defined.

Lemma lvar_store_peek_witness :
  ∃ b', store_vrf_lvar J_LONG 1 (block0 [] [] []) (Mem 0 ∅) = Done (0, b') (Mem 0 ∅) ∧
    peek_vrf_lvar J_LONG 1 b' (Mem 0 ∅) = Done (0, b') (Mem 0 ∅).
Proof.
  destruct (lvar_store_peek J_LONG 1 (block0 [] [] []) (Mem 0 ∅)) as (b' & E & Hp & _).
  - lia.
  - intros j Hj. change (var_width J_LONG) with 2 in Hj. assert (j = 1 ∨ j = 2) as [-> | ->] by lia; by eexists.
  - exists b'. split; [exact E|exact (Hp J_LONG (Mem 0 ∅))].
Defined.

Lemma transition_verifier_state_correct_witness :
  ∃ rest, [Operand (Some J_INT) false; Operand (Some J_FLOAT) false] = [Operand (Some J_INT) false] ++ rest.
Proof.
  pose proof (transition_verifier_state_correct (VState (unset_vars 1) 1 [Operand (Some J_INT) false; Operand (Some J_FLOAT) false])
    (VState (unset_vars 1) 1 [Operand (Some J_INT) false])) as Ht.
  change (transition_verifier_state _ _) with (Some 0) in Ht. apply Ht.
  - repeat constructor; eexists; reflexivity.
  - repeat constructor; eexists; reflexivity.
  - intros j Hj. cbn in Hj. assert (j = 0) as -> by lia. split; by eexists.
  - reflexivity.
Defined.

Definition verify_err (b : verifier_block) : option (Z * list verifier_operand * list verifier_operand) :=
  match verify_instruction (H := λ _ _, true) b (Mem 0 ∅) with
  | Done (err, b') _ => Some (err, stack (initial_state b'), stack (final_state b'))
  | _ => None
  end.

(** where the functions and the Java virtual machine differ: a shift of a long by an
    int is a type error; newarray leaves the type of the elements in place of a
    reference; baload leaves a byte, which iadd does not take; an addition, or a
    negation, whose operand is below the block leaves nothing; and a variable that was
    the second half of a double stays marked as one when an int is stored there. *)
Theorem verify_functions_diverge :
  verify_err (block0 [OPC_LSHL] [] [J_INT; J_LONG]) = Some (E_TYPE_CHECKING, [], [J_INT; J_LONG] ≫= slots) ∧
  verify_err (block0 [OPC_NEWARRAY; 10] [] [J_INT]) = Some (0, [], [J_INT] ≫= slots) ∧
  verify_err (block0 [OPC_BALOAD] [] [J_INT; J_REFERENCE]) = Some (0, [], [J_BYTE] ≫= slots) ∧
  verify_err (block0 [OPC_IADD] [] [J_BYTE; J_INT]) = Some (E_TYPE_CHECKING, [], [J_BYTE; J_INT] ≫= slots) ∧
  verify_err (block0 [OPC_IADD] [] []) = Some (0, [J_INT; J_INT] ≫= slots, []) ∧
  verify_err (block0 [OPC_LNEG] [] []) = Some (0, [J_LONG] ≫= slots, []) ∧
  (s ← def_vrf_lvar (VState (unset_vars 3) 3 []) J_DOUBLE 0; s ← def_vrf_lvar s J_INT 1; lvar s 1) =
    Some (LocalVar DEFINED (Operand (Some J_INT) true)).
Proof. split_and!; vm_compute; reflexivity. Qed.
