(* ===== verification/BasicBlock.v ===== *)
(** * jit/basic-block.c: basic blocks and their edges

    The blocks of a compilation unit are a list in the order of their allocation, and a
    pointer to one is its place there ([None] is the null pointer); [bb_list] is the list
    of the blocks in the order of the code.  The heap only decides which allocations
    succeed; an allocation that fails leaves a null pointer or an error for the caller,
    and following a null pointer is undefined.  Statements, instructions and the fields
    of later passes are not part of the record. *)

From S2P Require Import Prelude CMonad.
#[local] Open Scope Z_scope.

(** ** Blocks *)

Record basic_block := BB {
  start : Z;
  end_ : Z;
  has_branch : bool;
  has_return : bool;
  has_athrow : bool;
  br_target_off : Z;
  successors : list nat;
  predecessors : list nat;
  entry_mimic_stack_size : Z;
  is_eh : bool;
}.

Definition set_end (e : Z) (b : basic_block) : basic_block :=
  BB (start b) e (has_branch b) (has_return b) (has_athrow b) (br_target_off b) (successors b) (predecessors b)
    (entry_mimic_stack_size b) (is_eh b).
Definition set_branch (br : bool) (target : Z) (b : basic_block) : basic_block :=
  BB (start b) (end_ b) br (has_return b) (has_athrow b) target (successors b) (predecessors b)
    (entry_mimic_stack_size b) (is_eh b).
Definition set_return (r : bool) (b : basic_block) : basic_block :=
  BB (start b) (end_ b) (has_branch b) r (has_athrow b) (br_target_off b) (successors b) (predecessors b)
    (entry_mimic_stack_size b) (is_eh b).
Definition set_athrow (b : basic_block) : basic_block :=
  BB (start b) (end_ b) (has_branch b) (has_return b) true (br_target_off b) (successors b) (predecessors b)
    (entry_mimic_stack_size b) (is_eh b).
Definition set_successors (ss : list nat) (b : basic_block) : basic_block :=
  BB (start b) (end_ b) (has_branch b) (has_return b) (has_athrow b) (br_target_off b) ss (predecessors b)
    (entry_mimic_stack_size b) (is_eh b).
Definition set_predecessors (ps : list nat) (b : basic_block) : basic_block :=
  BB (start b) (end_ b) (has_branch b) (has_return b) (has_athrow b) (br_target_off b) (successors b) ps
    (entry_mimic_stack_size b) (is_eh b).
Definition set_entry_size (n : Z) (b : basic_block) : basic_block :=
  BB (start b) (end_ b) (has_branch b) (has_return b) (has_athrow b) (br_target_off b) (successors b) (predecessors b)
    n (is_eh b).
Definition set_is_eh (eh : bool) (b : basic_block) : basic_block :=
  BB (start b) (end_ b) (has_branch b) (has_return b) (has_athrow b) (br_target_off b) (successors b) (predecessors b)
    (entry_mimic_stack_size b) eh.

Record compilation_unit := CU {
  heap : mem;
  bbs : list basic_block;
  bb_list : list nat;
  nr_bb : Z;
}.

(** Computations on a compilation unit; an error return is the end of the program. *)
Definition C (A : Type) : Type := M compilation_unit unit A.

Definition set_heap (h : mem) (u : compilation_unit) : compilation_unit := CU h (bbs u) (bb_list u) (nr_bb u).
Definition set_bbs (bs : list basic_block) (u : compilation_unit) : compilation_unit :=
  CU (heap u) bs (bb_list u) (nr_bb u).
Definition set_bb_list (l : list nat) (u : compilation_unit) : compilation_unit := CU (heap u) (bbs u) l (nr_bb u).
Definition set_nr_bb (n : Z) (u : compilation_unit) : compilation_unit := CU (heap u) (bbs u) (bb_list u) n.

Definition liftC {A} (o : option A) : C A := match o with Some a => ret a | None => undef end.
Definition on_heap {A} (m : M mem unit A) : C (option A) := λ u,
  match m (heap u) with
  | Done a h => Done (Some a) (set_heap h u)
  | Fail _ h => Done None (set_heap h u)
  | Undef => Undef
  end.

(** Following a pointer to read or to write. *)
Definition deref (p : option nat) : C basic_block := λ u,
  match p ≫= (bbs u !!.) with Some b => Done b u | None => Undef end.
Definition update (p : option nat) (f : basic_block → basic_block) : C unit := λ u,
  match p with
  | Some i =>
    match bbs u !! i with
    | Some b => Done tt (set_bbs (<[i := f b]> (bbs u)) u)
    | None => Undef
    end
  | None => Undef
  end.

(** ** Operations *)

Section ops.
Context `{Allocator}.

Definition request (sz : Z) : C bool := λ u,
  let '(p, h) := mem_malloc sz (heap u) in Done (bool_decide (is_Some p)) (set_heap h u).

Definition sizeof_basic_block : Z := 320.
Definition sizeof_stack : Z := 16.

(** A second allocation is the mimic stack; the other fields are zero. *)
Definition do_alloc_basic_block (s e : Z) : C (option nat) :=
  let* ok := request sizeof_basic_block in
  if negb ok then ret None else
  let* ok := request sizeof_stack in
  if negb ok then ret None else λ u,
  Done (Some (length (bbs u))) (set_bbs (bbs u ++ [BB s e false false false 0 [] [] (-1) false]) u).

Definition alloc_basic_block (s e : Z) : C (option nat) :=
  let* r := do_alloc_basic_block s e in
  match r with
  | Some _ => do modify (λ u, set_nr_bb (u64 (nr_bb u + 1)) u) ;; ret r
  | None => ret r
  end.

Definition get_basic_block (s e : Z) : C (option nat) :=
  let* r := alloc_basic_block s e in
  match r with
  | Some i => do modify (λ u, set_bb_list (bb_list u ++ [i]) u) ;; ret r
  | None => ret r
  end.

(** [list_add] after a node of the list. *)
Fixpoint list_add (n x : nat) (l : list nat) : list nat :=
  match l with
  | [] => []
  | y :: l' => if decide (y = x) then y :: n :: l' else y :: list_add n x l'
  end.

Definition replace_ptr (x y i : nat) : nat := if decide (i = x) then y else i.

Definition bb_split (orig_bb : option nat) (offset : Z) : C (option nat) :=
  let* b := deref orig_bb in
  if decide (offset < start b ∨ end_ b < offset) then ret None else
  let* new_bb := alloc_basic_block offset (end_ b) in
  match orig_bb, new_bb with
  | Some o, Some n =>
    do modify (λ u, set_bb_list (list_add n o (bb_list u)) u) ;;
    do update orig_bb (set_end offset) ;;
    do update new_bb (set_entry_size (-1)) ;;
    let* b := deref orig_bb in
    do update new_bb (set_successors (successors b)) ;;
    do update orig_bb (set_successors []) ;;
    do update new_bb (set_predecessors []) ;;
    do for_each (λ s, update (Some s) (λ c, set_predecessors (replace_ptr o n <$> predecessors c) c)) (successors b) ;;
    let* b := deref orig_bb in
    do (if has_branch b then
          do update orig_bb (set_branch false (br_target_off b)) ;;
          do update new_bb (set_branch true (br_target_off b)) ;;
          update orig_bb (set_branch false 0)
        else ret tt) ;;
    do update new_bb (set_return (has_return b)) ;;
    do update orig_bb (set_return false) ;;
    ret (Some n)
  | _, _ => ret None
  end.

Definition ENOMEM : Z := 12.

(** [__bb_add_neighbor] reallocates the array, of [nb] pointers; the caller writes it. *)
Definition add_neighbor (nb : Z) : C Z :=
  let* ok := request (8 * (nb + 1)) in ret (if (ok : bool) then 0 else - ENOMEM).

(** The error of the first array is not looked at. *)
Definition bb_add_successor (bb successor : option nat) : C Z :=
  let* s := deref successor in
  let* err := add_neighbor (Z.of_nat (length (predecessors s))) in
  do (match bb with
      | Some i => if decide (err = 0) then update successor (λ c, set_predecessors (predecessors c ++ [i]) c) else ret tt
      | None => ret tt
      end) ;;
  let* b := deref bb in
  let* err := add_neighbor (Z.of_nat (length (successors b))) in
  do (match successor with
      | Some j => if decide (err = 0) then update bb (λ c, set_successors (successors c ++ [j]) c) else ret tt
      | None => ret tt
      end) ;;
  ret err.
End ops.

Definition bb_successors_contains (b : basic_block) (lookup_bb : nat) : bool := bool_decide (lookup_bb ∈ successors b).

Fixpoint successor_index (l : list nat) (to : nat) (i : Z) : Z :=
  match l with [] => -1 | j :: l' => if decide (j = to) then i else successor_index l' to (i + 1) end.
Definition bb_lookup_successor_index (b : basic_block) (to : nat) : Z := successor_index (successors b) to 0.

(** [find_bb] of jit/compilation-unit.c: the first block that contains the offset. *)
Fixpoint find_in (bs : list basic_block) (l : list nat) (offset : Z) : option (option nat) :=
  match l with
  | [] => Some None
  | i :: l' =>
    b ← bs !! i;
    if decide (start b <= offset < end_ b) then Some (Some i) else find_in bs l' offset
  end.
Definition find_bb (offset : Z) : C (option nat) :=
  let* r := get (λ u, find_in (bbs u) (bb_list u) offset) in liftC r.

(** ** Running the operations when memory suffices *)

Lemma bind_run {S E A B} (m : M S E A) (f : A → M S E B) s a s' : m s = Done a s' → bind m f s = f a s'.
Proof. intros E0. unfold bind. by rewrite E0. Qed.
Lemma bind_lift {A B} (o : option A) (f : A → C B) a u : o = Some a → bind (liftC o) f u = f a u.
Proof. by intros ->. Qed.

Definition new_block (s e : Z) : basic_block := BB s e false false false 0 [] [] (-1) false.

(** The two parts of a split block. *)
Definition lower_part (offset : Z) (b : basic_block) : basic_block :=
  BB (start b) offset false false (has_athrow b) (if has_branch b then 0 else br_target_off b) [] (predecessors b)
    (entry_mimic_stack_size b) (is_eh b).
Definition upper_part (offset : Z) (b : basic_block) : basic_block :=
  BB offset (end_ b) (has_branch b) (has_return b) false (if has_branch b then br_target_off b else 0) (successors b) []
    (-1) false.
(** A successor of the split block. *)
Definition rewire (o n : nat) (c : basic_block) : basic_block :=
  set_predecessors (replace_ptr o n <$> predecessors c) c.
Definition split_bbs (o : nat) (offset : Z) (b : basic_block) (bs : list basic_block) : list basic_block :=
  imap (λ j c, if decide (j ∈ successors b) then rewire o (length bs) c else c) (<[o := lower_part offset b]> bs)
    ++ [upper_part offset b].

Lemma rewire_idem o n c : o ≠ n → rewire o n (rewire o n c) = rewire o n c.
Proof.
  intros Hne. unfold rewire, set_predecessors. cbn. f_equal. rewrite <- list_fmap_compose.
  apply list_fmap_ext. intros _ i _. unfold compose, replace_ptr. repeat case_decide; congruence.
Qed.

Section run.
Context `{Allocator} (Hm : ∀ k sz, malloc_ok k sz = true).

Lemma request_ok sz u : ∃ h, request sz u = Done true (set_heap h u).
Proof using Hm. unfold request, mem_malloc. rewrite Hm. cbn. eauto. Qed.

Lemma alloc_basic_block_ok s e u :
  ∃ h, alloc_basic_block s e u =
    Done (Some (length (bbs u))) (CU h (bbs u ++ [new_block s e]) (bb_list u) (u64 (nr_bb u + 1))).
Proof using Hm.
  unfold alloc_basic_block, do_alloc_basic_block, bind.
  destruct (request_ok sizeof_basic_block u) as [h1 ->]. cbn.
  destruct (request_ok sizeof_stack (set_heap h1 u)) as [h2 ->]. cbn. by exists h2.
Qed.

Lemma get_basic_block_ok s e u :
  ∃ h, get_basic_block s e u =
    Done (Some (length (bbs u)))
      (CU h (bbs u ++ [new_block s e]) (bb_list u ++ [length (bbs u)]) (u64 (nr_bb u + 1))).
Proof using Hm.
  unfold get_basic_block, bind. destruct (alloc_basic_block_ok s e u) as [h ->]. cbn. by exists h.
Qed.

Lemma deref_ok i b u : bbs u !! i = Some b → deref (Some i) u = Done b u.
Proof. intros E. unfold deref. cbn. by rewrite E. Qed.
Lemma update_ok i b f u : bbs u !! i = Some b → update (Some i) f u = Done tt (set_bbs (<[i := f b]> (bbs u)) u).
Proof. intros E. unfold update. by rewrite E. Qed.

Lemma for_each_update f : (∀ c, f (f c) = f c) → ∀ ss u, Forall (λ s, (s < length (bbs u))%nat) ss →
  for_each (λ s, update (Some s) f) ss u =
    Done tt (set_bbs (imap (λ j c, if decide (j ∈ ss) then f c else c) (bbs u)) u).
Proof.
  intros Hf. induction ss as [|s ss IH]; intros u Hss.
  - cbn. unfold ret. f_equal. destruct u. cbn. unfold set_bbs. cbn. f_equal. symmetry. apply list_eq. intros j.
    rewrite list_lookup_imap. destruct (bbs0 !! j); [|done]. cbn. by rewrite decide_False by (apply not_elem_of_nil).
  - apply Forall_cons_1 in Hss as [Hs Hss]. destruct (lookup_lt_is_Some_2 _ _ Hs) as [b Eb].
    cbn. unfold bind. rewrite (update_ok s b) by done. rewrite IH by (cbn; by rewrite length_insert).
    f_equal. unfold set_bbs. cbn. f_equal. apply list_eq. intros j. rewrite !list_lookup_imap.
    destruct (decide (j = s)) as [->|Hne].
    + rewrite list_lookup_insert_eq, Eb by done. cbn. rewrite (decide_True (P := s ∈ s :: ss)) by (apply elem_of_cons; auto).
      by destruct (decide (s ∈ ss)); rewrite ?Hf.
    + rewrite list_lookup_insert_ne by done. destruct (bbs u !! j); [|done]. cbn.
      f_equal. destruct (decide (j ∈ ss)); [rewrite decide_True by (apply elem_of_cons; auto)|
        rewrite decide_False by (rewrite elem_of_cons; tauto)]; done.
Qed.

(** A list of blocks with two of them given. *)
Definition with_two (o n : nat) (bs : list basic_block) (x y : basic_block) : list basic_block := <[o := x]> (<[n := y]> bs).

Lemma update_lower o n bs x y f h l k : o ≠ n → (o < length bs)%nat →
  update (Some o) f (CU h (with_two o n bs x y) l k) = Done tt (CU h (with_two o n bs (f x) y) l k).
Proof.
  intros Hne Ho. unfold with_two. erewrite update_ok by (cbn; apply list_lookup_insert_eq; by rewrite length_insert).
  unfold set_bbs. cbn. by rewrite list_insert_insert_eq.
Qed.
Lemma update_upper o n bs x y f h l k : o ≠ n → (n < length bs)%nat →
  update (Some n) f (CU h (with_two o n bs x y) l k) = Done tt (CU h (with_two o n bs x (f y)) l k).
Proof.
  intros Hne Hn. unfold with_two. erewrite update_ok.
  2: { cbn. rewrite list_lookup_insert_ne by done. by apply list_lookup_insert_eq. }
  unfold set_bbs. cbn. by rewrite list_insert_insert_ne, list_insert_insert_eq.
Qed.
Lemma deref_lower o n bs x y h l k : (o < length bs)%nat →
  deref (Some o) (CU h (with_two o n bs x y) l k) = Done x (CU h (with_two o n bs x y) l k).
Proof. intros Ho. apply deref_ok. apply list_lookup_insert_eq. by rewrite length_insert. Qed.

Lemma imap_insert {A B} (g : nat → A → B) i x l : imap g (<[i := x]> l) = <[i := g i x]> (imap g l).
Proof.
  apply list_eq. intros j. rewrite list_lookup_imap, !list_lookup_insert, list_lookup_imap, length_imap.
  case_decide; [|done]. destruct_and!. by subst.
Qed.

(** The flags of a split block move to the new one. *)
Definition lower_flags (x : basic_block) : basic_block :=
  set_return false (if has_branch x then set_branch false 0 x else x).
Definition upper_flags (x y : basic_block) : basic_block :=
  set_return (has_return x) (if has_branch x then set_branch true (br_target_off x) y else y).
Lemma split_flags o n bs x y h l k : o ≠ n → (o < length bs)%nat → (n < length bs)%nat →
  (let* b := deref (Some o) in
   do (if has_branch b then
         do update (Some o) (set_branch false (br_target_off b)) ;;
         do update (Some n) (set_branch true (br_target_off b)) ;;
         update (Some o) (set_branch false 0)
       else ret tt) ;;
   do update (Some n) (set_return (has_return b)) ;;
   do update (Some o) (set_return false) ;;
   ret (Some n)) (CU h (with_two o n bs x y) l k) =
  Done (Some n) (CU h (with_two o n bs (lower_flags x) (upper_flags x y)) l k).
Proof.
  intros Hne Ho Hn. unfold bind at 1. rewrite deref_lower by done. unfold lower_flags, upper_flags.
  destruct (has_branch x); cbn [bind ret].
  all: repeat (unfold bind at 1; rewrite ?update_lower, ?update_upper by done). all: reflexivity.
Qed.

Lemma bb_split_ok o offset b u : bbs u !! o = Some b → start b <= offset <= end_ b →
  Forall (λ s, (s < length (bbs u))%nat) (successors b) →
  ∃ h, bb_split (Some o) offset u =
    Done (Some (length (bbs u)))
      (CU h (split_bbs o offset b (bbs u)) (list_add (length (bbs u)) o (bb_list u)) (u64 (nr_bb u + 1))).
Proof using Hm.
  intros Eb Hoff Hss. unfold bb_split, bind at 1. rewrite (deref_ok o b) by done.
  rewrite decide_False by lia. destruct (alloc_basic_block_ok offset (end_ b) u) as [h E]. exists h.
  unfold bind at 1. rewrite E. clear E. set (n := length (bbs u)). pose proof (lookup_lt_Some _ _ _ Eb) as Ho.
  assert (o ≠ n) as Hne by (unfold n; lia).
  set (bs0 := bbs u ++ [new_block offset (end_ b)]).
  assert (length bs0 = S n) as Hl by (unfold bs0; rewrite length_app; cbn; lia).
  assert (bs0 = with_two o n bs0 b (new_block offset (end_ b))) as E0.
  { unfold with_two. rewrite (list_insert_id bs0 n) by (unfold bs0, n; by apply list_lookup_middle).
    symmetry. apply list_insert_id. unfold bs0. by rewrite lookup_app_l. }
  rewrite E0. clear E0. unfold bind at 1, modify. unfold set_bb_list. cbn [heap bbs bb_list nr_bb].
  unfold bind at 1. rewrite update_lower by (done || lia). unfold bind at 1. rewrite update_upper by (done || lia).
  unfold bind at 1. rewrite deref_lower by lia. unfold bind at 1. rewrite update_upper by (done || lia).
  unfold bind at 1. rewrite update_lower by (done || lia). unfold bind at 1. rewrite update_upper by (done || lia).
  unfold bind at 1. rewrite (for_each_update (rewire o n)).
  2: { intros c. by apply rewire_idem. }
  2: { eapply Forall_impl; [|exact Hss]. cbn. intros s Hs. unfold with_two. rewrite !length_insert. lia. }
  unfold set_bbs. cbn [heap bbs bb_list nr_bb successors set_end].
  set (g := λ (j : nat) (c : basic_block), if decide (j ∈ successors b) then rewire o n c else c).
  unfold with_two at 1. rewrite !(imap_insert g). set (bs1 := imap g bs0).
  assert (length bs1 = S n) as Hl1 by (unfold bs1; by rewrite length_imap).
  match goal with |- context [<[o := ?x]> (<[n := ?y]> bs1)] => change (<[o := x]> (<[n := y]> bs1)) with (with_two o n bs1 x y) end.
  assert (∀ x, g o (lower_flags x) = lower_flags (g o x)) as Hg by (intros x; unfold g, lower_flags; case_decide; [cbn; by destruct (has_branch x)|done]).
  rewrite split_flags by (done || lia). f_equal. rewrite <- Hg.
  unfold g at 3. rewrite (decide_False (P := n ∈ successors b)).
  2: { intros Hin. rewrite list.Forall_forall in Hss. specialize (Hss _ Hin). lia. }
  f_equal. unfold with_two, bs1, bs0. rewrite imap_app. cbn [imap].
  rewrite insert_app_r_alt by (rewrite length_imap; lia). rewrite length_imap, Nat.sub_diag. cbn [insert list_insert].
  rewrite insert_app_l by (by rewrite length_imap). rewrite <- imap_insert. unfold split_bbs. fold n. fold g.
  assert (has_branch (g o (set_successors [] (set_end offset b))) = has_branch b ∧
    br_target_off (g o (set_successors [] (set_end offset b))) = br_target_off b ∧
    has_return (g o (set_successors [] (set_end offset b))) = has_return b) as (E1 & E2 & E3)
    by (unfold g; by case_decide).
  unfold upper_flags, lower_flags, lower_part, upper_part. rewrite E1, E2, E3. cbn.
  destruct (has_branch b) eqn:Eh; unfold set_return, set_branch, set_successors, set_end; cbn; by rewrite ?Eh.
Qed.
(** An edge added at both ends. *)
Definition link (i j : nat) (bs : list basic_block) : list basic_block :=
  alter (λ b, set_successors (successors b ++ [j]) b) i (alter (λ c, set_predecessors (predecessors c ++ [i]) c) j bs).

Lemma alter_insert (f : basic_block → basic_block) (i : nat) b (bs : list basic_block) : bs !! i = Some b → alter f i bs = <[i := f b]> bs.
Proof.
  intros E. apply list_eq. intros k. destruct (decide (i = k)) as [<-|Hne].
  - rewrite list_lookup_alter_eq, E, list_lookup_insert_eq by (by eapply lookup_lt_Some). done.
  - by rewrite list_lookup_alter_ne, list_lookup_insert_ne.
Qed.

Lemma bb_add_successor_ok i j u : (i < length (bbs u))%nat → (j < length (bbs u))%nat →
  ∃ h, bb_add_successor (Some i) (Some j) u = Done 0 (set_heap h (set_bbs (link i j (bbs u)) u)).
Proof using Hm.
  intros Hi Hj. destruct (lookup_lt_is_Some_2 _ _ Hj) as [c Ec].
  unfold bb_add_successor, bind at 1. rewrite (deref_ok j c) by done. unfold bind at 1, add_neighbor, bind at 1.
  destruct (request_ok (8 * (Z.of_nat (length (predecessors c)) + 1)) u) as [h1 ->]. cbn [ret]. rewrite decide_True by done.
  unfold bind at 1. rewrite (update_ok j c) by done. cbn [set_heap bbs]. unfold link. rewrite (alter_insert _ j c) by done.
  match goal with |- context [set_bbs ?l] => set (bs1 := l) end.
  destruct (lookup_lt_is_Some_2 bs1 i) as [b Eb]; [unfold bs1; by rewrite length_insert|].
  unfold bind at 1. rewrite (deref_ok i b) by done. unfold bind at 1, bind at 1.
  match goal with |- context [request ?s ?v] => destruct (request_ok s v) as [h2 ->] end. cbn [ret]. rewrite decide_True by done.
  unfold bind at 1. rewrite (update_ok i b) by done. rewrite (alter_insert _ i b) by done. exists h2. done.
Qed.
End run.

(** ** Edges *)

(** The two ends of every edge are blocks that know it, once. *)
Record edges_ok (bs : list basic_block) : Prop := {
  eo_succ i b : bs !! i = Some b → Forall (λ j, (j < length bs)%nat) (successors b) ∧ NoDup (successors b);
  eo_pred i b : bs !! i = Some b → Forall (λ j, (j < length bs)%nat) (predecessors b) ∧ NoDup (predecessors b);
  eo_sym i b j c : bs !! i = Some b → bs !! j = Some c → j ∈ successors b ↔ i ∈ predecessors c;
}.

Lemma link_lookup i j k bs :
  link i j bs !! k =
    (λ c, let c := if decide (k = j) then set_predecessors (predecessors c ++ [i]) c else c in
          if decide (k = i) then set_successors (successors c ++ [j]) c else c) <$> bs !! k.
Proof.
  unfold link. rewrite list_lookup_alter, (list_lookup_alter _ _ j k), (list_lookup_alter _ _ j i).
  destruct (decide (i = k)) as [->|Hi], (decide (j = k)) as [->|Hj].
  all: destruct (bs !! k); [|done]; cbn;
    rewrite ?(decide_True (P := k = k)), ?(decide_False (P := k = i)), ?(decide_False (P := k = j)) by congruence; done.
Qed.
Lemma link_length i j bs : length (link i j bs) = length bs.
Proof. unfold link. by rewrite !length_alter. Qed.

(** A block after [link]. *)
Lemma link_block i j k bs c' : link i j bs !! k = Some c' →
  ∃ c, bs !! k = Some c ∧ successors c' = (if decide (k = i) then successors c ++ [j] else successors c) ∧
    predecessors c' = (if decide (k = j) then predecessors c ++ [i] else predecessors c) ∧
    start c' = start c ∧ end_ c' = end_ c ∧ has_branch c' = has_branch c ∧ has_return c' = has_return c ∧
    br_target_off c' = br_target_off c ∧ is_eh c' = is_eh c ∧ has_athrow c' = has_athrow c.
Proof.
  rewrite link_lookup. destruct (bs !! k) as [c|]; [|done]. cbn. intros [= <-]. exists c. split; [done|].
  repeat case_decide; split_and!; done.
Qed.

Lemma NoDup_snoc {A} (l : list A) x : NoDup l → x ∉ l → NoDup (l ++ [x]).
Proof.
  intros Hl Hx. rewrite <- Permutation_cons_append. by constructor.
Qed.

Lemma link_edges_ok i j b bs : edges_ok bs → bs !! i = Some b → (j < length bs)%nat → j ∉ successors b →
  edges_ok (link i j bs).
Proof.
  intros [Hs Hp Hsym] Eb Hj Hnew. destruct (lookup_lt_is_Some_2 _ _ Hj) as [d Ed].
  assert (i < length bs)%nat as Hi by (by eapply lookup_lt_Some).
  constructor; intros k c'; rewrite ?link_length.
  - intros (c & Ec & -> & _)%link_block. destruct (Hs k c Ec) as [Hr Hn]. case_decide as Hk; [|done]. subst k. simplify_eq.
    split; [apply Forall_app; auto|]. by apply NoDup_snoc.
  - intros (c & Ec & _ & -> & _)%link_block. destruct (Hp k c Ec) as [Hr Hn]. case_decide as Hk; [|done]. subst k. simplify_eq.
    split; [apply Forall_app; auto|]. apply NoDup_snoc; [done|]. by rewrite <- (Hsym i b j d).
  - intros l d' (c & Ec & -> & _)%link_block (e & Ee & _ & -> & _)%link_block. pose proof (Hsym k c l e Ec Ee) as Hold.
    repeat case_decide; subst; rewrite ?elem_of_app, ?list_elem_of_singleton; simplify_eq; try tauto; naive_solver.
Qed.

Lemma split_length o offset b bs : length (split_bbs o offset b bs) = S (length bs).
Proof. unfold split_bbs. rewrite length_app, length_imap, length_insert. cbn. lia. Qed.

Lemma split_new o offset b bs : split_bbs o offset b bs !! length bs = Some (upper_part offset b).
Proof. unfold split_bbs. apply list_lookup_middle. by rewrite length_imap, length_insert. Qed.

Lemma split_lookup o offset b bs k : bs !! o = Some b → (k < length bs)%nat →
  split_bbs o offset b bs !! k =
    (λ c, let c := if decide (k = o) then lower_part offset c else c in
          if decide (k ∈ successors b) then rewire o (length bs) c else c) <$> bs !! k.
Proof.
  intros Eo Hk. unfold split_bbs. rewrite lookup_app_l by (by rewrite length_imap, length_insert).
  rewrite list_lookup_imap. destruct (decide (k = o)) as [->|Hne].
  - by rewrite list_lookup_insert_eq, Eo by done.
  - by rewrite list_lookup_insert_ne by done.
Qed.

Lemma replace_absent o n (l : list nat) : o ∉ l → replace_ptr o n <$> l = l.
Proof.
  intros Ho. rewrite <- (list_fmap_id l) at 2. apply list_fmap_ext. intros _ x Hx%list_elem_of_lookup_2.
  unfold replace_ptr. rewrite decide_False; [done|congruence].
Qed.

(** A block after the split of block [o]: the new one, or an old one with its predecessors
    renamed. *)
Lemma split_block o offset b bs k c' : edges_ok bs → bs !! o = Some b → split_bbs o offset b bs !! k = Some c' →
  (k = length bs ∧ c' = upper_part offset b) ∨
  ∃ c, bs !! k = Some c ∧ predecessors c' = replace_ptr o (length bs) <$> predecessors c ∧
    let d := if decide (k = o) then lower_part offset c else c in
    successors c' = successors d ∧ start c' = start d ∧ end_ c' = end_ d ∧ has_branch c' = has_branch d ∧
    has_return c' = has_return d ∧ br_target_off c' = br_target_off d ∧ is_eh c' = is_eh d ∧ has_athrow c' = has_athrow d.
Proof.
  intros He Eo E. destruct (decide (k < length bs)%nat) as [Hk|Hk].
  - right. rewrite split_lookup in E by done. destruct (bs !! k) as [c|] eqn:Ec; [|done]. cbn in E. injection E as <-.
    exists c. split; [done|]. set (d := if decide (k = o) then lower_part offset c else c).
    assert (predecessors d = predecessors c) as Hp by (unfold d; by case_decide).
    case_decide as Hin; split_and!; try done; [cbn; by rewrite Hp|].
    rewrite Hp, replace_absent; [done|]. by rewrite <- (eo_sym bs He o b k c).
  - left. pose proof (lookup_lt_Some _ _ _ E) as Hl. rewrite split_length in Hl. assert (k = length bs) as -> by lia.
    rewrite split_new in E. by injection E.
Qed.

Lemma NoDup_replace o n (l : list nat) : NoDup l → n ∉ l → NoDup (replace_ptr o n <$> l).
Proof.
  intros Hl Hn. induction Hl as [|x l Hx Hl IH]; [constructor|]. apply not_elem_of_cons in Hn as [Hnx Hn].
  cbn. constructor; [|auto]. intros (y & Ey & Hy)%list_elem_of_fmap. unfold replace_ptr in Ey. repeat case_decide; congruence.
Qed.

Lemma elem_of_replace o n (l : list nat) x : o ≠ n → n ∉ l →
  x ∈ replace_ptr o n <$> l ↔ (x = n ∧ o ∈ l) ∨ (x ≠ o ∧ x ≠ n ∧ x ∈ l).
Proof.
  intros Hne Hn. rewrite list_elem_of_fmap. unfold replace_ptr. split.
  - intros (y & -> & Hy). case_decide; subst; [auto|]. right. split_and!; congruence.
  - intros [[-> Ho]|(? & ? & ?)]; [exists o|exists x]; by case_decide.
Qed.

Lemma not_block o (bs : list basic_block) (l : list nat) : Forall (λ j, (j < length bs)%nat) l → o = length bs → o ∉ l.
Proof. rewrite list.Forall_forall. intros Hl -> Hin. specialize (Hl _ Hin). lia. Qed.

Lemma split_edges_ok o offset b bs : edges_ok bs → bs !! o = Some b → edges_ok (split_bbs o offset b bs).
Proof.
  intros He Eo. pose proof He as [Hs Hp Hsym]. destruct (Hs o b Eo) as [Hso Hno].
  pose proof (lookup_lt_Some _ _ _ Eo) as Ho. assert (o ≠ length bs) as Hne by lia.
  assert (∀ l, Forall (λ j, (j < length bs)%nat) l → Forall (λ j, (j < S (length bs))%nat) l) as Hup.
  { intros l Hl. eapply Forall_impl; [|exact Hl]. cbn. lia. }
  constructor; intros k c'; rewrite ?split_length.
  - intros E. apply split_block in E as [[-> ->]|(c & Ec & _ & -> & _)]; [by auto| |done|done].
    destruct (Hs k c Ec). case_decide; [|by auto]. split; constructor.
  - intros E. apply split_block in E as [[-> ->]|(c & Ec & -> & _)]; [split; constructor| |done|done].
    destruct (Hp k c Ec) as [Hr Hn]. split; [|apply NoDup_replace; [done|by eapply not_block]].
    apply Forall_fmap. eapply Forall_impl; [|exact Hr]. cbn. intros j Hj. unfold replace_ptr. case_decide; lia.
  - intros l d' E E'. apply split_block in E as [[-> ->]|(c & Ec & _ & -> & _)]; [| |done|done].
    + apply split_block in E' as [[-> ->]|(d & Ed & -> & _)]; [| |done|done]; cbn.
      * split; [|by intros ?%elem_of_nil]. intros Hin. by eapply not_block in Hin.
      * destruct (Hp l d Ed). rewrite elem_of_replace by (done || by eapply not_block).
        rewrite (Hsym o b l d Eo Ed). tauto.
    + pose proof (lookup_lt_Some _ _ _ Ec).
      apply split_block in E' as [[-> ->]|(d & Ed & -> & _)]; [| |done|done]; cbn.
      * destruct (Hs k c Ec) as [Hr _]. split; [|by intros ?%elem_of_nil].
        case_decide; [by intros ?%elem_of_nil|]. intros Hin. by eapply not_block in Hin.
      * destruct (Hp l d Ed). rewrite elem_of_replace by (done || by eapply not_block).
        pose proof (Hsym k c l d Ec Ed). case_decide as Hk; cbn; [|naive_solver lia].
        subst k. rewrite elem_of_nil. naive_solver lia.
Qed.

(** ** The blocks cover the code *)

(** The blocks [l], in order, are the code from [s] to [e]: none is empty, and each starts
    where the one before ends. *)
Inductive tiles (bs : list basic_block) : list nat → Z → Z → Prop :=
  | tiles_nil s : tiles bs [] s s
  | tiles_cons i b l s e : bs !! i = Some b → start b = s → s < end_ b → tiles bs l (end_ b) e → tiles bs (i :: l) s e.

Lemma tiles_le bs l s e : tiles bs l s e → s <= e.
Proof. induction 1; lia. Qed.

Lemma tiles_block bs l s e i : tiles bs l s e → i ∈ l →
  ∃ b, bs !! i = Some b ∧ s <= start b ∧ start b < end_ b ∧ end_ b <= e.
Proof.
  induction 1 as [|j b l s e Ej Hs Hlt Ht IH]; [by intros ?%elem_of_nil|]. apply tiles_le in Ht.
  intros [->|Hi]%elem_of_cons; [exists b; split_and!; [done|lia..]|].
  destruct (IH Hi) as (c & ? & ? & ? & ?). exists c. split_and!; [done|lia..].
Qed.

Lemma tiles_mono bs bs' l s e : tiles bs l s e →
  (∀ i b, i ∈ l → bs !! i = Some b → ∃ b', bs' !! i = Some b' ∧ start b' = start b ∧ end_ b' = end_ b) → tiles bs' l s e.
Proof.
  induction 1 as [|i b l s e Ei Hs Hlt Ht IH]; intros Hb; [constructor|].
  destruct (Hb i b ltac:(apply elem_of_cons; auto) Ei) as (b' & E' & Hs' & He'). econstructor; [done|congruence|lia|].
  rewrite He'. apply IH. intros j c Hj. apply Hb. apply elem_of_cons. auto.
Qed.

(** Two blocks of the list with a common offset are the same. *)
Lemma tiles_unique bs l s e i j b c x : tiles bs l s e → i ∈ l → j ∈ l → bs !! i = Some b → bs !! j = Some c →
  start b <= x < end_ b → start c <= x < end_ c → i = j.
Proof.
  induction 1 as [|k d l s e Ek Hs Hlt Ht IH]; [by intros ?%elem_of_nil|].
  intros [->|Hi]%elem_of_cons [->|Hj]%elem_of_cons Eb Ec Hb Hc; [done| | |by apply IH]; simplify_eq.
  - destruct (tiles_block _ _ _ _ _ Ht Hj) as (? & ? & ? & ? & ?). simplify_eq. lia.
  - destruct (tiles_block _ _ _ _ _ Ht Hi) as (? & ? & ? & ? & ?). simplify_eq. lia.
Qed.

Lemma tiles_find bs l s e x : tiles bs l s e → s <= x < e →
  ∃ i b, find_in bs l x = Some (Some i) ∧ i ∈ l ∧ bs !! i = Some b ∧ start b <= x < end_ b.
Proof.
  induction 1 as [|i b l s e Ei Hs Hlt Ht IH]; [lia|]. intros Hx. cbn. rewrite Ei. cbn. case_decide as Hin.
  - exists i, b. split_and!; [done|apply elem_of_cons; auto|done|lia|lia].
  - destruct IH as (j & c & ? & ? & ? & ?); [lia|]. exists j, c. split_and!; [done|apply elem_of_cons; auto|done|lia..].
Qed.

(** The first and the last block. *)
Lemma tiles_last bs l s e : tiles bs l s e → s < e → ∃ i b, i ∈ l ∧ bs !! i = Some b ∧ end_ b = e.
Proof.
  induction 1 as [|i b l s e Ei Hs Hlt Ht IH]; [lia|]. intros _. destruct (decide (end_ b < e)) as [He|He].
  - destruct IH as (j & c & ? & ? & ?); [lia|]. exists j, c. split_and!; [apply elem_of_cons; auto|done..].
  - exists i, b. split_and!; [apply elem_of_cons; auto|done|apply tiles_le in Ht; lia].
Qed.
Lemma tiles_at_end bs l s e i b : tiles bs l s e → i ∈ l → bs !! i = Some b →
  end_ b = e ∨ ∃ j c, j ∈ l ∧ bs !! j = Some c ∧ start c = end_ b.
Proof.
  induction 1 as [|k d l s e Ek Hs Hlt Ht IH]; [by intros ?%elem_of_nil|]. intros [->|Hi]%elem_of_cons E; simplify_eq.
  - destruct Ht as [|j c l' s' e' Ej ? ? ?]; [by left|]. right. exists j, c.
    split_and!; [set_solver|done..].
  - destruct (IH Hi E) as [->|(j & c & ? & ? & ?)]; [by left|]. right. exists j, c. split_and!; [apply elem_of_cons; auto|done..].
Qed.

Lemma list_add_elem n x l y : x ∈ l → y ∈ list_add n x l ↔ y = n ∨ y ∈ l.
Proof.
  induction l as [|z l IH]; [by intros ?%elem_of_nil|]. intros Hx. cbn. case_decide as Hz.
  - rewrite !elem_of_cons. tauto.
  - apply elem_of_cons in Hx as [->|Hx]; [done|]. rewrite !elem_of_cons, (IH Hx). tauto.
Qed.

Lemma tiles_split bs bs' o n b b' c' off l s e : tiles bs l s e → o ∈ l → bs !! o = Some b →
  start b < off < end_ b → n ∉ l →
  bs' !! o = Some b' → start b' = start b → end_ b' = off →
  bs' !! n = Some c' → start c' = off → end_ c' = end_ b →
  (∀ i d, i ≠ o → bs !! i = Some d → ∃ d', bs' !! i = Some d' ∧ start d' = start d ∧ end_ d' = end_ d) →
  tiles bs' (list_add n o l) s e.
Proof.
  intros Ht Ho Eo Hoff Hn Eo' Hs' He' En Hsn Hen Hother.
  induction Ht as [|k d l s e Ek Hs Hlt Ht IH]; [by apply elem_of_nil in Ho|]. cbn. case_decide as Hk.
  - subst k. simplify_eq. econstructor; [done|done|lia|]. econstructor; [done|done|lia|]. rewrite Hen.
    eapply tiles_mono; [done|]. intros i d1 Hi Ed. apply Hother; [|done]. intros ->.
    destruct (tiles_block _ _ _ _ _ Ht Hi) as (? & ? & ? & ? & ?). simplify_eq. lia.
  - apply not_elem_of_cons in Hn as [_ Hn]. apply elem_of_cons in Ho as [->|Ho]; [done|].
    destruct (Hother k d Hk Ek) as (d' & Ed' & Hsd & Hed). econstructor; [done|congruence|lia|]. rewrite Hed. auto.
Qed.

(** ** A block cut in two, with or without an edge between the parts *)

Definition cut_bbs (e : bool) (o : nat) (offset : Z) (b : basic_block) (bs : list basic_block) : list basic_block :=
  if e then link o (length bs) (split_bbs o offset b bs) else split_bbs o offset b bs.
Definition lower_cut (e : bool) (offset : Z) (n : nat) (b : basic_block) : basic_block :=
  set_successors (if e then [n] else []) (lower_part offset b).

(** What later passes see of two blocks is the same. *)
Definition same_block (b c : basic_block) : Prop :=
  start b = start c ∧ end_ b = end_ c ∧ has_branch b = has_branch c ∧ has_return b = has_return c ∧
  br_target_off b = br_target_off c ∧ successors b = successors c ∧ has_athrow b = has_athrow c.

Lemma cut_length e o off b bs : length (cut_bbs e o off b bs) = S (length bs).
Proof. unfold cut_bbs. by destruct e; rewrite ?link_length, split_length. Qed.

Lemma cut_new e o off b bs : bs !! o = Some b →
  ∃ c, cut_bbs e o off b bs !! length bs = Some c ∧ same_block c (upper_part off b) ∧ is_eh c = false.
Proof.
  intros Eo. apply lookup_lt_Some in Eo. unfold cut_bbs. destruct e; [rewrite link_lookup|]; rewrite split_new; cbn.
  - rewrite (decide_False (P := length bs = o)) by lia. rewrite decide_True by done.
    eexists. split; [done|]. split; [|done]. unfold same_block. split_and!; done.
  - eexists. split; [done|]. split; [|done]. unfold same_block. split_and!; done.
Qed.

Lemma split_cases o off b bs k c' : edges_ok bs → bs !! o = Some b → split_bbs o off b bs !! k = Some c' →
  (k = length bs ∧ same_block c' (upper_part off b) ∧ is_eh c' = false) ∨
  (k = o ∧ same_block c' (lower_part off b) ∧ is_eh c' = is_eh b) ∨
  (k ≠ o ∧ ∃ c, bs !! k = Some c ∧ same_block c' c ∧ is_eh c' = is_eh c).
Proof.
  intros He Eo E. apply split_block in E as [[-> ->]|(d & Ed & _ & Hd)]; [..|done|done].
  - left. split; [done|]. split; [|done]. unfold same_block. split_and!; done.
  - right. destruct (decide (k = o)) as [->|Hk]; cbn in Hd; destruct Hd as (? & ? & ? & ? & ? & ? & ? & ?); [left|right]; (split; [done|]).
    + simplify_eq. split; [|done]. unfold same_block. split_and!; done.
    + exists d. split; [done|]. split; [|done]. unfold same_block. split_and!; done.
Qed.

Lemma cut_block e o off b bs k c' : edges_ok bs → bs !! o = Some b → cut_bbs e o off b bs !! k = Some c' →
  (k = length bs ∧ same_block c' (upper_part off b) ∧ is_eh c' = false) ∨
  (k = o ∧ same_block c' (lower_cut e off (length bs) b) ∧ is_eh c' = is_eh b) ∨
  (k ≠ o ∧ ∃ c, bs !! k = Some c ∧ same_block c' c ∧ is_eh c' = is_eh c).
Proof.
  intros He Eo E. pose proof (lookup_lt_Some _ _ _ Eo) as Ho. unfold cut_bbs in E. destruct e; [|by apply split_cases in E].
  apply link_block in E as (c & Ec & Hs & _ & Hst & Hen & Hb & Hr & Ht & Heh & Hth). unfold lower_cut, same_block.
  apply split_cases in Ec as [(-> & Hc & Hc')|[(-> & Hc & Hc')|(Hne & d & Ed & Hc & Hc')]]; [..|done|done];
    destruct Hc as (? & ? & ? & ? & ? & Hcs & ?).
  - left. rewrite decide_False in Hs by lia. split_and!; congruence.
  - right. left. rewrite decide_True in Hs by done. cbn in *. split_and!; try congruence. by rewrite Hs, Hcs.
  - right. right. rewrite decide_False in Hs by done. split; [done|]. exists d. split_and!; congruence.
Qed.

Lemma cut_old e o off b bs k c : edges_ok bs → bs !! o = Some b → bs !! k = Some c → ∃ c', cut_bbs e o off b bs !! k = Some c' ∧
  (if decide (k = o) then same_block c' (lower_cut e off (length bs) b) else same_block c' c) ∧ is_eh c' = is_eh c.
Proof.
  intros He Eo Ec. pose proof (lookup_lt_Some _ _ _ Ec) as Hk.
  destruct (lookup_lt_is_Some_2 (cut_bbs e o off b bs) k) as [c' Ec']; [rewrite cut_length; lia|]. exists c'. split; [done|].
  destruct (cut_block e o off b bs k c' He Eo Ec') as [[-> _]|[(-> & ? & ?)|(Hne & d & Ed & ? & ?)]]; [lia| |].
  - simplify_eq. by rewrite decide_True.
  - simplify_eq. by rewrite decide_False.
Qed.

Lemma cut_edges_ok e o off b bs : edges_ok bs → bs !! o = Some b → edges_ok (cut_bbs e o off b bs).
Proof.
  intros He Eo. pose proof (lookup_lt_Some _ _ _ Eo) as Ho. unfold cut_bbs. destruct e; [|by apply split_edges_ok].
  destruct (lookup_lt_is_Some_2 (split_bbs o off b bs) o) as [c Ec]; [rewrite split_length; lia|].
  eapply link_edges_ok; [by apply split_edges_ok|done|rewrite split_length; lia|].
  apply split_block in Ec as [[? ?]|(d & Ed & _ & -> & _)]; [lia| |done|done]. rewrite decide_True by done. apply not_elem_of_nil.
Qed.

Lemma cut_tiles e o off b bs l s en : edges_ok bs → tiles bs l s en → (∀ i c, bs !! i = Some c → i ∈ l) → bs !! o = Some b →
  start b < off < end_ b → tiles (cut_bbs e o off b bs) (list_add (length bs) o l) s en.
Proof.
  intros He Ht Ha Eo Hoff.
  destruct (cut_old e o off b bs o b He Eo Eo) as (b' & Eb' & Hb & _). rewrite decide_True in Hb by done. destruct Hb as (Hs & Hen & _).
  destruct (cut_new e o off b bs Eo) as (c' & Ec' & (Hs' & Hen' & _) & _).
  eapply (tiles_split bs _ o (length bs) b b' c' off); [done|by eapply Ha|done|done| |done|done|done|done|done|done|].
  - intros Hin. destruct (tiles_block _ _ _ _ _ Ht Hin) as (? & ?%lookup_lt_Some & _). lia.
  - intros i d Hi Ed. destruct (cut_old e o off b bs i d He Eo Ed) as (d' & Ed' & Hd & _). rewrite decide_False in Hd by done.
    destruct Hd as (? & ? & _). eauto.
Qed.

(** [bb_split] and [bb_add_successor] together. *)
Lemma cut_ok `{Allocator} (Hm : ∀ k sz, malloc_ok k sz = true) o off b u : edges_ok (bbs u) → bbs u !! o = Some b →
  start b < off < end_ b → ∃ h, (let* n := bb_split (Some o) off in bb_add_successor (Some o) n) u =
    Done 0 (CU h (cut_bbs true o off b (bbs u)) (list_add (length (bbs u)) o (bb_list u)) (u64 (nr_bb u + 1))).
Proof.
  intros He Eo Hoff. pose proof (lookup_lt_Some _ _ _ Eo) as Ho. unfold bind.
  destruct (bb_split_ok Hm o off b u Eo ltac:(lia) (proj1 (eo_succ _ He _ _ Eo))) as [h ->].
  match goal with |- context [bb_add_successor _ _ ?v] => destruct (bb_add_successor_ok Hm o (length (bbs u)) v) as [h2 ->] end.
  1,2: cbn; rewrite split_length; lia. by exists h2.
Qed.

(** ** Blocks with other data *)

(** The same blocks as far as [P] tells, in the same places. *)
Definition similar (P : basic_block → basic_block → Prop) (bs bs' : list basic_block) : Prop := Forall2 P bs bs'.

Lemma similar_insert (P : basic_block → basic_block → Prop) bs i b b' : (∀ c, P c c) → bs !! i = Some b → P b b' →
  similar P bs (<[i := b']> bs).
Proof.
  intros HP E Hb. apply Forall2_same_length_lookup. split; [by rewrite length_insert|]. intros j c c' Ec Ec'.
  apply list_lookup_insert_Some in Ec' as [(-> & -> & _)|[_ Ec']]; by simplify_eq.
Qed.

Definition same_edges (b b' : basic_block) : Prop := successors b' = successors b ∧ predecessors b' = predecessors b.

Lemma edges_ok_similar bs bs' : similar same_edges bs bs' → edges_ok bs → edges_ok bs'.
Proof.
  intros Hs [H1 H2 H3]. pose proof (Forall2_length Hs) as Hl.
  assert (∀ i b', bs' !! i = Some b' → ∃ b, bs !! i = Some b ∧ successors b' = successors b ∧ predecessors b' = predecessors b) as Hb.
  { intros i b' E. destruct (Forall2_lookup_r _ _ _ _ _ Hs E) as (b & Eb & ? & ?). eauto. }
  constructor.
  - intros i b' (b & Eb & -> & _)%Hb. rewrite <- Hl. eauto.
  - intros i b' (b & Eb & _ & ->)%Hb. rewrite <- Hl. eauto.
  - intros i b' j c' (b & Eb & -> & _)%Hb (c & Ec & _ & ->)%Hb. eauto.
Qed.

Definition same_bounds (b b' : basic_block) : Prop := start b' = start b ∧ end_ b' = end_ b.

Lemma tiles_similar bs bs' l s e : similar same_bounds bs bs' → tiles bs l s e → tiles bs' l s e.
Proof.
  intros Hs Ht. eapply tiles_mono; [done|]. intros i b _ Eb. destruct (Forall2_lookup_l _ _ _ _ _ Hs Eb) as (b' & Eb' & ? & ?). eauto.
Qed.
