(* ===== verification/ControlFlow.v ===== *)
(** * jit/cfg-analyzer.c: the control flow graph of a method

    The code is cut into basic blocks in four passes: after every instruction that ends a
    block, at every target of a branch, at the exception handlers; edges are added with
    the cuts and, for branches, by a pass of their own.  The blocks and their edges are
    those of BasicBlock; the targets are collected in a bit set. *)

From S2P Require Import Prelude CMonad Opcodes Bytecode Bitset SetInterface AttributeInfo Attributes Verifier BasicBlock.
#[local] Open Scope Z_scope.

Section ops.
Context `{Allocator} (method : vm_method).
#[local] Abbreviation code := (vmm_code method).
#[local] Abbreviation ca := (code_attribute method).
#[local] Abbreviation nr_handlers := (Z.to_nat (exception_table_length (code_attribute method))).

(** [lookup_eh_entry] of jit/exception.c. *)
Fixpoint lookup_eh_from (n i : nat) (target : Z) : option (option cafebabe_code_attribute_exception) :=
  match n with
  | O => Some None
  | S n' =>
    eh ← exception_table ca !! i;
    if decide (handler_pc eh = target) then Some (Some eh) else lookup_eh_from n' (S i) target
  end.
Definition lookup_eh_entry (target : Z) : option (option cafebabe_code_attribute_exception) :=
  lookup_eh_from nr_handlers 0 target.

Definition is_exception_handler (b : basic_block) : option bool :=
  r ← lookup_eh_entry (start b); Some (bool_decide (is_Some r)).

Definition detect_exception_handlers : C unit :=
  let* l := get bb_list in
  for_each (λ i,
    let* b := deref (Some i) in
    let* eh := liftC (is_exception_handler b) in
    update (Some i) (set_is_eh eh)) l.

(** The assertion is [undef]. *)
Fixpoint split_handlers (n i : nat) : C Z :=
  match n with
  | O => ret 0
  | S n' =>
    let* eh := liftC (exception_table ca !! i) in
    let* bb := find_bb (handler_pc eh) in
    match bb with
    | None => ret (-1)
    | Some _ =>
      let* b := deref bb in
      if negb (is_eh b) then undef else
      let* err := (if decide (start b = handler_pc eh) then ret 0 else
        let* new_bb := bb_split bb (handler_pc eh) in
        match new_bb with
        | None => ret (-1)
        | Some _ => do update new_bb (set_is_eh true) ;; bb_add_successor bb new_bb
        end) in
      if decide (err = 0) then split_handlers n' (S i) else ret err
    end
  end.
Definition split_at_exception_handlers : C Z := split_handlers nr_handlers 0.

Fixpoint update_successors (l : list nat) : C Z :=
  match l with
  | [] => ret 0
  | i :: l' =>
    let* b := deref (Some i) in
    if negb (has_branch b) then update_successors l' else
    let* target_bb := find_bb (br_target_off b) in
    match target_bb with
    | None => undef
    | Some t =>
      if bb_successors_contains b t then update_successors l' else
      let* err := bb_add_successor (Some i) target_bb in
      if decide (err = 0) then update_successors l' else ret err
    end
  end.
Definition update_branch_successors : C Z := let* l := get bb_list in update_successors l.

(** [n] offsets are left. *)
Fixpoint split_targets (n : nat) (offset : Z) (branch_targets : list Z) : C Z :=
  match n with
  | O => ret 0
  | S n' =>
    let* t := liftC (test_bit branch_targets offset) in
    if negb t then split_targets n' (offset + 1) branch_targets else
    let* bb := find_bb offset in
    let* b := deref bb in
    let* err := (if decide (start b = offset) then ret 0 else
      let* new_bb := bb_split bb offset in
      bb_add_successor bb new_bb) in
    if decide (err = 0) then split_targets n' (offset + 1) branch_targets else ret err
  end.
Definition split_at_branch_targets (branch_targets : list Z) : C Z :=
  split_targets (Z.to_nat (code_length ca)) 0 branch_targets.

(** The first part of the loop: the block is cut after the instruction. *)
Definition split_after_branch (bb : option nat) (offset opcode : Z) : C (Z * option nat) :=
  let* size := liftC (bc_insn_size code offset) in
  match size with
  | Exits => fail tt
  | Returns n =>
    let next_insn_off := u64 (offset + n) in
    let* b := deref bb in
    if decide (next_insn_off = end_ b) then ret (0, None) else
    let* new_bb := bb_split bb next_insn_off in
    let* branch := liftC (bc_is_branch opcode) in
    if branch && negb (bc_is_goto opcode) then
      let* err := bb_add_successor bb new_bb in ret (err, new_bb)
    else ret (0, new_bb)
  end.

(** The targets of a switch. *)
Fixpoint mark_loop (target : Z → option Z) (n : nat) (i offset : Z) (branch_targets : list Z) : option (list Z) :=
  match n with
  | O => Some branch_targets
  | S n' =>
    t ← target i;
    bits' ← set_bit branch_targets (u64 (offset + t));
    mark_loop target n' (i + 1) offset bits'
  end.

(** The second part of the loop: the targets are collected and the block gets its flags. *)
Definition mark_targets (bb : option nat) (offset opcode : Z) (branch_targets : list Z) : C (list Z) :=
  if decide (opcode = OPC_TABLESWITCH) then liftC (
    info ← get_tableswitch_info code offset;
    bits' ← set_bit branch_targets (u64 (offset + ts_default_target info));
    mark_loop (λ i, read_s32 code (ts_targets info + u32 (i * 4))) (Z.to_nat (ts_count info)) 0 offset bits')
  else if decide (opcode = OPC_LOOKUPSWITCH) then liftC (
    info ← get_lookupswitch_info code offset;
    bits' ← set_bit branch_targets (u64 (offset + ls_default_target info));
    mark_loop (read_lookupswitch_target code info) (Z.to_nat (ls_count info)) 0 offset bits')
  else
    let* branch := liftC (bc_is_branch opcode) in
    if (branch : bool) then
      let* off := liftC (bc_target_off code offset) in
      let br_target_off := u64 (off + offset) in
      do update bb (set_branch true br_target_off) ;;
      liftC (set_bit branch_targets br_target_off)
    else
      let* return_ := liftC (bc_is_return opcode) in
      do (if (return_ : bool) then update bb (set_return true)
          else if bc_is_athrow opcode then update bb set_athrow
          else ret tt) ;;
      ret branch_targets.

Fixpoint split_after_from (fuel : nat) (code_length offset : Z) (bb : option nat) (branch_targets : list Z)
  : C (Z * list Z) :=
  match fuel with
  | O => undef
  | S fuel' =>
    if decide (code_length <= offset) then ret (0, branch_targets) else
    let* opcode := liftC (rd code offset) in
    let* ends := liftC (bc_ends_basic_block opcode) in
    let* r := (if negb ends then ret (0, bb, branch_targets) else
      let* r := split_after_branch bb offset opcode in
      let '(err, new_bb) := r in
      if decide (err = 0) then
        let* bits' := mark_targets bb offset opcode branch_targets in
        ret (0, match new_bb with Some _ => new_bb | None => bb end, bits')
      else ret (err, bb, branch_targets)) in
    let '(err, bb', bits') := r in
    if decide (err = 0) then
      let* size := liftC (bc_insn_size code offset) in
      match size with
      | Exits => fail tt
      | Returns n => split_after_from fuel' code_length (u64 (offset + n)) bb' bits'
      end
    else ret (err, bits')
  end.
(** Every instruction has a byte. *)
Definition split_after_branches (code_length : Z) (entry_bb : option nat) (branch_targets : list Z) : C (Z * list Z) :=
  split_after_from (S (length code)) code_length 0 entry_bb branch_targets.

Fixpoint handlers_have_bb (n i : nat) : C bool :=
  match n with
  | O => ret true
  | S n' =>
    let* eh := liftC (exception_table ca !! i) in
    let* bb := find_bb (handler_pc eh) in
    match bb with
    | None => ret false
    | Some _ =>
      let* b := deref bb in
      if bool_decide (start b = handler_pc eh) && is_eh b then handlers_have_bb n' (S i) else ret false
    end
  end.
Definition all_exception_handlers_have_bb : C bool := handlers_have_bb nr_handlers 0.

(** The error, and [cu->entry_bb]. *)
Definition analyze_control_flow : C (Z * option nat) :=
  let* branch_targets := on_heap (alloc_bitset (code_length ca)) in
  match branch_targets with
  | None => ret (- ENOMEM, None)
  | Some bs =>
    let* entry_bb := get_basic_block 0 (code_length ca) in
    let* r := split_after_branches (code_length ca) entry_bb (bits bs) in
    let '(err, targets) := r in
    if negb (bool_decide (err = 0)) then ret (err, entry_bb) else
    let* err := split_at_branch_targets targets in
    if negb (bool_decide (err = 0)) then ret (err, entry_bb) else
    let* err := update_branch_successors in
    if negb (bool_decide (err = 0)) then ret (err, entry_bb) else
    do detect_exception_handlers ;;
    let* err := split_at_exception_handlers in
    if negb (bool_decide (err = 0)) then ret (err, entry_bb) else
    let* all := all_exception_handlers_have_bb in
    if (all : bool) then ret (err, entry_bb) else undef
  end.
End ops.
