(* ===== verification/ControlFlowSpec.v ===== *)
(** * The control flow graph that the passes build

    In terms of the predicates of the code itself (the theorems of ControlFlowProps say the
    same in those of JavaCode): where basic blocks start ([leader]), what follows a block
    ([flow_succs]), the
    invariant [flow_inv] that the blocks of a compilation unit keep while the passes of
    ControlFlow cut them, and that cutting a block at an instruction keeps it. *)

From S2P Require Import Prelude CMonad Opcodes Bytecode JavaCode Bitset SetInterface AttributeInfo Attributes Verifier VerifierPass BasicBlock ControlFlow.
#[local] Open Scope Z_scope.

(** ** Instructions *)

Section flow.
Context (method : vm_method) (ns : list Z).
#[local] Abbreviation code := (vmm_code method).
#[local] Abbreviation len := (code_length (code_attribute method)).

(** The places of the instructions, and one instruction after another. *)
Definition pcs : list Z := starts 0 ns.
Definition follows (q p : Z) : Prop := q ∈ pcs ∧ bc_insn_size code q = Some (Returns (p - q)).

Definition opcode_is (f : Z → option bool) (q : Z) : bool :=
  match rd code q ≫= f with Some b => b | None => false end.
Definition ends (q : Z) : bool := opcode_is bc_ends_basic_block q.
Definition returns (q : Z) : bool := opcode_is bc_is_return q.
(** Control can reach the next instruction, or is taken to. *)
Definition falls (q : Z) : bool :=
  negb (ends q) || opcode_is bc_branches_to_follower q.
(** The target of a branch that is not a switch. *)
Definition simple_target (q : Z) : option Z :=
  opc ← rd code q;
  branch ← bc_is_branch opc;
  if branch && negb (bool_decide (opc = OPC_TABLESWITCH ∨ opc = OPC_LOOKUPSWITCH))
  then off ← bc_target_off code q; Some (q + off)
  else None.

(** All the targets of an instruction. *)
Definition jump_targets (pc : Z) : option (list Z) :=
  opc ← rd code pc;
  branch ← bc_is_branch opc;
  if (branch : bool) then
    let p := pc + 1 + get_tableswitch_padding pc in
    if decide (opc = OPC_TABLESWITCH) then
      def ← read_s32 code p;
      low ← read_s32 code (p + 4);
      high ← read_s32 code (p + 8);
      ts ← targets_at code pc (p + 12) 4 (Z.to_nat (high - low + 1));
      Some (pc + def :: ts)
    else if decide (opc = OPC_LOOKUPSWITCH) then
      def ← read_s32 code p;
      npairs ← read_s32 code (p + 4);
      ts ← targets_at code pc (p + 8 + 4) 8 (Z.to_nat npairs);
      Some (pc + def :: ts)
    else off ← bc_target_off code pc; Some [pc + off]
  else Some [].

Definition target_of (q t : Z) : Prop := ∃ ts, jump_targets q = Some ts ∧ t ∈ ts.

(** An instruction that starts a block. *)
Definition leader (p : Z) : Prop :=
  p = 0 ∨ (∃ q, follows q p ∧ ends q = true ∧ p < len) ∨ ∃ q, q ∈ pcs ∧ target_of q p.

Definition handler (p : Z) : Prop := ∃ eh, eh ∈ exception_table (code_attribute method) ∧ handler_pc eh = p.

(** Code to which the analysis is applied: complete instructions, and branches and
    handlers that go to instructions. *)
Record flow_wf : Prop := {
  fw_code : Forall is_u8 code;
  fw_len : len = Z.of_nat (length code);
  fw_size : 0 < len < 2 ^ 31;
  fw_insns : insns code 0 ns;
  fw_targets q t : q ∈ pcs → target_of q t → t ∈ pcs;
  fw_handlers : exception_table_length (code_attribute method) = Z.of_nat (length (exception_table (code_attribute method)));
  fw_handler p : handler p → p ∈ pcs;
}.

(** ** Facts about instructions *)

Context (Hwf : flow_wf).

Lemma insns_walk pc ms : 0 <= pc → insns code pc ms → ∀ q, q ∈ starts pc ms →
  pc <= q ∧ ∃ n, 1 <= n ∧ q + n <= len ∧ insn_length code q = Some n ∧ bc_insn_size code q = Some (Returns n) ∧
    (q + n ∈ starts pc ms ∨ q + n = len) ∧ ∀ p, p ∈ starts pc ms → p <= q ∨ q + n <= p.
Proof using Hwf.
  intros H0 Hi. induction Hi as [|pc n ms E Hn Hi IH]; cbn [starts]; [by intros q ?%elem_of_nil|].
  destruct Hwf as [Hcode Hlen Hsize _ _ _ _].
  pose proof (safe_size code Hcode ltac:(lia) pc H0) as Hs. rewrite E in Hs. cbn in Hs.
  destruct Hs as [[-> _]|(H1 & Hl & Hle & Hsz)]; [unfold E_MALFORMED_BC in Hn; lia|].
  assert (∀ q, q ∈ starts (pc + n) ms → pc + n <= q) as Hge by (intros q Hq; by apply IH; [lia|]).
  intros q [->|Hq]%elem_of_cons.
  - split; [lia|]. exists n. split_and!; [lia|lia|done|done| |].
    + inversion Hi; subst; [right; lia|]. left. cbn [starts]. set_solver.
    + intros p [->|Hp]%elem_of_cons; [lia|]. apply Hge in Hp. lia.
  - destruct (IH ltac:(lia) q Hq) as (? & k & ? & ? & ? & ? & Hnext & Hgap). split; [lia|]. exists k. split_and!; [done..| |].
    + rewrite elem_of_cons. tauto.
    + intros p [->|Hp]%elem_of_cons; [lia|auto].
Qed.

Lemma insn_at q : q ∈ pcs →
  0 <= q ∧ ∃ n, 1 <= n ∧ q + n <= len ∧ insn_length code q = Some n ∧ bc_insn_size code q = Some (Returns n) ∧
    (q + n ∈ pcs ∨ q + n = len) ∧ ∀ p, p ∈ pcs → p <= q ∨ q + n <= p.
Proof using Hwf. apply insns_walk; [lia|apply (fw_insns Hwf)]. Qed.

Lemma pcs_range q : q ∈ pcs → 0 <= q < len.
Proof using Hwf. intros (? & n & ? & ? & _)%insn_at. lia. Qed.

Lemma walk_pred pc ms p : 0 <= pc → insns code pc ms → p ∈ starts pc ms ∨ p = len → p ≠ pc → 
  ∃ q, q ∈ starts pc ms ∧ bc_insn_size code q = Some (Returns (p - q)).
Proof using Hwf.
  intros H0 Hi. induction Hi as [|pc n ms E Hn Hi IH]; cbn [starts].
  { pose proof (fw_len Hwf). intros [Hp| ->]; [by apply elem_of_nil in Hp|lia]. }
  destruct (insns_walk pc (n :: ms) H0 ltac:(by econstructor) pc) as (_ & k & Hk & _ & Hl & Hsz & _); [by left|].
  destruct Hwf as [Hcode Hlen Hsize _ _ _ _].
  pose proof (safe_size code Hcode ltac:(lia) pc H0) as Hs. rewrite E in Hs. cbn in Hs.
  destruct Hs as [[-> _]|(H1 & Hl' & Hle & Hsz')]; [unfold E_MALFORMED_BC in Hn; lia|].
  intros Hp Hne. destruct (decide (p = pc + n)) as [->|Hne'].
  - exists pc. split; [by left|]. rewrite Hsz'. do 2 f_equal. lia.
  - destruct (IH ltac:(lia)) as (q & Hq & Eq); [rewrite elem_of_cons in Hp; tauto|done|]. exists q. split; [by right|done].
Qed.

(** Every instruction but the first, and the end, follows one. *)
Lemma follows_ex p : p ∈ pcs ∨ p = len → p ≠ 0 → ∃ q, follows q p.
Proof using Hwf. intros Hp Hne. destruct (walk_pred 0 ns p) as (q & ? & ?); [lia|apply (fw_insns Hwf)|done|done|]. by exists q. Qed.

Lemma follows_lt q p : follows q p → q < p.
Proof using Hwf. intros [Hq E']. destruct (insn_at q Hq) as (? & n & ? & ? & ? & E & _). rewrite E in E'. injection E'. lia. Qed.

Lemma follows_unique q q' p : follows q p → follows q' p → q = q'.
Proof using Hwf.
  intros H1 H2. pose proof (follows_lt _ _ H1). pose proof (follows_lt _ _ H2). destruct H1 as [H1 E1], H2 as [H2 E2].
  destruct (insn_at q H1) as (_ & n & ? & ? & ? & E & _ & Hg). destruct (insn_at q' H2) as (_ & n' & ? & ? & ? & E' & _ & Hg').
  rewrite E in E1. rewrite E' in E2. injection E1. injection E2. specialize (Hg q' H2). specialize (Hg' q H1). lia.
Qed.

(** No instruction is inside another. *)
Lemma follows_gap q p x : follows q p → x ∈ pcs → x < p → x <= q.
Proof using Hwf. intros [Hq E'] Hx Hlt. destruct (insn_at q Hq) as (? & n & ? & ? & ? & E & _ & Hg). rewrite E in E'. injection E'. specialize (Hg x Hx). lia. Qed.

(** What the table says of the opcodes that end a block. *)
Definition flow_facts (n : nat) : bool :=
  let o := Z.of_nat n in
  match bc_is_branch o, bc_is_return o with
  | Some br, Some rt => negb (br && rt) && negb (br && bc_is_athrow o) && negb (rt && bc_is_athrow o)
  | _, _ => bool_decide (bytecode_info_of o = None)
  end.
Lemma opcode_flow opc i : 0 <= opc → bytecode_info_of opc = Some i →
  ∃ br rt, bc_is_branch opc = Some br ∧ bc_is_return opc = Some rt ∧
    bc_ends_basic_block opc = Some (br || bc_is_athrow opc || rt) ∧ (br = true → rt = false ∧ bc_is_athrow opc = false).
Proof using.
  intros H0 E. assert (forallb flow_facts (seq 0 202) = true) as Hall by (by vm_compute).
  rewrite forallb_forall in Hall. specialize (Hall (Z.to_nat opc)). rewrite in_seq in Hall.
  pose proof (lookup_lt_Some _ _ _ E) as Hl. rewrite bytecode_infos_length in Hl. specialize (Hall ltac:(lia)).
  unfold flow_facts in Hall. rewrite Z2Nat.id in Hall by done. unfold bc_ends_basic_block.
  destruct (bc_is_branch opc) as [br|]; [|by rewrite bool_decide_eq_true, E in Hall].
  destruct (bc_is_return opc) as [rt|]; [|by rewrite bool_decide_eq_true, E in Hall].
  exists br, rt. split_and!; [done..|by destruct br, (bc_is_athrow opc)|]. intros ->.
  by destruct rt, (bc_is_athrow opc).
Qed.

(** The kinds of an instruction of the code. *)
Lemma insn_kind q : q ∈ pcs → ∃ opc br rt, rd code q = Some opc ∧ 0 <= opc ∧ is_Some (bytecode_info_of opc) ∧
  bc_is_branch opc = Some br ∧ bc_is_return opc = Some rt ∧
  bc_ends_basic_block opc = Some (br || bc_is_athrow opc || rt) ∧
  (br = true → rt = false ∧ bc_is_athrow opc = false) ∧
  ends q = (br || bc_is_athrow opc || rt) ∧ returns q = rt ∧
  falls q = negb (br || bc_is_athrow opc || rt) || (br && negb (bc_is_goto opc)).
Proof using Hwf.
  intros Hq. destruct (insn_at q Hq) as (? & n & _ & _ & Hl & _).
  destruct (insn_info (context_of method) (fw_code Hwf) q n Hl) as (opc & i & Eo & H0 & Ei & _). cbn in Eo.
  destruct (opcode_flow opc i H0 Ei) as (br & rt & Eb & Er & Ee & Hx). exists opc, br, rt.
  unfold falls, ends, returns, opcode_is. rewrite Eo. cbn [mbind option_bind]. rewrite Er, Ee.
  unfold bc_branches_to_follower. rewrite Eb. cbn [mbind option_bind]. split_and!; eauto.
Qed.

(** ** The blocks *)

Definition start_at (bs : list basic_block) (j : nat) (t : Z) : Prop := ∃ c, bs !! j = Some c ∧ start c = t.

(** Where control goes from a block that ends at [e] with the instruction at [q]: to the
    next block and, with [m], to the target of the branch. *)
Definition fall_succs (q e : Z) : list Z := if falls q && bool_decide (e < len) then [e] else [].
Definition flow_succs (m : bool) (q e : Z) : list Z :=
  fall_succs q e ++
  match simple_target q with
  | Some t => if m && negb (bool_decide (t ∈ fall_succs q e)) then [t] else []
  | None => []
  end.

(** A block that ends with the instruction at [q]. *)
Record block_ok (m : bool) (bs : list basic_block) (b : basic_block) (q : Z) : Prop := {
  bk_last : follows q (end_ b);
  bk_branch : has_branch b = bool_decide (is_Some (simple_target q));
  bk_target : br_target_off b = default 0 (simple_target q);
  bk_return : has_return b = returns q;
  bk_succ : Forall2 (start_at bs) (successors b) (flow_succs m q (end_ b));
}.

(** ** The flag of athrow *)

(** The first pass sets [has_athrow] of the block that starts at the beginning of the code
    or behind an instruction that ends a block, when the next such instruction from there
    on is an athrow.  The later cuts leave the flag with the first part. *)
Definition throws (q : Z) : bool := opcode_is (λ o, Some (bc_is_athrow o)) q.
Definition throws_from (p : Z) : Prop :=
  (p = 0 ∨ ∃ q, follows q p ∧ ends q = true) ∧
  ∃ q, q ∈ pcs ∧ p <= q ∧ throws q = true ∧ ∀ q', q' ∈ pcs → p <= q' < q → ends q' = false.

Lemma throws_ends q : q ∈ pcs → throws q = true → ends q = true.
Proof using Hwf.
  intros Hq Ht. destruct (insn_kind q Hq) as (opc & br & rt & Eo & _ & _ & _ & _ & _ & _ & -> & _).
  unfold throws, opcode_is in Ht. rewrite Eo in Ht. cbn in Ht. by rewrite Ht, orb_true_r.
Qed.

(** An instruction that ends the block decides. *)
Lemma throws_from_at p q : (p = 0 ∨ ∃ q, follows q p ∧ ends q = true) → q ∈ pcs → p <= q →
  (∀ q', q' ∈ pcs → p <= q' < q → ends q' = false) → ends q = true → throws_from p ↔ throws q = true.
Proof using Hwf.
  intros Hp Hq Hle Hmid He. split; [|intros Ht; split; [done|]; by exists q].
  intros (_ & x & Hx & Hpx & Htx & Hmx). pose proof (throws_ends x Hx Htx) as Hex.
  destruct (decide (x < q)) as [Hlt|]; [by rewrite (Hmid x) in Hex|]. destruct (decide (q < x)); [by rewrite (Hmx q) in He|].
  by replace q with x by lia.
Qed.

(** The blocks cut the code at the offsets [L]; of block [i], the edges of branches are
    there when [m i]. *)
Record blocks_inv (m : nat → bool) (L : Z → Prop) (bs : list basic_block) (l : list nat) : Prop := {
  bi_tiles : tiles bs l 0 len;
  bi_all i b : bs !! i = Some b → i ∈ l;
  bi_edges : edges_ok bs;
  bi_ok i b : bs !! i = Some b → ∃ q, block_ok (m i) bs b q;
  bi_pcs i b : bs !! i = Some b → start b ∈ pcs;
  bi_starts p : L p ↔ ∃ i, start_at bs i p;
  bi_entry : start_at bs 0 0;
  bi_throw i b : bs !! i = Some b → has_athrow b = true ↔ throws_from (start b);
}.

Lemma start_at_mono bs bs' j t : (∀ k c, bs !! k = Some c → start_at bs' k (start c)) → start_at bs j t → start_at bs' j t.
Proof using. intros Hm (c & Ec & <-). auto. Qed.

Lemma block_ok_mono m bs bs' b b' q : (∀ k c, bs !! k = Some c → start_at bs' k (start c)) →
  end_ b' = end_ b → has_branch b' = has_branch b → br_target_off b' = br_target_off b → has_return b' = has_return b →
  successors b' = successors b → block_ok m bs b q → block_ok m bs' b' q.
Proof using.
  intros Hm He Hb Ht Hr Hs [Hl Hb' Ht' Hr' Hs']. constructor; rewrite ?He, ?Hb, ?Ht, ?Hr, ?Hs; try done.
  eapply Forall2_impl; [|exact Hs']. intros j t. by apply start_at_mono.
Qed.

(** Blocks with the same start are the same. *)
Lemma start_at_unique m L bs l i j t : blocks_inv m L bs l → start_at bs i t → start_at bs j t → i = j.
Proof using.
  intros [Ht Ha _ _ _ _ _] (b & Eb & Hb) (c & Ec & Hc).
  destruct (tiles_block _ _ _ _ i Ht (Ha _ _ Eb)) as (? & ? & ? & ? & ?).
  destruct (tiles_block _ _ _ _ j Ht (Ha _ _ Ec)) as (? & ? & ? & ? & ?). simplify_eq.
  eapply (tiles_unique _ _ _ _ i j _ _ (start c) Ht); eauto; lia.
Qed.

(** An instruction in the middle of a block. *)
Lemma middle_insn q : q ∈ pcs → ends q = false → simple_target q = None ∧ returns q = false ∧ falls q = true.
Proof using Hwf.
  intros Hq He. destruct (insn_kind q Hq) as (opc & br & rt & Eo & _ & _ & Eb & _ & _ & _ & Ee & Er & Ef).
  rewrite He in Ee. symmetry in Ee. apply orb_false_iff in Ee as [[-> Ha]%orb_false_iff ->].
  split_and!; [|done|by rewrite Ef, Ha]. unfold simple_target. rewrite Eo. cbn [mbind option_bind]. by rewrite Eb.
Qed.

(** ** Cutting a block *)

Section cut.
Context (m : bool) (L : Z → Prop) (bs : list basic_block) (l : list nat) (Hinv : blocks_inv (λ _, m) L bs l).
Context (o : nat) (b : basic_block) (Eo : bs !! o = Some b) (off : Z) (Hoff : start b < off < end_ b).
Context (Hpc : off ∈ pcs) (Hmid : ∀ q, follows q off → ends q = false).
#[local] Abbreviation bs' := (cut_bbs true o off b bs).

Lemma cut_start_at k c : bs !! k = Some c → start_at bs' k (start c).
Proof using Hinv Eo.
  intros Ec. destruct (cut_old true o off b bs k c (bi_edges _ _ _ _ Hinv) Eo Ec) as (c' & Ec' & Hc & _). exists c'. split; [done|].
  case_decide; [subst k; simplify_eq|]; by destruct Hc as [-> _].
Qed.
Lemma cut_start_new : start_at bs' (length bs) off.
Proof using Eo. destruct (cut_new true o off b bs Eo) as (c' & Ec' & (Hs & _) & _). by exists c'. Qed.

Lemma cut_block_ok k c' : bs' !! k = Some c' → ∃ q, block_ok m bs' c' q.
Proof using Hinv Eo Hoff Hpc Hmid Hwf.
  pose proof Hinv as [_ _ He Hok _ _ _]. intros Ec'.
  destruct (Hok o b Eo) as (q & Hq). pose proof Hq as [_ Hqb Hqt _ _].
  destruct (cut_block true o off b bs k c' He Eo Ec') as [(-> & Hc & _)|[(-> & Hc & _)|(Hne & c & Ec & Hc & _)]];
    destruct Hc as (Hs & Hen & Hb & Hr & Ht & Hss & _).
  - exists q. eapply block_ok_mono; [apply cut_start_at|..|exact Hq]; try done. rewrite Ht. cbn. rewrite Hqt, Hqb.
    by destruct (simple_target q).
  - cbn in *. destruct (follows_ex off) as (p & Hp); [auto|apply pcs_range in Hpc; pose proof (bi_pcs _ _ _ _ Hinv _ _ Eo) as Hb0%pcs_range; lia|].
    destruct (middle_insn p (proj1 Hp) (Hmid p Hp)) as (Htp & Hrp & Hfp). exists p. constructor; rewrite ?Hen, ?Hb, ?Hr, ?Ht, ?Hss, ?Htp; try done.
    + rewrite Hqt, Hqb. by destruct (simple_target q).
    + unfold flow_succs, fall_succs. rewrite Htp, Hfp, bool_decide_eq_true_2 by (apply pcs_range in Hpc; lia).
      constructor; [apply cut_start_new|constructor].
  - destruct (Hok k c Ec) as (p & Hp). exists p. by eapply block_ok_mono; [apply cut_start_at|..|exact Hp].
Qed.

Lemma cut_inv : blocks_inv (λ _, m) (λ p, L p ∨ p = off) bs' (list_add (length bs) o l).
Proof using Hinv Eo Hoff Hpc Hmid Hwf.
  pose proof Hinv as [Ht Ha He Hok Hp HL Hen Hth]. constructor.
  - by apply cut_tiles.
  - intros i c' Ec'. apply list_add_elem; [by eapply Ha|].
    destruct (cut_block true o off b bs i c' He Eo Ec') as [(-> & _)|[(-> & _)|(_ & c & Ec & _)]]; [by left|right; by eapply Ha..].
  - by apply cut_edges_ok.
  - apply cut_block_ok.
  - intros i c' Ec'. destruct (cut_block true o off b bs i c' He Eo Ec') as [(_ & (-> & _) & _)|[(_ & (-> & _) & _)|(_ & c & Ec & (-> & _) & _)]];
      [done|cbn; by eapply Hp|by eapply Hp].
  - intros p. rewrite HL. split.
    + intros [(i & c & Ec & <-)| ->]; [exists i; by apply cut_start_at|exists (length bs); apply cut_start_new].
    + intros (i & c' & Ec' & <-).
      destruct (cut_block true o off b bs i c' He Eo Ec') as [(_ & (-> & _) & _)|[(_ & (-> & _) & _)|(_ & c & Ec & (-> & _) & _)]];
        [by right|left; by exists o, b|left; by exists i, c].
  - eapply start_at_mono; [apply cut_start_at|done].
  - intros i c' Ec'. destruct (cut_block true o off b bs i c' He Eo Ec') as [(_ & Hc & _)|[(_ & Hc & _)|(_ & c & Ec & Hc & _)]];
      destruct Hc as (-> & _ & _ & _ & _ & _ & ->); cbn; [|by eapply Hth..].
    split; [done|]. intros ([->|(q & Hq & Hends)] & _).
    + pose proof (pcs_range _ (Hp o b Eo)). lia.
    + by rewrite (Hmid q Hq) in Hends.
Qed.
End cut.
End flow.
