(* ===== verification/ControlFlowProps.v ===== *)
(** * The control flow analysis computes the graph

    Each pass of ControlFlow keeps the invariant of ControlFlowSpec; together they build
    the basic blocks of the code with exactly its edges. *)

From S2P Require Import Prelude CMonad Opcodes Bytecode JavaCode Bitset SetInterface AttributeInfo Attributes Verifier VerifierPass BasicBlock ControlFlow ControlFlowSpec.
#[local] Open Scope Z_scope.

Section flow.
Context `{Allocator} (Hm : ∀ k sz, malloc_ok k sz = true).
Context (method : vm_method) (ns : list Z) (Hwf : flow_wf method ns).
#[local] Abbreviation code := (vmm_code method).
#[local] Abbreviation ca := (code_attribute method).
#[local] Abbreviation len := (code_length (code_attribute method)).
#[local] Abbreviation pcs := (ControlFlowSpec.pcs ns).
#[local] Abbreviation follows := (ControlFlowSpec.follows method ns).
#[local] Abbreviation ends := (ControlFlowSpec.ends method).
#[local] Abbreviation jump_targets := (ControlFlowSpec.jump_targets method).
#[local] Abbreviation simple_target := (ControlFlowSpec.simple_target method).

(** ** Collecting the targets *)

(** The bits of [bits'] are those of [b] and [ts]. *)
Definition marks (b : bitset) (ts bits' : list Z) : Prop :=
  bitset_ok (with_bits b bits') ∧ ∀ k, 0 <= k → bit_at bits' k = true ↔ bit_at (bits b) k = true ∨ k ∈ ts.

Lemma with_bits_id b : with_bits b (bits b) = b.
Proof using. by destruct b. Qed.

Lemma marks_nil b : bitset_ok b → marks b [] (bits b).
Proof using. intros Hb. split; [by destruct b|]. intros k _. rewrite elem_of_nil. tauto. Qed.

Lemma marks_cons b t ts bits' : bitset_ok b → 0 <= t < nr_bits b → 
  ∃ bits1, set_bit (bits b) t = Some bits1 ∧ bitset_ok (with_bits b bits1) ∧ (marks (with_bits b bits1) ts bits' → marks b (t :: ts) bits').
Proof using.
  intros Hb Ht. destruct (set_bit_ok b t Hb Ht) as (bits1 & E & Hok & Hbit). exists bits1. split_and!; [done..|].
  intros [Hok' Hbit']. split; [done|]. intros k Hk. rewrite Hbit' by done. cbn. rewrite Hbit by done.
  rewrite elem_of_cons, orb_true_iff, bool_decide_eq_true. tauto.
Qed.

Lemma mark_loop_ok target base step : ∀ n i p b ts,
  (∀ j, 0 <= j < Z.of_nat n → target (i + j) = read_s32 code (p + step * j)) →
  targets_at code base p step n = Some ts → Forall (λ t, 0 <= t < nr_bits b) ts → bitset_ok b →
  ∃ bits', mark_loop target n i base (bits b) = Some bits' ∧ marks b ts bits'.
Proof using.
  induction n as [|n IH]; intros i p b ts Ht Hts Hr Hb; cbn in Hts |- *.
  - injection Hts as <-. eexists. split; [done|]. by apply marks_nil.
  - specialize (Ht 0 ltac:(lia)) as H0. rewrite Z.add_0_r, Z.mul_0_r, Z.add_0_r in H0. rewrite H0.
    destruct (read_s32 code p) as [off|]; [|done]. cbn [mbind option_bind] in Hts |- *.
    destruct (targets_at code base (p + step) step n) as [ts'|] eqn:Ets; [|done]. cbn in Hts. injection Hts as <-.
    apply Forall_cons_1 in Hr as [Ht0 Hr]. rewrite u64_id by (destruct Hb; clia).
    assert (∀ bits', ∃ bits1, set_bit (bits b) (base + off) = Some bits1 ∧ bitset_ok (with_bits b bits1) ∧
      (marks (with_bits b bits1) ts' bits' → marks b (base + off :: ts') bits')) as Hc by (intros; by apply marks_cons).
    destruct (Hc []) as (bits1 & E1 & Hok1 & _). rewrite E1. cbn [mbind option_bind].
    destruct (IH (i + 1) (p + step) (with_bits b bits1) ts') as (bits' & E' & Hm'); [|done|done|done|].
    + intros j Hj. replace (i + 1 + j) with (i + (1 + j)) by lia. rewrite Ht by lia. f_equal. lia.
    + cbn [bits with_bits] in E'. exists bits'. split; [done|]. destruct (Hc bits') as (bits2 & E2 & _ & Hmk). rewrite E1 in E2.
      injection E2 as <-. auto.
Qed.

Lemma targets_at_in base step : 4 <= step → ∀ n p, 0 <= p → (n ≠ 0%nat → p + step * (Z.of_nat n - 1) + 4 <= len) →
  ∃ ts, targets_at code base p step n = Some ts.
Proof using Hwf.
  intros Hs. induction n as [|n IH]; intros p Hp Hin; cbn; [eauto|].
  destruct (read_s32_in (context_of method) (fw_code _ _ Hwf) (fw_len _ _ Hwf) p) as (x & Ex & _); [done|cbn; nia|]. cbn in Ex. rewrite Ex. cbn.
  destruct (IH (p + step)) as [ts ->]; [lia|intros; nia|]. cbn. eauto.
Qed.

(** The loop over the targets of each kind of switch. *)
Lemma mark_tableswitch q n b : q ∈ pcs → rd code q = Some OPC_TABLESWITCH → insn_length code q = Some n → q + n <= len →
  bitset_ok b → nr_bits b = len →
  ∃ ts, jump_targets q = Some ts ∧ (Forall (λ t, 0 <= t < len) ts → ∃ bits',
    (info ← get_tableswitch_info code q;
     bits' ← set_bit (bits b) (u64 (q + ts_default_target info));
     mark_loop (λ i, read_s32 code (ts_targets info + u32 (i * 4))) (Z.to_nat (ts_count info)) 0 q bits') = Some bits' ∧
    marks b ts bits').
Proof using Hwf.
  intros Hq Eo Hi Hn Hb Hnr. pose proof (padding_range code q) as Hpad. pose proof (pcs_range _ _ Hwf q Hq) as Hr.
  pose proof (fw_size _ _ Hwf) as Hsz. pose proof (fw_len _ _ Hwf) as Hlen. pose proof (fw_code _ _ Hwf) as Hcode.
  unfold insn_length in Hi. rewrite Eo in Hi. cbn [mbind option_bind] in Hi. rewrite decide_True in Hi by done.
  unfold ControlFlowSpec.jump_targets, get_tableswitch_info. rewrite Eo. cbn [mbind option_bind].
  change (bc_is_branch OPC_TABLESWITCH) with (Some true). cbn [mbind option_bind]. rewrite !decide_True by done.
  set (p := q + 1 + get_tableswitch_padding q) in *. rewrite (u64_id (q + _ + 1)) by (unfold p in *; clia).
  replace (q + get_tableswitch_padding q + 1) with p by lia.
  unfold read_s32 in Hi |- *. destruct (read_u32 code (p + 4)) as [xl|] eqn:El; [|done]. cbn in Hi.
  destruct (read_u32 code (p + 8)) as [xh|] eqn:Eh; [|done]. cbn in Hi. case_decide as Hlh; [|done]. injection Hi as <-.
  destruct (read_u32_in code Hcode p) as (xd & Ed & Hd); [lia..|]. rewrite Ed. cbn [fmap option_fmap option_map mbind option_bind].
  destruct (read_u32_in code Hcode (p + 4)) as (xl' & El' & Hl); [lia..|]. rewrite El in El'. injection El' as <-.
  destruct (read_u32_in code Hcode (p + 8)) as (xh' & Eh' & Hh); [lia..|]. rewrite Eh in Eh'. injection Eh' as <-.
  set (k := Z.to_nat (s32 xh - s32 xl + 1)).
  destruct (targets_at_in q 4 ltac:(lia) k (p + 12)) as [ts Ets]; [lia|lia|]. rewrite Ets. cbn [mbind option_bind].
  eexists. split; [done|]. intros [Ht Hts]%Forall_cons_1. cbn [ts_default_target ts_targets ts_count].
  rewrite (u32_diff code xl xh (s32 xh - s32 xl + 1)) by (done || lia). fold k. rewrite (u64_id (q + s32 xd)) by clia.
  destruct (marks_cons b (q + s32 xd) [] [] Hb) as (bits1 & E1 & Hok1 & _); [lia|]. rewrite E1. cbn [mbind option_bind].
  destruct (mark_loop_ok (λ i, read_s32 code (p + 12 + u32 (i * 4))) q 4 k 0 (p + 12) (with_bits b bits1) ts) as (bits' & E' & Hm').
  - intros j Hj. rewrite Z.add_0_l, u32_id by (unfold k in Hj; clia). f_equal. lia.
  - done.
  - cbn. by rewrite Hnr.
  - done.
  - exists bits'. split; [exact E'|]. destruct (marks_cons b (q + s32 xd) ts bits' Hb) as (bits2 & E2 & _ & Hmk); [lia|].
    rewrite E1 in E2. injection E2 as <-. auto.
Qed.

Lemma mark_lookupswitch q n b : q ∈ pcs → rd code q = Some OPC_LOOKUPSWITCH → insn_length code q = Some n → q + n <= len →
  bitset_ok b → nr_bits b = len →
  ∃ ts, jump_targets q = Some ts ∧ (Forall (λ t, 0 <= t < len) ts → ∃ bits',
    (info ← get_lookupswitch_info code q;
     bits' ← set_bit (bits b) (u64 (q + ls_default_target info));
     mark_loop (read_lookupswitch_target code info) (Z.to_nat (ls_count info)) 0 q bits') = Some bits' ∧
    marks b ts bits').
Proof using Hwf.
  intros Hq Eo Hi Hn Hb Hnr. pose proof (padding_range code q) as Hpad. pose proof (pcs_range _ _ Hwf q Hq) as Hr.
  pose proof (fw_size _ _ Hwf) as Hsz. pose proof (fw_len _ _ Hwf) as Hlen. pose proof (fw_code _ _ Hwf) as Hcode.
  unfold insn_length in Hi. rewrite Eo in Hi. cbn [mbind option_bind] in Hi. rewrite decide_False, decide_True in Hi by done.
  unfold ControlFlowSpec.jump_targets, get_lookupswitch_info. rewrite Eo. cbn [mbind option_bind].
  change (bc_is_branch OPC_LOOKUPSWITCH) with (Some true). cbn [mbind option_bind]. rewrite decide_False, !decide_True by done.
  set (p := q + 1 + get_tableswitch_padding q) in *. rewrite (u64_id (q + _ + 1)) by (unfold p in *; clia).
  replace (q + get_tableswitch_padding q + 1) with p by lia.
  unfold read_s32 in Hi |- *. destruct (read_u32 code (p + 4)) as [xn|] eqn:En; [|done]. cbn in Hi.
  case_decide as Hnp; [|done]. injection Hi as <-.
  destruct (read_u32_in code Hcode p) as (xd & Ed & Hd); [lia..|]. rewrite Ed. cbn [fmap option_fmap option_map mbind option_bind].
  destruct (read_u32_in code Hcode (p + 4)) as (xn' & En' & Hxn); [lia..|]. rewrite En in En'. injection En' as <-.
  pose proof (s32_nonneg code xn Hxn Hnp) as Exn. rewrite Exn in *. set (k := Z.to_nat xn).
  destruct (targets_at_in q 8 ltac:(lia) k (p + 8 + 4)) as [ts Ets]; [lia|lia|]. rewrite Ets. cbn [mbind option_bind].
  eexists. split; [done|]. intros [Ht Hts]%Forall_cons_1. cbn [ls_default_target ls_pairs ls_count].
  fold k. rewrite (u64_id (q + s32 xd)) by clia.
  destruct (marks_cons b (q + s32 xd) [] [] Hb) as (bits1 & E1 & Hok1 & _); [lia|]. rewrite E1. cbn [mbind option_bind].
  match goal with |- context [mark_loop ?t] => set (target := t) end.
  destruct (mark_loop_ok target q 8 k 0 (p + 8 + 4) (with_bits b bits1) ts) as (bits' & E' & Hm').
  - intros j Hj. unfold target, read_lookupswitch_target. cbn [ls_pairs]. rewrite Z.add_0_l, u32_id by (unfold k in Hj; clia). f_equal. lia.
  - done.
  - cbn. by rewrite Hnr.
  - done.
  - exists bits'. split; [exact E'|]. destruct (marks_cons b (q + s32 xd) ts bits' Hb) as (bits2 & E2 & _ & Hmk); [lia|].
    rewrite E1 in E2. injection E2 as <-. auto.
Qed.

(** What the instruction at [q] leaves in its block. *)
Definition flagged (q : Z) (b : basic_block) : basic_block :=
  match simple_target q with
  | Some t => set_branch true t b
  | None => if returns method q then set_return true b else if opcode_is method (λ o, Some (bc_is_athrow o)) q then set_athrow b else b
  end.

Lemma update_same i b u : bbs u !! i = Some b → u = set_bbs (<[i := b]> (bbs u)) u.
Proof using. intros E. rewrite list_insert_id by done. by destruct u. Qed.

Lemma target_range q ts : q ∈ pcs → jump_targets q = Some ts → Forall (λ t, 0 <= t < len) ts.
Proof using Hwf.
  intros Hq E. apply list.Forall_forall. intros t Ht. apply (pcs_range _ _ Hwf). eapply (fw_targets _ _ Hwf); [done|].
  by exists ts.
Qed.

Lemma simple_target_in q opc : q ∈ pcs → rd code q = Some opc → bc_is_branch opc = Some true →
  opc ≠ OPC_TABLESWITCH → opc ≠ OPC_LOOKUPSWITCH →
  ∃ off, bc_target_off code q = Some off ∧ simple_target q = Some (q + off) ∧ jump_targets q = Some [q + off].
Proof using Hwf.
  intros Hq Eo Eb Ht Hl. destruct (insn_at _ _ Hwf q Hq) as (H0 & n & H1 & Hn & Hi & _).
  destruct (insn_info (context_of method) (fw_code _ _ Hwf) q n Hi) as (opc' & i & Eo' & Hp & Ei & Hni). cbn in Eo'. simplify_eq.
  destruct (opcode_kinds opc i Hp Ei) as (br & wide & local & Eb' & Ew & _ & _ & Hsz & _). simplify_eq.
  destruct (Hsz eq_refl Ht Hl) as [Hw Hs]. rewrite (Hni Ht Hl Hw), Hs in Hn.
  assert (∃ off, bc_target_off code q = Some off) as [off Eoff].
  { unfold bc_target_off. rewrite Eo. cbn [mbind option_bind]. rewrite Ew. cbn [mbind option_bind]. destruct wide.
    - destruct (read_s32_in (context_of method) (fw_code _ _ Hwf) (fw_len _ _ Hwf) (q + 1)) as (x & E & _); [lia|cbn; lia|]. cbn in E. eauto.
    - destruct (read_u16_in (context_of method) (fw_code _ _ Hwf) (fw_len _ _ Hwf) (q + 1)) as (x & E); [lia|cbn; lia|].
      cbn in E. unfold read_s16. rewrite E. cbn. eauto. }
  exists off. split; [done|]. unfold ControlFlowSpec.simple_target, ControlFlowSpec.jump_targets. rewrite Eo. cbn [mbind option_bind].
  rewrite Eb. cbn [mbind option_bind]. rewrite bool_decide_eq_false_2 by tauto. cbn. rewrite !decide_False by done. by rewrite Eoff.
Qed.

Lemma switch_not_simple q opc : rd code q = Some opc → opc = OPC_TABLESWITCH ∨ opc = OPC_LOOKUPSWITCH → simple_target q = None.
Proof using.
  intros Eo Ho. unfold ControlFlowSpec.simple_target. rewrite Eo. cbn [mbind option_bind]. rewrite bool_decide_eq_true_2 by done.
  by destruct Ho as [->| ->].
Qed.

Lemma mark_targets_ok q opc cur b u bs : q ∈ pcs → rd code q = Some opc → bbs u !! cur = Some b → bitset_ok bs → nr_bits bs = len →
  ∃ ts bits', jump_targets q = Some ts ∧ marks bs ts bits' ∧
    mark_targets method (Some cur) q opc (bits bs) u = Done bits' (set_bbs (<[cur := flagged q b]> (bbs u)) u).
Proof using Hwf.
  intros Hq Eo Eb Hbs Hnr. destruct (insn_at _ _ Hwf q Hq) as (H0 & n & H1 & Hn & Hi & _).
  destruct (insn_kind _ _ Hwf q Hq) as (opc' & br & rt & Eo' & Hp & _ & Ebr & Ert & _ & Hx & _ & Hret & _). simplify_eq.
  unfold mark_targets, flagged. destruct (decide (opc = OPC_TABLESWITCH)) as [->|Ht]; [|destruct (decide (opc = OPC_LOOKUPSWITCH)) as [->|Hl]].
  - destruct (mark_tableswitch q n bs Hq Eo Hi Hn Hbs Hnr) as (ts & Ets & Hmk). destruct Hmk as (bits' & E & Hmk); [by eapply target_range|].
    exists ts, bits'. split_and!; [done..|]. rewrite E. cbn. rewrite (switch_not_simple q _ Eo) by auto. unfold returns, opcode_is.
    rewrite Eo. cbn [mbind option_bind]. change (bc_is_return OPC_TABLESWITCH) with (Some false). cbn. unfold ret. f_equal. by apply update_same.
  - destruct (mark_lookupswitch q n bs Hq Eo Hi Hn Hbs Hnr) as (ts & Ets & Hmk). destruct Hmk as (bits' & E & Hmk); [by eapply target_range|].
    exists ts, bits'. split_and!; [done..|]. rewrite E. cbn. rewrite (switch_not_simple q _ Eo) by auto. unfold returns, opcode_is.
    rewrite Eo. cbn [mbind option_bind]. change (bc_is_return OPC_LOOKUPSWITCH) with (Some false). cbn. unfold ret. f_equal. by apply update_same.
  - unfold bind at 1. rewrite Ebr. cbn [liftC ret]. destruct br.
    + destruct (simple_target_in q opc Hq Eo Ebr Ht Hl) as (off & Eoff & Est & Ejt). rewrite Est, Ejt. unfold bind at 1. rewrite Eoff. cbn [liftC ret].
      pose proof (target_range q _ Hq Ejt) as [Hr _]%Forall_cons_1. rewrite (Z.add_comm off q), u64_id by (pose proof (fw_size _ _ Hwf); clia).
      destruct (marks_cons bs (q + off) [] [] Hbs) as (bits1 & E1 & Hok1 & _); [lia|].
      exists [q + off], bits1. split_and!; [done| |].
      * destruct (marks_cons bs (q + off) [] bits1 Hbs) as (bits2 & E2 & _ & Hmk); [lia|]. rewrite E1 in E2. injection E2 as <-.
        apply Hmk. by apply (marks_nil (with_bits bs bits1)).
      * unfold bind. rewrite (update_ok cur b) by done. by rewrite E1.
    + unfold bind at 1. rewrite Ert. cbn [liftC ret].
      assert (simple_target q = None ∧ jump_targets q = Some []) as [-> ->].
      { unfold ControlFlowSpec.simple_target, ControlFlowSpec.jump_targets. rewrite Eo. cbn [mbind option_bind]. by rewrite Ebr. }
      exists [], (bits bs). split_and!; [done|by apply marks_nil|]. unfold opcode_is. rewrite Eo. cbn [mbind option_bind].
      destruct (returns method q); [unfold bind; by rewrite (update_ok cur b)|]. destruct (bc_is_athrow opc).
      * unfold bind. by rewrite (update_ok cur b).
      * unfold bind, ret. f_equal. by apply update_same.
Qed.

(** ** After the instructions that end a block *)

(** The offsets at which the first pass cuts before it looks at [pc], and the targets it
    has collected. *)
Definition after_ends (pc p : Z) : Prop := p = 0 ∨ ∃ q, follows q p ∧ ends q = true ∧ q < pc ∧ p < len.
Definition targets_before (pc t : Z) : Prop := ∃ q, q ∈ pcs ∧ q < pc ∧ target_of method q t.

(** The last block, from which parts are still to be cut. *)
Record open_block (pc : Z) (b : basic_block) : Prop := {
  ob_end : end_ b = len;
  ob_start : start b <= pc;
  ob_branch : has_branch b = false;
  ob_return : has_return b = false;
  ob_target : br_target_off b = 0;
  ob_succ : successors b = [];
  ob_throw : has_athrow b = false;
  ob_middle q : q ∈ pcs → start b <= q < pc → ends q = false;
}.

Record open_inv (pc : Z) (cur : nat) (bs : list basic_block) (l : list nat) : Prop := {
  oi_tiles : tiles bs l 0 len;
  oi_all i b : bs !! i = Some b → i ∈ l;
  oi_edges : edges_ok bs;
  oi_cur : ∃ b, bs !! cur = Some b ∧ open_block pc b;
  oi_ok i b : i ≠ cur → bs !! i = Some b → ∃ q, block_ok method ns false bs b q;
  oi_pcs i b : bs !! i = Some b → start b ∈ pcs;
  oi_starts p : after_ends pc p ↔ ∃ i, start_at bs i p;
  oi_entry : start_at bs 0 0;
  oi_throw i b : i ≠ cur → bs !! i = Some b → has_athrow b = true ↔ throws_from method ns (start b);
}.

Definition bits_inv (pc : Z) (b : bitset) : Prop :=
  bitset_ok b ∧ nr_bits b = len ∧ ∀ k, 0 <= k → bit_at (bits b) k = true ↔ targets_before pc k.

(** One instruction on. *)
Lemma before_next (P : Z → Prop) pc next : follows pc next →
  (∃ q, q ∈ pcs ∧ q < next ∧ P q) ↔ (∃ q, q ∈ pcs ∧ q < pc ∧ P q) ∨ P pc.
Proof using Hwf.
  intros Hf. pose proof (follows_lt _ _ Hwf _ _ Hf). split.
  - intros (q & Hq & Hlt & HP). destruct (decide (q < pc)); [left; eauto|]. right.
    pose proof (follows_gap _ _ Hwf _ _ q Hf Hq Hlt). by replace pc with q by lia.
  - intros [(q & Hq & Hlt & HP)|HP]; [exists q; split_and!; [done|lia|done]|]. exists pc. split_and!; [apply Hf|done|done].
Qed.

Lemma after_ends_next pc next p : follows pc next → after_ends next p ↔ after_ends pc p ∨ (p = next ∧ ends pc = true ∧ next < len).
Proof using Hwf.
  intros Hf. unfold after_ends.
  assert (∀ x, (∃ q, follows q p ∧ ends q = true ∧ q < x ∧ p < len) ↔ ∃ q, q ∈ pcs ∧ q < x ∧ follows q p ∧ ends q = true ∧ p < len) as Hc.
  { intros x. split; intros (q & Hq).
    - exists q. destruct Hq as ([? ?] & ? & ? & ?). by unfold follows.
    - exists q. tauto. }
  rewrite !Hc, (before_next _ _ _ Hf). split.
  - intros [?|[?|(Hp & ? & ?)]]; [tauto..|]. right. destruct Hp as [_ E], Hf as [_ E']. rewrite E in E'. injection E' as ?.
    assert (p = next) as -> by lia. auto.
  - intros [[?|?]|(-> & ? & ?)]; tauto.
Qed.

Lemma bits_inv_next pc next b ts bits' : follows pc next → jump_targets pc = Some ts → bits_inv pc b → marks b ts bits' →
  bits_inv next (with_bits b bits').
Proof using Hwf.
  intros Hf Ets (Hb & Hnr & Hbits) [Hok Hmk]. split_and!; [done..|]. intros k Hk. cbn. rewrite Hmk, Hbits by done.
  unfold targets_before. rewrite (before_next (λ q, target_of method q k) _ _ Hf). unfold target_of at 3. rewrite Ets. naive_solver.
Qed.

Lemma middle_targets q : q ∈ pcs → ends q = false → jump_targets q = Some [].
Proof using Hwf.
  intros Hq He. destruct (insn_kind _ _ Hwf q Hq) as (opc & br & rt & Eo & _ & _ & Eb & _ & _ & _ & Ee & _).
  rewrite He in Ee. symmetry in Ee. apply orb_false_iff in Ee as [[-> _]%orb_false_iff _].
  unfold ControlFlowSpec.jump_targets. rewrite Eo. cbn [mbind option_bind]. by rewrite Eb.
Qed.

(** An instruction in the middle changes nothing. *)
Lemma open_inv_middle pc next cur bs l : follows pc next → ends pc = false → open_inv pc cur bs l → open_inv next cur bs l.
Proof using Hwf.
  intros Hf He [Ht Ha Hed (b & Eb & Hob) Hok Hp Hst Hentry Hth]. constructor; try done.
  - exists b. split; [done|]. destruct Hob as [O1 O2 O3 O4 O5 O6 O7 Hmid]. pose proof (follows_lt _ _ Hwf _ _ Hf). constructor; try done; [lia|].
    intros q Hq Hr. pose proof (follows_gap _ _ Hwf _ _ q Hf Hq ltac:(lia)). destruct (decide (q = pc)) as [->|]; [done|]. apply Hmid; [done|lia].
  - intros p. rewrite (after_ends_next pc next p Hf), <- Hst, He. naive_solver.
Qed.

(** The offsets where the first pass cuts the whole code. *)
Definition cuts1 (p : Z) : Prop := after_ends len p.

(** At the end of the code, the last block is a block that ends with an instruction in
    the middle... *)
Lemma open_inv_close cur bs l : open_inv len cur bs l → (∀ q, follows q len → ends q = false) →
  blocks_inv method ns (λ _, false) cuts1 bs l.
Proof using Hwf.
  intros [Ht Ha Hed (b & Eb & Hob) Hok Hp Hst Hentry Hth] Hlast. constructor; try done.
  2: { intros i c Ec. destruct (decide (i = cur)) as [->|Hne]; [simplify_eq|by apply (Hth i)].
       rewrite (ob_throw _ _ Hob). split; [done|]. intros (_ & q & Hq & Hle & Hthr & _). pose proof (pcs_range _ _ Hwf q Hq).
       apply (throws_ends _ _ Hwf q Hq) in Hthr. by rewrite (ob_middle _ _ Hob q Hq) in Hthr by lia. }
  intros i c Ec. destruct (decide (i = cur)) as [->|Hne]; [simplify_eq|by apply Hok in Ec].
  pose proof (fw_size _ _ Hwf). destruct (follows_ex _ _ Hwf len) as (q & Hq); [auto|lia|].
  destruct (middle_insn _ _ Hwf q (proj1 Hq) (Hlast q Hq)) as (Est & Er & Ef). destruct Hob as [He _ Hb Hr Htg Hs].
  exists q. constructor; rewrite ?He, ?Hb, ?Hr, ?Htg, ?Hs, ?Est, ?Er; try done.
  unfold flow_succs, fall_succs. rewrite Est, bool_decide_eq_false_2, andb_false_r by lia. constructor.
Qed.

(** ... or with one that ends it. *)
Lemma flagged_bounds q b : start (flagged q b) = start b ∧ end_ (flagged q b) = end_ b ∧
  successors (flagged q b) = successors b ∧ predecessors (flagged q b) = predecessors b ∧ is_eh (flagged q b) = is_eh b.
Proof using. unfold flagged. destruct (simple_target q); [done|]. destruct (returns method q); [done|]. by destruct (opcode_is _ _ q). Qed.

Lemma flagged_flags q b : q ∈ pcs → has_branch b = false → has_return b = false → br_target_off b = 0 →
  has_branch (flagged q b) = bool_decide (is_Some (simple_target q)) ∧
  br_target_off (flagged q b) = default 0 (simple_target q) ∧ has_return (flagged q b) = returns method q.
Proof using Hwf.
  intros Hq Hb Hr Ht. destruct (insn_kind _ _ Hwf q Hq) as (opc & br & rt & Eo & _ & _ & Eb & _ & _ & Hx & _ & Er & _).
  unfold flagged. destruct (simple_target q) as [t|] eqn:Est.
  - cbn. split_and!; [done..|]. rewrite Hr, Er. destruct br; [symmetry; by apply Hx|].
    unfold ControlFlowSpec.simple_target in Est. rewrite Eo in Est. cbn [mbind option_bind] in Est. by rewrite Eb in Est.
  - cbn. destruct (returns method q); cbn; [done|]. by destruct (opcode_is _ _ q).
Qed.

Lemma flagged_throw q b : q ∈ pcs → has_athrow b = false → has_athrow (flagged q b) = throws method q.
Proof using Hwf.
  intros Hq Hb. destruct (insn_kind _ _ Hwf q Hq) as (opc & br & rt & Eo & _ & _ & Eb & _ & _ & Hx & _ & Er & _).
  unfold flagged, throws. destruct (simple_target q) as [t|] eqn:Est.
  - assert (br = true) as ->.
    { unfold ControlFlowSpec.simple_target in Est. rewrite Eo in Est. cbn [mbind option_bind] in Est. rewrite Eb in Est. by destruct br. }
    unfold opcode_is. rewrite Eo. cbn. by rewrite Hb, (proj2 (Hx eq_refl)).
  - destruct (returns method q) eqn:Eret.
    + assert (bc_is_athrow opc = false) as Ha.
      { subst rt. unfold bc_is_athrow. apply bool_decide_eq_false_2. intros ->. unfold returns, opcode_is in Eret. rewrite Eo in Eret. by vm_compute in Eret. }
      unfold opcode_is. rewrite Eo. cbn. by rewrite Hb, Ha.
    + by destruct (opcode_is _ _ q) eqn:Et.
Qed.

(** The first block-ending instruction from the start of the open block. *)
Lemma open_throws pc cur b bs l : open_inv pc cur bs l → bs !! cur = Some b → pc ∈ pcs → ends pc = true →
  throws_from method ns (start b) ↔ throws method pc = true.
Proof using Hwf.
  intros [_ _ _ (b' & Eb & Hob) _ _ Hst _ _] Eb' Hq He. rewrite Eb' in Eb. injection Eb as <-.
  apply throws_from_at; [done| |done|apply (ob_start _ _ Hob)|apply (ob_middle _ _ Hob)|done].
  destruct (proj2 (Hst (start b))) as [?|(q & ? & ? & _)]; [by exists cur, b|by left|right; eauto].
Qed.

Lemma open_inv_last pc cur b bs l : open_inv pc cur bs l → bs !! cur = Some b → follows pc len → ends pc = true →
  blocks_inv method ns (λ _, false) cuts1 (<[cur := flagged pc b]> bs) l.
Proof using Hwf.
  intros Hinv Eb' Hf He. pose proof (open_throws pc cur b bs l Hinv Eb' (proj1 Hf) He) as Hthr.
  destruct Hinv as [Ht Ha Hed (b' & Eb & Hob) Hok Hp Hst Hentry Hth]. rewrite Eb' in Eb. injection Eb as <-. rename Eb' into Eb. destruct (flagged_bounds pc b) as (F1 & F2 & F3 & F4 & _).
  assert (∀ k c, bs !! k = Some c → start_at (<[cur := flagged pc b]> bs) k (start c)) as Hmono.
  { intros k c Ec. destruct (decide (k = cur)) as [->|Hne].
    - simplify_eq. eexists. rewrite list_lookup_insert_eq by (by eapply lookup_lt_Some). done.
    - exists c. by rewrite list_lookup_insert_ne. }
  assert (∀ k c', <[cur := flagged pc b]> bs !! k = Some c' → ∃ c, bs !! k = Some c ∧ start c' = start c) as Hback.
  { intros k c' [(<- & <- & _)|[_ Ec]]%list_lookup_insert_Some; [by exists b|by exists c']. }
  constructor.
  - eapply tiles_similar; [|done]. apply similar_insert with b; [done|done|by split].
  - intros k c' (c & Ec & _)%Hback. by eapply Ha.
  - eapply edges_ok_similar; [|done]. apply similar_insert with b; [done|done|by split].
  - intros k c' Ec'. apply list_lookup_insert_Some in Ec' as [(<- & <- & _)|[Hne Ec]].
    + destruct Hob as [Hen _ Hb Hr Htg Hs]. destruct (flagged_flags pc b (proj1 Hf) Hb Hr Htg) as (G1 & G2 & G3).
      exists pc. constructor; rewrite ?F2, ?F3, ?Hen, ?Hs; try done.
      unfold flow_succs, fall_succs. rewrite bool_decide_eq_false_2, andb_false_r by lia. by destruct (simple_target pc).
    + destruct (Hok k c' ltac:(congruence) Ec) as (q & Hq). exists q. by eapply block_ok_mono; [apply Hmono|..|exact Hq].
  - intros k c' (c & Ec & ->)%Hback. by eapply Hp.
  - intros p. unfold cuts1. rewrite (after_ends_next pc len p Hf), Hst. split.
    + intros [(k & c & Ec & <-)|(_ & _ & ?)]; [exists k; by apply Hmono|lia].
    + intros (k & c' & (c & Ec & ->)%Hback & <-). left. by exists k, c.
  - eapply start_at_mono; [apply Hmono|done].
  - intros k c' [(<- & <- & _)|[Hne Ec]]%list_lookup_insert_Some; [|by eapply Hth].
    by rewrite F1, flagged_throw, Hthr by (apply Hf || apply Hob).
Qed.

(** A block is cut off behind an instruction that ends it. *)
Section cut_off.
Context (pc next : Z) (Hf : follows pc next) (He : ends pc = true) (Hnext : next < len).
Context (cur : nat) (b : basic_block) (bs : list basic_block) (l : list nat).
Context (Hinv : open_inv pc cur bs l) (Eb : bs !! cur = Some b) (Hob : open_block pc b).
#[local] Abbreviation cut := (cut_bbs (falls method pc) cur next b bs).
Context (b1 : basic_block) (Eb1 : cut !! cur = Some b1).
#[local] Abbreviation bs' := (<[cur := flagged pc b1]> cut).

Lemma cut_off_cur : same_block b1 (lower_cut (falls method pc) next (length bs) b).
Proof using Hinv Eb Eb1.
  destruct (cut_old (falls method pc) cur next b bs cur b (oi_edges _ _ _ _ Hinv) Eb Eb) as (c & Ec & Hc & _). simplify_eq.
  by rewrite decide_True in Hc.
Qed.

Lemma cut_off_start k c : bs !! k = Some c → start_at bs' k (start c).
Proof using Hinv Eb Eb1.
  intros Ec. destruct (cut_old (falls method pc) cur next b bs k c (oi_edges _ _ _ _ Hinv) Eb Ec) as (c' & Ec' & Hc & _).
  destruct (decide (k = cur)) as [->|Hne].
  - rewrite Eb in Ec. injection Ec as <-. exists (flagged pc b1). rewrite list_lookup_insert_eq by (by eapply lookup_lt_Some). split; [done|].
    destruct (flagged_bounds pc b1) as [-> _]. by destruct cut_off_cur as [-> _].
  - exists c'. rewrite list_lookup_insert_ne by done. split; [done|]. by destruct Hc.
Qed.
Lemma cut_off_new : ∃ c, bs' !! length bs = Some c ∧ same_block c (upper_part next b).
Proof using Eb.
  destruct (cut_new (falls method pc) cur next b bs Eb) as (c & Ec & Hc & _). exists c. split; [|done].
  rewrite list_lookup_insert_ne; [done|]. apply lookup_lt_Some in Eb. lia.
Qed.
Lemma cut_off_back k c' : bs' !! k = Some c' →
  (k = length bs ∧ same_block c' (upper_part next b)) ∨ (k = cur ∧ c' = flagged pc b1) ∨
  (k ≠ cur ∧ ∃ c, bs !! k = Some c ∧ same_block c' c).
Proof using Hinv Eb Eb1.
  intros [(<- & <- & _)|[Hne Ec]]%list_lookup_insert_Some; [tauto|].
  destruct (cut_block _ cur next b bs k c' (oi_edges _ _ _ _ Hinv) Eb Ec) as [(-> & ? & _)|[(-> & _)|(? & c & ? & ? & _)]];
    [by left|done|right; right; eauto].
Qed.

Lemma cut_off_inv : open_inv next (length bs) bs' (list_add (length bs) cur l).
Proof using Hwf Hf He Hnext Hinv Eb Hob Eb1.
  pose proof Hinv as [Ht Ha Hed _ Hok Hp Hst Hentry Hth]. pose proof (follows_lt _ _ Hwf _ _ Hf) as Hlt. destruct Hob as [Oe Os Ob Or Ot Oss Oth _].
  pose proof cut_off_cur as (C1 & C2 & C3 & C4 & C5 & C6 & C7). cbn in C1, C2, C3, C4, C5, C6, C7.
  destruct (flagged_bounds pc b1) as (F1 & F2 & F3 & F4 & _).
  assert (next ∈ pcs) as Hnp by (destruct (insn_at _ _ Hwf pc (proj1 Hf)) as (_ & n & _ & _ & _ & E & [Hn|Hn] & _);
    destruct Hf as [_ E']; rewrite E in E'; injection E' as E'; [by replace next with (pc + n) by lia|lia]).
  constructor.
  - eapply tiles_similar; [|eapply (cut_tiles (falls method pc) cur next b bs l); [done..|lia]].
    eapply similar_insert; [done|exact Eb1|by split].
  - intros k c' Ec'. apply list_add_elem; [by eapply Ha|]. apply cut_off_back in Ec' as [(-> & _)|[(-> & _)|(_ & c & Ec & _)]];
      [by left|right; by eapply Ha..].
  - eapply edges_ok_similar; [|by apply (cut_edges_ok (falls method pc) cur next b bs)]. eapply similar_insert; [done|exact Eb1|by split].
  - destruct cut_off_new as (c & Ec & Hs & Hen & Hbr & Hr & Htg & Hss & Hct). cbn in *. exists c. split; [done|].
    constructor; [congruence|lia|congruence|congruence|by rewrite Htg, Ob|congruence|done|intros q _; lia].
  - intros k c' Hk Ec'. apply cut_off_back in Ec' as [(-> & _)|[(-> & ->)|(Hne & c & Ec & Hs & Hen & Hbr & Hr & Htg & Hss & _)]]; [done| |].
    + destruct (flagged_flags pc b1 (proj1 Hf)) as (G1 & G2 & G3); [congruence|congruence|by rewrite C5, Ob|].
      exists pc. constructor; rewrite ?F2, ?F3, ?C2, ?C6; try done.
      unfold flow_succs, fall_succs. rewrite bool_decide_eq_true_2, andb_true_r by done.
      assert (start_at bs' (length bs) next) as Hnew by (destruct cut_off_new as (c & Ec & Hs & _); by exists c).
      destruct (falls method pc), (simple_target pc); cbn; by repeat constructor.
    + destruct (Hok k c Hne Ec) as (q & Hq). exists q. by eapply block_ok_mono; [apply cut_off_start|..|exact Hq].
  - intros k c' Ec'. apply cut_off_back in Ec' as [(_ & -> & _)|[(-> & ->)|(_ & c & Ec & -> & _)]];
      [done|rewrite F1, C1; by eapply Hp|by eapply Hp].
  - intros p. rewrite (after_ends_next pc next p Hf), Hst. split.
    + intros [(k & c & Ec & <-)|(-> & _)]; [exists k; by apply cut_off_start|].
      destruct cut_off_new as (c & Ec & Hs & _). by exists (length bs), c.
    + intros (k & c' & Ec' & <-). apply cut_off_back in Ec' as [(_ & -> & _)|[(-> & ->)|(_ & c & Ec & -> & _)]];
        [by right|left; exists cur, b; split; [done|congruence]|left; by exists k, c].
  - eapply start_at_mono; [apply cut_off_start|done].
  - intros k c' Hk Ec'. apply cut_off_back in Ec' as [(-> & _)|[(-> & ->)|(Hne & c & Ec & -> & _ & _ & _ & _ & _ & ->)]]; [done| |by eapply Hth].
    rewrite F1, flagged_throw, C1 by (apply Hf || congruence). by rewrite (open_throws pc cur b bs l Hinv Eb (proj1 Hf) He).
Qed.
End cut_off.

(** ** The first pass *)

Definition counted (u : compilation_unit) : Prop := nr_bb u = u64 (Z.of_nat (length (bbs u))).
Lemma counted_next h bs l n u : counted u → length bs = S (length (bbs u)) → n = u64 (nr_bb u + 1) → counted (CU h bs l n).
Proof using.
  unfold counted. cbn. intros -> -> ->. unfold u64. rewrite Zplus_mod_idemp_l. f_equal. lia.
Qed.

Lemma next_cases pc next : follows pc next → next ∈ pcs ∨ next = len.
Proof using Hwf.
  intros [Hq E']. destruct (insn_at _ _ Hwf pc Hq) as (_ & n & _ & _ & _ & E & Hn & _). rewrite E in E'. injection E' as E'.
  by replace next with (pc + n) by lia.
Qed.

Lemma insns_next pc ms : pc ∈ pcs → insns code pc ms →
  ∃ n ms', ms = n :: ms' ∧ follows pc (pc + n) ∧ insns code (pc + n) ms'.
Proof using Hwf.
  intros Hq Hi. pose proof (pcs_range _ _ Hwf pc Hq) as Hr. pose proof (fw_len _ _ Hwf) as Hl. pose proof (fw_size _ _ Hwf).
  destruct Hi as [|pc n ms' E Hn Hi]; [lia|]. exists n, ms'. split_and!; [done| |done]. split; [done|].
  pose proof (safe_size code (fw_code _ _ Hwf) ltac:(lia) pc ltac:(lia)) as Hs. rewrite E in Hs. cbn in Hs.
  destruct Hs as [[-> _]|(_ & _ & _ & Hsz)]; [unfold E_MALFORMED_BC in Hn; lia|]. rewrite Hsz. do 2 f_equal. lia.
Qed.

(** The cut behind an instruction that ends a block. *)
Lemma split_after_branch_ok pc next opc cur b u : follows pc next → rd code pc = Some opc → ends pc = true →
  bbs u !! cur = Some b → open_block pc b → edges_ok (bbs u) →
  if decide (next = len) then split_after_branch method (Some cur) pc opc u = Done (0, None) u else
  ∃ h, split_after_branch method (Some cur) pc opc u =
    Done (0, Some (length (bbs u)))
      (CU h (cut_bbs (falls method pc) cur next b (bbs u)) (list_add (length (bbs u)) cur (bb_list u)) (u64 (nr_bb u + 1))).
Proof using Hwf Hm.
  intros Hf Eo He Eb Hob Hed. pose proof (follows_lt _ _ Hwf _ _ Hf) as Hlt. pose proof (fw_size _ _ Hwf) as Hsz.
  assert (0 <= next <= len) as Hn.
  { pose proof (pcs_range _ _ Hwf pc (proj1 Hf)). destruct (next_cases pc next Hf) as [Hn| ->]; [|lia].
    apply (pcs_range _ _ Hwf) in Hn. lia. }
  destruct (insn_kind _ _ Hwf pc (proj1 Hf)) as (opc' & br & rt & Eo' & _ & _ & Ebr & _ & _ & _ & Ee & _ & Efa).
  rewrite Eo in Eo'. injection Eo' as <-. rewrite He in Ee. rewrite <- Ee in Efa. cbn [negb orb] in Efa.
  unfold split_after_branch. rewrite (bind_lift _ _ _ _ (proj2 Hf)). replace (pc + (next - pc)) with next by lia.
  rewrite u64_id by clia. rewrite (bind_run _ _ _ _ _ (deref_ok cur b u Eb)). rewrite (ob_end _ _ Hob).
  case_decide as Hlen; [done|]. unfold bind at 1. destruct (bb_split_ok Hm cur next b u Eb) as [h E].
  { destruct Hob. lia. } { apply (eo_succ _ Hed _ _ Eb). }
  rewrite E. unfold bind at 1. rewrite Ebr. cbn [liftC ret]. rewrite Efa. destruct (br && negb (bc_is_goto opc)).
  - unfold bind. match goal with |- context [bb_add_successor _ _ ?v] => destruct (bb_add_successor_ok Hm cur (length (bbs u)) v) as [h2 ->] end.
    1,2: cbn; rewrite split_length; apply lookup_lt_Some in Eb; lia. by exists h2.
  - by exists h.
Qed.

Lemma split_after_from_ok ms : ∀ fuel pc cur u b, insns code pc ms → pc ∈ pcs ∨ pc = len → (length ms < fuel)%nat →
  open_inv pc cur (bbs u) (bb_list u) → bits_inv pc b → counted u → (pc = len → ∀ q, follows q len → ends q = false) →
  ∃ bits' u', split_after_from method fuel len pc (Some cur) (bits b) u = Done (0, bits') u' ∧
    blocks_inv method ns (λ _, false) cuts1 (bbs u') (bb_list u') ∧ bits_inv len (with_bits b bits') ∧ counted u'.
Proof using Hwf Hm.
  induction ms as [|n0 ms IH]; intros [|fuel] pc cur u b Hi Hpc Hfuel Hinv Hbits Hcnt Hlast; [lia| |lia|]; cbn [split_after_from].
  { assert (pc = len) as -> by (pose proof (fw_len _ _ Hwf); inversion Hi; lia). rewrite decide_True by lia.
    exists (bits b), u. split_and!; [done|by eapply open_inv_close; eauto|by destruct b|done]. }
  assert (pc ∈ pcs) as Hq.
  { destruct Hpc as [?| ->]; [done|]. inversion Hi as [|? ? ? E Hn Hi']; subst. pose proof (fw_len _ _ Hwf). pose proof (fw_size _ _ Hwf).
    pose proof (safe_size code (fw_code _ _ Hwf) ltac:(lia) len ltac:(lia)) as Hs. rewrite E in Hs. cbn in Hs.
    destruct Hs as [[-> _]|(? & _ & ? & _)]; [unfold E_MALFORMED_BC in Hn|]; lia. }
  pose proof (pcs_range _ _ Hwf pc Hq) as Hr. rewrite decide_False by lia. destruct (insns_next pc _ Hq Hi) as (n & ms' & [= <- <-] & Hf & Hi').
  assert (u64 (pc + n0) = pc + n0) as Hwrap.
  { apply u64_id. pose proof (fw_size _ _ Hwf). pose proof (follows_lt _ _ Hwf _ _ Hf).
    destruct (next_cases _ _ Hf) as [?%(pcs_range _ _ Hwf)|?]; clia. }
  assert (bc_insn_size code pc = Some (Returns n0)) as Esz by (rewrite (proj2 Hf); do 2 f_equal; lia).
  destruct (insn_kind _ _ Hwf pc Hq) as (opc & br & rt & Eo & _ & _ & _ & _ & Eends & _ & Ee & _).
  rewrite Eo. unfold bind at 1. cbn [liftC ret]. unfold bind at 1. rewrite Eends. cbn [liftC ret]. rewrite <- Ee. cbn in Hfuel.
  destruct (ends pc) eqn:He; cbn [negb].
  - destruct (oi_cur _ _ _ _ Hinv) as (blk & Eb & Hob). pose proof (oi_edges _ _ _ _ Hinv) as Hed.
    pose proof (split_after_branch_ok pc _ opc cur blk u Hf Eo He Eb Hob Hed) as Hs. destruct (decide (pc + n0 = len)) as [Hend|Hend].
    + unfold bind at 1 2. rewrite Hs. rewrite decide_True by done.
      destruct Hbits as (Hb & Hnr & Hbit). destruct (mark_targets_ok pc opc cur blk u b Hq Eo Eb Hb Hnr) as (ts & bits1 & Ets & Hmk & E).
      unfold bind at 1. rewrite E. cbn [ret]. rewrite decide_True by done. unfold bind at 1. rewrite Esz. cbn [liftC ret].
      rewrite Hwrap, Hend. destruct fuel; [lia|]. cbn [split_after_from]. rewrite decide_True by lia.
      rewrite Hend in Hf. eexists bits1, _. split_and!; [done|by apply (open_inv_last pc)|by eapply bits_inv_next|].
      unfold counted. cbn. by rewrite length_insert.
    + destruct Hs as [h Hs]. unfold bind at 1 2. rewrite Hs. rewrite decide_True by done. set (u1 := CU _ _ _ _).
      destruct (lookup_lt_is_Some_2 (bbs u1) cur) as [b1 Eb1]; [cbn; rewrite cut_length; apply lookup_lt_Some in Eb; lia|].
      destruct Hbits as (Hb & Hnr & Hbit). destruct (mark_targets_ok pc opc cur b1 u1 b Hq Eo Eb1 Hb Hnr) as (ts & bits1 & Ets & Hmk & E).
      unfold bind at 1. rewrite E. cbn [ret]. rewrite decide_True by done. unfold bind at 1. rewrite Esz. cbn [liftC ret].
      rewrite Hwrap. assert (pc + n0 < len) as Hlt by (destruct (next_cases _ _ Hf) as [?%(pcs_range _ _ Hwf)|?]; lia).
      destruct (IH fuel (pc + n0) (length (bbs u)) (set_bbs (<[cur := flagged pc b1]> (bbs u1)) u1) (with_bits b bits1)) as (bits2 & u2 & E2 & H1 & H2 & H3);
        [done|by apply next_cases with pc|lia| |by eapply bits_inv_next| |lia|].
      * cbn. apply (cut_off_inv pc (pc + n0) Hf He Hlt cur blk (bbs u) (bb_list u) Hinv Eb Hob b1 Eb1).
      * eapply counted_next; [exact Hcnt| |done]. cbn. by rewrite length_insert, cut_length.
      * exists bits2, u2. split_and!; [exact E2|done|done|done].
  - unfold bind at 1. cbn [ret]. rewrite decide_True by done. unfold bind at 1. rewrite Esz. cbn [liftC ret]. rewrite Hwrap.
    destruct (IH fuel (pc + n0) cur u b) as (bits2 & u2 & E2 & H1 & H2 & H3); [done|by apply next_cases with pc|lia|by eapply open_inv_middle| |done| |].
    + rewrite <- (with_bits_id b). eapply bits_inv_next; [done|by apply middle_targets|done|]. apply marks_nil, Hbits.
    + intros Hend q Hq'. rewrite Hend in Hf. by rewrite (follows_unique _ _ Hwf q pc len Hq' Hf).
    + exists bits2, u2. split_and!; [exact E2|done|done|done].
Qed.

(** ** The targets of branches *)

Lemma blocks_inv_ext m (L L' : Z → Prop) bs l : (∀ p, L p ↔ L' p) → blocks_inv method ns m L bs l → blocks_inv method ns m L' bs l.
Proof using. intros HL [H1 H2 H3 H4 H5 H6 H7]. constructor; try done. intros p. by rewrite <- HL. Qed.

(** The block with an offset. *)
Lemma find_block m L u x : blocks_inv method ns m L (bbs u) (bb_list u) → 0 <= x < len →
  ∃ i b, find_bb x u = Done (Some i) u ∧ bbs u !! i = Some b ∧ start b <= x < end_ b.
Proof using.
  intros [Ht _ _ _ _ _ _] Hx. destruct (tiles_find _ _ _ _ x Ht Hx) as (i & b & E & _ & Eb & Hb). exists i, b.
  unfold find_bb, bind, get. by rewrite E.
Qed.

(** An offset inside a block comes after an instruction in the middle. *)
Lemma inside_middle m L bs l o b off : blocks_inv method ns m L bs l → (∀ p, cuts1 p → L p) → bs !! o = Some b →
  start b < off < end_ b → off ∈ pcs → ∀ q, follows q off → ends q = false.
Proof using Hwf.
  intros Hinv HL Eb Hoff Hpc q Hq. destruct (ends q) eqn:He; [|done]. exfalso.
  pose proof Hinv as [Ht Ha _ _ _ HS _]. pose proof (pcs_range _ _ Hwf _ Hpc). pose proof (pcs_range _ _ Hwf _ (proj1 Hq)).
  destruct (HS off) as [HS' _]. destruct HS' as (i & c & Ec & Hc).
  { apply HL. right. exists q. split_and!; [done..|lia|lia]. }
  destruct (tiles_block _ _ _ _ i Ht (Ha _ _ Ec)) as (? & ? & ? & ? & ?). simplify_eq.
  assert (i = o) as -> by (eapply (tiles_unique _ _ _ _ i o _ _ (start c) Ht); eauto; lia). simplify_eq. lia.
Qed.

(** Cutting a block in two at an instruction. *)
Lemma cut_run m L u o b off : blocks_inv method ns (λ _, m) L (bbs u) (bb_list u) → counted u → (∀ p, cuts1 p → L p) →
  bbs u !! o = Some b → start b < off < end_ b → off ∈ pcs →
  ∃ u', (let* n := bb_split (Some o) off in bb_add_successor (Some o) n) u = Done 0 u' ∧
    bbs u' = cut_bbs true o off b (bbs u) ∧ counted u' ∧
    blocks_inv method ns (λ _, m) (λ p, L p ∨ p = off) (bbs u') (bb_list u').
Proof using Hwf Hm.
  intros Hinv Hcnt HL Eb Hoff Hpc. destruct (cut_ok Hm o off b u (bi_edges _ _ _ _ _ _ Hinv) Eb Hoff) as [h E].
  eexists. split; [exact E|]. split; [done|]. split.
  - eapply counted_next; [done|by rewrite cut_length|done].
  - apply cut_inv; try done. by eapply inside_middle.
Qed.

(** The offsets where the first two passes cut are the leaders. *)
Lemma leader_cuts p : leader method ns p ↔ cuts1 p ∨ targets_before len p.
Proof using Hwf.
  unfold leader, cuts1, after_ends, targets_before. split.
  - intros [?|[(q & Hf & ? & ?)|(q & Hq & Ht)]]; [tauto|left|right].
    + right. exists q. pose proof (pcs_range _ _ Hwf _ (proj1 Hf)). split_and!; [done..|lia|done].
    + exists q. pose proof (pcs_range _ _ Hwf _ Hq). split_and!; [done|lia|done].
  - intros [[?|(q & ? & ? & _ & ?)]|(q & ? & _ & ?)]; [tauto|right; left; eauto|right; right; eauto].
Qed.

Lemma split_targets_ok b n : bits_inv len b → ∀ offset u, 0 <= offset → offset + Z.of_nat n = len →
  blocks_inv method ns (λ _, false) (λ p, cuts1 p ∨ (targets_before len p ∧ p < offset)) (bbs u) (bb_list u) → counted u →
  ∃ u', split_targets n offset (bits b) u = Done 0 u' ∧
    blocks_inv method ns (λ _, false) (leader method ns) (bbs u') (bb_list u') ∧ counted u'.
Proof using Hwf Hm.
  intros (Hb & Hnr & Hbit). induction n as [|n IH]; intros offset u H0 Hn Hinv Hcnt; cbn [split_targets].
  - exists u. split_and!; [done| |done]. eapply blocks_inv_ext; [|exact Hinv]. intros p. cbn. rewrite leader_cuts. split; [tauto|].
    intros [?|Ht]; [tauto|]. right. split; [done|]. destruct Ht as (q & Hq & _ & Ht). apply (fw_targets _ _ Hwf) in Ht; [|done].
    apply (pcs_range _ _ Hwf) in Ht. lia.
  - rewrite (bind_lift _ _ (bit_at (bits b) offset)) by (apply test_bit_spec; destruct Hb; unfold in_words; lia).
    assert (∀ L', (∀ p, L' p ↔ cuts1 p ∨ (targets_before len p ∧ p < offset + 1)) →
      ∀ u, blocks_inv method ns (λ _, false) L' (bbs u) (bb_list u) → counted u → ∃ u', split_targets n (offset + 1) (bits b) u = Done 0 u' ∧
        blocks_inv method ns (λ _, false) (leader method ns) (bbs u') (bb_list u') ∧ counted u') as Hnext.
    { intros L' HL' v Hv Hc. apply IH; [lia|lia| |done]. by eapply blocks_inv_ext. }
    destruct (bit_at (bits b) offset) eqn:Ebit; cbn [negb].
    + apply Hbit in Ebit as Ht; [|done]. destruct (find_block _ _ u offset Hinv) as (i & blk & E & Eb & Hin); [lia|].
      rewrite (bind_run _ _ _ _ _ E), (bind_run _ _ _ _ _ (deref_ok i blk u Eb)). case_decide as Hst.
      * unfold bind at 1. cbn [ret]. rewrite decide_True by done. eapply Hnext; [|exact Hinv|done]. intros p. cbn.
        split; [intros [?|[? ?]]; [tauto|right; split; [done|lia]]|]. intros [?|[Hp ?]]; [tauto|].
        destruct (decide (p = offset)) as [->|]; [|right; split; [done|lia]].
        apply (bi_starts _ _ _ _ _ _ Hinv). by exists i, blk.
      * assert (offset ∈ pcs) as Hpc by (destruct Ht as (q & Hq & _ & Ht); by eapply (fw_targets _ _ Hwf)).
        destruct (cut_run _ _ u i blk offset Hinv Hcnt (λ p Hp, or_introl Hp) Eb ltac:(lia) Hpc) as (u' & E' & _ & Hcnt' & Hinv').
        rewrite (bind_run _ _ _ _ _ E'). rewrite decide_True by done. eapply Hnext; [|exact Hinv'|done]. intros p. cbn. split.
        -- intros [[?|[? ?]]| ->]; [tauto|right; split; [done|lia]|right; split; [done|lia]].
        -- intros [?|[? ?]]; [tauto|]. destruct (decide (p = offset)); [tauto|]. left. right. split; [done|lia].
    + eapply Hnext; [|exact Hinv|done]. intros p. cbn. split; [intros [?|[? ?]]; [tauto|right; split; [done|lia]]|].
      intros [?|[Hp ?]]; [tauto|]. right. split; [done|]. destruct (decide (p = offset)) as [->|]; [|lia].
      rewrite <- Hbit in Hp by done. congruence.
Qed.

(** ** The edges of branches *)

Lemma simple_target_of q t : q ∈ pcs → simple_target q = Some t → target_of method q t.
Proof using Hwf.
  intros Hq Est. destruct (insn_kind _ _ Hwf q Hq) as (opc & br & rt & Eo & _ & _ & Eb & _).
  assert (br = true ∧ opc ≠ OPC_TABLESWITCH ∧ opc ≠ OPC_LOOKUPSWITCH) as (-> & Ht & Hl).
  { unfold ControlFlowSpec.simple_target in Est. rewrite Eo in Est. cbn [mbind option_bind] in Est. rewrite Eb in Est. cbn [mbind option_bind] in Est.
    destruct br; [|done]. case_bool_decide; [done|]. tauto. }
  destruct (simple_target_in q opc Hq Eo Eb Ht Hl) as (off & _ & Est' & Ejt). rewrite Est in Est'. injection Est' as ->.
  eexists. split; [exact Ejt|]. by apply list_elem_of_singleton.
Qed.

Lemma tiles_NoDup bs l s e : tiles bs l s e → NoDup l.
Proof using.
  induction 1 as [|i b l s e Ei Hs Hlt Ht IH]; constructor; [|done]. intros Hin.
  destruct (tiles_block _ _ _ _ _ Ht Hin) as (c & Ec & ? & _). simplify_eq. lia.
Qed.

Lemma blocks_inv_mode (m m' : nat → bool) L bs l : (∀ i b q, bs !! i = Some b → block_ok method ns (m i) bs b q → block_ok method ns (m' i) bs b q) →
  blocks_inv method ns m L bs l → blocks_inv method ns m' L bs l.
Proof using. intros Hok [H1 H2 H3 H4 H5 H6 H7]. constructor; try done. intros i b Eb. destruct (H4 i b Eb) as (q & Hq). eauto. Qed.

(** A block without an edge to add. *)
Lemma block_ok_no_edge m bs b q : block_ok method ns false bs b q →
  (∀ t, simple_target q = Some t → t ∈ fall_succs method q (end_ b)) → block_ok method ns m bs b q.
Proof using.
  intros [H1 H2 H3 H4 H5] Ht. constructor; try done. revert H5. unfold flow_succs. destruct (simple_target q) as [t|]; [|done].
  rewrite bool_decide_eq_true_2 by auto. by destruct m.
Qed.

Lemma start_at_in m L bs l b q i t : blocks_inv method ns m L bs l → block_ok method ns false bs b q → start_at bs i t →
  i ∈ successors b ↔ t ∈ fall_succs method q (end_ b).
Proof using.
  intros Hinv [_ _ _ _ Hs] Hi. assert (flow_succs method false q (end_ b) = fall_succs method q (end_ b)) as Ef.
  { unfold flow_succs. destruct (simple_target q); cbn; by rewrite app_nil_r. }
  rewrite Ef in Hs. split; intros Hin.
  - apply list_elem_of_lookup in Hin as (k & Ek). destruct (Forall2_lookup_l _ _ _ _ _ Hs Ek) as (t' & Et' & Ht').
    destruct Hi as (c & Ec & <-), Ht' as (c' & Ec' & <-). simplify_eq. by eapply list_elem_of_lookup_2.
  - apply list_elem_of_lookup in Hin as (k & Ek). destruct (Forall2_lookup_r _ _ _ _ _ Hs Ek) as (j & Ej & Hj).
    rewrite (start_at_unique _ _ _ _ _ _ i j t Hinv Hi Hj). by eapply list_elem_of_lookup_2.
Qed.

(** The edge of a branch is added. *)
Lemma link_inv (m : nat → bool) L bs l i b j q t : blocks_inv method ns m L bs l → bs !! i = Some b → block_ok method ns false bs b q →
  simple_target q = Some t → start_at bs j t → j ∉ successors b →
  blocks_inv method ns (λ k, m k || bool_decide (k = i)) L (link i j bs) l.
Proof using.
  intros Hinv Eb Hq Est Hj Hnew. pose proof Hinv as [Ht Ha He Hok Hp HS Hentry Hth].
  assert (j < length bs)%nat as Hjl by (destruct Hj as (c & Ec & _); by eapply lookup_lt_Some).
  assert (∀ k c, bs !! k = Some c → start_at (link i j bs) k (start c)) as Hmono.
  { intros k c Ec. destruct (lookup_lt_is_Some_2 (link i j bs) k) as [c' Ec']; [rewrite link_length; by eapply lookup_lt_Some|].
    exists c'. split; [done|]. apply link_block in Ec' as (d & Ed & _ & _ & -> & _). by simplify_eq. }
  constructor.
  - eapply tiles_mono; [done|]. intros k c _ Ec. destruct (Hmono k c Ec) as (c' & Ec' & Hs). exists c'. split_and!; [done..|].
    apply link_block in Ec' as (d & Ed & _ & _ & _ & -> & _). by simplify_eq.
  - intros k c' (c & Ec & _)%link_block. by eapply Ha.
  - by eapply link_edges_ok.
  - intros k c' (c & Ec & Hs & _ & Hst & Hen & Hbr & Hr & Htg & _)%link_block. destruct (decide (k = i)) as [->|Hne].
    + simplify_eq. rewrite bool_decide_eq_true_2, orb_true_r by done. exists q. pose proof Hq as [Q1 Q2 Q3 Q4 Q5].
      constructor; rewrite ?Hen, ?Hbr, ?Hr, ?Htg, ?Hs; try done.
      assert (t ∉ fall_succs method q (end_ b)) as Hnt by (by rewrite <- (start_at_in _ _ _ _ _ _ _ _ Hinv Hq Hj)).
      unfold flow_succs in Q5 |- *. rewrite Est in Q5 |- *. cbn in Q5. rewrite app_nil_r in Q5. rewrite bool_decide_eq_false_2 by done. cbn.
      apply Forall2_app; [|constructor; [|constructor]].
      * eapply Forall2_impl; [|exact Q5]. intros x y. by apply start_at_mono.
      * by eapply start_at_mono.
    + rewrite bool_decide_eq_false_2, orb_false_r by done. destruct (Hok k c Ec) as (p & Hpk). exists p.
      by eapply block_ok_mono; [apply Hmono|..|exact Hpk].
  - intros k c' (c & Ec & _ & _ & -> & _)%link_block. by eapply Hp.
  - intros p. rewrite HS. split.
    + intros (k & c & Ec & <-). exists k. by apply Hmono.
    + intros (k & c' & (c & Ec & _ & _ & -> & _)%link_block & <-). by exists k, c.
  - eapply start_at_mono; [apply Hmono|done].
  - intros k c' (c & Ec & _ & _ & -> & _ & _ & _ & _ & _ & ->)%link_block. by eapply Hth.
Qed.

Lemma update_successors_ok l : ∀ (m : nat → bool) u, blocks_inv method ns m (leader method ns) (bbs u) (bb_list u) → counted u →
  NoDup l → (∀ i, i ∈ l → i ∈ bb_list u ∧ m i = false) →
  ∃ u', update_successors l u = Done 0 u' ∧ counted u' ∧ bb_list u' = bb_list u ∧
    blocks_inv method ns (λ i, m i || bool_decide (i ∈ l)) (leader method ns) (bbs u') (bb_list u').
Proof using Hwf Hm.
  induction l as [|i l IH]; intros m u Hinv Hcnt Hnd Hl; cbn [update_successors].
  { exists u. split_and!; [done..|]. eapply blocks_inv_mode; [|exact Hinv]. intros i b q _. cbn.
    rewrite bool_decide_eq_false_2 by apply not_elem_of_nil. by rewrite orb_false_r. }
  destruct (Hl i ltac:(set_solver)) as [Hi Hmi]. inversion Hnd as [|? ? Hil Hnd0]; subst. clear Hnd. rename Hnd0 into Hnd.
  destruct (tiles_block _ _ _ _ i (bi_tiles _ _ _ _ _ _ Hinv) Hi) as (b & Eb & _).
  destruct (bi_ok _ _ _ _ _ _ Hinv i b Eb) as (q & Hq). rewrite Hmi in Hq.
  assert (∀ v, counted v → bb_list v = bb_list u → blocks_inv method ns (λ k, m k || bool_decide (k = i)) (leader method ns) (bbs v) (bb_list v) →
    ∃ u', update_successors l v = Done 0 u' ∧ counted u' ∧ bb_list u' = bb_list u ∧
      blocks_inv method ns (λ k, m k || bool_decide (k ∈ i :: l)) (leader method ns) (bbs u') (bb_list u')) as Hnext.
  { intros v Hc Hbl Hv. destruct (IH _ v Hv Hc Hnd) as (u' & E' & Hc' & Hl' & Hv').
    - intros k Hk. rewrite Hbl. destruct (Hl k ltac:(set_solver)) as [? ->]. split; [done|]. apply bool_decide_eq_false_2. congruence.
    - exists u'. split_and!; [done|done|congruence|]. eapply blocks_inv_mode; [|exact Hv']. intros k c p _. cbn.
      replace (bool_decide (k ∈ i :: l)) with (bool_decide (k = i) || bool_decide (k ∈ l)); [by rewrite orb_assoc|].
      rewrite <- bool_decide_or. apply bool_decide_ext. by rewrite elem_of_cons. }
  rewrite (bind_run _ _ _ _ _ (deref_ok i b u Eb)).
  assert ((∀ t, simple_target q = Some t → t ∈ fall_succs method q (end_ b)) → blocks_inv method ns (λ k, m k || bool_decide (k = i))
    (leader method ns) (bbs u) (bb_list u)) as Hskip.
  { intros Ht. eapply blocks_inv_mode; [|exact Hinv]. intros k c p Ec. cbn. case_bool_decide; [|by rewrite orb_false_r].
    subst k. simplify_eq. rewrite Hmi. intros Hp. apply block_ok_no_edge; [done|].
    by rewrite (follows_unique _ _ Hwf p q (end_ b) (bk_last _ _ _ _ _ _ Hp) (bk_last _ _ _ _ _ _ Hq)). }
  rewrite (bk_branch _ _ _ _ _ _ Hq). case_bool_decide as Hbr; cbn [negb].
  2: { apply Hnext; [done..|]. apply Hskip. intros t Et. by destruct Hbr. }
  destruct Hbr as [t Est]. rewrite (bk_target _ _ _ _ _ _ Hq), Est. cbn [default].
  pose proof (simple_target_of q t (proj1 (bk_last _ _ _ _ _ _ Hq)) Est) as Htg.
  assert (leader method ns t) as Hlead by (right; right; exists q; split; [apply (bk_last _ _ _ _ _ _ Hq)|done]).
  pose proof (fw_targets _ _ Hwf q t (proj1 (bk_last _ _ _ _ _ _ Hq)) Htg) as Htp.
  destruct (find_block _ _ u t Hinv) as (j & c & Ef & Ec & Hin); [by apply (pcs_range _ _ Hwf)|].
  apply (bi_starts _ _ _ _ _ _ Hinv) in Hlead as (j' & c' & Ec' & Hc').
  assert (j' = j) as ->.
  { destruct (tiles_block _ _ _ _ j' (bi_tiles _ _ _ _ _ _ Hinv) (bi_all _ _ _ _ _ _ Hinv _ _ Ec')) as (? & ? & ? & ? & ?). simplify_eq.
    eapply (tiles_unique _ _ _ _ j' j _ _ (start c') (bi_tiles _ _ _ _ _ _ Hinv)); eauto using bi_all; lia. }
  assert (start_at (bbs u) j t) as Hj by (by exists c').
  rewrite (bind_run _ _ _ _ _ Ef). unfold bb_successors_contains. case_bool_decide as Hct.
  - apply Hnext; [done..|]. apply Hskip. intros t' Et'. rewrite Est in Et'. injection Et' as <-. by apply (start_at_in _ _ _ _ _ _ _ _ Hinv Hq Hj).
  - destruct (bb_add_successor_ok Hm i j u) as [h E]; [by eapply lookup_lt_Some..|]. rewrite (bind_run _ _ _ _ _ E).
    rewrite decide_True by done. apply Hnext; [|done|by eapply link_inv]. unfold counted. cbn. by rewrite link_length.
Qed.

(** ** The exception handlers *)

#[local] Abbreviation table := (exception_table (code_attribute method)).

Lemma lookup_eh_from_ok target : ∀ rest i, drop i table = rest →
  ∃ r, lookup_eh_from method (length rest) i target = Some r ∧ (is_Some r ↔ ∃ eh, eh ∈ rest ∧ handler_pc eh = target).
Proof using.
  induction rest as [|eh rest IH]; intros i Hd; cbn.
  - exists None. split; [done|]. split; [by intros [? ?]|]. by intros (? & ?%elem_of_nil & _).
  - assert (table !! i = Some eh) as E by (rewrite <- (Nat.add_0_r i), <- lookup_drop; by rewrite Hd). rewrite E. cbn.
    case_decide as Hh.
    + exists (Some eh). split; [done|]. split; [|by eauto]. intros _. exists eh. split; [apply elem_of_cons; auto|done].
    + destruct (IH (S i)) as (r & Er & Hr). { rewrite <- Nat.add_1_r, <- drop_drop, Hd. done. }
      exists r. split; [done|]. rewrite Hr. split.
      * intros (e & ? & ?). exists e. split; [apply elem_of_cons; auto|done].
      * intros (e & [->|?]%elem_of_cons & ?); [done|eauto].
Qed.

Definition is_handler (p : Z) : bool := bool_decide (Exists (λ eh, handler_pc eh = p) table).
Lemma is_handler_spec p : is_handler p = true ↔ handler method p.
Proof using. unfold is_handler, handler. rewrite bool_decide_eq_true, Exists_exists. setoid_rewrite list_elem_of_In. naive_solver. Qed.

Lemma is_exception_handler_ok b : is_exception_handler method b = Some (is_handler (start b)).
Proof using Hwf.
  unfold is_exception_handler, lookup_eh_entry. rewrite (fw_handlers _ _ Hwf), Nat2Z.id.
  destruct (lookup_eh_from_ok (start b) table 0 eq_refl) as (r & -> & Hr). cbn. f_equal.
  apply bool_decide_ext. rewrite Hr. rewrite Exists_exists. setoid_rewrite list_elem_of_In. naive_solver.
Qed.

Lemma for_each_ext {A} (f g : A → C unit) l : (∀ a u, f a u = g a u) → ∀ u, for_each f l u = for_each g l u.
Proof using. intros Hfg. induction l as [|a l IH]; intros u; cbn; [done|]. unfold bind. rewrite Hfg. destruct (g a u); auto. Qed.

Lemma detect_ok m L u : blocks_inv method ns m L (bbs u) (bb_list u) →
  detect_exception_handlers method u = Done tt (set_bbs ((λ b, set_is_eh (is_handler (start b)) b) <$> bbs u) u).
Proof using Hwf.
  intros Hinv. unfold detect_exception_handlers, bind at 1, get.
  rewrite (for_each_ext _ (λ i, update (Some i) (λ b, set_is_eh (is_handler (start b)) b))).
  2: { intros i v. unfold bind, deref, update. cbn. destruct (bbs v !! i) as [b|] eqn:E; [|done]. rewrite is_exception_handler_ok. cbn. by rewrite E. }
  rewrite for_each_update; [|done|].
  - f_equal. f_equal. apply list_eq. intros i. rewrite list_lookup_imap, list_lookup_fmap.
    destruct (bbs u !! i) eqn:E; [|done]. cbn. rewrite decide_True; [done|]. by eapply (bi_all _ _ _ _ _ _ Hinv).
  - apply list.Forall_forall. intros i Hi. destruct (tiles_block _ _ _ _ i (bi_tiles _ _ _ _ _ _ Hinv) Hi) as (b & Eb & _). by eapply lookup_lt_Some.
Qed.

(** What the analysis looks at is the same. *)
Definition same_flow (b b' : basic_block) : Prop := same_block b' b ∧ predecessors b' = predecessors b.

Lemma blocks_inv_similar m L bs bs' l : similar same_flow bs bs' → blocks_inv method ns m L bs l → blocks_inv method ns m L bs' l.
Proof using.
  intros Hs [Ht Ha He Hok Hp HS Hentry Hth].
  assert (∀ k c, bs !! k = Some c → start_at bs' k (start c)) as Hmono.
  { intros k c Ec. destruct (Forall2_lookup_l _ _ _ _ _ Hs Ec) as (c' & Ec' & (Hc & _) & _). by exists c'. }
  assert (∀ i b', bs' !! i = Some b' → ∃ b, bs !! i = Some b ∧ same_block b' b) as Hb.
  { intros i b' E. destruct (Forall2_lookup_r _ _ _ _ _ Hs E) as (b & Eb & ? & _). eauto. }
  constructor.
  - eapply tiles_similar; [|exact Ht]. eapply Forall2_impl; [|exact Hs]. by intros b b' [(? & ? & _) _].
  - intros i b' (b & Eb & _)%Hb. by eapply Ha.
  - eapply edges_ok_similar; [|exact He]. eapply Forall2_impl; [|exact Hs]. by intros b b' [(_ & _ & _ & _ & _ & ? & _) ?].
  - intros i b' (b & Eb & _ & ? & ? & ? & ? & ? & _)%Hb. destruct (Hok i b Eb) as (q & Hq). exists q. by eapply block_ok_mono; [apply Hmono|..|exact Hq].
  - intros i b' (b & Eb & -> & _)%Hb. by eapply Hp.
  - intros p. rewrite HS. split.
    + intros (k & c & Ec & <-). exists k. by apply Hmono.
    + intros (k & c' & (c & Ec & -> & _)%Hb & <-). by exists k, c.
  - eapply start_at_mono; [apply Hmono|done].
  - intros i b' (b & Eb & -> & _ & _ & _ & _ & _ & ->)%Hb. by eapply Hth.
Qed.

Lemma same_flow_eh eh b : same_flow b (set_is_eh eh b).
Proof using. split; [|done]. unfold same_block. split_and!; done. Qed.

(** The leader before an offset is a handler. *)
Definition covers (p x : Z) : Prop := leader method ns p ∧ p <= x ∧ ∀ p', leader method ns p' → p' <= x → p' <= p.
Definition covered (x : Z) : Prop := ∃ p, covers p x ∧ handler method p.

Definition eh_inv (bs : list basic_block) : Prop := ∀ i b, bs !! i = Some b → is_eh b = true ↔ covered (start b).

Lemma covered_iff x y : (∀ p, leader method ns p → p <= x ↔ p <= y) → covered x ↔ covered y.
Proof using.
  intros Hxy. unfold covered, covers. split; intros (p & (Hp & Hle & Hmax) & Hh); exists p; (split; [|done]); split_and!; try done.
  - by apply Hxy. - intros p' Hp' Hle'. apply Hmax; [done|]. by apply Hxy.
  - by apply Hxy. - intros p' Hp' Hle'. apply Hmax; [done|]. by apply Hxy.
Qed.

(** No leader is inside a block. *)
Lemma block_leader m (L : Z → Prop) bs l i b x : blocks_inv method ns m L bs l → (∀ p, leader method ns p → L p) → bs !! i = Some b →
  start b <= x < end_ b → ∀ p, leader method ns p → p <= x ↔ p <= start b.
Proof using.
  intros [Ht Ha _ _ _ HS _] HL Eb Hx p Hp. split; [|lia]. intros Hle. apply HL, HS in Hp as (j & c & Ec & <-).
  destruct (decide (start c <= start b)) as [|Hgt]; [done|]. exfalso.
  destruct (tiles_block _ _ _ _ j Ht (Ha _ _ Ec)) as (? & ? & ? & ? & ?). simplify_eq.
  assert (j = i) as -> by (eapply (tiles_unique _ _ _ _ j i _ _ (start c) Ht); eauto; lia). simplify_eq. lia.
Qed.

Lemma link_eh o n bs : o ≠ n → link o n (alter (set_is_eh true) n bs) = alter (set_is_eh true) n (link o n bs).
Proof using.
  intros Hne. apply list_eq. intros k. rewrite link_lookup, !list_lookup_alter. destruct (decide (n = k)) as [<-|Hk].
  - rewrite link_lookup. destruct (bs !! n) as [c|]; [|done]. cbn.
    destruct (decide (n = o)); [congruence|]. by destruct (decide (n = n)).
  - by rewrite link_lookup.
Qed.

Lemma cut_eh_ok o off b u : edges_ok (bbs u) → bbs u !! o = Some b → start b < off < end_ b →
  ∃ h, (let* new_bb := bb_split (Some o) off in
        match new_bb with
        | None => ret (-1)
        | Some _ => do update new_bb (set_is_eh true) ;; bb_add_successor (Some o) new_bb
        end) u =
    Done 0 (CU h (alter (set_is_eh true) (length (bbs u)) (cut_bbs true o off b (bbs u)))
              (list_add (length (bbs u)) o (bb_list u)) (u64 (nr_bb u + 1))).
Proof using Hm.
  intros He Eo Hoff. pose proof (lookup_lt_Some _ _ _ Eo) as Ho.
  destruct (bb_split_ok Hm o off b u Eo ltac:(lia) (proj1 (eo_succ _ He _ _ Eo))) as [h E]. rewrite (bind_run _ _ _ _ _ E).
  pose proof (split_new o off b (bbs u)) as En. cbv beta iota. set (u1 := CU h _ _ _).
  rewrite (bind_run _ _ _ _ _ (update_ok (length (bbs u)) (upper_part off b) (set_is_eh true) u1 En)).
  match goal with |- context [bb_add_successor _ _ ?v] => destruct (bb_add_successor_ok Hm o (length (bbs u)) v) as [h2 ->] end.
  1,2: cbn; rewrite length_insert, split_length; lia. exists h2. unfold set_heap, set_bbs. cbn.
  rewrite <- alter_insert by done. rewrite link_eh by lia. done.
Qed.

Lemma eh_inv_cut L u o b off : blocks_inv method ns (λ _, true) L (bbs u) (bb_list u) → (∀ p, leader method ns p → L p) → eh_inv (bbs u) →
  bbs u !! o = Some b → is_eh b = true → start b < off < end_ b →
  eh_inv (alter (set_is_eh true) (length (bbs u)) (cut_bbs true o off b (bbs u))).
Proof using.
  intros Hinv HL Heh Eo Hb Hoff i c' Ec'. rewrite list_lookup_alter in Ec'. destruct (decide (length (bbs u) = i)) as [<-|Hi].
  - destruct (cut_new true o off b (bbs u) Eo) as (c & Ec & (Hs & _) & _). rewrite Ec in Ec'. cbn in Ec'. injection Ec' as <-.
    cbn. rewrite Hs. cbn. split; [intros _|done].
    apply (covered_iff _ (start b)); [by eapply (block_leader _ L); [..|lia]|]. by apply (Heh o b Eo).
  - destruct (cut_block true o off b (bbs u) i c' (bi_edges _ _ _ _ _ _ Hinv) Eo Ec') as [(? & _)|[(-> & (-> & _) & ->)|(_ & c & Ec & (-> & _) & ->)]];
      [by subst|exact (Heh o b Eo)|exact (Heh i c Ec)].
Qed.

(** One handler: the block with it is one of a handler, and is cut there. *)
Lemma split_handler_step L u h : blocks_inv method ns (λ _, true) L (bbs u) (bb_list u) → (∀ p, leader method ns p → L p) → eh_inv (bbs u) →
  counted u → h ∈ pcs →
  ∃ j b, find_bb h u = Done (Some j) u ∧ bbs u !! j = Some b ∧ (is_eh b = true ↔ covered h) ∧
    (covered h → ∃ u', (if decide (start b = h) then ret 0 else
        let* new_bb := bb_split (Some j) h in
        match new_bb with
        | None => ret (-1)
        | Some _ => do update new_bb (set_is_eh true) ;; bb_add_successor (Some j) new_bb
        end) u = Done 0 u' ∧
      blocks_inv method ns (λ _, true) (λ p, L p ∨ p = h) (bbs u') (bb_list u') ∧ eh_inv (bbs u') ∧ counted u').
Proof using Hwf Hm.
  intros Hinv HL Heh Hcnt Hh. pose proof (pcs_range _ _ Hwf h Hh) as Hr.
  destruct (find_block _ _ u h Hinv Hr) as (j & b & Ef & Eb & Hin). exists j, b.
  assert (is_eh b = true ↔ covered h) as Hiff.
  { rewrite (Heh j b Eb). apply covered_iff. intros p Hp. symmetry. by eapply (block_leader _ L). }
  split_and!; [done..|]. intros Hc. case_decide as Hst.
  - exists u. split_and!; [done| |done|done]. eapply blocks_inv_ext; [|exact Hinv]. intros p. cbn. split; [tauto|].
    intros [?| ->]; [done|]. apply (bi_starts _ _ _ _ _ _ Hinv). by exists j, b.
  - destruct (cut_eh_ok j h b u (bi_edges _ _ _ _ _ _ Hinv) Eb ltac:(lia)) as [h' E]. eexists. split; [exact E|]. cbn [bbs bb_list]. split_and!.
    + eapply blocks_inv_similar; [|apply cut_inv; [done|exact Hinv|done|lia|done|]].
      * destruct (cut_new true j h b (bbs u) Eb) as (c & Ec & _). rewrite (alter_insert _ _ c) by done.
        eapply similar_insert; [|exact Ec|apply same_flow_eh]. intros d. split; [|done]. unfold same_block. split_and!; done.
      * eapply inside_middle; [exact Hinv| |exact Eb|lia|done]. intros p Hp. apply HL. rewrite leader_cuts. by left.
    + eapply eh_inv_cut; [done|done|done|done| |lia]. by apply Hiff.
    + eapply counted_next; [done| |done]. by rewrite length_alter, cut_length.
Qed.

Lemma split_handlers_ok : ∀ rest i u (L : Z → Prop), drop i table = rest →
  blocks_inv method ns (λ _, true) L (bbs u) (bb_list u) → (∀ p, leader method ns p → L p) → eh_inv (bbs u) → counted u →
  ((∀ eh, eh ∈ rest → covered (handler_pc eh)) → ∃ u', split_handlers method (length rest) i u = Done 0 u' ∧ 
    blocks_inv method ns (λ _, true) (λ p, L p ∨ ∃ eh, eh ∈ rest ∧ handler_pc eh = p) (bbs u') (bb_list u') ∧ eh_inv (bbs u') ∧ counted u') ∧
  (∀ eh, eh ∈ rest → ¬ covered (handler_pc eh) → split_handlers method (length rest) i u = Undef).
Proof using Hwf Hm.
  induction rest as [|eh rest IH]; intros i u L Hd Hinv HL Heh Hcnt; cbn [length split_handlers].
  { split; [|by intros eh ?%elem_of_nil]. intros _. exists u. split_and!; try done. eapply blocks_inv_ext; [|exact Hinv].
    intros p. split; [tauto|]. intros [?|(? & ?%elem_of_nil & _)]; done. }
  assert (table !! i = Some eh) as E by (rewrite <- (Nat.add_0_r i), <- lookup_drop; by rewrite Hd).
  rewrite (bind_lift _ _ _ _ E).
  assert (handler_pc eh ∈ pcs) as Hpc by (apply (fw_handler _ _ Hwf); exists eh; split; [by eapply list_elem_of_lookup_2|done]).
  destruct (split_handler_step L u (handler_pc eh) Hinv HL Heh Hcnt Hpc) as (j & b & Ef & Eb & Hiff & Hstep).
  rewrite (bind_run _ _ _ _ _ Ef), (bind_run _ _ _ _ _ (deref_ok j b u Eb)).
  destruct (is_eh b) eqn:Eeh; cbn [negb].
  - pose proof (proj1 Hiff eq_refl) as Hc. destruct (Hstep Hc) as (u1 & E1 & Hinv1 & Heh1 & Hcnt1). rewrite (bind_run _ _ _ _ _ E1).
    rewrite decide_True by done.
    destruct (IH (S i) u1 _ ltac:(by rewrite <- Nat.add_1_r, <- drop_drop, Hd) Hinv1 ltac:(intros; left; auto) Heh1 Hcnt1) as [IH1 IH2]. split.
    + intros Hall. destruct IH1 as (u2 & E2 & Hinv2 & Heh2 & Hcnt2); [intros; apply Hall; set_solver|].
      exists u2. split_and!; try done. eapply blocks_inv_ext; [|exact Hinv2]. intros p. setoid_rewrite elem_of_cons. naive_solver.
    + intros e [->|He]%elem_of_cons Hn; [done|]. by eapply IH2.
  - split; [|done]. intros Hall. assert (covered (handler_pc eh)) as Hc by (apply Hall; set_solver). by apply Hiff in Hc.
Qed.

Lemma handlers_have_bb_ok L u : blocks_inv method ns (λ _, true) L (bbs u) (bb_list u) → (∀ p, handler method p → L p) →
  eh_inv (bbs u) → (∀ p, handler method p → covered p) → ∀ rest i, drop i table = rest → handlers_have_bb method (length rest) i u = Done true u.
Proof using Hwf.
  intros Hinv HL Heh Hcov. induction rest as [|eh rest IH]; intros i Hd; cbn [length handlers_have_bb]; [done|].
  assert (table !! i = Some eh) as E by (rewrite <- (Nat.add_0_r i), <- lookup_drop; by rewrite Hd). rewrite (bind_lift _ _ _ _ E).
  assert (handler method (handler_pc eh)) as Hh by (exists eh; split; [by eapply list_elem_of_lookup_2|done]).
  destruct (find_block _ _ u (handler_pc eh) Hinv) as (j & b & Ef & Eb & Hin); [by apply (pcs_range _ _ Hwf), (fw_handler _ _ Hwf)|].
  rewrite (bind_run _ _ _ _ _ Ef), (bind_run _ _ _ _ _ (deref_ok j b u Eb)).
  destruct (proj1 (bi_starts _ _ _ _ _ _ Hinv _) (HL _ Hh)) as (j' & c & Ec & Hs). pose proof Hinv as [Ht Ha _ _ _ _ _].
  assert (j' = j) as ->.
  { destruct (tiles_block _ _ _ _ j' Ht (Ha _ _ Ec)) as (? & ? & ? & ? & ?). simplify_eq.
    eapply (tiles_unique _ _ _ _ j' j _ _ (start c) Ht); eauto; lia. }
  simplify_eq. rewrite bool_decide_eq_true_2 by done.
  assert (is_eh b = true) as -> by (apply (Heh j b Eb); rewrite Hs; auto). cbn. apply IH. by rewrite <- Nat.add_1_r, <- drop_drop, Hd.
Qed.

(** ** The whole analysis *)

(** The control flow graph: the blocks are the code, in order; they start at the leaders and
    the handlers; each has the flags and the successors of its last instruction, in order;
    the predecessors are the other ends of the edges. *)
Record cfg_inv (u : compilation_unit) : Prop := {
  cc_tiles : tiles (bbs u) (bb_list u) 0 len;
  cc_all i b : bbs u !! i = Some b → i ∈ bb_list u;
  cc_edges : edges_ok (bbs u);
  cc_starts p : leader method ns p ∨ handler method p ↔ ∃ i, start_at (bbs u) i p;
  cc_blocks i b : bbs u !! i = Some b → ∃ q, block_ok method ns true (bbs u) b q;
  cc_eh i b : bbs u !! i = Some b → is_eh b = true ↔ handler method (start b);
  cc_count : nr_bb u = Z.of_nat (length (bbs u));
  cc_entry : start_at (bbs u) 0 0;
  cc_throw i b : bbs u !! i = Some b → has_athrow b = true ↔ throws_from method ns (start b);
}.

Lemma tiles_length bs l s e : tiles bs l s e → Z.of_nat (length l) <= e - s.
Proof using. induction 1 as [|i b l s e Ei Hs Hlt Ht IH]; cbn [length]; lia. Qed.

Lemma counted_blocks m L u : blocks_inv method ns m L (bbs u) (bb_list u) → counted u → nr_bb u = Z.of_nat (length (bbs u)).
Proof using Hwf.
  intros [Ht Ha _ _ _ _ _] ->. apply u64_id. apply tiles_length in Ht. pose proof (fw_size _ _ Hwf).
  assert (length (seq 0 (length (bbs u))) <= length (bb_list u))%nat as Hl.
  { apply submseteq_length, NoDup_submseteq; [apply NoDup_seq|]. intros i [_ Hi]%elem_of_seq.
    destruct (lookup_lt_is_Some_2 (bbs u) i) as [b Eb]; [lia|]. by eapply Ha. }
  rewrite length_seq in Hl. clia.
Qed.

Lemma entry_open h : open_inv 0 0 (bbs (CU h [new_block 0 len] [0%nat] (u64 (0 + 1)))) [0%nat].
Proof using Hwf.
  pose proof (fw_size _ _ Hwf) as Hsz.
  assert (0 ∈ pcs) as H0.
  { unfold ControlFlowSpec.pcs. pose proof (fw_insns _ _ Hwf) as Hi. pose proof (fw_len _ _ Hwf). destruct ns as [|n ns']; [inversion Hi; lia|]. by left. }
  assert (∀ i b, [new_block 0 len] !! i = Some b → i = 0%nat ∧ b = new_block 0 len) as Hone.
  { intros [|[|i]] b E; cbn in E; [by injection E as <-|done|done]. }
  cbn [bbs]. constructor.
  - econstructor; [done|done|cbn; lia|constructor].
  - intros i b [-> _]%Hone. by apply list_elem_of_singleton.
  - constructor.
    + intros i b [-> ->]%Hone. split; constructor.
    + intros i b [-> ->]%Hone. split; constructor.
    + intros i b j c [-> ->]%Hone [-> ->]%Hone. cbn. by rewrite elem_of_nil.
  - exists (new_block 0 len). split; [done|]. constructor; cbn; (done || lia || (intros; lia)).
  - intros i b Hi [-> _]%Hone. done.
  - intros i b [-> ->]%Hone. done.
  - intros p. split.
    + intros [->|(q & Hf & _ & Hq & _)]; [by exists 0%nat, (new_block 0 len)|].
      pose proof (pcs_range _ _ Hwf q (proj1 Hf)). lia.
    + intros (i & b & [-> ->]%Hone & <-). by left.
  - by exists (new_block 0 len).
  - intros i b Hi [-> _]%Hone. done.
Qed.

(** The passes up to the handlers. *)
Lemma analysis_prefix h :
  ∃ u1, (∀ i b, bbs u1 !! i = Some b → is_eh b = is_handler (start b)) ∧
    blocks_inv method ns (λ _, true) (leader method ns) (bbs u1) (bb_list u1) ∧ counted u1 ∧
    analyze_control_flow method (CU h [] [] 0) =
      (let* err := split_at_exception_handlers method in
       if negb (bool_decide (err = 0)) then ret (err, Some 0%nat) else
       let* all := all_exception_handlers_have_bb method in
       if (all : bool) then ret (err, Some 0%nat) else undef) u1.
Proof using Hwf Hm.
  pose proof (fw_size _ _ Hwf) as Hsz. unfold analyze_control_flow.
  pose proof (alloc_bitset_ok len h ltac:(lia)) as Ha. unfold wp in Ha. unfold bind at 1, on_heap. cbn [heap].
  destruct (alloc_bitset len h) as [bs h1|e h1|]; [|by destruct Ha|done]. destruct Ha as (Hbs & Hnr & Hzero).
  unfold set_heap at 1. cbn [bbs bb_list nr_bb].
  destruct (get_basic_block_ok Hm 0 len (CU h1 [] [] 0)) as [h2 E]. rewrite (bind_run _ _ _ _ _ E). clear E. cbn [bbs bb_list nr_bb length app].
  set (u0 := CU h2 _ _ _).
  assert (insns code 0 ns) as Hi by apply (fw_insns _ _ Hwf).
  destruct (split_after_from_ok ns (S (length code)) 0 0 u0 bs) as (bits' & u1 & E1 & Hinv1 & Hbits & Hcnt1).
  - done. - left. unfold ControlFlowSpec.pcs. pose proof (fw_len _ _ Hwf). destruct ns as [|n ns']; [inversion Hi; lia|]. by left.
  - pose proof (insns_within code 0 ns (fw_code _ _ Hwf)) as Hw. pose proof (fw_len _ _ Hwf). destruct Hw as [Hw _]; [lia..|done|]. lia.
  - apply entry_open.
  - split_and!; [done..|]. intros k Hk. rewrite Hzero. split; [done|]. intros (q & Hq & Hlt & _). apply (pcs_range _ _ Hwf) in Hq. lia.
  - done. - lia.
  - unfold split_after_branches. rewrite (bind_run _ _ _ _ _ E1). rewrite bool_decide_eq_true_2 by done. cbn [negb].
    unfold split_at_branch_targets.
    destruct (split_targets_ok (with_bits bs bits') (Z.to_nat len) Hbits 0 u1) as (u2 & E2 & Hinv2 & Hcnt2); [lia|lia| |done|].
    { eapply blocks_inv_ext; [|exact Hinv1]. intros p. cbn. split; [tauto|]. intros [?|[Ht ?]]; [done|].
      destruct Ht as (q & Hq & _ & Ht). apply (fw_targets _ _ Hwf) in Ht; [|done]. apply (pcs_range _ _ Hwf) in Ht. lia. }
    cbn [bits with_bits] in E2. rewrite (bind_run _ _ _ _ _ E2). rewrite bool_decide_eq_true_2 by done. cbn [negb].
    destruct (update_successors_ok (bb_list u2) (λ _, false) u2 Hinv2 Hcnt2) as (u3 & E3 & Hcnt3 & Hl3 & Hinv3);
      [by eapply tiles_NoDup, (bi_tiles _ _ _ _ _ _ Hinv2)|done|].
    rewrite (bind_run _ _ u2 0 u3); [|exact E3]. rewrite bool_decide_eq_true_2 by done. cbn [negb].
    assert (blocks_inv method ns (λ _, true) (leader method ns) (bbs u3) (bb_list u3)) as Hinv3'.
    { eapply blocks_inv_mode; [|exact Hinv3]. intros i b q Eb. cbn. rewrite bool_decide_eq_true_2; [done|].
      rewrite <- Hl3. by eapply (bi_all _ _ _ _ _ _ Hinv3). }
    rewrite (bind_run _ _ _ _ _ (detect_ok _ _ u3 Hinv3')). eexists. split_and!; [| | |reflexivity].
    + intros i b. cbn. rewrite list_lookup_fmap. destruct (bbs u3 !! i) as [c|]; [|done]. cbn. by intros [= <-].
    + cbn. eapply blocks_inv_similar; [|exact Hinv3']. apply Forall2_fmap_r, Forall_Forall2_diag, list.Forall_forall. intros b _. apply same_flow_eh.
    + unfold counted. cbn. by rewrite length_fmap.
Qed.

(** Every handler is in the block of a leader that is a handler. *)
Definition handlers_covered : Prop := ∀ p, handler method p → covered p.

Lemma leader_zero : leader method ns 0.
Proof using. by left. Qed.

Lemma eh_start p : leader method ns p → covered p ↔ handler method p.
Proof using.
  intros Hp. split.
  - intros (p' & (Hl & Hle & Hmax) & Hh). assert (p' = p) as <-; [|done]. specialize (Hmax p Hp). lia.
  - intros Hh. exists p. split; [|done]. split_and!; [done|lia|done].
Qed.

Lemma analyze_control_flow_wf h :
  (handlers_covered → ∃ u, analyze_control_flow method (CU h [] [] 0) = Done (0, Some 0%nat) u ∧ cfg_inv u) ∧
  (∀ p, handler method p → ¬ covered p → analyze_control_flow method (CU h [] [] 0) = Undef).
Proof using Hwf Hm.
  destruct (analysis_prefix h) as (u & Heh & Hinv & Hcnt & ->).
  assert (eh_inv (bbs u)) as Hehi.
  { intros i b Eb. rewrite (Heh i b Eb), is_handler_spec. symmetry. apply eh_start. apply (bi_starts _ _ _ _ _ _ Hinv). by exists i, b. }
  destruct (split_handlers_ok table 0 u _ eq_refl Hinv ltac:(auto) Hehi Hcnt) as [Hall Hbad].
  assert (split_at_exception_handlers method = split_handlers method (length table) 0) as Hs.
  { unfold split_at_exception_handlers. by rewrite (fw_handlers _ _ Hwf), Nat2Z.id. }
  rewrite Hs. split.
  - intros Hlead. destruct Hall as (u' & E & Hinv' & Heh' & Hcnt').
    { intros eh Hin. apply Hlead. by exists eh. }
    rewrite (bind_run _ _ _ _ _ E). rewrite bool_decide_eq_true_2 by done. cbn [negb].
    assert (all_exception_handlers_have_bb method u' = Done true u') as Eall.
    { unfold all_exception_handlers_have_bb. rewrite (fw_handlers _ _ Hwf), Nat2Z.id.
      eapply handlers_have_bb_ok; [exact Hinv'| |done|done|done]. intros p Hp. by right. }
    rewrite (bind_run _ _ _ _ _ Eall). exists u'. split; [done|]. constructor.
    + apply (bi_tiles _ _ _ _ _ _ Hinv'). + apply (bi_all _ _ _ _ _ _ Hinv'). + apply (bi_edges _ _ _ _ _ _ Hinv').
    + apply (bi_starts _ _ _ _ _ _ Hinv').
    + apply (bi_ok _ _ _ _ _ _ Hinv').
    + intros i b Eb. rewrite (Heh' i b Eb). assert (leader method ns (start b) ∨ handler method (start b)) as [Hl|Hh]
        by (apply (bi_starts _ _ _ _ _ _ Hinv'); by exists i, b); [by apply eh_start|]. split; [done|]. intros _. by apply Hlead.
    + by eapply counted_blocks.
    + apply (bi_entry _ _ _ _ _ _ Hinv').
    + apply (bi_throw _ _ _ _ _ _ Hinv').
  - intros p (eh & Hin & <-) Hn. unfold bind. by rewrite (Hbad eh Hin Hn).
Qed.
End flow.

(** ** The graph of the Java virtual machine *)

Section graph.
Context (method : vm_method) (ns : list Z).
#[local] Abbreviation code := (vmm_code method).
#[local] Abbreviation len := (code_length (code_attribute method)).
#[local] Abbreviation table := (exception_table (code_attribute method)).
#[local] Abbreviation pcs := (starts 0 ns).

(** Code to which the analysis is applied: complete instructions of the sizes [ns], and
    branches and handlers that go to instructions. *)
Record code_ready : Prop := {
  cr_wf : method_wf method;
  cr_size : 0 < len;
  cr_insns : insns code 0 ns;
  cr_targets q t : q ∈ pcs → jumps_to code q t → t ∈ pcs;
  cr_handlers eh : eh ∈ table → handler_pc eh ∈ pcs;
}.

Definition next (q p : Z) : Prop := q ∈ pcs ∧ insn_length code q = Some (p - q).
Definition kind_is (P : flow_kind → bool) (q : Z) : bool :=
  match kind_at code q with Some k => P k | None => false end.

(** The instructions that end a block; [ret] is not one of them. *)
Definition ends_block (q : Z) : bool := kind_is (λ k, match k with Plain | Ret => false | _ => true end) q.

(** Blocks start at the beginning, behind the instructions that end one, and at targets. *)
Definition block_start (p : Z) : Prop :=
  p = 0 ∨ (∃ q, next q p ∧ ends_block q = true ∧ p < len) ∨ ∃ q, q ∈ pcs ∧ jumps_to code q p.

(** The edges to the next block: where control can go on, and those that control does not
    take but the analysis adds: after [goto_w], [jsr], [jsr_w], [ret] and the switches. *)
Definition extra_edge (q : Z) : bool :=
  bool_decide (rd code q = Some 0xc8) ||
  kind_is (λ k, match k with Jsr | Ret | Tableswitch | Lookupswitch => true | _ => false end) q.
Definition next_block (q e : Z) : list Z :=
  if (kind_is goes_on q || extra_edge q) && bool_decide (e < len) then [e] else [].
(** The successors of a block that ends at [e] with the instruction at [q]: the next block
    and the target of the branch, once; the targets of a switch are none yet. *)
Definition block_succs (q e : Z) : list Z :=
  next_block q e ++
  match branch_target code q with
  | Some t => if bool_decide (t ∈ next_block q e) then [] else [t]
  | None => []
  end.

Record block_correct (bs : list basic_block) (b : basic_block) (q : Z) : Prop := {
  bc_last : next q (end_ b);
  bc_branch : has_branch b = bool_decide (is_Some (branch_target code q));
  bc_target : br_target_off b = default 0 (branch_target code q);
  bc_return : has_return b = kind_is (λ k, bool_decide (k = Return)) q;
  bc_succ : Forall2 (start_at bs) (successors b) (block_succs q (end_ b));
}.

(** [has_athrow] is not a flag of the last instruction: it is set for the block at [p] when
    [p] is the beginning or comes behind an instruction that ends a block, and the first
    such instruction from [p] on, in this block or in a later one, is an athrow. *)
Definition athrow_flag (p : Z) : Prop :=
  (p = 0 ∨ ∃ q, next q p ∧ ends_block q = true) ∧
  ∃ q, q ∈ pcs ∧ p <= q ∧ kind_at code q = Some Throw ∧ ∀ q', q' ∈ pcs → p <= q' < q → ends_block q' = false.

Record cfg_correct (u : compilation_unit) : Prop := {
  cg_tiles : tiles (bbs u) (bb_list u) 0 len;
  cg_all i b : bbs u !! i = Some b → i ∈ bb_list u;
  cg_edges : edges_ok (bbs u);
  cg_starts p : block_start p ∨ handler method p ↔ ∃ i, start_at (bbs u) i p;
  cg_blocks i b : bbs u !! i = Some b → ∃ q, block_correct (bbs u) b q;
  cg_throw i b : bbs u !! i = Some b → has_athrow b = true ↔ athrow_flag (start b);
  cg_eh i b : bbs u !! i = Some b → is_eh b = true ↔ handler method (start b);
  cg_count : nr_bb u = Z.of_nat (length (bbs u));
  cg_entry : start_at (bbs u) 0 0;
}.

(** Before every handler, itself included, the last start of a block is a handler. *)
Definition handler_led (p : Z) : Prop :=
  ∃ p', block_start p' ∧ p' <= p ∧ (∀ x, block_start x → x <= p → x <= p') ∧ handler method p'.
Definition handlers_lead : Prop := ∀ p, handler method p → handler_led p.

(** ** The predicates of the code *)

Lemma insn_targets (Hwf : method_wf method) (Hi : insns code 0 ns) q : q ∈ pcs →
  ∃ ts, targets_without 0 code q = Some ts ∧ ∀ t, t ∈ ts ↔ jumps_to code q t.
Proof using.
  intros Hq. pose proof (insns_here method Hwf 0 ns ltac:(done) Hi q Hq) as Hh.
  destruct (insn_here_info method Hwf q Hh) as (opc & i & n & Eo & Hp & Ei & Hn & Hle & Hni & Hsz).
  destruct (targets_without_spec code (mw_code _ Hwf) q (ih_start _ _ Hh) n Hn Hle 0 opc i ltac:(lia) Eo Ei Hni Hsz) as (ts & Ets & Hts).
  exists ts. split; [done|]. intros t. rewrite Hts. unfold jumps_to. naive_solver lia.
Qed.

Lemma jump_targets_all q : jump_targets method q = targets_without 0 code q.
Proof using.
  unfold jump_targets, targets_without. destruct (rd code q) as [opc|]; [|done]. cbn [mbind option_bind].
  destruct (bc_is_branch opc) as [[]|]; [|done|done]. cbn [mbind option_bind]. destruct (decide (opc = OPC_TABLESWITCH)); [|done].
  do 3 (destruct (read_s32 code _) as [?|]; [cbn [mbind option_bind]|done]). by rewrite Z.sub_0_r.
Qed.

Context (Hr : code_ready).

Lemma target_jumps q t : q ∈ pcs → target_of method q t ↔ jumps_to code q t.
Proof using Hr.
  intros Hq. destruct (insn_targets (cr_wf Hr) (cr_insns Hr) q Hq) as (ts & Ets & Hts). rewrite <- Hts.
  unfold target_of. rewrite jump_targets_all, Ets. naive_solver.
Qed.

Lemma ready_flow : flow_wf method ns.
Proof using Hr.
  destruct Hr as [[Hc Hl Hs Ht Hh] Hsz Hi Htg Hex]. constructor; try done.
  - intros q t Hq Hqt. apply (Htg q); [done|]. by apply target_jumps.
  - intros p (eh & Hin & <-). by apply Hex.
Qed.

Lemma follows_next q p : follows method ns q p ↔ next q p.
Proof using Hr.
  unfold follows, next. split; intros [Hq E]; (split; [done|]); destruct (insn_at _ _ ready_flow q Hq) as (_ & n & _ & _ & E1 & E2 & _).
  - rewrite E in E2. injection E2 as <-. done.
  - rewrite E in E1. injection E1 as <-. done.
Qed.

(** The kind of an instruction and what the code asks of it. *)
Lemma insn_flow q : q ∈ pcs →
  ends method q = ends_block q ∧ returns method q = kind_is (λ k, bool_decide (k = Return)) q ∧
  (throws method q = true ↔ kind_at code q = Some Throw) ∧ falls method q = kind_is goes_on q || extra_edge q ∧
  simple_target method q = branch_target code q.
Proof using Hr.
  intros Hq. pose proof (insns_here method (cr_wf Hr) 0 ns ltac:(done) (cr_insns Hr) q Hq) as Hh.
  destruct (insn_here_info method (cr_wf Hr) q Hh) as (opc & i & n & Eo & Hp & Ei & Hn & Hle & Hni & Hsz).
  destruct (opcode_flags opc i Hp Ei) as (Eb & Et & Ea & _).
  destruct (insn_kind _ _ ready_flow q Hq) as (opc' & br & rt & Eo' & _ & _ & Eb' & Et' & _ & _ & Ee & Er & Ef).
  rewrite Eo in Eo'. injection Eo' as <-. rewrite Eb in Eb'. injection Eb' as <-. rewrite Et in Et'. injection Et' as <-.
  assert (simple_target method q = branch_target code q) as Est.
  { unfold simple_target. rewrite Eo. cbn [mbind option_bind]. rewrite Eb. cbn [mbind option_bind].
    destruct (is_branch (kind_of opc)) eqn:Hb.
    2: { unfold branch_target. rewrite Eo. cbn [mbind option_bind]. by destruct (kind_of opc). }
    destruct (decide (opc = OPC_TABLESWITCH ∨ opc = OPC_LOOKUPSWITCH)) as [Hsw|Hsw];
      [rewrite bool_decide_eq_true_2 by done|rewrite bool_decide_eq_false_2 by done]; cbn [negb andb].
    - unfold branch_target. rewrite Eo. cbn [mbind option_bind]. by destruct Hsw as [->| ->].
    - assert (opc ≠ OPC_TABLESWITCH ∧ opc ≠ OPC_LOOKUPSWITCH ∧ opc ≠ OPC_WIDE) as (Ht & Hl & Hw)
        by (split_and!; [tauto..|intros ->; by vm_compute in Hb]).
      destruct (simple_targets code (mw_code _ (cr_wf Hr)) q (ih_start _ _ Hh) n Hle opc i Eo Ei (Hni Ht Hl Hw)
        (λ _, Hsz eq_refl Ht Hl) Ht Hl Hb) as (off & -> & -> & _). done. }
  rewrite Ee, Er, Ef, Ea. unfold throws, opcode_is, ends_block, extra_edge, kind_is, kind_at. rewrite Eo. cbn [mbind option_bind]. rewrite Ea.
  destruct (decide (opc = 0xc4 ∧ rd code (q + 1) = Some 0xa9)) as [[-> _]|_].
  { cbn. split_and!; done. }
  split_and!; [by destruct (kind_of opc)|done| | |done].
  - rewrite bool_decide_eq_true. split; [by intros ->|by intros [=]].
  - assert (bool_decide (Some opc = Some 200) = bool_decide (opc = 200)) as -> by (apply bool_decide_ext; split; [by intros [=]|by intros ->]).
    unfold bc_is_goto, OPC_GOTO. destruct (kind_of opc) eqn:Ek; cbn; rewrite ?orb_true_r; try done.
    all: unfold kind_of in Ek; repeat case_decide; try done; repeat (case_bool_decide; try lia); done.
Qed.

Lemma leader_start p : leader method ns p ↔ block_start p.
Proof using Hr.
  unfold leader, block_start. assert (∀ q, q ∈ pcs → ends method q = ends_block q) as He by (intros q Hq; by apply insn_flow).
  split; (intros [?|[(q & Hf & Hq & ?)|(q & Hq & Ht)]]; [by left|right; left|right; right]).
  - exists q. rewrite <- follows_next, <- He by apply Hf. done.
  - exists q. by rewrite <- target_jumps.
  - exists q. rewrite follows_next, He by apply Hf. done.
  - exists q. by rewrite target_jumps.
Qed.

Lemma covered_led p : covered method ns p ↔ handler_led p.
Proof using Hr.
  unfold covered, covers, handler_led. split; intros (p' & H).
  - destruct H as ((H1 & H2 & H3) & H4). exists p'. split_and!; [by apply leader_start|done| |done]. intros x Hx. by apply H3, leader_start.
  - destruct H as (H1 & H2 & H3 & H4). exists p'. split; [|done]. split_and!; [by apply leader_start|done|]. intros x Hx. by apply H3, leader_start.
Qed.

Lemma athrow_flag_throws p : throws_from method ns p ↔ athrow_flag p.
Proof using Hr.
  unfold throws_from, athrow_flag. assert (∀ q, q ∈ pcs → ends method q = ends_block q) as He by (intros q Hq; by apply insn_flow).
  assert (∀ q, q ∈ pcs → throws method q = true ↔ kind_at code q = Some Throw) as Ht by (intros q Hq; by apply insn_flow).
  split; intros [Hp (q & Hq & ? & Hth & Hm)]; (split; [|exists q; split_and!; [done..|by apply Ht|intros q' Hq' ?; specialize (Hm q' Hq'); rewrite He in *; auto]]).
  - destruct Hp as [?|(x & Hx & ?)]; [by left|right]. exists x. by rewrite <- follows_next, <- He by apply Hx.
  - destruct Hp as [?|(x & Hx & ?)]; [by left|right]. exists x. by rewrite follows_next, He by apply Hx.
Qed.

Lemma cfg_inv_correct u : cfg_inv method ns u → cfg_correct u.
Proof using Hr.
  intros [H1 H2 H3 H4 H5 H6 H7 H8 H9]. constructor; try done.
  - intros p. by rewrite <- H4, leader_start.
  - intros i b Eb. destruct (H5 i b Eb) as (q & [Q1 Q2 Q3 Q4 Q5]). exists q.
    destruct (insn_flow q (proj1 Q1)) as (_ & Er & _ & Ef & Est). rewrite Est in Q2, Q3. rewrite Er in Q4.
    unfold flow_succs, fall_succs in Q5. rewrite Est, Ef in Q5.
    constructor; [by apply follows_next|done|done|done|]. unfold block_succs, next_block.
    destruct (branch_target code q) as [t|]; [|done].
    assert (∀ c : bool, (if true && negb c then [t] else []) = (if c then [] else [t])) as Hc by (by intros []). by rewrite Hc in Q5.
  - intros i b Eb. by rewrite (H9 i b Eb), athrow_flag_throws.
Qed.
End graph.

Lemma analyze_control_flow_ready `{Allocator} (method : vm_method) (ns : list Z) (h : mem) :
  (∀ k sz, malloc_ok k sz = true) → code_ready method ns →
  (handlers_lead method ns → ∃ u, analyze_control_flow method (CU h [] [] 0) = Done (0, Some 0%nat) u ∧
     cfg_correct method ns u ∧ cfg_inv method ns u) ∧
  (∀ p, handler method p → ¬ handler_led method ns p → analyze_control_flow method (CU h [] [] 0) = Undef).
Proof.
  intros Hm Hr. destruct (analyze_control_flow_wf Hm method ns (ready_flow _ _ Hr) h) as [H1 H2]. split.
  - intros Hl. destruct H1 as (u & E & Hu); [intros p Hp; by apply covered_led, Hl|]. exists u. split_and!; [done|by apply cfg_inv_correct|done].
  - intros p Hp Hn. apply (H2 p Hp). by rewrite covered_led.
Qed.

(** ** Properties *)

(** C14: On complete code whose branches and handlers go to instructions, with enough
    memory, [analyze_control_flow] returns 0 and leaves this control flow graph: the blocks
    are the code in order, without gaps, and start exactly at the first instruction, after
    the branches, returns and athrows (not after ret), at the targets of branches and
    switches and at the handlers; the branch flag, the branch target and the return flag of
    a block are those of its last instruction; its successors are, in order, the next block
    and the block of its branch target, once.  The edge to the next block is there where
    control can go on and, beyond that, after goto_w, jsr, jsr_w, ret and the switches;
    the targets of a switch are not yet successors.  The athrow flag is the one of
    [athrow_flag], which a later cut leaves with the first part.  The predecessors are the
    other ends of the same edges; the entry block is the first, exactly the handlers'
    blocks are marked, and the blocks are counted.  This needs that before each handler,
    itself included, the last start of a block is a handler; when it is not, an assertion
    fails. *)
Theorem analyze_control_flow_correct `{Allocator} (method : vm_method) (ns : list Z) (h : mem) :
  (∀ k sz, malloc_ok k sz = true) → code_ready method ns →
  (handlers_lead method ns → ∃ u, analyze_control_flow method (CU h [] [] 0) = Done (0, Some 0%nat) u ∧ cfg_correct method ns u) ∧
  (∀ p, handler method p → ¬ handler_led method ns p → analyze_control_flow method (CU h [] [] 0) = Undef).
Proof.
  intros Hm Hr. destruct (analyze_control_flow_ready method ns h Hm Hr) as [H1 H2]. split; [|done].
  intros Hl. destruct (H1 Hl) as (u & ? & ? & _). eauto.
Qed.

(** ** Verified methods *)

(** What the verifier does not look at is in order too: it looks at the targets, and the
    targets and the handler it leaves out are instructions. *)
Record rest_valid (method : vm_method) (ns : list Z) : Prop := {
  rv_ret : kind_at (vmm_code method) 0 ≠ Some Ret;
  rv_table q k t : q ∈ starts 0 ns → last_entry (vmm_code method) q k → nth_target (vmm_code method) q k = Some t → t ∈ starts 0 ns;
  rv_handler i eh : exception_table (code_attribute method) !! i = Some eh → handler_unchecked method i → handler_pc eh ∈ starts 0 ns;
}.

Lemma valid_ready method ns : method_wf method → ¬ has_no_code method → valid_code method ns → rest_valid method ns → code_ready method ns.
Proof.
  intros Hwf Hcode [Hi Ht _ _ Hh _] [Hret Htab Hlast].
  assert (code_length (code_attribute method) ≠ 0) as Hne by (unfold has_no_code in Hcode; tauto).
  constructor; try done.
  - pose proof (mw_len _ Hwf). lia.
  - intros q t Hq (k & Ek). destruct (table_bounds (vmm_code method) q) as [[low high]|] eqn:Eb.
    2: { apply (Ht q k t Hq Ek). unfold target_unchecked, last_entry. rewrite Eb. naive_solver. }
    destruct (decide (rd (vmm_code method) q = Some 0xaa ∧ k = high - low + 1)) as [[Eo ->]|Hno].
    + apply (Htab q (high - low + 1) t Hq); [|done]. split; [done|]. eauto.
    + apply (Ht q k t Hq Ek). unfold target_unchecked, last_entry. rewrite Eb. naive_solver.
  - intros eh (i & Ei)%list_elem_of_lookup.
    destruct (decide (1 <= i ∧ S i = length (exception_table (code_attribute method)))%nat) as [Hu|Hu]; [by eapply Hlast|].
    by apply (Hh i eh Ei).
Qed.


(** ** Examples *)

(** 0: iconst_0; 1: ifeq 7; 4: iconst_0, iconst_1, athrow; 7: iconst_0; 8: goto 1;
    11: pop, return; with a handler at 11 *)
Definition flow_code : list Z := [0x03; 0x99; 0; 6; 0x03; 0x04; 0xbf; 0x03; 0xa7; 0xff; 0xf9; 0x57; 0xb1].
Definition flow_sizes : list Z := [1; 3; 1; 1; 1; 1; 3; 1; 1].
Definition flow_method : vm_method := method0 flow_code [CodeException 0 4 11 0].

Lemma flow_method_insns : insns flow_code 0 flow_sizes.
Proof. do 9 (eapply insns_step; [reflexivity|lia|]). exact (insns_end flow_code). Qed.

(** All targets of an example are instructions, computed. *)
Definition targets_ok (method : vm_method) (ns : list Z) : bool :=
  forallb (λ q, match targets_without 0 (vmm_code method) q with Some ts => forallb (λ t, bool_decide (t ∈ starts 0 ns)) ts | None => false end)
    (starts 0 ns).
Lemma targets_ok_spec method ns q t : method_wf method → insns (vmm_code method) 0 ns → targets_ok method ns = true →
  q ∈ starts 0 ns → jumps_to (vmm_code method) q t → t ∈ starts 0 ns.
Proof.
  intros Hwf Hi. unfold targets_ok. rewrite forallb_forall. setoid_rewrite <- list_elem_of_In. intros Hall Hq Ht.
  specialize (Hall q Hq). destruct (insn_targets method ns Hwf Hi q Hq) as (ts & Ets & Hts). rewrite Ets, forallb_forall in Hall.
  apply Hts, list_elem_of_In, Hall in Ht. by apply bool_decide_eq_true in Ht.
Qed.

Lemma flow_method_ok : method_wf flow_method.
Proof. constructor; cbn; [by repeat constructor|reflexivity|lia|reflexivity|by repeat constructor]. Qed.

Lemma flow_code_ready : code_ready flow_method flow_sizes.
Proof.
  constructor.
  - exact flow_method_ok.
  - cbn. lia.
  - exact flow_method_insns.
  - intros q t. apply targets_ok_spec; [exact flow_method_ok|exact flow_method_insns|reflexivity].
  - intros eh Hin. cbn in Hin. apply list_elem_of_singleton in Hin as ->. apply (bool_decide_unpack _). reflexivity.
Qed.

Lemma flow_method_handlers : handlers_lead flow_method flow_sizes.
Proof.
  intros p Hp. exists p. pose proof Hp as (eh & Hin & <-). cbn in Hin. apply list_elem_of_singleton in Hin as ->.
  split_and!; [|lia|done|done]. right. left. exists 8. split_and!; [|reflexivity|cbn; lia].
  split; [apply (bool_decide_unpack _); reflexivity|reflexivity].
Qed.

Lemma analyze_control_flow_correct_witness :
  ∃ u, analyze_control_flow (H := λ _ _, true) flow_method (CU (Mem 0 ∅) [] [] 0) = Done (0, Some 0%nat) u ∧
    cfg_correct flow_method flow_sizes u ∧ bb_list u = [0%nat; 4%nat; 1%nat; 2%nat; 3%nat].
Proof.
  destruct (proj1 (analyze_control_flow_correct (H := λ _ _, true) flow_method flow_sizes (Mem 0 ∅) ltac:(intros; reflexivity)
    flow_code_ready) flow_method_handlers) as (u & E & Hu).
  exists u. split; [exact E|]. split; [exact Hu|].
  assert (match analyze_control_flow (H := λ _ _, true) flow_method (CU (Mem 0 ∅) [] [] 0) with
          | Done _ v => bb_list v | _ => [] end = [0%nat; 4%nat; 1%nat; 2%nat; 3%nat]) as Hl by (vm_compute; reflexivity).
  rewrite E in Hl. exact Hl.
Defined.


(** 0: iconst_0, ifnull 5; 4: iconst_0; 5: iconst_1, athrow *)
Definition athrow_method : vm_method := method0 [0x03; 0xc6; 0; 4; 0x03; 0x04; 0xbf] [].
(** goto_w 6; return; return *)
Definition goto_w_method : vm_method := method0 [0xc8; 0; 0; 0; 6; 0xb1; 0xb1] [].
(** tableswitch with the target 21 twice; 20: return; 21: return *)
Definition flow_switch_method : vm_method :=
  method0 [0xaa; 0; 0; 0; 0; 0; 0; 21; 0; 0; 0; 0; 0; 0; 0; 0; 0; 0; 0; 21; 0xb1; 0xb1] [].
(** iconst_0; 1: iconst_0; return; with a handler at 1 *)
Definition fall_into_handler_method : vm_method := method0 [0x03; 0x03; 0xb1] [CodeException 0 1 1 0].

Definition graph_of (malloc : nat → Z → bool) (m : vm_method) : option (list (Z * bool * list nat)) :=
  match analyze_control_flow (H := malloc) m (CU (Mem 0 ∅) [] [] 0) with
  | Done _ u => Some ((λ b, (start b, has_athrow b, successors b)) <$> bbs u)
  | _ => None
  end.

(** Where the graph is not the one of the Java virtual machine: a block cut before its
    athrow leaves the flag behind; goto_w and the switches get an edge to the next
    instruction; a handler that is also reached by falling into it stops the compiler; a
    failed allocation of a block is a null pointer that is followed. *)
Theorem control_flow_divergences :
  graph_of (λ _ _, true) athrow_method = Some [(0, false, [1%nat; 2%nat]); (4, true, [2%nat]); (5, false, [])] ∧
  graph_of (λ _ _, true) goto_w_method = Some [(0, false, [1%nat; 2%nat]); (5, false, []); (6, false, [])] ∧
  graph_of (λ _ _, true) flow_switch_method = Some [(0, false, [1%nat]); (20, false, []); (21, false, [])] ∧
  graph_of (λ _ _, true) fall_into_handler_method = None ∧
  graph_of (λ n _, negb (Nat.eqb n 3)) athrow_method = None.
Proof. split_and!; vm_compute; reflexivity. Qed.
