(* ===== verification/LinearScan.v ===== *)
(** * jit/linear-scan.c: register allocation

    The intervals of the compilation unit are a store; a pointer to one is its place
    there, and a split puts the new interval at the end.  The lists of active and
    inactive intervals are lists of places, the first one being the head's next.  The
    program ending in [error] is the error return ([Fail]); a failed assertion, a null
    pointer followed and a read outside an array are undefined.  The registers are
    those of arch/x86/registers_64.c. *)

From S2P Require Import Prelude CMonad Bitset Types Interval Pqueue.
#[local] Open Scope Z_scope.

(** ** Registers *)

Definition NR_GP_REGISTERS : nat := 14.
Definition NR_REGISTERS : nat := 30.

Definition type_bit (t : vm_type) : Z := Z.shiftl 1 (Z.of_nat (vm_type_number t)).
Definition GPR_64 : Z := Z.lor (type_bit J_LONG) (type_bit J_REFERENCE).
Definition GPR_32 : Z := type_bit J_INT.
Definition GPR_16 : Z := Z.lor (type_bit J_SHORT) (type_bit J_CHAR).
Definition GPR_8 : Z := Z.lor (type_bit J_BYTE) (type_bit J_BOOLEAN).
Definition FPU : Z := Z.lor (type_bit J_FLOAT) (type_bit J_DOUBLE).
(** In the order of the registers; the last eight have no initialiser. *)
Definition reg_type_table : list Z :=
  replicate NR_GP_REGISTERS (Z.lor (Z.lor (Z.lor GPR_64 GPR_32) GPR_16) GPR_8) ++ replicate 8 FPU ++ replicate 8 0.

(** The assertions must hold. *)
Definition reg_supports_type (reg : Z) (type : vm_type) : option bool :=
  if decide (type = J_VOID ∨ type = J_RETURN_ADDRESS) then None else
  if decide (reg < 0) then None else
  t ← reg_type_table !! Z.to_nat reg;
  Some (negb (Z.land t (type_bit type) =? 0)).

(** ** Positions of the registers *)

Definition set_free_pos (free_until_pos : list Z) (reg pos : Z) : list Z :=
  if decide (0 <= reg < Z.of_nat NR_REGISTERS) then
    match free_until_pos !! Z.to_nat reg with
    | Some p => if decide (p < pos) then free_until_pos else <[Z.to_nat reg := pos]> free_until_pos
    | None => free_until_pos
    end
  else free_until_pos.
Definition set_use_pos (use_pos : list Z) (reg pos : Z) : option (list Z) :=
  if decide (0 <= reg < Z.of_nat NR_REGISTERS) then Some (set_free_pos use_pos reg pos) else None.
(** The block positions and the use positions. *)
Definition set_block_pos (bu : list Z * list Z) (reg pos : Z) : option (list Z * list Z) :=
  if decide (0 <= reg < Z.of_nat NR_REGISTERS)
  then Some (set_free_pos bu.1 reg pos, set_free_pos bu.2 reg pos) else None.

(** The loop of [pick_register] from register [i] on. *)
Fixpoint pick_from (ps : list Z) (i : Z) (type : vm_type) (max_pos ret : Z) : option Z :=
  match ps with
  | [] => Some ret
  | pos :: ps' =>
    ok ← reg_supports_type i type;
    if negb ok then pick_from ps' (i + 1) type max_pos ret
    else if decide (max_pos <= pos) then pick_from ps' (i + 1) type pos i
    else pick_from ps' (i + 1) type max_pos ret
  end.
Definition pick_register (free_until_pos : list Z) (type : vm_type) : option Z :=
  r ← pick_from free_until_pos 0 type 0 (-1);
  if decide (r = -1) then None else Some r.

(** ** The store *)

Record struct_var_info := VarInfo { interval : nat; vreg : Z; vm_type : Types.vm_type }.

(** An interval with its links. *)
Record node := Node {
  iv : live_interval;
  next_child : option nat;
  prev_child : option nat;
  spill_parent : option nat;
}.
Definition with_iv (it : live_interval) (n : node) : node :=
  Node it (next_child n) (prev_child n) (spill_parent n).
Definition with_flags (f : Z) (n : node) : node :=
  let it := iv n in
  with_iv (LiveInterval (var_info it) (range_list it) (expired_range_list it) (use_positions it) f (reg it)) n.
Definition with_reg (r : Z) (n : node) : node :=
  let it := iv n in
  with_iv (LiveInterval (var_info it) (range_list it) (expired_range_list it) (use_positions it) (flags it) r) n.
Definition with_parent (p : nat) (n : node) : node := Node (iv n) (next_child n) (prev_child n) (Some p).

Record scan := Scan {
  nodes : list node;
  active : list nat;
  inactive : list nat;
  unhandled : pqueue nat;
  heap : mem;
}.
Definition with_nodes (ns : list node) (s : scan) : scan := Scan ns (active s) (inactive s) (unhandled s) (heap s).
Definition with_active (l : list nat) (s : scan) : scan := Scan (nodes s) l (inactive s) (unhandled s) (heap s).
Definition with_inactive (l : list nat) (s : scan) : scan := Scan (nodes s) (active s) l (unhandled s) (heap s).
Definition with_queue (q : pqueue nat) (s : scan) : scan := Scan (nodes s) (active s) (inactive s) q (heap s).
Definition with_heap (h : mem) (s : scan) : scan := Scan (nodes s) (active s) (inactive s) (unhandled s) h.

Definition L (A : Type) : Type := M scan unit A.

Definition lookup_node (i : nat) : L node := λ s,
  match nodes s !! i with Some n => Done n s | None => Undef end.
Definition update_node (i : nat) (f : node → node) : L unit := λ s,
  match nodes s !! i with Some n => Done tt (with_nodes (<[i := f n]> (nodes s)) s) | None => Undef end.
Definition try {A} (o : option A) : L A := λ s, match o with Some a => Done a s | None => Undef end.
(** The program ends. *)
Definition returns {A} (o : outcome A) : L A := λ s,
  match o with Returns a => Done a s | Exits => Fail tt s end.

Definition has_use_positions (it : live_interval) : bool :=
  match use_positions it with [] => false | _ => true end.
Definition interval_needs_reload (it : live_interval) : bool :=
  bool_decide (Z.land (flags it) INTERVAL_FLAG_NEED_RELOAD ≠ 0).
Definition interval_needs_spill (it : live_interval) : bool :=
  bool_decide (Z.land (flags it) INTERVAL_FLAG_NEED_SPILL ≠ 0).
Definition mark_need_reload (i parent : nat) : L unit :=
  update_node i (λ n, with_parent parent (with_flags (Z.lor (flags (iv n)) INTERVAL_FLAG_NEED_RELOAD) n)).
Definition mark_need_spill (i : nat) : L unit :=
  update_node i (λ n, with_flags (Z.lor (flags (iv n)) INTERVAL_FLAG_NEED_SPILL) n).

(** ** Operations *)

Section ops.
Context `{Allocator}.
Context (var_infos : list struct_var_info).

(** [it->var_info->vm_type] *)
Definition interval_vm_type (it : live_interval) : option Types.vm_type :=
  vm_type <$> list_find (λ v, vreg v = var_info it) var_infos ≫= λ v, Some v.2.

(** The new interval goes to the end of the store, between the interval and its next
    child; a null result is [None]. *)
Definition split_interval (i : nat) (pos : Z) : L (option nat) := λ s,
  match nodes s !! i with
  | None => Undef
  | Some n =>
    match split_interval_at (iv n) pos (heap s) with
    | Done (Returns (old, new)) h =>
      let k := length (nodes s) in
      Done (Some k)
        (with_heap h (with_nodes (<[i := Node old (Some k) (prev_child n) (spill_parent n)]> (nodes s) ++
                                  [Node new (next_child n) (Some i) None]) s))
    | Done Exits h => Fail tt (with_heap h s)
    | Fail _ h => Done None (with_heap h s)
    | Undef => Undef
    end
  end.

(** The result is not looked at. *)
Definition insert_unhandled (k : Z) (i : nat) : L unit := λ s,
  match pqueue_insert (unhandled s) k i (heap s) with
  | Done (_, q) h => Done tt (with_heap h (with_queue q s))
  | Fail _ _ => Undef
  | Undef => Undef
  end.

(** The loop over the children after the new interval. *)
Fixpoint update_spill_parents (fuel : nat) (child : option nat) (it new : nat) : L unit :=
  match child with
  | None => ret tt
  | Some c =>
    match fuel with
    | O => undef
    | S fuel' =>
      let* n := lookup_node c in
      do (if interval_needs_reload (iv n) && bool_decide (spill_parent n = Some it)
          then update_node c (with_parent new) else ret tt);;
      update_spill_parents fuel' (next_child n) it new
    end
  end.

Definition spill_interval (it : nat) (pos : Z) : L unit :=
  let* r := split_interval it pos in
  let* new := try r in
  let* n := lookup_node new in
  if has_use_positions (iv n) then
    let* next_pos := try (next_use_pos (iv n) 0) in
    let* start := try (interval_start (iv n)) in
    let* r := (if decide (start < next_pos) then split_interval new next_pos else ret (Some new)) in
    let* new := try r in
    let* n := lookup_node new in
    let* size := get (λ s, length (nodes s)) in
    do update_spill_parents size (next_child n) it new;;
    let* i := lookup_node it in
    do (if interval_needs_spill (iv i) then mark_need_spill new else ret tt);;
    do (if decide (Z.land next_pos 1 = 0) then mark_need_reload new it else ret tt);;
    do mark_need_spill it;;
    let* n := lookup_node new in
    let* start := try (interval_start (iv n)) in
    insert_unhandled start new
  else ret tt.

Definition spill_interval_intersecting (current : nat) (r : Z) (it : nat) : L unit :=
  let* i := lookup_node it in
  if decide (reg (iv i) ≠ r) then ret tt else
  let* c := lookup_node current in
  let* b := try (intervals_intersect (iv i) (iv c)) in
  if negb b then ret tt else
  let* o := try (interval_intersection_start (iv c) (iv i)) in
  let* start := returns o in
  let* s := try (interval_start (iv i)) in
  if decide (start = s) then ret tt else spill_interval it start.

Definition spill_all_intervals_intersecting (current : nat) (r : Z) : L unit :=
  let* a := get active in
  do for_each (spill_interval_intersecting current r) a;;
  let* b := get inactive in
  for_each (spill_interval_intersecting current r) b.

(** [list_for_each_entry(it, ids, interval_node)] with arrays to fill. *)
Fixpoint each_interval {A} (f : live_interval → A → L A) (ids : list nat) (a : A) : L A :=
  match ids with
  | [] => ret a
  | i :: ids' => let* n := lookup_node i in let* a' := f (iv n) a in each_interval f ids' a'
  end.

Definition all_free : list Z := replicate NR_REGISTERS LONG_MAX.

(** The bodies of the four loops of [allocate_blocked_reg]. *)
Definition active_use (pos : Z) (it : live_interval) (use_pos : list Z) : L (list Z) :=
  if interval_has_fixed_reg it then ret use_pos else
  let* p := try (next_use_pos it pos) in
  try (set_use_pos use_pos (reg it) p).
Definition inactive_use (cur : live_interval) (type : Types.vm_type) (pos : Z) (it : live_interval) (use_pos : list Z)
  : L (list Z) :=
  if interval_has_fixed_reg it then ret use_pos else
  let* ok := try (reg_supports_type (reg it) type) in
  if negb ok then ret use_pos else
  let* b := try (intervals_intersect it cur) in
  if negb b then ret use_pos else
  let* p := try (next_use_pos it pos) in
  try (set_use_pos use_pos (reg it) p).
Definition active_block (it : live_interval) (bu : list Z * list Z) : L (list Z * list Z) :=
  if negb (interval_has_fixed_reg it) then ret bu else try (set_block_pos bu (reg it) 0).
Definition inactive_block (cur : live_interval) (type : Types.vm_type) (it : live_interval) (bu : list Z * list Z)
  : L (list Z * list Z) :=
  if negb (interval_has_fixed_reg it) then ret bu else
  let* ok := try (reg_supports_type (reg it) type) in
  if negb ok then ret bu else
  let* b := try (intervals_intersect it cur) in
  if negb b then ret bu else
  let* o := try (interval_intersection_start it cur) in
  let* p := returns o in
  try (set_block_pos bu (reg it) p).

Definition allocate_blocked_reg (current : nat) : L unit :=
  let* c := lookup_node current in
  let* act := get active in
  let* inact := get inactive in
  let* type := try (interval_vm_type (iv c)) in
  let* position := try (interval_start (iv c)) in
  let* use_pos := each_interval (active_use position) act all_free in
  let* use_pos := each_interval (inactive_use (iv c) type position) inact use_pos in
  let* bu := each_interval active_block act (all_free, use_pos) in
  let* bu := each_interval (inactive_block (iv c) type) inact bu in
  let* r := try (pick_register bu.2 type) in
  let* use := try (bu.2 !! Z.to_nat r) in
  let* block := try (bu.1 !! Z.to_nat r) in
  let* next := try (next_use_pos (iv c) 0) in
  if decide (use < next) then
    let* pos := try (next_use_pos (iv c) position) in
    spill_interval current pos
  else
    do update_node current (with_reg r);;
    let* e := try (interval_end (iv c)) in
    do (if decide (block < e) then spill_interval current block else ret tt);;
    spill_all_intervals_intersecting current r.

(** The bodies of the two loops of [try_to_allocate_free_reg]. *)
Definition active_free (it : live_interval) (free : list Z) : L (list Z) := ret (set_free_pos free (reg it) 0).
Definition inactive_free (cur : live_interval) (type : Types.vm_type) (it : live_interval) (free : list Z) : L (list Z) :=
  let* ok := try (reg_supports_type (reg it) type) in
  if negb ok then ret free else
  let* b := try (intervals_intersect it cur) in
  if negb b then ret free else
  let* o := try (interval_intersection_start it cur) in
  let* p := returns o in
  ret (set_free_pos free (reg it) p).

Definition try_to_allocate_free_reg (current : nat) : L unit :=
  let* c := lookup_node current in
  let* act := get active in
  let* inact := get inactive in
  let* free := each_interval active_free act all_free in
  let* type := try (interval_vm_type (iv c)) in
  let* free := each_interval (inactive_free (iv c) type) inact free in
  let* r := try (pick_register free type) in
  let* p := try (free !! Z.to_nat r) in
  if decide (p = 0) then ret tt else
  let* e := try (interval_end (iv c)) in
  if decide (e <= p) then update_node current (with_reg r)
  else do spill_interval current p;; update_node current (with_reg r).

(** The two loops that sort the intervals at [position]: the result is what is left
    on the list gone through, what goes to the other one being put in front. *)
Fixpoint expire_active (ids : list nat) (position : Z) : L (list nat) :=
  match ids with
  | [] => ret []
  | i :: ids' =>
    let* n := lookup_node i in
    let* e := try (interval_end (iv n)) in
    if decide (e <= position) then expire_active ids' position else
    let* it := try (interval_expire_ranges_before (iv n) position) in
    do update_node i (with_iv it);;
    let* b := try (interval_covers it position) in
    if negb b then
      do modify (λ s, with_inactive (i :: inactive s) s);;
      expire_active ids' position
    else
      let* rest := expire_active ids' position in
      ret (i :: rest)
  end.
Fixpoint expire_inactive (ids : list nat) (position : Z) : L (list nat) :=
  match ids with
  | [] => ret []
  | i :: ids' =>
    let* n := lookup_node i in
    let* e := try (interval_end (iv n)) in
    if decide (e <= position) then expire_inactive ids' position else
    let* it := try (interval_expire_ranges_before (iv n) position) in
    do update_node i (with_iv it);;
    let* b := try (interval_covers it position) in
    if b then
      do modify (λ s, with_active (i :: active s) s);;
      expire_inactive ids' position
    else
      let* rest := expire_inactive ids' position in
      ret (i :: rest)
  end.

(** The body of the loop. *)
Definition allocate_interval (current : nat) : L unit :=
  let* c := lookup_node current in
  let* position := try (interval_start (iv c)) in
  let* act := get active in
  let* act := expire_active act position in
  do modify (with_active act);;
  let* inact := get inactive in
  let* inact := expire_inactive inact position in
  do modify (with_inactive inact);;
  let* c := lookup_node current in
  if interval_has_fixed_reg (iv c) then undef else
  do try_to_allocate_free_reg current;;
  let* c := lookup_node current in
  do (if decide (reg (iv c) = MACH_REG_UNASSIGNED) then allocate_blocked_reg current else ret tt);;
  let* c := lookup_node current in
  if decide (reg (iv c) ≠ MACH_REG_UNASSIGNED)
  then modify (λ s, with_active (current :: active s) s) else ret tt.

Definition remove_top : L (option nat) := λ s,
  match pqueue_remove_top (unhandled s) with Some (v, q) => Done v (with_queue q s) | None => Undef end.

(** The loop; without fuel it is undefined. *)
Fixpoint allocate_loop (fuel : nat) : L unit := λ s,
  if pqueue_is_empty (unhandled s) then Done tt s else
  match fuel with
  | O => Undef
  | S fuel' =>
    (let* r := remove_top in
     let* current := try r in
     do allocate_interval current;;
     allocate_loop fuel') s
  end.

(** The loop over the variables that fills the lists. *)
Definition place_variable (var : struct_var_info) : L unit :=
  let* n := lookup_node (interval var) in
  if interval_is_empty (iv n) then ret tt else
  if interval_has_fixed_reg (iv n) then
    if decide (reg (iv n) < Z.of_nat NR_REGISTERS)
    then modify (λ s, with_inactive (interval var :: inactive s) s) else ret tt
  else
    let* start := try (interval_start (iv n)) in
    insert_unhandled start (interval var).

Fixpoint restore_children (fuel : nat) (it : option nat) : L unit :=
  match it with
  | None => ret tt
  | Some i =>
    match fuel with
    | O => undef
    | S fuel' =>
      do update_node i (λ n, with_iv (interval_restore_expired_ranges (iv n)) n);;
      let* n := lookup_node i in
      restore_children fuel' (next_child n)
    end
  end.

(** As many rounds as there are positions are enough. *)
Definition range_size (rs : list live_range) : nat := foldr (λ r n, (Z.to_nat (end_ r - start r) + n)%nat) 0%nat rs.
Definition total_size (ns : list node) : nat := foldr (λ n k, (range_size (range_list (iv n)) + k)%nat) 0%nat ns.

Definition lift_heap {A} (m : M mem unit A) (s : scan) : CMonad.outcome scan unit A :=
  match m (heap s) with Done a h => Done a (with_heap h s) | Fail e h => Fail e (with_heap h s) | Undef => Undef end.

(** From the lists being set up on; the lists live on the stack of the call. *)
Definition allocate_registers (ns : list node) (flags : Z) (h : mem)
  : CMonad.outcome mem unit (Z * list node * Z) :=
  match mem_malloc (16 + align (Z.of_nat NR_REGISTERS) 64 / 8) h with
  | (None, h) => Done (- ENOMEM, ns, flags) h
  | (Some registers, h) =>
    match pqueue_alloc h with
    | Fail _ h =>
      match mem_free registers h with Some h => Done (- ENOMEM, ns, flags) h | None => Undef end
    | Undef => Undef
    | Done q h =>
      match (do for_each place_variable var_infos;;
             do allocate_loop (total_size ns);;
             do lift_heap (free_ptr (Some registers));;
             do for_each (λ var, let* size := get (λ s, length (nodes s)) in
                                 restore_children size (Some (interval var))) var_infos;;
             let* q := get unhandled in
             lift_heap (pqueue_free q)) (Scan ns [] [] q h) with
      | Done _ s => Done (0, nodes s, Z.lor flags 1) (heap s)
      | Fail _ s => Fail tt (heap s)
      | Undef => Undef
      end
    end
  end.
End ops.
