(* ===== verification/LinearScanSpec.v ===== *)
(** * The invariant of the linear scan

    What the allocator maintains while it goes through the intervals: the ranges of
    every interval in order, which intervals are still to be handled, which ones hold
    a register now, and that two intervals with one register do not meet.  The changes
    the allocator makes to the store are the rules of a step relation, for what holds
    of all of them: the children of an interval partition it, and an interval that is
    reloaded has a spilled parent. *)

From S2P Require Import Prelude CMonad Types Interval Pqueue LinearScan.
#[local] Open Scope Z_scope.

(** ** All the ranges of an interval *)

Definition whole (it : live_interval) : list live_range := range_list (interval_restore_expired_ranges it).

Lemma foldl_cons {A} (l acc : list A) : foldl (λ rs r, r :: rs) acc l = reverse l ++ acc.
Proof.
  revert acc. induction l as [|x l IH]; intros acc; [done|]. cbn [foldl]. rewrite IH, reverse_cons. by rewrite <- app_assoc.
Qed.
Lemma whole_eq it : whole it = reverse (expired_range_list it) ++ range_list it.
Proof. apply foldl_cons. Qed.

Lemma ordered_app_right lo rs1 rs2 : ordered_from lo (rs1 ++ rs2) → ∃ lo', lo <= lo' ∧ ordered_from lo' rs2.
Proof.
  revert lo. induction rs1 as [|r rs1 IH]; intros lo; [exists lo; split; [lia|done]|]. cbn. intros (? & ? & ? & Hs).
  destruct (IH _ Hs) as (lo' & ? & ?). exists lo'. split; [lia|done].
Qed.
Lemma ordered_range_list it : ordered (whole it) → ordered (range_list it).
Proof.
  intros Ho. rewrite whole_eq in Ho. destruct (ordered_app_right _ _ _ Ho) as (lo & Hlo & Hs).
  by apply (ordered_weaken lo).
Qed.

(** The first range starts the interval and the last one ends it. *)
Lemma interval_start_some it : range_list it ≠ [] → ∃ s, interval_start it = Some s.
Proof. unfold interval_start. destruct (range_list it); [done|]. cbn. eauto. Qed.
Lemma start_covers lo it s : ordered_from lo (range_list it) → interval_start it = Some s →
  covers (range_list it) s ∧ ∀ p, covers (range_list it) p → s <= p.
Proof.
  unfold interval_start. destruct (range_list it) as [|r rs] eqn:E; [done|]. cbn. intros Ho [= <-]. split.
  - apply covers_cons. left. destruct Ho as (_ & ? & _). lia.
  - intros p. by apply (covers_first lo).
Qed.
Lemma last_range_max lo r rs : ordered_from lo (r :: rs) →
  ∃ l, last_range (r :: rs) = Some l ∧ l ∈ r :: rs ∧ ∀ p, covers (r :: rs) p → p < end_ l.
Proof.
  intros Ho. destruct (last_range_end lo r rs Ho) as (l & El & Hl & Hm). exists l. split_and!; [done..|].
  intros p (r' & Hr' & Hp). specialize (Hm _ Hr'). lia.
Qed.
Lemma interval_end_some it : ordered (range_list it) → range_list it ≠ [] →
  ∃ e, interval_end it = Some e ∧ covers (range_list it) (e - 1) ∧ ∀ p, covers (range_list it) p → p < e.
Proof.
  intros Ho Hne. unfold interval_end. destruct (range_list it) as [|r rs] eqn:E; [done|].
  destruct (last_range_max _ _ _ Ho) as (l & -> & Hl & Hm). exists (end_ l). split_and!; [done| |done].
  exists l. split; [done|]. pose proof (ordered_start _ _ _ Ho Hl). lia.
Qed.

(** A position not before the unexpired ranges is in one of them. *)
Lemma covers_expired it s p : ordered (whole it) → interval_start it = Some s → s <= p →
  covers (whole it) p ↔ covers (range_list it) p.
Proof.
  intros Ho Hs Hp. rewrite whole_eq in *. rewrite covers_app. split; [|tauto]. intros [Hc|Hc]; [|done].
  unfold interval_start in Hs. destruct (range_list it) as [|r rs]; [done|]. injection Hs as <-.
  apply ordered_app in Ho as [Ho _]. pose proof (ordered_app_before _ _ _ _ Ho Hc). lia.
Qed.
Lemma covers_whole it p : covers (range_list it) p → covers (whole it) p.
Proof. rewrite whole_eq, covers_app. tauto. Qed.

(** ** Sizes *)

Lemma range_size_cons r rs : range_size (r :: rs) = (Z.to_nat (end_ r - start r) + range_size rs)%nat.
Proof. done. Qed.
Lemma range_size_app rs1 rs2 : range_size (rs1 ++ rs2) = (range_size rs1 + range_size rs2)%nat.
Proof. induction rs1 as [|r rs1 IH]; [done|]. cbn [app]. rewrite !range_size_cons, IH. lia. Qed.
Lemma range_size_pos lo rs : ordered_from lo rs → rs ≠ [] → (0 < range_size rs)%nat.
Proof. destruct rs as [|r rs]; [done|]. intros (_ & H & _) _. rewrite range_size_cons. lia. Qed.
Lemma cut_size pos rs old new : cut_ranges pos rs old new → (range_size old + range_size new = range_size rs)%nat.
Proof.
  intros (a & r & b & -> & Hr & [(<- & -> & ->)|(Hlt & -> & ->)]); rewrite !range_size_app; [done|].
  rewrite !range_size_cons. cbn [start end_]. change (range_size []) with 0%nat. lia.
Qed.

(** ** Splitting and expiring *)

Lemma cut_whole pos it rs1 rs2 : cut_ranges pos (range_list it) rs1 rs2 →
  cut_ranges pos (whole it) (reverse (expired_range_list it) ++ rs1) rs2.
Proof.
  rewrite whole_eq. intros (a & r & b & -> & Hr & Hc). exists (reverse (expired_range_list it) ++ a), r, b.
  rewrite <- app_assoc. split_and!; [done|lia|lia|].
  destruct Hc as [(? & -> & ->)|(? & -> & ->)]; [by left|right]. by rewrite <- app_assoc.
Qed.

(** What a split makes of an interval that is not fixed. *)
Record split_facts (pos : Z) (it old new : live_interval) : Prop := {
  sf_old_ordered : ordered (whole old);
  sf_new_ordered : ordered (whole new);
  sf_old : ∀ p, covers (whole old) p ↔ covers (whole it) p ∧ p < pos;
  sf_new : ∀ p, covers (whole new) p ↔ covers (whole it) p ∧ pos <= p;
  sf_starts : ∀ r, r ∈ whole it → start r < pos → ∃ r', r' ∈ whole old ∧ start r' = start r;
  sf_size : (range_size (whole old) + range_size (whole new) = range_size (whole it))%nat;
  sf_old_start : interval_start old = interval_start it;
  sf_new_start : interval_start new = Some pos;
  sf_old_expired : expired_range_list old = expired_range_list it;
  sf_new_expired : expired_range_list new = [];
  sf_uses : use_positions old ++ use_positions new ≡ₚ use_positions it;
  sf_old_uses : Forall (λ u, first_pos u < pos) (use_positions old);
  sf_new_uses : Forall (λ u, pos <= first_pos u) (use_positions new);
  sf_var : var_info old = var_info it ∧ var_info new = var_info it;
  sf_reg : reg old = reg it ∧ reg new = MACH_REG_UNASSIGNED;
  sf_flags : flags old = flags it ∧ flags new = 0;
}.

Lemma split_pair_facts pos it old new s : interval_has_fixed_reg it = false →
  ordered (whole it) → Forall use_ok (use_positions it) → interval_start it = Some s → s < pos →
  split_pair pos it old new → split_facts pos it old new.
Proof.
  intros Hf Ho Hu Hs Hlt (rs1 & rs2 & us1 & us2 & Hc & Eu & -> & ->). rewrite Hf.
  pose proof (cut_whole _ _ _ _ Hc) as Hcw. destruct (cut_ranges_spec 0 _ _ _ _ Ho Hcw) as (Hpos & H1 & H2 & H3 & H4).
  pose proof (ordered_covers _ _ _ Ho Hpos) as H0.
  destruct (split_uses_spec (use_positions it) pos [] Hu) as (uold & unew & Eu' & Hp & Huo & Hun).
  rewrite Eu in Eu'. injection Eu' as <- <-. rewrite app_nil_r in Hp. specialize (Hun ltac:(constructor)).
  split; try done.
  - by rewrite whole_eq.
  - rewrite whole_eq. cbn. by apply (ordered_weaken pos).
  - intros p. rewrite whole_eq. exact (H3 p).
  - intros r Hr Hst. rewrite whole_eq. cbn [expired_range_list range_list].
    destruct Hcw as (a & r0 & b & E & Hr0 & Hcase). rewrite E in Hr, Ho. apply ordered_app in Ho as [Ho1 Ho2].
    apply elem_of_app in Hr as [Hr|[->|Hr]%elem_of_cons].
    + exists r. split; [|done]. destruct Hcase as [(_ & -> & _)|(_ & -> & _)]; [done|]. apply elem_of_app. by left.
    + destruct Hcase as [(? & _)|(_ & -> & _)]; [lia|]. exists (LiveRange (start r0) pos). split; [|done].
      apply elem_of_app. right. left.
    + pose proof (ordered_start _ _ _ Ho2 Hr). lia.
  - rewrite (whole_eq (LiveInterval _ rs1 _ _ _ _)), (whole_eq (LiveInterval _ rs2 _ _ _ _)).
    exact (cut_size _ _ _ _ Hcw).
  - unfold interval_start in *. cbn. destruct Hc as (a & r0 & b & E & Hr0 & Hcase). rewrite E in Hs |- *.
    destruct a as [|a0 a]; cbn in Hs |- *.
    + injection Hs as <-. destruct Hcase as [(? & _)|(_ & -> & _)]; [lia|done].
    + by destruct Hcase as [(_ & -> & _)|(_ & -> & _)].
  - unfold interval_start. cbn. destruct Hc as (a & r0 & b & E & Hr0 & [(? & _ & ->)|(_ & _ & ->)]); cbn; [congruence|done].
Qed.

Lemma expire_loop_shape lo r rs expired pos l : ordered_from lo (r :: rs) → start r <= pos →
  last_range (r :: rs) = Some l → pos < end_ l →
  ∃ gone r' rs', expire_loop (r :: rs) expired pos = Some (r' :: rs', reverse gone ++ expired) ∧
    r :: rs = gone ++ r' :: rs' ∧ Forall (λ r, end_ r <= pos) gone ∧ start r' <= pos ∧
    (pos < end_ r' ∨ ¬ covers (r' :: rs') pos).
Proof.
  revert lo r expired. induction rs as [|r1 rs IH]; intros lo r expired Hs Hst Hl Hpos.
  - injection Hl as <-. cbn. unfold in_range. rewrite !bool_decide_eq_true_2 by lia.
    exists [], r, []. split_and!; [done..|constructor|lia|by left].
  - cbn [expire_loop]. destruct (in_range r pos) eqn:E.
    + unfold in_range in E. rewrite andb_true_iff, !bool_decide_eq_true in E.
      exists [], r, (r1 :: rs). split_and!; [done..|constructor|lia|left; lia].
    + assert (end_ r <= pos) as Hend.
      { unfold in_range in E. rewrite bool_decide_eq_true_2 in E by lia. cbn in E. apply bool_decide_eq_false in E. lia. }
      destruct Hs as (H1 & H2 & H3 & H4). cbn [head mbind option_bind]. case_decide as Hc.
      * exists [], r, (r1 :: rs). split_and!; [done..|constructor|lia|right].
        intros [?|Hcv]%covers_cons; [lia|]. pose proof (covers_first _ _ _ _ H4 Hcv). lia.
      * destruct (IH (end_ r) r1 (r :: expired) H4 ltac:(lia) Hl Hpos) as (gone & r' & rs' & Ee & Es & Hg & Hst' & Hcv).
        exists (r :: gone), r', rs'. split_and!; [|by rewrite Es|by constructor|done|done].
        rewrite reverse_cons, <- app_assoc. exact Ee.
Qed.

(** Expiring at [pos]; an interval that covers the position has it in its first
    range. *)
Record expired_to (pos : Z) (it it' : live_interval) : Prop := {
  ex_whole : whole it' = whole it;
  ex_nonempty : range_list it' ≠ [];
  ex_expired : (∀ r, r ∈ expired_range_list it → end_ r <= pos) → ∀ r, r ∈ expired_range_list it' → end_ r <= pos;
  ex_start : (∃ s, interval_start it = Some s ∧ s <= pos) → ∃ s, interval_start it' = Some s ∧ s <= pos;
  ex_first : covers (range_list it') pos → ∃ r, head (range_list it') = Some r ∧ start r <= pos < end_ r;
  ex_end : interval_end it' = interval_end it;
  ex_fields : var_info it' = var_info it ∧ use_positions it' = use_positions it ∧ flags it' = flags it ∧ reg it' = reg it;
}.

Lemma last_range_app rs1 r rs2 : last_range (rs1 ++ r :: rs2) = last_range (r :: rs2).
Proof.
  induction rs1 as [|r1 rs1 IH]; [done|]. cbn [app]. rewrite <- IH. cbn. by destruct (rs1 ++ r :: rs2) eqn:E; [destruct rs1|].
Qed.

Lemma expire_ranges_spec it pos e : ordered (whole it) → range_list it ≠ [] → interval_end it = Some e → pos < e →
  ∃ it', interval_expire_ranges_before it pos = Some it' ∧ expired_to pos it it'.
Proof.
  intros Ho Hne He Hpos. pose proof (ordered_range_list _ Ho) as Hr. unfold interval_expire_ranges_before, interval_first_range.
  rewrite He. unfold interval_end in He. destruct (range_list it) as [|r rs] eqn:E; [done|].
  cbn [head mbind option_bind]. case_decide as Hc.
  - exists it. split; [done|]. split; rewrite ?E; try done. intros Hcv. pose proof (covers_first _ _ _ _ Hr Hcv). lia.
  - destruct (last_range (r :: rs)) as [l|] eqn:El; [|done]. injection He as <-.
    destruct (expire_loop_shape 0 r rs (expired_range_list it) pos l Hr ltac:(lia) El ltac:(lia)) as (gone & r' & rs' & -> & Es & Hg & Hst & Hcv).
    cbn [mbind option_bind]. eexists. split; [done|]. split; try done.
    + rewrite !whole_eq. cbn [expired_range_list range_list with_ranges].
      rewrite reverse_app, reverse_involutive, <- app_assoc. by rewrite E, Es.
    + intros Hex x. cbn [expired_range_list with_ranges]. intros [Hx|Hx]%elem_of_app; [|by apply Hex].
      rewrite elem_of_reverse in Hx. rewrite list.Forall_forall in Hg. by apply Hg.
    + intros _. by exists (start r').
    + intros Hx. exists r'. split; [done|]. destruct Hcv; [lia|done].
    + unfold interval_end. cbn [range_list with_ranges]. by rewrite E, Es, last_range_app.
Qed.

(** ** Intervals and registers *)

(** An interval without the marks for spilling and reloading. *)
Definition core (it : live_interval) : live_interval :=
  LiveInterval (var_info it) (range_list it) (expired_range_list it) (use_positions it)
               (Z.land (flags it) INTERVAL_FLAG_FIXED_REG) (reg it).
Lemma core_fixed it : interval_has_fixed_reg (core it) = interval_has_fixed_reg it.
Proof. unfold interval_has_fixed_reg, core. cbn [flags]. by rewrite <- Z.land_assoc, Z.land_diag. Qed.
Lemma split_facts_core pos it old new : split_facts pos it old new → split_facts pos (core it) (core old) (core new).
Proof.
  intros []. split; try done. destruct sf_flags0 as [E1 E2]. unfold core. cbn [flags]. rewrite E1, E2. done.
Qed.

Definition in_file (r : Z) : Prop := 0 <= r < Z.of_nat NR_REGISTERS.
Definition occupies (it : live_interval) (p : Z) : Prop := covers (whole it) p.
Definition starts_at (it : live_interval) (p : Z) : Prop := ∃ r, r ∈ whole it ∧ start r = p.

(** The two share no position; or neither is fixed and ranges of both start at one
    position not after [P]. *)
Definition conflict_free (P : Z) (a b : live_interval) : Prop :=
  (interval_has_fixed_reg a = false ∧ interval_has_fixed_reg b = false ∧
   ∃ q, q <= P ∧ starts_at a q ∧ starts_at b q) ∨ ∀ p, ¬ (occupies a p ∧ occupies b p).

Lemma conflict_free_sym P a b : conflict_free P a b → conflict_free P b a.
Proof.
  intros [(? & ? & q & ? & ? & ?)|Hn]; [left; eauto 10|right]. intros p [? ?]. by apply (Hn p).
Qed.
Lemma conflict_free_weaken P P' a b : P <= P' → conflict_free P a b → conflict_free P' a b.
Proof.
  intros ? [(? & ? & q & ? & ? & ?)|Hn]; [left|by right]. split_and!; [done..|]. exists q. split_and!; [lia|done..].
Qed.

(** The positions of [a'] are positions of [a], and the starts up to [P] are kept. *)
Definition shrinks (P : Z) (a a' : live_interval) : Prop :=
  interval_has_fixed_reg a' = interval_has_fixed_reg a ∧
  (∀ p, occupies a' p → occupies a p) ∧ (∀ q, q <= P → starts_at a q → starts_at a' q).
Lemma conflict_free_shrinks P a a' b : shrinks P a a' → conflict_free P a b → conflict_free P a' b.
Proof.
  intros (Hf & Hc & Hs) [(? & ? & q & ? & ? & ?)|Hn]; [left|right].
  - split_and!; [congruence|done|]. exists q. auto.
  - intros p [? ?]. apply (Hn p). auto.
Qed.

Section inv.
Context (vars : list struct_var_info).

Definition supports (it : live_interval) (r : Z) : Prop :=
  ∃ t, interval_vm_type vars it = Some t ∧ reg_supports_type r t = Some true.

Record interval_ok (it : live_interval) : Prop := {
  ok_ordered : ordered (whole it);
  ok_bound : ∀ p, occupies it p → p < 2 ^ 31;
  ok_type : interval_has_fixed_reg it = false →
    ∃ t, interval_vm_type vars it = Some t ∧ t ≠ J_VOID ∧ t ≠ J_RETURN_ADDRESS;
  ok_uses : interval_has_fixed_reg it = false →
    ∀ u, u ∈ use_positions it → use_ok u ∧ 1 <= first_pos u ∧ occupies it (first_pos u);
}.

(** At a use there is a register of the type that no fixed interval occupies. *)
Definition room (its : list live_interval) : Prop :=
  ∀ i it u, its !! i = Some it → interval_has_fixed_reg it = false → u ∈ use_positions it →
  ∃ r, supports it r ∧ ∀ j f, its !! j = Some f → interval_has_fixed_reg f = true → reg f = r → ¬ occupies f (first_pos u).

(** Not seen by the scan yet. *)
Record fresh (P : Z) (it : live_interval) : Prop := {
  fr_fixed : interval_has_fixed_reg it = false;
  fr_expired : expired_range_list it = [];
  fr_start : ∃ s, interval_start it = Some s ∧ P <= s;
}.
(** Holding a register. *)
Record listed (P : Z) (it : live_interval) : Prop := {
  li_nonempty : range_list it ≠ [];
  li_reg : in_file (reg it);
  li_expired : ∀ r, r ∈ expired_range_list it → end_ r <= P;
  li_start : interval_has_fixed_reg it = false → supports it (reg it) ∧ ∃ s, interval_start it = Some s ∧ s <= P;
}.

(** At position [P], with the intervals [pend] in hand, [lists] those active or
    inactive and [Q] the queue of the others. *)
Record inv (P : Z) (pend lists : list nat) (its : list live_interval) (Q : list (pqueue_node nat)) : Prop := {
  i_ok : ∀ i it, its !! i = Some it → interval_ok it;
  i_room : room its;
  i_ids : NoDup (pend ++ (value <$> Q));
  i_pend : ∀ i, i ∈ pend → ∃ it, its !! i = Some it ∧ fresh P it;
  i_queue : ∀ e, e ∈ Q → ∃ it, its !! value e = Some it ∧ fresh P it ∧ interval_start it = Some (key e) ∧
    reg it = MACH_REG_UNASSIGNED ∧ use_positions it ≠ [];
  i_nodup : NoDup lists;
  i_lists : ∀ i, i ∈ lists → (i ∉ pend) ∧ ∃ it, its !! i = Some it ∧ listed P it;
  i_handled : ∀ i it, i ∉ pend → its !! i = Some it → in_file (reg it) → i ∈ lists ∨ ∀ p, occupies it p → p < P;
  i_uses : ∀ i it, i ∉ pend → i ∉ (value <$> Q) → its !! i = Some it → interval_has_fixed_reg it = false →
    use_positions it ≠ [] → in_file (reg it) ∧ supports it (reg it);
  i_disjoint : ∀ i j a b, i ≠ j → i ∉ pend → j ∉ pend → its !! i = Some a → its !! j = Some b →
    reg a = reg b → in_file (reg a) → conflict_free P a b;
}.

Lemma fresh_weaken P P' it : P' <= P → fresh P it → fresh P' it.
Proof. intros ? [? ? (s & ? & ?)]. split; [done..|]. exists s. split; [done|lia]. Qed.
Lemma listed_weaken P P' it : P <= P' → listed P it → listed P' it.
Proof.
  intros ? [? ? He Hs]. split; [done..| |].
  - intros r Hr. specialize (He r Hr). lia.
  - intros Hf. destruct (Hs Hf) as (? & s & ? & ?). split; [done|]. exists s. split; [done|lia].
Qed.
Lemma unassigned_not_in_file : ¬ in_file MACH_REG_UNASSIGNED.
Proof. unfold in_file, MACH_REG_UNASSIGNED, NR_REGISTERS. lia. Qed.

(** The queue matters up to the order of its elements. *)
#[export] Instance inv_perm P pend lists its : Proper ((≡ₚ) ==> iff) (inv P pend lists its).
Proof.
  assert (∀ Q Q', Q ≡ₚ Q' → inv P pend lists its Q → inv P pend lists its Q') as H.
  { intros Q Q' HQ []. split; try done.
    - by rewrite <- HQ.
    - intros e He. rewrite <- HQ in He. auto.
    - intros i it Hi Hq. rewrite <- HQ in Hq. eauto. }
  intros Q Q' HQ. split; apply H; [done|by symmetry].
Qed.

(** An interval in hand goes to the queue. *)
Lemma inv_queue P i pend lists its Q it k : inv P (i :: pend) lists its Q → its !! i = Some it →
  reg it = MACH_REG_UNASSIGNED → use_positions it ≠ [] → interval_start it = Some k →
  inv P pend lists its (PqueueNode k i :: Q).
Proof.
  intros [] Ei Hr Hu Hk. split; try done.
  - rewrite fmap_cons, <- Permutation_middle. exact i_ids0.
  - intros j Hj. apply i_pend0. by right.
  - intros e [->|He]%elem_of_cons; [|by apply i_queue0]. cbn. destruct (i_pend0 i ltac:(left)) as (it' & E & Hf). naive_solver.
  - intros j Hj. destruct (i_lists0 j Hj) as [Hn ?]. split; [|done]. intros ?. apply Hn. by right.
  - intros j a Hj Ej Hin. destruct (decide (j = i)) as [->|Hne].
    + exfalso. apply unassigned_not_in_file. congruence.
    + apply (i_handled0 j a); [|done..]. rewrite elem_of_cons. tauto.
  - intros j a Hj Hq. rewrite fmap_cons, elem_of_cons in Hq. cbn in Hq. apply i_uses0; [|tauto]. rewrite elem_of_cons. tauto.
  - intros j l a b Hne Hj Hl Ej El Hreg Hin.
    destruct (decide (j = i)) as [->|]; [exfalso; apply unassigned_not_in_file; congruence|].
    destruct (decide (l = i)) as [->|]; [exfalso; apply unassigned_not_in_file; congruence|].
    apply (i_disjoint0 j l); [done|rewrite elem_of_cons; tauto..|done|done|done|done].
Qed.

(** An interval in hand without uses is left without a register. *)
Lemma inv_drop P i pend lists its Q it : inv P (i :: pend) lists its Q → its !! i = Some it →
  reg it = MACH_REG_UNASSIGNED → use_positions it = [] → inv P pend lists its Q.
Proof.
  intros [] Ei Hr Hu. split; try done.
  - cbn in i_ids0. by inversion i_ids0.
  - intros j Hj. apply i_pend0. by right.
  - intros j Hj. destruct (i_lists0 j Hj) as [Hn ?]. split; [|done]. intros ?. apply Hn. by right.
  - intros j a Hj Ej Hin. destruct (decide (j = i)) as [->|Hne].
    + exfalso. apply unassigned_not_in_file. congruence.
    + apply (i_handled0 j a); [|done..]. rewrite elem_of_cons. tauto.
  - intros j a Hj Hq Ej Hf Hne. destruct (decide (j = i)) as [->|]; [congruence|].
    apply (i_uses0 j a); [|done..]. rewrite elem_of_cons. tauto.
  - intros j l a b Hne Hj Hl Ej El Hreg Hin.
    destruct (decide (j = i)) as [->|]; [exfalso; apply unassigned_not_in_file; congruence|].
    destruct (decide (l = i)) as [->|]; [exfalso; apply unassigned_not_in_file; congruence|].
    apply (i_disjoint0 j l); [done|rewrite elem_of_cons; tauto..|done|done|done|done].
Qed.

(** An interval in hand gets a register that nothing else keeps it from having. *)
Lemma inv_assign P i pend lists its Q it : inv P (i :: pend) lists its Q → its !! i = Some it →
  interval_start it = Some P → in_file (reg it) → supports it (reg it) →
  (∀ j b, j ≠ i → j ∉ pend → its !! j = Some b → reg b = reg it → conflict_free P it b) →
  inv P pend (i :: lists) its Q.
Proof.
  intros [] Ei Hs Hr Hsup Hcf.
  assert (i ∉ pend ++ (value <$> Q)) as Hi by (cbn in i_ids0; by inversion i_ids0).
  split; try done.
  - cbn in i_ids0. by inversion i_ids0.
  - intros j Hj. apply i_pend0. by right.
  - constructor; [|done]. intros Hin. destruct (i_lists0 i Hin) as [Hn _]. apply Hn. left.
  - intros j [->|Hj]%elem_of_cons.
    + split; [rewrite elem_of_app in Hi; tauto|]. exists it. split; [done|].
      destruct (i_pend0 i ltac:(left)) as (it' & E & [Hf He _]). assert (it' = it) as -> by congruence.
      split; [|done|rewrite He; intros r Hx; by apply elem_of_nil in Hx|].
      * unfold interval_start in Hs. by destruct (range_list it).
      * intros _. split; [done|]. exists P. split; [done|lia].
    + destruct (i_lists0 j Hj) as [Hn ?]. split; [|done]. intros ?. apply Hn. by right.
  - intros j a Hj Ej Hin. destruct (decide (j = i)) as [->|Hne]; [left; left|].
    destruct (i_handled0 j a) as [?|?]; [rewrite elem_of_cons; tauto|done|done|left; by right|by right].
  - intros j a Hj Hq Ej Hf Hne. destruct (decide (j = i)) as [->|].
    + assert (a = it) as -> by congruence. done.
    + apply (i_uses0 j a); [|done..]. rewrite elem_of_cons. tauto.
  - intros j l a b Hne Hj Hl Ej El Hreg Hin. destruct (decide (j = i)) as [->|Hji]; [|destruct (decide (l = i)) as [->|Hli]].
    + assert (a = it) as -> by congruence. by apply (Hcf l).
    + assert (b = it) as -> by congruence. apply conflict_free_sym. by apply (Hcf j).
    + apply (i_disjoint0 j l); [done|rewrite elem_of_cons; tauto..|done|done|done|done].
Qed.

(** The scan goes on to the next interval. *)
Lemma inv_next P lists its top Q : inv P [] lists its (top :: Q) → (∀ e, e ∈ top :: Q → key top <= key e) →
  P <= key top ∧ inv (key top) [value top] lists its Q.
Proof.
  intros [] Hmin. destruct (i_queue0 top ltac:(left)) as (it & Ei & Hf & Hs & Hr & Hu).
  assert (P <= key top) as HP by (destruct Hf as [_ _ (s & E & ?)]; rewrite Hs in E; by injection E as ->).
  split; [done|]. split; try done.
  - intros i [->|Hn]%elem_of_cons; [|by apply elem_of_nil in Hn]. exists it. split; [done|].
    destruct Hf. split; [done..|]. exists (key top). split; [done|lia].
  - intros e He. destruct (i_queue0 e ltac:(by right)) as (ie & Ee & Hfe & Hse & ? & ?). exists ie. split_and!; try done.
    destruct Hfe. split; [done..|]. exists (key e). split; [done|]. apply Hmin. by right.
  - intros i Hi. destruct (i_lists0 i Hi) as [_ (a & Ea & Ha)]. split.
    + intros [->|Hn]%elem_of_cons; [|by apply elem_of_nil in Hn].
      destruct Ha as [_ Ha _ _]. apply unassigned_not_in_file. congruence.
    + exists a. split; [done|]. by apply (listed_weaken P).
  - intros i a Hi Ei' Hin. destruct (i_handled0 i a (not_elem_of_nil _) Ei' Hin) as [?|Hlt]; [by left|right].
    intros p Hp. specialize (Hlt p Hp). lia.
  - intros i a Hi Hq. apply i_uses0; [apply not_elem_of_nil|]. rewrite fmap_cons, elem_of_cons.
    intros [->|?]; [apply Hi; left|done].
  - intros i j a b Hne _ _ Ea Eb Hreg Hin. apply (conflict_free_weaken P); [done|].
    apply (i_disjoint0 i j); (apply not_elem_of_nil || done).
Qed.

(** ** Changes of one interval *)

Lemma supports_var a b r : var_info a = var_info b → supports a r → supports b r.
Proof. intros E (t & Ht & Hr). exists t. split; [|done]. unfold interval_vm_type in *. by rewrite <- E. Qed.

Definition split_list (i : nat) (old new : live_interval) (its : list live_interval) : list live_interval :=
  <[i := old]> its ++ [new].
Lemma split_list_lookup i old new its j x : is_Some (its !! i) → split_list i old new its !! j = Some x →
  (j = i ∧ x = old) ∨ (j = length its ∧ x = new) ∨ (j ≠ i ∧ j ≠ length its ∧ its !! j = Some x).
Proof.
  intros Hi%lookup_lt_is_Some. unfold split_list. intros Hj. apply lookup_app_Some in Hj as [Hj|[Hl Hj]].
  - destruct (decide (j = i)) as [->|]; [rewrite list_lookup_insert_eq in Hj by done; left; naive_solver|].
    rewrite list_lookup_insert_ne in Hj by done. apply lookup_lt_Some in Hj as Hlt. right. right. split_and!; [done|lia|done].
  - rewrite length_insert in *. apply list_lookup_singleton_Some in Hj as [Hj ->]. right. left. split; [lia|done].
Qed.
Lemma split_list_old i old new its : is_Some (its !! i) → split_list i old new its !! i = Some old.
Proof.
  intros Hi%lookup_lt_is_Some. unfold split_list. rewrite lookup_app_l by (by rewrite length_insert).
  by apply list_lookup_insert_eq.
Qed.
Lemma split_list_new i old new its : split_list i old new its !! length its = Some new.
Proof. unfold split_list. rewrite lookup_app_r by (by rewrite length_insert). by rewrite length_insert, Nat.sub_diag. Qed.
Lemma split_list_other i old new its j : j ≠ i → (j < length its)%nat → split_list i old new its !! j = its !! j.
Proof. intros Hj Hl. unfold split_list. rewrite lookup_app_l by (by rewrite length_insert). by apply list_lookup_insert_ne. Qed.

Section split.
Context {P pos : Z} {it old new : live_interval} (Hf : interval_has_fixed_reg it = false) (Hsf : split_facts pos it old new).

Lemma split_old_fixed : interval_has_fixed_reg old = false.
Proof. destruct Hsf, sf_flags0 as [E _]. unfold interval_has_fixed_reg in *. by rewrite E. Qed.
Lemma split_new_fixed : interval_has_fixed_reg new = false.
Proof. destruct Hsf, sf_flags0 as [_ E]. unfold interval_has_fixed_reg. by rewrite E. Qed.
Lemma split_uses_elem u :
  (u ∈ use_positions old → u ∈ use_positions it ∧ first_pos u < pos) ∧ (u ∈ use_positions new → u ∈ use_positions it ∧ pos <= first_pos u).
Proof.
  destruct Hsf. rewrite <- sf_uses0, elem_of_app. rewrite list.Forall_forall in sf_old_uses0, sf_new_uses0.
  split; intros Hu; split; auto.
Qed.
Lemma split_interval_ok : interval_ok it → interval_ok old ∧ interval_ok new.
Proof.
  intros [Ho Hb Ht Hu]. pose proof split_uses_elem as Hel. destruct Hsf, sf_var0 as [V1 V2].
  destruct (Ht Hf) as (t & Et & Ht').
  split; split; try done; unfold occupies in *.
  - intros p Hp%sf_old0. apply Hb. tauto.
  - intros _. exists t. split; [|done]. unfold interval_vm_type in *. by rewrite V1.
  - intros _ u Hx. destruct (Hel u) as [H1 _]. destruct (H1 Hx) as [Hin Hlt]. destruct (Hu Hf u Hin) as (? & ? & ?).
    split_and!; [done..|]. by apply sf_old0.
  - intros p Hp%sf_new0. apply Hb. tauto.
  - intros _. exists t. split; [|done]. unfold interval_vm_type in *. by rewrite V2.
  - intros _ u Hx. destruct (Hel u) as [_ H1]. destruct (H1 Hx) as [Hin Hlt]. destruct (Hu Hf u Hin) as (? & ? & ?).
    split_and!; [done..|]. by apply sf_new0.
Qed.
Lemma split_room i its : its !! i = Some it → room its → room (split_list i old new its).
Proof.
  intros Ei Hroom. pose proof split_uses_elem as Hel. pose proof split_old_fixed as F1. pose proof split_new_fixed as F2.
  assert (∀ a u, (a = it ∨ var_info a = var_info it) → u ∈ use_positions it →
    ∃ r, supports a r ∧ ∀ j f, split_list i old new its !! j = Some f → interval_has_fixed_reg f = true → reg f = r → ¬ occupies f (first_pos u)) as Hit.
  { intros a u Ha Hu. destruct (Hroom i it u Ei Hf Hu) as (r & Hs & Hr). exists r. split.
    - eapply supports_var; [|exact Hs]. destruct Ha as [->|]; done.
    - intros j f [(-> & ->)|[(-> & ->)|(_ & _ & Ej)]]%split_list_lookup; [congruence|congruence|by apply (Hr j)|eauto]. }
  destruct Hsf, sf_var0 as [V1 V2]. intros j a u [(-> & ->)|[(-> & ->)|(_ & _ & Ej)]]%split_list_lookup Hfa Hu; [..|eauto].
  - apply Hit; [by right|]. destruct (Hel u). tauto.
  - apply Hit; [by right|]. destruct (Hel u). tauto.
  - destruct (Hroom j a u Ej Hfa Hu) as (r & Hs & Hr). exists r. split; [done|].
    intros l f [(-> & ->)|[(-> & ->)|(_ & _ & El)]]%split_list_lookup; [congruence|congruence|by apply (Hr l)|eauto].
Qed.
Lemma split_shrinks : (∀ q, q <= P → starts_at it q → q < pos) → shrinks P it old.
Proof.
  intros Hst. split_and!; [by rewrite split_old_fixed, Hf| |].
  - intros p Hp. destruct Hsf. by apply sf_old0 in Hp as [? _].
  - intros q Hq Hs. pose proof (Hst q Hq Hs). destruct Hs as (r & Hr & <-). destruct Hsf.
    destruct (sf_starts0 r Hr) as (r' & Hr' & E); [lia|]. by exists r'.
Qed.
End split.

Lemma inv_split {P pend lists its Q i it old new s pos} : inv P pend lists its Q → its !! i = Some it →
  interval_has_fixed_reg it = false → i ∉ (value <$> Q) → interval_start it = Some s → s < pos → P <= pos →
  (∀ q, q <= P → starts_at it q → q < pos) → split_facts pos it old new →
  inv P (length its :: pend) lists (split_list i old new its) Q.
Proof.
  intros [] Ei Hf Hq Hs Hlt HP Hst Hsf. pose proof (split_shrinks (P := P) Hf Hsf Hst) as Hsh.
  pose proof (split_room Hf Hsf i its Ei i_room0) as Hroom. destruct (split_interval_ok Hf Hsf (i_ok0 i it Ei)) as [Ok1 Ok2].
  pose proof (split_old_fixed Hf Hsf) as F1. pose proof (split_new_fixed Hsf) as F2. pose proof (split_uses_elem Hsf) as Hel.
  assert (is_Some (its !! i)) as His by eauto.
  assert (∀ j, is_Some (its !! j) → j ≠ length its) as Hlen by (intros j [x Hx%lookup_lt_Some]; lia).
  assert (∀ j a, its !! j = Some a → ∃ a', split_list i old new its !! j = Some a' ∧ ((j = i ∧ a' = old) ∨ (j ≠ i ∧ a' = a))) as Hlk.
  { intros j a Ej. destruct (decide (j = i)) as [->|Hne]; [exists old; split; [by apply split_list_old|by left]|].
    exists a. split; [|by right]. rewrite split_list_other; [done..|]. by eapply lookup_lt_Some. }
  destruct Hsf. split; try done.
  - intros j x [(-> & ->)|[(-> & ->)|(_ & _ & Ej)]]%split_list_lookup; eauto.
  - cbn. constructor; [|done]. rewrite elem_of_app, list_elem_of_fmap. intros [Hin|(e & E & He)].
    + destruct (i_pend0 _ Hin) as (? & E & _). by apply (Hlen (length its)).
    + destruct (i_queue0 _ He) as (? & E' & _). rewrite <- E in E'. by apply (Hlen (length its)).
  - intros j [->|Hj]%elem_of_cons.
    + exists new. split; [apply split_list_new|]. split; [done..|]. exists pos. split; [done|lia].
    + destruct (i_pend0 j Hj) as (a & Ej & Hfr). destruct (Hlk j a Ej) as (a' & Ea & [(-> & ->)|(_ & ->)]); [|eauto].
      exists old. split; [done|]. assert (a = it) as -> by congruence. destruct Hfr. split; [done|congruence|]. by rewrite sf_old_start0.
  - intros e He. destruct (i_queue0 e He) as (a & Ea & ?). destruct (Hlk _ a Ea) as (a' & Ea' & [(E & ->)|(_ & ->)]); [|eauto].
    exfalso. apply Hq. rewrite <- E. by apply list_elem_of_fmap_2.
  - intros j Hj. destruct (i_lists0 j Hj) as (Hn & a & Ea & Hli). destruct (Hlk _ a Ea) as (a' & Ea' & Hc). split.
    + rewrite elem_of_cons. intros [->|?]; [|done]. by apply (Hlen (length its)).
    + exists a'. split; [done|]. destruct Hc as [(-> & ->)|(_ & ->)]; [|done]. assert (a = it) as -> by congruence.
      destruct Hli as [Hne Hr He Hls], sf_reg0 as [R1 _], sf_var0 as [V1 _].
      split; [|by rewrite R1|by rewrite sf_old_expired0|].
      * unfold interval_start in *. rewrite Hs in sf_old_start0. by destruct (range_list old).
      * intros _. rewrite R1, sf_old_start0. destruct (Hls Hf) as [Hsup ?]. split; [|done]. by eapply supports_var.
  - intros j a Hj [(-> & ->)|[(-> & ->)|(_ & _ & Ej)]]%split_list_lookup Hin; [|exfalso; apply Hj; left| |done].
    + destruct sf_reg0 as [R1 _]. rewrite R1 in Hin. rewrite elem_of_cons in Hj.
      destruct (i_handled0 i it) as [?|Hp]; [tauto|done..|by left|right]. intros p Hp'. apply Hp. by apply Hsh.
    + apply (i_handled0 j a); [|done..]. rewrite elem_of_cons in Hj. tauto.
  - intros j a Hj Hjq [(-> & ->)|[(-> & ->)|(_ & _ & Ej)]]%split_list_lookup Hfa Hu; [|exfalso; apply Hj; left| |done].
    + destruct sf_reg0 as [R1 _], sf_var0 as [V1 _]. rewrite R1. rewrite elem_of_cons in Hj.
      destruct (i_uses0 i it) as [? Hsup]; [tauto|done..| |split; [done|by eapply supports_var]].
      intros E. destruct (use_positions old) as [|u us] eqn:Eu; [done|]. destruct (Hel u) as [H1 _].
      destruct H1 as [H1 _]; [left|]. rewrite E in H1. by apply elem_of_nil in H1.
    + apply (i_uses0 j a); [|done..]. rewrite elem_of_cons in Hj. tauto.
  - destruct sf_reg0 as [R1 _].
    intros j l a b Hne Hj Hl [(-> & ->)|[(-> & ->)|(Hji & _ & Ej)]]%split_list_lookup Hlb Hreg Hin; [|exfalso; apply Hj; left| |done];
      (apply split_list_lookup in Hlb as [(-> & ->)|[(-> & ->)|(Hli & _ & El)]]; [|exfalso; apply Hl; left| |done]);
      rewrite elem_of_cons in Hj, Hl.
    + done.
    + apply (conflict_free_shrinks P it); [done|]. rewrite R1 in *. apply (i_disjoint0 i l); (done || tauto).
    + apply conflict_free_sym, (conflict_free_shrinks P it), conflict_free_sym; [done|]. apply (i_disjoint0 j i); (congruence || done || tauto).
    + apply (i_disjoint0 j l); (done || tauto).
Qed.

(** Equal but for the register and for which ranges are expired. *)
Record same_face (a b : live_interval) : Prop := {
  face_whole : whole b = whole a;
  face_fixed : interval_has_fixed_reg b = interval_has_fixed_reg a;
  face_uses : use_positions b = use_positions a;
  face_var : var_info b = var_info a;
}.
Lemma face_ok a b : same_face a b → interval_ok a → interval_ok b.
Proof.
  intros [Hw Hf Hu Hv] [Ho Hb Ht Hus]. unfold occupies in *. split; unfold occupies; rewrite ?Hw, ?Hf, ?Hu; try done.
  unfold interval_vm_type in *. by rewrite Hv.
Qed.
Lemma face_conflict P a b c : same_face a b → conflict_free P a c → conflict_free P b c.
Proof.
  intros [Hw Hf _ _]. apply conflict_free_shrinks. unfold shrinks, occupies, starts_at. by rewrite Hw, Hf.
Qed.
Lemma face_room i its a b : its !! i = Some a → same_face a b → (interval_has_fixed_reg a = true → reg b = reg a) →
  room its → room (<[i := b]> its).
Proof.
  intros Ei [Hw Hf Hu Hv] Hreg Hroom j x u Ej Hfx Hux.
  assert (∃ x', its !! j = Some x' ∧ interval_has_fixed_reg x' = false ∧ u ∈ use_positions x' ∧ var_info x = var_info x') as (x' & Ej' & Hfx' & Hux' & Hvx').
  { destruct (decide (j = i)) as [->|].
    - rewrite list_lookup_insert_eq in Ej by (by eapply lookup_lt_Some). injection Ej as <-. exists a. split_and!; congruence.
    - rewrite list_lookup_insert_ne in Ej by done. by exists x. }
  destruct (Hroom j x' u Ej' Hfx' Hux') as (r & Hs & Hr). exists r. split; [by eapply supports_var|].
  intros l f El Hff Erf. destruct (decide (l = i)) as [->|].
  - rewrite list_lookup_insert_eq in El by (by eapply lookup_lt_Some). injection El as <-. unfold occupies. rewrite Hw.
    apply (Hr i a Ei); [congruence|]. rewrite <- Hreg by congruence. done.
  - rewrite list_lookup_insert_ne in El by done. by apply (Hr l).
Qed.

Lemma inv_replace {P pend lists its Q i a b} : inv P pend lists its Q → its !! i = Some a → same_face a b →
  (i ∈ pend → fresh P b) → (i ∈ lists → listed P b) → i ∉ (value <$> Q) → ((i ∈ pend) ∨ reg b = reg a) →
  inv P pend lists (<[i := b]> its) Q.
Proof.
  intros Hinv Ei Hface Hp Hl Hq Hr. pose proof Hinv as [].
  assert (∀ j x, <[i := b]> its !! j = Some x → ∃ x', its !! j = Some x' ∧ same_face x' x ∧ ((j ≠ i ∧ x' = x) ∨ (j = i ∧ x' = a ∧ x = b))) as Hlk.
  { intros j x Ej. destruct (decide (j = i)) as [->|].
    - rewrite list_lookup_insert_eq in Ej by (by eapply lookup_lt_Some). injection Ej as <-. exists a. eauto 10.
    - rewrite list_lookup_insert_ne in Ej by done. exists x. split_and!; [done|by split|by left]. }
  assert (∀ j, j ≠ i → <[i := b]> its !! j = its !! j) as Hne by (intros; by apply list_lookup_insert_ne).
  assert (<[i := b]> its !! i = Some b) as Heq by (apply list_lookup_insert_eq; by eapply lookup_lt_Some).
  assert (∀ j x x', j ∉ pend → (j ≠ i ∧ x' = x) ∨ (j = i ∧ x' = a ∧ x = b) → reg x' = reg x) as Hreg.
  { intros j x x' Hj [[_ ->]|(-> & -> & ->)]; [done|]. by destruct Hr. }
  split; try done.
  - intros j x (x' & Ej & Hf & _)%Hlk. eapply face_ok; eauto.
  - apply (face_room i its a); [done..| |done]. intros Hfx. destruct Hr as [Hin|]; [|done].
    destruct (i_pend0 i Hin) as (x & E & Hfr). destruct Hfr. congruence.
  - intros j Hj. destruct (decide (j = i)) as [->|]; [eauto|]. rewrite Hne by done. auto.
  - intros e He. rewrite Hne; [auto|]. intros <-. apply Hq. by apply list_elem_of_fmap_2.
  - intros j Hj. destruct (i_lists0 j Hj) as [Hn Hx]. split; [done|]. destruct (decide (j = i)) as [->|]; [eauto|]. by rewrite Hne.
  - intros j x Hj (x' & Ej & Hf & Hc)%Hlk Hin. rewrite <- (Hreg j x x' Hj Hc) in Hin.
    destruct Hf as [Hw _ _ _]. unfold occupies in *. rewrite Hw. eauto.
  - intros j x Hj Hjq (x' & Ej & Hf & Hc)%Hlk Hfx Hu. rewrite <- (Hreg j x x' Hj Hc). destruct Hf as [_ H1 H2 H3].
    destruct (i_uses0 j x' Hj Hjq Ej) as [? ?]; [congruence..|]. split; [done|]. by eapply supports_var.
  - intros j l x y Hjl Hj Hlp (x' & Ej & Hf & Hc)%Hlk (y' & El & Hf' & Hc')%Hlk Exy Hin.
    rewrite <- (Hreg j x x' Hj Hc) in Exy, Hin. rewrite <- (Hreg l y y' Hlp Hc') in Exy.
    eapply face_conflict; [exact Hf|]. apply conflict_free_sym. eapply face_conflict; [exact Hf'|]. apply conflict_free_sym. eauto.
Qed.

(** The order of the lists does not matter either. *)
#[export] Instance inv_lists_perm : Proper ((=) ==> (≡ₚ) ==> (≡ₚ) ==> (=) ==> (=) ==> iff) inv.
Proof.
  assert (∀ P pend pend' l l' its Q, pend ≡ₚ pend' → l ≡ₚ l' → inv P pend l its Q → inv P pend' l' its Q) as H.
  { intros P pend pend' l l' its Q Hp Hl []. split; try done.
    - by rewrite <- Hp.
    - intros i Hi. rewrite <- Hp in Hi. auto.
    - by rewrite <- Hl.
    - intros i Hi. rewrite <- Hl in Hi. rewrite <- Hp. auto.
    - intros i it Hi Ei Hr. rewrite <- Hl. rewrite <- Hp in Hi. eauto.
    - intros i it Hi. rewrite <- Hp in Hi. eauto.
    - intros i j a b Hne Hi Hj. rewrite <- Hp in Hi, Hj. eauto. }
  intros ? P -> pend pend' Hp l l' Hl ? its -> ? Q ->. split; apply H; (done || by symmetry).
Qed.

(** An interval that has ended goes off the lists. *)
Lemma inv_ended {P pend i lists its Q it} : inv P pend (i :: lists) its Q → its !! i = Some it →
  (∀ p, occupies it p → p < P) → inv P pend lists its Q.
Proof.
  intros [] Ei Hp. split; try done.
  - by inversion i_nodup0.
  - intros j Hj. apply i_lists0. by right.
  - intros j a Hj Ea Hr. destruct (decide (j = i)) as [->|]; [right; by simplify_eq|].
    destruct (i_handled0 j a Hj Ea Hr) as [[?|?]%elem_of_cons|?]; [done|by left|by right].
Qed.
End inv.
