(* ===== verification/LinearScanStore.v ===== *)
(** * The store of the linear scan

    The children of an interval form a chain that partitions it, its positions and its
    uses; an interval that is reloaded has a spilled parent of its variable.  Both hold
    under the three changes the allocator makes to the store: a split, the marks of a
    spill, and a new register or other expired ranges for one interval. *)

From Stdlib Require Import Sorting.Sorted.
From S2P Require Import Prelude CMonad Types Interval Pqueue LinearScan LinearScanSpec.
#[local] Open Scope Z_scope.

(** ** Chains *)

(** The intervals from a place on, following [next_child]. *)
Inductive chain (ns : list node) : option nat → list nat → list live_interval → Prop :=
  | chain_nil : chain ns None [] []
  | chain_cons i n c parts : ns !! i = Some n → chain ns (next_child n) c parts →
    chain ns (Some i) (i :: c) (iv n :: parts).

(** [a] ends before [b] starts. *)
Definition before (a b : live_interval) : Prop := ∀ p q, occupies a p → occupies b q → p < q.

Record partition (it : live_interval) (parts : list live_interval) : Prop := {
  pt_covers : ∀ p, occupies it p ↔ ∃ x, x ∈ parts ∧ occupies x p;
  pt_sorted : StronglySorted before parts;
  pt_uses : (parts ≫= use_positions) ≡ₚ use_positions it;
  pt_same : ∀ x, x ∈ parts → var_info x = var_info it ∧ interval_has_fixed_reg x = interval_has_fixed_reg it;
}.

(** Every interval of the store is in the chain of one of the first intervals. *)
Definition linked (its0 : list live_interval) (ns : list node) : Prop :=
  ∃ cs, length cs = length its0 ∧ concat cs ≡ₚ seq 0 (length ns) ∧
    ∀ k c it, cs !! k = Some c → its0 !! k = Some it → ∃ parts, chain ns (Some k) c parts ∧ partition it parts.

Definition reload_ok (ns : list node) : Prop := ∀ i n, ns !! i = Some n → interval_needs_reload (iv n) = true →
  ∃ j m, spill_parent n = Some j ∧ ns !! j = Some m ∧ interval_needs_spill (iv m) = true ∧ var_info (iv m) = var_info (iv n).

Record store_ok (its0 : list live_interval) (ns : list node) : Prop := {
  st_linked : linked its0 ns;
  st_reload : reload_ok ns;
}.

Lemma chain_lookup ns o c parts i : chain ns o c parts → i ∈ c → is_Some (ns !! i).
Proof. induction 1; [intros Hn; by apply elem_of_nil in Hn|]. intros [->|?]%elem_of_cons; eauto. Qed.
Lemma chain_parts ns o c parts i n : chain ns o c parts → i ∈ c → ns !! i = Some n → iv n ∈ parts.
Proof.
  induction 1; [intros Hn; by apply elem_of_nil in Hn|]. intros [->|?]%elem_of_cons E; [simplify_eq; left|right; auto].
Qed.
Lemma chain_elem ns o c parts x : chain ns o c parts → x ∈ parts → ∃ i n, i ∈ c ∧ ns !! i = Some n ∧ iv n = x.
Proof.
  induction 1 as [|i n c parts E Hc IH]; [intros Hn; by apply elem_of_nil in Hn|].
  intros [->|Hx]%elem_of_cons; [exists i, n; split_and!; [left|done..]|].
  destruct (IH Hx) as (j & m & ? & ? & ?). exists j, m. split_and!; [by right|done..].
Qed.

(** ** A split *)

Definition split_nodes (i : nat) (n : node) (old new : live_interval) (ns : list node) : list node :=
  <[i := Node old (Some (length ns)) (prev_child n) (spill_parent n)]> ns ++ [Node new (next_child n) (Some i) None].

Section split.
Context (ns : list node) (i : nat) (n : node) (old new : live_interval) (Ei : ns !! i = Some n).
Abbreviation ns' := (split_nodes i n old new ns).

Lemma split_nodes_lookup j m : ns' !! j = Some m →
  (j = i ∧ m = Node old (Some (length ns)) (prev_child n) (spill_parent n)) ∨
  (j = length ns ∧ m = Node new (next_child n) (Some i) None) ∨ (j ≠ i ∧ j ≠ length ns ∧ ns !! j = Some m).
Proof.
  intros Hj. pose proof (lookup_lt_Some _ _ _ Ei) as Hi. unfold split_nodes in Hj. apply lookup_app_Some in Hj as [Hj|[Hl Hj]].
  - destruct (decide (j = i)) as [->|]; [rewrite list_lookup_insert_eq in Hj by done; left; naive_solver|].
    rewrite list_lookup_insert_ne in Hj by done. apply lookup_lt_Some in Hj as Hlt. right. right. split_and!; [done|lia|done].
  - rewrite length_insert in *. apply list_lookup_singleton_Some in Hj as [Hj ->]. right. left. split; [lia|done].
Qed.
Lemma split_nodes_old : ns' !! i = Some (Node old (Some (length ns)) (prev_child n) (spill_parent n)).
Proof.
  pose proof (lookup_lt_Some _ _ _ Ei) as Hi. unfold split_nodes. rewrite lookup_app_l by (by rewrite length_insert).
  by apply list_lookup_insert_eq.
Qed.
Lemma split_nodes_new : ns' !! length ns = Some (Node new (next_child n) (Some i) None).
Proof. unfold split_nodes. rewrite lookup_app_r by (by rewrite length_insert). by rewrite length_insert, Nat.sub_diag. Qed.
Lemma split_nodes_other j m : j ≠ i → ns !! j = Some m → ns' !! j = Some m.
Proof.
  intros Hj Em. pose proof (lookup_lt_Some _ _ _ Em). unfold split_nodes. rewrite lookup_app_l by (by rewrite length_insert).
  by rewrite list_lookup_insert_ne.
Qed.
Lemma split_nodes_length : length ns' = S (length ns).
Proof. unfold split_nodes. rewrite length_app, length_insert. cbn. lia. Qed.
Lemma split_nodes_cores f : f <$> (iv <$> ns') = split_list i (f old) (f new) (f <$> (iv <$> ns)).
Proof.
  unfold split_nodes, split_list. rewrite !fmap_app, !list_fmap_insert. done.
Qed.

Lemma chain_other o c parts : chain ns o c parts → i ∉ c → chain ns' o c parts.
Proof.
  induction 1 as [|j m c parts Em Hc IH]; intros Hi; [constructor|]. rewrite elem_of_cons in Hi.
  econstructor; [apply split_nodes_other; [naive_solver|done]|]. apply IH. tauto.
Qed.
Lemma chain_split o c parts : chain ns o c parts → NoDup c → i ∈ c →
  ∃ c1 c2 p1 p2, c = c1 ++ i :: c2 ∧ parts = p1 ++ iv n :: p2 ∧
    chain ns' o (c1 ++ i :: length ns :: c2) (p1 ++ old :: new :: p2).
Proof.
  induction 1 as [|j m c parts Em Hc IH]; intros Hnd Hi; [by apply elem_of_nil in Hi|].
  apply list.NoDup_cons in Hnd as [Hj Hnd]. destruct (decide (j = i)) as [->|Hne].
  - assert (m = n) as -> by congruence. exists [], c, [], parts. split_and!; [done..|]. cbn.
    apply (chain_cons ns' i _ (length ns :: c) (new :: parts) split_nodes_old).
    apply (chain_cons ns' (length ns) _ c parts split_nodes_new). cbn. by apply chain_other.
  - apply elem_of_cons in Hi as [?|Hi]; [congruence|]. destruct (IH Hnd Hi) as (c1 & c2 & p1 & p2 & -> & -> & Hch).
    exists (j :: c1), c2, (iv m :: p1), p2. split_and!; [done..|]. cbn. econstructor; [|done]. by apply split_nodes_other.
Qed.
End split.

Lemma sorted_app {A} (R : A → A → Prop) l1 l2 :
  StronglySorted R (l1 ++ l2) ↔ StronglySorted R l1 ∧ StronglySorted R l2 ∧ ∀ x y, x ∈ l1 → y ∈ l2 → R x y.
Proof.
  induction l1 as [|x l1 IH]; cbn.
  - split; [intros; split_and!; [constructor|done|]; intros x y Hx; by apply elem_of_nil in Hx|tauto].
  - split.
    + intros Hs. apply StronglySorted_inv in Hs as [Hs Hx]. apply IH in Hs as (H1 & H2 & H3). rewrite list.Forall_forall in Hx.
      split_and!; [constructor; [done|]|done|].
      * apply list.Forall_forall. intros y Hy. apply Hx, elem_of_app. by left.
      * intros y z [->|Hy]%elem_of_cons Hz; [apply Hx, elem_of_app; by right|auto].
    + intros (H1 & H2 & H3). apply StronglySorted_inv in H1 as [H1 Hx]. constructor.
      * apply IH. split_and!; [done..|]. intros y z Hy. apply H3. by right.
      * rewrite list.Forall_forall in Hx |- *. intros y [Hy|Hy]%elem_of_app; [auto|]. apply H3; [left|done].
Qed.

Lemma partition_split pos a old new it p1 p2 : partition it (p1 ++ a :: p2) → split_facts pos a old new →
  interval_has_fixed_reg old = interval_has_fixed_reg a → interval_has_fixed_reg new = interval_has_fixed_reg a →
  partition it (p1 ++ old :: new :: p2).
Proof.
  intros [Hc Hs Hu Hv] [] F1 F2.
  assert (∀ p, occupies a p ↔ occupies old p ∨ occupies new p) as Ha.
  { intros p. unfold occupies. rewrite sf_old, sf_new. destruct (decide (p < pos)); split; [|tauto| |tauto]; intros; [left|right]; (split; [done|lia]). }
  split.
  - intros p. rewrite Hc. split.
    + intros (x & Hx & Hp). rewrite elem_of_app, elem_of_cons in Hx. destruct Hx as [Hx|[->|Hx]].
      * exists x. rewrite elem_of_app. tauto.
      * apply Ha in Hp as [Hp|Hp]; [exists old|exists new]; rewrite elem_of_app, !elem_of_cons; tauto.
      * exists x. rewrite elem_of_app, !elem_of_cons. tauto.
    + intros (x & Hx & Hp). rewrite elem_of_app, !elem_of_cons in Hx. destruct Hx as [Hx|[->|[->|Hx]]].
      * exists x. rewrite elem_of_app. tauto.
      * exists a. rewrite elem_of_app, elem_of_cons, Ha. tauto.
      * exists a. rewrite elem_of_app, elem_of_cons, Ha. tauto.
      * exists x. rewrite elem_of_app, !elem_of_cons. tauto.
  - apply sorted_app in Hs as (H1 & H2 & H3). apply StronglySorted_inv in H2 as [H2 H4]. rewrite list.Forall_forall in H4.
    apply sorted_app. split_and!; [done| |].
    + constructor; [constructor; [done|]|]; apply list.Forall_forall.
      * intros y Hy p q Hp. apply (H4 y Hy). apply Ha. by right.
      * intros y [->|Hy]%elem_of_cons p q Hp Hq; [apply sf_old in Hp as [_ ?]; apply sf_new in Hq as [_ ?]; lia|].
        apply (H4 y Hy); [|done]. apply Ha. by left.
    + intros x y Hx Hy p q Hp Hq. rewrite !elem_of_cons in Hy.
      destruct Hy as [->|[->|Hy]]; [apply (H3 x a)..|apply (H3 x y)]; try done; rewrite ?elem_of_cons, ?Ha; tauto.
  - rewrite <- Hu, !bind_app. cbn. rewrite <- sf_uses. by rewrite <- !app_assoc.
  - destruct sf_var as [V1 V2]. intros x Hx. destruct (Hv a) as [E1 E2]; [apply elem_of_app; right; left|].
    rewrite elem_of_app, !elem_of_cons in Hx. destruct Hx as [Hx|[->|[->|Hx]]]; [|split; congruence..|];
      apply Hv; rewrite elem_of_app, elem_of_cons; tauto.
Qed.

Lemma concat_replace {A} (cs : list (list A)) k c c' : cs !! k = Some c → concat (<[k := c']> cs) ++ c ≡ₚ concat cs ++ c'.
Proof.
  revert k. induction cs as [|x cs IH]; intros [|k] E; cbn in *; try done.
  - injection E as ->. rewrite <- !app_assoc. rewrite (Permutation_app_comm (concat cs) c), (Permutation_app_comm (concat cs) c').
    rewrite !app_assoc. by rewrite (Permutation_app_comm c' c).
  - rewrite <- !app_assoc. by rewrite IH.
Qed.

Lemma linked_split its0 ns i n old new pos : linked its0 ns → ns !! i = Some n →
  interval_has_fixed_reg (iv n) = false → split_facts pos (iv n) old new → linked its0 (split_nodes i n old new ns).
Proof.
  intros (cs & Hl & Hp & Hch) Ei Hf Hsf. pose proof (lookup_lt_Some _ _ _ Ei) as Hi.
  assert (NoDup (concat cs)) as Hnd by (rewrite Hp; apply NoDup_seq).
  assert (i ∈ concat cs) as Hin by (rewrite Hp; apply elem_of_seq; lia).
  apply list_elem_of_In, in_concat in Hin as (c & Hc & Hic). apply list_elem_of_In, list_elem_of_lookup in Hc as [k Ek].
  apply list_elem_of_In in Hic.
  destruct (its0 !! k) as [it|] eqn:Eit.
  2: { apply lookup_ge_None in Eit. apply lookup_lt_Some in Ek. lia. }
  assert (∀ c, c ∈ cs → NoDup c) as Hnds.
  { clear -Hnd. induction cs as [|x cs IH]; intros c Hc; [by apply elem_of_nil in Hc|]. cbn in Hnd.
    apply list.NoDup_app in Hnd as (H1 & _ & H2). apply elem_of_cons in Hc as [->|Hc]; auto. }
  assert (∀ l c', cs !! l = Some c' → i ∈ c' → l = k) as Huniq.
  { intros l c' El Hi'. destruct (decide (l = k)) as [|Hne]; [done|exfalso].
    pose proof (concat_replace cs k c [] Ek) as Hperm. rewrite app_nil_r in Hperm. rewrite <- Hperm in Hnd.
    apply list.NoDup_app in Hnd as (_ & Hd & _). apply (Hd i); [|done]. apply list_elem_of_In, in_concat. exists c'.
    split; apply list_elem_of_In; [|done]. apply list_elem_of_lookup. exists l. by rewrite list_lookup_insert_ne. }
  destruct (Hch k c it Ek Eit) as (parts & Hcp & Hpt).
  destruct (chain_split ns i n old new Ei _ c parts Hcp (Hnds c ltac:(by eapply list_elem_of_lookup_2)) Hic)
    as (c1 & c2 & p1 & p2 & -> & -> & Hch').
  exists (<[k := c1 ++ i :: length ns :: c2]> cs). split_and!.
  - by rewrite length_insert.
  - rewrite split_nodes_length, seq_S, <- Hp. cbn.
    pose proof (concat_replace cs k _ (c1 ++ i :: length ns :: c2) Ek) as Hperm.
    apply (Permutation_app_inv_r (c1 ++ i :: c2)). rewrite Hperm. rewrite <- app_assoc. apply Permutation_app_head.
    rewrite (Permutation_app_comm [length ns]), <- app_assoc. apply Permutation_app_head. cbn. constructor.
    by rewrite Permutation_cons_append.
  - intros l c' it' El Eit'. destruct (decide (l = k)) as [->|Hne].
    + rewrite list_lookup_insert_eq in El by (by eapply lookup_lt_Some). injection El as <-. simplify_eq.
      eexists. split; [exact Hch'|]. eapply partition_split; [done|done|..]; rewrite Hf;
        [by eapply split_old_fixed|by eapply split_new_fixed].
    + rewrite list_lookup_insert_ne in El by done. destruct (Hch l c' it' El Eit') as (parts' & Hcp' & Hpt').
      exists parts'. split; [|done]. apply chain_other; [done..|]. intros Hi'. apply Hne. by eapply Huniq.
Qed.

Lemma reload_split ns i n old new pos : reload_ok ns → ns !! i = Some n → split_facts pos (iv n) old new →
  reload_ok (split_nodes i n old new ns).
Proof.
  intros Hr Ei Hsf.
  assert (∀ j m, ns !! j = Some m → ∃ m', split_nodes i n old new ns !! j = Some m' ∧
    flags (iv m') = flags (iv m) ∧ var_info (iv m') = var_info (iv m)) as Hkeep.
  { intros j m Ej. destruct (decide (j = i)) as [->|]; [|exists m; split; [by apply split_nodes_other|done]].
    eexists. split; [by apply split_nodes_old|]. simplify_eq. cbn. destruct Hsf. tauto. }
  assert (∀ m', interval_needs_reload (iv m') = true →
    (∃ j m, ns !! j = Some m ∧ interval_needs_reload (iv m) = true ∧ spill_parent m' = spill_parent m ∧ var_info (iv m') = var_info (iv m)) →
    ∃ j m, spill_parent m' = Some j ∧ split_nodes i n old new ns !! j = Some m ∧ interval_needs_spill (iv m) = true ∧ var_info (iv m) = var_info (iv m')) as Hstep.
  { intros m' Hre (j & m & Ej & Hm & Hp & Hv). destruct (Hr j m Ej Hm) as (l & q & Hq & El & Hsp & Hvq).
    destruct (Hkeep l q El) as (q' & Eq' & Hfl & Hv'). exists l, q'. split_and!; [congruence|done| |congruence].
    unfold interval_needs_spill in *. by rewrite Hfl. }
  intros j m' [(-> & ->)|[(-> & ->)|(_ & _ & Ej)]]%split_nodes_lookup Hre; [..|done].
  - apply Hstep; [done|]. exists i, n. cbn in *. destruct Hsf. split_and!; [done| |done|tauto].
    unfold interval_needs_reload in *. by rewrite (proj1 sf_flags) in Hre.
  - cbn in Hre. destruct Hsf. unfold interval_needs_reload in Hre. by rewrite (proj2 sf_flags) in Hre.
  - apply Hstep; [done|]. eauto 10.
Qed.

Lemma store_split {its0 ns i n old new pos} : store_ok its0 ns → ns !! i = Some n →
  interval_has_fixed_reg (iv n) = false → split_facts pos (iv n) old new → store_ok its0 (split_nodes i n old new ns).
Proof. intros [] Ei Hf Hsf. split; [by eapply linked_split|by eapply reload_split]. Qed.

(** ** Changes that keep the links *)

Record updated (ns ns' : list node) : Prop := {
  up_length : length ns' = length ns;
  up_node : ∀ j m, ns !! j = Some m → ∃ m', ns' !! j = Some m' ∧ next_child m' = next_child m ∧ same_face (iv m) (iv m');
}.

Lemma chain_updated ns ns' o c parts : updated ns ns' → chain ns o c parts →
  ∃ parts', chain ns' o c parts' ∧ Forall2 same_face parts parts'.
Proof.
  intros Hu. induction 1 as [|j m c parts Em Hc (parts' & Hc' & Hf)]; [exists []; split; constructor|].
  destruct (up_node _ _ Hu j m Em) as (m' & Em' & Hn & Hface). exists (iv m' :: parts'). split; [|by constructor].
  econstructor; [done|]. by rewrite Hn.
Qed.
Lemma face_sym a b : same_face a b → same_face b a.
Proof. intros []. by split. Qed.
Lemma face_before a b a' b' : same_face a a' → same_face b b' → before a b → before a' b'.
Proof. intros [Ha _ _ _] [Hb _ _ _] H p q. unfold occupies. rewrite Ha, Hb. apply H. Qed.
Lemma partition_face it parts parts' : Forall2 same_face parts parts' → partition it parts → partition it parts'.
Proof.
  intros Hf [Hc Hs Hu Hv]. split.
  - intros p. rewrite Hc. split; intros (x & Hx & Hp).
    + apply list_elem_of_lookup in Hx as [k Ek]. destruct (Forall2_lookup_l _ _ _ _ _ Hf Ek) as (y & Ey & [Hw _ _ _]).
      exists y. split; [by eapply list_elem_of_lookup_2|]. unfold occupies. by rewrite Hw.
    + apply list_elem_of_lookup in Hx as [k Ek]. destruct (Forall2_lookup_r _ _ _ _ _ Hf Ek) as (y & Ey & [Hw _ _ _]).
      exists y. split; [by eapply list_elem_of_lookup_2|]. unfold occupies in *. by rewrite <- Hw.
  - clear -Hf Hs. induction Hf as [|x y l l' Hxy Hf IH]; [done|]. apply StronglySorted_inv in Hs as [Hs Hx].
    constructor; [auto|]. clear -Hf Hx Hxy. induction Hf as [|a b l l' Hab Hf IH]; [constructor|].
    apply Forall_cons_1 in Hx as [H1 H2]. constructor; [|auto]. by eapply face_before.
  - rewrite <- Hu. clear -Hf. induction Hf as [|x y l l' Hxy Hf IH]; [done|]. cbn. rewrite IH. by destruct Hxy as [_ _ -> _].
  - intros x Hx. apply list_elem_of_lookup in Hx as [k Ek]. destruct (Forall2_lookup_r _ _ _ _ _ Hf Ek) as (y & Ey & [_ Hf1 _ Hv1]).
    rewrite Hf1, Hv1. apply Hv. by eapply list_elem_of_lookup_2.
Qed.
Lemma linked_updated its0 ns ns' : updated ns ns' → linked its0 ns → linked its0 ns'.
Proof.
  intros Hu (cs & Hl & Hp & Hch). exists cs. split_and!; [done|by rewrite (up_length _ _ Hu)|].
  intros k c it Ek Eit. destruct (Hch k c it Ek Eit) as (parts & Hc & Hpt).
  destruct (chain_updated _ _ _ _ _ Hu Hc) as (parts' & Hc' & Hf). exists parts'. split; [done|]. by eapply partition_face.
Qed.

(** Another register, or other expired ranges. *)
Lemma store_set {its0 ns i n it} : store_ok its0 ns → ns !! i = Some n → same_face (iv n) it → flags it = flags (iv n) →
  store_ok its0 (<[i := with_iv it n]> ns).
Proof.
  intros [Hlk Hr] Ei Hface Hfl. pose proof (lookup_lt_Some _ _ _ Ei) as Hi.
  assert (∀ j m, ns !! j = Some m → ∃ m', <[i := with_iv it n]> ns !! j = Some m' ∧ next_child m' = next_child m ∧
    same_face (iv m) (iv m') ∧ flags (iv m') = flags (iv m) ∧ spill_parent m' = spill_parent m) as Hn.
  { intros j m Ej. destruct (decide (j = i)) as [->|].
    - rewrite list_lookup_insert_eq by done. simplify_eq. eexists. split; [done|]. done.
    - rewrite list_lookup_insert_ne by done. exists m. split_and!; [done..|by split|done|done]. }
  split.
  - eapply linked_updated; [|done]. split; [by rewrite length_insert|]. intros j m Ej. destruct (Hn j m Ej) as (m' & ? & ? & ? & _). eauto.
  - intros j m' Ej Hre. destruct (ns !! j) as [m|] eqn:Em.
    2: { apply lookup_ge_None in Em. apply lookup_lt_Some in Ej. rewrite length_insert in Ej. lia. }
    destruct (Hn j m Em) as (m'' & E & _ & Hfm & Hflm & Hpm). simplify_eq.
    destruct (Hr j m Em) as (l & q & Hq & El & Hsp & Hv); [unfold interval_needs_reload in *; by rewrite <- Hflm|].
    destruct (Hn l q El) as (q' & Eq & _ & Hfq & Hflq & _). exists l, q'. split_and!; [congruence|done| |].
    + unfold interval_needs_spill in *. by rewrite Hflq.
    + destruct Hfm as [_ _ _ ->], Hfq as [_ _ _ ->]. done.
Qed.

(** The marks of a spill: nothing else changes, no spill mark goes, and an interval is
    reloaded from where it was or from a spilled interval of its variable. *)
Record marked (ns ns' : list node) : Prop := {
  mk_length : length ns' = length ns;
  mk_node : ∀ j m, ns !! j = Some m → ∃ m', ns' !! j = Some m' ∧ next_child m' = next_child m ∧ core (iv m') = core (iv m) ∧
    (interval_needs_spill (iv m) = true → interval_needs_spill (iv m') = true);
  mk_reload : ∀ j m', ns' !! j = Some m' → interval_needs_reload (iv m') = true →
    (∃ m, ns !! j = Some m ∧ interval_needs_reload (iv m) = true ∧ spill_parent m' = spill_parent m) ∨
    ∃ l q, spill_parent m' = Some l ∧ ns' !! l = Some q ∧ interval_needs_spill (iv q) = true ∧ var_info (iv q) = var_info (iv m');
}.
Lemma core_face a b : core b = core a → same_face a b.
Proof.
  intros E. split.
  - change (whole (core b) = whole (core a)). by rewrite E.
  - by rewrite <- core_fixed, E, core_fixed.
  - change (use_positions (core b) = use_positions (core a)). by rewrite E.
  - change (var_info (core b) = var_info (core a)). by rewrite E.
Qed.
Lemma store_marked {its0 ns ns'} : store_ok its0 ns → marked ns ns' → store_ok its0 ns'.
Proof.
  intros [Hlk Hr] [Hl Hn Hre]. split.
  - eapply linked_updated; [|done]. split; [done|]. intros j m Ej. destruct (Hn j m Ej) as (m' & ? & ? & ? & _).
    exists m'. split_and!; [done..|by apply core_face].
  - intros j m' Ej Hrm. destruct (Hre j m' Ej Hrm) as [(m & Em & Hm & Hp)|?]; [|done].
    destruct (Hr j m Em Hm) as (l & q & Hq & El & Hsp & Hv). destruct (Hn l q El) as (q' & Eq & _ & Hc & Hs).
    destruct (Hn j m Em) as (m'' & E & _ & Hc' & _). assert (m'' = m') as -> by congruence.
    exists l, q'. split_and!; [congruence|done|auto|].
    destruct (core_face _ _ Hc) as [_ _ _ ->], (core_face _ _ Hc') as [_ _ _ ->]. done.
Qed.
Lemma marked_cores ns ns' : marked ns ns' → core <$> (iv <$> ns') = core <$> (iv <$> ns).
Proof.
  intros [Hl Hn _]. apply list_eq. intros j. rewrite !list_lookup_fmap. destruct (ns !! j) as [m|] eqn:E.
  - destruct (Hn j m E) as (m' & -> & _ & Hc & _). cbn. by rewrite Hc.
  - apply lookup_ge_None in E. rewrite <- Hl in E. apply lookup_ge_None in E. by rewrite E.
Qed.

(** A chain is no longer than the store. *)
Lemma linked_chain its0 ns i n : linked its0 ns → ns !! i = Some n →
  ∃ c parts, chain ns (next_child n) c parts ∧ NoDup (i :: c) ∧ (length c < length ns)%nat.
Proof.
  intros (cs & Hl & Hp & Hch) Ei. pose proof (lookup_lt_Some _ _ _ Ei) as Hi.
  assert (i ∈ concat cs) as Hin by (rewrite Hp; apply elem_of_seq; lia).
  apply list_elem_of_In, in_concat in Hin as (c & Hc & Hic). apply list_elem_of_In, list_elem_of_lookup in Hc as [k Ek].
  apply list_elem_of_In in Hic. destruct (its0 !! k) as [it|] eqn:Eit.
  2: { apply lookup_ge_None in Eit. apply lookup_lt_Some in Ek. lia. }
  destruct (Hch k c it Ek Eit) as (parts & Hcp & _).
  assert (NoDup c ∧ (length c <= length ns)%nat) as [Hnd Hlen].
  { pose proof (concat_replace cs k c [] Ek) as Hperm. rewrite app_nil_r, Hp in Hperm. split.
    - assert (NoDup (concat (<[k:=[]]> cs) ++ c)) as Hnd by (rewrite Hperm; apply NoDup_seq). by apply list.NoDup_app in Hnd as (_ & _ & ?).
    - apply Permutation_length in Hperm. rewrite length_app, length_seq in Hperm. lia. }
  assert (∃ c2 p2, chain ns (next_child n) c2 p2 ∧ (i :: c2) `suffix_of` c) as (c2 & p2 & Hc2 & [pre ->]).
  { clear -Hcp Hic Ei. induction Hcp as [|j m c parts Em Hc IH]; [by apply elem_of_nil in Hic|].
    destruct (decide (j = i)) as [->|]; [simplify_eq; eauto|]. apply elem_of_cons in Hic as [?|Hic]; [congruence|].
    destruct (IH Hic) as (c2 & p2 & ? & [pre ->]). exists c2, p2. split; [done|]. by exists (j :: pre). }
  exists c2, p2. split_and!; [done| |].
  - by apply list.NoDup_app in Hnd as (_ & _ & ?).
  - rewrite length_app in Hlen. cbn in Hlen. lia.
Qed.
