(* ===== verification/LinearScanSpill.v ===== *)
(** * Spilling an interval in the linear scan

    The state of the allocator between its steps ([sinv]) and what a spill does to it:
    the interval is cut at the position, the rest of it goes back to the queue from its
    next use on, and nothing else changes but marks.  The measure that bounds the work
    of the allocator is the length of the queue and the number of cuts that are still
    possible. *)

From S2P Require Import Prelude CMonad Types Interval Pqueue LinearScan LinearScanSpec LinearScanStore.
#[local] Open Scope Z_scope.

(** ** The state *)

Definition cores (s : scan) : list live_interval := core <$> (iv <$> nodes s).
Lemma cores_lookup s i n : nodes s !! i = Some n → cores s !! i = Some (core (iv n)).
Proof. intros E. unfold cores. by rewrite !list_lookup_fmap, E. Qed.
Lemma cores_lookup_inv s i x : cores s !! i = Some x → ∃ n, nodes s !! i = Some n ∧ x = core (iv n).
Proof. unfold cores. rewrite !list_lookup_fmap. destruct (nodes s !! i) as [n|]; [|done]. intros [= <-]. eauto. Qed.
Lemma cores_length s : length (cores s) = length (nodes s).
Proof. unfold cores. by rewrite !length_fmap. Qed.

(** The cuts that are possible. *)
Definition cuts (ns : list node) : nat := foldr (λ n k, (range_size (whole (iv n)) - 1 + k)%nat) 0%nat ns.
Lemma cuts_cons n ns : cuts (n :: ns) = (range_size (whole (iv n)) - 1 + cuts ns)%nat.
Proof. done. Qed.
Lemma cuts_app ns1 ns2 : cuts (ns1 ++ ns2) = (cuts ns1 + cuts ns2)%nat.
Proof. induction ns1 as [|n ns1 IH]; [done|]. cbn [app]. rewrite !cuts_cons, IH. lia. Qed.
Lemma cuts_insert ns i n n' : ns !! i = Some n →
  (cuts (<[i := n']> ns) + (range_size (whole (iv n)) - 1) = cuts ns + (range_size (whole (iv n')) - 1))%nat.
Proof.
  revert i. induction ns as [|m ns IH]; intros [|i] E; cbn in E; try done.
  - injection E as ->. change (<[0%nat:=n']> (n :: ns)) with (n' :: ns). rewrite !cuts_cons. lia.
  - change (<[S i:=n']> (m :: ns)) with (m :: <[i:=n']> ns). rewrite !cuts_cons. specialize (IH _ E). lia.
Qed.
Lemma cuts_cores s s' : cores s' = cores s → cuts (nodes s') = cuts (nodes s).
Proof.
  unfold cores. generalize (nodes s'). generalize (nodes s). induction l as [|n ns IH]; intros [|n' ns'] E; try done.
  rewrite !fmap_cons in E. apply (f_equal head) in E as E1. apply (f_equal tail) in E as E2. cbn [head tail] in E1, E2.
  rewrite !cuts_cons, (IH _ E2). destruct (core_face (iv n) (iv n')) as [-> _ _ _]; congruence.
Qed.

(** ** Positions of uses and the queue *)

Definition at_pos (u : use_position) (p : Z) : Prop := ∃ ps, get_lir_positions u = Some ps ∧ p ∈ ps.
Lemma at_first u : use_ok u → at_pos u (first_pos u).
Proof. intros Hu. destruct (use_positions_of u Hu) as [ps E]. exists (first_pos u :: ps). split; [done|left]. Qed.
Lemma at_after u p : use_ok u → at_pos u p → first_pos u <= p.
Proof.
  unfold at_pos, use_ok, first_pos, get_lir_positions. intros Hu (ps & E & Hp).
  destruct Hu as [K|[K|K]]; rewrite K in *; cbn in *; injection E as <-;
    repeat (apply elem_of_cons in Hp as [->|Hp]; [lia || (case_decide; lia)|]); by apply elem_of_nil in Hp.
Qed.

Lemma min_fold ps pos m : let f := λ m p : Z, if decide (p < pos) then m else if decide (p < m) then p else m in
  foldl f m ps <= m ∧ (foldl f m ps = m ∨ (foldl f m ps ∈ ps ∧ pos <= foldl f m ps)) ∧
  ∀ p, p ∈ ps → pos <= p → foldl f m ps <= p.
Proof.
  intros f. revert m. induction ps as [|q ps IH]; intros m; cbn [foldl].
  - split_and!; [lia|by left|]. intros p Hp. by apply elem_of_nil in Hp.
  - destruct (IH (f m q)) as (H1 & H2 & H3). assert (f m q <= m ∧ (pos <= q → f m q <= q) ∧ (f m q = m ∨ (f m q = q ∧ pos <= q))) as (F1 & F2 & F3).
    { unfold f. repeat case_decide; lia. }
    split_and!; [lia| |].
    + destruct H2 as [H2|[H2 ?]]; [|right; split; [by right|done]]. rewrite H2 in *.
      destruct F3 as [->|[-> ?]]; [by left|right; split; [left|lia]].
    + intros p [->|Hp]%elem_of_cons Hpos; [specialize (F2 Hpos); lia|auto].
Qed.

Lemma next_use_loop_spec us pos m : Forall use_ok us →
  ∃ m', next_use_loop us pos m = Some m' ∧ m' <= m ∧
    (m' = m ∨ ∃ u, u ∈ us ∧ at_pos u m' ∧ pos <= m') ∧ ∀ u p, u ∈ us → at_pos u p → pos <= p → m' <= p.
Proof.
  revert m. induction us as [|u us IH]; intros m Hu.
  - exists m. split_and!; [done|lia|by left|]. intros u p Hn. by apply elem_of_nil in Hn.
  - apply Forall_cons_1 in Hu as [Hu Hus]. destruct (at_first u Hu) as (ps & Eps & _). cbn [next_use_loop]. rewrite Eps. cbn [mbind option_bind].
    pose proof (min_fold ps pos m) as (F1 & F2 & F3). cbv zeta in F1, F2, F3. set (m1 := foldl _ m ps) in *.
    destruct (IH m1 Hus) as (m' & E & H1 & H2 & H3). exists m'. split_and!; [done|lia| |].
    + destruct H2 as [->|(v & Hv & ? & ?)]; [|right; exists v; split_and!; [by right|done..]].
      destruct F2 as [?|[? ?]]; [by left|right]. exists u. split_and!; [left|by exists ps|done].
    + intros v p [->|Hv]%elem_of_cons Hp Hpos; [|eauto]. destruct Hp as (ps' & E' & Hp). simplify_eq. specialize (F3 p Hp Hpos). lia.
Qed.

(** The next use of an interval whose uses are not before [pos]. *)
Lemma next_use_first it pos : Forall use_ok (use_positions it) → use_positions it ≠ [] →
  (∀ u, u ∈ use_positions it → pos <= first_pos u < LONG_MAX) →
  ∃ m, next_use_pos it pos = Some m ∧ (∃ u, u ∈ use_positions it ∧ first_pos u = m) ∧
    ∀ u, u ∈ use_positions it → m <= first_pos u.
Proof.
  intros Hok Hne Hpos. destruct (next_use_loop_spec (use_positions it) pos LONG_MAX Hok) as (m & E & H1 & H2 & H3).
  rewrite list.Forall_forall in Hok. exists m. split; [done|].
  assert (∀ u, u ∈ use_positions it → m <= first_pos u) as Hmin.
  { intros u Hu. apply (H3 u); [done|by apply at_first, Hok|]. by apply Hpos. }
  split; [|done]. destruct H2 as [->|(u & Hu & Hp & _)].
  - destruct (use_positions it) as [|u us] eqn:Eu; [done|]. specialize (Hmin u ltac:(left)). specialize (Hpos u ltac:(left)). lia.
  - exists u. split; [done|]. specialize (Hmin u Hu). pose proof (at_after u m (Hok u Hu) Hp). lia.
Qed.

Lemma contents_length {V} (pq : pqueue V) : pq_ok pq → size pq = Z.of_nat (S (length (contents pq))).
Proof.
  intros [Hs Hg _]. unfold contents. assert (length (omap id (elems (count pq) (Pqueue.cells pq))) = count pq) as ->.
  2: { unfold count. lia. }
  assert (∀ l : list (option (pqueue_node V)), Forall is_Some l → length (omap id l) = length l) as Hl.
  { induction 1 as [|x l [y ->] Hl IH]; [done|]. cbn. by rewrite IH. }
  destruct Hg as [E|[Hlen Hfill _]]; [unfold count; by rewrite E|]. rewrite Hl.
  - unfold elems. rewrite length_take, length_drop. lia.
  - apply Forall_lookup_2. intros k x Ek. assert (k < count pq)%nat as Hk.
    { apply lookup_lt_Some in Ek. unfold elems in Ek. rewrite length_take in Ek. lia. }
    rewrite elems_lookup in Ek by done. destruct (Hfill (S k)) as [y Ey]; [lia|]. rewrite Ey in Ek. injection Ek as <-. eauto.
Qed.

Section scan.
Context `{Allocator} (Hall : ∀ n sz, malloc_ok n sz = true).
Context (vars : list struct_var_info) (its0 : list live_interval) (regs : block).

Record sinv (N : nat) (P : Z) (pend lists : list nat) (s : scan) : Prop := {
  s_inv : inv vars P pend lists (cores s) (contents (unhandled s));
  s_store : store_ok its0 (nodes s);
  s_pq : pq_ok (unhandled s);
  s_mem : ∃ L, m_live (heap s) = pq_owns (unhandled s) ⊎ ({[+ regs +]} ⊎ L);
  s_meas : (length (contents (unhandled s)) + cuts (nodes s) <= N)%nat;
  s_bound : Z.of_nat N + 2 < 2 ^ 31;
}.

Abbreviation queued s := (value <$> contents (unhandled s)).

(** ** Single steps *)

Lemma wp_lookup_node i n Q R s : nodes s !! i = Some n → Q n s → wp (lookup_node i) Q R s.
Proof. intros E HQ. unfold wp, lookup_node. by rewrite E. Qed.
Lemma wp_try {A} (o : option A) a Q R s : o = Some a → Q a s → wp (try o) Q R s.
Proof. by intros ->. Qed.

Lemma insert_alter (f : node → node) (i : nat) n (ns : list node) : ns !! i = Some n → <[i := f n]> ns = alter f i ns.
Proof.
  intros E. apply list_eq. intros j. destruct (decide (i = j)) as [<-|Hne].
  - rewrite list_lookup_insert_eq by (by eapply lookup_lt_Some). by rewrite list_lookup_alter_eq, E.
  - rewrite list_lookup_insert_ne by done. by rewrite list_lookup_alter_ne.
Qed.
Lemma wp_update_node i n f Q R s : nodes s !! i = Some n → Q tt (with_nodes (alter f i (nodes s)) s) →
  wp (update_node i f) Q R s.
Proof. intros E HQ. unfold wp, update_node. rewrite E. by rewrite (insert_alter f i n). Qed.

Lemma wp_split N P pend lists s i n pos s0 : sinv N P pend lists s → nodes s !! i = Some n →
  interval_has_fixed_reg (iv n) = false → i ∉ queued s → interval_start (iv n) = Some s0 → s0 < pos → P <= pos →
  covers (range_list (iv n)) pos → (∀ q, q <= P → starts_at (iv n) q → q < pos) →
  wp (split_interval i pos)
    (λ r s', r = Some (length (nodes s)) ∧ ∃ old new h' N', split_facts pos (iv n) old new ∧ N = S N' ∧
       s' = with_heap h' (with_nodes (split_nodes i n old new (nodes s)) s) ∧
       sinv N' P (length (nodes s) :: pend) lists s')
    (λ _ _, False) s.
Proof.
  intros Hs Ei Hf Hq Hst Hlt HP Hcov Hsa. pose proof Hs as [Hinv Hstore Hpq (L & HL) Hm Hb].
  pose proof (i_ok _ _ _ _ _ _ Hinv i _ (cores_lookup _ _ _ Ei)) as [Ho _ _ Hu].
  change (whole (core (iv n))) with (whole (iv n)) in Ho. rewrite core_fixed in Hu. specialize (Hu Hf).
  pose proof (ordered_range_list _ Ho) as Hor.
  assert (range_list (iv n) ≠ []) as Hne by (unfold interval_start in Hst; by destruct (range_list (iv n))).
  destruct (interval_end_some _ Hor Hne) as (e & He & _ & Hlte).
  assert (Forall use_ok (use_positions (iv n))) as Huok by (apply list.Forall_forall; intros u Hx; by apply (Hu u)).
  pose proof (split_interval_at_spec (iv n) s0 e pos (heap s) Hor Hst He ltac:(specialize (Hlte _ Hcov); lia) Huok) as Hsp.
  unfold wp, split_interval. rewrite Ei.
  destruct (split_interval_at (iv n) pos (heap s)) as [[[old new]|] h'|? ?|]; [|done|by apply Hsp in Hall|by apply Hsp in Hall].
  destruct Hsp as [Hpair (B & HB)]. split; [done|].
  pose proof (split_pair_facts pos (iv n) old new s0 Hf Ho Huok Hst Hlt Hpair) as Hsf.
  assert (1 <= range_size (whole old) ∧ 1 <= range_size (whole new))%nat as [S1 S2].
  { destruct Hsf. split; eapply range_size_pos; try done.
    - rewrite whole_eq. intros Hn%app_nil. unfold interval_start in *. destruct Hn as [_ Hn]. rewrite Hn in sf_old_start. cbn in *. congruence.
    - rewrite whole_eq. intros Hn%app_nil. unfold interval_start in *. destruct Hn as [_ Hn]. by rewrite Hn in sf_new_start. }
  assert (S (cuts (split_nodes i n old new (nodes s))) = cuts (nodes s)) as Hcuts.
  { unfold split_nodes. rewrite cuts_app, cuts_cons. cbn [iv]. change (cuts []) with 0%nat.
    pose proof (cuts_insert (nodes s) i n (Node old (Some (length (nodes s))) (prev_child n) (spill_parent n)) Ei) as Hci.
    cbn [iv] in Hci. destruct Hsf. lia. }
  destruct N as [|N']; [lia|]. exists old, new, h', N'. split_and!; [done..|].
  assert (cores (with_heap h' (with_nodes (split_nodes i n old new (nodes s)) s)) = split_list i (core old) (core new) (cores s)) as Hcores
    by apply split_nodes_cores.
  change (sinv N' P (length (nodes s) :: pend) lists (with_heap h' (with_nodes (split_nodes i n old new (nodes s)) s))).
  split; cbn [nodes unhandled heap with_heap with_nodes]; [| |done| |lia|lia].
  - rewrite Hcores, <- (cores_length s). apply (inv_split vars (it := core (iv n)) (s := s0) (pos := pos)); try done.
    + by apply cores_lookup.
    + by rewrite core_fixed.
    + by apply split_facts_core.
  - by eapply store_split.
  - exists (B ⊎ L). rewrite HB, HL. ms_eq.
Qed.

Lemma wp_insert N P i pend lists s n k : sinv N P (i :: pend) lists s → nodes s !! i = Some n →
  reg (iv n) = MACH_REG_UNASSIGNED → use_positions (iv n) ≠ [] → interval_start (iv n) = Some k → Z.of_nat (S N) + 2 < 2 ^ 31 →
  wp (insert_unhandled k i)
    (λ _ s', sinv (S N) P pend lists s' ∧ nodes s' = nodes s ∧ active s' = active s ∧ inactive s' = inactive s)
    (λ _ _, False) s.
Proof.
  intros [Hinv Hstore Hpq (L & HL) Hm Hb] Ei Hr Hu Hk Hb'.
  pose proof (i_ok _ _ _ _ _ _ Hinv i _ (cores_lookup _ _ _ Ei)) as [Ho Hbd _ _].
  change (whole (core (iv n))) with (whole (iv n)) in Ho. pose proof (ordered_range_list _ Ho) as Hor.
  destruct (start_covers 0 (iv n) k Hor Hk) as [Hck _]. pose proof (ordered_covers _ _ _ Hor Hck).
  pose proof (Hbd k (covers_whole _ _ Hck)). pose proof (contents_length _ Hpq) as Hlen.
  unfold wp, insert_unhandled.
  pose proof (pqueue_insert_correct (unhandled s) k i (heap s) ({[+ regs +]} ⊎ L) Hpq ltac:(unfold key_ok; lia) ltac:(lia) HL) as Hi.
  destruct (pqueue_insert (unhandled s) k i (heap s)) as [[err q] h|? ?|]; [|done..].
  destruct Hi as [(_ & Hq & Hc & HL')|(_ & _ & Hn & _)]; [|done]. split_and!; [|done..].
  split; cbn [nodes unhandled heap with_heap with_queue]; [|done|done|eauto| |lia].
  - change (cores _) with (cores s). rewrite Hc. apply (inv_queue vars P i pend lists _ _ (core (iv n)) k); try done. by apply cores_lookup.
  - rewrite Hc. cbn [length]. lia.
Qed.

(** ** Marks *)

(** Children reloaded from [it] are reloaded from [new]. *)
Record reparented (it new : nat) (ns ns' : list node) : Prop := {
  rp_length : length ns' = length ns;
  rp_node : ∀ j m, ns !! j = Some m → ∃ m', ns' !! j = Some m' ∧ iv m' = iv m ∧ next_child m' = next_child m ∧
    (spill_parent m' = spill_parent m ∨
     (interval_needs_reload (iv m) = true ∧ spill_parent m = Some it ∧ spill_parent m' = Some new));
}.
Lemma reparented_refl it new ns : reparented it new ns ns.
Proof. split; [done|]. intros j m Em. exists m. eauto. Qed.
Lemma reparented_trans it new ns1 ns2 ns3 : reparented it new ns1 ns2 → reparented it new ns2 ns3 → reparented it new ns1 ns3.
Proof.
  intros [L1 H1] [L2 H2]. split; [congruence|]. intros j m Em. destruct (H1 j m Em) as (m' & Em' & I1 & N1 & S1).
  destruct (H2 j m' Em') as (m'' & Em'' & I2 & N2 & S2). exists m''. split_and!; [done|congruence..|].
  destruct S1 as [S1|(R1 & S1 & S1')], S2 as [S2|(R2 & S2 & S2')]; [left; congruence|right..]; split_and!; congruence.
Qed.
Lemma reparented_alter it new ns c n : ns !! c = Some n → interval_needs_reload (iv n) = true → spill_parent n = Some it →
  reparented it new ns (alter (with_parent new) c ns).
Proof.
  intros Ec Hr Hp. split; [by rewrite length_alter|]. intros j m Em. destruct (decide (j = c)) as [->|].
  - rewrite list_lookup_alter_eq, Em. simplify_eq. eexists. split; [done|]. cbn. split_and!; [done..|by right].
  - rewrite list_lookup_alter_ne by done. exists m. split_and!; [done..|by left].
Qed.
Lemma reparented_chain it new ns ns' o c parts : reparented it new ns ns' → chain ns o c parts → chain ns' o c parts.
Proof.
  intros Hr. induction 1 as [|j m c parts Em Hc IH]; [constructor|].
  destruct (rp_node _ _ _ _ Hr j m Em) as (m' & Em' & Hi & Hn & _). rewrite <- Hi. econstructor; [done|]. by rewrite Hn.
Qed.

Lemma wp_update_parents it new fuel child c parts s : chain (nodes s) child c parts → (length c <= fuel)%nat →
  wp (update_spill_parents fuel child it new)
    (λ _ s', ∃ ns', s' = with_nodes ns' s ∧ reparented it new (nodes s) ns') (λ _ _, False) s.
Proof.
  revert child c parts s. induction fuel as [|fuel IH]; intros child c parts s Hc Hl.
  - inversion Hc; subst; [|cbn in Hl; lia]. cbn. exists (nodes s). split; [by destruct s|apply reparented_refl].
  - inversion Hc as [|j n c' parts' Ej Hc']; subst.
    + cbn. exists (nodes s). split; [by destruct s|apply reparented_refl].
    + cbn [update_spill_parents]. apply wp_bind. apply (wp_lookup_node _ n); [done|]. cbn in Hl. apply wp_bind.
      destruct (interval_needs_reload (iv n) && bool_decide (spill_parent n = Some it)) eqn:Eb.
      * apply andb_true_iff in Eb as [Hre Hsp%bool_decide_eq_true]. apply (wp_update_node _ n); [done|].
        pose proof (reparented_alter it new (nodes s) j n Ej Hre Hsp) as Hra.
        eapply wp_mono; [eapply (IH _ c' parts'); [by eapply reparented_chain|lia]| |done]. cbn.
        intros _ s' (ns' & -> & Hrp). exists ns'. split; [done|]. by eapply reparented_trans.
      * apply wp_ret. by apply (IH _ c' parts'); [|lia].
Qed.

Definition spill_mark (n : node) : node := with_flags (Z.lor (flags (iv n)) INTERVAL_FLAG_NEED_SPILL) n.
Definition reload_mark (parent : nat) (n : node) : node :=
  with_parent parent (with_flags (Z.lor (flags (iv n)) INTERVAL_FLAG_NEED_RELOAD) n).

Lemma land_lor_zero f a b : Z.land a b = 0 → Z.land (Z.lor f a) b = Z.land f b.
Proof. intros E. by rewrite Z.land_lor_distr_l, E, Z.lor_0_r. Qed.
Lemma spill_mark_core n : core (iv (spill_mark n)) = core (iv n).
Proof. unfold core. cbn [iv spill_mark with_flags with_iv var_info range_list expired_range_list use_positions flags reg]. by rewrite land_lor_zero. Qed.
Lemma reload_mark_core p n : core (iv (reload_mark p n)) = core (iv n).
Proof. unfold core. cbn [iv reload_mark with_parent with_flags with_iv var_info range_list expired_range_list use_positions flags reg]. by rewrite land_lor_zero. Qed.
Lemma spill_mark_spill n : interval_needs_spill (iv (spill_mark n)) = true.
Proof.
  unfold interval_needs_spill. cbn [iv spill_mark with_flags with_iv flags]. apply bool_decide_eq_true.
  rewrite Z.land_lor_distr_l. intros E%Z.lor_eq_0_iff. by destruct E.
Qed.
Lemma spill_mark_reload n : interval_needs_reload (iv (spill_mark n)) = interval_needs_reload (iv n).
Proof. unfold interval_needs_reload. cbn [iv spill_mark with_flags with_iv flags]. by rewrite land_lor_zero. Qed.
Lemma reload_mark_spill p n : interval_needs_spill (iv (reload_mark p n)) = interval_needs_spill (iv n).
Proof. unfold interval_needs_spill. cbn [iv reload_mark with_parent with_flags with_iv flags]. by rewrite land_lor_zero. Qed.

Definition mark_if (b : bool) (f : node → node) (i : nat) (ns : list node) : list node := if b then alter f i ns else ns.

(** All the marks that [spill_interval] leaves. *)
Lemma spill_marked it new i n ns ns1 (b e : bool) : ns !! it = Some i → ns !! new = Some n → it ≠ new →
  reload_ok ns → interval_needs_reload (iv n) = false → var_info (iv n) = var_info (iv i) →
  reparented it new ns ns1 → b = interval_needs_spill (iv i) →
  marked ns (alter spill_mark it (mark_if e (reload_mark it) new (mark_if b spill_mark new ns1))).
Proof.
  intros Ei En Hne Hro Hnr Hv [Hl Hn] Hb. set (ns4 := alter _ it _).
  assert (∀ j m, ns !! j = Some m → ∃ m', ns4 !! j = Some m' ∧ next_child m' = next_child m ∧ core (iv m') = core (iv m) ∧
    (interval_needs_spill (iv m) = true → interval_needs_spill (iv m') = true) ∧
    (j = it → interval_needs_spill (iv m') = true) ∧ (j = new → b = true → interval_needs_spill (iv m') = true) ∧
    (interval_needs_reload (iv m') = true → (j = new ∧ spill_parent m' = Some it) ∨
      (j ≠ new ∧ interval_needs_reload (iv m) = true ∧ (spill_parent m' = spill_parent m ∨ (spill_parent m = Some it ∧ spill_parent m' = Some new))))) as Hnodes.
  { intros j m Em. destruct (Hn j m Em) as (m1 & Em1 & I1 & N1 & S1). destruct (decide (j = new)) as [->|Hj].
    - assert (m = n) as -> by congruence. exists ((if e then reload_mark it else id) ((if b then spill_mark else id) m1)).
      split; [subst ns4; rewrite list_lookup_alter_ne by done; destruct e, b; cbn; rewrite ?list_lookup_alter_eq, Em1; done|].
      rewrite <- I1 in Hnr |- *. split_and!.
      + destruct e, b; done.
      + destruct e, b; cbn [id]; rewrite ?reload_mark_core, ?spill_mark_core; done.
      + intros Hs. destruct e, b; cbn [id]; rewrite ?reload_mark_spill, ?spill_mark_spill; done.
      + intros ->. done.
      + intros _ ->. destruct e; cbn [id]; rewrite ?reload_mark_spill; apply spill_mark_spill.
      + intros Hr. left. split; [done|]. destruct e; [done|]. destruct b; cbn [id] in Hr; rewrite ?spill_mark_reload in Hr; congruence.
    - assert (mark_if e (reload_mark it) new (mark_if b spill_mark new ns1) !! j = Some m1) as Em2.
      { destruct e, b; cbn; rewrite ?list_lookup_alter_ne by done; done. }
      assert (interval_needs_reload (iv m1) = true → j ≠ new ∧ interval_needs_reload (iv m) = true ∧
        (spill_parent m1 = spill_parent m ∨ (spill_parent m = Some it ∧ spill_parent m1 = Some new))) as Hre.
      { intros Hr. rewrite I1 in Hr. split_and!; [done..|]. destruct S1 as [?|(_ & ? & ?)]; tauto. }
      destruct (decide (j = it)) as [->|Hji].
      + exists (spill_mark m1). split; [subst ns4; by rewrite list_lookup_alter_eq, Em2|].
        rewrite spill_mark_core, spill_mark_spill, spill_mark_reload. split_and!; [done|by rewrite I1|done..|]. intros Hr. right. by apply Hre.
      + exists m1. split; [subst ns4; by rewrite list_lookup_alter_ne|]. rewrite I1. rewrite I1 in Hre.
        split_and!; [done..|]. intros Hr. right. by apply Hre. }
  assert (length ns4 = length ns) as Hlen.
  { subst ns4. rewrite length_alter. destruct e, b; cbn; rewrite ?length_alter; done. }
  split; [done| |].
  - intros j m Em. destruct (Hnodes j m Em) as (m' & ? & ? & ? & ? & _). eauto 10.
  - intros j m' Ej Hr. destruct (ns !! j) as [m|] eqn:Em; [|apply lookup_ge_None in Em; apply lookup_lt_Some in Ej; lia].
    destruct (Hnodes j m Em) as (m'' & E & _ & Hc & _ & _ & _ & Hre). assert (m'' = m') as -> by congruence.
    pose proof (core_face _ _ Hc) as [_ _ _ Hvm]. destruct (Hre Hr) as [(-> & Hp)|(Hj & Hm & [Hp|(Hp & Hp')])].
    + right. destruct (Hnodes it i Ei) as (i' & Ei' & _ & Hci & _ & Hsi & _). exists it, i'.
      split_and!; [done..|by apply Hsi|]. destruct (core_face _ _ Hci) as [_ _ _ ->]. congruence.
    + left. eauto.
    + right. destruct (Hnodes new n En) as (n' & En' & _ & Hcn & _ & _ & Hsn & _). exists new, n'.
      destruct (Hro j m Em Hm) as (l & q & Hl' & Eq & Hsp & Hvq). rewrite Hp in Hl'. injection Hl' as <-.
      assert (q = i) as -> by congruence. split_and!; [done..| |].
      * apply Hsn; [done|]. by rewrite Hb.
      * destruct (core_face _ _ Hcn) as [_ _ _ ->]. congruence.
Qed.

(** ** Spilling *)

Lemma sinv_cores N P pend lists s s' : cores s' = cores s → unhandled s' = unhandled s → heap s' = heap s →
  store_ok its0 (nodes s') → sinv N P pend lists s → sinv N P pend lists s'.
Proof.
  intros Hc Hu Hh Hst [Hinv _ Hpq HL Hm Hb]. split; rewrite ?Hc, ?Hu, ?Hh, ?(cuts_cores _ _ Hc); done.
Qed.
Lemma sinv_drop N P i pend lists s it : sinv N P (i :: pend) lists s → cores s !! i = Some it →
  reg it = MACH_REG_UNASSIGNED → use_positions it = [] → sinv N P pend lists s.
Proof. intros [] Ei Hr Hu. split; try done. by eapply inv_drop. Qed.
Lemma sinv_more N N' P pend lists s : (N <= N')%nat → Z.of_nat N' + 2 < 2 ^ 31 → sinv N P pend lists s → sinv N' P pend lists s.
Proof. intros ? ? []. split; (done || lia). Qed.
Lemma sinv_ok N P pend lists s i it : sinv N P pend lists s → cores s !! i = Some it → interval_ok vars it.
Proof. intros [Hinv _ _ _ _ _]. apply (i_ok _ _ _ _ _ _ Hinv). Qed.
Lemma sinv_pend N P i pend lists s : sinv N P (i :: pend) lists s → i ∉ queued s.
Proof.
  intros [Hinv _ _ _ _ _]. pose proof (i_ids _ _ _ _ _ _ Hinv) as Hn. apply list.NoDup_cons in Hn as [Hn _].
  rewrite elem_of_app in Hn. tauto.
Qed.

(** An interval that is cut at [pos] in the state [s]. *)
Record can_cut (P pos : Z) (i : nat) (it : live_interval) (s : scan) : Prop := {
  cc_lookup : cores s !! i = Some it;
  cc_fixed : interval_has_fixed_reg it = false;
  cc_queue : i ∉ queued s;
  cc_start : ∃ s0, interval_start it = Some s0 ∧ s0 < pos;
  cc_pos : P <= pos;
  cc_covers : covers (range_list it) pos;
  cc_starts : ∀ q, q <= P → starts_at it q → q < pos;
}.
Record spilled (pos : Z) (i : nat) (it : live_interval) (s s' : scan) : Prop := {
  sp_active : active s' = active s;
  sp_inactive : inactive s' = inactive s;
  sp_it : ∃ old new, split_facts pos it old new ∧ cores s' !! i = Some old;
  sp_other : ∀ j x, j ≠ i → cores s !! j = Some x → cores s' !! j = Some x;
  sp_new : ∀ j x, cores s !! j = None → cores s' !! j = Some x → reg x = MACH_REG_UNASSIGNED;
}.

Lemma wp_cut N P pend lists s i it pos : sinv N P pend lists s → can_cut P pos i it s →
  wp (split_interval i pos)
    (λ r s', r = Some (length (nodes s)) ∧ ∃ N' new n, N = S N' ∧ sinv N' P (length (nodes s) :: pend) lists s' ∧
       spilled pos i it s s' ∧ nodes s' !! length (nodes s) = Some n ∧ core (iv n) = new ∧ flags (iv n) = 0 ∧
       (∃ old, split_facts pos it old new ∧ cores s' !! i = Some old) ∧ cores s' !! length (nodes s) = Some new)
    (λ _ _, False) s.
Proof.
  intros Hs [Ei Hf Hq (s0 & Hst & Hlt) HP Hcov Hsa]. apply cores_lookup_inv in Ei as (n & En & ->). rewrite core_fixed in Hf.
  eapply wp_mono; [by eapply (wp_split N P pend lists s i n pos s0)|cbv beta|done].
  intros r s' (-> & old & new & h' & N' & Hsf & -> & -> & Hs'). split; [done|].
  exists N', (core new), (Node new (next_child n) (Some i) None).
  set (s' := with_heap _ _) in *. assert (cores s' = split_list i (core old) (core new) (cores s)) as Hc by apply split_nodes_cores.
  pose proof (cores_lookup _ _ _ En) as Ec. pose proof (split_facts_core _ _ _ _ Hsf) as Hsc.
  assert (cores s' !! i = Some (core old)) as Eold by (rewrite Hc; apply split_list_old; eauto).
  split_and!; [done..| | |done|exact (proj2 (sf_flags _ _ _ _ Hsf))|eauto|].
  - split; [done..|by eauto| |].
    + intros j x Hj Ej. rewrite Hc, split_list_other; [done..|by eapply lookup_lt_Some].
    + intros j x Ej. rewrite Hc. intros [(-> & ->)|[(-> & ->)|(_ & _ & Ej')]]%split_list_lookup; [congruence| |congruence|eauto].
      exact (proj2 (sf_reg _ _ _ _ Hsf)).
  - apply split_nodes_new.
  - rewrite Hc, <- cores_length. apply split_list_new.
Qed.

(** What is left in hand after the cut and the trimming: the part to be queued. *)
Definition trimmed (N : nat) (P pos : Z) (i : nat) (it : live_interval) (pend lists : list nat) (s : scan) (m : Z) (w : nat) (s' : scan) : Prop :=
  ∃ N' n, (S N' <= N)%nat ∧ sinv N' P (w :: pend) lists s' ∧ spilled pos i it s s' ∧ w ≠ i ∧
    nodes s' !! w = Some n ∧ flags (iv n) = 0 ∧ reg (iv n) = MACH_REG_UNASSIGNED ∧ use_positions (iv n) ≠ [] ∧
    interval_start (iv n) = Some m ∧ var_info (iv n) = var_info it.

Lemma wp_trim N P pend lists s0 s i it pos k m n : cores s0 !! i = Some it → k = length (nodes s0) →
  sinv N P (k :: pend) lists s → spilled pos i it s0 s → nodes s !! k = Some n → flags (iv n) = 0 → P <= pos →
  (∃ old, split_facts pos it old (core (iv n))) →
  use_positions (iv n) ≠ [] → next_use_pos (iv n) 0 = Some m → (∃ u, u ∈ use_positions (iv n) ∧ first_pos u = m) →
  (∀ u, u ∈ use_positions (iv n) → m <= first_pos u) →
  wp (if decide (pos < m) then split_interval k m else ret (Some k))
    (λ r s', ∃ w, r = Some w ∧ trimmed (S N) P pos i it pend lists s0 m w s') (λ _ _, False) s.
Proof.
  intros Ei Ek Hs Hsp En Hfl HP (old & Hsf) Hu Hm (u & Hin & Hum) Hmin.
  pose proof (sinv_ok _ _ _ _ _ _ _ Hs (cores_lookup _ _ _ En)) as [Ho _ _ Hus].
  assert (interval_has_fixed_reg (core (iv n)) = false) as Hf by (rewrite core_fixed; unfold interval_has_fixed_reg; by rewrite Hfl).
  pose proof (sf_new_start _ _ _ _ Hsf) as Hst. pose proof (sf_new_expired _ _ _ _ Hsf) as Hex.
  assert (∀ p, occupies (core (iv n)) p → covers (range_list (iv n)) p) as Hocc.
  { intros p. unfold occupies. rewrite whole_eq, Hex. done. }
  assert (k ≠ i) as Hki by (subst k; intros E; apply lookup_lt_Some in Ei; rewrite cores_length in Ei; lia).
  assert (covers (range_list (iv n)) m) as Hcm by (apply Hocc; rewrite <- Hum; by apply (Hus Hf u)).
  destruct (start_covers 0 (iv n) pos (ordered_range_list _ Ho) Hst) as [_ Hge]. pose proof (Hge m Hcm) as Hpm.
  case_decide as Hlt.
  - eapply wp_mono; [eapply (wp_cut N P (k :: pend) lists s k (core (iv n)) m); [done|]|cbv beta|done].
    { split; [by apply cores_lookup|done|by eapply sinv_pend|by exists pos|lia|done|intros; lia]. }
    intros r s' (-> & N' & new & n' & -> & Hs' & Hsp' & En' & Ec & Hfl' & (old' & Hsf' & Eold) & Enew).
    exists (length (nodes s)). split; [done|]. exists N', n'. subst new.
    assert (use_positions old' = []) as Hno.
    { destruct (use_positions old') as [|v us] eqn:Ev; [done|]. destruct (split_uses_elem Hsf' v) as [H1 _].
      destruct H1 as [H1 H2]; [rewrite Ev; left|]. specialize (Hmin v H1). lia. }
    assert (cores s0 !! k = None) as Hk0 by (apply lookup_ge_None; rewrite cores_length; lia).
    split_and!; [lia| | | |done|done|exact (proj2 (sf_reg _ _ _ _ Hsf'))| |exact (sf_new_start _ _ _ _ Hsf')|].
    + apply (sinv_drop _ _ k _ _ _ old'); [|done|by rewrite (proj1 (sf_reg _ _ _ _ Hsf')), (proj2 (sf_reg _ _ _ _ Hsf))|done].
      destruct Hs'. split; try done. by rewrite Permutation_swap.
    + destruct Hsp as [A1 A2 (o1 & n1 & Hs1 & E1) A4 A5], Hsp' as [B1 B2 _ B4 B5]. split; [congruence..| | |].
      * exists o1, n1. split; [done|]. by apply B4.
      * intros j x Hj Ej. apply B4; [congruence|]. by apply A4.
      * intros j x Ej Ex. destruct (decide (j = k)) as [->|Hjk].
        { assert (x = old') as -> by congruence. by rewrite (proj1 (sf_reg _ _ _ _ Hsf')), (proj2 (sf_reg _ _ _ _ Hsf)). }
        destruct (cores s !! j) as [y|] eqn:Ey; [|by apply (B5 j)]. rewrite (B4 j y Hjk Ey) in Ex. injection Ex as <-. by apply (A5 j).
    + intros E. apply lookup_lt_Some in Ei. rewrite cores_length in Ei. apply lookup_lt_Some in En. lia.
    + intros E. change (use_positions (core (iv n')) = []) in E. pose proof (sf_uses _ _ _ _ Hsf') as Hp.
      rewrite Hno, E in Hp. apply Permutation_nil in Hp. done.
    + change (var_info (core (iv n')) = var_info it). rewrite (proj2 (sf_var _ _ _ _ Hsf')). exact (proj2 (sf_var _ _ _ _ Hsf)).
  - apply wp_ret. exists k. split; [done|]. exists N, n. assert (m = pos) as -> by lia.
    split_and!; try done; [exact (proj2 (sf_reg _ _ _ _ Hsf))|exact (proj2 (sf_var _ _ _ _ Hsf))].
Qed.

Lemma wp_mark_if (b : bool) f i n Q R s : nodes s !! i = Some n → Q tt (with_nodes (mark_if b f i (nodes s)) s) →
  wp (if b then update_node i f else ret tt) Q R s.
Proof. intros E HQ. destruct b; [by apply (wp_update_node _ n)|]. apply wp_ret. by destruct s. Qed.
Lemma mark_if_lookup (b : bool) f (i j : nat) n (ns : list node) : ns !! j = Some n → ∃ n', mark_if b f i ns !! j = Some n'.
Proof.
  intros E. destruct b; [|by exists n]. cbn. destruct (decide (i = j)) as [->|].
  - rewrite list_lookup_alter_eq, E. by eexists.
  - rewrite list_lookup_alter_ne by done. eauto.
Qed.

(** The second half of [spill_interval]. *)
Lemma wp_marks N P pos pend lists s0 s i it w m n next_pos : cores s0 !! i = Some it → trimmed N P pos i it pend lists s0 m w s →
  Z.of_nat N + 2 < 2 ^ 31 → nodes s !! w = Some n →
  wp (do update_spill_parents (length (nodes s)) (next_child n) i w;;
      let* a := lookup_node i in
      do (if interval_needs_spill (iv a) then mark_need_spill w else ret tt);;
      do (if decide (Z.land next_pos 1 = 0) then mark_need_reload w i else ret tt);;
      do mark_need_spill i;;
      let* n := lookup_node w in
      let* start := try (interval_start (iv n)) in
      insert_unhandled start w)
    (λ _ s', sinv N P pend lists s' ∧ spilled pos i it s0 s') (λ _ _, False) s.
Proof.
  intros Ei0 (N' & n0 & HN & Hs & Hsp & Hwi & En & Hfl & Hrg & Hu & Hst & Hv) Hb En'. assert (n0 = n) as -> by congruence.
  pose proof Hs as [Hinv [Hlk Hro] _ _ _ _]. destruct (linked_chain _ _ _ _ Hlk En) as (c & parts & Hc & _ & Hcl).
  destruct (sp_it _ _ _ _ _ Hsp) as (old & new & Hsf & Eold). apply cores_lookup_inv in Eold as (a & Ea & ->).
  apply wp_bind. eapply wp_mono; [eapply wp_update_parents; [done|lia]|cbv beta|done]. intros _ s1 (ns1 & -> & Hrp).
  destruct (rp_node _ _ _ _ Hrp i a Ea) as (a1 & Ea1 & Ha1 & _). destruct (rp_node _ _ _ _ Hrp w n En) as (n1 & En1 & Hn1 & _).
  apply wp_bind. apply (wp_lookup_node _ a1); [done|]. rewrite Ha1.
  apply wp_bind. apply (wp_mark_if _ _ _ n1); [done|]. cbn [nodes with_nodes].
  destruct (mark_if_lookup (interval_needs_spill (iv a)) spill_mark w w n1 ns1 En1) as (n2 & En2).
  destruct (mark_if_lookup (interval_needs_spill (iv a)) spill_mark w i a1 ns1 Ea1) as (a2 & Ea2).
  apply wp_bind. assert (∀ A (x y : A), (if decide (Z.land next_pos 1 = 0) then x else y) = (if bool_decide (Z.land next_pos 1 = 0) then x else y)) as ->
    by (intros; by case_decide; case_bool_decide).
  apply (wp_mark_if _ _ _ n2); [done|]. cbn [nodes with_nodes].
  destruct (mark_if_lookup (bool_decide (Z.land next_pos 1 = 0)) (reload_mark i) w i a2 _ Ea2) as (a3 & Ea3).
  apply wp_bind. apply (wp_update_node _ a3); [done|]. cbn [nodes with_nodes].
  assert (marked (nodes s) (alter spill_mark i (mark_if (bool_decide (Z.land next_pos 1 = 0)) (reload_mark i) w
    (mark_if (interval_needs_spill (iv a)) spill_mark w ns1)))) as Hmk.
  { eapply (spill_marked i w a n); try done.
    - by unfold interval_needs_reload; rewrite Hfl.
    - rewrite Hv. symmetry. exact (proj1 (sf_var _ _ _ _ Hsf)). }
  set (ns4 := alter spill_mark i _) in *. set (s4 := with_nodes ns4 s).
  match goal with |- wp _ _ _ ?st => change st with s4 end.
  assert (cores s4 = cores s) as Hcores by (exact (marked_cores _ _ Hmk)).
  destruct (mk_node _ _ Hmk w n En) as (n4 & En4 & _ & Hc4 & _).
  apply wp_bind. apply (wp_lookup_node _ n4); [done|].
  assert (interval_start (iv n4) = Some m) as Hst4.
  { change (interval_start (core (iv n4)) = Some m). by rewrite Hc4. }
  apply wp_bind. apply (wp_try _ m); [done|].
  eapply wp_mono; [eapply (wp_insert N' P w pend lists s4 n4 m)|cbv beta|done].
  - apply (sinv_cores _ _ _ _ s); [done..| |done]. apply (store_marked (ns := nodes s)); [by split|done].
  - done.
  - change (reg (core (iv n4)) = MACH_REG_UNASSIGNED). by rewrite Hc4.
  - change (use_positions (core (iv n4)) ≠ []). by rewrite Hc4.
  - done.
  - lia.
  - intros _ s' (Hs' & Hn' & Ha' & Hi'). split; [by apply (sinv_more (S N'))|].
    assert (cores s' = cores s) as Hcs by (rewrite <- Hcores; unfold cores; by rewrite Hn').
    destruct Hsp. split; rewrite ?Hcs, ?Ha', ?Hi'; done.
Qed.

Lemma wp_spill N P pend lists s i it pos : sinv N P pend lists s → can_cut P pos i it s →
  wp (spill_interval i pos) (λ _ s', sinv N P pend lists s' ∧ spilled pos i it s s') (λ _ _, False) s.
Proof.
  intros Hs Hcc. pose proof (s_bound _ _ _ _ _ Hs) as Hb. unfold spill_interval. apply wp_bind.
  eapply wp_mono; [by apply wp_cut|cbv beta|done].
  intros r s1 (-> & N' & new & n & -> & Hs1 & Hsp & En & <- & Hfl & (old & Hsf & Eold) & Enew).
  apply wp_bind. apply (wp_try _ (length (nodes s))); [done|]. apply wp_bind. apply (wp_lookup_node _ n); [done|].
  pose proof (sinv_ok _ _ _ _ _ _ _ Hs1 Enew) as [Ho Hbd _ Hus].
  assert (interval_has_fixed_reg (core (iv n)) = false) as Hf by (rewrite core_fixed; unfold interval_has_fixed_reg; by rewrite Hfl).
  unfold has_use_positions. destruct (use_positions (iv n)) as [|u0 us] eqn:Eu.
  - apply wp_ret. split; [|done]. apply (sinv_more N'); [lia|done|]. eapply sinv_drop; [done..| |done].
    exact (proj2 (sf_reg _ _ _ _ Hsf)).
  - assert (use_positions (iv n) ≠ []) as Hu by (by rewrite Eu). clear Eu.
    destruct (next_use_first (iv n) 0) as (m & Em & Hmu & Hmin); [|done| |].
    + apply list.Forall_forall. intros u Hx. by apply (Hus Hf u).
    + intros u Hx. destruct (Hus Hf u Hx) as (_ & ? & Hocc). specialize (Hbd _ Hocc). unfold LONG_MAX. lia.
    + apply wp_bind. apply (wp_try _ m); [done|]. apply wp_bind. apply (wp_try _ pos); [exact (sf_new_start _ _ _ _ Hsf)|].
      apply wp_bind. eapply wp_mono; [eapply (wp_trim N' P pend lists s s1 i it pos (length (nodes s)) m n); try done|cbv beta|done].
      * apply (cc_lookup _ _ _ _ _ Hcc).
      * apply (cc_pos _ _ _ _ _ Hcc).
      * eauto.
      * intros r s2 (w & -> & Htr). apply wp_bind. apply (wp_try _ w); [done|].
        pose proof Htr as (N2 & n2 & _ & _ & _ & _ & En2 & _). apply wp_bind. apply (wp_lookup_node _ n2); [done|].
        apply wp_bind. apply wp_get. eapply wp_marks; try done. apply (cc_lookup _ _ _ _ _ Hcc).
Qed.
End scan.
