(* ===== verification/LinearScanAlloc.v ===== *)
(** * Choosing a register in the linear scan

    The arrays of positions the allocator fills for an interval, the register it
    picks, and what [try_to_allocate_free_reg] and [allocate_blocked_reg] do with it. *)

From S2P Require Import Prelude CMonad Types Interval Pqueue LinearScan LinearScanSpec LinearScanStore LinearScanSpill.
#[local] Open Scope Z_scope.

(** ** Registers and arrays *)

Definition typed (t : Types.vm_type) : Prop := t ≠ J_VOID ∧ t ≠ J_RETURN_ADDRESS.

Lemma supports_total r t : typed t → in_file r → ∃ b, reg_supports_type r t = Some b.
Proof.
  intros [H1 H2] Hr. unfold reg_supports_type. rewrite decide_False by tauto. unfold in_file in Hr. rewrite decide_False by lia.
  destruct (reg_type_table !! Z.to_nat r) as [x|] eqn:E; [cbn; eauto|].
  apply lookup_ge_None in E. change (length reg_type_table) with NR_REGISTERS in E. lia.
Qed.
Lemma supports_in_file r t : reg_supports_type r t = Some true → in_file r.
Proof.
  unfold reg_supports_type, in_file. case_decide; [done|]. case_decide; [done|].
  destruct (reg_type_table !! Z.to_nat r) as [x|] eqn:E; [|done].
  apply lookup_lt_Some in E. change (length reg_type_table) with NR_REGISTERS in E. lia.
Qed.
Lemma supports_some t : typed t → ∃ r, reg_supports_type r t = Some true.
Proof.
  intros [H1 H2]. destruct t; try done.
  all: first [by exists 0|by exists 14].
Qed.

Definition val (arr : list Z) (r : Z) : Z := default 0 (arr !! Z.to_nat r).
Lemma val_lookup arr r : length arr = NR_REGISTERS → in_file r → arr !! Z.to_nat r = Some (val arr r).
Proof.
  intros Hl Hr. unfold val. destruct (arr !! Z.to_nat r) eqn:E; [done|]. apply lookup_ge_None in E. unfold in_file in Hr. lia.
Qed.
Lemma set_free_length arr r pos : length (set_free_pos arr r pos) = length arr.
Proof. unfold set_free_pos. case_decide; [|done]. destruct (arr !! _); [|done]. case_decide; [done|]. apply length_insert. Qed.
Lemma set_free_val arr r pos r' : length arr = NR_REGISTERS → in_file r → in_file r' →
  val (set_free_pos arr r pos) r' = if decide (r' = r) then Z.min (val arr r) pos else val arr r'.
Proof.
  intros Hl Hr Hr'. unfold set_free_pos. rewrite decide_True by exact Hr. rewrite (val_lookup arr r) by done.
  case_decide as Hlt; case_decide as Heq; subst; try lia.
  - unfold val at 1. rewrite list_lookup_insert_eq; [cbn; lia|]. unfold in_file in Hr. lia.
  - unfold val. rewrite list_lookup_insert_ne; [done|]. unfold in_file in *. lia.
Qed.

(** ** Picking *)

Lemma pick_from_spec ps i t mx ret : (∀ k, (k < length ps)%nat → ∃ b, reg_supports_type (i + Z.of_nat k) t = Some b) →
  ∃ r, pick_from ps i t mx ret = Some r ∧
    ((r = ret ∧ ∀ k v, ps !! k = Some v → reg_supports_type (i + Z.of_nat k) t = Some true → v < mx) ∨
     ∃ k v, ps !! k = Some v ∧ r = i + Z.of_nat k ∧ reg_supports_type r t = Some true ∧ mx <= v ∧
       ∀ k' v', ps !! k' = Some v' → reg_supports_type (i + Z.of_nat k') t = Some true → v' <= v).
Proof.
  revert i mx ret. induction ps as [|p ps IH]; intros i mx ret Hs; [exists ret; split; [done|left; split; [done|]; intros ? ? [=]]|].
  cbn [pick_from]. destruct (Hs 0%nat ltac:(cbn; lia)) as [b Eb]. replace (i + Z.of_nat 0) with i in Eb by lia. rewrite Eb. cbn [mbind option_bind].
  assert (∀ k, (k < length ps)%nat → ∃ b, reg_supports_type (i + 1 + Z.of_nat k) t = Some b) as Hs'.
  { intros k Hk. replace (i + 1 + Z.of_nat k) with (i + Z.of_nat (S k)) by lia. apply Hs. cbn. lia. }
  assert (∀ k, i + Z.of_nat (S k) = i + 1 + Z.of_nat k) as HS by lia.
  assert (∀ mx' ret', (b = true → p < mx' ∨ (p = mx' ∧ ret' = i)) → (ret' = ret ∧ mx' = mx) ∨ (ret' = i ∧ b = true ∧ mx <= p ∧ mx' = p) →
    ∃ r, pick_from ps (i + 1) t mx' ret' = Some r ∧
    ((r = ret ∧ ∀ k v, (p :: ps) !! k = Some v → reg_supports_type (i + Z.of_nat k) t = Some true → v < mx) ∨
     ∃ k v, (p :: ps) !! k = Some v ∧ r = i + Z.of_nat k ∧ reg_supports_type r t = Some true ∧ mx <= v ∧
       ∀ k' v', (p :: ps) !! k' = Some v' → reg_supports_type (i + Z.of_nat k') t = Some true → v' <= v)) as Hgo.
  { intros mx' ret' Hp Hc. destruct (IH (i + 1) mx' ret' Hs') as (r & Er & Hr). exists r. split; [done|].
    destruct Hr as [(-> & Hlt)|(k & v & Ek & Er' & Hsr & Hv & Hmax)].
    - destruct Hc as [(-> & ->)|(-> & Hbt & Hle & ->)].
      + destruct (decide (b = true ∧ p = mx ∧ ret = i)) as [(Hb & -> & ->)|Hno].
        * right. exists 0%nat, mx. rewrite Z.add_0_r, Eb, Hb. split_and!; [done..|lia|].
          intros [|k'] v' E Hs2; [injection E as <-; lia|]. rewrite HS in Hs2. specialize (Hlt k' v' E Hs2). lia.
        * left. split; [done|]. intros [|k] v E Hs2.
          -- injection E as <-. rewrite Z.add_0_r, Eb in Hs2. injection Hs2 as ->. destruct (Hp eq_refl) as [?|[? ?]]; [done|]. exfalso. apply Hno. auto.
          -- rewrite HS in Hs2. by apply (Hlt k v).
      + right. exists 0%nat, p. rewrite Z.add_0_r, Eb, Hbt. split_and!; [done..|].
        intros [|k'] v' E Hs2; [injection E as <-; lia|]. rewrite HS in Hs2. specialize (Hlt k' v' E Hs2). lia.
    - right. exists (S k), v. rewrite HS. split_and!; [done..|destruct Hc as [(_ & ->)|(_ & _ & ? & ->)]; lia|].
      intros [|k'] v' E Hs2.
      + injection E as <-. rewrite Z.add_0_r, Eb in Hs2. injection Hs2 as ->. destruct (Hp eq_refl) as [?|[? _]]; lia.
      + rewrite HS in Hs2. by apply (Hmax k' v'). }
  destruct b; cbn [negb].
  - case_decide as Hle; apply Hgo; [intros _; by right|right; done|intros _; left; lia|by left].
  - apply Hgo; [done|by left].
Qed.

(** A register of the type with the greatest position. *)
Lemma pick_register_spec arr t : length arr = NR_REGISTERS → typed t → (∀ r, in_file r → 0 <= val arr r) →
  ∃ r, pick_register arr t = Some r ∧ reg_supports_type r t = Some true ∧
    ∀ r', reg_supports_type r' t = Some true → val arr r' <= val arr r.
Proof.
  intros Hl Ht Hpos. unfold pick_register.
  assert (∀ r', reg_supports_type r' t = Some true → arr !! Z.to_nat r' = Some (val arr r') ∧ 0 + Z.of_nat (Z.to_nat r') = r') as Hlk.
  { intros r' Hr'%supports_in_file. split; [by apply val_lookup|]. unfold in_file in Hr'. lia. }
  destruct (pick_from_spec arr 0 t 0 (-1)) as (r & -> & Hr).
  { intros k Hk. apply supports_total; [done|]. unfold in_file. lia. }
  cbn [mbind option_bind]. destruct Hr as [(_ & Hlt)|(k & v & Ek & -> & Hs & _ & Hmax)].
  - destruct (supports_some t Ht) as (r' & Hr'). destruct (Hlk r' Hr') as [E E']. specialize (Hlt _ _ E). rewrite E' in Hlt.
    specialize (Hlt Hr'). specialize (Hpos r' (supports_in_file _ _ Hr')). lia.
  - rewrite decide_False by lia. eexists. split_and!; [done..|]. intros r' Hr'. destruct (Hlk r' Hr') as [E E'].
    unfold val at 2. rewrite Z.add_0_l, Nat2Z.id, Ek. cbn. apply (Hmax _ _ E). by rewrite E'.
Qed.

(** ** Filling the arrays *)

(** Every value is one of those [S] allows, and for the intervals [done] it is below
    the limits of the interval. *)
Record filled (S : Z → Z → Prop) (lim : nat → live_interval → Z → Prop) (its : list live_interval) (done : list nat) (arr : list Z) : Prop := {
  fl_length : length arr = NR_REGISTERS;
  fl_sound : ∀ r, in_file r → S r (val arr r);
  fl_limit : ∀ i it p, i ∈ done → its !! i = Some it → lim i it p → val arr (reg it) <= p;
}.
Section filled.
Context (S : Z → Z → Prop) (lim : nat → live_interval → Z → Prop) (its : list live_interval).

Lemma filled_all_free : (∀ r, S r LONG_MAX) → filled S lim its [] all_free.
Proof.
  intros HS. split; [done| |].
  - intros r Hr. unfold val, all_free. rewrite lookup_replicate_2; [apply HS|]. unfold in_file in Hr. lia.
  - intros i it p Hi. by apply elem_of_nil in Hi.
Qed.
Lemma filled_set done arr i it pos : filled S lim its done arr → its !! i = Some it → in_file (reg it) →
  (∀ j x p, its !! j = Some x → lim j x p → in_file (reg x)) →
  S (reg it) pos → (∀ p, lim i it p → pos <= p) → filled S lim its (i :: done) (set_free_pos arr (reg it) pos).
Proof.
  intros [Hl Hs Hd] Ei Hr Hlr HS Hlim. split; [by rewrite set_free_length| |].
  - intros r Hin. rewrite set_free_val by done. case_decide as E; [subst|by apply Hs].
    destruct (Z.min_spec (val arr (reg it)) pos) as [[_ ->]|[_ ->]]; [by apply Hs|done].
  - intros j x p Hj Ex Hp. assert (in_file (reg x)) as Hx by eauto. rewrite set_free_val by done.
    apply elem_of_cons in Hj as [->|Hj].
    + assert (x = it) as -> by congruence. rewrite decide_True by done. specialize (Hlim p Hp). lia.
    + specialize (Hd j x p Hj Ex Hp). case_decide as E; [rewrite E in Hd; lia|done].
Qed.
Lemma filled_skip done arr i it : filled S lim its done arr → its !! i = Some it → (∀ p, ¬ lim i it p) →
  filled S lim its (i :: done) arr.
Proof.
  intros [Hl Hs Hd] Ei Hlim. split; [done..|]. intros j x p [->|Hj]%elem_of_cons Ex Hp; [|by eapply Hd].
  simplify_eq. by apply Hlim in Hp.
Qed.
End filled.

Section alloc.
Context `{Allocator} (Hall : ∀ n sz, malloc_ok n sz = true).
Context (vars : list struct_var_info) (its0 : list live_interval) (regs : block).
Abbreviation sinv := (sinv vars its0 regs).
Abbreviation queued s := (value <$> contents (unhandled s)).

Lemma wp_each {A} (f : live_interval → A → L A) (J : list nat → A → Prop) ids done a s : J done a →
  (∀ i done a, i ∈ ids → J done a → ∃ n, nodes s !! i = Some n ∧
     wp (f (iv n) a) (λ a' s', s' = s ∧ J (i :: done) a') (λ _ _, False) s) →
  wp (each_interval f ids a) (λ a' s', s' = s ∧ ∃ done', (∀ i, i ∈ ids ∨ i ∈ done → i ∈ done') ∧ J done' a') (λ _ _, False) s.
Proof.
  revert done a. induction ids as [|i ids IH]; intros done a HJ Hstep.
  - cbn. split; [done|]. exists done. split; [|done]. intros j [Hj|Hj]; [by apply elem_of_nil in Hj|done].
  - cbn [each_interval]. destruct (Hstep i done a ltac:(left) HJ) as (n & En & Hf). apply wp_bind. apply (wp_lookup_node _ n); [done|].
    apply wp_bind. eapply wp_mono; [exact Hf|cbv beta|done]. intros a' s' [-> HJ'].
    eapply wp_mono; [apply (IH (i :: done) a' HJ')|cbv beta|done].
    + intros j d x Hj. apply Hstep. by right.
    + intros x s' (-> & d & Hd & HJd). split; [done|]. exists d. split; [|done]. intros j Hj. apply Hd.
      rewrite !elem_of_cons in *. tauto.
Qed.

(** ** The interval in hand *)

(** The intervals sorted at the position where [cur] starts. *)
Record situation (N : nat) (P : Z) (cur : nat) (c : live_interval) (s : scan) : Prop := {
  si_inv : sinv N P [cur] (active s ++ inactive s) s;
  si_cur : cores s !! cur = Some c;
  si_start : interval_start c = Some P;
  si_uses : use_positions c ≠ [];
  si_active : ∀ i it, i ∈ active s → cores s !! i = Some it → ∃ r, head (range_list it) = Some r ∧ start r <= P < end_ r;
  si_inactive : ∀ i it, i ∈ inactive s → cores s !! i = Some it → ¬ covers (range_list it) P;
}.

(** What two intervals share, when one is listed at [P] and the other starts not
    before. *)
Record met (P : Z) (a c : live_interval) : Prop := {
  mt_test : ∃ b, intervals_intersect a c = Some b ∧ (b = true ↔ ∃ p, occupies a p ∧ occupies c p);
  mt_start : (∃ p, occupies a p ∧ occupies c p) →
    ∃ p, interval_intersection_start a c = Some (Returns p) ∧ interval_intersection_start c a = Some (Returns p) ∧
      P <= p ∧ occupies a p ∧ occupies c p ∧ (covers (range_list a) p) ∧ ∀ q, occupies a q → occupies c q → p <= q;
}.
Lemma listed_occupies P a p : ordered (whole a) → listed vars P a → P <= p → occupies a p ↔ covers (range_list a) p.
Proof.
  intros Ho [_ _ He _] Hp. unfold occupies. rewrite whole_eq, covers_app. split; [|tauto]. intros [(r & Hr & Hx)|?]; [|done].
  rewrite elem_of_reverse in Hr. specialize (He r Hr). lia.
Qed.
Lemma fresh_occupies P c p : fresh P c → occupies c p ↔ covers (range_list c) p.
Proof. intros [_ He _]. unfold occupies. by rewrite whole_eq, He. Qed.
Lemma fresh_after P c p : ordered (whole c) → fresh P c → occupies c p → P <= p.
Proof.
  intros Ho Hf Hp. apply (fresh_occupies P c p Hf) in Hp. destruct Hf as [_ _ (s & Hs & ?)].
  destruct (start_covers 0 c s (ordered_range_list _ Ho) Hs) as [_ Hm]. specialize (Hm p Hp). lia.
Qed.
Lemma meet P a c : ordered (whole a) → ordered (whole c) → listed vars P a → fresh P c → met P a c.
Proof.
  intros Ha Hc Hla Hfc. assert (range_list c ≠ []) as Hne.
  { destruct Hfc as [_ _ (s & Hs & _)]. unfold interval_start in Hs. by destruct (range_list c). }
  assert (∀ p, occupies a p ∧ occupies c p ↔ common (range_list a) (range_list c) p) as Hcom.
  { intros p. unfold common. rewrite (fresh_occupies P c p Hfc). split; intros [H1 H2].
    - split; [|done]. apply (listed_occupies P a p); try done. eapply fresh_after; [done..|]. by apply (fresh_occupies P).
    - split; [|done]. by apply covers_whole. }
  pose proof (ordered_range_list _ Ha) as Hra. pose proof (ordered_range_list _ Hc) as Hrc.
  destruct (intervals_intersect_correct a c Hra Hrc (li_nonempty _ _ _ Hla) Hne) as [(b & Eb & Hb) Hst].
  destruct (intervals_intersect_correct c a Hrc Hra Hne (li_nonempty _ _ _ Hla)) as [_ Hst'].
  split.
  - exists b. split; [done|]. rewrite Hb. by setoid_rewrite Hcom.
  - intros (q & Hq%Hcom). destruct Hst as (p & Ep & Hp & Hmin); [eauto|]. destruct Hst' as (p' & Ep' & [Hp1 Hp2] & Hmin').
    { exists q. destruct Hq. by split. }
    assert (p' = p) as ->.
    { destruct Hp as [? ?]. pose proof (Hmin p' (conj Hp2 Hp1)). assert (p' <= p) by (apply Hmin'; by split). lia. }
    exists p. apply Hcom in Hp as Hp'. destruct Hp' as [? ?]. split_and!; [done..|by eapply fresh_after|done|done|by destruct Hp|].
    intros q' Hq1 Hq2. apply Hmin. by apply Hcom.
Qed.

Section situation.
Context {N : nat} {P : Z} {cur : nat} {c : live_interval} {s : scan} (Hsit : situation N P cur c s).

Lemma sit_ok i it : cores s !! i = Some it → interval_ok vars it.
Proof. apply (sinv_ok _ _ _ _ _ _ _ _ _ _ (si_inv _ _ _ _ _ Hsit)). Qed.
Lemma sit_fresh : fresh P c.
Proof.
  destruct (i_pend _ _ _ _ _ _ (s_inv _ _ _ _ _ _ _ _ (si_inv _ _ _ _ _ Hsit)) cur ltac:(left)) as (it & E & Hf).
  rewrite (si_cur _ _ _ _ _ Hsit) in E. by injection E as <-.
Qed.
Lemma sit_fixed : interval_has_fixed_reg c = false.
Proof. exact (fr_fixed _ _ sit_fresh). Qed.
Lemma sit_listed i : i ∈ active s ∨ i ∈ inactive s → ∃ n, nodes s !! i = Some n ∧ cores s !! i = Some (core (iv n)) ∧
  listed vars P (core (iv n)) ∧ interval_ok vars (core (iv n)) ∧ met P (core (iv n)) c ∧ i ≠ cur.
Proof.
  intros Hi. rewrite <- elem_of_app in Hi.
  destruct (i_lists _ _ _ _ _ _ (s_inv _ _ _ _ _ _ _ _ (si_inv _ _ _ _ _ Hsit)) i Hi) as (Hn & it & E & Hli).
  pose proof E as E'. apply cores_lookup_inv in E as (n & En & ->). exists n. pose proof (sit_ok _ _ E') as Hok.
  split_and!; [done..| |intros ->; apply Hn; left].
  apply meet; [apply (ok_ordered _ _ Hok)|apply (ok_ordered _ _ (sit_ok _ _ (si_cur _ _ _ _ _ Hsit)))|done|apply sit_fresh].
Qed.
Lemma sit_type : ∃ t, interval_vm_type vars c = Some t ∧ typed t.
Proof. destruct (ok_type _ _ (sit_ok _ _ (si_cur _ _ _ _ _ Hsit)) sit_fixed) as (t & E & Ht). by exists t. Qed.
Lemma sit_bounds p : occupies c p → P <= p < 2 ^ 31.
Proof.
  intros Hp. pose proof (sit_ok _ _ (si_cur _ _ _ _ _ Hsit)) as Hok.
  split; [by eapply fresh_after; [apply (ok_ordered _ _ Hok)|apply sit_fresh|]|by apply (ok_bound _ _ Hok)].
Qed.
Lemma sit_P : occupies c P.
Proof.
  apply (fresh_occupies P); [apply sit_fresh|].
  apply (start_covers 0 c P); [apply ordered_range_list, (ok_ordered _ _ (sit_ok _ _ (si_cur _ _ _ _ _ Hsit)))|apply (si_start _ _ _ _ _ Hsit)].
Qed.
Lemma sit_end : ∃ e, interval_end c = Some e ∧ e <= 2 ^ 31 ∧ ∀ p, occupies c p → p < e.
Proof.
  destruct (interval_end_some c) as (e & E & Hlast & He).
  - apply ordered_range_list, (ok_ordered _ _ (sit_ok _ _ (si_cur _ _ _ _ _ Hsit))).
  - pose proof (si_start _ _ _ _ _ Hsit) as Hs. unfold interval_start in Hs. by destruct (range_list c).
  - exists e. split_and!; [done| |].
    + apply covers_whole, sit_bounds in Hlast. lia.
    + intros p Hp. apply He. by apply (fresh_occupies P c p sit_fresh).
Qed.
(** The interval can be cut at a later position of it. *)
Lemma sit_cut p : P < p → occupies c p → can_cut P p cur c s.
Proof.
  intros Hp Hc. pose proof (sit_ok _ _ (si_cur _ _ _ _ _ Hsit)) as Hok. split.
  - apply (si_cur _ _ _ _ _ Hsit).
  - apply sit_fixed.
  - apply (sinv_pend _ _ _ _ _ _ _ _ _ (si_inv _ _ _ _ _ Hsit)).
  - exists P. split; [apply (si_start _ _ _ _ _ Hsit)|done].
  - lia.
  - by apply (fresh_occupies P c p sit_fresh).
  - intros q Hq _. lia.
Qed.
(** An interval off the lists does not reach the position. *)
Lemma sit_past j b : j ≠ cur → cores s !! j = Some b → in_file (reg b) → j ∉ active s → j ∉ inactive s → ∀ p, ¬ (occupies c p ∧ occupies b p).
Proof.
  intros Hj Eb Hr Ha Hi p [Hc Hb]. pose proof (sit_bounds p Hc).
  destruct (i_handled _ _ _ _ _ _ (s_inv _ _ _ _ _ _ _ _ (si_inv _ _ _ _ _ Hsit)) j b) as [Hl|Hp]; [|done|done| |].
  - intros [->|Hn]%elem_of_cons; [done|by apply elem_of_nil in Hn].
  - apply elem_of_app in Hl. tauto.
  - specialize (Hp p Hb). lia.
Qed.
(** An inactive interval does not meet it at the position. *)
Lemma sit_later i n p : i ∈ inactive s → nodes s !! i = Some n → occupies (core (iv n)) p → occupies c p → P < p.
Proof.
  intros Hi En Hp Hc. pose proof (sit_bounds p Hc). destruct (decide (p = P)) as [->|]; [|lia]. exfalso.
  destruct (sit_listed i ltac:(by right)) as (n' & En' & Ec & Hli & Hok & _). assert (n' = n) as -> by congruence.
  apply (si_inactive _ _ _ _ _ Hsit i _ Hi Ec). apply (listed_occupies P); [apply (ok_ordered _ _ Hok)|done|lia|done].
Qed.
End situation.

(** ** Giving a register *)

Lemma sinv_assign N P i lists s it : sinv N P [i] lists s → cores s !! i = Some it → interval_start it = Some P →
  in_file (reg it) → supports vars it (reg it) →
  (∀ j b, j ≠ i → cores s !! j = Some b → reg b = reg it → conflict_free P it b) → sinv N P [] (i :: lists) s.
Proof.
  intros [] Ei Hst Hr Hsup Hcf. split; try done. eapply inv_assign; try done. intros j b Hj _. by apply Hcf.
Qed.

Lemma with_reg_face r n : same_face (core (iv n)) (core (iv (with_reg r n))).
Proof. by split. Qed.
Lemma wp_set_reg N P i lists s it r : sinv N P [i] lists s → cores s !! i = Some it →
  wp (update_node i (with_reg r))
    (λ _ s', sinv N P [i] lists s' ∧ active s' = active s ∧ inactive s' = inactive s ∧ unhandled s' = unhandled s ∧
       (∃ it', cores s' !! i = Some it' ∧ same_face it it' ∧ reg it' = r ∧ range_list it' = range_list it) ∧
       ∀ j, j ≠ i → cores s' !! j = cores s !! j)
    (λ _ _, False) s.
Proof.
  intros Hs Ei. pose proof Hs as [Hinv Hst Hpq HL Hm Hb]. apply cores_lookup_inv in Ei as (n & En & ->). apply (wp_update_node _ n); [done|].
  rewrite <- (insert_alter (with_reg r) i n) by done. set (s' := with_nodes _ s).
  assert (cores s' = <[i := core (iv (with_reg r n))]> (cores s)) as Hc by (unfold cores; cbn [nodes s' with_nodes]; by rewrite !list_fmap_insert).
  assert (is_Some (cores s !! i)) as Hi by (eexists; by apply cores_lookup). apply lookup_lt_is_Some in Hi.
  split_and!; [|done..| |].
  - split; [| |done|done| |done].
    + rewrite Hc. eapply (inv_replace vars); [done|by apply cores_lookup|apply with_reg_face| | | |left; left].
      * intros _. destruct (i_pend _ _ _ _ _ _ Hinv i ltac:(left)) as (it & E & Hf). rewrite (cores_lookup _ _ _ En) in E. injection E as <-.
        destruct Hf. by split.
      * intros Hl. destruct (i_lists _ _ _ _ _ _ Hinv i Hl) as [Hn _]. exfalso. apply Hn. left.
      * apply (sinv_pend _ _ _ _ _ _ _ _ _ Hs).
    + apply (store_set Hst En); [by split|done].
    + pose proof (cuts_insert (nodes s) i n (with_reg r n) En) as Hcu. change (whole (iv (with_reg r n))) with (whole (iv n)) in Hcu.
      cbn [nodes unhandled s' with_nodes]. lia.
  - exists (core (iv (with_reg r n))). rewrite Hc, list_lookup_insert_eq by done. split_and!; [done|apply with_reg_face|done..].
  - intros j Hj. rewrite Hc. by apply list_lookup_insert_ne.
Qed.

(** ** A free register *)

Section free.
Context (N : nat) (P : Z) (cur : nat) (c : live_interval) (s : scan) (Hsit : situation N P cur c s).
Context (t : Types.vm_type) (Ht : interval_vm_type vars c = Some t) (Hty : typed t).

Lemma lists_disjoint i : i ∈ active s → i ∈ inactive s → False.
Proof.
  intros H1 H2. pose proof (i_nodup _ _ _ _ _ _ (s_inv _ _ _ _ _ _ _ _ (si_inv _ _ _ _ _ Hsit))) as Hn.
  apply list.NoDup_app in Hn as (_ & Hn & _). by apply (Hn i).
Qed.
Lemma P_nonneg : 0 <= P.
Proof.
  pose proof (sit_ok Hsit _ _ (si_cur _ _ _ _ _ Hsit)) as Hok. pose proof (sit_P Hsit) as HP.
  by apply (ordered_covers 0 _ P (ok_ordered _ _ Hok)).
Qed.

Definition free_value (r v : Z) : Prop := v = 0 ∨ v = LONG_MAX ∨ (P < v ∧ occupies c v).
Definition free_limit (i : nat) (it : live_interval) (p : Z) : Prop :=
  (i ∈ active s ∧ p = 0) ∨
  (i ∈ inactive s ∧ reg_supports_type (reg it) t = Some true ∧ occupies it p ∧ occupies c p).

Lemma free_limit_file i it p : cores s !! i = Some it → free_limit i it p → in_file (reg it).
Proof.
  intros Ei Hl. assert (i ∈ active s ∨ i ∈ inactive s) as Hi by (destruct Hl as [[? _]|[? _]]; tauto).
  destruct (sit_listed Hsit i Hi) as (n & _ & E & Hli & _). rewrite Ei in E. injection E as ->. apply (li_reg _ _ _ Hli).
Qed.

Lemma wp_active_free : wp (each_interval active_free (active s) all_free)
  (λ arr s', s' = s ∧ ∃ done, (∀ i, i ∈ active s ∨ i ∈ [] → i ∈ done) ∧ filled free_value free_limit (cores s) done arr) (λ _ _, False) s.
Proof.
  apply wp_each; [apply filled_all_free; intros; unfold free_value; tauto|].
  intros i done arr Hi Hf. destruct (sit_listed Hsit i ltac:(by left)) as (n & En & Ec & Hli & _). exists n. split; [done|].
  apply wp_ret. split; [done|]. apply (filled_set _ _ _ done arr i (core (iv n))); try done.
  - apply (li_reg _ _ _ Hli).
  - apply free_limit_file.
  - by left.
  - intros p [[_ ->]|(_ & _ & _ & Hp)]; [lia|]. apply (sit_bounds Hsit) in Hp. pose proof P_nonneg. lia.
Qed.

(** The two tests the loops over the inactive intervals share. *)
Lemma wp_meets {A} i n (k : bool → L A) Q : i ∈ inactive s → nodes s !! i = Some n →
  (reg_supports_type (reg (iv n)) t = Some false → wp (k false) Q (λ _ _, False) s) →
  (reg_supports_type (reg (iv n)) t = Some true → wp (k true) Q (λ _ _, False) s) →
  wp (let* ok := try (reg_supports_type (reg (iv n)) t) in k ok) Q (λ _ _, False) s.
Proof.
  intros Hi En H0 H1. destruct (sit_listed Hsit i ltac:(by right)) as (n' & En' & _ & Hli & _). assert (n' = n) as -> by congruence.
  destruct (supports_total (reg (iv n)) t Hty (li_reg _ _ _ Hli)) as [b Eb]. apply wp_bind. apply (wp_try _ b); [done|]. destruct b; auto.
Qed.

Lemma wp_inactive_free done arr : filled free_value free_limit (cores s) done arr →
  wp (each_interval (inactive_free c t) (inactive s) arr)
  (λ arr s', s' = s ∧ ∃ done', (∀ i, i ∈ inactive s ∨ i ∈ done → i ∈ done') ∧ filled free_value free_limit (cores s) done' arr) (λ _ _, False) s.
Proof.
  intros Hf0. apply wp_each; [done|]. clear done arr Hf0. intros i done arr Hi Hf.
  destruct (sit_listed Hsit i ltac:(by right)) as (n & En & Ec & Hli & Hok & [(b & Eb & Hb) Hst] & _). exists n. split; [done|].
  unfold inactive_free. apply (wp_meets i n); [done..| |]; intros Hsup; cbn [negb].
  - apply wp_ret. split; [done|]. eapply filled_skip; [done..|]. intros p [[Ha _]|(_ & E & _)]; [by eapply lists_disjoint|].
    change (reg (core (iv n))) with (reg (iv n)) in E. congruence.
  - apply wp_bind. apply (wp_try _ b); [exact Eb|]. destruct b; cbn [negb].
    + destruct Hst as (p & Ep & _ & _ & Hp1 & Hp2 & _ & Hmin); [by apply Hb|]. apply wp_bind. apply (wp_try _ (Returns p)); [exact Ep|].
      apply wp_bind. apply wp_ret. apply wp_ret. split; [done|].
      apply (filled_set _ _ _ done arr i (core (iv n))); try done; [apply (li_reg _ _ _ Hli)|apply free_limit_file| |].
      * right. right. split; [|done]. by eapply (sit_later Hsit i n).
      * intros q [[Ha _]|(_ & _ & ? & ?)]; [exfalso; by eapply lists_disjoint|by apply Hmin].
    + apply wp_ret. split; [done|]. eapply filled_skip; [done..|]. intros p [[Ha _]|(_ & _ & ? & ?)]; [by eapply lists_disjoint|].
      assert (false = true) by (apply Hb; eauto). done.
Qed.

(** A register with a position other than 0 is free for the interval up to there. *)
Lemma free_until done arr r p j b : filled free_value free_limit (cores s) done arr →
  (∀ i, i ∈ active s ∨ i ∈ inactive s → i ∈ done) → reg_supports_type r t = Some true → val arr r ≠ 0 →
  j ≠ cur → cores s !! j = Some b → reg b = r → occupies c p → occupies b p → val arr r <= p.
Proof.
  intros [_ Hs Hl] Hd Hsup Hv Hj Eb <- Hc Hb. pose proof (supports_in_file _ _ Hsup) as Hr.
  destruct (decide (j ∈ active s)) as [Ha|Ha]; [|destruct (decide (j ∈ inactive s)) as [Hi|Hi]].
  - specialize (Hl j b 0 (Hd j ltac:(by left)) Eb ltac:(by left)). pose proof P_nonneg.
    destruct (Hs _ Hr) as [?|[?|[? _]]]; unfold LONG_MAX in *; [done|lia|lia].
  - apply (Hl j b p (Hd j ltac:(by right)) Eb). right. done.
  - by destruct (sit_past Hsit j b Hj Eb Hr Ha Hi p).
Qed.
End free.

(** The interval has a register and is active; or it has none and no uses. *)
Definition gave (N : nat) (P : Z) (cur : nat) (s s' : scan) : Prop :=
  sinv N P [] (cur :: active s ++ inactive s) s' ∧ active s' = active s ∧ inactive s' = inactive s ∧
  ∃ n, nodes s' !! cur = Some n ∧ reg (iv n) ≠ MACH_REG_UNASSIGNED.
Definition left_over (N : nat) (P : Z) (cur : nat) (s s' : scan) : Prop :=
  sinv N P [] (active s ++ inactive s) s' ∧ active s' = active s ∧ inactive s' = inactive s ∧
  ∃ n, nodes s' !! cur = Some n ∧ reg (iv n) = MACH_REG_UNASSIGNED.

Lemma in_file_assigned r : in_file r → r ≠ MACH_REG_UNASSIGNED.
Proof. intros Hr ->. by apply unassigned_not_in_file. Qed.
Lemma face_supports a b r : same_face a b → supports vars a r → supports vars b r.
Proof. intros [_ _ _ Hv]. by apply supports_var. Qed.
Lemma face_conflict_r P a b x : same_face a b → conflict_free P x a → conflict_free P x b.
Proof. intros Hf Hc. apply conflict_free_sym. eapply face_conflict; [done|]. by apply conflict_free_sym. Qed.

(** Giving the register [r] to the interval, cut or not, once that is free of conflicts. *)
Lemma wp_give N P cur s0 s c r : sinv N P [cur] (active s0 ++ inactive s0) s → active s = active s0 → inactive s = inactive s0 →
  cores s !! cur = Some c → interval_start c = Some P → supports vars c r → in_file r →
  (∀ j b, j ≠ cur → cores s !! j = Some b → reg b = r → conflict_free P c b) →
  wp (update_node cur (with_reg r)) (λ _ s', gave N P cur s0 s') (λ _ _, False) s.
Proof.
  intros Hs Ha Hi Ec Hst Hsup Hr Hcf. eapply wp_mono; [eapply wp_set_reg; done|cbv beta|done].
  intros _ s' (Hs' & Ha' & Hi' & _ & (c' & Ec' & Hf & Hr' & Hrl) & Ho). unfold gave.
  split_and!; [|congruence..|].
  - eapply sinv_assign; [done..| | | |].
    + unfold interval_start in *. by rewrite Hrl.
    + by rewrite Hr'.
    + rewrite Hr'. by eapply face_supports.
    + intros j b Hj Eb Hrb. rewrite Ho in Eb by done. eapply face_conflict; [done|]. apply (Hcf j b); [done..|congruence].
  - apply cores_lookup_inv in Ec' as (n & En & ->). exists n. split; [done|]. apply in_file_assigned. change (reg (core (iv n))) with (reg (iv n)) in Hr'.
    by rewrite Hr'.
Qed.

Lemma wp_try_free N P cur c s : situation N P cur c s →
  wp (try_to_allocate_free_reg vars cur) (λ _ s', s' = s ∨ gave N P cur s s') (λ _ _, False) s.
Proof.
  intros Hsit. destruct (sit_type Hsit) as (t & Et & Hty). pose proof (si_cur _ _ _ _ _ Hsit) as Ec.
  destruct (sit_end Hsit) as (e & Ee & Hemax & He). pose proof (si_inv _ _ _ _ _ Hsit) as Hs.
  apply cores_lookup_inv in Ec as (n & En & ->).
  unfold try_to_allocate_free_reg. apply wp_bind. apply (wp_lookup_node _ n); [done|]. do 2 (apply wp_bind; apply wp_get).
  apply wp_bind. eapply wp_mono; [by eapply (wp_active_free N P cur _ s Hsit t)|cbv beta|done]. intros arr0 s' (-> & d0 & Hd0 & Hf0).
  apply wp_bind. apply (wp_try _ t); [done|].
  apply wp_bind. change (inactive_free (iv n) t) with (inactive_free (core (iv n)) t).
  eapply wp_mono; [by eapply (wp_inactive_free N P cur _ s Hsit t)|cbv beta|done]. intros arr s' (-> & d & Hd & Hf).
  assert (∀ i, i ∈ active s ∨ i ∈ inactive s → i ∈ d) as Hall' by (intros i [?|?]; apply Hd; [right; apply Hd0|]; by left).
  destruct (pick_register_spec arr t (fl_length _ _ _ _ _ Hf) Hty) as (r & Er & Hsup & _).
  { intros r Hr. pose proof (P_nonneg N P cur _ s Hsit). destruct (fl_sound _ _ _ _ _ Hf r Hr) as [->|[->|[? _]]]; unfold LONG_MAX; lia. }
  pose proof (supports_in_file _ _ Hsup) as Hr. pose proof (val_lookup arr r (fl_length _ _ _ _ _ Hf) Hr) as Ev.
  assert (supports vars (core (iv n)) r) as Hsr by (by exists t).
  apply wp_bind. apply (wp_try _ r); [done|]. apply wp_bind. apply (wp_try _ (val arr r)); [done|]. case_decide as Hz; [apply wp_ret; by left|].
  pose proof (λ p j b, free_until N P cur _ s Hsit t d arr r p j b Hf Hall' Hsup Hz) as Huntil.
  apply wp_bind. apply (wp_try _ e); [done|]. case_decide as Hle.
  - eapply wp_mono; [eapply (wp_give N P cur s s (core (iv n)) r); try done|intros; by right|done].
    + apply cores_lookup, En.
    + apply (si_start _ _ _ _ _ Hsit).
    + intros j b Hj Eb Hrb. right. intros p [Hc Hb]. specialize (Huntil p j b Hj Eb Hrb Hc Hb). specialize (He p Hc). lia.
  - destruct (fl_sound _ _ _ _ _ Hf r Hr) as [?|[Hx|[Hp Ho]]]; [done|unfold LONG_MAX in Hx; lia|].
    apply wp_bind. eapply wp_mono; [apply (wp_spill Hall vars its0 regs N P [cur] (active s ++ inactive s) s cur (core (iv n)) (val arr r)); [done|by apply (sit_cut Hsit)]|cbv beta|done].
    intros _ s1 (Hs1 & [A1 A2 (old & new & Hsf & Eold) A4 A5]).
    eapply wp_mono; [eapply (wp_give N P cur s s1 old r); try done|intros; by right|done].
    + rewrite (sf_old_start _ _ _ _ Hsf). apply (si_start _ _ _ _ _ Hsit).
    + eapply supports_var; [|exact Hsr]. by rewrite (proj1 (sf_var _ _ _ _ Hsf)).
    + intros j b Hj Eb Hrb. right. intros p [Hc Hb]. apply (sf_old _ _ _ _ Hsf) in Hc as [Hc Hlt].
      destruct (cores s !! j) as [b0|] eqn:Eb0.
      * assert (b0 = b) as -> by (rewrite (A4 j b0 Hj Eb0) in Eb; congruence). specialize (Huntil p j b Hj Eb0 Hrb Hc Hb). lia.
      * rewrite (A5 j b Eb0 Eb) in Hrb. subst r. by apply unassigned_not_in_file.
Qed.

(** ** A register taken from others *)

(** A range that has a position in its middle keeps others from starting there. *)
Lemma no_start_inside it r P q : ordered (whole it) → head (range_list it) = Some r → start r < P < end_ r →
  starts_at it q → q <= P → q < P.
Proof.
  intros Ho Hh Hr (x & Hx & <-) Hq. destruct (range_list it) as [|r0 rs] eqn:E; [done|]. injection Hh as ->.
  rewrite whole_eq, E in Ho, Hx. apply ordered_app in Ho as [Ho1 Ho2]. apply elem_of_app in Hx as [Hx|[->|Hx]%elem_of_cons]; [|lia|].
  - assert (covers (reverse (expired_range_list it)) (start x)) as Hc.
    { exists x. split; [done|]. assert (start x < end_ x < 2 ^ 32); [|lia]. apply (ordered_start 0 _ x Ho1). apply elem_of_app. by left. }
    pose proof (ordered_app_before _ _ _ _ Ho1 Hc). lia.
  - pose proof (ordered_start _ _ _ Ho2 Hx). lia.
Qed.

Section blocked.
Context (N : nat) (P : Z) (cur : nat) (c : live_interval) (s : scan) (Hsit : situation N P cur c s).
Context (t : Types.vm_type) (Ht : interval_vm_type vars c = Some t) (Hty : typed t).

Definition active_fixed (r : Z) : Prop := ∃ i it, i ∈ active s ∧ cores s !! i = Some it ∧ interval_has_fixed_reg it = true ∧ reg it = r.
Definition use_value (r v : Z) : Prop := v <= LONG_MAX ∧ (P <= v ∨ (v = 0 ∧ active_fixed r)).
Definition block_value (r v : Z) : Prop := v = LONG_MAX ∨ (v = 0 ∧ active_fixed r) ∨ (P < v ∧ occupies c v).
Definition no_limit (i : nat) (it : live_interval) (p : Z) : Prop := False.
Definition block_limit (i : nat) (it : live_interval) (p : Z) : Prop := interval_has_fixed_reg it = true ∧
  ((i ∈ active s ∧ p = 0) ∨ (i ∈ inactive s ∧ reg_supports_type (reg it) t = Some true ∧ occupies it p ∧ occupies c p)).

Abbreviation uses_ok := (filled use_value no_limit (cores s)).

Lemma P_max : P < LONG_MAX.
Proof. pose proof (sit_bounds Hsit P (sit_P Hsit)). unfold LONG_MAX. lia. Qed.
Lemma next_use_later i n : i ∈ active s ∨ i ∈ inactive s → nodes s !! i = Some n → interval_has_fixed_reg (iv n) = false →
  ∃ p, next_use_pos (iv n) P = Some p ∧ use_value (reg (iv n)) p.
Proof.
  intros Hi En Hf. destruct (sit_listed Hsit i Hi) as (n' & En' & _ & _ & Hok & _). assert (n' = n) as -> by congruence.
  pose proof (ok_uses _ _ Hok) as Hu. rewrite core_fixed in Hu. specialize (Hu Hf).
  destruct (next_use_loop_spec (use_positions (iv n)) P LONG_MAX) as (m & E & Hm & Hc & _).
  { apply list.Forall_forall. intros u Hx. by apply (Hu u). }
  exists m. split; [done|]. split; [done|]. left. destruct Hc as [->|(u & _ & _ & ?)]; [|done]. pose proof P_max. lia.
Qed.
Lemma wp_set_use done arr i n p : uses_ok done arr → cores s !! i = Some (core (iv n)) → in_file (reg (iv n)) → use_value (reg (iv n)) p →
  wp (try (set_use_pos arr (reg (iv n)) p)) (λ arr' s', s' = s ∧ uses_ok (i :: done) arr') (λ _ _, False) s.
Proof.
  intros Hf Ec Hr Hp. unfold set_use_pos. rewrite decide_True by exact Hr. eapply wp_try; [done|]. split; [done|].
  by apply (filled_set _ _ _ done arr i (core (iv n))).
Qed.

Lemma wp_active_use : wp (each_interval (active_use P) (active s) all_free)
  (λ arr s', s' = s ∧ ∃ done, uses_ok done arr) (λ _ _, False) s.
Proof.
  eapply wp_mono; [apply (wp_each _ uses_ok _ [])|cbv beta|done].
  - apply filled_all_free. intros r. split; [lia|left]. pose proof P_max. lia.
  - intros i done arr Hi Hf. destruct (sit_listed Hsit i ltac:(by left)) as (n & En & Ec & Hli & _). exists n. split; [done|].
    unfold active_use. destruct (interval_has_fixed_reg (iv n)) eqn:Ef.
    + apply wp_ret. split; [done|]. by apply (filled_skip _ _ _ _ _ _ (core (iv n))); [..|intros p []].
    + destruct (next_use_later i n) as (p & Ep & Hp); [by left|done..|]. apply wp_bind. apply (wp_try _ p); [done|].
      apply wp_set_use; [done..|apply (li_reg _ _ _ Hli)|done].
  - intros arr s' (-> & d & _ & Hd). eauto.
Qed.
Lemma wp_inactive_use done arr : uses_ok done arr → wp (each_interval (inactive_use c t P) (inactive s) arr)
  (λ arr s', s' = s ∧ ∃ done, uses_ok done arr) (λ _ _, False) s.
Proof.
  intros Hf0. eapply wp_mono; [apply (wp_each _ uses_ok _ done)|cbv beta|done]; [done| |intros a s' (-> & d & _ & Hd); eauto].
  clear done arr Hf0. intros i done arr Hi Hf. destruct (sit_listed Hsit i ltac:(by right)) as (n & En & Ec & Hli & _ & [(b & Eb & _) _] & _).
  exists n. split; [done|]. assert (uses_ok (i :: done) arr) as Hskip by (by apply (filled_skip _ _ _ _ _ _ (core (iv n))); [..|intros p []]).
  unfold inactive_use. destruct (interval_has_fixed_reg (iv n)) eqn:Ef; [by apply wp_ret|].
  apply (wp_meets N P cur c s Hsit t Hty i n); [done..| |]; intros Hsup; cbn [negb]; [by apply wp_ret|].
  apply wp_bind. apply (wp_try _ b); [exact Eb|]. destruct b; cbn [negb]; [|by apply wp_ret].
  destruct (next_use_later i n) as (p & Ep & Hp); [by right|done..|]. apply wp_bind. apply (wp_try _ p); [done|].
  apply wp_set_use; [done..|apply (li_reg _ _ _ Hli)|done].
Qed.

(** The block positions are limited by the fixed intervals and never below the use
    positions. *)
Definition blocks_ok (done : list nat) (bu : list Z * list Z) : Prop :=
  filled block_value block_limit (cores s) done bu.1 ∧ (∃ d, uses_ok d bu.2) ∧ ∀ r, in_file r → val bu.2 r <= val bu.1 r.

Lemma block_limit_file i it p : cores s !! i = Some it → block_limit i it p → in_file (reg it).
Proof.
  intros Ei Hl. assert (i ∈ active s ∨ i ∈ inactive s) as Hi by (destruct Hl as [_ [[? _]|[? _]]]; tauto).
  destruct (sit_listed Hsit i Hi) as (n & _ & E & Hli & _). rewrite Ei in E. injection E as ->. apply (li_reg _ _ _ Hli).
Qed.
Lemma wp_set_block done bu i n p : blocks_ok done bu → cores s !! i = Some (core (iv n)) → in_file (reg (iv n)) →
  use_value (reg (iv n)) p → block_value (reg (iv n)) p → (∀ q, block_limit i (core (iv n)) q → p <= q) →
  wp (try (set_block_pos bu (reg (iv n)) p)) (λ bu' s', s' = s ∧ blocks_ok (i :: done) bu') (λ _ _, False) s.
Proof.
  intros (Hb & (d & Hu) & Hle) Ec Hr Hp Hp' Hl. unfold set_block_pos. rewrite decide_True by exact Hr. eapply wp_try; [done|]. split; [done|].
  split_and!; cbn [fst snd].
  - apply (filled_set _ _ _ done _ i (core (iv n))); try done. apply block_limit_file.
  - exists (i :: d). by apply (filled_set _ _ _ d _ i (core (iv n))).
  - intros r Hin. rewrite !set_free_val by (done || apply (fl_length _ _ _ _ _ Hb) || apply (fl_length _ _ _ _ _ Hu)).
    specialize (Hle r Hin) as H1. specialize (Hle _ Hr) as H2. case_decide; lia.
Qed.
Lemma blocks_skip done bu i n : blocks_ok done bu → cores s !! i = Some (core (iv n)) → (∀ q, ¬ block_limit i (core (iv n)) q) →
  blocks_ok (i :: done) bu.
Proof. intros (Hb & Hu & Hle) Ec Hl. split_and!; [|done..]. by apply (filled_skip _ _ _ _ _ _ (core (iv n))). Qed.

Lemma wp_active_block done arr : uses_ok done arr → wp (each_interval active_block (active s) (all_free, arr))
  (λ bu s', s' = s ∧ ∃ d, (∀ i, i ∈ active s ∨ i ∈ [] → i ∈ d) ∧ blocks_ok d bu) (λ _ _, False) s.
Proof.
  intros Hf0. apply wp_each.
  - split_and!; [apply filled_all_free; intros; by left|by exists done|]. intros r Hr. destruct (fl_sound _ _ _ _ _ Hf0 r Hr) as [Hle _].
    cbn [fst snd]. unfold val at 2, all_free. rewrite lookup_replicate_2; [done|]. unfold in_file in Hr. lia.
  - clear done arr Hf0. intros i done bu Hi Hf. destruct (sit_listed Hsit i ltac:(by left)) as (n & En & Ec & Hli & _).
    exists n. split; [done|]. unfold active_block. destruct (interval_has_fixed_reg (iv n)) eqn:Ef; cbn [negb].
    + assert (active_fixed (reg (iv n))) as Haf by (exists i, (core (iv n)); by rewrite core_fixed).
      apply (wp_set_block done); [done..|apply (li_reg _ _ _ Hli)|split; [unfold LONG_MAX; lia|by right]|right; by left|].
      intros q (_ & [[_ ->]|(_ & _ & _ & Hq)]); [lia|]. apply (sit_bounds Hsit) in Hq. pose proof (P_nonneg N P cur c s Hsit). lia.
    + apply wp_ret. split; [done|]. apply (blocks_skip done _ i n); [done..|]. intros q [Hq _]. rewrite core_fixed in Hq. congruence.
Qed.
Lemma wp_inactive_block done bu : blocks_ok done bu → wp (each_interval (inactive_block c t) (inactive s) bu)
  (λ bu s', s' = s ∧ ∃ d, (∀ i, i ∈ inactive s ∨ i ∈ done → i ∈ d) ∧ blocks_ok d bu) (λ _ _, False) s.
Proof.
  intros Hf0. apply wp_each; [done|]. clear done bu Hf0. intros i done bu Hi Hf.
  destruct (sit_listed Hsit i ltac:(by right)) as (n & En & Ec & Hli & Hok & [(b & Eb & Hb) Hst] & _). exists n. split; [done|].
  unfold inactive_block. destruct (interval_has_fixed_reg (iv n)) eqn:Ef; cbn [negb].
  2: { apply wp_ret. split; [done|]. apply (blocks_skip done _ i n); [done..|]. intros q [Hq _]. rewrite core_fixed in Hq. congruence. }
  apply (wp_meets N P cur c s Hsit t Hty i n); [done..| |]; intros Hsup; cbn [negb].
  - apply wp_ret. split; [done|]. apply (blocks_skip done _ i n); [done..|]. intros q (_ & [[Ha _]|(_ & E & _)]); [by eapply lists_disjoint|].
    change (reg (core (iv n))) with (reg (iv n)) in E. congruence.
  - apply wp_bind. apply (wp_try _ b); [exact Eb|]. destruct b; cbn [negb].
    + destruct Hst as (p & Ep & _ & _ & Hp1 & Hp2 & _ & Hmin); [by apply Hb|]. apply wp_bind. apply (wp_try _ (Returns p)); [exact Ep|].
      apply wp_bind. apply wp_ret. pose proof (sit_later Hsit i n p Hi En Hp1 Hp2). pose proof (sit_bounds Hsit p Hp2).
      apply (wp_set_block done); [done..|apply (li_reg _ _ _ Hli)|split; [unfold LONG_MAX; lia|left; lia]|right; by right|].
      intros q (_ & [[Ha _]|(_ & _ & ? & ?)]); [exfalso; by eapply lists_disjoint|by apply Hmin].
    + apply wp_ret. split; [done|]. apply (blocks_skip done _ i n); [done..|]. intros q (_ & [[Ha _]|(_ & _ & ? & ?)]); [by eapply lists_disjoint|].
      assert (false = true) by (apply Hb; eauto). done.
Qed.
End blocked.
End alloc.
