(* ===== verification/LinearScanBlocked.v ===== *)
(** * Taking a register from other intervals in the linear scan

    [allocate_blocked_reg]: the interval is cut before its next use, or it gets a
    register and every interval that meets it there is cut. *)

From S2P Require Import Prelude CMonad Types Interval Pqueue LinearScan LinearScanSpec LinearScanStore LinearScanSpill LinearScanAlloc.
#[local] Open Scope Z_scope.

Section blocked.
Context `{Allocator} (Hall : ∀ n sz, malloc_ok n sz = true).
Context (vars : list struct_var_info) (its0 : list live_interval) (regs : block).
Abbreviation sinv := (sinv vars its0 regs).
Abbreviation situation := (situation vars its0 regs).
Abbreviation queued s := (value <$> contents (unhandled s)).

Section spill.
Context (N : nat) (P : Z) (cur : nat) (c : live_interval) (s : scan) (Hsit : situation N P cur c s).
(** The interval as it was given the register [r], which the fixed intervals leave
    free. *)
Context (c' : live_interval) (r : Z) (Hr : reg c' = r) (Hin : in_file r).
Context (Hst : interval_start c' = Some P) (Hc' : ∀ p, occupies c' p → occupies c p) (Hord : ordered (whole c')).
Context (Hfree : ∀ i it p, cores s !! i = Some it → i ∈ active s ∨ i ∈ inactive s → interval_has_fixed_reg it = true → reg it = r →
  ¬ (occupies it p ∧ occupies c' p)).

(** With the intervals [rem] still to be gone through. *)
Record spilling (rem : list nat) (s' : scan) : Prop := {
  sl_inv : sinv N P [cur] (active s ++ inactive s) s';
  sl_active : active s' = active s;
  sl_inactive : inactive s' = inactive s;
  sl_cur : cores s' !! cur = Some c';
  sl_nodup : NoDup rem;
  sl_rem : ∀ i, i ∈ rem → i ∈ active s ∨ i ∈ inactive s;
  sl_same : ∀ i, i ∈ rem → cores s' !! i = cores s !! i;
  sl_done : ∀ j b, j ≠ cur → j ∉ rem → cores s' !! j = Some b → reg b = r → conflict_free P c' b;
}.

Lemma spilling_fresh rem s' : spilling rem s' → fresh P c'.
Proof.
  intros Hsl. destruct (i_pend _ _ _ _ _ _ (s_inv _ _ _ _ _ _ _ _ (sl_inv _ _ Hsl)) cur ltac:(left)) as (it & E & Hf).
  rewrite (sl_cur _ _ Hsl) in E. by injection E as <-.
Qed.
Lemma listed_not_queued rem s' i it : spilling rem s' → cores s' !! i = Some it → in_file (reg it) → i ∉ queued s'.
Proof.
  intros Hsl Ei Hf (e & -> & He)%list_elem_of_fmap.
  destruct (i_queue _ _ _ _ _ _ (s_inv _ _ _ _ _ _ _ _ (sl_inv _ _ Hsl)) e He) as (x & Ex & _ & _ & Hx & _).
  assert (x = it) as -> by congruence. rewrite Hx in Hf. by apply unassigned_not_in_file.
Qed.

(** The interval [i] is done when it does not meet [c'] any more. *)
Lemma spilling_next i rem s' : spilling (i :: rem) s' →
  (∀ b, i ≠ cur → cores s' !! i = Some b → reg b = r → conflict_free P c' b) → spilling rem s'.
Proof.
  intros [] Hi. split; try done.
  - by inversion sl_nodup0.
  - intros j Hj. apply sl_rem0. by right.
  - intros j Hj. apply sl_same0. by right.
  - intros j b Hne Hj Ej Hb. destruct (decide (j = i)) as [->|]; [by apply Hi|].
    apply (sl_done0 j); [done| |done..]. rewrite elem_of_cons. tauto.
Qed.

(** Where an interval with the register meets the one in hand: an active one at the
    position, in its first range; an inactive one later, having started before. *)
Lemma spilling_meet i rem s' n p : spilling (i :: rem) s' → nodes s' !! i = Some n → reg (iv n) = r →
  occupies (core (iv n)) p → occupies c' p → (∀ q, occupies (core (iv n)) q → occupies c' q → p <= q) →
  interval_has_fixed_reg (core (iv n)) = false ∧ ∃ s0, interval_start (core (iv n)) = Some s0 ∧ s0 <= p ∧
    (s0 = p → p = P ∧ starts_at (core (iv n)) P) ∧ (s0 < p → P <= p ∧ ∀ q, q <= P → starts_at (core (iv n)) q → q < p).
Proof.
  intros Hsl En Hrn Hp1 Hp2 Hmin. pose proof (sl_rem _ _ Hsl i ltac:(left)) as Hi.
  pose proof (cores_lookup _ _ _ En) as Ec. rewrite (sl_same _ _ Hsl i ltac:(left)) in Ec.
  destruct (sit_listed vars its0 regs Hsit i Hi) as (n' & En' & Ec' & Hli & Hok & _). assert (core (iv n') = core (iv n)) as Ecore by congruence.
  rewrite Ecore in *. clear Ec'. assert (occupies c P) as HcP by apply (sit_P vars its0 regs Hsit).
  destruct (interval_has_fixed_reg (core (iv n))) eqn:Ef; [exfalso; by eapply (Hfree i)|].
  split; [done|]. destruct (li_start _ _ _ Hli Ef) as (_ & s0 & Hs0 & Hle). exists s0. split; [done|].
  pose proof (sit_bounds vars its0 regs Hsit p (Hc' p Hp2)) as Hb. destruct Hi as [Ha|Hina].
  - destruct (si_active _ _ _ _ _ _ _ _ Hsit i _ Ha Ec) as (r0 & Hh & Hr0).
    assert (s0 = start r0) as -> by (unfold interval_start in Hs0; destruct (range_list (core (iv n))); [done|]; cbn in *; congruence).
    assert (occupies (core (iv n)) P) as HoP.
    { apply covers_whole. exists r0. split; [|lia]. destruct (range_list (core (iv n))); [done|]. injection Hh as ->. left. }
    assert (occupies c' P) as HcP'.
    { apply covers_whole. by apply (start_covers 0 c' P (ordered_range_list _ Hord)). }
    specialize (Hmin P HoP HcP'). assert (p = P) as -> by lia. split_and!; [lia| |].
    + intros E. split; [done|]. exists r0. split; [|done]. rewrite whole_eq. apply elem_of_app. right.
      destruct (range_list (core (iv n))); [done|]. injection Hh as ->. left.
    + intros Hlt. split; [lia|]. intros q Hq Hs. eapply (no_start_inside _ r0); [apply (ok_ordered _ _ Hok)|done|lia|done|done].
  - assert (P < p) as Hlt by (eapply (sit_later vars its0 regs Hsit i n'); [done..|by rewrite Ecore|by apply Hc']).
    split_and!; [lia|intros; lia|]. intros _. split; [lia|]. intros q Hq _. lia.
Qed.

Lemma wp_spill_intersecting i rem s' : spilling (i :: rem) s' →
  wp (spill_interval_intersecting cur r i) (λ _ s'', spilling rem s'') (λ _ _, False) s'.
Proof.
  intros Hsl. pose proof (sl_rem _ _ Hsl i ltac:(left)) as Hi. pose proof (spilling_fresh _ _ Hsl) as Hfr.
  rewrite <- elem_of_app in Hi. pose proof (s_inv _ _ _ _ _ _ _ _ (sl_inv _ _ Hsl)) as Hinv.
  destruct (i_lists _ _ _ _ _ _ Hinv i Hi) as (Hncur & it & Ei & Hli). pose proof (i_ok _ _ _ _ _ _ Hinv i it Ei) as Hok.
  assert (i ≠ cur) as Hne by (intros ->; apply Hncur; left). pose proof Ei as Ei'. apply cores_lookup_inv in Ei as (n & En & ->).
  unfold spill_interval_intersecting. apply wp_bind. apply (wp_lookup_node _ n); [done|]. case_decide as Hreg.
  { apply wp_ret. apply (spilling_next i); [done|]. intros b _ Eb Hb. rewrite Ei' in Eb. injection Eb as <-. by destruct Hreg. }
  pose proof (sl_cur _ _ Hsl) as Ecur. apply cores_lookup_inv in Ecur as (m & Em & Ec').
  apply wp_bind. apply (wp_lookup_node _ m); [done|].
  destruct (meet vars P (core (iv n)) c' (ok_ordered _ _ Hok) Hord Hli Hfr) as [(b & Eb & Hb) Hmt].
  apply wp_bind. apply (wp_try _ b); [by rewrite Ec' in Eb|]. destruct b; cbn [negb].
  2: { apply wp_ret. apply (spilling_next i); [done|]. intros x _ Ex _. rewrite Ei' in Ex. injection Ex as <-. right. intros p [H1 H2].
       assert (false = true) by (apply Hb; eauto). done. }
  destruct Hmt as (p & _ & Ep & HPp & Hp1 & Hp2 & Hcov & Hmin); [by apply Hb|].
  apply wp_bind. apply (wp_try _ (Returns p)); [by rewrite Ec' in Ep|]. apply wp_bind. apply wp_ret.
  destruct (spilling_meet i rem s' n p Hsl En Hreg Hp1 Hp2 Hmin) as (Hf & s0 & Hs0 & Hle & Heq & Hlt).
  apply wp_bind. apply (wp_try _ s0); [exact Hs0|]. case_decide as E.
  - apply wp_ret. apply (spilling_next i); [done|]. intros x _ Ex _. rewrite Ei' in Ex. injection Ex as <-.
    destruct (Heq (eq_sym E)) as [-> HsP]. left. split_and!; [apply (fr_fixed _ _ Hfr)|done|]. exists P. split_and!; [lia| |done].
    unfold interval_start in Hst. destruct (range_list c') as [|r0 rs] eqn:Er; [done|]. injection Hst as Hst'. exists r0.
    split; [|done]. rewrite whole_eq, Er. apply elem_of_app. right. left.
  - destruct Hlt as [_ Hlt]; [lia|]. pose proof (listed_not_queued _ _ _ _ Hsl Ei' (li_reg _ _ _ Hli)) as Hq.
    eapply wp_mono; [apply (wp_spill Hall vars its0 regs N P [cur] (active s ++ inactive s) s' i (core (iv n)) p)|cbv beta|done].
    + apply (sl_inv _ _ Hsl).
    + split; try done. exists s0. split; [done|lia].
    + intros _ s2 (Hs2 & [A1 A2 (old & new & Hsf & Eold) A4 A5]). destruct Hsl. split.
      * done.
      * congruence.
      * congruence.
      * by apply A4.
      * by inversion sl_nodup0.
      * intros j Hj. apply sl_rem0. by right.
      * intros j Hj. rewrite <- (sl_same0 j ltac:(by right)). apply list.NoDup_cons in sl_nodup0 as [Hnot _].
        assert (j ∈ active s ++ inactive s) as Hjl by (apply elem_of_app, sl_rem0; by right).
        destruct (i_lists _ _ _ _ _ _ Hinv j Hjl) as (_ & x & Ex & _). rewrite Ex. apply A4; [congruence|done].
      * intros j b Hjc Hj Ej Hrb. destruct (decide (j = i)) as [->|Hji].
        { assert (b = old) as -> by congruence. right. intros q [H1 H2]. apply (sf_old _ _ _ _ Hsf) in H2 as [H2 Hqp].
          specialize (Hmin q H2 H1). lia. }
        destruct (cores s' !! j) as [x|] eqn:Ex.
        { assert (x = b) as -> by (rewrite (A4 j x Hji Ex) in Ej; congruence). apply (sl_done0 j); [done| |done..].
          rewrite elem_of_cons. tauto. }
        rewrite (A5 j b Ex Ej) in Hrb. rewrite <- Hrb in Hin. by apply unassigned_not_in_file in Hin.
Qed.

Lemma wp_spill_each rem rest s' : spilling (rem ++ rest) s' →
  wp (for_each (spill_interval_intersecting cur r) rem) (λ _ s'', spilling rest s'') (λ _ _, False) s'.
Proof.
  intros Hsl. apply (wp_for_each _ (λ rem s', spilling (rem ++ rest) s') (λ _ _, False)); [done|].
  intros i l s1 H1. by apply wp_spill_intersecting.
Qed.
Lemma wp_spill_all s' : spilling (active s ++ inactive s) s' →
  wp (spill_all_intervals_intersecting cur r) (λ _ s'', spilling [] s'') (λ _ _, False) s'.
Proof.
  intros Hsl. unfold spill_all_intervals_intersecting. apply wp_bind. apply wp_get. rewrite (sl_active _ _ Hsl).
  apply wp_bind. eapply wp_mono; [by apply (wp_spill_each (active s) (inactive s))|cbv beta|done]. intros _ s1 H1.
  apply wp_bind. apply wp_get. rewrite (sl_inactive _ _ H1). apply wp_spill_each. by rewrite app_nil_r.
Qed.
End spill.

(** ** The choice *)

Section choice.
Context {N : nat} {P : Z} {cur : nat} {c : live_interval} {s : scan} (Hsit : situation N P cur c s).

(** The first use of the interval. *)
Lemma first_use : ∃ m, next_use_pos c 0 = Some m ∧ next_use_pos c P = Some m ∧ P <= m ∧ 1 <= m ∧ occupies c m ∧
  (∃ u, u ∈ use_positions c ∧ first_pos u = m) ∧ ∀ u, u ∈ use_positions c → m <= first_pos u.
Proof.
  pose proof (sit_ok vars its0 regs Hsit _ _ (si_cur _ _ _ _ _ _ _ _ Hsit)) as Hok.
  pose proof (ok_uses _ _ Hok (sit_fixed vars its0 regs Hsit)) as Hu.
  assert (Forall use_ok (use_positions c)) as Huok by (apply list.Forall_forall; intros u Hx; by apply (Hu u)).
  assert (∀ q u, q <= P → u ∈ use_positions c → q <= first_pos u < LONG_MAX) as Hb.
  { intros q u Hq Hx. destruct (Hu u Hx) as (_ & _ & Ho). pose proof (sit_bounds vars its0 regs Hsit _ Ho). unfold LONG_MAX. lia. }
  pose proof (P_nonneg vars its0 regs N P cur c s Hsit) as HP. pose proof (si_uses _ _ _ _ _ _ _ _ Hsit) as Hne.
  destruct (next_use_first c 0 Huok Hne) as (m & E0 & (u & Hx & Hum) & Hmin); [intros; by apply Hb|].
  destruct (next_use_first c P Huok Hne) as (m' & EP & (u' & Hx' & Hum') & Hmin'); [intros; by apply Hb|].
  assert (m' = m) as ->. { specialize (Hmin u' Hx'). specialize (Hmin' u Hx). lia. }
  exists m. destruct (Hu u Hx) as (_ & H1 & Ho). rewrite Hum in *.
  pose proof (sit_bounds vars its0 regs Hsit m Ho). split_and!; try done; [lia|eauto].
Qed.

(** At a use at the position some register of the type is not blocked there. *)
Lemma room_at t done arr r m : interval_vm_type vars c = Some t → filled (use_value P s) no_limit (cores s) done arr →
  (∀ r', reg_supports_type r' t = Some true → val arr r' <= val arr r) →
  (∃ u, u ∈ use_positions c ∧ first_pos u = m) → m = P → P <= val arr r.
Proof.
  intros Et Hf Hmax (u & Hu & Hm) ->. pose proof (s_inv _ _ _ _ _ _ _ _ (si_inv _ _ _ _ _ _ _ _ Hsit)) as Hinv.
  destruct (i_room _ _ _ _ _ _ Hinv cur c u (si_cur _ _ _ _ _ _ _ _ Hsit) (sit_fixed vars its0 regs Hsit) Hu) as (r0 & (t' & Et' & Hs0) & Hno).
  assert (t' = t) as -> by congruence. specialize (Hmax r0 Hs0).
  destruct (fl_sound _ _ _ _ _ Hf r0 (supports_in_file _ _ Hs0)) as [_ [?|[_ (i & it & Ha & Ei & Hfx & Hrg)]]]; [lia|].
  exfalso. apply (Hno i it Ei Hfx Hrg). rewrite Hm. destruct (si_active _ _ _ _ _ _ _ _ Hsit i it Ha Ei) as (x & Hh & Hx).
  apply covers_whole. exists x. split; [|lia]. destruct (range_list it); [done|]. injection Hh as ->. left.
Qed.

(** The register given and the interval cut where a fixed interval blocks it. *)
Lemma wp_take r e o t done (bu : list Z * list Z) : interval_vm_type vars c = Some t → reg_supports_type r t = Some true →
  o = Some e → e <= 2 ^ 31 → (∀ p, occupies c p → p < e) →
  filled (block_value P c s) (block_limit c s t) (cores s) done bu.1 →
  (∀ i, i ∈ active s ∨ i ∈ inactive s → i ∈ done) → 0 < val bu.1 r →
  wp (do update_node cur (with_reg r);;
      let* e := try o in
      do (if decide (val bu.1 r < e) then spill_interval cur (val bu.1 r) else ret tt);;
      spill_all_intervals_intersecting cur r) (λ _ s', gave vars its0 regs N P cur s s') (λ _ _, False) s.
Proof.
  intros Et Hsup -> Hmx He Hf Hd Hpos. pose proof (supports_in_file _ _ Hsup) as Hin. pose proof (si_inv _ _ _ _ _ _ _ _ Hsit) as Hs. pose proof (si_cur _ _ _ _ _ _ _ _ Hsit) as Ec.
  pose proof (sit_fresh vars its0 regs Hsit) as Hfr. pose proof (si_start _ _ _ _ _ _ _ _ Hsit) as Hst.
  apply wp_bind. eapply wp_mono; [by apply (wp_set_reg vars its0 regs N P cur (active s ++ inactive s) s c r)|cbv beta|done].
  intros _ s1 (Hs1 & A1 & I1 & Q1 & (c1 & Ec1 & Hface & Hr1 & Hrl) & Ho1).
  assert (∀ p, occupies c1 p ↔ occupies c p) as Hocc1 by (intros p; unfold occupies; by rewrite (face_whole _ _ Hface)).
  assert (interval_start c1 = Some P) as Hst1 by (unfold interval_start in *; by rewrite Hrl).
  apply wp_bind. apply wp_ret. apply wp_bind. eapply (wp_mono _ (λ _ s2, sinv N P [cur] (active s ++ inactive s) s2 ∧ active s2 = active s ∧ inactive s2 = inactive s ∧
    (∃ c2, cores s2 !! cur = Some c2 ∧ reg c2 = r ∧ interval_start c2 = Some P ∧ var_info c2 = var_info c ∧ ordered (whole c2) ∧
       ∀ p, occupies c2 p → occupies c p ∧ p < val bu.1 r) ∧
    (∀ j x, j ≠ cur → cores s !! j = Some x → cores s2 !! j = Some x) ∧
    (∀ j x, cores s !! j = None → cores s2 !! j = Some x → reg x = MACH_REG_UNASSIGNED)) _ (λ _ _, False)); [|cbv beta|done].
  - case_decide as Hlt.
    + destruct (fl_sound _ _ _ _ _ Hf r Hin) as [?|[[? _]|[HPv Hv]]]; [unfold LONG_MAX in *; lia|lia|].
      eapply wp_mono; [apply (wp_spill Hall vars its0 regs N P [cur] (active s ++ inactive s) s1 cur c1 (val bu.1 r) Hs1)|cbv beta|done].
      * split; try done; [by rewrite (face_fixed _ _ Hface), (fr_fixed _ _ Hfr)|apply (sinv_pend _ _ _ _ _ _ _ _ _ Hs1)|by exists P|lia| |intros; lia].
        rewrite Hrl. by apply (fresh_occupies P c).
      * intros _ s2 (Hs2 & [B1 B2 (old & new & Hsf & Eold) B4 B5]). split_and!; [done|congruence..| | |].
        -- exists old. split_and!; [done|by rewrite (proj1 (sf_reg _ _ _ _ Hsf))|by rewrite (sf_old_start _ _ _ _ Hsf)| |apply (sf_old_ordered _ _ _ _ Hsf)|].
           ++ rewrite (proj1 (sf_var _ _ _ _ Hsf)). apply (face_var _ _ Hface).
           ++ intros p Hp. apply (sf_old _ _ _ _ Hsf) in Hp as [Hp ?]. split; [by apply Hocc1|done].
        -- intros j x Hj Ej. apply B4; [done|]. by rewrite Ho1.
        -- intros j x Ej Ex. destruct (decide (j = cur)) as [->|Hj]; [congruence|]. apply (B5 j); [by rewrite Ho1|done].
    + apply wp_ret. split_and!; [done..| | |].
      * exists c1. split_and!; [done..|apply (face_var _ _ Hface)|apply (ok_ordered _ _ (sinv_ok _ _ _ _ _ _ _ _ _ _ Hs1 Ec1))|].
        intros p Hp%Hocc1. specialize (He p Hp). split; [done|lia].
      * intros j x Hj Ej. by rewrite Ho1.
      * intros j x Ej Ex. destruct (decide (j = cur)) as [->|Hj]; [congruence|]. rewrite Ho1 in Ex by done. congruence.
  - intros _ s2 (Hs2 & A2 & I2 & (c2 & Ec2 & Hr2 & Hst2 & Hv2 & Hord2 & Hocc2) & Hsame & Hnew).
    assert (∀ j x, j ≠ cur → cores s2 !! j = Some x → reg x = r → cores s !! j = Some x) as Hold.
    { intros j x Hj Ex Hrx. destruct (cores s !! j) as [y|] eqn:Ey; [rewrite (Hsame j y Hj Ey) in Ex; congruence|].
      rewrite (Hnew j x Ey Ex) in Hrx. rewrite <- Hrx in Hin. by apply unassigned_not_in_file in Hin. }
    eapply wp_mono; [apply (wp_spill_all N P cur c s Hsit c2 r Hin Hst2)|cbv beta|done].
    + intros p Hp. by apply Hocc2.
    + done.
    + intros i it p Ei Hi Hfx Hrg [H1 H2]. apply Hocc2 in H2 as [H2 Hlt].
      assert (block_limit c s t i it p ∨ block_limit c s t i it 0) as Hl.
      { destruct Hi as [Ha|Hi]; [right; split; [done|by left]|left; split; [done|right]]. split_and!; [done| |done..]. by rewrite Hrg. }
      destruct Hl as [Hl|Hl]; specialize (fl_limit _ _ _ _ _ Hf i it _ (Hd i Hi) Ei Hl) as Hx; rewrite Hrg in Hx; lia.
    + split; try done.
      * apply (i_nodup _ _ _ _ _ _ (s_inv _ _ _ _ _ _ _ _ Hs)).
      * intros i. by rewrite elem_of_app.
      * intros i Hi. destruct (i_lists _ _ _ _ _ _ (s_inv _ _ _ _ _ _ _ _ Hs) i Hi) as (Hn & x & Ex & _). rewrite Ex. apply Hsame; [|done].
        intros ->. apply Hn. left.
      * intros j x Hj Hnl Ex Hrx. right. intros p [H1 H2]. apply Hocc2 in H1 as [H1 _]. specialize (Hold j x Hj Ex Hrx).
        rewrite elem_of_app in Hnl. eapply (sit_past vars its0 regs Hsit j x); [done..|by rewrite Hrx|tauto|tauto|done].
    + intros _ s3 Hsl. destruct Hsl. unfold gave. split_and!; [|done..|].
      * eapply sinv_assign; [done..| | |].
        -- by rewrite Hr2.
        -- rewrite Hr2. apply (supports_var vars c); [done|]. by exists t.
        -- intros j x Hj Ex Hrx. apply (sl_done0 j x); [done|apply not_elem_of_nil|done|congruence].
      * apply cores_lookup_inv in sl_cur0 as (n & En & ->). exists n. split; [done|]. apply in_file_assigned.
        change (reg (core (iv n))) with (reg (iv n)) in Hr2. by rewrite Hr2.
Qed.

Lemma wp_blocked : reg c = MACH_REG_UNASSIGNED →
  wp (allocate_blocked_reg vars cur) (λ _ s', gave vars its0 regs N P cur s s' ∨ left_over vars its0 regs N P cur s s') (λ _ _, False) s.
Proof.
  intros Hrc. destruct (sit_type vars its0 regs Hsit) as (t & Et & Hty). pose proof (si_cur _ _ _ _ _ _ _ _ Hsit) as Ec.
  destruct first_use as (m & Em0 & EmP & HPm & Hm1 & Hom & Hmu & Hmin). destruct (sit_end vars its0 regs Hsit) as (e & Ee & Hemax & He).
  pose proof (si_inv _ _ _ _ _ _ _ _ Hsit) as Hs. pose proof (si_start _ _ _ _ _ _ _ _ Hsit) as Hst.
  apply cores_lookup_inv in Ec as (n & En & Ecn).
  unfold allocate_blocked_reg. apply wp_bind. apply (wp_lookup_node _ n); [done|]. do 2 (apply wp_bind; apply wp_get).
  apply wp_bind. apply (wp_try _ t); [by rewrite Ecn in Et|]. apply wp_bind. apply (wp_try _ P); [by rewrite Ecn in Hst|].
  apply wp_bind. eapply wp_mono; [by apply (wp_active_use vars its0 regs N P cur c s Hsit)|cbv beta|done]. intros u0 s' (-> & d0 & Hu0).
  apply wp_bind. change (inactive_use (iv n) t P) with (inactive_use (core (iv n)) t P). rewrite <- Ecn.
  eapply wp_mono; [by eapply (wp_inactive_use vars its0 regs N P cur c s Hsit t)|cbv beta|done]. intros u1 s' (-> & d1 & Hu1).
  apply wp_bind. eapply wp_mono; [by eapply (wp_active_block vars its0 regs N P cur c s Hsit t)|cbv beta|done]. intros b0 s' (-> & d2 & Hd2 & Hb0).
  apply wp_bind. change (inactive_block (iv n) t) with (inactive_block (core (iv n)) t). rewrite <- Ecn.
  eapply wp_mono; [by eapply (wp_inactive_block vars its0 regs N P cur c s Hsit t)|cbv beta|done].
  intros bu s' (-> & d & Hd & (Hb & (d' & Hu) & Hle)).
  assert (∀ i, i ∈ active s ∨ i ∈ inactive s → i ∈ d) as Hdall by (intros i [?|?]; apply Hd; [right; apply Hd2|]; by left).
  pose proof (P_nonneg vars its0 regs N P cur c s Hsit) as HP0.
  destruct (pick_register_spec bu.2 t (fl_length _ _ _ _ _ Hu) Hty) as (r & Er & Hsup & Hmax).
  { intros r Hr. destruct (fl_sound _ _ _ _ _ Hu r Hr) as [_ [?|[-> _]]]; lia. }
  pose proof (supports_in_file _ _ Hsup) as Hr.
  apply wp_bind. apply (wp_try _ r); [done|].
  apply wp_bind. apply (wp_try _ (val bu.2 r)); [by apply val_lookup; [apply (fl_length _ _ _ _ _ Hu)|]|].
  apply wp_bind. apply (wp_try _ (val bu.1 r)); [by apply val_lookup; [apply (fl_length _ _ _ _ _ Hb)|]|].
  apply wp_bind. apply (wp_try _ m); [by rewrite Ecn in Em0|]. specialize (Hle r Hr) as Hler. case_decide as Hlt.
  - apply wp_bind. apply (wp_try _ m); [by rewrite Ecn in EmP|].
    assert (P < m) as HPlt.
    { destruct (decide (m = P)) as [E|]; [|lia]. pose proof (room_at t d' bu.2 r m Et Hu Hmax Hmu E). lia. }
    eapply wp_mono; [apply (wp_spill Hall vars its0 regs N P [cur] (active s ++ inactive s) s cur c m Hs)|cbv beta|done].
    + by apply (sit_cut vars its0 regs Hsit).
    + intros _ s1 (Hs1 & [A1 A2 (old & new & Hsf & Eold) A4 A5]). right.
      assert (reg old = MACH_REG_UNASSIGNED) as Hro by (by rewrite (proj1 (sf_reg _ _ _ _ Hsf))).
      split_and!; [|done..|].
      * eapply sinv_drop; [done..|]. destruct (use_positions old) as [|u us] eqn:Eu; [done|]. exfalso.
        destruct (split_uses_elem Hsf u) as [H1 _]. destruct H1 as [H1 H2]; [rewrite Eu; left|]. specialize (Hmin u H1). lia.
      * apply cores_lookup_inv in Eold as (n1 & En1 & ->). by exists n1.
  - eapply wp_mono; [eapply (wp_take r e _ t d bu); try done|intros; by left|done]; [by rewrite Ecn in Ee|lia].
Qed.
End choice.
End blocked.
