(* ===== verification/LinearScanLoop.v ===== *)
(** * The loop of the linear scan

    The intervals are sorted into active and inactive ones at each position, the
    interval that starts there is handled, and the loop ends: every round takes an
    interval off the queue, and one goes back only after a cut. *)

From S2P Require Import Prelude CMonad Types Interval Pqueue LinearScan LinearScanSpec LinearScanStore LinearScanSpill LinearScanAlloc LinearScanBlocked.
#[local] Open Scope Z_scope.

Section loop.
Context `{Allocator} (Hall : ∀ n sz, malloc_ok n sz = true).
Context (vars : list struct_var_info) (its0 : list live_interval) (regs : block).
Abbreviation sinv := (sinv vars its0 regs).
Abbreviation queued s := (value <$> contents (unhandled s)).

Lemma sinv_lists N P pend l l' s : l ≡ₚ l' → sinv N P pend l s → sinv N P pend l' s.
Proof. intros Hl []. split; try done. by rewrite <- Hl. Qed.

Lemma sinv_active N P pend l s a : sinv N P pend l s → sinv N P pend l (with_active a s).
Proof. intros []. by split. Qed.
Lemma sinv_inactive N P pend l s a : sinv N P pend l s → sinv N P pend l (with_inactive a s).
Proof. intros []. by split. Qed.

(** ** Sorting *)

Section sort.
Context (N : nat) (P : Z) (cur : nat).

Definition here (s : scan) (i : nat) : Prop := ∀ it, cores s !! i = Some it → ∃ r, head (range_list it) = Some r ∧ start r <= P < end_ r.
Definition away (s : scan) (i : nat) : Prop := ∀ it, cores s !! i = Some it → ¬ covers (range_list it) P.

(** An interval on the lists has ended, or is expired to the position. *)
Lemma expire_step i l s : sinv N P [cur] (i :: l) s →
  ∃ n e, nodes s !! i = Some n ∧ interval_end (iv n) = Some e ∧ (e <= P → sinv N P [cur] l s) ∧
    (P < e → ∃ it b, interval_expire_ranges_before (iv n) P = Some it ∧ interval_covers it P = Some b ∧
       let s' := with_nodes (alter (with_iv it) i (nodes s)) s in
       sinv N P [cur] (i :: l) s' ∧ (if b then here s' i else away s' i) ∧ ∀ j, j ≠ i → cores s' !! j = cores s !! j).
Proof.
  intros Hs. pose proof Hs as [Hinv Hst Hpq HL Hm Hb]. destruct (i_lists _ _ _ _ _ _ Hinv i ltac:(left)) as (Hnp & x & Ei & Hli).
  pose proof (i_ok _ _ _ _ _ _ Hinv i x Ei) as Hok. pose proof Ei as Ei'. apply cores_lookup_inv in Ei as (n & En & ->).
  pose proof (ok_ordered _ _ Hok) as Ho. change (whole (core (iv n))) with (whole (iv n)) in Ho. pose proof (li_nonempty _ _ _ Hli) as Hne.
  change (range_list (core (iv n))) with (range_list (iv n)) in Hne. pose proof (ordered_range_list _ Ho) as Hor.
  destruct (interval_end_some (iv n) Hor Hne) as (e & Ee & Hlast & He). exists n, e. split_and!; [done..| |].
  - intros Hle. split; try done. apply (inv_ended vars Hinv Ei'). intros p Hp. destruct (decide (p < P)) as [|Hge]; [done|].
    apply (listed_occupies vars P _ p (ok_ordered _ _ Hok) Hli ltac:(lia)) in Hp. specialize (He p Hp). lia.
  - intros HPe. destruct (expire_ranges_spec (iv n) P e Ho Hne Ee HPe) as (it & Eit & [Hw Hne' Hex Hstt Hfst Hend (Hv & Hu & Hfl & Hr)]).
    assert (ordered (range_list it)) as Hor' by (apply ordered_range_list; by rewrite Hw).
    destruct (interval_range_at_spec it P Hor' Hne') as (ro & Ero & Hro).
    exists it, (match ro with Some _ => true | None => false end). split_and!; [done|unfold interval_covers; by rewrite Ero|].
    cbv zeta. rewrite <- (insert_alter (with_iv it) i n) by done. set (s' := with_nodes _ s).
    assert (same_face (core (iv n)) (core it)) as Hface.
    { split; [exact Hw| |exact Hu|exact Hv]. rewrite !core_fixed. unfold interval_has_fixed_reg. by rewrite Hfl. }
    assert (cores s' = <[i := core it]> (cores s)) as Hc by (unfold cores; cbn [nodes s' with_nodes]; by rewrite !list_fmap_insert).
    pose proof (lookup_lt_Some _ _ _ Ei') as Hlt. assert (cores s' !! i = Some (core it)) as Ec by (rewrite Hc; by apply list_lookup_insert_eq).
    split_and!.
    + split; [| |done|done| |done].
      * rewrite Hc. apply (inv_replace vars Hinv Ei' Hface); [by intros ?| | |by right].
        -- intros _. destruct Hli as [_ Hlr Hle Hls]. split; [done|by change (in_file (reg it)); rewrite Hr|by apply Hex|].
           intros Hf. rewrite (face_fixed _ _ Hface) in Hf. destruct (Hls Hf) as [Hsup Hs0]. split; [|by apply Hstt].
           change (reg (core it)) with (reg it). rewrite Hr. by apply (supports_var vars (core (iv n))).
        -- intros (q & Eq & Hq)%list_elem_of_fmap. destruct (i_queue _ _ _ _ _ _ Hinv q Hq) as (y & Ey & _ & _ & Hy & _).
           rewrite <- Eq, Ei' in Ey. injection Ey as <-. apply unassigned_not_in_file. rewrite <- Hy. apply (li_reg _ _ _ Hli).
      * apply (store_set Hst En); [|done]. split; [exact Hw| |exact Hu|exact Hv]. unfold interval_has_fixed_reg. by rewrite Hfl.
      * pose proof (cuts_insert (nodes s) i n (with_iv it n) En) as Hcu. cbn [iv with_iv] in Hcu. rewrite Hw in Hcu.
        cbn [nodes unhandled s' with_nodes]. lia.
    + destruct ro as [r|]; intros y Ey; rewrite Ec in Ey; injection Ey as <-; [|done]. apply Hfst. by exists r.
    + intros j Hj. rewrite Hc. by apply list_lookup_insert_ne.
Qed.

Lemma sinv_nodup_app l i l' s : sinv N P [cur] (l ++ i :: l') s → (i ∉ l) ∧ (i ∉ l') ∧ i ≠ cur ∧ sinv N P [cur] (i :: l ++ l') s.
Proof.
  intros Hs. assert (sinv N P [cur] (i :: l ++ l') s) as Hs' by (eapply sinv_lists; [|done]; by rewrite Permutation_middle).
  pose proof Hs' as [Hinv _ _ _ _ _]. pose proof (i_nodup _ _ _ _ _ _ Hinv) as Hn. apply list.NoDup_cons in Hn as [Hn _].
  rewrite elem_of_app in Hn. destruct (i_lists _ _ _ _ _ _ Hinv i ltac:(left)) as [Hc _]. rewrite list_elem_of_singleton in Hc. tauto.
Qed.

Lemma wp_expire_active ids kept s : sinv N P [cur] (kept ++ ids ++ inactive s) s → Forall (here s) kept →
  wp (expire_active ids P)
    (λ rest s', sinv N P [cur] (kept ++ rest ++ inactive s') s' ∧ Forall (here s') (kept ++ rest) ∧ cores s' !! cur = cores s !! cur)
    (λ _ _, False) s.
Proof.
  revert kept s. induction ids as [|i ids IH]; intros kept s Hs Hk; [apply wp_ret; by rewrite app_nil_r|].
  cbn [expire_active]. apply sinv_nodup_app in Hs as (Hik & Hir & Hic & Hs).
  destruct (expire_step i _ s Hs) as (n & e & En & Ee & Hend & Hgo).
  apply wp_bind. apply (wp_lookup_node _ n); [done|]. apply wp_bind. apply (wp_try _ e); [done|]. case_decide as Hle; [by apply IH; [apply Hend|]|].
  destruct Hgo as (it & b & Eit & Eb & Hs' & Hb & Hother); [lia|]. apply wp_bind. apply (wp_try _ it); [done|].
  apply wp_bind. apply (wp_update_node _ n); [done|]. apply wp_bind. apply (wp_try _ b); [done|].
  set (s' := with_nodes _ s) in *.
  assert (Forall (here s') kept) as Hk'.
  { rewrite list.Forall_forall in Hk |- *. intros j Hj. unfold here. rewrite Hother by congruence. by apply Hk. }
  destruct b; cbn [negb].
  - apply wp_bind. eapply wp_mono; [apply (IH (kept ++ [i]) s')|cbv beta|done].
    + eapply sinv_lists; [|done]. cbn. rewrite <- (app_assoc kept [i]). cbn. by rewrite <- Permutation_middle.
    + apply Forall_app. split; [done|]. by constructor.
    + intros rest s2 (H1 & H2 & H3). apply wp_ret. rewrite <- !app_assoc in *. cbn in *.
      split_and!; [done..|]. rewrite H3. by apply Hother.
  - apply wp_bind. apply wp_modify. eapply wp_mono; [apply (IH kept (with_inactive (i :: inactive s') s'))|cbv beta|done].
    + apply sinv_inactive. eapply sinv_lists; [|exact Hs']. cbn. rewrite !app_assoc. by rewrite <- Permutation_middle.
    + exact Hk'.
    + intros rest s2 (H1 & H2 & H3). split_and!; [done..|]. rewrite H3. by apply Hother.
Qed.

Lemma wp_expire_inactive ids kept s : sinv N P [cur] (active s ++ kept ++ ids) s → Forall (here s) (active s) → Forall (away s) kept →
  wp (expire_inactive ids P)
    (λ rest s', sinv N P [cur] (active s' ++ kept ++ rest) s' ∧ Forall (here s') (active s') ∧ Forall (away s') (kept ++ rest) ∧
       cores s' !! cur = cores s !! cur)
    (λ _ _, False) s.
Proof.
  revert kept s. induction ids as [|i ids IH]; intros kept s Hs Ha Hk; [apply wp_ret; by rewrite app_nil_r in Hs |- *|].
  cbn [expire_inactive]. rewrite app_assoc in Hs. apply sinv_nodup_app in Hs as (Hik & Hir & Hic & Hs).
  rewrite elem_of_app in Hik. destruct (expire_step i _ s Hs) as (n & e & En & Ee & Hend & Hgo).
  apply wp_bind. apply (wp_lookup_node _ n); [done|]. apply wp_bind. apply (wp_try _ e); [done|].
  case_decide as Hle; [by apply IH; [rewrite app_assoc; apply Hend|..]|].
  destruct Hgo as (it & b & Eit & Eb & Hs' & Hb & Hother); [lia|]. apply wp_bind. apply (wp_try _ it); [done|].
  apply wp_bind. apply (wp_update_node _ n); [done|]. apply wp_bind. apply (wp_try _ b); [done|].
  set (s' := with_nodes _ s) in *.
  assert (Forall (here s') (active s)) as Ha'.
  { rewrite list.Forall_forall in Ha |- *. intros j Hj. unfold here. rewrite Hother by (intros ->; tauto). by apply Ha. }
  assert (Forall (away s') kept) as Hk'.
  { rewrite list.Forall_forall in Hk |- *. intros j Hj. unfold away. rewrite Hother by (intros ->; tauto). by apply Hk. }
  destruct b.
  - apply wp_bind. apply wp_modify. eapply wp_mono; [apply (IH kept (with_active (i :: active s') s'))|cbv beta|done].
    + apply sinv_active. eapply sinv_lists; [|exact Hs']. cbn. by rewrite app_assoc.
    + constructor; [exact Hb|exact Ha'].
    + exact Hk'.
    + intros rest s2 (H1 & H2 & H3 & H4). split_and!; [done..|]. rewrite H4. by apply Hother.
  - apply wp_bind. eapply wp_mono; [apply (IH (kept ++ [i]) s')|cbv beta|done].
    + eapply sinv_lists; [|exact Hs']. cbn. rewrite <- !app_assoc. cbn. rewrite !app_assoc. by rewrite <- Permutation_middle.
    + exact Ha'.
    + apply Forall_app. split; [done|]. by constructor.
    + intros rest s2 (H1 & H2 & H3 & H4). apply wp_ret. rewrite <- !app_assoc in *. cbn in *.
      split_and!; [done..|]. rewrite H4. by apply Hother.
Qed.
End sort.

(** ** A round *)

Lemma wp_allocate_interval N P cur c s : sinv N P [cur] (active s ++ inactive s) s → cores s !! cur = Some c →
  interval_start c = Some P → use_positions c ≠ [] → reg c = MACH_REG_UNASSIGNED →
  wp (allocate_interval vars cur) (λ _ s', sinv N P [] (active s' ++ inactive s') s') (λ _ _, False) s.
Proof.
  intros Hs Ec Hst Hu Hr. pose proof Ec as Ec'. apply cores_lookup_inv in Ec' as (n & En & Ecn).
  unfold allocate_interval. apply wp_bind. apply (wp_lookup_node _ n); [done|]. apply wp_bind. apply (wp_try _ P); [by rewrite Ecn in Hst|].
  apply wp_bind. apply wp_get.
  apply wp_bind. eapply wp_mono; [apply (wp_expire_active N P cur (active s) [] s Hs); constructor|cbv beta|done].
  intros act s1 (Hs1 & Hh1 & Hc1). apply wp_bind. apply wp_modify. apply wp_bind. apply wp_get.
  apply wp_bind. eapply wp_mono; [apply (wp_expire_inactive N P cur _ [] (with_active act s1))|cbv beta|done].
  { apply sinv_active. exact Hs1. }
  { exact Hh1. }
  { constructor. }
  intros inact s2 (Hs2 & Hh2 & Ha2 & Hc2). apply wp_bind. apply wp_modify. set (s3 := with_inactive inact s2).
  change (cores (with_active act s1)) with (cores s1) in Hc2.
  assert (situation vars its0 regs N P cur c s3) as Hsit.
  { split; try done.
    - by apply sinv_inactive.
    - change (cores s3) with (cores s2). congruence.
    - intros i it Hi. rewrite list.Forall_forall in Hh2. by apply (Hh2 i Hi).
    - intros i it Hi. rewrite list.Forall_forall in Ha2. by apply (Ha2 i Hi). }
  clearbody s3. clear s1 s2 Hs1 Hh1 Hc1 Hs2 Hh2 Ha2 Hc2 act inact.
  pose proof (si_cur _ _ _ _ _ _ _ _ Hsit) as Ec3. apply cores_lookup_inv in Ec3 as (n3 & En3 & Ecn3).
  apply wp_bind. apply (wp_lookup_node _ n3); [done|].
  assert (interval_has_fixed_reg (iv n3) = false) as -> by (rewrite <- core_fixed, <- Ecn3; apply (sit_fixed vars its0 regs Hsit)).
  apply wp_bind. eapply wp_mono; [by apply (wp_try_free Hall vars its0 regs N P cur c s3)|cbv beta|done]. intros _ s4 Hres.
  apply wp_bind. eapply (wp_mono _ (λ n s', s' = s4 ∧ nodes s4 !! cur = Some n) _ (λ _ _, False)); [|cbv beta|done].
  { destruct Hres as [->|(_ & _ & _ & n4 & En4 & _)]; eapply wp_lookup_node; done. }
  intros n4 s' (-> & En4). apply wp_bind.
  apply (wp_mono _ (λ _ s', gave vars its0 regs N P cur s3 s' ∨ left_over vars its0 regs N P cur s3 s') _ (λ _ _, False)); [|cbv beta|done].
  - destruct Hres as [->|Hg].
    + assert (n4 = n3) as -> by congruence. rewrite decide_True by (by rewrite Ecn3 in Hr). apply (wp_blocked Hall vars its0 regs Hsit Hr).
    + destruct Hg as (H1 & H2 & H3 & n5 & En5 & Hn5). assert (n5 = n4) as -> by congruence. rewrite decide_False by done.
      apply wp_ret. left. split_and!; eauto.
  - intros _ s5 [(H1 & H2 & H3 & n5 & En5 & Hn5)|(H1 & H2 & H3 & n5 & En5 & Hn5)]; apply wp_bind; (apply (wp_lookup_node _ n5); [done|]).
    + rewrite decide_True by done. apply wp_modify. cbn [active inactive with_active]. apply sinv_active. by rewrite H2, H3.
    + rewrite decide_False by auto. apply wp_ret. by rewrite H2, H3.
Qed.

(** ** The loop *)

Lemma remove_top_owns {V} (pq pq' : pqueue V) v : pqueue_remove_top pq = Some (v, pq') → pq_owns pq' = pq_owns pq.
Proof.
  unfold pqueue_remove_top. destruct (pqueue_is_empty pq); [by intros [= _ <-]|]. intros E.
  repeat (apply bind_Some in E as (? & ? & E) || case_match); by simplify_eq.
Qed.
Lemma is_empty_contents {V} (pq : pqueue V) : pq_ok pq → pqueue_is_empty pq = bool_decide (contents pq = []).
Proof.
  intros Hpq. pose proof (contents_length pq Hpq) as Hl. unfold pqueue_is_empty. apply bool_decide_ext.
  destruct (contents pq); cbn [length] in Hl; split; (done || lia).
Qed.

Lemma wp_allocate_loop fuel N P s : (N <= fuel)%nat → sinv N P [] (active s ++ inactive s) s →
  wp (allocate_loop vars fuel) (λ _ s', ∃ N' P', sinv N' P' [] (active s' ++ inactive s') s' ∧ contents (unhandled s') = []) (λ _ _, False) s.
Proof.
  revert N P s. induction fuel as [|fuel IH]; intros N P s Hf Hs; pose proof Hs as [Hinv Hst Hpq (L & HL) Hm Hb];
    unfold wp; cbn [allocate_loop]; rewrite (is_empty_contents _ Hpq); case_bool_decide as He.
  1,3: by exists N, P.
  { exfalso. destruct (contents (unhandled s)); [done|]. cbn in Hm. lia. }
  destruct (pqueue_remove_top_correct (unhandled s) Hpq) as [[? _]|(top & q & Eq & Hq & Hperm & Hmin)]; [done|].
  pose proof (remove_top_owns _ _ _ Eq) as Hown. match goal with |- match ?m s with _ => _ end => change (wp m (λ _ s', ∃ N' P', sinv N' P' [] (active s' ++ inactive s') s' ∧ contents (unhandled s') = []) (λ _ _, False) s) end.
  apply wp_bind. unfold remove_top at 1. unfold wp at 1. rewrite Eq. apply wp_bind. apply (wp_try _ (value top)); [done|].
  assert (inv vars P [] (active s ++ inactive s) (cores s) (top :: contents q)) as Hinv' by (by rewrite <- Hperm).
  destruct (inv_next vars P _ _ top (contents q) Hinv') as [HP Hinv2].
  { intros e He'. apply Hmin. by rewrite Hperm. }
  destruct (i_queue _ _ _ _ _ _ Hinv' top ltac:(left)) as (c & Ec & _ & Hk & Hr & Hu).
  apply Permutation_length in Hperm. cbn [length] in Hperm. destruct N as [|N]; [lia|].
  apply wp_bind. eapply wp_mono; [apply (wp_allocate_interval N (key top) (value top) c (with_queue q s)); try done|cbv beta|done].
  - split; try done; cbn [heap unhandled nodes with_queue]; [exists L; by rewrite Hown|lia|lia].
  - intros _ s' Hs'. apply (IH N (key top)); [lia|done].
Qed.
End loop.
