(* ===== verification/LinearScanProps.v ===== *)
(** * Properties of the register allocator

    For intervals as the live ranges leave them, with a register free of fixed
    intervals at every use, [allocate_registers] returns; every use is in an interval
    with a register of its type, two intervals with one register do not meet unless
    ranges of both start together, and the intervals of a variable partition what it
    covered. *)

From S2P Require Import Prelude CMonad Bitset Types Interval Pqueue LinearScan LinearScanSpec LinearScanStore LinearScanSpill LinearScanAlloc LinearScanBlocked LinearScanLoop.
#[local] Open Scope Z_scope.

(** ** The intervals at the start *)

Record input_ok (vars : list struct_var_info) (ns : list node) : Prop := {
  in_vars : interval <$> vars ≡ₚ seq 0 (length ns);
  in_ok : ∀ i n, ns !! i = Some n → interval_ok vars (iv n);
  in_new : ∀ i n, ns !! i = Some n → expired_range_list (iv n) = [] ∧ next_child n = None ∧ interval_needs_reload (iv n) = false;
  in_plain : ∀ i n, ns !! i = Some n → interval_has_fixed_reg (iv n) = false →
    reg (iv n) = MACH_REG_UNASSIGNED ∧ (range_list (iv n) ≠ [] → use_positions (iv n) ≠ []);
  in_fixed : ∀ i n, ns !! i = Some n → interval_has_fixed_reg (iv n) = true → 0 <= reg (iv n);
  in_apart : ∀ i j a b p, i ≠ j → ns !! i = Some a → ns !! j = Some b →
    interval_has_fixed_reg (iv a) = true → interval_has_fixed_reg (iv b) = true → reg (iv a) = reg (iv b) →
    ¬ (covers (range_list (iv a)) p ∧ covers (range_list (iv b)) p);
  in_room : room vars (iv <$> ns);
  in_size : Z.of_nat (total_size ns) + 2 < 2 ^ 31;
}.

Lemma core_core it : core (core it) = core it.
Proof. unfold core. cbn [var_info range_list expired_range_list use_positions flags reg]. by rewrite <- Z.land_assoc, Z.land_diag. Qed.
Lemma face_core it : same_face it (core it).
Proof. apply core_face, core_core. Qed.
Lemma room_cores vars its : room vars its → room vars (core <$> its).
Proof.
  intros Hr i it u Ei Hf Hu. rewrite list_lookup_fmap in Ei. destruct (its !! i) as [x|] eqn:Ex; [|done]. injection Ei as <-.
  rewrite core_fixed in Hf. destruct (Hr i x u Ex Hf Hu) as (r & Hs & Hno). exists r. split; [by apply (supports_var vars x)|].
  intros j f Ej Hff. rewrite list_lookup_fmap in Ej. destruct (its !! j) as [y|] eqn:Ey; [|done]. injection Ej as <-.
  rewrite core_fixed in Hff. by apply (Hno j y).
Qed.

(** ** The lists at the start *)

Section place.
Context `{Allocator} (Hall : ∀ n sz, malloc_ok n sz = true).
Context (vars : list struct_var_info) (ns : list node) (Hin : input_ok vars ns) (regs : block).

Definition goes_inactive (i : nat) : bool :=
  match ns !! i with
  | Some n => negb (interval_is_empty (iv n)) && interval_has_fixed_reg (iv n) && bool_decide (reg (iv n) < Z.of_nat NR_REGISTERS)
  | None => false
  end.
Definition goes_unhandled (i : nat) : bool :=
  match ns !! i with Some n => negb (interval_is_empty (iv n)) && negb (interval_has_fixed_reg (iv n)) | None => false end.
Definition entry (i : nat) : pqueue_node nat := PqueueNode (default 0 (ns !! i ≫= λ n, interval_start (iv n))) i.

Lemma is_empty_nil it : interval_is_empty it = true ↔ range_list it = [].
Proof. unfold interval_is_empty. by destruct (range_list it). Qed.
Lemma nonempty_start n : interval_is_empty (iv n) = false → ∃ s, interval_start (iv n) = Some s.
Proof. intros He. apply interval_start_some. intros E. apply is_empty_nil in E. congruence. Qed.

(** Every interval that is queued has a position. *)
Lemma queue_size (l : list node) : (∀ n, n ∈ l → ordered (range_list (iv n)) ∧ expired_range_list (iv n) = []) →
  (length (List.filter (λ n, negb (interval_is_empty (iv n)) && negb (interval_has_fixed_reg (iv n))) l) + cuts l <= total_size l)%nat.
Proof.
  induction l as [|n l IH]; intros Hl; [cbn; lia|]. specialize (IH ltac:(intros m Hm; apply Hl; by right)).
  destruct (Hl n ltac:(left)) as [Ho He]. rewrite cuts_cons. cbn [List.filter total_size foldr].
  fold (total_size l). rewrite whole_eq, He. cbn [reverse rev_append app].
  change (reverse [] ++ range_list (iv n)) with (range_list (iv n)).
  destruct (interval_is_empty (iv n)) eqn:Ee; cbn [negb andb]; [lia|].
  assert (0 < range_size (range_list (iv n)))%nat.
  { apply (range_size_pos 0); [done|]. intros E. apply is_empty_nil in E. congruence. }
  destruct (interval_has_fixed_reg (iv n)); cbn [negb andb length]; lia.
Qed.
Lemma filter_seq (f : node → bool) (l : list node) :
  length (List.filter (λ i, match l !! i with Some n => f n | None => false end) (seq 0 (length l))) = length (List.filter f l).
Proof.
  induction l as [|x l IH] using rev_ind; [done|]. rewrite length_app, Nat.add_comm. cbn [length Nat.add]. rewrite seq_S, !filter_app, !length_app.
  f_equal.
  - rewrite <- IH. f_equal. apply List.filter_ext_in. intros i Hi. apply in_seq in Hi. by rewrite lookup_app_l by lia.
  - cbn. rewrite lookup_app_r, Nat.sub_diag by lia. cbn. by destruct (f x).
Qed.
Lemma filter_perm_length (f : nat → bool) l l' : l ≡ₚ l' → length (List.filter f l) = length (List.filter f l').
Proof. induction 1 as [|x l l' _ IH|x y l|]; cbn; [done|destruct (f x); cbn; by rewrite IH|by destruct (f x), (f y)|congruence]. Qed.
Lemma unhandled_size : (length (List.filter goes_unhandled (interval <$> vars)) + cuts ns <= total_size ns)%nat.
Proof.
  rewrite (filter_perm_length _ _ _ (in_vars _ _ Hin)). unfold goes_unhandled. rewrite filter_seq. apply queue_size.
  intros n Hn. apply list_elem_of_lookup in Hn as [i Ei]. split; [|by apply (in_new _ _ Hin i n Ei)].
  apply ordered_range_list, (ok_ordered _ _ (in_ok _ _ Hin i n Ei)).
Qed.

Record placed (ids : list nat) (s : scan) : Prop := {
  pl_nodes : nodes s = ns;
  pl_active : active s = [];
  pl_inactive : inactive s = reverse (List.filter goes_inactive ids);
  pl_queue : contents (unhandled s) ≡ₚ entry <$> List.filter goes_unhandled ids;
  pl_pq : pq_ok (unhandled s);
  pl_mem : ∃ L, m_live (heap s) = pq_owns (unhandled s) ⊎ ({[+ regs +]} ⊎ L);
}.

Lemma wp_place_variable done v rest s : vars = done ++ v :: rest → placed (interval <$> done) s →
  wp (place_variable v) (λ _ s', placed (interval <$> (done ++ [v])) s') (λ _ _, False) s.
Proof.
  intros Ev [En Ea Ei Eq Hpq (L & HL)]. pose proof unhandled_size as Hsz. rewrite Ev in Hsz.
  rewrite fmap_app, filter_app, length_app in Hsz. pose proof (in_size _ _ Hin) as Hmax.
  assert (interval v ∈ seq 0 (length ns)) as Hv.
  { rewrite <- (in_vars _ _ Hin), Ev, fmap_app. apply elem_of_app. right. left. }
  apply elem_of_seq in Hv. destruct (lookup_lt_is_Some_2 ns (interval v)) as [n Env]; [lia|].
  rewrite fmap_app. cbn [fmap list_fmap]. unfold place_variable. apply wp_bind. apply (wp_lookup_node _ n); [by rewrite En|].
  assert (List.filter goes_inactive [interval v] = if negb (interval_is_empty (iv n)) && interval_has_fixed_reg (iv n) && bool_decide (reg (iv n) < Z.of_nat NR_REGISTERS) then [interval v] else []) as Hf1
    by (cbn; unfold goes_inactive; by rewrite Env).
  assert (List.filter goes_unhandled [interval v] = if negb (interval_is_empty (iv n)) && negb (interval_has_fixed_reg (iv n)) then [interval v] else []) as Hf2
    by (cbn; unfold goes_unhandled; by rewrite Env).
  destruct (interval_is_empty (iv n)) eqn:Ee; cbn [negb andb] in *.
  { apply wp_ret. split; rewrite ?filter_app, ?Hf1, ?Hf2, ?app_nil_r; eauto. }
  destruct (interval_has_fixed_reg (iv n)) eqn:Ef; cbn [negb andb] in *.
  - case_decide as Hr.
    + rewrite bool_decide_eq_true_2 in Hf1 by done. apply wp_modify. split; rewrite ?filter_app, ?Hf1, ?Hf2, ?app_nil_r; eauto.
      cbn [inactive with_inactive]. rewrite reverse_app, Ei. done.
    + rewrite bool_decide_eq_false_2 in Hf1 by done. apply wp_ret. split; rewrite ?filter_app, ?Hf1, ?Hf2, ?app_nil_r; eauto.
  - destruct (nonempty_start n Ee) as (k & Ek). apply wp_bind. apply (wp_try _ k); [done|].
    pose proof (in_ok _ _ Hin _ _ Env) as Hok. pose proof (ordered_range_list _ (ok_ordered _ _ Hok)) as Hor.
    destruct (start_covers 0 (iv n) k Hor Ek) as [Hck _]. pose proof (ordered_covers _ _ _ Hor Hck).
    pose proof (ok_bound _ _ Hok k (covers_whole _ _ Hck)). pose proof (contents_length _ Hpq) as Hlen.
    apply Permutation_length in Eq as Eql. rewrite length_fmap in Eql.
    unfold wp, insert_unhandled.
    pose proof (pqueue_insert_correct (unhandled s) k (interval v) (heap s) ({[+ regs +]} ⊎ L) Hpq ltac:(unfold key_ok; lia) ltac:(lia) HL) as Hi.
    destruct (pqueue_insert (unhandled s) k (interval v) (heap s)) as [[err q] h|? ?|]; [|done..].
    destruct Hi as [(_ & Hq & Hc & HL')|(_ & _ & Hn & _)]; [|done]. split; rewrite ?filter_app, ?Hf1, ?Hf2, ?app_nil_r; cbn [nodes active inactive unhandled heap with_heap with_queue]; eauto.
    rewrite Hc, fmap_app. rewrite <- Eq. cbn [fmap list_fmap]. assert (entry (interval v) = PqueueNode k (interval v)) as -> by (unfold entry; rewrite Env; cbn; by rewrite Ek).
    by rewrite Permutation_cons_append.
Qed.
Lemma wp_place_all s : placed [] s → wp (for_each place_variable vars) (λ _ s', placed (interval <$> vars) s') (λ _ _, False) s.
Proof.
  intros Hs. eapply wp_mono; [apply (wp_for_each _ (λ rem s', ∃ done, vars = done ++ rem ∧ placed (interval <$> done) s') (λ _ _, False))|cbv beta|done].
  - by exists [].
  - intros v rest s' (done & Ev & Hp). eapply wp_mono; [by eapply wp_place_variable|cbv beta|done]. intros _ s2 H2.
    exists (done ++ [v]). split; [by rewrite <- app_assoc|done].
  - intros _ s' (done & Ev & Hp). rewrite app_nil_r in Ev. by subst.
Qed.

(** ** The invariant at the start *)

Lemma linked_start : linked (iv <$> ns) ns.
Proof.
  exists ((λ k, [k]) <$> seq 0 (length ns)). split_and!.
  - by rewrite !length_fmap, length_seq.
  - assert (∀ l : list nat, concat ((λ k, [k]) <$> l) = l) as -> by (induction l as [|x l IH]; [done|]; cbn; by rewrite IH). done.
  - intros k c it Ek Eit. rewrite list_lookup_fmap in Ek. rewrite list_lookup_fmap in Eit. destruct (ns !! k) as [n|] eqn:En; [|done]. injection Eit as <-.
    destruct (seq 0 (length ns) !! k) as [j|] eqn:Ej; [|done]. injection Ek as <-. apply lookup_seq in Ej as [-> _].
    exists [iv n]. split; [econstructor; [done|]; rewrite (proj1 (proj2 (in_new _ _ Hin k n En))); constructor|].
    split.
    + intros p. split; [intros Hp; exists (iv n); split; [left|done]|]. intros (x & Hx & Hp). apply list_elem_of_singleton in Hx as ->. done.
    + repeat constructor.
    + cbn. by rewrite app_nil_r.
    + intros x Hx. apply list_elem_of_singleton in Hx as ->. done.
Qed.

Lemma filter_elem (f : nat → bool) i l : i ∈ List.filter f l ↔ i ∈ l ∧ f i = true.
Proof. rewrite !list_elem_of_In. apply filter_In. Qed.
Lemma var_ids i n : ns !! i = Some n → i ∈ interval <$> vars.
Proof. intros E. rewrite (in_vars _ _ Hin). apply elem_of_seq. apply lookup_lt_Some in E. lia. Qed.

Lemma inv_start s : placed (interval <$> vars) s →
  inv vars 0 [] (active s ++ inactive s) (cores s) (entry <$> List.filter goes_unhandled (interval <$> vars)).
Proof.
  intros [En Ea Ei _ _ _]. unfold cores. rewrite En, Ea, Ei. cbn [app].
  assert (∀ i x, (core <$> (iv <$> ns)) !! i = Some x → ∃ n, ns !! i = Some n ∧ x = core (iv n)) as Hlk.
  { intros i x Ex. rewrite !list_lookup_fmap in Ex. destruct (ns !! i) as [n|]; [|done]. injection Ex as <-. eauto. }
  assert (∀ i n, ns !! i = Some n → (core <$> (iv <$> ns)) !! i = Some (core (iv n))) as Hlk' by (intros i n E; by rewrite !list_lookup_fmap, E).
  assert (NoDup (interval <$> vars)) as Hnd by (rewrite (in_vars _ _ Hin); apply NoDup_seq).
  assert (∀ n, range_list (iv n) = [] → expired_range_list (iv n) = [] → ∀ p, ¬ occupies (core (iv n)) p) as Hnone.
  { intros n E1 E2 p Hp. unfold occupies in Hp. rewrite whole_eq in Hp. cbn [expired_range_list range_list core] in Hp. rewrite E1, E2 in Hp. by apply covers_nil in Hp. }
  split.
  - intros i x (n & En' & ->)%Hlk. eapply face_ok; [apply face_core|]. by apply (in_ok _ _ Hin i).
  - apply room_cores, (in_room _ _ Hin).
  - cbn. rewrite <- list_fmap_compose. rewrite (list_fmap_ext _ id), list_fmap_id by done. by apply NoDup_ListNoDup, NoDup_filter, NoDup_ListNoDup.
  - intros i Hi. by apply elem_of_nil in Hi.
  - intros e (i & -> & [Hi Hf]%filter_elem)%list_elem_of_fmap. unfold goes_unhandled in Hf. cbn [value entry].
    destruct (ns !! i) as [n|] eqn:Ei'; [|done]. apply andb_true_iff in Hf as [He%negb_true_iff Hfx%negb_true_iff].
    destruct (nonempty_start n He) as (k & Ek). destruct (in_plain _ _ Hin i n Ei' Hfx) as [Hr Hu]. exists (core (iv n)).
    split_and!; [by apply Hlk'| |unfold entry; rewrite Ei'; cbn [mbind option_bind]; rewrite Ek; exact Ek|done|].
    + split; [by rewrite core_fixed|by apply (in_new _ _ Hin i n Ei')|]. exists k. split; [done|].
      pose proof (ordered_range_list _ (ok_ordered _ _ (in_ok _ _ Hin i n Ei'))) as Hor.
      destruct (start_covers 0 (iv n) k Hor Ek) as [Hck _]. by apply (ordered_covers _ _ _ Hor).
    + apply Hu. intros E. apply is_empty_nil in E. congruence.
  - rewrite reverse_Permutation. by apply NoDup_ListNoDup, NoDup_filter, NoDup_ListNoDup.
  - intros i Hi. split; [apply not_elem_of_nil|]. rewrite elem_of_reverse in Hi. apply filter_elem in Hi as [_ Hf].
    unfold goes_inactive in Hf. destruct (ns !! i) as [n|] eqn:Ei'; [|done].
    apply andb_true_iff in Hf as [[He%negb_true_iff Hfx]%andb_true_iff Hr%bool_decide_eq_true]. exists (core (iv n)). split; [by apply Hlk'|].
    split.
    + intros E. apply is_empty_nil in E. change (interval_is_empty (core (iv n))) with (interval_is_empty (iv n)) in E. congruence.
    + split; [apply (in_fixed _ _ Hin i n Ei' Hfx)|done].
    + destruct (in_new _ _ Hin i n Ei') as (E & _). change (expired_range_list (core (iv n))) with (expired_range_list (iv n)). rewrite E.
      intros r Hx. by apply elem_of_nil in Hx.
    + rewrite core_fixed. congruence.
  - intros i x _ (n & Ei' & ->)%Hlk Hr. destruct (interval_has_fixed_reg (iv n)) eqn:Hfx.
    2: { destruct (in_plain _ _ Hin i n Ei' Hfx) as [E _]. exfalso. apply unassigned_not_in_file. rewrite <- E. exact Hr. }
    destruct (interval_is_empty (iv n)) eqn:He.
    + right. intros p Hp. apply is_empty_nil in He. exfalso. eapply Hnone; [done|by apply (in_new _ _ Hin i n Ei')|done].
    + left. rewrite elem_of_reverse. apply filter_elem. split; [by eapply var_ids|]. unfold goes_inactive. rewrite Ei', He, Hfx.
      cbn [negb andb]. apply bool_decide_eq_true. apply Hr.
  - intros i x _ Hq (n & Ei' & ->)%Hlk Hfx Hu. exfalso. rewrite core_fixed in Hfx. apply Hq. rewrite <- list_fmap_compose, (list_fmap_ext _ id), list_fmap_id by done.
    apply filter_elem. split; [by eapply var_ids|]. unfold goes_unhandled. rewrite Ei', Hfx. cbn [negb]. rewrite andb_true_r. apply negb_true_iff.
    destruct (interval_is_empty (iv n)) eqn:He; [|done]. exfalso. apply is_empty_nil in He.
    change (use_positions (core (iv n))) with (use_positions (iv n)) in Hu. destruct (use_positions (iv n)) as [|u us] eqn:Eu; [done|].
    destruct (ok_uses _ _ (in_ok _ _ Hin i n Ei') Hfx u) as (_ & _ & Ho); [rewrite Eu; left|].
    eapply (Hnone n); [done|by apply (in_new _ _ Hin i n Ei')|exact Ho].
  - intros i j a b Hij _ _ (n & Ei' & ->)%Hlk (m & Ej & ->)%Hlk Hreg Hr. right. intros p [H1 H2].
    assert (∀ k q, ns !! k = Some q → in_file (reg (core (iv q))) → interval_has_fixed_reg (iv q) = true) as Hfix.
    { intros k q Ek Hq. destruct (interval_has_fixed_reg (iv q)) eqn:E; [done|]. destruct (in_plain _ _ Hin k q Ek E) as [E' _].
      exfalso. apply unassigned_not_in_file. rewrite <- E'. exact Hq. }
    assert (∀ k q, ns !! k = Some q → occupies (core (iv q)) p → covers (range_list (iv q)) p) as Hocc.
    { intros k q Ek Hq. unfold occupies in Hq. rewrite whole_eq in Hq. cbn [expired_range_list range_list core] in Hq.
      rewrite (proj1 (in_new _ _ Hin k q Ek)) in Hq. done. }
    apply (in_apart _ _ Hin i j n m p Hij Ei' Ej); [by eapply Hfix|eapply Hfix; [done|by rewrite <- Hreg]|done|].
    split; [by eapply Hocc|by eapply Hocc].
Qed.

Lemma sinv_start s : placed (interval <$> vars) s →
  sinv vars (iv <$> ns) regs (total_size ns) 0 [] (active s ++ inactive s) s.
Proof.
  intros Hp. pose proof Hp as [En _ _ Eq Hpq HL]. split; [| |done|done| |apply (in_size _ _ Hin)].
  - rewrite Eq. by apply inv_start.
  - rewrite En. split; [apply linked_start|]. intros i n Ei Hr. destruct (in_new _ _ Hin i n Ei) as (_ & _ & E). congruence.
  - rewrite En, Eq, length_fmap. apply unhandled_size.
Qed.
End place.

(** ** The ranges restored *)

Abbreviation restore := interval_restore_expired_ranges.
Lemma restore_face it : same_face it (restore it).
Proof. by split. Qed.
Lemma restore_idem it : restore (restore it) = restore it.
Proof. done. Qed.

(** The intervals in [D] are restored, the others may be. *)
Record restored (D : nat → Prop) (ns ns' : list node) : Prop := {
  re_length : length ns' = length ns;
  re_node : ∀ i n, ns !! i = Some n → ∃ n', ns' !! i = Some n' ∧ next_child n' = next_child n ∧ spill_parent n' = spill_parent n ∧
    (iv n' = iv n ∨ iv n' = restore (iv n)) ∧ (D i → iv n' = restore (iv n));
}.
Lemma restored_refl ns : restored (λ _, False) ns ns.
Proof. split; [done|]. intros i n E. exists n. split_and!; [done..|by left|done]. Qed.
Lemma restored_trans D1 D2 ns1 ns2 ns3 : restored D1 ns1 ns2 → restored D2 ns2 ns3 → restored (λ i, D1 i ∨ D2 i) ns1 ns3.
Proof.
  intros [L1 H1] [L2 H2]. split; [congruence|]. intros i n E. destruct (H1 i n E) as (n' & E' & N1 & S1 & C1 & D1').
  destruct (H2 i n' E') as (n'' & E'' & N2 & S2 & C2 & D2'). exists n''. split_and!; [done|congruence..| |].
  - destruct C1 as [C1|C1], C2 as [C2|C2]; rewrite C1 in C2; [left|right..]; done.
  - intros [Hd|Hd].
    + specialize (D1' Hd). destruct C2 as [->| ->]; by rewrite D1'.
    + specialize (D2' Hd). rewrite D2'. destruct C1 as [->| ->]; done.
Qed.
Lemma restored_weaken (D D' : nat → Prop) ns ns' : (∀ i, D' i → D i) → restored D ns ns' → restored D' ns ns'.
Proof.
  intros Hd [Hl Hn]. split; [done|]. intros i n E. destruct (Hn i n E) as (n' & ? & ? & ? & ? & ?). exists n'. split_and!; auto.
Qed.
Lemma restored_updated D ns ns' : restored D ns ns' → updated ns ns'.
Proof.
  intros [Hl Hn]. split; [done|]. intros i n E. destruct (Hn i n E) as (n' & E' & ? & _ & C & _). exists n'. split_and!; [done..|].
  destruct C as [->| ->]; [by split|apply restore_face].
Qed.
Lemma restored_one ns i n : ns !! i = Some n →
  restored (eq i) ns (alter (λ n, with_iv (restore (iv n)) n) i ns).
Proof.
  intros Ei. split; [by rewrite length_alter|]. intros j m Em. destruct (decide (j = i)) as [->|].
  - rewrite list_lookup_alter_eq, Em. eexists. split; [done|]. cbn. split_and!; [done..|by right|done].
  - rewrite list_lookup_alter_ne by done. exists m. split_and!; [done..|by left|congruence].
Qed.

Lemma wp_restore_children fuel o c parts s : chain (nodes s) o c parts → (length c <= fuel)%nat →
  wp (restore_children fuel o) (λ _ s', ∃ ns', s' = with_nodes ns' s ∧ restored (λ i, i ∈ c) (nodes s) ns') (λ _ _, False) s.
Proof.
  revert o c parts s. induction fuel as [|fuel IH]; intros o c parts s Hc Hl.
  - inversion Hc; subst; [|cbn in Hl; lia]. cbn. exists (nodes s). split; [by destruct s|].
    eapply restored_weaken; [|apply restored_refl]. intros i Hi. by apply elem_of_nil in Hi.
  - inversion Hc as [|j n c' parts' Ej Hc']; subst.
    + cbn. exists (nodes s). split; [by destruct s|]. eapply restored_weaken; [|apply restored_refl]. intros i Hi. by apply elem_of_nil in Hi.
    + cbn [restore_children]. cbn in Hl. apply wp_bind. apply (wp_update_node _ n); [done|].
      pose proof (restored_one _ _ _ Ej) as Hr1. destruct (re_node _ _ _ Hr1 j n Ej) as (n' & En' & Hn' & _).
      apply wp_bind. apply (wp_lookup_node _ n'); [done|]. rewrite Hn'.
      destruct (chain_updated _ _ _ _ _ (restored_updated _ _ _ Hr1) Hc') as (parts2 & Hc2 & _).
      eapply wp_mono; [eapply (IH _ c' parts2); [exact Hc2|lia]|cbv beta|done]. cbn [nodes with_nodes].
      intros _ s' (ns' & -> & Hr). exists ns'. split; [done|]. eapply restored_weaken; [|by eapply restored_trans].
      intros i [->|Hi]%elem_of_cons; [by left|by right].
Qed.

Section restore.
Context (vars : list struct_var_info) (its0 : list live_interval).

Lemma wp_restore_all s : linked its0 (nodes s) → interval <$> vars ≡ₚ seq 0 (length its0) →
  wp (for_each (λ var, let* size := get (λ s, length (nodes s)) in restore_children size (Some (interval var))) vars)
    (λ _ s', ∃ ns', s' = with_nodes ns' s ∧ restored (λ _, True) (nodes s) ns') (λ _ _, False) s.
Proof.
  intros Hlk Hv. pose proof Hlk as (cs & Hl & Hp & Hch).
  set (Dn := λ (rem : list struct_var_info) i, ∃ k c, cs !! k = Some c ∧ i ∈ c ∧ k ∉ (interval <$> rem)).
  eapply wp_mono; [apply (wp_for_each _ (λ rem s', (∀ v, v ∈ rem → v ∈ vars) ∧ ∃ ns', s' = with_nodes ns' s ∧ restored (Dn rem) (nodes s) ns') (λ _ _, False))|cbv beta|done].
  - split; [done|]. exists (nodes s). split; [by destruct s|]. eapply restored_weaken; [|apply restored_refl].
    intros i (k & c & Ek & _ & Hk). apply Hk. rewrite Hv. apply elem_of_seq. apply lookup_lt_Some in Ek. lia.
  - intros v rem s1 (Hsub & ns1 & -> & Hr). apply wp_bind. apply wp_get. cbn [nodes with_nodes].
    assert (interval v ∈ seq 0 (length its0)) as Hiv by (rewrite <- Hv; apply list_elem_of_fmap_2, Hsub; left).
    apply elem_of_seq in Hiv. destruct (lookup_lt_is_Some_2 cs (interval v)) as [c Ec]; [lia|].
    destruct (lookup_lt_is_Some_2 its0 (interval v)) as [it Eit]; [lia|].
    destruct (Hch _ _ _ Ec Eit) as (parts & Hc & _). destruct (chain_updated _ _ _ _ _ (restored_updated _ _ _ Hr) Hc) as (parts' & Hc' & _).
    eapply wp_mono; [eapply (wp_restore_children _ _ c parts'); [exact Hc'|]|cbv beta|done].
    + rewrite (re_length _ _ _ Hr). pose proof (concat_replace cs (interval v) c [] Ec) as Hperm. rewrite app_nil_r, Hp in Hperm.
      apply Permutation_length in Hperm. rewrite length_app, length_seq in Hperm. lia.
    + intros _ s' (ns' & -> & Hr'). split; [intros w Hw; apply Hsub; by right|]. exists ns'. split; [done|].
      eapply restored_weaken; [|by eapply restored_trans]. intros i (k & c' & Ek & Hi & Hk). cbn [nodes with_nodes].
      destruct (decide (k = interval v)) as [->|Hne]; [right; by simplify_eq|left]. exists k, c'. split_and!; [done..|].
      rewrite fmap_cons, elem_of_cons. tauto.
  - intros _ s' (_ & ns' & -> & Hr). exists ns'. split; [done|]. destruct Hr as [Hlen Hn]. split; [done|]. intros i n Ei.
    destruct (Hn i n Ei) as (n' & ? & ? & ? & ? & Hd). exists n'. split_and!; [done..|]. intros _. apply Hd.
    assert (i ∈ concat cs) as Hi by (rewrite Hp; apply elem_of_seq; apply lookup_lt_Some in Ei; lia).
    apply list_elem_of_In, in_concat in Hi as (c & Hc & Hic). apply list_elem_of_In, list_elem_of_lookup in Hc as [k Ek].
    exists k, c. split_and!; [done|by apply list_elem_of_In|apply not_elem_of_nil].
Qed.
End restore.

(** ** The allocation *)

Record allocated (vars : list struct_var_info) (ns ns' : list node) : Prop := {
  al_expired : ∀ i n, ns' !! i = Some n → expired_range_list (iv n) = [];
  al_uses : ∀ i n, ns' !! i = Some n → interval_has_fixed_reg (iv n) = false → use_positions (iv n) ≠ [] →
    supports vars (iv n) (reg (iv n));
  al_disjoint : ∀ i j a b p, i ≠ j → ns' !! i = Some a → ns' !! j = Some b → reg (iv a) = reg (iv b) → in_file (reg (iv a)) →
    covers (range_list (iv a)) p → covers (range_list (iv b)) p →
    interval_has_fixed_reg (iv a) = false ∧ interval_has_fixed_reg (iv b) = false ∧
    ∃ x y, x ∈ range_list (iv a) ∧ y ∈ range_list (iv b) ∧ start x = start y;
  al_children : ∀ k n, ns !! k = Some n → ∃ c parts, chain ns' (Some k) c parts ∧ partition (iv n) parts;
  al_reload : reload_ok ns';
}.

Lemma allocated_restored vars ns s ns' N P regs : sinv vars (iv <$> ns) regs N P [] (active s ++ inactive s) s →
  contents (unhandled s) = [] → restored (λ _, True) (nodes s) ns' → allocated vars ns ns'.
Proof.
  intros [Hinv [Hlk Hre] _ _ _ _] Hq Hr. rewrite Hq in Hinv.
  assert (∀ i n', ns' !! i = Some n' → ∃ n, nodes s !! i = Some n ∧ cores s !! i = Some (core (iv n)) ∧ iv n' = restore (iv n) ∧ spill_parent n' = spill_parent n) as Hinvr.
  { intros i n' Ei. destruct (nodes s !! i) as [n|] eqn:En.
    - destruct (re_node _ _ _ Hr i n En) as (n'' & E & _ & ? & _ & Hd). simplify_eq. exists n. split_and!; [done|by apply cores_lookup|by apply Hd|done].
    - apply lookup_ge_None in En. apply lookup_lt_Some in Ei. rewrite (re_length _ _ _ Hr) in Ei. lia. }
  assert (∀ it, covers (range_list (restore it)) = occupies (core it)) as Hocc by done.
  split.
  - intros i n' (n & _ & _ & -> & _)%Hinvr. done.
  - intros i n' (n & _ & Ec & -> & _)%Hinvr Hf Hu. destruct (i_uses _ _ _ _ _ _ Hinv i _ (not_elem_of_nil _) (not_elem_of_nil _) Ec) as [_ ?]; [by rewrite core_fixed|done|].
    by apply (supports_var vars (core (iv n))).
  - intros i j a b p Hij (n & _ & Ea & Hna & _)%Hinvr (m & _ & Eb & Hmb & _)%Hinvr Hreg Hin Hp1 Hp2. rewrite Hna, Hmb in *.
    destruct (i_disjoint _ _ _ _ _ _ Hinv i j _ _ Hij (not_elem_of_nil _) (not_elem_of_nil _) Ea Eb Hreg Hin)
      as [(F1 & F2 & q & _ & (x & Hx & <-) & (y & Hy & E))|Hno]; [|exfalso; by apply (Hno p)].
    rewrite core_fixed in F1, F2. split_and!; [done..|]. by exists x, y.
  - destruct (linked_updated _ _ _ (restored_updated _ _ _ Hr) Hlk) as (cs & Hl & _ & Hch). intros k n En.
    rewrite length_fmap in Hl. apply lookup_lt_Some in En as Hk. destruct (lookup_lt_is_Some_2 cs k) as [c Ec]; [lia|].
    destruct (Hch k c (iv n) Ec) as (parts & ? & ?); [by rewrite list_lookup_fmap, En|]. eauto.
  - intros i n' (n & En & _ & Hn & Hp)%Hinvr Hrl. destruct (Hre i n En) as (j & m & Hj & Em & Hsp & Hv); [by rewrite Hn in Hrl|].
    destruct (re_node _ _ _ Hr j m Em) as (m' & Em' & _ & _ & _ & Hm'). specialize (Hm' I). exists j, m'.
    split_and!; [congruence|done|by rewrite Hm'|by rewrite Hm', Hn].
Qed.

Lemma wp_lift_heap {A} (m : M mem unit A) Q R s : wp m (λ a h, Q a (with_heap h s)) (λ e h, R e (with_heap h s)) (heap s) → wp (lift_heap m) Q R s.
Proof. unfold wp, lift_heap. by destruct (m (heap s)). Qed.

Section top.
Context `{Allocator} (Hall : ∀ n sz, malloc_ok n sz = true).
Context (vars : list struct_var_info) (ns : list node) (Hin : input_ok vars ns).

(** What runs between the two allocations and the return. *)
Lemma wp_allocate_registers regs s : placed ns regs [] s →
  wp (do for_each place_variable vars;;
      do allocate_loop vars (total_size ns);;
      do lift_heap (free_ptr (Some regs));;
      do for_each (λ var, let* size := get (λ s, length (nodes s)) in restore_children size (Some (interval var))) vars;;
      let* q := get unhandled in
      lift_heap (pqueue_free q)) (λ _ s', allocated vars ns (nodes s')) (λ _ _, False) s.
Proof.
  intros Hpl. apply wp_bind. eapply wp_mono; [by apply (wp_place_all Hall vars ns Hin)|cbv beta|done]. intros _ s1 H1.
  apply wp_bind. eapply wp_mono; [eapply (wp_allocate_loop Hall vars (iv <$> ns) regs); [done|by apply sinv_start]|cbv beta|done].
  intros _ s2 (N & P & Hs & Hq). pose proof Hs as [_ [Hlk _] _ (L & HL) _ _].
  apply wp_bind. apply wp_lift_heap. unfold wp at 1, free_ptr at 1.
  rewrite (mem_free_live regs _ (pq_owns (unhandled s2) ⊎ L)) by (rewrite HL; ms_eq).
  apply wp_bind. set (s3 := with_heap _ s2). eapply wp_mono; [apply (wp_restore_all vars (iv <$> ns) s3); [done|]|cbv beta|done].
  { rewrite length_fmap. apply (in_vars _ _ Hin). }
  intros _ s4 (ns' & -> & Hr). apply wp_bind. apply wp_get. apply wp_lift_heap. cbn [unhandled heap with_nodes s3 with_heap].
  assert (allocated vars ns ns') as Hal by (by eapply allocated_restored).
  unfold wp, pqueue_free, bind, free_ptr, pq_owns. destruct (data (unhandled s2)) as [b|].
  - rewrite (mem_free_live b _ ({[+ pq_block (unhandled s2) +]} ⊎ L)) by (cbn [m_live]; ms_eq).
    rewrite (mem_free_live _ _ L) by done. done.
  - rewrite (mem_free_live _ _ L) by (cbn [m_live]; by rewrite (right_id_L ∅ (⊎))). done.
Qed.

Lemma allocate_registers_spec flags h : ∃ ns' h', allocate_registers vars ns flags h = Done (0, ns', Z.lor flags 1) h' ∧ allocated vars ns ns'.
Proof.
  unfold allocate_registers, mem_malloc, pqueue_alloc. rewrite Hall. cbn [m_next m_live]. unfold mem_malloc. rewrite Hall. cbn [m_next m_live].
  set (s := Scan ns [] [] _ _).
  assert (placed ns (m_next h) [] s) as Hpl.
  { split; try done.
    - apply pq_ok_empty.
    - exists (m_live h). unfold pq_owns. cbn [heap unhandled s pq_block data m_live]. by rewrite (right_id_L ∅ (⊎)). }
  pose proof (wp_allocate_registers (m_next h) s Hpl) as Hwp. unfold wp in Hwp.
  match type of Hwp with match ?m with _ => _ end => destruct m as [[] s'|? ?|]; [|done..] end. eauto.
Qed.
End top.

(** ** Theorems *)

(** C8: With memory, for intervals as the live ranges leave them and a register of its
    type free of fixed intervals at every use of a variable, the register allocator
    comes to its end: no assertion fails, the queue runs empty within as many rounds as
    the intervals have positions, and it returns 0.  Then every interval that has uses
    has a register of the type of its variable. *)
Theorem allocate_registers_correct `{Allocator} vars ns flags h :
  (∀ n sz, malloc_ok n sz = true) → input_ok vars ns →
  ∃ ns' h', allocate_registers vars ns flags h = Done (0, ns', Z.lor flags 1) h' ∧
    ∀ i n, ns' !! i = Some n → interval_has_fixed_reg (iv n) = false → use_positions (iv n) ≠ [] →
      supports vars (iv n) (reg (iv n)).
Proof.
  intros Hall Hin. destruct (allocate_registers_spec Hall vars ns Hin flags h) as (ns' & h' & E & Hal).
  exists ns', h'. split; [exact E|exact (al_uses _ _ _ Hal)].
Qed.

(** C9: Two intervals with the same register after allocation share no position, unless
    neither is fixed and ranges of both start at the same position: the code does not
    spill an interval at the position where it starts.  A fixed register is never
    shared. *)
Theorem allocate_registers_disjoint `{Allocator} vars ns flags h :
  (∀ n sz, malloc_ok n sz = true) → input_ok vars ns →
  ∃ ns' h', allocate_registers vars ns flags h = Done (0, ns', Z.lor flags 1) h' ∧
    ∀ i j a b p, i ≠ j → ns' !! i = Some a → ns' !! j = Some b → reg (iv a) = reg (iv b) → in_file (reg (iv a)) →
      covers (range_list (iv a)) p → covers (range_list (iv b)) p →
      interval_has_fixed_reg (iv a) = false ∧ interval_has_fixed_reg (iv b) = false ∧
      ∃ x y, x ∈ range_list (iv a) ∧ y ∈ range_list (iv b) ∧ start x = start y.
Proof.
  intros Hall Hin. destruct (allocate_registers_spec Hall vars ns Hin flags h) as (ns' & h' & E & Hal).
  exists ns', h'. split; [exact E|exact (al_disjoint _ _ _ Hal)].
Qed.

(** C10: After allocation the children of the interval of a variable are, in order, a
    partition of it: one ends before the next starts, together they cover the positions
    it covered and have its use positions.  An interval that is to be reloaded has a
    parent of its variable that is spilled. *)
Theorem allocate_registers_children `{Allocator} vars ns flags h :
  (∀ n sz, malloc_ok n sz = true) → input_ok vars ns →
  ∃ ns' h', allocate_registers vars ns flags h = Done (0, ns', Z.lor flags 1) h' ∧
    (∀ k n, ns !! k = Some n → ∃ c parts, chain ns' (Some k) c parts ∧ partition (iv n) parts) ∧
    (∀ i n, ns' !! i = Some n → expired_range_list (iv n) = []) ∧ reload_ok ns'.
Proof.
  intros Hall Hin. destruct (allocate_registers_spec Hall vars ns Hin flags h) as (ns' & h' & E & Hal).
  exists ns', h'. split_and!; [exact E|exact (al_children _ _ _ Hal)|exact (al_expired _ _ _ Hal)|exact (al_reload _ _ _ Hal)].
Qed.

(** ** Examples *)

(** Fourteen variables, with a gap in their ranges, and one more that starts in the
    gap; the ranges after the gap all start at 100.  The register RAX is clobbered by a
    call at 45. *)
Definition some_vars : list struct_var_info := (λ k, VarInfo k (Z.of_nat k) (if decide (k = 15%nat) then J_LONG else J_INT)) <$> seq 0 16.
Definition some_node (k : nat) : node :=
  let p := 2 * Z.of_nat k in
  let it := if decide (k = 15%nat) then LiveInterval 15 [LiveRange 45 46] [] [] INTERVAL_FLAG_FIXED_REG 0
            else if decide (k = 14%nat) then LiveInterval 14 [LiveRange 51 60; LiveRange 100 200] [] [UsePosition 50 2; UsePosition 100 1] 0 MACH_REG_UNASSIGNED
            else LiveInterval (Z.of_nat k) [LiveRange (p + 1) 41; LiveRange 100 200] []
                              [UsePosition p 2; UsePosition 40 1; UsePosition 150 1] 0 MACH_REG_UNASSIGNED in
  Node it None None None.
Definition some_nodes : list node := some_node <$> seq 0 16.

Lemma some_nodes_lookup i n : some_nodes !! i = Some n → (i < 16)%nat ∧ n = some_node i.
Proof.
  unfold some_nodes. rewrite list_lookup_fmap. destruct (seq 0 16 !! i) as [j|] eqn:E; [|done]. intros [= <-].
  apply lookup_seq in E as [-> ?]. done.
Qed.
(** What has to be shown of each of the sixteen. *)
Ltac each_node :=
  intros; repeat match goal with
  | H : some_nodes !! _ = Some _ |- _ => apply some_nodes_lookup in H as [? ->]
  end.

Lemma some_type k : (k < 16)%nat → interval_vm_type some_vars (iv (some_node k)) = Some (if decide (k = 15%nat) then J_LONG else J_INT).
Proof. intros Hk. do 16 (destruct k as [|k]; [reflexivity|]). lia. Qed.
Lemma some_covers k u : (k < 16)%nat → u ∈ use_positions (iv (some_node k)) →
  use_ok u ∧ 1 <= first_pos u ∧ occupies (iv (some_node k)) (first_pos u).
Proof.
  intros Hk Hu. assert (∀ it, expired_range_list it = [] → ∀ p, covers (range_list it) p → occupies it p) as Hocc by (intros; by apply covers_whole).
  unfold some_node in *. destruct (decide (k = 15%nat)); [by apply elem_of_nil in Hu|]. destruct (decide (k = 14%nat)); cbn [iv use_positions] in *.
  - repeat (apply elem_of_cons in Hu as [->|Hu]); [| |by apply elem_of_nil in Hu];
      (split_and!; [unfold use_ok; cbn; lia|vm_compute; done|apply Hocc; [done|]]).
    + exists (LiveRange 51 60). split; [left|vm_compute; intuition congruence].
    + exists (LiveRange 100 200). split; [right; left|vm_compute; intuition congruence].
  - repeat (apply elem_of_cons in Hu as [->|Hu]); [| | |by apply elem_of_nil in Hu]; unfold first_pos; cbn [kind lir_pos];
      (case_decide; [|try done]); try done; (split_and!; [unfold use_ok; cbn; lia|lia|apply Hocc; [done|]]).
    + exists (LiveRange (2 * Z.of_nat k + 1) 41). split; [left|cbn; lia].
    + exists (LiveRange (2 * Z.of_nat k + 1) 41). split; [left|cbn; lia].
    + exists (LiveRange 100 200). split; [right; left|cbn; lia].
Qed.

Lemma some_input : input_ok some_vars some_nodes.
Proof.
  split.
  - reflexivity.
  - each_node. split.
    + unfold some_node, ordered. destruct (decide (i = 15%nat)); [cbn; lia|]. destruct (decide (i = 14%nat)); cbn; lia.
    + unfold some_node, occupies. intros p (r & Hr & Hp). destruct (decide (i = 15%nat)); [|destruct (decide (i = 14%nat))];
        repeat (apply elem_of_cons in Hr as [->|Hr]; [cbn in Hp; lia|]); by apply elem_of_nil in Hr.
    + intros _. eexists. split; [by apply some_type|]. by case_decide.
    + intros _ u Hu. by apply some_covers.
  - each_node. unfold some_node. by repeat case_decide.
  - each_node. unfold some_node in *. by repeat case_decide.
  - each_node. unfold some_node in *. by repeat case_decide.
  - each_node. unfold some_node in *. repeat case_decide; by subst.
  - intros i it u Ei Hf Hu. rewrite list_lookup_fmap in Ei. destruct (some_nodes !! i) as [n|] eqn:E; [|done]. injection Ei as <-.
    apply some_nodes_lookup in E as [Hi ->]. exists 1. split.
    + eexists. split; [by apply some_type|]. unfold some_node in Hf. case_decide; done.
    + intros j f Ej Hff Hrf. rewrite list_lookup_fmap in Ej. destruct (some_nodes !! j) as [m|] eqn:E; [|done]. injection Ej as <-.
      apply some_nodes_lookup in E as [Hj ->]. unfold some_node in *. by repeat case_decide.
  - vm_compute. reflexivity.
Qed.

Definition always : Allocator := λ _ _, true.
Abbreviation some_run := (@allocate_registers always some_vars some_nodes 0 (Mem 0 ∅)).

Lemma allocate_registers_correct_witness : ∃ ns' h', some_run = Done (0, ns', 1) h' ∧
  ∀ i n, ns' !! i = Some n → interval_has_fixed_reg (iv n) = false → use_positions (iv n) ≠ [] → supports some_vars (iv n) (reg (iv n)).
Proof. exact (@allocate_registers_correct always some_vars some_nodes 0 (Mem 0 ∅) (λ _ _, eq_refl) some_input). Defined.

Lemma allocate_registers_disjoint_witness : ∃ ns' h', some_run = Done (0, ns', 1) h' ∧
  ∀ i a b p, i ≠ 15%nat → ns' !! i = Some a → ns' !! 15%nat = Some b → reg (iv a) = reg (iv b) → in_file (reg (iv a)) →
    interval_has_fixed_reg (iv b) = true → covers (range_list (iv a)) p → ¬ covers (range_list (iv b)) p.
Proof.
  destruct (@allocate_registers_disjoint always some_vars some_nodes 0 (Mem 0 ∅) (λ _ _, eq_refl) some_input) as (ns' & h' & E & Hd).
  exists ns', h'. split; [exact E|]. intros i a b p Hi Ea Eb Hr Hin Hf Ha Hb.
  destruct (Hd i 15%nat a b p Hi Ea Eb Hr Hin Ha Hb) as (_ & Hf' & _). congruence.
Defined.

Lemma allocate_registers_children_witness : ∃ ns' h', some_run = Done (0, ns', 1) h' ∧
  ∃ c parts, chain ns' (Some 14%nat) c parts ∧ partition (iv (some_node 14)) parts.
Proof.
  destruct (@allocate_registers_children always some_vars some_nodes 0 (Mem 0 ∅) (λ _ _, eq_refl) some_input) as (ns' & h' & E & Hc & _).
  exists ns', h'. split; [exact E|]. by apply Hc.
Defined.

(** The exception is real: the first variable and the last part of the fifteenth have
    the register R15 from 100 on. *)
Lemma allocate_registers_shares :
  match some_run with
  | Done (_, ns', _) _ =>
    match ns' !! 0%nat, ns' !! 16%nat with
    | Some a, Some b => reg (iv a) = 13 ∧ reg (iv b) = 13 ∧ In (LiveRange 100 200) (range_list (iv a)) ∧ In (LiveRange 100 200) (range_list (iv b))
    | _, _ => False
    end
  | _ => False
  end.
Proof. vm_compute. auto 10. Qed.
