(* ===== verification/DominatorTree.v ===== *)
(** * Dominators of a control flow graph

    What [compute_dom] is to compute, apart from the program: a block dominates another
    when every way from the entry block to the other goes through it.  The second half
    is about approximations of the dominator tree, given as a partial function from a
    block to its parent: the chain of the parents of a block, and how it changes when
    one block gets another parent.  The properties of the loop in [compute_dom] are
    properties of these chains. *)

From S2P Require Import Prelude.
From stdpp Require Import relations.

Section graph.
Context (edge : nat → nat → Prop) (entry : nat).

(** ** Traces *)

(** The blocks on a way from the entry to a block, the last one first. *)
Inductive trace : list nat → nat → Prop :=
  | trace_entry : trace [entry] entry
  | trace_edge l p b : trace l p → edge p b → trace (b :: l) b.

Definition reachable (b : nat) : Prop := ∃ l, trace l b.
Definition dominates (a b : nat) : Prop := ∀ l, trace l b → a ∈ l.
Definition strictly_dominates (a b : nat) : Prop := dominates a b ∧ a ≠ b.

(** The last strict dominator on every way to the block. *)
Definition immediate_dominator (a b : nat) : Prop :=
  strictly_dominates a b ∧ ∀ c, strictly_dominates c b → dominates c a.

(** The blocks where the dominance of [a] ends. *)
Definition in_frontier (a b : nat) : Prop :=
  (∃ p, reachable p ∧ edge p b ∧ dominates a p) ∧ ¬ strictly_dominates a b.

Lemma trace_head l b : trace l b → ∃ l', l = b :: l'.
Proof. destruct 1; eauto. Qed.
Lemma trace_in l b : trace l b → b ∈ l.
Proof. destruct 1; left. Qed.
Lemma trace_entry_in l b : trace l b → entry ∈ l.
Proof. induction 1; [left|by right]. Qed.

Lemma trace_suffix l b x : trace l b → x ∈ l → ∃ l1 l2, l = l1 ++ l2 ∧ trace l2 x.
Proof.
  induction 1 as [|l p b Ht IH He].
  - intros ->%list_elem_of_singleton. by exists [], [entry]; split; [|constructor].
  - intros [->|Hx]%elem_of_cons.
    + exists [], (b :: l). split; [done|by econstructor].
    + destruct (IH Hx) as (l1 & l2 & -> & ?). by exists (b :: l1), l2.
Qed.

Lemma trace_reachable l b x : trace l b → x ∈ l → reachable x.
Proof. intros Ht Hx. destruct (trace_suffix _ _ _ Ht Hx) as (? & l2 & _ & ?). by exists l2. Qed.

Lemma reachable_entry : reachable entry.
Proof. exists [entry]. constructor. Qed.
Lemma reachable_edge p b : reachable p → edge p b → reachable b.
Proof. intros [l ?] ?. exists (b :: l). by econstructor. Qed.

(** A way without cycles. *)
Lemma trace_nodup l b : trace l b → ∃ l', trace l' b ∧ NoDup l' ∧ l' ⊆ l.
Proof.
  induction 1 as [|l p b Ht (l' & Ht' & Hn & Hs) He].
  - exists [entry]. split_and!; [constructor|apply NoDup_singleton|done].
  - destruct (decide (b ∈ l')) as [Hb|Hb].
    + destruct (trace_suffix _ _ _ Ht' Hb) as (l1 & l2 & -> & ?). exists l2. split_and!; [done| |set_solver].
      by apply NoDup_app in Hn as (_ & _ & ?).
    + exists (b :: l'). split_and!; [by econstructor|by constructor|set_solver].
Qed.

(** ** Dominance *)

Lemma dominates_refl b : dominates b b.
Proof. intros l. apply trace_in. Qed.
Lemma dominates_entry b : dominates entry b.
Proof. intros l. apply trace_entry_in. Qed.

Lemma dominates_trans a b c : dominates a b → dominates b c → dominates a c.
Proof.
  intros Hab Hbc l Hl. destruct (trace_suffix _ _ _ Hl (Hbc l Hl)) as (l1 & l2 & -> & H2).
  apply elem_of_app. right. by apply Hab.
Qed.

Lemma dominates_reachable a b : reachable b → dominates a b → reachable a.
Proof. intros [l Hl] Hd. eapply trace_reachable; eauto. Qed.

Lemma dominates_entry_inv a : dominates a entry → a = entry.
Proof. intros Hd. specialize (Hd _ trace_entry). by apply list_elem_of_singleton in Hd. Qed.

Lemma strict_dominates_pred a p b : strictly_dominates a b → edge p b → dominates a p.
Proof.
  intros [Hd Hne] He l Hl. specialize (Hd (b :: l) ltac:(by econstructor)).
  by apply elem_of_cons in Hd as [?|?].
Qed.

(** A block other than the entry is dominated by what dominates its other predecessors. *)
Lemma dominates_preds a b : b ≠ entry → (∀ p, reachable p → edge p b → p ≠ b → dominates a p) → dominates a b.
Proof.
  intros Hb Hp l. induction l as [|x l IH]; intros Hl; inversion Hl as [|l' p b' Hl' He]; simplify_eq.
  right. destruct (decide (p = b)) as [->|Hne]; [by apply IH|]. exact (Hp p ltac:(by eexists) He Hne l Hl').
Qed.

Lemma dominates_antisym a b : reachable b → dominates a b → dominates b a → a = b.
Proof.
  intros [l Hl] Hab Hba. destruct (decide (a = b)) as [|Hne]; [done|exfalso].
  destruct (trace_nodup _ _ Hl) as (l' & Hl' & Hn & _).
  destruct (trace_suffix _ _ _ Hl' (Hab _ Hl')) as (l1 & l2 & -> & H2).
  destruct l1 as [|x l1]; [destruct (trace_head _ _ H2) as [? ->], (trace_head _ _ Hl') as [? E]; by injection E|].
  destruct (trace_head _ _ Hl') as [? E]. injection E as -> <-.
  apply NoDup_app in Hn as (_ & Hn & _). apply (Hn b); [left|by apply Hba].
Qed.

(** Only a block with two predecessors can be in a frontier, the entry apart. *)
Lemma frontier_one_pred a b p : b ≠ entry → reachable p → edge p b → (∀ p', reachable p' → edge p' b → p' = p) →
  dominates a p → strictly_dominates a b.
Proof.
  intros Hb Hrp He Huniq Hap. split.
  - apply dominates_preds; [done|]. intros p' Hr' He' _. by rewrite (Huniq p' Hr' He').
  - intros ->. destruct (reachable_edge p b Hrp He) as [l Hl].
    destruct (trace_nodup _ _ Hl) as (l' & Hl' & Hn & _).
    inversion Hl' as [|l0 p' b' Hl0 He0]; simplify_eq. rewrite (Huniq p' ltac:(by eexists) He0) in Hl0.
    apply NoDup_cons in Hn as [Hn _]. by apply Hn, Hap.
Qed.

(** ** Chains of parents *)

(** The blocks are numbered from the entry on, and every other block has a predecessor
    with a smaller number, its parent in a spanning tree. *)
Context (num par : nat → nat) (n : nat).
Context (Hpar : ∀ b, reachable b → b ≠ entry → reachable (par b) ∧ edge (par b) b ∧ num (par b) < num b).
Context (Hinj : ∀ a b, reachable a → reachable b → num a = num b → a = b).
Context (Hnum : ∀ b, reachable b → num b < n).

Lemma nodup_bound l : NoDup l → (∀ x, x ∈ l → reachable x) → length l ≤ n.
Proof using Hinj Hnum.
  intros Hn Hr. assert (NoDup (num <$> l)) as Hn'.
  { clear Hpar. induction l as [|x l IH]; [constructor|]. apply NoDup_cons in Hn as [Hx Hn]. cbn. constructor.
    - intros (y & E & Hy)%list_elem_of_fmap. apply Hx. rewrite (Hinj x y); [done|apply Hr; by left|apply Hr; by right|done].
    - apply IH; [done|]. intros y Hy. apply Hr. by right. }
  pose proof (submseteq_length (num <$> l) (seq 0 n)) as Hl. rewrite length_fmap, length_seq in Hl. apply Hl.
  apply NoDup_submseteq; [done|]. intros k (x & -> & Hx)%list_elem_of_fmap. apply elem_of_seq. pose proof (Hnum x (Hr x Hx)). lia.
Qed.

(** Ancestors in the spanning tree. *)
Inductive tree_above (a : nat) : nat → Prop :=
  | tree_refl : tree_above a a
  | tree_step b : b ≠ entry → tree_above a (par b) → tree_above a b.

Lemma tree_above_num a b : reachable b → tree_above a b → num a ≤ num b.
Proof using Hpar. intros Hr Ht. induction Ht as [|b Hb Ht IH]; [done|]. destruct (Hpar b Hr Hb) as (Hp & _ & ?). specialize (IH Hp). lia. Qed.

Lemma tree_above_trans a b c : tree_above a b → tree_above b c → tree_above a c.
Proof using. intros Hab Hbc. induction Hbc; [done|]. by constructor. Qed.

(** The tree leads from a block to the ones below it through blocks with larger numbers. *)
Lemma tree_above_trace b x l : reachable x → tree_above b x → trace l b →
  ∃ l', trace (l' ++ l) x ∧ ∀ y, y ∈ l' → num b < num y.
Proof using Hpar.
  intros Hr Ht Hl. induction Ht as [|x Hx Ht IH]; [by exists []; split; [|intros ? ?%elem_of_nil]|].
  destruct (Hpar x Hr Hx) as (Hp & He & Hlt). destruct (IH Hp) as (l' & Hl' & Hy).
  exists (x :: l'). split; [by econstructor|]. pose proof (tree_above_num _ _ Hp Ht).
  intros y [->|?]%elem_of_cons; [lia|auto].
Qed.

(** A dominator of a block dominates what is between the two in the tree. *)
Lemma dominates_between a b x : reachable x → tree_above b x → reachable b → tree_above a b → dominates a x → dominates a b.
Proof using Hpar.
  intros Hr Hbx Hrb Hab Hd l Hl. destruct (tree_above_trace b x l Hr Hbx Hl) as (l' & Hl' & Hy).
  pose proof (tree_above_num _ _ Hrb Hab). apply Hd, elem_of_app in Hl' as [Hin|]; [|done]. apply Hy in Hin. lia.
Qed.

(** A table of parents under construction, and the chain of a block in it. *)
Implicit Type f : nat → option nat.

Inductive above f (a : nat) : nat → Prop :=
  | above_refl : above f a a
  | above_step b c : b ≠ entry → f b = Some c → above f a c → above f a b.

Record table_ok f : Prop := {
  tk_entry : f entry = Some entry;
  tk_parent b c : reachable b → b ≠ entry → f b = Some c → reachable c ∧ num c < num b ∧ is_Some (f c);
}.

Lemma above_trans f a b c : above f a b → above f b c → above f a c.
Proof using. intros Hab Hbc. induction Hbc as [|b' c' Hne E Hbc IH]; [done|]. by econstructor. Qed.

Lemma above_entry f a : above f a entry → a = entry.
Proof using. by inversion 1. Qed.

Lemma above_step_inv f a b c : f b = Some c → above f a b → a = b ∨ (b ≠ entry ∧ above f a c).
Proof using. intros E. inversion 1; simplify_eq; auto. Qed.

Lemma above_facts f a b : table_ok f → reachable b → is_Some (f b) → above f a b →
  reachable a ∧ is_Some (f a) ∧ num a ≤ num b.
Proof using.
  intros Hf Hr Hs Ha. induction Ha as [|b c Hb E Ha IH]; [done|].
  destruct (tk_parent f Hf b c Hr Hb E) as (Hc & Hlt & Hsc). destruct (IH Hc Hsc) as (? & ? & ?). split_and!; [done|done|lia].
Qed.

Lemma above_antisym f a b : table_ok f → reachable a → reachable b → is_Some (f a) → is_Some (f b) →
  above f a b → above f b a → a = b.
Proof using Hinj.
  intros Hf Ha Hb Hsa Hsb Hab Hba. destruct (above_facts f a b) as (_ & _ & ?); [done..|].
  destruct (above_facts f b a) as (_ & _ & ?); [done..|]. apply Hinj; [done|done|lia].
Qed.


(** Tables that agree everywhere have the same chains. *)
#[export] Instance above_proper : Proper (pointwise_relation nat eq ==> eq ==> eq ==> iff) above.
Proof using.
  assert (∀ f g a b, (∀ x, f x = g x) → above f a b → above g a b) as Hab.
  { intros f g a b Hfg Ha. induction Ha; econstructor; eauto. by rewrite <- Hfg. }
  intros f g Hfg a ? <- b ? <-. split; apply Hab; [done|]. intros x. symmetry. apply Hfg.
Qed.

#[export] Instance table_ok_proper : Proper (pointwise_relation nat eq ==> impl) table_ok.
Proof using.
  intros f g Hfg [He Hp]. constructor; [by rewrite <- Hfg|]. intros b c. rewrite <- !Hfg. apply Hp.
Qed.

(** ** A block gets a new parent *)

Definition set_parent f (b c : nat) : nat → option nat := λ x, if decide (x = b) then Some c else f x.

(** The new parent is the last block above all predecessors that have one; the block
    itself may be left out of them. *)
Record meets f (b c : nat) : Prop := {
  mt_reach : reachable c;
  mt_some : is_Some (f c);
  mt_above p : reachable p → edge p b → p ≠ b → is_Some (f p) → above f c p;
  mt_last a : (∀ p, reachable p → edge p b → is_Some (f p) → above f a p) → above f a c;
}.

Section set_parent.
Context f (Hf : table_ok f) (b c : nat) (Hb : reachable b) (Hne : b ≠ entry).
Context (Hfpar : is_Some (f (par b))) (Hm : meets f b c).
#[local] Abbreviation f' := (set_parent f b c).

Lemma meets_below : above f c (par b) ∧ num c < num b.
Proof using Hpar Hf Hb Hne Hfpar Hm.
  destruct (Hpar b Hb Hne) as (Hp & He & ?). pose proof (mt_above f b c Hm (par b) Hp He ltac:(intros E; rewrite E in *; lia) Hfpar) as Ha.
  split; [done|]. destruct (above_facts f c (par b)) as (_ & _ & ?); [done..|lia].
Qed.

Lemma set_parent_other x : x ≠ b → f' x = f x.
Proof using. intros. unfold set_parent. by rewrite decide_False. Qed.
Lemma set_parent_self : f' b = Some c.
Proof using. unfold set_parent. by rewrite decide_True. Qed.
Lemma set_parent_some x : is_Some (f x) → is_Some (f' x).
Proof using. intros. unfold set_parent. by case_decide. Qed.
Lemma set_parent_some_inv x : is_Some (f' x) → x = b ∨ is_Some (f x).
Proof using. unfold set_parent. case_decide; auto. Qed.

(** Chains below the changed block stay as they are. *)
Lemma above_low a x : reachable x → is_Some (f x) → num x < num b → above f a x ↔ above f' a x.
Proof using Hne Hf.
  intros Hr Hs Hlt. split; intros Ha.
  - induction Ha as [|x d Hx E Ha IH]; [constructor|]. destruct (tk_parent f Hf x d Hr Hx E) as (? & ? & ?).
    econstructor; [done| |apply IH; [done|done|lia]]. rewrite set_parent_other; [done|]. intros ->. lia.
  - induction Ha as [|x d Hx E Ha IH]; [constructor|]. rewrite set_parent_other in E by (intros ->; lia).
    destruct (tk_parent f Hf x d Hr Hx E) as (? & ? & ?). econstructor; [done|done|apply IH; [done|done|lia]].
Qed.

Lemma above_new a : above f' a b ↔ a = b ∨ above f a c.
Proof using Hpar Hf Hb Hne Hfpar Hm.
  destruct Hm as [Hrc Hsc _ _]. destruct meets_below as [_ Hlt]. rewrite (above_low a c) by done. split.
  - intros [->|[_ ?]]%(above_step_inv _ _ _ c); [by left|by right|apply set_parent_self].
  - intros [->|Ha]; [constructor|]. econstructor; [done|apply set_parent_self|done].
Qed.

Lemma above_to_changed x : above f b x → above f' b x.
Proof using.
  intros Ha. induction Ha as [|x d Hx E Ha IH]; [constructor|]. destruct (decide (x = b)) as [->|Hxb]; [constructor|].
  econstructor; [done|by rewrite set_parent_other|done].
Qed.

(** What a chain gains and loses. *)
Lemma above_gain a x : reachable x → is_Some (f x) → above f' a x → above f a x ∨ (above f b x ∧ above f' a b).
Proof using Hf.
  intros Hr Hs Ha. induction Ha as [|x d Hx E Ha IH]; [left; constructor|].
  destruct (decide (x = b)) as [->|Hxb]; [right; split; [constructor|by econstructor]|].
  rewrite set_parent_other in E by done. destruct (tk_parent f Hf x d Hr Hx E) as (? & ? & ?).
  destruct IH as [?|[? ?]]; [done|done|left; by econstructor|right; split; [by econstructor|done]].
Qed.

Lemma above_loss a x : above f a x → above f' a x ∨ (above f b x ∧ above f a b).
Proof using.
  intros Ha. induction Ha as [|x d Hx E Ha IH]; [left; constructor|].
  destruct (decide (x = b)) as [->|Hxb]; [right; split; [constructor|by econstructor]|].
  destruct IH as [?|[? ?]]; [|right; split; [by econstructor|done]].
  left. econstructor; [done|by rewrite set_parent_other|done].
Qed.

Lemma set_parent_ok : table_ok f'.
Proof using Hpar Hf Hb Hne Hfpar Hm.
  destruct Hm as [Hrc Hsc _ _]. destruct meets_below as [_ Hlt]. constructor.
  - rewrite set_parent_other by done. apply Hf.
  - intros x d Hr Hx E. destruct (decide (x = b)) as [->|Hxb].
    + rewrite set_parent_self in E. injection E as <-. split_and!; [done|done|by apply set_parent_some].
    + rewrite set_parent_other in E by done. destruct (tk_parent f Hf x d Hr Hx E) as (? & ? & ?).
      split_and!; [done|done|by apply set_parent_some].
Qed.
End set_parent.

(** ** Passes over the blocks *)

(** [k] passes are done and, of the next one, the blocks with a number below [i]. *)
Definition level (k i b : nat) : nat := if decide (num b < i) then S k else k.

Record pass_inv (k i : nat) f : Prop := {
  pi_ok : table_ok f;
  pi_done b : reachable b → 0 < level k i b → is_Some (f b);
  pi_tree a b : reachable b → is_Some (f b) → above f a b → tree_above a b;
  pi_sound a b : reachable b → is_Some (f b) → dominates a b → above f a b;
  pi_bound a b l : reachable b → is_Some (f b) → above f a b → trace l b → length l ≤ S (level k i b) → a ∈ l;
}.

#[export] Instance pass_inv_proper k i : Proper (pointwise_relation nat eq ==> impl) (pass_inv k i).
Proof using.
  intros f g Hfg [Hok Hdone Htree Hsound Hbound].
  constructor; [by rewrite <- Hfg| | | |]; intros *; rewrite <- !Hfg; eauto.
Qed.

Lemma level_ge k i b : k ≤ level k i b ≤ S k.
Proof using. unfold level. case_decide; lia. Qed.

(** Nothing but the entry has the number [i]. *)
Lemma pass_inv_skip k i f : pass_inv k i f → (∀ b, reachable b → num b = i → b = entry) → pass_inv k (S i) f.
Proof using.
  intros [Hok Hdone Htree Hsound Hbound] Hi.
  assert (∀ b, reachable b → b = entry ∨ level k (S i) b = level k i b) as Hlev.
  { intros b Hb. destruct (decide (num b = i)) as [E|Hn]; [left; auto|right]. unfold level. repeat case_decide; lia. }
  constructor; [done| |done|done|].
  - intros b Hb Hl. destruct (Hlev b Hb) as [->|E]; [rewrite (tk_entry f Hok); eauto|rewrite E in Hl; eauto].
  - intros a b l Hb Hs Ha Hl Hlen. destruct (Hlev b Hb) as [->|E]; [|rewrite E in Hlen; eauto].
    rewrite (above_entry f a Ha). by eapply trace_entry_in.
Qed.

Section step.
Context k i f (Hinv : pass_inv k i f) (b c : nat) (Hb : reachable b) (Hne : b ≠ entry) (Hbi : num b = i).
Context (Hm : meets f b c).

Lemma step_par : is_Some (f (par b)).
Proof using Hpar Hinv Hb Hne Hbi.
  destruct (Hpar b Hb Hne) as (Hp & He & ?). apply (pi_done _ _ _ Hinv); [done|]. unfold level. rewrite decide_True; lia.
Qed.
Lemma step_ok : table_ok f.
Proof using Hinv. apply Hinv. Qed.
#[local] Hint Resolve step_par step_ok : core.
#[local] Abbreviation f' := (set_parent f b c).

Lemma step_tree_self a : above f' a b → tree_above a b.
Proof using Hpar Hinv Hb Hne Hbi Hm.
  intros [->|Ha]%above_new; [constructor| |auto..]. destruct (meets_below f (pi_ok _ _ _ Hinv) b c) as [Hc _]; [auto..|].
  destruct (Hpar b Hb Hne) as (Hp & _). constructor; [done|]. apply (pi_tree _ _ _ Hinv); [done|auto|]. by eapply above_trans.
Qed.

Lemma step_sound_self a : dominates a b → above f' a b.
Proof using Hpar Hinv Hb Hne Hbi Hm.
  intros Hd. apply above_new; [auto..|]. destruct (decide (a = b)) as [|Hab]; [by left|right].
  apply (mt_last _ _ _ Hm). intros p Hp He Hs. apply (pi_sound _ _ _ Hinv); [done|done|]. by eapply strict_dominates_pred.
Qed.

Lemma step_bound_self a l : above f' a b → trace l b → length l ≤ S (S k) → a ∈ l.
Proof using Hpar Hinv Hb Hne Hbi Hm.
  intros Ha. apply above_new in Ha; [|auto..]. destruct Ha as [->|Ha]; [intros; by apply trace_in|].
  induction l as [|x l' IHl]; intros Hl Hlen; inversion Hl as [|l0 p b' Hl' He]; simplify_eq. right. cbn in Hlen.
  destruct (decide (p = b)) as [->|Hpb]; [apply IHl; [done|lia]|].
  assert (reachable p) as Hp by by eexists.
  assert (is_Some (f p)) as Hs.
  { inversion Hl' as [|l'' q ? Hl'' He']; simplify_eq; [rewrite (tk_entry f (pi_ok _ _ _ Hinv)); eauto|].
    apply (pi_done _ _ _ Hinv); [done|]. pose proof (level_ge k (num b) p).
    inversion Hl''; subst; cbn in Hlen; lia. }
  apply (pi_bound _ _ _ Hinv a p l' Hp Hs); [|done|pose proof (level_ge k (num b) p); lia].
  eapply above_trans; [done|]. by apply (mt_above _ _ _ Hm).
Qed.

Lemma step_some_below x : reachable x → is_Some (f x) → above f b x → is_Some (f b).
Proof using Hinv. intros Hr Hs Ha. by destruct (above_facts f b x (pi_ok _ _ _ Hinv) Hr Hs Ha) as (_ & ? & _). Qed.

Lemma pass_inv_step : pass_inv k (S i) f'.
Proof using Hpar Hinv Hb Hne Hbi Hm Hinj.
  pose proof Hinv as [Hok Hdone Htree Hsound Hbound]. constructor.
  - apply set_parent_ok; auto.
  - intros x Hr Hl. destruct (decide (x = b)) as [->|Hxb]; [rewrite set_parent_self; eauto|].
    apply set_parent_some, Hdone; [done|]. assert (num x ≠ i) by (intros E; apply Hxb, Hinj; congruence).
    unfold level in *. repeat case_decide; lia.
  - intros a x Hr Hs Ha. destruct (decide (x = b)) as [->|Hxb]; [by apply step_tree_self|].
    apply set_parent_some_inv in Hs as [?|Hs]; [done|].
    apply above_gain in Ha as [Ha|[Hbx Ha]]; [by eauto| |auto..].
    eapply tree_above_trans; [by apply step_tree_self|by apply Htree].
  - intros a x Hr Hs Hd. destruct (decide (x = b)) as [->|Hxb]; [by apply step_sound_self|].
    apply set_parent_some_inv in Hs as [?|Hs]; [done|].
    destruct (above_loss f b c a x (Hsound a x Hr Hs Hd)) as [?|[Hbx Hab]]; [done|].
    eapply above_trans; [|by apply above_to_changed]. apply step_sound_self.
    eapply (dominates_between a b x); eauto using step_some_below.
  - intros a x l Hr Hs Ha Hl Hlen. destruct (decide (x = b)) as [->|Hxb].
    { eapply step_bound_self; [done|done|]. unfold level in Hlen. case_decide; lia. }
    apply set_parent_some_inv in Hs as [?|Hs]; [done|].
    assert (level k (S i) x = level k i x) as E.
    { assert (num x ≠ i) by (intros E; apply Hxb, Hinj; congruence). unfold level. repeat case_decide; lia. }
    rewrite E in Hlen. apply above_gain in Ha as [Ha|[Hbx Ha]]; [by eauto| |auto..].
    destruct (trace_suffix _ _ _ Hl (Hbound b x l Hr Hs Hbx Hl Hlen)) as (l1 & l2 & -> & Hl2).
    apply elem_of_app. right. apply step_bound_self; [done|done|]. rewrite length_app in Hlen.
    pose proof (level_ge k i x). lia.
Qed.
End step.

Lemma pass_inv_next k f : pass_inv k n f → pass_inv (S k) 0 f.
Proof using Hnum.
  intros [Hok Hdone Htree Hsound Hbound]. assert (∀ b, reachable b → level k n b = S k) as Hl.
  { intros b Hb. unfold level. apply decide_True. auto. }
  constructor; [done| |done|done|].
  - intros b Hb _. apply Hdone; [done|]. rewrite Hl by done. lia.
  - intros a b l Hb Hs Ha Ht Hlen. unfold level in Hlen. cbn in Hlen. eapply Hbound; eauto. by rewrite Hl.
Qed.

(** ** The dominator tree *)

Record dominator_table f : Prop := {
  dt_ok : table_ok f;
  dt_some b : reachable b → is_Some (f b);
  dt_above a b : reachable b → above f a b ↔ dominates a b;
}.

Lemma pass_inv_exact k f : pass_inv k 0 f → n ≤ k → 0 < k → dominator_table f.
Proof using Hinj Hnum.
  intros [Hok Hdone Htree Hsound Hbound] Hk H0. assert (∀ b, reachable b → is_Some (f b)) as Hs.
  { intros b Hb. apply Hdone; [done|]. unfold level. cbn. done. }
  constructor; [done|done|]. intros a b Hb. split; [|by auto]. intros Ha l Hl.
  destruct (trace_nodup _ _ Hl) as (l' & Hl' & Hn & Hsub). apply Hsub. eapply Hbound; eauto.
  pose proof (nodup_bound l' Hn ltac:(intros x; by eapply trace_reachable)). pose proof (level_ge k 0 b). lia.
Qed.

(** In the dominator tree nothing changes. *)
Lemma dominator_table_meets f b c : dominator_table f → reachable b → b ≠ entry → meets f b c → f b = Some c.
Proof using Hpar Hinj.
  intros [Hok Hs Hd] Hb Hne Hm. destruct (Hs b Hb) as [d Ed]. rewrite Ed. f_equal.
  destruct (tk_parent f Hok b d Hb Hne Ed) as (Hrd & Hlt & Hsd).
  destruct (meets_below f Hok b c Hb Hne ltac:(apply Hs, Hpar; done) Hm) as [_ Hltc]. destruct Hm as [Hrc Hsc Hm1 Hm2].
  apply (above_antisym f); [done..| |].
  - apply Hm2. intros p Hp He _. apply Hd; [done|]. eapply strict_dominates_pred; [|done]. split; [|intros ->; lia].
    apply Hd; [done|]. econstructor; [done|done|constructor].
  - assert (above f c b) as Ha.
    { apply Hd; [done|]. apply dominates_preds; [done|]. intros p Hp He Hpb. apply Hd; auto. }
    apply (above_step_inv _ _ _ _ Ed) in Ha as [->|[_ ?]]; [lia|done].
Qed.

Lemma dominator_table_immediate f b c : dominator_table f → reachable b → b ≠ entry → f b = Some c → immediate_dominator c b.
Proof using.
  intros [Hok Hs Hd] Hb Hne E. destruct (tk_parent f Hok b c Hb Hne E) as (Hrc & Hlt & Hsc). split; [split|].
  - apply Hd; [done|]. econstructor; [done|done|constructor].
  - intros ->. lia.
  - intros a [Ha Hab]. apply Hd; [done|]. apply Hd in Ha; [|done].
    by apply (above_step_inv _ _ _ _ E) in Ha as [?|[_ ?]].
Qed.
End graph.
