(* ===== verification/Dominance.v ===== *)
(** * jit/dominance.c: depth-first numbers, dominators, dominance frontiers

    A compilation unit with the fields that this file computes: of a block, its number
    [dfn] and its frontier; of the unit, the two arrays, which are indexed by the numbers
    of the blocks.  A pointer to a block is its place in [blocks], [None] the null pointer.
    The loops pass the part of the state they change explicitly; [None] is undefined
    behaviour: a null pointer or an index outside an array, an overflow, a failed
    assertion, or a loop left without fuel.  Sets are used through [SetOps]. *)

From S2P Require Import Prelude CMonad Bitset SetInterface BasicBlock.
#[local] Open Scope Z_scope.

(** [a[i]] with a signed index, read and written. *)
Definition array_get {A} (l : list A) (i : Z) : option A := if decide (0 <= i) then l !! Z.to_nat i else None.
Definition array_set {A} (l : list A) (i : Z) (x : A) : option (list A) :=
  if decide (0 <= i < Z.of_nat (length l)) then Some (<[Z.to_nat i := x]> l) else None.

(** ** Compilation units *)

Record block (B : Type) := Block { bb : basic_block; dfn : Z; dom_frontier : option B }.
Arguments Block {B}.
Arguments bb {B}.
Arguments dfn {B}.
Arguments dom_frontier {B}.

Record dom_unit (B : Type) := DU {
  du_heap : mem;
  blocks : list (block B);
  du_list : list nat;
  du_nr : Z;
  entry_bb : nat;
  bb_df_array : list (option nat);
  doms : list (option nat);
}.
Arguments DU {B}.
Arguments du_heap {B}.
Arguments blocks {B}.
Arguments du_list {B}.
Arguments du_nr {B}.
Arguments entry_bb {B}.
Arguments bb_df_array {B}.
Arguments doms {B}.

Section ops.
Context {B : Type} `{SetOps B}.
Implicit Types (bs : list (block B)) (u : dom_unit B).

Definition preds bs (b : nat) : list nat := default [] ((λ x, predecessors (bb x)) <$> bs !! b).
Definition nr_bblocks u : Z := du_nr u.

(** ** Depth-first numbers *)

(** The variables that [do_compute_dfns] changes. *)
Record dfs := DFS { dfs_blocks : list (block B); df_array : list (option nat); last_dfn : Z }.

(** [( *dfn)++], the number of the block and its place in the array. *)
Definition number (succ : nat) (s : dfs) : option dfs :=
  if decide (last_dfn s + 1 < 2 ^ 31) then
    let d := last_dfn s + 1 in
    c ← dfs_blocks s !! succ;
    arr ← array_set (df_array s) d (Some succ);
    Some (DFS (<[succ := Block (bb c) d (dom_frontier c)]> (dfs_blocks s)) arr d)
  else None.

Fixpoint visit (entry : nat) (rec : nat → dfs → option dfs) (succs : list nat) (s : dfs) : option dfs :=
  match succs with
  | [] => Some s
  | succ :: succs' =>
    c ← dfs_blocks s !! succ;
    if decide (dfn c ≠ 0 ∨ succ = entry) then visit entry rec succs' s else
    s1 ← number succ s;
    s2 ← rec succ s1;
    visit entry rec succs' s2
  end.

Fixpoint do_compute_dfns (fuel : nat) (entry b : nat) (s : dfs) : option dfs :=
  match fuel with
  | O => None
  | S fuel' =>
    c ← dfs_blocks s !! b;
    visit entry (do_compute_dfns fuel' entry) (successors (bb c)) s
  end.

(** zalloc(sizeof(struct basic_block * ) * nr_bblocks(cu)) *)
Definition zalloc_array `{Allocator} (nr : Z) : M (dom_unit B) unit (option (list (option nat))) := λ u,
  match mem_malloc (u64 (8 * nr)) (du_heap u) with
  | (p, h) =>
    Done (match p with Some _ => Some (replicate (Z.to_nat nr) None) | None => None end)
      (DU h (blocks u) (du_list u) (du_nr u) (entry_bb u) (bb_df_array u) (doms u))
  end.

(** Every block is numbered at most once: a call for each is enough. *)
Definition compute_dfns `{Allocator} : M (dom_unit B) unit Z :=
  let* n := get nr_bblocks in
  let* arr := zalloc_array n in
  match arr with
  | None => ret (- ENOMEM)
  | Some arr => λ u,
    match (arr ← array_set arr 0 (Some (entry_bb u));
           do_compute_dfns (S (length (blocks u))) (entry_bb u) (entry_bb u) (DFS (blocks u) arr 0)) with
    | Some s => Done 0 (DU (du_heap u) (dfs_blocks s) (du_list u) (du_nr u) (entry_bb u) (df_array s) (doms u))
    | None => Undef
    end
  end.

(** ** Dominators *)

Definition dfn_of bs (p : nat) : option Z := dfn <$> bs !! p.

(** [doms[p->dfn]] *)
Definition dom_of bs (ds : list (option nat)) (p : nat) : option (option nat) := d ← dfn_of bs p; array_get ds d.

(** Each step lowers the number of a finger: their sum is enough. *)
Fixpoint intersect_loop (fuel : nat) bs (ds : list (option nat)) (finger1 finger2 : option nat) : option (option nat) :=
  match fuel with
  | O => None
  | S fuel' =>
    if decide (finger1 = finger2) then Some finger1 else
    f1 ← finger1; f2 ← finger2;
    d1 ← dfn_of bs f1; d2 ← dfn_of bs f2;
    if decide (d1 < d2)
    then d ← array_get ds d2; intersect_loop fuel' bs ds finger1 d
    else d ← array_get ds d1; intersect_loop fuel' bs ds d finger2
  end.
Definition intersect bs (ds : list (option nat)) (b1 b2 : option nat) : option (option nat) :=
  intersect_loop (S (2 * length ds)) bs ds b1 b2.

(** [!p->dfn && p != start]: the block is not reachable. *)
Definition skipped bs (start p : nat) : option bool :=
  d ← dfn_of bs p; Some (bool_decide (d = 0 ∧ p ≠ start)).

(** The first loop over the predecessors: the first one that has a dominator, and the
    predecessors from it on. *)
Fixpoint first_idom bs (ds : list (option nat)) (start b : nat) (ps : list nat) : option (option nat * list nat) :=
  match ps with
  | [] => Some (None, [])
  | p :: ps' =>
    sk ← skipped bs start p;
    if (sk : bool) then first_idom bs ds start b ps' else
    if decide (p = b) then first_idom bs ds start b ps' else
    d ← dom_of bs ds p;
    match d with
    | Some _ => Some (Some p, ps)
    | None => first_idom bs ds start b ps'
    end
  end.

Fixpoint meet_idoms bs (ds : list (option nat)) (start : nat) (ps : list nat) (new_idom : option nat) : option (option nat) :=
  match ps with
  | [] => Some new_idom
  | p :: ps' =>
    sk ← skipped bs start p;
    if (sk : bool) then meet_idoms bs ds start ps' new_idom else
    d ← dom_of bs ds p;
    match d with
    | Some _ => new_idom' ← intersect bs ds (Some p) new_idom; meet_idoms bs ds start ps' new_idom'
    | None => meet_idoms bs ds start ps' new_idom
    end
  end.

(** The body of the loop over the numbers, with its assertion. *)
Definition process_block bs (arr : list (option nat)) (start : nat) (ndx : Z)
  (dc : list (option nat) * bool) : option (list (option nat) * bool) :=
  let '(ds, changed) := dc in
  ob ← array_get arr ndx;
  match ob with
  | None => Some (ds, changed)
  | Some b =>
    d ← dfn_of bs b;
    if decide (d = 0) then Some (ds, changed) else
    r ← first_idom bs ds start b (preds bs b);
    new_idom ← (if decide (b ≠ start ∧ r.1 = None) then None else meet_idoms bs ds start r.2 r.1);
    old ← array_get ds d;
    if decide (old = new_idom) then Some (ds, changed) else
    if decide (b = start)
    then ds' ← array_set ds d (Some b); Some (ds', changed)
    else ds' ← array_set ds d new_idom; Some (ds', true)
  end.

(** [for (ndx = 0; ndx < nr_bblocks(cu); ndx++)] with [n] iterations left. *)
Fixpoint dom_pass bs (arr : list (option nat)) (start : nat) (n : nat) (ndx : Z)
  (dc : list (option nat) * bool) : option (list (option nat) * bool) :=
  match n with
  | O => Some dc
  | S n' => dc' ← process_block bs arr start ndx dc; dom_pass bs arr start n' (ndx + 1) dc'
  end.

Fixpoint dom_loop (fuel : nat) bs (arr : list (option nat)) (start : nat) (n : nat) (ds : list (option nat)) :
  option (list (option nat)) :=
  match fuel with
  | O => None
  | S fuel' =>
    r ← dom_pass bs arr start n 0 (ds, false);
    if (r.2 : bool) then dom_loop fuel' bs arr start n r.1 else Some r.1
  end.

(** After as many passes as there are blocks, another one changes nothing. *)
Definition compute_dom `{Allocator} : M (dom_unit B) unit Z :=
  let* n := get nr_bblocks in
  let* ds := zalloc_array n in
  match ds with
  | None => ret (- ENOMEM)
  | Some ds => λ u,
    match (d ← dfn_of (blocks u) (entry_bb u);
           ds ← array_set ds d (Some (entry_bb u));
           dom_loop (S (S (Z.to_nat n))) (blocks u) (bb_df_array u) (entry_bb u) (Z.to_nat n) ds) with
    | Some ds => Done 0 (DU (du_heap u) (blocks u) (du_list u) (du_nr u) (entry_bb u) (bb_df_array u) ds)
    | None => Undef
    end
  end.

(** ** Dominance frontiers *)

Definition set_frontier (f : option B) (b : block B) : block B := Block (bb b) (dfn b) f.

(** The first loop: an error leaves the sets allocated so far. *)
Fixpoint alloc_frontiers `{Allocator} (n : Z) (l : list nat) (hb : mem * list (block B)) : option (Z * (mem * list (block B))) :=
  match l with
  | [] => Some (0, hb)
  | i :: l' =>
    b ← hb.2 !! i;
    match bs_alloc n hb.1 with
    | Done s h => alloc_frontiers n l' (h, <[i := set_frontier (Some s) b]> hb.2)
    | Fail _ h => Some (- ENOMEM, (h, <[i := set_frontier None b]> hb.2))
    | Undef => None
    end
  end.

(** [set_bit(runner->dom_frontier->bits, b->dfn)] *)
Definition add_frontier (runner : nat) (d : Z) bs : option (list (block B)) :=
  r ← bs !! runner;
  s ← dom_frontier r;
  s' ← bs_set s d;
  Some (<[runner := set_frontier (Some s') r]> bs).

(** Each step goes to a smaller number. *)
Fixpoint run_up (fuel : nat) (ds : list (option nat)) (stop : option nat) (d : Z) (runner : option nat) bs : option (list (block B)) :=
  match fuel with
  | O => None
  | S fuel' =>
    if decide (runner = stop) then Some bs else
    r ← runner;
    bs' ← add_frontier r d bs;
    next ← dom_of bs' ds r;
    run_up fuel' ds stop d next bs'
  end.

Fixpoint frontier_preds (ds : list (option nat)) (start : nat) (d : Z) (ps : list nat) bs : option (list (block B)) :=
  match ps with
  | [] => Some bs
  | p :: ps' =>
    sk ← skipped bs start p;
    if (sk : bool) then frontier_preds ds start d ps' bs else
    stop ← array_get ds d;
    bs' ← run_up (S (length ds)) ds stop d (Some p) bs;
    frontier_preds ds start d ps' bs'
  end.

Fixpoint frontier_blocks (ds : list (option nat)) (start : nat) (l : list nat) bs : option (list (block B)) :=
  match l with
  | [] => Some bs
  | i :: l' =>
    b ← bs !! i;
    bs' ← (if decide (2 <= Z.of_nat (length (predecessors (bb b))))
           then frontier_preds ds start (dfn b) (predecessors (bb b)) bs else Some bs);
    frontier_blocks ds start l' bs'
  end.

Definition compute_dom_frontier `{Allocator} : M (dom_unit B) unit Z := λ u,
  match (r ← alloc_frontiers (nr_bblocks u) (du_list u) (du_heap u, blocks u);
         let '(err, (h, bs)) := r in
         bs' ← (if decide (err = 0) then frontier_blocks (doms u) (entry_bb u) (du_list u) bs else Some bs);
         Some (err, h, bs')) with
  | Some (err, h, bs) => Done err (DU h bs (du_list u) (du_nr u) (entry_bb u) (bb_df_array u) (doms u))
  | None => Undef
  end.
End ops.
