(* ===== verification/DominanceSpec.v ===== *)
(** * Depth-first numbering of the control flow graph

    [compute_dfns] numbers exactly the blocks that can be reached from the entry block, in
    the order in which it finds them; each is found from a block with a smaller number. *)

From S2P Require Import Prelude CMonad SetInterface BasicBlock DominatorTree Dominance.
#[local] Open Scope Z_scope.

(** ** Graphs *)

Section graph.
Context (gs : list basic_block) (l : list nat) (entry : nat).

Definition succs (i : nat) : list nat := default [] (successors <$> gs !! i).
Definition edge (i j : nat) : Prop := j ∈ succs i.
#[export] Instance edge_dec i j : Decision (edge i j).
Proof. unfold edge. apply _. Defined.

(** The blocks of the list [l], the entry among them; the predecessors are the other ends
    of the edges. *)
Record graph_ok : Prop := {
  go_nodup : NoDup l;
  go_in i : i ∈ l → (i < length gs)%nat;
  go_entry : entry ∈ l;
  go_succ i j : i ∈ l → edge i j → j ∈ l;
  go_pred i j b : i ∈ l → gs !! i = Some b → j ∈ predecessors b → j ∈ l;
  go_sym i j c : i ∈ l → j ∈ l → gs !! j = Some c → edge i j ↔ i ∈ predecessors c;
  go_small : Z.of_nat (length l) < 2 ^ 31;
}.

Context {B : Type} `{SetOps B} (Hg : graph_ok).
Abbreviation reach := (reachable edge entry).

Lemma reach_in i : reach i → i ∈ l.
Proof using Hg. intros [t Ht]. induction Ht as [|t p b Ht IH He]; [apply Hg|]. by eapply go_succ. Qed.

(** ** The numbering *)

Definition dfn_at (bs : list (block B)) (i : nat) : Z := default 0 (dfn_of bs i).

(** The blocks [vs] have been found, in this order. *)
Record numbered (bs : list (block B)) (arr : list (option nat)) (vs : list nat) : Prop := {
  nb_blocks : bb <$> bs = gs;
  nb_array : arr = (Some <$> vs) ++ replicate (length l - length vs) None;
  nb_nodup : NoDup vs;
  nb_sub i : i ∈ vs → i ∈ l;
  nb_entry : vs !! 0%nat = Some entry;
  nb_dfn k i : vs !! k = Some i → dfn_at bs i = Z.of_nat k;
  nb_other i : i ∉ vs → dfn_at bs i = 0;
  nb_parent k i : vs !! S k = Some i → ∃ j p, (j <= k)%nat ∧ vs !! j = Some p ∧ edge p i;
}.
Definition dfs_ok (s : dfs) (vs : list nat) : Prop :=
  numbered (dfs_blocks s) (df_array s) vs ∧ last_dfn s = Z.of_nat (length vs) - 1.

Lemma block_at bs arr vs i : numbered bs arr vs → i ∈ l → ∃ c, bs !! i = Some c ∧ gs !! i = Some (bb c) ∧ dfn_at bs i = dfn c.
Proof using Hg.
  intros Hn Hi. apply (go_in Hg) in Hi. rewrite <- (nb_blocks _ _ _ Hn), length_fmap in Hi.
  destruct (lookup_lt_is_Some_2 _ _ Hi) as [c Ec]. exists c. split_and!; [done| |unfold dfn_at, dfn_of; by rewrite Ec].
  by rewrite <- (nb_blocks _ _ _ Hn), list_lookup_fmap, Ec.
Qed.

Lemma nb_found bs arr vs i : numbered bs arr vs → i ∈ vs ↔ dfn_at bs i ≠ 0 ∨ i = entry.
Proof using.
  intros Hn. split.
  - intros [k Hk]%list_elem_of_lookup. rewrite (nb_dfn _ _ _ Hn k i Hk). destruct k; [|left; lia].
    right. pose proof (nb_entry _ _ _ Hn). congruence.
  - intros [Hd| ->]; [|eapply list_elem_of_lookup_2, (nb_entry _ _ _ Hn)].
    destruct (decide (i ∈ vs)); [done|]. by rewrite (nb_other _ _ _ Hn i) in Hd.
Qed.

Lemma nb_length bs arr vs : numbered bs arr vs → (length vs <= length l)%nat ∧ (0 < length vs)%nat.
Proof using.
  intros Hn. split; [|pose proof (lookup_lt_Some _ _ _ (nb_entry _ _ _ Hn)); lia].
  apply submseteq_length, NoDup_submseteq; [apply Hn|]. apply Hn.
Qed.

Lemma nb_arr_length bs arr vs : numbered bs arr vs → length arr = length l.
Proof using.
  intros Hn. rewrite (nb_array _ _ _ Hn), length_app, length_fmap, length_replicate.
  pose proof (nb_length _ _ _ Hn). lia.
Qed.

Lemma nb_room bs arr vs i : numbered bs arr vs → i ∈ l → i ∉ vs → (length vs < length l)%nat.
Proof using.
  intros Hn Hi Hv. enough (length (vs ++ [i]) <= length l)%nat by (rewrite length_app in *; cbn in *; lia).
  apply submseteq_length, NoDup_submseteq.
  - apply NoDup_snoc; [apply Hn|done].
  - intros x [?| ->%list_elem_of_singleton]%elem_of_app; [by apply Hn|done].
Qed.

(** A block is found from [p]. *)
Lemma number_ok s vs p i : dfs_ok s vs → p ∈ vs → edge p i → i ∈ l → i ∉ vs →
  ∃ s', number i s = Some s' ∧ dfs_ok s' (vs ++ [i]).
Proof using Hg.
  intros [Hn Hlast] Hp He Hi Hv. pose proof (nb_room _ _ _ i Hn Hi Hv) as Hroom. pose proof (nb_arr_length _ _ _ Hn) as Hla.
  pose proof (nb_length _ _ _ Hn) as [_ Hpos].
  destruct (block_at _ _ _ i Hn Hi) as (c & Ec & Eg & _). pose proof (go_small Hg).
  unfold number. rewrite Hlast. rewrite decide_True by lia. rewrite Ec. cbn. unfold array_set. rewrite decide_True by lia. cbn.
  replace (Z.of_nat (length vs) - 1 + 1) with (Z.of_nat (length vs)) by lia. rewrite Nat2Z.id.
  eexists. split; [done|]. split; [|cbn; rewrite length_app; cbn; lia]. pose proof Hn as [Hb Ha Hnd Hsub Hent Hdfn Hoth Hpar].
  assert (∀ j, j ≠ i → dfn_at (<[i := Block (bb c) (Z.of_nat (length vs)) (dom_frontier c)]> (dfs_blocks s)) j = dfn_at (dfs_blocks s) j) as Hne.
  { intros j Hj. unfold dfn_at, dfn_of. by rewrite list_lookup_insert_ne. }
  constructor; cbn.
  - rewrite list_fmap_insert. cbn. rewrite Hb. by apply list_insert_id.
  - rewrite Ha, insert_app_r_alt by (rewrite length_fmap; lia). rewrite length_fmap, Nat.sub_diag, fmap_app, <- app_assoc. f_equal.
    rewrite length_app. cbn [length]. destruct (length l - length vs)%nat as [|m] eqn:Em; [lia|]. cbn. do 2 f_equal. lia.
  - by apply NoDup_snoc.
  - intros x [?| ->%list_elem_of_singleton]%elem_of_app; [by apply Hsub|done].
  - by apply lookup_app_l_Some.
  - intros k x Hk. destruct (decide (x = i)) as [->|Hx].
    + apply lookup_app_Some in Hk as [Hk|[Hk Hk']]; [by apply list_elem_of_lookup_2 in Hk|].
      apply list_lookup_singleton_Some in Hk' as [Hk' _]. unfold dfn_at, dfn_of.
      rewrite list_lookup_insert_eq by (by eapply lookup_lt_Some). cbn. lia.
    + rewrite Hne by done. apply Hdfn. apply lookup_app_Some in Hk as [Hk|[Hk Hk']]; [done|].
      apply list_lookup_singleton_Some in Hk' as [_ ?]. congruence.
  - intros x Hx. rewrite Hne by set_solver. apply Hoth. set_solver.
  - intros k x Hk. apply lookup_app_Some in Hk as [Hk|[Hk Hk']].
    + destruct (Hpar k x Hk) as (j & q & ? & ? & ?). exists j, q. split_and!; [done| |done]. by apply lookup_app_l_Some.
    + apply list_lookup_singleton_Some in Hk' as [Hk' <-]. apply list_elem_of_lookup in Hp as [j Hj].
      exists j, p. pose proof (lookup_lt_Some _ _ _ Hj). split_and!; [lia|by apply lookup_app_l_Some|done].
Qed.

(** What a call for the block [b] does: it finds the blocks [ws]. *)
Definition explores (b : nat) (vs : list nat) (r : option dfs) : Prop :=
  ∃ s' ws, r = Some s' ∧ dfs_ok s' (vs ++ ws) ∧ ∀ x j, x ∈ b :: ws → edge x j → j ∈ vs ++ ws.

Lemma visit_ok rec p (n : nat) : (∀ s vs i, dfs_ok s vs → i ∈ vs → (n <= length vs)%nat → explores i vs (rec i s)) →
  ∀ ss s vs, dfs_ok s vs → p ∈ vs → (n <= S (length vs))%nat → (∀ j, j ∈ ss → edge p j) →
  ∃ s' ws, visit entry rec ss s = Some s' ∧ dfs_ok s' (vs ++ ws) ∧ (∀ j, j ∈ ss → j ∈ vs ++ ws) ∧
    ∀ x j, x ∈ ws → edge x j → j ∈ vs ++ ws.
Proof using Hg.
  intros Hrec. induction ss as [|i ss IH]; intros s vs Hs Hp Hlen He.
  { exists s, []. cbn. rewrite app_nil_r. split_and!; [done|done| |]; by intros * ?%elem_of_nil. }
  destruct Hs as [Hn Hlast]. assert (i ∈ l) as Hi.
  { apply (go_succ Hg p); [by apply Hn|apply He; by left]. }
  destruct (block_at _ _ _ i Hn Hi) as (c & Ec & _ & Ed). cbn. rewrite Ec. cbn. rewrite <- Ed.
  pose proof (nb_found _ _ _ i Hn) as Hf. destruct (decide (dfn_at (dfs_blocks s) i ≠ 0 ∨ i = entry)) as [Hv|Hv]; rewrite <- Hf in Hv.
  - destruct (IH s vs) as (s' & ws & -> & Hs' & Hss & Hws); [done|done|done|intros j Hj; apply He; by right|].
    exists s', ws. split_and!; [done|done| |done]. intros j [->|Hj]%elem_of_cons; [apply elem_of_app; by left|auto].
  - destruct (number_ok s vs p i) as (s1 & -> & Hs1); [done|done|apply He; by left|done|done|]. cbn.
    destruct (Hrec s1 (vs ++ [i]) i Hs1) as (s2 & ws & -> & Hs2 & Hc); [set_solver|rewrite length_app; cbn; lia|]. cbn.
    destruct (IH s2 ((vs ++ [i]) ++ ws)) as (s' & ws' & -> & Hs' & Hss & Hws);
      [done|set_solver|rewrite !length_app; lia|intros j Hj; apply He; by right|].
    exists s', ([i] ++ ws ++ ws'). rewrite !app_assoc. split_and!; [done|done|set_solver|].
    intros x j [Hx|Hx]%elem_of_app Hxj; [|by eapply Hws]. apply elem_of_app. left. eapply Hc; [|done]. set_solver.
Qed.

Lemma do_compute_dfns_ok fuel : ∀ s vs i, dfs_ok s vs → i ∈ vs → (S (length l) <= fuel + length vs)%nat →
  explores i vs (do_compute_dfns fuel entry i s).
Proof using Hg.
  induction fuel as [|fuel IH]; intros s vs i Hs Hi Hfuel.
  { destruct Hs as [Hn _]. pose proof (nb_length _ _ _ Hn). lia. }
  destruct Hs as [Hn Hlast]. destruct (block_at _ _ _ i Hn ltac:(by apply Hn)) as (c & Ec & Eg & _). cbn. rewrite Ec. cbn.
  destruct (visit_ok (do_compute_dfns fuel entry) i (S (length l) - fuel)) with (ss := successors (bb c)) (s := s) (vs := vs)
    as (s' & ws & -> & Hs' & Hss & Hws); [|done|done|lia| |].
  - intros s1 vs1 j Hs1 Hj Hl. apply IH; [done|done|lia].
  - intros j Hj. unfold edge, succs. by rewrite Eg.
  - exists s', ws. split_and!; [done|done|]. intros x j [->|Hx]%elem_of_cons Hxj; [|by eapply Hws].
    apply Hss. unfold edge, succs in Hxj. by rewrite Eg in Hxj.
Qed.

(** All blocks that can be reached are found. *)
Record numbering (bs : list (block B)) (arr : list (option nat)) (vs : list nat) : Prop := {
  nm_numbered : numbered bs arr vs;
  nm_reach i : i ∈ vs ↔ reach i;
}.

Lemma numbered_reach bs arr vs i : numbered bs arr vs → i ∈ vs → reach i.
Proof using.
  intros Hn [k Hk]%list_elem_of_lookup. revert i Hk. induction k as [k IH] using lt_wf_ind. intros i Hk.
  destruct k as [|k].
  - rewrite (nb_entry _ _ _ Hn) in Hk. injection Hk as <-. apply reachable_entry.
  - destruct (nb_parent _ _ _ Hn k i Hk) as (j & p & Hj & Ep & He). eapply reachable_edge; [apply (IH j); [lia|done]|done].
Qed.

Lemma numbering_ok s bs0 : bb <$> bs0 = gs → (∀ i, dfn_at bs0 i = 0) →
  s = DFS bs0 (<[0%nat := Some entry]> (replicate (length l) None)) 0 →
  ∃ s' vs, do_compute_dfns (S (length bs0)) entry entry s = Some s' ∧ numbering (dfs_blocks s') (df_array s') vs.
Proof using Hg.
  intros Hb H0 ->. assert (length l <= length bs0)%nat as Hlen.
  { rewrite <- (length_fmap bb bs0), Hb. rewrite <- (length_seq (length gs) 0). apply submseteq_length, NoDup_submseteq; [apply Hg|].
    intros i Hi%(go_in Hg). apply elem_of_seq. lia. }
  destruct (do_compute_dfns_ok (S (length bs0)) (DFS bs0 (<[0%nat := Some entry]> (replicate (length l) None)) 0) [entry] entry)
    as (s' & ws & -> & [Hn _] & Hc); [|by left|cbn; lia|].
  - split; [|done]. constructor; cbn; try done.
    + destruct l as [|x l'] eqn:El; [destruct (not_elem_of_nil entry); rewrite <- El; apply Hg|]. cbn. by rewrite Nat.sub_0_r.
    + apply NoDup_singleton.
    + intros i ->%list_elem_of_singleton. apply Hg.
    + intros k i [-> ->]%list_lookup_singleton_Some. by rewrite H0.
  - exists s', ([entry] ++ ws). split; [done|]. split; [done|]. intros i. split; [by apply (numbered_reach _ _ _ i Hn)|].
    intros [t Ht]. induction Ht as [|t p b Ht IH He]; [set_solver|]. eapply Hc; [|done]. exact IH.
Qed.
End graph.
