(* ===== verification/DominanceLoop.v ===== *)
(** * The dominator tree: intersect, the passes and the loop of compute_dom *)

From S2P Require Import Prelude CMonad SetInterface BasicBlock DominatorTree Dominance DominanceSpec.
#[local] Open Scope Z_scope.

#[local] Arguments intersect : simpl never.

Section dom.
Context (gs : list basic_block) (l : list nat) (entry : nat) (Hg : graph_ok gs l entry).
Context {B : Type} (bs : list (block B)) (arr : list (option nat)) (vs : list nat).
Context (Hnm : numbering gs l entry bs arr vs).
#[local] Abbreviation edge := (edge gs).
#[local] Abbreviation reach := (reachable edge entry).
#[local] Abbreviation n := (length l).

(** ** Numbers *)

Definition num (i : nat) : nat := Z.to_nat (dfn_at bs i).

(** A predecessor from which the block was found. *)
Definition par (i : nat) : nat := default 0%nat (head (filter (λ p, i ∈ succs gs p ∧ (num p < num i)%nat) vs)).

Lemma num_at k i : vs !! k = Some i → num i = k.
Proof using Hnm. intros Hk. unfold num. rewrite (nb_dfn _ _ _ _ _ _ (nm_numbered _ _ _ _ _ _ Hnm) k i Hk). lia. Qed.
Lemma at_num i : reach i → vs !! num i = Some i.
Proof using Hnm. intros [k Hk]%(nm_reach _ _ _ _ _ _ Hnm)%list_elem_of_lookup. by rewrite (num_at k i Hk). Qed.

Lemma num_inj a b : reach a → reach b → num a = num b → a = b.
Proof using Hnm. intros Ha%at_num Hb%at_num E. congruence. Qed.

Lemma num_bound b : reach b → (num b < n)%nat.
Proof using Hnm.
  intros Hb%at_num. pose proof (nb_length _ _ _ _ _ _ (nm_numbered _ _ _ _ _ _ Hnm)) as [? _].
  pose proof (lookup_lt_Some _ _ _ Hb). lia.
Qed.

Lemma num_entry : num entry = 0%nat.
Proof using Hnm. apply num_at, (nb_entry _ _ _ _ _ _ (nm_numbered _ _ _ _ _ _ Hnm)). Qed.

Lemma num_zero b : reach b → num b = 0%nat → b = entry.
Proof using Hnm. intros Hb E. apply num_inj; [done|apply reachable_entry|]. by rewrite num_entry. Qed.

Lemma par_ok b : reach b → b ≠ entry → reach (par b) ∧ edge (par b) b ∧ (num (par b) < num b)%nat.
Proof using Hnm.
  intros Hb Hne. pose proof (at_num b Hb) as Hk. destruct (num b) as [|k] eqn:Ek; [by apply num_zero in Ek|].
  destruct (nb_parent _ _ _ _ _ _ (nm_numbered _ _ _ _ _ _ Hnm) k b Hk) as (j & p & Hj & Hp & He).
  assert (p ∈ filter (λ p, b ∈ succs gs p ∧ (num p < num b)%nat) vs) as Hin.
  { apply list_elem_of_filter. split; [|by eapply list_elem_of_lookup_2]. split; [done|]. rewrite (num_at j p Hp). lia. }
  unfold par. destruct (filter _ vs) as [|q qs] eqn:Ef; [by apply elem_of_nil in Hin|]. cbn.
  assert (q ∈ filter (λ p, b ∈ succs gs p ∧ (num p < num b)%nat) vs) as Hq by (rewrite Ef; left).
  apply list_elem_of_filter in Hq as [[? Hlt] Hq]. split_and!; [by apply Hnm|done|]. lia.
Qed.

Lemma dfn_of_num i : i ∈ l → dfn_of bs i = Some (Z.of_nat (num i)).
Proof using Hg Hnm.
  intros Hi. pose proof (nm_numbered _ _ _ _ _ _ Hnm) as Hn. destruct (block_at _ _ _ Hg _ _ _ i Hn Hi) as (c & Ec & _ & Ed).
  unfold num. rewrite Ed. unfold dfn_of. rewrite Ec. cbn. f_equal. symmetry. apply Z2Nat.id. rewrite <- Ed.
  destruct (decide (i ∈ vs)) as [[k Hk]%list_elem_of_lookup|Hv]; [rewrite (nb_dfn _ _ _ _ _ _ Hn k i Hk)|rewrite (nb_other _ _ _ _ _ _ Hn i Hv)]; lia.
Qed.

Lemma skipped_ok p : p ∈ l → skipped bs entry p = Some (bool_decide (p ∉ vs)).
Proof using Hg Hnm.
  intros Hp. unfold skipped. rewrite (dfn_of_num p Hp). cbn. f_equal. apply bool_decide_ext.
  pose proof (nm_numbered _ _ _ _ _ _ Hnm) as Hn. pose proof (nb_found _ _ _ _ _ _ p Hn) as Hf. pose proof (dfn_of_num p Hp) as E.
  unfold dfn_at in Hf. rewrite E in Hf. cbn in Hf. rewrite Hf. lia.
Qed.

(** ** The table of parents in the array *)

Implicit Type ds : list (option nat).

Definition table ds (i : nat) : option nat := if decide (i ∈ vs) then mjoin (ds !! num i) else None.

Lemma table_reach ds i : reach i → table ds i = mjoin (ds !! num i).
Proof using Hnm. intros Hi%(nm_reach _ _ _ _ _ _ Hnm). unfold table. by rewrite decide_True. Qed.

Lemma array_get_table ds i : length ds = n → reach i → array_get ds (Z.of_nat (num i)) = Some (table ds i).
Proof using Hnm.
  intros Hlen Hi. unfold array_get. rewrite decide_True by lia. rewrite Nat2Z.id, table_reach by done.
  pose proof (num_bound i Hi). destruct (lookup_lt_is_Some_2 ds (num i)) as [x ->]; [lia|done].
Qed.

Lemma dom_of_table ds i : length ds = n → reach i → dom_of bs ds i = Some (table ds i).
Proof using Hg Hnm.
  intros Hlen Hi. unfold dom_of. rewrite (dfn_of_num i) by (by eapply reach_in). by apply array_get_table.
Qed.

Lemma dom_table_insert ds b c x : length ds = n → reach b → set_parent (table ds) b c x = table (<[num b := Some c]> ds) x.
Proof using Hnm.
  intros Hlen Hb. unfold set_parent, table. pose proof (num_bound b Hb). repeat case_decide; subst.
  - by rewrite list_lookup_insert_eq by lia.
  - by apply (nm_reach _ _ _ _ _ _ Hnm) in Hb.
  - rewrite list_lookup_insert_ne; [done|]. intros E. apply num_inj in E; [congruence|done|by apply Hnm].
  - done.
Qed.

Lemma array_set_ok ds b c : length ds = n → reach b → array_set ds (Z.of_nat (num b)) c = Some (<[num b := c]> ds).
Proof using Hnm. intros Hlen Hb. pose proof (num_bound b Hb). unfold array_set. rewrite decide_True by lia. by rewrite Nat2Z.id. Qed.

(** ** intersect *)

Section meet.
Context ds (Hlen : length ds = n).
#[local] Abbreviation f := (table ds).
#[local] Abbreviation above := (above entry f).
Context (Hf : table_ok edge entry num f).

(** The last block above both. *)
Definition nearest (a b c : nat) : Prop := above c a ∧ above c b ∧ ∀ x, above x a → above x b → above x c.

Lemma nearest_reach a b c : reach a → is_Some (f a) → nearest a b c → reach c ∧ is_Some (f c).
Proof using Hf. intros Ha Hs (Hc & _). by destruct (above_facts edge entry num f c a Hf Ha Hs Hc) as (? & ? & _). Qed.

(** A step of one finger. *)
Lemma above_next a b d : reach a → reach b → is_Some (f a) → (num a <= num b)%nat → a ≠ b → f b = Some d →
  reach d ∧ is_Some (f d) ∧ (num d < num b)%nat ∧ ∀ c, nearest a d c → nearest a b c.
Proof using Hlen Hf Hnm.
  intros Ha Hb Hs Hle Hne E. assert (b ≠ entry) as Hbe.
  { intros ->. rewrite num_entry in Hle. apply Hne, num_zero; [done|lia]. }
  destruct (tk_parent _ _ _ _ Hf b d Hb Hbe E) as (? & ? & ?). split_and!; [done..|]. intros c (Hc1 & Hc2 & Hc3).
  split_and!; [done|by econstructor|]. intros x Hxa Hxb. apply Hc3; [done|].
  apply (above_step_inv _ _ _ _ _ E) in Hxb as [->|[_ ?]]; [|done].
  destruct (above_facts _ _ _ _ _ _ Hf Ha Hs Hxa) as (_ & _ & ?). destruct Hne. apply num_inj; [done|done|lia].
Qed.

Lemma intersect_loop_ok fuel : ∀ a b, reach a → reach b → is_Some (f a) → is_Some (f b) → (num a + num b < fuel)%nat →
  ∃ c, intersect_loop fuel bs ds (Some a) (Some b) = Some (Some c) ∧ nearest a b c.
Proof using Hg Hlen Hf Hnm.
  induction fuel as [|fuel IH]; intros a b Ha Hb Hsa Hsb Hfuel; [lia|]. cbn.
  destruct (decide (Some a = Some b)) as [[= ->]|Hne]; [exists b; split; [done|]; split_and!; [constructor|constructor|done]|].
  assert (a ≠ b) as Hab by congruence.
  rewrite (dfn_of_num a), (dfn_of_num b) by (by eapply reach_in). cbn. case_decide as Hlt.
  - rewrite (array_get_table ds b) by done. destruct Hsb as [d Ed]. rewrite Ed. cbn.
    destruct (above_next a b d) as (? & ? & ? & Hn); [done..|lia|done|done|].
    destruct (IH a d) as (c & -> & Hc); [done..|lia|]. eauto.
  - rewrite (array_get_table ds a) by done. destruct Hsa as [d Ed]. rewrite Ed. cbn.
    destruct (above_next b a d) as (? & ? & ? & Hn); [done..|lia|done|done|].
    destruct (IH d b) as (c & -> & Hc); [done..|lia|]. exists c. split; [done|].
    destruct (Hn c) as (? & ? & ?); [|split_and!; auto]. destruct Hc as (? & ? & ?). split_and!; auto.
Qed.

Lemma intersect_ok a b : reach a → reach b → is_Some (f a) → is_Some (f b) →
  ∃ c, intersect bs ds (Some a) (Some b) = Some (Some c) ∧ nearest a b c.
Proof using Hg Hlen Hf Hnm.
  intros Ha Hb Hsa Hsb. apply intersect_loop_ok; [done..|]. pose proof (num_bound a Ha). pose proof (num_bound b Hb). lia.
Qed.

(** ** The two loops over the predecessors *)

(** The predecessors that count. *)
Definition counts (p : nat) : Prop := reach p ∧ is_Some (f p).

Lemma first_idom_ok b ps : (∀ p, p ∈ ps → p ∈ l) →
  ∃ o ps1 ps2, first_idom bs ds entry b ps = Some (o, ps2) ∧ ps = ps1 ++ ps2 ∧
    (∀ p, p ∈ ps1 → counts p → p = b) ∧
    match o with Some p => counts p ∧ p ≠ b ∧ ∃ ps', ps2 = p :: ps' | None => ps2 = [] end.
Proof using Hg Hlen Hf Hnm.
  induction ps as [|p ps IH]; intros Hl; [exists None, [], []; split_and!; [done|done|by intros ? ?%elem_of_nil|done]|].
  destruct IH as (o & ps1 & ps2 & E & -> & H1 & H2); [intros q Hq; apply Hl; by right|].
  cbn. rewrite (skipped_ok p) by (apply Hl; by left). cbn.
  assert ((¬ counts p ∨ p = b) → ∃ o' ps1' ps2', Some (o, ps2) = Some (o', ps2') ∧ p :: ps1 ++ ps2 = ps1' ++ ps2' ∧
    (∀ p, p ∈ ps1' → counts p → p = b) ∧
    match o' with Some p => counts p ∧ p ≠ b ∧ ∃ ps', ps2' = p :: ps' | None => ps2' = [] end) as Hskip.
  { intros Hp. exists o, (p :: ps1), ps2. split_and!; [done|done| |done]. intros q [->|Hq]%elem_of_cons Hc; [by destruct Hp|auto]. }
  case_bool_decide as Hv.
  { rewrite E. apply Hskip. left. intros [Hr _]. by apply Hv, Hnm. }
  destruct (decide (p = b)) as [Hpb|Hpb]; [rewrite E; auto|].
  assert (reach p) as Hr by (apply Hnm; by destruct (decide (p ∈ vs))).
  rewrite (dom_of_table ds p) by done. cbn. destruct (f p) as [d|] eqn:Ed.
  - exists (Some p), [], (p :: ps1 ++ ps2). do 2 (split; [done|]). split; [by intros ? ?%elem_of_nil|].
    split; [split; eauto|eauto].
  - rewrite E. apply Hskip. left. intros [_ [? ?]]. congruence.
Qed.

Lemma meet_idoms_ok ps : ∀ a, counts a → (∀ p, p ∈ ps → p ∈ l) →
  ∃ c, meet_idoms bs ds entry ps (Some a) = Some (Some c) ∧ counts c ∧ above c a ∧
    (∀ p, p ∈ ps → counts p → above c p) ∧ (∀ x, above x a → (∀ p, p ∈ ps → counts p → above x p) → above x c).
Proof using Hg Hlen Hf Hnm.
  induction ps as [|p ps IH]; intros a Ha Hl.
  { exists a. split_and!; [done|done|constructor|by intros ? ?%elem_of_nil|done]. }
  cbn. rewrite (skipped_ok p) by (apply Hl; by left). cbn.
  assert (∀ q, q ∈ ps → q ∈ l) as Hl' by (intros q Hq; apply Hl; by right).
  assert (¬ counts p → ∃ c, meet_idoms bs ds entry ps (Some a) = Some (Some c) ∧ counts c ∧ above c a ∧
    (∀ q, q ∈ p :: ps → counts q → above c q) ∧ (∀ x, above x a → (∀ q, q ∈ p :: ps → counts q → above x q) → above x c)) as Hskip.
  { intros Hp. destruct (IH a Ha Hl') as (c & -> & ? & ? & H1 & H2). exists c. split_and!; [done|done|done| |].
    - intros q [->|Hq]%elem_of_cons Hc; [done|auto].
    - intros x Hx Hq. apply H2; [done|]. intros q Hq'. apply Hq. by right. }
  case_bool_decide as Hv.
  { apply Hskip. intros [Hr _]. by apply Hv, Hnm. }
  assert (reach p) as Hr by (apply Hnm; by destruct (decide (p ∈ vs))).
  rewrite (dom_of_table ds p) by done. cbn. destruct (f p) as [d|] eqn:Ed; [|apply Hskip; intros [_ [? ?]]; congruence].
  assert (counts p) as Hp by (split; eauto). destruct Ha as [Hra Hsa], Hp as [Hrp Hsp].
  destruct (intersect_ok p a Hrp Hra Hsp Hsa) as (c' & -> & Hn). cbn.
  destruct (nearest_reach p a c' Hrp Hsp Hn) as [? ?]. destruct Hn as (Hc1 & Hc2 & Hc3).
  destruct (IH c') as (c & -> & ? & Hcc & H1 & H2); [done|done|]. exists c. split_and!; [done|done|by eapply above_trans| |].
  - intros q [->|Hq]%elem_of_cons Hc; [by eapply above_trans|auto].
  - intros x Hx Hq. apply H2; [|intros q Hq'; apply Hq; by right]. apply Hc3; [|done]. apply Hq; [by left|by split].
Qed.
End meet.

(** ** The passes *)

#[local] Abbreviation inv := (pass_inv edge entry num par).
#[local] Abbreviation final := (dominator_table edge entry num).

Lemma array_at i : (i < n)%nat → array_get arr (Z.of_nat i) = Some (vs !! i).
Proof using Hnm.
  intros Hi. unfold array_get. rewrite decide_True by lia. rewrite Nat2Z.id, (nb_array _ _ _ _ _ _ (nm_numbered _ _ _ _ _ _ Hnm)).
  destruct (vs !! i) as [b|] eqn:E.
  - rewrite lookup_app_l by (rewrite length_fmap; by eapply lookup_lt_Some). by rewrite list_lookup_fmap, E.
  - apply lookup_ge_None in E. rewrite lookup_app_r by (rewrite length_fmap; lia). apply lookup_replicate_2.
    rewrite length_fmap. lia.
Qed.

Lemma preds_ok b p : reach b → p ∈ preds bs b → p ∈ l.
Proof using Hg Hnm.
  intros Hb%(reach_in _ _ _ Hg). destruct (block_at _ _ _ Hg _ _ _ b (nm_numbered _ _ _ _ _ _ Hnm) Hb) as (c & Ec & Eg & _).
  unfold preds. rewrite Ec. cbn. by eapply go_pred.
Qed.
Lemma preds_edge b p : reach b → reach p → p ∈ preds bs b ↔ edge p b.
Proof using Hg Hnm.
  intros Hb%(reach_in _ _ _ Hg) Hp%(reach_in _ _ _ Hg).
  destruct (block_at _ _ _ Hg _ _ _ b (nm_numbered _ _ _ _ _ _ Hnm) Hb) as (c & Ec & Eg & _).
  unfold preds. rewrite Ec. cbn. symmetry. by eapply go_sym.
Qed.

(** The predecessors of a block have a nearest common ancestor, which the two loops find. *)
Lemma new_idom_ok k ds b : length ds = n → reach b → b ≠ entry → inv k (num b) (table ds) →
  ∃ p ps2 c, first_idom bs ds entry b (preds bs b) = Some (Some p, ps2) ∧
    meet_idoms bs ds entry ps2 (Some p) = Some (Some c) ∧ meets edge entry (table ds) b c.
Proof using Hg Hnm.
  intros Hlen Hb Hne Hinv. pose proof (pi_ok _ _ _ _ _ _ _ Hinv) as Hf.
  destruct (first_idom_ok ds Hlen Hf b (preds bs b)) as (o & ps1 & ps2 & -> & Eps & H1 & H2); [intros p; by apply preds_ok|].
  destruct (par_ok b Hb Hne) as (Hrp & Hep & Hlt).
  assert (is_Some (table ds (par b))) as Hsp by exact (step_par edge entry num par par_ok k (num b) _ Hinv b Hb Hne eq_refl).
  assert (par b ∈ ps2) as Hp2.
  { pose proof Hep as Hin. rewrite <- (preds_edge b _ Hb Hrp), Eps in Hin. apply elem_of_app in Hin as [Hin|]; [|done].
    assert (par b = b) as E by (apply H1; [done|by split]). rewrite E in Hlt. lia. }
  destruct o as [p|]; [|subst ps2; by apply elem_of_nil in Hp2]. destruct H2 as (Hcp & Hpb & ps' & Eps2).
  destruct (meet_idoms_ok ds Hlen Hf ps2 p Hcp) as (c & Em & [Hrc Hsc] & Hca & H3 & H4).
  { intros q Hq. apply (preds_ok b); [done|]. rewrite Eps. apply elem_of_app. by right. }
  exists p, ps2, c. split_and!; [done|done|]. constructor; [done|done| |].
  - intros q Hq He Hqb Hs. apply H3; [|by split]. rewrite <- (preds_edge b _ Hb Hq), Eps in He.
    apply elem_of_app in He as [Hin|]; [|done]. destruct Hqb. apply H1; [done|by split].
  - intros a Ha. assert (∀ q, q ∈ preds bs b → counts ds q → above entry (table ds) a q) as Ha'.
    { intros q Hq [Hrq Hsq]. apply Ha; [done|by apply preds_edge|done]. }
    apply H4.
    + apply Ha'; [|done]. rewrite Eps, Eps2. apply elem_of_app. right. by left.
    + intros q Hq. apply Ha'. rewrite Eps. apply elem_of_app. by right.
Qed.

Lemma process_block_ok k i ds ch : (i < n)%nat → length ds = n → inv k i (table ds) →
  ∃ ds' ch', process_block bs arr entry (Z.of_nat i) (ds, ch) = Some (ds', ch') ∧ length ds' = n ∧
    inv k (S i) (table ds') ∧ (ds' = ds ∧ ch' = ch ∨ ch' = true) ∧ (final (table ds) → ds' = ds ∧ ch' = ch).
Proof using Hg Hnm.
  intros Hi Hlen Hinv. unfold process_block. rewrite (array_at i Hi). cbn.
  destruct (vs !! i) as [b|] eqn:Eb.
  2:{ exists ds, ch. split_and!; auto. eapply pass_inv_skip; [done|]. intros b Hb E. apply at_num in Hb. congruence. }
  assert (reach b) as Hb by (apply Hnm; by eapply list_elem_of_lookup_2). pose proof (num_at i b Eb) as En.
  rewrite (dfn_of_num b) by (by eapply reach_in). cbn. rewrite En.
  destruct (decide (Z.of_nat i = 0)) as [H0|H0].
  { exists ds, ch. split_and!; auto. eapply pass_inv_skip; [done|]. intros x Hx E. apply num_zero; [done|lia]. }
  assert (b ≠ entry) as Hne by (intros ->; rewrite num_entry in En; lia). subst i.
  destruct (new_idom_ok k ds b Hlen Hb Hne Hinv) as (p & ps2 & c & -> & E & Hm). cbn.
  rewrite decide_False by naive_solver. rewrite E. cbn. rewrite (array_get_table ds b Hlen Hb). cbn.
  assert (inv k (S (num b)) (set_parent (table ds) b c)) as Hstep.
  { eapply (pass_inv_step edge entry num par par_ok num_inj); eauto. }
  case_decide as Eo.
  - exists ds, ch. split_and!; auto. eapply pass_inv_proper; [|exact Hstep]. intros x. unfold set_parent. case_decide; [by subst|done].
  - rewrite decide_False by done. rewrite (array_set_ok ds b (Some c) Hlen Hb). cbn.
    exists (<[num b := Some c]> ds), true. split_and!; [done|by rewrite length_insert| |by right|].
    + eapply pass_inv_proper; [|exact Hstep]. intros x. by apply dom_table_insert.
    + intros Hfin. destruct Eo. by eapply (dominator_table_meets edge entry num par par_ok num_inj).
Qed.

Lemma dom_pass_ok k m : ∀ i ds ch, (i + m = n)%nat → length ds = n → inv k i (table ds) →
  ∃ ds' ch', dom_pass bs arr entry m (Z.of_nat i) (ds, ch) = Some (ds', ch') ∧ length ds' = n ∧
    inv k n (table ds') ∧ (ds' = ds ∧ ch' = ch ∨ ch' = true) ∧ (final (table ds) → ds' = ds ∧ ch' = ch).
Proof using Hg Hnm.
  induction m as [|m IH]; intros i ds ch Hi Hlen Hinv.
  { exists ds, ch. replace n with i by lia. split_and!; auto. lia. }
  destruct (process_block_ok k i ds ch) as (ds1 & ch1 & E & Hlen1 & Hinv1 & Hc1 & Hf1); [lia|done|done|].
  cbn [dom_pass]. rewrite E. cbn [mbind option_bind]. replace (Z.of_nat i + 1) with (Z.of_nat (S i)) by lia.
  destruct (IH (S i) ds1 ch1) as (ds' & ch' & -> & ? & ? & Hc2 & Hf2); [lia|done|done|].
  exists ds', ch'. split_and!; [done|done|done| |].
  - destruct Hc1 as [[-> ->]| ->], Hc2 as [[-> ->]| ->]; auto.
  - intros Hfin. destruct (Hf1 Hfin) as [-> ->]. auto.
Qed.

Lemma pass_ok k ds : length ds = n → inv k 0 (table ds) →
  ∃ ds' ch, dom_pass bs arr entry n 0 (ds, false) = Some (ds', ch) ∧ length ds' = n ∧
    inv (S k) 0 (table ds') ∧ (ch = false → ds' = ds) ∧ (final (table ds) → ch = false).
Proof using Hg Hnm.
  intros Hlen Hinv. destruct (dom_pass_ok k n 0 ds false) as (ds' & ch & E & ? & ? & Hc & Hfin); [lia|done|done|].
  exists ds', ch. split_and!; [done|done|by apply (pass_inv_next edge entry num par n num_bound)| |].
  - intros ->. by destruct Hc as [[-> _]|?].
  - intros ?. by apply Hfin.
Qed.

(** When a pass changes nothing, neither does any other. *)
Lemma pass_stable k ds : length ds = n → inv k 0 (table ds) → dom_pass bs arr entry n 0 (ds, false) = Some (ds, false) →
  final (table ds).
Proof using Hg Hnm.
  intros Hlen Hinv E. assert (∀ j, inv (j + k) 0 (table ds)) as Hall.
  { induction j as [|j IH]; [done|]. destruct (pass_ok (j + k) ds Hlen IH) as (ds' & ch & E' & _ & Hinv' & _).
    rewrite E in E'. by injection E' as <- <-. }
  eapply (pass_inv_exact edge entry num par n num_inj num_bound (S n + k)); [apply Hall|lia|lia].
Qed.

Lemma dom_loop_ok fuel : ∀ k ds, length ds = n → inv k 0 (table ds) → (k <= n)%nat → (n < k + fuel)%nat →
  ∃ ds', dom_loop fuel bs arr entry n ds = Some ds' ∧ length ds' = n ∧ final (table ds').
Proof using Hg Hnm.
  induction fuel as [|fuel IH]; intros k ds Hlen Hinv Hk Hfuel; [lia|]. cbn.
  destruct (pass_ok k ds Hlen Hinv) as (ds' & ch & E & Hlen' & Hinv' & Hc & Hfin). rewrite E. cbn.
  destruct ch; [|specialize (Hc eq_refl) as ->; exists ds; split_and!; [done|done|by eapply pass_stable]].
  apply (IH (S k)); [done|done| |lia].
  destruct (decide (k < n)%nat) as [|Hge]; [lia|]. exfalso.
  assert (0 < k)%nat by (pose proof (num_bound entry (reachable_entry _ _)); lia).
  assert (true = false) as ?; [|done]. apply Hfin. eapply (pass_inv_exact edge entry num par n num_inj num_bound k); [done|lia|lia].
Qed.

Lemma inv_init : inv 0 0 (table (<[0%nat := Some entry]> (replicate n None))).
Proof using Hg Hnm.
  set (ds := <[0%nat := Some entry]> (replicate n None)).
  pose proof (num_bound entry (reachable_entry _ _)) as Hn0.
  assert (table ds entry = Some entry) as E0.
  { rewrite table_reach by apply reachable_entry. rewrite num_entry. unfold ds.
    by rewrite list_lookup_insert_eq by (rewrite length_replicate; lia). }
  assert (∀ b, reach b → is_Some (table ds b) → b = entry) as Hent.
  { intros b Hb [x E]. apply num_zero; [done|]. destruct (num b) as [|m] eqn:Em; [done|]. rewrite table_reach, Em in E by done.
    unfold ds in E. rewrite list_lookup_insert_ne in E by lia.
    rewrite lookup_replicate_2 in E by (pose proof (num_bound b Hb); lia). done. }
  constructor.
  - constructor; [done|]. intros b c Hb Hne E. destruct Hne. apply Hent; eauto.
  - intros b _ Hl. unfold level in Hl. case_decide; lia.
  - intros a b Hb Hs Ha. rewrite (Hent b Hb Hs) in *. rewrite (above_entry _ _ _ Ha). constructor.
  - intros a b Hb Hs Hd. rewrite (Hent b Hb Hs) in *. rewrite (dominates_entry_inv _ _ _ Hd). constructor.
  - intros a b t Hb Hs Ha Ht _. rewrite (Hent b Hb Hs) in *. rewrite (above_entry _ _ _ Ha). by eapply trace_in.
Qed.
End dom.
