(* ===== verification/DominanceProps.v ===== *)
(** * Dominance frontiers, and what jit/dominance.c computes *)

From S2P Require Import Prelude CMonad Bitset SetInterface Verifier BasicBlock ControlFlow ControlFlowSpec ControlFlowProps DominatorTree Dominance DominanceSpec DominanceLoop.
#[local] Open Scope Z_scope.

(** ** Frontiers *)

Section frontier.
Context {B : Type} `{SetLaws B}.
Context (gs : list basic_block) (l : list nat) (entry : nat) (Hg : graph_ok gs l entry).
Context (bs0 : list (block B)) (arr : list (option nat)) (vs : list nat) (Hnm : numbering gs l entry bs0 arr vs).
Context (ds : list (option nat)) (Hlen : length ds = length l).
#[local] Abbreviation edge := (edge gs).
#[local] Abbreviation reach := (reachable edge entry).
#[local] Abbreviation n := (length l).
#[local] Abbreviation num := (num bs0).
#[local] Abbreviation table := (table bs0 vs ds).
Context (Hfin : dominator_table edge entry num table).
Implicit Type bs : list (block B).

(** Only the frontiers differ. *)
Definition same_numbers bs : Prop := bb <$> bs = bb <$> bs0 ∧ dfn <$> bs = dfn <$> bs0.
Definition frontier_bit bs (i : nat) (j : Z) : bool := default false ((λ s, bs_mem s j) <$> (bs !! i ≫= dom_frontier)).
Definition has_sets bs : Prop := ∀ i, i ∈ l → ∃ s, bs !! i ≫= dom_frontier = Some s ∧ bs_wf (Z.of_nat n) s.

Lemma same_dfn_of bs i : same_numbers bs → dfn_of bs i = dfn_of bs0 i.
Proof using. intros [_ E]. unfold dfn_of. by rewrite <- !list_lookup_fmap, E. Qed.
Lemma same_block_of bs i b : same_numbers bs → bs !! i = Some b → ∃ b0, bs0 !! i = Some b0 ∧ bb b = bb b0 ∧ dfn b = dfn b0.
Proof using.
  intros [E1 E2] Eb. assert ((bb <$> bs) !! i = Some (bb b)) as F1 by (by rewrite list_lookup_fmap, Eb).
  assert ((dfn <$> bs) !! i = Some (dfn b)) as F2 by (by rewrite list_lookup_fmap, Eb).
  rewrite E1, list_lookup_fmap in F1. rewrite E2, list_lookup_fmap in F2. destruct (bs0 !! i) as [b0|]; [|done].
  exists b0. by simplify_eq/=.
Qed.

Lemma set_frontier_same bs i b s : same_numbers bs → bs !! i = Some b → same_numbers (<[i := set_frontier s b]> bs).
Proof using.
  intros [E1 E2] Eb. split; rewrite list_fmap_insert; cbn; [rewrite <- E1|rewrite <- E2]; apply list_insert_id; by rewrite list_lookup_fmap, Eb.
Qed.

Lemma add_frontier_ok bs r d : same_numbers bs → has_sets bs → r ∈ l → 0 <= d < Z.of_nat n →
  ∃ bs', add_frontier r d bs = Some bs' ∧ same_numbers bs' ∧ has_sets bs' ∧
    ∀ i j, 0 <= j → frontier_bit bs' i j = bool_decide (i = r ∧ j = d) || frontier_bit bs i j.
Proof using H H0.
  intros Hs Hh Hr Hd. destruct (Hh r Hr) as (s & Es & Hwf). unfold add_frontier.
  destruct (bs !! r) as [b|] eqn:Eb; [|done]. cbn in *. rewrite Es. cbn.
  destruct (bs_set_law _ s d Hwf Hd) as (s' & -> & Hwf' & Hmem). cbn. eexists. split; [done|].
  pose proof (lookup_lt_Some _ _ _ Eb) as Hlt. split_and!; [by apply set_frontier_same| |].
  - intros i Hi. destruct (decide (i = r)) as [->|Hir].
    + rewrite list_lookup_insert_eq by done. cbn. eauto.
    + rewrite list_lookup_insert_ne by done. by apply Hh.
  - intros i j Hj. unfold frontier_bit. destruct (decide (i = r)) as [->|Hir].
    + rewrite list_lookup_insert_eq, Eb by done. cbn. rewrite Es. cbn. rewrite Hmem by done. f_equal. apply bool_decide_ext. tauto.
    + rewrite list_lookup_insert_ne by done. rewrite bool_decide_false by tauto. done.
Qed.

(** The runner marks what is above the predecessor and not above the place to stop. *)
Lemma run_up_ok q d : reach q → 0 <= d < Z.of_nat n → ∀ fuel r bs, same_numbers bs → has_sets bs → reach r →
  above entry table q r → (num r < fuel)%nat →
  ∃ bs', run_up fuel ds (Some q) d (Some r) bs = Some bs' ∧ same_numbers bs' ∧ has_sets bs' ∧
    ∀ i j, 0 <= j → frontier_bit bs' i j = true ↔ frontier_bit bs i j = true ∨ (j = d ∧ above entry table i r ∧ ¬ above entry table i q).
Proof using H H0 Hg Hnm Hlen Hfin.
  intros Hq Hd. pose proof Hfin as [Hok Hsome _]. induction fuel as [|fuel IH]; intros r bs Hs Hh Hr Ha Hfuel; [lia|]. cbn.
  destruct (decide (Some r = Some q)) as [[= ->]|Hne].
  { exists bs. split_and!; [done|done|done|]. intros i j _. tauto. }
  assert (r ≠ q) as Hrq by congruence. destruct (Hsome r Hr) as [c Ec].
  assert (r ≠ entry) as Hre by (intros ->; by apply above_entry in Ha).
  destruct (tk_parent _ _ _ _ Hok r c Hr Hre Ec) as (Hc & Hlt & Hsc).
  destruct (add_frontier_ok bs r d Hs Hh (reach_in _ _ _ Hg r Hr) Hd) as (bs1 & -> & Hs1 & Hh1 & Hb1). cbn.
  unfold dom_of. rewrite (same_dfn_of bs1 r Hs1). pose proof (dom_of_table gs l entry Hg bs0 arr vs Hnm ds r Hlen Hr) as Ed.
  unfold dom_of in Ed. rewrite Ed, Ec. cbn.
  assert (above entry table q c) as Ha' by (apply (above_step_inv _ _ _ _ _ Ec) in Ha as [?|[_ ?]]; [by destruct Hrq|done]).
  destruct (IH c bs1 Hs1 Hh1 Hc Ha') as (bs' & -> & ? & ? & Hb'); [lia|]. exists bs'. split_and!; [done|done|done|].
  intros i j Hj. rewrite Hb', Hb1 by done. rewrite orb_true_iff, bool_decide_eq_true. split.
  - intros [[[-> ->]|?]|(-> & Hi & ?)]; [right|by left|right].
    + split_and!; [done|constructor|]. intros Hrq'. apply Hrq. eapply (above_antisym edge entry num); eauto. intros ? ?. by eapply num_inj.
    + split_and!; [done|by econstructor|done].
  - intros [?|(-> & Hi & ?)]; [by left; right|]. apply (above_step_inv _ _ _ _ _ Ec) in Hi as [->|[_ ?]]; [by left; left|by right].
Qed.

#[local] Arguments run_up : simpl never.

Section block.
Context (b q : nat) (Hb : reach b) (Hq : table b = Some q).

(** The parent of a block is above its predecessors. *)
Lemma stop_above p : reach p → edge p b → reach q ∧ above entry table q p.
Proof using Hfin Hb Hq.
  pose proof Hfin as [Hok Hsome Habove]. intros Hp He. destruct (decide (b = entry)) as [->|Hne].
  - rewrite (tk_entry _ _ _ _ Hok) in Hq. injection Hq as <-. split; [apply reachable_entry|]. apply Habove; [done|]. apply dominates_entry.
  - destruct (tk_parent _ _ _ _ Hok b q Hb Hne Hq) as (Hrq & _). split; [done|]. apply Habove; [done|].
    eapply strict_dominates_pred; [|done]. by eapply dominator_table_immediate.
Qed.

Lemma frontier_preds_ok ps : ∀ bs, same_numbers bs → has_sets bs → (∀ p, p ∈ ps → p ∈ l ∧ edge p b) →
  ∃ bs', frontier_preds ds entry (Z.of_nat (num b)) ps bs = Some bs' ∧ same_numbers bs' ∧ has_sets bs' ∧
    ∀ i j, 0 <= j → frontier_bit bs' i j = true ↔ frontier_bit bs i j = true ∨
      (j = Z.of_nat (num b) ∧ ∃ p, p ∈ ps ∧ reach p ∧ above entry table i p ∧ ¬ above entry table i q).
Proof using H H0 Hg Hnm Hlen Hfin Hb Hq.
  induction ps as [|p ps IH]; intros bs Hs Hh Hps.
  { exists bs. split_and!; [done..|]. intros i j _. split; [by left|]. intros [?|(_ & p & ?%elem_of_nil & _)]; done. }
  destruct (Hps p ltac:(by left)) as [Hpl Hpe]. pose proof (num_bound gs l entry bs0 arr vs Hnm b Hb) as Hnb.
  assert (skipped bs entry p = Some (bool_decide (p ∉ vs))) as Esk.
  { rewrite <- (skipped_ok gs l entry Hg bs0 arr vs Hnm p Hpl). unfold skipped. by rewrite (same_dfn_of bs p Hs). }
  cbn. rewrite Esk. cbn. case_bool_decide as Hv.
  - destruct (IH bs Hs Hh) as (bs' & -> & ? & ? & Hbit); [intros p' ?; apply Hps; by right|]. exists bs'. split_and!; [done..|].
    intros i j Hj. rewrite Hbit by done. split; [naive_solver set_solver|].
    intros [?|(-> & p' & [->|Hp']%elem_of_cons & Hr & ?)]; [by left|by apply (nm_reach _ _ _ _ _ _ Hnm) in Hr|right; split; [done|by exists p']].
  - assert (reach p) as Hp by (apply Hnm; by destruct (decide (p ∈ vs))). destruct (stop_above p Hp Hpe) as [Hrq Ha].
    rewrite (array_get_table gs l entry bs0 arr vs Hnm ds b Hlen Hb), Hq. cbn [mbind option_bind].
    pose proof (num_bound gs l entry bs0 arr vs Hnm p Hp).
    destruct (run_up_ok q (Z.of_nat (num b)) Hrq ltac:(lia) (S (length ds)) p bs Hs Hh Hp Ha ltac:(lia)) as (bs1 & -> & Hs1 & Hh1 & Hb1).
    cbn [mbind option_bind].
    destruct (IH bs1 Hs1 Hh1) as (bs' & -> & ? & ? & Hbit); [intros p' ?; apply Hps; by right|]. exists bs'. split_and!; [done..|].
    intros i j Hj. rewrite Hbit, Hb1 by done. split.
    + intros [[?|(-> & ? & ?)]|(-> & p' & ? & ?)]; [by left|right; split; [done|]; exists p; split; [by left|done]|right; split; [done|]; exists p'; split; [by right|done]].
    + intros [?|(-> & p' & [->|Hp']%elem_of_cons & ? & ? & ?)]; [by left; left|left; right; done|right; split; [done|by exists p']].
Qed.
End block.

(** The blocks that the frontiers of the blocks in [ls] have got so far. *)
Definition marks (ls : list nat) (i : nat) (j : Z) : Prop :=
  ∃ b c q p, b ∈ ls ∧ bs0 !! b = Some c ∧ 2 <= Z.of_nat (length (predecessors (bb c))) ∧ reach b ∧ table b = Some q ∧
    j = Z.of_nat (num b) ∧ p ∈ predecessors (bb c) ∧ reach p ∧ above entry table i p ∧ ¬ above entry table i q.

Lemma frontier_unreachable b ps bs : b ∈ l → ¬ reach b → (∀ p, p ∈ ps → p ∈ l ∧ edge p b) → same_numbers bs →
  ∀ d, frontier_preds ds entry d ps bs = Some bs.
Proof using Hg Hnm.
  intros Hb Hnr Hps Hs d. induction ps as [|p ps IH]; [done|]. destruct (Hps p ltac:(by left)) as [Hpl Hpe]. cbn.
  assert (skipped bs entry p = Some (bool_decide (p ∉ vs))) as ->.
  { rewrite <- (skipped_ok gs l entry Hg bs0 arr vs Hnm p Hpl). unfold skipped. by rewrite (same_dfn_of bs p Hs). }
  cbn. rewrite bool_decide_true; [apply IH; intros p' ?; apply Hps; by right|]. rewrite (nm_reach _ _ _ _ _ _ Hnm).
  intros Hp. by eapply Hnr, reachable_edge.
Qed.

Lemma frontier_blocks_ok ls : ∀ bs, same_numbers bs → has_sets bs → (∀ b, b ∈ ls → b ∈ l) →
  ∃ bs', frontier_blocks ds entry ls bs = Some bs' ∧ same_numbers bs' ∧ has_sets bs' ∧
    ∀ i j, 0 <= j → frontier_bit bs' i j = true ↔ frontier_bit bs i j = true ∨ marks ls i j.
Proof using H H0 Hg Hnm Hlen Hfin.
  pose proof (nm_numbered _ _ _ _ _ _ Hnm) as Hn. induction ls as [|b ls IH]; intros bs Hs Hh Hls.
  { exists bs. split_and!; [done..|]. intros i j _. split; [by left|]. intros [?|(? & ? & ? & ? & ?%elem_of_nil & _)]; done. }
  assert (b ∈ l) as Hbl by (apply Hls; by left). destruct (Hh b Hbl) as (s & Es & _). destruct (bs !! b) as [c|] eqn:Ec; [|done].
  destruct (same_block_of bs b c Hs Ec) as (c0 & Ec0 & Ebb & Edf). destruct (block_at _ _ _ Hg _ _ _ b Hn Hbl) as (c0' & ? & Eg & Ed).
  simplify_eq. assert (dfn c = Z.of_nat (num b)) as Ednum.
  { pose proof (dfn_of_num gs l entry Hg bs0 arr vs Hnm b Hbl) as F. unfold dfn_of in F. rewrite Ec0 in F. injection F as F. congruence. }
  assert (∀ p, p ∈ predecessors (bb c0) → p ∈ l ∧ edge p b) as Hps.
  { intros p Hp. assert (p ∈ l) by (by eapply go_pred). split; [done|]. by eapply go_sym. }
  assert (∃ bs1, (if decide (2 <= Z.of_nat (length (predecessors (bb c))))
      then frontier_preds ds entry (dfn c) (predecessors (bb c)) bs else Some bs) = Some bs1 ∧ same_numbers bs1 ∧ has_sets bs1 ∧
    ∀ i j, 0 <= j → frontier_bit bs1 i j = true ↔ frontier_bit bs i j = true ∨ marks [b] i j) as (bs1 & E1 & Hs1 & Hh1 & Hb1).
  { rewrite Ebb, Ednum. case_decide as Hge.
    2:{ exists bs. split_and!; [done..|]. intros i j _. split; [by left|]. intros [?|Hm]; [done|].
        destruct Hm as (? & ? & ? & ? & ->%list_elem_of_singleton & ? & ? & _). by simplify_eq. }
    destruct (decide (b ∈ vs)) as [Hr|Hr]; rewrite (nm_reach _ _ _ _ _ _ Hnm) in Hr.
    - destruct (dt_some _ _ _ _ Hfin b Hr) as [q Hq].
      destruct (frontier_preds_ok b q Hr Hq (predecessors (bb c0)) bs Hs Hh Hps) as (bs1 & -> & ? & ? & Hbit).
      exists bs1. split_and!; [done..|]. intros i j Hj. rewrite Hbit by done. apply or_iff_compat_l. split.
      + intros (-> & p & ? & ? & ? & ?). exists b, c0, q, p. split_and!; [by left|done..].
      + intros (? & ? & ? & p & ->%list_elem_of_singleton & ? & ? & ? & ? & -> & ?). simplify_eq. eauto.
    - rewrite (frontier_unreachable b) by done. exists bs. split_and!; [done..|]. intros i j _. split; [by left|]. intros [?|Hm]; [done|].
      destruct Hm as (? & ? & ? & ? & ->%list_elem_of_singleton & ? & ? & ? & _). done. }
  cbn [frontier_blocks]. rewrite Ec. cbn [mbind option_bind]. rewrite E1. cbn [mbind option_bind].
  destruct (IH bs1 Hs1 Hh1) as (bs' & -> & ? & ? & Hb'); [intros ? ?; apply Hls; by right|]. exists bs'. split_and!; [done..|].
  intros i j Hj. rewrite Hb', Hb1 by done. rewrite <- (or_assoc _ (marks [b] i j)). apply or_iff_compat_l. unfold marks. setoid_rewrite elem_of_cons.
  setoid_rewrite elem_of_nil. split; [intros [Hm|Hm]; destruct Hm as (b1 & c1 & q1 & p1 & Hm); exists b1, c1, q1, p1; tauto|].
  intros (b1 & c1 & q1 & p1 & [?|?] & Hm); [left|right]; exists b1, c1, q1, p1; tauto.
Qed.

(** What the marks mean: the frontier in terms of dominance, but for the entry. *)
Lemma marks_frontier i b c : reach b → b ≠ entry → bs0 !! b = Some c → marks l i (Z.of_nat (num b)) ↔ in_frontier edge entry i b.
Proof using H H0 Hg Hnm Hlen Hfin.
  intros Hb Hne Ec. pose proof (nm_numbered _ _ _ _ _ _ Hnm) as Hn. pose proof (reach_in _ _ _ Hg b Hb) as Hbl.
  pose proof Hfin as [Hok Hsome Habove]. destruct (Hsome b Hb) as [q Hq].
  destruct (dominator_table_immediate edge entry num table b q Hfin Hb Hne Hq) as [Hqb Hqlast].
  destruct (tk_parent _ _ _ _ Hok b q Hb Hne Hq) as (Hrq & _).
  assert (∀ p, reach p → p ∈ predecessors (bb c) ↔ edge p b) as Hpe.
  { intros p Hp. rewrite <- (preds_edge gs l entry Hg bs0 arr vs Hnm b p Hb Hp). unfold preds. by rewrite Ec. }
  assert (¬ above entry table i q ↔ ¬ strictly_dominates edge entry i b) as Hstop.
  { rewrite Habove by done. split; intros Hn' Hd; apply Hn'; [by apply Hqlast|]. split; [by eapply dominates_trans; [|apply Hqb]|].
    intros ->. destruct Hqb as [Hqb Hqne]. apply Hqne. by eapply dominates_antisym. }
  split.
  - intros (b' & c' & q' & p & _ & ? & _ & Hb' & Hq' & Ej & Hp & Hrp & Ha & Hna).
    assert (b = b') as <- by (eapply (num_inj gs l entry bs0 arr vs Hnm); [done|done|lia]). simplify_eq.
    split; [|by apply Hstop]. exists p. split_and!; [done|by apply Hpe|by apply Habove].
  - intros [(p & Hrp & He & Hd) Hns]. exists b, c, q, p. split_and!; [done|done| |done|done|done|by apply Hpe|done|by apply Habove|by apply Hstop].
    destruct (decide (2 <= Z.of_nat (length (predecessors (bb c))))) as [|Hlt]; [done|]. destruct Hns.
    eapply (frontier_one_pred edge entry i b p); [done|done|done| |done]. intros p' Hp' He'.
    apply Hpe in He, He'; [|done..]. destruct (predecessors (bb c)) as [|x [|y ps]]; [by apply elem_of_nil in He| |cbn in Hlt; lia].
    set_solver.
Qed.
End frontier.

(** ** The three computations *)

Section unit.
Context {B : Type} `{SetLaws B} `{Allocator} (Hm : ∀ k sz, malloc_ok k sz = true).
Implicit Type u : dom_unit B.

Definition graph_of u : list basic_block := bb <$> blocks u.
Abbreviation flows u := (edge (graph_of u)).

Record unit_ok u : Prop := {
  uo_graph : graph_ok (graph_of u) (du_list u) (entry_bb u);
  uo_nr : du_nr u = Z.of_nat (length (du_list u));
}.
Definition unit_numbering u : list nat → Prop := numbering (graph_of u) (du_list u) (entry_bb u) (blocks u) (bb_df_array u).

(** The control flow graph is left alone. *)
Definition same_unit u u' : Prop :=
  graph_of u' = graph_of u ∧ du_list u' = du_list u ∧ du_nr u' = du_nr u ∧ entry_bb u' = entry_bb u.

Lemma unit_ok_same u u' : same_unit u u' → unit_ok u → unit_ok u'.
Proof using. intros (E1 & E2 & E3 & E4) [Hg Hn]. constructor; by rewrite ?E1, ?E2, ?E3, ?E4. Qed.

Lemma unit_entry u : unit_ok u → (0 < length (du_list u))%nat.
Proof using. intros [Hg _]. pose proof (go_entry _ _ _ Hg) as Hin. destruct (du_list u); [by apply elem_of_nil in Hin|cbn; lia]. Qed.

Lemma zalloc_array_ok nr u : ∃ h, zalloc_array nr u =
  Done (Some (replicate (Z.to_nat nr) None)) (DU h (blocks u) (du_list u) (du_nr u) (entry_bb u) (bb_df_array u) (doms u)).
Proof using Hm. unfold zalloc_array, mem_malloc. rewrite Hm. eauto. Qed.

Lemma compute_dfns_ok u : unit_ok u → (∀ i, dfn_at (blocks u) i = 0) →
  ∃ u' vs, compute_dfns u = Done 0 u' ∧ same_unit u u' ∧ unit_numbering u' vs.
Proof using Hm.
  intros Hu H00. pose proof (unit_entry u Hu) as Hpos. destruct Hu as [Hg Hn]. unfold compute_dfns, bind, get.
  destruct (zalloc_array_ok (nr_bblocks u) u) as [h ->].
  unfold nr_bblocks. rewrite Hn, Nat2Z.id. cbn [blocks du_list du_nr entry_bb bb_df_array doms].
  unfold array_set. rewrite length_replicate, decide_True by lia. cbn [mbind option_bind]. change (Z.to_nat 0) with 0%nat.
  destruct (numbering_ok (graph_of u) (du_list u) (entry_bb u) Hg _ (blocks u) eq_refl H00 eq_refl) as (s' & vs & -> & Hnm).
  eexists _, vs. split; [done|]. assert (bb <$> dfs_blocks s' = graph_of u) as E by apply Hnm.
  split; [by split_and!|].
  unfold unit_numbering, graph_of. cbn. rewrite E. exact Hnm.
Qed.

(** The array of dominators against the graph. *)
Definition dominator_array u vs : Prop :=
  length (doms u) = length (du_list u) ∧
  dominator_table (flows u) (entry_bb u) (num (blocks u)) (table (blocks u) vs (doms u)).

Lemma compute_dom_ok u vs : unit_ok u → unit_numbering u vs →
  ∃ h ds, compute_dom u = Done 0 (DU h (blocks u) (du_list u) (du_nr u) (entry_bb u) (bb_df_array u) ds) ∧
    dominator_array (DU h (blocks u) (du_list u) (du_nr u) (entry_bb u) (bb_df_array u) ds) vs.
Proof using Hm.
  intros Hu Hnm. pose proof (unit_entry u Hu) as Hpos. destruct Hu as [Hg Hn]. unfold compute_dom, bind, get.
  destruct (zalloc_array_ok (nr_bblocks u) u) as [h ->]. unfold nr_bblocks.
  rewrite Hn, Nat2Z.id. cbn [blocks du_list du_nr entry_bb bb_df_array doms].
  rewrite (dfn_of_num _ _ _ Hg _ _ _ Hnm (entry_bb u)) by apply Hg. rewrite (num_entry _ _ _ _ _ _ Hnm). cbn [mbind option_bind].
  unfold array_set. rewrite length_replicate, decide_True by lia. cbn [mbind option_bind]. change (Z.to_nat (Z.of_nat 0)) with 0%nat.
  destruct (dom_loop_ok _ _ _ Hg _ _ _ Hnm (S (S (length (du_list u)))) 0 (<[0%nat := Some (entry_bb u)]> (replicate (length (du_list u)) None)))
    as (ds & -> & Hl & Hfin); [by rewrite length_insert, length_replicate|by eapply inv_init|lia|lia|].
  exists h, ds. split; [done|]. split; [done|]. exact Hfin.
Qed.

Lemma alloc_frontiers_ok n (l : list nat) bs0 : 0 <= n < 2 ^ 31 → ∀ ls h bs done, (∀ i, i ∈ ls → (i < length bs)%nat) →
  same_numbers bs0 bs → (∀ i, i ∈ done → ∃ s, bs !! i ≫= dom_frontier = Some s ∧ bs_wf n s ∧ ∀ j, bs_mem s j = false) →
  (∀ i, i ∈ l → i ∈ done ++ ls) →
  ∃ h' bs', alloc_frontiers n ls (h, bs) = Some (0, (h', bs')) ∧ same_numbers bs0 bs' ∧
    ∀ i, i ∈ l → ∃ s, bs' !! i ≫= dom_frontier = Some s ∧ bs_wf n s ∧ ∀ j, bs_mem s j = false.
Proof using Hm H H0.
  intros Hn. induction ls as [|x ls IH]; intros h bs done Hlt Hs Hd Hl.
  { exists h, bs. split_and!; [done..|]. intros i Hi. apply Hd. apply Hl in Hi. by rewrite app_nil_r in Hi. }
  destruct (lookup_lt_is_Some_2 bs x) as [b Eb]; [apply Hlt; by left|]. cbn. rewrite Eb. cbn.
  pose proof (bs_alloc_law n h Hn) as Ha. unfold wp in Ha. destruct (bs_alloc n h) as [s h1|e h1|]; [|by destruct Ha|done].
  destruct Ha as [Hwf Hmem]. apply (IH _ _ (done ++ [x])).
  - intros i Hi. rewrite length_insert. apply Hlt. by right.
  - by apply set_frontier_same.
  - intros i Hi. destruct (decide (i = x)) as [->|Hne].
    + rewrite list_lookup_insert_eq by (by eapply lookup_lt_Some). cbn. eauto.
    + rewrite list_lookup_insert_ne by done. apply Hd. set_solver.
  - intros i Hi. rewrite <- app_assoc. by apply Hl.
Qed.

Lemma compute_dom_frontier_ok u vs : unit_ok u → unit_numbering u vs → dominator_array u vs →
  ∃ h bs, compute_dom_frontier u = Done 0 (DU h bs (du_list u) (du_nr u) (entry_bb u) (bb_df_array u) (doms u)) ∧
    same_numbers (blocks u) bs ∧ has_sets (du_list u) bs ∧
    ∀ i j, i ∈ du_list u → 0 <= j → frontier_bit bs i j = true ↔
      marks (graph_of u) (entry_bb u) (blocks u) vs (doms u) (du_list u) i j.
Proof using Hm H H0.
  intros Hu Hnm [Hlen Hfin]. pose proof (unit_entry u Hu) as Hpos. destruct Hu as [Hg Hn]. pose proof (go_small _ _ _ Hg).
  unfold compute_dom_frontier, nr_bblocks. rewrite Hn.
  destruct (alloc_frontiers_ok (Z.of_nat (length (du_list u))) (du_list u) (blocks u) ltac:(lia) (du_list u) (du_heap u) (blocks u) [])
    as (h & bs1 & -> & Hs1 & Hsets); [|done|by intros ? ?%elem_of_nil|done|].
  { intros i Hi%(go_in _ _ _ Hg). unfold graph_of in Hi. by rewrite length_fmap in Hi. }
  cbn [mbind option_bind]. rewrite decide_True by done.
  destruct (frontier_blocks_ok (graph_of u) (du_list u) (entry_bb u) Hg (blocks u) (bb_df_array u) vs Hnm (doms u) Hlen Hfin (du_list u) bs1 Hs1)
    as (bs & -> & Hs & Hh & Hbit); [|done|].
  { intros i Hi. destruct (Hsets i Hi) as (s & ? & ? & _). eauto. }
  exists h, bs. cbn. split_and!; [done..|]. intros i j Hi Hj. rewrite Hbit by done. split; [|by right]. intros [Hf|?]; [|done].
  unfold frontier_bit in Hf. destruct (Hsets i Hi) as (s & Es & _ & E0). rewrite Es in Hf. cbn in Hf. by rewrite E0 in Hf.
Qed.
End unit.

(** The graph that the analysis of a method leaves, before the numbers. *)
Definition fresh_unit {B} (u : compilation_unit) : dom_unit B :=
  DU (heap u) ((λ b, Block b 0 None) <$> bbs u) (bb_list u) (nr_bb u) 0 [] [].

Lemma fresh_dfn {B} u i : dfn_at (blocks (fresh_unit (B := B) u)) i = 0.
Proof. unfold dfn_at, dfn_of, fresh_unit. cbn. rewrite list_lookup_fmap. by destruct (bbs u !! i). Qed.

Lemma cfg_unit_ok {B} method ns u : flow_wf method ns → cfg_inv method ns u → unit_ok (fresh_unit (B := B) u).
Proof.
  intros Hwf [Ht Ha [Hs Hp Hsym] _ _ _ Hc (c & Ec & _)]. assert (graph_of (fresh_unit (B := B) u) = bbs u) as E.
  { unfold graph_of, fresh_unit. cbn. rewrite <- list_fmap_compose. apply list_fmap_id. }
  assert (∀ i, (i < length (bbs u))%nat ↔ i ∈ bb_list u) as Hin.
  { intros i. split; [intros [b Eb]%lookup_lt_is_Some_2; by eapply Ha|]. intros Hi.
    destruct (tiles_block _ _ _ _ i Ht Hi) as (b & Eb & _). by eapply lookup_lt_Some. }
  assert (NoDup (bb_list u)) as Hnd by (by eapply tiles_NoDup).
  assert (length (bb_list u) = length (bbs u)) as Hlen.
  { rewrite <- (length_seq (length (bbs u)) 0). apply Permutation_length, NoDup_Permutation; [done|apply NoDup_seq|].
    intros i. rewrite <- Hin, elem_of_seq. lia. }
  assert (∀ i j, edge (bbs u) i j → ∃ b, bbs u !! i = Some b ∧ j ∈ successors b) as Hedge.
  { intros i j He. unfold edge, succs in He. destruct (bbs u !! i) as [b|]; [|by apply elem_of_nil in He]. eauto. }
  constructor; [|by cbn; rewrite Hc, Hlen]. rewrite E. cbn. constructor; try done.
  - intros i. apply Hin.
  - by eapply Ha.
  - intros i j _ (b & Eb & Hj)%Hedge. destruct (Hs i b Eb) as [Hr _]. apply Hin. apply list_elem_of_lookup in Hj as [k Hk]. exact (Forall_lookup_1 _ _ _ _ Hr Hk).
  - intros i j b _ Eb Hj. destruct (Hp i b Eb) as [Hr _]. apply Hin. apply list_elem_of_lookup in Hj as [k Hk]. exact (Forall_lookup_1 _ _ _ _ Hr Hk).
  - intros i j d Hi Hj Ed. apply Hin in Hi. destruct (lookup_lt_is_Some_2 _ _ Hi) as [b Eb].
    rewrite <- (Hsym i b j d Eb Ed). unfold edge, succs. by rewrite Eb.
  - apply tiles_length in Ht. pose proof (fw_size _ _ Hwf). lia.
Qed.

(** ** Properties *)

#[local] Abbreviation flows u := (edge (graph_of u)).

Section props.
Context {B : Type} `{SetLaws B} `{Allocator}.

(** The dominators in the array, read through the number of the block. *)
Definition idom_correct (g u' : dom_unit B) : Prop := ∀ b, reachable (flows g) (entry_bb g) b →
  ∃ d, dom_of (blocks u') (doms u') b = Some (Some d) ∧
    if decide (b = entry_bb g) then d = b else immediate_dominator (flows g) (entry_bb g) d b.

Lemma dominator_array_idom (u u' : dom_unit B) vs : unit_ok u' → same_unit u u' → unit_numbering u' vs → dominator_array u' vs →
  idom_correct u u'.
Proof using.
  intros [Hg _] (E1 & _ & _ & E4) Hnm [Hlen Hfin] b Hb. rewrite <- E1, <- E4 in *.
  destruct (dt_some _ _ _ _ Hfin b Hb) as [d Ed]. exists d. rewrite (dom_of_table _ _ _ Hg _ _ _ Hnm _ b Hlen Hb), Ed. split; [done|].
  case_decide as Hbe; [|by eapply dominator_table_immediate]. subst b.
  rewrite (tk_entry _ _ _ _ (dt_ok _ _ _ _ Hfin)) in Ed. congruence.
Qed.

Lemma dominators_ok (u : dom_unit B) : (∀ k sz, malloc_ok k sz = true) → unit_ok u → (∀ i, dfn_at (blocks u) i = 0) →
  ∃ u' vs, (do compute_dfns ;; compute_dom) u = Done 0 u' ∧ same_unit u u' ∧ unit_ok u' ∧ unit_numbering u' vs ∧ dominator_array u' vs.
Proof using.
  intros Hm Hu H00. destruct (compute_dfns_ok Hm u Hu H00) as (u1 & vs & E1 & Hs1 & Hn1).
  pose proof (unit_ok_same _ _ Hs1 Hu) as Hu1. destruct (compute_dom_ok Hm u1 vs Hu1 Hn1) as (h & ds & E2 & Hd).
  eexists _, vs. unfold bind. rewrite E1, E2. split; [done|]. split; [done|]. split; [|done]. by apply (unit_ok_same u1).
Qed.

(** C16: On a unit whose edges are recorded at both ends and whose blocks are not numbered,
    with enough memory, [compute_dfns] and [compute_dom] return 0 (the recursion, the
    walks of [intersect] and the loop over the blocks end) and leave, for every block that
    can be reached from the entry block, the block's immediate dominator in the array, and
    the entry block for itself; the control flow graph is not changed. *)
Theorem compute_dom_correct (u : dom_unit B) :
  (∀ k sz, malloc_ok k sz = true) → unit_ok u → (∀ i, dfn_at (blocks u) i = 0) →
  ∃ u', (do compute_dfns ;; compute_dom) u = Done 0 u' ∧ same_unit u u' ∧ idom_correct u u'.
Proof using.
  intros Hm Hu H00. destruct (dominators_ok u Hm Hu H00) as (u' & vs & E & Hs & Hu' & Hn & Hd).
  exists u'. split_and!; [done|done|]. by eapply dominator_array_idom.
Qed.

(** The numbers: the blocks that can be reached have 0, 1, 2, ... in the order [vs] in
    which they are found, the entry block first and every other one after a predecessor
    of it; the others keep 0. *)
Record numbers_correct (g u' : dom_unit B) (vs : list nat) : Prop := {
  nc_nodup : NoDup vs;
  nc_reach i : i ∈ vs ↔ reachable (flows g) (entry_bb g) i;
  nc_entry : vs !! 0%nat = Some (entry_bb g);
  nc_dfn k i : vs !! k = Some i → dfn_at (blocks u') i = Z.of_nat k;
  nc_other i : i ∉ vs → dfn_at (blocks u') i = 0;
  nc_parent k i : vs !! S k = Some i → ∃ j p, (j <= k)%nat ∧ vs !! j = Some p ∧ flows g p i;
}.
Definition frontiers_correct (g u' : dom_unit B) : Prop :=
  ∀ i b, i ∈ du_list g → reachable (flows g) (entry_bb g) b → b ≠ entry_bb g →
    frontier_bit (blocks u') i (dfn_at (blocks u') b) = true ↔ in_frontier (flows g) (entry_bb g) i b.

Lemma dominance_passes_ok (u : dom_unit B) :
  (∀ k sz, malloc_ok k sz = true) → unit_ok u → (∀ i, dfn_at (blocks u) i = 0) →
  ∃ u' vs, (do (do compute_dfns ;; compute_dom) ;; compute_dom_frontier) u = Done 0 u' ∧ same_unit u u' ∧
    numbers_correct u u' vs ∧ idom_correct u u' ∧ frontiers_correct u u'.
Proof using H0.
  intros Hm Hu H00. destruct (dominators_ok u Hm Hu H00) as (u1 & vs & E & Hs & Hu1 & Hn & Hd).
  destruct (compute_dom_frontier_ok Hm u1 vs Hu1 Hn Hd) as (h & bs & E2 & Hsn & Hsets & Hbit).
  eexists _, vs. unfold bind at 1. rewrite E, E2. split; [done|]. pose proof Hs as (F1 & F2 & F3 & F4).
  assert (∀ i, dfn_of bs i = dfn_of (blocks u1) i) as Hdf by (intros; by apply same_dfn_of).
  assert (∀ i, dfn_at bs i = dfn_at (blocks u1) i) as Hda by (intros; unfold dfn_at; by rewrite Hdf).
  split; [|split; [|split]].
  - split_and!; [|done..]. unfold graph_of at 1. cbn. rewrite (proj1 Hsn). exact F1.
  - destruct Hn as [[_ _ Hnd _ Hen Hk Ho Hp] Hr]. constructor; intros *; rewrite <- ?F1, <- ?F4; cbn; rewrite ?Hda; auto.
  - intros b Hb. destruct (dominator_array_idom u u1 vs Hu1 Hs Hn Hd b Hb) as (d & Ed & ?). exists d. split; [|done].
    unfold dom_of in *. cbn. by rewrite Hdf.
  - intros i b Hi Hb Hbe. cbn. rewrite <- F1, <- F4 in *. rewrite <- F2 in Hi. pose proof (reach_in _ _ _ (uo_graph _ Hu1) b Hb) as Hbl.
    destruct (block_at _ _ _ (uo_graph _ Hu1) _ _ _ b (nm_numbered _ _ _ _ _ _ Hn) Hbl) as (c & Ec & _).
    unfold dfn_at. rewrite Hdf, (dfn_of_num _ _ _ (uo_graph _ Hu1) _ _ _ Hn b Hbl). cbn. rewrite Hbit by (done || lia).
    destruct Hd as [Hlen Hfin]. by eapply (marks_frontier (graph_of u1) (du_list u1) (entry_bb u1) (uo_graph _ Hu1)).
Qed.

(** C17: After the numbers and the dominators, [compute_dom_frontier] returns 0 and the
    dominance frontier of a block has the number of another block, the entry block apart,
    exactly when the first dominates a predecessor of the second and does not strictly
    dominate the second. *)
Theorem compute_dom_frontier_correct (u : dom_unit B) :
  (∀ k sz, malloc_ok k sz = true) → unit_ok u → (∀ i, dfn_at (blocks u) i = 0) →
  ∃ u', (do (do compute_dfns ;; compute_dom) ;; compute_dom_frontier) u = Done 0 u' ∧ same_unit u u' ∧ idom_correct u u' ∧
    ∀ i b, i ∈ du_list u → reachable (flows u) (entry_bb u) b → b ≠ entry_bb u →
      frontier_bit (blocks u') i (dfn_at (blocks u') b) = true ↔ in_frontier (flows u) (entry_bb u) i b.
Proof using H0.
  intros Hm Hu H00. destruct (dominance_passes_ok u Hm Hu H00) as (u' & vs & E & Hs & _ & Hi & Hf). eauto.
Qed.

End props.

(** ** Examples *)

(** Whether the predecessors are the other ends of the edges, computed. *)
Definition graph_okb (gs : list basic_block) (l : list nat) (entry : nat) : bool :=
  bool_decide (NoDup l) && bool_decide (entry ∈ l) && bool_decide (Z.of_nat (length l) < 2 ^ 31) &&
  forallb (λ i,
    match gs !! i with
    | Some b =>
      forallb (λ j, bool_decide (j ∈ l)) (successors b ++ predecessors b) &&
      forallb (λ j, match gs !! j with
                    | Some c => eqb (bool_decide (j ∈ successors b)) (bool_decide (i ∈ predecessors c))
                    | None => false
                    end) l
    | None => false
    end) l.

Lemma graph_okb_ok gs l entry : graph_okb gs l entry = true → graph_ok gs l entry.
Proof.
  unfold graph_okb. rewrite !andb_true_iff, !bool_decide_eq_true, forallb_forall. setoid_rewrite <- list_elem_of_In.
  intros [[[Hn He] Hs] Hall].
  assert (∀ i, i ∈ l → ∃ b, gs !! i = Some b ∧ (∀ j, j ∈ successors b ++ predecessors b → j ∈ l) ∧
    ∀ j c, j ∈ l → gs !! j = Some c → j ∈ successors b ↔ i ∈ predecessors c) as Hb.
  { intros i Hi. specialize (Hall i Hi). destruct (gs !! i) as [b|]; [|done]. exists b. split; [done|].
    rewrite andb_true_iff, !forallb_forall in Hall. setoid_rewrite <- list_elem_of_In in Hall. destruct Hall as [H1 H2]. split.
    - intros j Hj. exact (bool_decide_eq_true_1 _ (H1 j Hj)).
    - intros j c Hj Ec. specialize (H2 j Hj). rewrite Ec, eqb_true_iff in H2. rewrite <- (bool_decide_eq_true (j ∈ successors b)), H2. apply bool_decide_eq_true. }
  assert (∀ i j b, gs !! i = Some b → edge gs i j ↔ j ∈ successors b) as Hed by (intros i j b Eb; unfold edge, succs; by rewrite Eb).
  constructor; [done| |done| | | |done].
  - intros i Hi. destruct (Hb i Hi) as (b & Eb & _). by eapply lookup_lt_Some.
  - intros i j Hi Hj. destruct (Hb i Hi) as (b & Eb & H1 & _). apply H1, elem_of_app. left. by eapply Hed.
  - intros i j b Hi Eb Hj. destruct (Hb i Hi) as (b' & ? & H1 & _). simplify_eq. apply H1, elem_of_app. by right.
  - intros i j c Hi Hj Ec. destruct (Hb i Hi) as (b & Eb & _ & H2). rewrite (Hed i j b Eb). by apply H2.
Qed.

Definition bb_of (succs preds : list nat) : basic_block := BB 0 0 false false false 0 succs preds (-1) false.
Definition unit_of (gs : list basic_block) : dom_unit bitset :=
  DU (Mem 0 ∅) ((λ b, Block b 0 None) <$> gs) (seq 0 (length gs)) (Z.of_nat (length gs)) 0 [] [].

Lemma unit_of_ok gs : graph_okb gs (seq 0 (length gs)) 0 = true → unit_ok (unit_of gs) ∧ ∀ i, dfn_at (blocks (unit_of gs)) i = 0.
Proof.
  intros Hg. split; [constructor|].
  - unfold graph_of, unit_of. cbn. rewrite <- list_fmap_compose, list_fmap_id. by apply graph_okb_ok.
  - cbn. by rewrite length_seq.
  - intros i. unfold dfn_at, dfn_of, unit_of. cbn. rewrite list_lookup_fmap. by destruct (gs !! i).
Qed.

(** A choice whose two ways meet in a loop, with a way out of it; block 6 cannot be
    reached. *)
Definition loop_graph : list basic_block :=
  [bb_of [1; 2] []; bb_of [3] [0]; bb_of [3] [0]; bb_of [4] [1; 2; 4; 6]; bb_of [3; 5] [3]; bb_of [] [4]; bb_of [3] []]%nat.
(** Blocks that meet in a cycle that can be entered at two blocks. *)
Definition two_entries : list basic_block :=
  [bb_of [1; 2] []; bb_of [2; 3] [0; 2]; bb_of [1] [0; 1]; bb_of [] [1]]%nat.

#[local] Existing Instance bitset_ops.
#[local] Instance plenty : Allocator := λ _ _, true.

Definition dominance_of (gs : list basic_block) : option (list Z * list (option nat) * list (list bool)) :=
  match (do (do compute_dfns ;; compute_dom) ;; compute_dom_frontier) (unit_of gs) with
  | Done 0 u => Some (dfn <$> blocks u, doms u,
      (λ i, (λ j, frontier_bit (blocks u) i (Z.of_nat j)) <$> seq 0 (length gs)) <$> seq 0 (length gs))
  | _ => None
  end.

Lemma compute_dom_correct_witness :
  (∃ u', (do compute_dfns ;; compute_dom) (unit_of two_entries) = Done 0 u' ∧ same_unit (unit_of two_entries) u' ∧
    idom_correct (unit_of two_entries) u') ∧
  dominance_of two_entries = Some ([0; 1; 2; 3], [Some 0%nat; Some 0%nat; Some 0%nat; Some 1%nat],
    [[false; false; false; false]; [false; false; true; false]; [false; true; false; false]; [false; false; false; false]]).
Proof.
  split; [|vm_compute; reflexivity]. destruct (unit_of_ok two_entries ltac:(vm_compute; reflexivity)) as [Hu H0].
  apply compute_dom_correct; [intros; reflexivity|exact Hu|exact H0].
Defined.

Lemma compute_dom_frontier_correct_witness :
  (∃ u', (do (do compute_dfns ;; compute_dom) ;; compute_dom_frontier) (unit_of loop_graph) = Done 0 u' ∧
    (frontier_bit (blocks u') 4 (dfn_at (blocks u') 3) = true ↔ in_frontier (edge (graph_of (unit_of loop_graph))) 0 4 3)) ∧
  (λ r, r.1.2) <$> dominance_of loop_graph =
    Some [Some 0%nat; Some 0%nat; Some 0%nat; Some 3%nat; Some 4%nat; Some 0%nat; None].
Proof.
  split; [|vm_compute; reflexivity]. destruct (unit_of_ok loop_graph ltac:(vm_compute; reflexivity)) as [Hu H0].
  destruct (compute_dom_frontier_correct (unit_of loop_graph)) as (u' & E & _ & _ & Hf); [intros; reflexivity|exact Hu|exact H0|].
  exists u'. split; [exact E|]. apply (Hf 4%nat 3%nat); [apply (bool_decide_unpack _); reflexivity| |discriminate].
  exists [3; 1; 0]%nat. apply (trace_edge _ _ _ 1%nat); [|apply (bool_decide_unpack _); reflexivity].
  apply (trace_edge _ _ _ 0%nat); [constructor|apply (bool_decide_unpack _); reflexivity].
Defined.


(** A loop back to the entry block: the block is in its own frontier and in that of the
    end of the loop, but the entry has one predecessor and is not marked. *)
Definition entry_loop : list basic_block := [bb_of [1] [1]; bb_of [0] [0]]%nat.

Theorem entry_frontier_missed :
  graph_okb entry_loop [0; 1]%nat 0 = true ∧
  in_frontier (edge entry_loop) 0 0 0 ∧ in_frontier (edge entry_loop) 0 1 0 ∧
  dominance_of entry_loop = Some ([0; 1], [Some 0%nat; Some 0%nat], [[false; false]; [false; false]]).
Proof.
  assert (reachable (edge entry_loop) 0 1) as Hr.
  { exists [1; 0]%nat. apply (trace_edge _ _ _ 0%nat); [constructor|apply (bool_decide_unpack _); reflexivity]. }
  assert (edge entry_loop 1 0) as He by (apply (bool_decide_unpack _); reflexivity).
  split_and!; [vm_compute; reflexivity| | |vm_compute; reflexivity]; split.
  - exists 1%nat. split_and!; [done|done|]. apply dominates_entry.
  - by intros [_ ?].
  - exists 1%nat. split_and!; [done|done|]. apply dominates_refl.
  - intros [Hd _]. by apply dominates_entry_inv in Hd.
Qed.
