(* ===== verification/Ssa.v ===== *)
(** * jit/ssa.c: the analyses before the SSA form, and the placement of phi instructions

    The unit of Dominance with what these functions add to a block.  The error return is
    the negative error number.  A call of the heap that is not checked in the code, and
    fails, leaves a null pointer that is followed.  A phi instruction is the number of its
    variable and the number of its sources; the other instructions are not part of the
    record.  Arrays from malloc start without values ([None]). *)

From S2P Require Import Prelude CMonad Bitset SetInterface BasicBlock Dominance.
#[local] Open Scope Z_scope.

(** ** State *)

Record ssa_info (B : Type) := SI {
  nr_predecessors_no_eh : Z;
  positions_as_predecessor : list (option Z);
  dom_successors : list (option nat);
  nr_dom_successors : Z;
  dominators : option B;
  natural_loop : option B;
  nesting : Z;
  loop_start : Z;
  def_set : option B;
  live_in_set : option B;
  phis : list (Z * Z);
}.
Arguments SI {B}.
Arguments nr_predecessors_no_eh {B}.
Arguments positions_as_predecessor {B}.
Arguments dom_successors {B}.
Arguments nr_dom_successors {B}.
Arguments dominators {B}.
Arguments natural_loop {B}.
Arguments nesting {B}.
Arguments loop_start {B}.
Arguments def_set {B}.
Arguments live_in_set {B}.
Arguments phis {B}.

Record ssa_unit (B : Type) := SU { su_heap : mem; su_unit : dom_unit B; infos : list (ssa_info B) }.
Arguments SU {B}.
Arguments su_heap {B}.
Arguments su_unit {B}.
Arguments infos {B}.

Section ops.
Context {B : Type} `{SetScan B} `{Allocator}.

Definition set_nr_preds (n : Z) (x : ssa_info B) : ssa_info B :=
  SI n (positions_as_predecessor x) (dom_successors x) (nr_dom_successors x) (dominators x) (natural_loop x) (nesting x)
    (loop_start x) (def_set x) (live_in_set x) (phis x).
Definition set_positions (p : list (option Z)) (x : ssa_info B) : ssa_info B :=
  SI (nr_predecessors_no_eh x) p (dom_successors x) (nr_dom_successors x) (dominators x) (natural_loop x) (nesting x)
    (loop_start x) (def_set x) (live_in_set x) (phis x).
Definition set_dom_successors (l : list (option nat)) (n : Z) (x : ssa_info B) : ssa_info B :=
  SI (nr_predecessors_no_eh x) (positions_as_predecessor x) l n (dominators x) (natural_loop x) (nesting x)
    (loop_start x) (def_set x) (live_in_set x) (phis x).
Definition set_dominators (s : option B) (x : ssa_info B) : ssa_info B :=
  SI (nr_predecessors_no_eh x) (positions_as_predecessor x) (dom_successors x) (nr_dom_successors x) s (natural_loop x) (nesting x)
    (loop_start x) (def_set x) (live_in_set x) (phis x).
Definition set_loop (s : option B) (x : ssa_info B) : ssa_info B :=
  SI (nr_predecessors_no_eh x) (positions_as_predecessor x) (dom_successors x) (nr_dom_successors x) (dominators x) s (nesting x)
    (loop_start x) (def_set x) (live_in_set x) (phis x).
Definition set_nesting (n : Z) (x : ssa_info B) : ssa_info B :=
  SI (nr_predecessors_no_eh x) (positions_as_predecessor x) (dom_successors x) (nr_dom_successors x) (dominators x) (natural_loop x) n
    (loop_start x) (def_set x) (live_in_set x) (phis x).
Definition set_loop_start (n : Z) (x : ssa_info B) : ssa_info B :=
  SI (nr_predecessors_no_eh x) (positions_as_predecessor x) (dom_successors x) (nr_dom_successors x) (dominators x) (natural_loop x) (nesting x)
    n (def_set x) (live_in_set x) (phis x).
Definition set_phis (p : list (Z * Z)) (x : ssa_info B) : ssa_info B :=
  SI (nr_predecessors_no_eh x) (positions_as_predecessor x) (dom_successors x) (nr_dom_successors x) (dominators x) (natural_loop x) (nesting x)
    (loop_start x) (def_set x) (live_in_set x) p.

(** Computations on the unit; the error is the value returned. *)
Definition D (A : Type) : Type := M (ssa_unit B) Z A.

Definition try {A} (o : option A) : D A := match o with Some a => ret a | None => undef end.
Definition on_heap {A} (m : M mem unit A) : D (option A) := λ s,
  match m (su_heap s) with
  | Done a h => Done (Some a) (SU h (su_unit s) (infos s))
  | Fail _ h => Done None (SU h (su_unit s) (infos s))
  | Undef => Undef
  end.
Definition request (size : Z) : D bool := λ s,
  let '(p, h) := mem_malloc size (su_heap s) in Done (bool_decide (is_Some p)) (SU h (su_unit s) (infos s)).

Definition block_of (i : nat) : D (block B) := let* o := get (λ s, blocks (su_unit s) !! i) in try o.
Definition info_of (i : nat) : D (ssa_info B) := let* o := get (λ s, infos s !! i) in try o.
Definition update_info (i : nat) (f : ssa_info B → ssa_info B) : D unit :=
  let* x := info_of i in modify (λ s, SU (su_heap s) (su_unit s) (<[i := f x]> (infos s))).
(** [cu->doms[i]] *)
Definition doms_at (i : Z) : D (option nat) := let* o := get (λ s, array_get (doms (su_unit s)) i) in try o.

Definition bb_is_eh (i : nat) : D bool :=
  let* b := block_of i in
  let* e := get (λ s, entry_bb (su_unit s)) in
  ret (bool_decide (dfn b = 0 ∧ e ≠ i)).

(** [for_each_basic_block] with [if (bb_is_eh(cu, bb)) continue;] *)
Definition for_each_no_eh (f : nat → D unit) : D unit :=
  let* l := get (λ s, du_list (su_unit s)) in
  for_each (λ i, let* eh := bb_is_eh i in if (eh : bool) then ret tt else f i) l.

(** ** Predecessors *)

Definition compute_nr_predecessors_no_eh : D unit :=
  for_each_no_eh (λ i,
    let* b := block_of i in
    for_each (λ p, let* eh := bb_is_eh p in
      if (eh : bool) then ret tt else update_info i (λ x, set_nr_preds (u64 (nr_predecessors_no_eh x + 1)) x))
      (predecessors (bb b))).

(** The loop over the predecessors of a successor: the place of [i], if it is there. *)
Fixpoint find_position (i : nat) (ps : list nat) (position : Z) : D (option Z) :=
  match ps with
  | [] => ret None
  | p :: ps' =>
    let* eh := bb_is_eh p in
    if (eh : bool) then find_position i ps' position else
    if decide (p = i) then ret (Some position) else find_position i ps' (u64 (position + 1))
  end.
Fixpoint positions_loop (i : nat) (succs : list nat) (k : nat) : D unit :=
  match succs with
  | [] => ret tt
  | succ :: succs' =>
    let* b := block_of succ in
    let* p := find_position i (predecessors (bb b)) 0 in
    do (match p with
        | Some v => update_info i (λ x, set_positions (<[k := Some v]> (positions_as_predecessor x)) x)
        | None => ret tt
        end) ;;
    positions_loop i succs' (S k)
  end.
Definition compute_positions_as_predecessor : D unit :=
  for_each_no_eh (λ i,
    let* b := block_of i in
    let* ok := request (u64 (8 * Z.of_nat (length (successors (bb b))))) in
    if negb ok then fail (- ENOMEM) else
    do update_info i (set_positions (replicate (length (successors (bb b))) None)) ;;
    positions_loop i (successors (bb b)) 0).

(** ** The dominator tree *)

(** [while (bb_it != cu->entry_bb)]: each step goes to a smaller number. *)
Fixpoint mark_dominators (fuel : nat) (i : nat) (it : option nat) : D unit :=
  match fuel with
  | O => undef
  | S fuel' =>
    let* e := get (λ s, entry_bb (su_unit s)) in
    if decide (it = Some e) then ret tt else
    let* j := try it in
    let* b := block_of j in
    let* x := info_of i in
    let* s := try (s ← dominators x; bs_set s (dfn b)) in
    do update_info i (set_dominators (Some s)) ;;
    let* d := doms_at (dfn b) in
    mark_dominators fuel' i d
  end.
Definition compute_dominators : D unit :=
  for_each_no_eh (λ i,
    let* n := get (λ s, nr_bblocks (su_unit s)) in
    let* o := on_heap (bs_alloc n) in
    do update_info i (set_dominators o) ;;
    let* b := block_of i in
    let* it := doms_at (dfn b) in
    do mark_dominators (S (Z.to_nat n)) i it ;;
    let* e := get (λ s, entry_bb (su_unit s)) in
    if decide (i = e) then ret tt else
    let* eb := block_of e in
    let* x := info_of i in
    let* s := try (s ← dominators x; bs_set s (dfn eb)) in
    update_info i (set_dominators (Some s))).

Definition count_dom_successor (i : nat) : D unit :=
  let* b := block_of i in
  if decide (dfn b = 0) then ret tt else
  let* d := doms_at (dfn b) in
  match d with
  | Some d => update_info d (λ x, set_dom_successors (dom_successors x) (u64 (nr_dom_successors x + 1)) x)
  | None => ret tt
  end.
(** The second loop: [positions[idx++] = 0] and the arrays of the blocks. *)
Fixpoint alloc_dom_successors (l : list nat) (idx : Z) (positions : list (option Z)) : D (list (option Z)) :=
  match l with
  | [] => ret positions
  | i :: l' =>
    let* positions := try (array_set positions idx (Some 0)) in
    let* eh := bb_is_eh i in
    let* x := info_of i in
    if (eh || bool_decide (nr_dom_successors x = 0)) then alloc_dom_successors l' (idx + 1) positions else
    let* ok := request (u64 (8 * nr_dom_successors x)) in
    if negb ok then fail (- ENOMEM) else
    do update_info i (λ x, set_dom_successors (replicate (Z.to_nat (nr_dom_successors x)) None) (nr_dom_successors x) x) ;;
    alloc_dom_successors l' (idx + 1) positions
  end.
(** The third loop: [dom->dom_successors[positions[dom->dfn]++] = bb]. *)
Fixpoint fill_dom_successors (l : list nat) (positions : list (option Z)) : D unit :=
  match l with
  | [] => ret tt
  | i :: l' =>
    let* b := block_of i in
    if decide (dfn b = 0) then fill_dom_successors l' positions else
    let* d := doms_at (dfn b) in
    match d with
    | None => fill_dom_successors l' positions
    | Some d =>
      let* db := block_of d in
      let* p := try (mjoin (array_get positions (dfn db))) in
      let* x := info_of d in
      let* ss := try (array_set (dom_successors x) p (Some i)) in
      do update_info d (set_dom_successors ss (nr_dom_successors x)) ;;
      let* positions := try (array_set positions (dfn db) (Some (u64 (p + 1)))) in
      fill_dom_successors l' positions
    end
  end.
Definition compute_dom_successors : D unit :=
  let* n := get (λ s, nr_bblocks (su_unit s)) in
  let* l := get (λ s, du_list (su_unit s)) in
  let* ok := request (u64 (8 * n)) in
  if negb ok then fail (- ENOMEM) else
  do for_each count_dom_successor l ;;
  let* positions := alloc_dom_successors l 0 (replicate (Z.to_nat n) None) in
  fill_dom_successors l positions.

(** ** Natural loops *)

(** The loop over the predecessors of [work_bb], which puts blocks in front of the
    work list. *)
Fixpoint push_preds (header : nat) (ps : list nat) (worklist : list nat) : D (list nat) :=
  match ps with
  | [] => ret worklist
  | p :: ps' =>
    let* eh := bb_is_eh p in
    if (eh : bool) then push_preds header ps' worklist else
    if decide (p = header) then push_preds header ps' worklist else
    let* x := info_of header in
    let* b := block_of p in
    let* t := try (s ← natural_loop x; bs_test s (dfn b)) in
    if (t : bool) then push_preds header ps' worklist else
    let* ok := request 16 in
    if negb ok then fail (- ENOMEM) else
    push_preds header ps' (p :: worklist)
  end.

(** [nloop && test_bit(nloop->bits, b->dfn)] *)
Definition in_loop (header i : nat) : D bool :=
  let* x := info_of header in
  match natural_loop x with
  | Some s => let* b := block_of i in try (bs_test s (dfn b))
  | None => ret false
  end.

(** [set_bit(header->natural_loop->bits, b->dfn)] *)
Definition add_to_loop (header i : nat) : D unit :=
  let* b := block_of i in
  let* x := info_of header in
  let* s := try (s ← natural_loop x; bs_set s (dfn b)) in
  update_info header (set_loop (Some s)).

Fixpoint loop_work (fuel : nat) (header : nat) (worklist : list nat) : D unit :=
  match fuel with
  | O => undef
  | S fuel' =>
    match worklist with
    | [] => ret tt
    | work_bb :: worklist' =>
      let* seen := in_loop header work_bb in
      if (seen : bool) then loop_work fuel' header worklist' else
      let* x := info_of header in
      do (match natural_loop x with
          | Some _ => ret tt
          | None =>
            let* n := get (λ s, nr_bblocks (su_unit s)) in
            let* o := on_heap (bs_alloc n) in
            update_info header (set_loop o)
          end) ;;
      do add_to_loop header work_bb ;;
      do update_info work_bb (λ x, set_nesting (s32 (nesting x + 1)) x) ;;
      let* b := block_of work_bb in
      let* wl := push_preds header (predecessors (bb b)) worklist' in
      loop_work fuel' header wl
    end
  end.

(** Every block puts its predecessors on the list at most once. *)
Definition loop_fuel (s : ssa_unit B) : nat :=
  S (S (sum_list ((λ b, length (predecessors (bb b))) <$> blocks (su_unit s)))).

Definition determine_loop (header i : nat) : D unit :=
  do update_info i (set_loop_start 1) ;;
  let* seen := in_loop header i in
  if (seen : bool) then ret tt else
  let* ok := request 16 in
  if negb ok then fail (- ENOMEM) else
  let* fuel := get loop_fuel in
  do loop_work fuel header [i] ;;
  let* seen := (let* x := info_of header in let* b := block_of header in try (s ← natural_loop x; bs_test s (dfn b))) in
  if (seen : bool) then ret tt else add_to_loop header header.

Definition compute_natural_loops : D unit :=
  for_each_no_eh (λ i,
    let* b := block_of i in
    for_each (λ header,
      let* eh := bb_is_eh header in
      if (eh : bool) then ret tt else
      let* hb := block_of header in
      let* x := info_of i in
      let* t := try (s ← dominators x; bs_test s (dfn hb)) in
      if (t : bool) then determine_loop header i else ret tt)
      (successors (bb b))).

(** [init_ssa] without the hash map of insn_add_ons; the errors of the loops are not
    looked at. *)
Definition init_ssa : D unit :=
  do compute_nr_predecessors_no_eh ;;
  do compute_positions_as_predecessor ;;
  do compute_dom_successors ;;
  do compute_dominators ;; λ s,
  match compute_natural_loops s with
  | Fail _ s' => Done tt s'
  | r => r
  end.

(** ** Phi instructions *)

Definition SSA_INIT_BLOCK : Z := 2 ^ 64 - 1.
Definition sizeof_insn : Z := 128.
Definition sizeof_operand : Z := 48.

(** [phi_insn] of arch/x86/instruction.c: the sources are written without a look at the
    result of malloc. *)
Definition phi_insn (vreg nr_srcs : Z) : D (option (Z * Z)) :=
  let* ok := request sizeof_insn in
  if negb ok then ret None else
  let* srcs := request (u64 (nr_srcs * sizeof_operand)) in
  if decide (srcs = false ∧ nr_srcs ≠ 0) then undef else ret (Some (vreg, nr_srcs)).

(** The instruction is put at the front of the block. *)
Definition insert_phi (i : nat) (vreg : Z) : D unit :=
  let* x := info_of i in
  let* o := phi_insn vreg (nr_predecessors_no_eh x) in
  let* insn := try o in
  update_info i (λ x, set_phis (insn :: phis x) x).

(** What the loops over the frontiers change besides the blocks. *)
Record phi_state := PS { workset : B; inserted : list (option Z); work : list (option Z); last_ndx : Z }.

Fixpoint frontier_loop (fuel : nat) (vreg : Z) (temp : B) (ndx : Z) (w : phi_state) : D phi_state :=
  match fuel with
  | O => undef
  | S fuel' =>
    let* ndx := try (bs_next temp ndx) in
    if decide (ndx = -1) then ret w else
    let* temp := try (bs_clear temp ndx) in
    let* p := (let* o := get (λ s, array_get (bb_df_array (su_unit s)) ndx) in try o) in
    let* ins := try (mjoin (array_get (inserted w) ndx)) in
    if decide (ins = vreg) then frontier_loop fuel' vreg temp ndx w else
    let* i := try p in
    let* x := info_of i in
    let* live := try (s ← live_in_set x; bs_test s vreg) in
    if negb live then frontier_loop fuel' vreg temp ndx w else
    let* insd := try (array_set (inserted w) ndx (Some vreg)) in
    do insert_phi i vreg ;;
    let* wk := try (mjoin (array_get (work w) ndx)) in
    if decide (wk = vreg) then frontier_loop fuel' vreg temp ndx (PS (workset w) insd (work w) (last_ndx w)) else
    let* ws := try (bs_set (workset w) ndx) in
    let* wk := try (array_set (work w) ndx (Some vreg)) in
    frontier_loop fuel' vreg temp ndx (PS ws insd wk (if decide (ndx < last_ndx w) then ndx else last_ndx w))
  end.

Definition iterate_dom_frontier_set (vreg : Z) (i : nat) (w : phi_state) : D phi_state :=
  let* n := get (λ s, nr_bblocks (su_unit s)) in
  let* temp := on_heap (bs_alloc n) in
  let* temp := try temp in
  let* b := block_of i in
  let* f := try (dom_frontier b) in
  frontier_loop (S (Z.to_nat n)) vreg (bs_copy_to f temp) 0 w.

(** The loop over the work set; a block enters it at most once for a variable. *)
Fixpoint work_loop (fuel : nat) (vreg : Z) (w : phi_state) : D phi_state :=
  match fuel with
  | O => undef
  | S fuel' =>
    let* ndx := try (bs_next (workset w) (last_ndx w)) in
    if decide (ndx = -1) then ret (PS (workset w) (inserted w) (work w) ndx) else
    let* ws := try (bs_clear (workset w) ndx) in
    let* i := (let* o := get (λ s, mjoin (array_get (bb_df_array (su_unit s)) ndx)) in try o) in
    let* w := iterate_dom_frontier_set vreg i (PS ws (inserted w) (work w) ndx) in
    work_loop fuel' vreg w
  end.

(** The blocks that define the variable. *)
Fixpoint collect_defs (vreg : Z) (l : list nat) (w : phi_state) : D phi_state :=
  match l with
  | [] => ret w
  | i :: l' =>
    let* eh := bb_is_eh i in
    if (eh : bool) then collect_defs vreg l' w else
    let* x := info_of i in
    let* t := try (s ← def_set x; bs_test s vreg) in
    if negb t then collect_defs vreg l' w else
    let* b := block_of i in
    let* ws := try (bs_set (workset w) (dfn b)) in
    let* wk := try (array_set (work w) (dfn b) (Some vreg)) in
    collect_defs vreg l' (PS ws (inserted w) wk
      (if decide (last_ndx w = -1 ∨ dfn b < last_ndx w) then dfn b else last_ndx w))
  end.

Definition place_phis (vreg : Z) (w : phi_state) : D phi_state :=
  let* l := get (λ s, du_list (su_unit s)) in
  let* w := collect_defs vreg l (PS (workset w) (inserted w) (work w) (-1)) in
  if decide (last_ndx w = -1) then ret w else
  let* n := get (λ s, nr_bblocks (su_unit s)) in
  work_loop (S (Z.to_nat n)) vreg w.

(** [work[bb->dfn] = inserted[bb->dfn] = SSA_INIT_BLOCK] *)
Fixpoint init_arrays (l : list nat) (arrs : list (option Z) * list (option Z)) : D (list (option Z) * list (option Z)) :=
  match l with
  | [] => ret arrs
  | i :: l' =>
    let* eh := bb_is_eh i in
    if (eh : bool) then init_arrays l' arrs else
    let* b := block_of i in
    let* wk := try (array_set arrs.1 (dfn b) (Some SSA_INIT_BLOCK)) in
    let* insd := try (array_set arrs.2 (dfn b) (Some SSA_INIT_BLOCK)) in
    init_arrays l' (wk, insd)
  end.

Fixpoint place_variables (vregs : list Z) (w : phi_state) : D unit :=
  match vregs with
  | [] => ret tt
  | v :: vregs' => let* w := place_phis v w in place_variables vregs' w
  end.

(** The variables of the unit, by their numbers. *)
Definition insert_phi_insns (vregs : list Z) : D unit :=
  let* n := get (λ s, nr_bblocks (su_unit s)) in
  let* ok := request (u64 (8 * n)) in
  if negb ok then fail (- ENOMEM) else
  let* ok := request (u64 (8 * n)) in
  if negb ok then fail (- ENOMEM) else
  let* l := get (λ s, du_list (su_unit s)) in
  let* arrs := init_arrays l (replicate (Z.to_nat n) None, replicate (Z.to_nat n) None) in
  let* ws := on_heap (bs_alloc n) in
  let* ws := try ws in
  place_variables vregs (PS ws arrs.2 arrs.1 (-1)).
End ops.
