(* ===== verification/SsaSpec.v ===== *)
(** * The state of the SSA passes

    The rules for the primitive operations of Ssa on a unit whose blocks are numbered and
    whose dominators are known, and the rule for a loop over the blocks that are not part
    of the exception handlers. *)

From S2P Require Import Prelude CMonad Bitset SetInterface BasicBlock DominatorTree Dominance DominanceSpec DominanceLoop DominanceProps Ssa.
#[local] Open Scope Z_scope.

Section ssa.
Context {B : Type} `{SetLaws B} `{!SetScan B} `{!SetScanLaws B} `{Allocator} (Hm : ∀ k sz, malloc_ok k sz = true).
Context (u : dom_unit B) (vs : list nat).

(** What jit/dominance.c leaves. *)
Record dominance_ok : Prop := {
  do_unit : unit_ok u;
  do_numbering : unit_numbering u vs;
  do_doms : dominator_array u vs;
}.

Context (Hu : dominance_ok).
#[local] Abbreviation l := (du_list u).
#[local] Abbreviation n := (length (du_list u)).
#[local] Abbreviation entry := (entry_bb u).
#[local] Abbreviation gs := (graph_of u).
#[local] Abbreviation edge := (edge (graph_of u)).
#[local] Abbreviation reach := (reachable edge entry).
#[local] Abbreviation num := (num (blocks u)).
#[local] Abbreviation table := (table (blocks u) vs (doms u)).
Implicit Type s : ssa_unit B.

(** The passes change the heap and the added fields only. *)
Record shape s : Prop := {
  sh_unit : su_unit s = u;
  sh_length : length (infos s) = length (blocks u);
}.

(** No error return, with enough memory. *)
Definition run {A} (m : D A) (Q : A → ssa_unit B → Prop) (s : ssa_unit B) : Prop := wp m Q (λ _ _, False) s.

Lemma run_bind {A C} (m : D A) (f : A → D C) Q s : run m (λ a s', run (f a) Q s') s → run (bind m f) Q s.
Proof using. apply wp_bind. Qed.
Lemma run_seq {A C} (m : D A) (f : A → D C) Q Q' s : run m Q' s → (∀ a s', Q' a s' → run (f a) Q s') → run (bind m f) Q s.
Proof using. intros Hr1 Hr2. by eapply wp_seq. Qed.
Lemma run_mono {A} (m : D A) Q Q' s : run m Q s → (∀ a s', Q a s' → Q' a s') → run m Q' s.
Proof using. intros Hr1 Hr2. by eapply wp_mono. Qed.
Lemma run_ret {A} (a : A) (Q : A → ssa_unit B → Prop) s : Q a s → run (ret a) Q s.
Proof using. done. Qed.
Lemma run_get {A} (f : ssa_unit B → A) (Q : A → ssa_unit B → Prop) s : Q (f s) s → run (get f) Q s.
Proof using. done. Qed.
Lemma run_try {A} (o : option A) a (Q : A → ssa_unit B → Prop) s : o = Some a → Q a s → run (try o) Q s.
Proof using. by intros ->. Qed.

Lemma run_request sz (Q : bool → ssa_unit B → Prop) s : (∀ h, Q true (SU h (su_unit s) (infos s))) → run (request sz) Q s.
Proof using Hm. intros HQ. unfold run, wp, request, mem_malloc. rewrite Hm. cbn. auto. Qed.

Lemma run_alloc k (Q : option B → ssa_unit B → Prop) s : 0 <= k < 2 ^ 31 →
  (∀ h b, bs_wf k b → (∀ j, bs_mem b j = false) → Q (Some b) (SU h (su_unit s) (infos s))) → run (on_heap (bs_alloc k)) Q s.
Proof using Hm H0.
  intros Hk HQ. unfold run, wp, on_heap. pose proof (bs_alloc_law k (su_heap s) Hk) as Ha. unfold wp in Ha.
  destruct (bs_alloc k (su_heap s)) as [b h|e h|]; [|by destruct Ha|done]. destruct Ha. auto.
Qed.

Lemma run_block_of i b (Q : block B → ssa_unit B → Prop) s : blocks (su_unit s) !! i = Some b → Q b s → run (block_of i) Q s.
Proof using. intros E HQ. unfold run, wp, block_of, bind, get. by rewrite E. Qed.
Lemma run_info_of i x (Q : ssa_info B → ssa_unit B → Prop) s : infos s !! i = Some x → Q x s → run (info_of i) Q s.
Proof using. intros E HQ. unfold run, wp, info_of, bind, get. by rewrite E. Qed.
Lemma run_update_info i f x (Q : () → ssa_unit B → Prop) s :
  infos s !! i = Some x → Q tt (SU (su_heap s) (su_unit s) (<[i := f x]> (infos s))) → run (update_info i f) Q s.
Proof using. intros E HQ. unfold run, wp, update_info, info_of, bind, get. by rewrite E. Qed.

(** ** Blocks *)

Lemma block_in s i : shape s → i ∈ l → ∃ b x, blocks (su_unit s) !! i = Some b ∧ gs !! i = Some (bb b) ∧
  dfn b = Z.of_nat (num i) ∧ infos s !! i = Some x.
Proof using Hu.
  intros [Es Hl] Hi. destruct Hu as [[Hg _] Hn _]. destruct (block_at _ _ _ Hg _ _ _ i (nm_numbered _ _ _ _ _ _ Hn) Hi) as (b & Eb & Eg & Ed).
  pose proof (lookup_lt_Some _ _ _ Eb) as Hlt. rewrite <- Hl in Hlt. destruct (lookup_lt_is_Some_2 _ _ Hlt) as [x Ex].
  exists b, x. rewrite Es. split_and!; [done|done| |done]. pose proof (dfn_of_num _ _ _ Hg _ _ _ Hn i Hi) as E. unfold dfn_of in E.
  rewrite Eb in E. by injection E.
Qed.

Lemma reach_vs i : i ∈ vs ↔ reach i.
Proof using Hu. apply Hu. Qed.
Lemma vs_in i : i ∈ vs → i ∈ l.
Proof using Hu. intros Hi%reach_vs. destruct Hu as [[Hg _] _ _]. by eapply reach_in. Qed.

Lemma run_bb_is_eh i (Q : bool → ssa_unit B → Prop) s : shape s → i ∈ l → Q (bool_decide (i ∉ vs)) s → run (bb_is_eh i) Q s.
Proof using Hu.
  intros Hs Hi HQ. destruct (block_in s i Hs Hi) as (b & x & Eb & _ & Ed & _). unfold bb_is_eh. apply run_bind.
  eapply run_block_of; [done|]. apply run_bind, run_get, run_ret. rewrite (sh_unit s Hs).
  replace (bool_decide (dfn b = 0 ∧ entry ≠ i)) with (bool_decide (i ∉ vs)); [done|]. apply bool_decide_ext.
  destruct Hu as [_ Hn _]. rewrite (nb_found _ _ _ _ _ _ i (nm_numbered _ _ _ _ _ _ Hn)). unfold dfn_at, dfn_of.
  rewrite (sh_unit s Hs) in Eb. rewrite Eb. cbn. naive_solver lia.
Qed.

Lemma num_lt i : i ∈ vs → (num i < n)%nat.
Proof using Hu. intros Hi%reach_vs. destruct Hu as [_ Hn _]. by eapply num_bound. Qed.
Lemma num_injective i j : i ∈ vs → j ∈ vs → num i = num j → i = j.
Proof using Hu. intros Hi%reach_vs Hj%reach_vs. destruct Hu as [_ Hn _]. by eapply num_inj. Qed.

Lemma run_doms_at s i (Q : option nat → ssa_unit B → Prop) : shape s → i ∈ vs → Q (table i) s → run (doms_at (Z.of_nat (num i))) Q s.
Proof using Hu.
  intros Hs Hi HQ. unfold doms_at. apply run_bind, run_get. rewrite (sh_unit s Hs). destruct Hu as [_ Hn [Hl _]].
  eapply run_try; [|done]. apply (array_get_table _ _ _ _ _ _ Hn _ i Hl). by apply Hn.
Qed.

(** ** Loops over the blocks *)

Lemma shape_heap s h : shape s → shape (SU h (su_unit s) (infos s)).
Proof using. intros []. by constructor. Qed.
Lemma shape_insert s h i x : shape s → shape (SU h (su_unit s) (<[i := x]> (infos s))).
Proof using. intros []. constructor; [done|]. cbn. by rewrite length_insert. Qed.

Lemma run_for_each_no_eh f (I : list nat → ssa_unit B → Prop) s :
  (∀ ls s', I ls s' → shape s') →
  (∀ i ls s', i ∉ vs → I (i :: ls) s' → I ls s') →
  (∀ i ls s', i ∈ vs → i ∈ l → I (i :: ls) s' → run (f i) (λ _ s'', I ls s'') s') →
  I l s → run (for_each_no_eh f) (λ _ s', I [] s') s.
Proof using Hu.
  intros Hsh Hskip Hstep HI. unfold for_each_no_eh. apply run_bind, run_get. rewrite (sh_unit s (Hsh _ _ HI)).
  assert (∀ ls s, (∀ i, i ∈ ls → i ∈ l) → I ls s →
    run (for_each (λ i, let* eh := bb_is_eh i in if (eh : bool) then ret () else f i) ls) (λ _ s', I [] s') s) as Hgo; [|by apply Hgo].
  clear s HI. induction ls as [|i ls IH]; intros s Hin HI; [done|]. cbn. assert (i ∈ l) as Hi by (apply Hin; by left).
  eapply run_seq with (Q' := λ _ s', I ls s'); [|intros _ s' HI'; apply IH; [|done]; intros j Hj; apply Hin; by right].
  apply run_bind, run_bb_is_eh; [by eapply Hsh|done|]. case_bool_decide as Hv; [apply run_ret; by eapply Hskip|].
  apply Hstep; [by destruct (decide (i ∈ vs))|done|done].
Qed.

(** When the body changes the block it is called for and nothing else. *)
Lemma run_each_block f (P : nat → ssa_info B → ssa_info B → Prop) s :
  shape s →
  (∀ i x s', shape s' → i ∈ vs → infos s !! i = Some x → infos s' !! i = Some x →
    run (f i) (λ _ s'', ∃ h y, s'' = SU h u (<[i := y]> (infos s')) ∧ P i x y) s') →
  run (for_each_no_eh f) (λ _ s', shape s' ∧ (∀ i, i ∉ vs → infos s' !! i = infos s !! i) ∧
    ∀ i, i ∈ vs → ∃ x y, infos s !! i = Some x ∧ infos s' !! i = Some y ∧ P i x y) s.
Proof using Hu.
  intros Hs Hstep.
  set (I := λ (ls : list nat) s', NoDup ls ∧ shape s' ∧ (∀ i, i ∈ ls ∨ i ∉ vs → infos s' !! i = infos s !! i) ∧
    ∀ i, i ∈ vs → i ∉ ls → ∃ x y, infos s !! i = Some x ∧ infos s' !! i = Some y ∧ P i x y).
  eapply run_mono; [apply (run_for_each_no_eh f I)|].
  - by intros ls s' (_ & ? & _).
  - intros i ls s' Hi (Hn & Hs' & Hsame & Hdone). apply list_relations.list.NoDup_cons in Hn as [Hni Hn]. split_and!; [done|done| |].
    + intros j [Hj|Hj]; apply Hsame; [left; by right|by right].
    + intros j Hj Hjl. apply Hdone; [done|]. intros [->|?]%elem_of_cons; done.
  - intros i ls s' Hi Hil (Hn & Hs' & Hsame & Hdone). apply list_relations.list.NoDup_cons in Hn as [Hni Hn].
    destruct (block_in s' i Hs' Hil) as (b & x & _ & _ & _ & Ex).
    assert (infos s !! i = Some x) as Ex0 by (rewrite <- Ex; symmetry; apply Hsame; left; by left).
    eapply run_mono; [by apply (Hstep i x s')|]. cbn. intros _ s'' (h & y & -> & HP).
    pose proof (lookup_lt_Some _ _ _ Ex) as Hlt. split_and!; [done| | |].
    + pose proof (shape_insert s' h i y Hs') as Hsi. by rewrite (sh_unit s' Hs') in Hsi.
    + intros j Hj. cbn. rewrite list_lookup_insert_ne by (intros ->; destruct Hj; congruence). apply Hsame.
      destruct Hj; [left; by right|by right].
    + intros j Hj Hjl. cbn. destruct (decide (j = i)) as [->|Hji].
      * rewrite list_lookup_insert_eq by done. by exists x, y.
      * rewrite list_lookup_insert_ne by done. apply Hdone; [done|]. intros [->|?]%elem_of_cons; done.
  - split_and!; [apply Hu|done|done|]. intros i Hi Hil. destruct Hil. by apply vs_in.
  - cbn. intros _ s' (_ & Hs' & Hsame & Hdone). split_and!; [done|intros i Hi; apply Hsame; by right|].
    intros i Hi. apply Hdone; [done|]. apply not_elem_of_nil.
Qed.
End ssa.
