(* ===== verification/SsaInit.v ===== *)
(** * init_ssa: predecessors, the dominator tree and its sets *)

From S2P Require Import Prelude CMonad Bitset SetInterface BasicBlock DominatorTree Dominance DominanceSpec DominanceLoop DominanceProps Ssa SsaSpec.
#[local] Open Scope Z_scope.

Section init.
Context {B : Type} `{SetLaws B} `{!SetScan B} `{!SetScanLaws B} `{Allocator} (Hm : ∀ k sz, malloc_ok k sz = true).
Context (u : dom_unit B) (vs : list nat) (Hu : dominance_ok u vs).
Context (Hsize : ∀ i b, blocks u !! i = Some b → Z.of_nat (length (predecessors (bb b))) < 2 ^ 32).
#[local] Abbreviation l := (du_list u).
#[local] Abbreviation n := (length (du_list u)).
#[local] Abbreviation entry := (entry_bb u).
#[local] Abbreviation gs := (graph_of u).
#[local] Abbreviation edge := (edge (graph_of u)).
#[local] Abbreviation reach := (reachable edge entry).
#[local] Abbreviation num := (num (blocks u)).
#[local] Abbreviation table := (table (blocks u) vs (doms u)).
#[local] Abbreviation shape := (shape u).
#[local] Abbreviation above := (above entry table).
Implicit Type s : ssa_unit B.

(** The predecessors that are not part of the exception handlers. *)
Definition flow_preds (i : nat) : list nat := filter (.∈ vs) (preds (blocks u) i).

Lemma preds_block i b : blocks u !! i = Some b → preds (blocks u) i = predecessors (bb b).
Proof using. intros E. unfold preds. by rewrite E. Qed.
Lemma preds_in i p : i ∈ l → p ∈ preds (blocks u) i → p ∈ l.
Proof using Hu.
  intros Hi. destruct Hu as [[Hg _] Hn _]. destruct (block_at _ _ _ Hg _ _ _ i (nm_numbered _ _ _ _ _ _ Hn) Hi) as (b & Eb & Eg & _).
  rewrite (preds_block i b Eb). by apply (go_pred _ _ _ Hg i p).
Qed.
Lemma flow_preds_edge i p : i ∈ vs → p ∈ flow_preds i ↔ p ∈ vs ∧ edge p i.
Proof using Hu.
  intros Hi. unfold flow_preds. rewrite list_elem_of_filter. destruct Hu as [[Hg _] Hn _].
  assert (p ∈ vs → p ∈ preds (blocks u) i ↔ edge p i); [|tauto].
  intros Hp. apply (preds_edge gs l entry Hg _ _ _ Hn i p); by apply Hn.
Qed.

(** ** The number of predecessors *)

Lemma count_preds_ok i x ps : ∀ s, shape s → i ∈ vs → infos s !! i = Some x → (∀ p, p ∈ ps → p ∈ l) → 0 <= nr_predecessors_no_eh x →
  nr_predecessors_no_eh x + Z.of_nat (length ps) < 2 ^ 64 →
  run (for_each (λ p, let* eh := bb_is_eh p in
      if (eh : bool) then ret tt else update_info i (λ x, set_nr_preds (u64 (nr_predecessors_no_eh x + 1)) x)) ps)
    (λ _ s', s' = SU (su_heap s) u (<[i := set_nr_preds (nr_predecessors_no_eh x + Z.of_nat (length (filter (.∈ vs) ps))) x]> (infos s))) s.
Proof using Hu.
  revert x. induction ps as [|p ps IH]; intros x s Hs Hi Ex Hl H00 Hb.
  { apply run_ret. rewrite Z.add_0_r, <- (sh_unit u s Hs). destruct s as [h su xs]. cbn in *. f_equal. symmetry. apply list_insert_id. by destruct x. }
  cbn [for_each]. eapply run_seq with (Q' := λ _ s', s' = if decide (p ∈ vs)
    then SU (su_heap s) u (<[i := set_nr_preds (nr_predecessors_no_eh x + 1) x]> (infos s)) else s).
  - apply run_bind. eapply run_bb_is_eh; [done|done|apply Hl; by left|]. rewrite (bool_decide_decide (p ∉ vs)). destruct (decide (p ∈ vs)) as [Hp|Hp].
    + rewrite (decide_False (P := p ∉ vs)) by tauto. eapply run_update_info; [done|]. rewrite (sh_unit u s Hs).
      cbn [length] in Hb. by rewrite u64_id by clia.
    + by rewrite (decide_True (P := p ∉ vs)) by done.
  - intros _ s' ->. rewrite filter_cons. cbn [length] in Hb. destruct (decide (p ∈ vs)) as [Hp|Hp].
    + eapply run_mono; [eapply (IH (set_nr_preds (nr_predecessors_no_eh x + 1) x))|].
      * pose proof (shape_insert u s (su_heap s) i (set_nr_preds (nr_predecessors_no_eh x + 1) x) Hs) as Hsi. by rewrite (sh_unit u s Hs) in Hsi.
      * done.
      * cbn. apply list_lookup_insert_eq. by eapply lookup_lt_Some.
      * intros q Hq. apply Hl. by right.
      * cbn. lia.
      * cbn. lia.
      * cbn. intros _ s' ->. rewrite list_insert_insert_eq. unfold set_nr_preds. cbn -[Z.of_nat].
        by replace (nr_predecessors_no_eh x + 1 + Z.of_nat (length (filter (.∈ vs) ps)))
          with (nr_predecessors_no_eh x + Z.of_nat (S (length (filter (.∈ vs) ps)))) by lia.
    + apply IH; [done|done|done|intros q Hq; apply Hl; by right|lia|lia].
Qed.

Definition zero_counts s : Prop := ∀ i x, infos s !! i = Some x → nr_predecessors_no_eh x = 0 ∧ nr_dom_successors x = 0 ∧ natural_loop x = None.

Lemma compute_nr_predecessors_no_eh_ok s : shape s → zero_counts s →
  run compute_nr_predecessors_no_eh (λ _ s', shape s' ∧ (∀ i, i ∉ vs → infos s' !! i = infos s !! i) ∧
    ∀ i, i ∈ vs → ∃ x, infos s !! i = Some x ∧ infos s' !! i = Some (set_nr_preds (Z.of_nat (length (flow_preds i))) x)) s.
Proof using Hu Hsize.
  intros Hs Hz. eapply run_mono; [eapply (run_each_block u vs Hu _
    (λ i x y, y = set_nr_preds (Z.of_nat (length (flow_preds i))) x)); [done|]|].
  - intros i x s' Hs' Hi Ex Ex'. destruct (block_in u vs Hu s' i Hs' (vs_in u vs Hu i Hi)) as (b & _ & Eb & _ & _ & _).
    apply run_bind. eapply run_block_of; [done|]. rewrite (sh_unit u s' Hs') in Eb. destruct (Hz i x Ex) as [E0 _].
    eapply run_mono; [eapply (count_preds_ok i x); try done|].
    + intros p Hp. apply (preds_in i); [by apply (vs_in u vs Hu)|]. by rewrite (preds_block i b Eb).
    + lia.
    + specialize (Hsize i b Eb). lia.
    + cbn. intros _ s'' ->. eexists _, _. split; [done|]. rewrite E0. unfold flow_preds. by rewrite (preds_block i b Eb).
  - cbn. intros _ s' (? & ? & Hd). split_and!; [done|done|]. intros i Hi. destruct (Hd i Hi) as (x & y & ? & ? & ->). eauto.
Qed.

(** ** The places among the predecessors *)

Lemma find_position_ok i ps : ∀ k s, shape s → i ∈ vs → (∀ p, p ∈ ps → p ∈ l) → 0 <= k → k + Z.of_nat (length ps) < 2 ^ 64 →
  run (find_position i ps k) (λ r s', s' = s ∧
    match r with
    | Some v => ∃ j : nat, v = k + Z.of_nat j ∧ filter (.∈ vs) ps !! j = Some i ∧ ∀ j', (j' < j)%nat → filter (.∈ vs) ps !! j' ≠ Some i
    | None => i ∉ filter (.∈ vs) ps
    end) s.
Proof using Hu.
  induction ps as [|p ps IH]; intros k s Hs Hi Hl Hk Hb; [apply run_ret; split; [done|]; apply not_elem_of_nil|].
  cbn [find_position]. apply run_bind. eapply run_bb_is_eh; [done|done|apply Hl; by left|]. cbn [length] in Hb. rewrite filter_cons.
  assert (∀ q, q ∈ ps → q ∈ l) as Hl' by (intros q Hq; apply Hl; by right).
  destruct (decide (p ∈ vs)) as [Hp|Hp]; [rewrite bool_decide_false by tauto|rewrite bool_decide_true by done; apply IH; [done..|lia]].
  destruct (decide (p = i)) as [->|Hne].
  - apply run_ret. split; [done|]. exists 0%nat. split_and!; [lia|done|lia].
  - rewrite u64_id by clia. eapply run_mono; [apply IH; [done..|lia|lia]|]. cbn. intros [v|] s' [-> Hr]; split; try done.
    + destruct Hr as (j & -> & Hj & Hmin). exists (S j). split_and!; [lia|done|]. intros [|j'] Hj'; [cbn; congruence|]. apply Hmin. lia.
    + intros [->|?]%elem_of_cons; done.
Qed.

(** The first place of a block among the predecessors of a successor. *)
Definition position_of (i j : nat) (o : option Z) : Prop :=
  ∃ k : nat, o = Some (Z.of_nat k) ∧ flow_preds j !! k = Some i ∧ ∀ k', (k' < k)%nat → flow_preds j !! k' ≠ Some i.

Lemma positions_loop_ok i x rest : ∀ s ps1, shape s → i ∈ vs → (∀ j, j ∈ rest → j ∈ vs ∧ edge i j) →
  infos s !! i = Some (set_positions (ps1 ++ replicate (length rest) None) x) →
  run (positions_loop i rest (length ps1))
    (λ _ s', ∃ ps2, s' = SU (su_heap s) u (<[i := set_positions (ps1 ++ ps2) x]> (infos s)) ∧ Forall2 (position_of i) rest ps2) s.
Proof using Hu Hsize.
  induction rest as [|j rest IH]; intros s ps1 Hs Hi Hr Ex.
  { apply run_ret. exists []. split; [|constructor]. rewrite <- (sh_unit u s Hs). destruct s as [h su xs]. cbn in *.
    f_equal. symmetry. by apply list_insert_id. }
  destruct (Hr j ltac:(by left)) as [Hj He]. pose proof (vs_in u vs Hu j Hj) as Hjl.
  destruct (block_in u vs Hu s j Hs Hjl) as (b & _ & Eb & _). cbn [positions_loop]. apply run_bind.
  eapply run_block_of; [done|]. rewrite (sh_unit u s Hs) in Eb. apply run_bind. eapply run_mono; [eapply find_position_ok; try done|].
  - intros p Hp. apply (preds_in j); [done|]. by rewrite (preds_block j b Eb).
  - specialize (Hsize j b Eb). lia.
  - cbn. intros r s' [-> Hres]. assert (i ∈ flow_preds j) as Hin by (by apply flow_preds_edge).
    unfold flow_preds in Hin. rewrite (preds_block j b Eb) in Hin. destruct r as [v|]; [|done].
    destruct Hres as (k & -> & Hk & Hmin). rewrite Z.add_0_l.
    assert (position_of i j (Some (Z.of_nat k))) as Hpos.
    { exists k. unfold flow_preds. by rewrite (preds_block j b Eb). }
    apply run_bind. eapply run_update_info; [done|].
    assert (set_positions (<[length ps1 := Some (Z.of_nat k)]> (positions_as_predecessor
      (set_positions (ps1 ++ replicate (length (j :: rest)) None) x))) (set_positions (ps1 ++ replicate (length (j :: rest)) None) x)
      = set_positions ((ps1 ++ [Some (Z.of_nat k)]) ++ replicate (length rest) None) x) as Ey.
    { cbn. unfold set_positions. cbn. f_equal. rewrite insert_app_r_alt by lia. rewrite Nat.sub_diag. cbn. by rewrite <- app_assoc. }
    cbv beta. rewrite Ey. replace (S (length ps1)) with (length (ps1 ++ [Some (Z.of_nat k)])) by (rewrite length_app; cbn; lia).
    eapply run_mono; [apply IH|].
    + by apply shape_insert.
    + done.
    + intros j' Hj'. apply Hr. by right.
    + cbn. apply list_lookup_insert_eq. by eapply lookup_lt_Some.
    + cbn. intros _ s' (ps2 & -> & HF). exists (Some (Z.of_nat k) :: ps2). split; [|by constructor].
      rewrite list_insert_insert_eq. by rewrite <- app_assoc.
Qed.

Lemma succs_reach i b j : i ∈ vs → blocks u !! i = Some b → j ∈ successors (bb b) → j ∈ vs ∧ edge i j.
Proof using Hu.
  intros Hi Eb Hj. assert (edge i j) as He.
  { unfold DominanceSpec.edge, succs, graph_of. by rewrite list_lookup_fmap, Eb. }
  split; [|done]. apply (reach_vs u vs Hu). apply (reach_vs u vs Hu) in Hi. by eapply reachable_edge.
Qed.

Lemma compute_positions_ok s : shape s →
  run compute_positions_as_predecessor (λ _ s', shape s' ∧ (∀ i, i ∉ vs → infos s' !! i = infos s !! i) ∧
    ∀ i, i ∈ vs → ∃ x ps, infos s !! i = Some x ∧ infos s' !! i = Some (set_positions ps x) ∧
      Forall2 (position_of i) (succs gs i) ps) s.
Proof using Hu Hsize Hm.
  intros Hs. eapply run_mono; [eapply (run_each_block u vs Hu _
    (λ i x y, ∃ ps, y = set_positions ps x ∧ Forall2 (position_of i) (succs gs i) ps)); [done|]|].
  - intros i x s' Hs' Hi _ Ex. destruct (block_in u vs Hu s' i Hs' (vs_in u vs Hu i Hi)) as (b & _ & Eb & Eg & _ & _).
    apply run_bind. eapply run_block_of; [done|]. apply run_bind, run_request; [done|]. intros h. cbn. apply run_bind.
    eapply run_update_info; [done|]. rewrite (sh_unit u s' Hs') in *. cbn.
    eapply run_mono; [apply (positions_loop_ok i x (successors (bb b)) _ [])|].
    + pose proof (shape_insert u s' h i (set_positions (replicate (length (successors (bb b))) None) x) Hs') as Hsi.
      by rewrite (sh_unit u s' Hs') in Hsi.
    + done.
    + intros j Hj. by eapply succs_reach.
    + cbn. apply list_lookup_insert_eq. by eapply lookup_lt_Some.
    + cbn. intros _ s'' (ps & -> & HF). eexists _, _. rewrite list_insert_insert_eq. split; [done|]. exists ps. split; [done|].
      unfold succs. by rewrite Eg.
  - cbn. intros _ s' (? & ? & Hd). split_and!; [done|done|]. intros i Hi. destruct (Hd i Hi) as (x & y & ? & ? & ps & -> & ?). eauto 10.
Qed.

(** ** The sets of dominators *)

#[local] Abbreviation dom a i := (dominates edge entry a i).
#[local] Abbreviation sdom a i := (strictly_dominates edge entry a i).

Lemma table_parent j : j ∈ vs → j ≠ entry → ∃ c, table j = Some c ∧ c ∈ vs ∧ (num c < num j)%nat ∧ immediate_dominator edge entry c j.
Proof using Hu.
  intros Hj%(reach_vs u vs Hu) Hne. destruct (do_doms u vs Hu) as [_ Hfin]. pose proof Hfin as [Hok Hsome _].
  destruct (Hsome j Hj) as [c Ec]. destruct (tk_parent _ _ _ _ Hok j c Hj Hne Ec) as (Hc & Hlt & _).
  exists c. split_and!; [done|by apply (reach_vs u vs Hu)|done|]. by eapply dominator_table_immediate.
Qed.
Lemma above_dom a j : j ∈ vs → above a j ↔ dom a j.
Proof using Hu. intros Hj%(reach_vs u vs Hu). destruct (do_doms u vs Hu) as [_ Hfin]. by apply Hfin. Qed.

(** Strict dominance through the parent. *)
Lemma sdom_parent a j c : j ∈ vs → j ≠ entry → table j = Some c → c ∈ vs → sdom a j ↔ dom a c.
Proof using Hu.
  intros Hj Hne Ec Hc. destruct (table_parent j Hj Hne) as (c' & ? & _ & _ & [Hcd Hlast]). simplify_eq. split; [apply Hlast|].
  intros Ha. split; [by eapply dominates_trans; [|apply Hcd]|]. intros ->. destruct Hcd as [Hcj Hneq]. apply Hneq.
  apply (reach_vs u vs Hu) in Hj. by eapply dominates_antisym.
Qed.

(** [d] has got the numbers of the blocks in [P]. *)
Definition marked (d : B) (P : nat → Prop) : Prop :=
  bs_wf (Z.of_nat n) d ∧ ∀ a, a ∈ vs → bs_mem d (Z.of_nat (num a)) = true ↔ P a.

Lemma marked_add d P j : marked d P → j ∈ vs → ∃ d', bs_set d (Z.of_nat (num j)) = Some d' ∧ marked d' (λ a, a = j ∨ P a).
Proof using Hu H0.
  intros [Hwf HP] Hj. pose proof (num_lt u vs Hu j Hj). destruct (bs_set_law _ d (Z.of_nat (num j)) Hwf) as (d' & E & Hwf' & Hmem); [lia|].
  exists d'. split; [done|]. split; [done|]. intros a Ha. rewrite Hmem, orb_true_iff, bool_decide_eq_true, HP by (done || lia).
  apply or_iff_compat_r. split; [|by intros ->]. intros E'. apply (num_injective u vs Hu); [done|done|lia].
Qed.

Lemma mark_dominators_ok i x fuel : ∀ s j d P, shape s → j ∈ vs → (num j < fuel)%nat → marked d P →
  infos s !! i = Some (set_dominators (Some d) x) →
  run (mark_dominators fuel i (Some j)) (λ _ s', ∃ d', s' = SU (su_heap s) u (<[i := set_dominators (Some d') x]> (infos s)) ∧
    marked d' (λ a, (dom a j ∧ a ≠ entry) ∨ P a)) s.
Proof using Hu H0.
  induction fuel as [|fuel IH]; intros s j d P Hs Hj Hfuel Hd Ex; [lia|]. cbn [mark_dominators].
  apply run_bind, run_get. rewrite (sh_unit u s Hs). destruct (decide (Some j = Some entry)) as [[= ->]|Hne].
  { apply run_ret. exists d. split.
    - rewrite <- (sh_unit u s Hs). destruct s as [h su xs]. cbn in *. f_equal. symmetry. by apply list_insert_id.
    - destruct Hd as [Hwf HP]. split; [done|]. intros a Ha. rewrite HP by done. split; [by right|].
      intros [[Had Hae]|?]; [|done]. by apply dominates_entry_inv in Had. }
  assert (j ≠ entry) as Hje by congruence. destruct (table_parent j Hj Hje) as (c & Ec & Hc & Hlt & _).
  apply run_bind. eapply run_try; [done|]. destruct (block_in u vs Hu s j Hs (vs_in u vs Hu j Hj)) as (b & _ & Eb & _ & Ed & _).
  apply run_bind. eapply run_block_of; [done|]. apply run_bind. eapply run_info_of; [done|]. cbn. rewrite Ed.
  destruct (marked_add d P j Hd Hj) as (d' & Eset & Hd'). apply run_bind. eapply run_try; [done|].
  apply run_bind. eapply run_update_info; [done|]. apply run_bind. eapply (run_doms_at u vs Hu _ j); [by apply shape_insert|done|].
  rewrite Ec. eapply run_mono; [eapply (IH _ c d')|].
  - by apply shape_insert.
  - done.
  - lia.
  - done.
  - cbn. rewrite list_lookup_insert_eq by (by eapply lookup_lt_Some). done.
  - cbn. intros _ s' (d2 & -> & [Hwf Hmem]). exists d2. rewrite list_insert_insert_eq. split; [done|]. split; [done|].
    intros a Ha. rewrite Hmem by done. rewrite <- (sdom_parent a j c Hj Hje Ec Hc). unfold strictly_dominates.
    split; [|intros [[Hda Hae]|?]; [|by right; right]; destruct (decide (a = j)); [right; by left|by left]].
    intros [[[? ?] ?]|[->|?]]; [by left|left; split; [apply dominates_refl|done]|by right].
Qed.

Lemma compute_dominators_ok s : shape s →
  run compute_dominators (λ _ s', shape s' ∧ (∀ i, i ∉ vs → infos s' !! i = infos s !! i) ∧
    ∀ i, i ∈ vs → ∃ x d, infos s !! i = Some x ∧ infos s' !! i = Some (set_dominators (Some d) x) ∧ marked d (λ a, sdom a i)) s.
Proof using Hu H0 Hm.
  intros Hs. pose proof (do_unit u vs Hu) as Hok. pose proof (unit_entry u Hok) as Hpos. destruct Hok as [Hg Hnr]. pose proof (go_small _ _ _ Hg) as Hsm.
  assert (entry ∈ vs) as Hent by (apply (reach_vs u vs Hu), reachable_entry).
  eapply run_mono; [eapply (run_each_block u vs Hu _ (λ i x y, ∃ d, y = set_dominators (Some d) x ∧ marked d (λ a, sdom a i))); [done|]|].
  2:{ cbn. intros _ s' (? & ? & Hd). split_and!; [done|done|]. intros i Hi. destruct (Hd i Hi) as (x & y & ? & ? & d & -> & ?). eauto 10. }
  intros i x s' Hs' Hi _ Ex. pose proof (sh_unit u s' Hs') as Eu. pose proof (lookup_lt_Some _ _ _ Ex) as Hlt.
  apply run_bind, run_get. rewrite Eu. unfold nr_bblocks. rewrite Hnr, Nat2Z.id. apply run_bind, run_alloc; [done|lia|]. intros h d0 Hwf0 Hmem0.
  rewrite Eu. apply run_bind. eapply run_update_info; [done|]. cbn [su_heap su_unit infos]. set (s1 := SU h u (<[i := set_dominators (Some d0) x]> (infos s'))).
  assert (shape s1) as Hs1 by (pose proof (shape_insert u s' h i (set_dominators (Some d0) x) Hs') as Hsi; by rewrite Eu in Hsi).
  destruct (block_in u vs Hu s1 i Hs1 (vs_in u vs Hu i Hi)) as (b & _ & Eb & _ & Ed & _).
  apply run_bind. eapply run_block_of; [done|]. rewrite Ed. apply run_bind. eapply (run_doms_at u vs Hu _ i); [done|done|].
  assert (infos s1 !! i = Some (set_dominators (Some d0) x)) as Ex1 by (by apply list_lookup_insert_eq).
  assert (marked d0 (λ _, False)) as Hd0 by (split; [done|]; intros a Ha; rewrite Hmem0; done).
  destruct (decide (i = entry)) as [->|Hie].
  - destruct Hu as [_ _ [_ Hfin]]. rewrite (tk_entry _ _ _ _ (dt_ok _ _ _ _ Hfin)). apply run_bind. cbn [mark_dominators].
    apply run_bind, run_get. cbn. rewrite decide_True by done. apply run_ret, run_bind, run_get. cbn. rewrite decide_True by done. apply run_ret.
    exists h, (set_dominators (Some d0) x). split; [done|]. exists d0. split; [done|]. split; [done|]. intros a Ha. rewrite (proj2 Hd0 a Ha).
    split; [done|]. intros [Had Hae]. by apply dominates_entry_inv in Had.
  - destruct (table_parent i Hi Hie) as (c & Ec & Hc & _). rewrite Ec. apply run_bind. pose proof (num_lt u vs Hu c Hc).
    eapply run_mono; [eapply (mark_dominators_ok i x _ s1 c d0); [done|done|lia|done|done]|]. cbn. intros _ s2 (d1 & -> & Hd1).
    apply run_bind, run_get. cbn. rewrite decide_False by done. set (s2 := SU h u _).
    assert (shape s2) as Hs2 by (pose proof (shape_insert u s1 h i (set_dominators (Some d1) x) Hs1); done).
    destruct (block_in u vs Hu s2 entry Hs2 (vs_in u vs Hu _ Hent)) as (eb & _ & Eeb & _ & Eed & _).
    apply run_bind. eapply run_block_of; [done|]. rewrite Eed.
    assert (infos s2 !! i = Some (set_dominators (Some d1) x)) as Ex2.
    { apply list_lookup_insert_eq. by rewrite length_insert. }
    apply run_bind. eapply run_info_of; [done|]. destruct (marked_add d1 _ entry Hd1 Hent) as (d2 & Eset & [Hwf2 Hd2]).
    apply run_bind. cbn. eapply run_try; [done|]. eapply run_update_info; [done|].
    exists h, (set_dominators (Some d2) x). split; [cbn; by rewrite !list_insert_insert_eq|]. exists d2. split; [done|]. split; [done|].
    intros a Ha. rewrite Hd2 by done. rewrite (sdom_parent a i c Hi Hie Ec Hc). split.
    + intros [->|[[? _]|[]]]; [apply dominates_entry|done].
    + intros ?. destruct (decide (a = entry)); [by left|right; left; done].
Qed.
End init.
