(* ===== verification/SsaTree.v ===== *)
(** * init_ssa: the successors along the dominator tree *)

From S2P Require Import Prelude CMonad Bitset SetInterface BasicBlock DominatorTree Dominance DominanceSpec DominanceLoop DominanceProps Ssa SsaSpec SsaInit.
#[local] Open Scope Z_scope.

Section tree.
Context {B : Type} `{SetLaws B} `{!SetScan B} `{!SetScanLaws B} `{Allocator} (Hm : ∀ k sz, malloc_ok k sz = true).
Context (u : dom_unit B) (vs : list nat) (Hu : dominance_ok u vs).
#[local] Abbreviation l := (du_list u).
#[local] Abbreviation n := (length (du_list u)).
#[local] Abbreviation entry := (entry_bb u).
#[local] Abbreviation num := (num (blocks u)).
#[local] Abbreviation table := (table (blocks u) vs (doms u)).
#[local] Abbreviation shape := (shape u).
Implicit Type s : ssa_unit B.

(** The blocks of [ls] whose immediate dominator is [d]. *)
Definition children (d : nat) (ls : list nat) : list nat := filter (λ b, b ∈ vs ∧ b ≠ entry ∧ table b = Some d) ls.
#[local] Abbreviation count d ls := (length (children d ls)).

Lemma children_app d l1 l2 : children d (l1 ++ l2) = children d l1 ++ children d l2.
Proof using. apply list_basics.list.filter_app. Qed.
Lemma children_one d b : children d [b] = if decide (b ∈ vs ∧ b ≠ entry ∧ table b = Some d) then [b] else [].
Proof using. unfold children. rewrite filter_cons, filter_nil. done. Qed.
Lemma children_other d ls : d ∉ vs → children d ls = [].
Proof using Hu.
  intros Hd. unfold children. induction ls as [|b ls IH]; [done|]. rewrite filter_cons, IH. case_decide as Hb; [|done].
  destruct Hb as (Hb & Hbe & E). destruct (table_parent u vs Hu b Hb Hbe) as (c & ? & Hc & _). by simplify_eq.
Qed.
Lemma count_le d l1 l2 : l1 ++ l2 = l → (count d l1 <= count d l <= n)%nat.
Proof using. intros <-. rewrite children_app, length_app. pose proof (length_filter (λ b, b ∈ vs ∧ b ≠ entry ∧ table b = Some d) (l1 ++ l2)). unfold children in *.
  rewrite list_basics.list.filter_app, !length_app in *. lia. Qed.

(** The fields of every block in terms of what they were in [s0]. *)
Record infos_are (s0 : ssa_unit B) (g : nat → ssa_info B → ssa_info B) s : Prop := {
  ia_shape : shape s;
  ia_info d : infos s !! d = g d <$> infos s0 !! d;
}.

Lemma infos_are_ext s0 g g' s : infos_are s0 g s → (∀ d x, infos s0 !! d = Some x → g d x = g' d x) → infos_are s0 g' s.
Proof using. intros [Hs Hi] Hg. constructor; [done|]. intros d. rewrite Hi. destruct (infos s0 !! d) as [x|] eqn:E; [|done]. cbn. by rewrite Hg. Qed.

Lemma infos_are_heap s0 g s h : infos_are s0 g s → infos_are s0 g (SU h (su_unit s) (infos s)).
Proof using. intros [Hs Hi]. constructor; [by apply shape_heap|done]. Qed.

Lemma run_update_are s0 g s i f g' (Q : () → ssa_unit B → Prop) : infos_are s0 g s → (i < length (blocks u))%nat →
  (∀ d x, infos s0 !! d = Some x → g' d x = if decide (d = i) then f (g d x) else g d x) →
  (∀ s', infos_are s0 g' s' → Q tt s') → run (update_info i f) Q s.
Proof using.
  intros [Hs Hi] Hlt Hg HQ. rewrite <- (sh_length u s Hs) in Hlt. destruct (lookup_lt_is_Some_2 _ _ Hlt) as [y Ey].
  eapply run_update_info; [done|]. apply HQ. constructor; [by apply shape_insert|]. intros d. cbn. rewrite Hi in Ey.
  destruct (infos s0 !! i) as [x|] eqn:Ex; [|done]. cbn in Ey. simplify_eq. destruct (decide (d = i)) as [->|Hd].
  - rewrite list_lookup_insert_eq by done. rewrite Ex. cbn. rewrite (Hg i x Ex). by rewrite decide_True.
  - rewrite list_lookup_insert_ne, Hi by done. destruct (infos s0 !! d) as [z|] eqn:Ez; [|done]. cbn. by rewrite (Hg d z Ez), decide_False.
Qed.

Lemma vs_lt i : i ∈ l → (i < length (blocks u))%nat.
Proof using Hu. intros Hi. destruct (do_unit u vs Hu) as [Hg _]. apply (go_in _ _ _ Hg) in Hi. unfold graph_of in Hi. by rewrite length_fmap in Hi. Qed.

(** What the three loops do with a block: nothing, or something to its parent. *)
Lemma block_parent s i : shape s → i ∈ l → ∃ b, blocks (su_unit s) !! i = Some b ∧ dfn b = Z.of_nat (num i) ∧
  ((dfn b = 0 ∧ ∀ d, children d [i] = []) ∨
   (dfn b ≠ 0 ∧ i ∈ vs ∧ ∃ d, table i = Some d ∧ d ∈ vs ∧ ∀ d', children d' [i] = if decide (d' = d) then [i] else [])).
Proof using Hu.
  intros Hs Hi. destruct (block_in u vs Hu s i Hs Hi) as (b & _ & Eb & _ & Ed & _). exists b. split_and!; [done|done|].
  assert (dfn b = 0 ↔ i ∉ vs ∨ i = entry) as Hz.
  { destruct Hu as [_ Hn _]. pose proof (nm_numbered _ _ _ _ _ _ Hn) as Hnb. pose proof (nb_found _ _ _ _ _ _ i Hnb) as Hf.
    unfold dfn_at, dfn_of in Hf. rewrite (sh_unit u s Hs) in Eb. rewrite Eb in Hf. cbn in Hf. split.
    - destruct (decide (i ∈ vs)) as [Hiv|]; [|by left]. intros E. right. apply Hf in Hiv as [?|?]; done.
    - intros [Hni| ->]; [destruct (decide (dfn b = 0)); [done|]; destruct Hni; apply Hf; by left|].
      pose proof (num_entry _ _ _ _ _ _ Hn). lia. }
  destruct (decide (dfn b = 0)) as [E0|E0]; [left|right]; split; try done.
  - intros d. rewrite children_one. rewrite decide_False; [done|]. apply Hz in E0. tauto.
  - assert (i ∈ vs ∧ i ≠ entry) as [Hiv Hie] by (destruct (decide (i ∈ vs)), (decide (i = entry)); tauto). split; [done|].
    destruct (table_parent u vs Hu i Hiv Hie) as (d & Et & Hd & _). exists d. split_and!; [done|done|]. intros d'. rewrite children_one.
    destruct (decide (d' = d)) as [->|Hne]; [by rewrite decide_True|]. rewrite decide_False; [done|]. intros (_ & _ & ?). congruence.
Qed.

Section loops.
Context (s0 : ssa_unit B) (Hz : ∀ i x, infos s0 !! i = Some x → nr_dom_successors x = 0 ∧ dom_successors x = []).
#[local] Abbreviation info1 ls := (λ d x, set_dom_successors [] (Z.of_nat (count d ls)) x).

Lemma count_dom_successors_ok ls : ∀ pre s, pre ++ ls = l → infos_are s0 (info1 pre) s →
  run (for_each count_dom_successor ls) (λ _ s', infos_are s0 (info1 l) s') s.
Proof using H H0 H1 Hm Hz SetScan0 SetScanLaws0 Hu.
  induction ls as [|i ls IH]; intros pre s El Hs; [apply run_ret; by rewrite app_nil_r in El; subst pre|].
  cbn [for_each]. assert (i ∈ l) as Hi by (rewrite <- El; set_solver).
  assert ((pre ++ [i]) ++ ls = l) as El' by (by rewrite <- app_assoc).
  eapply run_seq with (Q' := λ _ s', infos_are s0 (info1 (pre ++ [i])) s'); [|intros _ s'; by apply IH].
  destruct (block_parent s i (ia_shape _ _ _ Hs) Hi) as (b & Eb & Ed & Hcase). unfold count_dom_successor.
  apply run_bind. eapply run_block_of; [done|]. destruct Hcase as [[E0 Hc]|(E0 & Hiv & d & Et & Hd & Hc)].
  - rewrite decide_True by done. apply run_ret. eapply infos_are_ext; [done|]. intros d x _. cbn. by rewrite children_app, Hc, app_nil_r.
  - rewrite decide_False by done. apply run_bind. rewrite Ed. eapply run_doms_at; [done|by eapply ia_shape|done|]. rewrite Et.
    eapply run_update_are; [done|by apply vs_lt, (vs_in u vs Hu)| |by intros ? ?].
    intros d' x _. cbn. rewrite children_app, Hc, length_app. case_decide as Hdd; [subst d'|cbn; by rewrite Nat.add_0_r].
    unfold set_dom_successors. cbn -[Z.of_nat]. do 2 f_equal. pose proof (count_le d pre (i :: ls) El) as Hle.
    pose proof (go_small _ _ _ (uo_graph _ (do_unit u vs Hu))). rewrite u64_id by clia. lia.
Qed.

#[local] Abbreviation info2 ls := (λ d x, set_dom_successors (if decide (d ∈ ls) then replicate (count d l) None else []) (Z.of_nat (count d l)) x).

Lemma alloc_dom_successors_ok ls : ∀ pre s, pre ++ ls = l → infos_are s0 (info2 pre) s →
  run (alloc_dom_successors ls (Z.of_nat (length pre)) (replicate (length pre) (Some 0) ++ replicate (length ls) None))
    (λ r s', r = replicate n (Some 0) ∧ infos_are s0 (info2 l) s') s.
Proof using H H0 Hz SetScan0 SetScanLaws0 Hu Hm.
  induction ls as [|i ls IH]; intros pre s El Hs.
  { apply run_ret. rewrite app_nil_r in El |- *. by subst pre. }
  cbn [alloc_dom_successors]. assert (i ∈ l) as Hi by (rewrite <- El; set_solver). pose proof (ia_shape _ _ _ Hs) as Hsh.
  assert ((pre ++ [i]) ++ ls = l) as El' by (by rewrite <- app_assoc).
  destruct (block_in u vs Hu s i Hsh Hi) as (b & y & Eb & _ & _ & Ey). pose proof Ey as Ey0. rewrite (ia_info _ _ _ Hs) in Ey0.
  destruct (infos s0 !! i) as [x|] eqn:Ex; [|done]. cbn in Ey0. injection Ey0 as <-.
  apply run_bind. eapply run_try.
  { unfold array_set. rewrite length_app, !length_replicate, decide_True by (cbn; lia). done. }
  assert (<[Z.to_nat (Z.of_nat (length pre)) := Some 0]> (replicate (length pre) (Some 0) ++ replicate (length (i :: ls)) None)
    = replicate (length (pre ++ [i])) (Some 0) ++ replicate (length ls) None) as ->.
  { rewrite Nat2Z.id, insert_app_r_alt by (rewrite length_replicate; lia). rewrite length_replicate, Nat.sub_diag, length_app. cbn.
    by rewrite replicate_add, <- app_assoc. }
  replace (Z.of_nat (length pre) + 1) with (Z.of_nat (length (pre ++ [i]))) by (rewrite length_app; cbn; lia).
  apply run_bind. eapply run_bb_is_eh; [done|done|done|]. apply run_bind. eapply run_info_of; [done|].
  cbn [nr_dom_successors set_dom_successors].
  assert (count i l = 0%nat ∨ i ∈ vs) as Hcv by (destruct (decide (i ∈ vs)); [by right|left; by rewrite children_other]).
  destruct (bool_decide (i ∉ vs) || bool_decide (Z.of_nat (count i l) = 0)) eqn:Ec.
  - apply (IH (pre ++ [i])); [done|]. eapply infos_are_ext; [done|]. intros d z _. cbn.
    assert (count i l = 0%nat) as E0.
    { apply orb_true_iff in Ec as [?%bool_decide_eq_true|?%bool_decide_eq_true]; [by destruct Hcv|lia]. }
    destruct (decide (d = i)) as [->|Hd].
    + rewrite E0, (decide_True (P := i ∈ pre ++ [i])) by set_solver. by case_decide.
    + destruct (decide (d ∈ pre)); [rewrite decide_True by set_solver|rewrite decide_False by set_solver]; done.
  - apply run_bind, run_request; [done|]. intros h. cbn [negb]. apply run_bind.
    eapply run_update_are; [by apply infos_are_heap|by apply vs_lt| |intros s' Hs'; by apply (IH (pre ++ [i]))].
    intros d z _. cbn. destruct (decide (d = i)) as [->|Hd].
    + rewrite (decide_True (P := i ∈ pre ++ [i])) by set_solver. unfold set_dom_successors. cbn. by rewrite Nat2Z.id.
    + destruct (decide (d ∈ pre)); [rewrite decide_True by set_solver|rewrite decide_False by set_solver]; done.
Qed.

#[local] Abbreviation info3 ls := (λ d x, set_dom_successors ((Some <$> children d ls) ++ replicate (count d l - count d ls) None) (Z.of_nat (count d l)) x).

Lemma fill_dom_successors_ok ls : ∀ pre positions s, pre ++ ls = l → infos_are s0 (info3 pre) s → length positions = n →
  (∀ d, d ∈ vs → positions !! num d = Some (Some (Z.of_nat (count d pre)))) →
  run (fill_dom_successors ls positions) (λ _ s', infos_are s0 (info3 l) s') s.
Proof using H H0 H1 Hm Hz SetScan0 SetScanLaws0 Hu.
  induction ls as [|i ls IH]; intros pre positions s El Hs Hlp Hpos; [apply run_ret; by rewrite app_nil_r in El; subst pre|].
  cbn [fill_dom_successors]. assert (i ∈ l) as Hi by (rewrite <- El; set_solver). pose proof (ia_shape _ _ _ Hs) as Hsh.
  assert ((pre ++ [i]) ++ ls = l) as El' by (by rewrite <- app_assoc).
  destruct (block_parent s i Hsh Hi) as (b & Eb & Ed & Hcase). apply run_bind. eapply run_block_of; [done|].
  destruct Hcase as [[E0 Hc]|(E0 & Hiv & d & Et & Hd & Hc)].
  { rewrite decide_True by done. apply (IH (pre ++ [i])); [done| |done|].
    - eapply infos_are_ext; [done|]. intros d x _. cbn. by rewrite children_app, Hc, app_nil_r.
    - intros d Hd. by rewrite children_app, Hc, app_nil_r, Hpos. }
  rewrite decide_False by done. apply run_bind. rewrite Ed. eapply run_doms_at; [done|done|done|]. rewrite Et.
  destruct (block_in u vs Hu s d Hsh (vs_in u vs Hu d Hd)) as (db & y & Edb & _ & Edd & Ey).
  pose proof Ey as Ey0. rewrite (ia_info _ _ _ Hs) in Ey0. destruct (infos s0 !! d) as [x|] eqn:Ex; [|done]. cbn in Ey0. injection Ey0 as <-.
  pose proof (num_lt u vs Hu d Hd) as Hnd. pose proof (count_le d (pre ++ [i]) ls El') as Hle. rewrite children_app, Hc, decide_True, length_app in Hle by done.
  cbn [length] in Hle. pose proof (go_small _ _ _ (uo_graph _ (do_unit u vs Hu))).
  apply run_bind. eapply run_block_of; [done|]. rewrite Edd. apply run_bind. eapply run_try.
  { unfold array_get. rewrite decide_True by lia. rewrite Nat2Z.id, (Hpos d Hd). done. }
  apply run_bind. eapply run_info_of; [done|]. cbn [dom_successors nr_dom_successors set_dom_successors]. apply run_bind. eapply run_try.
  { unfold array_set. rewrite length_app, length_fmap, length_replicate, decide_True by lia. done. }
  assert (<[Z.to_nat (Z.of_nat (count d pre)) := Some i]> ((Some <$> children d pre) ++ replicate (count d l - count d pre) None)
    = (Some <$> children d (pre ++ [i])) ++ replicate (count d l - count d (pre ++ [i])) None) as ->.
  { rewrite Nat2Z.id, insert_app_r_alt by (rewrite length_fmap; lia). rewrite length_fmap, Nat.sub_diag, children_app, Hc, decide_True by done.
    rewrite fmap_app, <- app_assoc. f_equal. destruct (count d l - count d pre)%nat as [|m] eqn:Em; [lia|]. cbn. do 2 f_equal.
    rewrite length_app. cbn. lia. }
  apply run_bind. eapply run_update_are with (g' := info3 (pre ++ [i])); [done|by apply vs_lt, (vs_in u vs Hu)| |].
  { intros d' z _. cbn. destruct (decide (d' = d)) as [->|Hdd]; [done|]. by rewrite children_app, Hc, decide_False, app_nil_r by done. }
  intros s' Hs'. apply run_bind. eapply run_try.
  { unfold array_set. rewrite decide_True by lia. done. }
  apply (IH (pre ++ [i])); [done|done|by rewrite length_insert|]. intros d' Hd'. rewrite Nat2Z.id, children_app, Hc.
  destruct (decide (d' = d)) as [->|Hdd].
  - rewrite list_lookup_insert_eq by lia. rewrite length_app. cbn [length]. rewrite u64_id by clia. do 2 f_equal. lia.
  - rewrite list_lookup_insert_ne, app_nil_r by (intros E; apply Hdd; symmetry; by apply (num_injective u vs Hu)). auto.
Qed.
End loops.

Lemma compute_dom_successors_ok s : shape s → (∀ i x, infos s !! i = Some x → nr_dom_successors x = 0 ∧ dom_successors x = []) →
  run compute_dom_successors (λ _ s', infos_are s (λ d x, set_dom_successors (Some <$> children d l) (Z.of_nat (count d l)) x) s') s.
Proof using H H0 SetScan0 SetScanLaws0 Hu Hm.
  intros Hs Hz. destruct (do_unit u vs Hu) as [Hg Hnr]. unfold compute_dom_successors. apply run_bind, run_get. apply run_bind, run_get.
  rewrite (sh_unit u s Hs). unfold nr_bblocks. rewrite Hnr, Nat2Z.id. apply run_bind, run_request; [done|]. intros h. rewrite (sh_unit u s Hs). cbn [negb].
  apply run_bind. eapply run_mono; [apply (count_dom_successors_ok s Hz l [])|]; [done| |].
  { constructor; [pose proof (shape_heap u s h Hs) as Hsh; by rewrite (sh_unit u s Hs) in Hsh|]. intros d. cbn.
    destruct (infos s !! d) as [x|] eqn:Ex; [|done]. cbn. destruct (Hz d x Ex) as [E1 E2]. unfold set_dom_successors. by destruct x; cbn in *; subst. }
  cbv beta. intros _ s1 Hs1. apply run_bind. eapply run_mono; [apply (alloc_dom_successors_ok s Hz l [] s1 eq_refl)|].
  { eapply infos_are_ext; [done|]. intros d x _. cbn. by rewrite decide_False by apply not_elem_of_nil. }
  cbn. intros r s2 [-> Hs2]. eapply run_mono; [apply (fill_dom_successors_ok s Hz l [] _ s2 eq_refl)|].
  - eapply infos_are_ext; [done|]. intros d x _. cbn. rewrite Nat.sub_0_r. case_decide as Hd; [done|].
    rewrite (children_other d l); [done|]. intros Hv. by apply Hd, (vs_in u vs Hu).
  - by rewrite length_replicate.
  - intros d Hd. apply lookup_replicate_2. by apply (num_lt u vs Hu).
  - cbn. intros _ s3 Hs3. eapply infos_are_ext; [done|]. intros d x _. cbn. by rewrite Nat.sub_diag, app_nil_r.
Qed.
End tree.
