(* ===== verification/SsaLoops.v ===== *)
(** * init_ssa: natural loops *)

From S2P Require Import Prelude CMonad Bitset SetInterface BasicBlock DominatorTree Dominance DominanceSpec DominanceLoop DominanceProps Ssa SsaSpec SsaInit SsaTree.
#[local] Open Scope Z_scope.

Section loops.
Context {B : Type} `{SetLaws B} `{!SetScan B} `{!SetScanLaws B} `{Allocator} (Hm : ∀ k sz, malloc_ok k sz = true).
Context (u : dom_unit B) (vs : list nat) (Hu : dominance_ok u vs).
#[local] Abbreviation l := (du_list u).
#[local] Abbreviation n := (length (du_list u)).
#[local] Abbreviation entry := (entry_bb u).
#[local] Abbreviation edge := (edge (graph_of u)).
#[local] Abbreviation num := (num (blocks u)).
#[local] Abbreviation shape := (shape u).
#[local] Abbreviation marked := (marked u vs).
#[local] Abbreviation sdom a i := (strictly_dominates edge entry a i).
Implicit Type s : ssa_unit B.

(** ** The loop of a back edge *)

(** The blocks from which [b] can be reached without going through the header. *)
Inductive reaches (h b : nat) : nat → Prop :=
  | reaches_end : b ≠ h → b ∈ vs → reaches h b b
  | reaches_pred x y : reaches h b y → edge x y → x ∈ vs → x ≠ h → reaches h b x.

Lemma reaches_vs h b x : reaches h b x → x ∈ vs ∧ x ≠ h.
Proof using. by destruct 1. Qed.
Lemma reaches_trans h b c x : reaches h b c → reaches h c x → reaches h b x.
Proof using. intros Hbc Hcx. induction Hcx; [done|]. by econstructor. Qed.

(** The loop of the header for the back edges [E], from their end to the header. *)
Definition loop_of (E : nat → nat → Prop) (h x : nat) : Prop := x = h ∨ ∃ b, E b h ∧ reaches h b x.

(** ** Sums over the blocks *)

Definition weight (S : nat → bool) : nat :=
  sum_list (imap (λ i b, if S i then 0%nat else length (predecessors (bb b))) (blocks u)).

Lemma imap_sum_le (f g : nat → block B → nat) bs : (∀ i b, (f i b <= g i b)%nat) → (sum_list (imap f bs) <= sum_list (imap g bs))%nat.
Proof using. revert f g. induction bs as [|b bs IH]; intros f g Hfg; cbn; [done|]. specialize (Hfg 0%nat b) as H00. specialize (IH (f ∘ S) (g ∘ S) ltac:(intros; apply Hfg)). lia. Qed.

Lemma imap_sum_drop (f g : nat → block B → nat) bs k c : bs !! k = Some c → (∀ i b, i ≠ k → f i b = g i b) → f k c = 0%nat →
  (sum_list (imap f bs) + g k c = sum_list (imap g bs))%nat.
Proof using.
  revert f g k. induction bs as [|b bs IH]; intros f g [|k] Ek Hfg Hf; cbn in Ek; try done.
  - injection Ek as ->. cbn. rewrite Hf. assert (imap (f ∘ S) bs = imap (g ∘ S) bs) as ->; [|lia].
    apply imap_ext. intros i x _. cbn. by apply Hfg.
  - cbn. specialize (IH (f ∘ S) (g ∘ S) k Ek ltac:(intros i x Hi; cbn; apply Hfg; lia) Hf). cbn in IH. rewrite (Hfg 0%nat b) by done. lia.
Qed.

Lemma weight_bound S s : shape s → (weight S + 1 < loop_fuel s)%nat.
Proof using.
  intros Hs. unfold loop_fuel, weight. rewrite (sh_unit u s Hs).
  enough (sum_list (imap (λ i b, if S i then 0%nat else length (predecessors (bb b))) (blocks u)) <= sum_list ((λ b, length (predecessors (bb b))) <$> blocks u))%nat by lia.
  rewrite <- (imap_const (λ b, length (predecessors (bb b)))). apply imap_sum_le. intros i b. cbn. unfold const. destruct (S i); lia.
Qed.

Definition add (S : nat → bool) (x : nat) : nat → bool := λ a, bool_decide (a = x) || S a.

Lemma weight_add S x b : blocks u !! x = Some b → S x = false → (weight (add S x) + length (predecessors (bb b)) = weight S)%nat.
Proof using.
  intros Eb Hx. unfold weight.
  pose proof (imap_sum_drop (λ i b, if add S x i then 0%nat else length (predecessors (bb b))) (λ i b, if S i then 0%nat else length (predecessors (bb b)))
    (blocks u) x b Eb) as Hd. cbn in Hd. rewrite Hx in Hd. apply Hd.
  - intros i c Hi. unfold add. by rewrite bool_decide_false.
  - unfold add. by rewrite bool_decide_true.
Qed.

(** ** The set of a header *)

(** The set of the header [h] holds the blocks in [S]. *)
Definition loop_set s (h : nat) (S : nat → bool) : Prop :=
  ∃ x, infos s !! h = Some x ∧
    match natural_loop x with Some d => marked d (λ a, S a = true) | None => ∀ a, S a = false end.

(** What the search for a loop leaves as it is. *)
Definition core (x : ssa_info B) : ssa_info B := set_loop None (set_nesting 0 (set_loop_start 0 x)).
Record same_but h s s' : Prop := {
  sb_shape : shape s';
  sb_core i : core <$> infos s' !! i = core <$> infos s !! i;
  sb_loop i : i ≠ h → natural_loop <$> infos s' !! i = natural_loop <$> infos s !! i;
}.

Lemma same_but_refl h s : shape s → same_but h s s.
Proof using. by constructor. Qed.
Lemma same_but_trans h s1 s2 s3 : same_but h s1 s2 → same_but h s2 s3 → same_but h s1 s3.
Proof using. intros [? H12 L12] [? H23 L23]. constructor; [done| |]; intros i; [by rewrite H23|]. intros Hi. by rewrite L23, L12. Qed.
Lemma same_but_heap h s k : shape s → same_but h s (SU k (su_unit s) (infos s)).
Proof using. intros Hs. constructor; [by apply shape_heap|done|done]. Qed.

Lemma same_but_update h s i x y : shape s → infos s !! i = Some x → core y = core x → (i ≠ h → natural_loop y = natural_loop x) →
  same_but h s (SU (su_heap s) (su_unit s) (<[i := y]> (infos s))).
Proof using.
  intros Hs Ex Hc Hl. pose proof (lookup_lt_Some _ _ _ Ex) as Hlt. constructor; [by apply shape_insert| |]; intros j; cbn.
  - destruct (decide (j = i)) as [->|Hj]; [|by rewrite list_lookup_insert_ne]. rewrite list_lookup_insert_eq, Ex by done. cbn. by rewrite Hc.
  - intros Hjh. destruct (decide (j = i)) as [->|Hj]; [|by rewrite list_lookup_insert_ne]. rewrite list_lookup_insert_eq, Ex by done. cbn. by rewrite Hl.
Qed.

(** The set does not depend on the other fields. *)
Lemma loop_set_same s s' h S : loop_set s h S → natural_loop <$> infos s' !! h = natural_loop <$> infos s !! h → loop_set s' h S.
Proof using.
  intros (x & Ex & Hx) E. rewrite Ex in E. cbn in E. destruct (infos s' !! h) as [y|] eqn:Ey; [|done]. exists y. split; [done|].
  cbn in E. by injection E as ->.
Qed.

Lemma run_in_loop s h S i (Q : bool → ssa_unit B → Prop) : shape s → loop_set s h S → i ∈ vs → Q (S i) s → run (in_loop h i) Q s.
Proof using Hu H0.
  intros Hs (x & Ex & Hx) Hi HQ. unfold in_loop. apply run_bind. eapply run_info_of; [done|]. destruct (natural_loop x) as [d|].
  - destruct (block_in u vs Hu s i Hs (vs_in u vs Hu i Hi)) as (b & _ & Eb & _ & Ed & _). apply run_bind. eapply run_block_of; [done|]. rewrite Ed.
    destruct Hx as [Hwf Hmem]. pose proof (num_lt u vs Hu i Hi). eapply run_try; [apply (bs_test_law _ _ _ Hwf); lia|].
    specialize (Hmem i Hi). destruct (bs_mem d _), (S i); try done; naive_solver.
  - apply run_ret. by rewrite Hx in HQ.
Qed.

Lemma run_add_to_loop s h S i d x : shape s → h ∈ vs → infos s !! h = Some x → natural_loop x = Some d → marked d (λ a, S a = true) → i ∈ vs →
  run (add_to_loop h i) (λ _ s', same_but h s s' ∧ loop_set s' h (add S i) ∧ ∃ y, infos s' !! h = Some y ∧ is_Some (natural_loop y)) s.
Proof using Hu H0.
  intros Hs Hh Ex Ed Hd Hi. destruct (block_in u vs Hu s i Hs (vs_in u vs Hu i Hi)) as (b & _ & Eb & _ & Edf & _). unfold add_to_loop.
  apply run_bind. eapply run_block_of; [done|]. apply run_bind. eapply run_info_of; [done|]. rewrite Ed, Edf. cbn.
  destruct (marked_add u vs Hu d _ i Hd Hi) as (d' & E & Hd'). apply run_bind. eapply run_try; [done|]. eapply run_update_info; [done|].
  pose proof (lookup_lt_Some _ _ _ Ex) as Hlt. split_and!.
  - by eapply same_but_update.
  - eexists. cbn. rewrite list_lookup_insert_eq by done. split; [done|]. cbn. destruct Hd' as [Hwf Hmem]. split; [done|].
    intros a Ha. rewrite Hmem by done. unfold add. rewrite orb_true_iff, bool_decide_eq_true. done.
  - eexists. cbn. rewrite list_lookup_insert_eq by done. split; [done|]. cbn. eauto.
Qed.

(** ** The work list *)

Lemma push_preds_ok h S ps : ∀ wl s, shape s → h ∈ vs → loop_set s h S → (∃ x, infos s !! h = Some x ∧ is_Some (natural_loop x)) →
  (∀ p, p ∈ ps → p ∈ l) →
  run (push_preds h ps wl) (λ wl' s', (∃ k, s' = SU k (su_unit s) (infos s)) ∧ (length wl' <= length wl + length ps)%nat ∧
    (∀ p, p ∈ wl' → p ∈ wl ∨ (p ∈ ps ∧ p ∈ vs ∧ p ≠ h)) ∧ (∀ p, p ∈ wl → p ∈ wl') ∧
    (∀ p, p ∈ ps → p ∈ vs → p ≠ h → S p = true ∨ p ∈ wl')) s.
Proof using SetScan0 SetScanLaws0 Hu H0 Hm.
  induction ps as [|p ps IH]; intros wl s Hs Hh Hl Hsome Hps.
  { apply run_ret. split_and!; [exists (su_heap s); by destruct s|lia|auto|done|by intros ? ?%elem_of_nil]. }
  assert (∀ q, q ∈ ps → q ∈ l) as Hps' by (intros q Hq; apply Hps; by right).
  assert (∀ Q' : list nat → ssa_unit B → Prop, (∀ wl' s', (∃ k, s' = SU k (su_unit s) (infos s)) ∧ (length wl' <= length wl + length ps)%nat ∧
    (∀ p, p ∈ wl' → p ∈ wl ∨ (p ∈ ps ∧ p ∈ vs ∧ p ≠ h)) ∧ (∀ p, p ∈ wl → p ∈ wl') ∧
    (∀ p, p ∈ ps → p ∈ vs → p ≠ h → S p = true ∨ p ∈ wl') → Q' wl' s') → run (push_preds h ps wl) Q' s) as Hskip.
  { intros Q' HQ'. eapply run_mono; [by apply (IH wl s)|]. cbn. exact HQ'. }
  cbn [push_preds]. apply run_bind. eapply run_bb_is_eh; [done|done|apply Hps; by left|].
  destruct (decide (p ∈ vs)) as [Hp|Hp]; [rewrite bool_decide_false by tauto|rewrite bool_decide_true by done].
  2:{ apply Hskip. intros wl' s' (Hk & Hlen & Hin & Hold & Hnew). split_and!; [done|cbn; lia|set_solver|done|set_solver]. }
  destruct (decide (p = h)) as [->|Hph].
  { apply Hskip. intros wl' s' (Hk & Hlen & Hin & Hold & Hnew). split_and!; [done|cbn; lia|set_solver|done|set_solver]. }
  pose proof Hl as (x & Ex & Hx). destruct Hsome as (x' & ? & d & Ed). simplify_eq. rewrite Ed in Hx.
  apply run_bind. eapply run_info_of; [done|]. destruct (block_in u vs Hu s p Hs (vs_in u vs Hu p Hp)) as (b & _ & Eb & _ & Edf & _).
  apply run_bind. eapply run_block_of; [done|]. rewrite Edf, Ed. cbn. destruct Hx as [Hwf Hmem]. pose proof (num_lt u vs Hu p Hp).
  apply run_bind. eapply run_try; [apply (bs_test_law _ _ _ Hwf); lia|]. specialize (Hmem p Hp).
  destruct (bs_mem d _).
  { apply Hskip. intros wl' s' (Hk & Hlen & Hin & Hold & Hnew). split_and!; [done|cbn; lia|set_solver|done|].
    intros q [->|Hq]%elem_of_cons; [left; by apply Hmem|auto]. }
  apply run_bind, run_request; [done|]. intros k. cbn [negb]. eapply run_mono; [apply (IH (p :: wl))|].
  - by apply shape_heap.
  - done.
  - by eapply loop_set_same.
  - cbn. eauto.
  - done.
  - cbn. intros wl' s' ((k' & ->) & Hlen & Hin & Hold & Hnew). split_and!; [by eexists|lia|set_solver|set_solver|].
    intros q [->|Hq]%elem_of_cons ? ?; [right; apply Hold; by left|auto].
Qed.

(** [S] has the predecessors of its blocks, or they are on the list. *)
Definition closed h (S : nat → bool) (wl : list nat) : Prop :=
  ∀ x p, x ∈ vs → S x = true → x ≠ h → p ∈ vs → edge p x → p ≠ h → S p = true ∨ p ∈ wl.

Lemma closed_reaches h S b x : closed h S [] → S b = true → reaches h b x → S x = true.
Proof using.
  intros Hc Hb Hr. induction Hr as [|x y Hr IH He Hx Hne]; [done|]. destruct (reaches_vs _ _ _ Hr) as [Hy Hyh].
  destruct (Hc y x Hy IH Hyh Hx He Hne) as [?|?%elem_of_nil]; done.
Qed.

Lemma loop_work_ok h b fuel : h ∈ vs → ∀ wl S s, shape s → loop_set s h S → (∀ w, w ∈ wl → reaches h b w) → closed h S wl →
  (length wl + weight S < fuel)%nat →
  run (loop_work fuel h wl) (λ _ s', same_but h s s' ∧ ∃ S', loop_set s' h S' ∧ closed h S' [] ∧
    (∀ a, S a = true → S' a = true) ∧ (∀ w, w ∈ wl → S' w = true) ∧ (∀ a, S' a = true → S a = true ∨ reaches h b a)) s.
Proof using SetScan0 SetScanLaws0 Hu H0 Hm.
  intros Hh. induction fuel as [|fuel IH]; intros wl S s Hs Hl Hwl Hc Hfuel; [lia|]. cbn [loop_work]. destruct wl as [|w wl].
  { apply run_ret. split; [by apply same_but_refl|]. exists S. split_and!; [done|done|done|by intros ? ?%elem_of_nil|auto]. }
  assert (reaches h b w) as Hrw by (apply Hwl; by left). destruct (reaches_vs _ _ _ Hrw) as [Hw Hwh].
  apply run_bind. eapply run_in_loop; [done|done|done|]. destruct (S w) eqn:Sw.
  { eapply run_mono; [apply (IH wl S s Hs Hl)|].
    - intros w' ?. apply Hwl. by right.
    - intros x p Hx Sx Hxh Hp He Hph. destruct (Hc x p) as [?|[->|?]%elem_of_cons]; auto.
    - cbn in Hfuel. lia.
    - cbn. intros _ s' (Hsame & S' & ? & ? & Hmono & Hin & Hout). split; [done|]. exists S'. split_and!; [done|done|done| |done].
      intros w' [->|?]%elem_of_cons; auto. }
  pose proof Hl as (x & Ex & Hx). apply run_bind. eapply run_info_of; [done|]. apply run_bind.
  eapply run_mono with (Q := λ _ s1, same_but h s s1 ∧ ∃ y d, infos s1 !! h = Some y ∧ natural_loop y = Some d ∧ marked d (λ a, S a = true)).
  { destruct (natural_loop x) as [d|] eqn:Ed; [apply run_ret; split; [by apply same_but_refl|eauto 10]|].
    destruct (do_unit u vs Hu) as [Hg Hnr]. pose proof (go_small _ _ _ Hg).
    apply run_bind, run_get. rewrite (sh_unit u s Hs). unfold nr_bblocks. rewrite Hnr. apply run_bind, run_alloc; [done|lia|].
    intros k d Hwf Hmem. eapply run_update_info; [done|]. pose proof (lookup_lt_Some _ _ _ Ex) as Hlt. split.
    - eapply same_but_trans; [by apply (same_but_heap h s k)|]. by eapply (same_but_update h (SU k (su_unit s) (infos s))); [apply shape_heap|..].
    - eexists _, d. cbn. rewrite list_lookup_insert_eq by done. split; [done|]. split; [done|]. split; [done|]. intros a _. by rewrite Hmem, Hx. }
  cbn. intros _ s1 (Hsb1 & y & d & Ey & Ed & Hd). pose proof (sb_shape _ _ _ Hsb1) as Hs1.
  apply run_bind. eapply run_mono; [by eapply run_add_to_loop|]. cbn. intros _ s2 (Hsb2 & Hl2 & Hsome2). pose proof (sb_shape _ _ _ Hsb2) as Hs2.
  destruct (block_in u vs Hu s2 w Hs2 (vs_in u vs Hu w Hw)) as (wb & z & Ewb & Egw & _ & Ez).
  apply run_bind. eapply run_update_info; [done|].
  set (s3 := SU (su_heap s2) (su_unit s2) (<[w := set_nesting (s32 (nesting z + 1)) z]> (infos s2))).
  assert (same_but h s2 s3) as Hsb3 by (by eapply same_but_update). pose proof (sb_shape _ _ _ Hsb3) as Hs3.
  assert (loop_set s3 h (add S w) ∧ ∃ y, infos s3 !! h = Some y ∧ is_Some (natural_loop y)) as [Hl3 Hsome3].
  { assert (infos s3 !! h = infos s2 !! h) as E by (unfold s3; cbn; by rewrite list_lookup_insert_ne).
    split; [eapply loop_set_same; [done|by rewrite E]|by rewrite E]. }
  apply run_bind. eapply run_block_of; [done|]. rewrite (sh_unit u s2 Hs2) in Ewb.
  apply run_bind. eapply run_mono; [apply (push_preds_ok h (add S w) (predecessors (bb wb)) wl s3 Hs3 Hh Hl3 Hsome3)|].
  { intros p Hp. apply (preds_in u vs Hu w); [by apply (vs_in u vs Hu)|]. by rewrite (preds_block u w wb Ewb). }
  cbn. intros wl' s4 ((k & ->) & Hlen & Hin & Hold & Hnew).
  assert (∀ p, p ∈ vs → p ∈ predecessors (bb wb) ↔ edge p w) as Hpe.
  { intros p Hp. pose proof (flow_preds_edge u vs Hu w p Hw) as Hf. unfold flow_preds in Hf. rewrite list_elem_of_filter, (preds_block u w wb Ewb) in Hf. tauto. }
  pose proof (weight_add S w wb Ewb Sw) as Hwt. eapply run_mono; [apply (IH wl' (add S w))|].
  - exact (shape_heap u s3 k Hs3).
  - by apply (loop_set_same s3).
  - intros p Hp. destruct (Hin p Hp) as [?|(Hpp & Hpv & Hph)]; [apply Hwl; by right|]. eapply reaches_pred; [done|by apply Hpe|done|done].
  - intros a p Ha Sa Hah Hp He Hph. unfold add in Sa. apply orb_true_iff in Sa as [->%bool_decide_eq_true|Sa].
    + apply Hnew; [by apply Hpe|done|done].
    + destruct (Hc a p Ha Sa Hah Hp He Hph) as [Sp|[->|Hpw]%elem_of_cons].
      * left. unfold add. by rewrite Sp, orb_true_r.
      * left. unfold add. by rewrite bool_decide_true.
      * right. auto.
  - cbn in Hfuel. lia.
  - cbn. intros _ s' (Hsb & S' & ? & ? & Hmono & Hins & Hout). split.
    + eapply same_but_trans; [exact Hsb1|]. eapply same_but_trans; [exact Hsb2|]. eapply same_but_trans; [exact Hsb3|].
      eapply same_but_trans; [by apply (same_but_heap h s3 k)|exact Hsb].
    + exists S'. split_and!; [done|done| | |].
      * intros a Sa. apply Hmono. unfold add. by rewrite Sa, orb_true_r.
      * intros w' [->|Hw']%elem_of_cons; [apply Hmono; unfold add; by rewrite bool_decide_true|apply Hins; auto].
      * intros a Sa. apply Hout in Sa as [Sa|?]; [|by right]. unfold add in Sa. apply orb_true_iff in Sa as [->%bool_decide_eq_true|?]; auto.
Qed.

(** ** The loops of all back edges *)

Section all.
Context (s0 : ssa_unit B).

(** The back edges [E] have been seen. *)
Record loops_inv (E : nat → nat → Prop) s : Prop := {
  li_shape : shape s;
  li_core i : core <$> infos s !! i = core <$> infos s0 !! i;
  li_loop h : h ∈ vs → ∃ x, infos s !! h = Some x ∧
    match natural_loop x with
    | None => ∀ b, ¬ E b h
    | Some d => (∃ b, E b h) ∧ marked d (loop_of E h)
    end;
}.

Lemma loops_inv_iff E E' s : (∀ b h, E b h ↔ E' b h) → loops_inv E s → loops_inv E' s.
Proof using.
  intros HE [Hs Hc Hl]. constructor; [done|done|]. intros h Hh. destruct (Hl h Hh) as (x & Ex & Hx). exists x. split; [done|].
  destruct (natural_loop x) as [d|].
  - destruct Hx as ([b Hb] & Hwf & Hmem). split; [exists b; by apply HE|]. split; [done|]. intros a Ha. rewrite Hmem by done. unfold loop_of.
    by setoid_rewrite HE.
  - intros b. rewrite <- HE. done.
Qed.

(** The set of a header, as a function. *)
Definition mem_of (x : ssa_info B) (a : nat) : bool :=
  match natural_loop x with Some d => bs_mem d (Z.of_nat (num a)) | None => false end.

Lemma loops_inv_set E s h : loops_inv E s → h ∈ vs → ∃ x, infos s !! h = Some x ∧ loop_set s h (mem_of x) ∧
  (∀ a, a ∈ vs → a ≠ h → mem_of x a = true ↔ loop_of E h a) ∧ closed h (mem_of x) [].
Proof using.
  intros [Hs Hc Hl] Hh. destruct (Hl h Hh) as (x & Ex & Hx). exists x.
  assert (∀ a, a ∈ vs → a ≠ h → mem_of x a = true ↔ loop_of E h a) as Hmem.
  { intros a Ha Hah. unfold mem_of. destruct (natural_loop x) as [d|]; [by apply Hx|]. split; [done|].
    intros [?|(b & Hb & _)]; [done|by apply Hx in Hb]. }
  split_and!; [done| |done|].
  - exists x. split; [done|]. unfold mem_of. destruct (natural_loop x) as [d|]; [|done]. by split; [apply Hx|].
  - intros a p Ha Sa Hah Hp He Hph. left. apply Hmem; [done|done|]. apply Hmem in Sa as [?|(b & Hb & Hr)]; [done| |done|done].
    right. exists b. split; [done|]. by eapply reaches_pred.
Qed.

(** A search that ends with the set [S] for the header. *)
Lemma loops_inv_add E s s' h b S : loops_inv E s → h ∈ vs → b ∈ vs → b ≠ h → same_but h s s' → loop_set s' h S → S h = true →
  (∀ a, a ∈ vs → a ≠ h → S a = true ↔ loop_of E h a ∨ reaches h b a) →
  loops_inv (λ b' h', E b' h' ∨ (b' = b ∧ h' = h)) s'.
Proof using.
  intros [Hs Hc Hl] Hh Hb Hbh [Hs' Hc' Hl'] (y & Ey & Hy) Sh HS. constructor; [done|intros i; by rewrite Hc'|].
  intros h' Hh'. destruct (decide (h' = h)) as [->|Hne].
  - exists y. split; [done|]. destruct (natural_loop y) as [d|]; [|by rewrite Hy in Sh]. split; [exists b; by right|].
    destruct Hy as [Hwf Hmem]. split; [done|]. intros a Ha. rewrite Hmem by done. destruct (decide (a = h)) as [->|Hah].
    + split; [by left|done].
    + rewrite (HS a Ha Hah). unfold loop_of. split.
      * intros [[?|(b' & ? & ?)]|?]; [done|right; exists b'; tauto|right; exists b; tauto].
      * intros [?|(b' & [?|[-> _]] & ?)]; [done|left; right; eauto|by right].
  - specialize (Hl' h' Hne). destruct (Hl h' Hh') as (x & Ex & Hx). rewrite Ex in Hl'. cbn in Hl'.
    destruct (infos s' !! h') as [x'|] eqn:Ex'; [|done]. cbn in Hl'. injection Hl' as El. exists x'. split; [done|]. rewrite El.
    destruct (natural_loop x) as [d|].
    + destruct Hx as ([b' ?] & Hwf & Hmem). split; [exists b'; by left|]. split; [done|]. intros a Ha. rewrite Hmem by done. unfold loop_of.
      split; [intros [?|(b2 & ? & ?)]; [by left|right; exists b2; tauto]|]. intros [?|(b2 & [?|[_ ?]] & ?)]; [by left|right; eauto|done].
    + intros b' [?|[_ ?]]; [by eapply Hx|done].
Qed.

Lemma determine_loop_ok E s h b : loops_inv E s → h ∈ vs → b ∈ vs → b ≠ h →
  run (determine_loop h b) (λ _ s', loops_inv (λ b' h', E b' h' ∨ (b' = b ∧ h' = h)) s') s.
Proof using SetScan0 SetScanLaws0 Hu H0 Hm.
  intros Hi Hh Hb Hbh. pose proof (li_shape _ _ Hi) as Hs. unfold determine_loop.
  destruct (block_in u vs Hu s b Hs (vs_in u vs Hu b Hb)) as (_ & xb & _ & _ & _ & Exb).
  apply run_bind. eapply run_update_info; [done|]. set (s1 := SU (su_heap s) (su_unit s) (<[b := set_loop_start 1 xb]> (infos s))).
  assert (same_but h s s1) as Hsb1 by (by eapply same_but_update). pose proof (sb_shape _ _ _ Hsb1) as Hs1.
  destruct (loops_inv_set E s h Hi Hh) as (x & Ex & Hl & Hmem & Hclosed).
  assert (infos s1 !! h = infos s !! h) as Eh by (unfold s1; cbn; by rewrite list_lookup_insert_ne).
  assert (loop_set s1 h (mem_of x)) as Hl1 by (eapply loop_set_same; [done|by rewrite Eh]).
  apply run_bind. eapply run_in_loop; [done|done|done|]. destruct (mem_of x b) eqn:Sb.
  { apply run_ret. apply Hmem in Sb as [?|(b' & HE & Hr)]; [done| |done|done].
    destruct (li_loop _ _ Hi h Hh) as (x' & Ex' & Hx'). simplify_eq. destruct (natural_loop x) as [d|] eqn:Ed; [|by apply Hx' in HE].
    eapply (loops_inv_add E s s1 h b (mem_of x)); [done|done|done|done|done|done| |].
    - unfold mem_of. rewrite Ed. destruct Hx' as (_ & _ & Hd). apply Hd; [done|by left].
    - intros a Ha Hah. rewrite (Hmem a Ha Hah). split; [by left|]. intros [?|Hba]; [done|]. right. exists b'. split; [done|]. by eapply reaches_trans. }
  apply run_bind, run_request; [done|]. intros k. cbn [negb]. apply run_bind, run_get. set (s2 := SU k (su_unit s1) (infos s1)).
  assert (same_but h s1 s2) as Hsb2 by (by apply same_but_heap). pose proof (sb_shape _ _ _ Hsb2) as Hs2.
  apply run_bind. eapply run_mono; [apply (loop_work_ok h b (loop_fuel s2) Hh [b] (mem_of x) s2 Hs2)|].
  - eapply loop_set_same; done.
  - intros w ->%list_elem_of_singleton. by constructor.
  - intros a p Ha Sa Hah Hp He Hph. left. by destruct (Hclosed a p Ha Sa Hah Hp He Hph) as [?|?%elem_of_nil].
  - pose proof (weight_bound (mem_of x) s2 Hs2). cbn [length]. lia.
  - cbn. intros _ s3 (Hsb3 & S' & Hl3 & Hc3 & Hmono & Hin & Hout). pose proof (sb_shape _ _ _ Hsb3) as Hs3.
    assert (∀ a, a ∈ vs → a ≠ h → S' a = true ↔ loop_of E h a ∨ reaches h b a) as HS'.
    { intros a Ha Hah. rewrite <- (Hmem a Ha Hah). split; [apply Hout|]. intros [?|?]; [by apply Hmono|].
      eapply closed_reaches; [done| |done]. apply Hin. by left. }
    assert (same_but h s s3) as Hsb by (eapply same_but_trans; [done|]; by eapply same_but_trans).
    pose proof Hl3 as (y & Ey & Hy). assert (S' b = true) as S'b by (apply Hin; by left).
    destruct (natural_loop y) as [d|] eqn:Ed; [|by rewrite Hy in S'b].
    destruct (block_in u vs Hu s3 h Hs3 (vs_in u vs Hu h Hh)) as (hb & _ & Ehb & _ & Ehd & _). destruct Hy as [Hwf Hd]. pose proof (num_lt u vs Hu h Hh).
    apply run_bind. eapply run_mono with (Q := λ r s', r = S' h ∧ s' = s3).
    { apply run_bind. eapply run_info_of; [done|]. apply run_bind. eapply run_block_of; [done|]. rewrite Ed, Ehd. cbn.
      eapply run_try; [apply (bs_test_law _ _ _ Hwf); lia|]. split; [|done]. specialize (Hd h Hh). destruct (bs_mem d _), (S' h); try done; naive_solver. }
    cbn. intros r s4 [-> ->]. destruct (S' h) eqn:S'h.
    + apply run_ret. by eapply (loops_inv_add E s s3 h b S').
    + eapply run_mono; [by eapply (run_add_to_loop s3 h S' h d y)|]. cbn. intros _ s4 (Hsb4 & Hl4 & _).
      eapply (loops_inv_add E s s4 h b (add S' h)); [done|done|done|done|by eapply same_but_trans|done| |].
      * unfold add. by rewrite bool_decide_true.
      * intros a Ha Hah. unfold add. rewrite bool_decide_false by done. cbn. by apply HS'.
Qed.

Context (Hdom : ∀ i, i ∈ vs → ∃ x d, infos s0 !! i = Some x ∧ dominators x = Some d ∧ marked d (λ a, sdom a i)).
Context (Hnone : ∀ i x, infos s0 !! i = Some x → natural_loop x = None) (Hs0 : shape s0).

(** The edges that go back to a strict dominator. *)
Definition strict_back_edge (b h : nat) : Prop := b ∈ vs ∧ edge b h ∧ sdom h b.

Lemma headers_ok b hs : b ∈ vs → ∀ E s, loops_inv E s → (∀ h, h ∈ hs → h ∈ vs) →
  run (for_each (λ header,
      let* eh := bb_is_eh header in
      if (eh : bool) then ret tt else
      let* hb := block_of header in
      let* x := info_of b in
      let* t := try (s ← dominators x; bs_test s (dfn hb)) in
      if (t : bool) then determine_loop header b else ret tt) hs)
    (λ _ s', loops_inv (λ b' h', E b' h' ∨ (b' = b ∧ h' ∈ hs ∧ sdom h' b)) s') s.
Proof using SetScan0 SetScanLaws0 Hu H0 Hm Hdom.
  intros Hb. induction hs as [|h hs IH]; intros E s Hi Hhs.
  { apply run_ret. eapply loops_inv_iff; [|done]. intros b' h'. split; [by left|]. intros [?|(_ & ?%elem_of_nil & _)]; done. }
  assert (h ∈ vs) as Hh by (apply Hhs; by left). cbn [for_each].
  eapply run_seq with (Q' := λ _ s', loops_inv (λ b' h', E b' h' ∨ (b' = b ∧ h' = h ∧ sdom h' b)) s').
  - pose proof (li_shape _ _ Hi) as Hs. apply run_bind. eapply run_bb_is_eh; [done|done|by apply (vs_in u vs Hu)|]. rewrite bool_decide_false by tauto.
    destruct (block_in u vs Hu s h Hs (vs_in u vs Hu h Hh)) as (hb & _ & Ehb & _ & Ehd & _).
    destruct (block_in u vs Hu s b Hs (vs_in u vs Hu b Hb)) as (_ & x & _ & _ & _ & Ex).
    destruct (Hdom b Hb) as (x0 & d & Ex0 & Ed & Hwf & Hmem). pose proof (li_core _ _ Hi b) as Hc. rewrite Ex, Ex0 in Hc. cbn in Hc.
    assert (dominators x = Some d) as Edx.
    { rewrite <- Ed. assert (core x = core x0) as Hcx by congruence. by injection Hcx. }
    apply run_bind. eapply run_block_of; [done|]. apply run_bind. eapply run_info_of; [done|]. rewrite Edx, Ehd. cbn.
    pose proof (num_lt u vs Hu h Hh). apply run_bind. eapply run_try; [apply (bs_test_law _ _ _ Hwf); lia|].
    specialize (Hmem h Hh). destruct (bs_mem d _).
    + assert (sdom h b) as Hsd by (by apply Hmem). eapply run_mono; [apply (determine_loop_ok E s h b Hi Hh Hb); intros ->; by apply (proj2 Hsd)|].
      cbn. intros _ s'. apply loops_inv_iff. intros b' h'. naive_solver.
    + apply run_ret. eapply loops_inv_iff; [|done]. intros b' h'. split; [by left|]. intros [?|(-> & -> & Hsd)]; [done|by apply Hmem in Hsd].
  - intros _ s' Hi'. eapply run_mono; [apply (IH _ s' Hi')|]; [intros h' ?; apply Hhs; by right|]. cbn.
    intros _ s''. apply loops_inv_iff. intros b' h'. rewrite elem_of_cons. naive_solver.
Qed.

Lemma compute_natural_loops_ok : run compute_natural_loops (λ _ s', loops_inv strict_back_edge s') s0.
Proof using SetScan0 SetScanLaws0 Hu H0 Hm Hdom Hnone Hs0.
  set (I := λ (ls : list nat) s, NoDup ls ∧ loops_inv (λ b h, (b ∉ ls) ∧ strict_back_edge b h) s).
  eapply run_mono; [apply (run_for_each_no_eh u vs Hu _ I)|].
  - intros ls s [_ Hi]. by eapply li_shape.
  - intros i ls s Hi [Hn Hl]. apply list_relations.list.NoDup_cons in Hn as [Hni Hn]. split; [done|]. eapply loops_inv_iff; [|done].
    intros b h. unfold strict_back_edge. rewrite not_elem_of_cons. naive_solver.
  - intros i ls s Hi Hil [Hn Hl]. apply list_relations.list.NoDup_cons in Hn as [Hni Hn]. pose proof (li_shape _ _ Hl) as Hs.
    destruct (block_in u vs Hu s i Hs Hil) as (b & _ & Eb & _). rewrite (sh_unit u s Hs) in Eb. apply run_bind.
    eapply run_block_of; [by rewrite (sh_unit u s Hs)|]. eapply run_mono; [apply (headers_ok i (successors (bb b)) Hi _ s Hl)|].
    + intros h Hh. by apply (succs_reach u vs Hu i b h Hi Eb Hh).
    + cbn. intros _ s' Hl'. split; [done|]. eapply loops_inv_iff; [|done]. intros b' h. unfold strict_back_edge. rewrite not_elem_of_cons.
      assert (h ∈ successors (bb b) ↔ edge i h) as He.
      { unfold DominanceSpec.edge, succs, graph_of. by rewrite list_lookup_fmap, Eb. }
      destruct (decide (b' = i)) as [->|Hne]; [rewrite He; tauto|]. naive_solver.
  - split; [apply Hu|]. constructor; [done|done|]. intros h Hh.
    destruct (block_in u vs Hu s0 h Hs0 (vs_in u vs Hu h Hh)) as (_ & x & _ & _ & _ & Ex). exists x. split; [done|]. rewrite (Hnone h x Ex).
    intros b [Hb [Hbv _]]. by apply Hb, (vs_in u vs Hu).
  - cbn. intros _ s [_ Hl]. eapply loops_inv_iff; [|done]. intros b h. split; [by intros [_ ?]|]. intros ?. split; [apply not_elem_of_nil|done].
Qed.
End all.
End loops.
