(* ===== verification/SsaPhi.v ===== *)
(** * The placement of phi instructions *)

From S2P Require Import Prelude CMonad Bitset SetInterface BasicBlock DominatorTree Dominance DominanceSpec DominanceLoop DominanceProps Ssa SsaSpec SsaInit SsaTree.
#[local] Open Scope Z_scope.

Section phi.
Context {B : Type} `{SetLaws B} `{!SetScan B} `{!SetScanLaws B} `{Allocator} (Hm : ∀ k sz, malloc_ok k sz = true).
Context (u : dom_unit B) (vs : list nat) (Hu : dominance_ok u vs).
#[local] Abbreviation l := (du_list u).
#[local] Abbreviation n := (length (du_list u)).
#[local] Abbreviation num := (num (blocks u)).
#[local] Abbreviation shape := (shape u).
#[local] Abbreviation infos_are := (infos_are u).
Implicit Type s : ssa_unit B.
Implicit Type w : phi_state (B := B).

(** The frontiers, and the variables that the blocks define and that are live into them. *)
Context (nr_vregs : Z) (s0 : ssa_unit B) (Hs0 : shape s0).
Definition frontier (d b : nat) : Prop := frontier_bit (blocks u) d (Z.of_nat (num b)) = true.
Definition defines (v : Z) (b : nat) : Prop := ∃ x d, infos s0 !! b = Some x ∧ def_set x = Some d ∧ bs_mem d v = true.
Definition live_in (v : Z) (b : nat) : Prop := ∃ x d, infos s0 !! b = Some x ∧ live_in_set x = Some d ∧ bs_mem d v = true.

Record inputs_ok : Prop := {
  in_frontiers : has_sets l (blocks u);
  in_numbers i j : i ∈ vs → 0 <= j → frontier_bit (blocks u) i j = true → ∃ b, b ∈ vs ∧ j = Z.of_nat (num b);
  in_sets i x : i ∈ vs → infos s0 !! i = Some x → ∃ d lv, def_set x = Some d ∧ bs_wf nr_vregs d ∧ live_in_set x = Some lv ∧ bs_wf nr_vregs lv;
}.
Context (Hin : inputs_ok).

(** The blocks that need a phi instruction for [v]: those in the frontier of a block that
    defines it or has one, into which it is live. *)
Inductive needs_phi (v : Z) : nat → Prop :=
  | needs_phi_def d b : defines v d → d ∈ vs → frontier d b → b ∈ vs → live_in v b → needs_phi v b
  | needs_phi_phi d b : needs_phi v d → d ∈ vs → frontier d b → b ∈ vs → live_in v b → needs_phi v b.

(** The phi instructions that have been put into the blocks, by their variables. *)
Definition phi_info (P : nat → list Z) (i : nat) (x : ssa_info B) : ssa_info B :=
  set_phis (((λ v, (v, nr_predecessors_no_eh x)) <$> P i) ++ phis x) x.

Lemma phi_info_at P s i x : infos_are s0 (phi_info P) s → infos s0 !! i = Some x → infos s !! i = Some (phi_info P i x).
Proof using. intros [_ Hi] Ex. by rewrite Hi, Ex. Qed.
Lemma info_at0 i : i ∈ vs → ∃ x, infos s0 !! i = Some x.
Proof using Hu Hs0. intros Hi. destruct (block_in u vs Hu s0 i Hs0 (vs_in u vs Hu i Hi)) as (_ & x & _ & _ & _ & Ex). eauto. Qed.

(** Tests of the two sets. *)
Lemma run_def_test v P s i (Q : bool → ssa_unit B → Prop) x : infos_are s0 (phi_info P) s → i ∈ vs → 0 <= v < nr_vregs → infos s !! i = Some x →
  (∀ t, (t = true ↔ defines v i) → Q t s) → run (try (s ← def_set x; bs_test s v)) Q s.
Proof using Hu Hs0 Hin H0.
  intros Hs Hi Hv Ex HQ. destruct (info_at0 i Hi) as [x0 Ex0]. rewrite (phi_info_at P s i x0 Hs Ex0) in Ex. injection Ex as <-. cbn.
  destruct (in_sets Hin i x0 Hi Ex0) as (d & lv & Ed & Hwf & _). rewrite Ed. cbn.
  eapply run_try; [by apply (bs_test_law _ _ _ Hwf)|]. apply HQ. split; [intros; by exists x0, d|]. intros (? & ? & ? & ? & ?). by simplify_eq.
Qed.
Lemma run_live_test v P s i (Q : bool → ssa_unit B → Prop) x : infos_are s0 (phi_info P) s → i ∈ vs → 0 <= v < nr_vregs → infos s !! i = Some x →
  (∀ t, (t = true ↔ live_in v i) → Q t s) → run (try (s ← live_in_set x; bs_test s v)) Q s.
Proof using Hu Hs0 Hin H0.
  intros Hs Hi Hv Ex HQ. destruct (info_at0 i Hi) as [x0 Ex0]. rewrite (phi_info_at P s i x0 Hs Ex0) in Ex. injection Ex as <-. cbn.
  destruct (in_sets Hin i x0 Hi Ex0) as (d & lv & _ & _ & Ed & Hwf). rewrite Ed. cbn.
  eapply run_try; [by apply (bs_test_law _ _ _ Hwf)|]. apply HQ. split; [intros; by exists x0, lv|]. intros (? & ? & ? & ? & ?). by simplify_eq.
Qed.

(** The numbers of the blocks in the array. *)
Lemma run_df_array s i (Q : option nat → ssa_unit B → Prop) : shape s → i ∈ vs → Q (Some i) s →
  run (let* o := get (λ s, array_get (bb_df_array (su_unit s)) (Z.of_nat (num i))) in try o) Q s.
Proof using Hu.
  intros Hs Hi HQ. apply run_bind, run_get. rewrite (sh_unit u s Hs). destruct Hu as [_ Hn _].
  rewrite (array_at _ _ _ _ _ _ Hn) by (by apply (num_lt u vs Hu)). eapply run_try; [done|].
  rewrite (at_num _ _ _ _ _ _ Hn); [done|]. by apply Hn.
Qed.

Lemma run_insert_phi v P s i (Q : () → ssa_unit B → Prop) : infos_are s0 (phi_info P) s → i ∈ vs →
  (∀ s', infos_are s0 (phi_info (λ j, if decide (j = i) then v :: P j else P j)) s' → Q tt s') → run (insert_phi i v) Q s.
Proof using Hu Hs0 Hm.
  intros Hs Hi HQ. destruct (info_at0 i Hi) as [x0 Ex0]. pose proof (phi_info_at P s i x0 Hs Ex0) as Ex. unfold insert_phi.
  apply run_bind. eapply run_info_of; [done|]. cbn. unfold phi_insn. apply run_bind. apply run_bind, run_request; [done|]. intros h1. cbn [negb].
  apply run_bind, run_request; [done|]. intros h2. rewrite decide_False by naive_solver. apply run_ret, run_bind. eapply run_try; [done|].
  eapply run_update_are; [apply infos_are_heap; by apply infos_are_heap|by apply (vs_lt u vs Hu), (vs_in u vs Hu)| |done].
  intros j x Ex'. unfold phi_info. cbn. case_decide as Hj; [|done]. subst j. simplify_eq. done.
Qed.

(** ** The arrays and the work set *)

(** The entry of a block of an array that is indexed by the numbers. *)
Definition tagged (v : Z) (arr : list (option Z)) (b : nat) : Prop := b ∈ vs ∧ arr !! num b = Some (Some v).
#[local] Instance tagged_dec v arr b : Decision (tagged v arr b) := _.

Definition filled (A : Z → Prop) (arr : list (option Z)) : Prop :=
  length arr = n ∧ ∀ b, b ∈ vs → ∃ z, arr !! num b = Some (Some z) ∧ A z.
Definition pending_in (ws : B) (b : nat) : Prop := b ∈ vs ∧ bs_mem ws (Z.of_nat (num b)) = true.
#[local] Instance pending_in_dec ws b : Decision (pending_in ws b) := _.

Lemma run_entry A arr b s (Q : Z → ssa_unit B → Prop) : filled A arr → b ∈ vs → (∀ z, arr !! num b = Some (Some z) → Q z s) →
  run (try (mjoin (array_get arr (Z.of_nat (num b))))) Q s.
Proof using.
  intros [_ Hf] Hb HQ. destruct (Hf b Hb) as (z & Ez & _). eapply run_try; [|by apply HQ]. unfold array_get. rewrite decide_True by lia.
  by rewrite Nat2Z.id, Ez.
Qed.

Lemma run_set_entry arr b v s (Q : list (option Z) → ssa_unit B → Prop) : length arr = n → b ∈ vs → Q (<[num b := Some v]> arr) s →
  run (try (array_set arr (Z.of_nat (num b)) (Some v))) Q s.
Proof using Hu.
  intros Hl Hb HQ. pose proof (num_lt u vs Hu b Hb). eapply run_try; [|done]. unfold array_set. rewrite decide_True by lia. by rewrite Nat2Z.id.
Qed.

Lemma filled_insert (A : Z → Prop) arr b v : A v → filled A arr → b ∈ vs → filled A (<[num b := Some v]> arr).
Proof using Hu.
  intros HA [Hl Hf] Hb. pose proof (num_lt u vs Hu b Hb). split; [by rewrite length_insert|]. intros c Hc. destruct (decide (num c = num b)) as [->|Hne].
  - rewrite list_lookup_insert_eq by lia. eauto.
  - rewrite list_lookup_insert_ne by done. auto.
Qed.
Lemma tagged_insert arr b v c : length arr = n → b ∈ vs → tagged v (<[num b := Some v]> arr) c ↔ c = b ∨ tagged v arr c.
Proof using Hu.
  intros Hl Hb. pose proof (num_lt u vs Hu b Hb). unfold tagged. destruct (decide (c = b)) as [->|Hne].
  - rewrite list_lookup_insert_eq by lia. tauto.
  - split; [intros [Hc E]; right; split; [done|]|intros [?|[Hc E]]; [done|split; [done|]]].
    + rewrite list_lookup_insert_ne in E; [done|]. intros E'. by apply Hne, (num_injective u vs Hu).
    + rewrite list_lookup_insert_ne; [done|]. intros E'. by apply Hne, (num_injective u vs Hu).
Qed.

Lemma pending_set ws b : bs_wf (Z.of_nat n) ws → b ∈ vs →
  ∃ ws2, bs_set ws (Z.of_nat (num b)) = Some ws2 ∧ bs_wf (Z.of_nat n) ws2 ∧ (∀ c, pending_in ws2 c ↔ c = b ∨ pending_in ws c) ∧
    ∀ j, 0 <= j → bs_mem ws2 j = true → j = Z.of_nat (num b) ∨ bs_mem ws j = true.
Proof using Hu H0.
  intros Hwf Hb. pose proof (num_lt u vs Hu b Hb). destruct (bs_set_law _ ws (Z.of_nat (num b)) Hwf) as (ws2 & E & Hwf' & Hmem); [lia|].
  exists ws2. split_and!; [done|done| |].
  - intros c. unfold pending_in. rewrite Hmem, orb_true_iff, bool_decide_eq_true by lia. split.
    + intros [Hc [E'|?]]; [left; apply (num_injective u vs Hu); [done|done|lia]|by right].
    + intros [->|[? ?]]; [by split; [|left]|by split; [|right]].
  - intros j Hj. rewrite Hmem, orb_true_iff, bool_decide_eq_true by done. tauto.
Qed.
Lemma pending_clear ws b : bs_wf (Z.of_nat n) ws → b ∈ vs →
  ∃ ws2, bs_clear ws (Z.of_nat (num b)) = Some ws2 ∧ bs_wf (Z.of_nat n) ws2 ∧ (∀ c, pending_in ws2 c ↔ c ≠ b ∧ pending_in ws c) ∧
    (∀ j, 0 <= j → bs_mem ws2 j = true → bs_mem ws j = true) ∧ bs_mem ws2 (Z.of_nat (num b)) = false.
Proof using Hu SetScanLaws0.
  intros Hwf Hb. pose proof (num_lt u vs Hu b Hb). destruct (bs_clear_bit_law _ ws (Z.of_nat (num b)) Hwf) as (ws2 & E & Hwf' & Hmem); [lia|].
  exists ws2. split_and!; [done|done| | |].
  - intros c. unfold pending_in. rewrite Hmem, andb_true_iff, negb_true_iff, bool_decide_eq_false by lia. split.
    + intros [Hc [Hne ?]]. split; [congruence|done].
    + intros [Hne [Hc ?]]. split_and!; [done| |done]. intros E'. apply Hne, (num_injective u vs Hu); [done|done|lia].
  - intros j Hj. rewrite Hmem, andb_true_iff by done. tauto.
  - rewrite Hmem by lia. by rewrite bool_decide_true.
Qed.

(** ** One variable *)

Section variable.
Context (v : Z) (Hv : 0 <= v < nr_vregs) (P0 : nat → list Z) (A : Z → Prop) (HA : A v).

Definition placed w (i : nat) : list Z := if decide (tagged v (inserted w) i) then v :: P0 i else P0 i.

(** The blocks in [ex] are being looked at: their frontiers are not yet done. *)
Record phi_inv (ex : nat → Prop) w s : Prop := {
  pi_infos : infos_are s0 (phi_info (placed w)) s;
  pi_wf : bs_wf (Z.of_nat n) (workset w);
  pi_numbers j : 0 <= j < Z.of_nat n → bs_mem (workset w) j = true → ∃ b, b ∈ vs ∧ j = Z.of_nat (num b);
  pi_inserted : filled A (inserted w);
  pi_work : filled A (work w);
  pi_work_iff b : tagged v (work w) b ↔ b ∈ vs ∧ (defines v b ∨ tagged v (inserted w) b);
  pi_needs b : tagged v (inserted w) b → needs_phi v b;
  pi_pending b : pending_in (workset w) b → tagged v (work w) b;
  pi_closed b c : tagged v (work w) b → ¬ pending_in (workset w) b → ¬ ex b → frontier b c → c ∈ vs → live_in v c → tagged v (inserted w) c;
  pi_last b : pending_in (workset w) b → last_ndx w <= Z.of_nat (num b);
  pi_range : 0 <= last_ndx w < Z.of_nat n;
}.

(** The blocks that are still to be looked at. *)
Definition open_block w (b : nat) : Prop := ¬ tagged v (work w) b ∨ pending_in (workset w) b.
#[local] Instance open_block_dec w b : Decision (open_block w b) := _.

(** A phi instruction for [v] is put into [c], which has none. *)
Lemma placed_insert ws wk k w c i : length (inserted w) = n → c ∈ vs → ¬ tagged v (inserted w) c →
  placed (PS ws (<[num c := Some v]> (inserted w)) wk k) i = if decide (i = c) then v :: placed w i else placed w i.
Proof using Hv nr_vregs Hu.
  intros Hl Hc Hn. unfold placed. cbn. pose proof (tagged_insert (inserted w) c v i Hl Hc) as Ht.
  destruct (decide (i = c)) as [->|Hne]; [rewrite (decide_True (P := tagged _ _ _)), (decide_False (P := tagged _ (inserted w) _)) by tauto; done|].
  destruct (decide (tagged v (inserted w) i)); [rewrite decide_True by tauto|rewrite decide_False by tauto]; done.
Qed.

Lemma pi_needs_work ex w s d : phi_inv ex w s → tagged v (work w) d → defines v d ∨ needs_phi v d.
Proof using. intros Hi Hd. apply (pi_work_iff _ _ _ Hi) in Hd as [_ [?|?]]; [by left|right]. by apply (pi_needs _ _ _ Hi). Qed.

#[local] Abbreviation with_phi c w := (phi_info (λ j, if decide (j = c) then v :: placed w j else placed w j)).

(** The block gets its phi instruction and was looked at before, or is to be. *)
Lemma phi_inv_tag ex w s s' c : phi_inv ex w s → c ∈ vs → ¬ tagged v (inserted w) c → needs_phi v c → tagged v (work w) c →
  infos_are s0 (with_phi c w) s' → phi_inv ex (PS (workset w) (<[num c := Some v]> (inserted w)) (work w) (last_ndx w)) s'.
Proof using Hv nr_vregs Hu HA.
  intros Hi Hc Hnc Hnp Hcw Hs'. pose proof (tagged_insert (inserted w) c v) as Hti.
  pose proof Hi as [_ Hpwf Hpn Hfi Hfw Hpw Hpneed Hpp Hpcl Hplast Hprange]. pose proof Hfi as [Hli _]. constructor; cbn; try done.
  - eapply infos_are_ext; [exact Hs'|]. intros i x _. unfold phi_info. by rewrite (placed_insert (workset w) (work w) (last_ndx w) w c i Hli Hc Hnc).
  - by apply filled_insert.
  - intros b. rewrite Hti, Hpw by done. pose proof (proj1 (Hpw c) Hcw). destruct (decide (b = c)) as [->|Hbc]; tauto.
  - intros b. rewrite Hti by done. intros [->|?]; auto.
  - intros b c' Hb Hp Hbd Hf Hc' Hl'. apply Hti; [done|done|]. right. by eapply Hpcl.
Qed.
Lemma phi_inv_push ex w s s' c : phi_inv ex w s → c ∈ vs → ¬ tagged v (inserted w) c → needs_phi v c → ¬ tagged v (work w) c →
  infos_are s0 (with_phi c w) s' → ∃ ws, bs_set (workset w) (Z.of_nat (num c)) = Some ws ∧
    let w' := PS ws (<[num c := Some v]> (inserted w)) (<[num c := Some v]> (work w))
      (if decide (Z.of_nat (num c) < last_ndx w) then Z.of_nat (num c) else last_ndx w) in
    phi_inv ex w' s' ∧ ∀ b, open_block w' b → open_block w b.
Proof using Hv nr_vregs Hu HA H0.
  intros Hi Hc Hnc Hnp Hcw Hs'. pose proof (tagged_insert (inserted w) c v) as Hti. pose proof (tagged_insert (work w) c v) as Htw.
  pose proof Hi as [_ Hpwf Hpn Hfi Hfw Hpw Hpneed Hpp Hpcl Hplast Hprange]. pose proof Hfi as [Hli _]. pose proof Hfw as [Hlw _].
  destruct (pending_set (workset w) c Hpwf Hc) as (ws & Es & Hwfs & Hps & Hns). exists ws. split; [done|]. cbn. pose proof (num_lt u vs Hu c Hc). split.
  - constructor; cbn; try done.
    + eapply infos_are_ext; [exact Hs'|]. intros i x _. unfold phi_info. by rewrite (placed_insert ws _ _ w c i Hli Hc Hnc).
    + intros j Hj Hmj. apply Hns in Hmj as [->|?]; [by exists c|auto|lia].
    + by apply filled_insert.
    + by apply filled_insert.
    + intros b. rewrite Hti, Htw, Hpw by done. destruct (decide (b = c)) as [->|Hbc]; tauto.
    + intros b. rewrite Hti by done. intros [->|?]; auto.
    + intros b. rewrite Hps, Htw by done. intros [->|?]; [by left|right; auto].
    + intros b c' Hb Hp Hbd Hf Hc' Hl'. rewrite Hps in Hp. apply Htw in Hb; [|done|done]. apply Hti; [done|done|]. right.
      eapply Hpcl; [destruct Hb as [->|?]; [tauto|done]|tauto|done|done|done|done].
    + intros b. rewrite Hps. intros [->|Hb%Hplast]; case_decide; lia.
    + case_decide; lia.
  - intros b [Hb|Hb]; cbn in Hb.
    + left. intros Hb'. apply Hb, Htw; [done|done|]. by right.
    + apply Hps in Hb as [->|Hb]; [by left|by right].
Qed.

Lemma frontier_loop_ok d fuel : d ∈ vs → ∀ temp ndx lo w s, phi_inv (λ b, b = d) w s → tagged v (work w) d →
  bs_wf (Z.of_nat n) temp → (∀ j, 0 <= j → bs_mem temp j = true → frontier_bit (blocks u) d j = true) →
  (∀ j, 0 <= j < lo → bs_mem temp j = false) → 0 <= ndx <= lo → ndx < Z.of_nat n → Z.of_nat n - lo < Z.of_nat fuel → lo <= Z.of_nat n →
  (∀ c, c ∈ vs → frontier d c → bs_mem temp (Z.of_nat (num c)) = false → live_in v c → tagged v (inserted w) c) →
  run (frontier_loop fuel v temp ndx w) (λ w' s', phi_inv (λ _, False) w' s' ∧ ∀ b, open_block w' b → open_block w b) s.
Proof using Hu Hs0 Hin H0 SetScanLaws0 Hm Hv HA.
  intros Hd. induction fuel as [|fuel IH]; intros temp ndx lo w s Hi Hdw Hwf Hsub Hlow Hndx Hn Hfuel Hlo Hdone; [lia|]. cbn [frontier_loop].
  destruct (bs_next_law _ temp ndx Hwf ltac:(lia)) as (r & Er & Hr). apply run_bind. eapply run_try; [done|].
  destruct Hr as [[-> Hnone]|(Hr & Hmr & _)].
  { rewrite decide_True by done. apply run_ret. split; [|done]. destruct Hi. constructor; try done. intros b c Hb Hp _ Hf Hc Hl.
    destruct (decide (b = d)) as [->|Hbd]; [|by eapply pi_closed0]. apply Hdone; [done|done| |done]. pose proof (num_lt u vs Hu c Hc).
    destruct (decide (Z.of_nat (num c) < ndx)); [apply Hlow; lia|apply Hnone; lia]. }
  rewrite decide_False by lia. destruct (in_numbers Hin d r Hd ltac:(lia)) as (c & Hc & ->); [apply Hsub; [lia|done]|].
  assert (frontier d c) as Hfc by (apply Hsub; [lia|done]).
  assert (lo <= Z.of_nat (num c)) as Hloc by (destruct (decide (Z.of_nat (num c) < lo)); [rewrite Hlow in Hmr by lia; done|lia]).
  destruct (pending_clear temp c Hwf Hc) as (temp' & Ec & Hwf' & Hpc & Hsub' & Hmc). apply run_bind. eapply run_try; [done|].
  assert (∀ ws insd wk k s', phi_inv (λ b, b = d) (PS ws insd wk k) s' → tagged v wk d → (∀ a, a ∈ vs → tagged v (inserted w) a → tagged v insd a) →
    (live_in v c → tagged v insd c) → (∀ b, open_block (PS ws insd wk k) b → open_block w b) →
    run (frontier_loop fuel v temp' (Z.of_nat (num c)) (PS ws insd wk k))
      (λ w' s', phi_inv (λ _, False) w' s' ∧ ∀ b, open_block w' b → open_block w b) s') as Hgo.
  { intros ws insd wk k s' Hi' Hdw' Hmono Hlc Hopen. eapply run_mono.
    - eapply (IH temp' _ (Z.of_nat (num c) + 1)); [done|done|done| | |lia|lia|lia|lia|].
      + intros j Hj Hmj. apply Hsub; [done|]. by apply Hsub'.
      + intros j Hj. destruct (bs_mem temp' j) eqn:E; [|done]. exfalso. destruct (decide (j = Z.of_nat (num c))) as [->|Hne]; [congruence|].
        destruct (in_numbers Hin d j Hd ltac:(lia)) as (a & Ha & ->); [apply Hsub; [lia|by apply Hsub'; [lia|]]|].
        assert (bs_mem temp (Z.of_nat (num a)) = true) as Hma by (apply Hsub'; [lia|done]).
        destruct (bs_next_law _ temp ndx Hwf ltac:(lia)) as (r' & Er' & Hr'). rewrite Er in Er'. injection Er' as <-.
        destruct Hr' as [[? _]|(_ & _ & Hmin)]; [lia|]. destruct (decide (Z.of_nat (num a) < lo)); [rewrite Hlow in Hma by lia; done|].
        rewrite Hmin in Hma by lia. done.
      + intros a Ha Hfa Hma Hla. cbn. destruct (decide (a = c)) as [->|Hac]; [by apply Hlc|]. apply Hmono; [done|]. apply Hdone; [done|done| |done].
        destruct (bs_mem temp (Z.of_nat (num a))) eqn:E; [|done]. assert (pending_in temp' a) as [_ ?]; [|congruence]. apply Hpc. by split.
    - cbn. intros w' s'' [? Ho]. split; [done|]. intros b Hb. by apply Hopen, Ho. }
  apply run_bind. eapply run_df_array; [exact (ia_shape _ _ _ _ (pi_infos _ _ _ Hi))|done|].
  apply run_bind. eapply run_entry; [by eapply pi_inserted|done|]. intros z Ez.
  destruct (decide (z = v)) as [->|Hzv].
  { destruct w as [ws insd wk k]. apply Hgo; [done|done|done| |done]. intros _. by split. }
  assert (¬ tagged v (inserted w) c) as Hnc by (intros [_ E]; congruence).
  destruct (info_at0 c Hc) as [x0 Ex0]. pose proof (phi_info_at _ _ _ _ (pi_infos _ _ _ Hi) Ex0) as Ex.
  apply run_bind. eapply run_try; [done|]. apply run_bind. eapply run_info_of; [done|]. apply run_bind.
  eapply run_live_test; [by eapply pi_infos|done|done|done|]. intros t Ht. destruct t; cbn [negb].
  2:{ destruct w as [ws insd wk k]. apply Hgo; [done|done|done| |done]. intros Hl. by apply Ht in Hl. }
  assert (live_in v c) as Hlc by (by apply Ht). pose proof (pi_inserted _ _ _ Hi) as Hfi. pose proof (pi_work _ _ _ Hi) as Hfw.
  apply run_bind. eapply run_set_entry; [by apply Hfi|done|]. apply run_bind. eapply run_insert_phi; [by eapply pi_infos|done|]. intros s' Hs'.
  assert (needs_phi v c) as Hnp.
  { destruct (pi_needs_work _ _ _ d Hi Hdw); [by eapply needs_phi_def|by eapply needs_phi_phi]. }
  assert (∀ a, tagged v (inserted w) a → tagged v (<[num c := Some v]> (inserted w)) a) as Hmono.
  { intros a Ha. apply tagged_insert; [apply Hfi|done|by right]. }
  assert (tagged v (<[num c := Some v]> (inserted w)) c) as Hct by (apply tagged_insert; [apply Hfi|done|by left]).
  apply run_bind. eapply run_entry; [done|done|]. intros z' Ez'. destruct (decide (z' = v)) as [->|Hz'v].
  - apply Hgo; [by apply (phi_inv_tag _ w s)|done|by auto|done|done].
  - destruct (phi_inv_push _ w s s' c Hi Hc Hnc Hnp) as (ws & Es & Hi' & Ho); [intros [_ ?]; congruence|done|].
    apply run_bind. eapply run_try; [done|]. apply run_bind. eapply run_set_entry; [by apply Hfw|done|].
    apply Hgo; [done| |by auto|done|done]. apply tagged_insert; [apply Hfw|done|by right].
Qed.

Lemma iterate_dom_frontier_set_ok d w s : d ∈ vs → phi_inv (λ b, b = d) w s → tagged v (work w) d →
  run (iterate_dom_frontier_set v d w) (λ w' s', phi_inv (λ _, False) w' s' ∧ ∀ b, open_block w' b → open_block w b) s.
Proof using Hu Hs0 Hin H0 SetScanLaws0 Hm Hv HA.
  intros Hd Hi Hdw. pose proof (ia_shape _ _ _ _ (pi_infos _ _ _ Hi)) as Hs. destruct (do_unit u vs Hu) as [Hg Hnr].
  pose proof (unit_entry u (do_unit u vs Hu)) as Hpos. pose proof (go_small _ _ _ Hg). unfold iterate_dom_frontier_set.
  apply run_bind, run_get. rewrite (sh_unit u s Hs). unfold nr_bblocks. rewrite Hnr, Nat2Z.id. apply run_bind, run_alloc; [done|lia|].
  intros h temp Hwf _. apply run_bind. eapply run_try; [done|].
  destruct (in_frontiers Hin d (vs_in u vs Hu d Hd)) as (f & Ef & Hwff). destruct (blocks u !! d) as [b|] eqn:Eb; [|done]. cbn in Ef.
  apply run_bind. eapply run_block_of; [cbn; by rewrite (sh_unit u s Hs)|]. apply run_bind. eapply run_try; [done|].
  destruct (bs_copy_law _ f temp Hwff Hwf) as [Hwfc Hcopy].
  assert (∀ j, 0 <= j → bs_mem (bs_copy_to f temp) j = frontier_bit (blocks u) d j) as Hbits.
  { intros j Hj. rewrite Hcopy by done. unfold frontier_bit. rewrite Eb. cbn. by rewrite Ef. }
  apply (frontier_loop_ok d _ Hd _ 0 0); [|done|done| |lia|lia|lia|lia|lia|].
  - destruct Hi. constructor; try done. by apply infos_are_heap.
  - intros j Hj. by rewrite Hbits.
  - intros c Hc Hf Hb Hl. rewrite Hbits in Hb by lia. unfold frontier in Hf. congruence.
Qed.

(** The blocks that are looked at become fewer. *)
Lemma open_shrinks w w' i : i ∈ vs → open_block w i → ¬ open_block w' i → (∀ b, open_block w' b → open_block w b) →
  (length (filter (open_block w') vs) < length (filter (open_block w) vs))%nat.
Proof using.
  intros Hi Ho Hn Hsub. clear Hin Hs0 Hu. induction vs as [|x xs IH]; [by apply elem_of_nil in Hi|]. rewrite !filter_cons.
  assert (length (filter (open_block w') xs) <= length (filter (open_block w) xs))%nat as Hle.
  { clear IH Hi. induction xs as [|y ys IHy]; [done|]. rewrite !filter_cons. repeat case_decide; cbn; try lia. exfalso. auto. }
  apply elem_of_cons in Hi as [->|Hi].
  - rewrite (decide_False (P := open_block w' x)), (decide_True (P := open_block w x)) by done. cbn. lia.
  - specialize (IH Hi). repeat case_decide; cbn; try lia. exfalso. auto.
Qed.

(** What is left when the work set is empty. *)
Record variable_done w s : Prop := {
  vd_infos : infos_are s0 (phi_info (placed w)) s;
  vd_wf : bs_wf (Z.of_nat n) (workset w);
  vd_empty j : 0 <= j < Z.of_nat n → bs_mem (workset w) j = false;
  vd_inserted : filled A (inserted w);
  vd_work : filled A (work w);
  vd_needs b : tagged v (inserted w) b ↔ b ∈ vs ∧ needs_phi v b;
}.

Lemma phi_inv_done w s : phi_inv (λ _, False) w s → (∀ j, last_ndx w <= j < Z.of_nat n → bs_mem (workset w) j = false) →
  variable_done (PS (workset w) (inserted w) (work w) (-1)) s.
Proof using Hv nr_vregs Hu.
  intros Hi Hnone. pose proof Hi as [Hinf Hwf Hnum Hfi Hfw Hiff Hneed Hpend Hcl Hlast Hrange].
  assert (∀ b, ¬ pending_in (workset w) b) as Hno.
  { intros b Hb. pose proof (Hlast b Hb). destruct Hb as [Hb Hmb]. pose proof (num_lt u vs Hu b Hb). rewrite Hnone in Hmb by lia. done. }
  assert (∀ b, needs_phi v b → tagged v (inserted w) b) as Hall.
  { induction 1 as [d b Hdef Hd Hf Hb Hl|d b Hnp IH Hd Hf Hb Hl]; (eapply Hcl; [apply Hiff|apply Hno|tauto|exact Hf|done|done]); tauto. }
  constructor; cbn; try done.
  - intros j Hj. destruct (bs_mem (workset w) j) eqn:E; [|done]. destruct (Hnum j ltac:(lia) E) as (b & Hb & ->). by destruct (Hno b).
  - intros b. split; [|by intros [_ ?]; auto]. intros Ht. split; [apply Ht|auto].
Qed.

Lemma work_loop_ok fuel : ∀ w s, phi_inv (λ _, False) w s → (length (filter (open_block w) vs) < fuel)%nat →
  run (work_loop fuel v w) variable_done s.
Proof using Hu Hs0 Hin H0 SetScanLaws0 Hm Hv HA.
  induction fuel as [|fuel IH]; intros w s Hi Hfuel; [lia|]. cbn [work_loop].
  destruct (bs_next_law _ (workset w) (last_ndx w) (pi_wf _ _ _ Hi) (pi_range _ _ _ Hi)) as (r & Er & Hr).
  apply run_bind. eapply run_try; [done|]. destruct Hr as [[-> Hnone]|(Hr & Hmr & Hmin)].
  { rewrite decide_True by done. apply run_ret. by apply phi_inv_done. }
  pose proof (pi_range _ _ _ Hi) as Hrange. rewrite decide_False by lia.
  destruct (pi_numbers _ _ _ Hi r ltac:(lia) Hmr) as (i & Hiv & ->).
  destruct (pending_clear (workset w) i (pi_wf _ _ _ Hi) Hiv) as (ws & Ec & Hwf & Hpc & Hsub & _).
  apply run_bind. eapply run_try; [done|]. apply run_bind.
  eapply run_mono with (Q := λ r s', r = i ∧ s' = s).
  { pose proof (run_df_array s i (λ r s', r = Some i ∧ s' = s) (ia_shape _ _ _ _ (pi_infos _ _ _ Hi)) Hiv ltac:(done)) as Hrun.
    unfold run, wp, bind, get in *. destruct (array_get _ _) as [[j|]|]; cbn in *; naive_solver. }
  cbn. intros r s' [-> ->]. pose proof Hi as [Hinf _ Hnum Hfi Hfw Hiff Hneed Hpend Hcl Hlast _].
  assert (tagged v (work w) i) as Hiw by (apply Hpend; by split). set (w1 := PS ws (inserted w) (work w) (Z.of_nat (num i))).
  assert (phi_inv (λ b, b = i) w1 s) as Hi1.
  { constructor; cbn; try done.
    - intros j Hj Hmj. apply Hnum; [done|]. apply Hsub; [lia|done].
    - intros b. rewrite Hpc. intros [_ ?]. auto.
    - intros b c Hb. rewrite Hpc. intros Hnp Hbi. apply Hcl; [done|tauto|tauto].
    - intros b. rewrite Hpc. intros [_ [Hb Hmb]]. pose proof (Hlast b (conj Hb Hmb)).
      destruct (decide (Z.of_nat (num b) < Z.of_nat (num i))); [|lia]. rewrite Hmin in Hmb by lia. done.
    - lia. }
  apply run_bind. eapply run_mono; [apply (iterate_dom_frontier_set_ok i w1 s Hiv Hi1 Hiw)|]. cbn. intros w2 s2 [Hi2 Ho2]. apply (IH w2 s2 Hi2).
  assert (length (filter (open_block w2) vs) < length (filter (open_block w) vs))%nat; [|lia].
  apply (open_shrinks w w2 i Hiv).
  - right. by split.
  - intros Ho%Ho2. destruct Ho as [?|Hp]; [done|]. apply Hpc in Hp. tauto.
  - intros b Hb%Ho2. destruct Hb as [?|Hp]; [by left|]. right. apply Hpc in Hp. tauto.
Qed.

(** ** The definitions of the variable *)

Record defs_inv (pre : list nat) w : Prop := {
  di_wf : bs_wf (Z.of_nat n) (workset w);
  di_numbers j : 0 <= j < Z.of_nat n → bs_mem (workset w) j = true → ∃ b, b ∈ vs ∧ j = Z.of_nat (num b);
  di_work : filled A (work w);
  di_pending b : pending_in (workset w) b ↔ b ∈ vs ∧ b ∈ pre ∧ defines v b;
  di_tagged b : tagged v (work w) b ↔ b ∈ vs ∧ b ∈ pre ∧ defines v b;
  di_last : (last_ndx w = -1 ∧ ∀ b, ¬ pending_in (workset w) b) ∨
    (0 <= last_ndx w < Z.of_nat n ∧ ∀ b, pending_in (workset w) b → last_ndx w <= Z.of_nat (num b));
}.

Lemma collect_defs_ok P s ls : infos_are s0 (phi_info P) s → ∀ pre w, pre ++ ls = l → defs_inv pre w →
  run (collect_defs v ls w) (λ w' s', s' = s ∧ inserted w' = inserted w ∧ defs_inv l w') s.
Proof using H1 Hm P0 SetScan0 SetScanLaws0 Hu Hs0 Hin H0 Hv HA.
  intros Hs. pose proof (ia_shape _ _ _ _ Hs) as Hsh. induction ls as [|i ls IH]; intros pre w El Hd.
  { apply run_ret. rewrite app_nil_r in El. by subst pre. }
  assert (i ∈ l) as Hil by (rewrite <- El; set_solver). assert ((pre ++ [i]) ++ ls = l) as El' by (by rewrite <- app_assoc).
  assert (¬ (i ∈ vs ∧ defines v i) → run (collect_defs v ls w) (λ w' s', s' = s ∧ inserted w' = inserted w ∧ defs_inv l w') s) as Hskip.
  { intros Hn. apply (IH (pre ++ [i])); [done|]. destruct Hd. constructor; try done; intros b;
      [rewrite di_pending0|rewrite di_tagged0]; rewrite elem_of_app, list_elem_of_singleton; naive_solver. }
  cbn [collect_defs]. apply run_bind. eapply run_bb_is_eh; [done|done|done|].
  destruct (decide (i ∈ vs)) as [Hi|Hi]; [rewrite bool_decide_false by tauto|rewrite bool_decide_true by done; apply Hskip; tauto].
  destruct (info_at0 i Hi) as [x0 Ex0]. pose proof (phi_info_at P s i x0 Hs Ex0) as Ex. apply run_bind. eapply run_info_of; [done|].
  apply run_bind. eapply run_def_test; [done|done|done|done|]. intros t Ht. destruct t; cbn [negb]; [|apply Hskip; intros [_ Hdef]; by apply Ht in Hdef].
  assert (defines v i) as Hdef by (by apply Ht). destruct (block_in u vs Hu s i Hsh Hil) as (b & _ & Eb & _ & Ed & _).
  apply run_bind. eapply run_block_of; [done|]. destruct Hd as [Hwf Hnum Hfw Hpend Htag Hlast]. rewrite Ed.
  destruct (pending_set (workset w) i Hwf Hi) as (ws & Es & Hwfs & Hps & Hns). apply run_bind. eapply run_try; [done|].
  apply run_bind. eapply run_set_entry; [by apply Hfw|done|]. pose proof (num_lt u vs Hu i Hi).
  eapply run_mono; [apply (IH (pre ++ [i])); [done|]|cbn; naive_solver]. constructor; cbn; try done.
  - intros j Hj Hmj. apply Hns in Hmj as [->|?]; [by exists i|auto|lia].
  - by apply filled_insert.
  - intros c. rewrite Hps, Hpend, elem_of_app, list_elem_of_singleton. naive_solver.
  - intros c. rewrite tagged_insert by (done || apply Hfw). rewrite Htag, elem_of_app, list_elem_of_singleton. naive_solver.
  - right. split.
    + case_decide as Hc; [lia|]. destruct Hlast as [[? _]|[? _]]; [tauto|lia].
    + intros c. rewrite Hps. intros [->|Hp].
      * case_decide as Hc; lia.
      * destruct Hlast as [[_ Hno]|[Hge Hle]]; [by apply Hno in Hp|]. specialize (Hle c Hp). case_decide; lia.
Qed.
End variable.

(** ** All variables *)

(** Between two variables: those of [done] have their phi instructions. *)
Record placed_all (done : list Z) (P : nat → list Z) w s : Prop := {
  pa_infos : infos_are s0 (phi_info P) s;
  pa_wf : bs_wf (Z.of_nat n) (workset w);
  pa_empty j : 0 <= j < Z.of_nat n → bs_mem (workset w) j = false;
  pa_inserted : filled (λ z, z = SSA_INIT_BLOCK ∨ z ∈ done) (inserted w);
  pa_work : filled (λ z, z = SSA_INIT_BLOCK ∨ z ∈ done) (work w);
  pa_order i : P i `sublist_of` reverse done;
  pa_needs i v : i ∈ vs → v ∈ P i ↔ v ∈ done ∧ needs_phi v i;
  pa_other i : i ∉ vs → P i = [];
}.
Context (Hvregs : nr_vregs < 2 ^ 31).

Lemma filled_weaken (A A' : Z → Prop) arr : (∀ z, A z → A' z) → filled A arr → filled A' arr.
Proof using. intros HA [Hl Hf]. split; [done|]. intros b Hb. destruct (Hf b Hb) as (z & ? & ?). eauto. Qed.
Lemma filled_not_tagged (A : Z → Prop) arr v b : filled A arr → ¬ A v → ¬ tagged v arr b.
Proof using. intros [_ Hf] Hv [Hb E]. destruct (Hf b Hb) as (z & E' & HA). rewrite E in E'. by injection E' as <-. Qed.

(** The next variable has its phi instructions in the blocks where it is inserted. *)
Lemma placed_all_next done P v w s : v ∉ done → 0 <= v < nr_vregs → placed_all done P w s →
  ∀ w' s', variable_done v P (λ z, z = SSA_INIT_BLOCK ∨ z ∈ done ++ [v]) w' s' → placed_all (done ++ [v]) (placed v P w') w' s'.
Proof using Hu Hvregs.
  intros Hv Hr Hp w' s' [Hi Hwf He Hfi Hfw Hn]. constructor; try done.
  - intros i. rewrite reverse_app. cbn. unfold placed. pose proof (pa_order _ _ _ _ Hp i). case_decide; by constructor.
  - intros i v' Hiv. unfold placed. pose proof (pa_needs _ _ _ _ Hp i v' Hiv) as Hneeds. specialize (Hn i).
    rewrite elem_of_app, list_elem_of_singleton. case_decide as Ht.
    + rewrite elem_of_cons, Hneeds. split; [intros [->|?]; tauto|]. intros [[?| ->] ?]; tauto.
    + rewrite Hneeds. split; [tauto|]. intros [[?| ->] ?]; [tauto|]. destruct Ht. apply Hn. by split.
  - intros i Hiv. unfold placed. rewrite decide_False; [by apply (pa_other _ _ _ _ Hp)|]. by intros [? _].
Qed.

#[local] Abbreviation tags done := (λ z : Z, z = SSA_INIT_BLOCK ∨ z ∈ done).

Lemma place_phis_ok done P v w s : v ∉ done → 0 <= v < nr_vregs → placed_all done P w s →
  run (place_phis v w) (λ w' s', placed_all (done ++ [v]) (placed v P w') w' s') s.
Proof using Hu Hs0 Hin H0 SetScanLaws0 Hm Hvregs.
  intros Hv Hr Hp. pose proof Hp as [Hinf Hwf Hempty Hfi Hfw Hord Hneeds Hother]. pose proof (ia_shape _ _ _ _ Hinf) as Hsh.
  destruct (do_unit u vs Hu) as [Hg Hnr]. assert (¬ tags done v) as Hnv by (intros [->|?]; [unfold SSA_INIT_BLOCK in Hr; lia|done]).
  assert (∀ z, tags done z → tags (done ++ [v]) z) as Hweak by (intros z [?|?]; [by left|right; set_solver]).
  assert (tags (done ++ [v]) v) as HA by (right; set_solver).
  pose proof (filled_weaken _ _ _ Hweak Hfi) as Hfi'. pose proof (filled_weaken _ _ _ Hweak Hfw) as Hfw'.
  assert (∀ b, ¬ tagged v (inserted w) b) as Hnt by (intros b; exact (filled_not_tagged _ _ _ b Hfi Hnv)).
  assert (∀ b, ¬ pending_in (workset w) b) as Hnp.
  { intros b [Hb Hmb]. pose proof (num_lt u vs Hu b Hb). rewrite Hempty in Hmb by lia. done. }
  unfold place_phis. apply run_bind, run_get. rewrite (sh_unit u s Hsh). apply run_bind.
  eapply run_mono; [apply (collect_defs_ok v Hr P (tags (done ++ [v])) HA P s l Hinf [] (PS (workset w) (inserted w) (work w) (-1)) eq_refl)|].
  { constructor; cbn; try done.
    - intros j Hj. by rewrite Hempty.
    - intros b. split; [intros Hb; by apply Hnp in Hb|]. by intros (_ & ?%elem_of_nil & _).
    - intros b. split; [intros Hb; by apply (filled_not_tagged _ _ _ _ Hfw Hnv) in Hb|]. by intros (_ & ?%elem_of_nil & _).
    - left. by split. }
  cbv beta. cbn [inserted]. intros w1 s1 (-> & Ei & [Hwf1 Hnum1 Hfw1 Hpend1 Htag1 Hlast1]).
  assert (placed v P w1 = placed v P w) as Epl by (unfold placed; by rewrite Ei).
  assert (∀ j, placed v P w1 j = P j) as Epl0.
  { intros j. rewrite Epl. unfold placed. by rewrite decide_False. }
  assert (infos_are s0 (phi_info (placed v P w1)) s) as Hinf1.
  { eapply infos_are_ext; [done|]. intros j x _. unfold phi_info. by rewrite Epl0. }
  destruct Hlast1 as [[El Hno]|[Hrange Hle]].
  - rewrite decide_True by done. apply run_ret. apply (placed_all_next done P v w s Hv Hr Hp). constructor; try done.
    + intros j Hj. destruct (bs_mem (workset w1) j) eqn:E; [|done]. destruct (Hnum1 j Hj E) as (b & Hb & ->). by destruct (Hno b).
    + by rewrite Ei.
    + intros b. rewrite Ei. split; [intros Hb; by apply Hnt in Hb|]. intros [_ Hb]. exfalso.
      assert (∀ d, ¬ (d ∈ vs ∧ defines v d)) as Hnd.
      { intros d [Hd Hdd]. apply (Hno d). apply Hpend1. split_and!; [done|by apply (vs_in u vs Hu)|done]. }
      clear - Hb Hnd. induction Hb; naive_solver.
  - rewrite decide_False by lia. apply run_bind, run_get. rewrite (sh_unit u s Hsh). unfold nr_bblocks. rewrite Hnr, Nat2Z.id.
    eapply run_mono; [apply (work_loop_ok v Hr P (tags (done ++ [v])) HA _ w1 s)|].
    + constructor; try done.
      * by rewrite Ei.
      * intros b. rewrite Htag1, Ei. split; [intros (? & _ & ?); tauto|]. intros [Hb [?|Ht]]; [|by apply Hnt in Ht].
        split_and!; [done|by apply (vs_in u vs Hu)|done].
      * intros b. rewrite Ei. intros Ht. by apply Hnt in Ht.
      * intros b. rewrite Hpend1, Htag1. done.
      * intros b c. rewrite Hpend1, Htag1. done.
    + eapply Nat.le_lt_trans; [apply length_filter|]. destruct Hu as [_ Hn _]. pose proof (nb_length _ _ _ _ _ _ (nm_numbered _ _ _ _ _ _ Hn)). lia.
    + cbn. intros w2 s2 Hd. by apply (placed_all_next done P v w s Hv Hr Hp).
Qed.

Lemma place_variables_ok vregs : ∀ done P w s, NoDup (done ++ vregs) → Forall (λ v, 0 <= v < nr_vregs) vregs → placed_all done P w s →
  run (place_variables vregs w) (λ _ s', ∃ P' w', placed_all (done ++ vregs) P' w' s') s.
Proof using Hu Hs0 Hin H0 SetScanLaws0 Hm Hvregs.
  induction vregs as [|v vregs IH]; intros done P w s Hn Hf Hp.
  { apply run_ret. rewrite app_nil_r. eauto. }
  inversion_clear Hf as [|? ? Hv Hf']. cbn [place_variables]. apply run_bind.
  assert (v ∉ done) as Hvd by (apply list_relations.list.NoDup_app in Hn as (_ & Hn & _); intros Hin'; by apply (Hn v Hin'); left).
  eapply run_mono; [by apply (place_phis_ok done P v w s)|]. cbv beta. intros w' s' Hp'.
  replace (done ++ v :: vregs) with ((done ++ [v]) ++ vregs) in * by (by rewrite <- app_assoc). by eapply IH.
Qed.

Lemma init_arrays_ok s ls : shape s → ∀ pre wk insd, pre ++ ls = l → length wk = n → length insd = n →
  (∀ b, b ∈ vs → b ∈ pre → wk !! num b = Some (Some SSA_INIT_BLOCK) ∧ insd !! num b = Some (Some SSA_INIT_BLOCK)) →
  run (init_arrays ls (wk, insd)) (λ r s', s' = s ∧ filled (λ z, z = SSA_INIT_BLOCK) r.1 ∧ filled (λ z, z = SSA_INIT_BLOCK) r.2) s.
Proof using H H0 H1 Hin Hm Hs0 Hvregs SetScan0 SetScanLaws0 nr_vregs s0 Hu.
  intros Hs. induction ls as [|i ls IH]; intros pre wk insd El Hlw Hli Hpre.
  { apply run_ret. rewrite app_nil_r in El. subst pre. split_and!; [done| |]; split; cbn; try done; intros b Hb;
      destruct (Hpre b Hb (vs_in u vs Hu b Hb)); eauto. }
  assert (i ∈ l) as Hil by (rewrite <- El; set_solver). assert ((pre ++ [i]) ++ ls = l) as El' by (by rewrite <- app_assoc).
  cbn [init_arrays]. apply run_bind. eapply run_bb_is_eh; [done|done|done|].
  destruct (decide (i ∈ vs)) as [Hi|Hi]; [rewrite bool_decide_false by tauto|rewrite bool_decide_true by done].
  2:{ apply (IH (pre ++ [i])); [done|done|done|]. intros b Hb [?|Hbi%list_elem_of_singleton]%elem_of_app; [auto|congruence]. }
  destruct (block_in u vs Hu s i Hs Hil) as (b & _ & Eb & _ & Ed & _). apply run_bind. eapply run_block_of; [done|]. rewrite Ed. cbn.
  pose proof (num_lt u vs Hu i Hi). apply run_bind. eapply run_set_entry; [done|done|]. apply run_bind. eapply run_set_entry; [done|done|].
  apply (IH (pre ++ [i])); [done|by rewrite length_insert|by rewrite length_insert|]. intros c Hc Hcp.
  destruct (decide (c = i)) as [->|Hne]; [by rewrite !list_lookup_insert_eq by lia|].
  assert (num i ≠ num c) by (intros E; by apply Hne, (num_injective u vs Hu)). rewrite !list_lookup_insert_ne by done.
  apply Hpre; [done|]. apply elem_of_app in Hcp as [?|?%list_elem_of_singleton]; done.
Qed.

(** The phi instructions after [insert_phi_insns]. *)
Definition phis_placed (vregs : list Z) (P : nat → list Z) s : Prop :=
  infos_are s0 (phi_info P) s ∧ (∀ i, P i `sublist_of` reverse vregs) ∧ (∀ i v, i ∈ vs → v ∈ P i ↔ v ∈ vregs ∧ needs_phi v i) ∧
  ∀ i, i ∉ vs → P i = [].

Lemma insert_phi_insns_ok vregs : NoDup vregs → Forall (λ v, 0 <= v < nr_vregs) vregs →
  run (insert_phi_insns vregs) (λ _ s', ∃ P, phis_placed vregs P s') s0.
Proof using Hu Hs0 Hin H0 SetScanLaws0 Hm Hvregs.
  intros Hn Hf. destruct (do_unit u vs Hu) as [Hg Hnr]. pose proof (go_small _ _ _ Hg).
  unfold insert_phi_insns. apply run_bind, run_get. rewrite (sh_unit u s0 Hs0). unfold nr_bblocks. rewrite Hnr, Nat2Z.id.
  apply run_bind, run_request; [done|]. intros h1. cbn [negb]. apply run_bind, run_request; [done|]. intros h2. cbn [negb su_unit infos].
  apply run_bind, run_get. cbn [su_unit]. rewrite (sh_unit u s0 Hs0). set (s1 := SU h2 u (infos s0)).
  assert (shape s1) as Hs1 by (pose proof (shape_heap u s0 h2 Hs0) as Hsh; by rewrite (sh_unit u s0 Hs0) in Hsh).
  apply run_bind. eapply run_mono; [apply (init_arrays_ok s1 l Hs1 []); [done|by rewrite length_replicate|by rewrite length_replicate|by intros ? _ ?%elem_of_nil]|].
  cbv beta. intros [wk insd] s2 (-> & Hfw & Hfi). cbn [fst snd] in *. apply run_bind, run_alloc; [done|lia|]. intros h3 ws Hwf Hempty.
  apply run_bind. eapply run_try; [done|]. cbn [su_unit infos].
  eapply run_mono; [apply (place_variables_ok vregs [] (λ _, []) (PS ws insd wk (-1)) _ Hn Hf)|].
  - constructor; cbn; try done.
    + constructor; [pose proof (shape_heap u s0 h3 Hs0) as Hsh; by rewrite (sh_unit u s0 Hs0) in Hsh|]. intros d. cbn.
      destruct (infos s0 !! d) as [x|]; [|done]. cbn. f_equal. by destruct x.
    + eapply filled_weaken; [|exact Hfi]. auto.
    + eapply filled_weaken; [|exact Hfw]. auto.
    + intros i v _. rewrite !elem_of_nil. tauto.
  - cbv beta. intros _ s' (P' & w' & Hp). exists P'. destruct Hp. by split_and!.
Qed.
End phi.
