(* ===== verification/SsaProps.v ===== *)
(** * What the SSA passes compute

    The fields that [init_ssa] gives to the blocks and the phi instructions that
    [insert_phi_insns] puts into them, in terms of paths in the control flow graph. *)

From S2P Require Import Prelude CMonad Bitset SetInterface BasicBlock DominatorTree Dominance DominanceSpec DominanceLoop DominanceProps Ssa SsaSpec SsaInit SsaTree SsaLoops SsaPhi.
#[local] Open Scope Z_scope.

(** ** Definitions that meet *)

Section join.
Context {B : Type} `{SetLaws B} (u : dom_unit B) (vs : list nat) (Hu : dominance_ok u vs) (s0 : ssa_unit B).
#[local] Abbreviation entry := (entry_bb u).
#[local] Abbreviation edge := (edge (graph_of u)).
#[local] Abbreviation reach := (reachable edge entry).
#[local] Abbreviation dom a i := (dominates edge entry a i).
#[local] Abbreviation sdom a i := (strictly_dominates edge entry a i).
#[local] Abbreviation frontier := (frontier u).
#[local] Abbreviation defines := (defines s0).
#[local] Abbreviation live_in := (live_in s0).
#[local] Abbreviation needs_phi := (needs_phi u vs s0).

(** A way of [k] edges from [x] to [z] that does not start at [d] or go through it. *)
Inductive way (d : nat) : nat → nat → nat → Prop :=
  | way_edge x z : x ≠ d → edge x z → way d 1 x z
  | way_step k x y z : x ≠ d → edge x y → way d k y z → way d (S k) x z.

Lemma way_start d k x z : way d k x z → x ≠ d.
Proof using. by destruct 1. Qed.

Lemma way_trace d k x z l : way d k x z → trace edge entry l x → ∃ l', trace edge entry (z :: l' ++ l) z ∧ d ∉ l'.
Proof using.
  intros Hw. revert l. induction Hw as [x z Hx He|k x y z Hx He Hw IH]; intros l Hl.
  - exists []. split; [by econstructor|apply not_elem_of_nil].
  - destruct (IH (y :: l)) as (l' & Ht & Hd); [by econstructor|]. exists (l' ++ [y]). rewrite <- app_assoc. split; [done|].
    rewrite elem_of_app, list_elem_of_singleton. intros [?| ->]; [done|]. by apply way_start in Hw.
Qed.

(** The immediate dominator of the end dominates the blocks of the way. *)
Lemma way_dominated d k x z : sdom d z → way d k x z → dom d x.
Proof using.
  intros [Hd Hne] Hw l Hl. destruct (way_trace d k x z l Hw Hl) as (l' & Ht & Hn). apply Hd in Ht.
  apply elem_of_cons in Ht as [?|[?|?]%elem_of_app]; done.
Qed.

Lemma way_not_sdom d k x z : reach x → immediate_dominator edge entry d z → way d k x z → ¬ sdom x z.
Proof using.
  intros Hx [Hd Hlast] Hw Hs. apply (way_start _ _ _ _ Hw). apply Hlast in Hs.
  symmetry. eapply dominates_antisym; [exact Hx| |exact Hs]. by eapply way_dominated.
Qed.

Lemma dom_dec a b : b ∈ vs → dom a b ∨ ¬ dom a b.
Proof using Hu.
  intros Hb. destruct (do_doms u vs Hu) as [_ Hfin]. pose proof Hfin as [Hok Hsome _].
  rewrite <- (above_dom u vs Hu a b Hb). apply (reach_vs u vs Hu) in Hb.
  remember (num (blocks u) b) as k eqn:Ek. revert b Ek Hb. induction k as [k IH] using lt_wf_ind. intros b -> Hb.
  destruct (decide (a = b)) as [->|Hab]; [left; constructor|]. destruct (decide (b = entry)) as [->|Hbe].
  { right. intros Ha. by apply above_entry in Ha. }
  destruct (Hsome b Hb) as [c Ec]. destruct (tk_parent _ _ _ _ Hok b c Hb Hbe Ec) as (Hc & Hlt & _).
  destruct (IH _ Hlt c eq_refl Hc) as [?|Hn]; [left; by econstructor|right].
  intros Ha. apply (above_step_inv _ _ _ _ _ Ec) in Ha as [?|[_ ?]]; done.
Qed.

(** The way leaves what [x] dominates at a block of the frontier of [x]. *)
Lemma way_leaves d k c z x : way d k c z → reach c → dom x c → ¬ sdom x z →
  in_frontier edge entry x z ∨ ∃ k' y, (k' < k)%nat ∧ way d k' y z ∧ reach y ∧ in_frontier edge entry x y.
Proof using Hu.
  intros Hw. induction Hw as [c z Hc He|k c y z Hc He Hw IH]; intros Hrc Hd Hns.
  - left. split; [by exists c|done].
  - assert (reach y) as Hry by (by eapply reachable_edge). destruct (dom_dec x y) as [Hxy|Hxy]; [by apply (reach_vs u vs Hu)| |].
    + destruct (decide (x = y)) as [->|Hne].
      * right. exists k, y. split_and!; [lia|done|done|]. split; [by exists c|]. by intros [_ ?].
      * destruct (IH Hry Hxy Hns) as [?|(k' & y' & ? & ?)]; [by left|right; exists k', y'; split; [lia|done]].
    + right. exists k, y. split_and!; [lia|done|done|]. split; [by exists c|]. by intros [? _].
Qed.

Context (Hfront : ∀ a b, a ∈ vs → b ∈ vs → b ≠ entry → frontier a b ↔ in_frontier edge entry a b).
Context (v : Z) (Hlive : ∀ p q, p ∈ vs → edge p q → live_in v q → ¬ defines v p → live_in v p).

Lemma defines_dec b : defines v b ∨ ¬ defines v b.
Proof using.
  unfold SsaPhi.defines. destruct (infos s0 !! b) as [x|] eqn:Ex; [|right; by intros (? & ? & ? & _)].
  destruct (def_set x) as [d|] eqn:Ed; [|right; intros (? & ? & ? & ? & _); congruence].
  destruct (bs_mem d v) eqn:Em; [left; eauto 10|right]. intros (? & ? & ? & ? & ?). congruence.
Qed.

(** A variable that is live at the end of the way is live at its start, or defined on it. *)
Lemma way_live d k y z : way d k y z → reach y → live_in v z →
  live_in v y ∨ ∃ k' c, (k' <= k)%nat ∧ way d k' c z ∧ reach c ∧ defines v c.
Proof using Hu Hlive.
  intros Hw. induction Hw as [y z Hy He|k y y' z Hy He Hw IH]; intros Hr Hl.
  - destruct (defines_dec y) as [?|Hn]; [right; exists 1%nat, y; split_and!; [lia|by constructor|done|done]|left].
    eapply Hlive; [by apply (reach_vs u vs Hu)|done|done|done].
  - destruct (defines_dec y) as [?|Hn]; [right; exists (S k), y; split_and!; [lia|by econstructor|done|done]|].
    destruct (IH ltac:(by eapply reachable_edge) Hl) as [Hl'|(k' & c & ? & ?)]; [left|right; exists k', c; split; [lia|done]].
    eapply Hlive; [by apply (reach_vs u vs Hu)|done|done|done].
Qed.

(** A definition that can reach a block past its immediate dominator makes it need a phi
    instruction, when the variable is live there. *)
Lemma way_needs_phi d z : z ∈ vs → z ≠ entry → immediate_dominator edge entry d z → live_in v z →
  ∀ k x, way d k x z → reach x → defines v x ∨ needs_phi v x → needs_phi v z.
Proof using Hu Hlive Hfront.
  intros Hz Hze Hd Hlz. induction k as [k IH] using lt_wf_ind. intros x Hw Hx Hdef.
  assert (x ∈ vs) as Hxv by (by apply (reach_vs u vs Hu)).
  assert (∀ y, y ∈ vs → y ≠ entry → in_frontier edge entry x y → live_in v y → needs_phi v y) as Hstep.
  { intros y Hy Hye Hf Hl. apply Hfront in Hf; [|done..]. destruct Hdef; [by eapply needs_phi_def|by eapply needs_phi_phi]. }
  destruct (way_leaves d k x z x Hw Hx ltac:(apply dominates_refl) (way_not_sdom _ _ _ _ Hx Hd Hw)) as [?|(k1 & y & Hk1 & Hw1 & Hy & Hfy)]; [by apply Hstep|].
  destruct (way_live d k1 y z Hw1 Hy Hlz) as [Hly|(k2 & c & Hk2 & Hw2 & Hc & Hdc)].
  - apply (IH k1 Hk1 y Hw1 Hy). right. apply Hstep; [by apply (reach_vs u vs Hu)| |done|done]. intros ->.
    destruct Hd as [Hsd _]. apply (way_start _ _ _ _ Hw1). symmetry. eapply dominates_entry_inv. by eapply way_dominated.
  - apply (IH k2 ltac:(lia) c Hw2 Hc). by left.
Qed.
End join.

(** ** The unit after jit/dominance.c *)

Section unit.
Context {B : Type} `{SetLaws B} `{Allocator} (Hm : ∀ k sz, malloc_ok k sz = true).

Lemma dfn_at_same (bs0 bs : list (block B)) i : same_numbers bs0 bs → dfn_at bs i = dfn_at bs0 i.
Proof using. intros Hs. unfold dfn_at. by rewrite (same_dfn_of bs0 bs i Hs). Qed.

Lemma numbering_same gs l e (bs0 bs : list (block B)) arr vs : same_numbers bs0 bs → numbering gs l e bs0 arr vs → numbering gs l e bs arr vs.
Proof using.
  intros Hs [[] Hr]. constructor; [|done]. constructor; try done.
  - by rewrite (proj1 Hs).
  - intros k i Hk. rewrite (dfn_at_same bs0 bs) by done. auto.
  - intros i Hi. rewrite (dfn_at_same bs0 bs) by done. auto.
Qed.

Lemma dominator_table_ext edge e nm nm' f f' : (∀ i, nm' i = nm i) → (∀ i, f' i = f i) →
  dominator_table edge e nm f → dominator_table edge e nm' f'.
Proof using.
  intros Hn Hf [[He Hp] Hs Ha]. assert (∀ a b, above e f' a b ↔ above e f a b) as Hab.
  { intros a b. apply above_proper; [intros i; apply Hf|done|done]. }
  constructor.
  - constructor; [by rewrite Hf|]. intros b c. rewrite !Hf, !Hn. apply Hp.
  - intros b Hb. rewrite Hf. auto.
  - intros a b Hb. rewrite Hab. auto.
Qed.

(** What the passes on the graph leave, with the frontiers. *)
Record graph_passes (u : dom_unit B) (vs : list nat) : Prop := {
  gp_dominance : dominance_ok u vs;
  gp_sets : has_sets (du_list u) (blocks u);
  gp_numbers i j : i ∈ vs → 0 <= j → frontier_bit (blocks u) i j = true → ∃ b, b ∈ vs ∧ j = Z.of_nat (num (blocks u) b);
  gp_frontier a b : a ∈ vs → b ∈ vs → b ≠ entry_bb u → frontier u a b ↔ in_frontier (edge (graph_of u)) (entry_bb u) a b;
}.

Lemma graph_passes_ok (u : dom_unit B) : unit_ok u → (∀ i, dfn_at (blocks u) i = 0) →
  ∃ u' vs, (do (do compute_dfns ;; compute_dom) ;; compute_dom_frontier) u = Done 0 u' ∧ same_unit u u' ∧ graph_passes u' vs.
Proof using Hm H0.
  intros Hu H00. destruct (dominators_ok u Hm Hu H00) as (u1 & vs & E & Hs & Hu1 & Hn & Hd).
  destruct (compute_dom_frontier_ok Hm u1 vs Hu1 Hn Hd) as (h & bs & E2 & Hsn & Hsets & Hbit).
  set (u2 := DU h bs (du_list u1) (du_nr u1) (entry_bb u1) (bb_df_array u1) (doms u1)).
  assert (graph_of u2 = graph_of u1) as Eg by (unfold graph_of; cbn; apply Hsn).
  assert (same_unit u1 u2) as Hs2 by done.
  assert (∀ i, num bs i = num (blocks u1) i) as Enum by (intros i; unfold DominanceLoop.num; by rewrite (dfn_at_same (blocks u1) bs)).
  assert (unit_numbering u2 vs) as Hn2.
  { unfold unit_numbering. rewrite Eg. cbn. by apply (numbering_same _ _ _ (blocks u1)). }
  exists u2, vs. unfold bind at 1. rewrite E, E2. split; [done|]. split.
  { destruct Hs as (F1 & F2 & F3 & F4). split_and!; [by rewrite Eg|done..]. }
  assert (dominance_ok u2 vs) as Hdo.
  { constructor; [by apply (unit_ok_same u1)|done|]. destruct Hd as [Hl Hfin]. split; [done|]. rewrite Eg. cbn.
    eapply dominator_table_ext; [exact Enum| |exact Hfin]. intros i. unfold DominanceLoop.table. by rewrite Enum. }
  assert (∀ i, i ∈ vs → i ∈ du_list u2) as Hvl by (intros i; apply (vs_in u2 vs Hdo)).
  constructor; [done|done| |].
  - intros i j Hi Hj Hf. cbn in Hf. rewrite (Hbit i j (Hvl i Hi) Hj) in Hf.
    destruct Hf as (b & c & q & p & _ & _ & _ & Hb & _ & -> & _). exists b. split; [by apply (nm_reach _ _ _ _ _ _ Hn)|]. cbn. by rewrite Enum.
  - intros a b Ha Hb Hbe. rewrite Eg. unfold frontier. cbn. rewrite Enum, (Hbit a _ (Hvl a Ha)) by lia.
    apply (nm_reach _ _ _ _ _ _ Hn) in Hb. destruct (block_at _ _ _ (uo_graph _ Hu1) _ _ _ b (nm_numbered _ _ _ _ _ _ Hn)) as (c & Ec & _);
      [by eapply reach_in, Hb; apply Hu1|]. destruct Hd as [Hl Hfin]. by eapply (marks_frontier (graph_of u1) (du_list u1) (entry_bb u1) (uo_graph _ Hu1)).
Qed.
End unit.

(** ** Properties *)

Section props.
Context {B : Type} `{SetLaws B} `{!SetScan B} `{!SetScanLaws B} `{Allocator}.

(** A back edge leads to a block that dominates the one it comes from, which may be the
    same block. *)
Definition back_edge (u : dom_unit B) (vs : list nat) (b h : nat) : Prop :=
  b ∈ vs ∧ edge (graph_of u) b h ∧ dominates (edge (graph_of u)) (entry_bb u) h b.

Lemma strict_back_edge_iff u vs b h : strict_back_edge u vs b h ↔ back_edge u vs b h ∧ b ≠ h.
Proof using. unfold strict_back_edge, back_edge, strictly_dominates. naive_solver. Qed.

(** The edge from a block to itself adds no block to its natural loop. *)
Lemma loop_of_strict u vs h x : loop_of u vs (strict_back_edge u vs) h x ↔ loop_of u vs (back_edge u vs) h x.
Proof using.
  unfold loop_of. setoid_rewrite strict_back_edge_iff. split; [naive_solver|]. intros [?|(b & Hb & Hr)]; [by left|right].
  exists b. split; [|done]. split; [done|]. intros ->. induction Hr; done.
Qed.

(** What [init_ssa] gives to a block. *)
Record ssa_block_ok (u : dom_unit B) (vs : list nat) (i : nat) (y : ssa_info B) : Prop := {
  sk_nr_preds : nr_predecessors_no_eh y = Z.of_nat (length (flow_preds u vs i));
  sk_positions : Forall2 (position_of u vs i) (succs (graph_of u) i) (positions_as_predecessor y);
  sk_children : ∃ cs, dom_successors y = Some <$> cs ∧ nr_dom_successors y = Z.of_nat (length cs) ∧ cs `sublist_of` du_list u ∧
    ∀ b, b ∈ cs ↔ b ∈ vs ∧ b ≠ entry_bb u ∧ immediate_dominator (edge (graph_of u)) (entry_bb u) i b;
  sk_dominators : ∃ d, dominators y = Some d ∧ marked u vs d (λ a, strictly_dominates (edge (graph_of u)) (entry_bb u) a i);
  sk_loop : match natural_loop y with
    | None => ∀ b, back_edge u vs b i → b = i
    | Some d => (∃ b, back_edge u vs b i ∧ b ≠ i) ∧ marked u vs d (loop_of u vs (back_edge u vs) i)
    end;
}.

(** Fields of a block that has just been allocated. *)
Definition fresh_info (x : ssa_info B) : Prop :=
  nr_predecessors_no_eh x = 0 ∧ nr_dom_successors x = 0 ∧ dom_successors x = [] ∧ natural_loop x = None.

Lemma children_spec (u : dom_unit B) vs i b : dominance_ok u vs → i ∈ vs →
  b ∈ children u vs i (du_list u) ↔ b ∈ vs ∧ b ≠ entry_bb u ∧ immediate_dominator (edge (graph_of u)) (entry_bb u) i b.
Proof using.
  intros Hu Hi. unfold children. rewrite list_elem_of_filter. split.
  - intros [(Hb & Hbe & Et) _]. split_and!; [done|done|]. destruct (table_parent u vs Hu b Hb Hbe) as (c & ? & _ & _ & ?). by simplify_eq.
  - intros (Hb & Hbe & [Hd Hlast]). split; [|by apply (vs_in u vs Hu)]. split_and!; [done|done|].
    destruct (table_parent u vs Hu b Hb Hbe) as (c & Ec & Hc & _ & [Hcd Hclast]). rewrite Ec. f_equal.
    eapply dominates_antisym; [by apply (reach_vs u vs Hu)| |]; auto.
Qed.

Lemma init_ssa_run (Hm : ∀ k sz, malloc_ok k sz = true) (u : dom_unit B) vs s : dominance_ok u vs →
  (∀ i b, blocks u !! i = Some b → Z.of_nat (length (predecessors (bb b))) < 2 ^ 32) → shape u s →
  (∀ i x, infos s !! i = Some x → fresh_info x) →
  run init_ssa (λ _ s', su_unit s' = u ∧ ∀ i, i ∈ vs → ∃ y, infos s' !! i = Some y ∧ ssa_block_ok u vs i y) s.
Proof using H0 SetScanLaws0.
  intros Hu Hsize Hs Hfresh. unfold init_ssa. apply run_bind. eapply run_mono; [apply (compute_nr_predecessors_no_eh_ok u vs Hu Hsize s Hs)|].
  { intros i x Ex. destruct (Hfresh i x Ex) as (? & ? & ? & ?). done. }
  cbv beta. intros _ s1 (Hs1 & Hrest1 & Hp1). apply run_bind. eapply run_mono; [apply (compute_positions_ok Hm u vs Hu Hsize s1 Hs1)|].
  cbv beta. intros _ s2 (Hs2 & Hrest2 & Hp2).
  assert (∀ i y, infos s2 !! i = Some y → nr_dom_successors y = 0 ∧ dom_successors y = [] ∧ natural_loop y = None) as Hz2.
  { intros i y Ey. destruct (decide (i ∈ vs)) as [Hi|Hi].
    - destruct (Hp2 i Hi) as (x1 & ps & E1 & E2 & _). destruct (Hp1 i Hi) as (x & E0 & E1'). simplify_eq. cbn. by destruct (Hfresh i x E0) as (_ & ? & ? & ?).
    - rewrite Hrest2, Hrest1 in Ey by done. by destruct (Hfresh i y Ey) as (_ & ? & ? & ?). }
  apply run_bind. eapply run_mono; [apply (compute_dom_successors_ok Hm u vs Hu s2 Hs2)|].
  { intros i x Ex. destruct (Hz2 i x Ex) as (? & ? & ?). done. }
  cbv beta. intros _ s3 [Hs3 Hi3]. apply run_bind. eapply run_mono; [apply (compute_dominators_ok Hm u vs Hu s3 Hs3)|].
  cbv beta. intros _ s4 (Hs4 & Hrest4 & Hp4).
  assert (∀ i x, infos s4 !! i = Some x → natural_loop x = None) as Hnone.
  { assert (∀ i x, infos s3 !! i = Some x → natural_loop x = None) as H3.
    { intros i x Ex. rewrite Hi3 in Ex. destruct (infos s2 !! i) as [x2|] eqn:E2; [|done]. cbn in Ex. injection Ex as <-. cbn. by apply (Hz2 i x2). }
    intros i x Ex. destruct (decide (i ∈ vs)) as [Hi|Hi].
    - destruct (Hp4 i Hi) as (x3 & d & E3 & E4 & _). simplify_eq. cbn. by eapply H3.
    - rewrite Hrest4 in Ex by done. by eapply H3. }
  assert (∀ i, i ∈ vs → ∃ x d, infos s4 !! i = Some x ∧ dominators x = Some d ∧
    marked u vs d (λ a, strictly_dominates (edge (graph_of u)) (entry_bb u) a i)) as Hdom.
  { intros i Hi. destruct (Hp4 i Hi) as (x3 & d & E3 & E4 & Hd). eexists _, d. split; [exact E4|]. done. }
  pose proof (compute_natural_loops_ok Hm u vs Hu s4 Hdom Hnone Hs4) as Hloops. unfold run, wp in *.
  destruct (compute_natural_loops s4) as [[] s5|e s5|]; [|done|done]. destruct Hloops as [Hs5 Hc5 Hl5]. split; [apply Hs5|].
  intros i Hi. destruct (Hl5 i Hi) as (y & Ey & Hy). exists y. split; [done|].
  destruct (Hp4 i Hi) as (x3 & d & E3 & E4 & Hd). rewrite Hi3 in E3. destruct (Hp2 i Hi) as (x1 & ps & E1 & E2 & Hps). rewrite E2 in E3. cbn in E3.
  destruct (Hp1 i Hi) as (x & E0 & E1'). simplify_eq. specialize (Hc5 i). rewrite Ey, E4 in Hc5. cbn in Hc5. injection Hc5 as F1 F2 F3 F4 F5 F6 F7 F8.
  constructor; [by rewrite F1|by rewrite F2| |exists d; by rewrite F5|].
  2: { destruct (natural_loop y) as [dl|].
       - destruct Hy as ([b Hb%strict_back_edge_iff] & Hwf & Hmem). split; [by exists b|]. split; [done|].
         intros a Ha. by rewrite <- loop_of_strict, Hmem.
       - intros b Hb. destruct (decide (b = i)) as [|Hne]; [done|]. destruct (Hy b). by apply strict_back_edge_iff. }
  exists (children u vs i (du_list u)). rewrite F3, F4. split_and!; [done|done|apply sublist_filter|]. intros b. by apply children_spec.
Qed.

(** C19: After jit/dominance.c, [init_ssa] succeeds, with enough memory, and every block that can
    be reached from the entry has: the number of its predecessors that can be reached;
    for each of its successors its place among those predecessors; the list, in the order of the blocks, of the
    blocks it immediately dominates; the set of its strict dominators; and, when a back
    edge from another block leads to it, the set of its natural loop: itself and the
    blocks from which the source of a back edge can be reached without it.  A block
    whose only back edge comes from itself gets no loop. *)
Theorem init_ssa_correct (u : dom_unit B) :
  (∀ k sz, malloc_ok k sz = true) → unit_ok u → (∀ i, dfn_at (blocks u) i = 0) →
  (∀ i b, graph_of u !! i = Some b → Z.of_nat (length (predecessors b)) < 2 ^ 32) →
  ∃ u' vs, (do (do compute_dfns ;; compute_dom) ;; compute_dom_frontier) u = Done 0 u' ∧ same_unit u u' ∧
    (∀ i, i ∈ vs ↔ reachable (edge (graph_of u)) (entry_bb u) i) ∧
    ∀ h xs, length xs = length (blocks u') → Forall fresh_info xs →
      ∃ s', init_ssa (SU h u' xs) = Done tt s' ∧ su_unit s' = u' ∧
        ∀ i, i ∈ vs → ∃ y, infos s' !! i = Some y ∧ ssa_block_ok u' vs i y.
Proof using H0 SetScanLaws0.
  intros Hm Hu H00 Hsize. destruct (graph_passes_ok Hm u Hu H00) as (u' & vs & E & Hs & Hg). exists u', vs.
  pose proof Hs as (F1 & F2 & F3 & F4). split_and!; [done|done| |].
  { intros i. rewrite <- F1, <- F4. apply (reach_vs u' vs (gp_dominance _ _ Hg)). }
  intros h xs Hl Hf. assert (∀ i b, blocks u' !! i = Some b → Z.of_nat (length (predecessors (bb b))) < 2 ^ 32) as Hsz.
  { intros i b Eb. apply (Hsize i). rewrite <- F1. unfold graph_of. by rewrite list_lookup_fmap, Eb. }
  pose proof (init_ssa_run Hm u' vs (SU h u' xs) (gp_dominance _ _ Hg) Hsz ltac:(by constructor)
    (λ i x Ex, Forall_lookup_1 fresh_info xs i x Hf Ex)) as Hrun.
  unfold run, wp in Hrun. destruct (init_ssa (SU h u' xs)) as [[] s'|e s'|]; [by exists s'|done|done].
Qed.

(** C18: With the sets of liveness analysis, [insert_phi_insns] succeeds and puts into every
    block that can be reached one phi instruction for each of its variables that needs one
    there, and into no others: the variable is live into the block, and the block is in
    the dominance frontier of a block that defines the variable or has such an
    instruction.  Where a live variable has none, no definition of it and no phi
    instruction for it can reach the block on a way past its immediate dominator. *)
Theorem insert_phi_insns_correct (u : dom_unit B) (nr_vregs : Z) (vregs : list Z) :
  (∀ k sz, malloc_ok k sz = true) → unit_ok u → (∀ i, dfn_at (blocks u) i = 0) →
  nr_vregs < 2 ^ 31 → NoDup vregs → Forall (λ v, 0 <= v < nr_vregs) vregs →
  ∃ u' vs, (do (do compute_dfns ;; compute_dom) ;; compute_dom_frontier) u = Done 0 u' ∧
    (∀ i, i ∈ vs ↔ reachable (edge (graph_of u)) (entry_bb u) i) ∧
    ∀ s, su_unit s = u' → length (infos s) = length (blocks u') →
      (∀ i x, i ∈ vs → infos s !! i = Some x → ∃ d lv, def_set x = Some d ∧ bs_wf nr_vregs d ∧ live_in_set x = Some lv ∧ bs_wf nr_vregs lv) →
      ∃ s' P, insert_phi_insns vregs s = Done tt s' ∧ phis_placed u' vs s vregs P s' ∧
        ∀ v, (∀ p q, p ∈ vs → edge (graph_of u) p q → live_in s v q → ¬ defines s v p → live_in s v p) →
          ∀ d z, z ∈ vs → z ≠ entry_bb u → immediate_dominator (edge (graph_of u)) (entry_bb u) d z →
            live_in s v z → ¬ needs_phi u' vs s v z →
            ∀ k x, way u d k x z → x ∈ vs → ¬ defines s v x ∧ ¬ needs_phi u' vs s v x.
Proof using H0 SetScanLaws0.
  intros Hm Hu H00 Hnr Hnd Hf. destruct (graph_passes_ok Hm u Hu H00) as (u' & vs & E & (F1 & F2 & F3 & F4) & [Hdo Hsets Hnums Hfront]). exists u', vs.
  assert (∀ i, i ∈ vs ↔ reachable (edge (graph_of u)) (entry_bb u) i) as Hr by (intros i; rewrite <- F1, <- F4; apply (reach_vs u' vs Hdo)).
  split_and!; [done|done|]. intros s Eu Hl Hin.
  pose proof (insert_phi_insns_ok Hm u' vs Hdo nr_vregs s ltac:(by constructor) ltac:(by constructor) Hnr vregs Hnd Hf) as Hrun.
  unfold run, wp in Hrun. destruct (insert_phi_insns vregs s) as [[] s'|e s'|]; [|done|done]. destruct Hrun as [P HP]. exists s', P. split_and!; [done|done|].
  intros v Hlive d z Hz Hze Hd Hlz Hno k x Hw Hx. rewrite <- F1, <- F4 in *.
  assert (way u' d k x z) as Hw' by (clear -Hw F1; induction Hw; [constructor|econstructor]; try done; by rewrite F1).
  pose proof (way_needs_phi u' vs Hdo s Hfront v Hlive d z Hz Hze Hd Hlz k x Hw') as Hway. rewrite <- (reach_vs u' vs Hdo) in Hway.
  split; intros ?; apply Hno, Hway; auto.
Qed.
End props.

(** ** Examples *)

#[local] Instance plenty : Allocator := λ _ _, true.

Definition fresh_of (d lv : option bitset) : ssa_info bitset := SI 0 [] [] 0 None None 0 0 d lv [].

(** A set of the first three variables. *)
Definition vars (ks : list Z) : option bitset :=
  match alloc_bitset 3 (Mem 0 ∅) with
  | Done b _ => foldr (λ k o, b ← o; with_bits b <$> set_bit (bits b) k) (Some b) ks
  | _ => None
  end.

Definition graph_passes_on (gs : list basic_block) : option (dom_unit bitset) :=
  match (do (do compute_dfns ;; compute_dom) ;; compute_dom_frontier) (unit_of gs) with Done 0 u => Some u | _ => None end.
Definition init_ssa_on (gs : list basic_block) : option (list (ssa_info bitset)) :=
  u ← graph_passes_on gs;
  match init_ssa (SU (Mem 0 ∅) u ((λ _, fresh_of None None) <$> gs)) with Done _ s => Some (infos s) | _ => None end.
Definition phis_on (gs : list basic_block) (sets : list (list Z * list Z)) (vregs : list Z) : option (list (list (Z * Z))) :=
  u ← graph_passes_on gs;
  match (do init_ssa ;; insert_phi_insns vregs) (SU (Mem 0 ∅) u ((λ x, fresh_of (vars x.1) (vars x.2)) <$> sets)) with
  | Done _ s => Some (phis <$> infos s)
  | _ => None
  end.
(** The numbers in a set. *)
Definition elements_of (n : nat) (b : bitset) : list Z := filter (λ k, bit_at (bits b) k = true) (Z.of_nat <$> seq 0 n).

Lemma init_ssa_correct_witness :
  (∃ u' vs, (do (do compute_dfns ;; compute_dom) ;; compute_dom_frontier) (unit_of loop_graph) = Done 0 u' ∧
    ∃ s', init_ssa (SU (Mem 0 ∅) u' (replicate 7 (fresh_of None None))) = Done tt s' ∧
      ∀ i, i ∈ vs → ∃ y, infos s' !! i = Some y ∧ ssa_block_ok u' vs i y) ∧
  (xs ← init_ssa_on loop_graph; x ← xs !! 3%nat; Some (dom_successors x, elements_of 7 <$> dominators x, elements_of 7 <$> natural_loop x)) =
    Some ([Some 4%nat], Some [0], Some [2; 3]).
Proof.
  split; [|vm_compute; reflexivity]. destruct (unit_of_ok loop_graph ltac:(vm_compute; reflexivity)) as [Hu H0].
  destruct (init_ssa_correct (unit_of loop_graph) ltac:(intros; reflexivity) Hu H0) as (u' & vs & E & Hs & _ & Hrun).
  { intros i b Eb. cbn in Eb. do 7 (destruct i as [|i]; [injection Eb as <-; vm_compute; reflexivity|]). discriminate Eb. }
  exists u', vs. split; [exact E|].
  destruct (Hrun (Mem 0 ∅) (replicate 7 (fresh_of None None))) as (s' & Es & _ & Hok).
  - destruct Hs as (F1 & _). apply (f_equal length) in F1. unfold graph_of in F1. rewrite !length_fmap in F1. rewrite F1. reflexivity.
  - apply Forall_replicate. repeat split.
  - exists s'. split; [exact Es|exact Hok].
Defined.

(** In the graph of a choice and a loop, variable 0 is defined on both ways into the loop and
    variable 1 before them and in it. *)
Definition loop_sets : list (list Z * list Z) :=
  [([0; 1], []); ([0], [1]); ([0], [1]); ([], [0; 1]); ([1], [0; 1]); ([], [0]); ([], [])].
Definition loop_infos : list (ssa_info bitset) := (λ x, fresh_of (vars x.1) (vars x.2)) <$> loop_sets.

(** Whether all sets are there and well formed, computed. *)
Definition set_okb (o : option bitset) : bool :=
  match o with
  | Some b => bool_decide (Forall is_u64 (bits b)) && (size b =? 8) && (Z.of_nat (length (bits b)) =? 1) && (nr_bits b =? 3)
  | None => false
  end.
Lemma set_okb_ok o : set_okb o = true → ∃ b, o = Some b ∧ bs_wf 3 b.
Proof.
  destruct o as [b|]; [|done]. cbn [set_okb]. rewrite !andb_true_iff, bool_decide_eq_true, !Z.eqb_eq. intros [[[Hw Hs] Hl] Hn].
  exists b. split; [done|]. split; [|done]. constructor; rewrite ?Hs, ?Hl, ?Hn; (done || lia).
Qed.

Lemma loop_infos_ok i x : loop_infos !! i = Some x →
  ∃ d lv, def_set x = Some d ∧ bs_wf 3 d ∧ live_in_set x = Some lv ∧ bs_wf 3 lv.
Proof.
  intros Ex. assert (set_okb (def_set x) = true ∧ set_okb (live_in_set x) = true) as [Hd Hl].
  { do 7 (destruct i as [|i]; [injection Ex as <-; split; vm_compute; reflexivity|]). discriminate Ex. }
  apply set_okb_ok in Hd as (d & -> & Hd), Hl as (lv & -> & Hl). eauto 10.
Qed.

Lemma insert_phi_insns_correct_witness :
  (∃ u' vs, (do (do compute_dfns ;; compute_dom) ;; compute_dom_frontier) (unit_of loop_graph) = Done 0 u' ∧
    ∃ s' P, insert_phi_insns [0; 1] (SU (Mem 0 ∅) u' loop_infos) = Done tt s' ∧
      phis_placed u' vs (SU (Mem 0 ∅) u' loop_infos) [0; 1] P s') ∧
  phis_on loop_graph loop_sets [0; 1] = Some [[]; []; []; [(1, 3); (0, 3)]; []; []; []].
Proof.
  split; [|vm_compute; reflexivity]. destruct (unit_of_ok loop_graph ltac:(vm_compute; reflexivity)) as [Hu H0].
  destruct (insert_phi_insns_correct (unit_of loop_graph) 3 [0; 1] ltac:(intros; reflexivity) Hu H0 ltac:(lia)) as (u' & vs & E & _ & Hrun).
  - apply (bool_decide_unpack _). reflexivity.
  - apply (bool_decide_unpack _). reflexivity.
  - exists u', vs. split; [exact E|]. destruct (Hrun (SU (Mem 0 ∅) u' loop_infos) eq_refl) as (s' & P & Es & HP & _).
    + pose proof E as E'. vm_compute in E'. injection E' as <-. reflexivity.
    + intros i x _. apply loop_infos_ok.
    + exists s', P. split; [exact Es|exact HP].
Defined.

(** A block that branches to itself: the sets of dominators are strict, and the edge is not
    taken for one that closes a loop. *)
Theorem self_loop_missed :
  (xs ← init_ssa_on [bb_of [1] []; bb_of [1] [0; 1]]%nat; x ← xs !! 1%nat; Some (elements_of 2 <$> dominators x, natural_loop x)) =
    Some (Some [0], None).
Proof. vm_compute. reflexivity. Qed.
