(* ===== verification/Tree.v ===== *)
(** * jit/expression.c, jit/statement.c: the trees of the intermediate representation

    An expression or a statement is a value, with the constructors of the two enums, but for
    the nodes that the code changes after it has shared them: a temporary or a slot of the
    mimic stack is an entry of the table [nodes] of the compilation unit, and an expression
    names its place there ([EXPR_SHARED]).  Reference counts, and with them the release of
    trees, are left out, and so are the bytecode offsets of expressions; a statement of a
    block has its offset.  A field, a class or a method is what the trees need of it. *)

From S2P Require Import Prelude CMonad Types BasicBlock.
#[local] Open Scope Z_scope.

(** ** What the trees name *)

Record vm_field := Field { field_id : Z; vm_field_type : vm_type }.

(** A class by its address. *)
Definition class_ptr : Type := Z.

(** Of a method that is called: its arguments without [this], what it returns, its flags,
    the object of its class, the registers of its arguments. *)
Record vm_callee := Callee {
  callee_id : Z;
  callee_args : list vm_type;
  vm_method_return_type : vm_type;
  vm_method_is_static : bool;
  vm_method_is_jni : bool;
  callee_class_object : Z;
  args_map : list Z;
}.

(** A [double] the compiler holds: an integer it has converted, a [float] it has widened, or
    the bits of a constant. *)
Inductive double : Type :=
  | DInt (n : Z)
  | DFloatBits (bits : Z)
  | DDoubleBits (low high : Z).

#[export] Instance vm_field_eq_dec : EqDecision vm_field.
Proof. solve_decision. Defined.
#[export] Instance vm_callee_eq_dec : EqDecision vm_callee.
Proof. solve_decision. Defined.
#[export] Instance double_eq_dec : EqDecision double.
Proof. solve_decision. Defined.

(** On 64 bits. *)
Definition J_NATIVE_PTR : vm_type := J_LONG.

(** ** Operators *)

Inductive binary_operator : Type :=
  | OP_ADD | OP_SUB | OP_MUL | OP_MUL_64 | OP_DIV | OP_DIV_64 | OP_REM | OP_REM_64
  | OP_SHL | OP_SHL_64 | OP_SHR | OP_SHR_64 | OP_USHR | OP_USHR_64 | OP_AND | OP_OR | OP_XOR
  | OP_CMP | OP_CMPL | OP_CMPG
  | OP_EQ | OP_NE | OP_LT | OP_GE | OP_GT | OP_LE
  | OP_FADD | OP_FSUB | OP_FMUL | OP_FDIV | OP_FREM
  | OP_DADD | OP_DSUB | OP_DMUL | OP_DDIV | OP_DREM.
Inductive unary_operator : Type := OP_NEG | OP_FNEG | OP_DNEG.

#[export] Instance binary_operator_eq_dec : EqDecision binary_operator.
Proof. solve_decision. Defined.
#[export] Instance unary_operator_eq_dec : EqDecision unary_operator.
Proof. solve_decision. Defined.

(** ** Switch tables *)

(** The block that holds the switch, and the blocks of the table ([None] is the null
    pointer). *)
Record tableswitch := TableSwitch {
  low : Z;
  high : Z;
  ts_src : nat;
  bb_lookup_table : list (option nat);
}.
Record lookupswitch_pair := LookupPair { match_ : Z; bb_target : option nat }.
Record lookupswitch := LookupSwitch {
  ls_src : nat;
  count : Z;
  pairs : list lookupswitch_pair;
}.

(** ** Expressions *)

Inductive expression : Type :=
  | EXPR_VALUE (vm_type : vm_type) (value : Z)
  | EXPR_FVALUE (vm_type : vm_type) (fvalue : double)
  | EXPR_LOCAL (vm_type : vm_type) (local_index : Z)
  | EXPR_FLOAT_LOCAL (vm_type : vm_type) (local_index : Z)
  | EXPR_SHARED (n : nat)
  | EXPR_ARRAY_DEREF (vm_type : vm_type) (arrayref array_index : expression)
  | EXPR_BINOP (vm_type : vm_type) (op : binary_operator) (binary_left binary_right : expression)
  | EXPR_UNARY_OP (vm_type : vm_type) (op : unary_operator) (unary_expression : expression)
  | EXPR_CONVERSION (vm_type : vm_type) (from_expression : expression)
  | EXPR_CONVERSION_FLOAT_TO_DOUBLE (from_expression : expression)
  | EXPR_CONVERSION_DOUBLE_TO_FLOAT (from_expression : expression)
  | EXPR_CONVERSION_FROM_FLOAT (vm_type : vm_type) (from_expression : expression)
  | EXPR_CONVERSION_TO_FLOAT (vm_type : vm_type) (from_expression : expression)
  | EXPR_CONVERSION_FROM_DOUBLE (vm_type : vm_type) (from_expression : expression)
  | EXPR_CONVERSION_TO_DOUBLE (vm_type : vm_type) (from_expression : expression)
  | EXPR_CLASS_FIELD (vm_type : vm_type) (class_field : vm_field)
  | EXPR_FLOAT_CLASS_FIELD (vm_type : vm_type) (class_field : vm_field)
  | EXPR_INSTANCE_FIELD (vm_type : vm_type) (instance_field : vm_field) (objectref_expression : expression)
  | EXPR_FLOAT_INSTANCE_FIELD (vm_type : vm_type) (instance_field : vm_field) (objectref_expression : expression)
  | EXPR_ARGS_LIST (args_left args_right : expression)
  | EXPR_ARG (vm_type : vm_type) (arg_reg : Z) (arg_expression : expression)
  | EXPR_ARG_THIS (arg_reg : Z) (arg_expression : expression)
  | EXPR_NO_ARGS
  | EXPR_NEW (class : class_ptr)
  | EXPR_NEWARRAY (array_type : Z) (array_size : expression)
  | EXPR_ANEWARRAY (anewarray_ref_type : class_ptr) (anewarray_size : expression)
  | EXPR_MULTIANEWARRAY (multianewarray_ref_type : class_ptr) (multianewarray_dimensions : expression)
  | EXPR_ARRAYLENGTH (arraylength_ref : expression)
  | EXPR_INSTANCEOF (instanceof_class : class_ptr) (instanceof_ref : expression)
  | EXPR_EXCEPTION_REF
  | EXPR_NULL_CHECK (null_check_ref : expression)
  | EXPR_ARRAY_SIZE_CHECK (size_expr : expression)
  | EXPR_LOOKUPSWITCH_BSEARCH (key : expression) (lookupswitch_table : lookupswitch)
  | EXPR_TRUNCATION (to_type : vm_type) (from_expression : expression).

(** A shared node: a temporary with its variable, or a slot of the mimic stack at the entry
    or the exit of a block, counted from the top. *)
Inductive shared_kind : Type :=
  | EXPR_TEMPORARY (tmp_low : nat)
  | EXPR_FLOAT_TEMPORARY (tmp_low : nat)
  | EXPR_MIMIC_STACK_SLOT (entry : bool) (slot_ndx : Z).
Record shared := Shared { sh_type : vm_type; sh_kind : shared_kind }.

#[export] Instance shared_kind_eq_dec : EqDecision shared_kind.
Proof. solve_decision. Defined.
#[export] Instance shared_eq_dec : EqDecision shared.
Proof. solve_decision. Defined.

(** [expr->vm_type]. *)
Definition vm_type_of (nodes : list shared) (e : expression) : option vm_type :=
  match e with
  | EXPR_VALUE t _ | EXPR_FVALUE t _ | EXPR_LOCAL t _ | EXPR_FLOAT_LOCAL t _ | EXPR_ARRAY_DEREF t _ _
  | EXPR_BINOP t _ _ _ | EXPR_UNARY_OP t _ _ | EXPR_CONVERSION t _ | EXPR_CONVERSION_FROM_FLOAT t _
  | EXPR_CONVERSION_TO_FLOAT t _ | EXPR_CONVERSION_FROM_DOUBLE t _ | EXPR_CONVERSION_TO_DOUBLE t _
  | EXPR_CLASS_FIELD t _ | EXPR_FLOAT_CLASS_FIELD t _ | EXPR_INSTANCE_FIELD t _ _
  | EXPR_FLOAT_INSTANCE_FIELD t _ _ | EXPR_ARG t _ _ => Some t
  | EXPR_SHARED n => sh_type <$> nodes !! n
  | EXPR_CONVERSION_FLOAT_TO_DOUBLE _ => Some J_DOUBLE
  | EXPR_CONVERSION_DOUBLE_TO_FLOAT _ => Some J_FLOAT
  | EXPR_ARGS_LIST _ _ | EXPR_NO_ARGS => Some J_VOID
  | EXPR_ARG_THIS _ _ | EXPR_NEW _ | EXPR_NEWARRAY _ _ | EXPR_ANEWARRAY _ _ | EXPR_MULTIANEWARRAY _ _
  | EXPR_EXCEPTION_REF | EXPR_NULL_CHECK _ => Some J_REFERENCE
  | EXPR_ARRAYLENGTH _ | EXPR_INSTANCEOF _ _ | EXPR_ARRAY_SIZE_CHECK _ | EXPR_TRUNCATION _ _ => Some J_INT
  | EXPR_LOOKUPSWITCH_BSEARCH _ _ => Some J_NATIVE_PTR
  end.

(** The children of a node. *)
Definition kids (e : expression) : list expression :=
  match e with
  | EXPR_ARRAY_DEREF _ a b | EXPR_BINOP _ _ a b | EXPR_ARGS_LIST a b => [a; b]
  | EXPR_UNARY_OP _ _ a | EXPR_TRUNCATION _ a | EXPR_CONVERSION _ a | EXPR_CONVERSION_FLOAT_TO_DOUBLE a
  | EXPR_CONVERSION_DOUBLE_TO_FLOAT a | EXPR_CONVERSION_TO_FLOAT _ a | EXPR_CONVERSION_FROM_FLOAT _ a
  | EXPR_CONVERSION_TO_DOUBLE _ a | EXPR_CONVERSION_FROM_DOUBLE _ a | EXPR_INSTANCE_FIELD _ _ a
  | EXPR_FLOAT_INSTANCE_FIELD _ _ a | EXPR_ARG _ _ a | EXPR_ARG_THIS _ a | EXPR_NEWARRAY _ a
  | EXPR_ANEWARRAY _ a | EXPR_MULTIANEWARRAY _ a | EXPR_ARRAYLENGTH a | EXPR_INSTANCEOF _ a
  | EXPR_NULL_CHECK a | EXPR_ARRAY_SIZE_CHECK a | EXPR_LOOKUPSWITCH_BSEARCH a _ => [a]
  | EXPR_VALUE _ _ | EXPR_FLOAT_LOCAL _ _ | EXPR_SHARED _ | EXPR_FLOAT_CLASS_FIELD _ _ | EXPR_FVALUE _ _
  | EXPR_LOCAL _ _ | EXPR_CLASS_FIELD _ _ | EXPR_NO_ARGS | EXPR_NEW _ | EXPR_EXCEPTION_REF => []
  end.
Definition expr_nr_kids (e : expression) : Z := Z.of_nat (length (kids e)).

Fixpoint expr_is_pure (e : expression) : bool :=
  match e with
  | EXPR_ARGS_LIST _ _ | EXPR_UNARY_OP _ _ _ | EXPR_TRUNCATION _ _ | EXPR_CONVERSION _ _
  | EXPR_CONVERSION_FLOAT_TO_DOUBLE _ | EXPR_CONVERSION_DOUBLE_TO_FLOAT _ | EXPR_CONVERSION_TO_FLOAT _ _
  | EXPR_CONVERSION_FROM_FLOAT _ _ | EXPR_CONVERSION_TO_DOUBLE _ _ | EXPR_CONVERSION_FROM_DOUBLE _ _
  | EXPR_ARG _ _ _ | EXPR_ARG_THIS _ _ | EXPR_ARRAYLENGTH _ | EXPR_INSTANCEOF _ _ | EXPR_ARRAY_SIZE_CHECK _
  | EXPR_NULL_CHECK _ | EXPR_LOOKUPSWITCH_BSEARCH _ _ | EXPR_INSTANCE_FIELD _ _ _ | EXPR_FLOAT_INSTANCE_FIELD _ _ _
  | EXPR_NEWARRAY _ _ | EXPR_ANEWARRAY _ _ | EXPR_MULTIANEWARRAY _ _ | EXPR_NEW _ | EXPR_BINOP _ _ _ _ => false
  | EXPR_VALUE _ _ | EXPR_FVALUE _ _ | EXPR_LOCAL _ _ | EXPR_FLOAT_LOCAL _ _ | EXPR_SHARED _
  | EXPR_CLASS_FIELD _ _ | EXPR_FLOAT_CLASS_FIELD _ _ | EXPR_NO_ARGS | EXPR_EXCEPTION_REF => true
  | EXPR_ARRAY_DEREF _ a b => expr_is_pure a && expr_is_pure b
  end.

(** Any other node, [EXPR_ARG_THIS] too, is taken for a list, whose fields it does not
    have. *)
Fixpoint nr_args (args_list : expression) : option Z :=
  match args_list with
  | EXPR_NO_ARGS => Some 0
  | EXPR_ARG _ _ _ => Some 1
  | EXPR_ARGS_LIST l r => a ← nr_args l; b ← nr_args r; Some (u64 (a + b))
  | _ => None
  end.

(** ** Statements *)

Inductive invoke_type : Type := STMT_INVOKE | STMT_INVOKEINTERFACE | STMT_INVOKEVIRTUAL.

Inductive statement : Type :=
  | STMT_STORE (store_dest store_src : expression)
  | STMT_IF (if_conditional : expression) (if_true : option nat)
  | STMT_GOTO (goto_target : option nat)
  | STMT_RETURN (return_value : expression)
  | STMT_VOID_RETURN
  | STMT_EXPRESSION (expression : expression)
  | STMT_ARRAY_CHECK (expression : expression)
  | STMT_ATHROW (exception_ref : expression)
  | STMT_MONITOR_ENTER (expression : expression)
  | STMT_MONITOR_EXIT (expression : expression)
  | STMT_CHECKCAST (checkcast_class : class_ptr) (checkcast_ref : expression)
  | STMT_ARRAY_STORE_CHECK (store_check_src store_check_array : expression)
  | STMT_TABLESWITCH (index : expression) (table : tableswitch)
  | STMT_LOOKUPSWITCH_JUMP (lookupswitch_target : expression)
  | STMT_BEFORE_ARGS (target_method : vm_callee)
  | STMT_CALL (type : invoke_type) (target_method : vm_callee) (args_list : expression)
      (invoke_result : option expression).

Definition stmt_kids (s : statement) : list expression :=
  match s with
  | STMT_STORE a b | STMT_ARRAY_STORE_CHECK a b => [a; b]
  | STMT_IF a _ | STMT_RETURN a | STMT_EXPRESSION a | STMT_ARRAY_CHECK a | STMT_ATHROW a | STMT_MONITOR_ENTER a
  | STMT_MONITOR_EXIT a | STMT_CHECKCAST _ a | STMT_TABLESWITCH a _ | STMT_LOOKUPSWITCH_JUMP a
  | STMT_CALL _ _ a _ => [a]
  | STMT_BEFORE_ARGS _ | STMT_GOTO _ | STMT_VOID_RETURN => []
  end.
Definition stmt_nr_kids (s : statement) : Z := Z.of_nat (length (stmt_kids s)).

(** The comparison of a key with an entry, in the type [int]: [None] is the overflow. *)
Definition lookupswitch_pair_comp (key : Z) (pair : lookupswitch_pair) : option Z :=
  let d := s32 key - match_ pair in
  if decide (- 2 ^ 31 <= d < 2 ^ 31) then Some d else None.

(** ** Changes to a node *)

Definition retype_node (t : vm_type) (x : shared) : shared := Shared t (sh_kind x).

(** [expr->vm_type = t] for a node that is not shared; the nodes whose type the constructor
    fixes are never given another. *)
Definition set_vm_type (t : vm_type) (e : expression) : expression :=
  match e with
  | EXPR_VALUE _ v => EXPR_VALUE t v
  | EXPR_FVALUE _ v => EXPR_FVALUE t v
  | EXPR_LOCAL _ i => EXPR_LOCAL t i
  | EXPR_FLOAT_LOCAL _ i => EXPR_FLOAT_LOCAL t i
  | EXPR_ARRAY_DEREF _ a i => EXPR_ARRAY_DEREF t a i
  | EXPR_BINOP _ op l r => EXPR_BINOP t op l r
  | EXPR_UNARY_OP _ op x => EXPR_UNARY_OP t op x
  | EXPR_CONVERSION _ x => EXPR_CONVERSION t x
  | EXPR_CONVERSION_FROM_FLOAT _ x => EXPR_CONVERSION_FROM_FLOAT t x
  | EXPR_CONVERSION_TO_FLOAT _ x => EXPR_CONVERSION_TO_FLOAT t x
  | EXPR_CONVERSION_FROM_DOUBLE _ x => EXPR_CONVERSION_FROM_DOUBLE t x
  | EXPR_CONVERSION_TO_DOUBLE _ x => EXPR_CONVERSION_TO_DOUBLE t x
  | EXPR_CLASS_FIELD _ f => EXPR_CLASS_FIELD t f
  | EXPR_FLOAT_CLASS_FIELD _ f => EXPR_FLOAT_CLASS_FIELD t f
  | EXPR_INSTANCE_FIELD _ f o => EXPR_INSTANCE_FIELD t f o
  | EXPR_FLOAT_INSTANCE_FIELD _ f o => EXPR_FLOAT_INSTANCE_FIELD t f o
  | EXPR_ARG _ r x => EXPR_ARG t r x
  | _ => e
  end.
