(* ===== verification/ArgsMap.v ===== *)
(** * arch/x86/args.c: the registers and stack slots of the arguments of a method

    The map has an entry for every slot of an argument, a long or double having two.  The
    array comes from [malloc]: an entry that is not written yet is [None]. *)

From S2P Require Import Prelude CMonad Types Tree.
#[local] Open Scope Z_scope.

(** The registers, by their number in the enum of arch/x86/include/arch/registers_64.h. *)
Definition MACH_REG_RCX : Z := 1.
Definition MACH_REG_RDX : Z := 2.
Definition MACH_REG_RSI : Z := 4.
Definition MACH_REG_RDI : Z := 5.
Definition MACH_REG_R8 : Z := 6.
Definition MACH_REG_R9 : Z := 7.
Definition MACH_REG_XMM0 : Z := 14.
Definition MACH_REG_UNASSIGNED : Z := 127.

Record vm_args_map := ArgsMap { am_reg : Z; am_stack_index : Z; am_type : vm_type }.

(** The assertions are [None]. *)
Definition args_map_alloc_gpr (gpr : Z) : option Z :=
  match gpr with
  | 0 => Some MACH_REG_RDI
  | 1 => Some MACH_REG_RSI
  | 2 => Some MACH_REG_RDX
  | 3 => Some MACH_REG_RCX
  | 4 => Some MACH_REG_R8
  | 5 => Some MACH_REG_R9
  | _ => if decide (gpr > 5) then Some MACH_REG_UNASSIGNED else None
  end.
Definition args_map_alloc_xmm (xmm : Z) : option Z :=
  if decide (0 <= xmm <= 7) then Some (MACH_REG_XMM0 + xmm)
  else if decide (xmm > 7) then Some MACH_REG_UNASSIGNED else None.

(** The counters of the loop and the array. *)
Record map_state := MS {
  ms_map : list (option vm_args_map);
  ms_idx : Z;
  gpr_count : Z;
  xmm_count : Z;
  stack_count : Z;
  reg_args_count : Z;
}.

Definition set_entry (l : list (option vm_args_map)) (i : Z) (x : vm_args_map) : option (list (option vm_args_map)) :=
  if decide (0 <= i < Z.of_nat (length l)) then Some (<[Z.to_nat i := Some x]> l) else None.

(** An argument in a general register while there is one, then on the stack. *)
Definition args_map_assign (t : vm_type) (s : map_state) : option (vm_args_map * map_state) :=
  if decide (gpr_count s < 6) then
    r ← args_map_alloc_gpr (gpr_count s);
    Some (ArgsMap r (-1) t, MS (ms_map s) (ms_idx s) (gpr_count s + 1) (xmm_count s) (stack_count s) (reg_args_count s))
  else
    Some (ArgsMap MACH_REG_UNASSIGNED (stack_count s) t,
          MS (ms_map s) (ms_idx s) (gpr_count s) (xmm_count s) (stack_count s + 1) (reg_args_count s)).

(** The entry of a float or double. *)
Definition args_map_assign_xmm (t : vm_type) (s : map_state) : option (vm_args_map * map_state) :=
  if decide (xmm_count s < 8) then
    r ← args_map_alloc_xmm (xmm_count s);
    Some (ArgsMap r (-1) t, MS (ms_map s) (ms_idx s) (gpr_count s) (xmm_count s + 1) (stack_count s) (reg_args_count s))
  else
    Some (ArgsMap MACH_REG_UNASSIGNED (stack_count s) t,
          MS (ms_map s) (ms_idx s) (gpr_count s) (xmm_count s) (stack_count s + 1) (reg_args_count s)).

(** The second entry of a long or double. *)
Definition args_map_dup_slot (orig : vm_args_map) (st : Z) : vm_args_map * Z :=
  if decide (am_stack_index orig = -1) then (ArgsMap (am_reg orig) (-1) (am_type orig), st + 1)
  else (ArgsMap (am_reg orig) st (am_type orig), st + 1 + 1).

(** The entry at [ms_idx], which moves on. *)
Definition put_entry (x : vm_args_map) (s : map_state) : option map_state :=
  m ← set_entry (ms_map s) (ms_idx s) x;
  Some (MS m (ms_idx s + 1) (gpr_count s) (xmm_count s) (stack_count s) (reg_args_count s)).

Definition put_reference (s : map_state) : option map_state :=
  '(x, s) ← args_map_assign J_REFERENCE s; put_entry x s.

Definition put_arg (t : vm_type) (s : map_state) : option map_state :=
  '(x, s) ← match t with
            | J_BYTE | J_CHAR | J_INT | J_LONG | J_SHORT | J_BOOLEAN | J_REFERENCE => args_map_assign t s
            | J_FLOAT | J_DOUBLE => args_map_assign_xmm t s
            | _ => Some (ArgsMap MACH_REG_UNASSIGNED (stack_count s) t,
                         MS (ms_map s) (ms_idx s) (gpr_count s) (xmm_count s) (stack_count s + 1) (reg_args_count s))
            end;
  s ← put_entry x s;
  if vm_type_is_pair t then
    let '(y, st) := args_map_dup_slot x (stack_count s) in
    put_entry y (MS (ms_map s) (ms_idx s) (gpr_count s) (xmm_count s) st (reg_args_count s + 1))
  else Some s.

Fixpoint put_args (l : list vm_type) (s : map_state) : option map_state :=
  match l with [] => Some s | t :: l' => s ← put_arg t s; put_args l' s end.

(** [vm_method_arg_slots] of vm/types.c, without wrap, and [vm_method_arg_stack_count] of
    vm/method.c. *)
Definition args_slots (l : list vm_type) : Z := foldr (λ t n, vm_type_slot_size t + n) 0 l.
Definition vm_method_arg_stack_count (m : vm_callee) : Z :=
  u32 (args_slots (callee_args m) + (if vm_method_is_static m then 0 else 1)).

(** What [vm_method_do_init] of vm/method.c puts into [args_count]: [count_arguments] of
    vm/types.c, one more for the object, and one more for the class of a static method that
    is called through JNI. *)
Definition count_slots (l : list vm_type) : Z :=
  foldl (λ count t, if decide (t = J_LONG ∨ t = J_DOUBLE) then count + 2 else count + 1) 0 l.
Definition method_args_count (args : list vm_type) (static jni : bool) : Z :=
  let count := count_slots args in
  let count := if static then count else count + 1 in
  if jni && static then count + 1 else count.

Definition sizeof_args_map : Z := 12.

(** The entries are filled; [None] is an access outside the array of [size] entries. *)
Definition args_map_fill (size : Z) (args : list vm_type) (static jni : bool) : option map_state :=
  s ← (let s := MS (replicate (Z.to_nat size) None) 0 0 0 0 0 in
       if (jni : bool) then s ← (if (static : bool) then put_reference s else Some s); put_reference s else Some s);
  s ← (if (static : bool) then Some s else put_reference s);
  s ← put_args args s;
  Some (MS (ms_map s) (ms_idx s) (gpr_count s) (xmm_count s) (stack_count s) (reg_args_count s + gpr_count s + xmm_count s)).

(** The result and the map; the object is counted again, and for JNI the class and the
    environment. *)
Definition args_map_init `{Allocator} (args_count : Z) (args : list vm_type) (static jni : bool) : M mem unit (Z * option map_state) := λ h,
  let size := args_count + (if static then 0 else 1) in
  let size := if jni then (if static then size + 1 else size) + 1 else size in
  match mem_malloc (sizeof_args_map * size) h with
  | (None, h') => Done (-1, None) h'
  | (Some _, h') => match args_map_fill size args static jni with Some s => Done (0, Some s) h' | None => Undef end
  end.

Lemma count_slots_args l : count_slots l = args_slots l.
Proof.
  unfold count_slots. assert (∀ n, foldl (λ count t, if decide (t = J_LONG ∨ t = J_DOUBLE) then count + 2 else count + 1) n l = n + args_slots l) as Hg;
    [|by rewrite Hg].
  induction l as [|t l IH]; intros n; cbn [foldl]; [cbn; lia|]. rewrite IH. unfold args_slots. cbn [foldr]. fold (args_slots l).
  destruct (pair_slots t) as [(Ht & _ & ->)|(Ht & _ & ->)]; [rewrite decide_True by done|rewrite decide_False by done]; lia.
Qed.
Lemma args_slots_cons t l : args_slots (t :: l) = vm_type_slot_size t + args_slots l.
Proof. done. Qed.
Lemma args_slots_app l1 l2 : args_slots (l1 ++ l2) = args_slots l1 + args_slots l2.
Proof. induction l1 as [|t l IH]; [done|]. cbn [app]. rewrite !args_slots_cons, IH. lia. Qed.
Lemma args_slots_rev l : args_slots (rev l) = args_slots l.
Proof.
  induction l as [|t l IH]; [done|]. cbn [rev]. rewrite args_slots_app, IH, !args_slots_cons.
  change (args_slots []) with 0. lia.
Qed.
Lemma args_slots_nonneg l : 0 <= args_slots l.
Proof. induction l as [|t l IH]; [done|]. rewrite args_slots_cons. unfold vm_type_slot_size. case_decide; lia. Qed.
