(* ===== verification/ArgsMapProps.v ===== *)
(** * The argument maps follow the calling convention

    The parameters of a method in order, with what the convention says of their registers;
    [args_map_init] gives each of them its register, and to those that have none slots of
    the stack of their own. *)

From S2P Require Import Prelude CMonad Types Tree ArgsMap.
From stdpp Require Import sorting.
#[local] Open Scope Z_scope.

(** ** The calling convention *)

(** The parameters of the compiled code: the environment and the class for a native method,
    the object, the arguments. *)
Definition parameters (args : list vm_type) (static jni : bool) : list vm_type :=
  (if jni then (if static then [J_REFERENCE] else []) ++ [J_REFERENCE] else []) ++
  (if static then [] else [J_REFERENCE]) ++ args.

Definition is_parameter (t : vm_type) : bool := match t with J_VOID | J_RETURN_ADDRESS => false | _ => true end.

Definition count (p : vm_type → bool) (l : list vm_type) : Z := foldr (λ t n, (if p t then 1 else 0) + n) 0 l.
Definition in_gpr (t : vm_type) : bool := negb (vm_type_is_float t).

(** The registers of the System V calling convention for x86-64, in their order: rdi, rsi,
    rdx, rcx, r8, r9 and xmm0 to xmm7, by the numbers of the enum [machine_reg]. *)
Definition abi_integer : list Z := [5; 4; 2; 1; 6; 7].
Definition abi_sse : list Z := [14; 15; 16; 17; 18; 19; 20; 21].

(** The register of parameter [k] of the list: the next of its kind, while there are any. *)
Definition abi_register (l : list vm_type) (k : nat) (t : vm_type) : Z :=
  default MACH_REG_UNASSIGNED
    (if vm_type_is_float t then abi_sse !! Z.to_nat (count vm_type_is_float (take k l))
     else abi_integer !! Z.to_nat (count in_gpr (take k l))).

Lemma alloc_gpr_abi n : 0 <= n → args_map_alloc_gpr n = Some (default MACH_REG_UNASSIGNED (abi_integer !! Z.to_nat n)).
Proof.
  intros Hn. destruct (decide (n <= 5)) as [H5|H5].
  - assert (n = 0 ∨ n = 1 ∨ n = 2 ∨ n = 3 ∨ n = 4 ∨ n = 5) as Hc by lia.
    by destruct Hc as [->|[->|[->|[->|[->| ->]]]]].
  - rewrite lookup_ge_None_2 by (cbn; lia). unfold args_map_alloc_gpr. rewrite decide_True by lia.
    destruct n as [|p|p]; try lia. do 3 (destruct p as [p|p|]; try reflexivity; try lia).
Qed.
Lemma alloc_xmm_abi n : 0 <= n → args_map_alloc_xmm n = Some (default MACH_REG_UNASSIGNED (abi_sse !! Z.to_nat n)).
Proof.
  intros Hn. destruct (decide (n <= 7)) as [H7|H7].
  - assert (n = 0 ∨ n = 1 ∨ n = 2 ∨ n = 3 ∨ n = 4 ∨ n = 5 ∨ n = 6 ∨ n = 7) as Hc by lia.
    by destruct Hc as [->|[->|[->|[->|[->|[->|[->| ->]]]]]]].
  - rewrite lookup_ge_None_2 by (cbn; lia). unfold args_map_alloc_xmm. by rewrite decide_False, decide_True by lia.
Qed.

(** The parameter each slot belongs to. *)
Definition slots_of (k : nat) (t : vm_type) : list nat := if vm_type_is_pair t then [k; k] else [k].
Fixpoint owners (k : nat) (l : list vm_type) : list nat :=
  match l with [] => [] | t :: l' => slots_of k t ++ owners (S k) l' end.

Lemma owners_snoc k l t : owners k (l ++ [t]) = owners k l ++ slots_of (k + length l) t.
Proof.
  revert k. induction l as [|x l IH]; intros k; cbn; [by rewrite Nat.add_0_r, app_nil_r|].
  rewrite IH, <- app_assoc. do 3 f_equal. lia.
Qed.
Lemma owners_length l k : Z.of_nat (length (owners k l)) = args_slots l.
Proof.
  revert k. induction l as [|t l IH]; intros k; [done|]. cbn [owners]. rewrite length_app, Nat2Z.inj_add, IH. unfold args_slots at 2. cbn.
  fold (args_slots l). unfold slots_of. by destruct t.
Qed.
Lemma owners_lt k l j : j ∈ owners k l → (k <= j < k + length l)%nat.
Proof.
  revert k. induction l as [|t l IH]; intros k; cbn; [by intros ?%elem_of_nil|]. rewrite elem_of_app. intros [Hj|Hj].
  - unfold slots_of in Hj. destruct (vm_type_is_pair t); set_unfold; lia.
  - apply IH in Hj. lia.
Qed.
Lemma count_snoc p l t : count p (l ++ [t]) = count p l + (if p t then 1 else 0).
Proof.
  induction l as [|x l IH]; cbn in *; [lia|]. fold (count p (l ++ [t])) (count p l). lia.
Qed.
Lemma count_nonneg p l : 0 <= count p l.
Proof. induction l as [|t l IH]; cbn; [done|]. fold (count p l). destruct (p t); lia. Qed.
(** The functions of the code give the registers of the convention. *)
Lemma abi_register_alloc l k t : abi_register l k t =
  default MACH_REG_UNASSIGNED
    (if vm_type_is_float t then args_map_alloc_xmm (count vm_type_is_float (take k l))
     else args_map_alloc_gpr (count in_gpr (take k l))).
Proof.
  rewrite alloc_gpr_abi, alloc_xmm_abi by apply count_nonneg. unfold abi_register. by destruct (vm_type_is_float t).
Qed.
Lemma abi_register_snoc l k t t' : (k <= length l)%nat → abi_register (l ++ [t']) k t = abi_register l k t.
Proof. intros Hk. unfold abi_register. by rewrite take_app_le by lia. Qed.

(** ** The loop *)

(** The places on the stack, in the order of the entries. *)
Definition stacked (es : list vm_args_map) : list Z :=
  omap (λ e, if decide (am_reg e = MACH_REG_UNASSIGNED) then Some (am_stack_index e) else None) es.

Record mapped (l : list vm_type) (es : list vm_args_map) (n : nat) (s : map_state) : Prop := {
  mapped_map : ms_map s = (Some <$> es) ++ replicate n None;
  mapped_idx : ms_idx s = Z.of_nat (length es);
  mapped_gpr : gpr_count s = Z.min 6 (count in_gpr l);
  mapped_xmm : xmm_count s = Z.min 8 (count vm_type_is_float l);
  mapped_entries : Forall2 (λ k e, ∃ t, l !! k = Some t ∧ am_type e = t ∧ am_reg e = abi_register l k t) (owners 0 l) es;
  mapped_regs : Forall (λ e, am_reg e ≠ MACH_REG_UNASSIGNED → am_stack_index e = -1) es;
  mapped_stack : StronglySorted Z.lt (stacked es) ∧ Forall (λ i, 0 <= i < stack_count s) (stacked es) ∧ 0 <= stack_count s;
}.

(** The entry of the next parameter. *)
Definition next_entry (l : list vm_type) (t : vm_type) (st : Z) (x : vm_args_map) (st' : Z) : Prop :=
  am_type x = t ∧ am_reg x = abi_register l (length l) t ∧
  ((am_reg x = MACH_REG_UNASSIGNED ∧ am_stack_index x = st ∧ st' = st + 1) ∨
   (am_reg x ≠ MACH_REG_UNASSIGNED ∧ am_stack_index x = -1 ∧ st' = st)).

Lemma args_map_assign_ok l es n s t :
  mapped l es n s → vm_type_is_float t = false →
  ∃ x st', args_map_assign t s = Some (x, MS (ms_map s) (ms_idx s) (Z.min 6 (count in_gpr (l ++ [t]))) (Z.min 8 (count vm_type_is_float (l ++ [t]))) st' (reg_args_count s)) ∧
    next_entry l t (stack_count s) x st'.
Proof.
  intros [_ _ Hg Hx _ _ _] Ht. unfold args_map_assign, next_entry. rewrite abi_register_alloc, Ht, take_ge, !count_snoc by done.
  replace (in_gpr t) with true by (unfold in_gpr; by rewrite Ht). rewrite Ht. pose proof (count_nonneg in_gpr l) as Hc. case_decide as Hd.
  - assert (gpr_count s = count in_gpr l) as E by lia. rewrite E in *.
    assert (∃ r, args_map_alloc_gpr (count in_gpr l) = Some r ∧ r ≠ MACH_REG_UNASSIGNED) as (r & Er & Hr).
    { assert (count in_gpr l = 0 ∨ count in_gpr l = 1 ∨ count in_gpr l = 2 ∨ count in_gpr l = 3 ∨ count in_gpr l = 4 ∨ count in_gpr l = 5) as Hn by lia.
      destruct Hn as [-> |[-> |[-> |[-> |[-> | ->]]]]]; by eexists. }
    rewrite Er. exists (ArgsMap r (-1) t), (stack_count s). split; [|split; [|split; [|right]]]; cbn; [|done..].
    rewrite Hx, Z.add_0_r, (Z.min_r 6) by lia. reflexivity.
  - exists (ArgsMap MACH_REG_UNASSIGNED (stack_count s) t), (stack_count s + 1). split; [|split; [|split; [|left]]].
    + rewrite Hg, Hx, Z.add_0_r, !(Z.min_l 6) by lia. reflexivity.
    + done.
    + cbn. unfold args_map_alloc_gpr. rewrite decide_True by lia. destruct (count in_gpr l) as [|p|p]; try lia.
      do 3 (destruct p as [p|p|]; try reflexivity; try lia).
    + done.
Qed.
Lemma args_map_assign_xmm_ok l es n s t :
  mapped l es n s → vm_type_is_float t = true →
  ∃ x st', args_map_assign_xmm t s = Some (x, MS (ms_map s) (ms_idx s) (Z.min 6 (count in_gpr (l ++ [t]))) (Z.min 8 (count vm_type_is_float (l ++ [t]))) st' (reg_args_count s)) ∧
    next_entry l t (stack_count s) x st'.
Proof.
  intros [_ _ Hg Hx _ _ _] Ht. unfold args_map_assign_xmm, next_entry. rewrite abi_register_alloc, Ht, take_ge, !count_snoc by done.
  replace (in_gpr t) with false by (unfold in_gpr; by rewrite Ht). rewrite Ht. pose proof (count_nonneg vm_type_is_float l) as Hc. unfold args_map_alloc_xmm. case_decide as Hd.
  - rewrite !decide_True by lia. exists (ArgsMap (MACH_REG_XMM0 + xmm_count s) (-1) t), (stack_count s). split; [|split; [|split; [|right]]].
    + cbn. rewrite Hg, Hx, Z.add_0_r, !(Z.min_r 8) by lia. reflexivity.
    + done.
    + cbn. f_equal. lia.
    + cbn. unfold MACH_REG_XMM0, MACH_REG_UNASSIGNED. lia.
  - rewrite (decide_False (P := 0 <= _ <= 7)), decide_True by lia. exists (ArgsMap MACH_REG_UNASSIGNED (stack_count s) t), (stack_count s + 1). split; [|split; [|split; [|left]]].
    + rewrite Hg, Hx, Z.add_0_r, !(Z.min_l 8) by lia. reflexivity.
    + done.
    + done.
    + done.
Qed.

Lemma set_entry_next (es : list vm_args_map) n x :
  set_entry ((Some <$> es) ++ replicate (S n) None) (Z.of_nat (length es)) x = Some ((Some <$> (es ++ [x])) ++ replicate n None).
Proof.
  unfold set_entry. rewrite length_app, length_fmap, length_replicate, decide_True by lia. f_equal.
  rewrite Nat2Z.id, insert_app_r_alt by (rewrite length_fmap; lia). rewrite length_fmap, Nat.sub_diag, fmap_app, <- app_assoc. done.
Qed.

Lemma stacked_app es1 es2 : stacked (es1 ++ es2) = stacked es1 ++ stacked es2.
Proof. apply omap_app. Qed.

(** Entries [ys] for the parameter [t], on the stack from where it stood. *)
Lemma mapped_snoc l es ys m n t s s' :
  mapped l es m s → ms_map s' = (Some <$> (es ++ ys)) ++ replicate n None → ms_idx s' = Z.of_nat (length (es ++ ys)) →
  gpr_count s' = Z.min 6 (count in_gpr (l ++ [t])) → xmm_count s' = Z.min 8 (count vm_type_is_float (l ++ [t])) →
  length ys = length (slots_of 0 t) →
  Forall (λ y, am_type y = t ∧ am_reg y = abi_register l (length l) t ∧ (am_reg y ≠ MACH_REG_UNASSIGNED → am_stack_index y = -1)) ys →
  StronglySorted Z.lt (stacked ys) → Forall (λ i, stack_count s <= i < stack_count s') (stacked ys) → stack_count s <= stack_count s' →
  mapped (l ++ [t]) (es ++ ys) n s'.
Proof.
  intros [_ _ _ _ He Hr (Hs1 & Hs2 & Hs3)] Hm Hi Hg Hx Hn Hy Hy1 Hy2 Hc. split; try done.
  - rewrite owners_snoc. apply Forall2_app.
    + eapply Forall2_impl; [exact He|]. intros k e (t' & Hk & Hte & Hre). exists t'. split; [by apply lookup_app_l_Some|]. split; [done|].
      rewrite abi_register_snoc; [done|]. apply lookup_lt_Some in Hk. lia.
    + assert (HF : Forall2 (λ k e, k = length l ∧ am_type e = t ∧ am_reg e = abi_register l (length l) t) (slots_of (0 + length l) t) ys).
      { unfold slots_of in *. destruct (vm_type_is_pair t); destruct ys as [|y1 [|y2 [|]]]; try done;
          repeat (apply Forall_cons in Hy as [? Hy]); repeat constructor; tauto. }
      eapply Forall2_impl; [exact HF|]. intros k e (-> & E1 & E2). exists t. rewrite abi_register_snoc by done. split; [by apply list_lookup_middle|done].
  - apply Forall_app. split; [done|]. eapply Forall_impl; [exact Hy|]. cbn. tauto.
  - rewrite stacked_app. split_and!; [|apply Forall_app; split|lia].
    + apply StronglySorted_app. split_and!; [|done|done]. intros a b Ha Hb. rewrite Forall_forall in Hs2, Hy2. apply Hs2 in Ha. apply Hy2 in Hb. lia.
    + eapply Forall_impl; [exact Hs2|]. cbn. lia.
    + eapply Forall_impl; [exact Hy2|]. cbn. lia.
Qed.

Lemma put_arg_ok l es n s t :
  mapped l es (length (slots_of 0 t) + n) s → is_parameter t = true →
  ∃ es' s', put_arg t s = Some s' ∧ mapped (l ++ [t]) (es ++ es') n s'.
Proof.
  intros HM Ht.
  assert (∃ x st', match t with
      | J_BYTE | J_CHAR | J_INT | J_LONG | J_SHORT | J_BOOLEAN | J_REFERENCE => args_map_assign t s
      | J_FLOAT | J_DOUBLE => args_map_assign_xmm t s
      | _ => Some (ArgsMap MACH_REG_UNASSIGNED (stack_count s) t,
                   MS (ms_map s) (ms_idx s) (gpr_count s) (xmm_count s) (stack_count s + 1) (reg_args_count s))
      end = Some (x, MS (ms_map s) (ms_idx s) (Z.min 6 (count in_gpr (l ++ [t]))) (Z.min 8 (count vm_type_is_float (l ++ [t]))) st' (reg_args_count s)) ∧
      next_entry l t (stack_count s) x st') as (x & st' & E & (Hxt & Hxr & Hxs)).
  { destruct t; try done; (eapply args_map_assign_ok || eapply args_map_assign_xmm_ok); done. }
  unfold put_arg. rewrite E. clear E. cbn [mbind option_bind]. pose proof HM as [Hm Hi _ _ _ _ _].
  unfold slots_of in Hm. unfold put_entry. cbn [ms_map ms_idx gpr_count xmm_count stack_count reg_args_count].
  destruct (vm_type_is_pair t) eqn:Ep; cbn [length Nat.add] in Hm; rewrite Hm, Hi, set_entry_next; cbn [mbind option_bind ms_map ms_idx gpr_count xmm_count stack_count reg_args_count].
  - destruct (args_map_dup_slot x st') as [y st''] eqn:Ey. cbn [ms_map ms_idx gpr_count xmm_count stack_count reg_args_count].
    replace (Z.of_nat (length es) + 1) with (Z.of_nat (length (es ++ [x]))) by (rewrite length_app; cbn; lia).
    rewrite set_entry_next, <- app_assoc. cbn [mbind option_bind app]. exists [x; y]. eexists. split; [reflexivity|].
    unfold args_map_dup_slot in Ey.
    eapply mapped_snoc; [exact HM|done| |done|done|unfold slots_of; by rewrite Ep| | | |]; cbn [ms_idx stack_count];
      [rewrite !length_app; cbn; lia|..]; destruct Hxs as [(Hn & Hxi & ->)|(Hn & Hxi & ->)]; pose proof HM as [_ _ _ _ _ _ (_ & _ & H0)];
      first [rewrite decide_False in Ey by lia | rewrite decide_True in Ey by done]; simplify_eq; cbn; rewrite ?Hn, ?decide_True, ?decide_False by done; cbn;
      repeat constructor; cbn; try done; try lia.
  - exists [x]. eexists. split; [reflexivity|].
    eapply mapped_snoc; [exact HM|done| |done|done|unfold slots_of; by rewrite Ep| | | |]; cbn [ms_idx stack_count];
      [rewrite !length_app; cbn; lia|..]; destruct Hxs as [(Hn & Hxi & ->)|(Hn & Hxi & ->)]; cbn; rewrite ?decide_True, ?decide_False by done; cbn;
      repeat constructor; cbn; try done; lia.
Qed.

Lemma owners_length_at k k' l : length (owners k l) = length (owners k' l).
Proof. apply Nat2Z.inj. by rewrite !owners_length. Qed.

Lemma put_args_ok T l es n s :
  mapped l es (length (owners 0 T) + n) s → Forall (λ t, is_parameter t = true) T →
  ∃ es' s', put_args T s = Some s' ∧ mapped (l ++ T) (es ++ es') n s'.
Proof.
  revert l es s. induction T as [|t T IH]; intros l es s HM HT; cbn [put_args].
  - exists [], s. by rewrite !app_nil_r.
  - apply Forall_cons in HT as [Ht HT]. cbn [owners] in HM. rewrite length_app, (owners_length_at 1 0), <- Nat.add_assoc in HM.
    destruct (put_arg_ok _ _ _ _ _ HM Ht) as (es1 & s1 & -> & HM1). cbn [mbind option_bind].
    destruct (IH _ _ _ HM1 HT) as (es2 & s2 & -> & HM2). rewrite <- !app_assoc in HM2. by exists (es1 ++ es2), s2.
Qed.

Lemma put_args_reference l s : put_args (J_REFERENCE :: l) s = (s ← put_reference s; put_args l s).
Proof.
  cbn [put_args]. unfold put_arg, put_reference. destruct (args_map_assign J_REFERENCE s) as [[x s1]|]; [|done]. cbn. by destruct (put_entry x s1).
Qed.
Lemma args_map_fill_args size args static jni :
  args_map_fill size args static jni =
  (s ← put_args (parameters args static jni) (MS (replicate (Z.to_nat size) None) 0 0 0 0 0);
   Some (MS (ms_map s) (ms_idx s) (gpr_count s) (xmm_count s) (stack_count s) (reg_args_count s + gpr_count s + xmm_count s))).
Proof.
  unfold args_map_fill, parameters. set (s0 := MS _ 0 0 0 0 0).
  destruct jni, static; cbn [app]; rewrite ?put_args_reference; cbn [mbind option_bind];
    try (destruct (put_reference s0) as [s1|]; cbn [mbind option_bind]; rewrite ?put_args_reference; [|done]); try (by destruct (put_reference s1)); by destruct (put_args args _).
Qed.

(** The entries beyond those of the parameters: the object and, for JNI, the class are
    counted twice. *)
Definition spare_entries (static jni : bool) : nat := if static && negb jni then 0 else 1.
Lemma map_size args static jni :
  method_args_count args static jni + (if static then 0 else 1) + (if jni then (if static then 1 else 0) + 1 else 0) =
  args_slots (parameters args static jni) + Z.of_nat (spare_entries static jni).
Proof.
  unfold method_args_count, parameters, spare_entries. rewrite count_slots_args, !args_slots_app.
  change (args_slots [J_REFERENCE]) with 1. change (args_slots []) with 0.
  destruct jni, static; cbn [andb negb app]; change (args_slots [J_REFERENCE; J_REFERENCE]) with 2;
    change (args_slots [J_REFERENCE]) with 1; change (args_slots []) with 0; lia.
Qed.

(** ** Places *)

Lemma stacked_sorted es i j e e' :
  StronglySorted Z.lt (stacked es) → (i < j)%nat → es !! i = Some e → es !! j = Some e' →
  am_reg e = MACH_REG_UNASSIGNED → am_reg e' = MACH_REG_UNASSIGNED → am_stack_index e < am_stack_index e'.
Proof.
  intros HS Hij Hi Hj Hu Hu'. rewrite <- (take_drop_middle es i e Hi), stacked_app in HS. apply StronglySorted_app in HS as (_ & _ & HS).
  cbn in HS. rewrite decide_True in HS by done. cbn in HS. apply StronglySorted_inv in HS as [_ HS]. rewrite Forall_forall in HS.
  apply HS. unfold stacked. apply list_elem_of_omap. exists e'. rewrite decide_True by done. split; [|done].
  apply list_elem_of_lookup. exists (j - S i)%nat. rewrite lookup_drop, <- Hj. f_equal. lia.
Qed.

Lemma alloc_gpr_inj a b r r' : 0 <= a < b → args_map_alloc_gpr a = Some r → args_map_alloc_gpr b = Some r' → r = r' → r = MACH_REG_UNASSIGNED.
Proof.
  intros Hab Ha Hb ->. destruct (decide (b > 5)) as [H5|H5].
  - assert (args_map_alloc_gpr b = Some MACH_REG_UNASSIGNED) as E; [|congruence].
    unfold args_map_alloc_gpr. rewrite decide_True by lia. destruct b as [|p|p]; try lia. do 3 (destruct p as [p|p|]; try reflexivity; try lia).
  - assert (b = 1 ∨ b = 2 ∨ b = 3 ∨ b = 4 ∨ b = 5) as Hn by lia. assert (a = 0 ∨ a = 1 ∨ a = 2 ∨ a = 3 ∨ a = 4) as Hm by lia.
    destruct Hn as [-> |[-> |[-> |[-> | ->]]]]; destruct Hm as [-> |[-> |[-> |[-> | ->]]]]; try lia; vm_compute in Ha, Hb; congruence.
Qed.
Lemma alloc_xmm_inj a b r r' : 0 <= a < b → args_map_alloc_xmm a = Some r → args_map_alloc_xmm b = Some r' → r = r' → r = MACH_REG_UNASSIGNED.
Proof. intros Hab. unfold args_map_alloc_xmm. repeat case_decide; intros; simplify_eq; lia. Qed.
Lemma alloc_gpr_range a : 0 <= a → ∃ r, args_map_alloc_gpr a = Some r ∧ (r <= 7 ∨ r = MACH_REG_UNASSIGNED).
Proof.
  intros Ha. destruct (decide (a > 5)) as [H5|H5].
  - exists MACH_REG_UNASSIGNED. split; [|by right]. unfold args_map_alloc_gpr. rewrite decide_True by lia. destruct a as [|p|p]; try lia.
    do 3 (destruct p as [p|p|]; try reflexivity; try lia).
  - assert (a = 0 ∨ a = 1 ∨ a = 2 ∨ a = 3 ∨ a = 4 ∨ a = 5) as Hn by lia.
    destruct Hn as [-> |[-> |[-> |[-> |[-> | ->]]]]]; eexists; (split; [done|left; done]).
Qed.
Lemma alloc_xmm_range a : 0 <= a → ∃ r, args_map_alloc_xmm a = Some r ∧ 14 <= r.
Proof. intros Ha. unfold args_map_alloc_xmm, MACH_REG_XMM0, MACH_REG_UNASSIGNED. repeat case_decide; try lia; eexists; (split; [done|lia]). Qed.

Lemma count_take_lt p l k k' t : l !! k = Some t → p t = true → (k < k')%nat → count p (take k l) < count p (take k' l).
Proof.
  intros Hk Hp Hlt. assert (Hm : ∀ n, count p (take (S k) l) <= count p (take (S k + n) l)).
  { intros n. induction n as [|n IH]; [by rewrite Nat.add_0_r|]. rewrite Nat.add_succ_r. destruct (l !! (S k + n)%nat) as [x|] eqn:E.
    - rewrite (take_S_r _ _ _ E), count_snoc. destruct (p x); lia.
    - apply lookup_ge_None in E. rewrite (take_ge l (S (S k + n))) by lia. by rewrite (take_ge l (S k + n)) in IH by lia. }
  specialize (Hm (k' - S k)%nat). replace (S k + (k' - S k))%nat with k' in Hm by lia.
  rewrite (take_S_r _ _ _ Hk), count_snoc, Hp in Hm. lia.
Qed.

(** Parameters have registers of their own. *)
Lemma abi_register_inj l k k' t t' :
  (k < k')%nat → l !! k = Some t → l !! k' = Some t' → abi_register l k t = abi_register l k' t' → abi_register l k t = MACH_REG_UNASSIGNED.
Proof.
  intros Hlt Hk Hk' E. rewrite !abi_register_alloc in *.
  destruct (alloc_gpr_range (count in_gpr (take k l)) (count_nonneg _ _)) as (r & Er & Hr).
  destruct (alloc_gpr_range (count in_gpr (take k' l)) (count_nonneg _ _)) as (r' & Er' & Hr').
  destruct (alloc_xmm_range (count vm_type_is_float (take k l)) (count_nonneg _ _)) as (x & Ex & Hx).
  destruct (alloc_xmm_range (count vm_type_is_float (take k' l)) (count_nonneg _ _)) as (x' & Ex' & Hx').
  rewrite Er, Er', Ex, Ex' in E. rewrite Er, Ex. destruct (vm_type_is_float t) eqn:F, (vm_type_is_float t') eqn:F'; cbn in *.
  - eapply alloc_xmm_inj; [|done..]. split; [apply count_nonneg|by eapply count_take_lt].
  - destruct Hr' as [Hr'| ->]; [lia|done].
  - destruct Hr as [Hr| ->]; [lia|done].
  - eapply alloc_gpr_inj; [|done..]. split; [apply count_nonneg|]. eapply count_take_lt; [done|unfold in_gpr; by rewrite F|done].
Qed.

Lemma mapped_nil n : mapped [] [] n (MS (replicate n None) 0 0 0 0 0).
Proof. split; try done. split_and!; [constructor|constructor|done]. Qed.

(** Slots of different parameters are in different places. *)
Lemma mapped_disjoint l es n s i j k k' e e' :
  mapped l es n s → (i < j)%nat → owners 0 l !! i = Some k → owners 0 l !! j = Some k' → es !! i = Some e → es !! j = Some e' → k ≠ k' →
  am_reg e = am_reg e' → am_reg e = MACH_REG_UNASSIGNED ∧ am_stack_index e < am_stack_index e'.
Proof.
  intros [_ _ _ _ HF _ (HS & _)] Hij Hk Hk' He He' Hne Er.
  destruct (Forall2_lookup_lr _ _ _ _ _ _ HF Hk He) as (t & Ht & _ & E). destruct (Forall2_lookup_lr _ _ _ _ _ _ HF Hk' He') as (t' & Ht' & _ & E').
  assert (am_reg e = MACH_REG_UNASSIGNED) as Hu.
  { destruct (decide (k < k')%nat) as [Hlt|Hge].
    - rewrite E. apply (abi_register_inj l k k' t t'); [done..|congruence].
    - rewrite Er, E'. apply (abi_register_inj l k' k t' t); [lia|done..|congruence]. }
  split; [done|]. eapply stacked_sorted; [exact HS|exact Hij|done..|congruence].
Qed.

(** C11: With the count that [vm_method_do_init] passes on, args_map_init returns -1 when the
    array cannot be allocated, and else 0 with the map: no access is outside the array, one
    entry is written for every slot of a parameter, in order, with its type and the register
    that the calling convention gives the parameter, and the slots of different parameters
    are in different registers or, when there are no registers left, in different places on
    the stack.  The array has an entry more than there are slots, which is left as malloc
    gave it, unless the method is static and not called through JNI. *)
Theorem args_map_init_correct `{Allocator} args static jni h :
  Forall (λ t, is_parameter t = true) args →
  match args_map_init (method_args_count args static jni) args static jni h with
  | Done (err, None) _ => err = -1 ∧ ¬ ∀ k size, malloc_ok k size = true
  | Done (err, Some s) _ => err = 0 ∧
      ∃ es, ms_map s = (Some <$> es) ++ replicate (spare_entries static jni) None ∧
        Forall2 (λ k e, ∃ t, parameters args static jni !! k = Some t ∧ am_type e = t ∧ am_reg e = abi_register (parameters args static jni) k t)
          (owners 0 (parameters args static jni)) es ∧
        ∀ i j k k' e e', (i < j)%nat → owners 0 (parameters args static jni) !! i = Some k → owners 0 (parameters args static jni) !! j = Some k' →
          es !! i = Some e → es !! j = Some e' → k ≠ k' → am_reg e = am_reg e' →
          am_reg e = MACH_REG_UNASSIGNED ∧ am_stack_index e < am_stack_index e'
  | Fail _ _ | Undef => False
  end.
Proof.
  intros HF. unfold args_map_init.
  match goal with |- context [mem_malloc (_ * ?z)] => set (size := z) end.
  assert (size = args_slots (parameters args static jni) + Z.of_nat (spare_entries static jni)) as Hsize
    by (rewrite <- map_size; unfold size; destruct jni, static; lia).
  clearbody size. unfold mem_malloc. destruct (malloc_ok _ _) eqn:Em; cbn beta iota.
  2: { split; [done|]. intros Hm. by rewrite Hm in Em. }
  set (l := parameters args static jni) in *. rewrite args_map_fill_args. fold l.
  destruct (put_args_ok l [] [] (spare_entries static jni) (MS (replicate (Z.to_nat size) None) 0 0 0 0 0)) as (es & s & -> & HM).
  { rewrite Hsize, <- (owners_length l 0), <- Nat2Z.inj_add, Nat2Z.id. apply mapped_nil. }
  { unfold l, parameters. rewrite !Forall_app. split_and!; [|by destruct static; repeat constructor|done]. destruct jni, static; by repeat constructor. }
  cbn in HM |- *. split; [done|]. exists es. split; [apply HM|]. split; [apply HM|]. intros. by eapply mapped_disjoint.
Qed.

(** ** Examples *)

Definition map_of (args : list vm_type) (static jni : bool) : option (list (option vm_args_map)) :=
  match args_map_init (H := λ _ _, true) (method_args_count args static jni) args static jni (Mem 0 ∅) with
  | Done (_, Some s) _ => Some (ms_map s)
  | _ => None
  end.

(** A method of an object, called through JNI, with eight arguments in eleven slots. *)
Lemma args_map_init_correct_witness :
  let args := [J_INT; J_DOUBLE; J_LONG; J_REFERENCE; J_INT; J_LONG; J_FLOAT; J_BYTE] in
  Forall (λ t, is_parameter t = true) args ∧
  ∃ s h', args_map_init (H := λ _ _, true) (method_args_count args false true) args false true (Mem 0 ∅) = Done (0, Some s) h' ∧
    ms_map s !! 2%nat = Some (Some (ArgsMap MACH_REG_RDX (-1) J_INT)) ∧
    ms_map s !! 10%nat = Some (Some (ArgsMap MACH_REG_UNASSIGNED 3 J_LONG)) ∧ ms_map s !! 13%nat = Some None ∧
    ∃ es, ms_map s = (Some <$> es) ++ [None].
Proof.
  split; [by repeat constructor|].
  pose proof (args_map_init_correct (H := λ _ _, true) [J_INT; J_DOUBLE; J_LONG; J_REFERENCE; J_INT; J_LONG; J_FLOAT; J_BYTE] false true (Mem 0 ∅)
    ltac:(by repeat constructor)) as Hc.
  assert ((λ m, (m !! 2%nat, m !! 10%nat, m !! 13%nat)) <$> map_of [J_INT; J_DOUBLE; J_LONG; J_REFERENCE; J_INT; J_LONG; J_FLOAT; J_BYTE] false true =
    Some (Some (Some (ArgsMap MACH_REG_RDX (-1) J_INT)), Some (Some (ArgsMap MACH_REG_UNASSIGNED 3 J_LONG)), Some None)) as Hm by (vm_compute; reflexivity).
  unfold map_of in Hm. destruct (args_map_init _ _ _ _ _) as [[err [s|]] h'| |] eqn:E; [|discriminate Hm..].
  destruct Hc as [-> (es & Hes & _)]. exists s, h'. split; [reflexivity|]. injection Hm as H2 H10 H13.
  split_and!; [exact H2|exact H10|exact H13|]. exists es. exact Hes.
Defined.

(** The counter of the stack moves on for a long in a register: the seventh argument of
    (JIIIIII) is the only one on the stack, which the caller pushes to place 0, and its entry
    says place 1. *)
Lemma args_map_skips_stack :
  match map_of [J_LONG; J_INT; J_INT; J_INT; J_INT; J_INT; J_INT] true false with
  | Some m => last m = Some (Some (ArgsMap MACH_REG_UNASSIGNED 1 J_INT)) ∧
      length (filter (λ e, am_reg <$> e = Some MACH_REG_UNASSIGNED) m) = 1%nat
  | None => False
  end.
Proof. vm_compute. split; reflexivity. Qed.

(** The object is counted by [vm_method_do_init] and again by [args_map_init]: a method of an
    object without arguments has a map of two entries. *)
Lemma args_map_spare_entry : map_of [] false false = Some [Some (ArgsMap MACH_REG_RDI (-1) J_REFERENCE); None].
Proof. reflexivity. Qed.
