(* ===== verification/Convert.v ===== *)
(** * jit/bytecode-to-ir.c, the converters of jit/*-bc.c, jit/args.c, lib/stack.c

    The conversion of the bytecode of a block to statements.  The operand stack of the
    virtual machine is simulated by the mimic stack of the block, a stack of expressions
    that are evaluated where a statement takes them.

    The state is the compilation unit: the blocks of BasicBlock, what the conversion adds to
    each of them (a block that has no entry yet has the fields [alloc_basic_block] gives it),
    the table of shared nodes, the types of the variables, the switch tables; and the parse
    context.  A converter ends normally ([return 0]), with an error code, or with the end of
    the program ([error]); an assertion that fails and a null pointer that is followed are
    undefined.  The arena of the variables does not run out.  Classes, fields and methods
    are found by a [Resolver]. *)

From Stdlib Require Import Ascii String.
From stdpp Require Import strings.
From S2P Require Import Prelude CMonad ConstantPool ClassFile Opcodes Bytecode Types BasicBlock Tree ArgsMap.
From stdpp Require Import gmap.
#[local] Open Scope Z_scope.

(** ** State *)

Record bb_ir := BI {
  is_converted : bool;
  stmt_list : list (Z * statement);
  mimic_stack : list expression;      (** the top first *)
  mimic_stack_exprs : list nat;        (** places in the table of nodes *)
}.
Definition bi_empty : bb_ir := BI false [] [] [].

Record parse_context := Ctx {
  ctx_bb : nat;
  ctx_pos : Z;
  ctx_offset : Z;
  ctx_opc : Z;
  ctx_is_wide : bool;
}.

Record ir_unit := IU {
  cfg : compilation_unit;
  irs : gmap nat bb_ir;
  nodes : list shared;
  var_infos : list vm_type;           (** a variable is its place; the newest last *)
  array_opc : bool;                   (** [CU_FLAG_ARRAY_OPC] *)
  tableswitch_list : list tableswitch;
  lookupswitch_list : list lookupswitch;
  ctx : parse_context;
}.

Inductive stop : Type :=
  | Err (code : Z)                    (** a return with an error code *)
  | Exit.                             (** [error]: the program ends *)

Definition K (A : Type) : Type := M ir_unit stop A.

Definition set_cfg (c : compilation_unit) (u : ir_unit) : ir_unit :=
  IU c (irs u) (nodes u) (var_infos u) (array_opc u) (tableswitch_list u) (lookupswitch_list u) (ctx u).
Definition set_irs (m : gmap nat bb_ir) (u : ir_unit) : ir_unit :=
  IU (cfg u) m (nodes u) (var_infos u) (array_opc u) (tableswitch_list u) (lookupswitch_list u) (ctx u).
Definition set_nodes (l : list shared) (u : ir_unit) : ir_unit :=
  IU (cfg u) (irs u) l (var_infos u) (array_opc u) (tableswitch_list u) (lookupswitch_list u) (ctx u).
Definition set_vars (l : list vm_type) (u : ir_unit) : ir_unit :=
  IU (cfg u) (irs u) (nodes u) l (array_opc u) (tableswitch_list u) (lookupswitch_list u) (ctx u).
Definition set_array_opc (u : ir_unit) : ir_unit :=
  IU (cfg u) (irs u) (nodes u) (var_infos u) true (tableswitch_list u) (lookupswitch_list u) (ctx u).
Definition set_tables (l : list tableswitch) (u : ir_unit) : ir_unit :=
  IU (cfg u) (irs u) (nodes u) (var_infos u) (array_opc u) l (lookupswitch_list u) (ctx u).
Definition set_lookups (l : list lookupswitch) (u : ir_unit) : ir_unit :=
  IU (cfg u) (irs u) (nodes u) (var_infos u) (array_opc u) (tableswitch_list u) l (ctx u).
Definition set_ctx (c : parse_context) (u : ir_unit) : ir_unit :=
  IU (cfg u) (irs u) (nodes u) (var_infos u) (array_opc u) (tableswitch_list u) (lookupswitch_list u) c.

Definition set_pos (p : Z) (c : parse_context) : parse_context :=
  Ctx (ctx_bb c) p (ctx_offset c) (ctx_opc c) (ctx_is_wide c).
Definition set_offset (o : Z) (c : parse_context) : parse_context :=
  Ctx (ctx_bb c) (ctx_pos c) o (ctx_opc c) (ctx_is_wide c).
Definition set_opc (o : Z) (c : parse_context) : parse_context :=
  Ctx (ctx_bb c) (ctx_pos c) (ctx_offset c) o (ctx_is_wide c).
Definition set_wide (w : bool) (c : parse_context) : parse_context :=
  Ctx (ctx_bb c) (ctx_pos c) (ctx_offset c) (ctx_opc c) w.

Definition set_stmts (l : list (Z * statement)) (x : bb_ir) : bb_ir :=
  BI (is_converted x) l (mimic_stack x) (mimic_stack_exprs x).
Definition set_mimic (l : list expression) (x : bb_ir) : bb_ir :=
  BI (is_converted x) (stmt_list x) l (mimic_stack_exprs x).
Definition set_slots (l : list nat) (x : bb_ir) : bb_ir :=
  BI (is_converted x) (stmt_list x) (mimic_stack x) l.
Definition set_converted (x : bb_ir) : bb_ir :=
  BI true (stmt_list x) (mimic_stack x) (mimic_stack_exprs x).

Definition ir_of (u : ir_unit) (i : nat) : bb_ir := default bi_empty (irs u !! i).
Definition update_ir (i : nat) (f : bb_ir → bb_ir) : K unit :=
  modify (λ u, set_irs (<[i := f (ir_of u i)]> (irs u)) u).
Definition update_ctx (f : parse_context → parse_context) : K unit := modify (λ u, set_ctx (f (ctx u)) u).

(** A null pointer that is followed, a failed assertion, a read out of bounds. *)
Definition must {A} (o : option A) : K A := match o with Some a => ret a | None => undef end.

(** The operations of BasicBlock; none of those used here ends the program. *)
Definition on_cfg {A} (m : C A) : K A := λ u,
  match m (cfg u) with
  | Done a c => Done a (set_cfg c u)
  | Fail _ c => Fail Exit (set_cfg c u)
  | Undef => Undef
  end.

Definition EINVAL : Z := 22.
Definition enomem {A} : K A := fail (Err (- ENOMEM)).
Definition einval {A} : K A := fail (Err (- EINVAL)).

(** ** Classes *)

(** What the converters ask about the class of the method: resolution of constants (each may
    fail), the loader, objects of strings and classes. *)
Class Resolver := {
  resolver_class : cafebabe_class;
  vm_class_resolve_class : Z → option class_ptr;
  vm_class_resolve_field_recursive : Z → option vm_field;
  vm_class_resolve_method_recursive : Z → Z → option vm_callee;
  vm_class_resolve_interface_method_recursive : Z → option vm_callee;
  class_name : class_ptr → list Z;
  classloader_load : class_ptr → list Z → option class_ptr;   (** with the loader of the class *)
  vm_object_alloc_string_from_utf8 : list Z → Z → option Z;
  vm_class_ensure_object : class_ptr → Z;
  class_object : class_ptr → Z;
}.

Section convert.
Context `{Allocator} `{Resolver} (code : list Z).

(** ** Reading the bytecode *)

Definition read {A} (f : bytecode_buffer → option (A * bytecode_buffer)) : K A := λ u,
  match f (BytecodeBuffer code (ctx_pos (ctx u))) with
  | Some (x, b) => Done x (set_ctx (set_pos (pos b) (ctx u)) u)
  | None => Undef
  end.

(** ** The mimic stack of the block that is converted: include/lib/stack.h *)

Definition stack_pop : K expression :=
  let* b := get (λ u, ctx_bb (ctx u)) in
  let* x := get (λ u, ir_of u b) in
  match mimic_stack x with
  | [] => undef
  | e :: rest => do update_ir b (set_mimic rest) ;; ret e
  end.
Definition stack_peek : K expression :=
  let* x := get (λ u, ir_of u (ctx_bb (ctx u))) in must (head (mimic_stack x)).
(** A failed [realloc] is an assertion. *)
Definition push_on (b : nat) (e : expression) : K unit :=
  let* n := get (λ u, length (mimic_stack (ir_of u b))) in
  let* ok := on_cfg (request (8 * (Z.of_nat n + 1))) in
  if negb ok then undef else update_ir b (λ x, set_mimic (e :: mimic_stack x) x).
Definition stack_push (e : expression) : K unit :=
  let* b := get (λ u, ctx_bb (ctx u)) in push_on b e.
Definition clear_mimic_stack : K unit :=
  let* b := get (λ u, ctx_bb (ctx u)) in update_ir b (set_mimic []).

(** ** Making trees *)

Definition sizeof_expression : Z := 56.
Definition sizeof_statement : Z := 64.

Definition alloc_expression (e : expression) : K (option expression) :=
  let* ok := on_cfg (request sizeof_expression) in ret (if (ok : bool) then Some e else None).
Definition alloc_shared (x : shared) : K (option expression) :=
  let* ok := on_cfg (request sizeof_expression) in
  if negb ok then ret None else λ u,
  Done (Some (EXPR_SHARED (length (nodes u)))) (set_nodes (nodes u ++ [x]) u).
Definition alloc_statement : K bool := on_cfg (request sizeof_statement).

Definition get_var (t : vm_type) : K nat := λ u, Done (length (var_infos u)) (set_vars (var_infos u ++ [t]) u).

Definition value_expr (t : vm_type) (value : Z) : K (option expression) := alloc_expression (EXPR_VALUE t (u64 value)).
Definition fvalue_expr (t : vm_type) (fvalue : double) : K (option expression) := alloc_expression (EXPR_FVALUE t fvalue).
Definition local_expr (t : vm_type) (local_index : Z) : K (option expression) :=
  alloc_expression (if vm_type_is_float t then EXPR_FLOAT_LOCAL t local_index else EXPR_LOCAL t local_index).
(** The node is allocated before its variable. *)
Definition temporary_expr (t : vm_type) : K (option expression) :=
  let* ok := on_cfg (request sizeof_expression) in
  if negb ok then ret None else
  let* v := get_var t in λ u,
  Done (Some (EXPR_SHARED (length (nodes u))))
    (set_nodes (nodes u ++ [Shared t (if vm_type_is_float t then EXPR_FLOAT_TEMPORARY v else EXPR_TEMPORARY v)]) u).
Definition mimic_stack_expr (t : vm_type) (entry : bool) (slot_ndx : Z) : K (option expression) :=
  alloc_shared (Shared t (EXPR_MIMIC_STACK_SLOT entry slot_ndx)).
Definition array_deref_expr (t : vm_type) (arrayref array_index : expression) : K (option expression) :=
  alloc_expression (EXPR_ARRAY_DEREF t arrayref array_index).
Definition binop_expr (t : vm_type) (op : binary_operator) (l r : expression) : K (option expression) :=
  alloc_expression (EXPR_BINOP t op l r).
Definition unary_op_expr (t : vm_type) (op : unary_operator) (x : expression) : K (option expression) :=
  alloc_expression (EXPR_UNARY_OP t op x).
Definition conversion_expr (t : vm_type) (x : expression) : K (option expression) := alloc_expression (EXPR_CONVERSION t x).
Definition conversion_double_to_float_expr (x : expression) : K (option expression) :=
  alloc_expression (EXPR_CONVERSION_DOUBLE_TO_FLOAT x).
Definition conversion_float_to_double_expr (x : expression) : K (option expression) :=
  alloc_expression (EXPR_CONVERSION_FLOAT_TO_DOUBLE x).
Definition conversion_to_float_expr (t : vm_type) (x : expression) : K (option expression) :=
  alloc_expression (EXPR_CONVERSION_TO_FLOAT t x).
Definition conversion_from_float_expr (t : vm_type) (x : expression) : K (option expression) :=
  alloc_expression (EXPR_CONVERSION_FROM_FLOAT t x).
Definition conversion_to_double_expr (t : vm_type) (x : expression) : K (option expression) :=
  alloc_expression (EXPR_CONVERSION_TO_DOUBLE t x).
Definition conversion_from_double_expr (t : vm_type) (x : expression) : K (option expression) :=
  alloc_expression (EXPR_CONVERSION_FROM_DOUBLE t x).
Definition class_field_expr (t : vm_type) (f : vm_field) : K (option expression) :=
  alloc_expression (if vm_type_is_float t then EXPR_FLOAT_CLASS_FIELD t f else EXPR_CLASS_FIELD t f).
Definition instance_field_expr (t : vm_type) (f : vm_field) (o : expression) : K (option expression) :=
  alloc_expression (if vm_type_is_float t then EXPR_FLOAT_INSTANCE_FIELD t f o else EXPR_INSTANCE_FIELD t f o).
Definition args_list_expr (l r : expression) : K (option expression) := alloc_expression (EXPR_ARGS_LIST l r).
Definition no_args_expr : K (option expression) := alloc_expression EXPR_NO_ARGS.
Definition new_expr (class : class_ptr) : K (option expression) := alloc_expression (EXPR_NEW class).
Definition newarray_expr (type : Z) (size : expression) : K (option expression) := alloc_expression (EXPR_NEWARRAY type size).
Definition anewarray_expr (class : class_ptr) (size : expression) : K (option expression) :=
  alloc_expression (EXPR_ANEWARRAY class size).
Definition arraylength_expr (arrayref : expression) : K (option expression) := alloc_expression (EXPR_ARRAYLENGTH arrayref).
Definition instanceof_expr (objectref : expression) (class : class_ptr) : K (option expression) :=
  alloc_expression (EXPR_INSTANCEOF class objectref).
Definition exception_ref_expr : K (option expression) := alloc_expression EXPR_EXCEPTION_REF.
Definition array_size_check_expr (size : expression) : K (option expression) := alloc_expression (EXPR_ARRAY_SIZE_CHECK size).
Definition lookupswitch_bsearch_expr (key : expression) (table : lookupswitch) : K (option expression) :=
  alloc_expression (EXPR_LOOKUPSWITCH_BSEARCH key table).
Definition truncation_expr (to_type : vm_type) (x : expression) : K (option expression) :=
  alloc_expression (EXPR_TRUNCATION to_type x).

Definition type_of (e : expression) : K vm_type := let* n := get nodes in must (vm_type_of n e).

(** The assertion follows the allocation. *)
Definition null_check_expr (ref : expression) : K (option expression) :=
  let* expr := alloc_expression (EXPR_NULL_CHECK ref) in
  match expr with
  | None => ret None
  | Some _ => let* t := type_of ref in if decide (t = J_REFERENCE) then ret expr else undef
  end.

Definition arg_expr (arg_reg : Z) (x : expression) : K (option expression) :=
  let* t := type_of x in alloc_expression (EXPR_ARG t arg_reg x).
Definition arg_this_expr (arg_reg : Z) (x : expression) : K (option expression) := alloc_expression (EXPR_ARG_THIS arg_reg x).

(** Taking a second reference to an expression that is not pure ends the program. *)
Definition expr_get (e : expression) : K expression := if expr_is_pure e then ret e else fail Exit.

(** ** jit/bytecode-to-ir.c: adding to a block *)

(** The type is changed in the node itself. *)
Definition convert_expression (e : expression) : K unit :=
  let* t := type_of e in
  match e with
  | EXPR_SHARED n =>
    do modify (λ u, set_nodes (alter (retype_node (mimic_stack_type t)) n (nodes u)) u) ;;
    stack_push e
  | _ => stack_push (set_vm_type (mimic_stack_type t) e)
  end.
Definition bb_add_stmt (b : nat) (s : Z * statement) : K unit := update_ir b (λ x, set_stmts (stmt_list x ++ [s]) x).
Definition do_convert_statement (b : nat) (s : statement) (bc_offset : Z) : K unit := bb_add_stmt b (bc_offset, s).
Definition convert_statement (s : statement) : K unit :=
  let* c := get ctx in do_convert_statement (ctx_bb c) s (ctx_offset c).

(** ** jit/ostack-bc.c *)

Definition convert_pop : K unit := do stack_pop ;; ret tt.

Definition convert_pop2 : K unit :=
  let* expr := stack_pop in
  let* t := type_of expr in
  if vm_type_is_pair t then ret tt else
  let* another_expr := stack_peek in
  let* t := type_of another_expr in
  if vm_type_is_pair t then ret tt else
  do stack_pop ;; ret tt.

Definition dup_expr (expr : expression) : K expression :=
  let* t := type_of expr in
  let* dest := temporary_expr t in
  let* dest := must dest in
  do expr_get dest ;;
  let* stmt := alloc_statement in
  if negb stmt then undef else
  do convert_statement (STMT_STORE dest expr) ;;
  ret dest.

Definition get_pure_expr (expr : expression) : K expression :=
  if expr_is_pure expr then ret expr else dup_expr expr.

(** [convert_expression(ctx, dup_expr(ctx, expr_get(dup)))] *)
Definition push_copy (dup : expression) : K unit :=
  let* d := expr_get dup in let* d := dup_expr d in convert_expression d.

Definition __convert_dup (value : expression) : K unit :=
  let* dup := get_pure_expr value in
  do convert_expression dup ;;
  push_copy dup.
Definition convert_dup : K unit := let* value := stack_pop in __convert_dup value.

Definition __convert_dup_x1 (value1 value2 : expression) : K unit :=
  let* dup := get_pure_expr value1 in
  do convert_expression dup ;;
  do convert_expression value2 ;;
  push_copy dup.
Definition convert_dup_x1 : K unit :=
  let* value1 := stack_pop in let* value2 := stack_pop in __convert_dup_x1 value1 value2.

Definition __convert_dup_x2 (value1 value2 value3 : expression) : K unit :=
  let* dup := get_pure_expr value1 in
  do convert_expression dup ;;
  do convert_expression value3 ;;
  do convert_expression value2 ;;
  push_copy dup.
Definition convert_dup_x2 : K unit :=
  let* value1 := stack_pop in
  let* value2 := stack_pop in
  let* t := type_of value2 in
  if decide (vm_type_slot_size t = 2) then __convert_dup_x1 value1 value2 else
  let* value3 := stack_pop in
  __convert_dup_x2 value1 value2 value3.

Definition __convert_dup2 (value1 value2 : expression) : K unit :=
  let* dup := get_pure_expr value1 in
  let* dup2 := get_pure_expr value2 in
  do convert_expression dup2 ;;
  do convert_expression dup ;;
  do push_copy dup2 ;;
  push_copy dup.

Definition is_long_or_double (t : vm_type) : bool := bool_decide (t = J_LONG) || bool_decide (t = J_DOUBLE).

Definition convert_dup2 : K unit :=
  let* value := stack_pop in
  let* t := type_of value in
  if is_long_or_double t then __convert_dup value else
  let* value2 := stack_pop in
  __convert_dup2 value value2.

Definition __convert_dup2_x1 (value1 value2 value3 : expression) : K unit :=
  let* dup := get_pure_expr value1 in
  let* dup2 := get_pure_expr value2 in
  do convert_expression dup2 ;;
  do convert_expression dup ;;
  do convert_expression value3 ;;
  do push_copy dup2 ;;
  push_copy dup.
Definition convert_dup2_x1 : K unit :=
  let* value1 := stack_pop in
  let* value2 := stack_pop in
  let* t := type_of value1 in
  if is_long_or_double t then __convert_dup_x1 value1 value2 else
  let* value3 := stack_pop in
  __convert_dup2_x1 value1 value2 value3.

Definition __convert_dup2_x2 (value1 value2 value3 value4 : expression) : K unit :=
  let* dup := get_pure_expr value1 in
  let* dup2 := get_pure_expr value2 in
  do convert_expression dup2 ;;
  do convert_expression dup ;;
  do convert_expression value4 ;;
  do convert_expression value3 ;;
  do push_copy dup2 ;;
  push_copy dup.
Definition convert_dup2_x2 : K unit :=
  let* value1 := stack_pop in
  let* value2 := stack_pop in
  let* t1 := type_of value1 in
  if is_long_or_double t1 then
    let* t2 := type_of value2 in
    if is_long_or_double t2 then __convert_dup_x1 value1 value2 else
    let* value3 := stack_pop in
    __convert_dup_x2 value1 value2 value3
  else
    let* value3 := stack_pop in
    let* t3 := type_of value3 in
    if is_long_or_double t3 then __convert_dup2_x1 value1 value2 value3 else
    let* value4 := stack_pop in
    __convert_dup2_x2 value1 value2 value3 value4.

Definition convert_swap : K unit :=
  let* v1 := stack_pop in
  let* v2 := stack_pop in
  do convert_expression v1 ;;
  convert_expression v2.

(** The end of most converters: out of memory, or the expression is pushed. *)
Definition push_expr (expr : option expression) : K unit :=
  match expr with None => enomem | Some e => convert_expression e end.

(** ** jit/load-store-bc.c *)

Definition __convert_const (value : Z) (t : vm_type) : K unit := let* expr := value_expr t value in push_expr expr.
Definition __convert_fconst (value : double) (t : vm_type) : K unit := let* expr := fvalue_expr t value in push_expr expr.

Definition opc_minus (first : Z) : K Z := let* c := get ctx in ret (ctx_opc c - first).

Definition convert_aconst_null : K unit := __convert_const 0 J_REFERENCE.
Definition convert_iconst_n : K unit := let* n := opc_minus OPC_ICONST_0 in __convert_const n J_INT.
Definition convert_lconst_n : K unit := let* n := opc_minus OPC_LCONST_0 in __convert_const n J_LONG.
Definition convert_fconst_n : K unit := let* n := opc_minus OPC_FCONST_0 in __convert_fconst (DInt n) J_FLOAT.
Definition convert_dconst_n : K unit := let* n := opc_minus OPC_DCONST_0 in __convert_fconst (DInt n) J_DOUBLE.
Definition convert_bipush : K unit := let* value := read bytecode_read_s8 in __convert_const value J_INT.
Definition convert_sipush : K unit := let* value := read bytecode_read_s16 in __convert_const value J_INT.

Definition __convert_ldc (cp_idx : Z) : K unit :=
  if cafebabe_class_constant_index_invalid resolver_class cp_idx then einval else
  let* cp := must (mjoin (constant_pool resolver_class !! Z.to_nat cp_idx)) in
  let* expr :=
    match cp with
    | CPInteger b => value_expr J_INT (cafebabe_constant_pool_get_integer b)
    | CPFloat b => fvalue_expr J_FLOAT (DFloatBits b)
    | CPString string_index =>
      match cafebabe_class_constant_get_utf8 resolver_class string_index tt with
      | Fail _ _ => einval
      | Undef => undef
      | Done utf8 _ =>
        match vm_object_alloc_string_from_utf8 (bytes_data (utf8_bytes utf8)) (utf8_length utf8) with
        | None => enomem
        | Some string => value_expr J_REFERENCE string
        end
      end
    | CPLong h l => value_expr J_LONG (cafebabe_constant_pool_get_long h l)
    | CPDouble h l => fvalue_expr J_DOUBLE (DDoubleBits l h)
    | CPClass _ =>
      match vm_class_resolve_class cp_idx with
      | None => einval
      | Some r => if decide (vm_class_ensure_object r ≠ 0) then fail (Err (-1)) else value_expr J_REFERENCE (class_object r)
      end
    | _ => einval
    end in
  push_expr expr.
Definition convert_ldc : K unit := let* idx := read bytecode_read_u8 in __convert_ldc idx.
Definition convert_ldc_w : K unit := let* idx := read bytecode_read_u16 in __convert_ldc idx.
Definition convert_ldc2_w : K unit := let* idx := read bytecode_read_u16 in __convert_ldc idx.

Definition convert_load (index : Z) (t : vm_type) : K unit :=
  let* expr := local_expr t index in
  match expr with
  | None => enomem
  | Some e => let* d := dup_expr e in convert_expression d
  end.

Definition read_index : K Z :=
  let* c := get ctx in if ctx_is_wide c then read bytecode_read_u16 else read bytecode_read_u8.

Definition convert_iload : K unit := let* idx := read_index in convert_load idx J_INT.
Definition convert_lload : K unit := let* idx := read_index in convert_load idx J_LONG.
Definition convert_fload : K unit := let* idx := read_index in convert_load idx J_FLOAT.
Definition convert_dload : K unit := let* idx := read_index in convert_load idx J_DOUBLE.
Definition convert_aload : K unit := let* idx := read_index in convert_load idx J_REFERENCE.
Definition convert_iload_n : K unit := let* n := opc_minus OPC_ILOAD_0 in convert_load n J_INT.
Definition convert_lload_n : K unit := let* n := opc_minus OPC_LLOAD_0 in convert_load n J_LONG.
Definition convert_fload_n : K unit := let* n := opc_minus OPC_FLOAD_0 in convert_load n J_FLOAT.
Definition convert_dload_n : K unit := let* n := opc_minus OPC_DLOAD_0 in convert_load n J_DOUBLE.
Definition convert_aload_n : K unit := let* n := opc_minus OPC_ALOAD_0 in convert_load n J_REFERENCE.

(** The destination is not checked. *)
Definition convert_store (index : Z) (t : vm_type) : K unit :=
  let* stmt := alloc_statement in
  if negb stmt then enomem else
  let* dest_expr := local_expr t index in
  let* src_expr := stack_pop in
  let* dest_expr := must dest_expr in
  convert_statement (STMT_STORE dest_expr src_expr).

Definition convert_istore : K unit := let* idx := read_index in convert_store idx J_INT.
Definition convert_lstore : K unit := let* idx := read_index in convert_store idx J_LONG.
Definition convert_fstore : K unit := let* idx := read_index in convert_store idx J_FLOAT.
Definition convert_dstore : K unit := let* idx := read_index in convert_store idx J_DOUBLE.
Definition convert_astore : K unit := let* idx := read_index in convert_store idx J_REFERENCE.
Definition convert_istore_n : K unit := let* n := opc_minus OPC_ISTORE_0 in convert_store n J_INT.
Definition convert_lstore_n : K unit := let* n := opc_minus OPC_LSTORE_0 in convert_store n J_LONG.
Definition convert_fstore_n : K unit := let* n := opc_minus OPC_FSTORE_0 in convert_store n J_FLOAT.
Definition convert_dstore_n : K unit := let* n := opc_minus OPC_DSTORE_0 in convert_store n J_DOUBLE.
Definition convert_astore_n : K unit := let* n := opc_minus OPC_ASTORE_0 in convert_store n J_REFERENCE.

(** ** jit/arithmetic-bc.c *)

Definition convert_binop (t : vm_type) (op : binary_operator) : K unit :=
  let* right := stack_pop in
  let* left := stack_pop in
  let* expr := binop_expr t op left right in
  push_expr expr.
Definition convert_unary_op (t : vm_type) (op : unary_operator) : K unit :=
  let* expression := stack_pop in
  let* expr := unary_op_expr t op expression in
  push_expr expr.

Definition convert_iadd : K unit := convert_binop J_INT OP_ADD.
Definition convert_ladd : K unit := convert_binop J_LONG OP_ADD.
Definition convert_fadd : K unit := convert_binop J_FLOAT OP_FADD.
Definition convert_dadd : K unit := convert_binop J_DOUBLE OP_DADD.
Definition convert_isub : K unit := convert_binop J_INT OP_SUB.
Definition convert_lsub : K unit := convert_binop J_LONG OP_SUB.
Definition convert_fsub : K unit := convert_binop J_FLOAT OP_FSUB.
Definition convert_dsub : K unit := convert_binop J_DOUBLE OP_DSUB.
Definition convert_imul : K unit := convert_binop J_INT OP_MUL.
Definition convert_lmul : K unit := convert_binop J_LONG OP_MUL_64.
Definition convert_fmul : K unit := convert_binop J_FLOAT OP_FMUL.
Definition convert_dmul : K unit := convert_binop J_DOUBLE OP_DMUL.
Definition convert_idiv : K unit := convert_binop J_INT OP_DIV.
Definition convert_ldiv : K unit := convert_binop J_LONG OP_DIV_64.
Definition convert_fdiv : K unit := convert_binop J_FLOAT OP_FDIV.
Definition convert_ddiv : K unit := convert_binop J_DOUBLE OP_DDIV.
Definition convert_irem : K unit := convert_binop J_INT OP_REM.
Definition convert_lrem : K unit := convert_binop J_LONG OP_REM_64.
Definition convert_frem : K unit := convert_binop J_FLOAT OP_FREM.
Definition convert_drem : K unit := convert_binop J_DOUBLE OP_DREM.
Definition convert_ineg : K unit := convert_unary_op J_INT OP_NEG.
Definition convert_lneg : K unit := convert_unary_op J_LONG OP_NEG.
Definition convert_fneg : K unit := convert_unary_op J_FLOAT OP_FNEG.
Definition convert_dneg : K unit := convert_unary_op J_DOUBLE OP_DNEG.
Definition convert_ishl : K unit := convert_binop J_INT OP_SHL.
Definition convert_lshl : K unit := convert_binop J_LONG OP_SHL_64.
Definition convert_ishr : K unit := convert_binop J_INT OP_SHR.
Definition convert_lshr : K unit := convert_binop J_LONG OP_SHR_64.
Definition convert_iushr : K unit := convert_binop J_INT OP_USHR.
Definition convert_lushr : K unit := convert_binop J_LONG OP_USHR_64.
Definition convert_iand : K unit := convert_binop J_INT OP_AND.
Definition convert_land : K unit := convert_binop J_LONG OP_AND.
Definition convert_ior : K unit := convert_binop J_INT OP_OR.
Definition convert_lor : K unit := convert_binop J_LONG OP_OR.
Definition convert_ixor : K unit := convert_binop J_INT OP_XOR.
Definition convert_lxor : K unit := convert_binop J_LONG OP_XOR.
Definition convert_lcmp : K unit := convert_binop J_INT OP_CMP.
Definition convert_xcmpl : K unit := convert_binop J_INT OP_CMPL.
Definition convert_xcmpg : K unit := convert_binop J_INT OP_CMPG.

(** The tree of the local variable is shared between the two sides. *)
Definition convert_iinc : K unit :=
  let* store_stmt := alloc_statement in
  if negb store_stmt then enomem else
  let* c := get ctx in
  let* index := (if ctx_is_wide c then read bytecode_read_u16 else read bytecode_read_u8) in
  let* const_value := (if ctx_is_wide c then read bytecode_read_s16 else read bytecode_read_s8) in
  let* local_expression := local_expr J_INT index in
  match local_expression with
  | None => enomem
  | Some local_expression =>
    let* const_expression := value_expr J_INT const_value in
    match const_expression with
    | None => enomem
    | Some const_expression =>
      do expr_get local_expression ;;
      let* binop_expression := binop_expr J_INT OP_ADD local_expression const_expression in
      match binop_expression with
      | None => enomem
      | Some binop_expression => convert_statement (STMT_STORE local_expression binop_expression)
      end
    end
  end.

(** ** jit/branch-bc.c *)

Definition if_stmt (true_bb : option nat) (t : vm_type) (binop : binary_operator) (l r : expression)
    : K (option statement) :=
  let* if_conditional := binop_expr t binop l r in
  match if_conditional with
  | None => ret None
  | Some c => let* ok := alloc_statement in ret (if (ok : bool) then Some (STMT_IF c true_bb) else None)
  end.

(** [find_bb(ctx->cu, ctx->offset + target)] *)
Definition find_target (target : Z) : K (option nat) :=
  let* c := get ctx in on_cfg (find_bb (u64 (ctx_offset c + target))).

Definition read_branch_target : K Z := let* c := get ctx in read (bytecode_read_branch_target (ctx_opc c)).

Definition __convert_if (t : vm_type) (binop : binary_operator) (l r : expression) : K (option statement) :=
  let* if_target := read_branch_target in
  let* true_bb := find_target if_target in
  if_stmt true_bb t binop l r.

Definition convert_if (binop : binary_operator) : K unit :=
  let* zero_value := value_expr J_INT 0 in
  match zero_value with
  | None => enomem
  | Some zero_value =>
    let* if_value := stack_pop in
    let* stmt := __convert_if J_INT binop if_value zero_value in
    match stmt with None => enomem | Some s => convert_statement s end
  end.
Definition convert_if_cmp (t : vm_type) (binop : binary_operator) : K unit :=
  let* if_value2 := stack_pop in
  let* if_value1 := stack_pop in
  let* stmt := __convert_if t binop if_value1 if_value2 in
  match stmt with None => enomem | Some s => convert_statement s end.

Definition convert_ifeq : K unit := convert_if OP_EQ.
Definition convert_ifne : K unit := convert_if OP_NE.
Definition convert_iflt : K unit := convert_if OP_LT.
Definition convert_ifge : K unit := convert_if OP_GE.
Definition convert_ifgt : K unit := convert_if OP_GT.
Definition convert_ifle : K unit := convert_if OP_LE.
Definition convert_if_icmpeq : K unit := convert_if_cmp J_INT OP_EQ.
Definition convert_if_icmpne : K unit := convert_if_cmp J_INT OP_NE.
Definition convert_if_icmplt : K unit := convert_if_cmp J_INT OP_LT.
Definition convert_if_icmpge : K unit := convert_if_cmp J_INT OP_GE.
Definition convert_if_icmpgt : K unit := convert_if_cmp J_INT OP_GT.
Definition convert_if_icmple : K unit := convert_if_cmp J_INT OP_LE.
Definition convert_if_acmpeq : K unit := convert_if_cmp J_REFERENCE OP_EQ.
Definition convert_if_acmpne : K unit := convert_if_cmp J_REFERENCE OP_NE.
Definition convert_ifnull : K unit := convert_if OP_EQ.
Definition convert_ifnonnull : K unit := convert_if OP_NE.

Definition convert_goto : K unit :=
  let* goto_target := read_branch_target in
  let* target_bb := find_target goto_target in
  let* ok := alloc_statement in
  if negb ok then enomem else convert_statement (STMT_GOTO target_bb).

(** ** jit/typeconv-bc.c *)

Definition convert_conversion (to_type : vm_type) : K unit :=
  let* from_expression := stack_pop in
  let* from_type := type_of from_expression in
  let* e :=
    if decide (from_type = J_DOUBLE ∧ to_type = J_FLOAT) then conversion_double_to_float_expr from_expression
    else if decide (from_type = J_FLOAT ∧ to_type = J_DOUBLE) then conversion_float_to_double_expr from_expression
    else if decide (to_type = J_FLOAT) then conversion_to_float_expr to_type from_expression
    else if decide (from_type = J_FLOAT) then conversion_from_float_expr to_type from_expression
    else if decide (to_type = J_DOUBLE) then conversion_to_double_expr to_type from_expression
    else if decide (from_type = J_DOUBLE) then conversion_from_double_expr to_type from_expression
    else conversion_expr to_type from_expression in
  push_expr e.

Definition convert_truncation (to_type : vm_type) : K unit :=
  let* from_expression := stack_pop in
  let* t := type_of from_expression in
  if decide (t = J_INT) then
    let* expr := truncation_expr to_type from_expression in push_expr expr
  else undef.

Definition convert_i2l : K unit := convert_conversion J_LONG.
Definition convert_i2f : K unit := convert_conversion J_FLOAT.
Definition convert_i2d : K unit := convert_conversion J_DOUBLE.
Definition convert_l2i : K unit := convert_conversion J_INT.
Definition convert_l2f : K unit := convert_conversion J_FLOAT.
Definition convert_l2d : K unit := convert_conversion J_DOUBLE.
Definition convert_f2i : K unit := convert_conversion J_INT.
Definition convert_f2l : K unit := convert_conversion J_LONG.
Definition convert_f2d : K unit := convert_conversion J_DOUBLE.
Definition convert_d2i : K unit := convert_conversion J_INT.
Definition convert_d2l : K unit := convert_conversion J_LONG.
Definition convert_d2f : K unit := convert_conversion J_FLOAT.
Definition convert_i2b : K unit := convert_truncation J_BYTE.
Definition convert_i2c : K unit := convert_truncation J_CHAR.
Definition convert_i2s : K unit := convert_truncation J_SHORT.

(** ** jit/object-bc.c *)

(** [snprintf] into a buffer that is large enough. *)
Definition class_name_to_array_name (name : list Z) : list Z :=
  if decide (Types.deref name = ch "[") then ch "[" :: name else chars "[L" ++ name ++ chars ";".

(** The name has two more bytes and a zero, of four reserved; out of memory, a null pointer
    goes to the loader. *)
Definition class_to_array_class (class : class_ptr) : K (option class_ptr) :=
  let* ok := on_cfg (request (u64 (Z.of_nat (length (class_name class)) + 4))) in
  if negb ok then undef else ret (classloader_load class (class_name_to_array_name (class_name class))).

Definition lookup_field : K (option vm_field) :=
  let* index := read bytecode_read_u16 in ret (vm_class_resolve_field_recursive index).

Definition convert_getstatic : K unit :=
  let* fb := lookup_field in
  match fb with
  | None => einval
  | Some fb =>
    let* value := class_field_expr (vm_field_type fb) fb in
    match value with
    | None => enomem
    | Some value => let* value_dup := dup_expr value in convert_expression value_dup
    end
  end.

Definition convert_putstatic : K unit :=
  let* fb := lookup_field in
  match fb with
  | None => einval
  | Some fb =>
    let* src := stack_pop in
    let* dest := class_field_expr (vm_field_type fb) fb in
    match dest with
    | None => enomem
    | Some dest =>
      let* ok := alloc_statement in
      if negb ok then enomem else convert_statement (STMT_STORE dest src)
    end
  end.

(** The null check is not checked for being out of memory. *)
Definition pop_null_checked : K expression :=
  let* e := stack_pop in let* e := null_check_expr e in must e.

Definition convert_getfield : K unit :=
  let* fb := lookup_field in
  match fb with
  | None => einval
  | Some fb =>
    let* objectref := pop_null_checked in
    let* value := instance_field_expr (vm_field_type fb) fb objectref in
    match value with
    | None => enomem
    | Some value => let* value_dup := dup_expr value in convert_expression value_dup
    end
  end.

Definition convert_putfield : K unit :=
  let* fb := lookup_field in
  match fb with
  | None => einval
  | Some fb =>
    let* src := stack_pop in
    let* objectref := pop_null_checked in
    let* dest := instance_field_expr (vm_field_type fb) fb objectref in
    match dest with
    | None => enomem
    | Some dest =>
      let* ok := alloc_statement in
      if negb ok then enomem else convert_statement (STMT_STORE dest src)
    end
  end.

Definition convert_array_load (type : vm_type) : K unit :=
  if decide (type = J_BOOLEAN) then undef else
  let* index := stack_pop in
  let* arrayref := stack_pop in
  let* arrayref := null_check_expr arrayref in
  match arrayref with
  | None => enomem
  | Some arrayref =>
    let* store_stmt := alloc_statement in
    if negb store_stmt then enomem else
    let* arrayref_pure := get_pure_expr arrayref in
    let* index_pure := get_pure_expr index in
    let* src_expr := array_deref_expr type arrayref_pure index_pure in
    let* dest_expr := temporary_expr type in
    let* src_expr := must src_expr in
    let* dest_expr := must dest_expr in
    do expr_get dest_expr ;;
    do convert_expression dest_expr ;;
    let* arraycheck := alloc_statement in
    if negb arraycheck then enomem else
    do expr_get src_expr ;;
    do convert_statement (STMT_ARRAY_CHECK src_expr) ;;
    convert_statement (STMT_STORE dest_expr src_expr)
  end.

Definition convert_array_store (type : vm_type) : K unit :=
  let* value := stack_pop in
  let* index := stack_pop in
  let* arrayref := stack_pop in
  let* arrayref := null_check_expr arrayref in
  match arrayref with
  | None => enomem
  | Some arrayref =>
    let* store_stmt := alloc_statement in
    if negb store_stmt then enomem else
    let* arrayref_pure := get_pure_expr arrayref in
    let* index_pure := get_pure_expr index in
    let* dest_expr := array_deref_expr type arrayref_pure index_pure in
    let* src_expr := get_pure_expr value in
    let* dest_expr := must dest_expr in
    let* arraycheck := alloc_statement in
    if negb arraycheck then enomem else
    do expr_get dest_expr ;;
    let* array_store_check_stmt := alloc_statement in
    if negb array_store_check_stmt then enomem else
    do expr_get src_expr ;;
    do expr_get arrayref_pure ;;
    do convert_statement (STMT_ARRAY_CHECK dest_expr) ;;
    do convert_statement (STMT_ARRAY_STORE_CHECK src_expr arrayref_pure) ;;
    convert_statement (STMT_STORE dest_expr src_expr)
  end.

Definition convert_iaload : K unit := convert_array_load J_INT.
Definition convert_laload : K unit := convert_array_load J_LONG.
Definition convert_faload : K unit := convert_array_load J_FLOAT.
Definition convert_daload : K unit := convert_array_load J_DOUBLE.
Definition convert_aaload : K unit := convert_array_load J_REFERENCE.
Definition convert_baload : K unit := convert_array_load J_BYTE.
Definition convert_caload : K unit := convert_array_load J_CHAR.
Definition convert_saload : K unit := convert_array_load J_SHORT.
Definition convert_iastore : K unit := convert_array_store J_INT.
Definition convert_lastore : K unit := convert_array_store J_LONG.
Definition convert_fastore : K unit := convert_array_store J_FLOAT.
Definition convert_dastore : K unit := convert_array_store J_DOUBLE.
Definition convert_aastore : K unit := convert_array_store J_REFERENCE.
Definition convert_bastore : K unit := convert_array_store J_BYTE.
Definition convert_castore : K unit := convert_array_store J_CHAR.
Definition convert_sastore : K unit := convert_array_store J_SHORT.

Definition convert_new : K unit :=
  let* type_idx := read bytecode_read_u16 in
  match vm_class_resolve_class type_idx with
  | None => einval
  | Some class => let* expr := new_expr class in push_expr expr
  end.

Definition convert_newarray : K unit :=
  let* size := stack_pop in
  let* type := read bytecode_read_u8 in
  let* size_check := array_size_check_expr size in
  match size_check with
  | None => enomem
  | Some size_check => let* arrayref := newarray_expr type size_check in push_expr arrayref
  end.

Definition convert_anewarray : K unit :=
  let* size := stack_pop in
  let* type_idx := read bytecode_read_u16 in
  match vm_class_resolve_class type_idx with
  | None => einval
  | Some class =>
    let* array_class := class_to_array_class class in
    match array_class with
    | None => einval
    | Some array_class =>
      let* size_check := array_size_check_expr size in
      match size_check with
      | None => enomem
      | Some size_check => let* arrayref := anewarray_expr array_class size_check in push_expr arrayref
      end
    end
  end.

(** *** jit/args.c *)

Definition insert_native_arg (root : option expression) (expr : expression) (idx : Z) : K (option expression) :=
  let* reg := must (args_map_alloc_gpr (s32 idx)) in
  let* e := arg_expr reg expr in
  let* e := must e in
  match root with None => ret (Some e) | Some root => args_list_expr root e end.

(** [n] arguments are left of [nr_args]. *)
Fixpoint convert_native_loop (n : nat) (idx : Z) (args_list : option expression) : K (option expression) :=
  match n with
  | O => ret args_list
  | S n' =>
    let* expr := stack_pop in
    let* t := type_of expr in
    if vm_type_is_float t then undef else
    let* args_list := insert_native_arg args_list expr idx in
    convert_native_loop n' (idx - 1) args_list
  end.
Definition convert_native_args (start_arg nr_args : Z) : K (option expression) :=
  if decide (nr_args = 0) then no_args_expr else
  convert_native_loop (Z.to_nat nr_args) (nr_args + start_arg - 1) None.

(** The expression is allocated before its dimensions are popped. *)
Definition convert_multianewarray : K unit :=
  let* type_idx := read bytecode_read_u16 in
  let* dimension := read bytecode_read_u8 in
  match vm_class_resolve_class type_idx with
  | None => enomem
  | Some class =>
    let* ok := on_cfg (request sizeof_expression) in
    if negb ok then enomem else
    let* args_list := convert_native_args 2 dimension in
    let* args_list := must args_list in
    convert_expression (EXPR_MULTIANEWARRAY class args_list)
  end.

Definition convert_arraylength : K unit :=
  let* arrayref := pop_null_checked in
  let* arraylength_exp := arraylength_expr arrayref in
  push_expr arraylength_exp.

Definition convert_instanceof : K unit :=
  let* objectref := stack_pop in
  let* type_idx := read bytecode_read_u16 in
  match vm_class_resolve_class type_idx with
  | None => einval
  | Some class => let* expr := instanceof_expr objectref class in push_expr expr
  end.

Definition convert_checkcast : K unit :=
  let* e := stack_pop in
  let* object_ref_tmp := dup_expr e in
  let* type_idx := read bytecode_read_u16 in
  match vm_class_resolve_class type_idx with
  | None => enomem
  | Some class =>
    let* ok := alloc_statement in
    if negb ok then enomem else
    do convert_statement (STMT_CHECKCAST class object_ref_tmp) ;;
    let* e := expr_get object_ref_tmp in
    convert_expression e
  end.

Definition convert_monitor (make : expression → statement) : K unit :=
  let* exp := stack_pop in
  let* nullcheck := null_check_expr exp in
  match nullcheck with
  | None => enomem
  | Some nullcheck =>
    let* ok := alloc_statement in
    if negb ok then enomem else
    do expr_get exp ;;
    convert_statement (make nullcheck)
  end.
Definition convert_monitorenter : K unit := convert_monitor STMT_MONITOR_ENTER.
Definition convert_monitorexit : K unit := convert_monitor STMT_MONITOR_EXIT.

(** ** jit/invoke-bc.c and the rest of jit/args.c *)

Definition convert_xreturn : K unit :=
  let* ok := alloc_statement in
  if negb ok then enomem else
  let* expr := stack_pop in
  do convert_statement (STMT_RETURN expr) ;;
  clear_mimic_stack.

Definition convert_return : K unit :=
  let* ok := alloc_statement in
  if negb ok then enomem else
  do convert_statement STMT_VOID_RETURN ;;
  clear_mimic_stack.

(** The arguments of the mimic stack, the last one first; a long or double takes two entries
    of the array, of which the second is not written ([None]).  [n] entries are left. *)
Fixpoint pop_args_loop (n : nat) : K (list (option expression)) :=
  match n with
  | O => ret []
  | S n' =>
    let* expr := stack_pop in
    let* t := type_of expr in
    if vm_type_is_pair t then
      match n' with
      | O => ret [Some expr]
      | S n'' => let* rest := pop_args_loop n'' in ret (Some expr :: None :: rest)
      end
    else let* rest := pop_args_loop n' in ret (Some expr :: rest)
  end.
Definition pop_args (nr_args : Z) : K (option (list (option expression))) :=
  let* ok := on_cfg (request (u64 (nr_args * 8))) in
  if negb ok then ret None else
  let* l := pop_args_loop (Z.to_nat nr_args) in ret (Some l).

(** The first loop of [convert_and_add_args]; the entry after a long or double is passed
    over. *)
Fixpoint pure_args (l : list (option expression)) : K (list (option expression)) :=
  match l with
  | [] => ret []
  | o :: l' =>
    let* expr := must o in
    let* t := type_of expr in
    let* e := (if expr_is_pure expr then ret expr else get_pure_expr expr) in
    if vm_type_is_pair t then
      match l' with
      | [] => ret [Some e]
      | o' :: l'' => let* rest := pure_args l'' in ret (Some e :: o' :: rest)
      end
    else let* rest := pure_args l' in ret (Some e :: rest)
  end.

Definition vm_method_arg_type (t : vm_type) : vm_type :=
  match t with J_BOOLEAN | J_SHORT | J_BYTE | J_CHAR => J_INT | _ => t end.

(** [types] are the arguments that are left, from the last to the first. *)
Fixpoint verify_loop (types : list vm_type) (args_array : list (option expression)) (idx nr_args : Z) : K bool :=
  match types with
  | [] => ret true
  | arg :: types' =>
    let* expr := must (mjoin (args_array !! Z.to_nat idx)) in
    let* t := type_of expr in
    if decide (t ≠ vm_method_arg_type arg) then ret false else
    let idx := if vm_type_is_pair t then idx + 1 else idx in
    if decide (idx >= nr_args) then ret true else verify_loop types' args_array (idx + 1) nr_args
  end.
Definition verify_arg_types (m : vm_callee) (args_array : list (option expression)) (nr_args : Z) : K bool :=
  verify_loop (rev (callee_args m)) args_array 0 nr_args.

Definition is_this_arg (m : vm_callee) (index : Z) : bool :=
  if vm_method_is_static m then false
  else if vm_method_is_jni m then bool_decide (index = 1)
  else bool_decide (index = 0).

Definition insert_arg (root : option expression) (expr : expression) (m : vm_callee) (index : Z) : K (option expression) :=
  let* reg := must (args_map m !! Z.to_nat index) in
  let* e := (if is_this_arg m index then arg_this_expr reg expr else arg_expr reg expr) in
  let* e := must e in
  match root with None => ret (Some e) | Some root => args_list_expr root e end.

(** [i] is the place of the head of [l]. *)
Fixpoint convert_args_loop (l : list (option expression)) (i nr_total_args : Z) (m : vm_callee)
    (args_list : option expression) : K (option expression) :=
  match l with
  | [] => ret args_list
  | o :: l' =>
    let* expr := must o in
    let* t := type_of expr in
    if vm_type_is_pair t then
      match l' with
      | [] => ret args_list
      | _ :: l'' =>
        let* args_list := insert_arg args_list expr m (nr_total_args - (i + 1) - 1) in
        convert_args_loop l'' (i + 2) nr_total_args m args_list
      end
    else
      let* args_list := insert_arg args_list expr m (nr_total_args - i - 1) in
      convert_args_loop l' (i + 1) nr_total_args m args_list
  end.
Definition convert_args (args_array : list (option expression)) (nr_args : Z) (m : vm_callee) : K (option expression) :=
  let jni := vm_method_is_jni m in
  let nr_total_args := nr_args + (if jni then (if vm_method_is_static m then 2 else 1) else 0) in
  if decide (nr_total_args = 0) then no_args_expr else
  let* args_list := convert_args_loop args_array 0 nr_total_args m None in
  if jni && vm_method_is_static m then
    let* expr := value_expr J_REFERENCE (callee_class_object m) in
    match expr with
    | None => ret None
    | Some expr => insert_arg args_list expr m 1
    end
  else ret args_list.

(** The arguments of the call; the error code for an array that is not allocated is that of
    an argument of the wrong type. *)
Definition convert_and_add_args (invoke_target : vm_callee) : K expression :=
  let nr_args := vm_method_arg_stack_count invoke_target in
  let* args_array := pop_args nr_args in
  match args_array with
  | None => einval
  | Some args_array =>
    let* args_array := pure_args args_array in
    let* ok := verify_arg_types invoke_target args_array nr_args in
    if negb ok then einval else
    let* args_list := convert_args args_array nr_args invoke_target in
    match args_list with None => einval | Some a => ret a end
  end.

(** The temporary for the result; one that is not allocated leaves a null pointer, as for a
    method without a result. *)
Definition invoke_result_of (target : vm_callee) : K (option expression) :=
  match vm_method_return_type target with
  | J_VOID => ret None
  | J_LONG | J_FLOAT | J_DOUBLE => temporary_expr (vm_method_return_type target)
  | J_BYTE | J_BOOLEAN | J_CHAR | J_INT | J_SHORT => temporary_expr J_INT
  | J_REFERENCE => temporary_expr J_REFERENCE
  | J_RETURN_ADDRESS => fail Exit
  end.
(** The statement without its arguments; [None] is out of memory. *)
Definition invoke_stmt (type : invoke_type) (target : vm_callee) : K (option (expression → statement)) :=
  let* ok := alloc_statement in
  if negb ok then ret None else
  let* result := invoke_result_of target in
  ret (Some (λ args_list, STMT_CALL type target args_list result)).

Definition insert_before_args_stmt (target : vm_callee) : K unit :=
  let* ok := alloc_statement in
  if negb ok then enomem else convert_statement (STMT_BEFORE_ARGS target).

Definition insert_invoke_stmt (stmt : statement) : K unit :=
  do convert_statement stmt ;;
  match stmt with
  | STMT_CALL _ _ _ (Some e) => do expr_get e ;; convert_expression e
  | _ => ret tt
  end.

Definition null_check_arg (arg_expression : expression) : K expression :=
  let* e := null_check_expr arg_expression in must e.
Fixpoint null_check_this_arg (arg : expression) : K expression :=
  match arg with
  | EXPR_ARGS_LIST l (EXPR_ARG_THIS r e) => let* e := null_check_arg e in ret (EXPR_ARGS_LIST l (EXPR_ARG_THIS r e))
  | EXPR_ARGS_LIST l right_arg => let* l := null_check_this_arg l in ret (EXPR_ARGS_LIST l right_arg)
  | EXPR_ARG_THIS r e => let* e := null_check_arg e in ret (EXPR_ARG_THIS r e)
  | _ => ret arg
  end.

(** The common part of the four converters. *)
Definition convert_invoke (target : vm_callee) (stmt : expression → statement) (check_this : bool) : K unit :=
  let* args_list := convert_and_add_args target in
  let* args_list := (if check_this then null_check_this_arg args_list else ret args_list) in
  do insert_before_args_stmt target ;;
  insert_invoke_stmt (stmt args_list).

Definition CAFEBABE_CLASS_ACC_STATIC : Z := 0x0008.

Definition resolve_invoke_target (access_flags : Z) : K (option vm_callee) :=
  let* idx := read bytecode_read_u16 in ret (vm_class_resolve_method_recursive idx access_flags).
Definition resolve_invokeinterface_target : K (option vm_callee) :=
  let* idx := read bytecode_read_u16 in ret (vm_class_resolve_interface_method_recursive idx).

Definition convert_invokeinterface : K unit :=
  let* invoke_target := resolve_invokeinterface_target in
  match invoke_target with
  | None => einval
  | Some target =>
    let* stmt := invoke_stmt STMT_INVOKEINTERFACE target in
    match stmt with
    | None => enomem
    | Some stmt =>
      let* count := read bytecode_read_u8 in
      if decide (count = 0) then einval else
      let* zero := read bytecode_read_u8 in
      if decide (zero ≠ 0) then einval else convert_invoke target stmt false
    end
  end.

Definition convert_invoke_of (type : invoke_type) (access_flags : Z) (check_this : bool) : K unit :=
  let* invoke_target := resolve_invoke_target access_flags in
  match invoke_target with
  | None => einval
  | Some target =>
    let* stmt := invoke_stmt type target in
    match stmt with None => enomem | Some stmt => convert_invoke target stmt check_this end
  end.
Definition convert_invokevirtual : K unit := convert_invoke_of STMT_INVOKEVIRTUAL 0 false.
Definition convert_invokespecial : K unit := convert_invoke_of STMT_INVOKE CAFEBABE_CLASS_ACC_STATIC true.
Definition convert_invokestatic : K unit := convert_invoke_of STMT_INVOKE CAFEBABE_CLASS_ACC_STATIC false.

(** ** jit/switch-bc.c *)

Definition branch_if_lesser_stmt (target : option nat) (left : expression) (right : Z) : K (option statement) :=
  let* r := value_expr J_INT right in
  match r with None => ret None | Some r => if_stmt target J_INT OP_LT left r end.
Definition branch_if_greater_stmt (target : option nat) (left : expression) (right : Z) : K (option statement) :=
  let* r := value_expr J_INT right in
  match r with None => ret None | Some r => if_stmt target J_INT OP_GT left r end.
Definition branch_if_null_stmt (target : option nat) (left : expression) : K (option statement) :=
  let* r := value_expr J_NATIVE_PTR 0 in
  match r with None => ret None | Some r => if_stmt target J_NATIVE_PTR OP_EQ left r end.

(** The blocks of the targets become successors of [b]; [n] targets are left. *)
Fixpoint add_switch_successors (target : Z → option Z) (b : nat) (n : nat) (i : Z) : K unit :=
  match n with
  | O => ret tt
  | S n' =>
    let* t := must (target i) in
    let* target_bb := find_target t in
    let* x := on_cfg (BasicBlock.deref (Some b)) in
    do (match target_bb with
        | Some t => if bb_successors_contains x t then ret tt else do on_cfg (bb_add_successor (Some b) target_bb) ;; ret tt
        | None => do on_cfg (bb_add_successor (Some b) None) ;; ret tt
        end) ;;
    add_switch_successors target b n' (i + 1)
  end.

(** The table; the targets are looked up again. *)
Fixpoint lookup_targets (target : Z → option Z) (n : nat) (i : Z) : K (list (option nat)) :=
  match n with
  | O => ret []
  | S n' =>
    let* t := must (target i) in
    let* b := find_target t in
    let* rest := lookup_targets target n' (i + 1) in
    ret (b :: rest)
  end.
Definition alloc_tableswitch (info : tableswitch_info) (b : nat) : K (option tableswitch) :=
  let* ok := on_cfg (request 48) in
  if negb ok then ret None else
  let* ok := on_cfg (request (u64 (8 * ts_count info))) in
  if negb ok then ret None else
  let* l := lookup_targets (λ i, read_s32 code (ts_targets info + u32 (i * 4))) (Z.to_nat (ts_count info)) 0 in
  let table := TableSwitch (ts_low info) (ts_high info) b l in
  do modify (λ u, set_tables (table :: tableswitch_list u) u) ;;
  ret (Some table).
Fixpoint lookup_pairs (info : lookupswitch_info) (n : nat) (i : Z) : K (list lookupswitch_pair) :=
  match n with
  | O => ret []
  | S n' =>
    let* m := must (read_lookupswitch_match code info i) in
    let* t := must (read_lookupswitch_target code info i) in
    let* b := find_target t in
    let* rest := lookup_pairs info n' (i + 1) in
    ret (LookupPair m b :: rest)
  end.
Definition alloc_lookupswitch (info : lookupswitch_info) (b : nat) : K (option lookupswitch) :=
  let* ok := on_cfg (request 40) in
  if negb ok then ret None else
  let* ok := on_cfg (request (u64 (12 * ls_count info))) in
  if negb ok then ret None else
  let* l := lookup_pairs info (Z.to_nat (ls_count info)) 0 in
  let table := LookupSwitch b (ls_count info) l in
  do modify (λ u, set_lookups (table :: lookupswitch_list u) u) ;;
  ret (Some table).

(** A block of the unit, and one of its fields set. *)
Definition block_at (b : option nat) : K basic_block := on_cfg (BasicBlock.deref b).
Definition set_has_branch (b : option nat) : K unit :=
  on_cfg (update b (λ x, set_branch true (br_target_off x) x)).

Definition skip_insn (size : Z) : K unit := update_ctx (λ c, set_pos (u64 (ctx_pos c + size)) c).

Definition convert_tableswitch : K unit :=
  let* c := get ctx in
  let* info := must (get_tableswitch_info code (ctx_offset c)) in
  do skip_insn (ts_insn_size info) ;;
  let* default_bb := find_target (ts_default_target info) in
  match default_bb with
  | None => fail (Err (-1))
  | Some _ =>
    let master_bb := Some (ctx_bb c) in
    let* m := block_at master_bb in
    let* b1 := on_cfg (bb_split master_bb (end_ m)) in
    let* m := block_at master_bb in
    let* b2 := on_cfg (bb_split b1 (end_ m)) in
    let* b1 := must b1 in
    let* b2 := must b2 in
    do set_has_branch master_bb ;;
    do set_has_branch (Some b1) ;;
    do set_has_branch (Some b2) ;;
    do on_cfg (bb_add_successor master_bb default_bb) ;;
    do on_cfg (bb_add_successor master_bb (Some b1)) ;;
    do on_cfg (bb_add_successor (Some b1) default_bb) ;;
    do on_cfg (bb_add_successor (Some b1) (Some b2)) ;;
    do add_switch_successors (λ i, read_s32 code (ts_targets info + u32 (i * 4))) b2 (Z.to_nat (ts_count info)) 0 ;;
    let* table := alloc_tableswitch info b2 in
    match table with
    | None => enomem
    | Some table =>
      let* e := stack_pop in
      let* pure_index := get_pure_expr e in
      let* if_lesser_stmt := branch_if_lesser_stmt default_bb pure_index (s32 (ts_low info)) in
      match if_lesser_stmt with
      | None => fail (Err (-1))
      | Some if_lesser_stmt =>
        do expr_get pure_index ;;
        let* if_greater_stmt := branch_if_greater_stmt default_bb pure_index (s32 (ts_high info)) in
        match if_greater_stmt with
        | None => fail (Err (-1))
        | Some if_greater_stmt =>
          let* ok := alloc_statement in
          if negb ok then fail (Err (-1)) else
          do expr_get pure_index ;;
          do do_convert_statement (ctx_bb c) if_lesser_stmt (ctx_offset c) ;;
          do do_convert_statement b1 if_greater_stmt (ctx_offset c) ;;
          do_convert_statement b2 (STMT_TABLESWITCH pure_index table) (ctx_offset c)
        end
      end
    end
  end.

Definition convert_lookupswitch : K unit :=
  let* c := get ctx in
  let* info := must (get_lookupswitch_info code (ctx_offset c)) in
  do skip_insn (ls_insn_size info) ;;
  let* default_bb := find_target (ls_default_target info) in
  match default_bb with
  | None => fail (Err (-1))
  | Some _ =>
    let master_bb := Some (ctx_bb c) in
    let* m := block_at master_bb in
    let* b1 := on_cfg (bb_split master_bb (end_ m)) in
    let* b1 := must b1 in
    do set_has_branch (Some b1) ;;
    do on_cfg (bb_add_successor master_bb default_bb) ;;
    do on_cfg (bb_add_successor master_bb (Some b1)) ;;
    do add_switch_successors (read_lookupswitch_target code info) b1 (Z.to_nat (ls_count info)) 0 ;;
    let* table := alloc_lookupswitch info b1 in
    match table with
    | None => enomem
    | Some table =>
      let* key := stack_pop in
      let* bsearch := lookupswitch_bsearch_expr key table in
      match bsearch with
      | None => fail (Err (-1))
      | Some bsearch =>
        let* pure_bsearch := get_pure_expr bsearch in
        let* if_null_stmt := branch_if_null_stmt default_bb pure_bsearch in
        match if_null_stmt with
        | None => fail (Err (-1))
        | Some if_null_stmt =>
          let* ok := alloc_statement in
          if negb ok then fail (Err (-1)) else
          do expr_get pure_bsearch ;;
          do convert_statement if_null_stmt ;;
          do_convert_statement b1 (STMT_LOOKUPSWITCH_JUMP pure_bsearch) (ctx_offset c)
        end
      end
    end
  end.

(** ** jit/exception-bc.c, jit/nop-bc.c, jit/subroutine.c *)

Definition convert_athrow : K unit :=
  let* ok := alloc_statement in
  if negb ok then enomem else
  let* exception_ref := stack_pop in
  let* nullcheck := null_check_expr exception_ref in
  match nullcheck with
  | None => enomem
  | Some nullcheck =>
    do clear_mimic_stack ;;
    convert_statement (STMT_ATHROW nullcheck)
  end.
Definition convert_nop : K unit := ret tt.
Definition fail_subroutine_bc : K unit := fail Exit.

(** ** jit/bytecode-to-ir.c: one instruction, one block *)

(** The table [converters], by opcode. *)
Definition converters (convert_wide : K unit) : list (option (K unit)) := [
    Some convert_nop; Some convert_aconst_null; Some convert_iconst_n; Some convert_iconst_n;
    Some convert_iconst_n; Some convert_iconst_n; Some convert_iconst_n; Some convert_iconst_n;
    Some convert_iconst_n; Some convert_lconst_n; Some convert_lconst_n; Some convert_fconst_n;
    Some convert_fconst_n; Some convert_fconst_n; Some convert_dconst_n; Some convert_dconst_n;
    Some convert_bipush; Some convert_sipush; Some convert_ldc; Some convert_ldc_w;
    Some convert_ldc2_w; Some convert_iload; Some convert_lload; Some convert_fload;
    Some convert_dload; Some convert_aload; Some convert_iload_n; Some convert_iload_n;
    Some convert_iload_n; Some convert_iload_n; Some convert_lload_n; Some convert_lload_n;
    Some convert_lload_n; Some convert_lload_n; Some convert_fload_n; Some convert_fload_n;
    Some convert_fload_n; Some convert_fload_n; Some convert_dload_n; Some convert_dload_n;
    Some convert_dload_n; Some convert_dload_n; Some convert_aload_n; Some convert_aload_n;
    Some convert_aload_n; Some convert_aload_n; Some convert_iaload; Some convert_laload;
    Some convert_faload; Some convert_daload; Some convert_aaload; Some convert_baload;
    Some convert_caload; Some convert_saload; Some convert_istore; Some convert_lstore;
    Some convert_fstore; Some convert_dstore; Some convert_astore; Some convert_istore_n;
    Some convert_istore_n; Some convert_istore_n; Some convert_istore_n; Some convert_lstore_n;
    Some convert_lstore_n; Some convert_lstore_n; Some convert_lstore_n; Some convert_fstore_n;
    Some convert_fstore_n; Some convert_fstore_n; Some convert_fstore_n; Some convert_dstore_n;
    Some convert_dstore_n; Some convert_dstore_n; Some convert_dstore_n; Some convert_astore_n;
    Some convert_astore_n; Some convert_astore_n; Some convert_astore_n; Some convert_iastore;
    Some convert_lastore; Some convert_fastore; Some convert_dastore; Some convert_aastore;
    Some convert_bastore; Some convert_castore; Some convert_sastore; Some convert_pop;
    Some convert_pop2; Some convert_dup; Some convert_dup_x1; Some convert_dup_x2;
    Some convert_dup2; Some convert_dup2_x1; Some convert_dup2_x2; Some convert_swap;
    Some convert_iadd; Some convert_ladd; Some convert_fadd; Some convert_dadd;
    Some convert_isub; Some convert_lsub; Some convert_fsub; Some convert_dsub;
    Some convert_imul; Some convert_lmul; Some convert_fmul; Some convert_dmul;
    Some convert_idiv; Some convert_ldiv; Some convert_fdiv; Some convert_ddiv;
    Some convert_irem; Some convert_lrem; Some convert_frem; Some convert_drem;
    Some convert_ineg; Some convert_lneg; Some convert_fneg; Some convert_dneg;
    Some convert_ishl; Some convert_lshl; Some convert_ishr; Some convert_lshr;
    Some convert_iushr; Some convert_lushr; Some convert_iand; Some convert_land;
    Some convert_ior; Some convert_lor; Some convert_ixor; Some convert_lxor;
    Some convert_iinc; Some convert_i2l; Some convert_i2f; Some convert_i2d;
    Some convert_l2i; Some convert_l2f; Some convert_l2d; Some convert_f2i;
    Some convert_f2l; Some convert_f2d; Some convert_d2i; Some convert_d2l;
    Some convert_d2f; Some convert_i2b; Some convert_i2c; Some convert_i2s;
    Some convert_lcmp; Some convert_xcmpl; Some convert_xcmpg; Some convert_xcmpl;
    Some convert_xcmpg; Some convert_ifeq; Some convert_ifne; Some convert_iflt;
    Some convert_ifge; Some convert_ifgt; Some convert_ifle; Some convert_if_icmpeq;
    Some convert_if_icmpne; Some convert_if_icmplt; Some convert_if_icmpge; Some convert_if_icmpgt;
    Some convert_if_icmple; Some convert_if_acmpeq; Some convert_if_acmpne; Some convert_goto;
    Some fail_subroutine_bc; Some fail_subroutine_bc; Some convert_tableswitch; Some convert_lookupswitch;
    Some convert_xreturn; Some convert_xreturn; Some convert_xreturn; Some convert_xreturn;
    Some convert_xreturn; Some convert_return; Some convert_getstatic; Some convert_putstatic;
    Some convert_getfield; Some convert_putfield; Some convert_invokevirtual; Some convert_invokespecial;
    Some convert_invokestatic; Some convert_invokeinterface; None; Some convert_new;
    Some convert_newarray; Some convert_anewarray; Some convert_arraylength; Some convert_athrow;
    Some convert_checkcast; Some convert_instanceof; Some convert_monitorenter; Some convert_monitorexit;
    Some convert_wide; Some convert_multianewarray; Some convert_ifnull; Some convert_ifnonnull;
    Some convert_goto; Some fail_subroutine_bc].

(** [n] bounds the calls of [convert_wide], each of which reads a byte. *)
Fixpoint convert_instruction (n : nat) : K unit :=
  match n with
  | O => undef
  | S n' =>
    let* opc := read bytecode_read_u8 in
    do update_ctx (set_opc opc) ;;
    let convert_wide :=
      do update_ctx (set_wide true) ;;
      λ u, match convert_instruction n' u with
           | Done _ u' => Done tt (set_ctx (set_wide false (ctx u')) u')
           | Fail e u' => Fail e (set_ctx (set_wide false (ctx u')) u')
           | Undef => Undef
           end in
    if decide (opc >= 202) then einval else
    match mjoin (converters convert_wide !! Z.to_nat opc) with
    | None => einval
    | Some convert =>
      do (if decide (OPC_IALOAD <= opc <= OPC_SALOAD ∨ OPC_IASTORE <= opc <= OPC_SASTORE) then modify set_array_opc else ret tt) ;;
      convert
    end
  end.

(** The loop over the instructions of the block; [n] instructions at most are left. *)
Fixpoint convert_insns (n : nat) (b : nat) : K unit :=
  match n with
  | O => undef
  | S n' =>
    let* x := block_at (Some b) in
    let* c := get ctx in
    if decide (ctx_pos c < end_ x) then
      do update_ctx (set_offset (ctx_pos c)) ;;
      do convert_instruction (S (length code)) ;;
      convert_insns n' b
    else ret tt
  end.

Definition bb_mimic_stack_is_resolved (x : basic_block) : bool := bool_decide (entry_mimic_stack_size x ≠ -1).
Definition set_entry_mimic (b : nat) (n : Z) : K unit := on_cfg (update (Some b) (set_entry_size n)).

Definition do_convert_bb_to_ir (b : nat) : K unit :=
  let* x := block_at (Some b) in
  do update_ctx (λ _, Ctx b (start x) 0 0 false) ;;
  do (if is_eh x && negb (bb_mimic_stack_is_resolved x) then
        let* e := exception_ref_expr in
        let* e := must e in
        do push_on b e ;;
        set_entry_mimic b 1
      else ret tt) ;;
  let* x := block_at (Some b) in
  do (if bb_mimic_stack_is_resolved x then ret tt else set_entry_mimic b 0) ;;
  convert_insns (S (length code)) b.
End convert.
