(* ===== verification/JavaMachine.v ===== *)
(** * The Java virtual machine: values, the heap, instructions

    The semantics of bytecode the conversion is measured against, after the Java Virtual
    Machine Specification.  Floating-point arithmetic is an interface ([Floats]), and so is
    the heap with everything that acts on it: fields, arrays, allocation, monitors, calls
    ([JavaHeap]).  A computation on the heap ends normally, throws, or is stuck; what
    [JavaHeapLaws] asks for is that the length of an array and the class of an object do
    not change.  An instruction is stuck on operands of the wrong type, as in code that the
    verifier rejects. *)

From S2P Require Import Prelude CMonad ConstantPool ClassFile Bytecode Types Tree Convert.
From stdpp Require Import gmap.
#[local] Open Scope Z_scope.

(** ** Floating-point numbers *)

(** Of a comparison, [None] is unordered. *)
Class Floats := {
  f32 : Type;
  f64 : Type;
  f_of_bits : Z → f32;
  d_of_bits : Z → Z → f64;              (** low and high word *)
  i2f : Z → f32;
  i2d : Z → f64;
  l2f : Z → f32;
  l2d : Z → f64;
  f2i : f32 → Z;
  f2l : f32 → Z;
  d2i : f64 → Z;
  d2l : f64 → Z;
  f2d : f32 → f64;
  d2f : f64 → f32;
  fadd : f32 → f32 → f32;
  fsub : f32 → f32 → f32;
  fmul : f32 → f32 → f32;
  fdiv : f32 → f32 → f32;
  frem : f32 → f32 → f32;
  fneg : f32 → f32;
  fcompare : f32 → f32 → option comparison;
  dadd : f64 → f64 → f64;
  dsub : f64 → f64 → f64;
  dmul : f64 → f64 → f64;
  ddiv : f64 → f64 → f64;
  drem : f64 → f64 → f64;
  dneg : f64 → f64;
  dcompare : f64 → f64 → option comparison;
}.

(** Widening loses nothing, and the small integers are exact in both formats. *)
Class FloatsLaws `{Floats} := {
  d2f_f2d x : d2f (f2d x) = x;
  d2f_i2d n : 0 <= n <= 2 → d2f (i2d n) = i2f n;
}.

(** ** Values *)

Inductive val `{Floats} : Type :=
  | VInt (z : Z)
  | VLong (z : Z)
  | VFloat (f : f32)
  | VDouble (d : f64)
  | VRef (r : Z)                         (** an address, null is 0 *)
  | VTarget (o : option (option nat)).   (** a pointer to an entry of a switch table, or null *)

Definition val_type `{Floats} (v : val) : vm_type :=
  match v with
  | VInt _ => J_INT | VLong _ => J_LONG | VFloat _ => J_FLOAT | VDouble _ => J_DOUBLE | VRef _ => J_REFERENCE
  | VTarget _ => J_NATIVE_PTR
  end.

Inductive exc : Type :=
  | NullPointerException
  | ArithmeticException
  | ArrayIndexOutOfBoundsException
  | NegativeArraySizeException
  | ArrayStoreException
  | ClassCastException
  | Thrown (r : Z).                      (** an object thrown, or an error of the machine *)

(** ** The heap *)

Class JavaHeap `{Floats} := {
  world : Type;
  get_static : vm_field → M world exc val;
  put_static : vm_field → val → M world exc unit;
  get_field : vm_field → Z → world → option val;
  put_field : vm_field → Z → val → world → world;
  array_length : Z → world → option Z;
  array_get : vm_type → Z → Z → world → option val;
  array_put : vm_type → Z → Z → val → world → world;
  array_store_ok : Z → val → world → option bool;   (** the array and the value *)
  instance_of : Z → class_ptr → world → option bool;
  new_object : class_ptr → M world exc Z;
  new_array : Z → Z → M world exc Z;                (** type and length *)
  anew_array : class_ptr → Z → M world exc Z;
  multianew_array : class_ptr → list Z → M world exc Z;
  monitor_enter : Z → M world exc unit;
  monitor_exit : Z → M world exc unit;
  call : invoke_type → vm_callee → list val → M world exc (option val);
}.

(** [later w w']: the objects of [w] are still there in [w'], with their classes and
    lengths. *)
Class JavaHeapLaws `{JavaHeap} := {
  later : world → world → Prop;
  later_preorder : PreOrder later;
  later_length r n w w' : later w w' → array_length r w = Some n → array_length r w' = Some n;
  later_instance r c b w w' : later w w' → instance_of r c w = Some b → instance_of r c w' = Some b;
  get_static_later f v w w' : get_static f w = Done v w' → later w w';
  put_static_later f v w w' : put_static f v w = Done tt w' → later w w';
  put_field_later f r v w : later w (put_field f r v w);
  array_put_later t r i v w : later w (array_put t r i v w);
  new_object_later c r w w' : new_object c w = Done r w' → later w w';
  new_array_later t n r w w' : new_array t n w = Done r w' → later w w';
  anew_array_later c n r w w' : anew_array c n w = Done r w' → later w w';
  multianew_array_later c l r w w' : multianew_array c l w = Done r w' → later w w';
  monitor_enter_later r w w' : monitor_enter r w = Done tt w' → later w w';
  monitor_exit_later r w w' : monitor_exit r w = Done tt w' → later w w';
  call_later k m l v w w' : call k m l w = Done v w' → later w w';
}.
#[export] Existing Instance later_preorder.

(** ** Arithmetic *)

Definition div32 (x y : Z) : option Z := if decide (y = 0) then None else Some (s32 (Z.quot x y)).
Definition rem32 (x y : Z) : option Z := if decide (y = 0) then None else Some (s32 (Z.rem x y)).
Definition div64 (x y : Z) : option Z := if decide (y = 0) then None else Some (s64 (Z.quot x y)).
Definition rem64 (x y : Z) : option Z := if decide (y = 0) then None else Some (s64 (Z.rem x y)).
Definition shl32 (x n : Z) : Z := s32 (Z.shiftl x (n mod 32)).
Definition shl64 (x n : Z) : Z := s64 (Z.shiftl x (n mod 64)).
Definition shr32 (x n : Z) : Z := Z.shiftr x (n mod 32).
Definition shr64 (x n : Z) : Z := Z.shiftr x (n mod 64).
Definition ushr32 (x n : Z) : Z := s32 (Z.shiftr (u32 x) (n mod 32)).
Definition ushr64 (x n : Z) : Z := s64 (Z.shiftr (u64 x) (n mod 64)).
Definition sign (c : comparison) : Z := match c with Lt => -1 | Eq => 0 | Gt => 1 end.

(** ** Instructions *)

Inductive num : Type := NInt | NLong | NFloat | NDouble.
Inductive arith : Type := AAdd | ASub | AMul | ADiv | ARem.
Inductive shift : Type := Shl | Shr | Ushr.
Inductive logic : Type := And | Or | Xor.
Inductive cond : Type := CEq | CNe | CLt | CGe | CGt | CLe.
Inductive jcall : Type := CallVirtual | CallSpecial | CallStatic | CallInterface.

Inductive jinsn : Type :=
  | JNop
  | JNull
  | JInt (z : Z)
  | JLong (z : Z)
  | JFloat (z : Z)
  | JDouble (z : Z)
  | JLdc (wide : bool) (idx : Z)
  | JLoad (t : vm_type) (idx : Z)
  | JStore (t : vm_type) (idx : Z)
  | JArrayLoad (t : vm_type)
  | JArrayStore (t : vm_type)
  | JPop | JPop2 | JDup | JDup_x1 | JDup_x2 | JDup2 | JDup2_x1 | JDup2_x2 | JSwap
  | JArith (n : num) (a : arith)
  | JNeg (n : num)
  | JShift (wide : bool) (s : shift)
  | JLogic (wide : bool) (l : logic)
  | JIinc (idx c : Z)
  | JConv (from to : num)
  | JTrunc (t : vm_type)
  | JLcmp
  | JFcmp (double : bool) (unordered : Z)
  | JIf (c : cond) (off : Z)
  | JIfIcmp (c : cond) (off : Z)
  | JIfAcmp (c : cond) (off : Z)
  | JIfNull (c : cond) (off : Z)
  | JGoto (off : Z)
  | JReturn (t : option vm_type)
  | JGetstatic (idx : Z) | JPutstatic (idx : Z) | JGetfield (idx : Z) | JPutfield (idx : Z)
  | JInvoke (k : jcall) (idx : Z)
  | JNew (idx : Z) | JNewarray (t : Z) | JAnewarray (idx : Z) | JMultianewarray (idx dims : Z)
  | JArraylength | JAthrow | JCheckcast (idx : Z) | JInstanceof (idx : Z)
  | JMonitorenter | JMonitorexit.

(** *** Decoding *)

Section decode.
Context (code : list Z).

Definition u1 (p : Z) : option Z := rd code p.
Definition u2 (p : Z) : option Z := a ← rd code p; b ← rd code (p + 1); Some (256 * a + b).
Definition s1 (p : Z) : option Z := s8 <$> u1 p.
Definition s2 (p : Z) : option Z := s16 <$> u2 p.
Definition s4 (p : Z) : option Z := a ← u2 p; b ← u2 (p + 2); Some (s32 (65536 * a + b)).

(** The operands of an instruction, from the byte after the opcode on; the result has the
    place of the next instruction. *)
Definition operands : Type := Z → option (jinsn * Z).

Definition op0 (i : jinsn) : operands := λ p, Some (i, p).
Definition op_u1 (f : Z → jinsn) : operands := λ p, x ← u1 p; Some (f x, p + 1).
Definition op_s1 (f : Z → jinsn) : operands := λ p, x ← s1 p; Some (f x, p + 1).
Definition op_u2 (f : Z → jinsn) : operands := λ p, x ← u2 p; Some (f x, p + 2).
Definition op_s2 (f : Z → jinsn) : operands := λ p, x ← s2 p; Some (f x, p + 2).
Definition op_s4 (f : Z → jinsn) : operands := λ p, x ← s4 p; Some (f x, p + 4).
Definition op_iinc : operands := λ p, i ← u1 p; c ← s1 (p + 1); Some (JIinc i c, p + 2).
Definition op_interface : operands := λ p,
  i ← u2 p; c ← u1 (p + 2); z ← u1 (p + 3);
  if decide (c ≠ 0 ∧ z = 0) then Some (JInvoke CallInterface i, p + 4) else None.
Definition op_multi : operands := λ p, i ← u2 p; d ← u1 (p + 2); Some (JMultianewarray i d, p + 3).

(** The wide forms. *)
Definition op_wide : operands := λ p,
  opc ← u1 p;
  match opc with
  | 0x15 => op_u2 (JLoad J_INT) (p + 1) | 0x16 => op_u2 (JLoad J_LONG) (p + 1) | 0x17 => op_u2 (JLoad J_FLOAT) (p + 1)
  | 0x18 => op_u2 (JLoad J_DOUBLE) (p + 1) | 0x19 => op_u2 (JLoad J_REFERENCE) (p + 1)
  | 0x36 => op_u2 (JStore J_INT) (p + 1) | 0x37 => op_u2 (JStore J_LONG) (p + 1) | 0x38 => op_u2 (JStore J_FLOAT) (p + 1)
  | 0x39 => op_u2 (JStore J_DOUBLE) (p + 1) | 0x3a => op_u2 (JStore J_REFERENCE) (p + 1)
  | 0x84 => i ← u2 (p + 1); c ← s2 (p + 3); Some (JIinc i c, p + 5)
  | _ => None
  end.

(** The instructions by opcode; the switches, the subroutines and the opcodes that are not
    used are left out. *)
Definition insn_table : list (option operands) := [
  Some (op0 JNop); Some (op0 JNull); Some (op0 (JInt (-1))); Some (op0 (JInt 0));
  Some (op0 (JInt 1)); Some (op0 (JInt 2)); Some (op0 (JInt 3)); Some (op0 (JInt 4));
  Some (op0 (JInt 5)); Some (op0 (JLong 0)); Some (op0 (JLong 1)); Some (op0 (JFloat 0));
  Some (op0 (JFloat 1)); Some (op0 (JFloat 2)); Some (op0 (JDouble 0)); Some (op0 (JDouble 1));
  Some (op_s1 JInt); Some (op_s2 JInt); Some (op_u1 (JLdc false)); Some (op_u2 (JLdc false));
  Some (op_u2 (JLdc true)); Some (op_u1 (JLoad J_INT)); Some (op_u1 (JLoad J_LONG)); Some (op_u1 (JLoad J_FLOAT));
  Some (op_u1 (JLoad J_DOUBLE)); Some (op_u1 (JLoad J_REFERENCE)); Some (op0 (JLoad J_INT 0)); Some (op0 (JLoad J_INT 1));
  Some (op0 (JLoad J_INT 2)); Some (op0 (JLoad J_INT 3)); Some (op0 (JLoad J_LONG 0)); Some (op0 (JLoad J_LONG 1));
  Some (op0 (JLoad J_LONG 2)); Some (op0 (JLoad J_LONG 3)); Some (op0 (JLoad J_FLOAT 0)); Some (op0 (JLoad J_FLOAT 1));
  Some (op0 (JLoad J_FLOAT 2)); Some (op0 (JLoad J_FLOAT 3)); Some (op0 (JLoad J_DOUBLE 0)); Some (op0 (JLoad J_DOUBLE 1));
  Some (op0 (JLoad J_DOUBLE 2)); Some (op0 (JLoad J_DOUBLE 3)); Some (op0 (JLoad J_REFERENCE 0)); Some (op0 (JLoad J_REFERENCE 1));
  Some (op0 (JLoad J_REFERENCE 2)); Some (op0 (JLoad J_REFERENCE 3)); Some (op0 (JArrayLoad J_INT)); Some (op0 (JArrayLoad J_LONG));
  Some (op0 (JArrayLoad J_FLOAT)); Some (op0 (JArrayLoad J_DOUBLE)); Some (op0 (JArrayLoad J_REFERENCE)); Some (op0 (JArrayLoad J_BYTE));
  Some (op0 (JArrayLoad J_CHAR)); Some (op0 (JArrayLoad J_SHORT)); Some (op_u1 (JStore J_INT)); Some (op_u1 (JStore J_LONG));
  Some (op_u1 (JStore J_FLOAT)); Some (op_u1 (JStore J_DOUBLE)); Some (op_u1 (JStore J_REFERENCE)); Some (op0 (JStore J_INT 0));
  Some (op0 (JStore J_INT 1)); Some (op0 (JStore J_INT 2)); Some (op0 (JStore J_INT 3)); Some (op0 (JStore J_LONG 0));
  Some (op0 (JStore J_LONG 1)); Some (op0 (JStore J_LONG 2)); Some (op0 (JStore J_LONG 3)); Some (op0 (JStore J_FLOAT 0));
  Some (op0 (JStore J_FLOAT 1)); Some (op0 (JStore J_FLOAT 2)); Some (op0 (JStore J_FLOAT 3)); Some (op0 (JStore J_DOUBLE 0));
  Some (op0 (JStore J_DOUBLE 1)); Some (op0 (JStore J_DOUBLE 2)); Some (op0 (JStore J_DOUBLE 3)); Some (op0 (JStore J_REFERENCE 0));
  Some (op0 (JStore J_REFERENCE 1)); Some (op0 (JStore J_REFERENCE 2)); Some (op0 (JStore J_REFERENCE 3)); Some (op0 (JArrayStore J_INT));
  Some (op0 (JArrayStore J_LONG)); Some (op0 (JArrayStore J_FLOAT)); Some (op0 (JArrayStore J_DOUBLE)); Some (op0 (JArrayStore J_REFERENCE));
  Some (op0 (JArrayStore J_BYTE)); Some (op0 (JArrayStore J_CHAR)); Some (op0 (JArrayStore J_SHORT)); Some (op0 JPop);
  Some (op0 JPop2); Some (op0 JDup); Some (op0 JDup_x1); Some (op0 JDup_x2);
  Some (op0 JDup2); Some (op0 JDup2_x1); Some (op0 JDup2_x2); Some (op0 JSwap);
  Some (op0 (JArith NInt AAdd)); Some (op0 (JArith NLong AAdd)); Some (op0 (JArith NFloat AAdd)); Some (op0 (JArith NDouble AAdd));
  Some (op0 (JArith NInt ASub)); Some (op0 (JArith NLong ASub)); Some (op0 (JArith NFloat ASub)); Some (op0 (JArith NDouble ASub));
  Some (op0 (JArith NInt AMul)); Some (op0 (JArith NLong AMul)); Some (op0 (JArith NFloat AMul)); Some (op0 (JArith NDouble AMul));
  Some (op0 (JArith NInt ADiv)); Some (op0 (JArith NLong ADiv)); Some (op0 (JArith NFloat ADiv)); Some (op0 (JArith NDouble ADiv));
  Some (op0 (JArith NInt ARem)); Some (op0 (JArith NLong ARem)); Some (op0 (JArith NFloat ARem)); Some (op0 (JArith NDouble ARem));
  Some (op0 (JNeg NInt)); Some (op0 (JNeg NLong)); Some (op0 (JNeg NFloat)); Some (op0 (JNeg NDouble));
  Some (op0 (JShift false Shl)); Some (op0 (JShift true Shl)); Some (op0 (JShift false Shr)); Some (op0 (JShift true Shr));
  Some (op0 (JShift false Ushr)); Some (op0 (JShift true Ushr)); Some (op0 (JLogic false And)); Some (op0 (JLogic true And));
  Some (op0 (JLogic false Or)); Some (op0 (JLogic true Or)); Some (op0 (JLogic false Xor)); Some (op0 (JLogic true Xor));
  Some op_iinc; Some (op0 (JConv NInt NLong)); Some (op0 (JConv NInt NFloat)); Some (op0 (JConv NInt NDouble));
  Some (op0 (JConv NLong NInt)); Some (op0 (JConv NLong NFloat)); Some (op0 (JConv NLong NDouble)); Some (op0 (JConv NFloat NInt));
  Some (op0 (JConv NFloat NLong)); Some (op0 (JConv NFloat NDouble)); Some (op0 (JConv NDouble NInt)); Some (op0 (JConv NDouble NLong));
  Some (op0 (JConv NDouble NFloat)); Some (op0 (JTrunc J_BYTE)); Some (op0 (JTrunc J_CHAR)); Some (op0 (JTrunc J_SHORT));
  Some (op0 JLcmp); Some (op0 (JFcmp false (-1))); Some (op0 (JFcmp false 1)); Some (op0 (JFcmp true (-1)));
  Some (op0 (JFcmp true 1)); Some (op_s2 (JIf CEq)); Some (op_s2 (JIf CNe)); Some (op_s2 (JIf CLt));
  Some (op_s2 (JIf CGe)); Some (op_s2 (JIf CGt)); Some (op_s2 (JIf CLe)); Some (op_s2 (JIfIcmp CEq));
  Some (op_s2 (JIfIcmp CNe)); Some (op_s2 (JIfIcmp CLt)); Some (op_s2 (JIfIcmp CGe)); Some (op_s2 (JIfIcmp CGt));
  Some (op_s2 (JIfIcmp CLe)); Some (op_s2 (JIfAcmp CEq)); Some (op_s2 (JIfAcmp CNe)); Some (op_s2 JGoto);
  None; None; None; None;
  Some (op0 (JReturn (Some J_INT))); Some (op0 (JReturn (Some J_LONG))); Some (op0 (JReturn (Some J_FLOAT))); Some (op0 (JReturn (Some J_DOUBLE)));
  Some (op0 (JReturn (Some J_REFERENCE))); Some (op0 (JReturn None)); Some (op_u2 JGetstatic); Some (op_u2 JPutstatic);
  Some (op_u2 JGetfield); Some (op_u2 JPutfield); Some (op_u2 (JInvoke CallVirtual)); Some (op_u2 (JInvoke CallSpecial));
  Some (op_u2 (JInvoke CallStatic)); Some op_interface; None; Some (op_u2 JNew);
  Some (op_u1 JNewarray); Some (op_u2 JAnewarray); Some (op0 JArraylength); Some (op0 JAthrow);
  Some (op_u2 JCheckcast); Some (op_u2 JInstanceof); Some (op0 JMonitorenter); Some (op0 JMonitorexit);
  Some op_wide; Some op_multi; Some (op_s2 (JIfNull CEq)); Some (op_s2 (JIfNull CNe));
  Some (op_s4 JGoto); None].

Definition jdecode (p : Z) : option (jinsn * Z) :=
  opc ← rd code p;
  ops ← mjoin (insn_table !! Z.to_nat opc);
  ops (p + 1).
End decode.

(** *** Execution *)

Section exec.
Context `{Resolver} `{JavaHeap}.

Record jstate := JS { j_locals : gmap Z val; j_stack : list val; j_world : world }.

(** Where control goes: on, to another place, or out of the method. *)
Inductive jctl : Type :=
  | JNext
  | JJump (pc : Z)
  | JRet (v : option val).

Definition out : Type := CMonad.outcome jstate exc jctl.

Definition pair_val (v : val) : bool := vm_type_is_pair (val_type v).

(** A store to a variable takes away what overlapped it. *)
Definition set_local (i : Z) (v : val) (l : gmap Z val) : gmap Z val :=
  let l := match l !! (i - 1) with Some x => if pair_val x then delete (i - 1) l else l | None => l end in
  <[i := v]> (if pair_val v then delete (i + 1) l else l).

Definition push (s : jstate) (st : list val) (v : val) : out := Done JNext (JS (j_locals s) (v :: st) (j_world s)).
Definition with_stack (s : jstate) (st : list val) : out := Done JNext (JS (j_locals s) st (j_world s)).
Definition throw (x : exc) (s : jstate) : out := Fail x s.
(** A value of the type an instruction produces. *)
Definition push_typed (s : jstate) (st : list val) (t : vm_type) (v : val) : out :=
  if decide (val_type v = t) then push s st v else Undef.
Definition push_opt (s : jstate) (st : list val) (o : option Z) (f : Z → val) : out :=
  match o with Some z => push s st (f z) | None => throw ArithmeticException s end.

(** A computation on the heap, then the rest with its result. *)
Definition heap_do {A} (m : M world exc A) (s : jstate) (k : A → jstate → out) : out :=
  match m (j_world s) with
  | Done a w => k a (JS (j_locals s) (j_stack s) w)
  | Fail x w => Fail x (JS (j_locals s) (j_stack s) w)
  | Undef => Undef
  end.

(** *** Operators *)

Definition jarith (n : num) (a : arith) (s : jstate) (st : list val) (x y : val) : out :=
  match n, x, y with
  | NInt, VInt x, VInt y =>
    match a with
    | AAdd => push s st (VInt (s32 (x + y)))
    | ASub => push s st (VInt (s32 (x - y)))
    | AMul => push s st (VInt (s32 (x * y)))
    | ADiv => push_opt s st (div32 x y) VInt
    | ARem => push_opt s st (rem32 x y) VInt
    end
  | NLong, VLong x, VLong y =>
    match a with
    | AAdd => push s st (VLong (s64 (x + y)))
    | ASub => push s st (VLong (s64 (x - y)))
    | AMul => push s st (VLong (s64 (x * y)))
    | ADiv => push_opt s st (div64 x y) VLong
    | ARem => push_opt s st (rem64 x y) VLong
    end
  | NFloat, VFloat x, VFloat y =>
    push s st (VFloat (match a with AAdd => fadd x y | ASub => fsub x y | AMul => fmul x y | ADiv => fdiv x y
                                  | ARem => frem x y end))
  | NDouble, VDouble x, VDouble y =>
    push s st (VDouble (match a with AAdd => dadd x y | ASub => dsub x y | AMul => dmul x y | ADiv => ddiv x y
                                   | ARem => drem x y end))
  | _, _, _ => Undef
  end.
Definition jneg (n : num) (x : val) : option val :=
  match n, x with
  | NInt, VInt x => Some (VInt (s32 (- x)))
  | NLong, VLong x => Some (VLong (s64 (- x)))
  | NFloat, VFloat x => Some (VFloat (fneg x))
  | NDouble, VDouble x => Some (VDouble (dneg x))
  | _, _ => None
  end.
Definition jshift (wide : bool) (k : shift) (x y : val) : option val :=
  match wide, x, y with
  | false, VInt x, VInt y => Some (VInt (match k with Shl => shl32 x y | Shr => shr32 x y | Ushr => ushr32 x y end))
  | true, VLong x, VInt y => Some (VLong (match k with Shl => shl64 x y | Shr => shr64 x y | Ushr => ushr64 x y end))
  | _, _, _ => None
  end.
Definition jlogic (wide : bool) (k : logic) (x y : val) : option val :=
  let f := match k with And => Z.land | Or => Z.lor | Xor => Z.lxor end in
  match wide, x, y with
  | false, VInt x, VInt y => Some (VInt (f x y))
  | true, VLong x, VLong y => Some (VLong (f x y))
  | _, _, _ => None
  end.
Definition jconv (from to : num) (x : val) : option val :=
  match from, to, x with
  | NInt, NLong, VInt x => Some (VLong x)
  | NInt, NFloat, VInt x => Some (VFloat (i2f x))
  | NInt, NDouble, VInt x => Some (VDouble (i2d x))
  | NLong, NInt, VLong x => Some (VInt (s32 x))
  | NLong, NFloat, VLong x => Some (VFloat (l2f x))
  | NLong, NDouble, VLong x => Some (VDouble (l2d x))
  | NFloat, NInt, VFloat x => Some (VInt (f2i x))
  | NFloat, NLong, VFloat x => Some (VLong (f2l x))
  | NFloat, NDouble, VFloat x => Some (VDouble (f2d x))
  | NDouble, NInt, VDouble x => Some (VInt (d2i x))
  | NDouble, NLong, VDouble x => Some (VLong (d2l x))
  | NDouble, NFloat, VDouble x => Some (VFloat (d2f x))
  | _, _, _ => None
  end.
Definition jtrunc (t : vm_type) (x : Z) : option Z :=
  match t with J_BYTE => Some (s8 x) | J_CHAR => Some (u16 x) | J_SHORT => Some (s16 x) | _ => None end.
Definition jfcmp (double : bool) (unordered : Z) (x y : val) : option val :=
  match double, x, y with
  | false, VFloat x, VFloat y => Some (VInt (from_option sign unordered (fcompare x y)))
  | true, VDouble x, VDouble y => Some (VInt (from_option sign unordered (dcompare x y)))
  | _, _, _ => None
  end.
Definition test (c : cond) (x y : Z) : bool :=
  match c with
  | CEq => bool_decide (x = y) | CNe => bool_decide (x ≠ y) | CLt => bool_decide (x < y)
  | CGe => bool_decide (y <= x) | CGt => bool_decide (y < x) | CLe => bool_decide (x <= y)
  end.
Definition push_some (s : jstate) (st : list val) (o : option val) : out :=
  match o with Some v => push s st v | None => Undef end.
Definition branch (s : jstate) (st : list val) (b : bool) (target : Z) : out :=
  Done (if b then JJump target else JNext) (JS (j_locals s) st (j_world s)).

(** *** Constants and calls *)

(** A reference to an object the compiler knows is its address. *)
Definition object_ref (a : Z) : option val := if decide (0 <= a < 2 ^ 64) then Some (VRef a) else None.

Definition constant_value (idx : Z) : option val :=
  if cafebabe_class_constant_index_invalid resolver_class idx then None else
  cp ← mjoin (constant_pool resolver_class !! Z.to_nat idx);
  match cp with
  | CPInteger b => Some (VInt (s32 b))
  | CPFloat b => Some (VFloat (f_of_bits b))
  | CPString string_index =>
    match cafebabe_class_constant_get_utf8 resolver_class string_index tt with
    | Done u _ => vm_object_alloc_string_from_utf8 (bytes_data (utf8_bytes u)) (utf8_length u) ≫= object_ref
    | _ => None
    end
  | CPLong h l => Some (VLong (s64 (2 ^ 32 * h + l)))
  | CPDouble h l => Some (VDouble (d_of_bits l h))
  | CPClass _ =>
    c ← vm_class_resolve_class idx;
    if decide (vm_class_ensure_object c = 0) then object_ref (class_object c) else None
  | _ => None
  end.

(** The values of the arguments, taken off the stack from the last to the first. *)
Fixpoint pop_values (types : list vm_type) (st : list val) : option (list val * list val) :=
  match types with
  | [] => Some ([], st)
  | t :: types' =>
    match st with
    | [] => None
    | v :: st' =>
      if decide (val_type v = mimic_stack_type t) then
        '(l, rest) ← pop_values types' st'; Some (l ++ [v], rest)
      else None
    end
  end.
Definition pop_arguments (m : vm_callee) (st : list val) : option (list val * list val) :=
  '(l, rest) ← pop_values (rev (callee_args m)) st;
  if vm_method_is_static m then Some (l, rest) else
  match rest with
  | VRef r :: rest' => Some (VRef r :: l, rest')
  | _ => None
  end.
(** A static native method of the Java native interface gets its class before its
    arguments. *)
Definition callee_values (m : vm_callee) (l : list val) : list val :=
  if vm_method_is_jni m && vm_method_is_static m then VRef (callee_class_object m) :: l else l.

Definition call_target (k : jcall) (idx : Z) : option vm_callee :=
  m ← match k with
      | CallVirtual => vm_class_resolve_method_recursive idx 0
      | CallSpecial | CallStatic => vm_class_resolve_method_recursive idx CAFEBABE_CLASS_ACC_STATIC
      | CallInterface => vm_class_resolve_interface_method_recursive idx
      end;
  if decide (vm_method_is_static m = match k with CallStatic => true | _ => false end) then Some m else None.
Definition call_type (k : jcall) : invoke_type :=
  match k with CallVirtual => STMT_INVOKEVIRTUAL | CallInterface => STMT_INVOKEINTERFACE | _ => STMT_INVOKE end.

Definition push_result (t : vm_type) (v : option val) (st : list val) (s : jstate) : out :=
  match t, v with
  | J_VOID, None => with_stack s st
  | J_VOID, Some _ | _, None => Undef
  | t, Some v => push_typed s st (mimic_stack_type t) v
  end.
Definition jinvoke (k : jcall) (idx : Z) (s : jstate) : out :=
  match call_target k idx with
  | None => Undef
  | Some m =>
    match pop_arguments m (j_stack s) with
    | None => Undef
    | Some (l, st) =>
      match k, l with
      | CallSpecial, VRef 0 :: _ => throw NullPointerException s
      | _, _ => heap_do (call (call_type k) m (callee_values m l)) s (λ v, push_result (vm_method_return_type m) v st)
      end
    end
  end.

(** The sizes of the dimensions, in the order they were pushed. *)
Fixpoint pop_ints (n : nat) (st : list val) : option (list Z * list val) :=
  match n, st with
  | O, _ => Some ([], st)
  | S n', VInt z :: st' => '(l, rest) ← pop_ints n' st'; Some (l ++ [z], rest)
  | _, _ => None
  end.

(** *** Objects *)

(** The name of the class of arrays of a class: characters 91, 76 and 59 are an opening
    bracket, an L and a semicolon. *)
Definition array_class_name (name : list Z) : list Z :=
  match name with 91 :: _ => 91 :: name | _ => 91 :: 76 :: name ++ [59] end.

Definition not_null (r : Z) (s : jstate) (k : out) : out :=
  if decide (r = 0) then throw NullPointerException s else k.

Definition jarray (s : jstate) (r i : Z) (k : out) : out :=
  not_null r s
    match array_length r (j_world s) with
    | None => Undef
    | Some n => if decide (0 <= i < n) then k else throw ArrayIndexOutOfBoundsException s
    end.
Definition of_world (s : jstate) (w : world) (st : list val) : out := Done JNext (JS (j_locals s) st w).

Definition jfield (idx : Z) (k : vm_field → out) : out :=
  match vm_class_resolve_field_recursive idx with Some f => k f | None => Undef end.
Definition jclass (idx : Z) (k : class_ptr → out) : out :=
  match vm_class_resolve_class idx with Some c => k c | None => Undef end.
Definition alloc_push (m : M world exc Z) (st : list val) (s : jstate) : out := heap_do m s (λ r s, push s st (VRef r)).

(** *** The stack instructions, by the size of the operands *)

Definition jstack (i : jinsn) (st : list val) : option (list val) :=
  match i, pair_val <$> st, st with
  | JPop, false :: _, _ :: st => Some st
  | JPop2, true :: _, _ :: st => Some st
  | JPop2, false :: false :: _, _ :: _ :: st => Some st
  | JDup, false :: _, v :: st => Some (v :: v :: st)
  | JDup_x1, false :: false :: _, v1 :: v2 :: st => Some (v1 :: v2 :: v1 :: st)
  | JDup_x2, false :: true :: _, v1 :: v2 :: st => Some (v1 :: v2 :: v1 :: st)
  | JDup_x2, false :: false :: false :: _, v1 :: v2 :: v3 :: st => Some (v1 :: v2 :: v3 :: v1 :: st)
  | JDup2, true :: _, v :: st => Some (v :: v :: st)
  | JDup2, false :: false :: _, v1 :: v2 :: st => Some (v1 :: v2 :: v1 :: v2 :: st)
  | JDup2_x1, true :: false :: _, v1 :: v2 :: st => Some (v1 :: v2 :: v1 :: st)
  | JDup2_x1, false :: false :: false :: _, v1 :: v2 :: v3 :: st => Some (v1 :: v2 :: v3 :: v1 :: v2 :: st)
  | JDup2_x2, true :: true :: _, v1 :: v2 :: st => Some (v1 :: v2 :: v1 :: st)
  | JDup2_x2, true :: false :: false :: _, v1 :: v2 :: v3 :: st => Some (v1 :: v2 :: v3 :: v1 :: st)
  | JDup2_x2, false :: false :: true :: _, v1 :: v2 :: v3 :: st => Some (v1 :: v2 :: v3 :: v1 :: v2 :: st)
  | JDup2_x2, false :: false :: false :: false :: _, v1 :: v2 :: v3 :: v4 :: st =>
    Some (v1 :: v2 :: v3 :: v4 :: v1 :: v2 :: st)
  | JSwap, false :: false :: _, v1 :: v2 :: st => Some (v2 :: v1 :: st)
  | _, _, _ => None
  end.

Definition jexec (pc : Z) (i : jinsn) (s : jstate) : out :=
  let st := j_stack s in
  match i, st with
  | JNop, _ => Done JNext s
  | JNull, _ => push s st (VRef 0)
  | JInt z, _ => push s st (VInt z)
  | JLong z, _ => push s st (VLong z)
  | JFloat z, _ => push s st (VFloat (i2f z))
  | JDouble z, _ => push s st (VDouble (i2d z))
  | JLdc wide idx, _ =>
    match constant_value idx with
    | Some v => if decide (pair_val v = wide) then push s st v else Undef
    | None => Undef
    end
  | JLoad t idx, _ => match j_locals s !! idx with Some v => push_typed s st t v | None => Undef end
  | JStore t idx, v :: st =>
    if decide (val_type v = t) then Done JNext (JS (set_local idx v (j_locals s)) st (j_world s)) else Undef
  | JArrayLoad t, VInt i :: VRef r :: st =>
    jarray s r i match array_get t r i (j_world s) with Some v => push_typed s st (mimic_stack_type t) v | None => Undef end
  | JArrayStore t, v :: VInt i :: VRef r :: st =>
    if decide (val_type v = mimic_stack_type t) then
      jarray s r i
        match array_store_ok r v (j_world s) with
        | None => Undef
        | Some ok => if (ok : bool) then of_world s (array_put t r i v (j_world s)) st else throw ArrayStoreException s
        end
    else Undef
  | (JPop | JPop2 | JDup | JDup_x1 | JDup_x2 | JDup2 | JDup2_x1 | JDup2_x2 | JSwap), _ =>
    match jstack i st with Some st => with_stack s st | None => Undef end
  | JArith n a, y :: x :: st => jarith n a s st x y
  | JNeg n, x :: st => push_some s st (jneg n x)
  | JShift wide k, y :: x :: st => push_some s st (jshift wide k x y)
  | JLogic wide k, y :: x :: st => push_some s st (jlogic wide k x y)
  | JIinc idx c, _ =>
    match j_locals s !! idx with
    | Some (VInt x) => Done JNext (JS (set_local idx (VInt (s32 (x + c))) (j_locals s)) st (j_world s))
    | _ => Undef
    end
  | JConv from to, x :: st => push_some s st (jconv from to x)
  | JTrunc t, VInt x :: st => push_some s st (VInt <$> jtrunc t x)
  | JLcmp, VLong y :: VLong x :: st => push s st (VInt (sign (Z.compare x y)))
  | JFcmp double unordered, y :: x :: st => push_some s st (jfcmp double unordered x y)
  | JIf c off, VInt x :: st => branch s st (test c x 0) (pc + off)
  | JIfIcmp c off, VInt y :: VInt x :: st => branch s st (test c x y) (pc + off)
  | JIfAcmp c off, VRef y :: VRef x :: st => branch s st (test c x y) (pc + off)
  | JIfNull c off, VRef x :: st => branch s st (test c x 0) (pc + off)
  | JGoto off, _ => Done (JJump (pc + off)) s
  | JReturn (Some t), v :: _ => if decide (val_type v = t) then Done (JRet (Some v)) s else Undef
  | JReturn None, _ => Done (JRet None) s
  | JGetstatic idx, _ =>
    jfield idx (λ f, heap_do (get_static f) s (λ v s, push_typed s st (mimic_stack_type (vm_field_type f)) v))
  | JPutstatic idx, v :: st =>
    jfield idx (λ f, if decide (val_type v = mimic_stack_type (vm_field_type f))
                     then heap_do (put_static f v) s (λ _ s, with_stack s st) else Undef)
  | JGetfield idx, VRef r :: st =>
    jfield idx (λ f, not_null r s
      match get_field f r (j_world s) with
      | Some v => push_typed s st (mimic_stack_type (vm_field_type f)) v
      | None => Undef
      end)
  | JPutfield idx, v :: VRef r :: st =>
    jfield idx (λ f, if decide (val_type v = mimic_stack_type (vm_field_type f))
                     then not_null r s (of_world s (put_field f r v (j_world s)) st) else Undef)
  | JInvoke k idx, _ => jinvoke k idx s
  | JNew idx, _ => jclass idx (λ c, alloc_push (new_object c) st s)
  | JNewarray t, VInt n :: st =>
    if decide (n < 0) then throw NegativeArraySizeException s else alloc_push (new_array t n) st s
  | JAnewarray idx, VInt n :: st =>
    jclass idx (λ c,
      match classloader_load c (array_class_name (class_name c)) with
      | None => Undef
      | Some a => if decide (n < 0) then throw NegativeArraySizeException s else alloc_push (anew_array a n) st s
      end)
  | JMultianewarray idx dims, _ =>
    jclass idx (λ c,
      match pop_ints (Z.to_nat dims) st with
      | Some (l, st) => alloc_push (multianew_array c l) st s
      | None => Undef
      end)
  | JArraylength, VRef r :: st =>
    not_null r s match array_length r (j_world s) with Some n => push s st (VInt n) | None => Undef end
  | JAthrow, VRef r :: _ => not_null r s (throw (Thrown r) s)
  | JCheckcast idx, VRef r :: _ =>
    jclass idx (λ c,
      if decide (r = 0) then Done JNext s else
      match instance_of r c (j_world s) with
      | Some b => if (b : bool) then Done JNext s else throw ClassCastException s
      | None => Undef
      end)
  | JInstanceof idx, VRef r :: st =>
    jclass idx (λ c,
      if decide (r = 0) then push s st (VInt 0) else
      match instance_of r c (j_world s) with
      | Some b => push s st (VInt (Z.b2z b))
      | None => Undef
      end)
  | JMonitorenter, VRef r :: st => not_null r s (heap_do (monitor_enter r) s (λ _ s, with_stack s st))
  | JMonitorexit, VRef r :: st => not_null r s (heap_do (monitor_exit r) s (λ _ s, with_stack s st))
  | _, _ => Undef
  end.
End exec.
