(* ===== verification/TreeSem.v ===== *)
(** * The meaning of the trees of the intermediate representation

    Expressions are evaluated from left to right, on the local variables, the variables of
    temporaries, the slots of the mimic stack, the exception of a handler and the heap;
    statements run in order until one of them jumps, returns or throws.  The operators are
    those of the Java Language Specification that include/jit/expression.h refers to.  Only
    what an operation checks by a node of its own is checked: an array access outside the
    array, or a field of null, is stuck. *)

From S2P Require Import Prelude CMonad Types Tree Convert JavaMachine.
From stdpp Require Import gmap.
#[local] Open Scope Z_scope.

Section sem.
Context `{JavaHeap}.

(** ** States *)

Record env := Env {
  e_locals : gmap Z val;
  e_temps : gmap nat val;
  e_slots : gmap (bool * Z) val;
  e_exception : val;
}.

Definition E (A : Type) : Type := M world exc A.
Definition stuck_or {A} (o : option A) : E A := match o with Some a => ret a | None => undef end.
(** A read of the heap. *)
Definition heap_read {A} (f : world → option A) : E A := λ w, match f w with Some a => Done a w | None => Undef end.

(** ** Operators *)

Definition z_or {A} (o : option A) (x : exc) : E A := match o with Some a => ret a | None => fail x end.

Definition int_op (op : binary_operator) (x y : Z) : E val :=
  match op with
  | OP_ADD => ret (VInt (s32 (x + y)))
  | OP_SUB => ret (VInt (s32 (x - y)))
  | OP_MUL => ret (VInt (s32 (x * y)))
  | OP_DIV => let* z := z_or (div32 x y) ArithmeticException in ret (VInt z)
  | OP_REM => let* z := z_or (rem32 x y) ArithmeticException in ret (VInt z)
  | OP_SHL => ret (VInt (shl32 x y))
  | OP_SHR => ret (VInt (shr32 x y))
  | OP_USHR => ret (VInt (ushr32 x y))
  | OP_AND => ret (VInt (Z.land x y))
  | OP_OR => ret (VInt (Z.lor x y))
  | OP_XOR => ret (VInt (Z.lxor x y))
  | _ => undef
  end.
Definition long_op (op : binary_operator) (x y : Z) : E val :=
  match op with
  | OP_ADD => ret (VLong (s64 (x + y)))
  | OP_SUB => ret (VLong (s64 (x - y)))
  | OP_MUL_64 => ret (VLong (s64 (x * y)))
  | OP_DIV_64 => let* z := z_or (div64 x y) ArithmeticException in ret (VLong z)
  | OP_REM_64 => let* z := z_or (rem64 x y) ArithmeticException in ret (VLong z)
  | OP_AND => ret (VLong (Z.land x y))
  | OP_OR => ret (VLong (Z.lor x y))
  | OP_XOR => ret (VLong (Z.lxor x y))
  | _ => undef
  end.
Definition shift_op (op : binary_operator) (x y : Z) : E val :=
  match op with
  | OP_SHL_64 => ret (VLong (shl64 x y))
  | OP_SHR_64 => ret (VLong (shr64 x y))
  | OP_USHR_64 => ret (VLong (ushr64 x y))
  | _ => undef
  end.
Definition float_op (op : binary_operator) (x y : f32) : E val :=
  match op with
  | OP_FADD => ret (VFloat (fadd x y))
  | OP_FSUB => ret (VFloat (fsub x y))
  | OP_FMUL => ret (VFloat (fmul x y))
  | OP_FDIV => ret (VFloat (fdiv x y))
  | OP_FREM => ret (VFloat (frem x y))
  | _ => undef
  end.
Definition double_op (op : binary_operator) (x y : f64) : E val :=
  match op with
  | OP_DADD => ret (VDouble (dadd x y))
  | OP_DSUB => ret (VDouble (dsub x y))
  | OP_DMUL => ret (VDouble (dmul x y))
  | OP_DDIV => ret (VDouble (ddiv x y))
  | OP_DREM => ret (VDouble (drem x y))
  | _ => undef
  end.
(** A three-way comparison; [OP_CMPL] and [OP_CMPG] differ on operands without order. *)
Definition compare_op (op : binary_operator) (x y : val) : E val :=
  match op, x, y with
  | OP_CMP, VLong x, VLong y => ret (VInt (sign (Z.compare x y)))
  | OP_CMPL, VFloat x, VFloat y => ret (VInt (from_option sign (-1) (fcompare x y)))
  | OP_CMPL, VDouble x, VDouble y => ret (VInt (from_option sign (-1) (dcompare x y)))
  | OP_CMPG, VFloat x, VFloat y => ret (VInt (from_option sign 1 (fcompare x y)))
  | OP_CMPG, VDouble x, VDouble y => ret (VInt (from_option sign 1 (dcompare x y)))
  | _, _, _ => undef
  end.
Definition binop (t : vm_type) (op : binary_operator) (x y : val) : E val :=
  match op with
  | OP_CMP | OP_CMPL | OP_CMPG => if decide (t = J_INT) then compare_op op x y else undef
  | _ =>
    match t, x, y with
    | J_INT, VInt x, VInt y => int_op op x y
    | J_LONG, VLong x, VLong y => long_op op x y
    | J_LONG, VLong x, VInt y => shift_op op x y
    | J_FLOAT, VFloat x, VFloat y => float_op op x y
    | J_DOUBLE, VDouble x, VDouble y => double_op op x y
    | _, _, _ => undef
    end
  end.
Definition unop (op : unary_operator) (x : val) : E val :=
  match op, x with
  | OP_NEG, VInt x => ret (VInt (s32 (- x)))
  | OP_NEG, VLong x => ret (VLong (s64 (- x)))
  | OP_FNEG, VFloat x => ret (VFloat (fneg x))
  | OP_DNEG, VDouble x => ret (VDouble (dneg x))
  | _, _ => undef
  end.

(** The conditions of a branch: integers, addresses, and an address with the integer zero. *)
Definition number (v : val) : option Z :=
  match v with
  | VInt z | VRef z | VLong z => Some z
  | VTarget None => Some 0
  | VTarget (Some _) => Some 1
  | _ => None
  end.
Definition condition (op : binary_operator) (x y : Z) : option bool :=
  match op with
  | OP_EQ => Some (bool_decide (x = y)) | OP_NE => Some (bool_decide (x ≠ y)) | OP_LT => Some (bool_decide (x < y))
  | OP_GE => Some (bool_decide (y <= x)) | OP_GT => Some (bool_decide (y < x)) | OP_LE => Some (bool_decide (x <= y))
  | _ => None
  end.

(** ** Conversions *)

Definition int_conversion (t : vm_type) (x : val) : option val :=
  match t, x with
  | J_LONG, VInt x => Some (VLong x)
  | J_INT, VLong x => Some (VInt (s32 x))
  | _, _ => None
  end.
Definition to_float (x : val) : option val :=
  match x with VInt x => Some (VFloat (i2f x)) | VLong x => Some (VFloat (l2f x)) | _ => None end.
Definition to_double (x : val) : option val :=
  match x with VInt x => Some (VDouble (i2d x)) | VLong x => Some (VDouble (l2d x)) | _ => None end.
Definition from_float (t : vm_type) (x : val) : option val :=
  match t, x with
  | J_INT, VFloat x => Some (VInt (f2i x)) | J_LONG, VFloat x => Some (VLong (f2l x)) | _, _ => None
  end.
Definition from_double (t : vm_type) (x : val) : option val :=
  match t, x with
  | J_INT, VDouble x => Some (VInt (d2i x)) | J_LONG, VDouble x => Some (VLong (d2l x)) | _, _ => None
  end.
Definition truncate (t : vm_type) (x : val) : option val :=
  match t, x with
  | J_BYTE, VInt x => Some (VInt (s8 x)) | J_CHAR, VInt x => Some (VInt (u16 x)) | J_SHORT, VInt x => Some (VInt (s16 x))
  | _, _ => None
  end.

Definition double_value (d : double) : f64 :=
  match d with DInt n => i2d n | DFloatBits b => f2d (f_of_bits b) | DDoubleBits l h => d_of_bits l h end.

Definition as_ref (v : val) : E Z := match v with VRef r => ret r | _ => undef end.
Definition as_int (v : val) : E Z := match v with VInt z => ret z | _ => undef end.
Definition typed (t : vm_type) (v : val) : E val := if decide (val_type v = t) then ret v else undef.

(** [bsearch] of the C library with [lookupswitch_pair_comp], on the entries from [lo] to
    [hi]; a comparison that overflows is stuck.  [n] bounds the steps. *)
Fixpoint bsearch (n : nat) (l : list lookupswitch_pair) (key : Z) (lo hi : nat) : option (option (option nat)) :=
  match n with
  | O => None
  | S n' =>
    if decide (lo < hi)%nat then
      let mid := ((lo + hi) / 2)%nat in
      p ← l !! mid;
      d ← lookupswitch_pair_comp key p;
      if decide (d < 0) then bsearch n' l key lo mid
      else if decide (0 < d) then bsearch n' l key (S mid) hi
      else Some (Some (bb_target p))
    else Some None
  end.
Definition search (table : lookupswitch) (key : Z) : option (option (option nat)) :=
  bsearch (S (length (pairs table))) (pairs table) key 0 (length (pairs table)).

(** ** Expressions *)

Section eval.
Context (nodes : list shared) (ρ : env).

Definition shared_value (n : nat) : option val :=
  x ← nodes !! n;
  match sh_kind x with
  | EXPR_TEMPORARY v | EXPR_FLOAT_TEMPORARY v => e_temps ρ !! v
  | EXPR_MIMIC_STACK_SLOT entry ndx => e_slots ρ !! (entry, ndx)
  end.

Fixpoint eval (e : expression) : E val :=
  match e with
  | EXPR_VALUE J_INT v => ret (VInt (s32 v))
  | EXPR_VALUE J_LONG v => ret (VLong (s64 v))
  | EXPR_VALUE J_REFERENCE v => ret (VRef v)
  | EXPR_FVALUE J_FLOAT d => ret (VFloat (d2f (double_value d)))
  | EXPR_FVALUE J_DOUBLE d => ret (VDouble (double_value d))
  | EXPR_LOCAL t i | EXPR_FLOAT_LOCAL t i => let* v := stuck_or (e_locals ρ !! i) in typed t v
  | EXPR_SHARED n => stuck_or (shared_value n)
  | EXPR_ARRAY_DEREF t a i =>
    let* a := eval a in
    let* i := eval i in
    let* a := as_ref a in
    let* i := as_int i in
    let* v := heap_read (array_get t a i) in
    typed (mimic_stack_type t) v
  | EXPR_BINOP t op l r => let* x := eval l in let* y := eval r in binop t op x y
  | EXPR_UNARY_OP t op x => let* v := eval x in unop op v
  | EXPR_CONVERSION t x => let* v := eval x in stuck_or (int_conversion t v)
  | EXPR_CONVERSION_FLOAT_TO_DOUBLE x =>
    let* v := eval x in match v with VFloat f => ret (VDouble (f2d f)) | _ => undef end
  | EXPR_CONVERSION_DOUBLE_TO_FLOAT x =>
    let* v := eval x in match v with VDouble d => ret (VFloat (d2f d)) | _ => undef end
  | EXPR_CONVERSION_FROM_FLOAT t x => let* v := eval x in stuck_or (from_float t v)
  | EXPR_CONVERSION_TO_FLOAT t x => let* v := eval x in stuck_or (to_float v)
  | EXPR_CONVERSION_FROM_DOUBLE t x => let* v := eval x in stuck_or (from_double t v)
  | EXPR_CONVERSION_TO_DOUBLE t x => let* v := eval x in stuck_or (to_double v)
  | EXPR_TRUNCATION t x => let* v := eval x in stuck_or (truncate t v)
  | EXPR_CLASS_FIELD t f | EXPR_FLOAT_CLASS_FIELD t f => let* v := get_static f in typed (mimic_stack_type t) v
  | EXPR_INSTANCE_FIELD t f o | EXPR_FLOAT_INSTANCE_FIELD t f o =>
    let* o := eval o in
    let* r := as_ref o in
    if decide (r = 0) then undef else
    let* v := heap_read (get_field f r) in typed (mimic_stack_type t) v
  | EXPR_NEW c => let* r := new_object c in ret (VRef r)
  | EXPR_NEWARRAY t n => let* n := eval n in let* n := as_int n in let* r := new_array t n in ret (VRef r)
  | EXPR_ANEWARRAY c n => let* n := eval n in let* n := as_int n in let* r := anew_array c n in ret (VRef r)
  | EXPR_MULTIANEWARRAY c args =>
    let* l := eval_args args in
    let* l := stuck_or (mapM (λ v, match v with VInt z => Some z | _ => None end) l) in
    let* r := multianew_array c l in ret (VRef r)
  | EXPR_ARRAYLENGTH a => let* a := eval a in let* r := as_ref a in let* n := heap_read (array_length r) in ret (VInt n)
  | EXPR_INSTANCEOF c o =>
    let* o := eval o in
    let* r := as_ref o in
    if decide (r = 0) then ret (VInt 0) else
    let* b := heap_read (instance_of r c) in ret (VInt (Z.b2z b))
  | EXPR_EXCEPTION_REF => ret (e_exception ρ)
  | EXPR_NULL_CHECK x =>
    let* v := eval x in
    let* r := as_ref v in
    if decide (r = 0) then fail NullPointerException else ret v
  | EXPR_ARRAY_SIZE_CHECK x =>
    let* v := eval x in
    let* n := as_int v in
    if decide (n < 0) then fail NegativeArraySizeException else ret v
  | EXPR_LOOKUPSWITCH_BSEARCH key table =>
    let* k := eval key in let* k := as_int k in let* o := stuck_or (search table k) in ret (VTarget o)
  | _ => undef
  end
(** The arguments of a call, from the first to the last; the tree has the last one first. *)
with eval_args (e : expression) : E (list val) :=
  match e with
  | EXPR_NO_ARGS => ret []
  | EXPR_ARG _ _ x | EXPR_ARG_THIS _ x => let* v := eval x in ret [v]
  | EXPR_ARGS_LIST l r => let* vl := eval_args l in let* vr := eval_args r in ret (vr ++ vl)
  | _ => undef
  end.
End eval.

(** ** Statements *)

Record istate := IS { i_env : env; i_world : world }.

Inductive ictl : Type :=
  | INext
  | IJump (b : option nat)
  | IRet (v : option val).

Definition X (A : Type) : Type := M istate exc A.

Definition on_world {A} (m : E A) : X A := λ s,
  match m (i_world s) with
  | Done a w => Done a (IS (i_env s) w)
  | Fail x w => Fail x (IS (i_env s) w)
  | Undef => Undef
  end.
Definition update_env (f : env → env) : X unit := modify (λ s, IS (f (i_env s)) (i_world s)).
Definition write_world (f : world → world) : X unit := modify (λ s, IS (i_env s) (f (i_world s))).

Definition set_env_local (i : Z) (v : val) (ρ : env) : env :=
  Env (<[i := v]> (e_locals ρ)) (e_temps ρ) (e_slots ρ) (e_exception ρ).
Definition set_env_temp (x : nat) (v : val) (ρ : env) : env :=
  Env (e_locals ρ) (<[x := v]> (e_temps ρ)) (e_slots ρ) (e_exception ρ).
Definition set_env_slot (k : bool * Z) (v : val) (ρ : env) : env :=
  Env (e_locals ρ) (e_temps ρ) (<[k := v]> (e_slots ρ)) (e_exception ρ).

Section exec.
Context (nodes : list shared).

Definition ev (e : expression) : X val := let* ρ := get i_env in on_world (eval nodes ρ e).
Definition ev_args (e : expression) : X (list val) := let* ρ := get i_env in on_world (eval_args nodes ρ e).

Definition assign_shared (n : nat) (v : val) : X unit :=
  match nodes !! n with
  | Some x =>
    match sh_kind x with
    | EXPR_TEMPORARY t | EXPR_FLOAT_TEMPORARY t => update_env (set_env_temp t v)
    | EXPR_MIMIC_STACK_SLOT entry ndx => update_env (set_env_slot (entry, ndx) v)
    end
  | None => undef
  end.

(** A store: the place first, then the value. *)
Definition exec_store (dest src : expression) : X unit :=
  match dest with
  | EXPR_LOCAL t i | EXPR_FLOAT_LOCAL t i => let* v := ev src in update_env (set_env_local i v)
  | EXPR_SHARED n => let* v := ev src in assign_shared n v
  | EXPR_CLASS_FIELD t f | EXPR_FLOAT_CLASS_FIELD t f => let* v := ev src in on_world (put_static f v)
  | EXPR_INSTANCE_FIELD t f o | EXPR_FLOAT_INSTANCE_FIELD t f o =>
    let* o := ev o in
    let* v := ev src in
    let* r := on_world (as_ref o) in
    if decide (r = 0) then undef else write_world (put_field f r v)
  | EXPR_ARRAY_DEREF t a i =>
    let* a := ev a in
    let* i := ev i in
    let* v := ev src in
    let* r := on_world (as_ref a) in
    let* i := on_world (as_int i) in
    let* n := on_world (heap_read (array_length r)) in
    if decide (0 <= i < n) then write_world (array_put t r i v) else undef
  | _ => undef
  end.

(** The result of a call; the type is that of the method. *)
Definition exec_result (t : vm_type) (dest : option expression) (v : option val) : X unit :=
  match dest, v with
  | None, None => ret tt
  | Some (EXPR_SHARED n), Some v => let* v := on_world (typed (mimic_stack_type t) v) in assign_shared n v
  | _, _ => undef
  end.

Definition exec_stmt (s : statement) : X ictl :=
  match s with
  | STMT_STORE dest src => do exec_store dest src ;; ret INext
  | STMT_IF (EXPR_BINOP _ op l r) b =>
    let* x := ev l in
    let* y := ev r in
    let* x := on_world (stuck_or (number x)) in
    let* y := on_world (stuck_or (number y)) in
    let* c := on_world (stuck_or (condition op x y)) in
    ret (if (c : bool) then IJump b else INext)
  | STMT_IF _ _ => undef
  | STMT_GOTO b => ret (IJump b)
  | STMT_RETURN e => let* v := ev e in ret (IRet (Some v))
  | STMT_VOID_RETURN => ret (IRet None)
  | STMT_EXPRESSION e => do ev e ;; ret INext
  | STMT_ARRAY_CHECK (EXPR_ARRAY_DEREF _ a i) =>
    let* a := ev a in
    let* i := ev i in
    let* r := on_world (as_ref a) in
    let* i := on_world (as_int i) in
    let* n := on_world (heap_read (array_length r)) in
    if decide (0 <= i < n) then ret INext else fail ArrayIndexOutOfBoundsException
  | STMT_ARRAY_CHECK _ => undef
  | STMT_ATHROW e => let* v := ev e in let* r := on_world (as_ref v) in fail (Thrown r)
  | STMT_MONITOR_ENTER e => let* v := ev e in let* r := on_world (as_ref v) in do on_world (monitor_enter r) ;; ret INext
  | STMT_MONITOR_EXIT e => let* v := ev e in let* r := on_world (as_ref v) in do on_world (monitor_exit r) ;; ret INext
  | STMT_CHECKCAST c e =>
    let* v := ev e in
    let* r := on_world (as_ref v) in
    if decide (r = 0) then ret INext else
    let* b := on_world (heap_read (instance_of r c)) in
    if (b : bool) then ret INext else fail ClassCastException
  | STMT_ARRAY_STORE_CHECK src a =>
    let* v := ev src in
    let* a := ev a in
    let* r := on_world (as_ref a) in
    let* b := on_world (heap_read (array_store_ok r v)) in
    if (b : bool) then ret INext else fail ArrayStoreException
  | STMT_TABLESWITCH e table =>
    let* v := ev e in
    let* i := on_world (as_int v) in
    if decide (s32 (low table) <= i) then
      let* b := on_world (stuck_or (bb_lookup_table table !! Z.to_nat (i - s32 (low table)))) in ret (IJump b)
    else undef
  | STMT_LOOKUPSWITCH_JUMP e =>
    let* v := ev e in
    match v with VTarget (Some b) => ret (IJump b) | _ => undef end
  | STMT_BEFORE_ARGS _ => ret INext
  | STMT_CALL k m args result =>
    let* l := ev_args args in
    let* v := on_world (call k m l) in
    do exec_result (vm_method_return_type m) result v ;;
    ret INext
  end.

Fixpoint exec_stmts (l : list (Z * statement)) : X ictl :=
  match l with
  | [] => ret INext
  | (_, s) :: l' =>
    let* c := exec_stmt s in
    match c with INext => exec_stmts l' | _ => ret c end
  end.
End exec.
End sem.
