(* ===== verification/ConvertRun.v ===== *)
(** * Running the converters

    The conversion of the instructions of one block changes the unit only in a few places:
    the statements and the mimic stack of the block, the table of nodes, the variables, the
    context, the heap.  [Loc] has these, [mk] puts them into a unit, and [runs] says that a
    computation ends normally in a unit of that form.  The rules below run the primitives
    when memory suffices; every converter is run by them. *)

From S2P Require Import Prelude CMonad ConstantPool ClassFile Opcodes Bytecode Types BasicBlock Tree ArgsMap Convert.
From stdpp Require Import gmap.
#[local] Open Scope Z_scope.

Record loc := Loc {
  l_heap : mem;
  l_pos : Z;
  l_off : Z;
  l_opc : Z;
  l_wide : bool;
  l_stmts : list (Z * statement);
  l_stack : list expression;
  l_nodes : list shared;
  l_vars : list vm_type;
  l_arr : bool;
}.

Section runs.
Context `{Allocator} `{Resolver} (code : list Z).
Context (u : ir_unit) (b : nat).
Context (Hmem : always_ok).

Definition mk (L : loc) : ir_unit :=
  IU (set_heap (l_heap L) (cfg u))
     (<[b := BI (is_converted (ir_of u b)) (l_stmts L) (l_stack L) (mimic_stack_exprs (ir_of u b))]> (irs u))
     (l_nodes L) (l_vars L) (l_arr L) (tableswitch_list u) (lookupswitch_list u)
     (Ctx b (l_pos L) (l_off L) (l_opc L) (l_wide L)).

Definition runs {A} (m : K A) (L : loc) (Q : A → loc → Prop) : Prop :=
  ∃ a L', m (mk L) = Done a (mk L') ∧ Q a L'.

Lemma runs_mono {A} (m : K A) L (Q Q' : A → loc → Prop) : runs m L Q → (∀ a L', Q a L' → Q' a L') → runs m L Q'.
Proof. intros (a & L' & E & HQ) HQQ. exists a, L'. eauto. Qed.

Lemma runs_bind {A B} (m : K A) (f : A → K B) L Q : runs m L (λ a L', runs (f a) L' Q) → runs (bind m f) L Q.
Proof.
  intros (a & L' & E & a' & L'' & E' & HQ). exists a', L''. split; [|done]. unfold bind. by rewrite E.
Qed.
Lemma runs_ret {A} (a : A) L Q : Q a L → runs (ret a) L Q.
Proof. intros. by exists a, L. Qed.

Lemma ir_of_mk L : ir_of (mk L) b = BI (is_converted (ir_of u b)) (l_stmts L) (l_stack L) (mimic_stack_exprs (ir_of u b)).
Proof. unfold ir_of at 1. cbn. by rewrite lookup_insert_eq. Qed.

Lemma runs_get {A} (f : ir_unit → A) L Q : Q (f (mk L)) L → runs (get f) L Q.
Proof. intros. by exists (f (mk L)), L. Qed.
Lemma runs_must {A} (o : option A) (a : A) L Q : o = Some a → Q a L → runs (must o) L Q.
Proof. intros -> ?. by exists a, L. Qed.

Lemma runs_update_ir f h p o c w ss ss' M M' N V a Q :
  (∀ cv l, f (BI cv ss M l) = BI cv ss' M' l) →
  Q tt (Loc h p o c w ss' M' N V a) →
  runs (update_ir b f) (Loc h p o c w ss M N V a) Q.
Proof.
  intros Hf HQ. eexists tt, _. split; [|exact HQ].
  change (update_ir b f (mk (Loc h p o c w ss M N V a)))
    with (Done (E := stop) tt (set_irs (<[b := f (ir_of (mk (Loc h p o c w ss M N V a)) b)]> (irs (mk (Loc h p o c w ss M N V a))))
            (mk (Loc h p o c w ss M N V a)))).
  rewrite ir_of_mk. cbn [l_stmts l_stack]. rewrite Hf. unfold set_irs, mk. cbn. by rewrite insert_insert_eq.
Qed.
Lemma runs_update_ctx f h p p' o o' c c' w w' ss M N V a Q :
  f (Ctx b p o c w) = Ctx b p' o' c' w' →
  Q tt (Loc h p' o' c' w' ss M N V a) →
  runs (update_ctx f) (Loc h p o c w ss M N V a) Q.
Proof.
  intros Hf HQ. eexists tt, _. split; [|exact HQ]. unfold update_ctx, modify, set_ctx, mk. cbn. by rewrite Hf.
Qed.

(** ** The heap and the tables *)

Lemma runs_request sz h p o c w ss M N V a (Q : bool → loc → Prop) :
  (∀ h', Q true (Loc h' p o c w ss M N V a)) →
  runs (on_cfg (request sz)) (Loc h p o c w ss M N V a) Q.
Proof using Hmem.
  intros HQ. unfold runs, on_cfg, request, mem_malloc. cbn -[bool_decide]. rewrite (Hmem _ sz).
  rewrite bool_decide_eq_true_2 by done. eexists true, _. split; [|apply HQ]. done.
Qed.
Lemma runs_alloc_expression e h p o c w ss M N V a (Q : option expression → loc → Prop) :
  (∀ h', Q (Some e) (Loc h' p o c w ss M N V a)) →
  runs (alloc_expression e) (Loc h p o c w ss M N V a) Q.
Proof using Hmem. intros HQ. apply runs_bind, runs_request. intros. by apply runs_ret. Qed.
Lemma runs_alloc_statement h p o c w ss M N V a (Q : bool → loc → Prop) :
  (∀ h', Q true (Loc h' p o c w ss M N V a)) →
  runs alloc_statement (Loc h p o c w ss M N V a) Q.
Proof using Hmem. apply runs_request. Qed.

Definition temp_node (t : vm_type) (v : nat) : shared :=
  Shared t (if vm_type_is_float t then EXPR_FLOAT_TEMPORARY v else EXPR_TEMPORARY v).
Lemma runs_temporary_expr t h p o c w ss M N V a (Q : option expression → loc → Prop) :
  (∀ h', Q (Some (EXPR_SHARED (length N))) (Loc h' p o c w ss M (N ++ [temp_node t (length V)]) (V ++ [t]) a)) →
  runs (temporary_expr t) (Loc h p o c w ss M N V a) Q.
Proof using Hmem.
  intros HQ. apply runs_bind, runs_request. intros h'. eexists _, _. split; [|apply (HQ h')]. reflexivity.
Qed.
Lemma runs_type_of e t h p o c w ss M N V a Q :
  vm_type_of N e = Some t → Q t (Loc h p o c w ss M N V a) → runs (type_of e) (Loc h p o c w ss M N V a) Q.
Proof. intros Ht HQ. apply runs_bind, runs_get. by apply (runs_must _ t). Qed.

(** ** The block *)

Lemma runs_pop e h p o c w ss M N V a (Q : expression → loc → Prop) :
  Q e (Loc h p o c w ss M N V a) → runs stack_pop (Loc h p o c w ss (e :: M) N V a) Q.
Proof.
  intros HQ. apply runs_bind, runs_get. apply runs_bind, runs_get. cbn -[mk ir_of]. rewrite ir_of_mk. cbn.
  apply runs_bind. eapply runs_update_ir; [intros; unfold set_mimic, set_stmts; cbn; reflexivity|]. by apply runs_ret.
Qed.
Lemma runs_peek e h p o c w ss M N V a (Q : expression → loc → Prop) :
  Q e (Loc h p o c w ss (e :: M) N V a) → runs stack_peek (Loc h p o c w ss (e :: M) N V a) Q.
Proof.
  intros HQ. apply runs_bind, runs_get. cbn -[mk ir_of]. rewrite ir_of_mk. cbn. by apply runs_ret.
Qed.
Lemma runs_push_on e h p o c w ss M N V a (Q : unit → loc → Prop) :
  (∀ h', Q tt (Loc h' p o c w ss (e :: M) N V a)) → runs (push_on b e) (Loc h p o c w ss M N V a) Q.
Proof using Hmem.
  intros HQ. apply runs_bind, runs_get. apply runs_bind, runs_request. intros h'. cbn.
  eapply runs_update_ir; [intros; unfold set_mimic, set_stmts; cbn; reflexivity|]. apply HQ.
Qed.
Lemma runs_push e h p o c w ss M N V a (Q : unit → loc → Prop) :
  (∀ h', Q tt (Loc h' p o c w ss (e :: M) N V a)) → runs (stack_push e) (Loc h p o c w ss M N V a) Q.
Proof using Hmem. intros HQ. apply runs_bind, runs_get. by apply runs_push_on. Qed.
Lemma runs_clear h p o c w ss M N V a (Q : unit → loc → Prop) :
  Q tt (Loc h p o c w ss [] N V a) → runs clear_mimic_stack (Loc h p o c w ss M N V a) Q.
Proof. intros HQ. apply runs_bind, runs_get. by eapply runs_update_ir; [intros; unfold set_mimic, set_stmts; cbn; reflexivity|]. Qed.
Lemma runs_statement s h p o c w ss M N V a (Q : unit → loc → Prop) :
  Q tt (Loc h p o c w (ss ++ [(o, s)]) M N V a) → runs (convert_statement s) (Loc h p o c w ss M N V a) Q.
Proof. intros HQ. apply runs_bind, runs_get. by eapply runs_update_ir; [intros; unfold set_mimic, set_stmts; cbn; reflexivity|]. Qed.

(** ** Expressions *)

(** What a push makes of the nodes and the expression. *)
Definition pushed_nodes (e : expression) (t : vm_type) (N : list shared) : list shared :=
  match e with EXPR_SHARED n => alter (retype_node (mimic_stack_type t)) n N | _ => N end.
Definition pushed_expr (e : expression) (t : vm_type) : expression :=
  match e with EXPR_SHARED _ => e | _ => set_vm_type (mimic_stack_type t) e end.

Lemma runs_convert_expression e t h p o c w ss M N V a (Q : unit → loc → Prop) :
  vm_type_of N e = Some t →
  (∀ h', Q tt (Loc h' p o c w ss (pushed_expr e t :: M) (pushed_nodes e t N) V a)) →
  runs (convert_expression e) (Loc h p o c w ss M N V a) Q.
Proof using Hmem.
  intros Ht HQ. apply runs_bind. eapply runs_type_of; [exact Ht|].
  destruct e; try (apply runs_push; exact HQ).
  apply runs_bind. eexists tt, (Loc h p o c w ss M _ V a). split; [reflexivity|]. by apply runs_push.
Qed.
Lemma runs_push_expr e t h p o c w ss M N V a (Q : unit → loc → Prop) :
  vm_type_of N e = Some t →
  (∀ h', Q tt (Loc h' p o c w ss (pushed_expr e t :: M) (pushed_nodes e t N) V a)) →
  runs (push_expr (Some e)) (Loc h p o c w ss M N V a) Q.
Proof using Hmem. apply runs_convert_expression. Qed.
Lemma runs_expr_get e h p o c w ss M N V a (Q : expression → loc → Prop) :
  expr_is_pure e = true → Q e (Loc h p o c w ss M N V a) → runs (expr_get e) (Loc h p o c w ss M N V a) Q.
Proof. intros He HQ. unfold expr_get. rewrite He. by apply runs_ret. Qed.
Lemma runs_null_check e h p o c w ss M N V a (Q : option expression → loc → Prop) :
  vm_type_of N e = Some J_REFERENCE →
  (∀ h', Q (Some (EXPR_NULL_CHECK e)) (Loc h' p o c w ss M N V a)) →
  runs (null_check_expr e) (Loc h p o c w ss M N V a) Q.
Proof using Hmem.
  intros Ht HQ. apply runs_bind, runs_alloc_expression. intros h'. apply runs_bind. eapply runs_type_of; [exact Ht|].
  rewrite decide_True by done. by apply runs_ret.
Qed.
Lemma runs_dup_expr e t h p o c w ss M N V a (Q : expression → loc → Prop) :
  vm_type_of N e = Some t →
  (∀ h', Q (EXPR_SHARED (length N))
           (Loc h' p o c w (ss ++ [(o, STMT_STORE (EXPR_SHARED (length N)) e)]) M (N ++ [temp_node t (length V)]) (V ++ [t]) a)) →
  runs (dup_expr e) (Loc h p o c w ss M N V a) Q.
Proof using Hmem.
  intros Ht HQ. apply runs_bind. eapply runs_type_of; [exact Ht|]. apply runs_bind, runs_temporary_expr. intros h'.
  apply runs_bind. eapply runs_must; [done|]. apply runs_bind, runs_expr_get; [done|].
  apply runs_bind, runs_alloc_statement. intros h''. apply runs_bind, runs_statement. by apply runs_ret.
Qed.

(** ** Reading *)

Lemma runs_read {A} (f : bytecode_buffer → option (A * bytecode_buffer)) x q h p o c w ss M N V a (Q : A → loc → Prop) :
  f (BytecodeBuffer code p) = Some (x, BytecodeBuffer code q) →
  Q x (Loc h q o c w ss M N V a) → runs (read code f) (Loc h p o c w ss M N V a) Q.
Proof.
  intros Hf HQ. eexists x, _. split; [|exact HQ]. unfold read, mk. cbn. by rewrite Hf.
Qed.
End runs.
