(* ===== verification/ConvertSim.v ===== *)
(** * Conversion and execution side by side

    What a converter does and what the statements it adds do are followed together: [co]
    says that a computation ends normally, and that running the statements it added takes
    one outcome of the intermediate representation to another, whatever nodes the unit gets
    later.  [match_state] relates the mimic stack and a state of the representation to a
    state of the virtual machine: every expression on the mimic stack evaluates to the value
    on the operand stack, now and after anything that statements added later can do
    ([settled]); only an allocation that is on top may still be outstanding. *)

From S2P Require Import Prelude CMonad ConstantPool ClassFile Opcodes Bytecode Types BasicBlock Tree ArgsMap Convert.
From S2P Require Import ConvertRun JavaMachine TreeSem.
From stdpp Require Import gmap.
#[local] Open Scope Z_scope.

(** ** Nodes *)

(** Nodes are added, and their types become those of the operand stack. *)
Definition node_ext (N N' : list shared) : Prop :=
  ∀ k x, N !! k = Some x → ∃ x', N' !! k = Some x' ∧ sh_kind x' = sh_kind x ∧
    (sh_type x' = sh_type x ∨ sh_type x' = mimic_stack_type (sh_type x)).

Lemma mimic_idem t : mimic_stack_type (mimic_stack_type t) = mimic_stack_type t.
Proof. by destruct t. Qed.

#[export] Instance node_ext_preorder : PreOrder node_ext.
Proof.
  split.
  - intros N k x E. exists x. auto.
  - intros N1 N2 N3 H12 H23 k x E. destruct (H12 _ _ E) as (x2 & E2 & K2 & T2).
    destruct (H23 _ _ E2) as (x3 & E3 & K3 & T3). exists x3. split_and!; [done|congruence|].
    destruct T2 as [T2|T2], T3 as [T3|T3]; rewrite ?T3, ?T2, ?mimic_idem; auto.
Qed.
Lemma node_ext_app N l : node_ext N (N ++ l).
Proof. intros k x E. exists x. split_and!; [by apply lookup_app_l_Some|done|auto]. Qed.
Lemma node_ext_alter t n N x :
  N !! n = Some x → sh_type x = t → node_ext N (alter (retype_node (mimic_stack_type t)) n N).
Proof.
  intros En Et k y E. destruct (decide (k = n)) as [->|Hne].
  - rewrite list_lookup_alter_eq, En. cbn. simplify_eq. eexists. split_and!; [done|done|]. auto.
  - rewrite list_lookup_alter_ne by done. eauto.
Qed.
Lemma node_ext_lookup N N' k x : node_ext N N' → N !! k = Some x → ∃ x', N' !! k = Some x' ∧ sh_kind x' = sh_kind x.
Proof. intros H E. destruct (H k x E) as (x' & ? & ? & _). eauto. Qed.

Section sim.
Context `{Allocator} `{Resolver} `{JavaHeapLaws} (code : list Z).
Context (u : ir_unit) (b : nat).
Context (Hmem : always_ok).

#[local] Abbreviation runs := (runs u b).
#[local] Abbreviation mk := (mk u b).
#[local] Abbreviation outc := (CMonad.outcome istate exc ictl).

(** ** Side by side *)

Definition exec_from (Nf : list shared) (r : outc) (new : list (Z * statement)) : outc :=
  match r with Done INext s => exec_stmts Nf new s | _ => r end.

Lemma exec_stmts_app Nf l1 l2 s : exec_stmts Nf (l1 ++ l2) s = exec_from Nf (exec_stmts Nf l1 s) l2.
Proof.
  revert s. induction l1 as [|[o x] l1 IH]; intros s; [done|]. cbn. unfold bind at 1 2.
  destruct (exec_stmt Nf x s) as [c s'|x' s'|]; [|done|done]. destruct c; [apply IH|done|done].
Qed.
Lemma exec_from_app Nf r l1 l2 : exec_from Nf r (l1 ++ l2) = exec_from Nf (exec_from Nf r l1) l2.
Proof. destruct r as [[] s| |]; [apply exec_stmts_app|done..]. Qed.
Lemma exec_from_nil Nf r : exec_from Nf r [] = r.
Proof. by destruct r as [[] s| |]. Qed.

Definition frame (L L' : loc) (new : list (Z * statement)) : Prop :=
  l_stmts L' = l_stmts L ++ new ∧ l_off L' = l_off L ∧ l_wide L' = l_wide L ∧
  node_ext (l_nodes L) (l_nodes L') ∧ l_vars L `prefix_of` l_vars L'.

Definition co {A} (m : K A) (L : loc) (r : outc) (Q : A → loc → outc → Prop) : Prop :=
  runs m L (λ a L', ∃ new r', frame L L' new ∧ (∀ Nf, node_ext (l_nodes L') Nf → exec_from Nf r new = r') ∧ Q a L' r').

Lemma frame_trans L1 L2 L3 n1 n2 : frame L1 L2 n1 → frame L2 L3 n2 → frame L1 L3 (n1 ++ n2).
Proof.
  intros (S1 & O1 & W1 & N1 & V1) (S2 & O2 & W2 & N2 & V2).
  split_and!; [by rewrite S2, S1, app_assoc|congruence|congruence|by etrans|by etrans].
Qed.

Lemma co_bind {A B} (m : K A) (f : A → K B) L r Q : co m L r (λ a L' r', co (f a) L' r' Q) → co (bind m f) L r Q.
Proof.
  intros Hm. apply runs_bind. eapply runs_mono; [exact Hm|]. cbn. intros a L1 (n1 & r1 & F1 & X1 & Hf).
  eapply runs_mono; [exact Hf|]. cbn. intros a2 L2 (n2 & r2 & F2 & X2 & HQ).
  exists (n1 ++ n2), r2. split_and!; [by eapply frame_trans| |done].
  intros Nf HN. rewrite exec_from_app, X1; [by apply X2|]. etrans; [apply F2|done].
Qed.
Lemma co_mono {A} (m : K A) L r (Q Q' : A → loc → outc → Prop) :
  co m L r Q → (∀ a L' r', Q a L' r' → Q' a L' r') → co m L r Q'.
Proof. intros Hm HQ. eapply runs_mono; [exact Hm|]. cbn. intros a L' (n & r' & F & X & Q0). exists n, r'. eauto. Qed.

(** A computation that adds no statement. *)
Lemma co_runs {A} (m : K A) L r Q : runs m L (λ a L', frame L L' [] ∧ Q a L' r) → co m L r Q.
Proof.
  intros Hm. eapply runs_mono; [exact Hm|]. cbn. intros a L' [F HQ]. exists [], r. split_and!; [done| |done].
  intros. apply exec_from_nil.
Qed.

Lemma frame_same h h' p p' o c c' w ss M M' N N' V a a' :
  node_ext N N' → frame (Loc h p o c w ss M N V a) (Loc h' p' o c' w ss M' N' V a') [].
Proof. intros HN. by split_and!; cbn; rewrite ?app_nil_r. Qed.
#[local] Hint Extern 1 (frame _ _ []) => apply frame_same; reflexivity : core.

Lemma co_ret {A} (a : A) L r Q : Q a L r → co (ret a) L r Q.
Proof. intros HQ. apply co_runs, runs_ret. split; [|done]. by destruct L; auto. Qed.
Lemma co_must {A} (o : option A) (a : A) L r Q : o = Some a → Q a L r → co (must o) L r Q.
Proof. intros -> HQ. by apply co_ret. Qed.

Lemma co_request sz h p o c w ss M N V a r (Q : bool → loc → outc → Prop) :
  (∀ h', Q true (Loc h' p o c w ss M N V a) r) → co (on_cfg (request sz)) (Loc h p o c w ss M N V a) r Q.
Proof using Hmem. intros HQ. apply co_runs, runs_request; [done|]. auto. Qed.
Lemma co_alloc_expression e h p o c w ss M N V a r (Q : option expression → loc → outc → Prop) :
  (∀ h', Q (Some e) (Loc h' p o c w ss M N V a) r) → co (alloc_expression e) (Loc h p o c w ss M N V a) r Q.
Proof using Hmem. intros HQ. apply co_runs, runs_alloc_expression; [done|]. auto. Qed.
Lemma co_alloc_statement h p o c w ss M N V a r (Q : bool → loc → outc → Prop) :
  (∀ h', Q true (Loc h' p o c w ss M N V a) r) → co alloc_statement (Loc h p o c w ss M N V a) r Q.
Proof using Hmem. apply co_request. Qed.
Lemma co_type_of e t h p o c w ss M N V a r Q :
  vm_type_of N e = Some t → Q t (Loc h p o c w ss M N V a) r → co (type_of e) (Loc h p o c w ss M N V a) r Q.
Proof. intros Ht HQ. apply co_runs. eapply runs_type_of; [done|]. auto. Qed.
Lemma co_pop e h p o c w ss M N V a r (Q : expression → loc → outc → Prop) :
  Q e (Loc h p o c w ss M N V a) r → co stack_pop (Loc h p o c w ss (e :: M) N V a) r Q.
Proof. intros HQ. apply co_runs, runs_pop. auto. Qed.
Lemma co_peek e h p o c w ss M N V a r (Q : expression → loc → outc → Prop) :
  Q e (Loc h p o c w ss (e :: M) N V a) r → co stack_peek (Loc h p o c w ss (e :: M) N V a) r Q.
Proof. intros HQ. apply co_runs, runs_peek. auto. Qed.
Lemma co_clear h p o c w ss M N V a r (Q : unit → loc → outc → Prop) :
  Q tt (Loc h p o c w ss [] N V a) r → co clear_mimic_stack (Loc h p o c w ss M N V a) r Q.
Proof. intros HQ. apply co_runs, runs_clear. auto. Qed.
Lemma co_expr_get e h p o c w ss M N V a r (Q : expression → loc → outc → Prop) :
  expr_is_pure e = true → Q e (Loc h p o c w ss M N V a) r → co (expr_get e) (Loc h p o c w ss M N V a) r Q.
Proof. intros He HQ. apply co_runs, runs_expr_get; [done|]. auto. Qed.
Lemma co_null_check e h p o c w ss M N V a r (Q : option expression → loc → outc → Prop) :
  vm_type_of N e = Some J_REFERENCE →
  (∀ h', Q (Some (EXPR_NULL_CHECK e)) (Loc h' p o c w ss M N V a) r) →
  co (null_check_expr e) (Loc h p o c w ss M N V a) r Q.
Proof using Hmem. intros Ht HQ. apply co_runs, runs_null_check; [done..|]. auto. Qed.
Lemma co_get_ctx {A} (f : parse_context → K A) h p o c w ss M N V a r Q :
  co (f (Ctx b p o c w)) (Loc h p o c w ss M N V a) r Q → co (bind (get ctx) f) (Loc h p o c w ss M N V a) r Q.
Proof. intros HQ. apply co_bind, co_runs, runs_get. auto. Qed.
Lemma co_temporary_expr t h p o c w ss M N V a r (Q : option expression → loc → outc → Prop) :
  (∀ h', Q (Some (EXPR_SHARED (length N))) (Loc h' p o c w ss M (N ++ [temp_node t (length V)]) (V ++ [t]) a) r) →
  co (temporary_expr t) (Loc h p o c w ss M N V a) r Q.
Proof using Hmem.
  intros HQ. apply co_runs, runs_temporary_expr; [done|]. intros h'. split; [|done].
  split_and!; cbn; rewrite ?app_nil_r; try done; [apply node_ext_app|by eexists].
Qed.

(** A push changes the type of a shared node in place. *)
Lemma pushed_ext e t N : vm_type_of N e = Some t → node_ext N (pushed_nodes e t N).
Proof.
  intros Ht. destruct e; try done. cbn in *. destruct (N !! n) as [x|] eqn:E; [|done]. cbn in Ht. simplify_eq.
  by eapply node_ext_alter.
Qed.
Lemma co_convert_expression e t h p o c w ss M N V a r (Q : unit → loc → outc → Prop) :
  vm_type_of N e = Some t →
  (∀ h', Q tt (Loc h' p o c w ss (pushed_expr e t :: M) (pushed_nodes e t N) V a) r) →
  co (convert_expression e) (Loc h p o c w ss M N V a) r Q.
Proof using Hmem.
  intros Ht HQ. apply co_runs. eapply runs_convert_expression; [done..|]. intros h'. split; [|done].
  apply frame_same. by apply pushed_ext.
Qed.

(** A statement runs. *)
Lemma co_statement s h p o c w ss M N V a r r' (Q : unit → loc → outc → Prop) :
  (∀ Nf, node_ext N Nf → exec_from Nf r [(o, s)] = r') →
  Q tt (Loc h p o c w (ss ++ [(o, s)]) M N V a) r' →
  co (convert_statement s) (Loc h p o c w ss M N V a) r Q.
Proof.
  intros Hr HQ. apply runs_statement. exists [(o, s)], r'. split_and!; [|exact Hr|exact HQ]. by split_and!.
Qed.
Lemma exec_one Nf o s σ : exec_from Nf (Done INext σ) [(o, s)] = exec_stmt Nf s σ.
Proof. cbn. unfold bind. by destruct (exec_stmt Nf s σ) as [[] ?| |]. Qed.
Lemma co_dup_expr e t h p o c w ss M N V a r r' (Q : expression → loc → outc → Prop) :
  vm_type_of N e = Some t →
  (∀ Nf, node_ext (N ++ [temp_node t (length V)]) Nf → exec_from Nf r [(o, STMT_STORE (EXPR_SHARED (length N)) e)] = r') →
  (∀ h', Q (EXPR_SHARED (length N))
           (Loc h' p o c w (ss ++ [(o, STMT_STORE (EXPR_SHARED (length N)) e)]) M (N ++ [temp_node t (length V)]) (V ++ [t]) a) r') →
  co (dup_expr e) (Loc h p o c w ss M N V a) r Q.
Proof using Hmem.
  intros Ht Hr HQ. eapply runs_dup_expr; [done..|]. intros h'. eexists _, r'. split_and!; [|exact Hr|by apply HQ].
  split_and!; cbn; try done; [apply node_ext_app|by eexists].
Qed.

(** Reading operands moves the position. *)
Lemma co_read {A} (f : bytecode_buffer → option (A * bytecode_buffer)) x q h p o c w ss M N V a r (Q : A → loc → outc → Prop) :
  f (BytecodeBuffer code p) = Some (x, BytecodeBuffer code q) →
  Q x (Loc h q o c w ss M N V a) r → co (read code f) (Loc h p o c w ss M N V a) r Q.
Proof. intros Hf HQ. apply co_runs. eapply runs_read; [done|]. auto. Qed.
End sim.

(** ** The states of the virtual machine and of the representation

    When an expression on the mimic stack stands for a value of the operand stack, when the
    states match, and what it is for a converter to simulate an instruction. *)

Section matching.
Context `{Allocator} `{Resolver} `{JavaHeapLaws} (code : list Z).
Context (u : ir_unit) (b : nat).
Context (Hmem : always_ok).

#[local] Abbreviation co := (co u b).
#[local] Abbreviation outc := (CMonad.outcome istate exc ictl).

(** ** Expressions and values *)

(** The states that differ in what statements added later may change: local variables,
    variables of temporaries made later, slots at the exit, the heap. *)
Definition agree (n : nat) (s s' : istate) : Prop :=
  (∀ x, (x < n)%nat → e_temps (i_env s') !! x = e_temps (i_env s) !! x) ∧
  (∀ k, e_slots (i_env s') !! (true, k) = e_slots (i_env s) !! (true, k)) ∧ e_exception (i_env s') = e_exception (i_env s) ∧
  later (i_world s) (i_world s').

Lemma agree_refl n s : agree n s s.
Proof. split_and!; done || reflexivity. Qed.
Lemma agree_trans n n' s1 s2 s3 : (n <= n')%nat → agree n s1 s2 → agree n' s2 s3 → agree n s1 s3.
Proof.
  intros Hn (T1 & S1 & X1 & W1) (T2 & S2 & X2 & W2). split_and!; [|congruence|congruence|by etrans].
  intros x Hx. rewrite T2 by lia. auto.
Qed.
Lemma agree_le n n' s s' : (n <= n')%nat → agree n' s s' → agree n s s'.
Proof. intros Hn (T & R). split; [|done]. intros x Hx. apply T. lia. Qed.

(** A reference is always kept in an expression without effects. *)
Definition evals (N : list shared) (n : nat) (s : istate) (e : expression) (v : val) : Prop :=
  (val_type v = J_REFERENCE → expr_is_pure e = true) ∧
  ∀ N' s', node_ext N N' → agree n s s' → eval N' (i_env s') e (i_world s') = Done v (i_world s').
Definition settled (N : list shared) (n : nat) (s : istate) (e : expression) (v : val) : Prop :=
  vm_type_of N e = Some (val_type v) ∧ evals N n s e v.

Lemma mimic_val_type v : mimic_stack_type (val_type v) = val_type v.
Proof. by destruct v. Qed.
Lemma vm_type_of_ext N N' e t :
  node_ext N N' → vm_type_of N e = Some t → mimic_stack_type t = t → vm_type_of N' e = Some t.
Proof.
  intros HN Ht Hm. destruct e; try done. cbn in *. destruct (N !! n) as [x|] eqn:E; [|done]. cbn in Ht. simplify_eq.
  destruct (HN _ _ E) as (x' & E' & _ & [T|T]); rewrite E'; cbn; by rewrite T, ?Hm.
Qed.
Lemma evals_mono N N' n n' s s' e v :
  evals N n s e v → node_ext N N' → (n <= n')%nat → agree n s s' → evals N' n' s' e v.
Proof. intros [Hr He] HN Hn Ha. split; [done|]. intros N2 s2 HN2 Ha2. apply He; [by etrans|]. by eapply agree_trans. Qed.
Lemma settled_mono N N' n n' s s' e v :
  settled N n s e v → node_ext N N' → (n <= n')%nat → agree n s s' → settled N' n' s' e v.
Proof.
  intros [Ht He] HN Hn Ha. split; [|by eapply evals_mono]. eapply vm_type_of_ext; [done..|]. apply mimic_val_type.
Qed.
Lemma settled_list_mono N N' n n' s s' M S :
  Forall2 (settled N n s) M S → node_ext N N' → (n <= n')%nat → agree n s s' → Forall2 (settled N' n' s') M S.
Proof. intros HM HN Hn Ha. eapply Forall2_impl; [exact HM|]. intros e v He. by eapply settled_mono. Qed.

(** A push of an expression of a type of the operand stack changes nothing else; that of a
    temporary of a smaller type widens it. *)
Lemma pushed_same N e t :
  vm_type_of N e = Some t → mimic_stack_type t = t → pushed_expr e t = e ∧ pushed_nodes e t N = N.
Proof.
  intros Ht Hm. destruct e; cbn in *; simplify_eq; rewrite ?Hm; try done. split; [done|].
  destruct (N !! n) as [x|] eqn:E; [|done]. cbn in Ht. simplify_eq. apply list_eq. intros k.
  destruct (decide (k = n)) as [->|Hne]; [|by rewrite list_lookup_alter_ne].
  rewrite list_lookup_alter_eq, E. cbn. unfold retype_node. rewrite ?Hm. by destruct x.
Qed.

(** ** Fresh temporaries *)

Definition with_temp (x : nat) (v : val) (s : istate) (w : world) : istate := IS (set_env_temp x v (i_env s)) w.

Lemma shared_temp_value N t n ρ v :
  e_temps ρ !! n = Some v → ∀ N', node_ext (N ++ [temp_node t n]) N' → shared_value N' ρ (length N) = Some v.
Proof.
  intros Hv N' HN. unfold shared_value.
  destruct (node_ext_lookup _ _ (length N) (temp_node t n) HN) as (x' & -> & K); [by apply list_lookup_middle|].
  cbn. rewrite K. unfold temp_node. cbn. by destruct (vm_type_is_float t).
Qed.
Lemma with_temp_agree n v s w : later (i_world s) w → agree n s (with_temp n v s w).
Proof. intros Hw. split_and!; try done. intros x Hx. cbn. rewrite lookup_insert_ne by lia. done. Qed.
Lemma with_temp_evals N t n v s w : evals (N ++ [temp_node t n]) (S n) (with_temp n v s w) (EXPR_SHARED (length N)) v.
Proof.
  split; [done|]. intros N' s' HN (T & _). cbn. unfold stuck_or. erewrite shared_temp_value; [done| |done].
  rewrite T by lia. cbn. by rewrite lookup_insert_eq.
Qed.

(** A store to a fresh temporary. *)
Lemma exec_store_temp Nf o N t n e s v w :
  node_ext (N ++ [temp_node t n]) Nf → eval Nf (i_env s) e (i_world s) = Done v w →
  exec_from Nf (Done INext s) [(o, STMT_STORE (EXPR_SHARED (length N)) e)] = Done INext (with_temp n v s w).
Proof.
  intros HN He. rewrite exec_one. cbn. unfold bind at 1 2, ev, bind, get, on_world. rewrite He. cbn.
  unfold assign_shared. destruct (node_ext_lookup _ _ (length N) (temp_node t n) HN) as (x' & -> & K); [by apply list_lookup_middle|].
  rewrite K. unfold temp_node. cbn. by destruct (vm_type_is_float t).
Qed.
Lemma exec_store_temp_fails Nf o (N : list shared) e s x w :
  eval Nf (i_env s) e (i_world s) = Fail x w →
  exec_from Nf (Done INext s) [(o, STMT_STORE (EXPR_SHARED (length N)) e)] = Fail x (IS (i_env s) w).
Proof. intros He. rewrite exec_one. cbn. unfold bind, ev, bind, get, on_world. by rewrite He. Qed.

(** ** Matching states *)

(** An allocation that is on top of the mimic stack and has not been done: it gives the value
    and the heap the virtual machine has already. *)
Definition yields (N : list shared) (n : nat) (s : istate) (e : expression) (v : val) (w : world) : Prop :=
  ∀ N' s', node_ext N N' → agree n s s' → i_world s' = i_world s → eval N' (i_env s') e (i_world s') = Done v w.
Definition outstanding (N : list shared) (n : nat) (s : istate) (e : expression) (v : val) (w : world) : Prop :=
  vm_type_of N e = Some (val_type v) ∧ expr_is_pure e = false ∧ later (i_world s) w ∧ yields N n s e v w.

Record match_state (L : loc) (s : istate) (σ : jstate) (pend : bool) : Prop := {
  match_locals : j_locals σ ⊆ e_locals (i_env s);
  match_stack :
    if pend then
      ∃ e M v S, l_stack L = e :: M ∧ j_stack σ = v :: S ∧ outstanding (l_nodes L) (length (l_vars L)) s e v (j_world σ) ∧
        Forall2 (settled (l_nodes L) (length (l_vars L)) s) M S
    else Forall2 (settled (l_nodes L) (length (l_vars L)) s) (l_stack L) (j_stack σ) ∧ j_world σ = i_world s;
}.

(** The top of the stack, outstanding or not. *)
Definition top_ok (N : list shared) (n : nat) (s : istate) (e : expression) (v : val) (w : world) : Prop :=
  vm_type_of N e = Some (val_type v) ∧ later (i_world s) w ∧ yields N n s e v w ∧
  (expr_is_pure e = true → settled N n s e v ∧ w = i_world s).

Lemma settled_top N n s e v : settled N n s e v → top_ok N n s e v (i_world s).
Proof.
  intros [Ht He]. split_and!; [done|reflexivity| |by split]. intros N' s' HN HA Hw. rewrite <- Hw. by apply He.
Qed.
Lemma yields_eval N n s e v w N' : yields N n s e v w → node_ext N N' → eval N' (i_env s) e (i_world s) = Done v w.
Proof. intros Hy HN. apply Hy; [done|apply agree_refl|done]. Qed.

Lemma match_top L s σ pend v S :
  match_state L s σ pend → j_stack σ = v :: S →
  ∃ e M, l_stack L = e :: M ∧ top_ok (l_nodes L) (length (l_vars L)) s e v (j_world σ) ∧
    Forall2 (settled (l_nodes L) (length (l_vars L)) s) M S.
Proof.
  intros [_ HM] HS. destruct pend.
  - destruct HM as (e & M & v' & S' & EM & ES & (Ht & Hp & Hw & He) & HM). simplify_eq. rewrite HS in ES. simplify_eq.
    exists e, M. split; [done|]. split; [|done]. split_and!; [done..|]. congruence.
  - destruct HM as [HM Hw]. rewrite HS in HM. inversion HM as [|e ? M ? He HM' E1]; subst.
    exists e, M. split_and!; try done. rewrite Hw. by apply settled_top.
Qed.

(** ** Simulation of an instruction *)

(** The instructions that may find an allocation outstanding, those that leave one, and
    those whose exceptions come with their value, where a statement asks for it.  A store
    checks the object it stores to before it does the allocation, a call evaluates the last
    argument first. *)
Definition forces (i : jinsn) (σ : jstate) : bool :=
  match i with
  | JDup | JStore J_REFERENCE _ | JReturn (Some J_REFERENCE) | JPutstatic _ | JCheckcast _ => true
  | JPutfield _ => match j_stack σ with _ :: VRef r :: _ => bool_decide (r ≠ 0) | _ => false end
  | JArrayStore _ => match j_stack σ with _ :: _ :: VRef r :: _ => bool_decide (r ≠ 0) | _ => false end
  | JInvoke k idx =>
    match call_target k idx with
    | Some m => negb (vm_method_is_static m && bool_decide (callee_args m = []))
    | None => false
    end
  | _ => false
  end.
Definition allocates (i : jinsn) : bool :=
  match i with JNew _ | JNewarray _ | JAnewarray _ | JMultianewarray _ _ => true | _ => false end.
Definition lazy (i : jinsn) : bool :=
  match i with
  | JArith (NInt | NLong) (ADiv | ARem) | JArraylength => true
  | _ => allocates i
  end.

Definition covered (i : jinsn) (o : out) : Prop :=
  match o with Done _ _ => True | Fail _ _ => lazy i = false | Undef => False end.

Definition result_match (o : out) (L : loc) (r : outc) (pend : bool) : Prop :=
  match o with
  | Done JNext σ => ∃ s, r = Done INext s ∧ match_state L s σ pend
  | Done (JJump t) σ =>
    ∃ s bb, r = Done (IJump bb) s ∧ find_in (bbs (cfg u)) (bb_list (cfg u)) (u64 t) = Some bb ∧ match_state L s σ false
  | Done (JRet v) σ => ∃ s, r = Done (IRet v) s ∧ i_world s = j_world σ
  | Fail x σ => ∃ s, r = Fail x s ∧ i_world s = j_world σ ∧ j_locals σ ⊆ e_locals (i_env s)
  | Undef => False
  end.

(** The converter [cv], on the opcode [c] with the operands from [p] to [p'], simulates [i]. *)
Definition sim (c : Z) (w : bool) (cv : K unit) (i : jinsn) (p p' : Z) : Prop :=
  ∀ h o ss M N V a s σ pend,
    match_state (Loc h p o c w ss M N V a) s σ pend → (pend = true → forces i σ = true) →
    covered i (jexec o i σ) →
    co cv (Loc h p o c w ss M N V a) (Done INext s)
      (λ _ L' r', l_pos L' = p' ∧ result_match (jexec o i σ) L' r' (allocates i)).
End matching.
