(* ===== verification/ConvertOps.v ===== *)
(** * The converters simulate their instructions: values, variables, the stack, branches

    One lemma for every converter, or family of converters, that does not touch the heap. *)

From S2P Require Import Prelude CMonad ConstantPool ClassFile Opcodes Bytecode Types BasicBlock Tree ArgsMap Convert.
From S2P Require Import ConvertRun JavaMachine TreeSem ConvertSim.
From stdpp Require Import gmap.
#[local] Open Scope Z_scope.

Lemma bind_fails {S E A B} (m : M S E A) (f : A → M S E B) s x s' : m s = Fail x s' → bind m f s = Fail x s'.
Proof. intros E0. unfold bind. by rewrite E0. Qed.

(** A constant is kept in 64 bits. *)
Lemma s32_u64 z : - 2 ^ 31 <= z < 2 ^ 31 → s32 (u64 z) = z.
Proof.
  intros Hz. unfold s32, u64. rewrite <- (signed_id 32 z) at 2 by lia. unfold signed.
  by rewrite (Z.mod_mod_divide z (2 ^ 64) (2 ^ 32)) by by exists (2 ^ 32).
Qed.
Lemma s64_u64 z : - 2 ^ 63 <= z < 2 ^ 63 → s64 (u64 z) = z.
Proof. intros Hz. unfold s64, u64. rewrite <- (signed_id 64 z) at 2 by lia. unfold signed. by rewrite Z.mod_mod by lia. Qed.

(** One step of a converter. *)
Ltac step :=
  lazymatch goal with
  | |- ConvertSim.co _ _ (bind (get ctx) _) _ _ _ => apply co_get_ctx; cbn [ctx_bb ctx_pos ctx_offset ctx_opc ctx_is_wide]
  | |- ConvertSim.co _ _ (bind _ _) _ _ _ => apply co_bind; step
  | |- ConvertSim.co _ _ (ret _) _ _ _ => apply co_ret
  | |- ConvertSim.co _ _ stack_pop _ _ _ => apply co_pop
  | |- ConvertSim.co _ _ stack_peek _ _ _ => apply co_peek
  | |- ConvertSim.co _ _ clear_mimic_stack _ _ _ => apply co_clear
  | |- ConvertSim.co _ _ alloc_statement _ _ _ => apply co_alloc_statement; [assumption|]; intros ?; cbn [negb]
  | |- ConvertSim.co _ _ (on_cfg (request _)) _ _ _ => apply co_request; [assumption|]; intros ?; cbn [negb]
  | |- ConvertSim.co _ _ (type_of _) _ _ _ => eapply co_type_of; [eassumption || reflexivity|]
  | |- ConvertSim.co _ _ (must (Some _)) _ _ _ => eapply co_must; [reflexivity|]
  | |- ConvertSim.co _ _ (expr_get _) _ _ _ => apply co_expr_get; [reflexivity || eassumption|]
  | |- ConvertSim.co _ _ (null_check_expr _) _ _ _ => apply co_null_check; [assumption|eassumption|]; intros ?
  | |- ConvertSim.co _ _ (push_expr (Some _)) _ _ _ => unfold push_expr
  | |- ConvertSim.co _ _ (if decide _ then _ else _) _ _ _ => fail
  | |- _ => apply co_alloc_expression; [assumption|]; intros ?
  end.

Section ops.
Context `{Allocator} `{Resolver} `{FloatsLaws} `{!JavaHeap} `{!JavaHeapLaws} (code : list Z).
Context (u : ir_unit) (b : nat).
Context (Hmem : always_ok).

#[local] Abbreviation co := (co u b).
#[local] Abbreviation outc := (CMonad.outcome istate exc ictl).
#[local] Abbreviation sim := (sim u b).

(** ** Steps of the proofs *)

(** The states match without anything outstanding. *)
Lemma match_intro L s l S w :
  l ⊆ e_locals (i_env s) → Forall2 (settled (l_nodes L) (length (l_vars L)) s) (l_stack L) S → w = i_world s →
  match_state L s (JS l S w) false.
Proof. intros. by split. Qed.

Lemma co_push_type e t h p o c w ss M N V a r (Q : unit → loc → outc → Prop) :
  vm_type_of N e = Some t → mimic_stack_type t = t →
  (∀ h', Q tt (Loc h' p o c w ss (e :: M) N V a) r) →
  co (convert_expression e) (Loc h p o c w ss M N V a) r Q.
Proof using Hmem.
  intros Ht Hm HQ. destruct (pushed_same N e _ Ht Hm) as [E1 E2].
  eapply co_convert_expression; [done..|]. intros h'. rewrite E1, E2. apply HQ.
Qed.
Lemma co_push e v h p o c w ss M N V a r (Q : unit → loc → outc → Prop) :
  vm_type_of N e = Some (val_type v) →
  (∀ h', Q tt (Loc h' p o c w ss (e :: M) N V a) r) →
  co (convert_expression e) (Loc h p o c w ss M N V a) r Q.
Proof using Hmem. intros Ht. eapply co_push_type; [done|]. apply mimic_val_type. Qed.

(** An expression whose value is kept in a fresh temporary. *)
Lemma co_dup e t v wd h p o c w ss M N V a s (Q : expression → loc → outc → Prop) :
  vm_type_of N e = Some t →
  (∀ Nf, node_ext N Nf → eval Nf (i_env s) e (i_world s) = Done v wd) →
  (∀ h' ss', Q (EXPR_SHARED (length N))
           (Loc h' p o c w ss' M (N ++ [temp_node t (length V)]) (V ++ [t]) a) (Done INext (with_temp (length V) v s wd))) →
  co (dup_expr e) (Loc h p o c w ss M N V a) (Done INext s) Q.
Proof using Hmem.
  intros Ht He HQ. eapply co_dup_expr; [done|done| |intros; apply HQ].
  intros Nf HN. eapply exec_store_temp; [exact HN|]. apply He. etrans; [apply node_ext_app|exact HN].
Qed.
Lemma co_dup_fails e t x wd h p o c w ss M N V a s (Q : expression → loc → outc → Prop) :
  vm_type_of N e = Some t →
  (∀ Nf, node_ext N Nf → eval Nf (i_env s) e (i_world s) = Fail x wd) →
  (∀ h' ss', Q (EXPR_SHARED (length N))
           (Loc h' p o c w ss' M (N ++ [temp_node t (length V)]) (V ++ [t]) a) (Fail x (IS (i_env s) wd))) →
  co (dup_expr e) (Loc h p o c w ss M N V a) (Done INext s) Q.
Proof using Hmem.
  intros Ht He HQ. eapply co_dup_expr; [done|done| |intros; apply HQ].
  intros Nf HN. apply exec_store_temp_fails. apply He. etrans; [apply node_ext_app|exact HN].
Qed.
(** After a failure the statements that are added do not run. *)
Lemma co_dup_failed e t x s h p o c w ss M N V a (Q : expression → loc → outc → Prop) :
  vm_type_of N e = Some t →
  (∀ h' ss', Q (EXPR_SHARED (length N)) (Loc h' p o c w ss' M (N ++ [temp_node t (length V)]) (V ++ [t]) a) (Fail x s)) →
  co (dup_expr e) (Loc h p o c w ss M N V a) (Fail x s) Q.
Proof using Hmem. intros Ht HQ. eapply co_dup_expr with (r' := Fail x s); [done..|]. intros; apply HQ. Qed.

Lemma temp_settled N V t v s w :
  t = val_type v →
  settled (N ++ [temp_node t (length V)]) (length (V ++ [t])) (with_temp (length V) v s w) (EXPR_SHARED (length N)) v.
Proof.
  intros ->. split; [cbn; by rewrite list_lookup_middle|]. rewrite length_app, Nat.add_1_r. apply with_temp_evals.
Qed.
(** What was settled stays so when a temporary is made. *)
Lemma settled_temp N V t v s w M S :
  later (i_world s) w → Forall2 (settled N (length V) s) M S →
  Forall2 (settled (N ++ [temp_node t (length V)]) (length (V ++ [t])) (with_temp (length V) v s w)) M S.
Proof.
  intros Hw HM. eapply settled_list_mono; [exact HM|apply node_ext_app|rewrite length_app; lia|by apply with_temp_agree].
Qed.
Lemma settled_temp1 N V t v s w e x :
  later (i_world s) w → settled N (length V) s e x →
  settled (N ++ [temp_node t (length V)]) (length (V ++ [t])) (with_temp (length V) v s w) e x.
Proof.
  intros Hw He. eapply settled_mono; [exact He|apply node_ext_app|rewrite length_app; lia|by apply with_temp_agree].
Qed.
Lemma settled_eval N n s e v Nf : settled N n s e v → node_ext N Nf → eval Nf (i_env s) e (i_world s) = Done v (i_world s).
Proof. intros [_ He] HN. apply He; [done|]. apply agree_refl. Qed.

(** An expression made of settled ones. *)
Lemma settled_0 N n s e v :
  vm_type_of N e = Some (val_type v) → expr_is_pure e = true → (∀ N' ρ w, eval N' ρ e w = Done v w) → settled N n s e v.
Proof. intros Ht Hp He. split; [done|]. split; [done|]. intros N' s' _ _. apply He. Qed.
Lemma settled_1 N n s e1 v1 e v :
  settled N n s e1 v1 → vm_type_of N e = Some (val_type v) → val_type v ≠ J_REFERENCE →
  (∀ N' ρ w, eval N' ρ e1 w = Done v1 w → eval N' ρ e w = Done v w) → settled N n s e v.
Proof. intros [_ H1'] Ht Hr He. split; [done|]. split; [done|]. intros N' s' HN Ha. apply He. by apply H1'. Qed.
Lemma settled_2 N n s e1 v1 e2 v2 e v :
  settled N n s e1 v1 → settled N n s e2 v2 → vm_type_of N e = Some (val_type v) → val_type v ≠ J_REFERENCE →
  (∀ N' ρ w, eval N' ρ e1 w = Done v1 w → eval N' ρ e2 w = Done v2 w → eval N' ρ e w = Done v w) → settled N n s e v.
Proof. intros [_ H1'] [_ H2'] Ht Hr He. split; [done|]. split; [done|]. intros N' s' HN Ha. apply He; [by apply H1'|by apply H2']. Qed.

(** A match with nothing outstanding, taken apart. *)
Lemma match_settled h p o c w ss M N V a s σ pend :
  match_state (Loc h p o c w ss M N V a) s σ pend → pend = false →
  j_locals σ ⊆ e_locals (i_env s) ∧ Forall2 (settled N (length V) s) M (j_stack σ) ∧ j_world σ = i_world s.
Proof. intros [Hl HM] ->. by destruct HM. Qed.

(** ** Constants *)

Lemma sim_const c w e i v p :
  allocates i = false → (∀ σ, forces i σ = false) → (∀ o σ, jexec o i σ = push σ (j_stack σ) v) →
  (∀ N, vm_type_of N e = Some (val_type v)) → expr_is_pure e = true → (∀ N ρ wd, eval N ρ e wd = Done v wd) →
  sim c w (let* expr := alloc_expression e in push_expr expr) i p p.
Proof using Hmem.
  intros Ha Hf Hj Ht Hpu He h o ss M N V a s σ pend HM Hp _. rewrite Hj, Ha.
  destruct (match_settled _ _ _ _ _ _ _ _ _ _ _ _ _ HM) as (Hl & HS & Hw); [destruct pend; [by rewrite ?Hf in Hp; specialize (Hp eq_refl)|done]|].
  step. step. eapply co_push; [by apply Ht|]. intros h2.
  split; [done|]. exists s. split; [done|]. apply match_intro; cbn; [done| |done]. constructor; [by apply settled_0|done].
Qed.

(** ** Operators *)

(** The value of an instruction that takes one or two operands and may not throw here. *)
Definition pushes1 (i : jinsn) (Q : val → val → Prop) : Prop :=
  ∀ o σ, covered i (jexec o i σ) → ∃ x S v, j_stack σ = x :: S ∧ jexec o i σ = push σ S v ∧ Q x v.
Definition pushes2 (i : jinsn) (Q : val → val → val → Prop) : Prop :=
  ∀ o σ, covered i (jexec o i σ) → ∃ x y S v, j_stack σ = y :: x :: S ∧ jexec o i σ = push σ S v ∧ Q x y v.

Lemma sim_binop c w t op i p :
  allocates i = false → (∀ σ, forces i σ = false) → t ≠ J_REFERENCE →
  pushes2 i (λ x y v, val_type v = t ∧ ∀ wd, binop t op x y wd = Done v wd) →
  sim c w (convert_binop t op) i p p.
Proof using Hmem.
  intros Ha Hf Hr Hj h o ss M N V a s σ pend HM Hp Hc.
  destruct (Hj o σ Hc) as (x & y & S & v & ES & -> & Ht & Hv). rewrite Ha.
  destruct (match_settled _ _ _ _ _ _ _ _ _ _ _ _ _ HM) as (Hl & HS & Hw); [destruct pend; [by rewrite ?Hf in Hp; specialize (Hp eq_refl)|done]|].
  rewrite ES in HS. inversion HS as [|ey ? ? ? Hy HS']; subst. inversion HS' as [|ex ? M' ? Hx HS'']; subst.
  unfold convert_binop. step. step. step. step. eapply (co_push _ v); [done|]. intros h2.
  split; [done|]. exists s. split; [done|]. apply match_intro; cbn; [done| |done]. constructor; [|done].
  eapply settled_2; [exact Hx|exact Hy|done|congruence|]. intros N' ρ wd E1 E2. cbn. unfold bind. by rewrite E1, E2.
Qed.

Lemma sim_unary_op c w t op i p :
  allocates i = false → (∀ σ, forces i σ = false) → t ≠ J_REFERENCE →
  pushes1 i (λ x v, val_type v = t ∧ ∀ wd, unop op x wd = Done v wd) →
  sim c w (convert_unary_op t op) i p p.
Proof using Hmem.
  intros Ha Hf Hr Hj h o ss M N V a s σ pend HM Hp Hc.
  destruct (Hj o σ Hc) as (x & S & v & ES & -> & Ht & Hv). rewrite Ha.
  destruct (match_settled _ _ _ _ _ _ _ _ _ _ _ _ _ HM) as (Hl & HS & Hw); [destruct pend; [by rewrite ?Hf in Hp; specialize (Hp eq_refl)|done]|].
  rewrite ES in HS. inversion HS as [|ex ? M' ? Hx HS']; subst.
  unfold convert_unary_op. step. step. step. eapply (co_push _ v); [done|]. intros h2.
  split; [done|]. exists s. split; [done|]. apply match_intro; cbn; [done| |done]. constructor; [|done].
  eapply settled_1; [exact Hx|done|congruence|]. intros N' ρ wd E1. cbn. unfold bind. by rewrite E1.
Qed.

(** What the instructions push. *)
Ltac operands :=
  intros o [l st wd]; cbn;
  repeat match goal with
    | |- context [match ?st with [] => _ | _ :: _ => _ end] => is_var st; destruct st
    | |- context [match ?v with VInt _ => _ | _ => _ end] => is_var v; destruct v
    end; cbn; try done; intros Hc.

Lemma arith_pushes n a :
  pushes2 (JArith n a) (λ x y v,
    val_type v = match n with NInt => J_INT | NLong => J_LONG | NFloat => J_FLOAT | NDouble => J_DOUBLE end ∧
    ∀ wd, binop (val_type v)
      match n, a with
      | (NInt | NLong), AAdd => OP_ADD | (NInt | NLong), ASub => OP_SUB
      | NInt, AMul => OP_MUL | NInt, ADiv => OP_DIV | NInt, ARem => OP_REM
      | NLong, AMul => OP_MUL_64 | NLong, ADiv => OP_DIV_64 | NLong, ARem => OP_REM_64
      | NFloat, AAdd => OP_FADD | NFloat, ASub => OP_FSUB | NFloat, AMul => OP_FMUL | NFloat, ADiv => OP_FDIV
      | NFloat, ARem => OP_FREM
      | NDouble, AAdd => OP_DADD | NDouble, ASub => OP_DSUB | NDouble, AMul => OP_DMUL | NDouble, ADiv => OP_DDIV
      | NDouble, ARem => OP_DREM
      end x y wd = Done v wd).
Proof.
  destruct n, a; operands; unfold push_opt, throw, push in *; cbn in *;
    try (destruct (div32 _ _) eqn:E || destruct (rem32 _ _) eqn:E || destruct (div64 _ _) eqn:E || destruct (rem64 _ _) eqn:E);
    cbn in *; try done; eexists _, _, _, _; split_and!; try done; intros; cbn; unfold bind; cbn; by rewrite ?E.
Qed.

Lemma neg_pushes n :
  pushes1 (JNeg n) (λ x v, val_type v = match n with NInt => J_INT | NLong => J_LONG | NFloat => J_FLOAT | NDouble => J_DOUBLE end ∧
    ∀ wd, unop match n with NFloat => OP_FNEG | NDouble => OP_DNEG | _ => OP_NEG end x wd = Done v wd).
Proof. destruct n; operands; by eexists _, _, _. Qed.
Lemma shift_pushes wide k :
  pushes2 (JShift wide k) (λ x y v, val_type v = (if wide then J_LONG else J_INT) ∧
    ∀ wd, binop (val_type v)
      match wide, k with
      | false, Shl => OP_SHL | false, Shr => OP_SHR | false, Ushr => OP_USHR
      | true, Shl => OP_SHL_64 | true, Shr => OP_SHR_64 | true, Ushr => OP_USHR_64
      end x y wd = Done v wd).
Proof. destruct wide, k; operands; by eexists _, _, _, _. Qed.
Lemma logic_pushes wide k :
  pushes2 (JLogic wide k) (λ x y v, val_type v = (if wide then J_LONG else J_INT) ∧
    ∀ wd, binop (val_type v) match k with And => OP_AND | Or => OP_OR | Xor => OP_XOR end x y wd = Done v wd).
Proof. destruct wide, k; operands; by eexists _, _, _, _. Qed.
Lemma lcmp_pushes : pushes2 JLcmp (λ x y v, val_type v = J_INT ∧ ∀ wd, binop (val_type v) OP_CMP x y wd = Done v wd).
Proof. operands; by eexists _, _, _, _. Qed.
Lemma fcmp_pushes d n :
  n = -1 ∨ n = 1 →
  pushes2 (JFcmp d n) (λ x y v, val_type v = J_INT ∧
    ∀ wd, binop (val_type v) (if decide (n = 1) then OP_CMPG else OP_CMPL) x y wd = Done v wd).
Proof. intros [-> | ->]; destruct d; operands; by eexists _, _, _, _. Qed.

(** ** Conversions *)

Lemma sim_conversion c w from to i p :
  i = JConv from to → from ≠ to →
  sim c w (convert_conversion match to with NInt => J_INT | NLong => J_LONG | NFloat => J_FLOAT | NDouble => J_DOUBLE end) i p p.
Proof using Hmem.
  intros -> Hne h o ss M N V a s σ pend HM Hp Hc.
  destruct (match_settled _ _ _ _ _ _ _ _ _ _ _ _ _ HM) as (Hl0 & HS & Hw); [destruct pend; [by rewrite ?Hf in Hp; specialize (Hp eq_refl)|done]|].
  destruct σ as [l st wd]. cbn in *. destruct st as [|x S]; [done|].
  inversion HS as [|ex ? M' ? Hx HS']; subst. destruct (jconv from to x) as [v|] eqn:Ev; [|done]. cbn.
  unfold convert_conversion. step. destruct (Hx) as [Htx _]. apply co_bind. eapply co_type_of; [exact Htx|].
  clear Hc HM Hp.
  destruct from, to, x; try discriminate Ev; cbn in Ev; injection Ev as <-; cbn [val_type];
    repeat first [rewrite decide_True by (split; reflexivity) | rewrite decide_False by (intros [??]; discriminate)
                 |rewrite decide_True by reflexivity | rewrite decide_False by discriminate];
    apply co_bind; (apply co_alloc_expression; [exact Hmem|]); intros h1; unfold push_expr;
    (eapply co_push_type; [reflexivity|reflexivity|]); intros h2; (split; [reflexivity|]); exists s;
    (split; [reflexivity|]); (apply match_intro; [exact Hl0|constructor; [|exact HS']|reflexivity]);
    (eapply settled_1; [exact Hx|reflexivity|done|]); intros N' ρ wd E1; cbn; unfold bind; rewrite E1; reflexivity.
Qed.

Lemma sim_truncation c w t p :
  t = J_BYTE ∨ t = J_CHAR ∨ t = J_SHORT → sim c w (convert_truncation t) (JTrunc t) p p.
Proof using Hmem.
  intros Ht h o ss M N V a s σ pend HM Hp Hc.
  destruct (match_settled _ _ _ _ _ _ _ _ _ _ _ _ _ HM) as (Hl & HS & Hw); [destruct pend; [by rewrite ?Hf in Hp; specialize (Hp eq_refl)|done]|].
  destruct σ as [l st wd]. cbn in *. destruct st as [|[] S]; try done.
  inversion HS as [|ex ? M' ? Hx HS']; subst. destruct (Hx) as [Htx _].
  unfold convert_truncation. step. apply co_bind. eapply co_type_of; [exact Htx|]. rewrite decide_True by done. step. step.
  eapply (co_push _ (VInt 0)); [reflexivity|]. intros h2. split; [done|].
  destruct Ht as [->|[->| ->]]; cbn; exists s; (split; [done|]); (apply match_intro; cbn; [done| |done]); (constructor; [|done]);
    (eapply settled_1; [exact Hx|reflexivity|done|]); intros N' ρ wd E1; cbn; unfold bind; by rewrite E1.
Qed.

(** ** Variables *)

(** A temporary whose value has been stored is on top; its type has been widened. *)
Lemma match_temp_pushed t v wd l S h p o c w ss M N V a s :
  mimic_stack_type t = val_type v → later (i_world s) wd → l ⊆ e_locals (i_env s) → Forall2 (settled N (length V) s) M S →
  match_state (Loc h p o c w ss (EXPR_SHARED (length N) :: M)
      (pushed_nodes (EXPR_SHARED (length N)) t (N ++ [temp_node t (length V)])) (V ++ [t]) a)
    (with_temp (length V) v s wd) (JS l (v :: S) wd) false.
Proof.
  intros Hm Hw Hl HS. cbn [pushed_nodes]. set (N1 := N ++ [temp_node t (length V)]).
  assert (Hk : N1 !! length N = Some (temp_node t (length V))) by by apply list_lookup_middle.
  assert (HN : node_ext N1 (alter (retype_node (mimic_stack_type t)) (length N) N1)) by by eapply node_ext_alter.
  apply match_intro; cbn; [done| |done]. constructor.
  - split; [cbn; rewrite list_lookup_alter_eq, Hk; cbn; congruence|].
    eapply evals_mono; [apply with_temp_evals|exact HN|rewrite length_app; cbn; lia|apply agree_refl].
  - eapply settled_list_mono; [by apply settled_temp|exact HN|done|apply agree_refl].
Qed.

(** A value is read now, into a temporary, and pushed. *)
Lemma co_dup_push e t v wd l S h p o c w ss M N V a s (Q : unit → loc → outc → Prop) :
  vm_type_of N e = Some t → mimic_stack_type t = val_type v →
  (∀ Nf, node_ext N Nf → eval Nf (i_env s) e (i_world s) = Done v wd) →
  later (i_world s) wd → l ⊆ e_locals (i_env s) → Forall2 (settled N (length V) s) M S →
  (∀ L' s', l_pos L' = p → match_state L' s' (JS l (v :: S) wd) false → Q tt L' (Done INext s')) →
  co (let* d := dup_expr e in convert_expression d) (Loc h p o c w ss M N V a) (Done INext s) Q.
Proof using Hmem.
  intros Ht Hm He Hw Hl HS HQ. apply co_bind. eapply (co_dup e t v wd); [done..|]. intros h' ss'.
  eapply co_convert_expression with (t := t); [exact Hmem|cbn; by rewrite list_lookup_middle|]. intros h''.
  apply HQ; [done|]. by apply match_temp_pushed.
Qed.

Lemma sim_load c w idx t p : sim c w (convert_load idx t) (JLoad t idx) p p.
Proof using Hmem.
  intros h o ss M N V a s σ pend HM Hp Hc.
  destruct (match_settled _ _ _ _ _ _ _ _ _ _ _ _ _ HM) as (Hl & HS & Hw); [destruct pend; [by rewrite ?Hf in Hp; specialize (Hp eq_refl)|done]|].
  destruct σ as [l st wd]. cbn in *. destruct (l !! idx) as [v|] eqn:Ev; [|done].
  unfold push_typed, push in *. case_decide as Ht; [|done]. subst t wd. cbn.
  unfold convert_load. step. eapply (co_dup_push _ (val_type v) v (i_world s) l st).
  - by destruct (vm_type_is_float _).
  - apply mimic_val_type.
  - intros Nf HN. assert (E : e_locals (i_env s) !! idx = Some v) by by eapply lookup_weaken.
    by destruct (vm_type_is_float _); cbn; rewrite E; cbn; unfold bind, typed; cbn; rewrite decide_True.
  - reflexivity.
  - done.
  - done.
  - intros L' s' Hp' HM'. eauto.
Qed.

Lemma set_local_subseteq i v l l' : l ⊆ l' → set_local i v l ⊆ <[i := v]> l'.
Proof.
  intros Hl. unfold set_local. apply insert_mono. etrans; [|exact Hl].
  assert (∀ m : gmap Z val, (if pair_val v then delete (i + 1) m else m) ⊆ m) as Hd by (intros m; destruct (pair_val v); [apply delete_subseteq|done]).
  etrans; [apply Hd|]. destruct (l !! (i - 1)) as [x|]; [|done]. destruct (pair_val x); [apply delete_subseteq|done].
Qed.

(** The store of a value that may still be outstanding. *)
Lemma sim_store c w idx t p : sim c w (convert_store idx t) (JStore t idx) p p.
Proof using Hmem.
  intros h o ss M N V a s σ pend HM Hp Hc. pose proof (match_locals _ _ _ _ HM) as Hl.
  destruct σ as [l st wd]. cbn in *. destruct st as [|v S]; [done|].
  destruct (match_top _ _ _ _ v S HM eq_refl) as (e & M' & EM & (Ht & Hw & Hy & _) & HS). cbn in *. subst M.
  pose proof (λ N', yields_eval _ _ _ _ _ _ N' Hy) as He.
  case_decide as Hv; [|done]. subst t.
  unfold convert_store. step. step. step. step.
  eapply co_statement with (r' := Done INext (IS (set_env_local idx v (i_env s)) wd)).
  - intros Nf HN. rewrite exec_one. destruct (vm_type_is_float (val_type v)); cbn; unfold bind, ev, bind, get, on_world;
      by rewrite (He _ HN).
  - split; [done|]. cbn. eexists. split; [done|]. apply match_intro; cbn; [by apply set_local_subseteq| |done].
    eapply settled_list_mono; [exact HS|done|done|]. split_and!; done.
Qed.

(** ** Growing *)

(** Nodes and temporaries are added, and statements that make them run. *)
Definition grows (N : list shared) (V : list vm_type) (s : istate) (N' : list shared) (V' : list vm_type) (s' : istate) : Prop :=
  node_ext N N' ∧ (length V <= length V')%nat ∧ agree (length V) s s' ∧ e_locals (i_env s') = e_locals (i_env s).

Lemma grows_refl N V s : grows N V s N V s.
Proof. split_and!; [done|done|apply agree_refl|done]. Qed.
Lemma grows_trans N1 V1 s1 N2 V2 s2 N3 V3 s3 :
  grows N1 V1 s1 N2 V2 s2 → grows N2 V2 s2 N3 V3 s3 → grows N1 V1 s1 N3 V3 s3.
Proof.
  intros (N12 & V12 & A12 & L12) (N23 & V23 & A23 & L23).
  split_and!; [by etrans|lia|by eapply agree_trans|congruence].
Qed.
Lemma grows_settled N V s N' V' s' e v :
  grows N V s N' V' s' → settled N (length V) s e v → settled N' (length V') s' e v.
Proof. intros (HN & HV & HA & _) He. by eapply settled_mono. Qed.
Lemma grows_settled_list N V s N' V' s' M S :
  grows N V s N' V' s' → Forall2 (settled N (length V) s) M S → Forall2 (settled N' (length V') s') M S.
Proof. intros (HN & HV & HA & _) HM. by eapply settled_list_mono. Qed.
Lemma grows_top N V s N' V' s' e v w :
  grows N V s N' V' s' → i_world s' = i_world s → top_ok N (length V) s e v w → top_ok N' (length V') s' e v w.
Proof.
  intros G Hw (Ht & Hl & Hy & Hp). pose proof G as (HN & HV & HA & _). split_and!.
  - eapply vm_type_of_ext; [exact HN|exact Ht|apply mimic_val_type].
  - by rewrite Hw.
  - intros N2 s2 HN2 HA2 Hw2. apply Hy; [by etrans|by eapply agree_trans|congruence].
  - intros Hpu. destruct (Hp Hpu) as [He ->]. split; [by eapply grows_settled|done].
Qed.
Lemma grows_temp N V s t v w :
  later (i_world s) w → grows N V s (N ++ [temp_node t (length V)]) (V ++ [t]) (with_temp (length V) v s w).
Proof. intros Hw. split_and!; [apply node_ext_app|rewrite length_app; lia|by apply with_temp_agree|done]. Qed.

(** The value of an expression is kept, in itself or in a temporary. *)
Lemma co_get_pure e v wd h p o c w ss M N V a s (Q : expression → loc → outc → Prop) :
  top_ok N (length V) s e v wd →
  (∀ d h' ss' N' V' s', grows N V s N' V' s' → i_world s' = wd → expr_is_pure d = true →
     settled N' (length V') s' d v → Q d (Loc h' p o c w ss' M N' V' a) (Done INext s')) →
  co (get_pure_expr e) (Loc h p o c w ss M N V a) (Done INext s) Q.
Proof using Hmem.
  intros (Ht & Hw & He & Hs) HQ. unfold get_pure_expr. destruct (expr_is_pure e) eqn:Hp.
  - destruct (Hs eq_refl) as [Hs' ->]. apply co_ret. apply HQ; [apply grows_refl|done..].
  - eapply (co_dup e (val_type v) v wd); [done|intros; by eapply yields_eval|]. intros h' ss'.
    apply HQ; [by apply grows_temp|done|done|by apply temp_settled].
Qed.
Lemma co_get_pure_settled e v h p o c w ss M N V a s (Q : expression → loc → outc → Prop) :
  settled N (length V) s e v →
  (∀ d h' ss' N' V' s', grows N V s N' V' s' → i_world s' = i_world s → expr_is_pure d = true →
     settled N' (length V') s' d v → Q d (Loc h' p o c w ss' M N' V' a) (Done INext s')) →
  co (get_pure_expr e) (Loc h p o c w ss M N V a) (Done INext s) Q.
Proof using Hmem.
  intros Hs HQ. eapply co_get_pure; [by apply settled_top|done].
Qed.
(** A copy is pushed. *)
Lemma co_push_copy e v h p o c w ss M N V a s (Q : unit → loc → outc → Prop) :
  expr_is_pure e = true → settled N (length V) s e v →
  (∀ d h' ss' N' V' s', grows N V s N' V' s' → i_world s' = i_world s → settled N' (length V') s' d v →
     Q tt (Loc h' p o c w ss' (d :: M) N' V' a) (Done INext s')) →
  co (push_copy e) (Loc h p o c w ss M N V a) (Done INext s) Q.
Proof using Hmem.
  intros Hp Hs HQ. unfold push_copy. step. apply co_bind.
  eapply (co_dup e (val_type v) v (i_world s)); [apply Hs|intros; by eapply settled_eval|]. intros h' ss'.
  eapply (co_push _ v); [cbn; by rewrite list_lookup_middle|]. intros h''.
  apply HQ; [by apply grows_temp|done|by apply temp_settled].
Qed.
End ops.
