(* ===== verification/ConvertStack.v ===== *)
(** * The converters simulate their instructions: duplications, branches, returns *)

From S2P Require Import Prelude CMonad ConstantPool ClassFile Opcodes Bytecode Types BasicBlock Tree ArgsMap Convert.
From S2P Require Import ConvertRun JavaMachine TreeSem ConvertSim ConvertOps.
From stdpp Require Import gmap.
#[local] Open Scope Z_scope.

(** What is settled stays so. *)
Ltac keep_settled :=
  repeat match goal with
    | G : grows ?N ?V ?s _ _ _, S : settled ?N (length ?V) ?s _ _ |- _ => apply (grows_settled _ _ _ _ _ _ _ _ G) in S
    | G : grows ?N ?V ?s _ _ _, S : Forall2 (settled ?N (length ?V) ?s) _ _ |- _ => apply (grows_settled_list _ _ _ _ _ _ _ _ G) in S
    end.
(** The local variables are those of the first state. *)
Ltac same_locals :=
  repeat match goal with G : grows _ _ _ _ _ _ |- _ => let E := fresh "E" in destruct G as (_ & _ & _ & E); rewrite E; clear E end.
(** The end of a simulation: the states match. *)
Ltac matches :=
  split; [reflexivity|]; eexists; split; [reflexivity|]; apply match_intro; cbn [l_nodes l_vars l_stack];
    [same_locals; assumption|repeat (constructor; [eassumption|]); assumption|cbn; congruence].

(** Each step of a duplication. *)
Ltac dup_step :=
  lazymatch goal with
  | |- ConvertSim.co _ _ (bind (get_pure_expr _) _) _ _ _ =>
    apply co_bind; eapply co_get_pure_settled; [assumption|eassumption|]; intros; keep_settled
  | |- ConvertSim.co _ _ (bind (convert_expression _) _) _ _ _ =>
    apply co_bind; eapply co_push; [assumption|match goal with S : settled _ _ _ ?e ?v |- vm_type_of _ ?e = _ => apply S end|]; intros
  | |- ConvertSim.co _ _ (convert_expression _) _ _ _ =>
    eapply co_push; [assumption|match goal with S : settled _ _ _ ?e ?v |- vm_type_of _ ?e = _ => apply S end|]; intros
  | |- ConvertSim.co _ _ (bind (push_copy _) _) _ _ _ =>
    apply co_bind; eapply co_push_copy; [assumption|eassumption|eassumption|]; intros; keep_settled
  | |- ConvertSim.co _ _ (push_copy _) _ _ _ => eapply co_push_copy; [assumption|eassumption|eassumption|]; intros; keep_settled
  end.

Section ops.
Context `{Allocator} `{Resolver} `{FloatsLaws} `{!JavaHeap} `{!JavaHeapLaws} (code : list Z).
Context (u : ir_unit) (b : nat).
Context (Hmem : always_ok).

#[local] Abbreviation co := (co u b).
#[local] Abbreviation outc := (CMonad.outcome istate exc ictl).
#[local] Abbreviation sim := (sim u b).

(** ** The stack instructions *)

Section dups.
Context (h : mem) (p o c : Z) (w : bool) (ss : list (Z * statement)) (M : list expression) (N : list shared)
  (V : list vm_type) (a : bool) (s : istate) (l : gmap Z val) (S : list val).
Context (Hl : l ⊆ e_locals (i_env s)) (HS : Forall2 (settled N (length V) s) M S).

Definition matched (S' : list val) (L : loc) (r : outc) : Prop :=
  l_pos L = p ∧ ∃ s', r = Done INext s' ∧ match_state L s' (JS l S' (i_world s)) false.

Lemma co_dup_x1 e1 v1 e2 v2 :
  settled N (length V) s e1 v1 → settled N (length V) s e2 v2 →
  co (__convert_dup_x1 e1 e2) (Loc h p o c w ss M N V a) (Done INext s) (λ _, matched (v1 :: v2 :: v1 :: S)).
Proof using Hmem Hl HS. intros. unfold __convert_dup_x1. do 4 dup_step. matches. Qed.
Lemma co_dup_x2 e1 v1 e2 v2 e3 v3 :
  settled N (length V) s e1 v1 → settled N (length V) s e2 v2 → settled N (length V) s e3 v3 →
  co (__convert_dup_x2 e1 e2 e3) (Loc h p o c w ss M N V a) (Done INext s) (λ _, matched (v1 :: v2 :: v3 :: v1 :: S)).
Proof using Hmem Hl HS. intros. unfold __convert_dup_x2. do 5 dup_step. matches. Qed.
Lemma co_dup2 e1 v1 e2 v2 :
  settled N (length V) s e1 v1 → settled N (length V) s e2 v2 →
  co (__convert_dup2 e1 e2) (Loc h p o c w ss M N V a) (Done INext s) (λ _, matched (v1 :: v2 :: v1 :: v2 :: S)).
Proof using Hmem Hl HS. intros. unfold __convert_dup2. do 6 dup_step. matches. Qed.
Lemma co_dup2_x1 e1 v1 e2 v2 e3 v3 :
  settled N (length V) s e1 v1 → settled N (length V) s e2 v2 → settled N (length V) s e3 v3 →
  co (__convert_dup2_x1 e1 e2 e3) (Loc h p o c w ss M N V a) (Done INext s) (λ _, matched (v1 :: v2 :: v3 :: v1 :: v2 :: S)).
Proof using Hmem Hl HS. intros. unfold __convert_dup2_x1. do 7 dup_step. matches. Qed.
Lemma co_dup2_x2 e1 v1 e2 v2 e3 v3 e4 v4 :
  settled N (length V) s e1 v1 → settled N (length V) s e2 v2 → settled N (length V) s e3 v3 → settled N (length V) s e4 v4 →
  co (__convert_dup2_x2 e1 e2 e3 e4) (Loc h p o c w ss M N V a) (Done INext s)
    (λ _, matched (v1 :: v2 :: v3 :: v4 :: v1 :: v2 :: S)).
Proof using Hmem Hl HS. intros. unfold __convert_dup2_x2. do 8 dup_step. matches. Qed.
End dups.

(** Taking apart a match in which nothing is outstanding, with some operands. *)
Ltac unmatch HM Hp :=
  let Hl := fresh "Hl" in let HS := fresh "HS" in let Hw := fresh "Hw" in
  destruct (match_settled _ _ _ _ _ _ _ _ _ _ _ _ _ HM) as (Hl & HS & Hw);
    [match type of HM with match_state _ _ _ ?pend => destruct pend; naive_solver end|].

(** A duplication of the top, which may be outstanding. *)
Lemma co_dup_top v S h p o c w ss M N V a s σ pend :
  match_state (Loc h p o c w ss M N V a) s σ pend → j_stack σ = v :: S →
  co (let* e := stack_pop in __convert_dup e) (Loc h p o c w ss M N V a) (Done INext s)
    (λ _ L r, l_pos L = p ∧ ∃ s', r = Done INext s' ∧ match_state L s' (JS (j_locals σ) (v :: v :: S) (j_world σ)) false).
Proof using Hmem.
  intros HM ES. pose proof (match_locals _ _ _ _ HM) as Hl.
  destruct (match_top _ _ _ _ v S HM ES) as (e & M' & EM & He & HS). cbn in *. subst M. destruct (He) as (_ & Hw & _).
  step. unfold __convert_dup. apply co_bind. eapply (co_get_pure _ _ Hmem e v (j_world σ)); [done|].
  intros. keep_settled. do 2 dup_step. matches.
Qed.

Lemma sim_dup c w p : sim c w convert_dup JDup p p.
Proof using Hmem.
  intros h o ss M N V a s [l st wd] pend HM Hp Hc. cbn in *.
  destruct st as [|v S]; [done|]. cbn in *. destruct (pair_val v) eqn:Ev; cbn in *; rewrite ?Ev in *; [done|].
  eapply co_mono; [eapply co_dup_top; [exact HM|done]|]. done.
Qed.

Lemma sim_pop c w p : sim c w convert_pop JPop p p.
Proof using Hmem.
  intros h o ss M N V a s [l st wd] pend HM Hp Hc. unmatch HM Hp. cbn in *.
  destruct st as [|v S]; [done|]. cbn in *. destruct (pair_val v) eqn:Ev; cbn in *; [done|].
  inversion HS as [|e ? M' ? He HS']; subst. unfold convert_pop. step. step. matches.
Qed.
Lemma sim_pop2 c w p : sim c w convert_pop2 JPop2 p p.
Proof using Hmem.
  intros h o ss M N V a s [l st wd] pend HM Hp Hc. unmatch HM Hp. cbn in *.
  destruct st as [|v S]; [done|]. inversion HS as [|e ? M' ? He HS']; subst.
  unfold convert_pop2. step. apply co_bind. eapply co_type_of; [apply He|]. fold (pair_val v).
  cbn in *. destruct (pair_val v) eqn:Ev; cbn in *.
  - destruct S; cbn in *; step; matches.
  - destruct S as [|v2 S]; [done|]. cbn in *. inversion HS' as [|e2 ? M2 ? He2 HS2]; subst.
    step. apply co_bind. eapply co_type_of; [apply He2|]. fold (pair_val v2). destruct (pair_val v2); [done|].
    step. step. matches.
Qed.
Lemma sim_swap c w p : sim c w convert_swap JSwap p p.
Proof using Hmem.
  intros h o ss M N V a s [l st wd] pend HM Hp Hc. unmatch HM Hp. cbn in *.
  destruct st as [|v [|v2 S]]; cbn in *; [done|by destruct (pair_val v)|].
  destruct (pair_val v) eqn:E1, (pair_val v2) eqn:E2; cbn in *; try done.
  inversion HS as [|e ? M' ? He HS']; subst. inversion HS' as [|e2 ? M2 ? He2 HS2]; subst.
  unfold convert_swap. step. step. do 2 dup_step. matches.
Qed.

(** The sizes of the operands decide the form. *)
Lemma is_long_or_double_val v : is_long_or_double (val_type v) = pair_val v.
Proof. by destruct v. Qed.
Lemma slot_size_val v : bool_decide (vm_type_slot_size (val_type v) = 2) = pair_val v.
Proof. by destruct v. Qed.

Lemma sim_dup_x1 c w p : sim c w convert_dup_x1 JDup_x1 p p.
Proof using Hmem.
  intros h o ss M N V a s [l st wd] pend HM Hp Hc. unmatch HM Hp. cbn in *.
  destruct st as [|v [|v2 S]]; cbn in *; [done|by destruct (pair_val v)|].
  destruct (pair_val v) eqn:E1, (pair_val v2) eqn:E2; cbn in *; try done.
  inversion HS as [|e ? M' ? He HS']; subst. inversion HS' as [|e2 ? M2 ? He2 HS2]; subst.
  unfold convert_dup_x1. step. step. by eapply co_dup_x1.
Qed.
Lemma sim_dup_x2 c w p : sim c w convert_dup_x2 JDup_x2 p p.
Proof using Hmem.
  intros h o ss M N V a s [l st wd] pend HM Hp Hc. unmatch HM Hp. cbn in *.
  destruct st as [|v [|v2 S]]; cbn in *; [done|by destruct (pair_val v)|].
  inversion HS as [|e ? M' ? He HS']; subst. inversion HS' as [|e2 ? M2 ? He2 HS2]; subst.
  unfold convert_dup_x2. step. step. apply co_bind. eapply co_type_of; [apply He2|].
  rewrite decide_bool_decide, slot_size_val.
  destruct (pair_val v) eqn:E1, (pair_val v2) eqn:E2; cbn in *; try done.
  - destruct S; by eapply co_dup_x1.
  - destruct S as [|v3 S]; [done|]. cbn in *. destruct (pair_val v3); [done|].
    inversion HS2 as [|e3 ? M3 ? He3 HS3]; subst. step. by eapply co_dup_x2.
Qed.
Lemma sim_dup2 c w p : sim c w convert_dup2 JDup2 p p.
Proof using Hmem.
  intros h o ss M N V a s [l st wd] pend HM Hp Hc. pose proof HM as HM0. unmatch HM Hp. cbn in *.
  destruct st as [|v S]; [done|]. cbn in *. inversion HS as [|e ? M' ? He HS']; subst.
  unfold convert_dup2. step. apply co_bind. eapply co_type_of; [apply He|]. rewrite is_long_or_double_val.
  destruct (pair_val v) eqn:E1; cbn in *.
  - unfold __convert_dup. do 3 dup_step. destruct S; cbn; matches.
  - destruct S as [|v2 S]; [done|]. cbn in *. destruct (pair_val v2); [done|].
    inversion HS' as [|e2 ? M2 ? He2 HS2]; subst. step. by eapply co_dup2.
Qed.
Lemma sim_dup2_x1 c w p : sim c w convert_dup2_x1 JDup2_x1 p p.
Proof using Hmem.
  intros h o ss M N V a s [l st wd] pend HM Hp Hc. unmatch HM Hp. cbn in *.
  destruct st as [|v [|v2 S]]; cbn in *; [done|by destruct (pair_val v)|].
  inversion HS as [|e ? M' ? He HS']; subst. inversion HS' as [|e2 ? M2 ? He2 HS2]; subst.
  unfold convert_dup2_x1. step. step. apply co_bind. eapply co_type_of; [apply He|]. rewrite is_long_or_double_val.
  destruct (pair_val v) eqn:E1, (pair_val v2) eqn:E2; cbn in *; try done.
  - destruct S; by eapply co_dup_x1.
  - destruct S as [|v3 S]; [done|]. cbn in *. destruct (pair_val v3); [done|].
    inversion HS2 as [|e3 ? M3 ? He3 HS3]; subst. step. by eapply co_dup2_x1.
Qed.
Lemma sim_dup2_x2 c w p : sim c w convert_dup2_x2 JDup2_x2 p p.
Proof using Hmem.
  intros h o ss M N V a s [l st wd] pend HM Hp Hc. unmatch HM Hp. cbn in *.
  destruct st as [|v [|v2 S]]; cbn in *; [done|by destruct (pair_val v)|].
  inversion HS as [|e ? M' ? He HS']; subst. inversion HS' as [|e2 ? M2 ? He2 HS2]; subst.
  unfold convert_dup2_x2. step. step. apply co_bind. eapply co_type_of; [apply He|]. rewrite is_long_or_double_val.
  destruct (pair_val v) eqn:E1; cbn in *.
  - apply co_bind. eapply co_type_of; [apply He2|]. rewrite is_long_or_double_val.
    destruct (pair_val v2) eqn:E2; cbn in *; [destruct S; by eapply co_dup_x1|].
    destruct S as [|v3 S]; [done|]. cbn in *. destruct (pair_val v3); [done|].
    inversion HS2 as [|e3 ? M3 ? He3 HS3]; subst. step. by eapply co_dup_x2.
  - destruct (pair_val v2) eqn:E2; cbn in *; [done|]. destruct S as [|v3 S]; [done|].
    inversion HS2 as [|e3 ? M3 ? He3 HS3]; subst. step. apply co_bind. eapply co_type_of; [apply He3|].
    rewrite is_long_or_double_val. cbn in *. destruct (pair_val v3) eqn:E3; cbn in *; [destruct S; by eapply co_dup2_x1|].
    destruct S as [|v4 S]; [done|]. cbn in *. destruct (pair_val v4); [done|].
    inversion HS3 as [|e4 ? M4 ? He4 HS4]; subst. step. by eapply co_dup2_x2.
Qed.

(** ** Increments, branches, returns *)

Lemma sim_nop c w p : sim c w convert_nop JNop p p.
Proof.
  intros h o ss M N V a s σ pend HM Hp Hc. apply co_ret. split; [done|]. exists s. split; [done|].
  by destruct pend; [specialize (Hp eq_refl)|].
Qed.

(** A condition on two settled operands. *)
Lemma exec_if Nf o t op el er bb s x y zx zy cnd :
  eval Nf (i_env s) el (i_world s) = Done x (i_world s) → eval Nf (i_env s) er (i_world s) = Done y (i_world s) →
  number x = Some zx → number y = Some zy → condition op zx zy = Some cnd →
  exec_from Nf (Done INext s) [(o, STMT_IF (EXPR_BINOP t op el er) bb)] = Done (if (cnd : bool) then IJump bb else INext) s.
Proof.
  intros Ex Ey Nx Ny Hc. rewrite exec_one. unfold exec_stmt, ev, bind, get, on_world. rewrite Ex. cbn. rewrite Ey. cbn.
  rewrite Nx. cbn. rewrite Ny. cbn. rewrite Hc. cbn. by destruct s.
Qed.
Definition cond_op (c : cond) : binary_operator :=
  match c with CEq => OP_EQ | CNe => OP_NE | CLt => OP_LT | CGe => OP_GE | CGt => OP_GT | CLe => OP_LE end.
Lemma condition_test c x y : condition (cond_op c) x y = Some (test c x y).
Proof. by destruct c. Qed.

Context (Hfind : ∀ off, is_Some (find_in (bbs (cfg u)) (bb_list (cfg u)) off)).

Lemma co_find_target t h p o c w ss M N V a r (Q : option nat → loc → outc → Prop) :
  (∀ bb, find_in (bbs (cfg u)) (bb_list (cfg u)) (u64 (o + t)) = Some bb → Q bb (Loc h p o c w ss M N V a) r) →
  co (find_target t) (Loc h p o c w ss M N V a) r Q.
Proof using Hfind.
  intros HQ. destruct (Hfind (u64 (o + t))) as [bb Ebb]. apply co_runs. exists bb, (Loc h p o c w ss M N V a).
  split; [|split; [by apply frame_same|by apply HQ]].
  unfold find_target, bind, get, on_cfg, find_bb, bind, get. cbn. rewrite Ebb. cbn. done.
Qed.

(** The end of a conditional branch. *)
Lemma co_if_stmt t op el er x y zx zy cn off S l h p o c w ss M N V a s :
  op = cond_op cn → settled N (length V) s el x → settled N (length V) s er y →
  number x = Some zx → number y = Some zy →
  l ⊆ e_locals (i_env s) → Forall2 (settled N (length V) s) M S →
  ∀ bb, find_in (bbs (cfg u)) (bb_list (cfg u)) (u64 (o + off)) = Some bb →
  co (if_stmt bb t op el er) (Loc h p o c w ss M N V a) (Done INext s)
    (λ stmt L r, co match stmt with None => enomem | Some s => convert_statement s end L r
      (λ _ L r, l_pos L = p ∧ result_match u (branch (JS l S (i_world s)) S (test cn zx zy) (o + off)) L r false)).
Proof using Hmem.
  intros -> Hx Hy Nx Ny Hl HS bb Hbb. unfold if_stmt. step. step. step.
  eapply co_statement with (r' := Done (if test cn zx zy then IJump bb else INext) s).
  - intros Nf HN. eapply exec_if; [by eapply settled_eval|by eapply settled_eval|done|done|apply condition_test].
  - split; [done|]. unfold branch. destruct (test cn zx zy); cbn.
    + eexists _, _. split_and!; [done|done|]. by apply match_intro.
    + eexists. split; [done|]. by apply match_intro.
Qed.

(** Operands are read first, or come from the opcode. *)
Lemma match_pos h p q o c w ss M N V a s σ pend :
  match_state (Loc h p o c w ss M N V a) s σ pend → match_state (Loc h q o c w ss M N V a) s σ pend.
Proof. intros [Hl HM]. by split. Qed.
Lemma sim_read {A} c w (f : bytecode_buffer → option (A * bytecode_buffer)) x (k : A → K unit) i p q p' :
  f (BytecodeBuffer code p) = Some (x, BytecodeBuffer code q) → sim c w (k x) i q p' →
  sim c w (let* x := read code f in k x) i p p'.
Proof.
  intros Hf Hk h o ss M N V a s σ pend HM Hp Hc. apply co_bind. eapply co_read; [exact Hf|].
  apply (Hk h o ss M N V a s σ pend); [by eapply match_pos|done..].
Qed.
Lemma sim_opc_minus c w n (k : Z → K unit) i p p' :
  sim c w (k (c - n)) i p p' → sim c w (let* n := opc_minus n in k n) i p p'.
Proof.
  intros Hk h o ss M N V a s σ pend HM Hp Hc. apply co_bind. unfold opc_minus. step. step. by eapply Hk.
Qed.
Lemma sim_read_index c (w : bool) x (k : Z → K unit) i p q p' :
  (if w then bytecode_read_u16 else bytecode_read_u8) (BytecodeBuffer code p) = Some (x, BytecodeBuffer code q) →
  sim c w (k x) i q p' → sim c w (let* x := read_index code in k x) i p p'.
Proof.
  intros Hf Hk h o ss M N V a s σ pend HM Hp Hc. apply co_bind. unfold read_index. step.
  destruct w; (eapply co_read; [exact Hf|]); (apply (Hk h o ss M N V a s σ pend); [by eapply match_pos|done..]).
Qed.

Lemma co_read_target off h p q o c w ss M N V a r (Q : Z → loc → outc → Prop) :
  bytecode_read_branch_target c (BytecodeBuffer code p) = Some (off, BytecodeBuffer code q) →
  Q off (Loc h q o c w ss M N V a) r → co (read_branch_target code) (Loc h p o c w ss M N V a) r Q.
Proof. intros Hf HQ. unfold read_branch_target. step. by eapply co_read. Qed.

Lemma sim_if c w cn off i p q :
  bytecode_read_branch_target c (BytecodeBuffer code p) = Some (off, BytecodeBuffer code q) →
  i = JIf cn off ∨ i = JIfNull cn off → sim c w (convert_if code (cond_op cn)) i p q.
Proof using Hmem Hfind.
  intros Hr Hi h o ss M N V a s [l st wd] pend HM Hp Hc. unmatch HM Hp.
  assert (∃ x S z, st = x :: S ∧ number x = Some z ∧ jexec o i (JS l st wd) = branch (JS l st wd) S (test cn z 0) (o + off))
    as (x & S & z & -> & Nx & ->).
  { destruct Hi; subst; cbn in *; destruct st as [|[] S]; try done; by eexists _, _, _. }
  cbn in *. subst wd. inversion HS as [|e ? M' ? He HS']; subst.
  unfold convert_if. step. step. unfold __convert_if. apply co_bind. apply co_bind. eapply co_read_target; [exact Hr|].
  apply co_bind, co_find_target. intros bb Hbb.
  eapply (co_mono _ _ _ _ _ (λ stmt L r, co match stmt with None => enomem | Some s => convert_statement s end L r
      (λ _ L r, l_pos L = q ∧ result_match u (branch (JS l S (i_world s)) S (test cn z 0) (o + off)) L r false))).
  { eapply (co_if_stmt J_INT _ _ _ x (VInt 0)); [done|exact He|by apply settled_0|done..]. }
  intros stmt L r HQ. eapply co_mono; [exact HQ|]. intros _ L' r' [? HR]. split; [done|].
  destruct Hi; subst; exact HR.
Qed.
Lemma sim_if_cmp c w cn off i t p q :
  bytecode_read_branch_target c (BytecodeBuffer code p) = Some (off, BytecodeBuffer code q) →
  i = JIfIcmp cn off ∨ i = JIfAcmp cn off → sim c w (convert_if_cmp code t (cond_op cn)) i p q.
Proof using Hmem Hfind.
  intros Hr Hi h o ss M N V a s [l st wd] pend HM Hp Hc. unmatch HM Hp.
  assert (∃ x y S zx zy, st = y :: x :: S ∧ number x = Some zx ∧ number y = Some zy ∧
    jexec o i (JS l st wd) = branch (JS l st wd) S (test cn zx zy) (o + off)) as (x & y & S & zx & zy & -> & Nx & Ny & ->).
  { destruct Hi; subst; cbn in *; destruct st as [|[] [|[] S]]; try done; by eexists _, _, _, _, _. }
  cbn in *. subst wd. inversion HS as [|ey ? M' ? Hy HS']; subst. inversion HS' as [|ex ? M2 ? Hx HS2]; subst.
  unfold convert_if_cmp. step. step. unfold __convert_if. apply co_bind. apply co_bind. eapply co_read_target; [exact Hr|].
  apply co_bind, co_find_target. intros bb Hbb.
  eapply (co_mono _ _ _ _ _ (λ stmt L r, co match stmt with None => enomem | Some s => convert_statement s end L r
      (λ _ L r, l_pos L = q ∧ result_match u (branch (JS l S (i_world s)) S (test cn zx zy) (o + off)) L r false))).
  { by eapply (co_if_stmt t _ _ _ x y). }
  intros stmt L r HQ. eapply co_mono; [exact HQ|]. intros _ L' r' [? HR]. split; [done|].
  destruct Hi; subst; exact HR.
Qed.
Lemma sim_goto c w off p q :
  bytecode_read_branch_target c (BytecodeBuffer code p) = Some (off, BytecodeBuffer code q) →
  sim c w (convert_goto code) (JGoto off) p q.
Proof using Hmem Hfind.
  intros Hr h o ss M N V a s [l st wd] pend HM Hp Hc. unmatch HM Hp. cbn in *. subst wd.
  unfold convert_goto. apply co_bind. eapply co_read_target; [exact Hr|]. apply co_bind, co_find_target. intros bb Hbb. step.
  eapply co_statement with (r' := Done (IJump bb) s); [done|]. split; [done|]. eexists _, _. split_and!; [done|done|].
  by apply match_intro.
Qed.

Lemma sim_iinc c (w : bool) idx k p q r :
  (if w then bytecode_read_u16 else bytecode_read_u8) (BytecodeBuffer code p) = Some (idx, BytecodeBuffer code q) →
  (if w then bytecode_read_s16 else bytecode_read_s8) (BytecodeBuffer code q) = Some (k, BytecodeBuffer code r) →
  - 2 ^ 31 <= k < 2 ^ 31 →
  sim c w (convert_iinc code) (JIinc idx k) p r.
Proof using Hmem.
  intros H1' H2' Hk h o ss M N V a s [l st wd] pend HM Hp Hc. unmatch HM Hp. cbn in *. subst wd.
  destruct (l !! idx) as [[z| | | | | ]|] eqn:Ez; try done.
  assert (Ez' : e_locals (i_env s) !! idx = Some (VInt z)) by by eapply lookup_weaken.
  unfold convert_iinc. step. step.
  assert (R1 : ∀ L r Q, co (read code (if w then bytecode_read_u16 else bytecode_read_u8)) L r Q →
    co (if w then read code bytecode_read_u16 else read code bytecode_read_u8) L r Q) by by destruct w.
  assert (R2 : ∀ L r Q, co (read code (if w then bytecode_read_s16 else bytecode_read_s8)) L r Q →
    co (if w then read code bytecode_read_s16 else read code bytecode_read_s8) L r Q) by by destruct w.
  apply co_bind, R1. eapply co_read; [exact H1'|]. apply co_bind, R2. eapply co_read; [exact H2'|].
  step. step. apply co_bind, co_expr_get; [done|]. step.
  eapply co_statement with (r' := Done INext (IS (set_env_local idx (VInt (s32 (z + k))) (i_env s)) (i_world s))).
  - intros Nf HN. change (vm_type_is_float J_INT) with false. rewrite exec_one. cbn. unfold bind, ev, bind, get, on_world. cbn. rewrite Ez'. cbn.
    by rewrite s32_u64.
  - split; [done|]. eexists. split; [done|]. apply match_intro; cbn; [by apply set_local_subseteq| |done].
    eapply settled_list_mono; [exact HS|done|done|]. split_and!; done.
Qed.
End ops.
