(* ===== verification/ConvertHeap.v ===== *)
(** * The converters simulate their instructions: returns, constants, fields, arrays, objects *)

From S2P Require Import Prelude CMonad ConstantPool ClassFile Opcodes Bytecode Types BasicBlock Tree ArgsMap Convert.
From S2P Require Import ConvertRun JavaMachine TreeSem ConvertSim ConvertOps ConvertStack.
From stdpp Require Import gmap.
#[local] Open Scope Z_scope.

(** Taking apart a match in which nothing is outstanding. *)
Ltac unmatch HM Hp :=
  let Hl := fresh "Hl" in let HS := fresh "HS" in let Hw := fresh "Hw" in
  destruct (match_settled _ _ _ _ _ _ _ _ _ _ _ _ _ HM) as (Hl & HS & Hw);
    [match type of HM with match_state _ _ _ ?pend => destruct pend; naive_solver end|].
(** The expressions of a value on the stack. *)
Ltac unstack HS e He HS' :=
  let M' := fresh "M" in inversion HS as [|e ? M' ? He HS']; subst; clear HS.

Section ops.
Context `{Allocator} `{Resolver} `{FloatsLaws} `{!JavaHeap} `{!JavaHeapLaws} (code : list Z).
Context (u : ir_unit) (b : nat).
Context (Hmem : always_ok).

#[local] Abbreviation co := (co u b).
#[local] Abbreviation outc := (CMonad.outcome istate exc ictl).
#[local] Abbreviation sim := (sim u b).

(** ** Returns *)

Lemma sim_xreturn c w t p : sim c w convert_xreturn (JReturn (Some t)) p p.
Proof using Hmem.
  intros h o ss M N V a s [l st wd] pend HM Hp Hc. cbn in *. destruct st as [|v S]; [done|].
  destruct (match_top _ _ _ _ v S HM eq_refl) as (e & M' & EM & (Ht & Hw & Hy & _) & HS). cbn in *. subst M.
  pose proof (λ N', yields_eval _ _ _ _ _ _ N' Hy) as He.
  case_decide as Hv; [|done]. unfold convert_xreturn. step. step. apply co_bind.
  eapply co_statement with (r' := Done (IRet (Some v)) (IS (i_env s) wd)).
  - intros Nf HN. rewrite exec_one. cbn. unfold bind, ev, bind, get, on_world. by rewrite (He _ HN).
  - step. split; [done|]. by eexists.
Qed.
Lemma sim_return c w p : sim c w convert_return (JReturn None) p p.
Proof using Hmem.
  intros h o ss M N V a s [l st wd] pend HM Hp Hc. unmatch HM Hp. cbn in *.
  unfold convert_return. step. apply co_bind.
  eapply co_statement with (r' := Done (IRet None) s); [done|]. step. split; [done|]. by eexists.
Qed.

(** ** Constants of the pool *)

Lemma get_long_value hi lo : cafebabe_constant_pool_get_long hi lo = s64 (2 ^ 32 * hi + lo).
Proof.
  unfold cafebabe_constant_pool_get_long, s64, signed, u64. rewrite Z.shiftl_mul_pow2 by lia.
  rewrite Z.mod_mod, Zplus_mod_idemp_l, (Z.mul_comm hi) by lia. done.
Qed.
Lemma sim_ldc c w wide idx p : sim c w (__convert_ldc idx) (JLdc wide idx) p p.
Proof using Hmem H2.
  intros h o ss M N V a s [l st wd] pend HM Hp Hc. unmatch HM Hp. cbn in *.
  destruct (constant_value idx) as [v|] eqn:Ev; [|done]. case_decide as Hwide; [|done]. cbn.
  unfold __convert_ldc. unfold constant_value in Ev.
  destruct (cafebabe_class_constant_index_invalid resolver_class idx); [done|].
  destruct (mjoin (constant_pool resolver_class !! Z.to_nat idx)) as [cp|]; [|done]. cbn in Ev. step.
  assert (∃ e, (∀ N', vm_type_of N' e = Some (val_type v)) ∧ expr_is_pure e = true ∧ (∀ N' ρ wd, eval N' ρ e wd = Done v wd) ∧
    ∀ L r Q, co (let* expr := alloc_expression e in push_expr expr) L r Q →
      co (let* expr :=
        match cp with
        | CPInteger b => value_expr J_INT (cafebabe_constant_pool_get_integer b)
        | CPFloat b => fvalue_expr J_FLOAT (DFloatBits b)
        | CPString string_index =>
          match cafebabe_class_constant_get_utf8 resolver_class string_index tt with
          | Fail _ _ => einval
          | Undef => undef
          | Done utf8 _ =>
            match vm_object_alloc_string_from_utf8 (bytes_data (utf8_bytes utf8)) (utf8_length utf8) with
            | None => enomem
            | Some string => value_expr J_REFERENCE string
            end
          end
        | CPLong h l => value_expr J_LONG (cafebabe_constant_pool_get_long h l)
        | CPDouble h l => fvalue_expr J_DOUBLE (DDoubleBits l h)
        | CPClass _ =>
          match vm_class_resolve_class idx with
          | None => einval
          | Some r => if decide (vm_class_ensure_object r ≠ 0) then fail (Err (-1)) else value_expr J_REFERENCE (class_object r)
          end
        | _ => einval
        end in push_expr expr) L r Q) as (e & Ht & Hpu & He & Hco).
  { destruct cp; cbn in *; try done.
    - simplify_eq. eexists. split_and!; [|..|intros L r Q HQ; exact HQ]; [done|done|]. intros. cbn.
      rewrite s32_u64; [done|]. by apply (signed_range 32).
    - simplify_eq. eexists. split_and!; [|..|intros L r Q HQ; exact HQ]; [done|done|]. intros. cbn. by rewrite d2f_f2d.
    - simplify_eq. eexists. split_and!; [|..|intros L r Q HQ; exact HQ]; [done|done|]. intros. cbn.
      rewrite get_long_value, s64_u64; [done|]. by apply (signed_range 64).
    - simplify_eq. eexists. split_and!; [|..|intros L r Q HQ; exact HQ]; done.
    - destruct (vm_class_resolve_class idx) as [cl|]; [|done]. cbn in Ev. case_decide as He; [|done].
      rewrite decide_False by (intros Hn; by apply Hn). unfold object_ref in Ev. case_decide; [|done]. simplify_eq.
      eexists. split_and!; [|..|intros L r Q HQ; exact HQ]; [done|done|]. intros. cbn. unfold u64. by rewrite Z.mod_small.
    - destruct (cafebabe_class_constant_get_utf8 _ _ _) as [u8 ?| |]; [|done..].
      destruct (vm_object_alloc_string_from_utf8 _ _) as [str|]; [|done]. cbn in Ev. unfold object_ref in Ev.
      case_decide; [|done]. simplify_eq.
      eexists. split_and!; [|..|intros L r Q HQ; exact HQ]; [done|done|]. intros. cbn. unfold u64. by rewrite Z.mod_small. }
  apply Hco. step. step. eapply co_push; [done|by apply Ht|]. intros h2.
  split; [done|]. exists s. split; [done|]. apply match_intro; cbn; [done| |done]. constructor; [by apply settled_0|done].
Qed.

(** ** After a failure *)

(** The statements that are added do not run; the trees are made as before. *)
Lemma co_statement_failed st x s h p o c w ss M N V a (Q : unit → loc → outc → Prop) :
  (∀ ss', Q tt (Loc h p o c w ss' M N V a) (Fail x s)) →
  co (convert_statement st) (Loc h p o c w ss M N V a) (Fail x s) Q.
Proof. intros HQ. by eapply co_statement with (r' := Fail x s). Qed.
Lemma co_get_pure_failed e t x s h p o c w ss M N V a (Q : expression → loc → outc → Prop) :
  vm_type_of N e = Some t → mimic_stack_type t = t →
  (∀ d h' ss' N' V', node_ext N N' → expr_is_pure d = true → vm_type_of N' d = Some t →
     Q d (Loc h' p o c w ss' M N' V' a) (Fail x s)) →
  co (get_pure_expr e) (Loc h p o c w ss M N V a) (Fail x s) Q.
Proof using Hmem.
  intros Ht Hm HQ. unfold get_pure_expr. destruct (expr_is_pure e) eqn:Hp.
  - apply co_ret. by apply HQ.
  - eapply co_dup_failed; [done..|]. intros h' ss'. apply HQ; [apply node_ext_app|done|]. cbn. by rewrite list_lookup_middle.
Qed.

(** A value that is read now and pushed, when reading it throws. *)
Lemma co_dup_push_fails e t x wd h p o c w ss M N V a s (Q : unit → loc → outc → Prop) :
  vm_type_of N e = Some t →
  (∀ Nf, node_ext N Nf → eval Nf (i_env s) e (i_world s) = Fail x wd) →
  (∀ L', l_pos L' = p → Q tt L' (Fail x (IS (i_env s) wd))) →
  co (let* d := dup_expr e in convert_expression d) (Loc h p o c w ss M N V a) (Done INext s) Q.
Proof using Hmem.
  intros Ht He HQ. apply co_bind. eapply co_dup_fails; [done..|]. intros h' ss'.
  eapply co_convert_expression with (t := t); [done|cbn; by rewrite list_lookup_middle|]. intros h''. by apply HQ.
Qed.

(** The operands of a matched state keep their types. *)
Lemma settled_type N N' n s e v : settled N n s e v → node_ext N N' → vm_type_of N' e = Some (val_type v).
Proof. intros [Ht _] HN. eapply vm_type_of_ext; [done..|apply mimic_val_type]. Qed.

(** ** Fields *)

Ltac fails := split; [reflexivity|]; eexists; split_and!; [reflexivity|reflexivity|assumption].

Lemma sim_getstatic c w idx p q :
  bytecode_read_u16 (BytecodeBuffer code p) = Some (idx, BytecodeBuffer code q) →
  sim c w (convert_getstatic code) (JGetstatic idx) p q.
Proof using Hmem.
  intros Hr h o ss M N V a s [l st wd] pend HM Hp Hc. unmatch HM Hp. cbn in *. subst wd. unfold jfield in *.
  unfold convert_getstatic, lookup_field. apply co_bind. apply co_bind. eapply co_read; [exact Hr|]. step.
  destruct (vm_class_resolve_field_recursive idx) as [f|]; [|done]. step.
  unfold heap_do in *. cbn in *.
  assert (Ev : ∀ Nf ρ wd, eval Nf ρ (if vm_type_is_float (vm_field_type f) then EXPR_FLOAT_CLASS_FIELD (vm_field_type f) f
      else EXPR_CLASS_FIELD (vm_field_type f) f) wd =
      bind (get_static f) (typed (mimic_stack_type (vm_field_type f))) wd) by (intros; by destruct (vm_type_is_float _)).
  assert (Ht : ∀ N', vm_type_of N' (if vm_type_is_float (vm_field_type f) then EXPR_FLOAT_CLASS_FIELD (vm_field_type f) f
      else EXPR_CLASS_FIELD (vm_field_type f) f) = Some (vm_field_type f)) by (intros; by destruct (vm_type_is_float _)).
  destruct (get_static f (i_world s)) as [v wd|x wd|] eqn:Eg; [| |done]; cbn in *.
  - unfold push_typed in *. case_decide as Hv; [|done]. eapply (co_dup_push _ _ Hmem _ (vm_field_type f) v wd); [done|done| |..].
    + intros. rewrite Ev. unfold bind, typed. rewrite Eg. by rewrite decide_True.
    + by eapply get_static_later.
    + exact Hl.
    + exact HS.
    + intros L' s' Hp' HM'. split; [done|]. by eexists.
  - eapply co_dup_push_fails; [done| |].
    + intros. rewrite Ev. unfold bind. by rewrite Eg.
    + intros L' HL. split; [done|]. by eexists.
Qed.

Lemma sim_putstatic c w idx p q :
  bytecode_read_u16 (BytecodeBuffer code p) = Some (idx, BytecodeBuffer code q) →
  sim c w (convert_putstatic code) (JPutstatic idx) p q.
Proof using Hmem.
  intros Hr h o ss M N V a s [l st wd] pend HM Hp Hc. pose proof (match_locals _ _ _ _ HM) as Hl. cbn in *.
  destruct st as [|v S]; [done|].
  destruct (match_top _ _ _ _ v S HM eq_refl) as (e & M' & EM & (Ht & Hw & Hy & _) & HS). cbn in *. subst M.
  pose proof (λ N', yields_eval _ _ _ _ _ _ N' Hy) as He. unfold jfield in *.
  unfold convert_putstatic, lookup_field. apply co_bind. apply co_bind. eapply co_read; [exact Hr|]. step.
  destruct (vm_class_resolve_field_recursive idx) as [f|]; [|done]. case_decide as Hv; [|done]. unfold heap_do in *. cbn in *.
  step. step. step.
  destruct (put_static f v wd) as [[] wd'|x wd'|] eqn:Eg; [| |done]; cbn in *.
  - eapply co_statement with (r' := Done INext (IS (i_env s) wd')).
    + intros Nf HN. rewrite exec_one. destruct (vm_type_is_float _); cbn; unfold bind, ev, bind, get, on_world;
        rewrite (He _ HN); cbn; by rewrite Eg.
    + split; [done|]. eexists. split; [done|]. apply match_intro; cbn; [done| |done].
      eapply settled_list_mono; [exact HS|done|done|]. split_and!; try done. cbn. etrans; [exact Hw|]. by eapply put_static_later.
  - eapply co_statement with (r' := Fail x (IS (i_env s) wd')).
    + intros Nf HN. rewrite exec_one. destruct (vm_type_is_float _); cbn; unfold bind, ev, bind, get, on_world;
        rewrite (He _ HN); cbn; by rewrite Eg.
    + fails.
Qed.

(** The null check of a settled reference. *)
Lemma eval_null_check N n s e r Nf :
  settled N n s e (VRef r) → node_ext N Nf →
  eval Nf (i_env s) (EXPR_NULL_CHECK e) (i_world s) =
    if decide (r = 0) then Fail NullPointerException (i_world s) else Done (VRef r) (i_world s).
Proof. intros He HN. cbn. unfold bind. rewrite (settled_eval _ _ _ _ _ _ He HN). cbn. by case_decide. Qed.

Lemma sim_getfield c w idx p q :
  bytecode_read_u16 (BytecodeBuffer code p) = Some (idx, BytecodeBuffer code q) →
  sim c w (convert_getfield code) (JGetfield idx) p q.
Proof using Hmem.
  intros Hr h o ss M N V a s [l st wd] pend HM Hp Hc. unmatch HM Hp. cbn in *. subst wd.
  destruct st as [|[| | | |r|] S]; try done. unfold jfield in *. unstack HS er Her HS'.
  unfold convert_getfield, lookup_field. apply co_bind. apply co_bind. eapply co_read; [exact Hr|]. step.
  destruct (vm_class_resolve_field_recursive idx) as [f|]; [|done].
  unfold pop_null_checked. apply co_bind. step. apply co_bind. apply co_null_check; [done|apply Her|]. intros h1. step. step.
  set (e := if vm_type_is_float (vm_field_type f) then EXPR_FLOAT_INSTANCE_FIELD (vm_field_type f) f (EXPR_NULL_CHECK er)
            else EXPR_INSTANCE_FIELD (vm_field_type f) f (EXPR_NULL_CHECK er)).
  assert (Ht : ∀ N', vm_type_of N' e = Some (vm_field_type f)) by (intros; unfold e; by destruct (vm_type_is_float _)).
  assert (Ev : ∀ Nf ρ wd, eval Nf ρ e wd =
    bind (eval Nf ρ (EXPR_NULL_CHECK er)) (λ o, let* r := as_ref o in if decide (r = 0) then undef else
      let* v := heap_read (get_field f r) in typed (mimic_stack_type (vm_field_type f)) v) wd)
    by (intros; unfold e; by destruct (vm_type_is_float _)).
  unfold not_null in *. case_decide as Hr0; cbn in *.
  - eapply (co_dup_push_fails e); [done| |].
    + intros Nf HN. rewrite Ev. pose proof (eval_null_check _ _ _ _ _ _ Her HN) as En. rewrite decide_True in En by done.
      by apply bind_fails.
    + intros L' HL. split; [done|]. by eexists.
  - destruct (get_field f r (i_world s)) as [v|] eqn:Eg; [|done]. unfold push_typed in *. case_decide as Hv; [|done].
    eapply (co_dup_push _ _ Hmem e (vm_field_type f) v (i_world s)); [done|done| |reflexivity|exact Hl|exact HS'|].
    + intros Nf HN. rewrite Ev. pose proof (eval_null_check _ _ _ _ _ _ Her HN) as En. rewrite decide_False in En by done.
      rewrite (bind_run _ _ _ _ _ En). cbn. rewrite decide_False by done. unfold bind, heap_read, typed. rewrite Eg. by rewrite decide_True.
    + intros L' s' Hp' HM'. split; [done|]. by eexists.
Qed.

Lemma sim_putfield c w idx p q :
  bytecode_read_u16 (BytecodeBuffer code p) = Some (idx, BytecodeBuffer code q) →
  sim c w (convert_putfield code) (JPutfield idx) p q.
Proof using Hmem.
  intros Hr h o ss M N V a s [l st wd] pend HM Hp Hc. pose proof (match_locals _ _ _ _ HM) as Hl. cbn in *.
  destruct st as [|v [|[| | | |r|] S]]; try done.
  destruct (match_top _ _ _ _ v _ HM eq_refl) as (ev_ & M' & EM & (Htv & Hw & Hy & _) & HS). cbn in *. subst M.
  pose proof (λ N', yields_eval _ _ _ _ _ _ N' Hy) as Hev.
  unfold jfield in *. unstack HS er Her HS'.
  unfold convert_putfield, lookup_field. apply co_bind. apply co_bind. eapply co_read; [exact Hr|]. step.
  destruct (vm_class_resolve_field_recursive idx) as [f|]; [|done]. case_decide as Hv; [|done].
  step. unfold pop_null_checked. apply co_bind. step. apply co_bind. apply co_null_check; [done|apply Her|]. intros h1. step. step. step.
  unfold not_null in *. case_decide as Hr0; cbn in *.
  - assert (pend = false) as -> by (destruct pend; [by rewrite bool_decide_eq_false_2 in Hp by (intros Hn; by apply Hn); specialize (Hp eq_refl)|done]).
    destruct (match_settled _ _ _ _ _ _ _ _ _ _ _ _ _ HM eq_refl) as (_ & _ & Hwd). cbn in Hwd. subst wd.
    eapply co_statement with (r' := Fail NullPointerException (IS (i_env s) (i_world s))).
    + intros Nf HN. rewrite exec_one. pose proof (eval_null_check _ _ _ _ _ _ Her HN) as En. rewrite decide_True in En by done.
      destruct (vm_type_is_float _); unfold exec_stmt, exec_store, bind, ev, bind, get, on_world; by rewrite En.
    + fails.
  - eapply co_statement with (r' := Done INext (IS (i_env s) (put_field f r v wd))).
    + intros Nf HN. rewrite exec_one. pose proof (eval_null_check _ _ _ _ _ _ Her HN) as En. rewrite decide_False in En by done.
      destruct (vm_type_is_float _); unfold exec_stmt, exec_store, bind, ev, bind, get, on_world; rewrite En; cbn;
        rewrite (Hev _ HN); cbn; by rewrite decide_False.
    + split; [done|]. eexists. split; [done|]. apply match_intro; cbn; [done| |done].
      eapply settled_list_mono; [exact HS'|done|done|]. split_and!; try done. cbn. etrans; [exact Hw|]. apply put_field_later.
Qed.
End ops.
