(* ===== verification/ConvertObjects.v ===== *)
(** * The converters simulate their instructions: arrays, allocation, classes, monitors *)

From Stdlib Require Import Ascii String.
From stdpp Require Import strings.
From S2P Require Import Prelude CMonad ConstantPool ClassFile Opcodes Bytecode Types BasicBlock Tree ArgsMap Convert.
From S2P Require Import ConvertRun JavaMachine TreeSem ConvertSim ConvertOps ConvertStack ConvertHeap.
From stdpp Require Import gmap.
#[local] Open Scope Z_scope.

Ltac fails := split; [reflexivity|]; eexists; split_and!; [reflexivity|reflexivity|same_locals; assumption].

Section ops.
Context `{Allocator} `{Resolver} `{FloatsLaws} `{!JavaHeap} `{!JavaHeapLaws} (code : list Z).
Context (u : ir_unit) (b : nat).
Context (Hmem : always_ok).

#[local] Abbreviation co := (co u b).
#[local] Abbreviation outc := (CMonad.outcome istate exc ictl).
#[local] Abbreviation sim := (sim u b).

(** ** Arrays *)

(** An index of an array is checked. *)
Lemma exec_array_check Nf o t ea ei r i s n :
  eval Nf (i_env s) ea (i_world s) = Done (VRef r) (i_world s) → eval Nf (i_env s) ei (i_world s) = Done (VInt i) (i_world s) →
  array_length r (i_world s) = Some n →
  exec_from Nf (Done INext s) [(o, STMT_ARRAY_CHECK (EXPR_ARRAY_DEREF t ea ei))] =
    if decide (0 <= i < n) then Done INext s else Fail ArrayIndexOutOfBoundsException s.
Proof.
  intros Ea Ei En. rewrite exec_one. unfold exec_stmt, ev, bind, get, on_world. rewrite Ea. cbn. rewrite Ei. cbn.
  unfold heap_read. rewrite En. cbn. destruct s. by case_decide.
Qed.
Lemma eval_array_deref Nf ρ t ea ei r i v wd :
  eval Nf ρ ea wd = Done (VRef r) wd → eval Nf ρ ei wd = Done (VInt i) wd → array_get t r i wd = Some v →
  val_type v = mimic_stack_type t → eval Nf ρ (EXPR_ARRAY_DEREF t ea ei) wd = Done v wd.
Proof.
  intros Ea Ei Ev Hv. cbn. unfold bind. rewrite Ea, Ei. cbn. unfold heap_read. rewrite Ev. unfold typed. by rewrite decide_True.
Qed.

Lemma sim_array_load c w t p : t ≠ J_BOOLEAN → sim c w (convert_array_load t) (JArrayLoad t) p p.
Proof using Hmem.
  intros Hb h o ss M N V a s [l st wd] pend HM Hp Hc. unmatch HM Hp. cbn in *. subst wd.
  destruct st as [|[i| | | | |] [|[| | | |r|] S]]; try done. unstack HS ei Hei HS'. unstack HS' er Her HS''.
  unfold convert_array_load. rewrite decide_False by done. step. step. apply co_bind, co_null_check; [done|apply Her|]. intros h1. step.
  unfold get_pure_expr at 1. cbn [expr_is_pure]. unfold jarray, not_null in *. case_decide as Hr0; cbn in *.
  - apply co_bind. eapply (co_dup_fails _ _ Hmem _ J_REFERENCE); [done| |].
    { intros Nf HN. rewrite (eval_null_check _ _ _ _ _ _ Her HN). by rewrite decide_True. }
    intros h2 ss2. apply co_bind. eapply co_get_pure_failed; [done|eapply settled_type; [exact Hei|apply node_ext_app]|done|].
    intros d h3 ss3 N' V' HN Hd Ht. step. apply co_bind, co_temporary_expr; [done|]. intros h4. step. step. step. apply co_bind.
    eapply co_convert_expression; [done|cbn; by rewrite list_lookup_middle|]. intros h5. step.
    apply co_bind, co_expr_get; [cbn; done|]. apply co_bind, co_statement_failed. intros ss4. apply co_statement_failed. intros ss5. fails.
  - apply co_bind. eapply (co_dup _ _ Hmem _ J_REFERENCE (VRef r) (i_world s)); [done| |].
    { intros Nf HN. rewrite (eval_null_check _ _ _ _ _ _ Her HN). by rewrite decide_False. }
    intros h2 ss2. pose proof (temp_settled N V J_REFERENCE (VRef r) s (i_world s) eq_refl) as Hk.
    pose proof (grows_temp N V s J_REFERENCE (VRef r) (i_world s) ltac:(reflexivity)) as G. 
    set (s1 := with_temp _ _ _ _) in *. set (N1 := N ++ _) in *. set (V1 := V ++ _) in *. keep_settled.
    apply co_bind. eapply co_get_pure_settled; [done|exact Hei|]. intros d h3 ss3 N2 V2 s2 G2 Hw2 Hd Hds. keep_settled.
    step. apply co_bind, co_temporary_expr; [done|]. intros h4. step. step. step. apply co_bind.
    eapply co_convert_expression with (t := t); [done|cbn; by rewrite list_lookup_middle|]. intros h5. step.
    apply co_bind, co_expr_get; [cbn; done|].
    destruct (array_length r (i_world s)) as [n|] eqn:En; [|done].
    assert (Hext : ∀ Nf, node_ext (pushed_nodes (EXPR_SHARED (length N2)) t (N2 ++ [temp_node t (length V2)])) Nf → node_ext N2 Nf).
    { intros Nf HN. etrans; [apply node_ext_app|]. etrans; [|exact HN]. apply pushed_ext. cbn. by rewrite list_lookup_middle. }
    apply co_bind. eapply co_statement.
    { intros Nf HN. eapply exec_array_check; [by eapply settled_eval; [exact Hk|apply Hext]|
        by eapply settled_eval; [exact Hds|apply Hext]|rewrite Hw2; exact En]. }
    case_decide as Hi; cbn in *.
    + destruct (array_get t r i (i_world s)) as [v|] eqn:Ev; [|done]. unfold push_typed in *. case_decide as Hv; [|done].
      eapply co_statement with (r' := Done INext (with_temp (length V2) v s2 (i_world s2))).
      { intros Nf HN. eapply exec_store_temp.
        - etrans; [|exact HN]. eapply node_ext_alter; [by apply list_lookup_middle|done].
        - eapply eval_array_deref; [by eapply settled_eval; [exact Hk|apply Hext]|
            by eapply settled_eval; [exact Hds|apply Hext]|rewrite Hw2; exact Ev|done]. }
      split; [done|]. eexists. split; [done|]. rewrite <- Hw2. apply match_temp_pushed; [done|done| |done].
      same_locals. done.
    + apply co_statement_failed. intros ss4. split; [done|]. eexists. split_and!; [done|done|]. same_locals. done.
Qed.

Lemma exec_store_check Nf o ev_ ea r v s ok :
  eval Nf (i_env s) ev_ (i_world s) = Done v (i_world s) → eval Nf (i_env s) ea (i_world s) = Done (VRef r) (i_world s) →
  array_store_ok r v (i_world s) = Some ok →
  exec_from Nf (Done INext s) [(o, STMT_ARRAY_STORE_CHECK ev_ ea)] = if ok then Done INext s else Fail ArrayStoreException s.
Proof.
  intros Ev Ea Eok. rewrite exec_one. unfold exec_stmt, ev, bind, get, on_world. rewrite Ev. cbn. rewrite Ea. cbn.
  unfold heap_read. rewrite Eok. cbn. destruct s. by destruct ok.
Qed.
Lemma exec_store_array Nf o t ev_ ea ei r i n v s :
  eval Nf (i_env s) ea (i_world s) = Done (VRef r) (i_world s) → eval Nf (i_env s) ei (i_world s) = Done (VInt i) (i_world s) →
  eval Nf (i_env s) ev_ (i_world s) = Done v (i_world s) → array_length r (i_world s) = Some n → 0 <= i < n →
  exec_from Nf (Done INext s) [(o, STMT_STORE (EXPR_ARRAY_DEREF t ea ei) ev_)] =
    Done INext (IS (i_env s) (array_put t r i v (i_world s))).
Proof.
  intros Ea Ei Ev En Hi. rewrite exec_one. unfold exec_stmt, exec_store, ev, bind, get, on_world. rewrite Ea. cbn. rewrite Ei. cbn.
  rewrite Ev. cbn. unfold heap_read. rewrite En. cbn. by rewrite decide_True.
Qed.

Lemma sim_array_store c w t p : sim c w (convert_array_store t) (JArrayStore t) p p.
Proof using Hmem.
  intros h o ss M N V a s [l st wd] pend HM Hp Hc. pose proof (match_locals _ _ _ _ HM) as Hl. cbn in *.
  destruct st as [|v [|[i| | | | |] [|[| | | |r|] S]]]; try done. case_decide as Hv; [|done].
  destruct (match_top _ _ _ _ v _ HM eq_refl) as (ev_ & M' & EM & Hev & HS). cbn in *. subst M.
  unstack HS ei Hei HS''. unstack HS'' er Her HS3.
  unfold convert_array_store. step. step. step. apply co_bind, co_null_check; [done|apply Her|]. intros h1. step.
  unfold get_pure_expr at 1. cbn [expr_is_pure]. unfold jarray, not_null in *. case_decide as Hr0; cbn in *.
  - assert (pend = false) as -> by (destruct pend; [by rewrite bool_decide_eq_false_2 in Hp by (intros Hn; by apply Hn); specialize (Hp eq_refl)|done]).
    destruct (match_settled _ _ _ _ _ _ _ _ _ _ _ _ _ HM eq_refl) as (_ & _ & Hwd). cbn in Hwd. subst wd.
    apply co_bind. eapply (co_dup_fails _ _ Hmem _ J_REFERENCE); [done| |].
    { intros Nf HN. rewrite (eval_null_check _ _ _ _ _ _ Her HN). by rewrite decide_True. }
    intros h2 ss2. apply co_bind. eapply co_get_pure_failed; [done|eapply settled_type; [exact Hei|apply node_ext_app]|done|].
    intros d h3 ss3 N' V' HN Hd Ht. step. apply co_bind.
    assert (Htv : vm_type_of N' ev_ = Some (val_type v)).
    { eapply (vm_type_of_ext N); [etrans; [apply node_ext_app|exact HN]|exact (proj1 Hev)|apply mimic_val_type]. }
    eapply co_get_pure_failed; [done|exact Htv|apply mimic_val_type|].
    intros d2 h4 ss4 N2 V2 HN2 Hd2 Ht2. step. step. apply co_bind, co_expr_get; [done|]. step.
    apply co_bind, co_expr_get; [done|]. apply co_bind, co_expr_get; [done|].
    do 2 (apply co_bind, co_statement_failed; intros). apply co_statement_failed. intros. fails.
  - apply co_bind. eapply (co_dup _ _ Hmem _ J_REFERENCE (VRef r) (i_world s)); [done| |].
    { intros Nf HN. rewrite (eval_null_check _ _ _ _ _ _ Her HN). by rewrite decide_False. }
    intros h2 ss2. pose proof (temp_settled N V J_REFERENCE (VRef r) s (i_world s) eq_refl) as Hk.
    pose proof (grows_temp N V s J_REFERENCE (VRef r) (i_world s) ltac:(reflexivity)) as G. 
    set (s1 := with_temp _ _ _ _) in *. set (N1 := N ++ _) in *. set (V1 := V ++ _) in *. keep_settled.
    apply (grows_top _ _ _ _ _ _ _ _ _ G eq_refl) in Hev.
    apply co_bind. eapply co_get_pure_settled; [done|exact Hei|]. intros d h3 ss3 N2 V2 s2 G2 Hw2 Hd Hds. keep_settled.
    apply (grows_top _ _ _ _ _ _ _ _ _ G2 Hw2) in Hev.
    step. apply co_bind. eapply co_get_pure; [done|exact Hev|]. intros d2 h4 ss4 N3 V3 s3 G3 Hw3 Hd3 Hds3. keep_settled.
    step. step. apply co_bind, co_expr_get; [done|]. step. apply co_bind, co_expr_get; [done|]. apply co_bind, co_expr_get; [done|].
    subst wd.
    destruct (array_length r (i_world s3)) as [n|] eqn:En; [|done].
    apply co_bind. eapply co_statement.
    { intros Nf HN. eapply exec_array_check; [by eapply settled_eval|by eapply settled_eval|exact En]. }
    case_decide as Hi; cbn in *.
    + destruct (array_store_ok r v (i_world s3)) as [ok|] eqn:Eok; [|done]. apply co_bind. eapply co_statement.
      { intros Nf HN. eapply exec_store_check; [by eapply settled_eval|by eapply settled_eval|exact Eok]. }
      destruct ok; cbn.
      * eapply co_statement; [intros Nf HN; eapply exec_store_array; [by eapply settled_eval..|exact En|exact Hi]|].
        split; [done|]. eexists. split; [done|]. apply match_intro; cbn; [by same_locals| |done].
        eapply settled_list_mono; [exact HS3|done|done|]. split_and!; try done. apply array_put_later.
      * apply co_statement_failed. intros. fails.
    + apply co_bind, co_statement_failed. intros. apply co_statement_failed. intros. fails.
Qed.

(** ** Allocation *)

(** The allocation is on top of the stack. *)
Lemma match_outstanding e r wd l S h p o c w ss M N V a s :
  vm_type_of N e = Some J_REFERENCE → expr_is_pure e = false → later (i_world s) wd →
  yields N (length V) s e (VRef r) wd →
  l ⊆ e_locals (i_env s) → Forall2 (settled N (length V) s) M S →
  match_state (Loc h p o c w ss (e :: M) N V a) s (JS l (VRef r :: S) wd) true.
Proof. intros Ht Hp Hw He Hl HS. split; [done|]. exists e, M, (VRef r), S. by split_and!. Qed.

Lemma sim_new c w idx p q :
  bytecode_read_u16 (BytecodeBuffer code p) = Some (idx, BytecodeBuffer code q) →
  sim c w (convert_new code) (JNew idx) p q.
Proof using Hmem.
  intros Hr h o ss M N V a s [l st wd] pend HM Hp Hc. unmatch HM Hp. cbn in *. subst wd. unfold jclass in *.
  unfold convert_new. apply co_bind. eapply co_read; [exact Hr|].
  destruct (vm_class_resolve_class idx) as [cl|]; [|done]. unfold alloc_push, heap_do in *. cbn in *.
  destruct (new_object cl (i_world s)) as [r wd|x wd|] eqn:En; [|done|done]. cbn in *.
  step. step. eapply co_push with (v := VRef r); [done|done|]. intros h2. split; [done|]. exists s. split; [done|].
  apply match_outstanding; [done|done|by eapply new_object_later| |done|done]. intros N' s' _ _ Hw'. cbn. unfold bind. by rewrite Hw', En.
Qed.

(** The size of an array is checked when the array is made. *)
Lemma eval_size_check N n s s' e z Nf :
  settled N n s e (VInt z) → node_ext N Nf → agree n s s' → 0 <= z →
  eval Nf (i_env s') (EXPR_ARRAY_SIZE_CHECK e) (i_world s') = Done (VInt z) (i_world s').
Proof. intros [_ [_ He]] HN HA Hz. cbn. unfold bind. rewrite (He _ _ HN HA). cbn. by rewrite decide_False by lia. Qed.

Lemma sim_newarray c w t p q :
  bytecode_read_u8 (BytecodeBuffer code p) = Some (t, BytecodeBuffer code q) →
  sim c w (convert_newarray code) (JNewarray t) p q.
Proof using Hmem.
  intros Hr h o ss M N V a s [l st wd] pend HM Hp Hc. unmatch HM Hp. cbn in *. subst wd.
  destruct st as [|[n| | | | |] S]; try done. unstack HS en Hen HS'. case_decide as Hn; [done|].
  unfold convert_newarray. step. apply co_bind. eapply co_read; [exact Hr|]. unfold alloc_push, heap_do in *. cbn in *.
  destruct (new_array t n (i_world s)) as [r wd|x wd|] eqn:En; [|done|done]. cbn in *.
  step. step. step. eapply co_push with (v := VRef r); [done|done|]. intros h2. split; [done|]. exists s. split; [done|].
  apply match_outstanding; [done|done|by eapply new_array_later| |done|done]. intros N' s' HN HA Hw'.
  change (eval N' (i_env s') (EXPR_NEWARRAY t (EXPR_ARRAY_SIZE_CHECK en)) (i_world s'))
    with (bind (eval N' (i_env s') (EXPR_ARRAY_SIZE_CHECK en)) (λ v, let* n := as_int v in let* r := new_array t n in ret (VRef r)) (i_world s')).
  rewrite (bind_run _ _ _ _ _ (eval_size_check _ _ _ _ _ _ _ Hen HN HA ltac:(lia))). cbn. unfold bind. by rewrite Hw', En.
Qed.

Lemma array_name name : class_name_to_array_name name = array_class_name name.
Proof.
  unfold class_name_to_array_name, array_class_name. change (ch "[") with 91. change (chars "[L") with [91; 76].
  change (chars ";") with [59]. destruct name as [|x name]; [done|]. cbn [Types.deref]. 
  destruct (decide (x = 91)) as [->|Hne]; [done|]. cbn. destruct x as [|x|x]; [done| |done].
  do 7 (destruct x as [x|x|]; try done).
Qed.

Lemma sim_anewarray c w idx p q :
  bytecode_read_u16 (BytecodeBuffer code p) = Some (idx, BytecodeBuffer code q) →
  sim c w (convert_anewarray code) (JAnewarray idx) p q.
Proof using Hmem.
  intros Hr h o ss M N V a s [l st wd] pend HM Hp Hc. unmatch HM Hp. cbn in *. subst wd.
  destruct st as [|[n| | | | |] S]; try done. unstack HS en Hen HS'. unfold jclass in *.
  unfold convert_anewarray. step. apply co_bind. eapply co_read; [exact Hr|].
  destruct (vm_class_resolve_class idx) as [cl|]; [|done]. unfold class_to_array_class. apply co_bind. step. rewrite array_name.
  destruct (classloader_load cl _) as [ac|]; [|done]. step. case_decide as Hn; [done|].
  unfold alloc_push, heap_do in *. cbn in *.
  destruct (anew_array ac n (i_world s)) as [r wd|x wd|] eqn:En; [|done|done]. cbn in *.
  step. step. step. eapply co_push with (v := VRef r); [done|done|]. intros h2. split; [done|]. exists s. split; [done|].
  apply match_outstanding; [done|done|by eapply anew_array_later| |done|done]. intros N' s' HN HA Hw'.
  change (eval N' (i_env s') (EXPR_ANEWARRAY ac (EXPR_ARRAY_SIZE_CHECK en)) (i_world s'))
    with (bind (eval N' (i_env s') (EXPR_ARRAY_SIZE_CHECK en)) (λ v, let* n := as_int v in let* r := anew_array ac n in ret (VRef r)) (i_world s')).
  rewrite (bind_run _ _ _ _ _ (eval_size_check _ _ _ _ _ _ _ Hen HN HA ltac:(lia))). cbn. unfold bind. by rewrite Hw', En.
Qed.

(** *** Arguments *)

(** A tree of arguments, or none yet, and the values of the arguments. *)
Definition args_eval (N : list shared) (n : nat) (s : istate) (acc : option expression) (l : list val) : Prop :=
  match acc with
  | None => l = []
  | Some e => ∀ N' s', node_ext N N' → agree n s s' → eval_args N' (i_env s') e (i_world s') = Done l (i_world s')
  end.

Lemma args_eval_grows N V s N' V' s' acc l :
  grows N V s N' V' s' → args_eval N (length V) s acc l → args_eval N' (length V') s' acc l.
Proof.
  intros (HN & HV & HA & _) He. destruct acc as [e|]; [|done]. intros N2 s2 HN2 HA2. apply He; [by etrans|by eapply agree_trans].
Qed.
(** An argument is put in front of those after it. *)
Lemma args_eval_cons N n s acc l e v (arg : expression) :
  args_eval N n s acc l → settled N n s e v → (∀ N' ρ, eval_args N' ρ arg = (let* v := eval N' ρ e in ret [v])) →
  args_eval N n s (Some match acc with None => arg | Some root => EXPR_ARGS_LIST root arg end) (v :: l).
Proof.
  intros Ha [_ [_ He]] Harg N' s' HN HA. destruct acc as [root|]; cbn in *.
  - unfold bind. rewrite (Ha N' s' HN HA), Harg. unfold bind. by rewrite (He N' s' HN HA).
  - subst l. rewrite Harg. unfold bind. by rewrite (He N' s' HN HA).
Qed.

Lemma alloc_gpr i : 0 <= i → is_Some (args_map_alloc_gpr i).
Proof.
  intros Hi. unfold args_map_alloc_gpr. destruct i as [|i|i]; [done| |lia].
  do 3 (destruct i as [i|i|]; try done); case_decide; done || lia.
Qed.

Lemma co_native_loop n idx acc l zs S S' h p o c w ss M N V a s (Q : option expression → loc → outc → Prop) :
  pop_ints n S = Some (zs, S') → Forall2 (settled N (length V) s) M S → args_eval N (length V) s acc l →
  Z.of_nat n - 1 <= idx < 2 ^ 31 →
  (∀ r h' M', args_eval N (length V) s r (map VInt zs ++ l) → (n ≠ O ∨ is_Some acc → is_Some r) →
     Forall2 (settled N (length V) s) M' S' → Q r (Loc h' p o c w ss M' N V a) (Done INext s)) →
  co (convert_native_loop n idx acc) (Loc h p o c w ss M N V a) (Done INext s) Q.
Proof using Hmem.
  revert idx acc l zs S S' h M Q. induction n as [|n IH]; intros idx acc l zs S S' h M Q HP HS Ha Hi HQ.
  { cbn in *. simplify_eq. apply co_ret. apply HQ; [done|by intros [?|?]|done]. }
  cbn in HP. destruct S as [|[z| | | | |] S]; try done. destruct (pop_ints n S) as [[zs' rest]|] eqn:E; [|done].
  cbn in HP. simplify_eq. unstack HS ez Hez HS'.
  cbn [convert_native_loop]. step. apply co_bind. eapply co_type_of; [apply Hez|]. cbn [val_type].
  change (vm_type_is_float J_INT) with false. cbn [negb]. unfold insert_native_arg. apply co_bind, co_bind.
  destruct (alloc_gpr (s32 idx)) as [reg Ereg]. { unfold s32. rewrite signed_id; lia. }
  eapply co_must; [exact Ereg|]. unfold arg_expr. apply co_bind, co_bind. eapply co_type_of; [apply Hez|]. step. step.
  pose proof (args_eval_cons _ _ _ acc l ez (VInt z) (EXPR_ARG J_INT reg ez) Ha Hez ltac:(done)) as Ha'.
  assert (HQ' : ∀ r h' M', args_eval N (length V) s r (map VInt zs' ++ VInt z :: l) → is_Some r →
     Forall2 (settled N (length V) s) M' S' → Q r (Loc h' p o c w ss M' N V a) (Done INext s)).
  { intros r hf M' Hr Hs HM. apply HQ; [|by intros _|done]. by rewrite map_app, <- app_assoc. }
  destruct acc as [root|]; cbn [args_list_expr].
  - unfold args_list_expr. step. eapply IH; [exact E|exact HS'|exact Ha'|lia|]. intros r hf M' Hr Hs HM. apply HQ'; eauto.
  - apply co_ret. eapply IH; [exact E|exact HS'|exact Ha'|lia|]. intros r hf M' Hr Hs HM. apply HQ'; eauto.
Qed.

Lemma mapM_ints zs : mapM (λ v, match v with VInt z => Some z | _ => None end) (map VInt zs) = Some zs.
Proof. induction zs as [|z zs IH]; [done|]. cbn. by rewrite IH. Qed.

Lemma sim_multianewarray c w idx dims p q r :
  bytecode_read_u16 (BytecodeBuffer code p) = Some (idx, BytecodeBuffer code q) →
  bytecode_read_u8 (BytecodeBuffer code q) = Some (dims, BytecodeBuffer code r) → 0 <= dims < 256 →
  sim c w (convert_multianewarray code) (JMultianewarray idx dims) p r.
Proof using Hmem.
  intros Hr Hr2 Hd h o ss M N V a s [l st wd] pend HM Hp Hc. unmatch HM Hp. cbn in *. subst wd. unfold jclass in *.
  unfold convert_multianewarray. apply co_bind. eapply co_read; [exact Hr|]. apply co_bind. eapply co_read; [exact Hr2|].
  destruct (vm_class_resolve_class idx) as [cl|]; [|done].
  destruct (pop_ints (Z.to_nat dims) st) as [[zs S]|] eqn:Ep; [|done]. unfold alloc_push, heap_do in *. cbn in *.
  destruct (multianew_array cl zs (i_world s)) as [ref wd|x wd|] eqn:En; [|done|done]. cbn in *. step.
  assert (Hfin : ∀ e h' M', args_eval N (length V) s (Some e) (map VInt zs) → Forall2 (settled N (length V) s) M' S →
    co (let* args_list := must (Some e) in convert_expression (EXPR_MULTIANEWARRAY cl args_list))
      (Loc h' r o c w ss M' N V a) (Done INext s)
      (λ _ L' r', l_pos L' = r ∧ ∃ s0, r' = Done INext s0 ∧ match_state L' s0 (JS l (VRef ref :: S) wd) true)).
  { intros e hf M' He HM'. step. eapply co_push with (v := VRef ref); [done|done|]. intros h2. split; [done|]. exists s.
    split; [done|]. apply match_outstanding; [done|done|by eapply multianew_array_later| |done|done]. intros N' s' HN HA Hw'.
    change (eval N' (i_env s') (EXPR_MULTIANEWARRAY cl e) (i_world s')) with (bind (eval_args N' (i_env s') e) (λ l,
      let* l := stuck_or (mapM (λ v, match v with VInt z => Some z | _ => None end) l) in
      let* r := multianew_array cl l in ret (VRef r)) (i_world s')).
    rewrite (bind_run _ _ _ _ _ (He N' s' HN HA)), mapM_ints. cbn. unfold bind. by rewrite Hw', En. }
  unfold convert_native_args. apply co_bind. case_decide as Hz.
  - subst dims. change (Some ([] : list Z, st) = Some (zs, S)) in Ep. injection Ep as <- <-. unfold no_args_expr. step. apply Hfin; [|done]. intros N' s' _ _. done.
  - eapply co_native_loop; [exact Ep|exact HS|done|lia|]. intros e hf M' He Hs HM'.
    destruct Hs as [e' ->]; [left; lia|]. rewrite app_nil_r in He. by apply Hfin.
Qed.

(** ** Lengths and classes *)

Lemma sim_arraylength c w p : sim c w convert_arraylength JArraylength p p.
Proof using Hmem.
  intros h o ss M N V a s [l st wd] pend HM Hp Hc. unmatch HM Hp. cbn in *. subst wd.
  destruct st as [|[| | | |r|] S]; try done. unstack HS er Her HS'. unfold not_null in *. case_decide as Hr; [done|].
  destruct (array_length r (i_world s)) as [n|] eqn:En; [|done]. cbn in *.
  unfold convert_arraylength, pop_null_checked. apply co_bind. step. apply co_bind, co_null_check; [done|apply Her|]. intros h1.
  step. step. step. eapply co_push with (v := VInt n); [done|done|]. intros h2. split; [done|]. exists s. split; [done|].
  apply match_intro; cbn; [done| |done]. constructor; [|done]. split; [done|]. split; [done|]. intros N' s' HN HA.
  destruct Her as [_ [_ He]]. cbn. unfold bind. rewrite (He N' s' HN HA). cbn. rewrite decide_False by done. cbn.
  unfold heap_read. by rewrite (later_length r n (i_world s)); [|apply HA|].
Qed.

Lemma sim_instanceof c w idx p q :
  bytecode_read_u16 (BytecodeBuffer code p) = Some (idx, BytecodeBuffer code q) →
  sim c w (convert_instanceof code) (JInstanceof idx) p q.
Proof using Hmem.
  intros Hr h o ss M N V a s [l st wd] pend HM Hp Hc. unmatch HM Hp. cbn in *. subst wd.
  destruct st as [|[| | | |r|] S]; try done. unstack HS er Her HS'. unfold jclass in *.
  unfold convert_instanceof. step. apply co_bind. eapply co_read; [exact Hr|].
  destruct (vm_class_resolve_class idx) as [cl|]; [|done]. step. step.
  eapply co_push with (v := VInt 0); [done|done|]. intros h2. split; [done|].
  destruct Her as [_ [_ He]]. case_decide as Hr0; cbn in *.
  - exists s. split; [done|]. apply match_intro; cbn; [done| |done]. constructor; [|done]. split; [done|]. split; [done|].
    intros N' s' HN HA. cbn. unfold bind. rewrite (He N' s' HN HA). cbn. by rewrite decide_True.
  - destruct (instance_of r cl (i_world s)) as [ib|] eqn:Ei; [|done]. cbn in *.
    exists s. split; [done|]. apply match_intro; cbn; [done| |done]. constructor; [|done]. split; [done|]. split; [done|].
    intros N' s' HN HA. cbn. unfold bind. rewrite (He N' s' HN HA). cbn. rewrite decide_False by done. unfold heap_read.
    by rewrite (later_instance r cl ib (i_world s)); [|apply HA|].
Qed.

(** The value that is cast may be an allocation that is outstanding. *)
Lemma sim_checkcast c w idx p q :
  bytecode_read_u16 (BytecodeBuffer code p) = Some (idx, BytecodeBuffer code q) →
  sim c w (convert_checkcast code) (JCheckcast idx) p q.
Proof using Hmem.
  intros Hr h o ss M N V a s [l st wd] pend HM Hp Hc. pose proof (match_locals _ _ _ _ HM) as Hl. cbn in *.
  destruct st as [|[| | | |r|] S]; try done.
  destruct (match_top _ _ _ _ (VRef r) S HM eq_refl) as (e & M' & EM & (Ht & Hw & Hy & _) & HS). cbn in *. subst M.
  pose proof (λ N', yields_eval _ _ _ _ _ _ N' Hy) as He. unfold jclass in *.
  unfold convert_checkcast. step. apply co_bind. eapply (co_dup _ _ Hmem e J_REFERENCE (VRef r) wd); [done|done|].
  intros h1 ss1. apply co_bind. eapply co_read; [exact Hr|]. destruct (vm_class_resolve_class idx) as [cl|]; [|done]. step.
  pose proof (temp_settled N V J_REFERENCE (VRef r) s wd eq_refl) as Hk.
  pose proof (grows_temp N V s J_REFERENCE (VRef r) wd Hw) as G. keep_settled.
  set (s1 := with_temp _ _ _ _) in *. set (N1 := N ++ _) in *. set (V1 := V ++ _) in *.
  assert (Hx : ∀ ib, (r = 0 ∧ ib = true ∨ r ≠ 0 ∧ instance_of r cl wd = Some ib) → ∀ Nf, node_ext N1 Nf →
    exec_from Nf (Done INext s1) [(o, STMT_CHECKCAST cl (EXPR_SHARED (length N)))] =
      if ib then Done INext s1 else Fail ClassCastException s1).
  { intros ib Hib Nf HN. rewrite exec_one. unfold exec_stmt, ev, bind, get, on_world. rewrite (settled_eval _ _ _ _ _ _ Hk HN).
    cbn. destruct Hib as [[-> ->]|[Hr0 Ei]]; [done|]. rewrite decide_False by done. unfold heap_read.
    cbn. rewrite Ei. cbn. by destruct ib. }
  assert (Hpush : ∀ h2 ss2, co (let* e := expr_get (EXPR_SHARED (length N)) in convert_expression e)
    (Loc h2 q o c w ss2 M' N1 V1 a) (Done INext s1)
    (λ _ L' r', l_pos L' = q ∧ ∃ s0, r' = Done INext s0 ∧ match_state L' s0 (JS l (VRef r :: S) wd) false)).
  { intros h2 ss2. step. eapply co_push with (v := VRef r); [done|apply Hk|]. intros h3. split; [done|]. exists s1. split; [done|].
    apply match_intro; cbn; [done| |done]. by constructor. }
  apply co_bind. case_decide as Hr0; cbn in *.
  - eapply co_statement; [apply (Hx true); auto|]. apply Hpush.
  - destruct (instance_of r cl wd) as [ib|] eqn:Ei; [|done]. eapply co_statement; [apply (Hx ib); auto|].
    destruct ib; cbn; [apply Hpush|]. step. eapply co_push with (v := VRef r); [done|apply Hk|]. intros h3. fails.
Qed.

(** ** Monitors and exceptions *)

Lemma co_monitor w c h p o ss M N V a s l er r S (make : expression → statement) (m : Z → CMonad.M world exc unit) :
  settled N (length V) s er (VRef r) → l ⊆ e_locals (i_env s) → Forall2 (settled N (length V) s) M S →
  (∀ Nf e, exec_stmt Nf (make e) = (let* v := ev Nf e in let* r := on_world (as_ref v) in do on_world (m r) ;; ret INext)) →
  (∀ w w', m r w = Done tt w' → later w w') →
  let out := not_null r (JS l (VRef r :: S) (i_world s)) (heap_do (m r) (JS l (VRef r :: S) (i_world s)) (λ _ s, with_stack s S)) in
  out ≠ Undef →
  co (convert_monitor make) (Loc h p o c w ss (er :: M) N V a) (Done INext s)
    (λ _ L' r', l_pos L' = p ∧ result_match u out L' r' false).
Proof using Hmem.
  intros Her Hl HS Hmake Hlater out Ho. unfold out, not_null, heap_do in *. clear out. cbn in *.
  unfold convert_monitor. step. apply co_bind, co_null_check; [done|apply Her|]. intros h1. step.
  apply co_bind, co_expr_get; [by apply Her|].
  assert (Hx : ∀ Nf, node_ext N Nf → exec_from Nf (Done INext s) [(o, make (EXPR_NULL_CHECK er))] =
    if decide (r = 0) then Fail NullPointerException s else
    match m r (i_world s) with
    | Done _ wd => Done INext (IS (i_env s) wd) | Fail x wd => Fail x (IS (i_env s) wd) | Undef => Undef
    end).
  { intros Nf HN. rewrite exec_one, Hmake. unfold ev, bind, get, on_world. rewrite (eval_null_check _ _ _ _ _ _ Her HN).
    destruct s. case_decide; [done|]. cbn. by destruct (m r _). }
  eapply co_statement; [exact Hx|]. split; [done|]. case_decide; cbn in *.
  - by eexists.
  - destruct (m r (i_world s)) as [[] wd|x wd|] eqn:Em; cbn in *; [| |done].
    + eexists. split; [done|]. apply match_intro; cbn; [done| |done].
      eapply settled_list_mono; [exact HS|done|done|]. split_and!; try done. by apply Hlater.
    + by eexists.
Qed.
Lemma sim_monitorenter c w p : sim c w convert_monitorenter JMonitorenter p p.
Proof using Hmem.
  intros h o ss M N V a s [l st wd] pend HM Hp Hc. unmatch HM Hp. cbn in *. subst wd.
  destruct st as [|[| | | |r|] S]; try done. unstack HS er Her HS'.
  eapply co_monitor; [exact Her|exact Hl|exact HS'|done|apply monitor_enter_later|]. intros Hu. by rewrite Hu in Hc.
Qed.
Lemma sim_monitorexit c w p : sim c w convert_monitorexit JMonitorexit p p.
Proof using Hmem.
  intros h o ss M N V a s [l st wd] pend HM Hp Hc. unmatch HM Hp. cbn in *. subst wd.
  destruct st as [|[| | | |r|] S]; try done. unstack HS er Her HS'.
  eapply co_monitor; [exact Her|exact Hl|exact HS'|done|apply monitor_exit_later|]. intros Hu. by rewrite Hu in Hc.
Qed.

Lemma sim_athrow c w p : sim c w convert_athrow JAthrow p p.
Proof using Hmem.
  intros h o ss M N V a s [l st wd] pend HM Hp Hc. unmatch HM Hp. cbn in *. subst wd.
  destruct st as [|[| | | |r|] S]; try done. unstack HS er Her HS'.
  unfold convert_athrow. step. step. apply co_bind, co_null_check; [done|apply Her|]. intros h1. step.
  eapply co_statement with (r' := Fail (if decide (r = 0) then NullPointerException else Thrown r) s).
  - intros Nf HN. rewrite exec_one. unfold exec_stmt, ev, bind, get, on_world. rewrite (eval_null_check _ _ _ _ _ _ Her HN).
    destruct s. by case_decide.
  - split; [done|]. unfold not_null. case_decide; by eexists.
Qed.
End ops.
