(* ===== verification/ConvertCalls.v ===== *)
(** * The converters simulate their instructions: calls *)

From S2P Require Import Prelude CMonad ConstantPool ClassFile Opcodes Bytecode Types BasicBlock Tree ArgsMap Convert.
From S2P Require Import ConvertRun JavaMachine TreeSem ConvertSim ConvertOps ConvertStack ConvertHeap ConvertObjects.
From stdpp Require Import gmap.
#[local] Open Scope Z_scope.

(** What resolution promises of a method: a type of a descriptor, a map of its arguments that
    has an entry for each of their slots, sizes that do not wrap, an address of its class. *)
Definition jni_extra (m : vm_callee) : Z := if vm_method_is_jni m then (if vm_method_is_static m then 2 else 1) else 0.
Record callee_ok (m : vm_callee) : Prop := {
  callee_return : vm_method_return_type m ≠ J_RETURN_ADDRESS;
  callee_slots : args_slots (callee_args m) + 1 < 2 ^ 32;
  callee_map : args_slots (callee_args m) + (if vm_method_is_static m then 0 else 1) + jni_extra m <= Z.of_nat (length (args_map m));
  callee_object : 0 <= callee_class_object m < 2 ^ 64;
}.

Section calls.
Context `{Allocator} `{Resolver} `{FloatsLaws} `{!JavaHeap} `{!JavaHeapLaws} (code : list Z).
Context (u : ir_unit) (b : nat).
Context (Hmem : always_ok).

#[local] Abbreviation co := (co u b).
#[local] Abbreviation outc := (CMonad.outcome istate exc ictl).
#[local] Abbreviation sim := (sim u b).

(** ** Values and slots *)

Definition val_slots (v : val) : nat := if pair_val v then 2 else 1.
Definition slots (vs : list val) : nat := sum_list_with val_slots vs.
(** The entries of the array of arguments. *)
Definition entry (e : expression) (v : val) : list (option expression) := if pair_val v then [Some e; None] else [Some e].
Fixpoint entries (es : list expression) (vs : list val) : list (option expression) :=
  match es, vs with e :: es', v :: vs' => entry e v ++ entries es' vs' | _, _ => [] end.

Lemma entries_length es vs : length es = length vs → length (entries es vs) = slots vs.
Proof.
  revert vs. induction es as [|e es IH]; intros [|v vs] Hl; try done. cbn. rewrite length_app, IH by (cbn in Hl; lia).
  unfold entry, val_slots. by destruct (pair_val v).
Qed.
Lemma entries_app es1 vs1 es2 vs2 :
  length es1 = length vs1 → entries (es1 ++ es2) (vs1 ++ vs2) = entries es1 vs1 ++ entries es2 vs2.
Proof.
  revert vs1. induction es1 as [|e es IH]; intros [|v vs] Hl; try done. cbn. rewrite IH by (cbn in Hl; lia). by rewrite app_assoc.
Qed.

Lemma mimic_pair t : vm_type_is_pair (mimic_stack_type t) = vm_type_is_pair t.
Proof. by destruct t. Qed.
Lemma pop_values_spec types st l rest :
  pop_values types st = Some (l, rest) →
  st = rev l ++ rest ∧ Forall2 (λ v t, val_type v = mimic_stack_type t) (rev l) types ∧
  Z.of_nat (slots (rev l)) = args_slots types.
Proof.
  revert st l rest. induction types as [|t types IH]; intros st l rest E; cbn in E; [by simplify_eq|].
  destruct st as [|v st]; [done|]. case_decide as Hv; [|done].
  destruct (pop_values types st) as [[l' rest']|] eqn:E'; [|done]. cbn in E. simplify_eq.
  destruct (IH _ _ _ E') as (-> & HF & Hs). rewrite rev_app_distr. split_and!; [done|by constructor|].
  change (args_slots (t :: types)) with (vm_type_slot_size t + args_slots types). rewrite <- Hs.
  assert (Ht : Z.of_nat (val_slots v) = vm_type_slot_size t).
  { unfold val_slots, pair_val. rewrite Hv, mimic_pair. by destruct t. }
  rewrite <- Ht, <- Nat2Z.inj_add. done.
Qed.
Lemma slot_count_app l1 l2 : slots (l1 ++ l2) = (slots l1 + slots l2)%nat.
Proof. apply sum_list_with_app. Qed.

(** The arguments of a call on the stack. *)
Lemma pop_arguments_spec m st l st' :
  pop_arguments m st = Some (l, st') →
  ∃ args this, l = this ++ args ∧ st = rev args ++ this ++ st' ∧
    Forall2 (λ v t, val_type v = mimic_stack_type t) (rev args) (rev (callee_args m)) ∧
    Z.of_nat (slots (rev args)) = args_slots (callee_args m) ∧
    if vm_method_is_static m then this = [] else ∃ r, this = [VRef r].
Proof.
  unfold pop_arguments. intros E. destruct (pop_values _ st) as [[args rest]|] eqn:Ep; [|done]. cbn in E.
  destruct (pop_values_spec _ _ _ _ Ep) as (-> & HF & Hs). rewrite args_slots_rev in Hs.
  destruct (vm_method_is_static m).
  - simplify_eq. by exists l, [].
  - destruct rest as [|[| | | |r|] rest]; try done. simplify_eq. exists args, [VRef r]. split_and!; try done. by exists r.
Qed.

(** ** The steps of a call *)

(** The expressions of a stack, the first of which may be outstanding. *)
Definition stack_ok (N : list shared) (n : nat) (s : istate) (M : list expression) (S : list val) (wd : world) : Prop :=
  match M, S with
  | e :: M', v :: S' => top_ok N n s e v wd ∧ Forall2 (settled N n s) M' S'
  | [], [] => wd = i_world s
  | _, _ => False
  end.
Lemma settled_stack N n s M S : Forall2 (settled N n s) M S → stack_ok N n s M S (i_world s).
Proof. intros [|e v M' S' He HM]; [done|]. split; [by apply settled_top|done]. Qed.
Lemma match_stack_ok L s σ pend : match_state L s σ pend → stack_ok (l_nodes L) (length (l_vars L)) s (l_stack L) (j_stack σ) (j_world σ).
Proof.
  intros HM. destruct (j_stack σ) as [|v S] eqn:ES.
  - destruct HM as [_ HM]. destruct pend; [by destruct HM as (?&?&?&?&?&E&_); rewrite ES in E|].
    destruct HM as [HM Hw]. rewrite ES in HM. by inversion HM.
  - by destruct (match_top _ _ _ _ v S HM ES) as (e & M & -> & He & HM').
Qed.
Lemma stack_ok_grows N V s N' V' s' M S wd :
  grows N V s N' V' s' → i_world s' = i_world s → stack_ok N (length V) s M S wd → stack_ok N' (length V') s' M S wd.
Proof.
  intros G Hw. destruct M as [|e M], S as [|v S]; cbn; [congruence|done..|]. intros [He HM].
  split; [by eapply grows_top|by eapply grows_settled_list].
Qed.
(** The arguments and the rest; an outstanding one is an argument. *)
Lemma stack_ok_app N n s M vs S wd :
  stack_ok N n s M (vs ++ S) wd → vs ≠ [] ∨ (Forall2 (settled N n s) M (vs ++ S) ∧ wd = i_world s) →
  ∃ es M', M = es ++ M' ∧ stack_ok N n s es vs wd ∧ Forall2 (settled N n s) M' S.
Proof.
  intros HM [Hne|[HF ->]].
  - destruct vs as [|v vs]; [done|]. destruct M as [|e M]; [done|]. destruct HM as [He HM].
    apply Forall2_app_inv_r in HM as (es & M' & Hes & HM & ->). by exists (e :: es), M'.
  - apply Forall2_app_inv_r in HF as (es & M' & Hes & HF & ->). exists es, M'. split; [done|]. split; [by apply settled_stack|done].
Qed.
Lemma stack_ok_types N n s M S wd : stack_ok N n s M S wd → Forall2 (λ e v, vm_type_of N e = Some (val_type v)) M S.
Proof.
  destruct M as [|e M], S as [|v S]; cbn; [constructor|done..|]. intros [He HM]. constructor; [apply (proj1 He)|].
  eapply Forall2_impl; [exact HM|]. by intros ? ? [? _].
Qed.

Lemma co_pop_args_loop es vs k h p o c w ss M N V a r (Q : list (option expression) → loc → outc → Prop) :
  k = slots vs → Forall2 (λ e v, vm_type_of N e = Some (val_type v)) es vs →
  Q (entries es vs) (Loc h p o c w ss M N V a) r →
  co (pop_args_loop k) (Loc h p o c w ss (es ++ M) N V a) r Q.
Proof.
  intros -> HS. revert Q. induction HS as [|e v es vs He HS IH]; intros Q HQ; [by apply co_ret|].
  change (slots (v :: vs)) with (val_slots v + slots vs)%nat. change (entries (e :: es) (v :: vs)) with (entry e v ++ entries es vs) in HQ.
  unfold val_slots, entry in *. destruct (pair_val v) eqn:Ev; unfold pair_val in Ev; cbn [Nat.add pop_args_loop app] in *;
    (apply co_bind, co_pop; apply co_bind; eapply co_type_of; [exact He|]); rewrite Ev;
    apply co_bind; apply IH; by apply co_ret.
Qed.

Lemma co_pure_args es vs wd h p o c w ss M N V a s (Q : list (option expression) → loc → outc → Prop) :
  stack_ok N (length V) s es vs wd →
  (∀ ds h' ss' N' V' s', grows N V s N' V' s' → i_world s' = wd → Forall2 (settled N' (length V') s') ds vs →
     Q (entries ds vs) (Loc h' p o c w ss' M N' V' a) (Done INext s')) →
  co (pure_args (entries es vs)) (Loc h p o c w ss M N V a) (Done INext s) Q.
Proof using Hmem.
  revert es h ss N V s Q. induction vs as [|v vs IH]; intros es h ss N V s Q HS HQ; (destruct es as [|e es]; [|try done]); try done.
  { apply co_ret. apply (HQ []); [apply grows_refl|by cbn in HS|constructor]. }
  destruct HS as [He HS]. change (entries (e :: es) (v :: vs)) with (entry e v ++ entries es vs).
  assert (Hpure : ∀ (k : expression → K (list (option expression))),
    (∀ d h' ss' N' V' s', grows N V s N' V' s' → i_world s' = wd → settled N' (length V') s' d v →
       co (k d) (Loc h' p o c w ss' M N' V' a) (Done INext s') Q) →
    co (let* e := (if expr_is_pure e then ret e else get_pure_expr e) in k e) (Loc h p o c w ss M N V a) (Done INext s) Q).
  { intros k Hk. apply co_bind. destruct (expr_is_pure e) eqn:Hp.
    - destruct He as (_ & _ & _ & He). destruct (He Hp) as [He' ->]. apply co_ret, Hk; [apply grows_refl|done..].
    - eapply co_get_pure; [done|exact He|]. intros. by apply Hk. }
  assert (Hrec : ∀ d h' ss' N' V' s' (f : list (option expression) → list (option expression)),
    grows N V s N' V' s' → i_world s' = wd → settled N' (length V') s' d v → (∀ l, f l = entry d v ++ l) →
    co (let* rest := pure_args (entries es vs) in ret (f rest)) (Loc h' p o c w ss' M N' V' a) (Done INext s') Q).
  { intros d h' ss' N' V' s' f G Hw Hd Hf. keep_settled. apply co_bind. eapply IH; [rewrite <- Hw; by apply settled_stack|].
    intros ds h2 ss2 N2 V2 s2 G2 Hw2 Hds. apply co_ret. rewrite Hf. apply (HQ (d :: ds)); [by eapply grows_trans|done|].
    constructor; [by eapply grows_settled|done]. }
  unfold entry in *. destruct (pair_val v) eqn:Ev; unfold pair_val in Ev; cbn [app pure_args]; step;
    (apply co_bind; eapply co_type_of; [exact (proj1 He)|]); apply Hpure; intros d h' ss' N' V' s' G Hw Hd; rewrite Ev;
    by apply (Hrec d).
Qed.

Lemma arg_type_mimic t : vm_method_arg_type t = mimic_stack_type t.
Proof. by destruct t. Qed.
Lemma lookup_at {A} (pre tl : list A) x : (pre ++ x :: tl) !! length pre = Some x.
Proof. by apply list_lookup_middle. Qed.

Lemma co_verify types ds vs pre tl nr h p o c w ss M N V a s r (Q : bool → loc → outc → Prop) :
  Forall2 (λ v t, val_type v = mimic_stack_type t) vs types → Forall2 (settled N (length V) s) ds vs →
  Q true (Loc h p o c w ss M N V a) r →
  co (verify_loop types (pre ++ entries ds vs ++ tl) (Z.of_nat (length pre)) nr) (Loc h p o c w ss M N V a) r Q.
Proof.
  intros HT. revert ds pre. induction HT as [|v t vs types Hv HT IH]; intros ds pre HS HQ; [by apply co_ret|].
  unstack HS d Hd HS'. change (entries (d :: M0) (v :: vs)) with (entry d v ++ entries M0 vs).
  assert (Hnext : ∀ idx, idx = Z.of_nat (length (pre ++ entry d v)) →
    co (verify_loop types (pre ++ (entry d v ++ entries M0 vs) ++ tl) idx nr) (Loc h p o c w ss M N V a) r Q).
  { intros idx ->. rewrite <- app_assoc, app_assoc. by apply IH. }
  cbn [verify_loop]. rewrite Nat2Z.id. apply co_bind. eapply co_must.
  { unfold entry. destruct (pair_val v); cbn [app]; by rewrite lookup_at. }
  apply co_bind. eapply co_type_of; [apply Hd|]. rewrite decide_False by (rewrite arg_type_mimic; intros Hn; by apply Hn).
  case_decide; [by apply co_ret|]. apply Hnext. rewrite length_app. unfold entry, pair_val. destruct (vm_type_is_pair _); cbn; lia.
Qed.

(** An argument with its register. *)
Lemma co_insert_arg acc l e v m index h p o c w ss M N V a s r (Q : option expression → loc → outc → Prop) :
  0 <= index < Z.of_nat (length (args_map m)) → settled N (length V) s e v → args_eval N (length V) s acc l →
  (∀ arg h', (is_this_arg m index = true → ∃ reg, arg = EXPR_ARG_THIS reg e) →
     args_eval N (length V) s (Some match acc with None => arg | Some root => EXPR_ARGS_LIST root arg end) (v :: l) →
     Q (Some match acc with None => arg | Some root => EXPR_ARGS_LIST root arg end) (Loc h' p o c w ss M N V a) r) →
  co (insert_arg acc e m index) (Loc h p o c w ss M N V a) r Q.
Proof using Hmem.
  intros Hi He Ha HQ. destruct (lookup_lt_is_Some_2 (args_map m) (Z.to_nat index)) as [reg Ereg]; [lia|].
  unfold insert_arg. apply co_bind. eapply co_must; [exact Ereg|].
  assert (Hk : ∀ arg h', (is_this_arg m index = true → ∃ reg, arg = EXPR_ARG_THIS reg e) →
    (∀ N' ρ, eval_args N' ρ arg = (let* v := eval N' ρ e in ret [v])) →
    co (let* e := must (Some arg) in match acc with None => ret (Some e) | Some root => args_list_expr root e end)
      (Loc h' p o c w ss M N V a) r Q).
  { intros arg h' Ht Hev. pose proof (args_eval_cons _ _ _ acc l e v arg Ha He Hev) as Ha'. step.
    destruct acc as [root|]; [unfold args_list_expr; step|apply co_ret]; by apply HQ. }
  apply co_bind. destruct (is_this_arg m index) eqn:Et.
  - unfold arg_this_expr. step. apply Hk; [|done]. intros _. by eexists.
  - unfold arg_expr. apply co_bind. eapply co_type_of; [apply He|]. step. by apply Hk.
Qed.

Lemma co_args_loop ds vs tl i tot m acc l h p o c w ss M N V a s r (Q : option expression → loc → outc → Prop) :
  Forall2 (settled N (length V) s) ds vs → 0 <= i → i + Z.of_nat (slots vs) <= tot <= Z.of_nat (length (args_map m)) →
  args_eval N (length V) s acc l →
  (∀ acc' h', args_eval N (length V) s acc' (rev vs ++ l) → (is_Some acc ∨ vs ≠ [] → is_Some acc') →
     co (convert_args_loop tl (i + Z.of_nat (slots vs)) tot m acc') (Loc h' p o c w ss M N V a) r Q) →
  co (convert_args_loop (entries ds vs ++ tl) i tot m acc) (Loc h p o c w ss M N V a) r Q.
Proof using Hmem.
  revert ds i acc l h. induction vs as [|v vs IH]; intros ds i acc l h HS Hi Ht Ha HQ.
  { inversion HS; subst. specialize (HQ acc h Ha ltac:(by intros [?|?])). by rewrite Z.add_0_r in HQ. }
  unstack HS d Hd HS'. change (entries (d :: M0) (v :: vs)) with (entry d v ++ entries M0 vs).
  change (slots (v :: vs)) with (val_slots v + slots vs)%nat in *.
  assert (Hv : (1 <= val_slots v)%nat) by (unfold val_slots; destruct (pair_val v); lia).
  assert (Hrec : ∀ index, 0 <= index < tot →
    co (let* args_list := insert_arg acc d m index in
        convert_args_loop (entries M0 vs ++ tl) (i + Z.of_nat (val_slots v)) tot m args_list)
      (Loc h p o c w ss M N V a) r Q).
  { intros index Hix. apply co_bind. eapply co_insert_arg; [lia|exact Hd|exact Ha|]. intros arg h' _ Ha'.
    eapply IH; [exact HS'|lia|lia|exact Ha'|]. intros acc' h2 Hacc Hs.
    replace (i + Z.of_nat (val_slots v) + Z.of_nat (slots vs)) with (i + Z.of_nat (val_slots v + slots vs)) by lia.
    apply HQ; [cbn [rev]; by rewrite <- app_assoc|eauto]. }
  unfold entry, val_slots in *. destruct (pair_val v) eqn:Ev; unfold pair_val in Ev; cbn [app convert_args_loop]; step;
    (apply co_bind; eapply co_type_of; [apply Hd|]); rewrite Ev; apply Hrec; lia.
Qed.

(** ** The arguments of a call *)

(** The tree of the arguments; [this] is last in it. *)
Definition args_shape (N : list shared) (n : nat) (s : istate) (m : vm_callee) (l : list val) (e : expression) : Prop :=
  args_eval N n s (Some e) (callee_values m l) ∧
  (vm_method_is_static m = false →
   ∃ acc reg x r l', l = VRef r :: l' ∧ settled N n s x (VRef r) ∧ args_eval N n s acc l' ∧
     e = match acc with None => EXPR_ARG_THIS reg x | Some root => EXPR_ARGS_LIST root (EXPR_ARG_THIS reg x) end).

Lemma co_convert_args_static m ds vs h p o c w ss M N V a s (Q : option expression → loc → outc → Prop) :
  callee_ok m → vm_method_is_static m = true →
  Z.of_nat (slots vs) = args_slots (callee_args m) → Forall2 (settled N (length V) s) ds vs →
  (∀ e h', args_shape N (length V) s m (rev vs) e → Q (Some e) (Loc h' p o c w ss M N V a) (Done INext s)) →
  co (convert_args (entries ds vs) (Z.of_nat (slots vs)) m) (Loc h p o c w ss M N V a) (Done INext s) Q.
Proof using Hmem.
  intros [_ _ Hmap Hobj] Hst Hsl HS HQ. unfold convert_args. rewrite Hst. unfold jni_extra in Hmap. rewrite Hst in Hmap.
  rewrite <- Hsl in Hmap. rewrite andb_true_r. case_decide as Hz.
  { unfold no_args_expr. step. apply HQ. split; [|congruence]. destruct (vm_method_is_jni m) eqn:Ej; [lia|].
    intros N' s' _ _. unfold callee_values. rewrite Ej. cbn. destruct vs as [|v vs]; [done|].
    change (slots (v :: vs)) with (val_slots v + slots vs)%nat in Hz. unfold val_slots in Hz. destruct (pair_val v); lia. }
  apply co_bind. rewrite <- (app_nil_r (entries ds vs)).
  eapply (co_args_loop ds vs [] 0 _ m None []); [exact HS|lia|destruct (vm_method_is_jni m); lia|done|].
  intros acc h' Ha Hs. apply co_ret. rewrite app_nil_r in Ha. destruct (vm_method_is_jni m) eqn:Ej.
  - unfold value_expr. step. eapply (co_insert_arg acc (rev vs) _ (VRef (callee_class_object m))); [lia| |exact Ha|].
    { apply settled_0; [done|done|]. intros. cbn. unfold u64. by rewrite Z.mod_small. }
    intros arg h2 _ Ha2. apply HQ. split; [|congruence]. unfold callee_values. by rewrite Ej, Hst.
  - destruct Hs as [e ->]; [right; intros ->; cbn in Hz; lia|]. apply co_ret, HQ. split; [|congruence].
    unfold callee_values. by rewrite Ej.
Qed.
Lemma co_convert_args_this m ds d vs r0 h p o c w ss M N V a s (Q : option expression → loc → outc → Prop) :
  callee_ok m → vm_method_is_static m = false →
  Z.of_nat (slots vs) = args_slots (callee_args m) → Forall2 (settled N (length V) s) ds vs →
  settled N (length V) s d (VRef r0) →
  (∀ e h', args_shape N (length V) s m (VRef r0 :: rev vs) e → Q (Some e) (Loc h' p o c w ss M N V a) (Done INext s)) →
  co (convert_args (entries ds vs ++ [Some d]) (Z.of_nat (slots vs) + 1) m) (Loc h p o c w ss M N V a) (Done INext s) Q.
Proof using Hmem.
  intros [_ _ Hmap _] Hst Hsl HS Hd HQ. unfold convert_args. rewrite Hst, andb_false_r. unfold jni_extra in Hmap.
  rewrite Hst, <- Hsl in Hmap. rewrite decide_False by (destruct (vm_method_is_jni m); lia). apply co_bind.
  eapply (co_args_loop ds vs [Some d] 0 _ m None []); [exact HS|lia|destruct (vm_method_is_jni m); lia|done|].
  intros acc h' Ha _. rewrite app_nil_r in Ha. cbn [convert_args_loop]. step. apply co_bind. eapply co_type_of; [apply Hd|].
  change (vm_type_is_pair (val_type (VRef r0))) with false. apply co_bind.
  eapply (co_insert_arg acc (rev vs) d (VRef r0)); [destruct (vm_method_is_jni m); lia|exact Hd|exact Ha|].
  intros arg h2 Ht Ha2. apply co_ret. apply co_ret. apply HQ. split.
  - unfold callee_values. by rewrite Hst, andb_false_r.
  - intros _. destruct Ht as [reg ->]; [|by exists acc, reg, d, r0, (rev vs)].
    unfold is_this_arg. rewrite Hst. destruct (vm_method_is_jni m); apply bool_decide_eq_true_2; lia.
Qed.

Lemma arg_stack_count m : callee_ok m →
  vm_method_arg_stack_count m = args_slots (callee_args m) + (if vm_method_is_static m then 0 else 1).
Proof.
  intros [_ Hs _ _]. unfold vm_method_arg_stack_count, u32. pose proof (args_slots_nonneg (callee_args m)).
  apply Z.mod_small. destruct (vm_method_is_static m); lia.
Qed.

Lemma co_add_args m l S st' wd N0 V0 h p o c w ss M N V a s (Q : expression → loc → outc → Prop) :
  callee_ok m → pop_arguments m S = Some (l, st') → grows N0 V0 s N V s → stack_ok N0 (length V0) s M S wd →
  l ≠ [] ∨ (Forall2 (settled N0 (length V0) s) M S ∧ wd = i_world s) →
  (∀ e h' ss' M' N' V' s', grows N V s N' V' s' → i_world s' = wd → args_shape N' (length V') s' m l e →
     Forall2 (settled N0 (length V0) s) M' st' → Q e (Loc h' p o c w ss' M' N' V' a) (Done INext s')) →
  co (convert_and_add_args m) (Loc h p o c w ss M N V a) (Done INext s) Q.
Proof using Hmem.
  intros Hok HP G0 HS Htop HQ. destruct (pop_arguments_spec _ _ _ _ HP) as (args & this & -> & -> & HT & Hsl & Hthis).
  rewrite app_assoc in HS, Htop. destruct (stack_ok_app _ _ _ _ _ _ _ HS) as (es & M' & -> & Hes & HM').
  { destruct Htop as [Hne|?]; [left|by right]. intros E. apply Hne. apply app_eq_nil in E as [Ea ->].
    rewrite <- (rev_involutive args), Ea. done. }
  apply (stack_ok_grows _ _ _ _ _ _ _ _ _ G0 eq_refl) in Hes.
  unfold convert_and_add_args, pop_args. rewrite (arg_stack_count m Hok), <- Hsl.
  apply co_bind. step. cbn [negb].
  assert (Hk : Z.to_nat (Z.of_nat (slots (rev args)) + (if vm_method_is_static m then 0 else 1)) = slots (rev args ++ this)).
  { rewrite slot_count_app. destruct (vm_method_is_static m); [subst this; change (slots []) with 0%nat; lia|].
    destruct Hthis as [r ->]. change (slots [VRef r]) with 1%nat. lia. }
  apply co_bind. eapply co_pop_args_loop; [exact Hk|by eapply stack_ok_types|]. apply co_ret.
  apply co_bind. eapply co_pure_args; [exact Hes|]. intros ds h2 ss2 N2 V2 s2 G Hw Hds.
  apply Forall2_app_inv_r in Hds as (ds1 & ds2 & Hds1 & Hds2 & ->).
  rewrite entries_app by by eapply Forall2_length. apply co_bind. unfold verify_arg_types.
  apply (co_verify _ _ _ [] _ _ _ _ _ _ _ _ _ _ _ _ s2); [exact HT|exact Hds1|]. cbn [negb]. apply co_bind.
  assert (Hfin : ∀ e h', args_shape N2 (length V2) s2 m (this ++ args) e →
    co match Some e with None => einval | Some a => ret a end (Loc h' p o c w ss2 M' N2 V2 a) (Done INext s2) Q).
  { intros e hf He. apply co_ret. by apply HQ. }
  destruct (vm_method_is_static m) eqn:Est.
  - subst this. inversion Hds2; subst. cbn [entries]. rewrite app_nil_r, Z.add_0_r. apply co_convert_args_static; try done.
    intros e hf He. rewrite rev_involutive in He. by apply Hfin.
  - destruct Hthis as [r ->]. inversion Hds2 as [|d ? ? ? Hd Hnil]; subst. inversion Hnil; subst. cbn [entries entry].
    change (pair_val (VRef r)) with false. cbn [app]. eapply co_convert_args_this; try done.
    intros e hf He. rewrite rev_involutive in He. by apply Hfin.
Qed.

(** ** The call *)

(** The temporary of the result, made before the arguments are. *)
Definition result_slot (t : vm_type) (N : list shared) (V : list vm_type) (result : option expression) (N1 : list shared) (V1 : list vm_type) : Prop :=
  if decide (t = J_VOID) then result = None ∧ N1 = N ∧ V1 = V
  else result = Some (EXPR_SHARED (length N)) ∧ N1 = N ++ [temp_node (mimic_stack_type t) (length V)] ∧ V1 = V ++ [mimic_stack_type t].

Lemma co_invoke_stmt ty m h p o c w ss M N V a r (Q : option (expression → statement) → loc → outc → Prop) :
  callee_ok m →
  (∀ result h' N1 V1, result_slot (vm_method_return_type m) N V result N1 V1 →
     Q (Some (λ args, STMT_CALL ty m args result)) (Loc h' p o c w ss M N1 V1 a) r) →
  co (invoke_stmt ty m) (Loc h p o c w ss M N V a) r Q.
Proof using Hmem.
  intros [Hret _ _ _] HQ. unfold invoke_stmt. step. apply co_bind. unfold invoke_result_of, result_slot in *.
  destruct (vm_method_return_type m) eqn:Et; try done;
    first [apply co_ret, co_ret; by apply HQ|apply co_temporary_expr; [done|]; intros hf; apply co_ret; by apply HQ].
Qed.

Lemma result_grows t N V result N1 V1 s : result_slot t N V result N1 V1 → grows N V s N1 V1 s.
Proof.
  unfold result_slot. case_decide; intros (_ & -> & ->); [apply grows_refl|].
  split_and!; [apply node_ext_app|rewrite length_app; lia|apply agree_refl|done].
Qed.

(** What the call does to the state: [n] is the variable of the result. *)
Definition after_call (n : nat) (t : vm_type) (v : option val) (s : istate) (wd : world) : istate :=
  match v with Some v => if decide (t = J_VOID) then IS (i_env s) wd else with_temp n v s wd | None => IS (i_env s) wd end.
Definition result_typed (t : vm_type) (v : option val) : Prop :=
  match v with None => t = J_VOID | Some v => t ≠ J_VOID ∧ val_type v = mimic_stack_type t end.

Lemma exec_call Nf o ty m e lv N V result N1 V1 s :
  result_slot (vm_method_return_type m) N V result N1 V1 → node_ext N1 Nf →
  eval_args Nf (i_env s) e (i_world s) = Done lv (i_world s) →
  (∀ v wd, call ty m lv (i_world s) = Done v wd → result_typed (vm_method_return_type m) v) →
  exec_from Nf (Done INext s) [(o, STMT_CALL ty m e result)] =
    match call ty m lv (i_world s) with
    | Done v wd => Done INext (after_call (length V) (vm_method_return_type m) v s wd)
    | Fail x wd => Fail x (IS (i_env s) wd)
    | Undef => Undef
    end.
Proof.
  intros Hs HN He Ht. rewrite exec_one. unfold exec_stmt, ev_args, bind, get, on_world. rewrite He. cbn.
  destruct (call ty m lv (i_world s)) as [v wd|x wd|]; [|done|done]. specialize (Ht v wd eq_refl).
  unfold result_slot in Hs. unfold after_call, result_typed in *. destruct v as [v|].
  - destruct Ht as [Hv Ht]. rewrite decide_False in Hs by done. rewrite decide_False by done. destruct Hs as (-> & -> & ->).
    unfold exec_result, bind, typed, on_world. rewrite decide_True by done. cbn. unfold assign_shared.
    destruct (node_ext_lookup _ _ (length N) _ HN (lookup_at N [] _)) as (x' & -> & K). rewrite K. unfold temp_node. cbn.
    by destruct (vm_type_is_float _).
  - rewrite Ht in Hs. destruct Hs as (-> & -> & ->). done.
Qed.

(** The check of the receiver of [invokespecial]. *)
Lemma co_null_check_this m l e h p o c w ss M N V a s r (Q : expression → loc → outc → Prop) :
  vm_method_is_static m = false → args_shape N (length V) s m l e →
  (∀ e' h', (∀ N', node_ext N N' → eval_args N' (i_env s) e' (i_world s) =
       match l with VRef 0 :: _ => Fail NullPointerException (i_world s) | _ => Done (callee_values m l) (i_world s) end) →
     Q e' (Loc h' p o c w ss M N V a) r) →
  co (null_check_this_arg e) (Loc h p o c w ss M N V a) r Q.
Proof using Hmem.
  intros Hst [_ Hsh] HQ. destruct (Hsh Hst) as (acc & reg & x & r0 & l' & -> & Hx & Ha & ->).
  assert (Hcv : callee_values m (VRef r0 :: l') = VRef r0 :: l') by (unfold callee_values; by rewrite Hst, andb_false_r).
  assert (Hc : ∀ (f : expression → expression) h', (∀ N', node_ext N N' → eval_args N' (i_env s) (f (EXPR_NULL_CHECK x)) (i_world s) =
       if decide (r0 = 0) then Fail NullPointerException (i_world s) else Done (VRef r0 :: l') (i_world s)) →
    co (let* e := null_check_arg x in ret (f e)) (Loc h' p o c w ss M N V a) r Q).
  { intros f h' Hf. unfold null_check_arg. apply co_bind, co_bind, co_null_check; [done|apply Hx|]. intros h2. step. apply co_ret.
    apply HQ. intros N' HN. rewrite Hf, Hcv by done. by destruct r0. }
  destruct acc as [root|]; cbn [null_check_this_arg].
  - apply (Hc (λ e, EXPR_ARGS_LIST root (EXPR_ARG_THIS reg e))). intros N' HN.
    change (bind (eval_args N' (i_env s) root) (λ vl, let* vr := (let* v := eval N' (i_env s) (EXPR_NULL_CHECK x) in ret [v]) in ret (vr ++ vl))
      (i_world s) = if decide (r0 = 0) then Fail NullPointerException (i_world s) else Done (VRef r0 :: l') (i_world s)).
    rewrite (bind_run _ _ _ _ _ (Ha N' s HN (agree_refl _ _))). unfold bind. rewrite (eval_null_check _ _ _ _ _ _ Hx HN). by case_decide.
  - apply (Hc (EXPR_ARG_THIS reg)). intros N' HN. cbn in Ha. subst l'.
    change (bind (eval N' (i_env s) (EXPR_NULL_CHECK x)) (λ v, ret [v]) (i_world s) =
      if decide (r0 = 0) then Fail NullPointerException (i_world s) else Done [VRef r0] (i_world s)).
    unfold bind. rewrite (eval_null_check _ _ _ _ _ _ Hx HN). by case_decide.
Qed.

Definition call_out (ty : invoke_type) (m : vm_callee) (null : bool) (l st : list val) (σ : jstate) : out :=
  if null then throw NullPointerException σ
  else heap_do (call ty m (callee_values m l)) σ (λ v, push_result (vm_method_return_type m) v st).

Lemma push_result_spec t v st σ :
  push_result t v st σ ≠ Undef →
  result_typed t v ∧ push_result t v st σ = match v with Some v => push σ st v | None => with_stack σ st end.
Proof.
  unfold push_result, push_typed, result_typed. intros Hu.
  destruct v as [v|], t; try done; (case_decide as Hd; [|by destruct Hu]); done.
Qed.

(** The states match after a call. *)
Lemma match_after_call t v wd l S h p o c w ss N V s result N1 V1 M' N' V' a sg :
  result_slot t N V result N1 V1 → grows N1 V1 s N' V' sg → later (i_world sg) wd → result_typed t v →
  l ⊆ e_locals (i_env s) → Forall2 (settled N (length V) s) M' S →
  match_state (Loc h p o c w ss (match result with Some e => e :: M' | None => M' end) N' V' a)
    (after_call (length V) t v sg wd) (JS l (match v with Some v => v :: S | None => S end) wd) false.
Proof.
  intros Hs G Hw Ht Hl HS. pose proof (result_grows _ _ _ _ _ _ s Hs) as G0. destruct (grows_trans _ _ _ _ _ _ _ _ _ G0 G) as (HN & HV & HA & HL).
  assert (HA2 : agree (length V) sg (after_call (length V) t v sg wd)).
  { unfold after_call. destruct v as [v|]; [case_decide|]; try by apply with_temp_agree. all: by split_and!. }
  assert (HM : Forall2 (settled N' (length V') (after_call (length V) t v sg wd)) M' S).
  { eapply settled_list_mono; [exact HS|exact HN|exact HV|]. by eapply (agree_trans _ (length V)). }
  assert (HL2 : e_locals (i_env (after_call (length V) t v sg wd)) = e_locals (i_env s)).
  { unfold after_call. destruct v as [v|]; [case_decide|]; done. }
  assert (Hwd : wd = i_world (after_call (length V) t v sg wd)) by (unfold after_call; destruct v as [v|]; [case_decide|]; done).
  apply match_intro; [by rewrite HL2| |exact Hwd]. cbn [l_nodes l_vars l_stack]. clear Hwd HL2 HA2.
  unfold result_slot, result_typed, after_call in *. destruct v as [v|].
  - destruct Ht as [Hv Ht]. rewrite decide_False in Hs by done. rewrite decide_False in HM |- * by done.
    destruct Hs as (-> & -> & ->). destruct G as (HN1 & HV1 & _ & _). rewrite length_app in HV1. cbn in HV1.
    constructor; [|done]. split.
    + eapply vm_type_of_ext; [exact HN1| |apply mimic_val_type]. cbn. rewrite lookup_at. cbn. congruence.
    + split; [done|]. intros Nf s' HNf (T & _). cbn. unfold stuck_or. erewrite shared_temp_value; [done| |by etrans].
      rewrite T by lia. cbn. by rewrite lookup_insert_eq.
  - rewrite decide_True in Hs by done. destruct Hs as (-> & -> & ->). done.
Qed.

Lemma co_convert_invoke ty m check null result l st' S wd0 locals h p o c w ss M N V N1 V1 a s :
  callee_ok m → result_slot (vm_method_return_type m) N V result N1 V1 → pop_arguments m S = Some (l, st') →
  stack_ok N (length V) s M S wd0 → l ≠ [] ∨ (Forall2 (settled N (length V) s) M S ∧ wd0 = i_world s) →
  locals ⊆ e_locals (i_env s) →
  (check = true → vm_method_is_static m = false) → null = (check && match l with VRef 0 :: _ => true | _ => false end) →
  let out := call_out ty m null l st' (JS locals S wd0) in
  out ≠ Undef →
  co (convert_invoke m (λ args, STMT_CALL ty m args result) check) (Loc h p o c w ss M N1 V1 a) (Done INext s)
    (λ _ L' r', l_pos L' = p ∧ result_match u out L' r' false).
Proof using Hmem.
  intros Hok Hs HP HS Htop Hl Hchk Hnull out Hu. unfold convert_invoke. apply co_bind.
  eapply (co_add_args m l S st' wd0 N V); [done|done|by eapply result_grows|done|done|].
  intros e h1 ss1 M' N' V' sg G Hw Hsh HM'.
  assert (Hmain : ∀ e' h', (∀ Nf, node_ext N' Nf → eval_args Nf (i_env sg) e' (i_world sg) =
       if null then Fail NullPointerException (i_world sg) else Done (callee_values m l) (i_world sg)) →
    co (do insert_before_args_stmt m ;; insert_invoke_stmt (STMT_CALL ty m e' result)) (Loc h' p o c w ss1 M' N' V' a) (Done INext sg)
      (λ _ L' r', l_pos L' = p ∧ result_match u out L' r' false)).
  { intros e' h' He. unfold insert_before_args_stmt, insert_invoke_stmt. apply co_bind. step.
    eapply co_statement with (r' := Done INext sg); [done|]. apply co_bind.
    assert (HN1 : node_ext N1 N') by apply G.
    assert (Hpush : ∀ h2 ss2 r', (∀ h3, l_pos (Loc h3 p o c w ss2 (match result with Some e => e :: M' | None => M' end) N' V' a) = p ∧
        result_match u out (Loc h3 p o c w ss2 (match result with Some e => e :: M' | None => M' end) N' V' a) r' false) →
      co match result with Some e => do expr_get e ;; convert_expression e | None => ret tt end (Loc h2 p o c w ss2 M' N' V' a) r'
        (λ _ L' r', l_pos L' = p ∧ result_match u out L' r' false)).
    { intros h2 ss2 r' HQ. unfold result_slot in Hs. case_decide; destruct Hs as (-> & -> & ->); [apply co_ret, HQ|].
      step. eapply co_push_type; [done| |apply mimic_idem|intros; apply HQ].
      eapply vm_type_of_ext; [exact HN1| |apply mimic_idem]. cbn. by rewrite lookup_at. }
    unfold out, call_out, heap_do in *. cbn [j_world j_locals j_stack] in *. destruct null.
    - eapply co_statement with (r' := Fail NullPointerException sg).
      + intros Nf HN. rewrite exec_one. unfold exec_stmt, ev_args, bind, get, on_world. rewrite He by done. by destruct sg.
      + apply Hpush. intros h3. split; [done|]. cbn. eexists. split_and!; [done|by rewrite Hw|]. by same_locals.
    - eapply co_statement.
      + intros Nf HN. eapply exec_call; [exact Hs|by etrans|by apply He|]. rewrite Hw. intros v wd Ec. rewrite Ec in Hu.
        by apply push_result_spec in Hu as [? _].
      + apply Hpush. intros h3. split; [done|]. rewrite Hw. destruct (call ty m _ wd0) as [v wd|x wd|] eqn:Ec; [| |done].
        * apply push_result_spec in Hu as [Ht ->]. pose proof (call_later _ _ _ _ _ _ Ec) as Hlt. rewrite <- Hw in Hlt.
          pose proof (λ ss, match_after_call (vm_method_return_type m) v wd locals st' h3 p o c w ss N V s result N1 V1 M' N' V' a sg
            Hs G Hlt Ht Hl HM') as HM. destruct v as [v|]; cbn; eexists; (split; [done|]); apply HM.
        * cbn. eexists. split_and!; [done|done|]. cbn. by same_locals. }
  apply co_bind. destruct check.
  - eapply co_null_check_this; [by apply Hchk|exact Hsh|]. intros e' h' He. apply Hmain. intros Nf HN. rewrite He by done.
    subst null. destruct l as [|[| | | |[]|] l]; done.
  - apply co_ret, Hmain. intros Nf HN. subst null. apply Hsh; [done|apply agree_refl].
Qed.

(** ** The four instructions *)

Context (Hres : ∀ k idx m, call_target k idx = Some m → callee_ok m).

Lemma jinvoke_out k idx m l st' σ :
  call_target k idx = Some m → pop_arguments m (j_stack σ) = Some (l, st') →
  jinvoke k idx σ = call_out (call_type k) m
    (match k with CallSpecial => true | _ => false end && match l with VRef 0 :: _ => true | _ => false end) l st' σ.
Proof.
  intros Ek EP. unfold jinvoke. rewrite Ek, EP. unfold call_out.
  destruct k; try done. destruct l as [|[| | | |[]|] l]; done.
Qed.
Lemma call_target_static k idx m :
  call_target k idx = Some m → k = CallSpecial → vm_method_is_static m = false.
Proof.
  intros E ->. unfold call_target in E. destruct (vm_class_resolve_method_recursive _ _) as [m'|]; [|done]. cbn in E.
  case_decide; by simplify_eq.
Qed.

Definition resolve_call (k : jcall) (idx : Z) : option vm_callee :=
  match k with
  | CallVirtual => vm_class_resolve_method_recursive idx 0
  | CallSpecial | CallStatic => vm_class_resolve_method_recursive idx CAFEBABE_CLASS_ACC_STATIC
  | CallInterface => vm_class_resolve_interface_method_recursive idx
  end.
Lemma call_target_resolve k idx m : call_target k idx = Some m → resolve_call k idx = Some m.
Proof.
  change (call_target k idx) with (resolve_call k idx ≫= λ m, if decide (vm_method_is_static m = match k with CallStatic => true | _ => false end)
    then Some m else None).
  destruct (resolve_call k idx) as [m'|]; [|done]. cbn. case_decide; intros; by simplify_eq.
Qed.

(** A call, from the method and its result on. *)
Lemma co_invoke k idx m h0 p0 ss0 h p o c w ss M N V N1 V1 a s σ pend result :
  call_target k idx = Some m → covered (JInvoke k idx) (jinvoke k idx σ) →
  match_state (Loc h0 p0 o c w ss0 M N V a) s σ pend → (pend = true → forces (JInvoke k idx) σ = true) →
  result_slot (vm_method_return_type m) N V result N1 V1 →
  co (convert_invoke m (λ args, STMT_CALL (call_type k) m args result) match k with CallSpecial => true | _ => false end)
    (Loc h p o c w ss M N1 V1 a) (Done INext s)
    (λ _ L' r', l_pos L' = p ∧ result_match u (jinvoke k idx σ) L' r' false).
Proof using Hmem Hres.
  intros Ek Hc HM Hp Hs. pose proof (match_stack_ok _ _ _ _ HM) as HS. pose proof (match_locals _ _ _ _ HM) as Hl.
  destruct σ as [l st wd]. cbn [l_nodes l_vars l_stack j_stack j_world j_locals] in *.
  destruct (pop_arguments m st) as [[args st']|] eqn:EP; [|exfalso; revert Hc; unfold jinvoke; rewrite Ek; cbn [j_stack]; by rewrite EP].
  assert (Htop : args ≠ [] ∨ (Forall2 (settled N (length V) s) M st ∧ wd = i_world s)).
  { destruct pend; [left|right; by destruct (match_settled _ _ _ _ _ _ _ _ _ _ _ _ _ HM eq_refl) as (_ & ? & ?)].
    specialize (Hp eq_refl). cbn in Hp. rewrite Ek in Hp. destruct (pop_arguments_spec _ _ _ _ EP) as (av & this & -> & _ & HT & _ & Ht).
    destruct (vm_method_is_static m); [|by destruct Ht as [r ->]]. subst this. intros E. cbn in E. subst av.
    destruct (callee_args m) as [|t ts]; [done|]. apply Forall2_length in HT. cbn in HT. rewrite length_app in HT. cbn in HT. lia. }
  rewrite (jinvoke_out _ _ _ args st' (JS l st wd) Ek EP) in *.
  eapply co_convert_invoke; [by eapply Hres|exact Hs|exact EP|exact HS|exact Htop|exact Hl| |done|].
  - destruct k; try done. intros _. by eapply call_target_static.
  - intros Hu. by rewrite Hu in Hc.
Qed.

Lemma sim_invoke_of c w k idx ty flags check p q :
  k ≠ CallInterface → ty = call_type k → check = (match k with CallSpecial => true | _ => false end) →
  (resolve_call k idx = vm_class_resolve_method_recursive idx flags) →
  bytecode_read_u16 (BytecodeBuffer code p) = Some (idx, BytecodeBuffer code q) →
  sim c w (convert_invoke_of code ty flags check) (JInvoke k idx) p q.
Proof using Hmem Hres.
  intros Hk -> -> Hrc Hr h o ss M N V a s σ pend HM Hp Hc. cbn [jexec] in *.
  destruct (call_target k idx) as [m|] eqn:Ek; [|exfalso; revert Hc; unfold jinvoke; by rewrite Ek].
  unfold convert_invoke_of, resolve_invoke_target. apply co_bind, co_bind. eapply co_read; [exact Hr|]. apply co_ret.
  rewrite <- Hrc, (call_target_resolve _ _ _ Ek). apply co_bind, co_invoke_stmt; [by eapply Hres|].
  intros result h' N1 V1 Hs. by eapply co_invoke.
Qed.
Lemma sim_invokevirtual c w idx p q :
  bytecode_read_u16 (BytecodeBuffer code p) = Some (idx, BytecodeBuffer code q) →
  sim c w (convert_invokevirtual code) (JInvoke CallVirtual idx) p q.
Proof using Hmem Hres. by apply sim_invoke_of. Qed.
Lemma sim_invokespecial c w idx p q :
  bytecode_read_u16 (BytecodeBuffer code p) = Some (idx, BytecodeBuffer code q) →
  sim c w (convert_invokespecial code) (JInvoke CallSpecial idx) p q.
Proof using Hmem Hres. by apply sim_invoke_of. Qed.
Lemma sim_invokestatic c w idx p q :
  bytecode_read_u16 (BytecodeBuffer code p) = Some (idx, BytecodeBuffer code q) →
  sim c w (convert_invokestatic code) (JInvoke CallStatic idx) p q.
Proof using Hmem Hres. by apply sim_invoke_of. Qed.
Lemma sim_invokeinterface c w idx cnt p q q2 q3 :
  bytecode_read_u16 (BytecodeBuffer code p) = Some (idx, BytecodeBuffer code q) →
  bytecode_read_u8 (BytecodeBuffer code q) = Some (cnt, BytecodeBuffer code q2) → cnt ≠ 0 →
  bytecode_read_u8 (BytecodeBuffer code q2) = Some (0, BytecodeBuffer code q3) →
  sim c w (convert_invokeinterface code) (JInvoke CallInterface idx) p q3.
Proof using Hmem Hres.
  intros Hr Hr2 Hcnt Hr3 h o ss M N V a s σ pend HM Hp Hc. cbn [jexec] in *.
  destruct (call_target CallInterface idx) as [m|] eqn:Ek; [|exfalso; revert Hc; unfold jinvoke; by rewrite Ek].
  unfold convert_invokeinterface, resolve_invokeinterface_target. apply co_bind, co_bind. eapply co_read; [exact Hr|]. apply co_ret.
  pose proof (call_target_resolve _ _ _ Ek) as Er. cbn in Er. rewrite Er. apply co_bind, co_invoke_stmt; [by eapply Hres|].
  intros result h' N1 V1 Hs. apply co_bind. eapply co_read; [exact Hr2|]. rewrite decide_False by done.
  apply co_bind. eapply co_read; [exact Hr3|]. rewrite decide_False by (intros Hn; by apply Hn). by eapply (co_invoke CallInterface).
Qed.
End calls.
