(* ===== verification/ToyMachine.v ===== *)
(** * A small machine

    Instances of the interfaces of the conversion, to evaluate its definitions on:
    floating-point numbers are integers, the heap is the list of the lengths of its arrays,
    and there is one method that can be called, the greater of two integers. *)

From S2P Require Import Prelude CMonad ConstantPool ClassFile ClassFileProps Opcodes Bytecode Types BasicBlock Tree ArgsMap Convert.
From S2P Require Import ConvertRun JavaMachine TreeSem ConvertSim ConvertCalls.
From stdpp Require Import gmap.
#[local] Open Scope Z_scope.

#[export] Instance toy_alloc : Allocator := λ _ _, true.
#[export] Instance toy_resolver : Resolver := {|
  resolver_class := empty_class;
  vm_class_resolve_class _ := None;
  vm_class_resolve_field_recursive _ := None;
  vm_class_resolve_method_recursive idx _ :=
    if decide (idx = 7) then Some (Callee 7 [J_INT; J_INT] J_INT true false 0 [0; 1]) else None;
  vm_class_resolve_interface_method_recursive _ := None;
  class_name _ := [];
  classloader_load _ _ := None;
  vm_object_alloc_string_from_utf8 _ _ := None;
  vm_class_ensure_object _ := 0;
  class_object _ := 0;
|}.
#[export] Instance toy_floats : Floats := {|
  f32 := Z; f64 := Z; f_of_bits z := z; d_of_bits l h := l + 2 ^ 32 * h;
  i2f z := z; i2d z := z; l2f z := z; l2d z := z; f2i z := z; f2l z := z; d2i z := z; d2l z := z; f2d z := z; d2f z := z;
  fadd := Z.add; fsub := Z.sub; fmul := Z.mul; fdiv := Z.quot; frem := Z.rem; fneg := Z.opp;
  fcompare a b := Some (Z.compare a b);
  dadd := Z.add; dsub := Z.sub; dmul := Z.mul; ddiv := Z.quot; drem := Z.rem; dneg := Z.opp;
  dcompare a b := Some (Z.compare a b);
|}.
#[export] Instance toy_floats_laws : FloatsLaws.
Proof. by split. Qed.

(** The array at the address [r] is the entry [r - 1] of the list. *)
Definition allocate (n : Z) : M (list Z) exc Z := λ w,
  if decide (n < 0) then Fail NegativeArraySizeException w else Done (Z.of_nat (length w) + 1) (w ++ [n]).
#[export] Instance toy_java_heap : JavaHeap := {|
  world := list Z;
  get_static _ := undef;
  put_static _ _ := undef;
  get_field _ _ _ := None;
  put_field _ _ _ w := w;
  array_length r w := w !! Z.to_nat (r - 1);
  array_get _ _ _ _ := Some (VInt 0);
  array_put _ _ _ _ w := w;
  array_store_ok _ _ _ := Some true;
  instance_of _ _ _ := Some false;
  new_object _ := undef;
  new_array _ n := allocate n;
  anew_array _ n := allocate n;
  multianew_array _ l := allocate (default 0 (head l));
  monitor_enter _ := ret tt;
  monitor_exit _ := ret tt;
  call _ _ l := match l with [VInt a; VInt b] => ret (Some (VInt (Z.max a b))) | _ => undef end;
|}.
Lemma allocate_later n r w w' : allocate n w = Done r w' → w `prefix_of` w'.
Proof. unfold allocate. case_decide; intros; simplify_eq. by eexists. Qed.
#[export] Instance toy_java_heap_laws : JavaHeapLaws.
Proof.
  apply (@Build_JavaHeapLaws toy_floats toy_java_heap (@prefix Z)); cbn.
  - typeclasses eauto.
  - intros r n w w' Hp E. by eapply prefix_lookup_Some.
  - done.
  - done.
  - done.
  - done.
  - done.
  - done.
  - intros _. exact allocate_later.
  - intros _. exact allocate_later.
  - intros _ l. exact (allocate_later _).
  - intros r w w' E. by injection E as ->.
  - intros r w w' E. by injection E as ->.
  - intros k m l v w w' E. repeat (case_match; try done). by injection E as _ ->.
Qed.

Lemma callees_ok k idx m : call_target k idx = Some m → callee_ok m.
Proof.
  intros E. assert (m = Callee 7 [J_INT; J_INT] J_INT true false 0 [0; 1]) as ->.
  { unfold call_target in E. destruct k; cbn in E; try (destruct (decide (idx = 7)); cbn in E); try discriminate E.
    by injection E as <-. }
  split; [discriminate|reflexivity|discriminate|split; [discriminate|reflexivity]].
Qed.

Lemma mem_ok : always_ok.
Proof. done. Qed.
