(* ===== verification/ConvertTable.v ===== *)
(** * The table of converters

    Every converter, reached through the table of the converters by its opcode, simulates
    the instruction that the opcode and its operands encode. *)

From S2P Require Import Prelude CMonad ConstantPool ClassFile Opcodes Bytecode Types BasicBlock Tree ArgsMap Convert.
From S2P Require Import ConvertRun JavaMachine TreeSem ConvertSim ConvertOps ConvertStack ConvertHeap ConvertObjects ConvertCalls.
From stdpp Require Import gmap.
#[local] Open Scope Z_scope.

Section table.
Context `{Allocator} `{Resolver} `{FloatsLaws} `{!JavaHeap} `{!JavaHeapLaws} (code : list Z).
Context (u : ir_unit) (b : nat).
Context (Hmem : always_ok).
Context (Hcode : Forall is_u8 code) (Hlen : Z.of_nat (length code) < 2 ^ 63).
Context (Hfind : ∀ off, is_Some (find_in (bbs (cfg u)) (bb_list (cfg u)) off)).
Context (Hres : ∀ k idx m, call_target k idx = Some m → callee_ok m).

#[local] Abbreviation sim := (sim u b).
#[local] Abbreviation co := (co u b).
#[local] Abbreviation BB := (BytecodeBuffer code).

(** ** Operands *)

Lemma read_1 p x : u1 code p = Some x → bytecode_read_u8 (BB p) = Some (x, BB (p + 1)) ∧ 0 <= x < 256.
Proof using Hcode Hlen.
  intros E. split; [by apply bytecode_read_u8_eq|]. destruct (rd_byte _ Hcode _ _ E) as [Hx _]. done.
Qed.
Lemma read_2 p x : u2 code p = Some x → bytecode_read_u16 (BB p) = Some (x, BB (p + 2)) ∧ 0 <= x < 65536.
Proof using Hcode Hlen.
  intros E. unfold u2 in E. destruct (rd code p) as [x0|] eqn:E0; [|done]. cbn in E.
  destruct (rd code (p + 1)) as [x1|] eqn:E1; [|done]. cbn in E. simplify_eq.
  destruct (rd_byte _ Hcode _ _ E0) as [H0' _], (rd_byte _ Hcode _ _ E1) as [H1' _].
  unfold bytecode_read_u16. rewrite (bytecode_read_u8_eq _ Hcode _ _ E0 Hlen). cbn [mbind option_bind].
  rewrite (bytecode_read_u8_eq _ Hcode _ _ E1 Hlen). cbn [mbind option_bind]. rewrite field16 by done.
  unfold is_u8 in *. split; [|lia]. do 2 f_equal; [lia|f_equal; lia].
Qed.
Lemma read_s1 p x : s1 code p = Some x → bytecode_read_s8 (BB p) = Some (x, BB (p + 1)) ∧ - 2 ^ 7 <= x < 2 ^ 7.
Proof using Hcode Hlen.
  intros E. unfold s1 in E. destruct (u1 code p) as [x0|] eqn:E0; [|done]. cbn in E. simplify_eq.
  unfold bytecode_read_s8. destruct (read_1 _ _ E0) as [-> _]. cbn. split; [done|]. by apply (signed_range 8).
Qed.
Lemma read_s2 p x : s2 code p = Some x → bytecode_read_s16 (BB p) = Some (x, BB (p + 2)) ∧ - 2 ^ 15 <= x < 2 ^ 15.
Proof using Hcode Hlen.
  intros E. unfold s2 in E. destruct (u2 code p) as [x0|] eqn:E0; [|done]. cbn in E. simplify_eq.
  unfold bytecode_read_s16. destruct (read_2 _ _ E0) as [-> _]. cbn. split; [done|]. by apply (signed_range 16).
Qed.
Lemma read_s4 p x : s4 code p = Some x → bytecode_read_s32 (BB p) = Some (x, BB (p + 4)).
Proof using Hcode Hlen.
  intros E. unfold s4, u2 in E.
  destruct (rd code p) as [x0|] eqn:E0; [|done]. cbn in E. destruct (rd code (p + 1)) as [x1|] eqn:E1; [|done]. cbn in E.
  destruct (rd code (p + 2)) as [x2|] eqn:E2; [|done]. cbn in E. replace (p + 2 + 1) with (p + 1 + 1 + 1) in E by lia.
  destruct (rd code (p + 1 + 1 + 1)) as [x3|] eqn:E3; [|done]. cbn in E. simplify_eq.
  replace (p + 2) with (p + 1 + 1) in E2 by lia.
  destruct (rd_byte _ Hcode _ _ E0) as [H0' _], (rd_byte _ Hcode _ _ E1) as [H1' _].
  destruct (rd_byte _ Hcode _ _ E2) as [H2' _], (rd_byte _ Hcode _ _ E3) as [H3' _].
  unfold bytecode_read_s32, bytecode_read_u32.
  rewrite (bytecode_read_u8_eq _ Hcode _ _ E0 Hlen). cbn [mbind option_bind].
  rewrite (bytecode_read_u8_eq _ Hcode _ _ E1 Hlen). cbn [mbind option_bind].
  rewrite (bytecode_read_u8_eq _ Hcode _ _ E2 Hlen). cbn [mbind option_bind].
  rewrite (bytecode_read_u8_eq _ Hcode _ _ E3 Hlen). cbn [mbind option_bind]. rewrite field32 by done.
  do 2 f_equal; [f_equal; lia|f_equal; lia].
Qed.

(** ** One opcode *)

(** The converter [cv] of the opcode [c] simulates what the operands encode. *)
Definition disp (c : Z) (w : bool) (cv : K unit) (ops : operands) : Prop :=
  ∀ p i p', ops p = Some (i, p') → sim c w cv i p p'.

Lemma disp_op0 c w cv i : (∀ p, sim c w cv i p p) → disp c w cv (op0 i).
Proof. intros Hs p i' p' E. unfold op0 in E. by simplify_eq. Qed.
Lemma disp_u1 c w cv f :
  (∀ p x, bytecode_read_u8 (BB p) = Some (x, BB (p + 1)) → 0 <= x < 256 → sim c w cv (f x) p (p + 1)) → disp c w cv (op_u1 code f).
Proof using Hcode Hlen.
  intros Hs p i' p' E. unfold op_u1 in E. destruct (u1 code p) as [x|] eqn:Ex; [|done]. cbn in E. simplify_eq.
  destruct (read_1 _ _ Ex). by apply Hs.
Qed.
Lemma disp_u2 c w cv f :
  (∀ p x, bytecode_read_u16 (BB p) = Some (x, BB (p + 2)) → sim c w cv (f x) p (p + 2)) → disp c w cv (op_u2 code f).
Proof using Hcode Hlen.
  intros Hs p i' p' E. unfold op_u2 in E. destruct (u2 code p) as [x|] eqn:Ex; [|done]. cbn in E. simplify_eq.
  destruct (read_2 _ _ Ex). by apply Hs.
Qed.
Lemma disp_s1 c w cv f :
  (∀ p x, bytecode_read_s8 (BB p) = Some (x, BB (p + 1)) → - 2 ^ 31 <= x < 2 ^ 31 → sim c w cv (f x) p (p + 1)) → disp c w cv (op_s1 code f).
Proof using Hcode Hlen.
  intros Hs p i' p' E. unfold op_s1 in E. destruct (s1 code p) as [x|] eqn:Ex; [|done]. cbn in E. simplify_eq.
  destruct (read_s1 _ _ Ex). apply Hs; [done|lia].
Qed.
Lemma disp_s2 c w cv f :
  (∀ p x, bytecode_read_s16 (BB p) = Some (x, BB (p + 2)) → - 2 ^ 31 <= x < 2 ^ 31 → sim c w cv (f x) p (p + 2)) → disp c w cv (op_s2 code f).
Proof using Hcode Hlen.
  intros Hs p i' p' E. unfold op_s2 in E. destruct (s2 code p) as [x|] eqn:Ex; [|done]. cbn in E. simplify_eq.
  destruct (read_s2 _ _ Ex). apply Hs; [done|lia].
Qed.
Lemma disp_s4 c w cv f :
  (∀ p x, bytecode_read_s32 (BB p) = Some (x, BB (p + 4)) → sim c w cv (f x) p (p + 4)) → disp c w cv (op_s4 code f).
Proof using Hcode Hlen.
  intros Hs p i' p' E. unfold op_s4 in E. destruct (s4 code p) as [x|] eqn:Ex; [|done]. cbn in E. simplify_eq.
  apply Hs. by apply read_s4.
Qed.

(** *** Families *)

Lemma sim_value c w t z i v p :
  allocates i = false → (∀ σ, forces i σ = false) → (∀ o σ, jexec o i σ = push σ (j_stack σ) v) →
  t = val_type v → (∀ N ρ wd, eval N ρ (EXPR_VALUE t (u64 z)) wd = Done v wd) → sim c w (__convert_const z t) i p p.
Proof using Hmem. intros Ha Hf Hj -> He. by apply (sim_const _ _ Hmem _ _ _ _ v). Qed.
Lemma sim_int c w z p : - 2 ^ 31 <= z < 2 ^ 31 → sim c w (__convert_const z J_INT) (JInt z) p p.
Proof using Hmem. intros Hz. apply (sim_value _ _ _ _ _ (VInt z)); try done. intros. cbn. by rewrite s32_u64. Qed.
Lemma sim_long c w z p : - 2 ^ 63 <= z < 2 ^ 63 → sim c w (__convert_const z J_LONG) (JLong z) p p.
Proof using Hmem. intros Hz. apply (sim_value _ _ _ _ _ (VLong z)); try done. intros. cbn. by rewrite s64_u64. Qed.
Lemma sim_null c w p : sim c w convert_aconst_null JNull p p.
Proof using Hmem. by apply (sim_value _ _ _ _ _ (VRef 0)). Qed.
Lemma sim_float c w z p : 0 <= z <= 2 → sim c w (__convert_fconst (DInt z) J_FLOAT) (JFloat z) p p.
Proof using Hmem H2. intros Hz. apply (sim_const _ _ Hmem _ _ _ _ (VFloat (i2f z))); try done. intros. cbn. by rewrite d2f_i2d. Qed.
Lemma sim_double c w z p : sim c w (__convert_fconst (DInt z) J_DOUBLE) (JDouble z) p p.
Proof using Hmem. by apply (sim_const _ _ Hmem _ _ _ _ (VDouble (i2d z))). Qed.

Lemma disp_load_n c w first t n :
  n = c - first → disp c w (let* n := opc_minus first in convert_load n t) (op0 (JLoad t n)).
Proof using Hmem. intros ->. apply disp_op0. intros p. apply sim_opc_minus, sim_load. done. Qed.
Lemma disp_store_n c w first t n :
  n = c - first → disp c w (let* n := opc_minus first in convert_store n t) (op0 (JStore t n)).
Proof using Hmem. intros ->. apply disp_op0. intros p. apply sim_opc_minus, sim_store. done. Qed.
Lemma disp_load c t : disp c false (let* idx := read_index code in convert_load idx t) (op_u1 code (JLoad t)).
Proof using Hmem Hcode Hlen. apply disp_u1. intros p x Hx _. eapply sim_read_index; [exact Hx|]. by apply sim_load. Qed.
Lemma disp_store c t : disp c false (let* idx := read_index code in convert_store idx t) (op_u1 code (JStore t)).
Proof using Hmem Hcode Hlen. apply disp_u1. intros p x Hx _. eapply sim_read_index; [exact Hx|]. by apply sim_store. Qed.
Lemma disp_load_wide c t : disp c true (let* idx := read_index code in convert_load idx t) (op_u2 code (JLoad t)).
Proof using Hmem Hcode Hlen. apply disp_u2. intros p x Hx. eapply sim_read_index; [exact Hx|]. by apply sim_load. Qed.
Lemma disp_store_wide c t : disp c true (let* idx := read_index code in convert_store idx t) (op_u2 code (JStore t)).
Proof using Hmem Hcode Hlen. apply disp_u2. intros p x Hx. eapply sim_read_index; [exact Hx|]. by apply sim_store. Qed.

Lemma disp_arith c w n a t op :
  t = (match n with NInt => J_INT | NLong => J_LONG | NFloat => J_FLOAT | NDouble => J_DOUBLE end) →
  op = match n, a with
      | (NInt | NLong), AAdd => OP_ADD | (NInt | NLong), ASub => OP_SUB
      | NInt, AMul => OP_MUL | NInt, ADiv => OP_DIV | NInt, ARem => OP_REM
      | NLong, AMul => OP_MUL_64 | NLong, ADiv => OP_DIV_64 | NLong, ARem => OP_REM_64
      | NFloat, AAdd => OP_FADD | NFloat, ASub => OP_FSUB | NFloat, AMul => OP_FMUL | NFloat, ADiv => OP_FDIV
      | NFloat, ARem => OP_FREM
      | NDouble, AAdd => OP_DADD | NDouble, ASub => OP_DSUB | NDouble, AMul => OP_DMUL | NDouble, ADiv => OP_DDIV
      | NDouble, ARem => OP_DREM
      end →
  disp c w (convert_binop t op) (op0 (JArith n a)).
Proof using Hmem.
  intros -> ->. apply disp_op0. intros p. apply sim_binop; [done|done|done|by destruct n|].
  intros o σ Hc. destruct (arith_pushes n a o σ Hc) as (x & y & S & v & E1 & E2 & Hv & Hw). exists x, y, S, v.
  split_and!; [done|done|done|]. by rewrite <- Hv.
Qed.
Lemma disp_binop c w t op i :
  allocates i = false → (∀ σ, forces i σ = false) → t ≠ J_REFERENCE →
  pushes2 i (λ x y v, val_type v = t ∧ ∀ wd, binop (val_type v) op x y wd = Done v wd) → disp c w (convert_binop t op) (op0 i).
Proof using Hmem.
  intros Ha Hf Ht Hp. apply disp_op0. intros p. apply sim_binop; [done..|].
  intros o σ Hc. destruct (Hp o σ Hc) as (x & y & S & v & E1 & E2 & Hv & Hw). exists x, y, S, v.
  split_and!; [done|done|done|]. by rewrite <- Hv.
Qed.
Lemma disp_neg c w n t op :
  t = (match n with NInt => J_INT | NLong => J_LONG | NFloat => J_FLOAT | NDouble => J_DOUBLE end) →
  op = (match n with NFloat => OP_FNEG | NDouble => OP_DNEG | _ => OP_NEG end) →
  disp c w (convert_unary_op t op) (op0 (JNeg n)).
Proof using Hmem. intros -> ->. apply disp_op0. intros p. apply sim_unary_op; [done|done|done|by destruct n|apply neg_pushes]. Qed.
Lemma disp_conv c w from to t :
  from ≠ to → t = (match to with NInt => J_INT | NLong => J_LONG | NFloat => J_FLOAT | NDouble => J_DOUBLE end) →
  disp c w (convert_conversion t) (op0 (JConv from to)).
Proof using Hmem. intros Hne ->. apply disp_op0. intros p. by eapply sim_conversion. Qed.

Lemma branch_16 c p x : bc_is_wide c = Some false → bytecode_read_s16 (BB p) = x → bytecode_read_branch_target c (BB p) = x.
Proof. intros E <-. unfold bytecode_read_branch_target. by rewrite E. Qed.
Lemma branch_32 c p x : bc_is_wide c = Some true → bytecode_read_s32 (BB p) = x → bytecode_read_branch_target c (BB p) = x.
Proof. intros E <-. unfold bytecode_read_branch_target. by rewrite E. Qed.
Lemma disp_if c w cn op (f : Z → jinsn) :
  bc_is_wide c = Some false → op = cond_op cn → f = JIf cn ∨ f = JIfNull cn → disp c w (convert_if code op) (op_s2 code f).
Proof using Hmem Hfind Hcode Hlen.
  intros Hc -> Hf. apply disp_s2. intros p x Hx _. apply (sim_if code u b Hmem Hfind c w cn x); [by apply branch_16|].
  destruct Hf; subst; auto.
Qed.
Lemma disp_if_cmp c w cn op t (f : Z → jinsn) :
  bc_is_wide c = Some false → op = cond_op cn → f = JIfIcmp cn ∨ f = JIfAcmp cn →
  disp c w (convert_if_cmp code t op) (op_s2 code f).
Proof using Hmem Hfind Hcode Hlen.
  intros Hc -> Hf. apply disp_s2. intros p x Hx _. apply (sim_if_cmp code u b Hmem Hfind c w cn x); [by apply branch_16|].
  destruct Hf; subst; auto.
Qed.
Lemma disp_goto c w : bc_is_wide c = Some false → disp c w (convert_goto code) (op_s2 code JGoto).
Proof using Hmem Hfind Hcode Hlen. intros Hc. apply disp_s2. intros p x Hx _. apply sim_goto; [done|done|]. by apply branch_16. Qed.
Lemma disp_goto_w c w : bc_is_wide c = Some true → disp c w (convert_goto code) (op_s4 code JGoto).
Proof using Hmem Hfind Hcode Hlen. intros Hc. apply disp_s4. intros p x Hx. apply sim_goto; [done|done|]. by apply branch_32. Qed.

Lemma disp_iinc c : disp c false (convert_iinc code) (op_iinc code).
Proof using Hmem Hcode Hlen.
  intros p i p' E. unfold op_iinc in E. destruct (u1 code p) as [x|] eqn:Ex; [|done]. cbn in E.
  destruct (s1 code (p + 1)) as [k|] eqn:Ek; [|done]. cbn in E. simplify_eq.
  destruct (read_1 _ _ Ex), (read_s1 _ _ Ek). replace (p + 2) with (p + 1 + 1) by lia. eapply sim_iinc; [done|done|done|lia].
Qed.
Lemma disp_iinc_wide c : disp c true (convert_iinc code) (λ p, i ← u2 code p; k ← s2 code (p + 2); Some (JIinc i k, p + 4)).
Proof using Hmem Hcode Hlen.
  intros p i p' E. destruct (u2 code p) as [x|] eqn:Ex; [|done]. cbn in E.
  destruct (s2 code (p + 2)) as [k|] eqn:Ek; [|done]. cbn in E. simplify_eq.
  destruct (read_2 _ _ Ex), (read_s2 _ _ Ek). replace (p + 4) with (p + 2 + 2) by lia. eapply sim_iinc; [done|done|done|lia].
Qed.
Lemma disp_interface c w : disp c w (convert_invokeinterface code) (op_interface code).
Proof using Hmem Hcode Hlen Hres.
  intros p i p' E. unfold op_interface in E. destruct (u2 code p) as [x|] eqn:Ex; [|done]. cbn in E.
  destruct (u1 code (p + 2)) as [k|] eqn:Ek; [|done]. cbn in E. destruct (u1 code (p + 3)) as [z|] eqn:Ez; [|done]. cbn in E.
  case_decide as Hkz; [|done]. destruct Hkz as [Hk ->]. simplify_eq. replace (p + 3) with (p + 2 + 1) in Ez by lia.
  destruct (read_2 _ _ Ex), (read_1 _ _ Ek), (read_1 _ _ Ez). replace (p + 4) with (p + 2 + 1 + 1) by lia.
  by eapply sim_invokeinterface.
Qed.
Lemma disp_multi c w : disp c w (convert_multianewarray code) (op_multi code).
Proof using Hmem Hcode Hlen.
  intros p i p' E. unfold op_multi in E. destruct (u2 code p) as [x|] eqn:Ex; [|done]. cbn in E.
  destruct (u1 code (p + 2)) as [k|] eqn:Ek; [|done]. cbn in E. simplify_eq.
  destruct (read_2 _ _ Ex), (read_1 _ _ Ek). replace (p + 3) with (p + 2 + 1) by lia. by eapply sim_multianewarray.
Qed.

(** ** The table *)

Fixpoint table_ok (w : bool) (c : Z) (cs : list (option (K unit))) (os : list (option operands)) : Prop :=
  match cs, os with
  | cv :: cs', ops :: os' =>
    match ops with None => True | Some ops => ∃ f, cv = Some f ∧ disp c w f ops end ∧ table_ok w (c + 1) cs' os'
  | [], [] => True
  | _, _ => False
  end.
Lemma table_ok_lookup w c cs os k ops :
  table_ok w c cs os → os !! k = Some (Some ops) → ∃ f, cs !! k = Some (Some f) ∧ disp (c + Z.of_nat k) w f ops.
Proof.
  revert c cs os. induction k as [|k IH]; intros c [|cv cs] [|o os] Ht E; try done; cbn in *.
  - simplify_eq. destruct Ht as [(f & -> & Hf) _]. exists f. by rewrite Z.add_0_r.
  - destruct Ht as [_ Ht]. destruct (IH _ _ _ Ht E) as (f & Ef & Hf). exists f. split; [done|].
    replace (c + Z.of_nat (S k)) with (c + 1 + Z.of_nat k) by lia. done.
Qed.

Ltac sim_entry :=
  first
    [ apply disp_load_n; reflexivity | apply disp_store_n; reflexivity | apply disp_load | apply disp_store
    | apply disp_arith; reflexivity | apply disp_neg; reflexivity
    | apply (disp_binop _ _ _ _ (JShift _ _)); [reflexivity|reflexivity|discriminate|apply shift_pushes]
    | apply (disp_binop _ _ _ _ (JLogic _ _)); [reflexivity|reflexivity|discriminate|apply logic_pushes]
    | apply (disp_binop _ _ _ _ JLcmp); [reflexivity|reflexivity|discriminate|apply lcmp_pushes]
    | apply (disp_binop _ _ _ _ (JFcmp _ (-1))); [reflexivity|reflexivity|discriminate|apply (fcmp_pushes _ (-1)); auto]
    | apply (disp_binop _ _ _ _ (JFcmp _ 1)); [reflexivity|reflexivity|discriminate|apply (fcmp_pushes _ 1); auto]
    | apply disp_conv; [discriminate|reflexivity]
    | eapply disp_if; [reflexivity| |(left; reflexivity) || (right; reflexivity)]; reflexivity
    | eapply disp_if_cmp; [reflexivity| |(left; reflexivity) || (right; reflexivity)]; reflexivity
    | apply disp_goto; reflexivity | apply disp_goto_w; reflexivity
    | apply disp_iinc | apply disp_interface | apply disp_multi
    | apply disp_op0; intros p;
      first [ apply sim_nop | apply sim_null | apply sim_opc_minus, sim_int; lia | apply sim_opc_minus, sim_long; lia
            | apply sim_opc_minus, sim_float; lia | apply sim_opc_minus, sim_double
            | apply sim_array_load; [assumption|discriminate] | apply sim_array_store; assumption | apply sim_pop; assumption
            | apply sim_pop2; assumption | apply sim_dup; assumption | apply sim_dup_x1; assumption | apply sim_dup_x2; assumption
            | apply sim_dup2; assumption | apply sim_dup2_x1; assumption | apply sim_dup2_x2; assumption | apply sim_swap; assumption
            | apply sim_truncation; [assumption|auto] | apply sim_xreturn; assumption | apply sim_return; assumption
            | apply sim_arraylength; assumption | apply sim_athrow; assumption
            | apply sim_monitorenter; assumption | apply sim_monitorexit; assumption ]
    | apply disp_s1; intros p x Hx Hr; eapply sim_read; [exact Hx|]; by apply sim_int
    | apply disp_s2; intros p x Hx Hr; eapply sim_read; [exact Hx|]; by apply sim_int
    | apply disp_u1; intros p x Hx Hr; first [eapply sim_read; [exact Hx|]; by apply sim_ldc | by apply sim_newarray]
    | apply disp_u2; intros p x Hx;
      first [ eapply sim_read; [exact Hx|]; by apply sim_ldc | by apply sim_getstatic | by apply sim_putstatic
            | by apply sim_getfield | by apply sim_putfield | by apply sim_invokevirtual | by apply sim_invokespecial
            | by apply sim_invokestatic | by apply sim_new | by apply sim_anewarray | by apply sim_checkcast | by apply sim_instanceof ] ].

Lemma table_sim W : disp 196 false W (op_wide code) → table_ok false 0 (converters code W) (insn_table code).
Proof using All.
  intros HW. unfold converters, insn_table. cbn [table_ok].
  repeat (split; [lazymatch goal with |- True => exact I | |- _ => eexists; split; [reflexivity|] end|]); [..|exact I].
  all: cbv [Z.add Pos.add Pos.succ].
  all: try sim_entry. exact HW.
Qed.

(** ** One instruction *)

Definition wide_of (n : nat) : K unit :=
  do update_ctx (set_wide true) ;;
  λ u, match convert_instruction code n u with
       | Done _ u' => Done tt (set_ctx (set_wide false (ctx u')) u')
       | Fail e u' => Fail e (set_ctx (set_wide false (ctx u')) u')
       | Undef => Undef
       end.
Lemma convert_instruction_S n :
  convert_instruction code (S n) =
    let* opc := read code bytecode_read_u8 in
    do update_ctx (set_opc opc) ;;
    if decide (opc >= 202) then einval else
    match mjoin (converters code (wide_of n) !! Z.to_nat opc) with
    | None => einval
    | Some convert =>
      do (if decide (OPC_IALOAD <= opc <= OPC_SALOAD ∨ OPC_IASTORE <= opc <= OPC_SASTORE) then modify set_array_opc else ret tt) ;;
      convert
    end.
Proof. done. Qed.

(** The state the virtual machine is in when the conversion is at [L], and where it goes. *)
Definition steps (cv : K unit) (L : loc) (s : istate) (i : jinsn) (σ : jstate) (p' : Z) : Prop :=
  co cv L (Done INext s) (λ _ L' r', l_pos L' = p' ∧ result_match u (jexec (l_off L) i σ) L' r' (allocates i)).

Lemma co_dispatch n opc f i p p' h o c w ss M N V a s σ pend :
  rd code p = Some opc → converters code (wide_of n) !! Z.to_nat opc = Some (Some f) →
  sim opc w f i (p + 1) p' →
  match_state (Loc h p o c w ss M N V a) s σ pend → (pend = true → forces i σ = true) → covered i (jexec o i σ) →
  steps (convert_instruction code (S n)) (Loc h p o c w ss M N V a) s i σ p'.
Proof using Hcode Hlen.
  intros Er Hlt Hs HM Hp Hc. rewrite convert_instruction_S. destruct (read_1 _ _ Er) as [Hr Hopc]. apply co_bind.
  eapply co_read; [exact Hr|]. apply co_bind, co_runs. eapply (runs_update_ctx _ _ _ _ _ _ o o c opc w w); [done|].
  split; [by apply frame_same|].
  rewrite decide_False.
  2: { apply lookup_lt_Some in Hlt. change (length (converters code (wide_of n))) with 202%nat in Hlt. lia. }
  match goal with |- context [mjoin ?x] => replace (mjoin x) with (Some f) by (symmetry; exact (f_equal mjoin Hlt)) end.
  apply co_bind.
  assert (Hgo : ∀ a', co f (Loc h (p + 1) o opc w ss M N V a') (Done INext s)
    (λ _ L' r', l_pos L' = p' ∧ result_match u (jexec o i σ) L' r' (allocates i))).
  { intros a'. eapply Hs; [|exact Hp|exact Hc]. destruct HM as [Hl HM]. by split. }
  case_decide; [|apply co_ret, Hgo]. apply co_runs. eexists tt, (Loc h (p + 1) o opc w ss M N V true).
  split; [done|]. split; [by apply frame_same|]. apply Hgo.
Qed.

Lemma co_wide n h p o c ss M N V a s i σ p' :
  steps (convert_instruction code n) (Loc h p o c true ss M N V a) s i σ p' →
  steps (wide_of n) (Loc h p o c false ss M N V a) s i σ p'.
Proof.
  intros (x & L1 & E & new & r' & (F1 & F2 & F3 & F4 & F5) & X & Hpos & HR).
  set (L2 := Loc (l_heap L1) (l_pos L1) (l_off L1) (l_opc L1) false (l_stmts L1) (l_stack L1) (l_nodes L1) (l_vars L1) (l_arr L1)).
  exists tt, L2. split.
  - unfold wide_of, bind, update_ctx, modify.
    change (set_ctx (set_wide true (ctx (mk u b (Loc h p o c false ss M N V a)))) (mk u b (Loc h p o c false ss M N V a)))
      with (mk u b (Loc h p o c true ss M N V a)). rewrite E. done.
  - exists new, r'. split; [by split_and!|]. split; [exact X|]. split; [done|].
    destruct (jexec _ i σ) as [[|t|v] σ'|x' σ'|]; cbn in *; [| |exact HR..].
    + destruct HR as (s' & -> & [Hl HM]). exists s'. split; [done|]. by split.
    + destruct HR as (s' & bb & -> & Hb & [Hl HM]). exists s', bb. split_and!; [done|done|]. by split.
Qed.

(** The forms of [wide]. *)
Lemma wide_ops p i p' :
  op_wide code p = Some (i, p') →
  ∃ opc f, rd code p = Some opc ∧ (∀ W, converters code W !! Z.to_nat opc = Some (Some f)) ∧ sim opc true f i (p + 1) p'.
Proof using All.
  intros E. unfold op_wide in E. destruct (u1 code p) as [opc|] eqn:Eo; [|done]. unfold u1 in Eo. cbn [mbind option_bind] in E.
  assert (Hiinc : ∀ i p', (i ← u2 code (p + 1); c ← s2 code (p + 3); Some (JIinc i c, p + 5)) = Some (i, p') →
    ∀ c, sim c true (convert_iinc code) i (p + 1) p').
  { intros i0 p0 E0 c. apply (disp_iinc_wide c (p + 1)). by replace (p + 1 + 2) with (p + 3) by lia; replace (p + 1 + 4) with (p + 5) by lia. }
  destruct opc as [|q|q]; [done| |done]. repeat match goal with q : positive |- _ => destruct q as [q|q|]; try done end;
    (eexists _, _; split; [done|]; split; [done|]);
    first [exact (Hiinc _ _ E _) | by eapply disp_load_wide | by eapply disp_store_wide].
Qed.

Lemma disp_wide n : disp 196 false (wide_of (S n)) (op_wide code).
Proof using All.
  intros p i p' E h o ss M N V a s σ pend HM Hp Hc. destruct (wide_ops _ _ _ E) as (opc & f & Er & Hf & Hs).
  apply co_wide. eapply co_dispatch; [exact Er|apply Hf|exact Hs| |exact Hp|exact Hc]. destruct HM as [Hl HM]. by split.
Qed.

(** The conversion of the instruction at [p]. *)
Lemma co_instruction n i p p' h o c ss M N V a s σ pend :
  jdecode code p = Some (i, p') →
  match_state (Loc h p o c false ss M N V a) s σ pend → (pend = true → forces i σ = true) → covered i (jexec o i σ) →
  steps (convert_instruction code (S (S n))) (Loc h p o c false ss M N V a) s i σ p'.
Proof using All.
  intros E HM Hp Hc. unfold jdecode in E. destruct (rd code p) as [opc|] eqn:Er; [|done]. cbn [mbind option_bind] in E.
  destruct (insn_table code !! Z.to_nat opc) as [[ops|]|] eqn:Et; [|done..]. cbn in E.
  destruct (read_1 _ _ Er) as [_ Hopc].
  destruct (table_ok_lookup _ _ _ _ _ _ (table_sim (wide_of (S n)) (disp_wide n)) Et) as (f & Ef & Hf).
  eapply co_dispatch; [exact Er|exact Ef| |done..]. apply Hf in E. by rewrite Z2Nat.id in E by lia.
Qed.
End table.
