(* ===== verification/ConvertGrow.v ===== *)
(** * The conversion only adds

    Whatever a converter does, and whether or not what it finds is well typed: when it ends
    normally, the statements that the blocks had are still there, in front of the new ones,
    and the shared nodes still stand for the same variables. *)

From S2P Require Import Prelude CMonad ConstantPool ClassFile Opcodes Bytecode Types BasicBlock Tree ArgsMap Convert.
From S2P Require Import ConvertRun JavaMachine TreeSem ConvertSim.
From stdpp Require Import gmap.
#[local] Open Scope Z_scope.

Definition unit_ext (u u' : ir_unit) : Prop :=
  node_ext (nodes u) (nodes u') ∧ ∀ b, stmt_list (ir_of u b) `prefix_of` stmt_list (ir_of u' b).

#[export] Instance unit_ext_preorder : PreOrder unit_ext.
Proof.
  split; [intros u; split; reflexivity|]. intros u1 u2 u3 [N1 S1] [N2 S2]. split; [etrans; [exact N1|exact N2]|]. intros b. etrans; [apply S1|apply S2].
Qed.

Definition grow {A} (m : K A) : Prop := ∀ u a u', m u = Done a u' → unit_ext u u'.

Create HintDb grow.

Section grow.
Context `{Allocator} `{Resolver} (code : list Z).

Lemma grow_ret {A} (a : A) : grow (ret a).
Proof. intros u x u' E. injection E as _ <-. reflexivity. Qed.
Lemma grow_undef {A} : grow (A := A) undef.
Proof. done. Qed.
Lemma grow_fail {A} e : grow (A := A) (fail e).
Proof. done. Qed.
Lemma grow_get {A} (f : ir_unit → A) : grow (get f).
Proof. intros u x u' E. injection E as _ <-. reflexivity. Qed.
Lemma grow_must {A} (o : option A) : grow (must o).
Proof. destruct o; [apply grow_ret|apply grow_undef]. Qed.
Lemma grow_bind {A B} (m : K A) (f : A → K B) : grow m → (∀ a, grow (f a)) → grow (bind m f).
Proof.
  intros Hm Hf u x u' E. unfold bind in E. destruct (m u) as [a u1| |] eqn:Em; [|done..]. etrans; [by eapply Hm|by eapply Hf].
Qed.
Lemma grow_on_cfg {A} (m : C A) : grow (on_cfg m).
Proof. intros u x u' E. unfold on_cfg in E. destruct (m (cfg u)); [|done..]. injection E as _ <-. split; reflexivity. Qed.
Lemma grow_read {A} (f : bytecode_buffer → option (A * bytecode_buffer)) : grow (read code f).
Proof. intros u x u' E. unfold read in E. destruct (f _) as [[y z]|]; [|done]. injection E as _ <-. split; reflexivity. Qed.
Lemma grow_update_ctx f : grow (update_ctx f).
Proof. intros u x u' E. injection E as _ <-. split; reflexivity. Qed.
Lemma grow_update_ir i f : (∀ x, stmt_list x `prefix_of` stmt_list (f x)) → grow (update_ir i f).
Proof.
  intros Hf u x u' E. injection E as _ <-. split; [reflexivity|]. intros b. unfold ir_of at 2. cbn.
  destruct (decide (b = i)) as [->|Hne]; [by rewrite lookup_insert_eq; apply Hf|by rewrite lookup_insert_ne].
Qed.
Lemma grow_modify (f : ir_unit → ir_unit) : (∀ u, nodes (f u) = nodes u ∧ irs (f u) = irs u) → grow (modify f).
Proof.
  intros Hf u x u' E. injection E as _ <-. destruct (Hf u) as [En Ei]. unfold unit_ext, ir_of. rewrite En, Ei. split; reflexivity.
Qed.
Lemma grow_new_node {A} (f : ir_unit → A) (g : ir_unit → list shared) :
  (∀ u, ∃ l, g u = nodes u ++ l) → grow (λ u, Done (f u) (set_nodes (g u) u)).
Proof. intros Hg u x u' E. injection E as _ <-. destruct (Hg u) as [l ->]. split; [apply node_ext_app|done]. Qed.
Lemma grow_get_var t : grow (get_var t).
Proof. intros u x u' E. injection E as _ <-. split; reflexivity. Qed.
End grow.
#[export] Hint Resolve grow_ret grow_undef grow_fail grow_get grow_must grow_on_cfg grow_read grow_update_ctx grow_get_var : grow.

Ltac head_of m := lazymatch m with ?f _ => head_of f | _ => m end.

(** A computation made of ones that only add. *)
Ltac grows :=
  repeat (intros;
    lazymatch goal with
    | |- grow (bind _ _) => apply grow_bind
    | |- grow (match ?x with _ => _ end) => destruct x
    | |- grow (update_ir _ _) => apply grow_update_ir; intros ?; cbn; try reflexivity; eexists; reflexivity
    | |- grow (modify _) => apply grow_modify; done
    | |- grow ?m => first [solve [auto with grow] | let h := head_of m in unfold h]
    end).

Section converters.
Context `{Allocator} `{Resolver} (code : list Z).
#[local] Abbreviation read := (read code).

Lemma grow_request n : grow (on_cfg (request n)).
Proof. apply grow_on_cfg. Qed.
Lemma grow_alloc_expression e : grow (alloc_expression e).
Proof. unfold alloc_expression. grows. Qed.
Lemma grow_alloc_statement : grow alloc_statement.
Proof. unfold alloc_statement. grows. Qed.
#[local] Hint Resolve grow_alloc_expression grow_alloc_statement : grow.
Lemma grow_temporary_expr t : grow (temporary_expr t).
Proof. unfold temporary_expr. grows. intros v. apply grow_new_node. intros u. by eexists. Qed.
Lemma grow_type_of e : grow (type_of e).
Proof. unfold type_of. grows. Qed.
Lemma grow_stack_pop : grow stack_pop.
Proof. unfold stack_pop. grows. Qed.
Lemma grow_stack_peek : grow stack_peek.
Proof. unfold stack_peek. grows. Qed.
Lemma grow_push_on b e : grow (push_on b e).
Proof. unfold push_on. grows. Qed.
#[local] Hint Resolve grow_temporary_expr grow_type_of grow_stack_pop grow_stack_peek grow_push_on : grow.
Lemma grow_stack_push e : grow (stack_push e).
Proof. unfold stack_push. grows. Qed.
Lemma grow_clear : grow clear_mimic_stack.
Proof. unfold clear_mimic_stack. grows. Qed.
#[local] Hint Resolve grow_stack_push grow_clear : grow.
(** A node gets the type its value has on the operand stack. *)
Lemma grow_convert_expression e : grow (convert_expression e).
Proof.
  intros u x u' E. unfold convert_expression, type_of, bind, get, must in E.
  destruct (vm_type_of (nodes u) e) as [t|] eqn:Et; [|done]. cbn in E.
  destruct e; try (by eapply grow_stack_push; exact E). unfold bind, modify in E.
  etrans; [|by eapply grow_stack_push; exact E]. split; [|reflexivity]. cbn in Et |- *.
  destruct (nodes u !! n) as [y|] eqn:Ey; [|done]. cbn in Et. simplify_eq. by eapply node_ext_alter.
Qed.
Lemma grow_add_stmt b s : grow (bb_add_stmt b s).
Proof. unfold bb_add_stmt. grows. Qed.
#[local] Hint Resolve grow_convert_expression grow_add_stmt : grow.
Lemma grow_do_statement b s o : grow (do_convert_statement b s o).
Proof. unfold do_convert_statement. grows. Qed.
#[local] Hint Resolve grow_do_statement : grow.
Lemma grow_statement s : grow (convert_statement s).
Proof. unfold convert_statement. grows. Qed.
Lemma grow_expr_get e : grow (expr_get e).
Proof. unfold expr_get. grows. Qed.
Lemma grow_null_check e : grow (null_check_expr e).
Proof. unfold null_check_expr. grows. Qed.
#[local] Hint Resolve grow_statement grow_expr_get grow_null_check : grow.
Lemma grow_dup_expr e : grow (dup_expr e).
Proof. unfold dup_expr. grows. Qed.
#[local] Hint Resolve grow_dup_expr : grow.
Lemma grow_get_pure e : grow (get_pure_expr e).
Proof. unfold get_pure_expr. grows. Qed.
Lemma grow_push_copy e : grow (push_copy e).
Proof. unfold push_copy. grows. Qed.
Lemma grow_push_expr e : grow (push_expr e).
Proof. unfold push_expr, enomem. grows. Qed.
Lemma grow_find_target t : grow (find_target t).
Proof. unfold find_target. grows. Qed.
Lemma grow_opc_minus n : grow (opc_minus n).
Proof. unfold opc_minus. grows. Qed.
#[local] Hint Resolve grow_get_pure grow_push_copy grow_push_expr grow_find_target grow_opc_minus : grow.

(** ** Loops *)

Lemma grow_native_loop n idx acc : grow (convert_native_loop n idx acc).
Proof. revert idx acc. induction n as [|n IH]; intros; cbn [convert_native_loop]; grows. all: apply IH. Qed.
Lemma grow_pop_args_loop n : grow (pop_args_loop n).
Proof.
  induction n as [n IH] using lt_wf_ind. destruct n as [|n]; cbn [pop_args_loop]; grows.
  all: apply IH; lia.
Qed.
Lemma grow_pure_args l : grow (pure_args l).
Proof.
  remember (length l) as n eqn:En. revert l En. induction n as [n IH] using lt_wf_ind. intros l ->.
  destruct l as [|o l]; cbn [pure_args]; grows. all: eapply IH; [|reflexivity]; cbn; lia.
Qed.
Lemma grow_verify types l idx n : grow (verify_loop types l idx n).
Proof. revert idx. induction types as [|t types IH]; intros; cbn [verify_loop]; grows. all: apply IH. Qed.
Lemma grow_insert_arg root e m i : grow (insert_arg root e m i).
Proof. unfold insert_arg. grows. Qed.
#[local] Hint Resolve grow_native_loop grow_pop_args_loop grow_pure_args grow_verify grow_insert_arg : grow.
Lemma grow_args_loop l i n m acc : grow (convert_args_loop l i n m acc).
Proof.
  remember (length l) as k eqn:Ek. revert l Ek i acc. induction k as [k IH] using lt_wf_ind. intros l -> i acc.
  destruct l as [|o l]; cbn [convert_args_loop]; grows. all: eapply IH; [|reflexivity]; cbn; lia.
Qed.
Lemma grow_null_check_this e : grow (null_check_this_arg e).
Proof. induction e; cbn [null_check_this_arg]; grows. all: assumption. Qed.
Lemma grow_add_successors f b n i : grow (add_switch_successors f b n i).
Proof. revert i. induction n as [|n IH]; intros; cbn [add_switch_successors]; grows. all: apply IH. Qed.
Lemma grow_lookup_targets f n i : grow (lookup_targets f n i).
Proof. revert i. induction n as [|n IH]; intros; cbn [lookup_targets]; grows. all: apply IH. Qed.
Lemma grow_lookup_pairs info n i : grow (lookup_pairs code info n i).
Proof. revert i. induction n as [|n IH]; intros; cbn [lookup_pairs]; grows. all: apply IH. Qed.
#[local] Hint Resolve grow_args_loop grow_null_check_this grow_add_successors grow_lookup_targets grow_lookup_pairs : grow.

(** ** The table *)

Lemma grow_converters W : grow W → Forall (λ o, match o with Some f => grow f | None => True end) (converters code W).
Proof. intros HW. unfold converters. repeat (constructor; [try exact I; try exact HW; solve [grows]|]). constructor. Qed.

Lemma grow_convert_instruction n : grow (convert_instruction code n).
Proof.
  induction n as [|n IH]; cbn [convert_instruction]; [done|].
  apply grow_bind; [auto with grow|]. intros opc. apply grow_bind; [auto with grow|]. intros _.
  set (W := bind _ _).
  assert (HW : grow W).
  { apply grow_bind; [auto with grow|]. intros _ u x u' E. destruct (convert_instruction code n u) as [y u1|y u1|] eqn:E1; [|done..].
    injection E as _ <-. exact (IH _ _ _ E1). }
  case_decide; [grows|]. pose proof (grow_converters W HW) as HF. rewrite Forall_lookup in HF.
  specialize (HF (Z.to_nat opc)). destruct (converters code W !! Z.to_nat opc) as [[f|]|]; cbn; [|grows..].
  apply grow_bind; [grows|]. intros _. by apply (HF (Some f)).
Qed.
Lemma grow_convert_insns n b : grow (convert_insns code n b).
Proof.
  induction n as [|n IH]; cbn [convert_insns]; [done|]. apply grow_bind; [unfold block_at; auto with grow|]. intros x.
  apply grow_bind; [auto with grow|]. intros c. case_decide; [|auto with grow]. apply grow_bind; [auto with grow|]. intros _.
  apply grow_bind; [apply grow_convert_instruction|]. intros _. exact IH.
Qed.
End converters.
