(* ===== verification/ConvertBlock.v ===== *)
(** * The conversion of a block

    [jrun] runs the instructions of a block on the virtual machine.  The conversion keeps
    the order of effects of the runs that are [in_order]: no allocation is left unused by
    the next instruction, and none of the instructions that the conversion delays throws.
    [jstrict] is the machine that is stuck on the others, and carries the proofs. *)

From S2P Require Import Prelude CMonad ConstantPool ClassFile Opcodes Bytecode Types BasicBlock Tree ArgsMap Convert.
From S2P Require Import ConvertRun JavaMachine TreeSem ConvertSim ConvertOps ConvertStack ConvertHeap ConvertObjects ConvertCalls ConvertTable ConvertGrow.
From stdpp Require Import gmap.
#[local] Open Scope Z_scope.

Section run.
Context `{Resolver} `{JavaHeap} (code : list Z) (bend : Z).

(** The block on the virtual machine, from the offset [p] on; [n] bounds the steps. *)
Fixpoint jrun (n : nat) (p : Z) (σ : jstate) : out :=
  match n with
  | O => Undef
  | S n' =>
    if decide (p < bend) then
      match jdecode code p with
      | None => Undef
      | Some (i, p') =>
        match jexec p i σ with
        | Done JNext σ' => jrun n' p' σ'
        | r => r
        end
      end
    else Done JNext σ
  end.

(** Whether the run has its effects in the order of the converted statements; [pend] is
    whether the instruction before has left an allocation outstanding. An outstanding
    allocation is used at once ([forces]) and none is left at the end; no instruction of
    [lazy], a division or remainder of integers, an arraylength or an allocation, throws;
    and a branch or return is the last instruction of the block. *)
Fixpoint in_order (n : nat) (p : Z) (pend : bool) (σ : jstate) : bool :=
  match n with
  | O => true
  | S n' =>
    if decide (p < bend) then
      match jdecode code p with
      | None => true
      | Some (i, p') =>
        (negb pend || forces i σ) &&
        match jexec p i σ with
        | Done JNext σ' => in_order n' p' (allocates i) σ'
        | Done _ _ => negb (bool_decide (p' < bend))
        | Fail _ _ => negb (lazy i)
        | Undef => true
        end
      end
    else negb pend
  end.

(** [pend] is whether the instruction before has left an allocation outstanding; [n] bounds
    the steps. *)
Fixpoint jstrict (n : nat) (p : Z) (pend : bool) (σ : jstate) : out :=
  match n with
  | O => Undef
  | S n' =>
    if decide (p < bend) then
      match jdecode code p with
      | None => Undef
      | Some (i, p') =>
        if pend && negb (forces i σ) then Undef else
        match jexec p i σ with
        | Done JNext σ' => jstrict n' p' (allocates i) σ'
        | Done c σ' => if decide (p' < bend) then Undef else Done c σ'
        | Fail x σ' => if lazy i then Undef else Fail x σ'
        | Undef => Undef
        end
      end
    else if pend then Undef else Done JNext σ
  end.

Lemma jstrict_run n p pend σ : in_order n p pend σ = true → jstrict n p pend σ = jrun n p σ.
Proof.
  revert p pend σ. induction n as [|n IH]; intros p pend σ; [done|]. cbn [in_order jstrict jrun]. case_decide; [|by destruct pend].
  destruct (jdecode code p) as [[i p']|]; [|done]. intros [Hp Hr]%andb_true_iff.
  replace (pend && negb (forces i σ)) with false by (by destruct pend, (forces i σ)).
  destruct (jexec p i σ) as [c σ'|x σ'|]; [|by destruct (lazy i)|done].
  destruct c; [by apply IH| |]; rewrite negb_true_iff, bool_decide_eq_false in Hr; by rewrite decide_False.
Qed.
End run.

Section positions.
Context (code : list Z).

Ltac forward :=
  intros ? ? ? Hf; unfold op0, op_u1, op_s1, op_u2, op_s2, op_s4, op_iinc, op_interface, op_multi in Hf;
  repeat match goal with H : (?x ≫= _) = Some _ |- _ => destruct x; cbn in H; simplify_eq end;
  try case_decide; simplify_eq; lia.

Lemma op_u2_forward f p i p' : op_u2 code f p = Some (i, p') → p <= p'.
Proof. revert p i p'. forward. Qed.
Lemma op_wide_forward p i p' : op_wide code p = Some (i, p') → p <= p'.
Proof.
  unfold op_wide. destruct (u1 code p) as [opc|]; [|done]. cbn [mbind option_bind]. intros E.
  destruct opc as [|q|q]; [done| |done].
  repeat match goal with q : positive |- _ => destruct q as [q|q|]; try done end;
    first [apply op_u2_forward in E; lia | destruct (u2 code (p + 1)), (s2 code (p + 3)); cbn in E; simplify_eq; lia].
Qed.
Lemma operands_forward k ops p i p' : insn_table code !! k = Some (Some ops) → ops p = Some (i, p') → p <= p'.
Proof.
  intros E. assert (HF : Forall (λ o, match o with Some ops => ∀ p i p', ops p = Some (i, p') → p <= p' | None => True end) (insn_table code)).
  { unfold insn_table. repeat (constructor; [first [exact I|exact op_wide_forward|forward]|]). constructor. }
  rewrite Forall_lookup in HF. apply (HF _ _ E).
Qed.
Lemma jdecode_forward p i p' : jdecode code p = Some (i, p') → 0 <= p < p' ∧ p < Z.of_nat (length code).
Proof.
  unfold jdecode. intros E. destruct (rd code p) as [opc|] eqn:Er; [|done]. cbn [mbind option_bind] in E.
  destruct (insn_table code !! Z.to_nat opc) as [[ops|]|] eqn:Et; [|done..]. cbn in E.
  pose proof (operands_forward _ _ _ _ _ Et E). unfold rd in Er. case_decide; [|done]. apply lookup_lt_Some in Er. lia.
Qed.
End positions.

Section block.
Context `{Allocator} `{Resolver} `{FloatsLaws} `{!JavaHeap} `{!JavaHeapLaws} (code : list Z).
Context (u : ir_unit) (b : nat) (x : basic_block).
Context (Hmem : always_ok).
Context (Hcode : Forall is_u8 code) (Hlen : Z.of_nat (length code) < 2 ^ 63).
Context (Hfind : ∀ off, is_Some (find_in (bbs (cfg u)) (bb_list (cfg u)) off)).
Context (Hres : ∀ k idx m, call_target k idx = Some m → callee_ok m).
Context (Hblock : bbs (cfg u) !! b = Some x).

#[local] Abbreviation mk := (mk u b).
#[local] Abbreviation jstrict := (jstrict code (end_ x)).

Lemma convert_insns_S k h p o c w ss M N V a :
  convert_insns code (S k) b (mk (Loc h p o c w ss M N V a)) =
    if decide (p < end_ x)
    then bind (convert_instruction code (S (length code))) (λ _, convert_insns code k b) (mk (Loc h p p c w ss M N V a))
    else Done tt (mk (Loc h p o c w ss M N V a)).
Proof using Hblock.
  cbn [convert_insns]. unfold bind at 1, block_at, on_cfg, BasicBlock.deref.
  change (bbs (cfg (mk (Loc h p o c w ss M N V a)))) with (bbs (cfg u)). cbn [mbind option_bind]. rewrite Hblock.
  unfold bind at 1, get. change (ctx_pos (ctx _)) with p. by destruct (decide (p < end_ x)).
Qed.

(** What the statements [new] of the block do, after the conversion from [u0] to [u1]. *)
Definition block_ends (r : out) (res : CMonad.outcome ir_unit stop unit) (ss : list (Z * statement)) (s : istate) : Prop :=
  match r with
  | Undef => True
  | Fail e σ' =>
    ∀ u', res = Done tt u' → ∃ new, stmt_list (ir_of u' b) = ss ++ new ∧
      ∀ Nf, node_ext (nodes u') Nf → ∃ s', exec_stmts Nf new s = Fail e s' ∧ i_world s' = j_world σ' ∧ j_locals σ' ⊆ e_locals (i_env s')
  | Done _ _ =>
    ∃ L' new r', res = Done tt (mk L') ∧ l_stmts L' = ss ++ new ∧
      (∀ Nf, node_ext (l_nodes L') Nf → exec_stmts Nf new s = r') ∧ result_match u r L' r' false
  end.

Lemma stmts_mk L : stmt_list (ir_of (mk L) b) = l_stmts L.
Proof. by rewrite ir_of_mk. Qed.

(** The statements of an instruction come before those of the rest. *)
Lemma block_ends_app r res ss new s s1 N :
  (∀ Nf, node_ext N Nf → exec_stmts Nf new s = Done INext s1) →
  (∀ u', res = Done tt u' → node_ext N (nodes u')) →
  block_ends r res (ss ++ new) s1 → block_ends r res ss s.
Proof.
  intros X HN. destruct r as [c σ'|e σ'|]; cbn; [| |done].
  - intros (L' & new' & r' & -> & Hs & X' & HR). exists L', (new ++ new'), r'. split; [done|]. split; [by rewrite app_assoc|].
    split; [|done]. intros Nf HNf. rewrite exec_stmts_app, X by (etrans; [by apply (HN _ eq_refl)|exact HNf]). cbn. by apply X'.
  - intros Hu u' E. destruct (Hu u' E) as (new' & Hs & X'). exists (new ++ new'). split; [by rewrite app_assoc|].
    intros Nf HNf. rewrite exec_stmts_app, X by (etrans; [by apply (HN _ E)|exact HNf]). cbn. by apply X'.
Qed.

Lemma insns_sim n k h p o c ss M N V a s σ pend :
  match_state (Loc h p o c false ss M N V a) s σ pend → Z.of_nat (length code) - p < Z.of_nat k → (0 < k)%nat →
  block_ends (jstrict n p pend σ) (convert_insns code k b (mk (Loc h p o c false ss M N V a))) ss s.
Proof using All.
  revert k h p o c ss M N V a s σ pend. induction n as [|n IH]; intros k h p o c ss M N V a s σ pend HM Hk Hk0; [done|].
  destruct k as [|k]; [lia|]. rewrite convert_insns_S. cbn [ConvertBlock.jstrict]. case_decide as Hp.
  2: { destruct pend; [done|]. eexists _, [], (Done INext s). split_and!; [done|by rewrite app_nil_r|done|]. by exists s. }
  destruct (jdecode code p) as [[i p']|] eqn:Ed; [|done]. pose proof (jdecode_forward _ _ _ _ Ed) as Hfw.
  destruct (pend && negb (forces i σ)) eqn:Ep; [done|].
  assert (Hforce : pend = true → forces i σ = true) by (intros ->; cbn in Ep; by destruct (forces i σ)).
  assert (Hsteps : covered i (jexec p i σ) →
    steps u b (convert_instruction code (S (length code))) (Loc h p p c false ss M N V a) s i σ p').
  { intros Hc. replace (S (length code)) with (S (S (length code - 1))) by lia.
    eapply (co_instruction code u b Hmem Hcode Hlen Hfind Hres); [exact Ed| |exact Hforce|exact Hc]. destruct HM as [Hl HM]. by split. }
  destruct (jexec p i σ) as [ct σ'|e σ'|] eqn:Ej; [| |done].
  - destruct (Hsteps I) as ([] & L1 & E1 & new & r' & (F1 & F2 & F3 & F4 & F5) & X & Hpos & HR). cbn [l_off] in HR. rewrite Ej in HR.
    unfold bind. rewrite E1. destruct L1 as [h1 p1 o1 c1 w1 ss1 M1 N1 V1 a1]. cbn [l_stmts l_off l_wide l_nodes l_vars l_pos] in *. subst p1 w1 ss1.
    assert (Hend : match ct with JNext => False | _ => True end → 
      block_ends (if decide (p' < end_ x) then Undef else Done ct σ') (convert_insns code k b (mk (Loc h1 p' o1 c1 false (ss ++ new) M1 N1 V1 a1))) ss s).
    { intros Hct. case_decide as Hp'; [done|]. destruct k as [|k]; [lia|]. rewrite convert_insns_S, decide_False by lia.
      eexists _, new, r'. split_and!; [done|done|exact X|]. by destruct ct. }
    destruct ct as [|t|v]; [|by apply Hend..].
    destruct HR as (s1 & -> & HM1). eapply block_ends_app; [exact X| |].
    + intros u' Eu. apply grow_convert_insns in Eu as [HN _]. exact HN.
    + apply IH; [exact HM1|lia|lia].
  - destruct (lazy i) eqn:El; [done|].
    destruct (Hsteps El) as ([] & L1 & E1 & new & r' & (F1 & F2 & F3 & F4 & F5) & X & Hpos & HR). cbn [l_off] in HR. rewrite Ej in HR.
    destruct HR as (s1 & -> & Hw & Hl). intros u' Eu. unfold bind in Eu. rewrite E1 in Eu.
    apply grow_convert_insns in Eu as [HN HS]. specialize (HS b). rewrite stmts_mk, F1 in HS. destruct HS as [more Hmore].
    exists (new ++ more). split; [by rewrite app_assoc|]. intros Nf HNf. exists s1. split_and!; [|done|done].
    rewrite exec_stmts_app. change (exec_from Nf (exec_from Nf (Done INext s) new) more = Fail e s1).
    rewrite X by (etrans; [exact HN|exact HNf]). done.
Qed.
End block.

(** ** A block of a unit *)

Section unit.
Context `{Allocator} `{Resolver} `{FloatsLaws} `{!JavaHeap} `{!JavaHeapLaws} (code : list Z).

(** The mimic stack of the block and a state of the representation stand for a state of the
    virtual machine. *)
Definition unit_match (u : ir_unit) (b : nat) (s : istate) (σ : jstate) : Prop :=
  j_locals σ ⊆ e_locals (i_env s) ∧ j_world σ = i_world s ∧
  Forall2 (settled (nodes u) (length (var_infos u)) s) (mimic_stack (ir_of u b)) (j_stack σ).

(** How the statements end, in the unit [u] after the conversion. *)
Definition ends_like (u : ir_unit) (b : nat) (c : jctl) (σ : jstate) (r : CMonad.outcome istate exc ictl) : Prop :=
  match c with
  | JNext => ∃ s, r = Done INext s ∧ unit_match u b s σ
  | JJump t => ∃ s bb, r = Done (IJump bb) s ∧ find_in (bbs (cfg u)) (bb_list (cfg u)) (u64 t) = Some bb ∧ unit_match u b s σ
  | JRet v => ∃ s, r = Done (IRet v) s ∧ i_world s = j_world σ
  end.
Definition converted (r : out) (res : CMonad.outcome ir_unit stop unit) (b : nat) (ss : list (Z * statement)) (s : istate) : Prop :=
  match r with
  | Done c σ' =>
    ∃ u' new r', res = Done tt u' ∧ stmt_list (ir_of u' b) = ss ++ new ∧
      (∀ Nf, node_ext (nodes u') Nf → exec_stmts Nf new s = r') ∧ ends_like u' b c σ' r'
  | Fail e σ' =>
    ∀ u', res = Done tt u' → ∃ new, stmt_list (ir_of u' b) = ss ++ new ∧
      ∀ Nf, node_ext (nodes u') Nf → ∃ s', exec_stmts Nf new s = Fail e s' ∧ i_world s' = j_world σ' ∧ j_locals σ' ⊆ e_locals (i_env s')
  | Undef => True
  end.

Lemma block_converted u b r res ss s : block_ends u b r res ss s → converted r res b ss s.
Proof.
  destruct r as [c σ'|e σ'|]; [|done..]. intros (L' & new & r' & -> & Hs & X & HR).
  assert (HM : ∀ s' σ'', match_state L' s' σ'' false → unit_match (mk u b L') b s' σ'').
  { intros s' σ'' [Hl [HM Hw]]. split_and!; [done|done|]. by rewrite ir_of_mk. }
  exists (mk u b L'), new, r'. split_and!; [done|by rewrite stmts_mk|exact X|].
  destruct c as [|t|v]; cbn in *.
  - destruct HR as (s' & -> & HR). eauto.
  - destruct HR as (s' & bb & -> & Hb & HR). eauto 10.
  - done.
Qed.

(** The mimic stack at the start: a handler that no block leads to begins with the
    exception. *)
Definition entry_stack (x : basic_block) (y : bb_ir) : list expression :=
  if is_eh x && negb (bb_mimic_stack_is_resolved x) then EXPR_EXCEPTION_REF :: mimic_stack y else mimic_stack y.
Definition entry_size (x : basic_block) : Z :=
  if bb_mimic_stack_is_resolved x then entry_mimic_stack_size x else if is_eh x then 1 else 0.
Definition resolved_unit (u : ir_unit) (b : nat) (x : basic_block) : ir_unit :=
  set_cfg (set_bbs (<[b := set_entry_size (entry_size x) x]> (bbs (cfg u))) (cfg u)) u.

(** The unit, seen from its block. *)
Lemma unit_mk u b y p :
  irs u !! b = Some y →
  set_ctx (Ctx b p 0 0 false) u =
    mk u b (Loc (heap (cfg u)) p 0 0 false (stmt_list y) (mimic_stack y) (nodes u) (var_infos u) (array_opc u)).
Proof.
  intros Hy. unfold mk, ir_of, set_ctx. cbn. rewrite Hy. cbn. destruct y as [cv ss M l]. cbn. rewrite insert_id by done.
  f_equal. by destruct (cfg u).
Qed.
Lemma block_at_mk u b x L : bbs (cfg u) !! b = Some x → block_at (Some b) (mk u b L) = Done x (mk u b L).
Proof. intros Hx. unfold block_at, on_cfg, BasicBlock.deref. cbn. by rewrite Hx. Qed.
Definition with_size (u : ir_unit) (b : nat) (x : basic_block) (n : Z) : ir_unit :=
  set_cfg (set_bbs (<[b := set_entry_size n x]> (bbs (cfg u))) (cfg u)) u.
Lemma set_entry_mk u b x n L :
  bbs (cfg u) !! b = Some x → set_entry_mimic b n (mk u b L) = Done tt (mk (with_size u b x n) b L).
Proof. intros Hx. unfold set_entry_mimic, on_cfg, update. cbn. by rewrite Hx. Qed.
Lemma with_size_block u b x n : bbs (cfg u) !! b = Some x → bbs (cfg (with_size u b x n)) !! b = Some (set_entry_size n x).
Proof. intros Hx. cbn. apply list_lookup_insert_eq. by eapply lookup_lt_Some. Qed.
Lemma with_size_id u b x : bbs (cfg u) !! b = Some x → with_size u b x (entry_mimic_stack_size x) = u.
Proof.
  intros Hx. unfold with_size. assert (E : set_entry_size (entry_mimic_stack_size x) x = x) by by destruct x.
  rewrite E, list_insert_id by done. by destruct u as [[] ? ? ? ? ? ? ?].
Qed.

Lemma do_convert_start u b x y :
  always_ok → bbs (cfg u) !! b = Some x → irs u !! b = Some y →
  ∃ h, do_convert_bb_to_ir code b u =
    convert_insns code (S (length code)) b
      (mk (with_size u b x (entry_size x)) b
        (Loc h (start x) 0 0 false (stmt_list y) (entry_stack x y) (nodes u) (var_infos u) (array_opc u))).
Proof.
  intros Hmem Hx Hy. unfold do_convert_bb_to_ir, entry_stack, entry_size.
  rewrite (bind_run _ _ u x u) by (unfold block_at, on_cfg, BasicBlock.deref; cbn; rewrite Hx; by destruct u).
  unfold bind at 1, update_ctx, modify. rewrite (unit_mk u b y _ Hy).
  set (L := Loc _ _ _ _ _ _ _ _ _ _). destruct (is_eh x && negb (bb_mimic_stack_is_resolved x)) eqn:E.
  - assert (R : runs u b (let* e := exception_ref_expr in let* e := must e in push_on b e) L (λ _ L', ∃ h, L' =
      Loc h (start x) 0 0 false (stmt_list y) (EXPR_EXCEPTION_REF :: mimic_stack y) (nodes u) (var_infos u) (array_opc u))).
    { apply runs_bind, runs_alloc_expression; [done|]. intros h'. apply runs_bind. eapply runs_must; [done|].
      apply runs_push_on; [done|]. intros h2. by eexists. }
    destruct R as ([] & L' & ER & h & ->). exists h. apply andb_prop in E as [E1 E2]. rewrite E1.
    destruct (bb_mimic_stack_is_resolved x); [done|].
    assert (E3 : (let* e := exception_ref_expr in let* e := must e in do push_on b e ;; set_entry_mimic b 1) (mk u b L) =
      Done tt (mk (with_size u b x 1) b (Loc h (start x) 0 0 false (stmt_list y) (EXPR_EXCEPTION_REF :: mimic_stack y) (nodes u) (var_infos u) (array_opc u)))).
    { transitivity (bind (let* e := exception_ref_expr in let* e := must e in push_on b e) (λ _, set_entry_mimic b 1) (mk u b L)).
      - unfold bind. by destruct (exception_ref_expr _) as [[e|] ?| |].
      - rewrite (bind_run _ _ _ _ _ ER). by apply set_entry_mk. }
    rewrite (bind_run _ _ _ _ _ E3). rewrite (bind_run _ _ _ _ _ (block_at_mk _ _ _ _ (with_size_block _ _ _ _ Hx))). done.
  - exists (heap (cfg u)). unfold bind at 1. cbn [ret]. rewrite (bind_run _ _ _ _ _ (block_at_mk _ _ _ _ Hx)).
    destruct (bb_mimic_stack_is_resolved x) eqn:Er.
    + rewrite (with_size_id u b x Hx). by unfold bind.
    + rewrite andb_true_r in E. rewrite E. by rewrite (bind_run _ _ _ _ _ (set_entry_mk _ _ _ _ _ Hx)).
Qed.

(** ** The theorem *)

Context (u : ir_unit) (b : nat) (x : basic_block) (y : bb_ir).
Context (Hmem : always_ok) (Hcode : Forall is_u8 code) (Hlen : Z.of_nat (length code) < 2 ^ 63).
Context (Hlist : Forall (λ i, (i < length (bbs (cfg u)))%nat) (bb_list (cfg u))).
Context (Hres : ∀ k idx m, call_target k idx = Some m → callee_ok m).
Context (Hx : bbs (cfg u) !! b = Some x) (Hy : irs u !! b = Some y).

Lemma find_in_total bs l off : Forall (λ i, (i < length bs)%nat) l → is_Some (find_in bs l off).
Proof.
  intros HF. induction HF as [|i l Hi HF IH]; [done|]. cbn. apply lookup_lt_is_Some_2 in Hi as [z ->]. cbn.
  case_decide; [done|exact IH].
Qed.

Lemma do_convert_block_sim n s σ :
  0 <= start x →
  j_locals σ ⊆ e_locals (i_env s) → j_world σ = i_world s →
  Forall2 (settled (nodes u) (length (var_infos u)) s) (entry_stack x y) (j_stack σ) →
  converted (jstrict code (end_ x) n (start x) false σ) (do_convert_bb_to_ir code b u) b (stmt_list y) s.
Proof using All.
  intros H0' Hl Hw HM. destruct (do_convert_start u b x y Hmem Hx Hy) as [h ->].
  apply (block_converted (with_size u b x (entry_size x))).
  change (end_ x) with (end_ (set_entry_size (entry_size x) x)).
  apply insns_sim; try done; [|by apply with_size_block|lia|lia].
  intros off. apply find_in_total. cbn. eapply Forall_impl; [exact Hlist|]. intros i Hi. by rewrite length_insert.
Qed.
End unit.
