(* ===== verification/ConvertSwitch.v ===== *)
(** * jit/switch-bc.c: the switches

    A switch splits off one or two empty blocks at the end of its block: the block itself and
    the first of them compare the key with the bounds of the table and branch to the default
    target, the last one jumps through the table.  The blocks follow each other in the list,
    so that the statements are executed one after the other.  The new blocks are empty, and
    the search for the block of an offset does not find them. *)

From S2P Require Import Prelude CMonad ConstantPool ClassFile Opcodes Bytecode Types BasicBlock Tree ArgsMap Convert.
From S2P Require Import ConvertRun JavaMachine TreeSem ConvertSim ConvertOps ConvertStack ConvertBlock ToyMachine.
From stdpp Require Import gmap.
#[local] Open Scope Z_scope.

(** ** The graph *)

(** The lists of the unit and of the blocks have only blocks. *)
Definition closed (c : compilation_unit) : Prop :=
  Forall (λ i, (i < length (bbs c))%nat) (bb_list c) ∧
  ∀ i z, bbs c !! i = Some z → Forall (λ j, (j < length (bbs c))%nat) (successors z).

(** Blocks keep their ranges, and the same block is found at every offset. *)
Record kept (c c' : compilation_unit) : Prop := {
  kept_closed : closed c → closed c';
  kept_length : (length (bbs c) <= length (bbs c'))%nat;
  kept_range i z : bbs c !! i = Some z → ∃ z', bbs c' !! i = Some z' ∧ start z' = start z ∧ end_ z' = end_ z;
  kept_find off : closed c → find_in (bbs c') (bb_list c') off = find_in (bbs c) (bb_list c) off;
}.
#[export] Instance kept_preorder : PreOrder kept.
Proof.
  split.
  - intros c. split; eauto.
  - intros c1 c2 c3 [C1 L1 R1 F1] [C2 L2 R2 F2]. split.
    + auto.
    + lia.
    + intros i z E. destruct (R1 _ _ E) as (z' & E' & ? & ?). destruct (R2 _ _ E') as (z'' & E'' & ? & ?). exists z''. split_and!; [done|lia|lia].
    + intros off Hc. rewrite F2, F1; auto.
Qed.

Lemma find_in_ranges bs bs' l off :
  Forall (λ i, (i < length bs)%nat) l →
  (∀ i z, bs !! i = Some z → ∃ z', bs' !! i = Some z' ∧ start z' = start z ∧ end_ z' = end_ z) →
  find_in bs' l off = find_in bs l off.
Proof.
  intros Hl HR. induction Hl as [|i l Hi Hl IH]; [done|]. cbn. destruct (lookup_lt_is_Some_2 _ _ Hi) as [z Ez]. rewrite Ez.
  destruct (HR _ _ Ez) as (z' & -> & E1 & E2). cbn. by rewrite E1, E2, IH.
Qed.
Lemma find_in_list_add bs n o l off z :
  bs !! n = Some z → start z = end_ z → find_in bs (list_add n o l) off = find_in bs l off.
Proof.
  intros Ez He. induction l as [|i l IH]; [done|]. cbn. case_decide; cbn; destruct (bs !! i); [|done| |done]; cbn; case_decide; try done.
  rewrite Ez. cbn. by rewrite decide_False by lia.
Qed.

(** Fields other than the range change. *)
Lemma kept_alter c bs' h :
  length bs' = length (bbs c) →
  (∀ i z, bbs c !! i = Some z → ∃ z', bs' !! i = Some z' ∧ start z' = start z ∧ end_ z' = end_ z ∧
    (Forall (λ j, (j < length (bbs c))%nat) (successors z) → Forall (λ j, (j < length (bbs c))%nat) (successors z'))) →
  kept c (CU h bs' (bb_list c) (nr_bb c)).
Proof.
  intros Hl HR. assert (HR' : ∀ i z, bbs c !! i = Some z → ∃ z', bs' !! i = Some z' ∧ start z' = start z ∧ end_ z' = end_ z).
  { intros i z E. destruct (HR _ _ E) as (z' & ? & ? & ? & _). eauto. }
  split; cbn.
  - intros [C1 C2]. split; cbn; rewrite ?Hl; [done|]. intros i z' E. destruct (lookup_lt_is_Some_2 (bbs c) i) as [z Ez].
    { rewrite <- Hl. by eapply lookup_lt_Some. }
    destruct (HR _ _ Ez) as (z2 & E2 & _ & _ & Hs). simplify_eq. eauto.
  - lia.
  - done.
  - intros off [C1 _]. by apply find_in_ranges.
Qed.

Section graph.
Context `{Allocator} (Hmem : always_ok).

Lemma request_kept sz c : ∃ c', request sz c = Done true c' ∧ kept c c' ∧ bb_list c' = bb_list c.
Proof using Hmem.
  destruct (request_ok Hmem sz c) as [h ->]. eexists. split_and!; [done| |done]. apply (kept_alter c); cbn; eauto 6.
Qed.
Lemma branch_kept i c : (i < length (bbs c))%nat →
  ∃ c', update (Some i) (λ x, set_branch true (br_target_off x) x) c = Done tt c' ∧ kept c c' ∧ bb_list c' = bb_list c.
Proof.
  intros Hi. destruct (lookup_lt_is_Some_2 _ _ Hi) as [z Ez]. eexists. split_and!; [by apply update_ok|apply (kept_alter c)|done]; cbn.
  - by rewrite length_insert.
  - intros j y Ey. destruct (decide (i = j)) as [<-|Hne].
    + rewrite list_lookup_insert_eq by done. simplify_eq. eexists. split_and!; [done..|]. done.
    + rewrite list_lookup_insert_ne by done. eauto 6.
Qed.
Lemma successor_kept i j c : (i < length (bbs c))%nat → (j < length (bbs c))%nat →
  ∃ r c', bb_add_successor (Some i) (Some j) c = Done r c' ∧ kept c c' ∧ bb_list c' = bb_list c.
Proof using Hmem.
  intros Hi Hj. destruct (bb_add_successor_ok Hmem i j c Hi Hj) as [h ->]. eexists _, _. split_and!; [done|apply (kept_alter c)|done]; cbn.
  - apply link_length.
  - intros k z Ez. destruct (lookup_lt_is_Some_2 (link i j (bbs c)) k) as [z' Ez']; [rewrite link_length; by eapply lookup_lt_Some|].
    exists z'. destruct (link_block _ _ _ _ _ Ez') as (y & Ey & Hs & _ & ? & ? & _). simplify_eq. split_and!; try done.
    intros HF. rewrite Hs. case_decide; [|done]. apply Forall_app. split; [done|]. by constructor.
Qed.

(** A split at the end of a block. *)
Lemma split_kept o z c :
  closed c → bbs c !! o = Some z → start z <= end_ z →
  ∃ c' y, bb_split (Some o) (end_ z) c = Done (Some (length (bbs c))) c' ∧ kept c c' ∧
    bb_list c' = list_add (length (bbs c)) o (bb_list c) ∧
    bbs c' !! length (bbs c) = Some y ∧ start y = end_ z ∧ end_ y = end_ z ∧ length (bbs c') = S (length (bbs c)).
Proof using Hmem.
  intros [C1 C2] Ez Hz. destruct (bb_split_ok Hmem o (end_ z) z c Ez) as [h ->]; [lia|by eapply C2|].
  set (n := length (bbs c)). set (bs' := split_bbs o (end_ z) z (bbs c)).
  assert (Hn : length bs' = S n) by (unfold bs', split_bbs; rewrite length_app, length_imap, length_insert; cbn; fold n; lia).
  assert (Hy : bs' !! n = Some (upper_part (end_ z) z)).
  { unfold bs', split_bbs. rewrite lookup_app_r by (rewrite length_imap, length_insert; done). by rewrite length_imap, length_insert, Nat.sub_diag. }
  assert (HR : ∀ i y, bbs c !! i = Some y → ∃ y', bs' !! i = Some y' ∧ start y' = start y ∧ end_ y' = end_ y ∧
    (successors y' = successors y ∨ successors y' = [])).
  { intros i y Ey. unfold bs', split_bbs. pose proof (lookup_lt_Some _ _ _ Ey).
    rewrite lookup_app_l by (rewrite length_imap, length_insert; done). rewrite list_lookup_imap.
    destruct (decide (o = i)) as [<-|Hne].
    - rewrite list_lookup_insert_eq by done. simplify_eq. cbn. eexists. split; [done|]. case_decide; cbn; auto.
    - rewrite list_lookup_insert_ne, Ey by done. cbn. eexists. split; [done|]. case_decide; cbn; auto. }
  exists (CU h bs' (list_add n o (bb_list c)) (u64 (nr_bb c + 1))), (upper_part (end_ z) z). split_and!; try done.
  assert (Hadd : ∀ m l, (m = S n)%nat → Forall (λ i, (i < n)%nat) l → Forall (λ i, (i < m)%nat) (list_add n o l)).
  { intros m l -> Hl. induction Hl as [|i l Hi Hl IH]; [constructor|]. cbn. assert (Hl' : Forall (λ i, (i < S n)%nat) l) by (eapply Forall_impl; [done|]; cbn; lia).
    case_decide; repeat constructor; try done; lia. }
  split; cbn.
  - intros _. split; cbn; [by apply Hadd|]. rewrite Hn. intros i y' Ey'. destruct (decide (i = n)) as [->|Hne].
    + simplify_eq. cbn. eapply Forall_impl; [by eapply C2|]. cbn. fold n. lia.
    + destruct (lookup_lt_is_Some_2 (bbs c) i) as [y Ey]; [apply lookup_lt_Some in Ey'; fold n; lia|].
      destruct (HR _ _ Ey) as (y2 & E2 & _ & _ & Hs). simplify_eq. destruct Hs as [-> | ->]; [|constructor].
      eapply Forall_impl; [by eapply C2|]. cbn. fold n. lia.
  - fold n. lia.
  - intros i y Ey. destruct (HR _ _ Ey) as (y2 & ? & ? & ? & _). eauto.
  - intros off _. rewrite (find_in_list_add _ _ _ _ _ _ Hy) by done. apply find_in_ranges; [done|]. intros i y Ey. destruct (HR _ _ Ey) as (y2 & ? & ? & ? & _). eauto.
Qed.
End graph.

(** ** Computations on the graph, in the unit *)

Lemma set_cfg_id u : set_cfg (cfg u) u = u.
Proof. by destruct u. Qed.
Lemma set_cfg_twice c c' u : set_cfg c' (set_cfg c u) = set_cfg c' u.
Proof. done. Qed.
Lemma on_cfg_done {A} (m : C A) a c' u : m (cfg u) = Done a c' → on_cfg m u = Done a (set_cfg c' u).
Proof. intros E. unfold on_cfg. by rewrite E. Qed.
Lemma block_at_done i z u : bbs (cfg u) !! i = Some z → block_at (Some i) u = Done z u.
Proof. intros E. unfold block_at. erewrite on_cfg_done by by apply deref_ok. by rewrite set_cfg_id. Qed.
Lemma find_target_done t u r :
  find_in (bbs (cfg u)) (bb_list (cfg u)) (u64 (ctx_offset (ctx u) + t)) = Some r → find_target t u = Done r u.
Proof.
  intros E. unfold find_target, bind, get, on_cfg, find_bb, bind, get, liftC. cbn. rewrite E. cbn. by rewrite set_cfg_id.
Qed.
Lemma find_in_lt bs l off d : Forall (λ i, (i < length bs)%nat) l → find_in bs l off = Some (Some d) → (d < length bs)%nat.
Proof.
  intros Hl. induction Hl as [|i l Hi Hl IH]; [done|]. cbn. destruct (bs !! i); [|done]. cbn. case_decide; [|done]. by intros [= <-].
Qed.

(** One operation on the graph is run. *)
Ltac run_cfg u E := rewrite (bind_run _ _ _ _ _ (on_cfg_done _ _ _ u E)); rewrite ?set_cfg_twice.

(** The block [d] is at the offset [t] from the switch. *)
Definition leads (u : ir_unit) (t : Z) (d : nat) : Prop :=
  find_in (bbs (cfg u)) (bb_list (cfg u)) (u64 (ctx_offset (ctx u) + t)) = Some (Some d).
Lemma leads_kept u c' t d : closed (cfg u) → kept (cfg u) c' → leads u t d → leads (set_cfg c' u) t d.
Proof. intros Hc HK E. unfold leads. cbn. by rewrite (kept_find _ _ HK _ Hc). Qed.
Lemma leads_lt u t d : closed (cfg u) → leads u t d → (d < length (bbs (cfg u)))%nat.
Proof. intros [Hc _]. by apply find_in_lt. Qed.

Section targets.
Context `{Allocator} `{Resolver} (code : list Z) (Hmem : always_ok).

Lemma add_switch_successors_done target b n i u :
  closed (cfg u) → (b < length (bbs (cfg u)))%nat → (∀ j, i <= j < i + Z.of_nat n → ∃ t d, target j = Some t ∧ leads u t d) →
  ∃ c', add_switch_successors target b n i u = Done tt (set_cfg c' u) ∧ kept (cfg u) c' ∧ bb_list c' = bb_list (cfg u).
Proof using Hmem.
  revert i u. induction n as [|n IH]; intros i u Hc Hb HT; cbn [add_switch_successors].
  { exists (cfg u). rewrite set_cfg_id. done. }
  destruct (HT i) as (t & d & Et & Ed); [lia|]. rewrite (bind_run _ _ u t u) by by rewrite Et.
  rewrite (bind_run _ _ _ _ _ (find_target_done _ _ _ Ed)). destruct (lookup_lt_is_Some_2 _ _ Hb) as [z Ez].
  rewrite (bind_run _ _ _ _ _ (block_at_done b z u Ez)).
  assert (∃ c1, (if bb_successors_contains z d then ret tt else do on_cfg (bb_add_successor (Some b) (Some d)) ;; ret tt) u = Done tt (set_cfg c1 u) ∧
    kept (cfg u) c1 ∧ bb_list c1 = bb_list (cfg u)) as (c1 & E1 & K1 & L1).
  { destruct (bb_successors_contains z d); [exists (cfg u); by rewrite set_cfg_id|].
    destruct (successor_kept Hmem b d (cfg u) Hb (leads_lt _ _ _ Hc Ed)) as (r & c1 & E1 & K1 & L1). exists c1. split; [|done].
    by rewrite (bind_run _ _ _ _ _ (on_cfg_done _ _ _ _ E1)). }
  rewrite (bind_run _ _ _ _ _ E1). destruct (IH (i + 1) (set_cfg c1 u)) as (c2 & E2 & K2 & L2).
  - by apply K1.
  - cbn. pose proof (kept_length _ _ K1). lia.
  - intros j Hj. destruct (HT j) as (t' & d' & ? & ?); [lia|]. exists t', d'. split; [done|]. by apply leads_kept.
  - exists c2. rewrite E2. split_and!; [done|by etrans|cbn in L2; congruence].
Qed.

Lemma lookup_targets_done target n i u :
  (∀ j, i <= j < i + Z.of_nat n → ∃ t d, target j = Some t ∧ leads u t d) →
  ∃ l, lookup_targets target n i u = Done l u ∧
    ∀ k, i <= k < i + Z.of_nat n → ∃ t d, target k = Some t ∧ leads u t d ∧ l !! Z.to_nat (k - i) = Some (Some d).
Proof.
  revert i. induction n as [|n IH]; intros i HT; cbn [lookup_targets]; [exists []; split; [done|lia]|].
  destruct (HT i) as (t & d & Et & Ed); [lia|]. rewrite (bind_run _ _ u t u) by by rewrite Et.
  rewrite (bind_run _ _ _ _ _ (find_target_done _ _ _ Ed)). destruct (IH (i + 1)) as (l & E & Hl); [intros; apply HT; lia|].
  rewrite (bind_run _ _ _ _ _ E). exists (Some d :: l). split; [done|]. intros k Hk. destruct (decide (k = i)) as [->|Hne].
  - rewrite Z.sub_diag. eauto.
  - destruct (Hl k) as (t' & d' & ? & ? & El); [lia|]. exists t', d'. split_and!; [done..|].
    replace (Z.to_nat (k - i)) with (S (Z.to_nat (k - (i + 1)))) by lia. done.
Qed.
Lemma lookup_pairs_done info n i u :
  (∀ j, i <= j < i + Z.of_nat n → ∃ m t d, read_lookupswitch_match code info j = Some m ∧ read_lookupswitch_target code info j = Some t ∧ leads u t d) →
  ∃ l, lookup_pairs code info n i u = Done l u ∧ length l = n ∧
    ∀ k p, l !! k = Some p → ∃ t d, read_lookupswitch_match code info (i + Z.of_nat k) = Some (match_ p) ∧
      read_lookupswitch_target code info (i + Z.of_nat k) = Some t ∧ leads u t d ∧ bb_target p = Some d.
Proof.
  revert i. induction n as [|n IH]; intros i HT; cbn [lookup_pairs]; [by exists []|].
  destruct (HT i) as (m & t & d & Em & Et & Ed); [lia|]. rewrite (bind_run _ _ u m u) by by rewrite Em. rewrite (bind_run _ _ u t u) by by rewrite Et.
  rewrite (bind_run _ _ _ _ _ (find_target_done _ _ _ Ed)). destruct (IH (i + 1)) as (l & E & Hn & Hl); [intros; apply HT; lia|].
  rewrite (bind_run _ _ _ _ _ E). exists (LookupPair m (Some d) :: l). split; [done|]. split; [cbn; lia|].
  intros [|k] p Hp; cbn in Hp; simplify_eq; cbn [match_ bb_target].
  - rewrite Z.add_0_r. eauto 10.
  - replace (i + Z.of_nat (S k)) with (i + 1 + Z.of_nat k) by lia. eauto.
Qed.
End targets.

(** ** The statements *)

Lemma unit_is_mk u b y :
  irs u !! b = Some y → ctx_bb (ctx u) = b →
  u = mk u b (Loc (heap (cfg u)) (ctx_pos (ctx u)) (ctx_offset (ctx u)) (ctx_opc (ctx u)) (ctx_is_wide (ctx u))
         (stmt_list y) (mimic_stack y) (nodes u) (var_infos u) (array_opc u)).
Proof.
  intros Hy Hb. unfold mk, ir_of. cbn. rewrite Hy. cbn. destruct y, u as [[] ? ? ? ? ? ? []]. cbn in *. by rewrite insert_id, Hb.
Qed.

Section switch.
Context `{Allocator} `{Resolver} `{FloatsLaws} `{!JavaHeap} `{!JavaHeapLaws} (code : list Z).
Context (Hmem : always_ok).

Lemma branch_stmt_done t op target l r u b h p o c w ss M N V a :
  ∃ h', (let* r := value_expr t r in match r with None => ret None | Some r => if_stmt target t op l r end) (mk u b (Loc h p o c w ss M N V a)) =
    Done (Some (STMT_IF (EXPR_BINOP t op l (EXPR_VALUE t (u64 r))) target)) (mk u b (Loc h' p o c w ss M N V a)).
Proof using Hmem.
  assert (R : runs u b (let* r := value_expr t r in match r with None => ret None | Some r => if_stmt target t op l r end) (Loc h p o c w ss M N V a)
    (λ x L, x = Some (STMT_IF (EXPR_BINOP t op l (EXPR_VALUE t (u64 r))) target) ∧ ∃ h', L = Loc h' p o c w ss M N V a)).
  { apply runs_bind, runs_alloc_expression; [done|]. intros h1. apply runs_bind, runs_alloc_expression; [done|]. intros h2.
    apply runs_bind, runs_alloc_statement; [done|]. intros h3. apply runs_ret. eauto. }
  destruct R as (x & L & E & -> & h' & ->). eauto.
Qed.

(** The key is popped and made pure. *)
Lemma pure_key_done u b e v h p o c w ss M N V a s :
  settled N (length V) s e v →
  ∃ d h' ss' N' V' s' new,
    get_pure_expr e (mk u b (Loc h p o c w ss M N V a)) = Done d (mk u b (Loc h' p o c w ss' M N' V' a)) ∧ ss' = ss ++ new ∧
    (∀ Nf, node_ext N' Nf → exec_stmts Nf new s = Done INext s') ∧ grows N V s N' V' s' ∧ i_world s' = i_world s ∧
    expr_is_pure d = true ∧ settled N' (length V') s' d v.
Proof using All.
  intros He.
  destruct (co_get_pure_settled u b Hmem e v h p o c w ss M N V a s (λ d L' r', ∃ h' ss' N' V' s', L' = Loc h' p o c w ss' M N' V' a ∧ r' = Done INext s' ∧
    grows N V s N' V' s' ∧ i_world s' = i_world s ∧ expr_is_pure d = true ∧ settled N' (length V') s' d v) He) as (d & L' & E & new & r' & F & X & HQ).
  { intros d h' ss' N' V' s' ? ? ? ?. eauto 15. }
  destruct HQ as (h' & ss' & N' & V' & s' & -> & -> & G & Hw & Hp & Hs). destruct F as (Fs & _). cbn in Fs.
  exists d, h', ss', N', V', s', new. split_and!; try done.
Qed.

Lemma settled_int N n s z : settled N n s (EXPR_VALUE J_INT (u64 (s32 z))) (VInt (s32 z)).
Proof. apply settled_0; [done|done|]. intros N' ρ w. cbn. unfold ret. by rewrite s32_u64 by by apply (signed_range 32). Qed.


(** *** tableswitch *)

(** The offset of the target in the semantics of the virtual machine. *)
Definition table_target (info : tableswitch_info) (key : Z) : option Z :=
  if decide (s32 (ts_low info) <= key <= s32 (ts_high info)) then read_s32 code (ts_targets info + (key - s32 (ts_low info)) * 4)
  else Some (ts_default_target info).

(** The three statements, with the key in a pure expression. *)
Lemma table_stmts N n s o d key info b2 u (D : Z → nat → Prop) bd :
  settled N n s d (VInt key) → D (ts_default_target info) bd →
  (s32 (ts_low info) <= key <= s32 (ts_high info) →
     ∃ t bb, table_target info key = Some t ∧ D t bb ∧ u !! Z.to_nat (key - s32 (ts_low info)) = Some (Some bb)) →
  ∃ t bb, table_target info key = Some t ∧ D t bb ∧ ∀ Nf, node_ext N Nf →
    exec_stmts Nf ([(o, STMT_IF (EXPR_BINOP J_INT OP_LT d (EXPR_VALUE J_INT (u64 (s32 (ts_low info))))) (Some bd))] ++
                   [(o, STMT_IF (EXPR_BINOP J_INT OP_GT d (EXPR_VALUE J_INT (u64 (s32 (ts_high info))))) (Some bd))] ++
                   [(o, STMT_TABLESWITCH d (TableSwitch (ts_low info) (ts_high info) b2 u))]) s = Done (IJump (Some bb)) s.
Proof using All.
  intros Hd Hbd HT. assert (Hif : ∀ Nf op k, node_ext N Nf → ∀ c, condition op key (s32 k) = Some c →
    exec_stmts Nf [(o, STMT_IF (EXPR_BINOP J_INT op d (EXPR_VALUE J_INT (u64 (s32 k)))) (Some bd))] s = Done (if (c : bool) then IJump (Some bd) else INext) s).
  { intros Nf op k HN c Hc. apply (exec_if Nf o J_INT op d _ (Some bd) s (VInt key) (VInt (s32 k)) key (s32 k)); [by eapply settled_eval| |done..].
    eapply (settled_eval N n); [apply settled_int|done]. }
  destruct (decide (s32 (ts_low info) <= key <= s32 (ts_high info))) as [Hin|Hout].
  - destruct HT as (t & bb & Et & Eb & El'); [done|]. exists t, bb. split_and!; [done..|]. intros Nf HN. rewrite exec_stmts_app, (Hif _ OP_LT _ HN _ eq_refl).
    rewrite bool_decide_eq_false_2 by lia. cbn [exec_from]. rewrite exec_stmts_app, (Hif _ OP_GT _ HN _ eq_refl). rewrite bool_decide_eq_false_2 by lia.
    cbn. unfold bind, ev, bind, get, on_world. rewrite (settled_eval _ _ _ _ _ _ Hd HN). cbn. rewrite decide_True by lia. cbn. rewrite El'. cbn. by destruct s.
  - exists (ts_default_target info), bd. unfold table_target. rewrite decide_False by done. split_and!; [done..|]. intros Nf HN.
    rewrite exec_stmts_app, (Hif _ OP_LT _ HN _ eq_refl). case_bool_decide; [done|]. cbn [exec_from]. rewrite exec_stmts_app, (Hif _ OP_GT _ HN _ eq_refl).
    by rewrite bool_decide_eq_true_2 by lia.
Qed.

(** A statement appended to the block that is converted, and to new ones. *)
Lemma append_mk u b st off h p o c w ss M N V a :
  do_convert_statement b st off (mk u b (Loc h p o c w ss M N V a)) = Done tt (mk u b (Loc h p o c w (ss ++ [(off, st)]) M N V a)).
Proof.
  unfold do_convert_statement, bb_add_stmt, update_ir, modify. rewrite ir_of_mk. unfold set_stmts, mk, set_irs. cbn. by rewrite insert_insert_eq.
Qed.
Lemma append_new u b' st off : irs u !! b' = None →
  do_convert_statement b' st off u = Done tt (set_irs (<[b' := BI false [(off, st)] [] []]> (irs u)) u).
Proof. intros E. unfold do_convert_statement, bb_add_stmt, update_ir, modify, ir_of. by rewrite E. Qed.

Lemma statement_done u b h p o c w ss M N V a :
  ∃ h', alloc_statement (mk u b (Loc h p o c w ss M N V a)) = Done true (mk u b (Loc h' p o c w ss M N V a)).
Proof using Hmem.
  assert (R : runs u b alloc_statement (Loc h p o c w ss M N V a) (λ x L, x = true ∧ ∃ h', L = Loc h' p o c w ss M N V a)) by
    (apply runs_alloc_statement; eauto).
  destruct R as (x & L & E & -> & h' & ->). eauto.
Qed.
Lemma expression_done u b e h p o c w ss M N V a :
  ∃ h', alloc_expression e (mk u b (Loc h p o c w ss M N V a)) = Done (Some e) (mk u b (Loc h' p o c w ss M N V a)).
Proof using Hmem.
  assert (R : runs u b (alloc_expression e) (Loc h p o c w ss M N V a) (λ x L, x = Some e ∧ ∃ h', L = Loc h' p o c w ss M N V a)) by
    (apply runs_alloc_expression; eauto).
  destruct R as (x & L & E & -> & h' & ->). eauto.
Qed.
Lemma pop_done u b e h p o c w ss M N V a :
  stack_pop (mk u b (Loc h p o c w ss (e :: M) N V a)) = Done e (mk u b (Loc h p o c w ss M N V a)).
Proof.
  assert (R : runs u b stack_pop (Loc h p o c w ss (e :: M) N V a) (λ x L, x = e ∧ L = Loc h p o c w ss M N V a)) by by apply runs_pop.
  destruct R as (x & L & E & -> & ->). done.
Qed.
Lemma expr_get_done e u : expr_is_pure e = true → expr_get e u = Done e u.
Proof. intros E. unfold expr_get. by rewrite E. Qed.

(** The state of a unit in which a block is to be converted further. *)
Record switching (u : ir_unit) (b : nat) (x : basic_block) (y : bb_ir) : Prop := {
  sw_closed : closed (cfg u);
  sw_block : bbs (cfg u) !! b = Some x;
  sw_range : start x <= end_ x;
  sw_ir : irs u !! b = Some y;
  sw_ctx : ctx_bb (ctx u) = b;
  sw_new i : (length (bbs (cfg u)) <= i)%nat → irs u !! i = None;
}.

(** The blocks of a tableswitch. *)
Lemma table_blocks u b x d target n :
  closed (cfg u) → bbs (cfg u) !! b = Some x → start x <= end_ x → (d < length (bbs (cfg u)))%nat →
  (∀ j, 0 <= j < Z.of_nat n → ∃ t d, target j = Some t ∧ leads u t d) →
  let b1 := length (bbs (cfg u)) in
  ∃ c', kept (cfg u) c' ∧ bb_list c' = list_add (S b1) b1 (list_add b1 b (bb_list (cfg u))) ∧ ∀ (A : Type) (k : nat → nat → K A),
   (let* m := block_at (Some b) in
    let* b1 := on_cfg (bb_split (Some b) (end_ m)) in
    let* m := block_at (Some b) in
    let* b2 := on_cfg (bb_split b1 (end_ m)) in
    let* b1 := must b1 in
    let* b2 := must b2 in
    do set_has_branch (Some b) ;;
    do set_has_branch (Some b1) ;;
    do set_has_branch (Some b2) ;;
    do on_cfg (bb_add_successor (Some b) (Some d)) ;;
    do on_cfg (bb_add_successor (Some b) (Some b1)) ;;
    do on_cfg (bb_add_successor (Some b1) (Some d)) ;;
    do on_cfg (bb_add_successor (Some b1) (Some b2)) ;;
    do add_switch_successors target b2 n 0 ;;
    k b1 b2) u = k b1 (S b1) (set_cfg c' u).
Proof using Hmem.
  intros Hc Hx Hr Hd HT b1. pose proof (lookup_lt_Some _ _ _ Hx) as Hb. fold b1 in Hb, Hd.
  destruct (split_kept Hmem b x (cfg u) Hc Hx Hr) as (c1 & y1 & E1 & K1 & L1 & Ey1 & Hs1 & He1 & N1). fold b1 in E1, L1, Ey1, N1.
  destruct (kept_range _ _ K1 _ _ Hx) as (x1 & Ex1 & Hsx & Hex).
  destruct (split_kept Hmem b1 y1 c1 (kept_closed _ _ K1 Hc) Ey1) as (c2 & y2 & E2 & K2 & L2 & Ey2 & Hs2 & He2 & N2); [lia|].
  rewrite N1 in E2, L2, Ey2, N2. replace (end_ y1) with (end_ x1) in E2 by lia.
  destruct (branch_kept b c2) as (c3 & E3 & K3 & L3); [lia|]. pose proof (kept_length _ _ K3) as Hn3.
  destruct (branch_kept b1 c3) as (c4 & E4 & K4 & L4); [lia|]. pose proof (kept_length _ _ K4) as Hn4.
  destruct (branch_kept (S b1) c4) as (c5 & E5 & K5 & L5); [lia|]. pose proof (kept_length _ _ K5) as Hn5.
  destruct (successor_kept Hmem b d c5) as (r6 & c6 & E6 & K6 & L6); [lia..|]. pose proof (kept_length _ _ K6) as Hn6.
  destruct (successor_kept Hmem b b1 c6) as (r7 & c7 & E7 & K7 & L7); [lia..|]. pose proof (kept_length _ _ K7) as Hn7.
  destruct (successor_kept Hmem b1 d c7) as (r8 & c8 & E8 & K8 & L8); [lia..|]. pose proof (kept_length _ _ K8) as Hn8.
  destruct (successor_kept Hmem b1 (S b1) c8) as (r9 & c9 & E9 & K9 & L9); [lia..|]. pose proof (kept_length _ _ K9) as Hn9.
  assert (K : kept (cfg u) c9) by (repeat (etrans; [eassumption|]); done).
  destruct (add_switch_successors_done Hmem target (S b1) n 0 (set_cfg c9 u)) as (c' & E' & K' & L').
  { by apply K. }
  { cbn. lia. }
  { intros j Hj. destruct (HT j) as (t & d' & ? & ?); [lia|]. exists t, d'. split; [done|]. by apply leads_kept. }
  exists c'. split; [by etrans|]. split; [cbn in L'; congruence|]. intros A k.
  rewrite (bind_run _ _ _ _ _ (block_at_done _ _ _ Hx)). run_cfg u E1.
  rewrite (bind_run _ _ _ _ _ (block_at_done _ _ (set_cfg c1 u) Ex1)). run_cfg (set_cfg c1 u) E2. cbn [must]. do 2 (unfold bind at 1; cbn [ret]).
  run_cfg (set_cfg c2 u) E3. run_cfg (set_cfg c3 u) E4. run_cfg (set_cfg c4 u) E5. run_cfg (set_cfg c5 u) E6. run_cfg (set_cfg c6 u) E7.
  run_cfg (set_cfg c7 u) E8. run_cfg (set_cfg c8 u) E9. by rewrite (bind_run _ _ _ _ _ E'), set_cfg_twice.
Qed.

Lemma alloc_tableswitch_done info b2 u :
  closed (cfg u) →
  (∀ j, 0 <= j < Z.of_nat (Z.to_nat (ts_count info)) → ∃ t d, read_s32 code (ts_targets info + u32 (j * 4)) = Some t ∧ leads u t d) →
  ∃ c' l, kept (cfg u) c' ∧ bb_list c' = bb_list (cfg u) ∧
    alloc_tableswitch code info b2 u = Done (Some (TableSwitch (ts_low info) (ts_high info) b2 l))
      (set_tables (TableSwitch (ts_low info) (ts_high info) b2 l :: tableswitch_list u) (set_cfg c' u)) ∧
    ∀ k, 0 <= k < Z.of_nat (Z.to_nat (ts_count info)) → ∃ t d, read_s32 code (ts_targets info + u32 (k * 4)) = Some t ∧ leads u t d ∧ l !! Z.to_nat k = Some (Some d).
Proof using Hmem.
  intros Hc HT. destruct (request_kept Hmem 48 (cfg u)) as (c1 & E1 & K1 & L1).
  destruct (request_kept Hmem (u64 (8 * ts_count info)) c1) as (c2 & E2 & K2 & L2).
  assert (K : kept (cfg u) c2) by by etrans.
  destruct (lookup_targets_done (λ i, read_s32 code (ts_targets info + u32 (i * 4))) (Z.to_nat (ts_count info)) 0 (set_cfg c2 u)) as (l & El & Hl).
  { intros j Hj. destruct (HT j) as (t & d & ? & ?); [lia|]. exists t, d. split; [done|]. by apply leads_kept. }
  exists c2, l. split_and!; [done|congruence| |].
  - unfold alloc_tableswitch. run_cfg u E1. cbn [negb]. run_cfg (set_cfg c1 u) E2. cbn [negb]. by rewrite (bind_run _ _ _ _ _ El).
  - intros k Hk. destruct (Hl k) as (t & d & Et & Ed & Ek); [lia|]. rewrite Z.sub_0_r in Ek. exists t, d. split_and!; [done| |done].
    unfold leads in *. cbn in Ed. by rewrite (kept_find _ _ K) in Ed.
Qed.

Lemma tableswitch_count pc info :
  get_tableswitch_info code pc = Some info → 0 <= s32 (ts_high info) - s32 (ts_low info) + 1 < 2 ^ 32 →
  ts_count info = s32 (ts_high info) - s32 (ts_low info) + 1.
Proof.
  unfold get_tableswitch_info. intros E Hr. destruct (rd code pc); cbn in E; [|done]. case_decide; [|done].
  do 3 (match type of E with (?x ≫= _) = _ => destruct x; [cbn [mbind option_bind] in E|done] end).
  injection E as <-. cbn in *.
  rewrite <- (Z.mod_small _ _ Hr). unfold u32, s32, signed. repeat case_decide; Z.to_euclidean_division_equations; lia.
Qed.

(** What the conversion has appended: the statements of the block and of those split off. *)
Definition switched (u u' : ir_unit) (y : bb_ir) (b n : nat) : list (Z * statement) :=
  drop (length (stmt_list y)) (stmt_list (ir_of u' b)) ++
  concat ((λ i, stmt_list (ir_of u' (length (bbs (cfg u)) + i))) <$> seq 0 n).

(** C3: a tableswitch branches where the virtual machine does. convert_tableswitch puts two
    empty blocks after the block it converts, in which no offset is found; the statements of
    the three, executed one after the other, end with a jump to the block at the target that
    the key selects, the default target if it is below or above the bounds, and leave the
    local variables, the heap and the rest of the operand stack as they were. *)
Theorem convert_tableswitch_correct u b x y info s l S key w d :
  switching u b x y → get_tableswitch_info code (ctx_offset (ctx u)) = Some info →
  s32 (ts_low info) <= s32 (ts_high info) → (s32 (ts_high info) - s32 (ts_low info) + 1) * 4 < 2 ^ 32 →
  leads u (ts_default_target info) d →
  (∀ i, 0 <= i <= s32 (ts_high info) - s32 (ts_low info) → ∃ t d, read_s32 code (ts_targets info + i * 4) = Some t ∧ leads u t d) →
  unit_match u b s (JS l (VInt key :: S) w) →
  ∃ u' s' t d', convert_tableswitch code u = Done tt u' ∧ table_target info key = Some t ∧ leads u t d' ∧
    kept (cfg u) (cfg u') ∧
    bb_list (cfg u') = list_add (Datatypes.S (length (bbs (cfg u)))) (length (bbs (cfg u))) (list_add (length (bbs (cfg u))) b (bb_list (cfg u))) ∧
    (∀ Nf, node_ext (nodes u') Nf → exec_stmts Nf (switched u u' y b 2) s = Done (IJump (Some d')) s') ∧
    unit_match u' b s' (JS l S w).
Proof using All.
  intros [Hc Hx Hr Hy Hb Hnew] Hi Hlh Hsz Hd HT (Hl & Hw & HM). pose proof (lookup_lt_Some _ _ _ Hx) as Hblt.
  pose proof (tableswitch_count _ _ Hi ltac:(lia)) as Hcount. cbn in Hl, Hw, HM. set (b1 := length (bbs (cfg u))) in *.
  set (u0 := set_ctx (set_pos (u64 (ctx_pos (ctx u) + ts_insn_size info)) (ctx u)) u).
  assert (HT0 : ∀ j, 0 <= j < Z.of_nat (Z.to_nat (ts_count info)) → ∃ t d, read_s32 code (ts_targets info + u32 (j * 4)) = Some t ∧ leads u t d).
  { intros j Hj. rewrite Z2Nat.id in Hj by lia. unfold u32. rewrite Z.mod_small by lia. apply HT. lia. }
  destruct (table_blocks u0 b x d (λ i, read_s32 code (ts_targets info + u32 (i * 4))) (Z.to_nat (ts_count info)) Hc Hx Hr (leads_lt _ _ _ Hc Hd) HT0)
    as (c1 & K1 & L1 & E1). fold b1 in L1, E1. change (length (bbs (cfg u0))) with b1 in *.
  destruct (alloc_tableswitch_done info (Datatypes.S b1) (set_cfg c1 u0)) as (c2 & tl & K2 & L2 & E2 & HTl).
  { by apply K1. }
  { intros j Hj. destruct (HT0 j Hj) as (t & d' & ? & ?). exists t, d'. split; [done|]. by apply (leads_kept u0). }
  set (table := TableSwitch (ts_low info) (ts_high info) (Datatypes.S b1) tl) in *.
  set (u2 := set_tables _ _) in E2. cbn in K2, L2. assert (K : kept (cfg u) c2) by (etrans; [exact K1|exact K2]).
  assert (Em : u2 = mk u2 b (Loc (heap c2) (ctx_pos (ctx u2)) (ctx_offset (ctx u)) (ctx_opc (ctx u)) (ctx_is_wide (ctx u)) (stmt_list y) (mimic_stack y) (nodes u) (var_infos u) (array_opc u)))
    by exact (unit_is_mk u2 b y Hy Hb).
  unfold ir_of in HM. rewrite Hy in HM. cbn in HM. inversion HM as [|e ? M ? He HM' EM1 EM2].
  rewrite <- EM1 in Em.
  destruct (pure_key_done u2 b e (VInt key) (heap c2) (ctx_pos (ctx u2)) (ctx_offset (ctx u)) (ctx_opc (ctx u)) (ctx_is_wide (ctx u))
    (stmt_list y) M (nodes u) (var_infos u) (array_opc u) s He) as (dk & h3 & ss' & N' & V' & s' & new & E3 & -> & X3 & G3 & W3 & P3 & S3).
  destruct (branch_stmt_done J_INT OP_LT (Some d) dk (s32 (ts_low info)) u2 b h3 (ctx_pos (ctx u2)) (ctx_offset (ctx u)) (ctx_opc (ctx u)) (ctx_is_wide (ctx u))
    (stmt_list y ++ new) M N' V' (array_opc u)) as [h4 E4].
  destruct (branch_stmt_done J_INT OP_GT (Some d) dk (s32 (ts_high info)) u2 b h4 (ctx_pos (ctx u2)) (ctx_offset (ctx u)) (ctx_opc (ctx u)) (ctx_is_wide (ctx u))
    (stmt_list y ++ new) M N' V' (array_opc u)) as [h5 E5].
  destruct (statement_done u2 b h5 (ctx_pos (ctx u2)) (ctx_offset (ctx u)) (ctx_opc (ctx u)) (ctx_is_wide (ctx u)) (stmt_list y ++ new) M N' V' (array_opc u)) as [h6 E6].
  assert (Hirs : ∀ L i, (b1 <= i)%nat → irs (mk u2 b L) !! i = None).
  { intros L i Hi'. cbn. rewrite lookup_insert_ne by lia. by apply Hnew. }
  destruct (table_stmts N' (length V') s' (ctx_offset (ctx u)) dk key info (Datatypes.S b1) tl (leads u) d S3 Hd) as (t & bb & Et & Eb & Xt).
  { intros Hk. destruct (HTl (key - s32 (ts_low info))) as (t & bb & Et & Eb & El); [lia|]. exists t, bb.
    unfold table_target. rewrite decide_True by done. unfold u32 in Et. rewrite Z.mod_small in Et by lia. split_and!; [done| |done].
    unfold leads in *. cbn in Eb. by rewrite (kept_find _ _ K1) in Eb. }
  eexists _, s', t, bb. split.
  { unfold convert_tableswitch. unfold bind at 1, get. rewrite (bind_run _ _ u info u) by by rewrite Hi.
    rewrite (bind_run _ _ u tt u0) by done. rewrite (bind_run _ _ u0 (Some d) u0) by by apply find_target_done.
    cbv zeta. rewrite Hb. etrans; [apply E1|]. rewrite (bind_run _ _ _ _ _ E2). rewrite Em.
    rewrite (bind_run _ _ _ _ _ (pop_done _ _ _ _ _ _ _ _ _ _ _ _ _)). rewrite (bind_run _ _ _ _ _ E3).
    unfold branch_if_lesser_stmt. rewrite (bind_run _ _ _ _ _ E4). rewrite (bind_run _ _ _ _ _ (expr_get_done _ _ P3)).
    unfold branch_if_greater_stmt. rewrite (bind_run _ _ _ _ _ E5). rewrite (bind_run _ _ _ _ _ E6). cbn [negb].
    rewrite (bind_run _ _ _ _ _ (expr_get_done _ _ P3)). rewrite (bind_run _ _ _ _ _ (append_mk _ _ _ _ _ _ _ _ _ _ _ _ _ _)).
    rewrite (bind_run _ _ _ _ _ (append_new _ b1 _ _ (Hirs _ b1 (le_n _)))).
    apply append_new. cbn [irs set_irs]. rewrite lookup_insert_ne by lia. apply Hirs. lia. }
  match goal with |- context [unit_match ?U2 _ _ _] => set (u' := U2) end.
  assert (Ib : ir_of u' b = ir_of (mk u2 b (Loc h6 (ctx_pos (ctx u2)) (ctx_offset (ctx u)) (ctx_opc (ctx u)) (ctx_is_wide (ctx u))
    ((stmt_list y ++ new) ++ [(ctx_offset (ctx u), STMT_IF (EXPR_BINOP J_INT OP_LT dk (EXPR_VALUE J_INT (u64 (s32 (ts_low info))))) (Some d))]) M N' V' (array_opc u))) b).
  { unfold ir_of, u'. cbn [irs set_irs]. by rewrite !(lookup_insert_ne _ _ b) by lia. }
  rewrite ir_of_mk in Ib. cbn in Ib. destruct G3 as (GN & GV & GA & GL).
  split_and!; [done|done| | | |split_and!].
  - destruct K. split; cbn; done.
  - cbn. rewrite L2. exact L1.
  - intros Nf HN. unfold switched. rewrite Ib. cbn [stmt_list]. rewrite <- app_assoc, drop_app_length. fold b1. cbn [seq fmap list_fmap concat].
    rewrite Nat.add_0_r, Nat.add_1_r, app_nil_r. unfold ir_of, u'. cbn [irs set_irs]. rewrite (lookup_insert_ne _ _ b1), !lookup_insert_eq by lia. cbn [default stmt_list].
    rewrite <- !app_assoc, exec_stmts_app, X3 by done. cbn [exec_from]. by apply Xt.
  - cbn. by rewrite GL.
  - cbn. congruence.
  - rewrite Ib. cbn. eapply settled_list_mono; [exact HM'|done..].
Qed.

(** *** lookupswitch *)

(** The binary search. *)
Lemma bsearch_spec l key :
  s32 key = key → (∀ i j p q, (i < j)%nat → l !! i = Some p → l !! j = Some q → match_ p < match_ q) →
  (∀ i p, l !! i = Some p → - 2 ^ 31 <= key - match_ p < 2 ^ 31) →
  ∀ n lo hi, (hi - lo < n)%nat → (hi <= length l)%nat → (∀ i p, l !! i = Some p → match_ p = key → (lo <= i < hi)%nat) →
  ∃ r, bsearch n l key lo hi = Some r ∧
    match r with Some t => ∃ i p, l !! i = Some p ∧ match_ p = key ∧ bb_target p = t | None => ∀ i p, l !! i = Some p → match_ p ≠ key end.
Proof.
  intros Hkey Hs Ho n. induction n as [|n IH]; intros lo hi Hn Hh Hin; [lia|]. cbn [bsearch]. case_decide as Hlt.
  2: { exists None. split; [done|]. intros i p E Em. specialize (Hin _ _ E Em). lia. }
  set (mid := ((lo + hi) / 2)%nat). assert (Hm : (lo <= mid < hi)%nat) by (unfold mid; split; [apply Nat.div_le_lower_bound|apply Nat.Div0.div_lt_upper_bound]; lia). clearbody mid.
  destruct (lookup_lt_is_Some_2 l mid) as [p Ep]; [lia|]. rewrite Ep. cbn. unfold lookupswitch_pair_comp. rewrite Hkey.
  rewrite decide_True by by eapply Ho. cbn. case_decide as Hl; [|case_decide as Hg].
  - apply IH; [lia..|]. intros i q E Em. pose proof (Hin _ _ E Em). split; [lia|]. destruct (decide (i < mid)%nat); [done|].
    destruct (decide (i = mid)) as [->|]; [simplify_eq; lia|]. specialize (Hs mid i p q ltac:(lia) Ep E). lia.
  - apply IH; [lia..|]. intros i q E Em. pose proof (Hin _ _ E Em). split; [|lia]. destruct (decide (mid < i)%nat); [lia|].
    destruct (decide (i = mid)) as [->|]; [simplify_eq; lia|]. specialize (Hs i mid q p ltac:(lia) E Ep). lia.
  - exists (Some (bb_target p)). split; [done|]. exists mid, p. split_and!; [done|lia|done].
Qed.

(** The first pair with the key, in the semantics of the virtual machine. *)
Fixpoint lookup_target (info : lookupswitch_info) (key : Z) (n : nat) (i : Z) : option Z :=
  match n with
  | O => Some (ls_default_target info)
  | Datatypes.S n' =>
    m ← read_s32 code (ls_pairs info + i * 8);
    if decide (m = key) then read_s32 code (ls_pairs info + i * 8 + 4) else lookup_target info key n' (i + 1)
  end.
Lemma lookup_target_found info key n i k t :
  (∀ j, i <= j < i + Z.of_nat n → ∃ m, read_s32 code (ls_pairs info + j * 8) = Some m ∧ (m = key → j = k)) →
  i <= k < i + Z.of_nat n → read_s32 code (ls_pairs info + k * 8) = Some key → read_s32 code (ls_pairs info + k * 8 + 4) = Some t →
  lookup_target info key n i = Some t.
Proof.
  revert i. induction n as [|n IH]; intros i HM Hk Em Et; [lia|]. cbn. destruct (HM i) as (m & E & Hm); [lia|]. rewrite E. cbn. case_decide as Hd.
  - by rewrite (Hm Hd).
  - apply IH; [intros; apply HM; lia| |done..]. destruct (decide (i = k)) as [->|]; [congruence|lia].
Qed.
Lemma lookup_target_default info key n i :
  (∀ j, i <= j < i + Z.of_nat n → ∃ m, read_s32 code (ls_pairs info + j * 8) = Some m ∧ m ≠ key) →
  lookup_target info key n i = Some (ls_default_target info).
Proof.
  revert i. induction n as [|n IH]; intros i HM; [done|]. cbn. destruct (HM i) as (m & -> & Hm); [lia|]. cbn. rewrite decide_False by done.
  apply IH. intros. apply HM. lia.
Qed.

Lemma lookup_blocks u b x d target n :
  closed (cfg u) → bbs (cfg u) !! b = Some x → start x <= end_ x → (d < length (bbs (cfg u)))%nat →
  (∀ j, 0 <= j < Z.of_nat n → ∃ t d, target j = Some t ∧ leads u t d) →
  let b1 := length (bbs (cfg u)) in
  ∃ c', kept (cfg u) c' ∧ bb_list c' = list_add b1 b (bb_list (cfg u)) ∧ ∀ (A : Type) (k : nat → K A),
   (let* m := block_at (Some b) in
    let* b1 := on_cfg (bb_split (Some b) (end_ m)) in
    let* b1 := must b1 in
    do set_has_branch (Some b1) ;;
    do on_cfg (bb_add_successor (Some b) (Some d)) ;;
    do on_cfg (bb_add_successor (Some b) (Some b1)) ;;
    do add_switch_successors target b1 n 0 ;;
    k b1) u = k b1 (set_cfg c' u).
Proof using Hmem.
  intros Hc Hx Hr Hd HT b1. pose proof (lookup_lt_Some _ _ _ Hx) as Hb. fold b1 in Hb, Hd.
  destruct (split_kept Hmem b x (cfg u) Hc Hx Hr) as (c2 & y1 & E2 & K2 & L2 & Ey1 & Hs1 & He1 & N2). fold b1 in E2, L2, Ey1, N2.
  destruct (branch_kept b1 c2) as (c5 & E5 & K5 & L5); [lia|]. pose proof (kept_length _ _ K5) as Hn5.
  destruct (successor_kept Hmem b d c5) as (r6 & c6 & E6 & K6 & L6); [lia..|]. pose proof (kept_length _ _ K6) as Hn6.
  destruct (successor_kept Hmem b b1 c6) as (r7 & c7 & E7 & K7 & L7); [lia..|]. pose proof (kept_length _ _ K7) as Hn7.
  assert (K : kept (cfg u) c7) by (repeat (etrans; [eassumption|]); done).
  destruct (add_switch_successors_done Hmem target b1 n 0 (set_cfg c7 u)) as (c' & E' & K' & L').
  { by apply K. }
  { cbn. lia. }
  { intros j Hj. destruct (HT j) as (t & d' & ? & ?); [lia|]. exists t, d'. split; [done|]. by apply leads_kept. }
  exists c'. split; [by etrans|]. split; [cbn in L'; congruence|]. intros A k.
  rewrite (bind_run _ _ _ _ _ (block_at_done _ _ _ Hx)). run_cfg u E2. cbn [must]. unfold bind at 1. cbn [ret].
  run_cfg (set_cfg c2 u) E5. run_cfg (set_cfg c5 u) E6. run_cfg (set_cfg c6 u) E7. by rewrite (bind_run _ _ _ _ _ E'), set_cfg_twice.
Qed.

Lemma alloc_lookupswitch_done info b1 u :
  closed (cfg u) → 0 <= ls_count info → ls_count info * 8 < 2 ^ 32 →
  (∀ j, 0 <= j < ls_count info → ∃ m t d, read_s32 code (ls_pairs info + j * 8) = Some m ∧ read_s32 code (ls_pairs info + j * 8 + 4) = Some t ∧ leads u t d) →
  ∃ c' l, kept (cfg u) c' ∧ bb_list c' = bb_list (cfg u) ∧
    alloc_lookupswitch code info b1 u = Done (Some (LookupSwitch b1 (ls_count info) l))
      (set_lookups (LookupSwitch b1 (ls_count info) l :: lookupswitch_list u) (set_cfg c' u)) ∧
    length l = Z.to_nat (ls_count info) ∧
    ∀ k p, l !! k = Some p → ∃ t d, read_s32 code (ls_pairs info + Z.of_nat k * 8) = Some (match_ p) ∧
      read_s32 code (ls_pairs info + Z.of_nat k * 8 + 4) = Some t ∧ leads u t d ∧ bb_target p = Some d.
Proof using Hmem.
  intros Hc Hn H32 HT. destruct (request_kept Hmem 40 (cfg u)) as (c1 & E1 & K1 & L1).
  destruct (request_kept Hmem (u64 (12 * ls_count info)) c1) as (c2 & E2 & K2 & L2).
  assert (K : kept (cfg u) c2) by by etrans.
  destruct (lookup_pairs_done code info (Z.to_nat (ls_count info)) 0 (set_cfg c2 u)) as (l & El & Hnl & Hl).
  { intros j Hj. destruct (HT j) as (m & t & d & ? & ? & ?); [lia|]. exists m, t, d.
    unfold read_lookupswitch_match, read_lookupswitch_target, u32. rewrite Z.mod_small by lia. split_and!; [done..|]. by apply leads_kept. }
  exists c2, l. split_and!; [done|congruence| |done|].
  - unfold alloc_lookupswitch. run_cfg u E1. cbn [negb]. run_cfg (set_cfg c1 u) E2. cbn [negb]. by rewrite (bind_run _ _ _ _ _ El).
  - intros k p Ep. pose proof (lookup_lt_Some _ _ _ Ep). destruct (Hl k p Ep) as (t & d & Em & Et & Ed & Eb). exists t, d.
    unfold read_lookupswitch_match, read_lookupswitch_target, u32 in *. rewrite Z.add_0_l, Z.mod_small in Em, Et by lia. split_and!; try done.
    unfold leads in *. cbn in Ed. by rewrite (kept_find _ _ K) in Ed.
Qed.

(** The search and the two statements. *)
Lemma lookup_stmts N n s o d u r bd :
  settled N n s d (VTarget r) → u = bd →
  ∃ bb, bb = default bd r ∧ ∀ Nf, node_ext N Nf →
    exec_stmts Nf ([(o, STMT_IF (EXPR_BINOP J_NATIVE_PTR OP_EQ d (EXPR_VALUE J_NATIVE_PTR (u64 0))) u)] ++ [(o, STMT_LOOKUPSWITCH_JUMP d)]) s = Done (IJump bb) s.
Proof using All.
  intros Hd ->. eexists. split; [done|]. intros Nf HN. rewrite exec_stmts_app. pose proof (settled_eval _ _ _ _ _ _ Hd HN) as Ed.
  assert (E0 : eval Nf (i_env s) (EXPR_VALUE J_NATIVE_PTR (u64 0)) (i_world s) = Done (VLong 0) (i_world s)) by done.
  destruct r as [r|].
  - pose proof (exec_if Nf o J_NATIVE_PTR OP_EQ d _ bd s _ _ 1 0 false Ed E0 eq_refl eq_refl eq_refl) as X1. cbn [exec_from] in X1. rewrite X1.
    cbn. unfold bind, ev, bind, get, on_world. rewrite Ed. cbn. by destruct s.
  - pose proof (exec_if Nf o J_NATIVE_PTR OP_EQ d _ bd s _ _ 0 0 true Ed E0 eq_refl eq_refl eq_refl) as X1. cbn [exec_from] in X1. by rewrite X1.
Qed.

(** The table has the pairs of the code, and the search finds the target. *)
Lemma search_done info l b1 key (D : Z → nat → Prop) dd :
  s32 key = key → 0 <= ls_count info →
  (∀ i j m m', 0 <= i < j → j < ls_count info → read_s32 code (ls_pairs info + i * 8) = Some m → read_s32 code (ls_pairs info + j * 8) = Some m' → m < m') →
  (∀ i m, 0 <= i < ls_count info → read_s32 code (ls_pairs info + i * 8) = Some m → - 2 ^ 31 <= key - m < 2 ^ 31) →
  length l = Z.to_nat (ls_count info) →
  (∀ k p, l !! k = Some p → ∃ t d, read_s32 code (ls_pairs info + Z.of_nat k * 8) = Some (match_ p) ∧
    read_s32 code (ls_pairs info + Z.of_nat k * 8 + 4) = Some t ∧ D t d ∧ bb_target p = Some d) →
  D (ls_default_target info) dd →
  ∃ r t d, search (LookupSwitch b1 (ls_count info) l) key = Some r ∧ default (Some dd) r = Some d ∧
    lookup_target info key (Z.to_nat (ls_count info)) 0 = Some t ∧ D t d.
Proof.
  intros Hkey Hn Hs Ho Hl HP Hdd. unfold search. cbn [pairs].
  destruct (bsearch_spec l key Hkey) with (n := S (length l)) (lo := 0%nat) (hi := length l) as (r & Er & Hr).
  - intros i j p q Hij Ep Eq. destruct (HP _ _ Ep) as (_ & _ & E1 & _). destruct (HP _ _ Eq) as (_ & _ & E2 & _). pose proof (lookup_lt_Some _ _ _ Eq).
    eapply (Hs (Z.of_nat i) (Z.of_nat j)); [lia|lia|done..].
  - intros i p Ep. destruct (HP _ _ Ep) as (_ & _ & E1 & _). pose proof (lookup_lt_Some _ _ _ Ep). apply (Ho (Z.of_nat i)); [lia|done].
  - lia.
  - lia.
  - intros i p Ep _. apply lookup_lt_Some in Ep. lia.
  - assert (HM : ∀ j, 0 <= j < ls_count info → ∃ p, l !! Z.to_nat j = Some p ∧ read_s32 code (ls_pairs info + j * 8) = Some (match_ p)).
    { intros j Hj. destruct (lookup_lt_is_Some_2 l (Z.to_nat j)) as [p Ep]; [lia|]. destruct (HP _ _ Ep) as (_ & _ & E & _).
      rewrite Z2Nat.id in E by lia. eauto. }
    exists r. destruct r as [t|].
    + destruct Hr as (i & p & Ep & Em & Et). destruct (HP _ _ Ep) as (t' & d & E1 & E2 & Hd & Eb). pose proof (lookup_lt_Some _ _ _ Ep).
      exists t', d. split_and!; [done|cbn; congruence| |done]. eapply (lookup_target_found _ _ _ _ (Z.of_nat i)); [|lia|congruence|done].
      intros j Hj. destruct (HM j) as (q & Eq & E); [lia|]. exists (match_ q). split; [done|]. intros Eqk.
      destruct (Z.lt_trichotomy j (Z.of_nat i)) as [Hlt|[?|Hgt]]; [|done|].
      * specialize (Hs j (Z.of_nat i) _ _ ltac:(lia) ltac:(lia) E E1). lia.
      * specialize (Hs (Z.of_nat i) j _ _ ltac:(lia) ltac:(lia) E1 E). lia.
    + exists (ls_default_target info), dd. split_and!; [done|done| |done]. apply lookup_target_default. intros j Hj.
      destruct (HM j) as (q & Eq & E); [lia|]. eauto.
Qed.

(** C4: a lookupswitch branches where the virtual machine does, when the keys of its pairs
    increase, as the specification asks, and the key differs from each of them by less than
    2^31. convert_lookupswitch puts an empty block after the block it converts; the
    statements of the two, executed one after the other, end with a jump to the block at the
    target of the pair that has the key, or at the default target if there is none. *)
Theorem convert_lookupswitch_correct u b x y info s l S key w d :
  switching u b x y → get_lookupswitch_info code (ctx_offset (ctx u)) = Some info →
  0 <= ls_count info → ls_count info * 8 < 2 ^ 32 → leads u (ls_default_target info) d →
  (∀ i, 0 <= i < ls_count info →
     ∃ m t d, read_s32 code (ls_pairs info + i * 8) = Some m ∧ read_s32 code (ls_pairs info + i * 8 + 4) = Some t ∧ leads u t d) →
  (∀ i j m m', 0 <= i < j → j < ls_count info →
     read_s32 code (ls_pairs info + i * 8) = Some m → read_s32 code (ls_pairs info + j * 8) = Some m' → m < m') →
  s32 key = key → (∀ i m, 0 <= i < ls_count info → read_s32 code (ls_pairs info + i * 8) = Some m → - 2 ^ 31 <= key - m < 2 ^ 31) →
  unit_match u b s (JS l (VInt key :: S) w) →
  ∃ u' s' t d', convert_lookupswitch code u = Done tt u' ∧ lookup_target info key (Z.to_nat (ls_count info)) 0 = Some t ∧ leads u t d' ∧
    kept (cfg u) (cfg u') ∧ bb_list (cfg u') = list_add (length (bbs (cfg u))) b (bb_list (cfg u)) ∧
    (∀ Nf, node_ext (nodes u') Nf → exec_stmts Nf (switched u u' y b 1) s = Done (IJump (Some d')) s') ∧
    unit_match u' b s' (JS l S w).
Proof using All.
  intros [Hc Hx Hr Hy Hb Hnew] Hi Hn0 Hsz Hd HT Hinc Hkey Hov (Hl & Hw & HM). pose proof (lookup_lt_Some _ _ _ Hx) as Hblt.
  cbn in Hl, Hw, HM. set (b1 := length (bbs (cfg u))) in *.
  set (u0 := set_ctx (set_pos (u64 (ctx_pos (ctx u) + ls_insn_size info)) (ctx u)) u).
  destruct (lookup_blocks u0 b x d (read_lookupswitch_target code info) (Z.to_nat (ls_count info)) Hc Hx Hr (leads_lt _ _ _ Hc Hd))
    as (c1 & K1 & L1 & E1).
  { intros j Hj. destruct (HT j) as (m & t & d' & _ & Et & Ed); [lia|]. exists t, d'. unfold read_lookupswitch_target, u32. by rewrite Z.mod_small by lia. }
  fold b1 in L1, E1. change (length (bbs (cfg u0))) with b1 in *.
  destruct (alloc_lookupswitch_done info b1 (set_cfg c1 u0)) as (c2 & tl & K2 & L2 & E2 & Hnl & HTl); [by apply K1|done|done| |].
  { intros j Hj. destruct (HT j Hj) as (m & t & d' & ? & ? & ?). exists m, t, d'. split_and!; [done..|]. by apply (leads_kept u0). }
  set (table := LookupSwitch b1 (ls_count info) tl) in *.
  set (u2 := set_lookups _ _) in E2. cbn in K2, L2. assert (K : kept (cfg u) c2) by (etrans; [exact K1|exact K2]).
  destruct (search_done info tl b1 key (leads u) d Hkey Hn0 Hinc Hov Hnl) as (r & t & bb & Esr & Ebb & Etg & Hbb).
  { intros k p Ep. destruct (HTl k p Ep) as (t & d' & ? & ? & Hd' & ?). exists t, d'. split_and!; [done..| |done].
    unfold leads in *. cbn in Hd'. by rewrite (kept_find _ _ K1) in Hd'. }
  { done. }
  assert (Em : u2 = mk u2 b (Loc (heap c2) (ctx_pos (ctx u2)) (ctx_offset (ctx u)) (ctx_opc (ctx u)) (ctx_is_wide (ctx u)) (stmt_list y) (mimic_stack y) (nodes u) (var_infos u) (array_opc u)))
    by exact (unit_is_mk u2 b y Hy Hb).
  unfold ir_of in HM. rewrite Hy in HM. cbn in HM. inversion HM as [|e ? M ? He HM' EM1 EM2].
  rewrite <- EM1 in Em.
  assert (Hsr : settled (nodes u) (length (var_infos u)) s (EXPR_LOOKUPSWITCH_BSEARCH e table) (VTarget r)).
  { eapply settled_1; [exact He|done|done|]. intros N' ρ w1 Ee. cbn [eval]. unfold bind. rewrite Ee.
    cbn [as_int ret]. change (search table key = Some r) in Esr. by rewrite Esr. }
  destruct (expression_done u2 b (EXPR_LOOKUPSWITCH_BSEARCH e table) (heap c2) (ctx_pos (ctx u2)) (ctx_offset (ctx u)) (ctx_opc (ctx u)) (ctx_is_wide (ctx u)) (stmt_list y) M (nodes u) (var_infos u) (array_opc u)) as [h2 Ebs].
  destruct (pure_key_done u2 b _ _ h2 (ctx_pos (ctx u2)) (ctx_offset (ctx u)) (ctx_opc (ctx u)) (ctx_is_wide (ctx u))
    (stmt_list y) M (nodes u) (var_infos u) (array_opc u) s Hsr) as (dk & h3 & ss' & N' & V' & s' & new & E3 & -> & X3 & G3 & W3 & P3 & S3).
  destruct (branch_stmt_done J_NATIVE_PTR OP_EQ (Some d) dk 0 u2 b h3 (ctx_pos (ctx u2)) (ctx_offset (ctx u)) (ctx_opc (ctx u)) (ctx_is_wide (ctx u))
    (stmt_list y ++ new) M N' V' (array_opc u)) as [h4 E4].
  destruct (statement_done u2 b h4 (ctx_pos (ctx u2)) (ctx_offset (ctx u)) (ctx_opc (ctx u)) (ctx_is_wide (ctx u)) (stmt_list y ++ new) M N' V' (array_opc u)) as [h6 E6].
  destruct (lookup_stmts N' (length V') s' (ctx_offset (ctx u)) dk (Some d) r (Some d) S3 eq_refl) as (bb' & Ebb' & Xt). rewrite Ebb in Ebb'. subst bb'.
  eexists _, s', t, bb. split.
  { unfold convert_lookupswitch. unfold bind at 1, get. rewrite (bind_run _ _ u info u) by by rewrite Hi.
    rewrite (bind_run _ _ u tt u0) by done. rewrite (bind_run _ _ u0 (Some d) u0) by by apply find_target_done.
    cbv zeta. rewrite Hb. etrans; [apply E1|]. rewrite (bind_run _ _ _ _ _ E2). rewrite Em.
    rewrite (bind_run _ _ _ _ _ (pop_done _ _ _ _ _ _ _ _ _ _ _ _ _)). unfold lookupswitch_bsearch_expr. rewrite (bind_run _ _ _ _ _ Ebs). rewrite (bind_run _ _ _ _ _ E3).
    unfold branch_if_null_stmt. rewrite (bind_run _ _ _ _ _ E4). rewrite (bind_run _ _ _ _ _ E6). cbn [negb].
    rewrite (bind_run _ _ _ _ _ (expr_get_done _ _ P3)). unfold convert_statement. unfold bind at 1. unfold bind at 1, get. cbn [ctx mk ctx_bb ctx_offset].
    rewrite append_mk. apply append_new. cbn [irs mk]. rewrite lookup_insert_ne by lia. apply Hnew. done. }
  match goal with |- context [unit_match ?U2 _ _ _] => set (u' := U2) end.
  assert (Ib : ir_of u' b = ir_of (mk u2 b (Loc h6 (ctx_pos (ctx u2)) (ctx_offset (ctx u)) (ctx_opc (ctx u)) (ctx_is_wide (ctx u))
    ((stmt_list y ++ new) ++ [(ctx_offset (ctx u), STMT_IF (EXPR_BINOP J_NATIVE_PTR OP_EQ dk (EXPR_VALUE J_NATIVE_PTR (u64 0))) (Some d))]) M N' V' (array_opc u))) b).
  { unfold ir_of, u'. cbn [irs set_irs]. by rewrite !(lookup_insert_ne _ _ b) by lia. }
  rewrite ir_of_mk in Ib. cbn in Ib. destruct G3 as (GN & GV & GA & GL).
  split_and!; [done|done| | | |split_and!].
  - destruct K. split; cbn; done.
  - cbn. rewrite L2. exact L1.
  - intros Nf HN. unfold switched. rewrite Ib. cbn [stmt_list]. rewrite <- app_assoc, drop_app_length. fold b1. cbn [seq fmap list_fmap concat].
    rewrite Nat.add_0_r, app_nil_r. unfold ir_of, u'. cbn [irs set_irs]. rewrite !lookup_insert_eq by lia. cbn [default stmt_list].
    rewrite <- !app_assoc, exec_stmts_app, X3 by done. cbn [exec_from]. by apply Xt.
  - cbn. by rewrite GL.
  - cbn. congruence.
  - rewrite Ib. cbn. eapply settled_list_mono; [exact HM'|done..].
Qed.
End switch.

(** ** Examples *)

(** tableswitch 3 to 4 (25, 26), default 24, at 1; three returns from 24 on *)
Definition table_code : list Z :=
  [0x1a; 0xaa; 0; 0;  0; 0; 0; 23;  0; 0; 0; 3;  0; 0; 0; 4;  0; 0; 0; 24;  0; 0; 0; 25;  0xb1; 0xb1; 0xb1].
(** lookupswitch -5 (29), 100 (30), default 28, at 1; three returns from 28 on *)
Definition lookup_code : list Z :=
  [0x1a; 0xab; 0; 0;  0; 0; 0; 27;  0; 0; 0; 2;  255; 255; 255; 251;  0; 0; 0; 28;  0; 0; 0; 100;  0; 0; 0; 29;  0xb1; 0xb1; 0xb1].
Definition switch_block (e : Z) : basic_block := BB 0 e false false false 0 [] [] 0 false.
Definition switch_ir (key : Z) : bb_ir := BI false [] [EXPR_VALUE J_INT key] [].
Definition switch_unit (e key : Z) : ir_unit :=
  IU (CU (Mem 0 ∅) [switch_block e; BB e (e + 1) false true false 0 [] [] (-1) false; BB (e + 1) (e + 2) false true false 0 [] [] (-1) false;
                   BB (e + 2) (e + 3) false true false 0 [] [] (-1) false] [0; 1; 2; 3]%nat 4)
    {[0%nat := switch_ir key]} [] [] false [] [] (Ctx 0 2 1 0xaa false).
Definition switch_state : istate := IS (Env ∅ ∅ ∅ (VRef 0)) ([] : list Z).

Lemma switch_unit_ok e key : 0 <= e → switching (switch_unit e key) 0 (switch_block e) (switch_ir key).
Proof.
  intros He. split; try done.
  - split; [by repeat constructor|]. cbn. intros i z Ez. do 4 (destruct i as [|i]; [injection Ez as <-; constructor|]). done.
  - intros i Hi. cbn in *. by rewrite lookup_singleton_ne by lia.
Qed.
Lemma switch_unit_match e key : s32 key = key → unit_match (switch_unit e key) 0 switch_state (JS ∅ [VInt key] ([] : list Z)).
Proof.
  intros Hk. split_and!; [done|done|]. constructor; [|constructor]. apply settled_0; [done|done|]. intros. cbn. by rewrite Hk.
Qed.

Lemma convert_tableswitch_correct_witness :
  ∃ u', convert_tableswitch table_code (switch_unit 24 4) = Done tt u' ∧
    ∃ s', exec_stmts (nodes u') (switched (switch_unit 24 4) u' (switch_ir 4) 0 2) switch_state = Done (IJump (Some 3%nat)) s'.
Proof.
  destruct (convert_tableswitch_correct table_code mem_ok (switch_unit 24 4) 0 (switch_block 24) (switch_ir 4) (TableswitchInfo 3 4 23 16 2 23)
    switch_state ∅ [] 4 ([] : list Z) 1) as (u' & s' & t & d' & E & Et & Ed & _ & _ & X & _).
  - by apply switch_unit_ok.
  - vm_compute. reflexivity.
  - vm_compute. discriminate.
  - vm_compute. reflexivity.
  - vm_compute. reflexivity.
  - intros i Hi. change (0 <= i <= 1) in Hi. assert (i = 0 ∨ i = 1) as [-> | ->] by lia; [exists 24, 2%nat|exists 25, 3%nat]; split; vm_compute; reflexivity.
  - by apply switch_unit_match.
  - exists u'. split; [exact E|]. exists s'. rewrite (X _ (reflexivity _)). vm_compute in Et. injection Et as <-. vm_compute in Ed. injection Ed as <-. reflexivity.
Defined.

Lemma convert_lookupswitch_correct_witness :
  ∃ u', convert_lookupswitch lookup_code (switch_unit 28 100) = Done tt u' ∧
    ∃ s', exec_stmts (nodes u') (switched (switch_unit 28 100) u' (switch_ir 100) 0 1) switch_state = Done (IJump (Some 3%nat)) s'.
Proof.
  assert (Hp : ∀ i, 0 <= i < 2 → i = 0 ∨ i = 1) by lia.
  destruct (convert_lookupswitch_correct lookup_code mem_ok (switch_unit 28 100) 0 (switch_block 28) (switch_ir 100) (LookupswitchInfo 27 12 2 27)
    switch_state ∅ [] 100 ([] : list Z) 1) as (u' & s' & t & d' & E & Et & Ed & _ & _ & X & _).
  - by apply switch_unit_ok.
  - vm_compute. reflexivity.
  - vm_compute. discriminate.
  - vm_compute. reflexivity.
  - vm_compute. reflexivity.
  - intros i Hi. destruct (Hp i Hi) as [-> | ->]; [exists (-5), 28, 2%nat|exists 100, 29, 3%nat]; split_and!; vm_compute; reflexivity.
  - cbn [ls_count ls_pairs]. intros i j m m' Hij Hj. assert (i = 0 ∧ j = 1) as [-> ->] by lia. intros Em Em'.
    vm_compute in Em, Em'. injection Em as <-. injection Em' as <-. reflexivity.
  - vm_compute. reflexivity.
  - intros i m Hi. destruct (Hp i Hi) as [-> | ->]; intros Em; vm_compute in Em; injection Em as <-; split; (discriminate || reflexivity).
  - by apply switch_unit_match.
  - exists u'. split; [exact E|]. exists s'. rewrite (X _ (reflexivity _)). vm_compute in Et. injection Et as <-. vm_compute in Ed. injection Ed as <-. reflexivity.
Defined.

(** The subtraction of the comparison overflows: a key of 2^31 - 1 and a pair for -5. *)
Lemma lookupswitch_overflow :
  lookup_target lookup_code (LookupswitchInfo 27 12 2 27) (2 ^ 31 - 1) 2 0 = Some 27 ∧
  lookupswitch_pair_comp (2 ^ 31 - 1) (LookupPair (-5) None) = None.
Proof. split; vm_compute; reflexivity. Qed.
