(* ===== verification/ConvertBranch.v ===== *)
(** * Branches at the end of a block

    A branch adds one statement, which changes nothing but where control goes, and which goes
    there in every state that differs only by what is stored before it. *)

From S2P Require Import Prelude CMonad ConstantPool ClassFile Opcodes Bytecode Types BasicBlock Tree ArgsMap Convert.
From S2P Require Import ConvertRun JavaMachine TreeSem ConvertSim ConvertOps ConvertStack ConvertHeap ConvertObjects ConvertCalls ConvertTable ConvertGrow ConvertBlock.
From stdpp Require Import gmap.
#[local] Open Scope Z_scope.

Definition is_branch (i : jinsn) : bool :=
  match i with JIf _ _ | JIfIcmp _ _ | JIfAcmp _ _ | JIfNull _ _ | JGoto _ => true | _ => false end.

Section branch.
Context `{Allocator} `{Resolver} `{FloatsLaws} `{!JavaHeap} `{!JavaHeapLaws} (code : list Z).
Context (u : ir_unit) (b : nat).
Context (Hmem : always_ok).
Context (Hcode : Forall is_u8 code) (Hlen : Z.of_nat (length code) < 2 ^ 63).
Context (Hfind : ∀ off, is_Some (find_in (bbs (cfg u)) (bb_list (cfg u)) off)).

#[local] Abbreviation runs := (runs u b).
#[local] Abbreviation BB := (BytecodeBuffer code).

Definition ctl_like (c : jctl) (ctl : ictl) : Prop :=
  match c with
  | JNext => ctl = INext
  | JJump t => ∃ bb, ctl = IJump bb ∧ find_in (bbs (cfg u)) (bb_list (cfg u)) (u64 t) = Some bb
  | JRet _ => False
  end.

(** The statement [st] goes to [ctl] and nothing else, from [s] and the states like it. *)
Definition steady (N : list shared) (n : nat) (s : istate) (st : statement) (ctl : ictl) : Prop :=
  ∀ Nf s', node_ext N Nf → agree n s s' → exec_stmt Nf st s' = Done ctl s'.

Definition branched (o : Z) (i : jinsn) (σ : jstate) (ss : list (Z * statement)) (s : istate) (p' : Z) (L' : loc) : Prop :=
  l_pos L' = p' ∧ l_off L' = o ∧ l_wide L' = false ∧
  ∃ st ctl c σ', jexec o i σ = Done c σ' ∧ l_stmts L' = ss ++ [(o, st)] ∧
    steady (l_nodes L') (length (l_vars L')) s st ctl ∧ ctl_like c ctl ∧ match_state L' s σ' false.

Definition bsim (c : Z) (cv : K unit) (i : jinsn) (p p' : Z) : Prop :=
  ∀ h o ss M N V a s σ,
    match_state (Loc h p o c false ss M N V a) s σ false → jexec o i σ ≠ Undef →
    runs cv (Loc h p o c false ss M N V a) (λ _ L', node_ext N (l_nodes L') ∧ branched o i σ ss s p' L').

Lemma runs_find_target t h p o c w ss M N V a (Q : option nat → loc → Prop) :
  (∀ bb, find_in (bbs (cfg u)) (bb_list (cfg u)) (u64 (o + t)) = Some bb → Q bb (Loc h p o c w ss M N V a)) →
  runs (find_target t) (Loc h p o c w ss M N V a) Q.
Proof using Hfind.
  intros HQ. destruct (Hfind (u64 (o + t))) as [bb Ebb]. exists bb, (Loc h p o c w ss M N V a).
  split; [|by apply HQ]. unfold find_target, bind, get, on_cfg, find_bb, bind, get. cbn. rewrite Ebb. done.
Qed.
Lemma runs_read_target off h p q o c w ss M N V a (Q : Z → loc → Prop) :
  bytecode_read_branch_target c (BB p) = Some (off, BB q) →
  Q off (Loc h q o c w ss M N V a) → runs (read_branch_target code) (Loc h p o c w ss M N V a) Q.
Proof. intros Hf HQ. unfold read_branch_target. apply runs_bind, runs_get. by eapply runs_read. Qed.

Lemma steady_if N n s t op cn el er x y zx zy bb :
  op = cond_op cn → settled N n s el x → settled N n s er y → number x = Some zx → number y = Some zy →
  steady N n s (STMT_IF (EXPR_BINOP t op el er) bb) (if test cn zx zy then IJump bb else INext).
Proof.
  intros -> [_ [_ Hx]] [_ [_ Hy]] Nx Ny Nf s' HN HA.
  rewrite <- (exec_one Nf 0). eapply exec_if; [by apply Hx|by apply Hy|done|done|apply condition_test].
Qed.

(** The end of a conditional branch. *)
Lemma runs_if t cn el er x y zx zy off l S i σ h p q o c ss M N V a s :
  bytecode_read_branch_target c (BB p) = Some (off, BB q) →
  settled N (length V) s el x → settled N (length V) s er y → number x = Some zx → number y = Some zy →
  jexec o i σ = branch (JS l S (i_world s)) S (test cn zx zy) (o + off) →
  l ⊆ e_locals (i_env s) → Forall2 (settled N (length V) s) M S →
  runs (let* stmt := __convert_if code t (cond_op cn) el er in match stmt with None => enomem | Some s => convert_statement s end)
    (Loc h p o c false ss M N V a) (λ _ L', node_ext N (l_nodes L') ∧ branched o i σ ss s q L').
Proof using Hmem Hfind.
  intros Hr Hx Hy Nx Ny Ej Hl HS. unfold __convert_if, if_stmt. apply runs_bind, runs_bind. eapply runs_read_target; [exact Hr|].
  apply runs_bind, runs_find_target. intros bb Hbb. apply runs_bind, runs_alloc_expression; [done|]. intros h1.
  apply runs_bind, runs_alloc_statement; [done|]. intros h2. apply runs_ret. apply runs_statement. split; [done|].
  split_and!; [done..|]. rewrite Ej. unfold branch. eexists _, _, _, _.
  split; [done|]. split; [done|]. split; [by eapply steady_if|]. split; [|by apply match_intro].
  destruct (test cn zx zy); cbn; [by exists bb|done].
Qed.
Lemma bsim_if c cn off i p q :
  bytecode_read_branch_target c (BB p) = Some (off, BB q) → i = JIf cn off ∨ i = JIfNull cn off →
  bsim c (convert_if code (cond_op cn)) i p q.
Proof using Hmem Hfind.
  intros Hr Hi h o ss M N V a s [l st wd] HM Hc. destruct (match_settled _ _ _ _ _ _ _ _ _ _ _ _ _ HM eq_refl) as (Hl & HS & Hw).
  cbn in Hl, HS, Hw. subst wd.
  assert (∃ x S z, st = x :: S ∧ number x = Some z ∧
    jexec o i (JS l st (i_world s)) = branch (JS l S (i_world s)) S (test cn z 0) (o + off)) as (x & S & z & -> & Nx & Ej).
  { destruct Hi; subst; cbn in *; destruct st as [|[] S]; try done; by eexists _, _, _. }
  unstack HS e He HS'. unfold convert_if. apply runs_bind, runs_alloc_expression; [done|]. intros h1.
  apply runs_bind, runs_pop. eapply runs_if; [exact Hr|exact He|by apply (settled_0 _ _ _ _ (VInt 0))|exact Nx|done|exact Ej|exact Hl|exact HS'].
Qed.
Lemma bsim_if_cmp c cn off i t p q :
  bytecode_read_branch_target c (BB p) = Some (off, BB q) → i = JIfIcmp cn off ∨ i = JIfAcmp cn off →
  bsim c (convert_if_cmp code t (cond_op cn)) i p q.
Proof using Hmem Hfind.
  intros Hr Hi h o ss M N V a s [l st wd] HM Hc. destruct (match_settled _ _ _ _ _ _ _ _ _ _ _ _ _ HM eq_refl) as (Hl & HS & Hw).
  cbn in Hl, HS, Hw. subst wd.
  assert (∃ x y S zx zy, st = y :: x :: S ∧ number x = Some zx ∧ number y = Some zy ∧
    jexec o i (JS l st (i_world s)) = branch (JS l S (i_world s)) S (test cn zx zy) (o + off))
    as (x & y & S & zx & zy & -> & Nx & Ny & Ej).
  { destruct Hi; subst; cbn in *; destruct st as [|[] [|[] S]]; try done; by eexists _, _, _, _, _. }
  unstack HS ey Hey HS'. unstack HS' e1 Hex HS2. unfold convert_if_cmp. apply runs_bind, runs_pop. apply runs_bind, runs_pop.
  eapply runs_if; [exact Hr|exact Hex|exact Hey|exact Nx|exact Ny|exact Ej|exact Hl|exact HS2].
Qed.
Lemma bsim_goto c off p q :
  bytecode_read_branch_target c (BB p) = Some (off, BB q) → bsim c (convert_goto code) (JGoto off) p q.
Proof using Hmem Hfind.
  intros Hr h o ss M N V a s σ HM Hc. unfold convert_goto. apply runs_bind. eapply runs_read_target; [exact Hr|].
  apply runs_bind, runs_find_target. intros bb Hbb. apply runs_bind, runs_alloc_statement; [done|]. intros h1.
  apply runs_statement. split; [done|]. split_and!; [done..|]. eexists _, _, _, σ. split; [done|]. split; [done|].
  split; [by intros Nf s' _ _|]. split; [by exists bb|]. destruct HM as [Hl HM]. by split.
Qed.

(** ** The table *)

Definition bdisp (c : Z) (cv : option (K unit)) (ops : operands) : Prop :=
  ∀ p i p', ops p = Some (i, p') → is_branch i = true → ∃ f, cv = Some f ∧ bsim c f i p p'.

Lemma bdisp_op0 c cv i : is_branch i = false → bdisp c cv (op0 i).
Proof. intros Hi p i' p' E Hb. unfold op0 in E. simplify_eq. congruence. Qed.
Lemma bdisp_operand {A} (get : Z → option A) n f c cv : (∀ x, is_branch (f x) = false) → bdisp c cv (λ p, x ← get p; Some (f x, p + n)).
Proof. intros Hf p i p' E Hb. destruct (get p) as [x|]; [|done]. cbn in E. simplify_eq. specialize (Hf x). congruence. Qed.
Lemma bdisp_if c cn f : bc_is_wide c = Some false → f = JIf cn ∨ f = JIfNull cn → bdisp c (Some (convert_if code (cond_op cn))) (op_s2 code f).
Proof using All.
  intros Hc Hf p i p' E _. unfold op_s2 in E. destruct (s2 code p) as [x|] eqn:Ex; [|done]. cbn in E. simplify_eq.
  eexists. split; [done|]. eapply (bsim_if c cn x); [by apply branch_16; [|by apply read_s2]|]. destruct Hf; subst; auto.
Qed.
Lemma bdisp_if_cmp c cn t f :
  bc_is_wide c = Some false → f = JIfIcmp cn ∨ f = JIfAcmp cn → bdisp c (Some (convert_if_cmp code t (cond_op cn))) (op_s2 code f).
Proof using All.
  intros Hc Hf p i p' E _. unfold op_s2 in E. destruct (s2 code p) as [x|] eqn:Ex; [|done]. cbn in E. simplify_eq.
  eexists. split; [done|]. eapply (bsim_if_cmp c cn x); [by apply branch_16; [|by apply read_s2]|]. destruct Hf; subst; auto.
Qed.
Lemma bdisp_goto c : bc_is_wide c = Some false → bdisp c (Some (convert_goto code)) (op_s2 code JGoto).
Proof using All.
  intros Hc p i p' E _. unfold op_s2 in E. destruct (s2 code p) as [x|] eqn:Ex; [|done]. cbn in E. simplify_eq.
  eexists. split; [done|]. eapply bsim_goto. by apply branch_16; [|by apply read_s2].
Qed.
Lemma bdisp_goto_w c : bc_is_wide c = Some true → bdisp c (Some (convert_goto code)) (op_s4 code JGoto).
Proof using All.
  intros Hc p i p' E _. unfold op_s4 in E. destruct (s4 code p) as [x|] eqn:Ex; [|done]. cbn in E. simplify_eq.
  eexists. split; [done|]. eapply bsim_goto. by apply branch_32; [|by apply read_s4].
Qed.
Lemma bdisp_rest c cv ops : ops = op_iinc code ∨ ops = op_interface code ∨ ops = op_multi code → bdisp c cv ops.
Proof.
  intros Ho p i p' E Hb. unfold op_iinc, op_interface, op_multi in Ho.
  destruct Ho as [->|[->| ->]]; repeat match goal with H : (?x ≫= _) = Some _ |- _ => destruct x; cbn in H; simplify_eq end;
    try case_decide; by simplify_eq.
Qed.
Lemma bdisp_wide c cv : bdisp c cv (op_wide code).
Proof.
  intros p i p' E Hb. unfold op_wide in E. destruct (u1 code p) as [opc|]; [|done]. cbn [mbind option_bind] in E.
  assert (Hu2 : ∀ f q, op_u2 code f q = Some (i, p') → (∀ x, is_branch (f x) = false) → False).
  { intros f q E' Hf. unfold op_u2 in E'. destruct (u2 code q) as [x|]; [|done]. cbn in E'. simplify_eq. by rewrite Hf in Hb. }
  exfalso. destruct opc as [|q|q]; [done| |done].
  repeat match goal with q : positive |- _ => destruct q as [q|q|]; try done end; try (by eapply Hu2).
  destruct (u2 code (p + 1)), (s2 code (p + 3)); cbn in E; by simplify_eq.
Qed.

Fixpoint branch_table (c : Z) (cs : list (option (K unit))) (os : list (option operands)) : Prop :=
  match cs, os with
  | cv :: cs', ops :: os' => match ops with None => True | Some ops => bdisp c cv ops end ∧ branch_table (c + 1) cs' os'
  | [], [] => True
  | _, _ => False
  end.
Lemma branch_table_lookup c cs os k ops :
  branch_table c cs os → os !! k = Some (Some ops) → ∃ cv, cs !! k = Some cv ∧ bdisp (c + Z.of_nat k) cv ops.
Proof.
  revert c cs os. induction k as [|k IH]; intros c [|cv cs] [|o os] Ht E; try done; cbn in *.
  - simplify_eq. destruct Ht as [Hf _]. exists cv. by rewrite Z.add_0_r.
  - destruct Ht as [_ Ht]. destruct (IH _ _ _ Ht E) as (f & Ef & Hf). exists f. split; [done|].
    replace (c + Z.of_nat (S k)) with (c + 1 + Z.of_nat k) by lia. done.
Qed.
Ltac lr := (left; reflexivity) || (right; reflexivity).
Lemma branch_table_ok W : branch_table 0 (converters code W) (insn_table code).
Proof using All.
  unfold converters, insn_table. cbn [branch_table].
  repeat (split; [lazymatch goal with |- True => exact I | |- _ => idtac end|]); [..|exact I].
  all: cbv [Z.add Pos.add Pos.succ].
  all: first [ apply bdisp_op0; reflexivity | apply bdisp_rest; solve [auto] | apply bdisp_wide
             | apply bdisp_goto; reflexivity | apply bdisp_goto_w; reflexivity
             | apply (bdisp_operand (u1 code)); done | apply (bdisp_operand (s1 code)); done | apply (bdisp_operand (u2 code)); done
             | apply (bdisp_operand (s2 code)); done
             | unfold convert_ifeq, convert_ifne, convert_iflt, convert_ifge, convert_ifgt, convert_ifle, convert_if_icmpeq,
                 convert_if_icmpne, convert_if_icmplt, convert_if_icmpge, convert_if_icmpgt, convert_if_icmple, convert_if_acmpeq,
                 convert_if_acmpne, convert_ifnull, convert_ifnonnull;
               first [ apply (bdisp_if _ CEq); [reflexivity|lr] | apply (bdisp_if _ CNe); [reflexivity|lr]
                     | apply (bdisp_if _ CLt); [reflexivity|lr] | apply (bdisp_if _ CGe); [reflexivity|lr]
                     | apply (bdisp_if _ CGt); [reflexivity|lr] | apply (bdisp_if _ CLe); [reflexivity|lr]
                     | apply (bdisp_if_cmp _ CEq); [reflexivity|lr] | apply (bdisp_if_cmp _ CNe); [reflexivity|lr]
                     | apply (bdisp_if_cmp _ CLt); [reflexivity|lr] | apply (bdisp_if_cmp _ CGe); [reflexivity|lr]
                     | apply (bdisp_if_cmp _ CGt); [reflexivity|lr] | apply (bdisp_if_cmp _ CLe); [reflexivity|lr] ] ].
Qed.

Lemma runs_dispatch n opc f p h o c w ss M N V a (Q : unit → loc → Prop) :
  rd code p = Some opc → converters code (wide_of code n) !! Z.to_nat opc = Some (Some f) →
  (∀ a', runs f (Loc h (p + 1) o opc w ss M N V a') Q) → runs (convert_instruction code (S n)) (Loc h p o c w ss M N V a) Q.
Proof using Hcode Hlen.
  intros Er Hlt HQ. rewrite convert_instruction_S. destruct (read_1 code Hcode Hlen _ _ Er) as [Hr Hopc]. apply runs_bind.
  eapply runs_read; [exact Hr|]. apply runs_bind. eapply (runs_update_ctx _ _ _ _ _ _ o o c opc w w); [done|].
  rewrite decide_False.
  2: { apply lookup_lt_Some in Hlt. change (length (converters code (wide_of code n))) with 202%nat in Hlt. lia. }
  match goal with |- context [mjoin ?x] => replace (mjoin x) with (Some f) by (symmetry; exact (f_equal mjoin Hlt)) end.
  apply runs_bind. case_decide; [|apply runs_ret, HQ].
  eexists tt, (Loc h (p + 1) o opc w ss M N V true). split; [done|]. apply HQ.
Qed.

(** The conversion of a branch at [p]. *)
Lemma branch_instruction n i p p' h o c ss M N V a s σ :
  jdecode code p = Some (i, p') → is_branch i = true →
  match_state (Loc h p o c false ss M N V a) s σ false → jexec o i σ ≠ Undef →
  runs (convert_instruction code (S n)) (Loc h p o c false ss M N V a) (λ _ L', node_ext N (l_nodes L') ∧ branched o i σ ss s p' L').
Proof using All.
  intros E Hi HM Hu. unfold jdecode in E. destruct (rd code p) as [opc|] eqn:Er; [|done]. cbn [mbind option_bind] in E.
  destruct (insn_table code !! Z.to_nat opc) as [[ops|]|] eqn:Et; [|done..]. cbn in E.
  destruct (read_1 code Hcode Hlen _ _ Er) as [_ Hopc].
  destruct (branch_table_lookup _ _ _ _ _ (branch_table_ok (wide_of code n)) Et) as (cv & Ef & Hf).
  destruct (Hf _ _ _ E Hi) as (f & -> & Hs). rewrite Z2Nat.id in Hs by lia.
  eapply runs_dispatch; [exact Er|exact Ef|]. intros a'. apply Hs; [|done]. destruct HM as [Hl HM]. by split.
Qed.
End branch.

(** ** The end of a block *)

Section scan.
Context (code : list Z) (bend : Z).
(** Whether the last instruction of the block is a branch. *)
Fixpoint ends_in_branch (n : nat) (p : Z) (last : bool) : option bool :=
  match n with
  | O => None
  | S n' =>
    if decide (p < bend) then
      match jdecode code p with Some (i, p') => ends_in_branch n' p' (is_branch i) | None => None end
    else Some last
  end.
End scan.

Section tail.
Context `{Allocator} `{Resolver} `{FloatsLaws} `{!JavaHeap} `{!JavaHeapLaws} (code : list Z).
Context (u : ir_unit) (b : nat) (x : basic_block).
Context (Hmem : always_ok).
Context (Hcode : Forall is_u8 code) (Hlen : Z.of_nat (length code) < 2 ^ 63).
Context (Hfind : ∀ off, is_Some (find_in (bbs (cfg u)) (bb_list (cfg u)) off)).
Context (Hres : ∀ k idx m, call_target k idx = Some m → callee_ok m).
Context (Hblock : bbs (cfg u) !! b = Some x).

#[local] Abbreviation mk := (mk u b).
#[local] Abbreviation jstrict := (jstrict code (end_ x)).

Lemma jexec_jump o i σ t σ' : jexec o i σ = Done (JJump t) σ' → is_branch i = true.
Proof.
  destruct σ as [l st w]. destruct i; try done; intros E; exfalso; cbn in E;
    unfold jinvoke, jfield, jclass, jarray, not_null, alloc_push, heap_do, push_result, jarith, push_some, push_opt, push_typed,
      with_stack, of_world, throw, push in E; cbn in E;
    repeat (case_match; cbn in *; try done).
Qed.

Definition tail_ok (N : list shared) (n : nat) (s : istate) (tail : list (Z * statement)) (ctl : ictl) : Prop :=
  ∀ Nf s', node_ext N Nf → agree n s s' → exec_stmts Nf tail s' = Done ctl s'.
Lemma steady_tail N n s o st ctl : steady N n s st ctl → tail_ok N n s [(o, st)] ctl.
Proof. intros Hs Nf s' HN HA. cbn. unfold bind. rewrite (Hs Nf s' HN HA). by destruct ctl. Qed.

(** The statements of the block: those before the branch, and the branch. *)
Definition block_splits (c : jctl) (σ' : jstate) (br : bool) (res : CMonad.outcome ir_unit stop unit) (N : list shared)
    (ss : list (Z * statement)) (s : istate) : Prop :=
  ∃ L' pre tail ctl s1, res = Done tt (mk L') ∧ l_stmts L' = ss ++ pre ++ tail ∧ length tail = (if br then 1 else 0)%nat ∧
    node_ext N (l_nodes L') ∧ (∀ Nf, node_ext (l_nodes L') Nf → exec_stmts Nf pre s = Done INext s1) ∧
    tail_ok (l_nodes L') (length (l_vars L')) s1 tail ctl ∧ ctl_like u c ctl ∧ match_state L' s1 σ' false.

Lemma insns_split n k h p o c ss M N V a s σ pend ct σ' br last :
  match_state (Loc h p o c false ss M N V a) s σ pend → Z.of_nat (length code) - p < Z.of_nat k → p < end_ x →
  jstrict n p pend σ = Done ct σ' → match ct with JRet _ => False | _ => True end →
  ends_in_branch code (end_ x) n p last = Some br →
  block_splits ct σ' br (convert_insns code k b (mk (Loc h p o c false ss M N V a))) N ss s.
Proof using All.
  revert k h p o c ss M N V a s σ pend last. induction n as [|n IH]; intros k h p o c ss M N V a s σ pend last HM Hk Hp Er Hct Eb; [done|].
  cbn [ends_in_branch ConvertBlock.jstrict] in Eb, Er. rewrite decide_True in Eb by done. rewrite decide_True in Er by done.
  destruct (jdecode code p) as [[i p']|] eqn:Ed; [|done]. pose proof (jdecode_forward _ _ _ _ Ed) as Hfw.
  destruct (pend && negb (forces i σ)) eqn:Ep; [done|].
  assert (Hforce : pend = true → forces i σ = true) by (intros ->; cbn in Ep; by destruct (forces i σ)).
  destruct k as [|k]; [lia|]. rewrite (convert_insns_S code u b x Hblock), decide_True by done.
  assert (HM0 : match_state (Loc h p p c false ss M N V a) s σ pend) by (destruct HM as [Hl HM]; by split).
  destruct (jexec p i σ) as [c1 σ1|e σ1|] eqn:Ej; [|by destruct (lazy i)|done].
  assert (Hend : ∀ L, end_ x <= l_pos L → convert_insns code k b (mk L) = Done tt (mk L)).
  { intros [h1 p1 o1 k1 w1 ss1 M1 N1 V1 a1] HL. cbn in HL. destruct k as [|k']; [lia|].
    rewrite (convert_insns_S code u b x Hblock), decide_False by lia. done. }
  destruct (decide (p' < end_ x)) as [Hp'|Hp']; [|destruct (is_branch i) eqn:Hi].
  - destruct c1; [|done..].
    destruct (co_instruction code u b Hmem Hcode Hlen Hfind Hres (length code - 1) i p p' h p c ss M N V a s σ pend)
      as ([] & L1 & E1 & new & r' & (F1 & F2 & F3 & F4 & F5) & X & Hpos & HR); [done|done|done|by rewrite Ej|].
    replace (S (S (length code - 1))) with (S (length code)) in E1 by lia. cbn [l_off] in HR. rewrite Ej in HR. destruct HR as (s2 & -> & HM1).
    rewrite (bind_run _ _ _ _ _ E1). destruct L1 as [h1 p1 o1 c1 w1 ss1 M1 N1 V1 a1]. cbn [l_stmts l_off l_wide l_nodes l_vars l_pos] in *.
    subst p1 w1 ss1.
    destruct (IH k h1 p' o1 c1 (ss ++ new) M1 N1 V1 a1 s2 σ1 (allocates i) (is_branch i)) as (L' & pre & tail & ctl & s1 & ER & Hs & Htl & HN & Xp & Ht & Hc & HM'); try done; [lia|].
    exists L', (new ++ pre), tail, ctl, s1. split_and!; try done.
    + by rewrite Hs, <- !app_assoc.
    + by etrans.
    + intros Nf HNf. rewrite exec_stmts_app. change (exec_stmts Nf new s) with (exec_from Nf (Done INext s) new).
      rewrite X by (etrans; [exact HN|exact HNf]). cbn. by apply Xp.
  - destruct n as [|n]; [done|]. cbn [ends_in_branch] in Eb. rewrite decide_False in Eb by done. injection Eb as <-.
    assert (pend = false) as -> by (destruct pend; [destruct i; try done; specialize (Hforce eq_refl); done|done]).
    destruct (branch_instruction code u b Hmem Hcode Hlen Hfind (length code) i p p' h p c ss M N V a s σ)
      as ([] & L1 & E1 & HN & Hpos & Ho & Hw & st & ctl & c' & σ2 & Ej' & Hss & Hst & Hc & HM1); [done|done|done|by rewrite Ej|].
    rewrite (bind_run _ _ _ _ _ E1), Hend by lia. rewrite Ej in Ej'. injection Ej' as <- <-.
    assert (Done c1 σ1 = Done (E := exc) ct σ') as E2.
    { destruct c1; [|exact Er..]. cbn [ConvertBlock.jstrict] in Er. rewrite decide_False in Er by done.
      destruct (allocates i) eqn:Ea; [by destruct i|done]. }
    injection E2 as <- <-. exists L1, [], [(p, st)], ctl, s. split_and!; try done. by apply steady_tail.
  - destruct n as [|n]; [done|]. cbn [ends_in_branch] in Eb. rewrite decide_False in Eb by done. injection Eb as <-.
    destruct c1 as [|t|v]; [| by apply jexec_jump in Ej; congruence |].
    2: { injection Er as <- <-. done. }
    cbn [ConvertBlock.jstrict] in Er. rewrite decide_False in Er by done. destruct (allocates i) eqn:Ea; [done|]. injection Er as <- <-.
    destruct (co_instruction code u b Hmem Hcode Hlen Hfind Hres (length code - 1) i p p' h p c ss M N V a s σ pend)
      as ([] & L1 & E1 & new & r' & (F1 & F2 & F3 & F4 & F5) & X & Hpos & HR); [done|done|done|by rewrite Ej|].
    replace (S (S (length code - 1))) with (S (length code)) in E1 by lia. cbn [l_off] in HR. rewrite Ej, Ea in HR. destruct HR as (s2 & -> & HM1).
    rewrite (bind_run _ _ _ _ _ E1), Hend by lia. exists L1, new, [], INext, s2. split_and!; try done. by rewrite app_nil_r.
Qed.
End tail.
