(* ===== verification/ConvertUnit.v ===== *)
(** * jit/bytecode-to-ir.c: the blocks of a method

    A block whose operand stack is not empty at its end stores the values into slots, from
    the top of the stack on, and the blocks that follow find the slots on their mimic stacks;
    at the end the slots become temporaries.  The blocks are converted depth first; the
    recursion is bounded by [n].  The conversion of other blocks does not change the
    successors of a block, whose list is read once. *)

From S2P Require Import Prelude CMonad ConstantPool ClassFile Opcodes Bytecode Types BasicBlock Tree ArgsMap Convert.
From stdpp Require Import gmap.
#[local] Open Scope Z_scope.

Section unit.
Context `{Allocator} `{Resolver} (code : list Z).

(** ** Slots *)

(** [__bb_add_neighbor] on the array of expressions; its error is not looked at. *)
Definition bb_add_mimic_stack_expr (b n : nat) : K unit :=
  let* k := get (λ u, length (mimic_stack_exprs (ir_of u b))) in
  let* ok := on_cfg (request (8 * (Z.of_nat k + 1))) in
  if (ok : bool) then update_ir b (λ x, set_slots (mimic_stack_exprs x ++ [n]) x) else ret tt.

Definition bb_remove_last_stmt (b : nat) : K (Z * statement) :=
  let* x := get (λ u, ir_of u b) in
  let* s := must (last (stmt_list x)) in
  do update_ir b (λ x, set_stmts (removelast (stmt_list x)) x) ;;
  ret s.

(** The node of a slot. *)
Definition new_slot (t : vm_type) (entry : bool) (slot_ndx : Z) : K (option nat) :=
  let* e := mimic_stack_expr t entry slot_ndx in
  ret match e with Some (EXPR_SHARED n) => Some n | _ => None end.

(** [reload] has the elements of the stack, the first pushed first; a failed [realloc] of
    it is an assertion.  [None] is out of memory. *)
Definition spill_expression (b : nat) (reload : list nat) (expr : expression) (slot_ndx : Z) : K (option (list nat)) :=
  let* t := type_of expr in
  let* exit_tmp := new_slot t false slot_ndx in
  let* entry_tmp := new_slot t true slot_ndx in
  match exit_tmp, entry_tmp with
  | Some exit_tmp, Some entry_tmp =>
    do bb_add_mimic_stack_expr b exit_tmp ;;
    let* store := alloc_statement in
    if negb store then ret None else
    let* x := block_at (Some b) in
    let* branch := (if has_branch x then let* s := bb_remove_last_stmt b in ret (Some s) else ret None) in
    do do_convert_statement b (STMT_STORE (EXPR_SHARED exit_tmp) expr) (end_ x) ;;
    do (match branch with Some s => bb_add_stmt b s | None => ret tt end) ;;
    let* ok := on_cfg (request (8 * (Z.of_nat (length reload) + 1))) in
    if negb ok then undef else ret (Some (reload ++ [entry_tmp]))
  | _, _ => ret None
  end.

(** [n] expressions are left on the mimic stack. *)
Fixpoint spill_loop (n : nat) (b : nat) (reload : list nat) (slot_ndx : Z) : K (option (list nat)) :=
  let* x := get (λ u, ir_of u b) in
  match mimic_stack x, n with
  | [], _ => ret (Some reload)
  | _ :: _, O => undef
  | expr :: rest, S n' =>
    do update_ir b (set_mimic rest) ;;
    let* r := spill_expression b reload expr slot_ndx in
    match r with
    | None => ret None
    | Some reload => spill_loop n' b reload (slot_ndx + 1)
    end
  end.
Definition spill_mimic_stack (b : nat) : K (option (list nat)) :=
  let* ok := on_cfg (request 16) in
  if negb ok then ret None else
  let* n := get (λ u, length (mimic_stack (ir_of u b))) in
  spill_loop n b [] 0.

Fixpoint add_slots (b : nat) (l : list nat) : K unit :=
  match l with [] => ret tt | n :: l' => do bb_add_mimic_stack_expr b n ;; add_slots b l' end.
Fixpoint push_slots (b : nat) (l : list nat) : K unit :=
  match l with [] => ret tt | n :: l' => do expr_get (EXPR_SHARED n) ;; do push_on b (EXPR_SHARED n) ;; push_slots b l' end.
Definition reload_mimic_stack (b : nat) (reload : list nat) : K Z :=
  do add_slots b reload ;;
  let* x := block_at (Some b) in
  if bb_mimic_stack_is_resolved x then
    ret (if decide (Z.of_nat (length reload) = u64 (entry_mimic_stack_size x)) then 0 else - EINVAL)
  else
    do push_slots b (rev reload) ;;
    let* n := get (λ u, length (mimic_stack (ir_of u b))) in
    do set_entry_mimic b (s64 (Z.of_nat n)) ;;
    ret 0.

(** ** All blocks *)

Fixpoint for_each_bb (f : nat → K unit) (l : list nat) : K unit :=
  match l with [] => ret tt | b :: l' => do f b ;; for_each_bb f l' end.

Fixpoint convert_bb_to_ir (n : nat) (b : nat) : K unit :=
  match n with
  | O => undef
  | S n' =>
    let* y := get (λ u, ir_of u b) in
    if is_converted y then ret tt else
    do do_convert_bb_to_ir code b ;;
    do update_ir b set_converted ;;
    let* x := block_at (Some b) in
    match successors x with
    | [] => ret tt
    | _ :: _ =>
      let* reload_stack := spill_mimic_stack b in
      match reload_stack with
      | None => enomem
      | Some reload_stack =>
        do for_each_bb (λ s, do reload_mimic_stack s reload_stack ;; ret tt) (successors x) ;;
        for_each_bb (convert_bb_to_ir n') (successors x)
      end
    end
  end.

(** ** Slots become temporaries *)

Definition is_slot (entry : bool) (slot_ndx : Z) (x : shared) : bool :=
  match sh_kind x with
  | EXPR_MIMIC_STACK_SLOT e i => bool_decide (e = entry ∧ i = slot_ndx)
  | _ => false
  end.
Definition to_temporary (tmp : nat) (x : shared) : shared :=
  Shared (sh_type x) (if vm_type_is_float (sh_type x) then EXPR_FLOAT_TEMPORARY tmp else EXPR_TEMPORARY tmp).

Fixpoint assign_nodes (l : list nat) (entry : bool) (slot_ndx : Z) (tmp : nat) (N : list shared) : option (list shared) :=
  match l with
  | [] => Some N
  | n :: l' =>
    x ← N !! n;
    assign_nodes l' entry slot_ndx tmp (if is_slot entry slot_ndx x then <[n := to_temporary tmp x]> N else N)
  end.
Definition assign_temporary (b : nat) (entry : bool) (slot_ndx : Z) (tmp_low : nat) : K unit :=
  let* u := get (λ u, u) in
  let* N := must (assign_nodes (mimic_stack_exprs (ir_of u b)) entry slot_ndx tmp_low (nodes u)) in
  modify (set_nodes N).

Definition neighbors (entry : bool) (x : basic_block) : list nat := if entry then predecessors x else successors x.

Fixpoint propagate_temporary (n : nat) (b : nat) (entry : bool) (slot_ndx : Z) (tmp_low : nat) (from : nat) : K unit :=
  match n with
  | O => undef
  | S n' =>
    let* x := block_at (Some b) in
    do assign_temporary b entry slot_ndx tmp_low ;;
    for_each_bb (λ j, if decide (j = from) then ret tt else propagate_temporary n' j (negb entry) slot_ndx tmp_low b)
      (neighbors entry x)
  end.

(** [l] are the expressions of the block that are left. *)
Fixpoint pick_loop (n : nat) (b : nat) (entry : bool) (l : list nat) : K unit :=
  match l with
  | [] => ret tt
  | k :: l' =>
    let* x := get (λ u, nodes u !! k) in
    let* x := must x in
    do (match sh_kind x with
        | EXPR_MIMIC_STACK_SLOT e slot_ndx =>
          if decide (e = entry) then
            let* tmp_low :=
              (if decide (sh_type x = J_LONG) then do get_var J_INT ;; get_var J_INT else get_var (sh_type x)) in
            propagate_temporary n b entry slot_ndx tmp_low b
          else ret tt
        | _ => ret tt
        end) ;;
    pick_loop n b entry l'
  end.
Definition pick_and_propagate_temporaries (n : nat) (b : nat) (entry : bool) : K unit :=
  let* l := get (λ u, mimic_stack_exprs (ir_of u b)) in pick_loop n b entry l.

Definition need_to_resolve (neighbors : list nat) (entry : bool) : K bool :=
  match neighbors with
  | [] => ret false
  | [n] =>
    let* x := block_at (Some n) in
    ret (bool_decide (length (if entry then successors x else predecessors x) = 1%nat))
  | _ => ret true
  end.
Definition resolve_mimic_stack_slots (n : nat) (b : nat) : K unit :=
  let* x := block_at (Some b) in
  let* r := need_to_resolve (successors x) false in
  do (if (r : bool) then pick_and_propagate_temporaries n b false else ret tt) ;;
  let* x := block_at (Some b) in
  let* r := need_to_resolve (predecessors x) true in
  if (r : bool) then pick_and_propagate_temporaries n b true else ret tt.

(** The error code of a computation. *)
Definition attempt (m : K unit) : K Z := λ u,
  match m u with
  | Done _ u' => Done 0 u'
  | Fail (Err e) u' => Done e u'
  | Fail Exit u' => Fail Exit u'
  | Undef => Undef
  end.

(** The handlers; the first error ends the loop. *)
Fixpoint convert_handlers (n : nat) (l : list nat) : K Z :=
  match l with
  | [] => ret 0
  | b :: l' =>
    let* x := block_at (Some b) in
    if is_eh x then
      let* err := attempt (convert_bb_to_ir n b) in
      if decide (err ≠ 0) then ret err else convert_handlers n l'
    else convert_handlers n l'
  end.

(** [resolve_mimic_stack_slots] returns 0, which takes the place of the error of a
    handler. *)
Definition convert_to_ir (n : nat) (entry_bb : nat) : K Z :=
  let* err := attempt (convert_bb_to_ir n entry_bb) in
  if decide (err ≠ 0) then ret err else
  let* l := get (λ u, bb_list (cfg u)) in
  let* err := convert_handlers n l in
  let* l := get (λ u, bb_list (cfg u)) in
  match l with
  | [] => ret err
  | _ :: _ => do for_each_bb (resolve_mimic_stack_slots n) l ;; ret 0
  end.
End unit.
