(* ===== verification/ConvertSpill.v ===== *)
(** * From one block to the next

    The values that are left on the operand stack at the end of a block are stored into the
    slots at its exit, before the branch; the block that follows, whose slots at the entry
    are those of the exit, finds them on its mimic stack. *)

From S2P Require Import Prelude CMonad ConstantPool ClassFile Opcodes Bytecode Types BasicBlock Tree ArgsMap Convert.
From S2P Require Import ConvertRun JavaMachine TreeSem ConvertSim ConvertOps ConvertStack ConvertHeap ConvertObjects ConvertCalls ConvertTable ConvertGrow ConvertBlock ConvertBranch ConvertUnit.
From stdpp Require Import gmap.
#[local] Open Scope Z_scope.

(** ** The slots *)

Definition slot_pair (t : vm_type) (i : Z) : list shared :=
  [Shared t (EXPR_MIMIC_STACK_SLOT false i); Shared t (EXPR_MIMIC_STACK_SLOT true i)].
Fixpoint slot_nodes (ts : list vm_type) (i : Z) : list shared :=
  match ts with [] => [] | t :: ts' => slot_pair t i ++ slot_nodes ts' (i + 1) end.
(** The stores into the slots, whose nodes begin at [k]. *)
Fixpoint stores (es : list expression) (k : nat) (off : Z) : list (Z * statement) :=
  match es with [] => [] | e :: es' => (off, STMT_STORE (EXPR_SHARED k) e) :: stores es' (S (S k)) off end.
Fixpoint exit_ids (n k : nat) : list nat := match n with O => [] | S n' => k :: exit_ids n' (S (S k)) end.
Fixpoint entry_ids (n k : nat) : list nat := match n with O => [] | S n' => S k :: entry_ids n' (S (S k)) end.

Lemma slot_nodes_length ts i : length (slot_nodes ts i) = (2 * length ts)%nat.
Proof. revert i. induction ts as [|t ts IH]; intros i; [done|]. cbn. rewrite IH. lia. Qed.

Section spill.
Context `{Allocator} `{Resolver} (u : ir_unit) (b : nat) (x : basic_block).
Context (Hmem : always_ok) (Hx : bbs (cfg u) !! b = Some x).

(** The unit, with what the spilling changes. *)
Definition spilling (cv : bool) (h : mem) (N : list shared) (ss : list (Z * statement)) (M : list expression) (l : list nat) : ir_unit :=
  IU (set_heap h (cfg u)) (<[b := BI cv ss M l]> (irs u)) N (var_infos u) (array_opc u) (tableswitch_list u) (lookupswitch_list u) (ctx u).

Lemma spilling_ir cv h N ss M l : ir_of (spilling cv h N ss M l) b = BI cv ss M l.
Proof. unfold ir_of. cbn. by rewrite lookup_insert_eq. Qed.
Lemma spilling_update f cv h N ss M l cv' ss' M' l' :
  f (BI cv ss M l) = BI cv' ss' M' l' → update_ir b f (spilling cv h N ss M l) = Done tt (spilling cv' h N ss' M' l').
Proof.
  intros Hf. unfold update_ir, modify. rewrite spilling_ir, Hf. unfold set_irs, spilling. cbn. by rewrite insert_insert_eq.
Qed.
Lemma spilling_request n cv h N ss M l :
  ∃ h', on_cfg (request n) (spilling cv h N ss M l) = Done true (spilling cv h' N ss M l).
Proof using Hmem.
  unfold on_cfg, request, mem_malloc. cbn -[bool_decide]. rewrite (Hmem _ n). rewrite bool_decide_eq_true_2 by done.
  eexists. reflexivity.
Qed.
Lemma spilling_new_slot t e i cv h N ss M l :
  ∃ h', new_slot t e i (spilling cv h N ss M l) =
    Done (Some (length N)) (spilling cv h' (N ++ [Shared t (EXPR_MIMIC_STACK_SLOT e i)]) ss M l).
Proof using Hmem.
  unfold new_slot, mimic_stack_expr, alloc_shared. destruct (spilling_request sizeof_expression cv h N ss M l) as [h' E].
  exists h'. unfold bind. rewrite E. done.
Qed.

Lemma spill_expression_ok cv reload e t i h N pre tail M l :
  vm_type_of N e = Some t → length tail = (if has_branch x then 1 else 0)%nat →
  ∃ h', spill_expression b reload e i (spilling cv h N (pre ++ tail) M l) =
    Done (Some (reload ++ [S (length N)]))
      (spilling cv h' (N ++ slot_pair t i) (pre ++ [(end_ x, STMT_STORE (EXPR_SHARED (length N)) e)] ++ tail) M (l ++ [length N])).
Proof using Hmem Hx.
  intros Ht Htl. unfold spill_expression. rewrite (bind_run _ _ _ t (spilling cv h N (pre ++ tail) M l)) by (unfold type_of, bind, get, must; cbn; by rewrite Ht).
  destruct (spilling_new_slot t false i cv h N (pre ++ tail) M l) as [h1 E1]. rewrite (bind_run _ _ _ _ _ E1).
  destruct (spilling_new_slot t true i cv h1 (N ++ [Shared t (EXPR_MIMIC_STACK_SLOT false i)]) (pre ++ tail) M l) as [h2 E2].
  rewrite (bind_run _ _ _ _ _ E2). rewrite <- app_assoc. rewrite length_app, Nat.add_1_r.
  change ([Shared t (EXPR_MIMIC_STACK_SLOT false i)] ++ [Shared t (EXPR_MIMIC_STACK_SLOT true i)]) with (slot_pair t i).
  set (N2 := N ++ slot_pair t i).
  assert (E3 : ∃ h3, bb_add_mimic_stack_expr b (length N) (spilling cv h2 N2 (pre ++ tail) M l) =
    Done tt (spilling cv h3 N2 (pre ++ tail) M (l ++ [length N]))).
  { unfold bb_add_mimic_stack_expr, bind at 1, get. 
    match goal with |- context [on_cfg (request ?n)] => destruct (spilling_request n cv h2 N2 (pre ++ tail) M l) as [h3 E3] end.
    exists h3. rewrite (bind_run _ _ _ _ _ E3). by apply spilling_update. }
  destruct E3 as [h3 E3]. rewrite (bind_run _ _ _ _ _ E3).
  destruct (spilling_request sizeof_statement cv h3 N2 (pre ++ tail) M (l ++ [length N])) as [h4 E4].
  unfold alloc_statement at 1. rewrite (bind_run _ _ _ _ _ E4). cbn [negb].
  rewrite (bind_run _ _ _ x (spilling cv h4 N2 (pre ++ tail) M (l ++ [length N])))
    by (unfold block_at, on_cfg, BasicBlock.deref; cbn; by rewrite Hx).
  set (st := (end_ x, STMT_STORE (EXPR_SHARED (length N)) e)).
  assert (E5 : ∀ k : K (option (list nat)),
    (let* branch := (if has_branch x then let* s := bb_remove_last_stmt b in ret (Some s) else ret None) in
     do do_convert_statement b (STMT_STORE (EXPR_SHARED (length N)) e) (end_ x) ;;
     do (match branch with Some s => bb_add_stmt b s | None => ret tt end) ;; k) (spilling cv h4 N2 (pre ++ tail) M (l ++ [length N])) =
    k (spilling cv h4 N2 (pre ++ [st] ++ tail) M (l ++ [length N]))).
  { intros k. destruct (has_branch x); [destruct tail as [|t0 [|]]; try done|destruct tail; [|done]].
    - rewrite (bind_run _ _ _ (Some t0) (spilling cv h4 N2 pre M (l ++ [length N]))).
      2: { rewrite (bind_run _ _ _ t0 (spilling cv h4 N2 pre M (l ++ [length N]))); [done|].
        unfold bb_remove_last_stmt, bind at 1, get. rewrite spilling_ir. cbn [stmt_list].
        rewrite (bind_run _ _ _ t0 (spilling cv h4 N2 (pre ++ [t0]) M (l ++ [length N]))) by by rewrite last_snoc.
        rewrite (bind_run _ _ _ tt (spilling cv h4 N2 pre M (l ++ [length N]))); [done|].
        apply spilling_update. unfold set_stmts. cbn. by rewrite removelast_last. }
      rewrite (bind_run _ _ _ tt (spilling cv h4 N2 (pre ++ [st]) M (l ++ [length N]))) by by apply spilling_update.
      rewrite (bind_run _ _ _ tt (spilling cv h4 N2 ((pre ++ [st]) ++ [t0]) M (l ++ [length N]))) by by apply spilling_update.
      by rewrite <- app_assoc.
    - rewrite !app_nil_r. rewrite (bind_run _ _ _ None (spilling cv h4 N2 pre M (l ++ [length N]))) by done.
      rewrite (bind_run _ _ _ tt (spilling cv h4 N2 (pre ++ [st]) M (l ++ [length N]))) by by apply spilling_update.
      done. }
  rewrite E5.
  match goal with |- context [on_cfg (request ?n)] =>
    destruct (spilling_request n cv h4 N2 (pre ++ [st] ++ tail) M (l ++ [length N])) as [h5 E6] end.
  exists h5. rewrite (bind_run _ _ _ _ _ E6). done.
Qed.

(** The loop. *)
Lemma spill_loop_ok cv es ts reload i h N pre tail l n :
  Forall2 (λ e t, ∀ N', node_ext N N' → vm_type_of N' e = Some t) es ts → (length es <= n)%nat →
  length tail = (if has_branch x then 1 else 0)%nat →
  ∃ h', spill_loop n b reload i (spilling cv h N (pre ++ tail) es l) =
    Done (Some (reload ++ entry_ids (length es) (length N)))
      (spilling cv h' (N ++ slot_nodes ts i) (pre ++ stores es (length N) (end_ x) ++ tail) [] (l ++ exit_ids (length es) (length N))).
Proof using Hmem Hx.
  revert ts reload i h N pre l n. induction es as [|e es IH]; intros ts reload i h N pre l n HT Hn Htl.
  - inversion HT; subst. exists h. cbn. rewrite !app_nil_r. destruct n; cbn [spill_loop]; unfold bind, get; by rewrite spilling_ir.
  - inversion HT as [|? t ? ts' Ht HT']; subst. destruct n as [|n]; [cbn in Hn; lia|]. cbn in Hn.
    cbn [spill_loop]. unfold bind at 1, get. rewrite spilling_ir. cbn [mimic_stack].
    rewrite (bind_run _ _ _ tt (spilling cv h N (pre ++ tail) es l)) by by apply spilling_update.
    destruct (spill_expression_ok cv reload e t i h N pre tail es l) as [h1 E1]; [by apply Ht|done|].
    rewrite (bind_run _ _ _ _ _ E1). rewrite app_assoc.
    destruct (IH ts' (reload ++ [S (length N)]) (i + 1) h1 (N ++ slot_pair t i)
      (pre ++ [(end_ x, STMT_STORE (EXPR_SHARED (length N)) e)]) (l ++ [length N]) n) as [h2 E2]; [|lia|done|].
    { eapply Forall2_impl; [exact HT'|]. intros e' t' He' N' HN'. apply He'. etrans; [apply node_ext_app|exact HN']. }
    exists h2. rewrite E2. rewrite length_app. replace (length N + length (slot_pair t i))%nat with (S (S (length N))) by (cbn; lia).
    cbn [length entry_ids exit_ids slot_nodes stores]. by rewrite <- !app_assoc.
Qed.

Lemma spill_mimic_stack_ok cv es ts h N pre tail l :
  Forall2 (λ e t, ∀ N', node_ext N N' → vm_type_of N' e = Some t) es ts →
  length tail = (if has_branch x then 1 else 0)%nat →
  ∃ h', spill_mimic_stack b (spilling cv h N (pre ++ tail) es l) =
    Done (Some (entry_ids (length es) (length N)))
      (spilling cv h' (N ++ slot_nodes ts 0) (pre ++ stores es (length N) (end_ x) ++ tail) [] (l ++ exit_ids (length es) (length N))).
Proof using Hmem Hx.
  intros HT Htl. unfold spill_mimic_stack. destruct (spilling_request 16 cv h N (pre ++ tail) es l) as [h1 E1].
  rewrite (bind_run _ _ _ _ _ E1). cbn [negb]. unfold bind, get. rewrite spilling_ir. cbn [mimic_stack].
  destruct (spill_loop_ok cv es ts [] 0 h1 N pre tail l (length es) HT) as [h2 E2]; [lia|done|]. exists h2. exact E2.
Qed.
End spill.

(** ** What the stores do *)

Section values.
Context `{JavaHeapLaws}.

Fixpoint spilled (i : Z) (S : list val) (s : istate) : istate :=
  match S with [] => s | v :: S' => spilled (i + 1) S' (IS (set_env_slot (false, i) v (i_env s)) (i_world s)) end.

Lemma spilled_agree n i S s : agree n s (spilled i S s).
Proof.
  revert i s. induction S as [|v S IH]; intros i s; [apply agree_refl|]. cbn. eapply (agree_trans n n); [done| |apply IH].
  split_and!; try done. intros k. cbn. by rewrite lookup_insert_ne.
Qed.
Lemma spilled_slot_before i S s k : k < i → e_slots (i_env (spilled i S s)) !! (false, k) = e_slots (i_env s) !! (false, k).
Proof.
  revert i s. induction S as [|v S IH]; intros i s Hk; [done|]. cbn. rewrite IH by lia. cbn. rewrite lookup_insert_ne; [done|]. intros E. injection E. lia.
Qed.
Lemma spilled_slot i S s k v : S !! k = Some v → e_slots (i_env (spilled i S s)) !! (false, i + Z.of_nat k) = Some v.
Proof.
  revert i s k. induction S as [|v0 S IH]; intros i s [|k] E; try done; cbn in *.
  - simplify_eq. rewrite Z.add_0_r, spilled_slot_before by lia. cbn. by rewrite lookup_insert_eq.
  - replace (i + Z.of_nat (Datatypes.S k)) with (i + 1 + Z.of_nat k) by lia. by apply IH.
Qed.
Lemma spilled_same i S s : e_locals (i_env (spilled i S s)) = e_locals (i_env s) ∧ i_world (spilled i S s) = i_world s.
Proof. revert i s. induction S as [|v S IH]; intros i s; [done|]. cbn. destruct (IH (i + 1) (IS (set_env_slot (false, i) v (i_env s)) (i_world s))) as [-> ->]. done. Qed.

Lemma exec_stores Nf es S ts n i s0 s N0 N off :
  Forall2 (settled N0 n s0) es S → length ts = length es → agree n s0 s → node_ext N0 Nf → node_ext (N ++ slot_nodes ts i) Nf →
  exec_stmts Nf (stores es (length N) off) s = Done INext (spilled i S s).
Proof.
  intros HS. revert ts i s N. induction HS as [|e v es S [_ [_ He]] HS IH]; intros ts i s N Hl HA HN0 HN; [done|].
  destruct ts as [|t ts]; [done|]. cbn [stores exec_stmts spilled]. unfold bind at 1, exec_stmt, exec_store, bind at 1, bind at 1, ev, bind, get, on_world.
  rewrite (He Nf s HN0 HA). unfold assign_shared.
  destruct (node_ext_lookup _ _ (length N) (Shared t (EXPR_MIMIC_STACK_SLOT false i)) HN) as (x' & -> & K); [by apply list_lookup_middle|].
  cbn [sh_kind] in K. rewrite K. cbn.
  assert (HA' : agree n s0 (IS (set_env_slot (false, i) v (i_env s)) (i_world s))).
  { eapply (agree_trans n n); [done|exact HA|]. split_and!; try done. intros k. cbn. by rewrite lookup_insert_ne. }
  specialize (IH ts (i + 1) (IS (set_env_slot (false, i) v (i_env s)) (i_world s)) (N ++ slot_pair t i)).
  rewrite length_app in IH. replace (length N + length (slot_pair t i))%nat with (Datatypes.S (Datatypes.S (length N))) in IH by (cbn; lia).
  apply IH; [by cbn in Hl; lia|done|done|]. by rewrite <- app_assoc.
Qed.

(** ** The edge *)

(** The next block: its slots at the entry are those at the exit of the block before. *)
Definition edge_slots (k : nat) (m : gmap (bool * Z) val) : gmap (bool * Z) val :=
  foldr (λ i m', match m !! (false, i) with Some v => <[(true, i) := v]> m' | None => m' end) ∅ (seqZ 0 (Z.of_nat k)).
Definition edge (k : nat) (s : istate) : istate :=
  IS (Env (e_locals (i_env s)) (e_temps (i_env s)) (edge_slots k (e_slots (i_env s))) (e_exception (i_env s))) (i_world s).

Lemma edge_slots_lookup k m i v : 0 <= i < Z.of_nat k → m !! (false, i) = Some v → edge_slots k m !! (true, i) = Some v.
Proof.
  intros Hi Hv. unfold edge_slots. assert (Hin : i ∈ seqZ 0 (Z.of_nat k)) by (apply elem_of_seqZ; lia).
  induction (seqZ 0 (Z.of_nat k)) as [|j l IH]; [by apply elem_of_nil in Hin|]. cbn.
  destruct (decide (i = j)) as [->|Hne]; [by rewrite Hv, lookup_insert_eq|].
  apply elem_of_cons in Hin as [->|Hin]; [done|]. destruct (m !! (false, j)); [rewrite lookup_insert_ne by congruence|]; by apply IH.
Qed.

Lemma entry_settled S i N0 N n s :
  node_ext (N0 ++ slot_nodes (val_type <$> S) i) N →
  (∀ j v, S !! j = Some v → e_slots (i_env s) !! (true, i + Z.of_nat j) = Some v) →
  Forall2 (settled N n s) (EXPR_SHARED <$> entry_ids (length S) (length N0)) S.
Proof.
  revert i N0. induction S as [|v S IH]; intros i N0 HN Hv; [constructor|]. cbn. constructor.
  - assert (Hk : (N0 ++ slot_nodes (val_type <$> v :: S) i) !! Datatypes.S (length N0) = Some (Shared (val_type v) (EXPR_MIMIC_STACK_SLOT true i))).
    { rewrite lookup_app_r by lia. replace (Datatypes.S (length N0) - length N0)%nat with 1%nat by lia. done. }
    split; [|split; [done|]].
    + eapply vm_type_of_ext; [exact HN| |apply mimic_val_type]. cbn [vm_type_of]. by rewrite Hk.
    + intros N' s' HN' (_ & HS & _). cbn. unfold shared_value.
      destruct (node_ext_lookup _ _ _ _ (transitivity HN HN') Hk) as (x' & -> & K). cbn in K |- *. rewrite K.
      specialize (Hv O v eq_refl). rewrite Z.add_0_r in Hv. by rewrite HS, Hv.
  - assert (Hl : length (N0 ++ slot_pair (val_type v) i) = Datatypes.S (Datatypes.S (length N0))) by (rewrite length_app; cbn; lia).
    rewrite <- Hl. apply (IH (i + 1)).
    + by rewrite <- app_assoc.
    + intros j v' Ej. replace (i + 1 + Z.of_nat j) with (i + Z.of_nat (Datatypes.S j)) by lia. by apply Hv.
Qed.
End values.

Section reload.
Context `{Allocator} `{Resolver} (u : ir_unit) (t : nat) (z : basic_block) (y : bb_ir).
Context (Hmem : always_ok) (Hz : bbs (cfg u) !! t = Some z) (Hy : irs u !! t = Some y) (Hres : entry_mimic_stack_size z = -1).

#[local] Abbreviation spilling := (spilling u t).

Lemma add_slots_ok cv ids h N ss M l :
  ∃ h', add_slots t ids (spilling cv h N ss M l) = Done tt (spilling cv h' N ss M (l ++ ids)).
Proof using Hmem.
  revert h l. induction ids as [|n ids IH]; intros h l; cbn [add_slots]; [exists h; by rewrite app_nil_r|].
  assert (E3 : ∃ h3, bb_add_mimic_stack_expr t n (spilling cv h N ss M l) = Done tt (spilling cv h3 N ss M (l ++ [n]))).
  { unfold bb_add_mimic_stack_expr, bind at 1, get.
    match goal with |- context [on_cfg (request ?k)] => destruct (spilling_request u t Hmem k cv h N ss M l) as [h3 E3] end.
    exists h3. rewrite (bind_run _ _ _ _ _ E3). by apply spilling_update. }
  destruct E3 as [h3 E3]. rewrite (bind_run _ _ _ _ _ E3). destruct (IH h3 (l ++ [n])) as [h4 E4]. exists h4.
  by rewrite E4, <- app_assoc.
Qed.
Lemma push_slots_ok cv ids h N ss M l :
  ∃ h', push_slots t ids (spilling cv h N ss M l) = Done tt (spilling cv h' N ss ((EXPR_SHARED <$> rev ids) ++ M) l).
Proof using Hmem.
  revert h M. induction ids as [|n ids IH]; intros h M; cbn [push_slots]; [by exists h|].
  rewrite (bind_run _ _ _ (EXPR_SHARED n) (spilling cv h N ss M l)) by done.
  assert (E3 : ∃ h3, push_on t (EXPR_SHARED n) (spilling cv h N ss M l) = Done tt (spilling cv h3 N ss (EXPR_SHARED n :: M) l)).
  { unfold push_on, bind at 1, get.
    match goal with |- context [on_cfg (request ?k)] => destruct (spilling_request u t Hmem k cv h N ss M l) as [h3 E3] end.
    exists h3. rewrite (bind_run _ _ _ _ _ E3). cbn [negb]. by apply spilling_update. }
  destruct E3 as [h3 E3]. rewrite (bind_run _ _ _ _ _ E3). destruct (IH h3 (EXPR_SHARED n :: M)) as [h4 E4]. exists h4.
  rewrite E4. cbn [rev]. by rewrite fmap_app, <- app_assoc.
Qed.

(** The mimic stack of a block that has not been reached before. *)
Lemma reload_mimic_stack_ok reload :
  ∃ u', reload_mimic_stack t reload u = Done 0 u' ∧ nodes u' = nodes u ∧ var_infos u' = var_infos u ∧
    mimic_stack (ir_of u' t) = (EXPR_SHARED <$> reload) ++ mimic_stack y ∧ stmt_list (ir_of u' t) = stmt_list y.
Proof using All.
  assert (Eu : u = spilling (is_converted y) (heap (cfg u)) (nodes u) (stmt_list y) (mimic_stack y) (mimic_stack_exprs y)).
  { unfold ConvertSpill.spilling. rewrite insert_id by (rewrite Hy; by destruct y). destruct u as [[] ? ? ? ? ? ? ?]. done. }
  set (U := ConvertSpill.spilling _ _ _ _ _ _ _ _) in Eu.
  enough (∃ u', reload_mimic_stack t reload U = Done 0 u' ∧ nodes u' = nodes u ∧ var_infos u' = var_infos u ∧
    mimic_stack (ir_of u' t) = (EXPR_SHARED <$> reload) ++ mimic_stack y ∧ stmt_list (ir_of u' t) = stmt_list y) as G by by rewrite <- Eu in G.
  unfold reload_mimic_stack, U. clear Eu U.
  match goal with |- context [bind (add_slots t reload) _ (spilling ?cv ?h ?N ?ss ?M ?l)] => destruct (add_slots_ok cv reload h N ss M l) as [h1 E1] end.
  rewrite (bind_run _ _ _ _ _ E1).
  match goal with |- context [bind (block_at (Some t)) _ ?U] => rewrite (bind_run _ _ _ z U) end.
  2: { unfold block_at, on_cfg, BasicBlock.deref. cbn. by rewrite Hz. }
  unfold bb_mimic_stack_is_resolved. rewrite bool_decide_eq_false_2 by (rewrite Hres; intros Hn; by apply Hn).
  match goal with |- context [bind (push_slots t ?ids) _ (spilling ?cv ?h ?N ?ss ?M ?l)] => destruct (push_slots_ok cv ids h N ss M l) as [h2 E2] end.
  rewrite (bind_run _ _ _ _ _ E2). rewrite rev_involutive. unfold bind at 1, get. unfold bind, set_entry_mimic, on_cfg, update. cbn [cfg ConvertSpill.spilling].
  change (bbs (set_heap h2 (cfg u))) with (bbs (cfg u)). rewrite Hz. eexists. split; [done|].
  cbn. unfold ir_of. cbn. by rewrite lookup_insert_eq.
Qed.
End reload.

(** ** A block and the next *)

Section next.
Context `{Allocator} `{Resolver} `{FloatsLaws} `{!JavaHeap} `{!JavaHeapLaws} (code : list Z).
Context (u : ir_unit) (b : nat) (x : basic_block) (y : bb_ir).
Context (Hmem : always_ok) (Hcode : Forall is_u8 code) (Hlen : Z.of_nat (length code) < 2 ^ 63).
Context (Hlist : Forall (λ i, (i < length (bbs (cfg u)))%nat) (bb_list (cfg u))).
Context (Hres : ∀ k idx m, call_target k idx = Some m → callee_ok m).
Context (Hx : bbs (cfg u) !! b = Some x) (Hy : irs u !! b = Some y).

Lemma mk_spilling u0 L :
  mk u0 b L = spilling (mk u0 b L) b (is_converted (ir_of u0 b)) (l_heap L) (l_nodes L) (l_stmts L) (l_stack L) (mimic_stack_exprs (ir_of u0 b)).
Proof. unfold spilling, mk. cbn. by rewrite insert_insert_eq. Qed.

Lemma settled_types N n s es S :
  Forall2 (settled N n s) es S → Forall2 (λ e t, ∀ N', node_ext N N' → vm_type_of N' e = Some t) es (val_type <$> S).
Proof.
  intros HF. induction HF as [|e v es S [Ht _] HF IH]; cbn; constructor; [|done].
  intros N' HN. eapply vm_type_of_ext; [done|done|apply mimic_val_type].
Qed.

(** The conversion of the block and the spilling of its stack: its statements take the
    branch that the virtual machine takes, with the operand stack in the slots; and a
    successor that is reached for the first time starts in a state that matches. *)
Lemma block_edge n s σ ct σ' :
  0 <= start x → start x < end_ x → ends_in_branch code (end_ x) n (start x) false = Some (has_branch x) →
  j_locals σ ⊆ e_locals (i_env s) → j_world σ = i_world s →
  Forall2 (settled (nodes u) (length (var_infos u)) s) (entry_stack x y) (j_stack σ) →
  jstrict code (end_ x) n (start x) false σ = Done ct σ' → match ct with JRet _ => False | _ => True end →
  ∃ u' reload new ctl s2,
    (do do_convert_bb_to_ir code b ;; spill_mimic_stack b) u = Done (Some reload) u' ∧
    stmt_list (ir_of u' b) = stmt_list y ++ new ∧
    (∀ Nf, node_ext (nodes u') Nf → exec_stmts Nf new s = Done ctl s2) ∧ ctl_like u' ct ctl ∧
    j_locals σ' ⊆ e_locals (i_env s2) ∧ j_world σ' = i_world s2 ∧
    (∀ i v, j_stack σ' !! i = Some v → e_slots (i_env s2) !! (false, Z.of_nat i) = Some v) ∧
    ∀ t z yt, bbs (cfg u') !! t = Some z → entry_mimic_stack_size z = -1 → irs u' !! t = Some yt → mimic_stack yt = [] →
      ∃ u'', reload_mimic_stack t reload u' = Done 0 u'' ∧ stmt_list (ir_of u'' t) = stmt_list yt ∧
        unit_match u'' t (edge (length (j_stack σ')) s2) σ'.
Proof using All.
  intros H0' Hse Hbr Hl Hw HM Er Hct. destruct (do_convert_start code u b x y Hmem Hx Hy) as [h E0].
  set (u1 := with_size u b x (entry_size x)) in *.
  assert (Hx1 : bbs (cfg u1) !! b = Some (set_entry_size (entry_size x) x)) by by apply with_size_block.
  destruct (insns_split code u1 b (set_entry_size (entry_size x) x) Hmem Hcode Hlen) with (n := n) (k := Datatypes.S (length code))
    (h := h) (p := start x) (o := 0) (c := 0) (ss := stmt_list y) (M := entry_stack x y) (N := nodes u) (V := var_infos u) (a := array_opc u)
    (s := s) (σ := σ) (pend := false) (ct := ct) (σ' := σ') (br := has_branch x) (last := false)
    as (L' & pre & tail & ctl & s1 & EL & Hss & Htl & HN & Xp & Ht & Hc & HM'); try done.
  { intros off. apply find_in_total. cbn. eapply Forall_impl; [exact Hlist|]. intros i Hi. by rewrite length_insert. }
  { lia. }
  destruct HM' as [Hl' [HM' Hw']]. rewrite EL in E0.
  set (U := mk u1 b L') in *. set (es := l_stack L') in *. set (S := j_stack σ') in *.
  destruct (spill_mimic_stack_ok U b (set_entry_size (entry_size x) x) Hmem Hx1 (is_converted (ir_of u1 b)) es (val_type <$> S) (l_heap L') (l_nodes L')
    (stmt_list y ++ pre) tail (mimic_stack_exprs (ir_of u1 b))) as [h2 ES]; [by eapply settled_types|done|].
  rewrite <- app_assoc, <- Hss in ES. unfold es in ES at 1. unfold U in ES at 1. rewrite <- mk_spilling in ES. fold U in ES.
  set (u' := spilling U b _ h2 _ _ _ _) in ES. pose proof HM' as Hlen'. apply Forall2_length in Hlen'.
  exists u', (entry_ids (length es) (length (l_nodes L'))), (pre ++ stores es (length (l_nodes L')) (end_ x) ++ tail), ctl, (spilled 0 S s1).
  destruct (spilled_same 0 S s1) as [Esl Esw].
  assert (HNu : node_ext (l_nodes L') (nodes u')) by apply node_ext_app.
  split; [by rewrite (bind_run _ _ _ _ _ E0)|]. split; [unfold u'; rewrite spilling_ir; cbn; by rewrite <- app_assoc|].
  split; [|split; [|split; [|split; [|split]]]].
  - intros Nf HNf. rewrite exec_stmts_app, Xp by (etrans; [exact HNu|exact HNf]). cbn [exec_from]. rewrite exec_stmts_app.
    rewrite (exec_stores Nf es S (val_type <$> S) (length (l_vars L')) 0 s1 s1 (l_nodes L') (l_nodes L'));
      [|exact HM'|rewrite length_fmap; symmetry; exact Hlen'|apply agree_refl|etrans; [exact HNu|exact HNf]|exact HNf]. cbn [exec_from].
    apply Ht; [etrans; [exact HNu|exact HNf]|apply spilled_agree].
  - exact Hc.
  - by rewrite Esl.
  - by rewrite Esw.
  - intros i v Ei. pose proof (spilled_slot 0 S s1 i v Ei) as E. exact E.
  - intros t z yt Hz Hzr Hyt Hmt.
    destruct (reload_mimic_stack_ok u' t z yt Hmem Hz Hyt Hzr (entry_ids (length es) (length (l_nodes L')))) as (u'' & E1 & EN & EV & EM & EST).
    exists u''. split; [exact E1|]. split; [exact EST|].
    split; [change (j_locals σ' ⊆ e_locals (i_env (spilled 0 S s1))); by rewrite Esl|].
    split; [change (j_world σ' = i_world (spilled 0 S s1)); by rewrite Esw|].
    rewrite EM, Hmt, app_nil_r, EN, Hlen'. apply (entry_settled S 0 (l_nodes L')); [reflexivity|].
    intros j v Ej. apply edge_slots_lookup; [apply lookup_lt_Some in Ej; fold S; lia|]. by apply (spilled_slot 0 S s1).
Qed.
End next.
