(* ===== verification/ConvertProps.v ===== *)
(** * Properties of the conversion of bytecode

    The theorems on a block and on the edges of the graph, at the machine of [ToyMachine]. *)

From S2P Require Import Prelude CMonad ConstantPool ClassFile ClassFileProps Opcodes Bytecode Types BasicBlock Tree ArgsMap Convert.
From S2P Require Import ConvertRun JavaMachine TreeSem ConvertSim ConvertCalls ConvertBlock ConvertBranch ConvertUnit ConvertSpill ToyMachine.
From stdpp Require Import gmap.
#[local] Open Scope Z_scope.

Section theorems.
Context `{Allocator} `{Resolver} `{FloatsLaws} `{!JavaHeap} `{!JavaHeapLaws} (code : list Z).
Context (u : ir_unit) (b : nat) (x : basic_block) (y : bb_ir).


End theorems.

(** ** A method *)

(** A method with two blocks: [max (a, new int[3].length) + 1], then, on the way to the
    second block, a value that stays on the stack over a conditional branch.

      0 iconst_3   1 newarray int   3 astore_2   4 iload_0   5 aload_2   6 arraylength
      7 invokestatic #7   10 istore_3   11 iload_3   12 iload_3   13 ifne 17   16 nop
      17 ireturn *)
Definition code0 : list Z :=
  [0x06; 0xbc; 10; 0x4d; 0x1a; 0x2c; 0xbe; 0xb8; 0; 7; 0x3e; 0x1d; 0x1d; 0x9a; 0; 4; 0; 0xac].
Definition unit0 : ir_unit :=
  IU (CU (Mem 0 ∅) [BB 0 16 true false false 17 [1; 2]%nat [] (-1) false; BB 16 17 false false false 0 [2]%nat [0]%nat (-1) false;
                   BB 17 18 false true false 0 [] [0; 1]%nat (-1) false] [0; 1; 2]%nat 3)
    (list_to_map [(0%nat, bi_empty); (1%nat, bi_empty); (2%nat, bi_empty)]) [] [] false [] [] (Ctx 0 0 0 0 false).
Definition locals0 : gmap Z val := {[0 := VInt 5]}.
Definition istate0 : istate := IS (Env locals0 ∅ ∅ (VRef 0)) ([] : list Z).
Definition jstate0 : jstate := JS locals0 [] ([] : list Z).
Definition block0 : basic_block := BB 0 16 true false false 17 [1; 2]%nat [] (-1) false.
Lemma code_u8 : Forall is_u8 code0.
Proof. apply (bool_decide_unpack _). vm_compute. exact I. Qed.
Lemma blocks_ok : Forall (λ i, (i < length (bbs (cfg unit0)))%nat) (bb_list (cfg unit0)).
Proof. apply (bool_decide_unpack _). vm_compute. exact I. Qed.



(** ** Where the meaning is not kept *)

(** A division whose result is popped is not done: iconst_1, iconst_0, idiv, pop, iconst_2,
    ireturn throws on the virtual machine and returns 2 after the conversion; the run is not
    [in_order]. *)
Definition dropped : list Z := [0x04; 0x03; 0x6c; 0x57; 0x05; 0xac].
Definition one_block (e : Z) : ir_unit :=
  IU (CU (Mem 0 ∅) [BB 0 e false true false 0 [] [] (-1) false] [0%nat] 1) {[0%nat := bi_empty]} [] [] false [] [] (Ctx 0 0 0 0 false).
Lemma pop_drops_exception :
  match jrun dropped 6 20 0 (JS ∅ [] ([] : list Z)) with Fail x _ => x = ArithmeticException | _ => False end ∧
  in_order dropped 6 20 0 false (JS ∅ [] ([] : list Z)) = false ∧
  match do_convert_bb_to_ir dropped 0 (one_block 6) with
  | Done _ u =>
    match exec_stmts (nodes u) (stmt_list (ir_of u 0)) istate0 with Done (IRet (Some (VInt z))) _ => z = 2 | _ => False end
  | _ => False
  end.
Proof. split; [vm_compute; reflexivity|]. split; vm_compute; reflexivity. Qed.

(** The program ends at a monitorenter of an object that has just been allocated: iconst_1,
    newarray int, monitorenter, return. *)
Definition locked : list Z := [0x04; 0xbc; 10; 0xc2; 0xb1].
Lemma monitorenter_ends_program :
  match do_convert_bb_to_ir locked 0 (one_block 5) with Fail Exit _ => True | _ => False end ∧
  match jexec 3 JMonitorenter (JS ∅ [VRef 1] [1]) with Done JNext _ => True | _ => False end.
Proof. split; vm_compute; exact I. Qed.
